(* ===== verification/_CoqProject ===== *)
-Q . S2P
Prelude.v
IdTable.v
RandomEngine.v
Queue.v
QueueFacts.v
QueueEdit.v
QueueOrder.v
QueuePriority.v
QueueProps.v
UTF8.v
TagString.v
CString.v
UriUtil.v
Decimal.v
AudioFormat.v
Tokenizer.v
Fifo.v
Tag.v
Song.v
Prog.v
Threads.v
Music.v
Decoder.v
DecoderFacts.v
Outputs.v
ArgParser.v
Client.v
ClientFacts.v
CommandTable.v
Player.v
PlayerTask.v
PlayerSteps.v
PlayerDecoder.v
PlayerOuts.v
PlayerStartup.v
PlayerCommands.v
PlayerChunks.v
PlayerMain.v
PlayerReal.v
ScriptedPlayer.v
Playlist.v
PlaylistFacts.v
PlaylistDelete.v
PlaylistControl.v
PlaylistEdits.v
PlaylistMoves.v
PlaylistInPlace.v
PlaylistSystem.v
PlaylistProps.v
PlayerProps.v
Commands.v
CommandLine.v
CommandProps.v
Samples.v
TextIO.v
SongFilter.v
Directory.v
DirectoryFacts.v
DatabaseProps.v
Pcm.v
PcmFacts.v
PcmProps.v
PcmConvert.v
PcmExport.v
PcmExportProps.v
PcmConvertProps.v
SongSave.v
SongSaveProps.v
DatabaseSave.v
DatabaseSaveProps.v
QueueSave.v
CueParser.v
CueProps.v
Icy.v
IcyProps.v
StoredPlaylists.v
StoredPlaylistsProps.v
