(* ===== verification/Prelude.v ===== *)
(** * A verification library for the Music Player Daemon

    The program under [src/src] is a music server: clients send command lines over a
    socket; the command layer turns them into requests of the playlist; the playlist keeps
    a queue of songs and hands them, one ahead of time, to the player, which runs in a
    thread of its own; the player starts a decoder thread, which fills chunks of a music
    buffer, and sends the chunks to the outputs.  The library follows this path from the
    bytes a client sends to the pipe the outputs play from, together with the string and
    tag code every song passes through.

    ** Files and modules, and the code they model

    A file holds the module of its name, and the modules of its lemmas or runs where these
    are small: [TextIO.v] also holds [Numbers], [Directory.v] holds [PathTraits],
    [SongSave.v] holds [TimeFacts], [QueueSave.v] holds [QueueSaveProps], [PcmFacts.v] holds
    [BufferFacts] and [FloatFacts], [CueProps.v] [CueSheet], [PlayerSteps.v] [PlayerRely],
    [PlayerOuts.v] [PlayerInv] and [PlayerPipes], [PlayerStartup.v] [PlayerErrands], [PlayerCommands.v] [PlayerSeek],
    [PlayerMain.v] [PlayerRun], [PlaylistEdits.v] [PlaylistOptions]; the files whose names
    end in [Props] hold the [Facts] and [Findings] that have no file of their own.

    - [Prelude]: assertions, thrown errors, array writes and counted loops; facts on lists.
    - [IdTable] ([queue/IdTable.hxx]), [RandomEngine] ([util/LazyRandomEngine]), [Queue]
      ([queue/Queue.hxx], [queue/Queue.cxx]): the song queue with its three numberings, the
      position, the id and the play order.  [QueueFacts], [QueueEdit], [QueueOrder],
      [QueuePriority] prove that the arrays represent a list of items; [QueueProps] states
      what each operation does.
    - [Player] ([player/Control]): the object shared with the player thread.  The thread
      itself is the class [PlayerThread] with the laws [PlayerThreadLaws]; it acts whenever
      the main thread releases the lock.  [ScriptedPlayer] is a small instance, [PlayerReal]
      the one made of the player thread's code.
    - [Threads]: programs of atomic actions that yield to other threads, and the rules by
      which they are verified against arbitrary interference.
    - [Music] ([util/SliceBuffer.hxx], [MusicChunk.cxx], [MusicBuffer.cxx],
      [MusicPipe.cxx]), [Decoder] ([decoder/DecoderControl.cxx], [decoder/Bridge.cxx],
      [decoder/DecoderThread.cxx], as the set of the thread's atomic sections) and
      [Outputs] ([output/MultipleOutputs.cxx]).  [DecoderFacts] proves that each section
      keeps the shared state in order.
    - [PlayerTask] ([player/Thread.cxx] and the client side of the decoder control): the
      player thread.  [PlayerRely] has what it relies on and promises, [PlayerInv] the
      invariants of a song being played; [PlayerSteps], [PlayerDecoder], [PlayerOuts],
      [PlayerPipes], [PlayerErrands], [PlayerStartup], [PlayerSeek], [PlayerCommands],
      [PlayerChunks], [PlayerRun] and [PlayerMain] verify it method by method;
      [PlayerProps] states the theorems and [PlayerFindings] has runs that show its flaws.
    - [Playlist] ([queue/Playlist.cxx], [queue/PlaylistControl.cxx],
      [queue/PlaylistEdit.cxx], [queue/PlaylistTag.cxx], [queue/PlaylistUpdate.cxx]):
      every method of [struct playlist] as a program ([Prog]) on the pair of playlist and
      player.  [PlaylistFacts] has the invariant; [PlaylistDelete], [PlaylistControl],
      [PlaylistOptions], [PlaylistEdits], [PlaylistMoves] and [PlaylistInPlace] prove it of
      each method; [PlaylistSystem] has the requests, the abstract specification and the
      conditions of use; [PlaylistProps] the theorems; [PlaylistFindings] runs in which the
      code fails without these conditions.
    - [Tokenizer] ([util/Tokenizer.cxx]), [ArgParser] ([protocol/ArgParser.cxx],
      [command/Request.hxx]), [CommandTable] ([Permission.cxx] and the table of
      [command/AllCommands.cxx]), [Commands] (the command handlers, [command_process],
      [client/ClientProcess.cxx], [client/ClientRead.cxx]): the command layer.
      [CommandLine] and [CommandProps] state its properties, [CommandFindings] has runs in
      which it departs from its documentation.
    - [Fifo] ([util/ForeignFifoBuffer.hxx], [util/DynamicFifoBuffer.hxx],
      [util/PeakBuffer.cxx], [util/CircularBuffer.hxx]) and [Client] ([client/*.cxx],
      [command/CommandListBuilder.cxx], [IdleFlags.cxx]): connections, their output buffer,
      idle notifications, subscriptions and messages.  [ClientFacts] has the invariant.
    - [UTF8] ([util/UTF8.cxx]), [TagString] ([tag/TagString.cxx]), [CString]
      ([util/StringCompare], [util/ASCII.hxx]), [UriUtil] ([util/UriUtil.cxx]), [Decimal]
      ([strtol] and [%u]), [AudioFormat] ([AudioFormat.cxx], [AudioParser.cxx]), [Tag]
      ([tag/Tag.cxx], [tag/TagBuilder.cxx]) and [Song] ([DetachedSong.cxx], [Chrono.hxx]).
    - [Samples] ([pcm/Traits.hxx], [pcm/ShiftConvert.hxx], [pcm/FloatConvert.hxx],
      [util/ConstBuffer.hxx]), [Pcm] ([pcm/PcmDither.cxx], [pcm/Volume.cxx],
      [pcm/PcmMix.cxx]), [PcmConvert] ([pcm/PcmFormat.cxx], [pcm/PcmChannels.cxx], the
      converters, [pcm/FallbackResampler.cxx], [pcm/GlueResampler.cxx],
      [pcm/PcmConvert.cxx]) and [PcmExport] ([pcm/PcmPack.cxx], [pcm/PcmDop.cxx],
      [pcm/PcmDsd.cxx], [pcm/Order.cxx], [util/ByteReverse.cxx], [pcm/PcmExport.cxx],
      [pcm/Interleave.cxx]): the sample arithmetic.  [PcmFacts], [BufferFacts],
      [FloatFacts], [PcmExportFacts] and [PcmConvertFacts] have the lemmas, [PcmProps],
      [PcmExportProps] and [PcmConvertProps] the theorems, [PcmFindings] runs that go wrong.
    - [TextIO] ([fs/io/BufferedOutputStream.cxx], [fs/io/BufferedReader.cxx],
      [util/TextFile.hxx]) and [Numbers] ([printf] and [strtod] on the doubles of [Chrono.hxx],
      [util/NumberParser.hxx]): text files.  [TimeFacts] bounds the rounding of stored times.
    - [SongFilter] ([SongFilter.cxx], [db/LightSong.hxx]), [PathTraits] ([fs/Traits.cxx]) and
      [Directory] ([db/plugins/simple]: the tree of directories, [SongSort.cxx], [Mount.cxx]
      and [SimpleDatabasePlugin.cxx], with [db/Selection.cxx] and [db/Helpers.cxx]): the song
      database.  [DirectoryFacts] has the lemmas on the tree, [DatabaseProps] the theorems,
      [DatabaseFindings] runs that go wrong.
    - [SongSave] ([SongSave.cxx], [TagSave.cxx]), [DatabaseSave]
      ([db/plugins/simple/DirectorySave.cxx], [DatabaseSave.cxx], [PlaylistDatabase.cxx], and
      [Save], [Load] and [Open] of the simple database) and [QueueSave] ([queue/QueueSave.cxx],
      [playlist/PlaylistSong.cxx] and the queue in [queue/PlaylistState.cxx]): what survives
      a restart.  [SongSaveFacts] and [DatabaseSaveFacts] have the lemmas, [SongSaveProps],
      [DatabaseSaveProps] and [QueueSaveProps] the round trips.
    - [CueParser] ([playlist/cue/CueParser.cxx], [playlist/plugins/CuePlaylistPlugin.cxx]) and
      [Icy] ([IcyMetaDataParser.cxx], [input/IcyInputStream.cxx]): the tracks of CUE sheets
      and the titles in radio streams.  [CueProps] has a specification of the parser on
      lines and, in [CueSheet], the theorem on printed sheets; [IcyProps] a specification
      that takes the stream byte by byte.
    - [StoredPlaylists] ([PlaylistFile.cxx], [PlaylistSave.cxx], the path functions of
      [Mapper.cxx] and [fs/Charset.cxx], [fs/io/FileOutputStream.cxx]): playlists kept as
      files, on a file system that is a map.  [StoredPlaylistsProps] has the refinement.

    ** How the code is rendered

    A method that can fail an assertion or leave an array is a function into [option];
    one that can also throw returns an [outcome]; one that changes a playlist, a player or
    a server is a [prog], a state monad whose exceptions keep the state reached so far.
    Structs are records and enums inductive types.  Positions, ids and order numbers are
    [nat] where the code has [unsigned] below the queue's capacity and [Z] where the sign or
    the width matters; the version counter, times, bit masks and decimal conversions wrap
    or saturate as in the code.  Strings are lists of bytes.  Code outside the repository,
    and parts that are not modelled, are classes: [RandomEngine], [PlayerThread],
    [Allocator], [ClientConfig], [PlayerConfig], [Environment], [OtherHandlers], [Heap] (the
    contents of new memory) and [Icu] (case folding and collation); each has an instance on
    which the theorems are run.  The song loader, the mask of enabled tags, the version
    string, the converter of the file system's character set, and the directories of music
    and playlists are arguments.

    Samples are integers that stay in the range of their type, a shift or sum that overflows
    is a failure, and buffers are bytes: [FromVoid] and [ToVoid] read and write typed
    samples in the byte order of the class [Host].  A buffer that is allocated and not
    written has the contents of the class [Memory], so that code which returns it shows.
    Floats are the binary32 values of the Standard Library's [SpecFloat].  A resampler is
    the class [PcmResampler] with the laws [PcmResamplerLaws]; the built-in one is an
    instance.

    A directory of the database is a value that holds its children; the parent pointer of
    the code is the path by which a directory is reached.  A writer is the list of its calls
    to the output stream, which [write_file] runs through the buffer; a reader works on the
    lines [ReadLine] gives.  The bytes of a file arrive in pieces of arbitrary sizes.

    A thread is a [proc]: other threads act where it takes or releases the mutex or waits
    on a condition, and nowhere else.  What the decoder plugins and the devices decide
    (which section of the decoder runs next, what the devices have consumed, what a call
    throws) is read from a script over which the theorems quantify.  Since a wait just
    returns at the next turn, a mutex that is not taken and a condition that is not
    signalled are not seen.

    The theorems on the threads hold under three conditions.  The setting
    [audio_output_format] is a complete format (the default is an empty mask, with which
    the format of the chunks varies from song to song).  The format of a player that
    has none yet, which the code leaves uninitialised, happens to be undefined.  And a
    decoder that is decoding and was not told to stop does not end while the player
    executes a SEEK ([PlayerReal.choose]); when it does, assertions of
    [DecoderControl::Seek] can fail, as the runs of [PlayerFindings] show.

    Loops over an index are [for_range]; a loop that is not structural takes fuel that is
    shown to suffice: [IdTable.GenerateId] the size of the table, the binary search of
    [command_lookup] the number of commands, the scanners the length of the string.  A turn
    of the player thread runs to its next yield with fuel [thread_cost]; a command is
    awaited for the length of the script plus [thread_cost] turns.  Lookups in the database
    take the length of the path, since each step consumes a segment; the readers of files
    the number of lines, since each round consumes one.

    ** What the theorems show

    - The queue: each operation runs without a failed assertion and changes the positions,
      ids and play order exactly as stated; ids always resolve; the version stays in range.
    - The playlist: from the empty playlist, whatever the clients request and the player
      does, the invariant holds and no assertion fails; every edit refines a specification
      on the list of songs with their priorities, the current song and the options, which
      also says which errors may be thrown when; when the player holds a song in advance,
      the song the playlist believes to be queued has its URI.
    - The player and decoder threads: under the conditions above, for every interleaving
      at the yields, no assertion of either thread fails, no slice of the music buffer is lost or owned twice, and every command the
      main thread posts is answered once the others are fair.  The player thread meets the
      interface the playlist is verified against, so the two run together.
    - The command layer: a line is split without damage, in a bounded number of steps, and
      quoting is undone; no handler runs without permission; the commands that control and
      edit the playlist, other than those on single tags and by URI, make exactly the calls
      their arguments name; a command list runs at its end, in order, up to the first
      command that fails.
    - Connections: no byte of output and no event is lost, duplicated or reordered.
    - Strings and formats: the UTF-8 validator decides a lenient grammar, which admits
      overlong forms and surrogates; tag values are brought into it; URIs, audio formats, tag
      names and argument ranges parse as printed.
    - Samples: dithering, cross-fading and volume never overflow and add no bias; the
      converter opens, converts and closes without a failed assertion and keeps frames
      whole; conversions that lose nothing are undone by their inverse; the export chain
      emits whole frames of the announced size, unless it has to reorder eight channels;
      interleaving puts every byte in its place; the built-in resampler is right for one and
      two channels.
    - The database: whatever is added, removed, pruned or sorted, the tree stays consistent,
      with or without the distinct names that the update of a container file does not
      ensure; as long as nothing is mounted, a query delivers exactly the songs a scan of all
      would select, and a song is found by its URI exactly when it exists; a filter means
      what its criteria say.  [DatabaseFindings] has what goes wrong with mounts.
    - Restarts: songs, the whole database and the queue written to a file and loaded again
      are the same up to what the format does not hold, which is stated exactly; a stored
      time is at most a millisecond too short.
    - Playlist files: edits of stored playlists do to the files what they do to lists of
      URIs, errors included; a CUE sheet gives the songs of its tracks; a radio stream is
      separated into its data and its titles, whatever pieces it arrives in.

    ** What is not modelled, and why

    Decoder plugins, output plugins and their threads, mixers, filters, inputs and the other
    playlist formats wrap third-party libraries and devices; the event loop, the storage plugins, the walk that
    updates the database, the other database plugins and the configuration do I/O.  Of the
    state file only the queue is modelled.  The cross-fade computation, replay
    gain, fractional times and the conversion of DSD to PCM are floating point code and left
    out, as are the samples in the chunks of the player's model; the sine used by [pcm_mix]
    is a parameter.  Commands that only print information are the class [OtherHandlers].

    Smaller simplifications: the file system of the stored playlists knows one error, the
    missing file; [CommandError.cxx] is modelled for the exceptions of the modelled handlers
    ([DatabaseError], [system_error] and [invalid_argument] are not among them); the database
    file is not compressed; the left shift of a negative sample is taken as the
    multiplication every compiler makes of it; [memcmp] on a string shorter than its
    operand is a comparison that fails. *)

From Stdlib Require Import ZArith Lia ZifyBool.
From stdpp Require Import base numbers strings option list.

Set Default Goal Selector "!".

(** ** Assertions

    The code guards its preconditions with [assert] and indexes plain C arrays.
    An operation that can violate an assertion or leave an array is modelled as
    a partial function into [option]: [None] stands for a failed assertion or an
    out-of-bounds access, so "the operation returns [Some _]" is the statement
    that neither happens. *)

(** Facts that discharge the guards of the code: [eauto with code] and
    [autorewrite with code] close the side conditions of runs that do not fail. *)
Create HintDb code.

Declare Scope code_scope.
Delimit Scope code_scope with code.

Definition check (b : bool) : option unit := if b then Some tt else None.

Notation "'assert!' b ;; k" := (check b ≫= λ _, k)
  (at level 100, b at level 99, k at level 200, right associativity) : code_scope.
Open Scope code_scope.

Lemma check_true b : b = true → check b = Some tt.
Proof. by intros ->. Qed.

Lemma check_bind {A} b (k : unit → option A) :
  b = true → check b ≫= k = k tt.
Proof. by intros ->. Qed.

(** ** Outcomes

    A function that can throw returns an [outcome]: a value, an exception, or
    [Abort] for a failed assertion or an undefined access. *)
Inductive outcome (E A : Type) :=
| Ret (a : A)
| Throw (e : E)
| Abort.
Arguments Ret {E A} _.
Arguments Throw {E A} _.
Arguments Abort {E A}.

#[export] Instance outcome_ret E : MRet (outcome E) := λ A a, Ret a.
#[export] Instance outcome_bind E : MBind (outcome E) := λ A B f m,
  match m with
  | Ret a => f a
  | Throw e => Throw e
  | Abort => Abort
  end.

(** A partial operation inside throwing code. *)
Definition of_option {E A} (m : option A) : outcome E A :=
  match m with Some a => Ret a | None => Abort end.

(** Indexed write [a[i] = x]: [None] outside the array. *)
Definition store {A} (i : nat) (x : A) (l : list A) : option (list A) :=
  if i <? length l then Some (<[i:=x]> l) else None.

Lemma store_Some {A} i x (l : list A) :
  i < length l → store i x l = Some (<[i:=x]> l).
Proof. intros H. unfold store. apply Nat.ltb_lt in H. by rewrite H. Qed.

#[export] Hint Resolve check_true store_Some : code.
#[export] Hint Extern 1 (_ < _) => lia : code.
#[export] Hint Extern 1 (_ ≤ _) => lia : code.
#[export] Hint Extern 1 (@eq bool _ _) => lia : code.

(** Running past an assertion or an indexed write whose side condition is arithmetic. *)
Ltac run_checks :=
  repeat first
    [ rewrite check_bind by eauto with code
    | rewrite store_Some by eauto with code ].

(** ** Counted loops

    [for_up n i body s] is [for (; n iterations; ++i) body], and [for_down n i]
    the loop that counts [i] down. *)

Fixpoint for_up {S} (n i : nat) (body : nat → S → option S) (s : S) : option S :=
  match n with
  | O => Some s
  | Datatypes.S n' => body i s ≫= λ s', for_up n' (Datatypes.S i) body s'
  end.

Fixpoint for_down {S} (n i : nat) (body : nat → S → option S) (s : S) : option S :=
  match n with
  | O => Some s
  | Datatypes.S n' => body i s ≫= λ s', for_down n' (i - 1) body s'
  end.

(** [for (i = a; i < b; i++)] and [for (i = a; i > b; i--)]. *)
Definition for_range {S} (a b : nat) (body : nat → S → option S) (s : S) : option S :=
  for_up (b - a) a body s.

Definition for_range_down {S} (a b : nat) (body : nat → S → option S) (s : S) : option S :=
  for_down (a - b) a body s.

(** Loop rules: an invariant indexed by the loop counter. *)
Lemma for_up_inv {S} (I : nat → S → Prop) (body : nat → S → option S) n i s :
  (∀ k s, i ≤ k < i + n → I k s → ∃ s', body k s = Some s' ∧ I (Datatypes.S k) s') →
  I i s → ∃ s', for_up n i body s = Some s' ∧ I (i + n) s'.
Proof.
  revert i s. induction n as [|n IH]; intros i s Hstep HI; simpl.
  { exists s. by rewrite Nat.add_0_r. }
  destruct (Hstep i s) as (s' & -> & HI'); [lia|done|]. simpl.
  destruct (IH (Datatypes.S i) s') as (s'' & -> & H'').
  - intros k s0 Hk. apply Hstep. lia.
  - done.
  - exists s''. split; [done|]. by replace (i + Datatypes.S n) with (Datatypes.S i + n) by lia.
Qed.

Lemma for_range_inv {S} (I : nat → S → Prop) (body : nat → S → option S) a b s :
  a ≤ b →
  (∀ k s, a ≤ k < b → I k s → ∃ s', body k s = Some s' ∧ I (Datatypes.S k) s') →
  I a s → ∃ s', for_range a b body s = Some s' ∧ I b s'.
Proof.
  intros Hab Hstep HI. unfold for_range.
  destruct (for_up_inv I body (b - a) a s) as (s' & Hs' & HI'); [|done|].
  - intros k s0 Hk. apply Hstep. lia.
  - exists s'. split; [done|]. by replace (a + (b - a)) with b in HI' by lia.
Qed.

Lemma for_range_empty {S} (body : nat → S → option S) a b s :
  b ≤ a → for_range a b body s = Some s.
Proof. intros H. unfold for_range. by replace (b - a) with 0 by lia. Qed.

Lemma for_range_down_empty {S} (body : nat → S → option S) a b s :
  a ≤ b → for_range_down a b body s = Some s.
Proof. intros H. unfold for_range_down. by replace (a - b) with 0 by lia. Qed.

Lemma for_range_down_inv {S} (I : nat → S → Prop) (body : nat → S → option S) a b s :
  b ≤ a →
  (∀ k s, b < k ≤ a → I k s → ∃ s', body k s = Some s' ∧ I (k - 1) s') →
  I a s → ∃ s', for_range_down a b body s = Some s' ∧ I b s'.
Proof.
  intros Hab Hstep HI. unfold for_range_down.
  remember (a - b) as n eqn:Hn. revert a s Hab Hn Hstep HI.
  induction n as [|n IH]; intros a s Hab Hn Hstep HI; simpl.
  { exists s. by replace b with a by lia. }
  destruct (Hstep a s) as (s' & -> & HI'); [lia|done|]. simpl.
  apply IH; [lia|lia| |done].
  intros k s0 Hk. apply Hstep. lia.
Qed.

(** ** Lists *)

(** A list of [n] distinct numbers below [n] is a permutation of [0 .. n-1]. *)
Lemma perm_seq_intro (l : list nat) n :
  length l = n → NoDup l → Forall (λ x, x < n) l → l ≡ₚ seq 0 n.
Proof.
  intros Hlen Hnd Hlt. apply submseteq_length_Permutation.
  - apply NoDup_submseteq; [done|]. intros x Hx. apply elem_of_seq.
    rewrite Forall_forall in Hlt. specialize (Hlt _ Hx). lia.
  - by rewrite length_seq, Hlen.
Qed.

Lemma perm_seq_elim (l : list nat) n :
  l ≡ₚ seq 0 n → length l = n ∧ NoDup l ∧ Forall (λ x, x < n) l.
Proof.
  intros Hp. split_and!.
  - by rewrite Hp, length_seq.
  - rewrite Hp. apply NoDup_seq.
  - rewrite Hp. apply Forall_forall. intros x Hx%elem_of_seq. lia.
Qed.

Lemma perm_seq_lookup (l : list nat) n i x :
  l ≡ₚ seq 0 n → l !! i = Some x → x < n.
Proof.
  intros (_ & _ & Hlt)%perm_seq_elim Hi. rewrite Forall_forall in Hlt.
  eapply Hlt, list_elem_of_lookup_2, Hi.
Qed.

(** [l] with the block [start, end_) moved so that it begins at [to]. *)
Definition move_list {A} (start end_ to : nat) (l : list A) : list A :=
  let rest := take start l ++ drop end_ l in
  take to rest ++ take (end_ - start) (drop start l) ++ drop to rest.

Lemma move_list_perm {A} start end_ to (l : list A) :
  start ≤ end_ → move_list start end_ to l ≡ₚ l.
Proof.
  intros Hse. unfold move_list.
  rewrite (Permutation_app_comm (take (end_ - start) _)), (assoc_L (++)), take_drop.
  rewrite <-(assoc_L (++)), (Permutation_app_comm (drop end_ l)).
  replace (drop end_ l) with (drop (end_ - start) (drop start l)).
  - by rewrite take_drop, take_drop.
  - rewrite drop_drop. f_equal. lia.
Qed.

Lemma length_move_list {A} start end_ to (l : list A) :
  start ≤ end_ → length (move_list start end_ to l) = length l.
Proof. intros. by apply Permutation_length, move_list_perm. Qed.

(** The position the element at [p] has after the move. *)
Definition move_pos (start end_ to p : nat) : nat :=
  if (start <=? p) && (p <? end_) then p + to - start
  else if (end_ <=? p) && (p <? to + end_ - start) then p - (end_ - start)
  else if (p <? start) && (to <=? p) then p + (end_ - start)
  else p.

Ltac len_simpl :=
  repeat first [ rewrite length_app | rewrite length_take | rewrite length_drop
               | rewrite length_insert | rewrite length_fmap | rewrite length_seq
               | rewrite length_replicate ].

Ltac lookup_app_cases :=
  repeat first
    [ rewrite lookup_app_l by (len_simpl; lia)
    | rewrite lookup_app_r by (len_simpl; lia)
    | rewrite lookup_take_lt by lia
    | rewrite lookup_drop
    | progress len_simpl ].

Lemma move_pos_inj start end_ to n p p' :
  start ≤ end_ ≤ n → to + (end_ - start) ≤ n → p < n → p' < n →
  move_pos start end_ to p = move_pos start end_ to p' → p = p'.
Proof. unfold move_pos. intros ????. repeat case_match; lia. Qed.

Lemma move_pos_lt start end_ to n p :
  start ≤ end_ ≤ n → to + (end_ - start) ≤ n → p < n → move_pos start end_ to p < n.
Proof. unfold move_pos. intros ???. repeat case_match; lia. Qed.

(** Moving the block back. *)
Lemma move_pos_inv start end_ to n p :
  start ≤ end_ ≤ n → to + (end_ - start) ≤ n → p < n →
  move_pos start end_ to (move_pos to (to + (end_ - start)) start p) = p.
Proof. unfold move_pos. intros ???. repeat case_match; lia. Qed.

Lemma lookup_move_list {A} start end_ to (l : list A) p :
  start ≤ end_ ≤ length l → to + (end_ - start) ≤ length l → p < length l →
  move_list start end_ to l !! move_pos start end_ to p = l !! p.
Proof.
  intros H1 H2 Hp. unfold move_list, move_pos.
  destruct ((start <=? p) && (p <? end_)) eqn:E1;
    [|destruct ((end_ <=? p) && (p <? to + end_ - start)) eqn:E2;
      [|destruct ((p <? start) && (to <=? p)) eqn:E3]];
    destruct (decide (p < start)), (decide (p < to)), (decide (to < start)); try lia;
    lookup_app_cases; f_equal; lia.
Qed.

(** A list is determined by where each element went. *)
Lemma move_list_unique {A} start end_ to (l l' : list A) :
  start ≤ end_ ≤ length l → to + (end_ - start) ≤ length l → length l' = length l →
  (∀ p, p < length l → l' !! move_pos start end_ to p = l !! p) →
  l' = move_list start end_ to l.
Proof.
  intros H1 H2 Hlen Hl. apply list_eq. intros p.
  destruct (decide (p < length l)) as [Hp|Hp].
  - rewrite <-(move_pos_inv start end_ to (length l) p) by lia.
    assert (move_pos to (to + (end_ - start)) start p < length l)
      by (apply move_pos_lt; lia).
    by rewrite lookup_move_list, Hl by lia.
  - rewrite !lookup_ge_None_2; [done|rewrite length_move_list; lia|lia].
Qed.

Lemma filter_none {A} (P : A → Prop) `{!∀ x, Decision (P x)} l :
  Forall (λ x, ¬ P x) l → filter P l = [].
Proof.
  induction 1 as [|x l Hx Hl IH]; [done|]. by rewrite filter_cons_False.
Qed.

(** Rewriting a boolean guard whose value is forced by arithmetic. *)
Tactic Notation "guard_true" constr(b) :=
  replace b with true by lia.
Tactic Notation "guard_false" constr(b) :=
  replace b with false by lia.

(** ** Bytes

    A C string or byte buffer is a list of bytes, each an integer in [0, 256). *)
Definition is_byte (b : Z) : Prop := (0 ≤ b < 256)%Z.

(** Bytes of an ASCII literal. *)
Definition str (s : string) : list Z :=
  (λ c, Z.of_N (Ascii.N_of_ascii c)) <$> String.list_ascii_of_string s.

(** Deciding a property of all bytes by enumeration. *)
Lemma byte_forall (P : Z → bool) :
  forallb P (seqZ 0 256) = true → ∀ b, is_byte b → P b = true.
Proof.
  intros H b Hb. rewrite forallb_forall in H. apply H.
  apply list_elem_of_In, elem_of_seqZ. unfold is_byte in Hb. lia.
Qed.

Ltac by_bytes b Hb P :=
  let H := fresh in pose proof (byte_forall P eq_refl b Hb) as H; simpl in H.
