(* ===== verification/IdTable.v ===== *)
(** * Id table *)

From Stdlib Require Import ZArith Lia ZifyBool.
From stdpp Require Import base numbers sets list.
From S2P Require Import Prelude.

Set Default Goal Selector "!".

Module IdTable.

(** [class IdTable]: [data] maps an id to a position, or to [-1] when the id is
    free; [next] is the id tried first by the next allocation. *)
Record t := mk {
  size : nat;
  next : nat;
  data : list Z;
}.

(** The constructor: every id is free and id 0 is never handed out. *)
Definition make (_size : nat) : t :=
  {| size := _size; next := 1; data := replicate _size (-1)%Z |}.

Definition IdToPosition (t : t) (id : nat) : option Z :=
  if id <? size t then data t !! id else Some (-1)%Z.

(** The loop body of [GenerateId] advances [next] around the table, skipping 0. *)
Fixpoint GenerateId_loop (fuel : nat) (t : t) : option (nat * IdTable.t) :=
  match fuel with
  | O => None
  | S fuel =>
      let id := next t in
      let next' := if S (next t) =? size t then 1 else S (next t) in
      let t' := {| size := size t; next := next'; data := data t |} in
      data t !! id ≫= λ d,
      if (d <? 0)%Z then Some (id, t') else GenerateId_loop fuel t'
  end.

Definition GenerateId (t : t) : option (nat * IdTable.t) :=
  assert! 0 <? next t ;;
  assert! next t <? size t ;;
  GenerateId_loop (size t) t.

Definition set_data (t : t) (d : list Z) : IdTable.t :=
  {| size := size t; next := next t; data := d |}.

Definition Insert (position : nat) (t : t) : option (nat * IdTable.t) :=
  GenerateId t ≫= λ '(id, t'),
  store id (Z.of_nat position) (data t') ≫= λ d,
  Some (id, set_data t' d).

Definition Move (id position : nat) (t : t) : option IdTable.t :=
  assert! id <? size t ;;
  data t !! id ≫= λ d,
  assert! (0 <=? d)%Z ;;
  store id (Z.of_nat position) (data t) ≫= λ d',
  Some (set_data t d').

Definition Erase (id : nat) (t : t) : option IdTable.t :=
  assert! id <? size t ;;
  data t !! id ≫= λ d,
  assert! (0 <=? d)%Z ;;
  store id (-1)%Z (data t) ≫= λ d',
  Some (set_data t d').

(** Well-formedness: the array has the announced size and [next] is a legal id. *)
Record wf (t : t) : Prop := {
  wf_size : length (data t) = size t;
  wf_next : 0 < next t < size t;
}.

(** [holds ids pos t]: the live ids are exactly [ids], and the [j]-th of them is
    recorded at position [pos j]. *)
Record holds (ids : list nat) (pos : nat → nat) (t : t) : Prop := {
  holds_wf : wf t;
  holds_nodup : NoDup ids;
  holds_at j id : ids !! j = Some id →
    0 < id < size t ∧ data t !! id = Some (Z.of_nat (pos j));
  holds_live id z : data t !! id = Some z → (0 ≤ z)%Z → id ∈ ids;
}.

Lemma holds_ext ids pos pos' t :
  (∀ j, j < length ids → pos j = pos' j) → holds ids pos t → holds ids pos' t.
Proof.
  intros Hext [? ? Hat ?]; split; try done. intros j id Hj.
  rewrite <-Hext by (by eapply lookup_lt_Some). by apply Hat.
Qed.

Lemma make_holds n pos : 2 ≤ n → holds [] pos (make n).
Proof.
  intros Hn. split; simpl.
  - split; simpl; [by rewrite length_replicate|lia].
  - constructor.
  - by intros j id Hj; rewrite lookup_nil in Hj.
  - intros id z [-> _]%lookup_replicate. lia.
Qed.

(** After every live id has been moved to its own place in [ids']. *)
Lemma holds_reindex ids ids' pos t :
  holds ids pos t → ids' ≡ₚ ids →
  (∀ j id, ids !! j = Some id → ids' !! pos j = Some id) →
  holds ids' (λ j, j) t.
Proof.
  intros [Hwf Hnd Hat Hlive] Hp Hix.
  assert (Hnd' : NoDup ids') by by rewrite Hp.
  split; [done|done| |].
  - intros p id Hid.
    assert (Hin : id ∈ ids) by (rewrite <-Hp; by eapply list_elem_of_lookup_2).
    apply list_elem_of_lookup in Hin as [j Hj].
    destruct (Hat _ _ Hj) as [Hb Hd]. split; [done|].
    replace p with (pos j); [done|]. eapply NoDup_lookup; [done|by apply Hix|done].
  - intros id z Hz Hpos. rewrite Hp. eauto.
Qed.

(** Distance from [n] to [f] when counting up around the table, skipping 0. *)
Definition dist (sz n f : nat) : nat := if n <=? f then f - n else sz - 1 - n + f.

Lemma GenerateId_loop_total fuel t f z :
  wf t → 0 < f < size t → data t !! f = Some z → (z < 0)%Z →
  dist (size t) (next t) f < fuel →
  ∃ id t' d, GenerateId_loop fuel t = Some (id, t') ∧
    wf t' ∧ data t' = data t ∧ size t' = size t ∧
    0 < id < size t ∧ data t !! id = Some d ∧ (d < 0)%Z.
Proof.
  revert t. induction fuel as [|fuel IH]; intros t Hwf Hf Hz Hneg Hd; [lia|].
  destruct Hwf as [Hsz Hn]. simpl.
  destruct (lookup_lt_is_Some_2 (data t) (next t)) as [d Hdn]; [lia|].
  rewrite Hdn. simpl.
  set (n' := if S (next t) =? size t then 1 else S (next t)).
  assert (Hn' : 0 < n' < size t) by (subst n'; case_match; lia).
  destruct (d <? 0)%Z eqn:Hlt.
  - eexists _, _, d. split_and!; [done|by split|done|done|lia|lia|done|lia].
  - edestruct (IH {| size := size t; next := n'; data := data t |})
      as (id & t' & d' & Hl & Hwf' & Hdata & Hsize & Hrest); simpl in *.
    + by split.
    + done.
    + exact Hz.
    + done.
    + assert (next t ≠ f) by (intros Hnf; rewrite Hnf in Hdn; simplify_eq; lia).
      subst n'. unfold dist in *. repeat case_match; lia.
    + exists id, t', d'. destruct_and!. split_and!; done.
Qed.

(** A free id exists while fewer than [size - 1] ids are live. *)
Lemma free_id_exists ids pos t :
  holds ids pos t → length ids < size t - 1 →
  ∃ f z, 0 < f < size t ∧ data t !! f = Some z ∧ (z < 0)%Z.
Proof.
  intros [[Hsz Hn] Hnd Hat Hlive] Hlen.
  destruct (decide (Exists (λ f, f ∉ ids) (seq 1 (size t - 1)))) as [Hex|Hall].
  - apply Exists_exists in Hex as (f & Hf%elem_of_seq & Hni).
    destruct (lookup_lt_is_Some_2 (data t) f) as [z Hz]; [lia|].
    exists f, z. split_and!; [lia|lia|done|].
    destruct (decide (z < 0)%Z); [done|]. exfalso. apply Hni, (Hlive f z); [done|lia].
  - exfalso. apply not_Exists_Forall in Hall; [|apply _].
    assert (Hsub : seq 1 (size t - 1) ⊆ ids).
    { intros f Hf. rewrite Forall_forall in Hall. apply dec_stable, Hall, Hf. }
    pose proof (NoDup_submseteq _ _ (NoDup_seq 1 (size t - 1)) Hsub) as Hle%submseteq_length.
    rewrite length_seq in Hle. lia.
Qed.

Lemma GenerateId_total ids pos t :
  holds ids pos t → length ids < size t - 1 →
  ∃ id t', GenerateId t = Some (id, t') ∧ holds ids pos t' ∧
    size t' = size t ∧ 0 < id < size t ∧ id ∉ ids.
Proof.
  intros Hh Hlen. destruct (free_id_exists _ _ _ Hh Hlen) as (f & z & Hf & Hz & Hneg).
  destruct Hh as [Hwf Hnd Hat Hlive].
  unfold GenerateId. rewrite !check_bind by (destruct Hwf; lia).
  destruct (GenerateId_loop_total (size t) t f z)
    as (id & t' & d & -> & Hwf' & Hdata & Hsize & Hid & Hd & Hdneg); try done.
  { destruct Hwf. unfold dist. case_match; lia. }
  exists id, t'. split_and!; try done; try lia.
  - split; try done; rewrite ?Hdata, ?Hsize; eauto.
  - intros [j Hj]%list_elem_of_lookup. apply Hat in Hj as [_ Hj].
    rewrite Hj in Hd. simplify_eq. lia.
Qed.

(** Updating the position of a live id. *)
Lemma Move_holds ids pos t j id p :
  holds ids pos t → ids !! j = Some id →
  ∃ t', Move id p t = Some t' ∧ size t' = size t ∧
    holds ids (λ k, if k =? j then p else pos k) t'.
Proof.
  intros [[Hsz Hn] Hnd Hat Hlive] Hj. pose proof (Hat _ _ Hj) as [Hid Hd].
  unfold Move. rewrite check_bind by lia. rewrite Hd. simpl.
  rewrite check_bind by lia. rewrite store_Some by lia. simpl.
  eexists. split_and!; [done|done|]. split; simpl.
  - split; simpl; [by rewrite length_insert|done].
  - done.
  - intros k id' Hk. pose proof (Hat _ _ Hk) as [Hid' Hd']. split; [done|].
    destruct (k =? j) eqn:Hkj.
    + apply Nat.eqb_eq in Hkj as ->. simplify_eq.
      by rewrite list_lookup_insert_eq by lia.
    + rewrite list_lookup_insert_ne; [done|]. intros ->.
      apply Nat.eqb_neq in Hkj. apply Hkj. by eapply NoDup_lookup.
  - intros id' z. destruct (decide (id' = id)) as [->|Hne].
    + intros _ _. by eapply list_elem_of_lookup_2.
    + rewrite list_lookup_insert_ne by done. eauto.
Qed.

(** Allocating an id for a new element. *)
Lemma Insert_holds ids pos t p :
  holds ids pos t → length ids < size t - 1 →
  ∃ id t', Insert p t = Some (id, t') ∧ size t' = size t ∧ (id ∉ ids) ∧
    holds (ids ++ [id]) (λ k, if k =? length ids then p else pos k) t'.
Proof.
  intros Hh Hlen.
  destruct (GenerateId_total _ _ _ Hh Hlen) as (id & t' & Hg & Hh' & Hsize & Hid & Hni).
  destruct Hh' as [[Hsz Hn] Hnd Hat Hlive].
  unfold Insert. rewrite Hg. simpl. rewrite store_Some by lia. simpl.
  eexists id, _. split_and!; [done|done|done|]. split; simpl.
  - split; simpl; [by rewrite length_insert|lia].
  - apply NoDup_app. split_and!; [done|set_solver|apply NoDup_singleton].
  - intros k id' Hk. apply lookup_app_Some in Hk as [Hk|[Hlen' Hk]].
    + pose proof (Hat _ _ Hk) as [Hid' Hd']. split; [lia|].
      pose proof (lookup_lt_Some _ _ _ Hk).
      rewrite (proj2 (Nat.eqb_neq _ _)) by lia.
      rewrite list_lookup_insert_ne; [done|]. intros ->. apply Hni.
      by eapply list_elem_of_lookup_2.
    + pose proof (lookup_lt_Some _ _ _ Hk) as Hlt. simpl in Hlt.
      replace (k - length ids) with 0 in Hk by lia. simplify_eq/=. split; [lia|].
      rewrite (proj2 (Nat.eqb_eq _ _)) by lia.
      by rewrite list_lookup_insert_eq by lia.
  - intros id' z. destruct (decide (id' = id)) as [->|Hne].
    + set_solver.
    + rewrite list_lookup_insert_ne by done. set_solver.
Qed.

(** Releasing a live id. *)
Lemma Erase_holds ids pos t j id :
  holds ids pos t → ids !! j = Some id →
  ∃ t', Erase id t = Some t' ∧ size t' = size t ∧
    holds (delete j ids) (λ k, if k <? j then pos k else pos (S k)) t'.
Proof.
  intros [[Hsz Hn] Hnd Hat Hlive] Hj. pose proof (Hat _ _ Hj) as [Hid Hd].
  unfold Erase. rewrite check_bind by lia. rewrite Hd. simpl.
  rewrite check_bind by lia. rewrite store_Some by lia. simpl.
  eexists. split_and!; [done|done|].
  assert (Hkey : ∀ k id', ids !! k = Some id' → k ≠ j →
     <[id:=(-1)%Z]> (data t) !! id' = Some (Z.of_nat (pos k))).
  { intros k id' Hk Hkj. pose proof (Hat _ _ Hk) as [Hid' Hd'].
    rewrite list_lookup_insert_ne; [done|]. intros ->. by eapply Hkj, NoDup_lookup. }
  split; simpl.
  - split; simpl; [by rewrite length_insert|done].
  - by apply (sublist_NoDup _ ids), sublist_delete.
  - intros k id' Hk. destruct (decide (k < j)) as [Hlt|Hge].
    + rewrite list_lookup_delete_lt in Hk by lia. rewrite (proj2 (Nat.ltb_lt _ _)) by lia.
      split; [by apply (Hat k)|]. apply Hkey; [done|lia].
    + rewrite list_lookup_delete_ge in Hk by lia. rewrite (proj2 (Nat.ltb_ge _ _)) by lia.
      split; [by apply (Hat (S k))|]. apply Hkey; [done|lia].
  - intros id' z. destruct (decide (id' = id)) as [->|Hne].
    + rewrite list_lookup_insert_eq by lia. intros [= <-]. lia.
    + rewrite list_lookup_insert_ne by done. intros Hz Hpos.
      destruct (proj1 (list_elem_of_lookup _ _) (Hlive _ _ Hz Hpos)) as [k Hk].
      apply list_elem_of_lookup. destruct (decide (k < j)).
      * exists k. by rewrite list_lookup_delete_lt by lia.
      * exists (k - 1). assert (k ≠ j) by (intros ->; simplify_eq).
        rewrite list_lookup_delete_ge by lia. by replace (S (k - 1)) with k by lia.
Qed.

Lemma IdToPosition_live ids pos t j id :
  holds ids pos t → ids !! j = Some id → IdToPosition t id = Some (Z.of_nat (pos j)).
Proof.
  intros [[Hsz Hn] Hnd Hat Hlive] Hj. pose proof (Hat _ _ Hj) as [Hid Hd].
  unfold IdToPosition. by rewrite (proj2 (Nat.ltb_lt _ _)) by lia.
Qed.

Lemma IdToPosition_dead ids pos t id :
  holds ids pos t → id ∉ ids → ∃ z, IdToPosition t id = Some z ∧ (z < 0)%Z.
Proof.
  intros [[Hsz Hn] Hnd Hat Hlive] Hni. unfold IdToPosition.
  destruct (id <? size t) eqn:Hlt; [|by exists (-1)%Z].
  apply Nat.ltb_lt in Hlt. destruct (lookup_lt_is_Some_2 (data t) id) as [z Hz]; [lia|].
  exists z. split; [done|]. destruct (decide (z < 0)%Z); [done|].
  exfalso. apply Hni, (Hlive id z); [done|lia].
Qed.

End IdTable.
