(* ===== verification/RandomEngine.v ===== *)
(** * Random engine

    [util/LazyRandomEngine] and the parts of the C++ [<random>] and [<algorithm>]
    headers the queue draws on.  The engine and the distributions belong to the
    C++ library: they are a class of operations with the laws the standard
    documents, and the queue is verified against every engine that obeys them. *)

From Stdlib Require Import ZArith Lia ZifyBool.
From stdpp Require Import base numbers sets list.
From S2P Require Import Prelude.

Set Default Goal Selector "!".

Class RandomEngine (G : Type) := {
  (** a fresh [std::mt19937] seeded from [std::random_device] *)
  device_seed : G;
  (** [std::uniform_int_distribution(lo, hi)(engine)] *)
  uniform : nat → nat → G → nat * G;
  (** [std::shuffle(first, last, engine)] on the elements of the range *)
  std_shuffle : list nat → G → list nat * G;
}.

Class RandomEngineLaws (G : Type) `{!RandomEngine G} := {
  uniform_bounds lo hi g : lo ≤ hi → lo ≤ (uniform lo hi g).1 ≤ hi;
  std_shuffle_perm l g : (std_shuffle l g).1 ≡ₚ l;
}.

(** [LazyRandomEngine]: the engine is created on first use; [None] is the null
    [engine] pointer. *)
Definition LazyRandomEngine (G : Type) := option G.

Definition AutoCreate {G} `{!RandomEngine G} (e : LazyRandomEngine G) : LazyRandomEngine G :=
  match e with
  | Some _ => e
  | None => Some device_seed
  end.

(** A concrete engine: a linear congruential generator and the Fisher-Yates
    shuffle. *)
Module Lcg.

Definition step (g : Z) : Z := ((1103515245 * g + 12345) mod 2147483648)%Z.

Definition draw (lo hi : nat) (g : Z) : nat * Z :=
  let g' := step g in
  (lo + Z.to_nat ((g' / 65536) mod Z.of_nat (S (hi - lo))), g').

(** Pick one of the remaining elements, [length l] times. *)
Fixpoint pick (fuel : nat) (l : list nat) (g : Z) : list nat * Z :=
  match fuel, l with
  | S fuel, x :: _ =>
      let '(i, g) := draw 0 (length l - 1) g in
      let y := l !!! i in
      let '(r, g) := pick fuel (delete i l) g in
      (y :: r, g)
  | _, _ => (l, g)
  end.

#[export] Instance lcg : RandomEngine Z := {
  device_seed := 42%Z;
  uniform := draw;
  std_shuffle := λ l g, pick (length l) l g;
}.

Lemma draw_bounds lo hi g : lo ≤ hi → lo ≤ (draw lo hi g).1 ≤ hi.
Proof.
  intros H. simpl.
  pose proof (Z.mod_pos_bound (step g / 65536) (Z.of_nat (S (hi - lo))) ltac:(lia)). lia.
Qed.

Lemma pick_perm fuel l g : (pick fuel l g).1 ≡ₚ l.
Proof.
  revert l g. induction fuel as [|fuel IH]; intros l g; [done|].
  destruct l as [|x l]; [done|]. cbn [pick].
  pose proof (draw_bounds 0 (length (x :: l) - 1) g ltac:(lia)) as Hb.
  destruct (draw 0 (length (x :: l) - 1) g) as [i g'] eqn:Hd.
  cbn [fst] in Hb.
  pose proof (IH (delete i (x :: l)) g') as Hp.
  destruct (pick fuel (delete i (x :: l)) g') as [r g''] eqn:Hr.
  cbn [fst] in *. rewrite Hp.
  destruct (lookup_lt_is_Some_2 (x :: l) i) as [y Hy]; [simpl in *; lia|].
  rewrite (list_lookup_total_correct _ _ _ Hy).
  symmetry. by apply delete_Permutation.
Qed.

#[export] Instance lcg_laws : RandomEngineLaws Z.
Proof. split; [apply draw_bounds|intros l g; apply pick_perm]. Qed.

End Lcg.
