(* ===== verification/Queue.v ===== *)
(** * Queue

    [queue/Queue.hxx] and [queue/Queue.cxx]: the play queue.  Songs are addressed
    by position (the index into [items]), by id (stable under moves) and by order
    number (the play order; it differs from the position in random mode). *)

From Stdlib Require Import ZArith Lia ZifyBool.
From stdpp Require Import base numbers sets list.
From S2P Require Import Prelude IdTable RandomEngine.

Set Default Goal Selector "!".

Module Queue.

(** [struct Queue::Item].  [song] is the pointer to the heap object and
    [song_data] the object it owns. *)
Record Item {Song : Type} := mkItem {
  song : nat;
  song_data : Song;
  id : nat;
  item_version : Z;
  priority : Z;
}.
Arguments Item : clear implicits.
Arguments mkItem {Song} _ _ _ _ _.

(** [struct Queue].  [items] and [order] are the arrays of [max_length] elements;
    only the first [length] are live, a slot never written is [None]. *)
Record Queue {Song G : Type} := mkQueue {
  max_length : nat;
  length : nat;
  version : Z;
  items : list (option (Item Song));
  order : list nat;
  id_table : IdTable.t;
  repeat : bool;
  single : bool;
  consume : bool;
  random : bool;
  rand : LazyRandomEngine G;
}.
Arguments Queue : clear implicits.
Arguments mkQueue {Song G} _ _ _ _ _ _ _ _ _ _ _.

Definition HASH_MULT : nat := 4.

Section Operations.
Context {Song G : Type} `{!RandomEngine G}.
#[local] Abbreviation Queue := (Queue Song G).
#[local] Abbreviation Item := (Item Song).

(** Field updates. *)
Definition set_length (q : Queue) n : Queue :=
  mkQueue (max_length q) n (version q) (items q) (order q) (id_table q)
    (repeat q) (single q) (consume q) (random q) (rand q).
Definition set_version (q : Queue) v : Queue :=
  mkQueue (max_length q) (length q) v (items q) (order q) (id_table q)
    (repeat q) (single q) (consume q) (random q) (rand q).
Definition set_items (q : Queue) i : Queue :=
  mkQueue (max_length q) (length q) (version q) i (order q) (id_table q)
    (repeat q) (single q) (consume q) (random q) (rand q).
Definition set_order (q : Queue) o : Queue :=
  mkQueue (max_length q) (length q) (version q) (items q) o (id_table q)
    (repeat q) (single q) (consume q) (random q) (rand q).
Definition set_id_table (q : Queue) t : Queue :=
  mkQueue (max_length q) (length q) (version q) (items q) (order q) t
    (repeat q) (single q) (consume q) (random q) (rand q).
Definition set_repeat (q : Queue) b : Queue :=
  mkQueue (max_length q) (length q) (version q) (items q) (order q) (id_table q)
    b (single q) (consume q) (random q) (rand q).
Definition set_single (q : Queue) b : Queue :=
  mkQueue (max_length q) (length q) (version q) (items q) (order q) (id_table q)
    (repeat q) b (consume q) (random q) (rand q).
Definition set_consume (q : Queue) b : Queue :=
  mkQueue (max_length q) (length q) (version q) (items q) (order q) (id_table q)
    (repeat q) (single q) b (random q) (rand q).
Definition set_random (q : Queue) b : Queue :=
  mkQueue (max_length q) (length q) (version q) (items q) (order q) (id_table q)
    (repeat q) (single q) (consume q) b (rand q).
Definition set_rand (q : Queue) g : Queue :=
  mkQueue (max_length q) (length q) (version q) (items q) (order q) (id_table q)
    (repeat q) (single q) (consume q) (random q) g.

Definition with_version (it : Item) v : Item :=
  mkItem (song it) (song_data it) (id it) v (priority it).
Definition with_priority (it : Item) p : Item :=
  mkItem (song it) (song_data it) (id it) (item_version it) p.
Definition with_song (it : Item) s : Item :=
  mkItem (song it) s (id it) (item_version it) (priority it).

(** The constructor. *)
Definition make (_max_length : nat) : Queue :=
  mkQueue _max_length 0 1 (replicate _max_length None) (replicate _max_length 0)
    (IdTable.make (_max_length * HASH_MULT)) false false false false None.

Definition GetLength (q : Queue) : option nat :=
  assert! length q <=? max_length q ;; Some (length q).

Definition IsEmpty (q : Queue) : bool := length q =? 0.

Definition IsFull (q : Queue) : option bool :=
  assert! length q <=? max_length q ;; Some (max_length q <=? length q).

Definition IsValidPosition (q : Queue) (position : nat) : bool := position <? length q.
Definition IsValidOrder (q : Queue) (_order : nat) : bool := _order <? length q.

Definition IdToPosition (q : Queue) (id : nat) : option Z :=
  IdTable.IdToPosition (id_table q) id.

(** [items[i]]: reading a slot that holds no item is undefined. *)
Definition item_at (q : Queue) (i : nat) : option Item := mjoin (items q !! i).

Definition PositionToId (q : Queue) (position : nat) : option nat :=
  assert! position <? length q ;;
  it ← item_at q position; Some (id it).

Definition OrderToPosition (q : Queue) (_order : nat) : option nat :=
  assert! _order <? length q ;; order q !! _order.

(** The unbounded search loop of [PositionToOrder]; the assertion [i < length]
    bounds it. *)
Fixpoint PositionToOrder_loop (fuel : nat) (q : Queue) (position i : nat) : option nat :=
  match fuel with
  | O => None
  | S fuel =>
      assert! i <? length q ;;
      p ← order q !! i;
      if p =? position then Some i else PositionToOrder_loop fuel q position (S i)
  end.

Definition PositionToOrder (q : Queue) (position : nat) : option nat :=
  assert! position <? length q ;;
  PositionToOrder_loop (S (length q)) q position 0.

Definition GetPriorityAtPosition (q : Queue) (position : nat) : option Z :=
  assert! position <? length q ;;
  it ← item_at q position; Some (priority it).

Definition GetOrderItem (q : Queue) (i : nat) : option Item :=
  assert! IsValidOrder q i ;;
  p ← OrderToPosition q i; item_at q p.

Definition GetOrderPriority (q : Queue) (i : nat) : option Z :=
  it ← GetOrderItem q i; Some (priority it).

(** [Get] returns a reference to the song; here the item that owns it. *)
Definition Get (q : Queue) (position : nat) : option Item :=
  assert! position <? length q ;; item_at q position.

Definition GetOrder (q : Queue) (_order : nat) : option Item :=
  p ← OrderToPosition q _order; Get q p.

Definition IsNewerAtPosition (q : Queue) (position : nat) (_version : Z) : option bool :=
  assert! position <? length q ;;
  it ← item_at q position;
  Some ((version q <? _version) || (_version <=? item_version it)
        || (item_version it =? 0))%Z.

(** [int GetNextOrder(unsigned)]: -1 stops playback. *)
Definition GetNextOrder (q : Queue) (_order : nat) : option Z :=
  assert! _order <? length q ;;
  Some (if single q && repeat q && negb (consume q) then Z.of_nat _order
        else if _order + 1 <? length q then Z.of_nat (_order + 1)
        else if repeat q && ((0 <? _order) || negb (consume q)) then 0%Z
        else (-1)%Z).

Definition version_max : Z := 2147483647.  (* ((uint32_t)1 << 31) - 1 *)

Definition write_item (i : nat) (it : Item) (q : Queue) : option Queue :=
  l ← store i (Some it) (items q); Some (set_items q l).

(** [items[i].version = v] *)
Definition set_item_version (v : Z) (i : nat) (q : Queue) : option Queue :=
  it ← item_at q i; write_item i (with_version it v) q.

Definition IncrementVersion (q : Queue) : option Queue :=
  let q := set_version q ((version q + 1) mod 2 ^ 32)%Z in
  if (version_max <=? version q)%Z then
    q ← for_range 0 (length q) (set_item_version 0) q;
    Some (set_version q 1)
  else Some q.

Definition ModifyAtPosition (position : nat) (q : Queue) : option Queue :=
  assert! position <? length q ;;
  set_item_version (version q) position q.

Definition ModifyAtOrder (_order : nat) (q : Queue) : option Queue :=
  assert! _order <? length q ;;
  position ← order q !! _order;
  ModifyAtPosition position q.

(** [Append]: [ptr] is the address [new DetachedSong] returns. *)
Definition Append (ptr : nat) (s : Song) (prio : Z) (q : Queue) : option (nat * Queue) :=
  full ← IsFull q;
  assert! negb full ;;
  let position := length q in
  let q := set_length q (S (length q)) in
  '(i, t) ← IdTable.Insert position (id_table q);
  let q := set_id_table q t in
  q ← write_item position (mkItem ptr s i (version q) prio) q;
  o ← store position position (order q);
  Some (i, set_order q o).

Definition table_Move (i p : nat) (q : Queue) : option Queue :=
  t ← IdTable.Move i p (id_table q); Some (set_id_table q t).

Definition SwapPositions (position1 position2 : nat) (q : Queue) : option Queue :=
  it1 ← item_at q position1;
  it2 ← item_at q position2;
  q ← write_item position1 it2 q;
  q ← write_item position2 it1 q;
  q ← set_item_version (version q) position1 q;
  q ← set_item_version (version q) position2 q;
  q ← table_Move (id it1) position2 q;
  table_Move (id it2) position1 q.

Definition SwapOrders (order1 order2 : nat) (q : Queue) : option Queue :=
  a ← order q !! order1;
  b ← order q !! order2;
  o ← store order1 b (order q);
  o ← store order2 a o;
  Some (set_order q o).

Definition MoveItemTo (from to : nat) (q : Queue) : option Queue :=
  it ← item_at q from;
  q ← write_item to it q;
  q ← set_item_version (version q) to q;
  table_Move (id it) to q.

(** [order[i] = f(order[i])] for every live [i]. *)
Definition map_order (f : nat → nat) (q : Queue) : option Queue :=
  for_range 0 (length q) (λ i q,
    p ← order q !! i;
    o ← store i (f p) (order q);
    Some (set_order q o)) q.

(** Writing a saved item back at its new place. *)
Definition put_item (tmp : Item) (to : nat) (q : Queue) : option Queue :=
  q ← table_Move (id tmp) to q;
  q ← write_item to tmp q;
  set_item_version (version q) to q.

Definition MovePostion (from to : nat) (q : Queue) : option Queue :=
  tmp ← item_at q from;
  q ← for_range from to (λ i q, MoveItemTo (i + 1) i q) q;
  q ← for_range_down from to (λ i q, MoveItemTo (i - 1) i q) q;
  q ← put_item tmp to q;
  if random q then
    map_order (λ p,
      if (from <? p) && (p <=? to) then p - 1
      else if (p <? from) && (to <=? p) then p + 1
      else if from =? p then to
      else p) q
  else Some q.

(** The unsigned arithmetic on positions never wraps in the final value:
    [p += to - start] is computed as [(p + to) - start] with [start <= p]. *)
Definition MoveRange (start end_ to : nat) (q : Queue) : option Queue :=
  tmp ← mapM (item_at q) (seq start (end_ - start));
  q ← for_range end_ (end_ + to - start) (λ i q, MoveItemTo i (start + i - end_) q) q;
  q ← for_range_down start to (λ i q, MoveItemTo (i - 1) (i - 1 + end_ - start) q) q;
  q ← for_range start end_ (λ i q,
        it ← tmp !! (i - start);
        put_item it (to + i - start) q) q;
  if random q then
    map_order (λ p,
      if (end_ <=? p) && (p <? to + end_ - start) then p - (end_ - start)
      else if (p <? start) && (to <=? p) then p + (end_ - start)
      else if (start <=? p) && (p <? end_) then p + to - start
      else p) q
  else Some q.

(** [order[dst] = order[src]] *)
Definition copy_order (src dst : nat) (q : Queue) : option Queue :=
  p ← order q !! src;
  o ← store dst p (order q);
  Some (set_order q o).

Definition MoveOrder (from_order to_order : nat) (q : Queue) : option Queue :=
  assert! from_order <? length q ;;
  assert! to_order <=? length q ;;
  from_position ← OrderToPosition q from_order;
  q ← (if from_order <? to_order then
         for_range from_order to_order (λ i q, copy_order (i + 1) i q) q
       else
         for_range_down from_order to_order (λ i q, copy_order (i - 1) i q) q);
  o ← store to_order from_position (order q);
  Some (set_order q o).

Definition DeletePosition (position : nat) (q : Queue) : option Queue :=
  assert! position <? length q ;;
  i ← PositionToId q position;
  _order ← PositionToOrder q position;
  let q := set_length q (length q - 1) in
  t ← IdTable.Erase i (id_table q);
  let q := set_id_table q t in
  q ← for_range position (length q) (λ i q, MoveItemTo (i + 1) i q) q;
  q ← for_range _order (length q) (λ i q, copy_order (i + 1) i q) q;
  map_order (λ p, if position <? p then p - 1 else p) q.

Definition Clear (q : Queue) : option Queue :=
  q ← for_range 0 (length q) (λ i q,
        it ← item_at q i;
        t ← IdTable.Erase (id it) (id_table q);
        Some (set_id_table q t)) q;
  Some (set_length q 0).

Definition RestoreOrder (q : Queue) : option Queue :=
  for_range 0 (length q) (λ i q,
    o ← store i i (order q); Some (set_order q o)) q.

(** [std::stable_sort] with the comparator [a.priority > b.priority]: insertion
    from the right keeps equal elements in their original order. *)
Fixpoint sort_insert (x : nat * Z) (l : list (nat * Z)) : list (nat * Z) :=
  match l with
  | [] => [x]
  | y :: l' => if (x.2 <? y.2)%Z then y :: sort_insert x l' else x :: l
  end.

Definition stable_sort (l : list (nat * Z)) : list (nat * Z) := foldr sort_insert [] l.

(** Replace the elements [start, start + length l) of an array. *)
Definition write_range {A} (start : nat) (l a : list A) : list A :=
  take start a ++ l ++ drop (start + List.length l) a.

Definition read_range {A} (start end_ : nat) (a : list A) : list A :=
  take (end_ - start) (drop start a).

Definition queue_sort_order_by_priority (start end_ : nat) (q : Queue) : option Queue :=
  assert! random q ;;
  assert! start <=? end_ ;;
  assert! end_ <=? length q ;;
  l ← mapM (λ p, it ← item_at q p; Some (p, priority it))
         (read_range start end_ (order q));
  Some (set_order q (write_range start (fst <$> stable_sort l) (order q))).

Definition ShuffleOrderRange (start end_ : nat) (q : Queue) : option Queue :=
  assert! random q ;;
  assert! start <=? end_ ;;
  assert! end_ <=? length q ;;
  g ← AutoCreate (rand q);
  let '(l, g') := std_shuffle (read_range start end_ (order q)) g in
  Some (set_rand (set_order q (write_range start l (order q))) (Some g')).

(** The state of the grouping loop: [group_start], [group_priority] and the queue. *)
Definition shuffle_group_step (i : nat) (s : nat * Z * Queue) : option (nat * Z * Queue) :=
  let '(group_start, group_priority, q) := s in
  prio ← GetOrderPriority q i;
  assert! (prio <=? group_priority)%Z ;;
  if negb (prio =? group_priority)%Z then
    q ← ShuffleOrderRange group_start i q;
    Some (i, prio, q)
  else Some s.

Definition ShuffleOrderRangeWithPriority (start end_ : nat) (q : Queue) : option Queue :=
  assert! random q ;;
  assert! start <=? end_ ;;
  assert! end_ <=? length q ;;
  if start =? end_ then Some q
  else
    q ← queue_sort_order_by_priority start end_ q;
    group_priority ← GetOrderPriority q start;
    '(group_start, _, q) ←
      for_range (start + 1) end_ shuffle_group_step (start, group_priority, q);
    ShuffleOrderRange group_start end_ q.

Definition ShuffleOrder (q : Queue) : option Queue :=
  ShuffleOrderRangeWithPriority 0 (length q) q.

(** A draw from [uniform_int_distribution(lo, hi)]; [lo <= hi] is required. *)
Definition draw (lo hi : nat) (q : Queue) : option (nat * Queue) :=
  assert! lo <=? hi ;;
  g ← AutoCreate (rand q);
  let '(n, g') := uniform lo hi g in
  Some (n, set_rand q (Some g')).

Definition ShuffleOrderFirst (start end_ : nat) (q : Queue) : option Queue :=
  '(r, q) ← draw start (end_ - 1) q;
  SwapOrders start r q.

Definition ShuffleOrderLast (start end_ : nat) (q : Queue) : option Queue :=
  '(r, q) ← draw start (end_ - 1) q;
  SwapOrders (end_ - 1) r q.

Definition ShuffleRange (start end_ : nat) (q : Queue) : option Queue :=
  assert! start <=? end_ ;;
  assert! end_ <=? length q ;;
  for_range start end_ (λ i q,
    '(ri, q) ← draw start (end_ - 1) q;
    SwapPositions i ri q) (set_rand q (AutoCreate (rand q))).

(** The two search loops; [n] counts the remaining order numbers. *)
Fixpoint FindPriorityOrder_loop (n i : nat) (q : Queue) (prio : Z) (exclude_order : nat)
    : option nat :=
  match n with
  | O => Some (length q)
  | S n =>
      position ← OrderToPosition q i;
      it ← item_at q position;
      if (priority it <=? prio)%Z && negb (i =? exclude_order) then Some i
      else FindPriorityOrder_loop n (S i) q prio exclude_order
  end.

Definition FindPriorityOrder (q : Queue) (start_order : nat) (prio : Z)
    (exclude_order : nat) : option nat :=
  assert! random q ;;
  assert! start_order <=? length q ;;
  FindPriorityOrder_loop (length q - start_order) start_order q prio exclude_order.

Fixpoint CountSamePriority_loop (n i : nat) (q : Queue) (start_order : nat) (prio : Z)
    : option nat :=
  match n with
  | O => Some (length q - start_order)
  | S n =>
      position ← OrderToPosition q i;
      it ← item_at q position;
      if negb (priority it =? prio)%Z then Some (i - start_order)
      else CountSamePriority_loop n (S i) q start_order prio
  end.

Definition CountSamePriority (q : Queue) (start_order : nat) (prio : Z) : option nat :=
  assert! random q ;;
  assert! start_order <=? length q ;;
  CountSamePriority_loop (length q - start_order) start_order q start_order prio.

(** Does [SetPriority] leave the order alone?  [after_order] is an [int]; -1 means
    that no song is current. *)
Definition keeps_order (q : Queue) (_order : nat) (after_order old_priority prio : Z)
    : option bool :=
  if (0 <=? after_order)%Z then
    if _order =? Z.to_nat after_order then Some true
    else if _order <? Z.to_nat after_order then
      after_position ← OrderToPosition q (Z.to_nat after_order);
      after_item ← item_at q after_position;
      Some ((prio <=? old_priority) || (prio <=? priority after_item))%Z
    else Some false
  else Some false.

Definition SetPriority (position : nat) (prio after_order : Z) (reorder : bool) (q : Queue)
    : option (bool * Queue) :=
  assert! position <? length q ;;
  item ← item_at q position;
  let old_priority := priority item in
  if (old_priority =? prio)%Z then Some (false, q)
  else
    q ← write_item position (with_priority (with_version item (version q)) prio) q;
    if negb (random q) || negb reorder then Some (true, q)
    else
      _order ← PositionToOrder q position;
      keep ← keeps_order q _order after_order old_priority prio;
      if (keep : bool) then Some (true, q)
      else
        before_order ← FindPriorityOrder q (Z.to_nat (after_order + 1)) prio _order;
        let new_order := if _order <? before_order then before_order - 1 else before_order in
        q ← MoveOrder _order new_order q;
        priority_count ← CountSamePriority q new_order prio;
        assert! 1 <=? priority_count ;;
        q ← ShuffleOrderFirst new_order (new_order + priority_count) q;
        Some (true, q).

Definition SetPriorityRange (start_position end_position : nat) (prio after_order : Z)
    (q : Queue) : option (bool * Queue) :=
  assert! start_position <=? end_position ;;
  assert! end_position <=? length q ;;
  after_position ← (if (0 <=? after_order)%Z
                    then p ← OrderToPosition q (Z.to_nat after_order); Some (Z.of_nat p)
                    else Some (-1)%Z);
  for_range start_position end_position (λ i '(modified, q),
    after_order ← (if (0 <=? after_position)%Z
                   then o ← PositionToOrder q (Z.to_nat after_position); Some (Z.of_nat o)
                   else Some (-1)%Z);
    '(m, q) ← SetPriority i prio after_order true q;
    Some (modified || m, q)) (false, q).

End Operations.

End Queue.
