(* ===== verification/QueueFacts.v ===== *)
(** * Queue invariant

    [repr q its]: the queue [q] represents the item list [its] (in position
    order).  Every operation of [Queue] is shown to run without violating an
    assertion or leaving an array, to preserve the representation, and to have
    the effect on [its] and on the play order that its contract announces. *)

From Stdlib Require Import ZArith Lia ZifyBool.
From stdpp Require Import base numbers sets list.
From S2P Require Import Prelude IdTable RandomEngine Queue.

Set Default Goal Selector "!".

Module QueueFacts.
Import Queue.

#[local] Abbreviation llen := List.length.

Section Facts.
Context {Song G : Type} `{!RandomEngine G, !RandomEngineLaws G}.
Implicit Types (q : Queue Song G) (it : Item Song) (its : list (Item Song)).

(** The live part of the order array. *)
Definition ord q : list nat := take (length q) (order q).

(** Song ids in play order. *)
Definition played q its : list nat := omap (λ p, id <$> its !! p) (ord q).

Record repr q its : Prop := {
  r_len : llen its = length q;
  r_cap : length q ≤ max_length q;
  r_items : llen (items q) = max_length q;
  r_order_cap : llen (order q) = max_length q;
  r_at i it : its !! i = Some it → items q !! i = Some (Some it);
  r_order : ord q ≡ₚ seq 0 (length q);
  r_ids : IdTable.holds (id <$> its) (λ j, j) (id_table q);
  r_tsize : IdTable.size (id_table q) = max_length q * HASH_MULT;
  r_ptr : NoDup (song <$> its);
  r_version : (1 ≤ version q < version_max)%Z;
  r_versions : Forall (λ it, 0 ≤ item_version it ≤ version q)%Z its;
  r_prio : Forall (λ it, 0 ≤ priority it ≤ 255)%Z its;
}.

(** Outside random mode the order is the identity. *)
Definition plain_order q : Prop := random q = false → ord q = seq 0 (length q).

Lemma item_at_lookup q i it : items q !! i = Some (Some it) → item_at q i = Some it.
Proof. intros H. unfold item_at. by rewrite H. Qed.

Lemma repr_item_at q its i it : repr q its → its !! i = Some it → item_at q i = Some it.
Proof. intros Hr Hi. by eapply item_at_lookup, r_at. Qed.

Lemma repr_lookup q its i : repr q its → i < length q →
  ∃ it, its !! i = Some it ∧ item_at q i = Some it.
Proof.
  intros Hr Hi. destruct (lookup_lt_is_Some_2 its i) as [it Hit].
  { by rewrite (r_len _ _ Hr). }
  exists it. split; [done|]. by eapply repr_item_at.
Qed.

Lemma ord_lookup q i : i < length q → ord q !! i = order q !! i.
Proof. intros Hi. unfold ord. by rewrite lookup_take_lt. Qed.

Lemma repr_ord_len q its : repr q its → llen (ord q) = length q.
Proof. intros Hr. by rewrite (r_order _ _ Hr), length_seq. Qed.

Lemma repr_order_lookup q its o : repr q its → o < length q →
  ∃ p, order q !! o = Some p ∧ ord q !! o = Some p ∧ p < length q.
Proof.
  intros Hr Ho. destruct (lookup_lt_is_Some_2 (ord q) o) as [p Hp].
  { by rewrite (repr_ord_len _ _ Hr). }
  exists p. split_and!; [by rewrite <-ord_lookup|done|].
  by eapply perm_seq_lookup; [apply Hr|].
Qed.

Lemma OrderToPosition_ok q its o : repr q its → o < length q →
  ∃ p, OrderToPosition q o = Some p ∧ ord q !! o = Some p ∧ p < length q.
Proof.
  intros Hr Ho. destruct (repr_order_lookup _ _ _ Hr Ho) as (p & Hp & Hp' & Hlt).
  exists p. unfold OrderToPosition. rewrite check_bind by lia. done.
Qed.

(** The search of [PositionToOrder] finds the order number of every position. *)
Lemma PositionToOrder_loop_ok q position o : ∀ fuel i,
  ord q !! o = Some position → NoDup (ord q) → i ≤ o → o - i < fuel → o < length q →
  PositionToOrder_loop fuel q position i = Some o.
Proof.
  induction fuel as [|fuel IH]; intros i Ho Hnd Hi Hf Hlt; [lia|]. simpl.
  rewrite check_bind by lia. rewrite <-ord_lookup by lia.
  pose proof (lookup_lt_Some _ _ _ Ho) as Hol.
  destruct (lookup_lt_is_Some_2 (ord q) i) as [p Hp]; [lia|]. rewrite Hp. simpl.
  destruct (p =? position) eqn:E.
  - apply Nat.eqb_eq in E as ->. f_equal. by eapply NoDup_lookup.
  - assert (i ≠ o) by (intros ->; simplify_eq; lia). apply IH; try done; lia.
Qed.

Lemma PositionToOrder_ok q its position : repr q its → position < length q →
  ∃ o, PositionToOrder q position = Some o ∧ ord q !! o = Some position ∧ o < length q.
Proof.
  intros Hr Hp.
  assert (Hin : position ∈ ord q).
  { rewrite (r_order _ _ Hr). apply elem_of_seq. lia. }
  apply list_elem_of_lookup in Hin as [o Ho].
  pose proof (lookup_lt_Some _ _ _ Ho) as Hol. rewrite (repr_ord_len _ _ Hr) in Hol.
  exists o. split_and!; [|done|done].
  unfold PositionToOrder. rewrite check_bind by lia.
  apply (PositionToOrder_loop_ok q position o); [done| |lia|lia|done].
  by apply (perm_seq_elim _ _ (r_order _ _ Hr)).
Qed.

Lemma PositionToOrder_inv q its position o : repr q its →
  PositionToOrder q position = Some o → ord q !! o = Some position ∧ o < length q.
Proof.
  intros Hr H. destruct (decide (position < length q)) as [Hlt|Hge].
  - destruct (PositionToOrder_ok _ _ _ Hr Hlt) as (o' & H' & ?). by simplify_eq.
  - unfold PositionToOrder in H.
    replace (position <? length q) with false in H by lia. done.
Qed.

(** ** Operations on items and the id table

    The item operations change [items] and [id_table] only. *)
Definition upd q l t : Queue Song G := set_id_table (set_items q l) t.

Lemma upd_id q : upd q (items q) (id_table q) = q.
Proof. by destruct q. Qed.

Lemma item_at_upd q l t i it : l !! i = Some (Some it) → item_at (upd q l t) i = Some it.
Proof. intros H. by apply item_at_lookup. Qed.

Lemma write_item_upd q l t i it : i < llen l →
  write_item i it (upd q l t) = Some (upd q (<[i:=Some it]> l) t).
Proof. intros H. unfold write_item. simpl. by rewrite store_Some. Qed.

Lemma set_item_version_upd q l t v i it : l !! i = Some (Some it) →
  set_item_version v i (upd q l t) = Some (upd q (<[i:=Some (with_version it v)]> l) t).
Proof.
  intros H. unfold set_item_version. rewrite (item_at_upd _ _ _ _ _ H). simpl.
  apply write_item_upd. by eapply lookup_lt_Some.
Qed.

(** The table after the [j]-th live id has been moved to [p]. *)
Definition pos_upd (pos : nat → nat) j p : nat → nat := λ k, if k =? j then p else pos k.

Lemma table_Move_upd q l t ids pos j i p :
  IdTable.holds ids pos t → ids !! j = Some i →
  ∃ t', table_Move i p (upd q l t) = Some (upd q l t') ∧
    IdTable.size t' = IdTable.size t ∧ IdTable.holds ids (pos_upd pos j p) t'.
Proof.
  intros Hh Hj. destruct (IdTable.Move_holds _ _ _ _ _ p Hh Hj) as (t' & Hm & Hs & Hh').
  exists t'. unfold table_Move. simpl. by rewrite Hm.
Qed.

Lemma put_item_upd q l t ids pos j it p :
  IdTable.holds ids pos t → ids !! j = Some (id it) → p < llen l →
  ∃ t', put_item it p (upd q l t)
        = Some (upd q (<[p:=Some (with_version it (version q))]> l) t') ∧
    IdTable.size t' = IdTable.size t ∧ IdTable.holds ids (pos_upd pos j p) t'.
Proof.
  intros Hh Hj Hp. unfold put_item.
  destruct (table_Move_upd q l t ids pos j (id it) p Hh Hj) as (t' & -> & Hs & Hh'). simpl.
  rewrite write_item_upd by done. simpl.
  erewrite set_item_version_upd by (by apply list_lookup_insert_eq). simpl.
  rewrite list_insert_insert_eq. eauto.
Qed.

Lemma MoveItemTo_upd q l t ids pos j it from to :
  IdTable.holds ids pos t → l !! from = Some (Some it) → ids !! j = Some (id it) →
  to < llen l →
  ∃ t', MoveItemTo from to (upd q l t)
        = Some (upd q (<[to:=Some (with_version it (version q))]> l) t') ∧
    IdTable.size t' = IdTable.size t ∧ IdTable.holds ids (pos_upd pos j to) t'.
Proof.
  intros Hh Hl Hj Hto. unfold MoveItemTo. rewrite (item_at_upd _ _ _ _ _ Hl). simpl.
  rewrite write_item_upd by done. simpl.
  erewrite set_item_version_upd by (by apply list_lookup_insert_eq). simpl.
  rewrite list_insert_insert_eq. by apply table_Move_upd.
Qed.

(** ** Operations on the order array *)

Lemma take_S_lookup {A} (l : list A) n x :
  l !! n = Some x → take (S n) l = take n l ++ [x].
Proof. apply take_S_r. Qed.

Lemma map_order_ok f q : length q ≤ llen (order q) →
  map_order f q = Some (set_order q ((f <$> ord q) ++ drop (length q) (order q))).
Proof.
  intros Hcap. unfold map_order.
  destruct (for_range_inv
    (λ k q', q' = set_order q ((f <$> take k (order q)) ++ drop k (order q)))
    (λ i q, order q !! i ≫= λ p, store i (f p) (order q) ≫= λ o, Some (set_order q o))
    0 (length q) q) as (q' & Hq' & ->); [lia| |by destruct q|done].
  intros k q' Hk ->. simpl.
  destruct (lookup_lt_is_Some_2 (order q) k) as [p Hp]; [lia|].
  rewrite lookup_app_r by (len_simpl; lia). rewrite lookup_drop. len_simpl.
  replace (k + (k - k `min` llen (order q))) with k by lia. rewrite Hp. simpl.
  rewrite store_Some by (len_simpl; lia). simpl. eexists; split; [done|].
  unfold set_order; simpl. f_equal.
  rewrite insert_app_r_alt by (len_simpl; lia). len_simpl.
  replace (k - k `min` llen (order q)) with 0 by lia.
  rewrite (drop_S _ _ _ Hp), (take_S_lookup _ _ _ Hp), fmap_app. simpl.
  by rewrite <-(assoc_L (++)).
Qed.

(** Everything but items, order, ids and the random engine. *)
Definition cfg q :=
  (max_length q, length q, version q, repeat q, single q, consume q, random q).

Lemma cfg_length q q' : cfg q' = cfg q → length q' = length q.
Proof. unfold cfg. congruence. Qed.

Lemma cfg_random q q' : cfg q' = cfg q → random q' = random q.
Proof. unfold cfg. congruence. Qed.

Lemma ord_set_order q l k : llen l = length q → ord (set_order q (l ++ k)) = l.
Proof. intros H. unfold ord. simpl. by rewrite take_app_length' by lia. Qed.

(** Replacing the live order by a permutation. *)
Lemma repr_set_order q its l : repr q its → l ≡ₚ seq 0 (length q) →
  repr (set_order q (l ++ drop (length q) (order q))) its.
Proof.
  intros Hr Hl. pose proof (perm_seq_elim _ _ Hl) as (Hlen & _ & _).
  destruct Hr. split; try done; simpl.
  - len_simpl. lia.
  - by rewrite ord_set_order by done.
Qed.

Lemma repr_set_rand q its g : repr q its → repr (set_rand q g) its.
Proof. intros []. by split. Qed.

(** A position map that is injective below [length]. *)
Lemma fmap_perm_seq f (l : list nat) n :
  l ≡ₚ seq 0 n → (∀ x, x < n → f x < n) → (∀ x y, x < n → y < n → f x = f y → x = y) →
  f <$> l ≡ₚ seq 0 n.
Proof.
  intros Hl Hb Hinj. pose proof (perm_seq_elim _ _ Hl) as (Hlen & Hnd & Hlt).
  apply perm_seq_intro.
  - by len_simpl.
  - apply NoDup_fmap_2_strong; [|done]. intros x y Hx Hy.
    rewrite Forall_forall in Hlt. by apply Hinj; apply Hlt.
  - rewrite Forall_fmap. eapply Forall_impl; [done|]. intros x. apply Hb.
Qed.

(** ** MoveRange *)

Section MoveRange.
Context (q : Queue Song G) (its : list (Item Song)) (start end_ to : nat).
Hypothesis (Hr : repr q its) (Hse : start < end_ ≤ length q)
  (Hto : to + (end_ - start) ≤ length q).

#[local] Abbreviation mp := (move_pos start end_ to).
#[local] Abbreviation in_block j := ((start <=? j) && (j <? end_)).

(** Is the item at [j] rewritten (and so marked as changed)? *)
Definition moved j : bool := in_block j || negb (mp j =? j).

Definition bump it : Item Song := with_version it (version q).

(** The slot content that ends up at [mp j]. *)
Definition dest j : option (option (Item Song)) :=
  (λ o : option (Item Song), if moved j then bump <$> o else o) <$> items q !! j.

Lemma slot j : j < length q → ∃ it, its !! j = Some it ∧ items q !! j = Some (Some it) ∧
  (id <$> its) !! j = Some (id it).
Proof.
  intros Hj. destruct (repr_lookup _ _ _ Hr Hj) as (it & Hit & _).
  exists it. split_and!; [done|by eapply r_at|by rewrite list_lookup_fmap, Hit].
Qed.

(** Loop state: [l], [t] are the current arrays, [fin j] says that the item
    originally at [j] has reached its destination. *)
Record moving (fin : nat → bool) (l : list (option (Item Song))) (t : IdTable.t) : Prop := {
  m_len : llen l = max_length q;
  m_size : IdTable.size t = IdTable.size (id_table q);
  m_done j : j < length q → fin j = true → l !! mp j = dest j;
  m_holds : IdTable.holds (id <$> its) (λ j, if fin j && moved j then mp j else j) t;
}.

(** An item outside the block that keeps its place is not touched. *)
Lemma dest_fixed j : mp j = j ∧ in_block j = false → items q !! mp j = dest j.
Proof.
  intros [Hmp Hb]. unfold dest, moved. rewrite Hmp, Hb, Nat.eqb_refl. simpl.
  by destruct (items q !! j).
Qed.

Lemma mp_cap j : j < length q → mp j < max_length q.
Proof.
  intros Hj. pose proof (move_pos_lt start end_ to (length q) j ltac:(lia) Hto Hj).
  pose proof (r_cap _ _ Hr). lia.
Qed.

(** Writing the bumped item of [j] at its destination. *)
Lemma moving_insert (fin fin' : nat → bool) l t t' j it :
  moving fin l t → j < length q → items q !! j = Some (Some it) → moved j = true →
  (∀ k, fin' k = fin k || (k =? j)) →
  IdTable.size t' = IdTable.size t →
  IdTable.holds (id <$> its)
    (pos_upd (λ k, if fin k && moved k then mp k else k) j (mp j)) t' →
  moving fin' (<[mp j := Some (bump it)]> l) t'.
Proof.
  intros [Hl Hs Hd Hh] Hj Hit Hm Hfin Hs' Hh'. split.
  - by len_simpl.
  - congruence.
  - intros k Hk Hf. destruct (decide (k = j)) as [->|Hne].
    + rewrite list_lookup_insert_eq by (rewrite Hl; by apply mp_cap).
      unfold dest. by rewrite Hit, Hm.
    + rewrite list_lookup_insert_ne.
      * apply Hd; [done|]. rewrite Hfin in Hf. replace (k =? j) with false in Hf by lia.
        by rewrite orb_false_r in Hf.
      * intros Heq. apply Hne. apply (move_pos_inj start end_ to (length q)); [lia|done..].
  - eapply IdTable.holds_ext; [|done].
    intros k _. unfold pos_upd. rewrite Hfin. destruct (k =? j) eqn:E.
    + apply Nat.eqb_eq in E as ->. by rewrite orb_true_r, Hm.
    + by rewrite orb_false_r.
Qed.

Lemma moving_put fin fin' l t j it :
  moving fin l t → j < length q → its !! j = Some it → moved j = true →
  (∀ k, fin' k = fin k || (k =? j)) →
  ∃ t', put_item it (mp j) (upd q l t) = Some (upd q (<[mp j := Some (bump it)]> l) t') ∧
    moving fin' (<[mp j := Some (bump it)]> l) t'.
Proof.
  intros Hm Hj Hit Hmv Hfin. destruct (slot j Hj) as (it' & Hit' & Hsl & Hid).
  rewrite Hit in Hit'. injection Hit' as <-.
  destruct (put_item_upd q l t _ _ j it (mp j) (m_holds _ _ _ Hm) Hid) as (t' & -> & Hs & Hh).
  { rewrite (m_len _ _ _ Hm). by apply mp_cap. }
  eexists; split; [done|]. by eapply moving_insert.
Qed.

Lemma moving_move fin fin' l t j :
  moving fin l t → j < length q → l !! j = items q !! j → moved j = true →
  (∀ k, fin' k = fin k || (k =? j)) →
  ∃ it t', MoveItemTo j (mp j) (upd q l t) = Some (upd q (<[mp j := Some (bump it)]> l) t') ∧
    moving fin' (<[mp j := Some (bump it)]> l) t'.
Proof.
  intros Hm Hj Hit Hmv Hfin. destruct (slot j Hj) as (it & ? & Hsl & Hid).
  rewrite Hsl in Hit.
  destruct (MoveItemTo_upd q l t _ _ j it j (mp j) (m_holds _ _ _ Hm) Hit Hid)
    as (t' & -> & Hs & Hh).
  { rewrite (m_len _ _ _ Hm). by apply mp_cap. }
  eexists it, _; split; [done|]. by eapply moving_insert.
Qed.

(** The items behind the block move down when the block moves up... *)
Lemma MoveRange_loop_up : start ≤ to →
  ∃ l t, for_range end_ (end_ + to - start) (λ i q, MoveItemTo i (start + i - end_) q) q
         = Some (upd q l t) ∧ moving (λ j, negb (in_block j)) l t.
Proof.
  intros Hst.
  destruct (for_range_inv (λ i q', ∃ l t, q' = upd q l t ∧
      moving (λ j, negb (in_block j) && (j <? i)) l t ∧
      (∀ j, i ≤ j < length q → l !! j = items q !! j))
    (λ i q, MoveItemTo i (start + i - end_) q) end_ (end_ + to - start) q)
    as (q' & -> & l & t & -> & Hm & Hrest); [lia| | |].
  - intros k q' Hk (l & t & -> & Hm & Hrest).
    assert (Hmp : mp k = start + k - end_) by (unfold move_pos; repeat case_match; lia).
    assert (Hmv : moved k = true) by (unfold moved; rewrite Hmp; lia).
    destruct (moving_move _ (λ j, negb (in_block j) && (j <? S k)) l t k Hm)
      as (it & t' & Heq & Hm'); [lia|by apply Hrest; lia|done|intros; lia|].
    rewrite <-Hmp, Heq. eexists; split; [done|]. eexists _, t'. split_and!; [done|done|].
    intros j Hj. rewrite list_lookup_insert_ne by lia. apply Hrest. lia.
  - exists (items q), (id_table q). rewrite upd_id. split_and!; [done| |done].
    split; [apply Hr|done| |].
    + intros j Hj Hf. apply dest_fixed. unfold move_pos. repeat case_match; lia.
    + eapply IdTable.holds_ext; [|apply Hr]. intros j _. simpl.
      unfold moved, move_pos. repeat case_match; lia.
  - exists l, t. split; [done|]. destruct Hm as [Hl Hs Hd Hh]. split; [done|done| |].
    + intros j Hj Hf. destruct (decide (j < end_ + to - start)); [apply Hd; lia|].
      assert (Hmp : mp j = j) by (unfold move_pos; repeat case_match; lia).
      rewrite <-(dest_fixed j), Hmp by lia. apply Hrest. lia.
    + eapply IdTable.holds_ext; [|done]. intros j _. simpl.
      unfold moved, move_pos. repeat case_match; lia.
Qed.

(** ... and the items before it move up when the block moves down. *)
Lemma MoveRange_loop_down : to ≤ start →
  ∃ l t, for_range_down start to
           (λ i q, MoveItemTo (i - 1) (i - 1 + end_ - start) q) q
         = Some (upd q l t) ∧ moving (λ j, negb (in_block j)) l t.
Proof.
  intros Hst.
  destruct (for_range_down_inv (λ i q', ∃ l t, q' = upd q l t ∧
      moving (λ j, negb (in_block j) && (i <=? j)) l t ∧
      (∀ j, j < i → l !! j = items q !! j))
    (λ i q, MoveItemTo (i - 1) (i - 1 + end_ - start) q) start to q)
    as (q' & -> & l & t & -> & Hm & Hrest); [lia| | |].
  - intros k q' Hk (l & t & -> & Hm & Hrest).
    assert (Hmp : mp (k - 1) = k - 1 + end_ - start) by (unfold move_pos; repeat case_match; lia).
    assert (Hmv : moved (k - 1) = true) by (unfold moved; rewrite Hmp; lia).
    destruct (moving_move _ (λ j, negb (in_block j) && (k - 1 <=? j)) l t (k - 1) Hm)
      as (it & t' & Heq & Hm'); [lia|by apply Hrest; lia|done|intros; lia|].
    rewrite <-Hmp, Heq. eexists; split; [done|]. eexists _, t'. split_and!; [done|done|].
    intros j Hj. rewrite list_lookup_insert_ne by lia. apply Hrest. lia.
  - exists (items q), (id_table q). rewrite upd_id. split_and!; [done| |done].
    split; [apply Hr|done| |].
    + intros j Hj Hf. apply dest_fixed. unfold move_pos. repeat case_match; lia.
    + eapply IdTable.holds_ext; [|apply Hr]. intros j _. simpl.
      unfold moved, move_pos. repeat case_match; lia.
  - exists l, t. split; [done|]. destruct Hm as [Hl Hs Hd Hh]. split; [done|done| |].
    + intros j Hj Hf. destruct (decide (to ≤ j)); [apply Hd; lia|].
      assert (Hmp : mp j = j) by (unfold move_pos; repeat case_match; lia).
      rewrite <-(dest_fixed j), Hmp by lia. apply Hrest. lia.
    + eapply IdTable.holds_ext; [|done]. intros j _. simpl.
      unfold moved, move_pos. repeat case_match; lia.
Qed.

(** The saved block is written back. *)
Lemma MoveRange_loop_block l t :
  moving (λ j, negb (in_block j)) l t →
  ∃ l' t', for_range start end_ (λ i q,
      take (end_ - start) (drop start its) !! (i - start) ≫= λ it,
      put_item it (to + i - start) q) (upd q l t) = Some (upd q l' t') ∧
    moving (λ _, true) l' t'.
Proof.
  intros Hm0.
  destruct (for_range_inv (λ i q', ∃ l t, q' = upd q l t ∧
      moving (λ j, negb (in_block j) || (j <? i)) l t)
    (λ i q, take (end_ - start) (drop start its) !! (i - start) ≫= λ it,
      put_item it (to + i - start) q) start end_ (upd q l t))
    as (q' & -> & l' & t' & -> & Hm); [lia| | |].
  - intros k q' Hk (l' & t' & -> & Hm).
    destruct (slot k ltac:(lia)) as (it & Hit & _).
    rewrite lookup_take_lt, lookup_drop by lia.
    replace (start + (k - start)) with k by lia. rewrite Hit. simpl.
    assert (Hmp : mp k = to + k - start) by (unfold move_pos; repeat case_match; lia).
    destruct (moving_put _ (λ j, negb (in_block j) || (j <? S k)) l' t' k it Hm)
      as (t'' & Heq & Hm'); [lia|done|unfold moved; lia|intros; lia|].
    rewrite <-Hmp, Heq. eexists; split; [done|]. by eexists _, _.
  - exists l, t. split; [done|]. destruct Hm0 as [Hl Hs Hd Hh]. split; [done|done| |].
    + intros j Hj Hf. apply Hd; lia.
    + eapply IdTable.holds_ext; [|done]. intros j _. simpl.
      unfold moved, move_pos. repeat case_match; lia.
  - exists l', t'. split; [done|]. destruct Hm as [Hl Hs Hd Hh]. split; [done|done| |].
    + intros j Hj _. apply Hd; lia.
    + eapply IdTable.holds_ext; [|done]. intros j _. simpl.
      unfold moved, move_pos. repeat case_match; lia.
Qed.

(** The item list after the move: the block is at [to], and every rewritten item
    carries the current version. *)
Definition move_spec : list (Item Song) :=
  move_list start end_ to (imap (λ j it, if moved j then bump it else it) its).

Lemma length_move_spec : llen move_spec = length q.
Proof.
  unfold move_spec. rewrite length_move_list by lia. rewrite length_imap. apply Hr.
Qed.

Lemma move_spec_lookup j : j < length q →
  move_spec !! mp j = (λ it, if moved j then bump it else it) <$> its !! j.
Proof.
  intros Hj. unfold move_spec. rewrite lookup_move_list.
  - by rewrite list_lookup_imap.
  - rewrite length_imap, (r_len _ _ Hr). lia.
  - by rewrite length_imap, (r_len _ _ Hr).
  - by rewrite length_imap, (r_len _ _ Hr).
Qed.

(** Every position is the destination of some item. *)
Lemma mp_surj p : p < length q → ∃ j, j < length q ∧ mp j = p.
Proof.
  intros Hp. exists (move_pos to (to + (end_ - start)) start p). split.
  - apply move_pos_lt; lia.
  - apply (move_pos_inv start end_ to (length q)); lia.
Qed.

Lemma fmap_imap_moved {B} (f : Item Song → B) :
  (∀ it, f (bump it) = f it) →
  f <$> imap (λ j it, if moved j then bump it else it) its = f <$> its.
Proof.
  intros Hf. apply list_eq. intros j. rewrite !list_lookup_fmap, list_lookup_imap.
  destruct (its !! j); simpl; [|done]. case_match; by rewrite ?Hf.
Qed.

Lemma move_spec_fmap_perm {B} (f : Item Song → B) :
  (∀ it, f (bump it) = f it) → f <$> move_spec ≡ₚ f <$> its.
Proof.
  intros Hf. unfold move_spec. rewrite (move_list_perm start end_ to _ ltac:(lia)).
  by rewrite fmap_imap_moved.
Qed.

Lemma move_spec_Forall (P : Item Song → Prop) :
  (∀ it, it ∈ its → P (bump it)) → Forall P its → Forall P move_spec.
Proof.
  intros Hb HP. unfold move_spec. rewrite (move_list_perm start end_ to _ ltac:(lia)).
  apply Forall_lookup. intros j it Hj. rewrite list_lookup_imap in Hj.
  destruct (its !! j) as [it'|] eqn:E; simplify_eq/=.
  case_match; [by eapply Hb, list_elem_of_lookup_2|by eapply Forall_lookup_1].
Qed.

(** The arrays after the three loops represent [move_spec]. *)
Lemma moving_repr l t : moving (λ _, true) l t → repr (upd q l t) move_spec.
Proof.
  intros [Hl Hs Hd Hh]. split; simpl; try apply Hr.
  - apply length_move_spec.
  - done.
  - intros p it Hp. pose proof (lookup_lt_Some _ _ _ Hp) as Hlt.
    rewrite length_move_spec in Hlt. destruct (mp_surj p Hlt) as (j & Hj & <-).
    rewrite Hd by done. rewrite move_spec_lookup in Hp by done.
    destruct (slot j Hj) as (it' & Hit' & Hsl & _). unfold dest.
    rewrite Hit' in Hp. rewrite Hsl. simpl in *. simplify_eq. by case_match.
  - eapply IdTable.holds_reindex; [done|by apply move_spec_fmap_perm|].
    intros j i Hj. rewrite list_lookup_fmap in Hj.
    destruct (its !! j) as [it|] eqn:E; simplify_eq/=.
    pose proof (lookup_lt_Some _ _ _ E) as Hlt. rewrite (r_len _ _ Hr) in Hlt.
    replace (if moved j then mp j else j) with (mp j) by
      (unfold moved; case_match; lia).
    rewrite list_lookup_fmap, move_spec_lookup, E by done. simpl. by case_match.
  - rewrite Hs. apply Hr.
  - rewrite (move_spec_fmap_perm song) by done. apply Hr.
  - apply move_spec_Forall; [|apply Hr]. intros it Hit. simpl.
    pose proof (r_version _ _ Hr). lia.
  - apply move_spec_Forall; [|apply Hr]. intros it Hit. simpl.
    by apply (proj1 (Forall_forall _ _) (r_prio _ _ Hr)).
Qed.

(** The order array is renumbered with the positions. *)
Lemma map_order_moved f q' : (∀ p, f p = mp p) →
  repr q' move_spec → length q' = length q → order q' = order q →
  ∃ q'', map_order f q' = Some q'' ∧ repr q'' move_spec ∧ cfg q'' = cfg q' ∧
    ord q'' = mp <$> ord q.
Proof.
  intros Hf Hr' Hlen Ho.
  assert (Hord : ord q' = ord q) by (unfold ord; by rewrite Hlen, Ho).
  rewrite map_order_ok by (rewrite (r_order_cap _ _ Hr'); apply Hr').
  rewrite (list_fmap_ext f mp) by (intros; apply Hf).
  assert (Hp : mp <$> ord q' ≡ₚ seq 0 (length q')).
  { apply fmap_perm_seq; [apply Hr'| |]; rewrite Hlen.
    - intros x Hx. apply move_pos_lt; lia.
    - intros x y Hx Hy. apply (move_pos_inj start end_ to (length q)); lia. }
  eexists; split_and!; [done|by apply repr_set_order|done|].
  rewrite ord_set_order; [by rewrite Hord|].
  by rewrite Hp, length_seq.
Qed.

Lemma played_moved q' : ord q' = mp <$> ord q → played q' move_spec = played q its.
Proof.
  intros Ho. unfold played. rewrite Ho.
  pose proof (perm_seq_elim _ _ (r_order _ _ Hr)) as (_ & _ & Hlt).
  clear Ho. revert Hlt. generalize (ord q). intros l.
  induction l as [|p l IH]; [done|]. intros [Hp Hl]%Forall_cons.
  rewrite fmap_cons. cbn [omap list_omap]. rewrite move_spec_lookup, IH by done.
  destruct (its !! p); simpl; [|done]. by case_match.
Qed.

End MoveRange.

Lemma mapM_block q its start end_ :
  repr q its → start ≤ end_ ≤ length q →
  mapM (item_at q) (seq start (end_ - start)) = Some (take (end_ - start) (drop start its)).
Proof.
  intros Hr Hse. apply mapM_Some. apply Forall2_same_length_lookup_2.
  - len_simpl. rewrite (r_len _ _ Hr). lia.
  - intros i p it Hp Hit. apply lookup_seq in Hp as [-> Hi].
    rewrite lookup_take_lt, lookup_drop in Hit by lia. by eapply repr_item_at.
Qed.

(** [MoveRange] moves the block, renumbers the random order, and leaves the
    configuration alone. *)
Lemma queue_MoveRange_ok q its start end_ to :
  repr q its → start < end_ ≤ length q → to + (end_ - start) ≤ length q →
  ∃ q', MoveRange start end_ to q = Some q' ∧
    repr q' (move_spec q its start end_ to) ∧ cfg q' = cfg q ∧
    ord q' = if random q then move_pos start end_ to <$> ord q else ord q.
Proof.
  intros Hr Hse Hto. unfold MoveRange.
  rewrite (mapM_block _ _ _ _ Hr) by lia. cbn [mbind option_bind].
  assert (∃ l t, (for_range end_ (end_ + to - start)
      (λ i q, MoveItemTo i (start + i - end_) q) q ≫= λ q1,
      for_range_down start to (λ i q, MoveItemTo (i - 1) (i - 1 + end_ - start) q) q1)
      = Some (upd q l t) ∧
      moving q its start end_ to (λ j, negb ((start <=? j) && (j <? end_))) l t)
    as (l & t & Hloops & Hm).
  { destruct (decide (start ≤ to)) as [Hst|Hst].
    - destruct (MoveRange_loop_up q its start end_ to Hr Hse Hto Hst) as (l & t & -> & Hm).
      exists l, t. cbn [mbind option_bind]. by rewrite for_range_down_empty by done.
    - rewrite for_range_empty by lia. cbn [mbind option_bind].
      apply MoveRange_loop_down; auto; lia. }
  destruct (MoveRange_loop_block q its start end_ to Hr Hse Hto l t Hm)
    as (l' & t' & Hblock & Hm').
  revert Hloops. destruct (for_range end_ _ _ q) as [q1|]; [|done].
  cbn [mbind option_bind]. intros ->. cbn [mbind option_bind].
  rewrite Hblock. cbn [mbind option_bind].
  pose proof (moving_repr q its start end_ to Hr Hse Hto _ _ Hm') as Hr'.
  change (random (upd q l' t')) with (random q). destruct (random q) eqn:Hrand.
  - edestruct (map_order_moved q its start end_ to Hse Hto)
      as (q'' & -> & Hr'' & Hcfg & Hord); [|exact Hr'|done|done|by exists q''].
    intros p. unfold move_pos. repeat case_match; lia.
  - exists (upd q l' t'). by split_and!.
Qed.

(** ** Construction, append, version counter *)

Lemma make_repr n : 0 < n → repr (make n) [].
Proof.
  intros Hn. split; simpl; try done; try lia; len_simpl; try lia.
  - apply IdTable.make_holds. unfold HASH_MULT. lia.
  - constructor.
Qed.

Lemma Append_ok q its ptr s prio :
  repr q its → length q < max_length q → ptr ∉ song <$> its → (0 ≤ prio ≤ 255)%Z →
  ∃ i q', Append ptr s prio q = Some (i, q') ∧ (i ∉ id <$> its) ∧
    repr q' (its ++ [mkItem ptr s i (version q) prio]) ∧
    cfg q' = cfg (set_length q (S (length q))) ∧ rand q' = rand q ∧
    ord q' = ord q ++ [length q].
Proof.
  intros Hr Hlt Hptr Hprio. unfold Append, IsFull. pose proof (r_cap _ _ Hr) as Hcap.
  rewrite check_bind by lia. cbn [mbind option_bind].
  rewrite check_bind by lia. cbn [set_length id_table].
  destruct (IdTable.Insert_holds (id <$> its) (λ j, j) (id_table q) (length q))
    as (i & t & -> & Hts & Hni & Hh).
  { apply Hr. }
  { len_simpl. rewrite (r_tsize _ _ Hr), (r_len _ _ Hr). unfold HASH_MULT. lia. }
  cbn [mbind option_bind]. unfold write_item. cbn [set_length set_id_table items version].
  rewrite store_Some by (rewrite (r_items _ _ Hr); lia). cbn [mbind option_bind set_items order].
  rewrite store_Some by (cbn; rewrite (r_order_cap _ _ Hr); lia). cbn [mbind option_bind].
  eexists i, _. split_and!; [done|done| |done|done|].
  - assert (Hord : take (S (length q)) (<[length q:=length q]> (order q))
      = ord q ++ [length q]).
    { erewrite take_S_r by (apply list_lookup_insert_eq; rewrite (r_order_cap _ _ Hr); lia).
      by rewrite take_insert_ge by lia. }
    split; simpl; try apply Hr.
    + len_simpl. simpl. rewrite (r_len _ _ Hr). lia.
    + lia.
    + len_simpl. apply Hr.
    + len_simpl. apply Hr.
    + intros j it Hj. apply lookup_app_Some in Hj as [Hj|[Hj1 Hj2]].
      * pose proof (lookup_lt_Some _ _ _ Hj). rewrite (r_len _ _ Hr) in *.
        rewrite list_lookup_insert_ne by lia. by apply Hr.
      * rewrite (r_len _ _ Hr) in *. pose proof (lookup_lt_Some _ _ _ Hj2) as Hj3. simpl in Hj3.
        replace (j - length q) with 0 in Hj2 by lia. simplify_eq/=.
        replace j with (length q) by lia. apply list_lookup_insert_eq.
        rewrite (r_items _ _ Hr). lia.
    + unfold ord. simpl. rewrite Hord, (r_order _ _ Hr).
      by rewrite <-seq_S.
    + rewrite fmap_app. simpl. eapply IdTable.holds_ext; [|done].
      intros j _. simpl. len_simpl. rewrite (r_len _ _ Hr). case_match; lia.
    + rewrite Hts. apply Hr.
    + rewrite fmap_app. simpl. apply NoDup_app. split_and!; [apply Hr|set_solver|].
      apply NoDup_singleton.
    + apply Forall_app. split; [apply Hr|]. constructor; [|done]. simpl.
      pose proof (r_version _ _ Hr). lia.
    + apply Forall_app. split; [apply Hr|]. by constructor.
  - unfold ord. simpl.
    erewrite take_S_r by (apply list_lookup_insert_eq; rewrite (r_order_cap _ _ Hr); lia).
    by rewrite take_insert_ge by lia.
Qed.

(** Overwriting the payload of a live item (same id and song object). *)
Lemma repr_write_item q its i it it' :
  repr q its → its !! i = Some it → id it' = id it → song it' = song it →
  (0 ≤ item_version it' ≤ version q)%Z → (0 ≤ priority it' ≤ 255)%Z →
  write_item i it' q = Some (set_items q (<[i:=Some it']> (items q))) ∧
  repr (set_items q (<[i:=Some it']> (items q))) (<[i:=it']> its).
Proof.
  intros Hr Hi Hid Hsong Hv Hp.
  pose proof (lookup_lt_Some _ _ _ Hi) as Hlt. rewrite (r_len _ _ Hr) in Hlt.
  assert (Hil : i < llen (items q)) by (rewrite (r_items _ _ Hr); pose proof (r_cap _ _ Hr); lia).
  split; [unfold write_item; by rewrite store_Some|].
  split; simpl; try apply Hr; len_simpl; try apply Hr.
  - intros j it0. destruct (decide (j = i)) as [->|Hne].
    + rewrite !list_lookup_insert_eq; [congruence|done|by rewrite (r_len _ _ Hr)].
    + rewrite !list_lookup_insert_ne by done. apply Hr.
  - rewrite list_fmap_insert, Hid, list_insert_id; [apply Hr|].
    by rewrite list_lookup_fmap, Hi.
  - rewrite list_fmap_insert, Hsong, list_insert_id; [apply Hr|].
    by rewrite list_lookup_fmap, Hi.
  - apply Forall_insert; [apply Hr|done].
  - apply Forall_insert; [apply Hr|done].
Qed.

Lemma ModifyAtPosition_ok q its i it :
  repr q its → its !! i = Some it →
  ∃ q', ModifyAtPosition i q = Some q' ∧ repr q' (<[i:=with_version it (version q)]> its) ∧
    cfg q' = cfg q ∧ rand q' = rand q ∧ order q' = order q.
Proof.
  intros Hr Hi. pose proof (lookup_lt_Some _ _ _ Hi) as Hlt. rewrite (r_len _ _ Hr) in Hlt.
  unfold ModifyAtPosition, set_item_version. rewrite check_bind by lia.
  rewrite (repr_item_at _ _ _ _ Hr Hi). cbn [mbind option_bind].
  pose proof (r_version _ _ Hr).
  destruct (repr_write_item q its i it (with_version it (version q)) Hr Hi) as [-> Hr'];
    simpl; try done; try lia.
  - by apply (Forall_lookup_1 _ _ _ _ (r_prio _ _ Hr) Hi).
  - eexists. by split_and!.
Qed.

(** Resetting every item version, as the version counter wraps. *)
Lemma IncrementVersion_ok q its : repr q its →
  ∃ q' its', IncrementVersion q = Some q' ∧ repr q' its' ∧
    cfg q' = cfg (set_version q (version q')) ∧ rand q' = rand q ∧ order q' = order q ∧
    (version q' = version q + 1 ∧ its' = its ∨
     version q' = 1 ∧ version q = version_max - 1 ∧
       its' = (λ it, with_version it 0) <$> its)%Z.
Proof.
  intros Hr. pose proof (r_version _ _ Hr) as Hv. unfold IncrementVersion.
  unfold version_max in *. rewrite Z.mod_small by lia.
  change (version (set_version q ?v)) with v.
  destruct (2147483647 <=? version q + 1)%Z eqn:E.
  - change (length (set_version q ?v)) with (length q).
    destruct (for_range_inv (λ k q', ∃ l, q' = set_items (set_version q (version q + 1)) l ∧
        llen l = max_length q ∧
        ∀ i it, its !! i = Some it →
          l !! i = Some (Some (if i <? k then with_version it 0 else it)))
      (set_item_version 0) 0 (length q) (set_version q (version q + 1)))
      as (q' & -> & l & -> & Hl & Hat); [lia| | |].
    + intros k q' Hk (l & -> & Hl & Hat). unfold set_item_version, item_at.
      destruct (repr_lookup _ _ k Hr) as (it & Hit & _); [lia|].
      cbn [items set_items]. rewrite (Hat _ _ Hit). cbn [mjoin option_join mbind option_bind].
      unfold write_item. cbn [items set_items].
      pose proof (r_cap _ _ Hr).
      rewrite store_Some by lia. cbn [mbind option_bind]. eexists; split; [done|].
      eexists. split_and!; [done|by len_simpl|].
      intros i it' Hi. destruct (decide (i = k)) as [->|Hne].
      * simplify_eq. rewrite list_lookup_insert_eq by lia. by repeat case_match; try lia.
      * rewrite list_lookup_insert_ne by done. rewrite (Hat _ _ Hi). do 2 f_equal.
        replace (i <? S k) with (i <? k) by lia. done.
    + exists (items q). split_and!; [by destruct q|apply Hr|]. apply Hr.
    + cbn [mbind option_bind]. eexists _, _. split_and!; [done| |done|done|done|].
      2: { right. split_and!; [done|simpl; lia|done]. }
      split; simpl; try apply Hr; len_simpl; try apply Hr.
      * done.
      * intros i it Hi. rewrite list_lookup_fmap in Hi.
        destruct (its !! i) as [it0|] eqn:Ei; simplify_eq/=. rewrite (Hat _ _ Ei).
        pose proof (lookup_lt_Some _ _ _ Ei) as Hlt. rewrite (r_len _ _ Hr) in Hlt.
        by replace (i <? length q) with true by lia.
      * rewrite <-list_fmap_compose. apply Hr.
      * rewrite <-list_fmap_compose. apply Hr.
      * unfold version_max. lia.
      * rewrite Forall_fmap. eapply Forall_impl; [apply Hr|]. intros it Hb. simpl in *. lia.
      * rewrite Forall_fmap. apply Hr.
  - eexists _, its. split_and!; [done| |done|done|done|by left].
    pose proof (r_versions _ _ Hr) as Hvs. destruct Hr. split; simpl in *; try done.
    + unfold version_max in *. lia.
    + eapply Forall_impl; [exact Hvs|]. intros it Hb. simpl in *. lia.
Qed.

End Facts.
End QueueFacts.
