(* ===== verification/QueueEdit.v ===== *)
(** * Queue edits: swap, delete, clear

    Continues [QueueFacts]: the item operations other than the block move. *)

From Stdlib Require Import ZArith Lia ZifyBool.
From stdpp Require Import base numbers sets list.
From S2P Require Import Prelude IdTable RandomEngine Queue QueueFacts.

Set Default Goal Selector "!".

Module QueueEdit.
Import Queue QueueFacts.

#[local] Abbreviation llen := List.length.

Section Edit.
Context {Song G : Type} `{!RandomEngine G, !RandomEngineLaws G}.
Implicit Types (q : Queue Song G) (it : Item Song) (its : list (Item Song)).

(** ** SwapPositions *)

Definition swap_spec q its p1 p2 it1 it2 : list (Item Song) :=
  <[p2 := bump q it1]> (<[p1 := bump q it2]> its).

Lemma SwapPositions_arrays q its p1 p2 it1 it2 :
  repr q its → its !! p1 = Some it1 → its !! p2 = Some it2 →
  ∃ t, SwapPositions p1 p2 q
       = Some (upd q (<[p2 := Some (bump q it1)]> (<[p1 := Some (bump q it2)]> (items q))) t) ∧
    IdTable.size t = IdTable.size (id_table q) ∧
    IdTable.holds (id <$> its) (pos_upd (pos_upd (λ j, j) p1 p2) p2 p1) t.
Proof.
  intros Hr H1 H2. unfold SwapPositions.
  rewrite (repr_item_at _ _ _ _ Hr H1), (repr_item_at _ _ _ _ Hr H2). cbn [mbind option_bind].
  pose proof (lookup_lt_Some _ _ _ (r_at _ _ Hr _ _ H1)) as Hl1.
  pose proof (lookup_lt_Some _ _ _ (r_at _ _ Hr _ _ H2)) as Hl2.
  replace (write_item p1 it2 q) with (write_item p1 it2 (upd q (items q) (id_table q)))
    by by rewrite upd_id.
  rewrite write_item_upd by done. cbn [mbind option_bind].
  rewrite write_item_upd by (by len_simpl). cbn [mbind option_bind].
  change (version (upd q ?l ?t)) with (version q).
  assert (Hread : <[p2:=Some it1]> (<[p1:=Some it2]> (items q)) !! p1 = Some (Some it2)).
  { destruct (decide (p1 = p2)) as [->|Hne].
    - simplify_eq. by rewrite list_lookup_insert_eq by (by len_simpl).
    - by rewrite list_lookup_insert_ne, list_lookup_insert_eq by done. }
  rewrite (set_item_version_upd _ _ _ _ _ _ Hread). cbn [mbind option_bind].
  change (version (upd q ?l ?t)) with (version q).
  assert (Heq : ∃ it, <[p1:=Some (bump q it2)]> (<[p2:=Some it1]> (<[p1:=Some it2]> (items q))) !! p2
      = Some (Some it) ∧ with_version it (version q) = bump q it1).
  { destruct (decide (p1 = p2)) as [->|Hne].
    - simplify_eq. rewrite list_lookup_insert_eq by (by len_simpl). by eexists.
    - rewrite list_lookup_insert_ne, list_lookup_insert_eq by (by len_simpl || done).
      by eexists. }
  destruct Heq as (it & Hit & Hb). unfold bump in Hit at 1.
  rewrite (set_item_version_upd _ _ _ _ _ _ Hit), Hb. cbn [mbind option_bind].
  assert (Hlist : <[p2:=Some (bump q it1)]> (<[p1:=Some (with_version it2 (version q))]>
      (<[p2:=Some it1]> (<[p1:=Some it2]> (items q))))
    = <[p2:=Some (bump q it1)]> (<[p1:=Some (bump q it2)]> (items q))).
  { destruct (decide (p1 = p2)) as [->|Hne].
    - by rewrite !list_insert_insert_eq.
    - rewrite (list_insert_insert_ne _ p1 p2) by done.
      by rewrite !list_insert_insert_eq. }
  rewrite Hlist.
  destruct (table_Move_upd q (<[p2:=Some (bump q it1)]> (<[p1:=Some (bump q it2)]> (items q)))
    (id_table q) _ _ p1 (id it1) p2 (r_ids _ _ Hr)) as (t & -> & Hs & Hh).
  { by rewrite list_lookup_fmap, H1. }
  cbn [mbind option_bind].
  destruct (table_Move_upd q (<[p2:=Some (bump q it1)]> (<[p1:=Some (bump q it2)]> (items q)))
    t _ _ p2 (id it2) p1 Hh) as (t' & -> & Hs' & Hh').
  { by rewrite list_lookup_fmap, H2. }
  exists t'. split_and!; [done|congruence|done].
Qed.

(** The two items trade places and are marked as changed. *)
Lemma queue_SwapPositions_ok q its p1 p2 it1 it2 :
  repr q its → its !! p1 = Some it1 → its !! p2 = Some it2 →
  ∃ q', SwapPositions p1 p2 q = Some q' ∧ repr q' (swap_spec q its p1 p2 it1 it2) ∧
    cfg q' = cfg q ∧ rand q' = rand q ∧ order q' = order q.
Proof.
  intros Hr H1 H2.
  destruct (SwapPositions_arrays q its p1 p2 it1 it2 Hr H1 H2) as (t & -> & Hs & Hh).
  eexists; split; [done|]. split_and!; [|done|done|done].
  assert (Hl1 : p1 < llen its) by by eapply lookup_lt_Some.
  assert (Hl2 : p2 < llen its) by by eapply lookup_lt_Some.
  assert (Hi1 : (id <$> its) !! p1 = Some (id it1)) by by rewrite list_lookup_fmap, H1.
  assert (Hi2 : (id <$> its) !! p2 = Some (id it2)) by by rewrite list_lookup_fmap, H2.
  pose proof (r_version _ _ Hr) as Hv.
  unfold swap_spec. split; simpl; try apply Hr; len_simpl; try apply Hr.
  - intros p it. pose proof (r_items _ _ Hr). pose proof (r_cap _ _ Hr). pose proof (r_len _ _ Hr).
    destruct (decide (p = p2)) as [->|]; [|destruct (decide (p = p1)) as [->|]].
    + rewrite !list_lookup_insert_eq; [congruence|by len_simpl; lia|by len_simpl; lia].
    + rewrite !(list_lookup_insert_ne _ p2), !list_lookup_insert_eq by (done || lia). congruence.
    + rewrite !list_lookup_insert_ne by done. apply Hr.
  - rewrite !list_fmap_insert. simpl. eapply IdTable.holds_reindex; [done| |].
    + by apply Permutation_insert_swap.
    + intros j i Hj. pose proof (lookup_lt_Some _ _ _ Hj) as Hlt. revert Hlt. len_simpl. intros Hlt.
      unfold pos_upd. destruct (j =? p2) eqn:E2; [|destruct (j =? p1) eqn:E1].
      * apply Nat.eqb_eq in E2 as ->. simplify_eq.
        destruct (decide (p1 = p2)) as [->|].
        -- simplify_eq. by rewrite list_lookup_insert_eq by (by len_simpl).
        -- by rewrite list_lookup_insert_ne, list_lookup_insert_eq by (done || by len_simpl).
      * apply Nat.eqb_eq in E1 as ->. simplify_eq.
        by rewrite list_lookup_insert_eq by (by len_simpl).
      * by rewrite !list_lookup_insert_ne by lia.
  - rewrite Hs. apply Hr.
  - rewrite !list_fmap_insert. simpl.
    rewrite (Permutation_insert_swap _ p1 p2 (song it1) (song it2)); [apply Hr| |];
      by rewrite list_lookup_fmap, ?H1, ?H2.
  - apply Forall_insert; [apply Forall_insert; [apply Hr|]|]; simpl; lia.
  - pose proof (Forall_lookup_1 _ _ _ _ (r_prio _ _ Hr) H1).
    pose proof (Forall_lookup_1 _ _ _ _ (r_prio _ _ Hr) H2).
    by apply Forall_insert; [apply Forall_insert; [apply Hr|]|].
Qed.

(** ** Shifting the order array *)

(** [for (i = a; i < b; i++) order[i] = order[i + 1]] *)
Lemma copy_order_up q a b : a ≤ b → b < llen (order q) →
  ∃ o, for_range a b (λ i q, copy_order (i + 1) i q) q = Some (set_order q o) ∧
    llen o = llen (order q) ∧
    ∀ p, o !! p = if (a <=? p) && (p <? b) then order q !! (p + 1) else order q !! p.
Proof.
  intros Hab Hb.
  destruct (for_range_inv (λ i q', ∃ o, q' = set_order q o ∧ llen o = llen (order q) ∧
      ∀ p, o !! p = if (a <=? p) && (p <? i) then order q !! (p + 1) else order q !! p)
    (λ i q, copy_order (i + 1) i q) a b q) as (q' & -> & o & -> & Ho); [done| | |].
  - intros k q' Hk (o & -> & Hl & Ho). unfold copy_order. cbn [order set_order].
    rewrite Ho. replace ((a <=? k + 1) && (k + 1 <? k)) with false by lia.
    destruct (lookup_lt_is_Some_2 (order q) (k + 1)) as [x Hx]; [lia|]. rewrite Hx.
    cbn [mbind option_bind]. rewrite store_Some by lia. cbn [mbind option_bind].
    eexists; split; [done|]. eexists. split_and!; [done|by len_simpl|].
    intros p. destruct (decide (p = k)) as [->|Hne].
    + rewrite list_lookup_insert_eq by lia. by replace ((a <=? k) && (k <? S k)) with true by lia.
    + rewrite list_lookup_insert_ne, Ho by done.
      by replace ((a <=? p) && (p <? S k)) with ((a <=? p) && (p <? k)) by lia.
  - exists (order q). split_and!; [by destruct q|done|]. intros p.
    by replace ((a <=? p) && (p <? a)) with false by lia.
  - by eexists.
Qed.

(** [for (i = a; i > b; i--) order[i] = order[i - 1]] *)
Lemma copy_order_down q a b : b ≤ a → a < llen (order q) →
  ∃ o, for_range_down a b (λ i q, copy_order (i - 1) i q) q = Some (set_order q o) ∧
    llen o = llen (order q) ∧
    ∀ p, o !! p = if (b <? p) && (p <=? a) then order q !! (p - 1) else order q !! p.
Proof.
  intros Hab Hb.
  destruct (for_range_down_inv (λ i q', ∃ o, q' = set_order q o ∧ llen o = llen (order q) ∧
      ∀ p, o !! p = if (i <? p) && (p <=? a) then order q !! (p - 1) else order q !! p)
    (λ i q, copy_order (i - 1) i q) a b q) as (q' & -> & o & -> & Ho); [done| | |].
  - intros k q' Hk (o & -> & Hl & Ho). unfold copy_order. cbn [order set_order].
    rewrite Ho. replace ((k <? k - 1) && (k - 1 <=? a)) with false by lia.
    destruct (lookup_lt_is_Some_2 (order q) (k - 1)) as [x Hx]; [lia|]. rewrite Hx.
    cbn [mbind option_bind]. rewrite store_Some by lia. cbn [mbind option_bind].
    eexists; split; [done|]. eexists. split_and!; [done|by len_simpl|].
    intros p. destruct (decide (p = k)) as [->|Hne].
    + rewrite list_lookup_insert_eq by lia.
      by replace ((k - 1 <? k) && (k <=? a)) with true by lia.
    + rewrite list_lookup_insert_ne, Ho by done.
      by replace ((k - 1 <? p) && (p <=? a)) with ((k <? p) && (p <=? a)) by lia.
  - exists (order q). split_and!; [by destruct q|done|]. intros p.
    by replace ((a <? p) && (p <=? a)) with false by lia.
  - by eexists.
Qed.

(** ** DeletePosition *)

(** The item list after a deletion: the items behind the gap move down by one and
    are marked as changed. *)
Definition delete_spec q its position : list (Item Song) :=
  imap (λ k it, if position <=? k then bump q it else it) (delete position its).

Lemma delete_loop q its position t0 :
  repr q its → position < length q →
  IdTable.holds (delete position (id <$> its))
    (λ k, if k <? position then k else S k) t0 →
  ∃ l t, for_range position (length q - 1) (λ i q, MoveItemTo (i + 1) i q)
           (set_id_table (set_length q (length q - 1)) t0)
         = Some (upd (set_length q (length q - 1)) l t) ∧
    llen l = max_length q ∧ IdTable.size t = IdTable.size t0 ∧
    (∀ k it, delete_spec q its position !! k = Some it → l !! k = Some (Some it)) ∧
    IdTable.holds (delete position (id <$> its)) (λ k, k) t.
Proof.
  intros Hr Hp Hh.
  pose proof (r_cap _ _ Hr) as Hcap. pose proof (r_items _ _ Hr) as Hcap'.
  destruct (for_range_inv (λ i q', ∃ l t,
      q' = upd (set_length q (length q - 1)) l t ∧ llen l = max_length q ∧
      IdTable.size t = IdTable.size t0 ∧
      (∀ k, k < length q → l !! k = if (position <=? k) && (k <? i)
        then fmap (M:=option) (bump q) <$> items q !! (k + 1) else items q !! k) ∧
      IdTable.holds (delete position (id <$> its)) (λ k, if k <? i then k else S k) t)
    (λ i q, MoveItemTo (i + 1) i q) position (length q - 1)
    (set_id_table (set_length q (length q - 1)) t0))
    as (q' & -> & l & t & -> & Hl & Hs & Hat & Hh'); [lia| | |].
  - intros k q' Hk (l & t & -> & Hl & Hs & Hat & Hh').
    destruct (repr_lookup _ _ (k + 1) Hr) as (it & Hit & _); [lia|].
    pose proof (r_at _ _ Hr _ _ Hit) as Hsl.
    destruct (MoveItemTo_upd (set_length q (length q - 1)) l t _ _ k it (k + 1) k Hh')
      as (t' & -> & Hs' & Hh'').
    + rewrite Hat by lia. by replace ((position <=? k + 1) && (k + 1 <? k)) with false by lia.
    + rewrite list_lookup_delete_ge by lia. rewrite list_lookup_fmap.
      replace (S k) with (k + 1) by lia. by rewrite Hit.
    + lia.
    + eexists; split; [done|]. eexists _, t'. split_and!; [done|by len_simpl|congruence| |].
      * intros j Hj. destruct (decide (j = k)) as [->|Hne].
        -- rewrite list_lookup_insert_eq by lia.
           replace ((position <=? k) && (k <? S k)) with true by lia. by rewrite Hsl.
        -- rewrite list_lookup_insert_ne, Hat by lia.
           by replace ((position <=? j) && (j <? S k)) with ((position <=? j) && (j <? k)) by lia.
      * eapply IdTable.holds_ext; [|done]. intros j _. simpl. unfold pos_upd.
        repeat case_match; lia.
  - exists (items q), t0. split_and!; [by destruct q|done|done| |done].
    intros k Hk. by replace ((position <=? k) && (k <? position)) with false by lia.
  - exists l, t. split_and!; [done|done|done| |].
    + intros k it Hk. unfold delete_spec in Hk. rewrite list_lookup_imap in Hk.
      pose proof (r_len _ _ Hr) as Hlen.
      assert (k < length q - 1).
      { destruct (delete position its !! k) eqn:E; [|done].
        apply lookup_lt_Some in E. rewrite length_delete in E; [lia|].
        apply lookup_lt_is_Some_2. lia. }
      rewrite Hat by lia. destruct (position <=? k) eqn:E.
      * replace (k <? length q - 1) with true by lia. simpl.
        rewrite list_lookup_delete_ge in Hk by lia.
        destruct (its !! S k) as [it'|] eqn:E'; simplify_eq/=.
        replace (k + 1) with (S k) by lia. by rewrite (r_at _ _ Hr _ _ E').
      * rewrite list_lookup_delete_lt in Hk by lia. simpl.
        destruct (its !! k) as [it'|] eqn:E'; simplify_eq/=.
        by rewrite (r_at _ _ Hr _ _ E').
    + eapply IdTable.holds_ext; [|done]. intros j Hj. simpl.
      rewrite length_delete in Hj.
      * revert Hj. len_simpl. rewrite (r_len _ _ Hr). case_match; lia.
      * apply lookup_lt_is_Some_2. len_simpl. by rewrite (r_len _ _ Hr).
Qed.

(** Renumbering the remaining order entries keeps them a permutation. *)
Lemma delete_order_perm q its position o :
  repr q its → ord q !! o = Some position →
  (λ p, if position <? p then p - 1 else p) <$> delete o (ord q) ≡ₚ seq 0 (length q - 1).
Proof.
  intros Hr Ho. pose proof (perm_seq_elim _ _ (r_order _ _ Hr)) as (Hlen & Hnd & Hlt).
  pose proof (perm_seq_lookup _ _ _ _ (r_order _ _ Hr) Ho) as Hpos.
  assert (Hnd' : NoDup (position :: delete o (ord q)))
    by by rewrite <-(delete_Permutation _ _ _ Ho).
  apply NoDup_cons in Hnd' as [Hni Hnd'].
  assert (Hin : ∀ x, x ∈ delete o (ord q) → x ≠ position ∧ x < length q).
  { intros x Hx. split; [by intros ->|]. rewrite Forall_forall in Hlt. apply Hlt.
    rewrite (delete_Permutation _ _ _ Ho). by right. }
  apply perm_seq_intro.
  - len_simpl. rewrite length_delete by (by eexists). lia.
  - apply NoDup_fmap_2_strong; [|done]. intros x y Hx%Hin Hy%Hin. repeat case_match; lia.
  - rewrite Forall_fmap. apply Forall_forall. intros x Hx%Hin. simpl. case_match; lia.
Qed.

(** The shifted array holds the live order without its [o]-th entry. *)
Lemma take_shifted (l l' : list nat) n o :
  o < n → n ≤ llen l → llen l' = llen l →
  (∀ p, l' !! p = if (o <=? p) && (p <? n - 1) then l !! (p + 1) else l !! p) →
  take (n - 1) l' = delete o (take n l).
Proof.
  intros Ho Hn Hlen Hl. apply list_eq. intros p.
  destruct (decide (p < n - 1)) as [Hp|Hp].
  - rewrite lookup_take_lt, Hl by lia. destruct (decide (p < o)).
    + rewrite list_lookup_delete_lt, lookup_take_lt by lia.
      by replace ((o <=? p) && (p <? n - 1)) with false by lia.
    + rewrite list_lookup_delete_ge, lookup_take_lt by lia.
      replace ((o <=? p) && (p <? n - 1)) with true by lia.
      by replace (S p) with (p + 1) by lia.
  - rewrite !lookup_ge_None_2; [done| |].
    + rewrite length_delete; [len_simpl; lia|]. apply lookup_lt_is_Some_2. len_simpl. lia.
    + len_simpl. lia.
Qed.

Lemma fmap_delete_spec {B} (f : Item Song → B) q its position :
  (∀ it, f (bump q it) = f it) → f <$> delete_spec q its position = delete position (f <$> its).
Proof.
  intros Hf. unfold delete_spec. rewrite <-list_fmap_delete. apply list_eq. intros k.
  rewrite !list_lookup_fmap, list_lookup_imap.
  destruct (delete position its !! k); simpl; [|done]. case_match; by rewrite ?Hf.
Qed.

Lemma delete_spec_Forall (P : Item Song → Prop) q its position :
  (∀ it, it ∈ its → P (bump q it)) → Forall P its → Forall P (delete_spec q its position).
Proof.
  intros Hb HP. apply Forall_lookup. intros k it. unfold delete_spec.
  rewrite list_lookup_imap. destruct (delete position its !! k) as [it'|] eqn:E; [|done].
  assert (Hin : it' ∈ its).
  { eapply (elem_of_sublist (delete position its)); [by eapply list_elem_of_lookup_2|].
    apply sublist_delete. }
  rewrite Forall_forall in HP. intros; simplify_eq/=. case_match; auto.
Qed.

(** [DeletePosition] removes the item, closes the gap in the items and in the
    play order, and frees the id. *)
Lemma queue_DeletePosition_ok q its position :
  repr q its → position < length q →
  ∃ o q', PositionToOrder q position = Some o ∧ DeletePosition position q = Some q' ∧
    repr q' (delete_spec q its position) ∧
    cfg q' = cfg (set_length q (length q - 1)) ∧ rand q' = rand q ∧
    ord q' = (λ p, if position <? p then p - 1 else p) <$> delete o (ord q).
Proof.
  intros Hr Hp. pose proof (r_cap _ _ Hr) as Hcap.
  pose proof (r_items _ _ Hr) as Hic. pose proof (r_order_cap _ _ Hr) as Hoc.
  destruct (PositionToOrder_ok _ _ _ Hr Hp) as (o & HPO & Ho & Hol).
  destruct (repr_lookup _ _ _ Hr Hp) as (it & Hit & Hat).
  exists o. unfold DeletePosition, PositionToId.
  rewrite !check_bind by lia. rewrite Hat, HPO. cbn [mbind option_bind].
  change (id_table (set_length q ?n)) with (id_table q).
  destruct (IdTable.Erase_holds _ _ _ position (id it) (r_ids _ _ Hr)) as (t0 & -> & Ht0 & Hh0).
  { by rewrite list_lookup_fmap, Hit. }
  cbn [mbind option_bind].
  change (length (set_id_table (set_length q ?n) t0)) with n.
  destruct (delete_loop q its position t0 Hr Hp) as (l & t & -> & Hl & Hs & Hslots & Hh).
  { exact Hh0. }
  cbn [mbind option_bind]. set (q2 := upd (set_length q (length q - 1)) l t).
  change (length q2) with (length q - 1).
  destruct (copy_order_up q2 o (length q - 1)) as (o' & -> & Ho' & Hsh); [lia|simpl; lia|].
  cbn [mbind option_bind]. rewrite map_order_ok by (simpl in *; lia).
  change (order q2) with (order q) in *.
  pose proof (take_shifted (order q) o' (length q) o Hol ltac:(lia) Ho' Hsh) as Htake.
  fold (ord q) in Htake.
  assert (Hord : ord (set_order q2 o') = delete o (ord q)) by (unfold ord at 1; exact Htake).
  rewrite Hord. change (length (set_order q2 o')) with (length q - 1).
  pose proof (delete_order_perm q its position o Hr Ho) as Hperm.
  assert (Hord' : ord (set_order (set_order q2 o')
      (((λ p, if position <? p then p - 1 else p) <$> delete o (ord q))
        ++ drop (length q - 1) (order (set_order q2 o'))))
      = (λ p, if position <? p then p - 1 else p) <$> delete o (ord q)).
  { rewrite ord_set_order; [done|]. by rewrite Hperm, length_seq. }
  eexists. split_and!; [done|done| |done|done|done].
  pose proof (r_len _ _ Hr) as Hlen. pose proof (r_version _ _ Hr) as Hv.
  split; try apply Hr; simpl.
  - unfold delete_spec. rewrite length_imap, length_delete; [lia|by eexists].
  - lia.
  - done.
  - len_simpl. rewrite length_delete by (by eexists). rewrite (repr_ord_len _ _ Hr). lia.
  - done.
  - exact (eq_ind_r (λ l, l ≡ₚ seq 0 (length q - 1)) Hperm Hord').
  - by rewrite fmap_delete_spec.
  - rewrite Hs, Ht0. apply Hr.
  - rewrite fmap_delete_spec by done.
    apply (sublist_NoDup _ (song <$> its)); [apply Hr|apply sublist_delete].
  - apply delete_spec_Forall; [|apply Hr]. intros. simpl. lia.
  - apply delete_spec_Forall; [|apply Hr]. intros it' Hit'. simpl.
    by apply (proj1 (Forall_forall _ _) (r_prio _ _ Hr)).
Qed.

(** ** Clear *)

Lemma queue_Clear_ok q its : repr q its →
  ∃ q', Clear q = Some q' ∧ repr q' [] ∧ cfg q' = cfg (set_length q 0) ∧ rand q' = rand q.
Proof.
  intros Hr. pose proof (r_cap _ _ Hr). unfold Clear.
  destruct (for_range_inv (λ k q', ∃ t, q' = set_id_table q t ∧
      IdTable.size t = IdTable.size (id_table q) ∧
      IdTable.holds (drop k (id <$> its)) (λ j, k + j) t)
    (λ i q, item_at q i ≫= λ it, IdTable.Erase (id it) (id_table q) ≫= λ t,
       Some (set_id_table q t)) 0 (length q) q)
    as (q' & -> & t & -> & Hs & Hh); [lia| | |].
  - intros k q' Hk (t & -> & Hs & Hh).
    destruct (repr_lookup _ _ k Hr) as (it & Hit & Hat); [lia|].
    change (item_at (set_id_table q t) k) with (item_at q k). rewrite Hat.
    cbn [mbind option_bind set_id_table id_table].
    destruct (IdTable.Erase_holds _ _ _ 0 (id it) Hh) as (t' & -> & Hs' & Hh').
    { rewrite lookup_drop, Nat.add_0_r, list_lookup_fmap. by rewrite Hit. }
    cbn [mbind option_bind]. eexists; split; [done|]. exists t'. split_and!; [done|congruence|].
    erewrite drop_S in Hh' by (rewrite list_lookup_fmap, Hit; done). simpl in Hh'.
    eapply IdTable.holds_ext; [|done]. intros j _. simpl. lia.
  - exists (id_table q). split_and!; [by destruct q|done|]. rewrite drop_0. apply Hr.
  - cbn [mbind option_bind]. eexists. split_and!; [done| |done|done].
    rewrite drop_ge in Hh by (len_simpl; rewrite (r_len _ _ Hr); lia).
    split; try apply Hr; simpl; try done; try lia.
    + eapply IdTable.holds_ext; [|done]. simpl. lia.
    + rewrite Hs. apply Hr.
    + constructor.
Qed.

End Edit.
End QueueEdit.
