(* ===== verification/QueueOrder.v ===== *)
(** * Queue order: random mode, priorities

    Continues [QueueFacts]: the operations that permute the play order. *)

From Stdlib Require Import ZArith Lia ZifyBool.
From stdpp Require Import base numbers sets list sorting.
From S2P Require Import Prelude IdTable RandomEngine Queue QueueFacts QueueEdit.

Set Default Goal Selector "!".

Module QueueOrder.
Import Queue QueueFacts QueueEdit.

#[local] Abbreviation llen := List.length.

Section Order.
Context {Song G : Type} `{!RandomEngine G, !RandomEngineLaws G}.
Implicit Types (q : Queue Song G) (it : Item Song) (its : list (Item Song)).

Lemma repr_set_order' q its o : repr q its → llen o = max_length q →
  take (length q) o ≡ₚ seq 0 (length q) → repr (set_order q o) its.
Proof. intros [] Hl Hp. by split. Qed.

(** ** Swaps and moves of order numbers *)

Lemma take_insert_ord q o x : o < length q →
  take (length q) (<[o:=x]> (order q)) = <[o:=x]> (ord q).
Proof. intros Ho. by rewrite take_insert_lt. Qed.

Lemma SwapOrders_ok q its o1 o2 : repr q its → o1 < length q → o2 < length q →
  ∃ p1 p2 q', ord q !! o1 = Some p1 ∧ ord q !! o2 = Some p2 ∧
    SwapOrders o1 o2 q = Some q' ∧ repr q' its ∧ cfg q' = cfg q ∧ rand q' = rand q ∧
    ord q' = <[o2:=p1]> (<[o1:=p2]> (ord q)).
Proof.
  intros Hr H1 H2. pose proof (r_cap _ _ Hr). pose proof (r_order_cap _ _ Hr) as Hoc.
  destruct (repr_order_lookup _ _ _ Hr H1) as (p1 & Hp1 & Ho1 & _).
  destruct (repr_order_lookup _ _ _ Hr H2) as (p2 & Hp2 & Ho2 & _).
  exists p1, p2. unfold SwapOrders. rewrite Hp1, Hp2. cbn [mbind option_bind].
  rewrite store_Some by lia. cbn [mbind option_bind].
  rewrite store_Some by (len_simpl; lia). cbn [mbind option_bind].
  assert (Ht : take (length q) (<[o2:=p1]> (<[o1:=p2]> (order q)))
    = <[o2:=p1]> (<[o1:=p2]> (ord q))) by by rewrite !take_insert_lt.
  eexists. split_and!; [done|done|done| |done|done|exact Ht].
  apply repr_set_order'; [done|by len_simpl|]. rewrite Ht.
  by rewrite (Permutation_insert_swap _ _ _ _ _ Ho1 Ho2), (r_order _ _ Hr).
Qed.

Lemma MoveOrder_ok q its from to : repr q its → from < length q → to < length q →
  ∃ q', MoveOrder from to q = Some q' ∧ repr q' its ∧ cfg q' = cfg q ∧ rand q' = rand q ∧
    ord q' = move_list from (S from) to (ord q).
Proof.
  intros Hr Hf Ht. pose proof (r_cap _ _ Hr). pose proof (r_order_cap _ _ Hr) as Hoc.
  unfold MoveOrder. rewrite !check_bind by lia.
  destruct (OrderToPosition_ok _ _ _ Hr Hf) as (x & -> & Hx & _). cbn [mbind option_bind].
  assert (∃ o, (if from <? to then for_range from to (λ i q, copy_order (i + 1) i q) q
      else for_range_down from to (λ i q, copy_order (i - 1) i q) q) = Some (set_order q o) ∧
      llen o = llen (order q) ∧
      ∀ j, j < length q → j ≠ from → o !! move_pos from (S from) to j = order q !! j)
    as (o & -> & Hlo & Hmv).
  { destruct (from <? to) eqn:E.
    - destruct (copy_order_up q from to) as (o & -> & Hlo & Hsh); [lia|lia|].
      exists o. split_and!; [done|done|]. intros j Hj Hne. rewrite Hsh.
      unfold move_pos. repeat case_match; try lia; f_equal; lia.
    - destruct (copy_order_down q from to) as (o & -> & Hlo & Hsh); [lia|lia|].
      exists o. split_and!; [done|done|]. intros j Hj Hne. rewrite Hsh.
      unfold move_pos. repeat case_match; try lia; f_equal; lia. }
  cbn [mbind option_bind set_order order]. rewrite store_Some by lia. cbn [mbind option_bind].
  assert (Htk : take (length q) (<[to:=x]> o) = move_list from (S from) to (ord q)).
  { apply move_list_unique; rewrite ?(repr_ord_len _ _ Hr); try lia.
    - len_simpl. lia.
    - intros p Hp. pose proof (move_pos_lt from (S from) to (length q) p).
      rewrite lookup_take_lt by lia. destruct (decide (p = from)) as [->|Hne].
      + replace (move_pos from (S from) to from) with to by (unfold move_pos; repeat case_match; lia).
        by rewrite list_lookup_insert_eq by lia.
      + rewrite list_lookup_insert_ne by (unfold move_pos; repeat case_match; lia).
        rewrite Hmv by done. symmetry. by apply ord_lookup. }
  eexists. split_and!; [done| |done|done|exact Htk].
  change (repr (set_order q (<[to:=x]> o)) its).
  apply repr_set_order'; [done|len_simpl; lia|]. rewrite Htk.
  rewrite move_list_perm by lia. apply Hr.
Qed.

Lemma RestoreOrder_ok q its : repr q its →
  ∃ q', RestoreOrder q = Some q' ∧ repr q' its ∧ cfg q' = cfg q ∧ rand q' = rand q ∧
    ord q' = seq 0 (length q).
Proof.
  intros Hr. pose proof (r_cap _ _ Hr). pose proof (r_order_cap _ _ Hr) as Hoc.
  unfold RestoreOrder.
  destruct (for_range_inv (λ k q', q' = set_order q (seq 0 k ++ drop k (order q)))
    (λ i q, store i i (order q) ≫= λ o, Some (set_order q o)) 0 (length q) q)
    as (q' & -> & ->); [lia| |by destruct q|].
  - intros k q' Hk ->. change (order (set_order q ?o)) with o.
    rewrite store_Some by (len_simpl; lia).
    cbn [mbind option_bind]. eexists; split; [done|]. change (set_order (set_order q ?a) ?b) with (set_order q b).
    f_equal.
    destruct (lookup_lt_is_Some_2 (order q) k) as [x Hx]; [lia|].
    rewrite insert_app_r_alt by (len_simpl; lia). len_simpl. rewrite Nat.sub_diag.
    rewrite (drop_S _ _ _ Hx). cbn [list_insert insert]. rewrite seq_S. by rewrite <-(assoc_L (++)).
  - eexists; split_and!; [done| |done|done|].
    + by apply repr_set_order.
    + by rewrite ord_set_order by (by len_simpl).
Qed.

(** ** Ranges of the order array *)

Lemma take_write_range {A} n start (l a : list A) :
  start + llen l ≤ n → n ≤ llen a →
  take n (write_range start l a) = write_range start l (take n a).
Proof.
  intros H1 H2. unfold write_range. apply list_eq. intros i.
  destruct (decide (i < n)) as [Hi|Hi].
  - rewrite lookup_take_lt by done.
    destruct (decide (i < start)); [|destruct (decide (i < start + llen l))];
      lookup_app_cases; try done; f_equal; lia.
  - rewrite !lookup_ge_None_2; [done|len_simpl; lia|len_simpl; lia].
Qed.

Lemma read_range_take {A} n start end_ (a : list A) :
  end_ ≤ n → read_range start end_ (take n a) = read_range start end_ a.
Proof.
  intros H. unfold read_range. rewrite skipn_firstn_comm, take_take. f_equal. lia.
Qed.

Lemma write_range_split {A} start end_ (l a : list A) :
  start ≤ end_ ≤ llen a → llen l = end_ - start →
  write_range start l a = take start a ++ l ++ drop end_ a.
Proof. intros H Hl. unfold write_range. by replace (start + llen l) with end_ by lia. Qed.

Lemma read_range_split {A} start end_ (a : list A) :
  start ≤ end_ ≤ llen a → a = take start a ++ read_range start end_ a ++ drop end_ a.
Proof.
  intros H. unfold read_range.
  replace (drop end_ a) with (drop (end_ - start) (drop start a)).
  - by rewrite take_drop, take_drop.
  - rewrite drop_drop. f_equal. lia.
Qed.

Lemma length_read_range {A} start end_ (a : list A) :
  start ≤ end_ ≤ llen a → llen (read_range start end_ a) = end_ - start.
Proof. intros H. unfold read_range. len_simpl. lia. Qed.

(** Overwriting a range of the order with a permutation of it. *)
Lemma write_order_ok q its start end_ l : repr q its → start ≤ end_ ≤ length q →
  l ≡ₚ read_range start end_ (ord q) →
  repr (set_order q (write_range start l (order q))) its ∧
  ord (set_order q (write_range start l (order q)))
    = take start (ord q) ++ l ++ drop end_ (ord q).
Proof.
  intros Hr Hse Hp. pose proof (r_cap _ _ Hr). pose proof (r_order_cap _ _ Hr) as Hoc.
  pose proof (repr_ord_len _ _ Hr) as Hol.
  assert (Hl : llen l = end_ - start) by (rewrite Hp; apply length_read_range; lia).
  assert (Ho : take (length q) (write_range start l (order q))
    = take start (ord q) ++ l ++ drop end_ (ord q)).
  { rewrite take_write_range by lia. apply write_range_split; [fold (ord q); lia|done]. }
  split; [|exact Ho]. apply repr_set_order'; [done| |].
  - unfold write_range. len_simpl. lia.
  - rewrite Ho, Hp, <-(read_range_split start end_ (ord q)) by lia. apply Hr.
Qed.

Lemma ShuffleOrderRange_ok q its start end_ :
  repr q its → random q = true → start ≤ end_ ≤ length q →
  ∃ q' l, ShuffleOrderRange start end_ q = Some q' ∧ repr q' its ∧ cfg q' = cfg q ∧
    l ≡ₚ read_range start end_ (ord q) ∧
    ord q' = take start (ord q) ++ l ++ drop end_ (ord q).
Proof.
  intros Hr Hrand Hse. unfold ShuffleOrderRange. rewrite !check_bind by (done || lia).
  assert (∃ g, AutoCreate (rand q) = Some g) as [g ->] by (destruct (rand q); by eexists).
  cbn [mbind option_bind].
  rewrite <-(read_range_take (length q)) by lia. fold (ord q).
  pose proof (std_shuffle_perm (read_range start end_ (ord q)) g) as Hp.
  destruct (std_shuffle (read_range start end_ (ord q)) g) as [l g'].
  destruct (write_order_ok q its start end_ l Hr Hse Hp) as [Hr' Ho].
  eexists _, l. split_and!; [done|by apply repr_set_rand|done|done|exact Ho].
Qed.

(** ** Grouping by priority *)

(** Priority of the item at a position, and at an order number. *)
Definition pr its (p : nat) : Z := from_option priority 0%Z (its !! p).
Definition opr q its (o : nat) : Z := from_option (pr its) 0%Z (ord q !! o).

Lemma pr_item its p it : its !! p = Some it → pr its p = priority it.
Proof. intros H. unfold pr. by rewrite H. Qed.

Lemma GetOrderPriority_ok q its o : repr q its → o < length q →
  GetOrderPriority q o = Some (opr q its o).
Proof.
  intros Hr Ho. unfold GetOrderPriority, GetOrderItem, IsValidOrder.
  rewrite check_bind by lia.
  destruct (OrderToPosition_ok _ _ _ Hr Ho) as (p & -> & Hp & Hlt). cbn [mbind option_bind].
  destruct (repr_lookup _ _ _ Hr Hlt) as (it & Hit & ->). cbn [mbind option_bind].
  unfold opr. rewrite Hp. simpl. by rewrite (pr_item _ _ _ Hit).
Qed.

Lemma sort_insert_perm x l : sort_insert x l ≡ₚ x :: l.
Proof.
  induction l as [|y l IH]; simpl; [done|]. case_match; [|done].
  rewrite IH. apply Permutation_swap.
Qed.

Lemma stable_sort_perm l : stable_sort l ≡ₚ l.
Proof. induction l as [|x l IH]; simpl; [done|]. by rewrite sort_insert_perm, IH. Qed.

Lemma sort_insert_sorted x l :
  StronglySorted (λ a b, b.2 ≤ a.2)%Z l → StronglySorted (λ a b, b.2 ≤ a.2)%Z (sort_insert x l).
Proof.
  induction 1 as [|y l Hs IH Hall]; simpl.
  { constructor; constructor. }
  case_match.
  - constructor; [done|]. rewrite sort_insert_perm. constructor; [lia|done].
  - constructor; [by constructor|]. constructor; [lia|].
    eapply Forall_impl; [done|]. simpl. lia.
Qed.

Lemma stable_sort_sorted l : StronglySorted (λ a b, b.2 ≤ a.2)%Z (stable_sort l).
Proof. induction l; simpl; [constructor|by apply sort_insert_sorted]. Qed.

Lemma sorted_fst its l : Forall (λ x, x.2 = pr its x.1) l →
  StronglySorted (λ a b, b.2 ≤ a.2)%Z l →
  StronglySorted (λ a b, pr its b ≤ pr its a)%Z (fst <$> l).
Proof.
  intros Hp. induction 1 as [|x l Hs IH Hall]; simpl; [constructor|].
  apply Forall_cons in Hp as [Hx Hp]. constructor; [by apply IH|].
  rewrite Forall_fmap. apply Forall_forall. intros y Hy. simpl.
  rewrite Forall_forall in Hall, Hp. rewrite <-Hx, <-(Hp _ Hy). by apply Hall.
Qed.

Lemma queue_sort_ok q its start end_ :
  repr q its → random q = true → start ≤ end_ ≤ length q →
  ∃ q' l, queue_sort_order_by_priority start end_ q = Some q' ∧ repr q' its ∧ cfg q' = cfg q ∧
    rand q' = rand q ∧ l ≡ₚ read_range start end_ (ord q) ∧
    StronglySorted (λ a b, pr its b ≤ pr its a)%Z l ∧
    ord q' = take start (ord q) ++ l ++ drop end_ (ord q).
Proof.
  intros Hr Hrand Hse. unfold queue_sort_order_by_priority.
  rewrite !check_bind by (done || lia).
  rewrite <-(read_range_take (length q)) by lia. fold (ord q).
  set (r := read_range start end_ (ord q)).
  assert (HmapM : mapM (λ p, item_at q p ≫= λ it, Some (p, priority it)) r
    = Some ((λ p, (p, pr its p)) <$> r)).
  { apply mapM_Some, Forall2_fmap_r, Forall_Forall2_diag, Forall_forall. intros p Hp.
    assert (Hlt : p < length q).
    { pose proof (perm_seq_elim _ _ (r_order _ _ Hr)) as (_ & _ & Hf).
      rewrite Forall_forall in Hf. apply Hf.
      rewrite (read_range_split start end_ (ord q)) by (rewrite (repr_ord_len _ _ Hr); lia).
      apply elem_of_app. right. apply elem_of_app. by left. }
    destruct (repr_lookup _ _ _ Hr Hlt) as (it & Hit & ->). simpl.
    by rewrite (pr_item _ _ _ Hit). }
  rewrite HmapM. cbn [mbind option_bind].
  set (l := fst <$> stable_sort ((λ p, (p, pr its p)) <$> r)).
  assert (Hp : l ≡ₚ r).
  { subst l. rewrite stable_sort_perm, <-list_fmap_compose. by rewrite list_fmap_id. }
  destruct (write_order_ok q its start end_ l Hr Hse Hp) as [Hr' Ho].
  eexists _, l. split_and!; [done|done|done|done|done| |exact Ho].
  apply sorted_fst; [|apply stable_sort_sorted].
  rewrite stable_sort_perm, Forall_fmap. by apply Forall_forall.
Qed.

(** A lookup in a rewritten range. *)
Lemma lookup_rewritten q its q' start end_ l o :
  repr q its → start ≤ end_ ≤ length q → llen l = end_ - start →
  ord q' = take start (ord q) ++ l ++ drop end_ (ord q) → o < length q →
  ord q' !! o = if (start <=? o) && (o <? end_) then l !! (o - start) else ord q !! o.
Proof.
  intros Hr Hse Hl Ho Hlt. rewrite Ho. pose proof (repr_ord_len _ _ Hr).
  destruct (decide (o < start)); [|destruct (decide (o < end_))].
  - replace ((start <=? o) && (o <? end_)) with false by lia. by lookup_app_cases.
  - replace ((start <=? o) && (o <? end_)) with true by lia. lookup_app_cases. f_equal. lia.
  - replace ((start <=? o) && (o <? end_)) with false by lia. lookup_app_cases. f_equal. lia.
Qed.

(** Shuffling a range of equal priorities does not change the priority of any
    order number. *)
Lemma shuffle_group_opr q its q' start end_ l c :
  repr q its → start ≤ end_ ≤ length q →
  l ≡ₚ read_range start end_ (ord q) →
  ord q' = take start (ord q) ++ l ++ drop end_ (ord q) →
  (∀ o, start ≤ o < end_ → opr q its o = c) →
  ∀ o, o < length q → opr q' its o = opr q its o.
Proof.
  intros Hr Hse Hp Ho Hc o Hlt. pose proof (repr_ord_len _ _ Hr) as Hol.
  assert (Hl : llen l = end_ - start) by (rewrite Hp; apply length_read_range; lia).
  unfold opr at 1. rewrite (lookup_rewritten q its q' start end_ l) by done.
  destruct ((start <=? o) && (o <? end_)) eqn:E; [|done].
  rewrite Hc by lia.
  destruct (lookup_lt_is_Some_2 l (o - start)) as [x Hx]; [lia|]. rewrite Hx. simpl.
  assert (Hin : x ∈ read_range start end_ (ord q))
    by (rewrite <-Hp; by eapply list_elem_of_lookup_2).
  apply list_elem_of_lookup in Hin as [j Hj]. unfold read_range in Hj.
  apply lookup_take_Some in Hj as [Hj Hjl]. rewrite lookup_drop in Hj.
  rewrite <-(Hc (start + j)) by lia. unfold opr. by rewrite Hj.
Qed.

(** [desc]: the priorities of a range of order numbers never increase. *)
Definition desc q its start end_ : Prop :=
  ∀ i j, start ≤ i ≤ j → j < end_ → (opr q its j ≤ opr q its i)%Z.

Lemma sorted_desc q its q0 start end_ l :
  repr q0 its → start ≤ end_ ≤ length q0 → llen l = end_ - start →
  ord q = take start (ord q0) ++ l ++ drop end_ (ord q0) →
  StronglySorted (λ a b, pr its b ≤ pr its a)%Z l → desc q its start end_.
Proof.
  intros Hr Hse Hl Ho Hs i j Hij Hj. unfold opr.
  rewrite !(lookup_rewritten q0 its q start end_ l) by (done || lia).
  replace ((start <=? i) && (i <? end_)) with true by lia.
  replace ((start <=? j) && (j <? end_)) with true by lia.
  destruct (lookup_lt_is_Some_2 l (i - start)) as [x Hx]; [lia|].
  destruct (lookup_lt_is_Some_2 l (j - start)) as [y Hy]; [lia|].
  rewrite Hx, Hy. simpl. destruct (decide (i = j)) as [->|Hne]; [simplify_eq; lia|].
  rewrite <-(take_drop_middle l (i - start) x Hx) in Hs.
  apply StronglySorted_app_1_r in Hs. inversion Hs as [|?? _ Hall]; subst.
  rewrite Forall_forall in Hall. apply Hall.
  apply (list_elem_of_lookup_2 _ (j - start - S (i - start))).
  rewrite lookup_drop. rewrite <-Hy. f_equal. lia.
Qed.

Lemma shuffle_groups_ok q its start end_ :
  repr q its → random q = true → start < end_ ≤ length q → desc q its start end_ →
  ∃ gs gp q', for_range (start + 1) end_ shuffle_group_step (start, opr q its start, q)
      = Some (gs, gp, q') ∧ repr q' its ∧ cfg q' = cfg q ∧ start ≤ gs < end_ ∧
    (∀ o, gs ≤ o < end_ → opr q' its o = gp) ∧
    (∀ o, o < length q → opr q' its o = opr q its o) ∧
    (∀ o, o < length q → ¬ (start ≤ o < end_) → ord q' !! o = ord q !! o).
Proof.
  intros Hr Hrand Hse Hdesc.
  destruct (for_range_inv (λ i s, ∃ gs gp q', s = (gs, gp, q') ∧ repr q' its ∧
      cfg q' = cfg q ∧ start ≤ gs < i ∧ (∀ o, gs ≤ o < i → opr q' its o = gp) ∧
      (∀ o, o < length q → opr q' its o = opr q its o) ∧
      (∀ o, o < length q → ¬ (start ≤ o < end_) → ord q' !! o = ord q !! o))
    shuffle_group_step (start + 1) end_ (start, opr q its start, q))
    as (s & -> & gs & gp & q' & -> & Hfin); [lia| | |].
  - intros i s Hi (gs & gp & q' & -> & Hr' & Hcfg & Hgs & Hgp & Hopr & Hout).
    pose proof (cfg_length _ _ Hcfg) as Hlen.
    assert (Hrnd : random q' = true) by (by rewrite (cfg_random _ _ Hcfg)).
    unfold shuffle_group_step. rewrite (GetOrderPriority_ok q' its) by (done || lia).
    cbn [mbind option_bind]. rewrite check_bind.
    2: { rewrite <-(Hgp gs) by lia. rewrite !Hopr by lia.
         pose proof (Hdesc gs i ltac:(lia) ltac:(lia)). lia. }
    destruct (opr q' its i =? gp)%Z eqn:E; cbn [negb].
    + eexists; split; [done|]. exists gs, gp, q'. split_and!; try done; try lia.
      intros o Ho. destruct (decide (o = i)) as [->|]; [lia|apply Hgp; lia].
    + destruct (ShuffleOrderRange_ok q' its gs i Hr' Hrnd) as (q'' & l & -> & Hr'' & Hcfg' & Hp & Ho);
        [lia|]. cbn [mbind option_bind].
      assert (Hsame : ∀ o, o < length q → opr q'' its o = opr q' its o).
      { intros o Hlt. eapply (shuffle_group_opr q' its q'' gs i l gp); try done; lia. }
      eexists; split; [done|]. exists i, (opr q' its i), q''.
      split_and!; try done; try lia; try congruence.
      * intros o Hio. replace o with i by lia. apply Hsame. lia.
      * intros o Hlt. rewrite Hsame by done. by apply Hopr.
      * intros o Hlt Hno. rewrite (lookup_rewritten q' its q'' gs i l) by
          (done || lia || (rewrite Hp; apply length_read_range; rewrite (repr_ord_len _ _ Hr'); lia)).
        replace ((gs <=? o) && (o <? i)) with false by lia. by apply Hout.
  - exists start, (opr q its start), q. split_and!; try done; try lia.
    intros o Ho. by replace o with start by lia.
  - destruct Hfin as (? & ? & ? & ? & ? & ?). exists gs, gp, q'. split_and!; done || lia.
Qed.

(** The shuffled range is a permutation of the old one, grouped by descending
    priority. *)
Lemma ShuffleOrderRangeWithPriority_ok q its start end_ :
  repr q its → random q = true → start ≤ end_ ≤ length q →
  ∃ q', ShuffleOrderRangeWithPriority start end_ q = Some q' ∧ repr q' its ∧ cfg q' = cfg q ∧
    desc q' its start end_ ∧
    (∀ o, o < length q → ¬ (start ≤ o < end_) → ord q' !! o = ord q !! o).
Proof.
  intros Hr Hrand Hse. unfold ShuffleOrderRangeWithPriority.
  rewrite !check_bind by (done || lia). destruct (start =? end_) eqn:E.
  { exists q. split_and!; try done. intros i j. lia. }
  destruct (queue_sort_ok q its start end_ Hr Hrand ltac:(lia))
    as (q1 & l & -> & Hr1 & Hcfg1 & _ & Hp & Hs & Ho1). cbn [mbind option_bind].
  assert (Hl : llen l = end_ - start).
  { rewrite Hp. apply length_read_range. rewrite (repr_ord_len _ _ Hr). lia. }
  pose proof (cfg_length _ _ Hcfg1) as Hlen1.
  assert (Hrand1 : random q1 = true) by (by rewrite (cfg_random _ _ Hcfg1)).
  rewrite (GetOrderPriority_ok q1 its) by (done || lia). cbn [mbind option_bind].
  pose proof (sorted_desc q1 its q start end_ l Hr Hse Hl Ho1 Hs) as Hd1.
  destruct (shuffle_groups_ok q1 its start end_ Hr1 Hrand1 ltac:(lia) Hd1)
    as (gs & gp & q2 & -> & Hr2 & Hcfg2 & Hgs & Hgp & Hopr & Hout). cbn [mbind option_bind].
  assert (Hlen2 : length q2 = length q) by (by rewrite (cfg_length _ _ Hcfg2)).
  assert (Hrand2 : random q2 = true) by (by rewrite (cfg_random _ _ Hcfg2)).
  destruct (ShuffleOrderRange_ok q2 its gs end_ Hr2 Hrand2 ltac:(lia))
    as (q3 & l3 & -> & Hr3 & Hcfg3 & Hp3 & Ho3).
  assert (Hsame : ∀ o, o < length q → opr q3 its o = opr q1 its o).
  { intros o Hlt. rewrite <-Hopr by lia.
    eapply (shuffle_group_opr q2 its q3 gs end_ l3 gp); try done; lia. }
  exists q3. split_and!; [done|done|congruence| |].
  - intros i j Hij Hj. rewrite !Hsame by lia. by apply Hd1.
  - intros o Hlt Hno. rewrite (lookup_rewritten q2 its q3 gs end_ l3) by
      (done || lia || (rewrite Hp3; apply length_read_range; rewrite (repr_ord_len _ _ Hr2); lia)).
    replace ((gs <=? o) && (o <? end_)) with false by lia. rewrite Hout by lia.
    rewrite (lookup_rewritten q its q1 start end_ l) by (done || lia).
    by replace ((start <=? o) && (o <? end_)) with false by lia.
Qed.

Lemma ShuffleOrder_ok q its : repr q its → random q = true →
  ∃ q', ShuffleOrder q = Some q' ∧ repr q' its ∧ cfg q' = cfg q ∧ desc q' its 0 (length q).
Proof.
  intros Hr Hrand.
  destruct (ShuffleOrderRangeWithPriority_ok q its 0 (length q) Hr Hrand) as (q' & ? & ? & ? & ? & _);
    [lia|]. by exists q'.
Qed.

End Order.
End QueueOrder.
