(* ===== verification/QueuePriority.v ===== *)
(** * Queue: random draws and priorities

    Continues [QueueOrder]: the operations built on single random draws, and the
    priority operations. *)

From Stdlib Require Import ZArith Lia ZifyBool.
From stdpp Require Import base numbers sets list.
From S2P Require Import Prelude IdTable RandomEngine Queue QueueFacts QueueEdit QueueOrder.

Set Default Goal Selector "!".

Module QueuePriority.
Import Queue QueueFacts QueueEdit QueueOrder.

#[local] Abbreviation llen := List.length.

Section Priority.
Context {Song G : Type} `{!RandomEngine G, !RandomEngineLaws G}.
Implicit Types (q : Queue Song G) (it : Item Song) (its : list (Item Song)).

Lemma draw_ok q lo hi : lo ≤ hi →
  ∃ n g, draw lo hi q = Some (n, set_rand q g) ∧ lo ≤ n ≤ hi.
Proof.
  intros H. unfold draw. rewrite check_bind by lia.
  assert (∃ g, AutoCreate (rand q) = Some g) as [g ->] by (destruct (rand q); by eexists).
  cbn [mbind option_bind]. pose proof (uniform_bounds lo hi g H) as Hb.
  destruct (uniform lo hi g) as [n g']. by exists n, (Some g').
Qed.

(** Both single-draw shuffles swap two order numbers of the range. *)
Lemma ShuffleOrderFirst_ok q its start end_ : repr q its → start < end_ ≤ length q →
  ∃ q' r p1 p2, ShuffleOrderFirst start end_ q = Some q' ∧ repr q' its ∧ cfg q' = cfg q ∧
    start ≤ r < end_ ∧ ord q !! start = Some p1 ∧ ord q !! r = Some p2 ∧
    ord q' = <[r:=p1]> (<[start:=p2]> (ord q)).
Proof.
  intros Hr Hse. unfold ShuffleOrderFirst.
  destruct (draw_ok q start (end_ - 1)) as (r & g & -> & Hb); [lia|]. cbn [mbind option_bind].
  destruct (SwapOrders_ok (set_rand q g) its start r) as (p1 & p2 & q' & H1 & H2 & -> & Hr' & Hc & _ & Ho);
    [by apply repr_set_rand|simpl; lia|simpl; lia|].
  exists q', r, p1, p2. split_and!; try done; lia.
Qed.

Lemma ShuffleOrderLast_ok q its start end_ : repr q its → start < end_ ≤ length q →
  ∃ q' r p1 p2, ShuffleOrderLast start end_ q = Some q' ∧ repr q' its ∧ cfg q' = cfg q ∧
    start ≤ r < end_ ∧ ord q !! (end_ - 1) = Some p1 ∧ ord q !! r = Some p2 ∧
    ord q' = <[r:=p1]> (<[end_ - 1:=p2]> (ord q)).
Proof.
  intros Hr Hse. unfold ShuffleOrderLast.
  destruct (draw_ok q start (end_ - 1)) as (r & g & -> & Hb); [lia|]. cbn [mbind option_bind].
  destruct (SwapOrders_ok (set_rand q g) its (end_ - 1) r)
    as (p1 & p2 & q' & H1 & H2 & -> & Hr' & Hc & _ & Ho);
    [by apply repr_set_rand|simpl; lia|simpl; lia|].
  exists q', r, p1, p2. split_and!; try done; lia.
Qed.

(** [its'] is [its] with the items of a range permuted and marked as changed. *)
Definition same_songs its its' : Prop := (id <$> its') ≡ₚ (id <$> its) ∧
  ((λ it, (id it, song it, song_data it, priority it)) <$> its')
    ≡ₚ ((λ it, (id it, song it, song_data it, priority it)) <$> its).

Lemma same_songs_swap q its p1 p2 it1 it2 :
  its !! p1 = Some it1 → its !! p2 = Some it2 →
  same_songs its (swap_spec q its p1 p2 it1 it2).
Proof.
  intros H1 H2. unfold same_songs, swap_spec.
  split; rewrite !list_fmap_insert; simpl; apply Permutation_insert_swap;
    by rewrite list_lookup_fmap, ?H1, ?H2.
Qed.

Lemma same_songs_trans its1 its2 its3 :
  same_songs its1 its2 → same_songs its2 its3 → same_songs its1 its3.
Proof. intros [H1 H2] [H3 H4]. split; by etrans. Qed.

(** [ShuffleRange] permutes the items of the range in place: nothing outside it
    moves, no song is lost, and the order array is not touched. *)
Lemma ShuffleRange_ok q its start end_ : repr q its → start ≤ end_ ≤ length q →
  ∃ q' its', ShuffleRange start end_ q = Some q' ∧ repr q' its' ∧ cfg q' = cfg q ∧
    order q' = order q ∧ same_songs its its' ∧
    (∀ i, ¬ (start ≤ i < end_) → its' !! i = its !! i).
Proof.
  intros Hr Hse. unfold ShuffleRange. rewrite !check_bind by lia.
  destruct (for_range_inv (λ k q', ∃ its', repr q' its' ∧ cfg q' = cfg q ∧
      order q' = order q ∧ same_songs its its' ∧
      (∀ i, ¬ (start ≤ i < end_) → its' !! i = its !! i))
    (λ i q, draw start (end_ - 1) q ≫= λ '(ri, q), SwapPositions i ri q)
    start end_ (set_rand q (AutoCreate (rand q))))
    as (q' & -> & its' & Hfin); [lia| | |].
  - intros k q' Hk (its' & Hr' & Hcfg & Hord & Hss & Hout).
    pose proof (cfg_length _ _ Hcfg) as Hlen.
    destruct (draw_ok q' start (end_ - 1)) as (r & g & -> & Hb); [lia|].
    cbn [mbind option_bind].
    destruct (repr_lookup q' its' k Hr') as (it1 & H1 & _); [lia|].
    destruct (repr_lookup q' its' r Hr') as (it2 & H2 & _); [lia|].
    destruct (queue_SwapPositions_ok (set_rand q' g) its' k r it1 it2)
      as (q'' & -> & Hr'' & Hcfg' & _ & Ho'); [by apply repr_set_rand|done|done|].
    eexists; split; [done|]. eexists. split_and!; [done|by rewrite Hcfg'|by rewrite Ho'| |].
    + eapply same_songs_trans; [done|]. by apply same_songs_swap.
    + intros i Hi. unfold swap_spec. rewrite !list_lookup_insert_ne by lia. by apply Hout.
  - exists its. split_and!; try done. by apply repr_set_rand.
  - exists q', its'. by split_and!; try apply Hfin.
Qed.

(** ** Priorities *)

Lemma FindPriorityOrder_loop_ok q its prio ex : repr q its → ∀ n i,
  i + n = length q →
  ∃ r, FindPriorityOrder_loop n i q prio ex = Some r ∧ i ≤ r ≤ length q ∧
    (∀ o, i ≤ o < r → o ≠ ex → (prio < opr q its o)%Z) ∧
    (r < length q → r ≠ ex ∧ (opr q its r ≤ prio)%Z).
Proof.
  intros Hr. induction n as [|n IH]; intros i Hi; simpl.
  { exists (length q). split_and!; try done; lia. }
  destruct (OrderToPosition_ok q its i Hr) as (p & -> & Hp & Hlt); [lia|].
  cbn [mbind option_bind]. destruct (repr_lookup _ _ _ Hr Hlt) as (it & Hit & ->).
  cbn [mbind option_bind].
  assert (Hpr : opr q its i = priority it).
  { unfold opr. rewrite Hp. by apply pr_item. }
  destruct ((priority it <=? prio)%Z && negb (i =? ex)) eqn:E.
  - exists i. split_and!; try done; lia.
  - destruct (IH (S i)) as (r & -> & Hb & Hskip & Hfound); [lia|].
    exists r. split_and!; try done; try lia.
    intros o Ho Hne. destruct (decide (o = i)) as [->|]; [lia|apply Hskip; lia].
Qed.

(** The first order number at or behind [start] whose priority does not exceed
    [prio], not counting [ex]; [length] if there is none. *)
Lemma FindPriorityOrder_ok q its start prio ex :
  repr q its → random q = true → start ≤ length q →
  ∃ r, FindPriorityOrder q start prio ex = Some r ∧ start ≤ r ≤ length q ∧
    (∀ o, start ≤ o < r → o ≠ ex → (prio < opr q its o)%Z) ∧
    (r < length q → r ≠ ex ∧ (opr q its r ≤ prio)%Z).
Proof.
  intros Hr Hrand Hs. unfold FindPriorityOrder. rewrite !check_bind by (done || lia).
  apply FindPriorityOrder_loop_ok; [done|lia].
Qed.

Lemma CountSamePriority_loop_ok q its start prio : repr q its → ∀ n i,
  i + n = length q → start ≤ i → (∀ o, start ≤ o < i → opr q its o = prio) →
  ∃ c, CountSamePriority_loop n i q start prio = Some c ∧ start + c ≤ length q ∧
    i - start ≤ c ∧ (∀ o, start ≤ o < start + c → opr q its o = prio) ∧
    (i < length q → opr q its i = prio → i - start < c).
Proof.
  intros Hr. induction n as [|n IH]; intros i Hi Hst Hall; simpl.
  { exists (length q - start). split_and!; try done; try lia.
    intros o Ho. apply Hall. lia. }
  destruct (OrderToPosition_ok q its i Hr) as (p & -> & Hp & Hlt); [lia|].
  cbn [mbind option_bind]. destruct (repr_lookup _ _ _ Hr Hlt) as (it & Hit & ->).
  cbn [mbind option_bind].
  assert (Hpr : opr q its i = priority it).
  { unfold opr. rewrite Hp. by apply pr_item. }
  destruct (priority it =? prio)%Z eqn:E; cbn [negb].
  - destruct (IH (S i)) as (c & -> & Hc1 & Hc2 & Hc3 & _); [lia|lia| |].
    + intros o Ho. destruct (decide (o = i)) as [->|]; [lia|apply Hall; lia].
    + exists c. split_and!; try done; lia.
  - exists (i - start). split_and!; try done; try lia. intros o Ho. apply Hall. lia.
Qed.

Lemma CountSamePriority_ok q its start prio :
  repr q its → random q = true → start < length q → opr q its start = prio →
  ∃ c, CountSamePriority q start prio = Some c ∧ 1 ≤ c ∧ start + c ≤ length q ∧
    (∀ o, start ≤ o < start + c → opr q its o = prio).
Proof.
  intros Hr Hrand Hs Hp. unfold CountSamePriority. rewrite !check_bind by (done || lia).
  destruct (CountSamePriority_loop_ok q its start prio Hr (length q - start) start)
    as (c & -> & H1 & H2 & H3 & H4); [lia|lia|lia|].
  exists c. split_and!; try done. specialize (H4 Hs Hp). lia.
Qed.

Lemma keeps_order_ok q its o after old prio :
  repr q its → (-1 ≤ after < Z.of_nat (length q))%Z →
  ∃ b, keeps_order q o after old prio = Some b.
Proof.
  intros Hr Ha. unfold keeps_order. destruct (0 <=? after)%Z eqn:E; [|by eexists].
  case_match; [by eexists|]. case_match; [|by eexists].
  destruct (OrderToPosition_ok q its (Z.to_nat after) Hr) as (p & -> & _ & Hlt); [lia|].
  cbn [mbind option_bind]. destruct (repr_lookup _ _ _ Hr Hlt) as (it & _ & ->).
  cbn [mbind option_bind]. by eexists.
Qed.

(** The reordering step of [SetPriority]: the song moves to a place in the play
    order where its new priority is among equals. *)
Lemma reorder_ok q its position o prio after it :
  repr q its → random q = true → its !! position = Some it → priority it = prio →
  ord q !! o = Some position → (-1 ≤ after < Z.of_nat (length q))%Z →
  ∃ q', (FindPriorityOrder q (Z.to_nat (after + 1)) prio o ≫= λ before_order,
     let new_order := if o <? before_order then before_order - 1 else before_order in
     MoveOrder o new_order q ≫= λ q,
     CountSamePriority q new_order prio ≫= λ c,
     check (1 <=? c) ≫= λ _,
     ShuffleOrderFirst new_order (new_order + c) q ≫= λ q,
     Some (true, q)) = Some (true, q') ∧ repr q' its ∧ cfg q' = cfg q.
Proof.
  intros Hr Hrand Hit Hprio Ho Ha.
  assert (Hol : o < length q).
  { rewrite <-(repr_ord_len _ _ Hr). by eapply lookup_lt_Some. }
  destruct (FindPriorityOrder_ok q its (Z.to_nat (after + 1)) prio o Hr Hrand)
    as (r & -> & Hb & _ & _); [lia|]. cbn [mbind option_bind].
  set (n := if o <? r then r - 1 else r).
  assert (Hn : n < length q) by (subst n; case_match; lia).
  destruct (MoveOrder_ok q its o n Hr Hol Hn) as (q1 & -> & Hr1 & Hc1 & _ & Ho1).
  cbn [mbind option_bind].
  pose proof (cfg_length _ _ Hc1) as Hl1.
  assert (Hrand1 : random q1 = true) by by rewrite (cfg_random _ _ Hc1).
  assert (Hat : opr q1 its n = prio).
  { unfold opr. rewrite Ho1.
    assert (Hmp : move_pos o (S o) n o = n) by (unfold move_pos; repeat case_match; lia).
    pose proof (lookup_move_list o (S o) n (ord q) o) as Hml.
    rewrite Hmp, (repr_ord_len _ _ Hr), Ho in Hml. rewrite Hml by lia. simpl.
    by rewrite (pr_item _ _ _ Hit). }
  destruct (CountSamePriority_ok q1 its n prio Hr1 Hrand1) as (c & -> & Hcnt & Hcl & _);
    [lia|done|]. cbn [mbind option_bind].
  rewrite check_bind by lia.
  destruct (ShuffleOrderFirst_ok q1 its n (n + c) Hr1) as (q2 & ? & ? & ? & -> & Hr2 & Hc2 & _);
    [lia|]. cbn [mbind option_bind].
  exists q2. split_and!; [done|done|congruence].
Qed.

(** [SetPriority] changes exactly the priority and version of one item, and
    reports whether it did. *)
Lemma SetPriority_ok q its position prio after reorder it :
  repr q its → its !! position = Some it → (0 ≤ prio ≤ 255)%Z →
  (-1 ≤ after < Z.of_nat (length q))%Z →
  ∃ q', SetPriority position prio after reorder q
        = Some (negb (priority it =? prio)%Z, q') ∧ cfg q' = cfg q ∧
    repr q' (if (priority it =? prio)%Z then its
             else <[position := with_priority (with_version it (version q)) prio]> its) ∧
    (random q = false ∨ reorder = false → ord q' = ord q).
Proof.
  intros Hr Hit Hprio Ha. pose proof (lookup_lt_Some _ _ _ Hit) as Hlt.
  rewrite (r_len _ _ Hr) in Hlt. unfold SetPriority.
  rewrite check_bind by lia. rewrite (repr_item_at _ _ _ _ Hr Hit). cbn [mbind option_bind].
  destruct (priority it =? prio)%Z eqn:E; [by exists q|]. cbn [negb].
  set (it' := with_priority (with_version it (version q)) prio).
  pose proof (r_version _ _ Hr).
  destruct (repr_write_item q its position it it' Hr Hit) as [-> Hr1];
    simpl; try done; try lia.
  set (q1 := set_items q _) in *. change (random q1) with (random q).
  destruct (random q) eqn:Hrand; cbn [negb orb].
  2: { exists q1. by split_and!. }
  destruct reorder; cbn [negb].
  2: { exists q1. by split_and!. }
  destruct (PositionToOrder_ok q1 _ position Hr1) as (o & -> & Ho & Hol); [done|].
  cbn [mbind option_bind].
  destruct (keeps_order_ok q1 _ o after (priority it) prio Hr1 Ha) as [[] ->]; cbn [mbind option_bind].
  { exists q1. split_and!; try done. }
  destruct (reorder_ok q1 _ position o prio after it' Hr1) as (q' & Heq & Hr' & Hc');
    try done.
  { apply list_lookup_insert_eq. by rewrite (r_len _ _ Hr). }
  exists q'. split_and!; [exact Heq|by rewrite Hc'|done|]. intros [|]; congruence.
Qed.

(** The item list after [SetPriorityRange]. *)
Definition priority_spec q its start end_ prio : list (Item Song) :=
  imap (λ i it, if (start <=? i) && (i <? end_) && negb (priority it =? prio)%Z
                then with_priority (with_version it (version q)) prio else it) its.

Lemma queue_SetPriorityRange_ok q its start end_ prio after :
  repr q its → start ≤ end_ ≤ length q → (0 ≤ prio ≤ 255)%Z →
  (-1 ≤ after < Z.of_nat (length q))%Z →
  ∃ m q', SetPriorityRange start end_ prio after q = Some (m, q') ∧ cfg q' = cfg q ∧
    repr q' (priority_spec q its start end_ prio) ∧ (random q = false → ord q' = ord q).
Proof.
  intros Hr Hse Hprio Ha. unfold SetPriorityRange. rewrite !check_bind by lia.
  assert (∃ ap, (if (0 <=? after)%Z
      then OrderToPosition q (Z.to_nat after) ≫= λ p, Some (Z.of_nat p)
      else Some (-1)%Z) = Some ap ∧ (-1 ≤ ap < Z.of_nat (length q))%Z) as (ap & -> & Hap).
  { destruct (0 <=? after)%Z eqn:E; [|exists (-1)%Z; split; [done|lia]].
    destruct (OrderToPosition_ok q its (Z.to_nat after) Hr) as (p & -> & _ & Hlt); [lia|].
    exists (Z.of_nat p). split; [done|lia]. }
  cbn [mbind option_bind].
  match goal with |- context [for_range _ _ ?f _] => set (body := f) end.
  destruct (for_range_inv (λ k s, ∃ m q', s = (m, q') ∧ cfg q' = cfg q ∧
      repr q' (priority_spec q its start k prio) ∧ (random q = false → ord q' = ord q))
    body start end_ (false, q)) as (s & Hs & m & q' & -> & Hfin); [lia| | |].
  - intros k s Hk (m & q' & -> & Hcfg & Hr' & Hord).
    pose proof (cfg_length _ _ Hcfg) as Hlen. subst body. cbn beta iota.
    assert (∃ ao, (if (0 <=? ap)%Z
        then PositionToOrder q' (Z.to_nat ap) ≫= λ o, Some (Z.of_nat o)
        else Some (-1)%Z) = Some ao ∧ (-1 ≤ ao < Z.of_nat (length q'))%Z) as (ao & -> & Hao).
    { destruct (0 <=? ap)%Z eqn:E; [|exists (-1)%Z; split; [done|lia]].
      destruct (PositionToOrder_ok q' _ (Z.to_nat ap) Hr') as (o & -> & _ & Hlt); [lia|].
      exists (Z.of_nat o). split; [done|lia]. }
    cbn [mbind option_bind].
    destruct (repr_lookup q its k Hr) as (it & Hit & _); [lia|].
    assert (Hit' : priority_spec q its start k prio !! k = Some it).
    { unfold priority_spec. rewrite list_lookup_imap, Hit. simpl.
      by replace ((start <=? k) && (k <? k)) with false by lia. }
    destruct (SetPriority_ok q' _ k prio ao true it Hr' Hit' Hprio Hao)
      as (q'' & -> & Hcfg' & Hr'' & Hord'). cbn [mbind option_bind].
    eexists; split; [done|]. eexists _, q''. split_and!; [done|congruence| |].
    + replace (priority_spec q its start (S k) prio) with
        (if (priority it =? prio)%Z then priority_spec q its start k prio
         else <[k := with_priority (with_version it (version q')) prio]>
                (priority_spec q its start k prio)); [done|].
      assert (Hv : version q' = version q) by (unfold cfg in Hcfg; congruence).
      rewrite Hv. unfold priority_spec.
      apply list_eq. intros j. destruct (decide (j = k)) as [->|Hne].
      * rewrite list_lookup_imap, Hit. simpl.
        replace ((start <=? k) && (k <? S k)) with true by lia. simpl.
        destruct (priority it =? prio)%Z; simpl; [exact Hit'|].
        rewrite list_lookup_insert_eq; [done|]. rewrite length_imap.
        by eapply lookup_lt_Some.
      * transitivity (imap (λ i it, if (start <=? i) && (i <? k) && negb (priority it =? prio)%Z
           then with_priority (with_version it (version q)) prio else it) its !! j).
        { case_match; [done|]. by rewrite list_lookup_insert_ne. }
        rewrite !list_lookup_imap. destruct (its !! j); simpl; [|done].
        by replace (j <? S k) with (j <? k) by lia.
    + intros Hrand. rewrite Hord', Hord; [done|done|]. left.
      by rewrite (cfg_random _ _ Hcfg).
  - exists false, q. split_and!; try done.
    replace (priority_spec q its start start prio) with its; [done|].
    unfold priority_spec. symmetry. apply list_eq. intros j. rewrite list_lookup_imap.
    destruct (its !! j); simpl; [|done].
    by replace ((start <=? j) && (j <? start)) with false by lia.
  - rewrite Hs. exists m, q'. by split_and!; try apply Hfin.
Qed.

End Priority.
End QueuePriority.
