(* ===== verification/QueueProps.v ===== *)
(** * Properties of the queue

    What each operation of [struct Queue] does to the songs, their ids and the play
    order, stated on the representation [repr q its] of a queue by its item list. *)

From Stdlib Require Import ZArith Lia ZifyBool.
From stdpp Require Import base numbers sets list.
From S2P Require Import Prelude IdTable RandomEngine Queue QueueFacts QueueEdit QueueOrder.
From S2P Require Import QueuePriority.

Set Default Goal Selector "!".

Module QueueProps.
Import Queue Lcg QueueFacts QueueEdit QueueOrder QueuePriority.

#[local] Abbreviation llen := List.length.

Section Props.
Context {Song G : Type} `{!RandomEngine G, !RandomEngineLaws G}.
Implicit Types (q : Queue Song G) (it : Item Song) (its : list (Item Song)).

(** The items of a queue, read off its array. *)
Definition contents q : list (Item Song) := omap (λ o, o) (take (length q) (items q)).

Lemma contents_repr q its : repr q its → contents q = its.
Proof.
  intros Hr. unfold contents. replace (take (length q) (items q)) with (Some <$> its).
  { clear Hr. induction its as [|it its IH]; [done|]. cbn. by rewrite IH. }
  apply list_eq. intros i. rewrite list_lookup_fmap. destruct (its !! i) as [it|] eqn:E; simpl.
  - pose proof (lookup_lt_Some _ _ _ E) as Hlt. rewrite (r_len _ _ Hr) in Hlt.
    rewrite lookup_take_lt by done. symmetry. by apply Hr.
  - apply lookup_ge_None in E. symmetry. apply lookup_ge_None.
    rewrite length_take. rewrite (r_len _ _ Hr) in E. lia.
Qed.

(** A queue filled by [Append]. *)
Definition push_song q (s : Song) (prio : Z) : Queue Song G :=
  match Append (S (length q)) s prio q with
  | Some (_, q') => q'
  | None => q
  end.

Definition build (n : nat) (l : list (Song * Z)) : Queue Song G :=
  foldl (λ q x, push_song q x.1 x.2) (make n) l.

(** The representation together with the numbering of the song objects. *)
Definition built q : Prop := ∃ its, repr q its ∧ song <$> its = seq 1 (length q).

Lemma push_song_built q s prio : built q → (0 ≤ prio ≤ 255)%Z → length q < max_length q →
  built (push_song q s prio) ∧ max_length (push_song q s prio) = max_length q ∧
  length (push_song q s prio) = S (length q).
Proof.
  intros (its & Hr & Hs) Hp Hl. unfold push_song.
  destruct (Append_ok q its (S (length q)) s prio Hr Hl) as (i & q' & -> & _ & Hr' & Hcfg & _ & _); [|done|].
  { rewrite Hs. intros Hin%elem_of_seq. lia. }
  assert (Hlen : length q' = S (length q)) by (unfold cfg in Hcfg; simpl in Hcfg; congruence).
  split_and!; [|unfold cfg in Hcfg; simpl in Hcfg; congruence|done].
  eexists. split; [exact Hr'|]. rewrite fmap_app, Hs, Hlen. cbn [fmap list_fmap song].
  by rewrite (seq_S (length q)).
Qed.

Lemma build_built n l : 0 < n → llen l ≤ n → Forall (λ x, 0 ≤ x.2 ≤ 255)%Z l →
  built (build n l).
Proof.
  intros Hn Hl Hp. unfold build.
  enough (∀ q, built q → length q + llen l ≤ max_length q →
    built (foldl (λ q x, push_song q x.1 x.2) q l)) as Hgen.
  { apply Hgen; [|done]. exists []. split; [by apply make_repr|done]. }
  clear Hl. induction Hp as [|x l Hx Hp IH]; intros q Hb Hcap; [done|]. simpl in *.
  destruct (push_song_built q x.1 x.2 Hb Hx) as (H1 & H2 & H3); [lia|].
  apply IH; [done|lia].
Qed.

Lemma built_repr q : built q → repr q (contents q).
Proof. intros (its & Hr & _). by rewrite (contents_repr _ _ Hr). Qed.

(** C4: [MoveRange] moves the block [start, end) to [to], keeps every other song in
    sequence, and in random mode leaves the order in which the songs are played exactly
    as it was. *)
Theorem MoveRange_correct q its start end_ to : repr q its → start < end_ ≤ length q →
  to + (end_ - start) ≤ length q →
  ∃ q', MoveRange start end_ to q = Some q' ∧ repr q' (contents q') ∧
    id <$> contents q' = move_list start end_ to (id <$> its) ∧
    (random q = true → played q' (contents q') = played q its) ∧
    (random q = false → ord q' = ord q) ∧ cfg q' = cfg q.
Proof.
  intros Hr H1 H2. destruct (queue_MoveRange_ok q its start end_ to Hr H1 H2) as (q' & Hq & Hr' & Hcfg & Ho).
  exists q'. rewrite (contents_repr _ _ Hr'). split_and!; try done.
  - apply move_list_unique; [|len_simpl; rewrite (r_len _ _ Hr); lia|..].
    + len_simpl. rewrite (r_len _ _ Hr). lia.
    + len_simpl. rewrite (r_len _ _ Hr), (length_move_spec q its start end_ to) by done. done.
    + intros p Hp. rewrite length_fmap, (r_len _ _ Hr) in Hp.
      rewrite !list_lookup_fmap, (move_spec_lookup q its start end_ to) by done.
      destruct (its !! p); cbn [fmap option_fmap option_map]; [|done]. by destruct (moved _ _ _ _).
  - intros Hrand. rewrite Hrand in Ho. by apply (played_moved q its start end_ to).
  - intros Hrand. by rewrite Hrand in Ho.
Qed.

(** [DeletePosition] removes exactly the song at the position, shifts the positions
    behind it, drops it from the play order and keeps the relative order of all other
    songs; its id is no longer known and every other id still resolves. *)
Theorem DeletePosition_correct q its position it : repr q its → its !! position = Some it →
  ∃ q', DeletePosition position q = Some q' ∧ repr q' (contents q') ∧
    id <$> contents q' = delete position (id <$> its) ∧
    length q' = length q - 1 ∧
    (∃ z, IdToPosition q' (id it) = Some z ∧ (z < 0)%Z) ∧
    (∀ p it', its !! p = Some it' → p ≠ position →
       IdToPosition q' (id it') = Some (Z.of_nat (if position <? p then p - 1 else p))).
Proof.
  intros Hr Hit. pose proof (lookup_lt_Some _ _ _ Hit) as Hlt. rewrite (r_len _ _ Hr) in Hlt.
  destruct (queue_DeletePosition_ok q its position Hr Hlt) as (o & q' & Hpo & Hq & Hr' & Hcfg & _ & Ho).
  exists q'. rewrite (contents_repr _ _ Hr').
  assert (Hids : id <$> delete_spec q its position = delete position (id <$> its)).
  { by apply fmap_delete_spec. }
  assert (Hnd : NoDup (id <$> its)) by apply (IdTable.holds_nodup _ _ _ (r_ids _ _ Hr)).
  assert (Hat : (id <$> its) !! position = Some (id it)) by by rewrite list_lookup_fmap, Hit.
  split_and!; try done.
  - unfold cfg in Hcfg. simpl in Hcfg. congruence.
  - apply (IdTable.IdToPosition_dead _ _ _ _ (r_ids _ _ Hr')). rewrite Hids.
    intros (j & Hj)%list_elem_of_lookup. destruct (decide (j < position)).
    + rewrite list_lookup_delete_lt in Hj by lia.
      pose proof (NoDup_lookup _ _ _ _ Hnd Hj Hat). lia.
    + rewrite list_lookup_delete_ge in Hj by lia.
      pose proof (NoDup_lookup _ _ _ _ Hnd Hj Hat). lia.
  - intros p it' Hp Hne. unfold IdToPosition.
    apply (IdTable.IdToPosition_live _ _ _ _ _ (r_ids _ _ Hr')). rewrite Hids.
    case_match.
    + rewrite list_lookup_delete_ge by lia. replace (S (p - 1)) with p by lia.
      by rewrite list_lookup_fmap, Hp.
    + rewrite list_lookup_delete_lt by lia. by rewrite list_lookup_fmap, Hp.
Qed.

(** [Append] on a queue that is not full gives the song an id that no live song has,
    puts it last in position and in play order, and every id, the new one included,
    resolves to its position. *)
Theorem Append_correct q its ptr s prio : repr q its → length q < max_length q →
  (ptr ∉ song <$> its) → (0 ≤ prio ≤ 255)%Z →
  ∃ i q', Append ptr s prio q = Some (i, q') ∧ (i ∉ id <$> its) ∧ repr q' (contents q') ∧
    id <$> contents q' = (id <$> its) ++ [i] ∧ ord q' = ord q ++ [length q] ∧
    (∀ p j, (id <$> contents q') !! p = Some j → IdToPosition q' j = Some (Z.of_nat p)).
Proof.
  intros Hr Hl Hptr Hp. destruct (Append_ok q its ptr s prio Hr Hl Hptr Hp) as (i & q' & Hq & Hni & Hr' & _ & _ & Ho).
  exists i, q'. rewrite (contents_repr _ _ Hr'). split_and!; try done.
  - by rewrite fmap_app.
  - intros p j Hj. unfold IdToPosition. by apply (IdTable.IdToPosition_live _ _ _ _ _ (r_ids _ _ Hr')).
Qed.

(** C32: in random mode [ShuffleOrderRangeWithPriority] permutes the play order of the
    range so that higher priorities come first, and leaves positions, ids and the rest
    of the play order alone. *)
Theorem ShuffleOrderRangeWithPriority_correct q its start end_ : repr q its → random q = true →
  start ≤ end_ ≤ length q →
  ∃ q', ShuffleOrderRangeWithPriority start end_ q = Some q' ∧ repr q' its ∧ contents q' = its ∧
    (∀ i j, start ≤ i ≤ j → j < end_ → (opr q' its j ≤ opr q' its i)%Z) ∧
    (∀ o, o < length q → ¬ (start ≤ o < end_) → ord q' !! o = ord q !! o) ∧
    ord q' ≡ₚ ord q.
Proof.
  intros Hr Hrand Hse.
  destruct (ShuffleOrderRangeWithPriority_ok q its start end_ Hr Hrand Hse) as (q' & Hq & Hr' & Hcfg & Hd & Ho).
  exists q'. split_and!; try done; [by apply contents_repr|].
  by rewrite (r_order _ _ Hr'), (r_order _ _ Hr), (cfg_length _ _ Hcfg).
Qed.

(** [SetPriorityRange] gives exactly the songs of the range the new priority, marks
    exactly those whose priority changed as modified, and never loses or duplicates a
    song in the play order; outside random mode the order does not change. *)
Theorem SetPriorityRange_correct q its start end_ prio after : repr q its →
  start ≤ end_ ≤ length q → (0 ≤ prio ≤ 255)%Z → (-1 ≤ after < Z.of_nat (length q))%Z →
  ∃ m q', SetPriorityRange start end_ prio after q = Some (m, q') ∧ repr q' (contents q') ∧
    id <$> contents q' = id <$> its ∧
    (∀ p it, its !! p = Some it → ∃ it', contents q' !! p = Some it' ∧
       priority it' = (if (start <=? p) && (p <? end_) then prio else priority it) ∧
       (priority it' = priority it → it' = it)) ∧
    (random q = false → ord q' = ord q).
Proof.
  intros Hr H1 H2 H3. destruct (queue_SetPriorityRange_ok q its start end_ prio after Hr H1 H2 H3)
    as (m & q' & Hq & Hcfg & Hr' & Ho).
  exists m, q'. rewrite (contents_repr _ _ Hr'). split_and!; try done.
  - apply list_eq. intros p. rewrite !list_lookup_fmap. unfold priority_spec.
    rewrite list_lookup_imap. destruct (its !! p); simpl; [|done]. by case_match.
  - intros p it Hp. unfold priority_spec. rewrite list_lookup_imap, Hp. simpl. eexists. split; [done|].
    destruct ((start <=? p) && (p <? end_)); simpl; [|done].
    destruct (priority it =? prio)%Z eqn:E; simpl; [split; [lia|done]|]. split; [done|]. lia.
Qed.

(** The version counter never leaves [1, 2^31 - 1): [IncrementVersion] adds one, and
    at the limit restarts at 1 with every item marked as older than any version. *)
Theorem IncrementVersion_correct q its : repr q its →
  ∃ q', IncrementVersion q = Some q' ∧ repr q' (contents q') ∧
    (1 ≤ version q' < 2147483647)%Z ∧
    id <$> contents q' = id <$> its ∧
    (version q' = version q + 1 ∧ contents q' = its ∨
     version q = 2147483646 ∧ version q' = 1 ∧ Forall (λ it, item_version it = 0) (contents q'))%Z.
Proof.
  intros Hr. destruct (IncrementVersion_ok q its Hr) as (q' & its' & Hq & Hr' & _ & _ & _ & Hv).
  exists q'. rewrite (contents_repr _ _ Hr'). pose proof (r_version _ _ Hr') as Hver.
  unfold version_max in *. split_and!; try done; try lia.
  - destruct Hv as [[_ ->]|(_ & _ & ->)]; [done|]. by rewrite <-list_fmap_compose.
  - destruct Hv as [[H1 H2]|(H1 & H2 & ->)]; [by left|]. right. split_and!; [lia|lia|].
    rewrite Forall_fmap. by apply Forall_true.
Qed.

(** [ShuffleRange] permutes the songs of the range among themselves; nothing outside
    moves and the play order array is untouched. *)
Theorem ShuffleRange_correct q its start end_ : repr q its → start ≤ end_ ≤ length q →
  ∃ q', ShuffleRange start end_ q = Some q' ∧ repr q' (contents q') ∧ order q' = order q ∧
    id <$> contents q' ≡ₚ id <$> its ∧
    (∀ p, ¬ (start ≤ p < end_) → contents q' !! p = its !! p).
Proof.
  intros Hr Hse. destruct (ShuffleRange_ok q its start end_ Hr Hse) as (q' & its' & Hq & Hr' & _ & Ho & [Hs _] & Hout).
  exists q'. rewrite (contents_repr _ _ Hr'). by split_and!.
Qed.

(** ** Playing through the queue *)

(** The order numbers visited when playback goes on from [o]. *)
Fixpoint walk (fuel : nat) q (o : nat) : list nat :=
  match fuel with
  | O => []
  | S fuel => o :: match GetNextOrder q o with
                   | Some (Zneg _) | None => []
                   | Some n => walk fuel q (Z.to_nat n)
                   end
  end.

Lemma walk_plain q : repeat q = false → ∀ fuel o, o < length q → length q - o ≤ fuel →
  walk fuel q o = seq o (length q - o).
Proof.
  intros Hrep fuel. induction fuel as [|fuel IH]; intros o Ho Hf; [lia|]. cbn [walk].
  unfold GetNextOrder. rewrite check_bind by lia. rewrite Hrep, andb_false_r. cbn [andb].
  replace (length q - o) with (S (length q - S o)) by lia. cbn [seq]. f_equal.
  destruct (o + 1 <? length q) eqn:E.
  - destruct (Z.of_nat (o + 1)) eqn:Ez; try lia; rewrite <-Ez, Nat2Z.id; replace (o + 1) with (S o) by lia;
      apply IH; lia.
  - by replace (length q - S o) with 0 by lia.
Qed.

(** C36: without repeat, following [GetNextOrder] from the first order number visits every
    song of the queue exactly once and then stops. *)
Theorem playthrough_visits_all q its : repr q its → repeat q = false → 0 < length q →
  omap (λ o, ord q !! o ≫= λ p, id <$> its !! p) (walk (length q) q 0) ≡ₚ id <$> its ∧
  GetNextOrder q (length q - 1) = Some (-1)%Z.
Proof.
  intros Hr Hrep Hl. split.
  - rewrite walk_plain by (done || lia). rewrite Nat.sub_0_r.
    assert (Heq : omap (λ o, ord q !! o ≫= λ p, id <$> its !! p) (seq 0 (length q)) = played q its).
    { unfold played. rewrite <-(repr_ord_len _ _ Hr). generalize (ord q). intros l.
      induction l as [|p l IH] using rev_ind; [done|]. rewrite length_app, Nat.add_1_r, seq_S.
      rewrite !omap_app. f_equal.
      - rewrite <-IH. apply list_omap_ext. apply Forall2_same_length_lookup. split; [done|].
        intros i x y Hx Hy. assert (x = y) as -> by congruence.
        apply lookup_seq in Hx as [-> Hi]. simpl. by rewrite lookup_app_l.
      - cbn. by rewrite list_lookup_middle. }
    rewrite Heq. unfold played. rewrite (r_order _ _ Hr), <-(r_len _ _ Hr).
    clear Heq Hl Hrep Hr. induction its as [|it its IH] using rev_ind; [done|].
    rewrite length_app, Nat.add_1_r, seq_S, omap_app, fmap_app. f_equiv.
    + rewrite <-IH. apply reflexive_eq, list_omap_ext. apply Forall2_same_length_lookup. split; [done|].
      intros i x y Hx Hy. assert (x = y) as -> by congruence.
      apply lookup_seq in Hx as [-> Hi]. simpl. by rewrite lookup_app_l.
    + cbn. by rewrite list_lookup_middle.
  - unfold GetNextOrder. rewrite check_bind by lia. rewrite Hrep, andb_false_r. cbn [andb].
    by replace (length q - 1 + 1 <? length q) with false by lia.
Qed.

End Props.
(** ** A concrete queue *)

(** Three songs, two of them with priority 5. *)
Definition demo_queue : Queue nat Z := build 4 [(10, 0%Z); (20, 5%Z); (30, 5%Z)].

Lemma demo_repr : repr demo_queue (contents demo_queue).
Proof. apply built_repr, build_built; [lia|simpl; lia|]. repeat constructor; simpl; lia. Qed.

Definition demo_random : Queue nat Z := set_random demo_queue true.

Lemma demo_random_repr : repr demo_random (contents demo_queue).
Proof. destruct demo_repr. by split. Qed.

Lemma MoveRange_correct_witness :
  ∃ q', MoveRange 0 2 1 demo_random = Some q' ∧ id <$> contents q' = [3; 1; 2] ∧
    played q' (contents q') = [1; 2; 3].
Proof.
  destruct (MoveRange_correct demo_random (contents demo_queue) 0 2 1) as (q' & H1 & _ & H2 & H3 & _).
  - exact demo_random_repr.
  - vm_compute. lia.
  - vm_compute. lia.
  - exists q'. split; [exact H1|]. split; [exact H2|exact (H3 eq_refl)].
Defined.

Lemma DeletePosition_correct_witness :
  ∃ it q', contents demo_queue !! 1 = Some it ∧ DeletePosition 1 demo_queue = Some q' ∧
    id <$> contents q' = [1; 3] ∧ ∃ z, IdToPosition q' (id it) = Some z ∧ (z < 0)%Z.
Proof.
  destruct (contents demo_queue !! 1) as [it|] eqn:E; [|discriminate].
  destruct (DeletePosition_correct demo_queue (contents demo_queue) 1 it) as (q' & H1 & _ & H2 & _ & H3 & _).
  - exact demo_repr.
  - exact E.
  - exists it, q'. split; [reflexivity|]. split; [exact H1|]. split; [exact H2|exact H3].
Defined.

Lemma Append_correct_witness :
  ∃ i q', Append 7 40 0 demo_queue = Some (i, q') ∧ IdToPosition q' i = Some 3%Z.
Proof.
  destruct (Append_correct demo_queue (contents demo_queue) 7 40 0) as (i & q' & H1 & _ & _ & H2 & _ & H3).
  - exact demo_repr.
  - vm_compute. lia.
  - apply (bool_decide_unpack _). vm_compute. exact I.
  - lia.
  - exists i, q'. split; [exact H1|]. apply (H3 3). rewrite H2. reflexivity.
Defined.

Lemma ShuffleOrderRangeWithPriority_correct_witness :
  ∃ q', ShuffleOrderRangeWithPriority 0 3 demo_random = Some q' ∧
    (opr q' (contents demo_queue) 2 ≤ opr q' (contents demo_queue) 0)%Z.
Proof.
  destruct (ShuffleOrderRangeWithPriority_correct demo_random (contents demo_queue) 0 3)
    as (q' & H1 & _ & _ & H2 & _).
  - exact demo_random_repr.
  - reflexivity.
  - vm_compute. lia.
  - exists q'. split; [exact H1|]. apply H2; lia.
Defined.

Lemma SetPriorityRange_correct_witness :
  ∃ m q', SetPriorityRange 0 1 9 (-1) demo_random = Some (m, q') ∧ id <$> contents q' = [1; 2; 3].
Proof.
  destruct (SetPriorityRange_correct demo_random (contents demo_queue) 0 1 9 (-1))
    as (m & q' & H1 & _ & H2 & _).
  - exact demo_random_repr.
  - vm_compute. lia.
  - lia.
  - vm_compute. split; [discriminate|reflexivity].
  - exists m, q'. split; [exact H1|exact H2].
Defined.

(** The same queue just before its version counter wraps. *)
Definition demo_old : Queue nat Z := set_version demo_queue 2147483646.

Lemma demo_old_repr : repr demo_old (contents demo_queue).
Proof.
  destruct demo_repr. split; try done.
  apply (bool_decide_unpack _). vm_compute. exact I.
Qed.

Lemma IncrementVersion_correct_witness :
  ∃ q', IncrementVersion demo_old = Some q' ∧ (1 ≤ version q' < 2147483647)%Z.
Proof.
  destruct (IncrementVersion_correct demo_old (contents demo_queue)) as (q' & H1 & _ & H2 & _).
  - exact demo_old_repr.
  - exists q'. split; [exact H1|exact H2].
Defined.

Lemma ShuffleRange_correct_witness :
  ∃ q', ShuffleRange 1 3 demo_queue = Some q' ∧ id <$> contents q' ≡ₚ [1; 2; 3].
Proof.
  destruct (ShuffleRange_correct demo_queue (contents demo_queue) 1 3) as (q' & H1 & _ & _ & H2 & _).
  - exact demo_repr.
  - vm_compute. lia.
  - exists q'. split; [exact H1|exact H2].
Defined.

Lemma playthrough_visits_all_witness :
  GetNextOrder demo_random (length demo_random - 1) = Some (-1)%Z.
Proof.
  apply (playthrough_visits_all demo_random (contents demo_queue)).
  - exact demo_random_repr.
  - reflexivity.
  - vm_compute. lia.
Defined.

End QueueProps.
