(* ===== verification/UTF8.v ===== *)
(** * UTF-8

    [util/UTF8.cxx]: the classification of bytes, the validator, the encoder and
    the conversion from ISO-Latin-1.  [lenient_utf8] is the grammar the two recognisers
    of the program are compared with, in byte ranges: ASCII bytes, and first bytes
    followed by the number of trailing bytes they announce (up to 5), overlong forms
    and surrogates included.  [utf8] is the same grammar in terms of the program's
    classifiers, which the proofs work with; [lenient_iff] links the two. *)

From Stdlib Require Import ZArith Lia ZifyBool.
From stdpp Require Import base numbers strings list.
From S2P Require Import Prelude.

Set Default Goal Selector "!".

Module UTF8.
#[local] Open Scope Z_scope.

Definition IsASCII (ch : Z) : bool := ch <? 0x80.

Definition IsLeading1 (ch : Z) : bool := Z.land ch 0xe0 =? 0xc0.
Definition MakeLeading1 (value : Z) : Z := Z.lor 0xc0 value.
Definition IsLeading2 (ch : Z) : bool := Z.land ch 0xf0 =? 0xe0.
Definition MakeLeading2 (value : Z) : Z := Z.lor 0xe0 value.
Definition IsLeading3 (ch : Z) : bool := Z.land ch 0xf8 =? 0xf0.
Definition MakeLeading3 (value : Z) : Z := Z.lor 0xf0 value.
Definition IsLeading4 (ch : Z) : bool := Z.land ch 0xfc =? 0xf8.
Definition MakeLeading4 (value : Z) : Z := Z.lor 0xf8 value.
Definition IsLeading5 (ch : Z) : bool := Z.land ch 0xfe =? 0xfc.
Definition MakeLeading5 (value : Z) : Z := Z.lor 0xfc value.

Definition IsContinuation (ch : Z) : bool := Z.land ch 0xc0 =? 0x80.
(** The argument is an [unsigned char]: it is truncated to 8 bits first. *)
Definition MakeContinuation (value : Z) : Z := Z.lor 0x80 (Z.land (value mod 256) 0x3f).

(** A NUL-terminated string is the list of its bytes; a read at the end yields the
    terminator, which is no continuation byte. *)
Fixpoint ValidateUTF8 (p : list Z) : bool :=
  match p with
  | [] => true
  | ch :: p1 =>
      if ch =? 0 then true
      else if IsASCII ch then ValidateUTF8 p1
      else if IsContinuation ch then false
      else if IsLeading1 ch then
        match p1 with
        | c1 :: p2 => IsContinuation c1 && ValidateUTF8 p2
        | _ => false
        end
      else if IsLeading2 ch then
        match p1 with
        | c1 :: c2 :: p3 => IsContinuation c1 && IsContinuation c2 && ValidateUTF8 p3
        | _ => false
        end
      else if IsLeading3 ch then
        match p1 with
        | c1 :: c2 :: c3 :: p4 =>
            IsContinuation c1 && IsContinuation c2 && IsContinuation c3 && ValidateUTF8 p4
        | _ => false
        end
      else if IsLeading4 ch then
        match p1 with
        | c1 :: c2 :: c3 :: c4 :: p5 =>
            IsContinuation c1 && IsContinuation c2 && IsContinuation c3 && IsContinuation c4
            && ValidateUTF8 p5
        | _ => false
        end
      else if IsLeading5 ch then
        match p1 with
        | c1 :: c2 :: c3 :: c4 :: c5 :: p6 =>
            IsContinuation c1 && IsContinuation c2 && IsContinuation c3 && IsContinuation c4
            && IsContinuation c5 && ValidateUTF8 p6
        | _ => false
        end
      else false
  end.

(** [size_t SequenceLengthUTF8(char ch)] *)
Definition SequenceLengthUTF8_char (ch : Z) : nat :=
  if IsASCII ch then 1
  else if IsLeading1 ch then 2
  else if IsLeading2 ch then 3
  else if IsLeading3 ch then 4
  else if IsLeading4 ch then 5
  else if IsLeading5 ch then 6
  else 0.

(** [CheckSequenceUTF8<L>]: [None] is a read past the end of the buffer. *)
Fixpoint CheckSequenceUTF8 (L : nat) (p : list Z) : option bool :=
  match L with
  | O => Some true
  | S L =>
      match p with
      | [] => None
      | c :: p => if IsContinuation c then CheckSequenceUTF8 L p else Some false
      end
  end.

Definition InnerSequenceLengthUTF8 (L : nat) (p : list Z) : option nat :=
  b ← CheckSequenceUTF8 L p; Some (if (b : bool) then (L + 1)%nat else 0%nat).

(** [size_t SequenceLengthUTF8(const char *p)] *)
Definition SequenceLengthUTF8 (p : list Z) : option nat :=
  match p with
  | [] => None
  | ch :: p =>
      if IsASCII ch then Some 1%nat
      else if IsLeading1 ch then InnerSequenceLengthUTF8 1 p
      else if IsLeading2 ch then InnerSequenceLengthUTF8 2 p
      else if IsLeading3 ch then InnerSequenceLengthUTF8 3 p
      else if IsLeading4 ch then InnerSequenceLengthUTF8 4 p
      else if IsLeading5 ch then InnerSequenceLengthUTF8 5 p
      else Some 0%nat
  end.

(** [UnicodeToUTF8]: the bytes appended to the output for the code [ch]. *)
Definition UnicodeToUTF8 (ch : Z) : list Z :=
  if ch <? 0x80 then [ch]
  else if ch <? 0x800 then
    [MakeLeading1 (Z.shiftr ch 6); MakeContinuation ch]
  else if ch <? 0x10000 then
    [MakeLeading2 (Z.shiftr ch 12); MakeContinuation (Z.shiftr ch 6); MakeContinuation ch]
  else if ch <? 0x200000 then
    [MakeLeading3 (Z.shiftr ch 18); MakeContinuation (Z.shiftr ch 12);
     MakeContinuation (Z.shiftr ch 6); MakeContinuation ch]
  else if ch <? 0x4000000 then
    [MakeLeading4 (Z.shiftr ch 24); MakeContinuation (Z.shiftr ch 18);
     MakeContinuation (Z.shiftr ch 12); MakeContinuation (Z.shiftr ch 6); MakeContinuation ch]
  else if ch <? 0x80000000 then
    [MakeLeading5 (Z.shiftr ch 30); MakeContinuation (Z.shiftr ch 24);
     MakeContinuation (Z.shiftr ch 18); MakeContinuation (Z.shiftr ch 12);
     MakeContinuation (Z.shiftr ch 6); MakeContinuation ch]
  else [].

(** [FindNonASCIIOrZero]: the number of leading ASCII bytes. *)
Fixpoint FindNonASCIIOrZero (p : list Z) : nat :=
  match p with
  | [] => 0
  | ch :: p => if negb (ch =? 0) && IsASCII ch then S (FindNonASCIIOrZero p) else 0
  end.

(** [Latin1ToUTF8]: the result pointer. *)
Inductive latin1_result :=
| Same                      (* returns [src] *)
| TooSmall                  (* returns [nullptr] *)
| Converted (out : list Z). (* returns [buffer], which holds [out] and a NUL *)

(** The conversion loop; [q] is the output so far.  [None] is a write outside the
    buffer of [buffer_size] bytes. *)
Fixpoint Latin1_loop (p : list Z) (q : list Z) (buffer_size : nat) : option latin1_result :=
  match p with
  | [] => assert! (length q <? buffer_size)%nat ;; Some (Converted q)
  | ch :: p =>
      if ch =? 0 then assert! (length q <? buffer_size)%nat ;; Some (Converted q)
      else if IsASCII ch then
        assert! (length q <? buffer_size)%nat ;;
        let q := q ++ [ch] in
        if (buffer_size <=? length q)%nat then Some TooSmall
        else Latin1_loop p q buffer_size
      else if (buffer_size <=? length q + 2)%nat then Some TooSmall
      else
        assert! (length q + 1 <? buffer_size)%nat ;;
        Latin1_loop p (q ++ [MakeLeading1 (Z.shiftr ch 6); MakeContinuation ch]) buffer_size
  end.

Definition Latin1ToUTF8 (src : list Z) (buffer_size : nat) : option latin1_result :=
  let n := FindNonASCIIOrZero src in
  match src !! n with
  | None => Some Same
  | Some ch =>
      if ch =? 0 then Some Same
      else if (buffer_size <=? n)%nat then Some TooSmall
      else Latin1_loop (drop n src) (take n src) buffer_size
  end.

Fixpoint LengthUTF8 (p : list Z) : nat :=
  match p with
  | [] => 0
  | ch :: p =>
      if ch =? 0 then 0
      else if negb (IsContinuation ch) then S (LengthUTF8 p) else LengthUTF8 p
  end.

(** ** The grammar *)

(** One character: a leading byte and the continuation bytes it announces. *)
Definition utf8_char (s : list Z) : Prop :=
  ∃ ch cs, s = ch :: cs ∧ SequenceLengthUTF8_char ch = length s ∧
    Forall (λ c, IsContinuation c = true) cs.

Inductive utf8 : list Z → Prop :=
| utf8_nil : utf8 []
| utf8_cons s l : utf8_char s → utf8 l → utf8 (s ++ l).

Lemma utf8_app l k : utf8 l → utf8 k → utf8 (l ++ k).
Proof.
  induction 1 as [|s l Hs Hl IH]; intros Hk; [done|].
  rewrite <-(assoc_L (++)). constructor; auto.
Qed.

Lemma utf8_char_ascii ch : IsASCII ch = true → utf8_char [ch].
Proof.
  intros H. exists ch, []. unfold SequenceLengthUTF8_char. by rewrite H.
Qed.

Lemma utf8_ascii ch l : IsASCII ch = true → utf8 l → utf8 (ch :: l).
Proof. intros H Hl. by apply (utf8_cons [ch]); [apply utf8_char_ascii|]. Qed.

(** The leading byte determines the length of the first character. *)
Lemma utf8_inv ch l : utf8 (ch :: l) →
  ∃ cs l', l = cs ++ l' ∧ SequenceLengthUTF8_char ch = S (length cs) ∧
    Forall (λ c, IsContinuation c = true) cs ∧ utf8 l'.
Proof.
  inversion 1 as [|s l' Hs Hl Heq]. destruct Hs as (c & cs & -> & Hlen & Hc).
  simplify_eq/=. by exists cs, l'.
Qed.

(** ** Recognisers *)

(** The length class of a byte. *)
Lemma char_class ch :
  SequenceLengthUTF8_char ch = 1%nat ∧ IsASCII ch = true ∨
  IsASCII ch = false ∧
  (SequenceLengthUTF8_char ch = 2%nat ∧ IsLeading1 ch = true ∨
   IsLeading1 ch = false ∧
   (SequenceLengthUTF8_char ch = 3%nat ∧ IsLeading2 ch = true ∨
    IsLeading2 ch = false ∧
    (SequenceLengthUTF8_char ch = 4%nat ∧ IsLeading3 ch = true ∨
     IsLeading3 ch = false ∧
     (SequenceLengthUTF8_char ch = 5%nat ∧ IsLeading4 ch = true ∨
      IsLeading4 ch = false ∧
      (SequenceLengthUTF8_char ch = 6%nat ∧ IsLeading5 ch = true ∨
       IsLeading5 ch = false ∧ SequenceLengthUTF8_char ch = 0%nat))))).
Proof. unfold SequenceLengthUTF8_char. repeat case_match; tauto. Qed.

(** A continuation byte starts no character. *)
Lemma continuation_not_leading ch : is_byte ch → IsContinuation ch = true →
  SequenceLengthUTF8_char ch = 0%nat.
Proof.
  intros Hb Hc.
  by_bytes ch Hb (λ b, negb (IsContinuation b) || (SequenceLengthUTF8_char b =? 0)%nat).
  rewrite Hc in H. simpl in H. by apply Nat.eqb_eq.
Qed.

Lemma CheckSequence_ok L p : (L ≤ length p)%nat →
  CheckSequenceUTF8 L p = Some (forallb IsContinuation (take L p)).
Proof.
  revert p. induction L as [|L IH]; intros p Hp; [done|].
  destruct p as [|c p]; [simpl in Hp; lia|]. simpl in *. case_match; simpl; [|done].
  apply IH. lia.
Qed.

(** [SequenceLengthUTF8] on a buffer that holds the announced bytes: the length of
    the first character, or 0 if it is malformed. *)
Lemma SequenceLengthUTF8_ok ch p :
  (SequenceLengthUTF8_char ch ≤ S (length p))%nat →
  SequenceLengthUTF8 (ch :: p) =
    Some (if forallb IsContinuation (take (SequenceLengthUTF8_char ch - 1) p)
          then SequenceLengthUTF8_char ch else 0%nat).
Proof.
  intros Hlen. unfold SequenceLengthUTF8, InnerSequenceLengthUTF8.
  destruct (char_class ch) as [[Hl ->]|(-> & [[Hl ->]|(-> & [[Hl ->]|(-> & [[Hl ->]|(-> & [[Hl ->]|(-> &
    [[Hl ->]|[-> Hl]])])])])])]; rewrite Hl in *;
    rewrite ?CheckSequence_ok by lia; reflexivity.
Qed.

Lemma utf8_seq_intro ch cs l n :
  SequenceLengthUTF8_char ch = S n → length cs = n →
  forallb IsContinuation cs = true → utf8 l → utf8 (ch :: cs ++ l).
Proof.
  intros Hch Hn Hcs Hl. apply (utf8_cons (ch :: cs)); [|done].
  exists ch, cs. split_and!; [done|simpl; lia|]. apply Forall_forall. intros c Hc.
  rewrite forallb_forall in Hcs. by apply Hcs, list_elem_of_In.
Qed.

Lemma ValidateUTF8_sound p : Forall (λ b, b ≠ 0) p → ValidateUTF8 p = true → utf8 p.
Proof.
  remember (length p) as n eqn:Hn. revert p Hn.
  induction (lt_wf n) as [n _ IH]. intros p -> Hnz Hv.
  destruct p as [|ch p]; [constructor|]. simpl in Hv.
  inversion Hnz as [|?? Hch Hp]; subst.
  replace (ch =? 0) with false in Hv by lia.
  destruct (char_class ch) as [[Hl Hc]|(E0 & [[Hl Hc]|(E1 & [[Hl Hc]|(E2 & [[Hl Hc]|(E3 & [[Hl Hc]|(E4 &
    [[Hl Hc]|[E5 Hl]])])])])])]; rewrite ?E0, ?E1, ?E2, ?E3, ?E4, ?E5, ?Hc in Hv;
    try match type of Hv with
        | (if IsContinuation ch then _ else _) = _ => destruct (IsContinuation ch)
        end; try done.
  - apply utf8_ascii; [done|]. by eapply IH; [..|exact Hv]; try done; simpl; lia.
  - destruct p as [|c1 p]; [done|]. apply andb_true_iff in Hv as [H1 Hv].
    eapply (utf8_seq_intro ch [c1] p 1); simpl; rewrite ?H1; try done.
    eapply IH; [..|exact Hv]; try done; [simpl; lia|by decompose_Forall].
  - destruct p as [|c1 [|c2 p]]; try done. rewrite !andb_true_iff in Hv.
    destruct Hv as [[H1 H2] Hv].
    eapply (utf8_seq_intro ch [c1; c2] p 2); simpl; rewrite ?H1, ?H2; try done.
    eapply IH; [..|exact Hv]; try done; [simpl; lia|by decompose_Forall].
  - destruct p as [|c1 [|c2 [|c3 p]]]; try done. rewrite !andb_true_iff in Hv.
    destruct Hv as [[[H1 H2] H3] Hv].
    eapply (utf8_seq_intro ch [c1; c2; c3] p 3); simpl; rewrite ?H1, ?H2, ?H3; try done.
    eapply IH; [..|exact Hv]; try done; [simpl; lia|by decompose_Forall].
  - destruct p as [|c1 [|c2 [|c3 [|c4 p]]]]; try done. rewrite !andb_true_iff in Hv.
    destruct Hv as [[[[H1 H2] H3] H4] Hv].
    eapply (utf8_seq_intro ch [c1; c2; c3; c4] p 4); simpl; rewrite ?H1, ?H2, ?H3, ?H4; try done.
    eapply IH; [..|exact Hv]; try done; [simpl; lia|by decompose_Forall].
  - destruct p as [|c1 [|c2 [|c3 [|c4 [|c5 p]]]]]; try done. rewrite !andb_true_iff in Hv.
    destruct Hv as [[[[[H1 H2] H3] H4] H5] Hv].
    eapply (utf8_seq_intro ch [c1; c2; c3; c4; c5] p 5);
      simpl; rewrite ?H1, ?H2, ?H3, ?H4, ?H5; try done.
    eapply IH; [..|exact Hv]; try done; [simpl; lia|by decompose_Forall].
Qed.

Lemma ValidateUTF8_complete p : Forall is_byte p → Forall (λ b, b ≠ 0) p →
  utf8 p → ValidateUTF8 p = true.
Proof.
  intros Hb Hnz H. induction H as [|s l (ch & cs & -> & Hlen & Hcs) Hl IH]; [done|].
  apply Forall_app in Hb as [Hb Hbl]. apply Forall_app in Hnz as [Hnz Hnzl].
  specialize (IH Hbl Hnzl). inversion Hb as [|?? Hbch _]; subst.
  inversion Hnz as [|?? Hnch _]; subst. simpl.
  replace (ch =? 0) with false by lia.
  assert (Hnc : IsContinuation ch = false).
  { destruct (IsContinuation ch) eqn:E; [|done].
    rewrite (continuation_not_leading ch Hbch E) in Hlen. done. }
  rewrite Hnc. simpl in Hlen.
  destruct (char_class ch) as [[Hl' Hc]|(E0 & [[Hl' Hc]|(E1 & [[Hl' Hc]|(E2 & [[Hl' Hc]|(E3 & [[Hl' Hc]|(E4 &
    [[Hl' Hc]|[E5 Hl']])])])])])]; rewrite ?E0, ?E1, ?E2, ?E3, ?E4, ?E5, ?Hc;
    rewrite Hl' in Hlen; try done;
    do 6 try (destruct cs as [|? cs]; simpl in *; try done); decompose_Forall;
    repeat match goal with H : IsContinuation _ = true |- _ => rewrite H; clear H end; done.
Qed.

(** ** Encoders *)

Lemma MakeContinuation_ok v : IsContinuation (MakeContinuation v) = true ∧
  is_byte (MakeContinuation v).
Proof.
  unfold MakeContinuation. assert (Hb : is_byte (v mod 256)).
  { unfold is_byte. apply Z.mod_pos_bound. lia. }
  by_bytes (v mod 256) Hb (λ b, IsContinuation (Z.lor 0x80 (Z.land b 0x3f)) &&
    (0 <=? Z.lor 0x80 (Z.land b 0x3f)) && (Z.lor 0x80 (Z.land b 0x3f) <? 256)).
  rewrite !andb_true_iff in H. destruct H as [[H1 H2] H3].
  split; [done|]. unfold is_byte. lia.
Qed.

(** A leading byte built from a payload that fits announces its length. *)
Lemma MakeLeading_ok v :
  (0 ≤ v < 32 → SequenceLengthUTF8_char (MakeLeading1 v) = 2%nat ∧ is_byte (MakeLeading1 v)) ∧
  (0 ≤ v < 16 → SequenceLengthUTF8_char (MakeLeading2 v) = 3%nat ∧ is_byte (MakeLeading2 v)) ∧
  (0 ≤ v < 8 → SequenceLengthUTF8_char (MakeLeading3 v) = 4%nat ∧ is_byte (MakeLeading3 v)) ∧
  (0 ≤ v < 4 → SequenceLengthUTF8_char (MakeLeading4 v) = 5%nat ∧ is_byte (MakeLeading4 v)) ∧
  (0 ≤ v < 2 → SequenceLengthUTF8_char (MakeLeading5 v) = 6%nat ∧ is_byte (MakeLeading5 v)).
Proof.
  pose (P := λ v,
    (negb (v <? 32) || ((SequenceLengthUTF8_char (MakeLeading1 v) =? 2)%nat && (MakeLeading1 v <? 256))) &&
    (negb (v <? 16) || ((SequenceLengthUTF8_char (MakeLeading2 v) =? 3)%nat && (MakeLeading2 v <? 256))) &&
    (negb (v <? 8) || ((SequenceLengthUTF8_char (MakeLeading3 v) =? 4)%nat && (MakeLeading3 v <? 256))) &&
    (negb (v <? 4) || ((SequenceLengthUTF8_char (MakeLeading4 v) =? 5)%nat && (MakeLeading4 v <? 256))) &&
    (negb (v <? 2) || ((SequenceLengthUTF8_char (MakeLeading5 v) =? 6)%nat && (MakeLeading5 v <? 256)))).
  assert (HP : 0 ≤ v < 256 → P v = true) by (apply (byte_forall P eq_refl)).
  assert (Hnn : ∀ c, 0 ≤ c → 0 ≤ v → 0 ≤ Z.lor c v) by (intros; by apply Z.lor_nonneg).
  unfold P in HP. unfold is_byte, MakeLeading1, MakeLeading2, MakeLeading3, MakeLeading4, MakeLeading5 in *.
  rewrite !andb_true_iff, !orb_true_iff, !andb_true_iff in HP.
  split_and!; intros Hv; specialize (HP ltac:(lia)); destruct_and! HP;
    (split; [|split; [apply Hnn; lia|]]); lia.
Qed.

(** The encoder writes one well-formed character for every code below 2^31. *)
Lemma UnicodeToUTF8_char ch : 0 ≤ ch < 0x80000000 →
  utf8_char (UnicodeToUTF8 ch) ∧ Forall is_byte (UnicodeToUTF8 ch).
Proof.
  intros Hch. unfold UnicodeToUTF8.
  assert (Hs : ∀ k n, 0 ≤ k → 0 ≤ n → ch < 2 ^ (k + n) → 0 ≤ Z.shiftr ch k < 2 ^ n).
  { intros k n Hk Hn Hlt. rewrite Z.shiftr_div_pow2 by done.
    rewrite Z.pow_add_r in Hlt by lia.
    pose proof (Z.pow_pos_nonneg 2 k ltac:(lia) Hk). split; [apply Z.div_pos; lia|].
    apply Z.div_lt_upper_bound; lia. }
  destruct (MakeContinuation_ok ch) as [C0 B0].
  destruct (MakeContinuation_ok (Z.shiftr ch 6)) as [C6 B6].
  destruct (MakeContinuation_ok (Z.shiftr ch 12)) as [C12 B12].
  destruct (MakeContinuation_ok (Z.shiftr ch 18)) as [C18 B18].
  destruct (MakeContinuation_ok (Z.shiftr ch 24)) as [C24 B24].
  assert (Hmk : ∀ c cs, SequenceLengthUTF8_char c = S (length cs) ∧ is_byte c →
     Forall (λ c, IsContinuation c = true ∧ is_byte c) cs →
     utf8_char (c :: cs) ∧ Forall is_byte (c :: cs)).
  { intros c cs [Hlen Hb] Hcs. rewrite Forall_and in Hcs. destruct Hcs as [Hc Hcb]. split.
    - by exists c, cs.
    - by constructor. }
  repeat case_match.
  - split; [apply utf8_char_ascii; unfold IsASCII; lia|].
    repeat constructor; unfold is_byte; lia.
  - apply Hmk; [|repeat first [apply Forall_nil_2 | apply Forall_cons_2; [by split|]]].
    apply (MakeLeading_ok (Z.shiftr ch 6)). apply (Hs 6 5); lia.
  - apply Hmk; [|repeat first [apply Forall_nil_2 | apply Forall_cons_2; [by split|]]].
    apply (MakeLeading_ok (Z.shiftr ch 12)). apply (Hs 12 4); lia.
  - apply Hmk; [|repeat first [apply Forall_nil_2 | apply Forall_cons_2; [by split|]]].
    apply (MakeLeading_ok (Z.shiftr ch 18)). apply (Hs 18 3); lia.
  - apply Hmk; [|repeat first [apply Forall_nil_2 | apply Forall_cons_2; [by split|]]].
    apply (MakeLeading_ok (Z.shiftr ch 24)). apply (Hs 24 2); lia.
  - apply Hmk; [|repeat first [apply Forall_nil_2 | apply Forall_cons_2; [by split|]]].
    apply (MakeLeading_ok (Z.shiftr ch 30)). apply (Hs 30 1); lia.
  - lia.
Qed.

(** ** Latin-1 *)

(** The reference conversion: the encoder applied to every byte. *)
Definition latin1_spec (src : list Z) : list Z := src ≫= UnicodeToUTF8.

Lemma latin1_char ch : is_byte ch → ch ≠ 0 → UnicodeToUTF8 ch =
  if IsASCII ch then [ch] else [MakeLeading1 (Z.shiftr ch 6); MakeContinuation ch].
Proof.
  intros Hb Hz. unfold UnicodeToUTF8, IsASCII, is_byte in *.
  destruct (ch <? 0x80) eqn:E; [done|]. by replace (ch <? 0x800) with true by lia.
Qed.

Lemma Latin1_loop_ok p q size :
  Forall is_byte p → Forall (λ b, b ≠ 0) p → (length q < size)%nat →
  Latin1_loop p q size = Some (if (length (q ++ latin1_spec p) <? size)%nat
                               then Converted (q ++ latin1_spec p) else TooSmall).
Proof.
  intros Hb Hz. revert q. induction p as [|ch p IH]; intros q Hq; cbn [Latin1_loop].
  - rewrite check_bind by lia. change (latin1_spec []) with (@nil Z). rewrite app_nil_r. by replace (length q <? size)%nat with true by lia.
  - inversion Hb as [|?? Hbc Hbp]; inversion Hz as [|?? Hzc Hzp]; subst.
    replace (ch =? 0) with false by lia.
    unfold latin1_spec in *. rewrite bind_cons, latin1_char by done.
    rewrite (assoc_L (++)).
    destruct (IsASCII ch).
    + rewrite check_bind by lia. case_match eqn:E.
      * rewrite length_app. case_match; [lia|done].
      * apply IH; [done|done|]. lia.
    + case_match eqn:E.
      * rewrite !length_app. simpl. case_match; [lia|done].
      * rewrite check_bind by lia. apply IH; [done|done|]. rewrite length_app. simpl. lia.
Qed.

Lemma FindNonASCII_spec src : Forall (λ b, b ≠ 0) src →
  (FindNonASCIIOrZero src ≤ length src)%nat ∧
  Forall (λ b, IsASCII b = true) (take (FindNonASCIIOrZero src) src).
Proof.
  induction 1 as [|ch src Hz Hs [IH1 IH2]]; simpl; [by split|].
  replace (ch =? 0) with false by lia. simpl. destruct (IsASCII ch) eqn:E; simpl.
  - split; [lia|]. by constructor.
  - split; [lia|constructor].
Qed.

Lemma FindNonASCII_stop src ch : Forall (λ b, b ≠ 0) src →
  src !! FindNonASCIIOrZero src = Some ch → IsASCII ch = false.
Proof.
  induction 1 as [|c src Hz Hs IH]; simpl; [done|].
  replace (c =? 0) with false by lia. simpl. destruct (IsASCII c) eqn:E; simpl; [done|].
  by intros [= <-].
Qed.

Lemma latin1_spec_ascii l : Forall is_byte l → Forall (λ b, b ≠ 0) l →
  Forall (λ b, IsASCII b = true) l → latin1_spec l = l.
Proof.
  intros Hb Hz Ha. unfold latin1_spec. induction l as [|ch l IH]; [done|].
  inversion_clear Hb; inversion_clear Hz; inversion_clear Ha as [|?? Hch Htl].
  rewrite bind_cons, latin1_char, Hch by done. simpl. f_equal. by apply IH.
Qed.

Lemma latin1_spec_utf8 l : Forall is_byte l → utf8 (latin1_spec l).
Proof.
  unfold latin1_spec. induction 1 as [|ch l Hb Hl IH]; [constructor|].
  rewrite bind_cons. constructor; [|done].
  apply UnicodeToUTF8_char. unfold is_byte in Hb. lia.
Qed.

(** ** The grammar in numbers *)

Definition trailing (c : Z) : Prop := 0x80 ≤ c ≤ 0xbf.

(** One character: a byte below 0x80, or a first byte of the ranges C0-DF, E0-EF,
    F0-F7, F8-FB, FC-FD followed by one to five bytes of the range 80-BF.  This is
    the form of RFC 2279 without its minimality rule: overlong forms, surrogates
    and the forms of five and six bytes are in it. *)
Inductive lenient_char : list Z → Prop :=
| lenient_1 b : 0 ≤ b ≤ 0x7f → lenient_char [b]
| lenient_2 b c1 : 0xc0 ≤ b ≤ 0xdf → trailing c1 → lenient_char [b; c1]
| lenient_3 b c1 c2 : 0xe0 ≤ b ≤ 0xef → trailing c1 → trailing c2 →
    lenient_char [b; c1; c2]
| lenient_4 b c1 c2 c3 : 0xf0 ≤ b ≤ 0xf7 → trailing c1 → trailing c2 → trailing c3 →
    lenient_char [b; c1; c2; c3]
| lenient_5 b c1 c2 c3 c4 : 0xf8 ≤ b ≤ 0xfb → trailing c1 → trailing c2 → trailing c3 →
    trailing c4 → lenient_char [b; c1; c2; c3; c4]
| lenient_6 b c1 c2 c3 c4 c5 : 0xfc ≤ b ≤ 0xfd → trailing c1 → trailing c2 →
    trailing c3 → trailing c4 → trailing c5 → lenient_char [b; c1; c2; c3; c4; c5].

Inductive lenient_utf8 : list Z → Prop :=
| lenient_nil : lenient_utf8 []
| lenient_app s l : lenient_char s → lenient_utf8 l → lenient_utf8 (s ++ l).

Lemma trailing_iff c : is_byte c → IsContinuation c = true ↔ trailing c.
Proof.
  intros Hb. unfold trailing.
  by_bytes c Hb (λ b, Bool.eqb (IsContinuation b) ((0x80 <=? b) && (b <=? 0xbf))).
  apply eqb_prop in H. rewrite H. lia.
Qed.

Definition length_in_ranges (b : Z) : nat :=
  if b <=? 0x7f then 1 else if b <=? 0xbf then 0 else if b <=? 0xdf then 2
  else if b <=? 0xef then 3 else if b <=? 0xf7 then 4 else if b <=? 0xfb then 5
  else if b <=? 0xfd then 6 else 0.

Lemma length_in_ranges_ok b : is_byte b → SequenceLengthUTF8_char b = length_in_ranges b.
Proof.
  intros Hb. by_bytes b Hb (λ b, SequenceLengthUTF8_char b =? length_in_ranges b)%nat.
  by apply Nat.eqb_eq.
Qed.

Lemma lenient_char_iff s : Forall is_byte s → utf8_char s ↔ lenient_char s.
Proof.
  intros Hb. split.
  - intros (b & cs & -> & Hl & Hcs). inversion_clear Hb as [|?? Hbb Hbcs].
    rewrite length_in_ranges_ok in Hl by done.
    assert (Ht : Forall trailing cs).
    { rewrite Forall_forall in Hcs, Hbcs |- *. intros c Hc. apply trailing_iff; auto. }
    unfold length_in_ranges, is_byte in *.
    destruct cs as [|c1 [|c2 [|c3 [|c4 [|c5 [|]]]]]]; simpl in Hl; repeat case_match; try lia;
      decompose_Forall; constructor; done || lia.
  - intros Hs. assert (∃ b cs, s = b :: cs ∧ length_in_ranges b = length s ∧ Forall trailing cs)
      as (b & cs & -> & Hl & Ht).
    { unfold length_in_ranges. inversion Hs; subst; (do 2 eexists; split; [reflexivity|split;
        [simpl; repeat case_match; lia|by repeat apply Forall_cons_2; try apply Forall_nil_2]]). }
    inversion_clear Hb as [|?? Hbb Hbcs]. exists b, cs.
    split; [done|]. rewrite length_in_ranges_ok by done. split; [done|].
    rewrite Forall_forall in Ht, Hbcs |- *. intros c Hc. apply trailing_iff; auto.
Qed.

Lemma lenient_iff p : Forall is_byte p → utf8 p ↔ lenient_utf8 p.
Proof.
  intros Hb. split; intros H; revert Hb; induction H as [|s l Hs Hl IH];
    intros Hb; [constructor| |constructor|]; apply Forall_app in Hb as [Hbs Hbl];
    constructor; [by apply lenient_char_iff|auto|by apply lenient_char_iff|auto].
Qed.

(** ** Properties *)

(** C37: [ValidateUTF8] decides the lenient grammar on every byte string without a
    NUL: every byte below 0x80 is a character, and a first byte of the ranges
    C0-DF, E0-EF, F0-F7, F8-FB, FC-FD is one together with one to five bytes of the
    range 80-BF.  Overlong forms and surrogates are accepted. *)
Theorem ValidateUTF8_correct p :
  Forall is_byte p → Forall (λ b, b ≠ 0) p → ValidateUTF8 p = true ↔ lenient_utf8 p.
Proof.
  intros Hb Hz. rewrite <-lenient_iff by done.
  split; [by apply ValidateUTF8_sound|by apply ValidateUTF8_complete].
Qed.

Lemma ValidateUTF8_correct_witness :
  lenient_utf8 [0xc3; 0xa4; 0x61] ∧ ¬ lenient_utf8 [0xc3; 0x61].
Proof.
  split.
  - apply (ValidateUTF8_correct [0xc3; 0xa4; 0x61]);
      [repeat constructor; unfold is_byte; lia|repeat constructor; lia|reflexivity].
  - intros H. apply (ValidateUTF8_correct [0xc3; 0x61]) in H; [discriminate H| |];
      repeat constructor; unfold is_byte; lia.
Defined.

(** Reference decoder of one character: the payload bits of the leading byte,
    then six bits of every continuation byte. *)
Definition decode_char (s : list Z) : Z :=
  match s with
  | [] => 0
  | ch :: cs =>
      let k := length cs in
      let lead := if (k =? 0)%nat then ch else ch mod 2 ^ (6 - Z.of_nat k) in
      foldl (λ acc c, acc * 64 + c mod 64) lead cs
  end.

Lemma MakeContinuation_bits v : MakeContinuation v mod 64 = v mod 64.
Proof.
  unfold MakeContinuation. change 64 with (2 ^ 6). rewrite <-!Z.land_ones by lia.
  change 0x3f with (Z.ones 6).
  replace (v mod 256) with (Z.land v (Z.ones 8)) by (by rewrite Z.land_ones).
  rewrite Z.land_lor_distr_l, <-!Z.land_assoc. change (Z.land 0x80 (Z.ones 6)) with 0.
  by change (Z.land (Z.ones 8) (Z.land (Z.ones 6) (Z.ones 6))) with (Z.ones 6).
Qed.

Lemma lead_bits base v n : 0 ≤ n → 0 ≤ v < 2 ^ n → base mod 2 ^ n = 0 →
  Z.lor base v mod 2 ^ n = v.
Proof.
  intros Hn Hv Hb. rewrite <-Z.land_ones, Z.land_lor_distr_l, !Z.land_ones, Hb by lia.
  by rewrite Z.lor_0_l, Z.mod_small.
Qed.

Lemma group_bits ch k : 0 ≤ k →
  ch `div` 2 ^ (k + 6) * 64 + (ch `div` 2 ^ k) `mod` 64 = ch `div` 2 ^ k.
Proof.
  intros Hk. rewrite Z.pow_add_r, <-Z.div_div by lia. change (2 ^ 6) with 64.
  pose proof (Z.div_mod (ch `div` 2 ^ k) 64). lia.
Qed.

(** [UnicodeToUTF8] writes one well-formed character that decodes to the code
    it was given, for every code below 2^31. *)
Theorem UnicodeToUTF8_roundtrip ch :
  0 ≤ ch < 0x80000000 →
  utf8_char (UnicodeToUTF8 ch) ∧ decode_char (UnicodeToUTF8 ch) = ch.
Proof.
  intros Hch. split; [by apply UnicodeToUTF8_char|].
  pose proof (group_bits ch 0 ltac:(lia)) as G0. pose proof (group_bits ch 6 ltac:(lia)) as G1.
  pose proof (group_bits ch 12 ltac:(lia)) as G2. pose proof (group_bits ch 18 ltac:(lia)) as G3.
  pose proof (group_bits ch 24 ltac:(lia)) as G4. rewrite Z.div_1_r in G0.
  change (0 + 6) with 6 in G0. change (6 + 6) with 12 in G1. change (12 + 6) with 18 in G2.
  change (18 + 6) with 24 in G3. change (24 + 6) with 30 in G4.
  unfold UnicodeToUTF8. repeat case_match; try lia; [done|..];
    cbn [decode_char length foldl Nat.eqb]; rewrite ?MakeContinuation_bits;
    unfold MakeLeading1, MakeLeading2, MakeLeading3, MakeLeading4, MakeLeading5;
    rewrite lead_bits; rewrite ?Z.shiftr_div_pow2 by lia; try done; try lia;
    try (split; [apply Z.div_pos; lia|apply Z.div_lt_upper_bound; lia]);
    rewrite ?G4, ?G3, ?G2, ?G1; exact G0.
Qed.

Lemma UnicodeToUTF8_roundtrip_witness :
  utf8_char (UnicodeToUTF8 0x20ac) ∧ decode_char (UnicodeToUTF8 0x20ac) = 0x20ac.
Proof. apply (UnicodeToUTF8_roundtrip 0x20ac). lia. Defined.

(** [Latin1ToUTF8] never leaves its buffer; it returns the source itself for
    plain ASCII, the UTF-8 encoding of every byte when that and the terminator fit
    into the buffer, and a null pointer otherwise. *)
Theorem Latin1ToUTF8_correct src buffer_size :
  Forall is_byte src → Forall (λ b, b ≠ 0) src →
  Latin1ToUTF8 src buffer_size = Some (
    if forallb IsASCII src then Same
    else if (length (latin1_spec src) <? buffer_size)%nat then Converted (latin1_spec src)
    else TooSmall).
Proof.
  intros Hb Hz. unfold Latin1ToUTF8. destruct (FindNonASCII_spec src Hz) as [Hn Ha].
  destruct (src !! FindNonASCIIOrZero src) as [ch|] eqn:E.
  - assert (Hna : IsASCII ch = false) by (eapply FindNonASCII_stop; eauto).
    assert (Hch : ch ∈ src) by (by eapply list_elem_of_lookup_2).
    assert (Hfb : forallb IsASCII src = false).
    { apply not_true_is_false. intros H. rewrite forallb_forall in H.
      rewrite (H ch) in Hna; [done|by apply list_elem_of_In]. }
    rewrite Hfb. replace (ch =? 0) with false.
    2: { rewrite Forall_forall in Hz. specialize (Hz _ Hch). lia. }
    set (n := FindNonASCIIOrZero src) in *.
    assert (Hspec : latin1_spec src = take n src ++ latin1_spec (drop n src)).
    { rewrite <-(take_drop n src) at 1. unfold latin1_spec. rewrite bind_app. f_equal.
      apply latin1_spec_ascii; [by apply Forall_take..|done]. }
    destruct (buffer_size <=? n)%nat eqn:Hsz.
    + rewrite Hspec, length_app, length_take. case_match; [lia|done].
    + rewrite Latin1_loop_ok; [by rewrite <-Hspec|by apply Forall_drop..|].
      rewrite length_take. lia.
  - apply lookup_ge_None in E. replace (forallb IsASCII src) with true; [done|].
    symmetry. apply forallb_forall. intros ch Hch%list_elem_of_In.
    rewrite take_ge in Ha by lia. rewrite Forall_forall in Ha. auto.
Qed.

Lemma Latin1ToUTF8_correct_witness :
  Latin1ToUTF8 [0x61; 0xe4] 4 = Some (Converted [0x61; 0xc3; 0xa4]) ∧
  Latin1ToUTF8 [0x61; 0xe4] 3 = Some TooSmall.
Proof.
  split.
  - rewrite (Latin1ToUTF8_correct [0x61; 0xe4] 4);
      [reflexivity|repeat constructor; unfold is_byte; lia|repeat constructor; lia].
  - rewrite (Latin1ToUTF8_correct [0x61; 0xe4] 3);
      [reflexivity|repeat constructor; unfold is_byte; lia|repeat constructor; lia].
Defined.

(** The validator accepts an overlong NUL, a surrogate and a form of six bytes, none
    of which is UTF-8. *)
Example lenient_accepts :
  ValidateUTF8 [0xc0; 0x80] = true ∧ ValidateUTF8 [0xed; 0xa0; 0x80] = true ∧
  ValidateUTF8 [0xfc; 0x80; 0x80; 0x80; 0x80; 0x80] = true.
Proof. done. Qed.

End UTF8.
