(* ===== verification/TagString.v ===== *)
(** * Tag strings

    [tag/TagString.cxx]: every tag value is sanitised before it enters the tag
    pool; malformed UTF-8 is patched with question marks and control characters
    become spaces. *)

From Stdlib Require Import ZArith Lia ZifyBool.
From stdpp Require Import base numbers strings list.
From S2P Require Import Prelude UTF8.

Set Default Goal Selector "!".

Module TagString.
Import UTF8.

(** [FindInvalidUTF8(p, end)]: the offset of the first malformed byte; the outer
    [option] records the assertion and the reads.  Each round consumes at least
    one byte, so the length of the buffer bounds the rounds. *)
Fixpoint FindInvalid_loop (fuel off : nat) (p : list Z) : option (option nat) :=
  match p with
  | [] => Some None
  | ch :: _ =>
      match fuel with
      | O => None
      | S fuel =>
          let s := SequenceLengthUTF8_char ch in
          if length p <? s then Some (Some off)
          else
            t ← SequenceLengthUTF8 p;
            if t =? 0 then Some (Some off)
            else
              assert! s =? t ;;
              FindInvalid_loop fuel (off + s) (drop s p)
      end
  end.

Definition FindInvalidUTF8 (p : list Z) : option (option nat) :=
  FindInvalid_loop (length p) 0 p.

Definition question_mark : Z := 63.
Definition space : Z := 32.

(** The patch loop: overwrite the malformed byte, continue behind it. *)
Fixpoint patch_loop (fuel : nat) (dest : list Z) (invalid : nat) : option (list Z) :=
  match fuel with
  | O => None
  | S fuel =>
      dest ← store invalid question_mark dest;
      r ← FindInvalidUTF8 (drop (invalid + 1) dest);
      match r with
      | Some off => patch_loop fuel dest (invalid + 1 + off)
      | None => Some dest
      end
  end.

Definition patch_utf8 (src : list Z) (invalid : nat) : option (list Z) :=
  patch_loop (length src) src invalid.

(** [None] in the inner option is the null buffer: nothing to fix. *)
Definition fix_utf8 (p : list Z) : option (option (list Z)) :=
  r ← FindInvalidUTF8 p;
  match r with
  | None => Some None
  | Some invalid => d ← patch_utf8 p invalid; Some (Some d)
  end.

Definition char_is_non_printable (ch : Z) : bool := (ch <? 0x20)%Z.

Definition find_non_printable (p : list Z) : option nat :=
  fst <$> list_find (λ ch, char_is_non_printable ch = true) p.

Definition clear_non_printable (src : list Z) : option (list Z) :=
  match find_non_printable src with
  | None => None
  | Some first =>
      Some (imap (λ i ch, if (first <=? i) && char_is_non_printable ch then space else ch) src)
  end.

Definition FixTagString (p : list Z) : option (option (list Z)) :=
  utf8 ← fix_utf8 p;
  let p := default p utf8 in
  match clear_non_printable p with
  | None => Some utf8
  | Some cleared => Some (Some cleared)
  end.

(** ** Finding malformed bytes *)

Lemma FindInvalid_step fuel off ch p :
  SequenceLengthUTF8_char ch ≤ S (length p) →
  FindInvalid_loop (S fuel) off (ch :: p) =
    if (SequenceLengthUTF8_char ch =? 0)
       || negb (forallb IsContinuation (take (SequenceLengthUTF8_char ch - 1) p))
    then Some (Some off)
    else FindInvalid_loop fuel (off + SequenceLengthUTF8_char ch)
           (drop (SequenceLengthUTF8_char ch) (ch :: p)).
Proof.
  intros H. cbn [FindInvalid_loop].
  replace (length (ch :: p) <? SequenceLengthUTF8_char ch) with false by (simpl; lia).
  rewrite SequenceLengthUTF8_ok by done. cbn [mbind option_bind].
  destruct (forallb _ _) eqn:E; simpl; [|by rewrite orb_true_r].
  rewrite orb_false_r. destruct (SequenceLengthUTF8_char ch =? 0) eqn:E'; [done|].
  by rewrite check_bind by lia.
Qed.

Lemma not_ascii ch : SequenceLengthUTF8_char ch ≠ 1 → IsASCII ch = false.
Proof. unfold SequenceLengthUTF8_char. by destruct (IsASCII ch). Qed.

(** The scanner always returns; it accepts exactly the well-formed buffers, and
    otherwise splits off a well-formed prefix and stops at a byte above the ASCII
    range. *)
Lemma FindInvalid_loop_ok : ∀ fuel off p, length p ≤ fuel →
  (FindInvalid_loop fuel off p = Some None ∧ utf8 p) ∨
  (∃ n, FindInvalid_loop fuel off p = Some (Some (off + n)) ∧ n < length p ∧
     utf8 (take n p) ∧ ¬ utf8 p ∧ ∃ b, p !! n = Some b ∧ IsASCII b = false).
Proof.
  induction fuel as [|fuel IH]; intros off p Hf.
  { destruct p; [|simpl in Hf; lia]. left. split; [done|constructor]. }
  destruct p as [|ch p]; [left; split; [done|constructor]|].
  set (s := SequenceLengthUTF8_char ch).
  destruct (decide (S (length p) < s)) as [Hshort|Hlong].
  { right. exists 0. rewrite Nat.add_0_r. split_and!; [|simpl; lia|constructor| |].
    - cbn [FindInvalid_loop]. fold s.
      by replace (length (ch :: p) <? s) with true by (simpl; lia).
    - intros (cs & l' & -> & Hs & _)%utf8_inv. fold s in Hs. rewrite length_app in Hshort. lia.
    - exists ch. split; [done|]. apply not_ascii. fold s. lia. }
  rewrite FindInvalid_step by lia. fold s.
  destruct ((s =? 0) || negb (forallb IsContinuation (take (s - 1) p))) eqn:E.
  { right. exists 0. rewrite Nat.add_0_r. split_and!; [done|simpl; lia|constructor| |].
    2: { exists ch. split; [done|]. apply not_ascii. fold s. intros Hs.
         rewrite Hs in E. discriminate E. }
    intros (cs & l' & -> & Hs & Hcs & _)%utf8_inv. fold s in Hs.
    rewrite Hs in E. replace (S (length cs) - 1) with (length cs) in E by lia.
    rewrite take_app_length in E.
    assert (Hall : forallb IsContinuation cs = true).
    { apply forallb_forall. intros c Hc%list_elem_of_In. rewrite Forall_forall in Hcs. auto. }
    rewrite Hall in E. done. }
  apply orb_false_iff in E as [Hs0 Hcs]. apply negb_false_iff in Hcs.
  assert (Hdrop : drop s (ch :: p) = drop (s - 1) p) by (destruct s; [lia|simpl; f_equal; lia]).
  assert (Hsplit : ∀ l, utf8 l → utf8 (ch :: take (s - 1) p ++ l)).
  { intros l Hl. eapply utf8_seq_intro; [|reflexivity|done|done].
    rewrite length_take. fold s. lia. }
  rewrite Hdrop. destruct (IH (off + s) (drop (s - 1) p)) as [[-> Hu]|(n & -> & Hn & Hu & Hnu & b & Hnb & Hab)].
  { rewrite length_drop. simpl in Hf. lia. }
  - left. split; [done|]. rewrite <-(take_drop (s - 1) p). by apply Hsplit.
  - right. exists (s + n). rewrite Nat.add_assoc. rewrite length_drop in Hn.
    split_and!; [done|simpl; lia| | |].
    3: { exists b. split; [|done]. rewrite lookup_drop in Hnb. destruct s; [lia|]. simpl.
         replace (s + n) with (S s - 1 + n) by lia. done. }
    + replace (take (s + n) (ch :: p)) with (ch :: take (s - 1) p ++ take n (drop (s - 1) p));
        [by apply Hsplit|].
      replace (s + n) with (S (s - 1 + n)) by lia. cbn [take]. f_equal.
      by rewrite take_take_drop.
    + intros (cs & l' & -> & Hs & Hcs' & Hl')%utf8_inv. fold s in Hs. apply Hnu.
      rewrite Hs. replace (S (length cs) - 1) with (length cs) by lia.
      by rewrite drop_app_length.
Qed.

Lemma FindInvalidUTF8_ok p :
  (FindInvalidUTF8 p = Some None ∧ utf8 p) ∨
  (∃ n, FindInvalidUTF8 p = Some (Some n) ∧ n < length p ∧ utf8 (take n p) ∧ ¬ utf8 p ∧
     ∃ b, p !! n = Some b ∧ IsASCII b = false).
Proof. apply FindInvalid_loop_ok. done. Qed.

(** ** Patching *)

(** What [fix_utf8] may do to the byte at [i]: a byte above the ASCII range may
    become a question mark. *)
Definition patched (p d : list Z) : Prop := ∀ i,
  d !! i = p !! i ∨ d !! i = Some question_mark ∧ ∃ b, p !! i = Some b ∧ IsASCII b = false.

Lemma patch_loop_ok : ∀ fuel dest invalid,
  invalid < length dest → length dest - invalid ≤ fuel → utf8 (take invalid dest) →
  (∃ b, dest !! invalid = Some b ∧ IsASCII b = false) →
  ∃ d, patch_loop fuel dest invalid = Some d ∧ utf8 d ∧ length d = length dest ∧
    patched dest d.
Proof.
  induction fuel as [|fuel IH]; intros dest invalid Hi Hf Hpre Hbad; [lia|]. cbn [patch_loop].
  rewrite store_Some by done. cbn [mbind option_bind].
  set (dest' := <[invalid:=question_mark]> dest).
  assert (Hlen : length dest' = length dest) by (subst dest'; by rewrite length_insert).
  assert (Hat : patched dest dest').
  { intros i. subst dest'. destruct (decide (i = invalid)) as [->|].
    - right. by rewrite list_lookup_insert_eq.
    - left. by rewrite list_lookup_insert_ne. }
  assert (Hpre' : utf8 (take (invalid + 1) dest')).
  { replace (take (invalid + 1) dest') with (take invalid dest ++ [question_mark]).
    - apply utf8_app; [done|]. apply utf8_ascii; [done|constructor].
    - replace (invalid + 1) with (S invalid) by lia. subst dest'.
      erewrite take_S_r by (by apply list_lookup_insert_eq).
      by rewrite take_insert_ge. }
  destruct (FindInvalidUTF8_ok (drop (invalid + 1) dest')) as [[-> Hu]|(n & -> & Hn & Hu & _ & Hb)];
    cbn [mbind option_bind].
  - exists dest'. split_and!; [done| |done|done].
    rewrite <-(take_drop (invalid + 1) dest'). by apply utf8_app.
  - rewrite length_drop in Hn.
    destruct (IH dest' (invalid + 1 + n)) as (d & Hd & Hdu & Hdl & Hda); [lia|lia| | |].
    + rewrite <-take_take_drop. by apply utf8_app.
    + by rewrite <-lookup_drop.
    + exists d. split_and!; [done|done|lia|]. intros i.
      destruct (Hda i) as [->|(-> & b & Hi' & Hna)]; [apply Hat|]. right. split; [done|].
      destruct (Hat i) as [<-|[E _]]; [by exists b|]. rewrite E in Hi'. by simplify_eq.
Qed.

(** [fix_utf8] always returns well-formed UTF-8 of the same length and only ever
    writes question marks; it allocates nothing for a well-formed string. *)
Lemma fix_utf8_ok p :
  (fix_utf8 p = Some None ∧ utf8 p) ∨
  (¬ utf8 p ∧ ∃ d, fix_utf8 p = Some (Some d) ∧ utf8 d ∧ length d = length p ∧
     patched p d).
Proof.
  unfold fix_utf8. destruct (FindInvalidUTF8_ok p) as [[-> Hu]|(n & -> & Hn & Hu & Hnu & Hb)];
    cbn [mbind option_bind].
  - by left.
  - right. split; [done|]. unfold patch_utf8.
    destruct (patch_loop_ok (length p) p n Hn ltac:(lia) Hu Hb) as (d & -> & Hd).
    by exists d.
Qed.

(** ** Control characters *)

(** Clearing control characters keeps UTF-8 well-formed: they are ASCII, and so is
    the space that replaces them. *)
Definition clear_char (ch : Z) : Z := if char_is_non_printable ch then space else ch.

Lemma clear_non_printable_spec src :
  match clear_non_printable src with
  | None => Forall (λ ch, char_is_non_printable ch = false) src
  | Some d => d = clear_char <$> src
  end.
Proof.
  unfold clear_non_printable, find_non_printable.
  destruct (list_find (λ ch, char_is_non_printable ch = true) src) as [[i ch]|] eqn:E; simpl.
  - apply list_find_Some in E as (Hi & Hch & Hbefore).
    apply list_eq. intros j. rewrite list_lookup_imap, list_lookup_fmap.
    destruct (src !! j) as [c|] eqn:Ej; simpl; [|done]. f_equal. unfold clear_char.
    destruct (i <=? j) eqn:Hij; [done|]. simpl.
    destruct (char_is_non_printable c) eqn:Ec; [|done].
    exfalso. eapply Hbefore; [exact Ej|lia|done].
  - apply list_find_None in E. eapply Forall_impl; [done|].
    intros c Hc. by apply not_true_is_false.
Qed.

Lemma clear_char_continuation ch : is_byte ch → IsContinuation ch = true →
  clear_char ch = ch.
Proof.
  intros Hb Hc.
  by_bytes ch Hb (λ b, negb (IsContinuation b) || negb (char_is_non_printable b)).
  rewrite Hc in H. simpl in H. unfold clear_char. by destruct (char_is_non_printable ch).
Qed.

Lemma clear_char_seqlen ch : is_byte ch →
  SequenceLengthUTF8_char (clear_char ch) = SequenceLengthUTF8_char ch.
Proof.
  intros Hb.
  by_bytes ch Hb (λ b, SequenceLengthUTF8_char (clear_char b) =? SequenceLengthUTF8_char b).
  by apply Nat.eqb_eq.
Qed.

Lemma utf8_clear p : Forall is_byte p → utf8 p → utf8 (clear_char <$> p).
Proof.
  intros Hb. induction 1 as [|s l (ch & cs & -> & Hlen & Hcs) Hl IH]; [constructor|].
  apply Forall_app in Hb as [Hb Hbl]. inversion_clear Hb as [|?? Hbc Hbcs].
  rewrite fmap_app. constructor; [|by apply IH].
  exists (clear_char ch), (clear_char <$> cs). split_and!; [done| |].
  - rewrite clear_char_seqlen by done. rewrite Hlen. simpl. by rewrite length_fmap.
  - rewrite Forall_fmap. apply Forall_forall. intros c Hc. simpl.
    rewrite Forall_forall in Hcs, Hbcs. rewrite clear_char_continuation; auto.
Qed.

Lemma clear_char_printable ch : is_byte ch → char_is_non_printable (clear_char ch) = false.
Proof.
  intros Hb. unfold clear_char. by destruct (char_is_non_printable ch) eqn:E.
Qed.

Lemma fix_utf8_bytes p d : Forall is_byte p → patched p d → Forall is_byte d.
Proof.
  intros Hb Hd. apply Forall_lookup. intros i b Hi. destruct (Hd i) as [E|[E _]].
  - rewrite E in Hi. by eapply Forall_lookup_1.
  - rewrite E in Hi. simplify_eq. unfold is_byte, question_mark. lia.
Qed.

(** What the repair may do to a byte: one above the ASCII range may become a
    question mark, and exactly the bytes below 0x20 become spaces. *)
Definition repaired (p d : list Z) : Prop := ∀ i b, p !! i = Some b →
  ((b < 0x20)%Z ∧ d !! i = Some 32%Z) ∨
  ((0x20 ≤ b < 0x80)%Z ∧ d !! i = Some b) ∨
  ((0x80 ≤ b)%Z ∧ (d !! i = Some b ∨ d !! i = Some 63%Z)).

Lemma patched_repaired p u : patched p u → repaired p (clear_char <$> u).
Proof.
  intros Hu i b Hi. rewrite list_lookup_fmap. unfold clear_char, char_is_non_printable.
  destruct (Hu i) as [->|(-> & b' & Hb' & Ha)]; [rewrite Hi; simpl|].
  - destruct (b <? 0x20)%Z eqn:E; [left; split; [lia|done]|].
    destruct (b <? 0x80)%Z eqn:E'; right; [left|right]; split; (lia || auto).
  - rewrite Hi in Hb'. simplify_eq. unfold IsASCII in Ha. right; right. split; [lia|by right].
Qed.

(** A tag value that needs no repair. *)
Definition clean (p : list Z) : Prop :=
  utf8 p ∧ Forall (λ ch, char_is_non_printable ch = false) p.

Lemma clear_char_id l : Forall (λ ch, char_is_non_printable ch = false) l →
  clear_char <$> l = l.
Proof.
  induction 1 as [|ch l Hch _ IH]; [done|]. rewrite fmap_cons, IH. unfold clear_char.
  by rewrite Hch.
Qed.

Lemma FixTagString_total p : Forall is_byte p →
  ∃ r, FixTagString p = Some r ∧ clean (default p r) ∧ length (default p r) = length p ∧
    Forall is_byte (default p r) ∧ (r = None ↔ clean p) ∧
    repaired p (default p r).
Proof.
  intros Hb. unfold FixTagString.
  assert (∃ u, fix_utf8 p = Some u ∧ utf8 (default p u) ∧ length (default p u) = length p ∧
    Forall is_byte (default p u) ∧ (u = None ↔ utf8 p) ∧ patched p (default p u))
    as (u & -> & Hu & Hlen & Hbu & Hnone & Hat).
  { destruct (fix_utf8_ok p) as [[-> Hu]|(Hnu & d & -> & Hu & Hlen & Hat)].
    - exists None. split_and!; try done. intros i. by left.
    - exists (Some d). split_and!; try done. by eapply fix_utf8_bytes. }
  cbn [mbind option_bind]. pose proof (clear_non_printable_spec (default p u)) as Hc.
  destruct (clear_non_printable (default p u)) as [d|] eqn:E.
  - exists (Some d). simpl. subst d. split_and!; [done| | | | |].
    + split; [by apply utf8_clear|]. rewrite Forall_fmap. eapply Forall_impl; [done|].
      intros ch Hch. simpl. by apply clear_char_printable.
    + by rewrite length_fmap.
    + rewrite Forall_fmap. eapply Forall_impl; [done|]. intros ch Hch. simpl.
      unfold clear_char. case_match; [unfold is_byte, space; lia|done].
    + split; [done|]. intros [Hpu Hpp]. rewrite (proj2 Hnone Hpu) in E. simpl in E.
      unfold clear_non_printable, find_non_printable in E.
      destruct (list_find _ p) as [[i ch]|] eqn:El; [|done].
      apply list_find_Some in El as (Hi & Hch & _).
      rewrite (Forall_lookup_1 _ _ _ _ Hpp Hi) in Hch. done.
    + by apply patched_repaired.
  - exists u. split_and!; [done| |done|done| |].
    + by split.
    + rewrite Hnone. split; [|by intros []]. intros Hpu. split; [done|].
      by rewrite (proj2 Hnone Hpu) in Hc.
    + rewrite <-(clear_char_id (default p u)) by done. by apply patched_repaired.
Qed.

Lemma printable_forall l :
  Forall (λ ch, char_is_non_printable ch = false) l ↔ Forall (λ ch, 0x20 ≤ ch)%Z l.
Proof. apply Forall_iff. intros ch. unfold char_is_non_printable. lia. Qed.

(** C38: [FixTagString] always returns a string of the same length that the
    lenient UTF-8 grammar accepts and that has no byte below 0x20; it turns exactly
    the bytes below 0x20 into spaces, keeps every other ASCII byte (0x7f too) and
    changes bytes above only into question marks.  It returns the null buffer exactly
    when the value is well-formed and without such bytes. *)
Theorem FixTagString_correct p :
  Forall is_byte p →
  ∃ r, FixTagString p = Some r ∧ lenient_utf8 (default p r) ∧
    Forall (λ ch, 0x20 ≤ ch)%Z (default p r) ∧ length (default p r) = length p ∧
    (r = None ↔ lenient_utf8 p ∧ Forall (λ ch, 0x20 ≤ ch)%Z p) ∧
    repaired p (default p r).
Proof.
  intros Hb. destruct (FixTagString_total p Hb) as (r & Hr & [Hu Hc] & Hl & Hbr & Hn & Hrep).
  exists r. rewrite <-!printable_forall, <-!lenient_iff by done. done.
Qed.

Lemma FixTagString_correct_witness :
  ∃ r, FixTagString [0x61; 0xff; 0x0a]%Z = Some r ∧
    lenient_utf8 (default [0x61; 0xff; 0x0a]%Z r).
Proof.
  destruct (FixTagString_correct [0x61; 0xff; 0x0a]%Z) as (r & H & Hc & _).
  - repeat constructor; vm_compute; congruence.
  - exists r. split; assumption.
Defined.

End TagString.
