(* ===== verification/CString.v ===== *)
(** * C strings

    The functions of [<string.h>] and [<strings.h>], and the helpers of
    [util/StringCompare.hxx] and [util/ASCII.hxx], on strings given as the list of
    their bytes without the terminating zero.  A pointer into a string is an
    offset; the byte read at the offset [length s] is the terminator. *)

From Stdlib Require Import ZArith Lia ZifyBool.
From stdpp Require Import base numbers sets strings list.
From S2P Require Import Prelude.

Set Default Goal Selector "!".

Module CString.

(** [s[i]], including the terminator; [None] behind it. *)
Definition char_at (s : list Z) (i : nat) : option Z :=
  if i =? length s then Some 0%Z else s !! i.

(** [*s] *)
Definition first (s : list Z) : Z := default 0%Z (head s).

Definition strchr (s : list Z) (c : Z) : option nat :=
  fst <$> list_find (λ x, x = c) s.

Definition strpbrk (s accept : list Z) : option nat :=
  fst <$> list_find (λ x, x ∈ accept) s.

(** The last occurrence. *)
Definition strrchr (s : list Z) (c : Z) : option nat :=
  (λ i, length s - 1 - i) <$> strchr (reverse s) c.

Fixpoint starts_with (s needle : list Z) {struct needle} : bool :=
  match needle, s with
  | [], _ => true
  | _ :: _, [] => false
  | n :: needle, c :: s => (c =? n)%Z && starts_with s needle
  end.

(** [StringAfterPrefix] *)
Definition StringAfterPrefix (s needle : list Z) : option (list Z) :=
  if starts_with s needle then Some (drop (length needle) s) else None.

Fixpoint strstr (s needle : list Z) : option nat :=
  if starts_with s needle then Some 0
  else match s with
       | [] => None
       | _ :: s => S <$> strstr s needle
       end.

Definition streq (a b : list Z) : bool := bool_decide (a = b).

(** [tolower] in the C locale. *)
Definition tolower (c : Z) : Z := if (65 <=? c)%Z && (c <=? 90)%Z then (c + 32)%Z else c.

(** [StringEqualsCaseASCII(a, b)] *)
Definition StringEqualsCaseASCII (a b : list Z) : bool :=
  streq (tolower <$> a) (tolower <$> b).

(** [StringEndsWith] and [FindStringSuffix] *)
Definition FindStringSuffix (p suffix : list Z) : option nat :=
  if length p <? length suffix then None
  else
    let q := length p - length suffix in
    if streq (drop q p) suffix then Some q else None.

Definition StringEndsWith (haystack needle : list Z) : bool :=
  (length needle <=? length haystack) &&
  streq (drop (length haystack - length needle) haystack) needle.

(** Pieces of [s] between the separators [c]. *)
Fixpoint split (c : Z) (s : list Z) : list (list Z) :=
  match s with
  | [] => [[]]
  | x :: s =>
      if (x =? c)%Z then [] :: split c s
      else match split c s with
           | h :: t => (x :: h) :: t
           | [] => [[x]]
           end
  end.

(** ** Lemmas *)

Lemma starts_with_spec s needle : starts_with s needle = true ↔ needle `prefix_of` s.
Proof.
  revert s. induction needle as [|n needle IH]; intros [|c s]; simpl.
  - split; [intros _; apply prefix_nil|done].
  - split; [intros _; apply prefix_nil|done].
  - split; [done|]. intros [k Hk]. done.
  - rewrite andb_true_iff, IH, Z.eqb_eq. split.
    + intros [-> Hp]. by apply prefix_cons.
    + intros Hp. split; [by eapply eq_sym, prefix_cons_inv_1|by eapply prefix_cons_inv_2].
Qed.

Lemma starts_with_app s needle : starts_with (needle ++ s) needle = true.
Proof. apply starts_with_spec. by exists s. Qed.

Lemma strchr_Some s c i :
  strchr s c = Some i ↔ s !! i = Some c ∧ c ∉ take i s.
Proof.
  unfold strchr. split.
  - intros ([j x] & Hy & ->)%fmap_Some. simpl.
    apply list_find_Some in Hy as (Hj & -> & Hlt). split; [done|].
    intros (k & Hk)%list_elem_of_lookup.
    pose proof (lookup_lt_Some _ _ _ Hk) as Hkl. rewrite length_take in Hkl.
    rewrite lookup_take_lt in Hk by lia. by eapply (Hlt k); [done|lia|].
  - intros [Hi Hni]. apply fmap_Some. exists (i, c). split; [|done].
    apply list_find_Some. split_and!; [done|done|]. intros j y Hj Hlt ->. apply Hni.
    apply list_elem_of_lookup. exists j. by rewrite lookup_take_lt.
Qed.

Lemma strchr_None s c : strchr s c = None ↔ c ∉ s.
Proof.
  unfold strchr. rewrite fmap_None, list_find_None, Forall_forall. set_solver.
Qed.

Lemma strchr_app s c r : c ∉ s → strchr (s ++ c :: r) c = Some (length s).
Proof.
  intros Hni. apply strchr_Some. split.
  - rewrite lookup_app_r by lia. by rewrite Nat.sub_diag.
  - by rewrite take_app_length.
Qed.

(** The string around the first occurrence. *)
Lemma strchr_decompose s c i :
  strchr s c = Some i → s = take i s ++ c :: drop (S i) s ∧ c ∉ take i s.
Proof.
  intros [Hi Hni]%strchr_Some. split; [|done]. symmetry. by apply take_drop_middle.
Qed.

Lemma strstr_Some s needle i :
  strstr s needle = Some i →
  s = take i s ++ needle ++ drop (i + length needle) s ∧
  ∀ j, j < i → starts_with (drop j s) needle = false.
Proof.
  revert i. induction s as [|c s IH]; intros i.
  - simpl. destruct needle; simpl; intros; simplify_eq. split; [done|lia].
  - cbn [strstr]. destruct (starts_with (c :: s) needle) eqn:E.
    + intros [= <-]. split; [|lia]. apply starts_with_spec in E as [k ->].
      simpl. by rewrite drop_app_length.
    + intros (j & Hj & ->)%fmap_Some. destruct (IH _ Hj) as [Hs Hmin]. split.
      * simpl. by f_equal.
      * intros [|k] Hk; [done|]. simpl. apply Hmin. lia.
Qed.

Lemma strstr_None s needle : strstr s needle = None ↔ ∀ a b, s ≠ a ++ needle ++ b.
Proof.
  induction s as [|c s IH].
  - cbn [strstr]. destruct (starts_with [] needle) eqn:E.
    + split; [done|]. intros H. apply starts_with_spec in E as [k Hk].
      by destruct (H [] k).
    + split; [|done]. intros _ a b Hab. symmetry in Hab.
      apply app_eq_nil in Hab as [-> [-> ->]%app_eq_nil]. done.
  - cbn [strstr]. destruct (starts_with (c :: s) needle) eqn:E.
    + split; [done|]. intros H. apply starts_with_spec in E as [k Hk].
      by destruct (H [] k).
    + rewrite fmap_None, IH. split.
      * intros H [|x a] b Hab; simpl in Hab; simplify_eq.
        -- rewrite Hab, starts_with_app in E. done.
        -- by eapply H.
      * intros H a b ->. by eapply (H (c :: a) b).
Qed.

Lemma split_cons c s : ∃ h t, split c s = h :: t.
Proof.
  induction s as [|x s (h & t & IH)]; simpl; [by eexists _, _|].
  rewrite IH. case_match; by eexists _, _.
Qed.

Lemma split_no_sep c s : c ∉ s → split c s = [s].
Proof.
  induction s as [|x s IH]; [done|]. intros Hni. simpl.
  rewrite IH by set_solver. rewrite (proj2 (Z.eqb_neq x c)) by set_solver. done.
Qed.

Lemma split_sep c s r : c ∉ s → split c (s ++ c :: r) = s :: split c r.
Proof.
  induction s as [|x s IH]; simpl; intros Hni.
  - by rewrite Z.eqb_refl.
  - rewrite IH by set_solver. rewrite (proj2 (Z.eqb_neq x c)) by set_solver. done.
Qed.

End CString.
