(* ===== verification/UriUtil.v ===== *)
(** * URIs

    [util/UriUtil.cxx]: classification and rewriting of song URIs, and
    [PathTraitsUTF8::IsAbsolute] of [fs/Traits.hxx]. *)

From Stdlib Require Import ZArith Lia ZifyBool.
From stdpp Require Import base numbers sets strings list.
From S2P Require Import Prelude CString.

Set Default Goal Selector "!".

Module UriUtil.
Import CString.

Definition slash : Z := 47.
Definition dot : Z := 46.
Definition backslash : Z := 92.
Definition at_sign : Z := 64.
Definition question : Z := 63.
Definition scheme_sep : list Z := str "://".

(** [PathTraitsUTF8::IsAbsolute] *)
Definition IsAbsolute (p : list Z) : bool := (first p =? slash)%Z.

Definition uri_has_scheme (uri : list Z) : bool :=
  match strstr uri scheme_sep with Some _ => true | None => false end.

Definition uri_get_scheme (uri : list Z) : list Z :=
  match strstr uri scheme_sep with
  | Some end_ => take end_ uri
  | None => []
  end.

(** [uri_get_suffix(uri)]: the suffix without its dot, or null. *)
Definition uri_get_suffix (uri : list Z) : option (list Z) :=
  match strrchr uri dot with
  | None => None
  | Some 0 => None
  | Some (S i) =>
      let c := default 0%Z (uri !! i) in
      if (c =? slash)%Z || (c =? backslash)%Z then None
      else
        let suffix := drop (S (S i)) uri in
        match strpbrk suffix [slash; backslash] with
        | Some _ => None
        | None => Some suffix
        end
  end.

Definition UriSuffixBuffer_size : nat := 8.

(** The overload that strips a query string into a buffer. *)
Definition uri_get_suffix_buffer (uri : list Z) : option (list Z) :=
  suffix ← uri_get_suffix uri;
  match strchr suffix question with
  | Some q => if q <? UriSuffixBuffer_size then Some (take q suffix) else Some suffix
  | None => Some suffix
  end.

Fixpoint count_dots (p : list Z) : nat :=
  match p with
  | c :: p => if (c =? dot)%Z then S (count_dots p) else 0
  | [] => 0
  end.

(** [verify_uri_segment]: the inner [None] is the null pointer, the outer one the
    read at [p + 1] behind the end of the string. *)
Definition verify_uri_segment (p : list Z) : option (option (list Z)) :=
  let dots := count_dots p in
  let p := drop dots p in
  if (dots <=? 2) && ((first p =? 0) || (first p =? slash))%Z then Some None
  else match p with
       | [] => None
       | _ :: p1 =>
           Some (Some (match strchr p1 slash with
                       | Some q => drop q p1
                       | None => []
                       end))
       end.

(** The loop drops at least the leading slash in every round after the first. *)
Fixpoint uri_safe_local_loop (fuel : nat) (uri : list Z) : option bool :=
  match fuel with
  | O => None
  | S fuel =>
      r ← verify_uri_segment uri;
      match r with
      | None => Some false
      | Some uri =>
          if (first uri =? 0)%Z then Some true
          else
            assert! (first uri =? slash)%Z ;;
            uri_safe_local_loop fuel (drop 1 uri)
      end
  end.

Definition uri_safe_local (uri : list Z) : option bool :=
  uri_safe_local_loop (S (length uri)) uri.

Definition schemes : list (list Z) := [str "http://"; str "https://"; str "ftp://"].

(** The rest of the URI behind a known scheme. *)
Fixpoint SkipUriScheme (l : list (list Z)) (uri : list Z) : option (list Z) :=
  match l with
  | [] => None
  | scheme :: l =>
      match StringAfterPrefix uri scheme with
      | Some r => Some r
      | None => SkipUriScheme l uri
      end
  end.

(** [uri_remove_auth]: the empty string when there is nothing to remove. *)
Definition uri_remove_auth (uri : list Z) : list Z :=
  match SkipUriScheme schemes uri with
  | None => []
  | Some auth =>
      let host := take (default (length auth) (strchr auth slash)) auth in
      match strchr host at_sign with
      | None => []
      | Some at_ =>
          let off := length uri - length auth in
          take off uri ++ drop (off + (at_ + 1)) uri
      end
  end.

(** [memcmp] over the bytes of [parent] stops at the terminator of a shorter
    [child], which differs from every byte of [parent]. *)
Definition uri_is_child (parent child : list Z) : bool :=
  starts_with child parent &&
  (default 0%Z (char_at child (length parent)) =? slash)%Z.

Definition uri_is_child_or_same (parent child : list Z) : bool :=
  streq parent child || uri_is_child parent child.

(** [std::string::find(c, pos)] *)
Definition find_from (s : list Z) (c : Z) (pos : nat) : option nat :=
  (λ i, pos + i) <$> strchr (drop pos s) c.

(** [front] and [back] of an empty string are undefined. *)
Definition uri_apply_base (uri base : list Z) : option (list Z) :=
  c ← head uri;
  if (c =? slash)%Z then
    match strstr base scheme_sep with
    | None => Some uri
    | Some i =>
        let i := default (length base) (find_from base slash (i + 3)) in
        Some (take i base ++ uri)
    end
  else
    b ← last base;
    let out := if negb (b =? slash)%Z then base ++ [slash] else base in
    Some (out ++ uri).

(** ** Segments *)

(** The segments [uri_safe_local] is meant to refuse. *)
Definition safe_segment (seg : list Z) : bool :=
  negb (streq seg [] || streq seg [dot] || streq seg [dot; dot]).

Lemma count_dots_split p : p = replicate (count_dots p) dot ++ drop (count_dots p) p ∧
  ∀ r, drop (count_dots p) p ≠ dot :: r.
Proof.
  induction p as [|c p [IH1 IH2]]; simpl; [done|].
  destruct (c =? dot)%Z eqn:E; simpl.
  - apply Z.eqb_eq in E as ->. split; [by f_equal|done].
  - split; [done|]. intros r [= -> ->]. by rewrite Z.eqb_refl in E.
Qed.

Lemma count_dots_app seg rest c r :
  drop (count_dots seg) seg = c :: r → count_dots (seg ++ rest) = count_dots seg.
Proof.
  induction seg as [|x seg IH]; simpl; [done|].
  case_match; [|done]. simpl. intros Hd. by rewrite IH.
Qed.

Lemma count_dots_all n rest : first rest ≠ dot →
  count_dots (replicate n dot ++ rest) = n.
Proof.
  intros Hf. induction n as [|n IH]; simpl; [|by rewrite IH].
  destruct rest as [|c rest]; simpl in *; [done|]. change (c ≠ dot) in Hf.
  by rewrite (proj2 (Z.eqb_neq _ _) Hf).
Qed.

Definition all_dots (seg : list Z) : bool := count_dots seg =? length seg.

Lemma all_dots_replicate seg : all_dots seg = true → seg = replicate (length seg) dot.
Proof.
  unfold all_dots. intros E%Nat.eqb_eq. destruct (count_dots_split seg) as [H _].
  rewrite E, drop_all, app_nil_r in H. done.
Qed.

(** What follows a segment: the end of the string or a slash. *)
Definition seg_end (rest : list Z) : Prop := rest = [] ∨ ∃ r, rest = slash :: r.

Lemma verify_dots seg rest :
  all_dots seg = true → length seg ≤ 2 → seg_end rest →
  verify_uri_segment (seg ++ rest) = Some None.
Proof.
  intros Had Hlen Hr. rewrite (all_dots_replicate _ Had). unfold verify_uri_segment.
  rewrite count_dots_all by (by destruct Hr as [->|[r ->]]).
  rewrite drop_app_length' by (by rewrite length_replicate).
  guard_true (length seg <=? 2). by destruct Hr as [->|[r ->]].
Qed.

Lemma verify_plain seg rest :
  all_dots seg = false → slash ∉ seg → 0%Z ∉ seg → seg_end rest →
  verify_uri_segment (seg ++ rest) = Some (Some rest).
Proof.
  intros Had Hns Hnz Hr. destruct (count_dots_split seg) as [Hseg Hnd].
  destruct (drop (count_dots seg) seg) as [|c r] eqn:E.
  { apply (f_equal length) in Hseg. rewrite length_app, length_replicate in Hseg.
    unfold all_dots in Had. simpl in Hseg. lia. }
  assert (Hc : c ∈ seg) by (rewrite Hseg; set_solver).
  assert (Hr' : slash ∉ r) by (rewrite Hseg in Hns; set_solver).
  unfold verify_uri_segment. rewrite (count_dots_app _ _ _ _ E).
  rewrite drop_app_le by (apply (f_equal length) in E; rewrite length_drop in E; simpl in E; lia).
  rewrite E. cbn [app]. change (first (c :: r ++ rest)) with c. cbv zeta.
  rewrite (proj2 (Z.eqb_neq c 0)), (proj2 (Z.eqb_neq c slash)) by set_solver.
  rewrite andb_false_r. do 2 f_equal. destruct Hr as [->|[r' ->]].
  - rewrite app_nil_r. by rewrite (proj2 (strchr_None _ _)).
  - rewrite strchr_app by done. by rewrite drop_app_length.
Qed.

(** First segment and remainder of a path. *)
Lemma segment_decompose uri : ∃ seg rest, uri = seg ++ rest ∧ (slash ∉ seg) ∧ seg_end rest ∧
  split slash uri = seg :: (match rest with [] => [] | _ :: r => split slash r end).
Proof.
  destruct (strchr uri slash) as [i|] eqn:E.
  - apply strchr_decompose in E as [H Hni]. eexists (take i uri), (slash :: _).
    split_and!; [exact H|done|right; by eexists|]. rewrite H at 1. by apply split_sep.
  - apply strchr_None in E. exists uri, []. rewrite app_nil_r.
    split_and!; [done|done|by left|by apply split_no_sep].
Qed.

Lemma safe_segment_dots seg : all_dots seg = true → length seg ≤ 2 → safe_segment seg = false.
Proof.
  intros H%all_dots_replicate Hlen.
  destruct (length seg) as [|[|[|n]]] eqn:E; [| | |lia]; by rewrite H.
Qed.

Lemma safe_segment_plain seg : all_dots seg = false → safe_segment seg = true.
Proof.
  intros H. unfold safe_segment, streq.
  rewrite !bool_decide_eq_false_2; [done|intros ->; by vm_compute in H..].
Qed.

Lemma uri_safe_local_loop_ok fuel uri :
  length uri < fuel → 0%Z ∉ uri →
  Forall (λ seg, all_dots seg = true → length seg ≤ 2) (split slash uri) →
  uri_safe_local_loop fuel uri = Some (forallb safe_segment (split slash uri)).
Proof.
  revert uri. induction fuel as [|fuel IH]; intros uri Hf Hnz Hall; [lia|].
  destruct (segment_decompose uri) as (seg & rest & -> & Hns & Hend & Hsplit).
  rewrite Hsplit in *. apply Forall_cons in Hall as [Hseg Hall]. cbn [uri_safe_local_loop].
  destruct (all_dots seg) eqn:Had.
  { rewrite verify_dots by auto. simpl. by rewrite safe_segment_dots by auto. }
  rewrite verify_plain by set_solver. cbn [mbind option_bind forallb].
  rewrite (safe_segment_plain _ Had). destruct Hend as [->|[r ->]]; [done|].
  simpl. rewrite drop_0. apply IH; [|set_solver|done].
  rewrite length_app in Hf. simpl in Hf. lia.
Qed.

(** [uri_safe_local] always terminates without a stray read and accepts a
    path exactly when none of its slash-separated segments is empty, [.] or [..],
    provided no segment consists of three or more dots. *)
Theorem uri_safe_local_correct uri :
  0%Z ∉ uri →
  Forall (λ seg, all_dots seg = true → length seg ≤ 2) (split slash uri) →
  uri_safe_local uri = Some (forallb safe_segment (split slash uri)).
Proof. intros. by apply uri_safe_local_loop_ok; [lia|..]. Qed.

Lemma uri_safe_local_correct_witness :
  uri_safe_local (str "a/../b") = Some false ∧ uri_safe_local (str "music/.b/c") = Some true.
Proof.
  split.
  - rewrite (uri_safe_local_correct (str "a/../b")); [reflexivity| |].
    + apply (bool_decide_unpack _). vm_compute. exact I.
    + apply (bool_decide_unpack _). vm_compute. exact I.
  - rewrite (uri_safe_local_correct (str "music/.b/c")); [reflexivity| |].
    + apply (bool_decide_unpack _). vm_compute. exact I.
    + apply (bool_decide_unpack _). vm_compute. exact I.
Defined.

(** The segment behind a segment of three or more dots is not inspected: every
    such path followed by [..] and a harmless tail is accepted. *)
Theorem uri_safe_local_dots_skip n tail :
  0%Z ∉ tail → slash ∉ tail → tail ≠ [] → all_dots tail = false →
  uri_safe_local (replicate (3 + n) dot ++ slash :: dot :: dot :: slash :: tail) = Some true.
Proof.
  intros Hnz Hns Hne Had. unfold uri_safe_local. cbn [uri_safe_local_loop].
  unfold verify_uri_segment at 1. rewrite count_dots_all by done.
  rewrite drop_app_length' by (by rewrite length_replicate).
  guard_false (3 + n <=? 2). cbn [andb]. cbn [mbind option_bind].
  change (dot :: dot :: slash :: tail) with ([dot; dot] ++ slash :: tail).
  rewrite strchr_app by (vm_compute; set_solver).
  replace (drop (length [dot; dot]) ([dot; dot] ++ slash :: tail)) with (slash :: tail) by done.
  cbn [first head default]. simpl.
  rewrite length_app. simpl. rewrite Nat.add_succ_r. cbn [uri_safe_local_loop].
  rewrite drop_0. replace tail with (tail ++ []) at 1 by apply app_nil_r.
  rewrite verify_plain by (try done; by left). done.
Qed.

Lemma uri_safe_local_dots_skip_witness :
  uri_safe_local (str ".../../x") = Some true.
Proof.
  apply (uri_safe_local_dots_skip 0 (str "x")).
  - apply (bool_decide_unpack _). vm_compute. exact I.
  - apply (bool_decide_unpack _). vm_compute. exact I.
  - discriminate.
  - reflexivity.
Defined.

(** ** Rewriting and comparison *)

Lemma SkipUriScheme_known scheme rest :
  scheme ∈ schemes → SkipUriScheme schemes (scheme ++ rest) = Some rest.
Proof.
  intros H. unfold schemes in H.
  by destruct (proj1 (list_elem_of_In _ _) H) as [<-|[<-|[<-|[]]]].
Qed.

Lemma strchr_host auth rest : slash ∉ auth →
  let n := default (length (auth ++ at_sign :: rest)) (strchr (auth ++ at_sign :: rest) slash) in
  length auth < n.
Proof.
  intros Hs n. subst n. destruct (strchr _ slash) as [i|] eqn:E; simpl.
  - apply strchr_Some in E as [Hi _]. destruct (decide (length auth < i)) as [|Hle]; [done|].
    exfalso. destruct (decide (i = length auth)) as [->|Hne].
    + rewrite lookup_app_r, Nat.sub_diag in Hi by lia. done.
    + rewrite lookup_app_l in Hi by lia. apply Hs. by eapply list_elem_of_lookup_2.
  - rewrite length_app. simpl. lia.
Qed.

(** [uri_remove_auth] deletes the user information in front of the first at
    sign of the host part and nothing else. *)
Theorem uri_remove_auth_correct scheme auth rest :
  scheme ∈ schemes → slash ∉ auth → at_sign ∉ auth →
  uri_remove_auth (scheme ++ auth ++ at_sign :: rest) = scheme ++ rest.
Proof.
  intros Hsc Hs Ha. unfold uri_remove_auth. rewrite SkipUriScheme_known by done.
  pose proof (strchr_host auth rest Hs) as Hn. cbv zeta in *.
  set (n := default _ _) in *.
  assert (Ht : strchr (take n (auth ++ at_sign :: rest)) at_sign = Some (length auth)).
  { rewrite take_app_ge by lia. destruct (n - length auth) eqn:E; [lia|]. by apply strchr_app. }
  rewrite Ht. rewrite !length_app. cbn [length].
  replace (length scheme + (length auth + S (length rest)) - (length auth + S (length rest)))
    with (length scheme) by lia.
  rewrite take_app_length. f_equal.
  rewrite (cons_middle at_sign), !(assoc_L (++)).
  rewrite drop_app_length'; [done|]. rewrite !length_app. simpl. lia.
Qed.

Lemma uri_remove_auth_correct_witness :
  uri_remove_auth (str "http://user:pw@host/x@y") = str "http://host/x@y".
Proof.
  apply (uri_remove_auth_correct (str "http://") (str "user:pw") (str "host/x@y"));
    apply (bool_decide_unpack _); vm_compute; exact I.
Defined.

(** [uri_is_child] holds exactly for the URIs below [parent]. *)
Theorem uri_is_child_correct parent child :
  uri_is_child parent child = true ↔ ∃ r, child = parent ++ slash :: r.
Proof.
  unfold uri_is_child. rewrite andb_true_iff, starts_with_spec, Z.eqb_eq. split.
  - intros [[k ->] Hc]. unfold char_at in Hc. rewrite length_app in Hc.
    destruct k as [|c k].
    + by rewrite Nat.add_0_r, Nat.eqb_refl in Hc.
    + simpl in Hc. replace (length parent =? length parent + S (length k)) with false in Hc by lia.
      rewrite lookup_app_r, Nat.sub_diag in Hc by lia. simpl in Hc. subst c. by exists k.
  - intros [r ->]. split; [by exists (slash :: r)|]. unfold char_at. rewrite length_app. simpl.
    replace (length parent =? length parent + S (length r)) with false by lia.
    by rewrite lookup_app_r, Nat.sub_diag by lia.
Qed.

Lemma uri_has_scheme_spec uri :
  uri_has_scheme uri = true ↔ ∃ a b, uri = a ++ scheme_sep ++ b.
Proof.
  unfold uri_has_scheme. destruct (strstr uri scheme_sep) as [i|] eqn:E.
  - split; [|done]. intros _. apply strstr_Some in E as [E _]. eauto.
  - split; [done|]. intros (a & b & ->). by destruct (proj1 (strstr_None _ _) E a b).
Qed.

(** The suffix is what follows the last dot of the last path segment. *)
Lemma uri_get_suffix_spec uri suffix :
  uri_get_suffix uri = Some suffix →
  ∃ c pre, uri = pre ++ c :: dot :: suffix ∧ c ≠ slash ∧ c ≠ backslash ∧
    (slash ∉ suffix) ∧ (backslash ∉ suffix) ∧ (dot ∉ suffix).
Proof.
  unfold uri_get_suffix. destruct (strrchr uri dot) as [[|i]|] eqn:E; [done| |done].
  unfold strrchr in E. apply fmap_Some in E as (k & Hk & Hi).
  apply strchr_decompose in Hk as [Hk Hni].
  apply (f_equal reverse) in Hk. rewrite reverse_involutive, reverse_app, reverse_cons in Hk.
  set (tl := reverse (take k (reverse uri))) in *. set (hd := reverse (drop (S k) (reverse uri))) in *.
  rewrite <-(assoc_L (++)) in Hk. cbn [app] in Hk.
  assert (Hlen : length hd = S i).
  { assert (k < length uri) by (rewrite Hk; rewrite length_app; subst hd;
      rewrite length_reverse, length_drop, length_reverse; simpl; subst tl;
      rewrite length_reverse, length_take, length_reverse;
      destruct (decide (k < length uri)); lia).
    subst hd. rewrite length_reverse, length_drop, length_reverse. lia. }
  destruct (last hd) as [c|] eqn:El.
  2: { apply last_None in El. by rewrite El in Hlen. }
  apply last_Some in El as [pre Hpre]. rewrite Hpre in Hlen. rewrite length_app in Hlen. simpl in Hlen.
  assert (Huri : uri = pre ++ c :: dot :: tl) by (rewrite Hk, Hpre, <-(assoc_L (++)); done).
  assert (Hc : uri !! i = Some c).
  { rewrite Huri, lookup_app_r by lia. by replace (i - length pre) with 0 by lia. }
  rewrite Hc. simpl. destruct ((c =? slash) || (c =? backslash))%Z eqn:Ec; [done|].
  assert (Hd : drop (S (S i)) uri = tl).
  { rewrite Huri. change (c :: dot :: tl) with ([c; dot] ++ tl). rewrite (assoc_L (++)).
    apply drop_app_length'. rewrite length_app. simpl. lia. }
  rewrite Hd. destruct (strpbrk tl _) eqn:Ep; [done|]. intros [= <-].
  unfold strpbrk in Ep. apply fmap_None, list_find_None in Ep. rewrite Forall_forall in Ep.
  exists c, pre. split_and!; [done|lia|lia| | |].
  - intros Hin. apply (Ep _ Hin). set_solver.
  - intros Hin. apply (Ep _ Hin). set_solver.
  - subst tl. by rewrite elem_of_reverse.
Qed.

End UriUtil.
