(* ===== verification/Decimal.v ===== *)
(** * Decimal numbers

    [strtoul] and [strtol] in base ten for a 64-bit [long], and the [%u]
    conversion of [printf]: the number formats of the protocol and of the
    configuration file. *)

From Stdlib Require Import ZArith Lia ZifyBool.
From stdpp Require Import base numbers sets strings list.
From S2P Require Import Prelude CString.

Set Default Goal Selector "!".
Local Open Scope Z_scope.

Module Decimal.

Definition ULONG_MAX : Z := 2 ^ 64 - 1.
Definition LONG_MAX : Z := 2 ^ 63 - 1.
Definition LONG_MIN : Z := - 2 ^ 63.

Definition isspace (c : Z) : bool := (c =? 32) || ((9 <=? c) && (c <=? 13)).
Definition isdigit (c : Z) : bool := (48 <=? c) && (c <=? 57).

Fixpoint skip_space (s : list Z) : nat :=
  match s with
  | c :: s => if isspace c then S (skip_space s) else 0
  | [] => 0
  end.

(** The leading digits. *)
Fixpoint span_digits (s : list Z) : list Z :=
  match s with
  | c :: s => if isdigit c then c :: span_digits s else []
  | [] => []
  end.

Definition digits_value (ds : list Z) : Z := foldl (λ acc c, acc * 10 + (c - 48)) 0 ds.

(** Sign and magnitude: [(negative, digits, bytes consumed)]. *)
Definition scan (s : list Z) : bool * list Z * nat :=
  let n := skip_space s in
  let s := drop n s in
  let '(neg, k) := match s with
                   | 45 :: _ => (true, 1%nat)
                   | 43 :: _ => (false, 1%nat)
                   | _ => (false, 0%nat)
                   end in
  let ds := span_digits (drop k s) in
  (neg, ds, (n + k + length ds)%nat).

(** [strtoul(s, &end, 10)]: the value and the offset of [end]. *)
Definition strtoul (s : list Z) : Z * nat :=
  let '(neg, ds, n) := scan s in
  match ds with
  | [] => (0, 0%nat)
  | _ =>
      let v := digits_value ds in
      (if ULONG_MAX <? v then ULONG_MAX
       else if neg then (- v) mod 2 ^ 64 else v, n)
  end.

(** [strtol(s, &end, 10)] *)
Definition strtol (s : list Z) : Z * nat :=
  let '(neg, ds, n) := scan s in
  match ds with
  | [] => (0, 0%nat)
  | _ =>
      let v := if neg then - digits_value ds else digits_value ds in
      (Z.max LONG_MIN (Z.min LONG_MAX v), n)
  end.

(** [%u] *)
Fixpoint dec_digits (fuel : nat) (n : Z) : list Z :=
  match fuel with
  | O => []
  | S fuel => if n <? 10 then [48 + n] else dec_digits fuel (n / 10) ++ [48 + n mod 10]
  end.

(** Twenty digits are enough for 64 bits. *)
Definition print_unsigned (n : Z) : list Z := dec_digits 20 n.

#[global] Arguments print_unsigned : simpl never.

(** ** Printing and scanning are inverse *)

Lemma digits_value_snoc ds c : digits_value (ds ++ [c]) = digits_value ds * 10 + (c - 48).
Proof. unfold digits_value. by rewrite foldl_app. Qed.

Lemma dec_digits_ok fuel n : 0 ≤ n < 10 ^ Z.of_nat fuel →
  digits_value (dec_digits fuel n) = n ∧
  Forall (λ c, isdigit c = true) (dec_digits fuel n) ∧
  (fuel ≠ 0%nat → dec_digits fuel n ≠ []) ∧ (length (dec_digits fuel n) ≤ fuel)%nat.
Proof.
  revert n. induction fuel as [|fuel IH]; intros n Hn.
  { rewrite Z.pow_0_r in Hn. replace n with 0 by lia. done. }
  cbn [dec_digits]. rewrite Nat2Z.inj_succ, Z.pow_succ_r in Hn by lia.
  destruct (n <? 10) eqn:E.
  - unfold digits_value, isdigit. simpl. split_and!; [lia| |done|lia].
    constructor; [lia|constructor].
  - pose proof (Z.div_mod n 10 ltac:(lia)). pose proof (Z.mod_pos_bound n 10 ltac:(lia)).
    destruct (IH (n / 10)) as (Hv & Hd & _ & Hl); [lia|].
    rewrite digits_value_snoc, Hv, length_app. simpl. split_and!; [lia| |intros _|lia].
    + apply Forall_app. split; [done|]. constructor; [|constructor]. unfold isdigit. lia.
    + by destruct (dec_digits fuel (n / 10)).
Qed.

Lemma span_digits_app ds rest :
  Forall (λ c, isdigit c = true) ds → isdigit (CString.first rest) = false →
  span_digits (ds ++ rest) = ds.
Proof.
  intros Hds Hr. induction Hds as [|c ds Hc Hds IH]; simpl.
  - destruct rest as [|c rest]; [done|]. simpl. change (isdigit c = false) in Hr. by rewrite Hr.
  - by rewrite Hc, IH.
Qed.

Lemma skip_space_digit c s : isdigit c = true → skip_space (c :: s) = 0%nat.
Proof. intros H. simpl. unfold isdigit, isspace in *. by case_match; [lia|]. Qed.

Lemma scan_digits ds rest : ds ≠ [] →
  Forall (λ c, isdigit c = true) ds → isdigit (CString.first rest) = false →
  scan (ds ++ rest) = (false, ds, length ds).
Proof.
  intros Hne Hds Hr. destruct ds as [|c ds]; [done|]. unfold scan.
  pose proof (Forall_inv Hds) as Hc. change ((c :: ds) ++ rest) with (c :: (ds ++ rest)).
  rewrite skip_space_digit by done. rewrite drop_0.
  assert (H : match c with 45 => (true, 1%nat) | 43 => (false, 1%nat) | _ => (false, 0%nat) end
              = (false, 0%nat)).
  { unfold isdigit in Hc. by repeat case_match; try lia. }
  rewrite H, drop_0. change (c :: ds ++ rest) with ((c :: ds) ++ rest).
  by rewrite span_digits_app.
Qed.

Lemma print_unsigned_ok n rest : 0 ≤ n ≤ ULONG_MAX → isdigit (CString.first rest) = false →
  strtoul (print_unsigned n ++ rest) = (n, length (print_unsigned n)).
Proof.
  intros Hn Hr. unfold print_unsigned, ULONG_MAX in *.
  destruct (dec_digits_ok 20 n) as (Hv & Hd & Hne & _); [simpl; lia|].
  unfold strtoul. rewrite scan_digits by auto.
  destruct (dec_digits 20 n) as [|c ds] eqn:E; [by destruct Hne|]. rewrite Hv.
  unfold ULONG_MAX. by case_match; [lia|].
Qed.

Lemma print_unsigned_digits n : 0 ≤ n ≤ ULONG_MAX →
  Forall (λ c, isdigit c = true) (print_unsigned n) ∧ print_unsigned n ≠ [].
Proof.
  intros Hn. unfold ULONG_MAX, print_unsigned in *.
  destruct (dec_digits_ok 20 n) as (_ & Hd & Hne & _); [simpl; lia|]. split; [done|]. by apply Hne.
Qed.

(** Extra fuel changes nothing. *)
Lemma dec_digits_fuel fuel k n : 0 ≤ n < 10 ^ Z.of_nat fuel → fuel ≠ 0%nat →
  dec_digits (fuel + k) n = dec_digits fuel n.
Proof.
  revert n. induction fuel as [|fuel IH]; intros n Hn Hf; [done|].
  cbn [dec_digits Nat.add]. destruct (n <? 10) eqn:E; [done|].
  rewrite Nat2Z.inj_succ, Z.pow_succ_r in Hn by lia.
  pose proof (Z.div_mod n 10 ltac:(lia)). pose proof (Z.mod_pos_bound n 10 ltac:(lia)).
  destruct fuel as [|fuel]; [simpl in Hn; lia|]. rewrite IH by lia. done.
Qed.

Lemma print_short n : 0 ≤ n < 10 ^ 10 → print_unsigned n = dec_digits 10 n.
Proof. intros H. by apply (dec_digits_fuel 10 10). Qed.

(** The same for [strtol]. *)
Lemma strtol_print n rest : 0 ≤ n ≤ LONG_MAX → isdigit (CString.first rest) = false →
  strtol (print_unsigned n ++ rest) = (n, length (print_unsigned n)).
Proof.
  intros Hn Hr. unfold print_unsigned, LONG_MAX in *.
  destruct (dec_digits_ok 20 n) as (Hv & Hd & Hne & _); [simpl; lia|].
  unfold strtol. rewrite scan_digits by auto.
  destruct (dec_digits 20 n) as [|c ds] eqn:E; [by destruct Hne|]. rewrite Hv.
  unfold LONG_MIN, LONG_MAX. by rewrite Z.min_r, Z.max_r by lia.
Qed.

(** ** Ranges *)

Lemma span_digits_isdigit s : Forall (λ c, isdigit c = true) (span_digits s).
Proof.
  induction s as [|c s IH]; simpl; [constructor|]. destruct (isdigit c) eqn:E; by constructor.
Qed.

Lemma digits_value_nonneg ds : Forall (λ c, isdigit c = true) ds → 0 ≤ digits_value ds.
Proof.
  induction ds as [|c ds IH] using rev_ind; [done|].
  intros [Hds Hc]%Forall_app. rewrite digits_value_snoc. apply Forall_inv in Hc.
  unfold isdigit in Hc. specialize (IH Hds). lia.
Qed.

Lemma scan_isdigit s neg ds n : scan s = (neg, ds, n) → Forall (λ c, isdigit c = true) ds.
Proof.
  unfold scan. intros H. destruct (match drop (skip_space s) s with
    | 45 :: _ => (true, 1%nat) | 43 :: _ => (false, 1%nat) | _ => (false, 0%nat) end) as [neg' k].
  injection H as <- <- <-. apply span_digits_isdigit.
Qed.

Lemma strtoul_range s : 0 ≤ (strtoul s).1 ≤ ULONG_MAX.
Proof.
  unfold strtoul. destruct (scan s) as [[neg ds] n] eqn:E. apply scan_isdigit in E.
  pose proof (digits_value_nonneg ds E). unfold ULONG_MAX.
  destruct ds as [|d ds]; simpl; [done|]. case_match; [lia|].
  destruct neg; [|lia]. pose proof (Z.mod_pos_bound (- digits_value (d :: ds)) (2 ^ 64)). lia.
Qed.

Lemma strtol_range s : LONG_MIN ≤ (strtol s).1 ≤ LONG_MAX.
Proof.
  unfold strtol. destruct (scan s) as [[neg ds] n]. unfold LONG_MIN, LONG_MAX.
  destruct ds; simpl; lia.
Qed.

End Decimal.
