(* ===== verification/AudioFormat.v ===== *)
(** * Audio formats

    [AudioFormat.hxx], [AudioFormat.cxx], [CheckAudioFormat.cxx] and
    [AudioParser.cxx]: the description of a PCM stream, its validation, its textual
    form and the parser of the configuration values. *)

From Stdlib Require Import ZArith Lia ZifyBool.
From stdpp Require Import base numbers sets strings list.
From S2P Require Import Prelude CString Decimal.

Set Default Goal Selector "!".
Local Open Scope Z_scope.

Module AudioFormat.
Import CString Decimal.

(** [enum class SampleFormat] *)
Inductive SampleFormat :=
| UNDEFINED | S8 | S16 | S24_P32 | S32 | FLOAT | DSD.

#[global] Instance SampleFormat_eq_dec : EqDecision SampleFormat.
Proof. solve_decision. Defined.

(** [struct AudioFormat]: a [uint32_t] rate and a [uint8_t] channel count. *)
Record AudioFormat := mkAudioFormat {
  sample_rate : Z;
  format : SampleFormat;
  channels : Z;
}.

#[global] Instance AudioFormat_eq_dec : EqDecision AudioFormat.
Proof. solve_decision. Defined.

Definition MAX_CHANNELS : Z := 8.

Definition Undefined : AudioFormat := mkAudioFormat 0 UNDEFINED 0.
Definition Clear (_ : AudioFormat) : AudioFormat := Undefined.

Definition is_undefined (f : SampleFormat) : bool :=
  match f with UNDEFINED => true | _ => false end.

Definition IsDefined (af : AudioFormat) : bool := negb (sample_rate af =? 0).

Definition IsFullyDefined (af : AudioFormat) : bool :=
  negb (sample_rate af =? 0) && negb (is_undefined (format af)) && negb (channels af =? 0).

Definition IsMaskDefined (af : AudioFormat) : bool :=
  negb (sample_rate af =? 0) || negb (is_undefined (format af)) || negb (channels af =? 0).

(** The parameters are [unsigned]: a wider argument is truncated by the caller. *)
Definition audio_valid_sample_rate (sample_rate : Z) : bool :=
  (0 <? sample_rate) && (sample_rate <? 2 ^ 30).

Definition audio_valid_sample_format (f : SampleFormat) : bool :=
  match f with
  | S8 | S16 | S24_P32 | S32 | FLOAT | DSD => true
  | UNDEFINED => false
  end.

Definition audio_valid_channel_count (channels : Z) : bool :=
  (1 <=? channels) && (channels <=? MAX_CHANNELS).

Definition IsValid (af : AudioFormat) : bool :=
  audio_valid_sample_rate (sample_rate af) && audio_valid_sample_format (format af) &&
  audio_valid_channel_count (channels af).

Definition IsMaskValid (af : AudioFormat) : bool :=
  ((sample_rate af =? 0) || audio_valid_sample_rate (sample_rate af)) &&
  (is_undefined (format af) || audio_valid_sample_format (format af)) &&
  ((channels af =? 0) || audio_valid_channel_count (channels af)).

Definition ApplyMask (mask af : AudioFormat) : option AudioFormat :=
  assert! IsValid af ;;
  assert! IsMaskValid mask ;;
  let af := mkAudioFormat
    (if negb (sample_rate mask =? 0) then sample_rate mask else sample_rate af)
    (if negb (is_undefined (format mask)) then format mask else format af)
    (if negb (channels mask =? 0) then channels mask else channels af) in
  assert! IsValid af ;;
  Some af.

Definition sample_format_size (f : SampleFormat) : Z :=
  match f with
  | S8 => 1
  | S16 => 2
  | S24_P32 | S32 | FLOAT => 4
  | DSD => 1
  | UNDEFINED => 0
  end.

Definition GetSampleSize (af : AudioFormat) : Z := sample_format_size (format af).
Definition GetFrameSize (af : AudioFormat) : Z := GetSampleSize af * channels af.

Definition sample_format_to_string (f : SampleFormat) : list Z :=
  match f with
  | UNDEFINED => str "?"
  | S8 => str "8"
  | S16 => str "16"
  | S24_P32 => str "24"
  | S32 => str "32"
  | FLOAT => str "f"
  | DSD => str "dsd"
  end.

Definition colon : Z := 58.
Definition star : Z := 42.

(** [snprintf] into a buffer of 24 bytes: at most 23 characters are kept. *)
Definition audio_format_to_string (af : AudioFormat) : list Z :=
  take 23 (print_unsigned (sample_rate af) ++ colon :: sample_format_to_string (format af)
           ++ colon :: print_unsigned (channels af)).

(** ** Validation and parsing *)

Inductive AudioError :=
| InvalidSampleRate (v : Z)
| InvalidSampleFormat (v : Z)
| InvalidChannelCount (v : Z)
| ParseSampleRateFailed
| ParseSampleFormatFailed
| ParseChannelCountFailed
| SampleFormatMissing
| ChannelCountMissing
| ExtraData (rest : list Z).

(** Conversion of an [unsigned long] argument to [unsigned]. *)
Definition to_unsigned (v : Z) : Z := v mod 2 ^ 32.

Definition format_index (f : SampleFormat) : Z :=
  match f with
  | UNDEFINED => 0 | S8 => 1 | S16 => 2 | S24_P32 => 3 | S32 => 4 | FLOAT => 5 | DSD => 6
  end.

Definition CheckSampleRate (v : Z) : outcome AudioError unit :=
  if negb (audio_valid_sample_rate (to_unsigned v)) then Throw (InvalidSampleRate v) else Ret tt.

Definition CheckSampleFormat (f : SampleFormat) : outcome AudioError unit :=
  if negb (audio_valid_sample_format f) then Throw (InvalidSampleFormat (format_index f))
  else Ret tt.

Definition CheckChannelCount (v : Z) : outcome AudioError unit :=
  if negb (audio_valid_channel_count v) then Throw (InvalidChannelCount v) else Ret tt.

Definition CheckAudioFormat (rate : Z) (f : SampleFormat) (ch : Z) : outcome AudioError AudioFormat :=
  CheckSampleRate rate ≫= λ _,
  CheckSampleFormat f ≫= λ _,
  CheckChannelCount ch ≫= λ _,
  Ret (mkAudioFormat (to_unsigned rate) f (ch mod 2 ^ 8)).

(** The parsers return the value and the rest of the input. *)
Definition ParseSampleRate (src : list Z) (mask : bool) : outcome AudioError (Z * list Z) :=
  if mask && (first src =? star) then Ret (0, drop 1 src)
  else
    let '(value, endp) := strtoul src in
    if (endp =? 0)%nat then Throw ParseSampleRateFailed
    else if negb (audio_valid_sample_rate (to_unsigned value)) then
      Throw (InvalidSampleRate value)
    else Ret (to_unsigned value, drop endp src).

Definition ParseSampleFormat (src : list Z) (mask : bool)
    : outcome AudioError (SampleFormat * list Z) :=
  if mask && (first src =? star) then Ret (UNDEFINED, drop 1 src)
  else if first src =? 102 then Ret (FLOAT, drop 1 src)
  else if starts_with src (str "dsd") then Ret (DSD, drop 3 src)
  else
    let '(value, endp) := strtoul src in
    if (endp =? 0)%nat then Throw ParseSampleFormatFailed
    else
      let rest := drop endp src in
      if value =? 8 then Ret (S8, rest)
      else if value =? 16 then Ret (S16, rest)
      else if value =? 24 then
        Ret (S24_P32, if starts_with rest (str "_3") then drop 2 rest else rest)
      else if value =? 32 then Ret (S32, rest)
      else Throw (InvalidSampleFormat value).

Definition ParseChannelCount (src : list Z) (mask : bool) : outcome AudioError (Z * list Z) :=
  if mask && (first src =? star) then Ret (0, drop 1 src)
  else
    let '(value, endp) := strtoul src in
    if (endp =? 0)%nat then Throw ParseChannelCountFailed
    else if negb (audio_valid_channel_count (to_unsigned value)) then
      Throw (InvalidChannelCount (to_unsigned value))
    else Ret (value mod 2 ^ 8, drop endp src).

Definition ParseAudioFormat (src : list Z) (mask : bool) : outcome AudioError AudioFormat :=
  ParseSampleRate src mask ≫= λ '(rate, src),
  if negb (first src =? colon) then Throw SampleFormatMissing
  else
    ParseSampleFormat (drop 1 src) mask ≫= λ '(f, src),
    if negb (first src =? colon) then Throw ChannelCountMissing
    else
      ParseChannelCount (drop 1 src) mask ≫= λ '(ch, src),
      if negb (first src =? 0) then Throw (ExtraData src)
      else
        let dest := mkAudioFormat rate f ch in
        if (if mask then IsMaskValid dest else IsValid dest) then Ret dest else Abort.

(** ** Properties *)

Lemma to_unsigned_range v : 0 ≤ to_unsigned v < 2 ^ 32.
Proof. apply Z.mod_pos_bound. lia. Qed.

Lemma ParseSampleRate_valid src mask r rest :
  ParseSampleRate src mask = Ret (r, rest) →
  (mask = true ∧ r = 0) ∨ audio_valid_sample_rate r = true.
Proof.
  unfold ParseSampleRate. destruct (mask && _) eqn:E.
  - intros [= <- <-]. left. by apply andb_true_iff in E as [-> _].
  - destruct (strtoul src) as [v e]. case_match; [done|]. case_match eqn:Hv; [done|].
    intros [= <- <-]. right. by apply negb_false_iff in Hv.
Qed.

Lemma ParseSampleFormat_valid src mask f rest :
  ParseSampleFormat src mask = Ret (f, rest) →
  (mask = true ∧ f = UNDEFINED) ∨ audio_valid_sample_format f = true.
Proof.
  unfold ParseSampleFormat. destruct (mask && _) eqn:E.
  - intros [= <- <-]. left. by apply andb_true_iff in E as [-> _].
  - right. destruct (strtoul src). by repeat case_match; simplify_eq.
Qed.

Lemma channel_count_byte v : audio_valid_channel_count (to_unsigned v) = true →
  v mod 2 ^ 8 = to_unsigned v.
Proof.
  unfold audio_valid_channel_count, MAX_CHANNELS, to_unsigned. intros H.
  rewrite <-(Z.mod_small (v mod 2 ^ 32) (2 ^ 8)) by lia.
  symmetry. apply Z.mod_mod_divide. by exists (2 ^ 24).
Qed.

Lemma ParseChannelCount_valid src mask c rest :
  ParseChannelCount src mask = Ret (c, rest) →
  (mask = true ∧ c = 0) ∨ audio_valid_channel_count c = true.
Proof.
  unfold ParseChannelCount. destruct (mask && _) eqn:E.
  - intros [= <- <-]. left. by apply andb_true_iff in E as [-> _].
  - destruct (strtoul src) as [v e]. case_match; [done|]. case_match eqn:Hv; [done|].
    apply negb_false_iff in Hv. intros [= <- <-]. right. by rewrite channel_count_byte.
Qed.

(** C39: [ParseAudioFormat] never violates its closing assertion: it returns a
    valid format (a valid mask when [mask] is set) or throws. *)
Theorem ParseAudioFormat_valid src mask :
  match ParseAudioFormat src mask with
  | Ret af => (if mask then IsMaskValid af else IsValid af) = true
  | Throw _ => True
  | Abort => False
  end.
Proof.
  unfold ParseAudioFormat.
  destruct (ParseSampleRate src mask) as [[r s1]|e|] eqn:E1; simpl; [|done|].
  2: { unfold ParseSampleRate in E1. destruct (strtoul src). by repeat case_match. }
  destruct (negb (first s1 =? colon)); [done|].
  destruct (ParseSampleFormat (drop 1 s1) mask) as [[f s2]|e|] eqn:E2; simpl; [|done|].
  2: { unfold ParseSampleFormat in E2. destruct (strtoul (drop 1 s1)). by repeat case_match. }
  destruct (negb (first s2 =? colon)); [done|].
  destruct (ParseChannelCount (drop 1 s2) mask) as [[c s3]|e|] eqn:E3; simpl; [|done|].
  2: { unfold ParseChannelCount in E3. destruct (strtoul (drop 1 s2)). by repeat case_match. }
  destruct (negb (first s3 =? 0)); [done|].
  apply ParseSampleRate_valid in E1. apply ParseSampleFormat_valid in E2.
  apply ParseChannelCount_valid in E3.
  assert (Hok : (if mask then IsMaskValid (mkAudioFormat r f c) else IsValid (mkAudioFormat r f c))
    = true).
  { unfold IsMaskValid, IsValid; simpl.
    destruct mask, E1 as [[? ->]|E1], E2 as [[? ->]|E2], E3 as [[? ->]|E3];
      rewrite ?E1, ?E2, ?E3; simpl; rewrite ?orb_true_r; done. }
  rewrite Hok. done.
Qed.

(** Printing a valid format and parsing the text gives the format back. *)
Theorem audio_format_roundtrip af :
  IsValid af = true → ParseAudioFormat (audio_format_to_string af) false = Ret af.
Proof.
  destruct af as [r f c]. unfold IsValid. cbn [sample_rate format channels].
  rewrite !andb_true_iff. intros [[Hr Hf] Hc].
  unfold audio_valid_sample_rate, audio_valid_channel_count, MAX_CHANNELS in *.
  unfold audio_format_to_string. cbn [sample_rate format channels].
  destruct (dec_digits_ok 10 r) as (_ & _ & _ & Hl); [simpl; lia|].
  assert (Hp10 : print_unsigned r = dec_digits 10 r) by (apply print_short; lia).
  assert (Hc1 : print_unsigned c = [48 + c]).
  { unfold print_unsigned. cbn [dec_digits]. by replace (c <? 10) with true by lia. }
  rewrite take_ge.
  2: { rewrite <-Hp10 in Hl. rewrite Hc1, !length_app. cbn [length]. rewrite length_app.
       cbn [length]. destruct f; cbn; lia. }
  unfold ParseAudioFormat, ParseSampleRate. cbn [andb].
  rewrite print_unsigned_ok by (unfold ULONG_MAX; try lia; done).
  destruct (print_unsigned_digits r) as [_ Hne]; [unfold ULONG_MAX; lia|].
  destruct (print_unsigned r) as [|d ds] eqn:Ep; [done|]. rewrite <-Ep.
  replace (length (print_unsigned r) =? 0)%nat with false by (rewrite Ep; done).
  unfold to_unsigned. rewrite (Z.mod_small r) by lia. unfold audio_valid_sample_rate.
  replace ((0 <? r) && (r <? 2 ^ 30)) with true by lia. cbn [negb].
  rewrite drop_app_length. cbn [mbind outcome_bind]. rewrite Hc1.
  assert (HV : IsValid (mkAudioFormat r f c) = true).
  { unfold IsValid, audio_valid_sample_rate, audio_valid_channel_count, MAX_CHANNELS.
    simpl. rewrite Hf. lia. }
  assert (Hcs : c = 1 ∨ c = 2 ∨ c = 3 ∨ c = 4 ∨ c = 5 ∨ c = 6 ∨ c = 7 ∨ c = 8) by lia.
  destruct f; try done;
    (destruct Hcs as [->|[->|[->|[->|[->|[->|[->| ->]]]]]]]; cbv -[IsValid]; by rewrite HV).
Qed.

Lemma audio_format_roundtrip_witness :
  ParseAudioFormat (audio_format_to_string (mkAudioFormat 44100 S16 2)) false
  = Ret (mkAudioFormat 44100 S16 2).
Proof. apply (audio_format_roundtrip (mkAudioFormat 44100 S16 2)). reflexivity. Defined.

(** [ApplyMask] succeeds on every valid format and valid mask, returns a valid
    format, takes every attribute the mask defines, and is idempotent. *)
Theorem ApplyMask_correct mask af :
  IsValid af = true → IsMaskValid mask = true →
  ∃ af', ApplyMask mask af = Some af' ∧ IsValid af' = true ∧
    (sample_rate mask ≠ 0 → sample_rate af' = sample_rate mask) ∧
    (format mask ≠ UNDEFINED → format af' = format mask) ∧
    (channels mask ≠ 0 → channels af' = channels mask) ∧
    (IsMaskDefined mask = false → af' = af) ∧
    ApplyMask mask af' = Some af'.
Proof.
  intros Hv Hm. unfold ApplyMask. rewrite Hv, Hm. cbn [check mbind option_bind].
  destruct af as [r f c], mask as [mr mf mc].
  cbn [sample_rate format channels] in *.
  assert (Hv' : IsValid (mkAudioFormat (if negb (mr =? 0) then mr else r)
    (if negb (is_undefined mf) then mf else f) (if negb (mc =? 0) then mc else c)) = true).
  { unfold IsValid, IsMaskValid in *. cbn [sample_rate format channels] in *.
    destruct (mr =? 0), (is_undefined mf), (mc =? 0); simpl in *; lia. }
  rewrite Hv'. cbn [check mbind option_bind]. eexists. split_and!; [done|done|..].
  - simpl. intros. by replace (mr =? 0) with false by lia.
  - simpl. by destruct mf.
  - simpl. intros. by replace (mc =? 0) with false by lia.
  - unfold IsMaskDefined. simpl. destruct (mr =? 0), (is_undefined mf), (mc =? 0); done.
  - cbn [sample_rate format channels]. rewrite Hv'. cbn [check mbind option_bind].
    destruct (mr =? 0), (is_undefined mf), (mc =? 0); cbn [negb] in *; rewrite ?Hv'; done.
Qed.

Lemma ApplyMask_correct_witness :
  ∃ af', ApplyMask (mkAudioFormat 48000 UNDEFINED 0) (mkAudioFormat 44100 S16 2) = Some af' ∧
    sample_rate af' = 48000.
Proof.
  destruct (ApplyMask_correct (mkAudioFormat 48000 UNDEFINED 0) (mkAudioFormat 44100 S16 2))
    as (af' & H & _ & Hr & _); [reflexivity|reflexivity|].
  exists af'. split; [exact H|]. apply Hr. discriminate.
Defined.

End AudioFormat.
