(* ===== verification/Tokenizer.v ===== *)
(** * Tokenizer

    [util/CharUtil.hxx], [StripLeft] and [StripRight] of [util/StringUtil.cxx],
    and [util/Tokenizer.cxx]: the splitter for protocol lines.  It works in
    place: the words are pointers into the line, whose bytes are overwritten by
    terminators and by the unescaped text of quoted strings.  The model keeps the
    buffer and the pointers; [next_*] are the corresponding functions on the text
    alone, and the theorems relate the two. *)

From Stdlib Require Import ZArith Lia ZifyBool.
From stdpp Require Import base numbers sets strings list.
From S2P Require Import Prelude.

Set Default Goal Selector "!".

Module Tokenizer.
Local Open Scope Z_scope.

(** ** Character classes; a [char] is its unsigned value *)

Definition IsWhitespaceOrNull (ch : Z) : bool := ch <=? 32.
Definition IsWhitespaceNotNull (ch : Z) : bool := (0 <? ch) && (ch <=? 32).
Definition IsWhitespaceFast (ch : Z) : bool := IsWhitespaceOrNull ch.
Definition IsDigitASCII (ch : Z) : bool := (48 <=? ch) && (ch <=? 57).
Definition IsUpperAlphaASCII (ch : Z) : bool := (65 <=? ch) && (ch <=? 90).
Definition IsLowerAlphaASCII (ch : Z) : bool := (97 <=? ch) && (ch <=? 122).
Definition IsAlphaASCII (ch : Z) : bool := IsUpperAlphaASCII ch || IsLowerAlphaASCII ch.
Definition IsAlphaNumericASCII (ch : Z) : bool := IsAlphaASCII ch || IsDigitASCII ch.

Definition valid_word_first_char (ch : Z) : bool := IsAlphaASCII ch.
Definition valid_word_char (ch : Z) : bool := IsAlphaNumericASCII ch || (ch =? 95).
Definition valid_unquoted_char (ch : Z) : bool :=
  (32 <? ch) && negb (ch =? 34) && negb (ch =? 39).

(** ** The buffer *)

#[local] Abbreviation buffer := (list Z).

(** The exceptions, by their messages. *)
Inductive error :=
| LetterExpected
| InvalidWordCharacter
| InvalidUnquotedCharacter
| QuoteExpected
| MissingClosingQuote
| SpaceExpected.

Definition quote_mark : string := String (Ascii.ascii_of_nat 34) EmptyString.
Definition what (e : error) : string :=
  match e with
  | LetterExpected => "Letter expected"
  | InvalidWordCharacter => "Invalid word character"
  | InvalidUnquotedCharacter => "Invalid unquoted character"
  | QuoteExpected => "'" +:+ quote_mark +:+ "' expected"
  | MissingClosingQuote => "Missing closing '" +:+ quote_mark +:+ "'"
  | SpaceExpected => "Space expected after closing '" +:+ quote_mark +:+ "'"
  end.

#[local] Abbreviation run := (outcome error).

Definition rd (buf : buffer) (p : nat) : run Z := of_option (buf !! p).
Definition wr (buf : buffer) (p : nat) (c : Z) : run buffer := of_option (store p c buf).

(** The string at [p]: the bytes up to the terminator. *)
Fixpoint until_nul (s : list Z) : list Z :=
  match s with
  | [] => []
  | c :: s => if c =? 0 then [] else c :: until_nul s
  end.
Definition c_str (buf : buffer) (p : nat) : list Z := until_nul (drop p buf).

(** [StripLeft(p)] *)
Fixpoint StripLeft (fuel : nat) (buf : buffer) (p : nat) : run nat :=
  match fuel with
  | O => Abort
  | S fuel =>
      c ← rd buf p;
      if IsWhitespaceNotNull c then StripLeft fuel buf (S p) else mret p
  end.

(** [StripRight(p, end)] on the bytes in front of [end]. *)
Fixpoint StripRight_rev (r : list Z) : list Z :=
  match r with
  | [] => []
  | c :: r' => if IsWhitespaceOrNull c then StripRight_rev r' else r
  end.
Definition StripRight (s : list Z) : list Z := reverse (StripRight_rev (reverse s)).

(** ** The tokenizer: the buffer and the pointer [input] *)

Record tokenizer := mkTokenizer { line : buffer; input : nat }.

(** The loop over the remaining characters of a word. *)
Fixpoint word_loop (valid : Z → bool) (msg : error) (fuel : nat) (t : tokenizer)
    : run tokenizer :=
  match fuel with
  | O => Abort
  | S fuel =>
      let p := S (input t) in
      c ← rd (line t) p;
      if c =? 0 then mret (mkTokenizer (line t) p)
      else if IsWhitespaceFast c then
        buf ← wr (line t) p 0;
        q ← StripLeft (length buf) buf (S p);
        mret (mkTokenizer buf q)
      else if negb (valid c) then Throw msg
      else word_loop valid msg fuel (mkTokenizer (line t) p)
  end.

Definition NextWord (t : tokenizer) : run (option nat * tokenizer) :=
  let word := input t in
  c ← rd (line t) (input t);
  if c =? 0 then mret (None, t)
  else if negb (valid_word_first_char c) then Throw LetterExpected
  else
    t ← word_loop valid_word_char InvalidWordCharacter (length (line t)) t;
    mret (Some word, t).

Definition NextUnquoted (t : tokenizer) : run (option nat * tokenizer) :=
  let word := input t in
  c ← rd (line t) (input t);
  if c =? 0 then mret (None, t)
  else if negb (valid_unquoted_char c) then Throw InvalidUnquotedCharacter
  else
    t ← word_loop valid_unquoted_char InvalidUnquotedCharacter (length (line t)) t;
    mret (Some word, t).

(** The copy loop of [NextString]; the result holds the position of the closing
    quote and of [dest]. *)
Fixpoint string_loop (fuel : nat) (buf : buffer) (p dest : nat) : run (buffer * nat * nat) :=
  match fuel with
  | O => Abort
  | S fuel =>
      c ← rd buf p;
      if c =? 34 then mret (buf, p, dest)
      else
        let p := if c =? 92 then S p else p in
        c ← rd buf p;
        if c =? 0 then Throw MissingClosingQuote
        else
          buf ← wr buf dest c;
          string_loop fuel buf (S p) (S dest)
  end.

Definition NextString (t : tokenizer) : run (option nat * tokenizer) :=
  let word := input t in
  c ← rd (line t) (input t);
  if c =? 0 then mret (None, t)
  else if negb (c =? 34) then Throw QuoteExpected
  else
    r ← string_loop (length (line t)) (line t) (S (input t)) word;
    let '(buf, p, dest) := r in
    let p := S p in
    c ← rd buf p;
    if negb (IsWhitespaceFast c) then Throw SpaceExpected
    else
      buf ← wr buf dest 0;
      q ← StripLeft (length buf) buf p;
      mret (Some word, mkTokenizer buf q).

Definition NextParam (t : tokenizer) : run (option nat * tokenizer) :=
  c ← rd (line t) (input t);
  if c =? 34 then NextString t else NextUnquoted t.

(** ** The same functions on the text alone *)

Fixpoint strip (s : list Z) : list Z :=
  match s with
  | [] => []
  | c :: s' => if IsWhitespaceNotNull c then strip s' else s
  end.

(** The rest of a word: its characters and the text behind it. *)
Fixpoint span_word (valid : Z → bool) (msg : error) (s : list Z)
    : run (list Z * list Z) :=
  match s with
  | [] => mret ([], [])
  | c :: s =>
      if IsWhitespaceFast c then mret ([], strip s)
      else if negb (valid c) then Throw msg
      else r ← span_word valid msg s; mret (c :: r.1, r.2)
  end.

(** The text up to the closing quote, unescaped, and the text behind the quote. *)
Fixpoint span_string (s : list Z) : run (list Z * list Z) :=
  match s with
  | [] => Throw MissingClosingQuote
  | c :: s =>
      if c =? 34 then mret ([], s)
      else if c =? 92 then
        match s with
        | [] => Throw MissingClosingQuote
        | d :: s => r ← span_string s; mret (d :: r.1, r.2)
        end
      else r ← span_string s; mret (c :: r.1, r.2)
  end.

Definition next_word (first valid : Z → bool) (e1 e2 : error) (s : list Z)
    : run (option (list Z * list Z)) :=
  match s with
  | [] => mret None
  | c :: s =>
      if negb (first c) then Throw e1
      else r ← span_word valid e2 s; mret (Some (c :: r.1, r.2))
  end.

Definition next_string (s : list Z) : run (option (list Z * list Z)) :=
  r ← span_string s;
  match r.2 with
  | c :: _ => if negb (IsWhitespaceFast c) then Throw SpaceExpected
              else mret (Some (r.1, strip r.2))
  | [] => mret (Some (r.1, []))
  end.

Definition next_param (s : list Z) : run (option (list Z * list Z)) :=
  match s with
  | 34 :: s' => next_string s'
  | _ => next_word valid_unquoted_char valid_unquoted_char InvalidUnquotedCharacter
           InvalidUnquotedCharacter s
  end.

(** ** Strings in the buffer *)

(** [buf] holds the string [s] and its terminator at [p]. *)
Fixpoint cstr (buf : buffer) (p : nat) (s : list Z) : Prop :=
  match s with
  | [] => buf !! p = Some 0
  | c :: s => buf !! p = Some c ∧ c ≠ 0 ∧ cstr buf (S p) s
  end.

Lemma cstr_end buf p s : cstr buf p s → buf !! (p + length s)%nat = Some 0.
Proof.
  revert p. induction s as [|c s IH]; intros p; simpl.
  - by rewrite Nat.add_0_r.
  - intros (_ & _ & H). rewrite Nat.add_succ_r. by apply (IH (S p)).
Qed.

Lemma cstr_lt buf p s : cstr buf p s → (p + length s < length buf)%nat.
Proof. intros H%cstr_end. by eapply lookup_lt_Some. Qed.

Lemma cstr_agree buf buf' p s :
  cstr buf p s → (∀ i, (p ≤ i ≤ p + length s)%nat → buf' !! i = buf !! i) → cstr buf' p s.
Proof.
  revert p. induction s as [|c s IH]; intros p; simpl.
  - intros H Hag. rewrite Hag; [done|lia].
  - intros (H & Hc & Hs) Hag. rewrite Hag by lia. split_and!; [done|done|].
    apply IH; [done|]. intros i Hi. apply Hag. lia.
Qed.

Lemma cstr_c_str buf p s : cstr buf p s → c_str buf p = s.
Proof.
  unfold c_str. revert p. induction s as [|c s IH]; intros p; simpl.
  - intros H. rewrite (drop_S _ 0) by done. done.
  - intros (H & Hc & Hs). rewrite (drop_S _ c) by done. simpl.
    rewrite (proj2 (Z.eqb_neq c 0)) by done. f_equal. by apply IH.
Qed.

Lemma cstr_app buf p s s' : cstr buf p (s ++ s') → cstr buf (p + length s) s'.
Proof.
  revert p. induction s as [|c s IH]; intros p; simpl.
  - by rewrite Nat.add_0_r.
  - intros (_ & _ & H). rewrite Nat.add_succ_r. by apply (IH (S p)).
Qed.

Lemma cstr_intro pre s post : 0 ∉ s → cstr (pre ++ s ++ 0 :: post) (length pre) s.
Proof.
  revert pre. induction s as [|c s IH]; intros pre Hs; simpl.
  - by rewrite list_lookup_middle.
  - rewrite list_lookup_middle by done. split_and!; [done|set_solver|].
    specialize (IH (pre ++ [c])). rewrite length_app, <-app_assoc in IH. simpl in IH.
    rewrite Nat.add_1_r in IH. apply IH. set_solver.
Qed.

(** ** The buffer operations implement the functions on the text *)

Lemma StripLeft_ok fuel buf p s :
  cstr buf p s → (length s < fuel)%nat →
  ∃ q, StripLeft fuel buf p = Ret q ∧ (p ≤ q)%nat ∧ cstr buf q (strip s).
Proof.
  revert p s. induction fuel as [|fuel IH]; intros p s Hs Hf; [lia|].
  destruct s as [|c s]; simpl in *.
  - unfold rd. rewrite Hs. simpl. by exists p.
  - destruct Hs as (Hp & Hc & Hs). unfold rd. rewrite Hp. simpl.
    destruct (IsWhitespaceNotNull c).
    + destruct (IH (S p) s) as (q & -> & Hq & Hs'); [done|lia|]. exists q. split_and!; [done|lia|done].
    + exists p. split_and!; [done|lia|done].
Qed.

(** What a scanner that starts a word at [p] leaves behind: the word [w] at [p],
    the tokenizer in front of the text [rest], nothing changed below [p]. *)
Record word_at (buf : buffer) (p : nat) (w rest : list Z) (t' : tokenizer) : Prop := {
  wa_length : length (line t') = length buf;
  wa_frame : ∀ i, (i < p)%nat → line t' !! i = buf !! i;
  wa_word : cstr (line t') p w;
  wa_rest : cstr (line t') (input t') rest;
  wa_order : (p + length w < input t')%nat ∨ rest = [];
  wa_advance : (p ≤ input t')%nat
}.

Lemma write_nul_ok buf p w p' s :
  (p ≤ p' < length buf)%nat → cstr (<[p' := 0]> buf) p w → (p + length w = p')%nat →
  cstr buf (S p') s →
  ∃ q, StripLeft (length (<[p' := 0]> buf)) (<[p' := 0]> buf) (S p') = Ret q ∧
    word_at buf p w (strip s) (mkTokenizer (<[p' := 0]> buf) q).
Proof.
  intros Hp Hw Hlen Hs.
  assert (Hs' : cstr (<[p' := 0]> buf) (S p') s).
  { eapply cstr_agree; [done|]. intros i Hi. apply list_lookup_insert_ne. lia. }
  destruct (StripLeft_ok (length (<[p' := 0]> buf)) (<[p' := 0]> buf) (S p') s)
    as (q & -> & Hq & Hr); [done|apply cstr_lt in Hs'; lia|].
  exists q. split; [done|]. split; simpl; [by rewrite length_insert| |done|done|left; lia|lia].
  intros i Hi. apply list_lookup_insert_ne. lia.
Qed.

Lemma word_loop_ok valid msg fuel buf p s :
  cstr buf (S p) s → (length s < fuel)%nat →
  match span_word valid msg s with
  | Ret (w, rest) =>
      ∃ t', word_loop valid msg fuel (mkTokenizer buf p) = Ret t' ∧ word_at buf (S p) w rest t'
  | Throw e => word_loop valid msg fuel (mkTokenizer buf p) = Throw e
  | Abort => False
  end.
Proof.
  revert p s. induction fuel as [|fuel IH]; intros p s Hs Hf; [lia|].
  destruct s as [|c s]; simpl in *; unfold rd.
  - rewrite Hs. simpl. eexists. split; [done|].
    split; simpl; [done|done|done|done|by right|lia].
  - pose proof (cstr_lt buf (S p) (c :: s) Hs) as Hlt. simpl in Hlt.
    destruct Hs as (Hp & Hc & Hs). rewrite Hp. simpl. rewrite (proj2 (Z.eqb_neq c 0)) by done.
    destruct (IsWhitespaceFast c) eqn:Ew.
    + unfold wr. rewrite store_Some by lia. cbn [of_option mbind outcome_bind].
      destruct (write_nul_ok buf (S p) [] (S p) s) as (q & -> & Hwa); simpl; [lia| |lia|done|].
      { rewrite list_lookup_insert_eq by lia. done. }
      cbn [mbind outcome_bind]. eauto.
    + destruct (valid c); cbn [negb mbind outcome_bind]; [|done].
      specialize (IH (S p) s Hs ltac:(lia)).
      destruct (span_word valid msg s) as [[w rest]|e|]; simpl; [|done|done].
      destruct IH as (t' & -> & [Hl Hfr Hw Hr Ho Ha]). exists t'. split; [done|].
      split; simpl; [done| |split_and!; [|done|done]|done|destruct Ho; [left; simpl in *; lia|by right]|lia].
      * intros i Hi. apply Hfr. lia.
      * rewrite Hfr by lia. done.
Qed.

(** [m], run on [t] in front of the text [s], implements [r]. *)
Definition implements (t : tokenizer) (s : list Z)
    (m : run (option nat * tokenizer)) (r : run (option (list Z * list Z))) : Prop :=
  match r with
  | Ret None => s = [] ∧ m = Ret (None, t)
  | Ret (Some (w, rest)) =>
      ∃ t', m = Ret (Some (input t), t') ∧ word_at (line t) (input t) w rest t' ∧
        (input t < input t')%nat
  | Throw e => m = Throw e
  | Abort => False
  end.

(** The two word scanners are the same function up to their character sets. *)
Definition NextWordLike (first valid : Z → bool) (e1 e2 : error) (t : tokenizer)
    : run (option nat * tokenizer) :=
  c ← rd (line t) (input t);
  if c =? 0 then mret (None, t)
  else if negb (first c) then Throw e1
  else
    t' ← word_loop valid e2 (length (line t)) t;
    mret (Some (input t), t').

Lemma NextWordLike_ok first valid e1 e2 t s :
  cstr (line t) (input t) s →
  implements t s (NextWordLike first valid e1 e2 t) (next_word first valid e1 e2 s).
Proof.
  intros Hs. unfold NextWordLike, rd. destruct s as [|c s]; simpl in Hs.
  { rewrite Hs. done. }
  pose proof (cstr_lt (line t) (input t) (c :: s) Hs) as Hlt. simpl in Hlt.
  destruct Hs as (Hp & Hc & Hs). rewrite Hp. simpl. rewrite (proj2 (Z.eqb_neq c 0)) by done.
  destruct (first c); cbn [negb mbind outcome_bind]; [|done].
  destruct t as [buf p]. simpl in *.
  pose proof (word_loop_ok valid e2 (length buf) buf p s Hs ltac:(lia)) as H.
  destruct (span_word valid e2 s) as [[w rest]|e|]; simpl; [|by rewrite H|done].
  destruct H as (t' & -> & [Hl Hfr Hw Hr Ho Ha]). exists t'. split; [done|]. split; [|simpl in *; lia].
  split; simpl; [done| |split_and!; [|done|done]|done|destruct Ho; [left; simpl in *; lia|by right]|lia].
  - intros i Hi. apply Hfr. lia.
  - rewrite Hfr by lia. done.
Qed.

Lemma NextWord_ok t s : cstr (line t) (input t) s →
  implements t s (NextWord t)
    (next_word valid_word_first_char valid_word_char LetterExpected InvalidWordCharacter s).
Proof. apply NextWordLike_ok. Qed.

Lemma NextUnquoted_ok t s : cstr (line t) (input t) s →
  implements t s (NextUnquoted t)
    (next_word valid_unquoted_char valid_unquoted_char InvalidUnquotedCharacter
       InvalidUnquotedCharacter s).
Proof. apply NextWordLike_ok. Qed.

(** ** Quoted strings *)

(** The characters of [w] at [p], without a terminator. *)
Fixpoint seg (buf : buffer) (p : nat) (w : list Z) : Prop :=
  match w with
  | [] => True
  | c :: w => buf !! p = Some c ∧ c ≠ 0 ∧ seg buf (S p) w
  end.

Lemma seg_cstr buf p w : seg buf p w → (p + length w < length buf)%nat →
  cstr (<[(p + length w)%nat := 0]> buf) p w.
Proof.
  intros Hw Hlt.
  assert (Hseg : ∀ k p w, seg buf p w → (p + length w ≤ k < length buf)%nat →
    (p + length w = k)%nat → cstr (<[k := 0]> buf) p w).
  { clear. intros k p w. revert p. induction w as [|c w IH]; intros p; simpl.
    - intros _ Hk Hp. replace k with p by lia. apply list_lookup_insert_eq. lia.
    - intros (H & Hc & Hw) Hk Hp. rewrite list_lookup_insert_ne by lia.
      split_and!; [done|done|]. apply IH; [done|lia|lia]. }
  apply Hseg; [done|lia|done].
Qed.

(** The outcome of the copy loop started with the text [s] at [p]. *)
Definition copied (buf : buffer) (p dest : nat) (r : run (list Z * list Z))
    (m : run (buffer * nat * nat)) : Prop :=
  match r with
  | Ret (w, rest) => ∃ buf' p',
      m = Ret (buf', p', dest + length w)%nat ∧ length buf' = length buf ∧
      (∀ i, (i < dest)%nat → buf' !! i = buf !! i) ∧ seg buf' dest w ∧
      cstr buf' (S p') rest ∧ (dest + length w ≤ p')%nat
  | Throw e => m = Throw e
  | Abort => False
  end.

(** One round of the loop that copies the character [c] and goes on at [p']. *)
Lemma copied_step buf p' dest c r m :
  (dest < p')%nat → (dest < length buf)%nat → c ≠ 0 →
  copied (<[dest := c]> buf) p' (S dest) r m →
  copied buf p' dest (x ← r; mret (c :: x.1, x.2)) m.
Proof.
  intros Hd Hlt Hc. destruct r as [[w rest]|e|]; simpl; [|done|done].
  intros (buf' & p'' & -> & Hl & Hfr & Hw & Hr & Hle). exists buf', p''.
  rewrite length_insert in Hl. split_and!; [|done| | |done|done|done|lia].
  - do 2 f_equal. lia.
  - intros i Hi. rewrite Hfr by lia. apply list_lookup_insert_ne. lia.
  - rewrite Hfr by lia. by apply list_lookup_insert_eq.
Qed.

Lemma string_loop_ok fuel buf p dest s :
  cstr buf p s → (dest < p)%nat → (length s < fuel)%nat →
  copied buf p dest (span_string s) (string_loop fuel buf p dest).
Proof.
  revert buf p dest s. induction fuel as [|fuel IH]; intros buf p dest s Hs Hd Hf; [lia|].
  pose proof (cstr_lt buf p s Hs) as Hlt.
  assert (Hstep : ∀ p' c s', (p < p')%nat → c ≠ 0 → cstr buf p' s' → (length s' < fuel)%nat →
    copied buf p' dest (x ← span_string s'; mret (c :: x.1, x.2))
      (buf ← wr buf dest c; string_loop fuel buf p' (S dest))).
  { intros p' c s' Hp' Hc Hs' Hf'. apply copied_step; [lia|lia|done|].
    unfold wr. rewrite store_Some by lia. apply IH; [|lia|done].
    eapply cstr_agree; [done|]. intros i Hi. apply list_lookup_insert_ne. lia. }
  destruct s as [|c s]; simpl in *; unfold rd.
  { rewrite Hs. simpl. by rewrite Hs. }
  destruct Hs as (Hp & Hc & Hs). rewrite Hp. simpl. destruct (c =? 34) eqn:E34.
  { exists buf, p. simpl. rewrite Nat.add_0_r. split_and!; [done|done|done|done|done|lia]. }
  destruct (c =? 92) eqn:E92; simpl.
  - destruct s as [|d s]; simpl in Hs; [by rewrite Hs|]. destruct Hs as (Hd' & Hdc & Hs).
    rewrite Hd'. simpl. rewrite (proj2 (Z.eqb_neq d 0)) by done.
    assert (copied buf (S (S p)) dest (x ← span_string s; mret (d :: x.1, x.2))
      (buf ← wr buf dest d; string_loop fuel buf (S (S p)) (S dest))); [|done].
    apply Hstep; [lia|done|done|simpl in *; lia].
  - rewrite Hp. simpl. rewrite (proj2 (Z.eqb_neq c 0)) by done.
    assert (copied buf (S p) dest (x ← span_string s; mret (c :: x.1, x.2))
      (buf ← wr buf dest c; string_loop fuel buf (S p) (S dest))); [|done].
    apply Hstep; [lia|done|done|lia].
Qed.

Lemma NextString_ok t s : cstr (line t) (input t) (34 :: s) →
  implements t (34 :: s) (NextString t) (next_string s).
Proof.
  intros Hs. pose proof (cstr_lt _ _ _ Hs) as Hlt. simpl in Hlt.
  destruct t as [buf p]. simpl in *. destruct Hs as (Hp & _ & Hs).
  unfold NextString, rd. simpl. rewrite Hp. simpl.
  pose proof (string_loop_ok (length buf) buf (S p) p s Hs ltac:(lia) ltac:(lia)) as H.
  unfold next_string. destruct (span_string s) as [[w rest]|e|]; simpl in *; [|by rewrite H|done].
  destruct H as (buf' & p' & -> & Hl & Hfr & Hw & Hr & Hle). simpl.
  pose proof (cstr_lt _ _ _ Hr) as Hlt'.
  assert (Hc : ∃ c, buf' !! S p' = Some c ∧ cstr buf' (S p') rest ∧
    match rest with [] => c = 0 | d :: _ => c = d end).
  { destruct rest as [|d rest]; simpl in *; [by exists 0|]. exists d. tauto. }
  destruct Hc as (c & -> & _ & Hc). simpl.
  assert (Hdone : (IsWhitespaceFast c = true) →
    ∃ t', (buf0 ← wr buf' (p + length w) 0;
           q ← StripLeft (length buf0) buf0 (S p');
           mret (Some p, mkTokenizer buf0 q)) = Ret (Some p, t') ∧
      word_at buf p w (strip rest) t' ∧ (p < input t')%nat).
  { intros _. unfold wr. rewrite store_Some by lia. simpl.
    assert (Hr' : cstr (<[(p + length w)%nat := 0]> buf') (S p') rest).
    { eapply cstr_agree; [done|]. intros i Hi. apply list_lookup_insert_ne. lia. }
    destruct (StripLeft_ok (length (<[(p + length w)%nat := 0]> buf')) _ _ _ Hr')
      as (q & -> & Hq & Hrest); [apply cstr_lt in Hr'; lia|].
    simpl. eexists. split; [done|]. split; [|simpl; lia].
    split; simpl; [by rewrite length_insert| |apply seg_cstr; [done|lia]|done|left; lia|lia].
    intros i Hi. rewrite list_lookup_insert_ne by lia. apply Hfr. lia. }
  destruct rest as [|d rest]; simplify_eq; [by apply Hdone|].
  destruct (IsWhitespaceFast d); simpl; [by apply Hdone|done].
Qed.

Lemma NextParam_ok t s : cstr (line t) (input t) s →
  implements t s (NextParam t) (next_param s).
Proof.
  intros Hs. unfold NextParam, rd. destruct s as [|c s].
  - pose proof Hs as H. simpl in H. rewrite H. by apply NextUnquoted_ok.
  - pose proof Hs as (H & _). rewrite H. cbn [of_option mbind outcome_bind].
    destruct (c =? 34) eqn:E.
    + apply Z.eqb_eq in E as ->. by apply NextString_ok.
    + apply Z.eqb_neq in E.
      assert (next_param (c :: s) = next_word valid_unquoted_char valid_unquoted_char
        InvalidUnquotedCharacter InvalidUnquotedCharacter (c :: s)) as ->.
      { unfold next_param. repeat case_match; congruence. }
      by apply NextUnquoted_ok.
Qed.

End Tokenizer.
