(* ===== verification/Fifo.v ===== *)
(** * FIFO buffers

    [util/ForeignFifoBuffer.hxx] (the same code as [util/StaticFifoBuffer.hxx]),
    [util/DynamicFifoBuffer.hxx], [util/PeakBuffer.cxx] and
    [util/CircularBuffer.hxx].  The buffers hold an array and two indices; their
    clients write into the range returned by [Write] and then call [Append].  The
    interface [FifoLaws] says what a client may rely on: elements come out in the
    order in which they were accepted.  It is proved once for all histories and
    discharged by the three implementations. *)

From Stdlib Require Import ZArith Lia ZifyBool.
From stdpp Require Import base numbers sets list.
From S2P Require Import Prelude.

Set Default Goal Selector "!".

(** ** Copying into an array *)

(** [std::copy(xs, data + pos)]; [None] outside the array. *)
Definition write_at {A} (pos : nat) (xs data : list A) : option (list A) :=
  if pos + length xs <=? length data
  then Some (take pos data ++ xs ++ drop (pos + length xs) data) else None.

(** The elements from [a] up to [b]. *)
Definition slice {A} (a b : nat) (data : list A) : list A := take (b - a) (drop a data).

Lemma write_at_Some {A} pos (xs data : list A) : pos + length xs ≤ length data →
  write_at pos xs data = Some (take pos data ++ xs ++ drop (pos + length xs) data).
Proof. intros H. unfold write_at. by rewrite (proj2 (Nat.leb_le _ _) H). Qed.

Lemma length_write_at {A} pos (xs data : list A) : pos + length xs ≤ length data →
  length (take pos data ++ xs ++ drop (pos + length xs) data) = length data.
Proof. intros H. rewrite !length_app, length_take, length_drop. lia. Qed.

Lemma length_slice {A} a b (data : list A) : b ≤ length data → length (slice a b data) = b - a.
Proof. intros H. unfold slice. rewrite length_take, length_drop. lia. Qed.

Lemma slice_app {A} a b c (data : list A) : a ≤ b → b ≤ c → c ≤ length data →
  slice a b data ++ slice b c data = slice a c data.
Proof.
  intros Hab Hbc Hc. unfold slice.
  rewrite <-(take_drop (b - a) (take (c - a) (drop a data))), take_take.
  f_equal; [f_equal; lia|]. rewrite skipn_firstn_comm, drop_drop. f_equal; [lia|]. f_equal. lia.
Qed.

Lemma slice_write_before {A} a b pos (xs data : list A) : b ≤ pos → pos + length xs ≤ length data →
  slice a b (take pos data ++ xs ++ drop (pos + length xs) data) = slice a b data.
Proof.
  intros Hb Hl. unfold slice. destruct (decide (a ≤ b)).
  - rewrite skipn_app, take_app_le by (rewrite length_drop, length_take; lia).
    rewrite skipn_firstn_comm, take_take. f_equal. lia.
  - by replace (b - a) with 0 by lia.
Qed.

Lemma slice_write_after {A} a b pos (xs data : list A) :
  pos + length xs ≤ a → pos + length xs ≤ length data →
  slice a b (take pos data ++ xs ++ drop (pos + length xs) data) = slice a b data.
Proof.
  intros Ha Hl. unfold slice. f_equal.
  rewrite skipn_app, (drop_ge (take pos data)) by (rewrite length_take; lia).
  rewrite length_take, skipn_app, (drop_ge xs) by lia. simpl. rewrite drop_drop. f_equal. lia.
Qed.

Lemma slice_write {A} pos (xs data : list A) : pos + length xs ≤ length data →
  slice pos (pos + length xs) (take pos data ++ xs ++ drop (pos + length xs) data) = xs.
Proof.
  intros Hl. unfold slice. rewrite skipn_app, (drop_ge (take pos data)) by (rewrite length_take; lia).
  rewrite length_take, app_nil_l. replace (pos - pos `min` length data) with 0 by lia.
  rewrite drop_0. replace (pos + length xs - pos) with (length xs) by lia. apply take_app_length.
Qed.

Lemma slice_drop {A} a b n (data : list A) : a + n ≤ b →
  slice (a + n) b data = drop n (slice a b data).
Proof. intros H. unfold slice. rewrite skipn_firstn_comm, drop_drop. f_equal; lia. Qed.

Lemma slice_nil {A} a b (data : list A) : b ≤ a → slice a b data = [].
Proof. intros H. unfold slice. by replace (b - a) with 0 by lia. Qed.

(** ** The interface *)

Class FifoBuffer (B A : Type) := {
  f_inv : B → Prop;
  f_contents : B → list A;
  (** offer data; the number of accepted elements *)
  f_push : list A → B → option (nat * B);
  (** the contiguous data at the front *)
  f_peek : B → list A;
  f_consume : nat → B → option B
}.

Class FifoLaws (B A : Type) `{!FifoBuffer B A} := {
  push_law b xs : f_inv b → xs ≠ [] →
    ∃ n b', f_push xs b = Some (n, b') ∧ n ≤ length xs ∧ f_inv b' ∧
      f_contents b' = f_contents b ++ take n xs;
  peek_law b : f_inv b →
    f_peek b `prefix_of` f_contents b ∧ (f_peek b = [] ↔ f_contents b = []);
  consume_law b n : f_inv b → n ≤ length (f_peek b) →
    ∃ b', f_consume n b = Some b' ∧ f_inv b' ∧ f_contents b' = drop n (f_contents b)
}.

(** A history of a buffer: data offered, and requests to take at most [n] elements. *)
Inductive fifo_op (A : Type) :=
| Push (xs : list A)
| Take (n : nat).
Arguments Push {A} _.
Arguments Take {A} _.

Section History.
Context {B A : Type} `{!FifoBuffer B A, !FifoLaws B A}.

(** The state of a run: the buffer, what was accepted and what was delivered. *)
Definition fifo_step (o : fifo_op A) (s : B * list A * list A) : option (B * list A * list A) :=
  let '(b, accepted, delivered) := s in
  match o with
  | Push [] => Some s
  | Push xs =>
      r ← f_push xs b;
      Some (r.2, accepted ++ take r.1 xs, delivered)
  | Take n =>
      let xs := take n (f_peek b) in
      b ← f_consume (length xs) b;
      Some (b, accepted, delivered ++ xs)
  end.

Fixpoint fifo_run (ops : list (fifo_op A)) (s : B * list A * list A)
    : option (B * list A * list A) :=
  match ops with
  | [] => Some s
  | o :: ops => fifo_step o s ≫= fifo_run ops
  end.

Definition fifo_good (s : B * list A * list A) : Prop :=
  f_inv s.1.1 ∧ s.1.2 = s.2 ++ f_contents s.1.1.

Lemma fifo_step_good o s : fifo_good s → ∃ s', fifo_step o s = Some s' ∧ fifo_good s'.
Proof.
  destruct s as [[b acc] del]. intros [Hinv Heq]. simpl in *. destruct o as [xs|n].
  - destruct xs as [|x xs]; [by eexists|].
    destruct (push_law b (x :: xs)) as (k & b' & -> & Hk & Hinv' & Hc); [done|done|].
    eexists. split; [done|]. split; [done|]. simpl. by rewrite Hc, Heq, app_assoc.
  - destruct (peek_law b Hinv) as [[rest Hp] _].
    destruct (consume_law b (length (take n (f_peek b)))) as (b' & -> & Hinv' & Hc);
      [done|rewrite length_take; lia|].
    eexists. split; [done|]. split; [done|]. simpl. rewrite Hc, Heq, <-app_assoc. f_equal.
    rewrite Hp, length_take. destruct (decide (n ≤ length (f_peek b))).
    + rewrite Nat.min_l by done. rewrite drop_app_le by done.
      rewrite app_assoc. f_equal. symmetry. apply take_drop.
    + rewrite Nat.min_r, drop_app_length by lia. rewrite take_ge by lia. done.
Qed.

Lemma fifo_run_good ops s : fifo_good s → ∃ s', fifo_run ops s = Some s' ∧ fifo_good s'.
Proof.
  revert s. induction ops as [|o ops IH]; intros s Hs; simpl; [by eexists|].
  destruct (fifo_step_good o s Hs) as (s' & -> & Hs'). by apply IH.
Qed.

(** Taking from a buffer that holds something delivers something. *)
Lemma fifo_progress s n : fifo_good s → f_contents s.1.1 ≠ [] → 0 < n →
  ∃ s', fifo_step (Take n) s = Some s' ∧ length (f_contents s'.1.1) < length (f_contents s.1.1).
Proof.
  destruct s as [[b acc] del]. intros [Hinv Heq] Hne Hn. simpl in *.
  destruct (peek_law b Hinv) as [[rest Hp] Hemp].
  destruct (consume_law b (length (take n (f_peek b)))) as (b' & -> & _ & Hc);
    [done|rewrite length_take; lia|].
  eexists. split; [done|]. simpl. rewrite Hc, length_drop, length_take.
  assert (f_peek b ≠ []) by tauto.
  destruct (f_peek b); [done|]. destruct (f_contents b); [done|]. simpl. lia.
Qed.

Lemma fifo_step_Take n s s' : fifo_step (Take n) s = Some s' →
  s'.1.2 = s.1.2 ∧ ∃ xs, s'.2 = s.2 ++ xs.
Proof.
  destruct s as [[b acc] del]. simpl. intros (b' & _ & [= <-])%bind_Some. simpl. eauto.
Qed.

(** [k] requests for at most [n] elements each. *)
Lemma fifo_drain k n s : fifo_good s → 0 < n → length (f_contents s.1.1) ≤ k →
  ∃ s', fifo_run (replicate k (Take n)) s = Some s' ∧ f_contents s'.1.1 = [] ∧
    s'.2 = s.1.2 ∧ f_inv s'.1.1.
Proof.
  intros Hs Hn. revert s Hs. induction k as [|k IH]; intros s Hs Hk.
  { exists s. destruct s as [[b acc] del], Hs as [Hi Heq]. simpl in *.
    assert (Hnil : f_contents b = []) by (apply nil_length_inv; lia).
    rewrite Hnil, app_nil_r in Heq. by split_and!. }
  cbn [replicate fifo_run].
  destruct (fifo_step_good (Take n) s Hs) as (s1 & E1 & Hs1). rewrite E1. cbn [mbind option_bind].
  destruct (fifo_step_Take n s s1 E1) as [Hacc [xs Hdel]].
  destruct (IH s1 Hs1) as (s' & Hrun & Hc & Hd & Hi).
  - destruct (decide (f_contents s.1.1 = [])) as [Hnil|Hne].
    + destruct Hs as [Hi Heq], Hs1 as [_ Heq1]. rewrite Hnil, app_nil_r in Heq.
      rewrite Hacc, Heq, Hdel, <-app_assoc in Heq1. apply (f_equal length) in Heq1.
      rewrite !length_app in Heq1. lia.
    + destruct (fifo_progress s n Hs Hne Hn) as (s2 & E2 & Hlt).
      rewrite E1 in E2. injection E2 as <-. lia.
  - exists s'. split_and!; [done|done|by rewrite Hd|done].
Qed.

End History.

(** ** ForeignFifoBuffer *)

Module ForeignFifoBuffer.
Section Defs.
Context {A : Type}.

Record t := mk { head : nat; tail : nat; data : list A }.

Definition capacity (f : t) : nat := length (data f).
Definition Clear (f : t) : t := mk 0 0 (data f).
Definition IsEmpty (f : t) : bool := head f =? tail f.
Definition IsFull (f : t) : bool := (head f =? 0) && (tail f =? capacity f).

Definition Shift (f : t) : option t :=
  if head f =? 0 then Some f
  else
    assert! head f <=? capacity f ;;
    assert! tail f <=? capacity f ;;
    assert! head f <=? tail f ;;
    d ← write_at 0 (slice (head f) (tail f) (data f)) (data f);
    Some (mk 0 (tail f - head f) d).

(** [Write]: the buffer after making room; the range is [tail .. capacity]. *)
Definition Write (f : t) : option t :=
  if IsEmpty f then Some (Clear f)
  else if tail f =? capacity f then Shift f
  else Some f.

(** Storing into the range returned by [Write]. *)
Definition fill (xs : list A) (f : t) : option t :=
  d ← write_at (tail f) xs (data f);
  Some (mk (head f) (tail f) d).

Definition WantWrite (n : nat) (f : t) : option (bool * t) :=
  if tail f + n <=? capacity f then Some (true, f)
  else if capacity f <? tail f - head f + n then Some (false, f)
  else
    f ← Shift f;
    assert! tail f + n <=? capacity f ;;
    Some (true, f).

Definition Append (n : nat) (f : t) : option t :=
  assert! tail f <=? capacity f ;;
  assert! n <=? capacity f ;;
  assert! tail f + n <=? capacity f ;;
  Some (mk (head f) (tail f + n) (data f)).

Definition GetAvailable (f : t) : nat := tail f - head f.
Definition Read (f : t) : list A := slice (head f) (tail f) (data f).

Definition Consume (n : nat) (f : t) : option t :=
  assert! tail f <=? capacity f ;;
  assert! head f <=? tail f ;;
  assert! n <=? tail f ;;
  assert! head f + n <=? tail f ;;
  Some (mk (head f + n) (tail f) (data f)).

(** [Read(p, n)] *)
Definition ReadInto (n : nat) (f : t) : option (list A * t) :=
  let range := Read f in
  let n := if length range <? n then length range else n in
  f ← Consume n f;
  Some (take n range, f).

Definition MoveFrom (f src : t) : option (nat * t * t) :=
  let r := Read src in
  f ← Write f;
  let n := min (length r) (capacity f - tail f) in
  f ← fill (take n r) f;
  f ← Append n f;
  src ← Consume n src;
  Some (n, f, src).

(** [MoveBuffer] into the fresh array [new_data]. *)
Definition MoveBuffer (new_data : list A) (f : t) : option t :=
  assert! tail f - head f <=? length new_data ;;
  d ← write_at 0 (Read f) new_data;
  Some (mk 0 (tail f - head f) d).

(** ** DynamicFifoBuffer; [fresh n] is the array of [new T[n]] *)

Definition Grow (fresh : nat → list A) (new_capacity : nat) (f : t) : option t :=
  assert! capacity f <? new_capacity ;;
  MoveBuffer (fresh new_capacity) f.

(** The loop that doubles the capacity; it runs at least once. *)
Fixpoint double_until (fuel new_capacity required : nat) : option nat :=
  match fuel with
  | O => None
  | S fuel =>
      let new_capacity := 2 * new_capacity in
      if new_capacity <? required then double_until fuel new_capacity required
      else Some new_capacity
  end.

Definition DynWantWrite (fresh : nat → list A) (n : nat) (f : t) : option t :=
  r ← WantWrite n f;
  if (r.1 : bool) then Some r.2
  else
    let required := GetAvailable r.2 + n in
    c ← double_until required (capacity r.2) required;
    Grow fresh c r.2.

(** [Append(p, n)] *)
Definition DynAppend (fresh : nat → list A) (xs : list A) (f : t) : option t :=
  f ← DynWantWrite fresh (length xs) f;
  f ← Write f;
  f ← fill xs f;
  Append (length xs) f.

(** [AppendTo] of PeakBuffer.cxx: the number of bytes stored. *)
Fixpoint AppendTo_loop (fuel : nat) (xs : list A) (total : nat) (f : t) : option (nat * t) :=
  match fuel with
  | O => None
  | S fuel =>
      f ← Write f;
      let size := capacity f - tail f in
      if size =? 0 then Some (total, f)
      else
        let nbytes := min (length xs) size in
        f ← fill (take nbytes xs) f;
        f ← Append nbytes f;
        let xs := drop nbytes xs in
        if 0 <? length xs then AppendTo_loop fuel xs (total + nbytes) f
        else Some (total + nbytes, f)
  end.

Definition AppendTo (xs : list A) (f : t) : option (nat * t) :=
  assert! 0 <? length xs ;;
  AppendTo_loop (S (length xs)) xs 0 f.

(** ** Correctness *)

Definition inv (f : t) : Prop := head f ≤ tail f ≤ capacity f.

Lemma length_Read f : inv f → length (Read f) = tail f - head f.
Proof. intros [_ H]. by apply length_slice. Qed.

Lemma Shift_ok f : inv f → ∃ f', Shift f = Some f' ∧ inv f' ∧ capacity f' = capacity f ∧
  Read f' = Read f ∧ head f' = 0 ∧ tail f' ≤ tail f.
Proof.
  intros Hinv. pose proof (length_Read f Hinv) as Hl. destruct Hinv as [Hht Htc]. unfold Shift.
  destruct (head f =? 0) eqn:E; [exists f; split_and!; [done|done|done|done|lia|lia]|].
  rewrite !check_bind by lia. rewrite write_at_Some by (unfold Read, capacity in *; lia).
  eexists. split; [done|]. unfold Read in *. unfold inv, capacity. simpl. rewrite !Hl.
  rewrite length_app, length_drop, Hl. unfold capacity in *.
  split_and!; [lia|lia|lia| |done|lia].
  pose proof (slice_write 0 (slice (head f) (tail f) (data f)) (data f)) as H. simpl in H.
  rewrite Hl in H. apply H. lia.
Qed.

Lemma fifo_Write_ok f : inv f → ∃ f', Write f = Some f' ∧ inv f' ∧ capacity f' = capacity f ∧
  Read f' = Read f ∧ (tail f' = capacity f' → length (Read f') = capacity f') ∧ tail f' ≤ tail f.
Proof.
  intros Hinv. unfold Write, IsEmpty. destruct (head f =? tail f) eqn:E.
  - eexists. split; [done|]. unfold inv, Clear, Read, capacity in *. simpl.
    rewrite !slice_nil by lia. simpl. split_and!; [lia|lia|done|done|lia|lia].
  - destruct (tail f =? capacity f) eqn:E2.
    + destruct (Shift_ok f Hinv) as (f' & -> & Hi & Hc & Hr & Hh & Ht'). exists f'.
      split_and!; [done|done|done|done| |done]. intros Ht.
      rewrite (length_Read f' Hi). lia.
    + exists f. split_and!; [done|done|done|done|lia|lia].
Qed.

Lemma fill_Append_ok xs f : inv f → tail f + length xs ≤ capacity f →
  ∃ f', (f ← fill xs f; Append (length xs) f) = Some f' ∧ inv f' ∧ capacity f' = capacity f ∧
    Read f' = Read f ++ xs.
Proof.
  intros [Hht Htc] Hle. unfold fill, Append, capacity in *. rewrite write_at_Some by done. simpl.
  rewrite length_write_at by done. rewrite !check_bind by lia.
  eexists. split; [done|]. unfold inv, capacity, Read. simpl. rewrite length_write_at by done.
  split_and!; [lia|lia|done|].
  rewrite <-(slice_app (head f) (tail f)) by (rewrite ?length_write_at; lia).
  rewrite slice_write_before by lia. f_equal. by apply slice_write.
Qed.

Lemma fifo_Consume_ok n f : inv f → n ≤ length (Read f) →
  ∃ f', Consume n f = Some f' ∧ inv f' ∧ capacity f' = capacity f ∧ Read f' = drop n (Read f).
Proof.
  intros Hinv Hn. rewrite length_Read in Hn by done. destruct Hinv as [Hht Htc].
  unfold Consume. rewrite !check_bind by lia. eexists. split; [done|].
  unfold inv, capacity, Read in *. simpl. split_and!; [lia|lia|done|]. apply slice_drop. lia.
Qed.

Lemma AppendTo_loop_ok fuel xs total f : inv f → length xs < fuel → xs ≠ [] →
  ∃ f' n, AppendTo_loop fuel xs total f = Some (total + n, f') ∧ inv f' ∧
    capacity f' = capacity f ∧ n = min (length xs) (capacity f - length (Read f)) ∧
    Read f' = Read f ++ take n xs.
Proof.
  revert xs total f. induction fuel as [|fuel IH]; intros xs total f Hinv Hf Hne; [lia|].
  cbn [AppendTo_loop]. destruct (fifo_Write_ok f Hinv) as (f1 & -> & Hi1 & Hc1 & Hr1 & Hfull & _). simpl.
  pose proof (length_Read f1 Hi1) as Hl1. rewrite <-Hr1, <-Hc1.
  destruct (capacity f1 - tail f1 =? 0) eqn:E.
  { exists f1, 0. rewrite Nat.add_0_r, app_nil_r. pose proof Hi1 as [? ?].
    split_and!; [done|done|done| |done].
    assert (length (Read f1) = capacity f1) by (apply Hfull; lia). lia. }
  set (k := length xs `min` (capacity f1 - tail f1)).
  assert (Hk : length (take k xs) = k) by (rewrite length_take; lia).
  assert (Hk1 : 1 ≤ k).
  { assert (length xs ≠ 0) by (by destruct xs). lia. }
  destruct (fill_Append_ok (take k xs) f1 Hi1) as (f2 & Hfa & Hi2 & Hc2 & Hr2); [lia|].
  rewrite Hk in Hfa.
  destruct (fill (take k xs) f1) as [fx|]; simpl in *; [|done]. rewrite Hfa. simpl.
  rewrite length_drop. destruct (0 <? length xs - k) eqn:E2.
  - destruct (IH (drop k xs) (total + k) f2) as (f' & n & -> & Hi & Hc & Hn & Hr);
      [done|rewrite length_drop; lia| |].
    { intros H%(f_equal length). rewrite length_drop in H. simpl in H. lia. }
    exists f', (k + n). rewrite length_drop, Hc2, Hr2, length_app, Hk in Hn.
    split_and!; [by rewrite Nat.add_assoc|done|lia| |].
    + destruct Hi1. lia.
    + rewrite Hr, Hr2, <-app_assoc. f_equal.
      rewrite <-(take_drop k (take (k + n) xs)), take_take, Nat.min_l by lia.
      f_equal. rewrite skipn_firstn_comm. f_equal. lia.
  - exists f2, k. split_and!; [done|done|done| |done].
    destruct Hi1. lia.
Qed.

Lemma AppendTo_ok xs f : inv f → xs ≠ [] →
  ∃ f' n, AppendTo xs f = Some (n, f') ∧ inv f' ∧ capacity f' = capacity f ∧
    n = min (length xs) (capacity f - length (Read f)) ∧ Read f' = Read f ++ take n xs.
Proof.
  intros Hinv Hne. unfold AppendTo. rewrite check_bind by (destruct xs; [done|simpl; lia]).
  destruct (AppendTo_loop_ok (S (length xs)) xs 0 f) as (f' & n & H); [done|lia|done|].
  by exists f', n.
Qed.

Lemma WantWrite_ok n f : inv f → ∃ b f', WantWrite n f = Some (b, f') ∧ inv f' ∧
  capacity f' = capacity f ∧ Read f' = Read f ∧
  (if (b : bool) then tail f' + n ≤ capacity f' else capacity f < length (Read f) + n).
Proof.
  intros Hinv. pose proof (length_Read f Hinv) as Hl. pose proof Hinv as [Hht Htc].
  unfold WantWrite. destruct (tail f + n <=? capacity f) eqn:E.
  { exists true, f. split_and!; [done|done|done|done|lia]. }
  destruct (capacity f <? tail f - head f + n) eqn:E2.
  { exists false, f. split_and!; [done|done|done|done|lia]. }
  destruct (Shift_ok f Hinv) as (f' & -> & Hi & Hc & Hr & Hh & _). simpl.
  pose proof (length_Read f' Hi) as Hl'. rewrite Hr, Hl in Hl'. pose proof Hi as [? ?].
  rewrite check_bind by lia. exists true, f'. split_and!; [done|done|done|done|lia].
Qed.

(** The capacity is doubled until the data fits; it grows with every round. *)
Lemma double_until_ok fuel c r : 1 ≤ c → r ≤ c + fuel → 0 < fuel →
  ∃ c', double_until fuel c r = Some c' ∧ r ≤ c' ∧ c < c'.
Proof.
  revert c. induction fuel as [|fuel IH]; intros c Hc Hr Hf; [lia|]. cbn [double_until].
  destruct (2 * c <? r) eqn:E; [|exists (2 * c); split_and!; [done|lia|lia]].
  destruct (IH (2 * c)) as (c' & -> & H1 & H2); [lia|lia|lia|]. exists c'. split_and!; [done|lia|lia].
Qed.

Lemma Grow_ok fresh c f : inv f → capacity f < c → (∀ n, length (fresh n) = n) →
  ∃ f', Grow fresh c f = Some f' ∧ inv f' ∧ capacity f' = c ∧ Read f' = Read f.
Proof.
  intros Hi Hc Hfresh. pose proof (length_Read f Hi) as Hl. pose proof Hi as [??].
  unfold Grow, MoveBuffer. rewrite Hfresh, !check_bind by lia.
  rewrite write_at_Some by (rewrite Hfresh; lia). rewrite Hl. simpl.
  eexists. split; [done|]. unfold inv, capacity. simpl.
  rewrite length_app, length_drop, Hfresh, Hl. unfold capacity in *.
  split_and!; [lia|lia|lia|].
  pose proof (slice_write 0 (Read f) (fresh c)) as H1. simpl in H1. rewrite Hl, Hfresh in H1.
  apply H1. lia.
Qed.

Lemma DynWantWrite_ok fresh n f : inv f → 1 ≤ capacity f → (∀ n, length (fresh n) = n) →
  ∃ f', DynWantWrite fresh n f = Some f' ∧ inv f' ∧ capacity f ≤ capacity f' ∧
    Read f' = Read f ∧ tail f' + n ≤ capacity f'.
Proof.
  intros Hinv Hcap Hfresh. unfold DynWantWrite.
  destruct (WantWrite_ok n f Hinv) as (b & f1 & -> & Hi1 & Hc1 & Hr1 & Hb). simpl.
  destruct b; [by exists f1; split_and!; [done|done|lia|done|done]|].
  pose proof (length_Read f1 Hi1) as Hl1. rewrite <-Hr1 in *. unfold GetAvailable.
  destruct (double_until_ok (tail f1 - head f1 + n) (capacity f1)
    (tail f1 - head f1 + n)) as (c & -> & Hc & Hgt); [lia|lia|lia|].
  destruct (Grow_ok fresh c f1) as (f2 & E & Hi2 & Hc2 & Hr2); [done|done|done|].
  exists f2. simpl. rewrite E, <-Hr2 in *. split_and!; [done|done|lia|done|].
  assert (tail f2 = length (Read f2)); [|lia].
  unfold Grow, MoveBuffer in E. rewrite Hfresh, !check_bind in E by lia.
  destruct (write_at _ _ _); simpl in E; [|done]. injection E as <-. simpl in *. lia.
Qed.

Lemma DynAppend_ok fresh xs f : inv f → 1 ≤ capacity f → (∀ n, length (fresh n) = n) →
  ∃ f', DynAppend fresh xs f = Some f' ∧ inv f' ∧ capacity f ≤ capacity f' ∧
    Read f' = Read f ++ xs.
Proof.
  intros Hinv Hcap Hfresh. unfold DynAppend.
  destruct (DynWantWrite_ok fresh (length xs) f) as (f1 & -> & Hi1 & Hc1 & Hr1 & Hroom);
    [done|done|done|]. simpl.
  destruct (fifo_Write_ok f1 Hi1) as (f2 & -> & Hi2 & Hc2 & Hr2 & _ & Ht2). simpl.
  destruct (fill_Append_ok xs f2 Hi2) as (f3 & -> & Hi3 & Hc3 & Hr3); [lia|].
  exists f3. split_and!; [done|done|lia|]. by rewrite Hr3, Hr2, Hr1.
Qed.

Lemma MoveFrom_ok f src : inv f → inv src →
  ∃ n f' src', MoveFrom f src = Some (n, f', src') ∧ inv f' ∧ inv src' ∧
    n ≤ length (Read src) ∧ Read f' = Read f ++ take n (Read src) ∧
    Read src' = drop n (Read src).
Proof.
  intros Hinv Hsrc. unfold MoveFrom.
  destruct (fifo_Write_ok f Hinv) as (f1 & -> & Hi1 & Hc1 & Hr1 & _ & _). simpl.
  set (n := length (Read src) `min` (capacity f1 - tail f1)).
  assert (Hn : length (take n (Read src)) = n) by (rewrite length_take; lia).
  pose proof Hi1 as [? ?].
  destruct (fill_Append_ok (take n (Read src)) f1 Hi1) as (f2 & Hfa & Hi2 & Hc2 & Hr2); [lia|].
  rewrite Hn in Hfa. destruct (fill (take n (Read src)) f1) as [fx|]; simpl in *; [|done].
  rewrite Hfa. simpl. destruct (fifo_Consume_ok n src Hsrc) as (s' & -> & Hi & _ & Hr); [lia|].
  exists n, f2, s'. split_and!; [done|done|done|lia|by rewrite Hr2, Hr1|done].
Qed.

Lemma ReadInto_ok n f : inv f → ∃ f', ReadInto n f = Some (take n (Read f), f') ∧ inv f' ∧
  Read f' = drop n (Read f).
Proof.
  intros Hinv. unfold ReadInto. destruct (length (Read f) <? n) eqn:E.
  - destruct (fifo_Consume_ok (length (Read f)) f Hinv) as (f' & -> & Hi & _ & Hr); [lia|].
    exists f'. rewrite Hr. simpl. rewrite !take_ge, !drop_ge by lia. done.
  - destruct (fifo_Consume_ok n f Hinv) as (f' & -> & Hi & _ & Hr); [lia|]. by exists f'.
Qed.

End Defs.
Arguments t : clear implicits.

#[export] Instance fifo {A} : FifoBuffer (t A) A := {
  f_inv := inv; f_contents := Read; f_push := AppendTo; f_peek := Read; f_consume := Consume
}.

#[export] Instance fifo_laws {A} : FifoLaws (t A) A.
Proof.
  split; simpl.
  - intros f xs Hinv Hne. destruct (AppendTo_ok xs f Hinv Hne) as (f' & n & -> & Hi & _ & -> & Hr).
    eexists _, f'. split_and!; [done|lia|done|done].
  - done.
  - intros f n Hinv Hn. destruct (fifo_Consume_ok n f Hinv Hn) as (f' & -> & Hi & _ & Hr). eauto.
Qed.

End ForeignFifoBuffer.

(** ** PeakBuffer *)

Module PeakBuffer.
Section Defs.
Context {A : Type} (fresh : nat → list A).
#[local] Abbreviation fifo := (ForeignFifoBuffer.t A).

Record t := mk {
  normal_size : nat;
  peak_size : nat;
  normal_buffer : option fifo;
  peak_buffer : option fifo
}.

(** [new DynamicFifoBuffer(n)] *)
Definition new_fifo (n : nat) : fifo := ForeignFifoBuffer.mk 0 0 (fresh n).
Definition new (_normal_size _peak_size : nat) : t := mk _normal_size _peak_size None None.

Definition set_normal (b : t) (f : option fifo) : t :=
  mk (normal_size b) (peak_size b) f (peak_buffer b).
Definition set_peak (b : t) (f : option fifo) : t :=
  mk (normal_size b) (peak_size b) (normal_buffer b) f.

(** [buffer != nullptr && !buffer->IsEmpty()] *)
Definition has_data (f : option fifo) : option fifo :=
  match f with
  | Some f => if negb (ForeignFifoBuffer.IsEmpty f) then Some f else None
  | None => None
  end.

Definition IsEmpty (b : t) : bool :=
  match has_data (normal_buffer b), has_data (peak_buffer b) with
  | None, None => true
  | _, _ => false
  end.

Definition Read (b : t) : list A :=
  match has_data (normal_buffer b), has_data (peak_buffer b) with
  | Some f, _ | None, Some f => ForeignFifoBuffer.Read f
  | None, None => []
  end.

Definition Consume (n : nat) (b : t) : option t :=
  match has_data (normal_buffer b), has_data (peak_buffer b) with
  | Some f, _ =>
      f ← ForeignFifoBuffer.Consume n f;
      Some (set_normal b (Some f))
  | None, Some f =>
      f ← ForeignFifoBuffer.Consume n f;
      Some (set_peak b (if ForeignFifoBuffer.IsEmpty f then None else Some f))
  | None, None => Some b
  end.

Definition Append (xs : list A) (b : t) : option (bool * t) :=
  if length xs =? 0 then Some (true, b)
  else
    match has_data (peak_buffer b) with
    | Some f =>
        r ← ForeignFifoBuffer.AppendTo xs f;
        Some (r.1 =? length xs, set_peak b (Some r.2))
    | None =>
        let f := default (new_fifo (normal_size b)) (normal_buffer b) in
        r ← ForeignFifoBuffer.AppendTo xs f;
        let b := set_normal b (Some r.2) in
        let xs := drop r.1 xs in
        if length xs =? 0 then Some (true, b)
        else
          match peak_buffer b with
          | None =>
              if 0 <? peak_size b then
                r ← ForeignFifoBuffer.AppendTo xs (new_fifo (peak_size b));
                Some (r.1 =? length xs, set_peak b (Some r.2))
              else Some (false, b)
          | Some g =>
              r ← ForeignFifoBuffer.AppendTo xs g;
              Some (r.1 =? length xs, set_peak b (Some r.2))
          end
    end.

(** ** Correctness *)

Context (fresh_length : ∀ n, length (fresh n) = n).

Definition data_of (f : option fifo) : list A :=
  match f with Some f => ForeignFifoBuffer.Read f | None => [] end.
Definition contents (b : t) : list A := data_of (normal_buffer b) ++ data_of (peak_buffer b).

Definition fifo_ok (size : nat) (f : option fifo) : Prop :=
  match f with
  | Some f => ForeignFifoBuffer.inv f ∧ ForeignFifoBuffer.capacity f = size
  | None => True
  end.
Definition inv (b : t) : Prop :=
  fifo_ok (normal_size b) (normal_buffer b) ∧ fifo_ok (peak_size b) (peak_buffer b).

(** The number of bytes [Append] can take. *)
Definition space (b : t) : nat :=
  match data_of (peak_buffer b) with
  | [] => normal_size b - length (data_of (normal_buffer b)) + peak_size b
  | p => peak_size b - length p
  end.

Lemma IsEmpty_Read (f : fifo) : ForeignFifoBuffer.inv f →
  ForeignFifoBuffer.IsEmpty f = true ↔ ForeignFifoBuffer.Read f = [].
Proof.
  intros Hinv. pose proof (ForeignFifoBuffer.length_Read f Hinv) as Hl.
  unfold ForeignFifoBuffer.IsEmpty. destruct Hinv as [Hh Ht]. rewrite Nat.eqb_eq. split.
  - intros H. apply nil_length_inv. lia.
  - intros H. rewrite H in Hl. simpl in Hl. lia.
Qed.

Lemma has_data_spec size (f : option fifo) : fifo_ok size f →
  match has_data f with
  | Some g => f = Some g ∧ ForeignFifoBuffer.inv g ∧ ForeignFifoBuffer.Read g ≠ []
  | None => data_of f = []
  end.
Proof.
  destruct f as [f|]; [|done]. intros [Hi _]. simpl.
  pose proof (IsEmpty_Read f Hi) as H. destruct (ForeignFifoBuffer.IsEmpty f); simpl.
  - by apply H.
  - split_and!; [done|done|]. intros Hr. apply H in Hr. done.
Qed.

(** Storing into one of the two buffers, allocated or not. *)
Lemma AppendTo_fifo size (f : option fifo) xs : fifo_ok size f → xs ≠ [] →
  ∃ g n, ForeignFifoBuffer.AppendTo xs (default (new_fifo size) f) = Some (n, g) ∧
    fifo_ok size (Some g) ∧ n = min (length xs) (size - length (data_of f)) ∧
    ForeignFifoBuffer.Read g = data_of f ++ take n xs.
Proof.
  intros Hok Hne. set (f0 := default (new_fifo size) f).
  assert (H : ForeignFifoBuffer.inv f0 ∧ ForeignFifoBuffer.capacity f0 = size ∧
    ForeignFifoBuffer.Read f0 = data_of f).
  { subst f0. destruct f as [f|]; simpl in *; [by destruct Hok|].
    unfold ForeignFifoBuffer.inv, ForeignFifoBuffer.capacity. simpl. rewrite fresh_length.
    split_and!; [lia|lia|done|]. unfold ForeignFifoBuffer.Read. simpl. by apply slice_nil. }
  destruct H as (Hi & Hc & Hr).
  destruct (ForeignFifoBuffer.AppendTo_ok xs f0 Hi Hne) as (g & n & Heq & Hi' & Hc' & Hn & Hr').
  exists g, n. rewrite Hc, Hr in *. split_and!; [done|split; [done|lia]|done|done].
Qed.

Lemma eqb_min_length (xs : list A) k : (min (length xs) k =? length xs) = (length xs <=? k).
Proof. lia. Qed.

Lemma take_min_length (xs : list A) k : take (min (length xs) k) xs = take k xs.
Proof.
  destruct (decide (k ≤ length xs)).
  - by rewrite Nat.min_r.
  - rewrite Nat.min_l, !take_ge by lia. done.
Qed.

(** [Append] stores as much as there is room for, at the end. *)
Lemma peak_Append_ok xs b : inv b → ∃ b', Append xs b = Some (length xs <=? space b, b') ∧ inv b' ∧
  contents b' = contents b ++ take (space b) xs ∧
  normal_size b' = normal_size b ∧ peak_size b' = peak_size b.
Proof.
  intros [Hn Hp]. unfold Append. destruct (length xs =? 0) eqn:E0.
  { exists b. assert (xs = []) as -> by (apply nil_length_inv; lia).
    rewrite take_nil, app_nil_r. by split_and!. }
  assert (Hne : xs ≠ []) by (by destruct xs).
  pose proof (has_data_spec _ _ Hp) as Hpd. unfold space, contents.
  destruct (has_data (peak_buffer b)) as [g|] eqn:Ep.
  - destruct Hpd as (Eg & Hgi & Hgne). rewrite Eg in *.
    destruct (AppendTo_fifo (peak_size b) (Some g) xs Hp Hne) as (g' & k & Heq & Hok & Hk & Hr).
    change (default (new_fifo (peak_size b)) (Some g)) with g in Heq. cbn [data_of] in *. rewrite Heq. cbn [mbind option_bind fst snd].
    eexists. rewrite Hk, eqb_min_length. split.
    { destruct (ForeignFifoBuffer.Read g); [done|]. reflexivity. }
    split; [by split|]. split; [|done]. simpl. rewrite Hr, <-app_assoc, Hk, take_min_length.
    destruct (ForeignFifoBuffer.Read g); [done|]. reflexivity.
  - rewrite Hpd, app_nil_r.
    destruct (AppendTo_fifo (normal_size b) (normal_buffer b) xs Hn Hne)
      as (f' & k & Heq & Hok & Hk & Hr).
    rewrite Heq. cbn [mbind option_bind fst snd]. rewrite length_drop.
    destruct (length xs - k =? 0) eqn:E1.
    { eexists. split; [f_equal; f_equal; symmetry; apply Nat.leb_le; lia|].
      split; [by split|]. split; [|done]. simpl. rewrite Hpd, app_nil_r, Hr, !take_ge by lia. done. }
    assert (Hne' : drop k xs ≠ []).
    { intros H%(f_equal length). rewrite length_drop in H. simpl in H. lia. }
    assert (Hsplit : ∀ m, take (k + m) xs = take k xs ++ take m (drop k xs)).
    { intros m. rewrite <-(take_drop k (take (k + m) xs)), take_take, Nat.min_l by lia.
      f_equal. rewrite skipn_firstn_comm. f_equal. lia. }
    assert (Hkk : k = normal_size b - length (data_of (normal_buffer b))) by lia.
    rewrite <-Hkk, Hsplit.
    destruct (AppendTo_fifo (peak_size b) (peak_buffer b) (drop k xs) Hp Hne')
      as (g' & m & Heq' & Hok' & Hm & Hr').
    rewrite Hpd, Nat.sub_0_r, length_drop in Hm. rewrite Hpd in Hr'. simpl in Hr'.
    cbn [peak_buffer set_normal peak_size].
    destruct (peak_buffer b) as [g|] eqn:Epb;
      [change (default (new_fifo (peak_size b)) (Some g)) with g in Heq'
      |change (default (new_fifo (peak_size b)) None) with (new_fifo (peak_size b)) in Heq'].
    + rewrite Heq'. cbn [mbind option_bind fst snd]. eexists. split; [f_equal; f_equal; lia|].
      split; [by split|]. split; [|done]. simpl. rewrite Hr, Hr', <-app_assoc. do 2 f_equal.
      rewrite Hm, <-length_drop. apply take_min_length.
    + destruct (0 <? peak_size b) eqn:E2.
      * rewrite Heq'. cbn [mbind option_bind fst snd]. eexists. split; [f_equal; f_equal; lia|].
        split; [by split|]. split; [|done]. simpl. rewrite Hr, Hr', <-app_assoc. do 2 f_equal.
        rewrite Hm, <-length_drop. apply take_min_length.
      * eexists. split; [f_equal; f_equal; lia|]. split; [split; simpl; [done|by rewrite Epb]|].
        split; [|done]. simpl. rewrite Epb, app_nil_r, Hr.
        replace (peak_size b) with 0 by lia. by rewrite take_0, app_nil_r.
Qed.

Lemma peak_Read_ok b : inv b →
  Read b `prefix_of` contents b ∧ (Read b = [] ↔ contents b = []).
Proof.
  intros [Hn Hp]. pose proof (has_data_spec _ _ Hn) as Hnd.
  pose proof (has_data_spec _ _ Hp) as Hpd. unfold Read, contents.
  destruct (has_data (normal_buffer b)) as [f|].
  - destruct Hnd as (-> & _ & Hne). cbn [data_of]. split; [by eexists|].
    split; [done|]. by intros [? ?]%app_eq_nil.
  - rewrite Hnd. destruct (has_data (peak_buffer b)) as [g|].
    + destruct Hpd as (-> & _ & Hne). done.
    + by rewrite Hpd.
Qed.

Lemma peak_Consume_ok n b : inv b → n ≤ length (Read b) →
  ∃ b', Consume n b = Some b' ∧ inv b' ∧ contents b' = drop n (contents b).
Proof.
  intros [Hn Hp] Hle. pose proof (has_data_spec _ _ Hn) as Hnd.
  pose proof (has_data_spec _ _ Hp) as Hpd. unfold Read, Consume, contents in *.
  destruct (has_data (normal_buffer b)) as [f|].
  - destruct Hnd as (Ef & Hi & Hne). rewrite Ef in *. destruct Hn as [_ Hcap].
    destruct (ForeignFifoBuffer.fifo_Consume_ok n f Hi Hle) as (f' & -> & Hi' & Hc' & Hr').
    eexists. split; [done|]. split; [split; simpl; [split; [done|lia]|done]|].
    simpl. rewrite Hr'. by rewrite drop_app_le.
  - rewrite Hnd. destruct (has_data (peak_buffer b)) as [g|].
    + destruct Hpd as (Eg & Hi & Hne). rewrite Eg in *. destruct Hp as [_ Hcap].
      destruct (ForeignFifoBuffer.fifo_Consume_ok n g Hi Hle) as (g' & -> & Hi' & Hc' & Hr').
      cbn [mbind option_bind]. eexists. split; [done|]. simpl. rewrite Hnd, <-Hr'.
      pose proof (IsEmpty_Read g' Hi') as He. destruct (ForeignFifoBuffer.IsEmpty g').
      * split; [by split|]. simpl. symmetry. by apply He.
      * split; [split; simpl; [done|split; [done|lia]]|done].
    + exists b. rewrite Hnd, Hpd. simpl in Hle. replace n with 0 by lia. done.
Qed.

Lemma IsEmpty_contents b : inv b → IsEmpty b = true ↔ contents b = [].
Proof.
  intros [Hn Hp]. pose proof (has_data_spec _ _ Hn) as Hnd.
  pose proof (has_data_spec _ _ Hp) as Hpd. unfold IsEmpty, contents.
  destruct (has_data (normal_buffer b)) as [f|].
  - destruct Hnd as (-> & _ & Hne). cbn [data_of]. split; [done|]. by intros [? ?]%app_eq_nil.
  - rewrite Hnd. destruct (has_data (peak_buffer b)) as [g|].
    + destruct Hpd as (-> & _ & Hne). done.
    + by rewrite Hpd.
Qed.

(** How much of the data offered to [Append] was stored. *)
Definition push (xs : list A) (b : t) : option (nat * t) :=
  r ← Append xs b;
  Some (length (contents r.2) - length (contents b), r.2).

End Defs.
Arguments t : clear implicits.

#[export] Instance peak_fifo {A} (fresh : nat → list A) : FifoBuffer (t A) A := {
  f_inv := inv; f_contents := contents; f_push := push fresh; f_peek := Read;
  f_consume := Consume
}.

#[export] Instance peak_fifo_laws {A} (fresh : nat → list A)
  (fresh_length : ∀ n, length (fresh n) = n) : @FifoLaws (t A) A (peak_fifo fresh).
Proof.
  split; simpl.
  - intros b xs Hinv Hne. unfold push.
    destruct (peak_Append_ok fresh fresh_length xs b Hinv) as (b' & -> & Hinv' & Hc & _). simpl.
    eexists _, b'. rewrite Hc, length_app, length_take. split_and!; [done|lia|done|].
    f_equal. replace (length (contents b) + space b `min` length xs - length (contents b))
      with (length xs `min` space b) by lia. symmetry. apply take_min_length.
  - apply peak_Read_ok.
  - intros b n Hinv Hn. apply peak_Consume_ok; done.
Qed.

Lemma new_good {A} (fresh : nat → list A) n p :
  @fifo_good _ _ (peak_fifo fresh) (new n p, [], []).
Proof. done. Qed.

(** C30: the output buffer of a client connection loses, duplicates and reorders nothing.
    Whatever data is appended to a new [PeakBuffer] and however much of it is consumed, no
    assertion fails; the bytes accepted so far are the bytes delivered followed by the
    bytes in the buffer; [Append] succeeds exactly when the data fits and stores a prefix
    of it otherwise; and reading on delivers every accepted byte, in order. *)
Theorem PeakBuffer_correct {A} (fresh : nat → list A) (n p m : nat) (ops : list (fifo_op A)) :
  (∀ k, length (fresh k) = k) → 0 < m →
  ∃ b accepted delivered,
    fifo_run (FifoBuffer0 := peak_fifo fresh) ops (new n p, [], []) = Some (b, accepted, delivered) ∧
    accepted = delivered ++ contents b ∧
    (∀ xs, ∃ b', Append fresh xs b = Some (length xs <=? space b, b') ∧
       contents b' = contents b ++ take (space b) xs) ∧
    ∃ b', fifo_run (FifoBuffer0 := peak_fifo fresh) (replicate (length (contents b)) (Take m))
            (b, accepted, delivered) = Some (b', accepted, accepted) ∧ IsEmpty b' = true.
Proof.
  intros Hfresh Hm. pose proof (peak_fifo_laws fresh Hfresh) as Hlaws.
  destruct (fifo_run_good (FifoBuffer0 := peak_fifo fresh) ops (new n p, [], []))
    as ([[b acc] del] & Hrun & Hgood); [apply new_good|].
  exists b, acc, del. pose proof Hgood as [Hinv Heq]. simpl in Hinv, Heq.
  split_and!; [done|done| |].
  - intros xs. destruct (peak_Append_ok fresh Hfresh xs b Hinv) as (b' & H1 & _ & H2 & _). eauto.
  - destruct (fifo_drain (FifoBuffer0 := peak_fifo fresh) (length (contents b)) m (b, acc, del))
      as ([[b' acc'] del'] & Hrun' & Hc & Hd & Hi); [done|done|done|]. simpl in Hc, Hd, Hi.
    destruct (fifo_run_good (FifoBuffer0 := peak_fifo fresh)
      (replicate (length (contents b)) (Take m)) (b, acc, del)) as (s & Hrun2 & Hg2); [done|].
    rewrite Hrun' in Hrun2. injection Hrun2 as <-. destruct Hg2 as [_ Hacc]. simpl in Hacc.
    rewrite Hc, app_nil_r in Hacc. subst acc' del'. exists b'. split; [done|].
    pose proof (IsEmpty_contents b' Hi) as He. by apply He.
Qed.

Lemma PeakBuffer_correct_witness :
  ∃ b accepted delivered,
    fifo_run (FifoBuffer0 := peak_fifo (λ n, replicate n 0%Z)) [Push [1;2;3;4;5]%Z; Take 2; Push [6;7;8]%Z]
      (new 2 4, [], []) = Some (b, accepted, delivered) ∧
    accepted = delivered ++ contents b ∧
    (∀ xs, ∃ b', Append (λ n, replicate n 0%Z) xs b = Some (length xs <=? space b, b') ∧
       contents b' = contents b ++ take (space b) xs) ∧
    ∃ b', fifo_run (FifoBuffer0 := peak_fifo (λ n, replicate n 0%Z))
            (replicate (length (contents b)) (Take 3)) (b, accepted, delivered)
          = Some (b', accepted, accepted) ∧ IsEmpty b' = true.
Proof. apply PeakBuffer_correct; [intros k; apply length_replicate|lia]. Defined.

End PeakBuffer.

(** ** CircularBuffer *)

Module CircularBuffer.
Section Defs.
Context {A : Type}.

Record t := mk { head : nat; tail : nat; data : list A }.

Definition capacity (c : t) : nat := length (data c).
Definition Next (c : t) (i : nat) : nat := if i + 1 =? capacity c then 0 else i + 1.
Definition Clear (c : t) : t := mk 0 0 (data c).
Definition IsEmpty (c : t) : bool := head c =? tail c.
Definition IsFull (c : t) : bool := Next c (tail c) =? head c.
Definition GetSize (c : t) : nat :=
  if head c <=? tail c then tail c - head c else capacity c - head c + tail c.
Definition GetSpace (c : t) : nat :=
  (if head c <=? tail c then capacity c - tail c + head c else head c - tail c) - 1.

(** [Write]: the size of the writable range at [tail]. *)
Definition Write (c : t) : option nat :=
  assert! head c <? capacity c ;;
  assert! tail c <? capacity c ;;
  let end_ := if tail c <? head c then head c - 1
              else capacity c - (if head c =? 0 then 1 else 0) in
  Some (end_ - tail c).

Definition fill (xs : list A) (c : t) : option t :=
  d ← write_at (tail c) xs (data c);
  Some (mk (head c) (tail c) d).

Definition Append (n : nat) (c : t) : option t :=
  assert! head c <? capacity c ;;
  assert! tail c <? capacity c ;;
  assert! n <? capacity c ;;
  assert! tail c + n <=? capacity c ;;
  assert! (head c <=? tail c) || (tail c + n <? head c) ;;
  let tail' := tail c + n in
  if tail' =? capacity c then
    assert! 0 <? head c ;;
    Some (mk (head c) 0 (data c))
  else Some (mk (head c) tail' (data c)).

Definition Read (c : t) : list A :=
  slice (head c) (if tail c <? head c then capacity c else tail c) (data c).

Definition Consume (n : nat) (c : t) : option t :=
  assert! head c <? capacity c ;;
  assert! tail c <? capacity c ;;
  assert! n <? capacity c ;;
  assert! head c + n <=? capacity c ;;
  assert! (tail c <? head c) || (head c + n <=? tail c) ;;
  let head' := head c + n in
  Some (mk (if head' =? capacity c then 0 else head') (tail c) (data c)).

(** One round of a writer: fill the range returned by [Write]. *)
Definition push (xs : list A) (c : t) : option (nat * t) :=
  size ← Write c;
  let n := min (length xs) size in
  c ← fill (take n xs) c;
  c ← Append n c;
  Some (n, c).

(** ** Correctness *)

Definition inv (c : t) : Prop := head c < capacity c ∧ tail c < capacity c.

Definition contents (c : t) : list A :=
  if head c <=? tail c then slice (head c) (tail c) (data c)
  else slice (head c) (capacity c) (data c) ++ slice 0 (tail c) (data c).

Lemma length_contents c : inv c → length (contents c) = GetSize c.
Proof.
  intros [Hh Ht]. unfold contents, GetSize, capacity in *.
  destruct (head c <=? tail c); rewrite ?length_app, !length_slice by lia; lia.
Qed.

(** The stored elements and the space fill all cells but one. *)
Lemma GetSpace_ok c : inv c → length (contents c) + GetSpace c + 1 = capacity c.
Proof.
  intros Hinv. rewrite length_contents by done. destruct Hinv as [Hh Ht].
  unfold GetSize, GetSpace. destruct (head c <=? tail c) eqn:E; lia.
Qed.

Lemma IsFull_ok c : inv c → IsFull c = true ↔ GetSpace c = 0.
Proof.
  intros [Hh Ht]. unfold IsFull, Next, GetSpace.
  destruct (head c <=? tail c) eqn:E, (tail c + 1 =? capacity c) eqn:E2; lia.
Qed.

Lemma push_ok xs c : inv c → ∃ n c', push xs c = Some (n, c') ∧ n ≤ length xs ∧ inv c' ∧
  contents c' = contents c ++ take n xs ∧ (n = 0 → xs = [] ∨ GetSpace c = 0).
Proof.
  intros [Hh Ht]. unfold push, Write. rewrite !check_bind by lia. cbn [mbind option_bind].
  set (size := (if tail c <? head c then head c - 1
                else capacity c - (if head c =? 0 then 1 else 0)) - tail c).
  set (n := length xs `min` size).
  assert (Hn : length (take n xs) = n) by (rewrite length_take; lia).
  assert (Hfit : tail c + n ≤ capacity c ∧ n < capacity c ∧
    (head c ≤ tail c ∨ tail c + n < head c) ∧ (tail c + n = capacity c → 0 < head c)).
  { subst n size. destruct (tail c <? head c) eqn:E, (head c =? 0) eqn:E0; lia. }
  destruct Hfit as (H1 & H2 & H3 & H4). unfold fill, capacity in *.
  rewrite write_at_Some by lia. cbn [mbind option_bind]. unfold Append, capacity. simpl.
  rewrite length_write_at by lia. rewrite !check_bind by lia. cbn [mbind option_bind].
  assert (Hz : n = 0 → xs = [] ∨ GetSpace c = 0).
  { intros H0. destruct xs as [|x xs]; [by left|right]. subst n size. cbn [length] in H0. clear Hn H1 H2 H3 H4.
    unfold GetSpace, capacity.
    destruct (tail c <? head c) eqn:E, (head c =? 0) eqn:E0, (head c <=? tail c) eqn:E2; lia. }
  set (d := take (tail c) (data c) ++ take n xs ++ drop (tail c + length (take n xs)) (data c)).
  assert (Hd : length d = length (data c)) by (apply length_write_at; lia).
  assert (Hold : ∀ a b, b ≤ tail c → slice a b d = slice a b (data c)).
  { intros a b Hb. apply slice_write_before; lia. }
  assert (Hnew : slice (tail c) (tail c + n) d = take n xs).
  { rewrite <-Hn at 1. apply slice_write. lia. }
  assert (Hcat : ∀ a, a ≤ tail c →
    slice a (tail c + n) d = slice a (tail c) (data c) ++ take n xs).
  { intros a Ha. rewrite <-Hnew, <-(Hold a (tail c)) by lia. symmetry. apply slice_app; lia. }
  assert (Hafter : tail c < head c → slice (head c) (length (data c)) d =
    slice (head c) (length (data c)) (data c)).
  { intros Hlt. apply slice_write_after; lia. }
  destruct (tail c + n =? length (data c)) eqn:E.
  - rewrite check_bind by lia. eexists _, _. split; [done|]. split; [lia|].
    unfold inv, capacity. simpl. rewrite Hd. split; [lia|]. split; [|done].
    unfold contents, capacity. simpl. destruct (head c <=? tail c) eqn:E2; [|lia].
    destruct (head c <=? 0) eqn:E3; [lia|]. rewrite Hd, (slice_nil 0 0), app_nil_r by done.
    replace (length (data c)) with (tail c + n) by lia. apply Hcat. lia.
  - eexists _, _. split; [done|]. split; [lia|].
    unfold inv, capacity. simpl. rewrite Hd. split; [lia|]. split; [|done].
    unfold contents, capacity. simpl. rewrite Hd. destruct (head c <=? tail c) eqn:E2.
    + destruct (head c <=? tail c + n) eqn:E3; [|lia]. apply Hcat. lia.
    + destruct (head c <=? tail c + n) eqn:E3; [lia|].
      rewrite <-app_assoc, Hafter by lia. f_equal. apply Hcat. lia.
Qed.

Lemma circular_Read_ok c : inv c →
  Read c `prefix_of` contents c ∧ (Read c = [] ↔ contents c = []).
Proof.
  intros [Hh Ht]. unfold Read, contents, capacity in *.
  destruct (tail c <? head c) eqn:E, (head c <=? tail c) eqn:E2; [lia| |done|lia].
  split; [by eexists|]. split.
  - intros H%(f_equal length). rewrite length_slice in H by lia. simpl in H. lia.
  - by intros [? ?]%app_eq_nil.
Qed.

Lemma circular_Consume_ok n c : inv c → n ≤ length (Read c) →
  ∃ c', Consume n c = Some c' ∧ inv c' ∧ contents c' = drop n (contents c).
Proof.
  intros [Hh Ht]. unfold Read, Consume, contents, inv, capacity in *.
  destruct (tail c <? head c) eqn:E; rewrite length_slice by lia; intros Hn;
    rewrite !check_bind by lia; (eexists; split; [done|]); simpl.
  - destruct (head c + n =? length (data c)) eqn:E2; (split; [lia|]).
    + rewrite (proj2 (Nat.leb_gt (head c) (tail c))) by lia. simpl.
      rewrite drop_app_ge by (rewrite length_slice; lia). rewrite length_slice by lia.
      replace (n - (length (data c) - head c)) with 0 by lia. done.
    + rewrite (proj2 (Nat.leb_gt (head c) (tail c))), (proj2 (Nat.leb_gt (head c + n) _)) by lia.
      rewrite drop_app_le by (rewrite length_slice; lia). f_equal. apply slice_drop. lia.
  - rewrite (proj2 (Nat.eqb_neq _ _)) by lia. split; [lia|].
    rewrite !(proj2 (Nat.leb_le _ _)) by lia. apply slice_drop. lia.
Qed.

End Defs.
Arguments t : clear implicits.

#[export] Instance circular_fifo {A} : FifoBuffer (t A) A := {
  f_inv := inv; f_contents := contents; f_push := push; f_peek := Read; f_consume := Consume
}.

#[export] Instance circular_fifo_laws {A} : FifoLaws (t A) A.
Proof.
  split; simpl.
  - intros c xs Hinv _. destruct (push_ok xs c Hinv) as (n & c' & H1 & H2 & H3 & H4 & _).
    by exists n, c'.
  - apply circular_Read_ok.
  - intros c n Hinv Hn. apply circular_Consume_ok; done.
Qed.

End CircularBuffer.
