(* ===== verification/Tag.v ===== *)
(** * Tags

    [tag/TagType.h], [tag/TagNames.c], [tag/Settings.hxx], [tag/Tag.cxx],
    [tag/TagBuilder.cxx] and [tag/TagTable.cxx]: the tag of a song and the builder
    that assembles it.  Items are immutable once they are in the tag pool, so a tag
    holds them by value. *)

From Stdlib Require Import ZArith Lia ZifyBool.
From stdpp Require Import base numbers sets strings list.
From S2P Require Import Prelude CString UTF8 TagString.

Set Default Goal Selector "!".

Module Tag.
Import CString.

(** [enum TagType] *)
Inductive TagType :=
| TAG_ARTIST | TAG_ARTIST_SORT | TAG_ALBUM | TAG_ALBUM_SORT | TAG_ALBUM_ARTIST
| TAG_ALBUM_ARTIST_SORT | TAG_TITLE | TAG_TRACK | TAG_NAME | TAG_GENRE | TAG_DATE
| TAG_COMPOSER | TAG_PERFORMER | TAG_COMMENT | TAG_DISC
| TAG_MUSICBRAINZ_ARTISTID | TAG_MUSICBRAINZ_ALBUMID | TAG_MUSICBRAINZ_ALBUMARTISTID
| TAG_MUSICBRAINZ_TRACKID | TAG_MUSICBRAINZ_RELEASETRACKID
| TAG_NUM_OF_ITEM_TYPES.

#[global] Instance TagType_eq_dec : EqDecision TagType.
Proof. solve_decision. Defined.

(** The integer value of the enumerator. *)
Definition tag_index (t : TagType) : nat :=
  match t with
  | TAG_ARTIST => 0 | TAG_ARTIST_SORT => 1 | TAG_ALBUM => 2 | TAG_ALBUM_SORT => 3
  | TAG_ALBUM_ARTIST => 4 | TAG_ALBUM_ARTIST_SORT => 5 | TAG_TITLE => 6 | TAG_TRACK => 7
  | TAG_NAME => 8 | TAG_GENRE => 9 | TAG_DATE => 10 | TAG_COMPOSER => 11
  | TAG_PERFORMER => 12 | TAG_COMMENT => 13 | TAG_DISC => 14
  | TAG_MUSICBRAINZ_ARTISTID => 15 | TAG_MUSICBRAINZ_ALBUMID => 16
  | TAG_MUSICBRAINZ_ALBUMARTISTID => 17 | TAG_MUSICBRAINZ_TRACKID => 18
  | TAG_MUSICBRAINZ_RELEASETRACKID => 19 | TAG_NUM_OF_ITEM_TYPES => 20
  end.

(** [tag_item_names], in the order of the enumeration. *)
Definition tag_item_names : list (TagType * list Z) :=
  [ (TAG_ARTIST, str "Artist");
    (TAG_ARTIST_SORT, str "ArtistSort");
    (TAG_ALBUM, str "Album");
    (TAG_ALBUM_SORT, str "AlbumSort");
    (TAG_ALBUM_ARTIST, str "AlbumArtist");
    (TAG_ALBUM_ARTIST_SORT, str "AlbumArtistSort");
    (TAG_TITLE, str "Title");
    (TAG_TRACK, str "Track");
    (TAG_NAME, str "Name");
    (TAG_GENRE, str "Genre");
    (TAG_DATE, str "Date");
    (TAG_COMPOSER, str "Composer");
    (TAG_PERFORMER, str "Performer");
    (TAG_COMMENT, str "Comment");
    (TAG_DISC, str "Disc");
    (TAG_MUSICBRAINZ_ARTISTID, str "MUSICBRAINZ_ARTISTID");
    (TAG_MUSICBRAINZ_ALBUMID, str "MUSICBRAINZ_ALBUMID");
    (TAG_MUSICBRAINZ_ALBUMARTISTID, str "MUSICBRAINZ_ALBUMARTISTID");
    (TAG_MUSICBRAINZ_TRACKID, str "MUSICBRAINZ_TRACKID");
    (TAG_MUSICBRAINZ_RELEASETRACKID, str "MUSICBRAINZ_RELEASETRACKID") ].

(** The scans of a name table: [tag_table_lookup], [tag_table_lookup_i] and the
    reverse lookup. *)
Fixpoint tag_table_lookup (table : list (TagType * list Z)) (name : list Z) : TagType :=
  match table with
  | [] => TAG_NUM_OF_ITEM_TYPES
  | (t, n) :: table => if streq name n then t else tag_table_lookup table name
  end.

Fixpoint tag_table_lookup_i (table : list (TagType * list Z)) (name : list Z) : TagType :=
  match table with
  | [] => TAG_NUM_OF_ITEM_TYPES
  | (t, n) :: table =>
      if StringEqualsCaseASCII name n then t else tag_table_lookup_i table name
  end.

Fixpoint tag_table_lookup_type (table : list (TagType * list Z)) (t : TagType) : option (list Z) :=
  match table with
  | [] => None
  | (t', n) :: table => if decide (t' = t) then Some n else tag_table_lookup_type table t
  end.

Definition tag_name_parse (name : list Z) : TagType := tag_table_lookup tag_item_names name.
Definition tag_name_parse_i (name : list Z) : TagType := tag_table_lookup_i tag_item_names name.

(** [struct TagItem] *)
Record TagItem := mkTagItem { type : TagType; value : list Z }.

#[global] Instance TagItem_eq_dec : EqDecision TagItem.
Proof. solve_decision. Defined.

(** [SignedSongTime::Negative] and [IsNegative]; times are in milliseconds. *)
Definition Negative : Z := -1.
Definition IsNegative (t : Z) : bool := (t <? 0)%Z.

(** [struct Tag].  [items] are the [num_items] visible elements of the array. *)
Record Tag := mkTag { duration : Z; has_playlist : bool; items : list TagItem }.

#[global] Instance Tag_eq_dec : EqDecision Tag.
Proof. solve_decision. Defined.

Definition empty : Tag := mkTag Negative false [].

Definition Clear (_ : Tag) : Tag := empty.

Definition IsEmpty (t : Tag) : bool := length (items t) =? 0.

Definition IsDefined (t : Tag) : bool := negb (IsEmpty t) || negb (IsNegative (duration t)).

(** [MoveItemsFrom]: swaps the arrays; returns both tags. *)
Definition MoveItemsFrom (t other : Tag) : Tag * Tag :=
  (mkTag (duration t) (has_playlist t) (items other),
   mkTag (duration other) (has_playlist other) (items t)).

(** [operator=(Tag &&)] *)
Definition move_assign (t other : Tag) : Tag * Tag :=
  MoveItemsFrom (mkTag (duration other) (has_playlist other) (items t)) other.

(** The copy constructor. *)
Definition copy (other : Tag) : Tag := mkTag (duration other) (has_playlist other) (items other).

Definition GetValue (t : Tag) (ty : TagType) : option (option (list Z)) :=
  assert! tag_index ty <? 20 ;;
  Some (value ∘ snd <$> list_find (λ i, type i = ty) (items t)).

Definition HasType (t : Tag) (ty : TagType) : option bool :=
  v ← GetValue t ty; Some (match v with Some _ => true | None => false end).

(** [IsTagEnabled]: a bit of [global_tag_mask]. *)
Definition IsTagEnabled (global_tag_mask : Z) (t : TagType) : bool :=
  negb (Z.land global_tag_mask (Z.shiftl 1 (Z.of_nat (tag_index t))) =? 0)%Z.

(** The initial value of [global_tag_mask] (an [unsigned]): all but the comment. *)
Definition default_tag_mask : Z :=
  Z.land (2 ^ 32 - 1) (Z.lnot (Z.shiftl 1 (Z.of_nat (tag_index TAG_COMMENT)))).

Module TagBuilder.

(** [class TagBuilder] *)
Record TagBuilder := mkTagBuilder {
  duration : Z; has_playlist : bool; items : list TagItem }.

Definition empty : TagBuilder := mkTagBuilder Negative false [].

(** [TagBuilder(const Tag &)] and [operator=(Tag &&)]; the latter empties the tag. *)
Definition of_tag (t : Tag) : TagBuilder :=
  mkTagBuilder (Tag.duration t) (Tag.has_playlist t) (Tag.items t).

Definition move_from (t : Tag) : TagBuilder * Tag :=
  (of_tag t, mkTag (Tag.duration t) (Tag.has_playlist t) []).

Definition IsEmpty (b : TagBuilder) : bool := length (items b) =? 0.

Definition IsDefined (b : TagBuilder) : bool :=
  negb (IsNegative (duration b)) || has_playlist b || negb (IsEmpty b).

Definition RemoveAll (b : TagBuilder) : TagBuilder :=
  mkTagBuilder (duration b) (has_playlist b) [].

Definition Clear (b : TagBuilder) : TagBuilder :=
  RemoveAll (mkTagBuilder Negative false (items b)).

(** [Commit(Tag &)]: [num_items] is an [unsigned short]. *)
Definition Commit (b : TagBuilder) : Tag * TagBuilder :=
  let n_items := length (items b) in
  (mkTag (duration b) (has_playlist b) (take (Z.to_nat (Z.of_nat n_items mod 65536)) (items b)),
   Clear (mkTagBuilder (duration b) (has_playlist b) [])).

Definition SetDuration (d : Z) (b : TagBuilder) : TagBuilder :=
  mkTagBuilder d (has_playlist b) (items b).
Definition SetHasPlaylist (p : bool) (b : TagBuilder) : TagBuilder :=
  mkTagBuilder (duration b) p (items b).

Definition HasType (ty : TagType) (b : TagBuilder) : bool :=
  existsb (λ i, bool_decide (type i = ty)) (items b).

(** [std::array<bool, TAG_NUM_OF_ITEM_TYPES> present] *)
Definition present_table (l : list TagItem) : option (list bool) :=
  foldl (λ acc i, acc ≫= store (tag_index (type i)) true) (Some (replicate 20 false)) l.

(** The items of [l] whose type is not marked. *)
Fixpoint copy_absent (present : list bool) (l acc : list TagItem) : option (list TagItem) :=
  match l with
  | [] => Some acc
  | i :: l =>
      p ← present !! tag_index (type i);
      copy_absent present l (if negb p then acc ++ [i] else acc)
  end.

Definition Complement (other : Tag) (b : TagBuilder) : option TagBuilder :=
  let d := if IsNegative (duration b) then Tag.duration other else duration b in
  let h := has_playlist b || Tag.has_playlist other in
  present ← present_table (items b);
  l ← copy_absent present (Tag.items other) (items b);
  Some (mkTagBuilder d h l).

Definition push (i : TagItem) (b : TagBuilder) : TagBuilder :=
  mkTagBuilder (duration b) (has_playlist b) (items b ++ [i]).

Definition AddItemInternal (ty : TagType) (v : list Z) (b : TagBuilder) : option TagBuilder :=
  assert! negb (length v =? 0) ;;
  f ← TagString.FixTagString v;
  Some (push (mkTagItem ty (default v f)) b).

Definition AddItem (mask : Z) (ty : TagType) (v : list Z) (b : TagBuilder) : option TagBuilder :=
  if (length v =? 0) || negb (IsTagEnabled mask ty) then Some b
  else AddItemInternal ty v b.

Definition AddEmptyItem (ty : TagType) (b : TagBuilder) : TagBuilder :=
  push (mkTagItem ty []) b.

Definition RemoveType (ty : TagType) (b : TagBuilder) : TagBuilder :=
  mkTagBuilder (duration b) (has_playlist b) (filter (λ i, type i ≠ ty) (items b)).

End TagBuilder.

Definition Merge (base add : Tag) : option Tag :=
  b ← TagBuilder.Complement base (TagBuilder.of_tag add);
  Some (TagBuilder.Commit b).1.

(** A null tag is [None]. *)
Definition MergeReplace (base add : option Tag) : option (option Tag) :=
  match base, add with
  | _, None => Some base
  | None, _ => Some add
  | Some base, Some add => t ← Merge base add; Some (Some t)
  end.

(** ** Name tables *)

Lemma tag_table_lookup_type_spec table t n :
  NoDup table.*1 → tag_table_lookup_type table t = Some n ↔ (t, n) ∈ table.
Proof.
  induction table as [|[t' n'] table IH]; simpl; intros Hnd; [set_solver|].
  apply NoDup_cons in Hnd as [Hni Hnd]. rewrite elem_of_cons. case_decide as E.
  - subst t'. split; [intros [= ->]; by left|].
    intros [[= ->]|Hin]; [done|]. exfalso. apply Hni, list_elem_of_fmap. by exists (t, n).
  - rewrite IH by done. split; [by right|]. by intros [[= -> ->]|].
Qed.

Lemma tag_table_lookup_i_spec table name t :
  NoDup ((λ n : list Z, tolower <$> n) <$> table.*2) → t ≠ TAG_NUM_OF_ITEM_TYPES →
  tag_table_lookup_i table name = t ↔ ∃ n, (t, n) ∈ table ∧ (tolower <$> name) = (tolower <$> n).
Proof.
  intros Hnd Ht. revert Hnd.
  induction table as [|[t' n'] table IH]; simpl; intros Hnd.
  { split; [by intros <-|]. by intros (n & ?%not_elem_of_nil & _). }
  apply NoDup_cons in Hnd as [Hni Hnd]. unfold StringEqualsCaseASCII, streq.
  case_bool_decide as E.
  - split; [intros <-; exists n'; split; [by left|done]|].
    intros (n & [[= ->]|Hin]%elem_of_cons & Hn); [done|]. exfalso. apply Hni.
    apply list_elem_of_fmap. exists n. split; [congruence|]. apply list_elem_of_fmap.
    by exists (t, n).
  - rewrite IH by done. split; intros (n & Hin & Hn); exists n; split; try done; [by right|].
    apply elem_of_cons in Hin as [[= -> ->]|]; done.
Qed.

Lemma tag_table_lookup_spec table name t :
  NoDup table.*2 → t ≠ TAG_NUM_OF_ITEM_TYPES →
  tag_table_lookup table name = t ↔ (t, name) ∈ table.
Proof.
  intros Hnd Ht. revert Hnd.
  induction table as [|[t' n'] table IH]; simpl; intros Hnd.
  { split; [by intros <-|]. by intros ?%not_elem_of_nil. }
  apply NoDup_cons in Hnd as [Hni Hnd]. unfold streq. rewrite elem_of_cons.
  case_bool_decide as E; subst.
  - split; [intros <-; by left|]. intros [[= ->]|Hin]; [done|]. exfalso. apply Hni.
    apply list_elem_of_fmap. by exists (t, n').
  - rewrite IH by done. split; [by right|]. by intros [[= -> ->]|].
Qed.

(** Every tag name parses to its own type, whatever the case of its letters,
    and exactly the names of the table are recognised. *)
Theorem tag_name_parse_correct name t :
  t ≠ TAG_NUM_OF_ITEM_TYPES →
  (tag_name_parse name = t ↔ tag_table_lookup_type tag_item_names t = Some name) ∧
  (tag_name_parse_i name = t ↔
     ∃ n, tag_table_lookup_type tag_item_names t = Some n ∧
       (tolower <$> name) = (tolower <$> n)).
Proof.
  intros Ht. unfold tag_name_parse, tag_name_parse_i.
  assert (Ht' : NoDup tag_item_names.*1) by (apply (bool_decide_unpack _); by vm_compute).
  split.
  - rewrite tag_table_lookup_spec, tag_table_lookup_type_spec; try done.
    apply (bool_decide_unpack _); by vm_compute.
  - rewrite tag_table_lookup_i_spec; [|apply (bool_decide_unpack _); by vm_compute|done].
    by setoid_rewrite tag_table_lookup_type_spec.
Qed.

Lemma tag_name_parse_correct_witness :
  tag_name_parse_i (str "albumARTIST") = TAG_ALBUM_ARTIST.
Proof.
  apply (tag_name_parse_correct (str "albumARTIST") TAG_ALBUM_ARTIST); [discriminate|].
  exists (str "AlbumArtist"). split; vm_compute; reflexivity.
Defined.

(** ** Builder and merge *)

(** Every item has a proper type, and the item count fits [num_items]. *)
Definition valid_items (l : list TagItem) : Prop :=
  Forall (λ i, type i ≠ TAG_NUM_OF_ITEM_TYPES) l.

Lemma tag_index_inj t t' : tag_index t = tag_index t' → t = t'.
Proof. by destruct t, t'. Qed.

Lemma tag_index_lt t : t ≠ TAG_NUM_OF_ITEM_TYPES → tag_index t < 20.
Proof. destruct t; simpl; try lia; done. Qed.

(** The values a tag holds for one type, in order. *)
Definition values_of (ty : TagType) (l : list TagItem) : list (list Z) :=
  value <$> filter (λ i, type i = ty) l.

Definition types_of (l : list TagItem) : list TagType := type <$> l.

Lemma present_table_ok l : valid_items l →
  ∃ p, TagBuilder.present_table l = Some p ∧ length p = 20 ∧
    ∀ ty, ty ≠ TAG_NUM_OF_ITEM_TYPES →
      p !! tag_index ty = Some (bool_decide (ty ∈ types_of l)).
Proof.
  unfold TagBuilder.present_table. induction l as [|i l IH] using rev_ind; intros Hv.
  { exists (replicate 20 false). split_and!; [done|done|]. intros ty Hty.
    pose proof (tag_index_lt ty Hty). rewrite lookup_replicate_2 by done. done. }
  apply Forall_app in Hv as [Hv Hi]. apply Forall_cons in Hi as [Hi _].
  destruct (IH Hv) as (p & Hp & Hlen & Hat). rewrite foldl_app, Hp. simpl.
  pose proof (tag_index_lt _ Hi). rewrite store_Some by lia.
  eexists. split_and!; [done|by rewrite length_insert|]. intros ty Hty.
  unfold types_of. rewrite fmap_app. simpl. destruct (decide (ty = type i)) as [->|Hne].
  - rewrite list_lookup_insert_eq by lia. f_equal. symmetry. apply bool_decide_eq_true. set_solver.
  - rewrite list_lookup_insert_ne by (intros E; by apply Hne, tag_index_inj).
    rewrite Hat by done. f_equal. apply bool_decide_ext. unfold types_of. set_solver.
Qed.

Lemma copy_absent_ok present own l acc :
  (∀ ty, ty ≠ TAG_NUM_OF_ITEM_TYPES →
     present !! tag_index ty = Some (bool_decide (ty ∈ types_of own))) →
  valid_items l →
  TagBuilder.copy_absent present l acc
  = Some (acc ++ filter (λ i, type i ∉ types_of own) l).
Proof.
  intros Hp Hv. revert acc. induction Hv as [|i l Hi Hv IH]; intros acc; simpl.
  { by rewrite app_nil_r. }
  rewrite Hp by done. cbn [mbind option_bind]. rewrite IH. rewrite filter_cons.
  destruct (decide (type i ∈ types_of own)) as [Hin|Hin].
  - rewrite bool_decide_eq_true_2 by done. simpl. rewrite decide_False by tauto. done.
  - rewrite bool_decide_eq_false_2 by done. simpl. rewrite decide_True by done.
    by rewrite <-(assoc_L (++)).
Qed.

Lemma Complement_ok other b :
  valid_items (TagBuilder.items b) → valid_items (items other) →
  TagBuilder.Complement other b = Some (TagBuilder.mkTagBuilder
    (if IsNegative (TagBuilder.duration b) then duration other else TagBuilder.duration b)
    (TagBuilder.has_playlist b || has_playlist other)
    (TagBuilder.items b ++
     filter (λ i, type i ∉ types_of (TagBuilder.items b)) (items other))).
Proof.
  intros Hb Ho. unfold TagBuilder.Complement.
  destruct (present_table_ok _ Hb) as (p & -> & _ & Hat). cbn [mbind option_bind].
  by rewrite (copy_absent_ok p (TagBuilder.items b)).
Qed.

Lemma Merge_ok base add :
  valid_items (items base) → valid_items (items add) →
  (Z.of_nat (length (items base) + length (items add)) < 65536)%Z →
  Merge base add = Some (mkTag
    (if IsNegative (duration add) then duration base else duration add)
    (has_playlist add || has_playlist base)
    (items add ++ filter (λ i, type i ∉ types_of (items add)) (items base))).
Proof.
  intros Hb Ha Hlen. unfold Merge. rewrite Complement_ok by done. cbn [mbind option_bind].
  unfold TagBuilder.Commit. simpl.
  pose proof (length_filter (λ i, type i ∉ types_of (items add)) (items base)).
  rewrite Z.mod_small, Nat2Z.id by (rewrite length_app; lia). by rewrite take_ge.
Qed.

(** Merging keeps tags valid; a null tag is neutral. *)
Lemma MergeReplace_valid base add :
  (∀ t, base = Some t → valid_items (items t)) → (∀ t, add = Some t → valid_items (items t)) →
  ∃ r, MergeReplace base add = Some r ∧ (∀ t, r = Some t → valid_items (items t)) ∧
    (r = None → base = None ∧ add = None).
Proof.
  intros Hb Ha. unfold MergeReplace, Merge.
  destruct base as [b|], add as [a|];
    [|exists (Some b); by split_and!|exists (Some a); by split_and!|exists None; by split_and!].
  rewrite Complement_ok; [|by apply Ha|by apply Hb]. cbn [mbind option_bind]. eexists. split; [done|]. split; [|done].
  intros t [= <-]. unfold TagBuilder.Commit, valid_items. simpl. apply Forall_take, Forall_app.
  split; [by apply Ha|]. apply Forall_forall. intros i [_ Hi]%list_elem_of_filter.
  pose proof (Hb b eq_refl) as Hv. unfold valid_items in Hv. rewrite Forall_forall in Hv. auto.
Qed.

Lemma values_of_absent ty l : ty ∉ types_of l → values_of ty l = [].
Proof.
  intros H. unfold values_of. rewrite filter_none; [done|].
  apply Forall_forall. intros i Hi <-. apply H. by apply list_elem_of_fmap_2.
Qed.

Lemma values_of_nil ty l : values_of ty l = [] → ty ∉ types_of l.
Proof.
  intros H (i & -> & Hi)%list_elem_of_fmap. unfold values_of in H.
  apply fmap_nil_inv in H. assert (Hin : i ∈ filter (λ j, type j = type i) l)
    by (by apply list_elem_of_filter). rewrite H in Hin. by apply not_elem_of_nil in Hin.
Qed.

Lemma values_of_app ty l k : values_of ty (l ++ k) = values_of ty l ++ values_of ty k.
Proof. unfold values_of. by rewrite filter_app, fmap_app. Qed.

Lemma values_of_filter ty own l :
  values_of ty (filter (λ i, type i ∉ types_of own) l)
  = if decide (ty ∈ types_of own) then [] else values_of ty l.
Proof.
  unfold values_of. rewrite list_filter_filter. case_decide as E.
  - rewrite filter_none; [done|]. apply Forall_forall. intros i _ [<- Hp]. done.
  - f_equal. apply list_filter_iff. intros i. split; [by intros []|]. by intros <-.
Qed.

(** C40: [Tag::Merge] never fails on valid tags with fewer than 65536 items between them;
    for each type it keeps the values
    of [add] when it has any and takes the values of [base] otherwise, and it falls
    back to the duration of [base] only when [add] has none. *)
Theorem Merge_correct base add :
  valid_items (items base) → valid_items (items add) →
  (Z.of_nat (length (items base) + length (items add)) < 65536)%Z →
  ∃ t, Merge base add = Some t ∧
    duration t = (if IsNegative (duration add) then duration base else duration add) ∧
    has_playlist t = has_playlist add || has_playlist base ∧
    ∀ ty, values_of ty (items t) =
      match values_of ty (items add) with
      | [] => values_of ty (items base)
      | v => v
      end.
Proof.
  intros Hb Ha Hlen. rewrite Merge_ok by done. eexists. split_and!; [done..|].
  intros ty. simpl. rewrite values_of_app, values_of_filter. case_decide as E.
  - rewrite app_nil_r. destruct (values_of ty (items add)) eqn:Ev; [|done].
    by apply values_of_nil in Ev.
  - by rewrite (values_of_absent ty (items add)) by done.
Qed.

Lemma Merge_correct_witness :
  ∃ t, Merge (mkTag 5000 false [mkTagItem TAG_ARTIST [97]; mkTagItem TAG_TITLE [98]]%Z)
             (mkTag (-1) true [mkTagItem TAG_ARTIST [99]]%Z) = Some t ∧
    values_of TAG_ARTIST (items t) = [[99]]%Z ∧ values_of TAG_TITLE (items t) = [[98]]%Z.
Proof.
  destruct (Merge_correct (mkTag 5000 false [mkTagItem TAG_ARTIST [97]; mkTagItem TAG_TITLE [98]]%Z)
    (mkTag (-1) true [mkTagItem TAG_ARTIST [99]]%Z)) as (t & Ht & _ & _ & Hv).
  - repeat constructor; discriminate.
  - repeat constructor; discriminate.
  - reflexivity.
  - exists t. split; [exact Ht|]. rewrite !Hv. split; reflexivity.
Defined.

(** A value the builder accepts is stored in clean UTF-8. *)
Lemma AddItem_clean mask ty v b :
  Forall is_byte v → v ≠ [] → IsTagEnabled mask ty = true →
  ∃ v', TagBuilder.AddItem mask ty v b = Some (TagBuilder.push (mkTagItem ty v') b) ∧
    TagString.clean v' ∧ length v' = length v.
Proof.
  intros Hb Hne Hen. unfold TagBuilder.AddItem, TagBuilder.AddItemInternal. rewrite Hen.
  destruct v as [|c v]; [done|]. cbn [length Nat.eqb orb negb].
  destruct (TagString.FixTagString_total _ Hb) as (r & Hr & Hc & Hl & _).
  rewrite check_bind by done. rewrite Hr. cbn [mbind option_bind].
  by exists (default (c :: v) r).
Qed.

(** Adding an enabled tag to a builder and committing yields a tag whose last
    value for that type is the sanitised value; the builder is empty afterwards. *)
Theorem AddItem_Commit_correct mask ty v b :
  Forall is_byte v → v ≠ [] → IsTagEnabled mask ty = true →
  (Z.of_nat (S (length (TagBuilder.items b))) < 65536)%Z →
  ∃ b' t v', TagBuilder.AddItem mask ty v b = Some b' ∧
    TagBuilder.Commit b' = (t, TagBuilder.empty) ∧
    TagString.clean v' ∧ length v' = length v ∧
    values_of ty (items t) = values_of ty (TagBuilder.items b) ++ [v'] ∧
    (∀ ty', ty' ≠ ty → values_of ty' (items t) = values_of ty' (TagBuilder.items b)) ∧
    duration t = TagBuilder.duration b ∧ has_playlist t = TagBuilder.has_playlist b.
Proof.
  intros Hb Hne Hen Hlen. destruct (AddItem_clean mask ty v b Hb Hne Hen) as (v' & Ha & Hc & Hl).
  rewrite Ha. eexists _, _, v'. split_and!; [done|reflexivity|done|done|..]; try done.
  - simpl. rewrite Z.mod_small, Nat2Z.id by (rewrite length_app; simpl; lia).
    rewrite take_ge by done. rewrite values_of_app. f_equal.
    unfold values_of. by rewrite filter_cons_True.
  - intros ty' Hty. simpl. rewrite Z.mod_small, Nat2Z.id by (rewrite length_app; simpl; lia).
    rewrite take_ge by done. rewrite values_of_app.
    unfold values_of at 2. rewrite filter_cons_False by (simpl; congruence).
    simpl. by rewrite app_nil_r.
Qed.

Lemma AddItem_Commit_correct_witness :
  ∃ b' t v', TagBuilder.AddItem default_tag_mask TAG_TITLE [97; 10]%Z TagBuilder.empty = Some b' ∧
    TagBuilder.Commit b' = (t, TagBuilder.empty) ∧ values_of TAG_TITLE (items t) = [v'].
Proof.
  destruct (AddItem_Commit_correct default_tag_mask TAG_TITLE [97; 10]%Z TagBuilder.empty)
    as (b' & t & v' & H1 & H2 & _ & _ & H3 & _).
  - repeat constructor; vm_compute; congruence.
  - discriminate.
  - reflexivity.
  - reflexivity.
  - exists b', t, v'. split; [exact H1|]. split; [exact H2|exact H3].
Defined.

End Tag.
