(* ===== verification/Song.v ===== *)
(** * Songs

    [DetachedSong.hxx], [DetachedSong.cxx] and the time arithmetic of [Chrono.hxx].
    A [SongTime] is a 32-bit unsigned number of milliseconds, a [SignedSongTime] a
    32-bit signed one. *)

From Stdlib Require Import ZArith Lia ZifyBool.
From stdpp Require Import base numbers sets strings list.
From S2P Require Import Prelude CString UriUtil Tag.

Set Default Goal Selector "!".
Local Open Scope Z_scope.

Module Song.
Import Tag.

(** ** Time *)

Definition u32 (t : Z) : Z := t mod 2 ^ 32.
Definition s32 (t : Z) : Z := (t + 2 ^ 31) mod 2 ^ 32 - 2 ^ 31.

(** [SongTime::operator-], [operator+] and the conversions. *)
Definition time_sub (b a : Z) : Z := u32 (b - a).
Definition time_add (a b : Z) : Z := u32 (a + b).
Definition SongTime_of (t : Z) : Z := u32 t.
Definition SignedSongTime_of (t : Z) : Z := s32 t.
Definition IsPositive (t : Z) : bool := 0 <? t.
Definition ToS (t : Z) : Z := Z.quot t 1000.
Definition RoundS (t : Z) : Z := Z.quot (t + 500) 1000.

(** ** Songs *)

(** [class DetachedSong] *)
Record DetachedSong := mkSong {
  uri : list Z;
  real_uri : list Z;
  tag : Tag;
  mtime : Z;
  start_time : Z;
  end_time : Z;
}.

#[export] Instance DetachedSong_eq_dec : EqDecision DetachedSong.
Proof. solve_decision. Defined.

(** The constructor from a URI, and the one with a tag. *)
Definition of_uri (_uri : list Z) : DetachedSong := mkSong _uri [] empty 0 0 0.
Definition of_uri_tag (_uri : list Z) (_tag : Tag) : DetachedSong := mkSong _uri [] _tag 0 0 0.

Definition GetURI (s : DetachedSong) : list Z := uri s.
Definition SetURI (u : list Z) (s : DetachedSong) : DetachedSong :=
  mkSong u (real_uri s) (tag s) (mtime s) (start_time s) (end_time s).
Definition HasRealURI (s : DetachedSong) : bool := negb (length (real_uri s) =? 0)%nat.
Definition GetRealURI (s : DetachedSong) : list Z := if HasRealURI s then real_uri s else uri s.
Definition SetRealURI (u : list Z) (s : DetachedSong) : DetachedSong :=
  mkSong (uri s) u (tag s) (mtime s) (start_time s) (end_time s).

Definition IsSame (s other : DetachedSong) : bool := CString.streq (uri s) (uri other).
Definition IsURI (s : DetachedSong) (other_uri : list Z) : bool := CString.streq (uri s) other_uri.

Definition IsRemote (s : DetachedSong) : bool := UriUtil.uri_has_scheme (GetRealURI s).
Definition IsFile (s : DetachedSong) : bool := negb (IsRemote s).
Definition IsAbsoluteFile (s : DetachedSong) : bool := UriUtil.IsAbsolute (GetRealURI s).
Definition IsInDatabase (s : DetachedSong) : bool :=
  negb (UriUtil.uri_has_scheme (GetURI s)) && negb (UriUtil.IsAbsolute (GetURI s)).

Definition GetTag (s : DetachedSong) : Tag := tag s.
Definition SetTag (t : Tag) (s : DetachedSong) : DetachedSong :=
  mkSong (uri s) (real_uri s) t (mtime s) (start_time s) (end_time s).

(** [MoveTagFrom] and [MoveTagItemsFrom]; the source keeps the old items. *)
Definition MoveTagFrom (s other : DetachedSong) : DetachedSong * DetachedSong :=
  let '(t, t') := move_assign (tag s) (tag other) in (SetTag t s, SetTag t' other).
Definition MoveTagItemsFrom (s other : DetachedSong) : DetachedSong * DetachedSong :=
  let '(t, t') := MoveItemsFrom (tag s) (tag other) in (SetTag t s, SetTag t' other).

Definition GetLastModified (s : DetachedSong) : Z := mtime s.
Definition SetLastModified (v : Z) (s : DetachedSong) : DetachedSong :=
  mkSong (uri s) (real_uri s) (tag s) v (start_time s) (end_time s).
Definition GetStartTime (s : DetachedSong) : Z := start_time s.
Definition SetStartTime (v : Z) (s : DetachedSong) : DetachedSong :=
  mkSong (uri s) (real_uri s) (tag s) (mtime s) v (end_time s).
Definition GetEndTime (s : DetachedSong) : Z := end_time s.
Definition SetEndTime (v : Z) (s : DetachedSong) : DetachedSong :=
  mkSong (uri s) (real_uri s) (tag s) (mtime s) (start_time s) v.

Definition GetDuration (s : DetachedSong) : Z :=
  let a := start_time s in
  let b := end_time s in
  if negb (IsPositive b) then
    if IsNegative (duration (tag s)) then duration (tag s)
    else SignedSongTime_of (time_sub (SongTime_of (duration (tag s))) a)
  else SignedSongTime_of (time_sub b a).

(** ** Properties *)

Lemma s32_u32_sub b a : 0 ≤ a < 2 ^ 31 → 0 ≤ b < 2 ^ 31 →
  SignedSongTime_of (time_sub b a) = b - a.
Proof.
  intros Ha Hb. unfold SignedSongTime_of, time_sub, s32, u32.
  destruct (decide (a ≤ b)).
  - rewrite (Z.mod_small (b - a)) by lia. rewrite Z.mod_small; lia.
  - replace ((b - a) mod 2 ^ 32) with (b - a + 2 ^ 32).
    + replace (b - a + 2 ^ 32 + 2 ^ 31) with (b - a + 2 ^ 31 + 1 * 2 ^ 32) by lia.
      rewrite Z.mod_add, Z.mod_small; lia.
    + apply (Z.mod_unique_pos _ _ (-1)); lia.
Qed.

(** The times a song carries are below 2^31 ms. *)
Definition times_ok (s : DetachedSong) : Prop :=
  0 ≤ start_time s < 2 ^ 31 ∧ 0 ≤ end_time s < 2 ^ 31 ∧ - 2 ^ 31 ≤ duration (tag s) < 2 ^ 31.

(** [GetDuration] is the length of the sub-song: up to its end mark when it
    has one, up to the end of the file otherwise, and negative (unknown) when the
    file has no duration; the 32-bit wrap-around of the subtraction is undone by
    the conversion to a signed time. *)
Theorem GetDuration_correct s :
  times_ok s →
  GetDuration s =
    (if 0 <? end_time s then end_time s - start_time s
     else if duration (tag s) <? 0 then duration (tag s)
     else duration (tag s) - start_time s).
Proof.
  intros (Ha & Hb & Hd). unfold GetDuration, IsPositive, IsNegative, SongTime_of.
  destruct (0 <? end_time s) eqn:E; cbn [negb].
  - by apply s32_u32_sub.
  - destruct (duration (tag s) <? 0) eqn:E'; [done|].
    unfold u32. rewrite Z.mod_small by lia. apply s32_u32_sub; lia.
Qed.

Lemma GetDuration_correct_witness :
  GetDuration (SetStartTime 1000 (of_uri_tag (str "a") (mkTag 60000 false []))) = 59000.
Proof.
  rewrite (GetDuration_correct (SetStartTime 1000 (of_uri_tag (str "a") (mkTag 60000 false [])))).
  - reflexivity.
  - repeat split; cbn; lia.
Defined.

End Song.
