(* ===== verification/Prog.v ===== *)
(** * Stateful programs

    The state monad of the code that mutates a player or a playlist and throws:
    an exception keeps the state reached so far, as in C++; [Fail] is a failed
    assertion or an undefined access.  [wp] is its weakest precondition, with one
    postcondition for normal and one for exceptional termination; a program that
    satisfies a [wp] terminates and does not fail. *)

From Stdlib Require Import ZArith Lia ZifyBool.
From stdpp Require Import base numbers list.
From S2P Require Import Prelude.

Set Default Goal Selector "!".

(** [enum class PlaylistResult] of [PlaylistError.hxx]. *)
Inductive PlaylistResult :=
| SUCCESS | DENIED | NO_SUCH_SONG | NO_SUCH_LIST | LIST_EXISTS | BAD_NAME | BAD_RANGE
| NOT_PLAYING | TOO_LARGE | DISABLED.

(** [enum ack] of [protocol/Ack.hxx]. *)
Inductive ack :=
| ACK_ERROR_NOT_LIST | ACK_ERROR_ARG | ACK_ERROR_PASSWORD | ACK_ERROR_PERMISSION
| ACK_ERROR_UNKNOWN | ACK_ERROR_NO_EXIST | ACK_ERROR_PLAYLIST_MAX | ACK_ERROR_SYSTEM
| ACK_ERROR_PLAYLIST_LOAD | ACK_ERROR_UPDATE_ALREADY | ACK_ERROR_PLAYER_SYNC | ACK_ERROR_EXIST.

(** Exceptions: [PlaylistError] and [ProtocolError] with their codes, or a
    [std::runtime_error]. *)
Inductive exn :=
| PlaylistError (code : PlaylistResult)
| ProtocolError (code : ack) (what : list Z)
| RuntimeError (what : list Z).

Inductive result (W A : Type) :=
| Done (a : A) (w : W)
| Raised (e : exn) (w : W)
| Fail.
Arguments Done {W A} _ _.
Arguments Raised {W A} _ _.
Arguments Fail {W A}.

Definition prog (W A : Type) : Type := W → result W A.

Section Programs.
Context {W : Type}.

Definition ret {A} (a : A) : prog W A := λ w, Done a w.

Definition bind {A B} (m : prog W A) (k : A → prog W B) : prog W B := λ w,
  match m w with
  | Done a w => k a w
  | Raised e w => Raised e w
  | Fail => Fail
  end.

Definition throw {A} (e : exn) : prog W A := λ w, Raised e w.
Definition abort {A} : prog W A := λ _, Fail.
Definition get : prog W W := λ w, Done w w.
Definition modify (f : W → W) : prog W unit := λ w, Done tt (f w).
Definition assert_ (b : bool) : prog W unit := λ w, if b then Done tt w else Fail.
Definition lift {A} (o : option A) : prog W A := λ w,
  match o with Some a => Done a w | None => Fail end.

(** [try { m } catch (...) { h }]; the handler may rethrow. *)
Definition try_catch {A} (m : prog W A) (h : exn → prog W A) : prog W A := λ w,
  match m w with
  | Done a w => Done a w
  | Raised e w => h e w
  | Fail => Fail
  end.

(** [for (i = n - 1; i >= 0; --i) body(i)] *)
Fixpoint down_loop (n : nat) (body : nat → prog W unit) : prog W unit :=
  match n with
  | O => ret tt
  | S n => bind (body n) (λ _, down_loop n body)
  end.

(** [for (i = a; n rounds; ++i) body(i)] *)
Fixpoint up_loop (n a : nat) (body : nat → prog W unit) : prog W unit :=
  match n with
  | O => ret tt
  | S n => bind (body a) (λ _, up_loop n (S a) body)
  end.

(** ** Weakest preconditions *)

Definition wp {A} (m : prog W A) (Q : A → W → Prop) (X : exn → W → Prop) (w : W) : Prop :=
  match m w with
  | Done a w => Q a w
  | Raised e w => X e w
  | Fail => False
  end.

Lemma wp_ret {A} (a : A) Q X w : Q a w → wp (ret a) Q X w.
Proof. done. Qed.

Lemma wp_bind {A B} (m : prog W A) (k : A → prog W B) Q X w :
  wp m (λ a w', wp (k a) Q X w') X w → wp (bind m k) Q X w.
Proof. unfold wp, bind. by destruct (m w). Qed.

Lemma wp_assoc {A B C} (m : prog W A) (k : A → prog W B) (h : B → prog W C) Q X w :
  wp (bind (bind m k) h) Q X w → wp (bind m (λ a, bind (k a) h)) Q X w.
Proof. unfold wp, bind. by destruct (m w). Qed.

Lemma wp_mono {A} (m : prog W A) (Q Q' : A → W → Prop) (X X' : exn → W → Prop) w :
  wp m Q X w → (∀ a w', Q a w' → Q' a w') → (∀ e w', X e w' → X' e w') → wp m Q' X' w.
Proof. unfold wp. destruct (m w); eauto. Qed.

Lemma wp_throw {A} e (Q : A → W → Prop) (X : exn → W → Prop) w : X e w → wp (throw e) Q X w.
Proof. done. Qed.

Lemma wp_get Q X w : Q w w → wp get Q X w.
Proof. done. Qed.

Lemma wp_modify f Q X w : Q tt (f w) → wp (modify f) Q X w.
Proof. done. Qed.

Lemma wp_assert b Q X w : b = true → Q tt w → wp (assert_ b) Q X w.
Proof. by intros ->. Qed.

Lemma wp_lift {A} (o : option A) a Q X w : o = Some a → Q a w → wp (lift o) Q X w.
Proof. by intros ->. Qed.

Lemma wp_try {A} (m : prog W A) h Q X w :
  wp m Q (λ e w', wp (h e) Q X w') w → wp (try_catch m h) Q X w.
Proof. unfold wp, try_catch. by destruct (m w). Qed.

Lemma wp_down_loop (I : nat → W → Prop) body X n w :
  (∀ k w, k < n → I (S k) w → wp (body k) (λ _ w', I k w') X w) →
  I n w → wp (down_loop n body) (λ _ w', I 0 w') X w.
Proof.
  revert w. induction n as [|n IH]; intros w Hstep HI; [done|]. cbn [down_loop].
  apply wp_bind. eapply wp_mono; [by apply Hstep; [lia|]| |done].
  intros [] w' HI'. apply IH; [|done]. intros k w0 Hk. apply Hstep. lia.
Qed.

Lemma wp_up_loop (I : nat → W → Prop) body X n a w :
  (∀ k w, a ≤ k < a + n → I k w → wp (body k) (λ _ w', I (S k) w') X w) →
  I a w → wp (up_loop n a body) (λ _ w', I (a + n) w') X w.
Proof.
  revert a w. induction n as [|n IH]; intros a w Hstep HI.
  { simpl. apply wp_ret. by rewrite Nat.add_0_r. }
  cbn [up_loop]. apply wp_bind. eapply wp_mono; [apply Hstep; [lia|done]| |done].
  intros [] w' HI'. replace (a + S n) with (S a + n) by lia. apply IH; [|done].
  intros k w0 Hk. apply Hstep. lia.
Qed.

(** A [wp] says the program terminates normally or by an exception. *)
Lemma wp_elim {A} (m : prog W A) Q X w : wp m Q X w →
  (∃ a w', m w = Done a w' ∧ Q a w') ∨ (∃ e w', m w = Raised e w' ∧ X e w').
Proof. unfold wp. destruct (m w); naive_solver. Qed.

End Programs.

(** A program on a component of a larger state. *)
Definition zoom {W V A} (view : W → V) (update : V → W → W) (m : prog V A) : prog W A := λ w,
  match m (view w) with
  | Done a v => Done a (update v w)
  | Raised e v => Raised e (update v w)
  | Fail => Fail
  end.

Lemma wp_zoom {W V A} (view : W → V) update (m : prog V A) Q X w :
  wp m (λ a v, Q a (update v w)) (λ e v, X e (update v w)) (view w) →
  wp (zoom view update m) Q X w.
Proof. unfold wp, zoom. by destruct (m (view w)). Qed.

Declare Scope prog_scope.
Delimit Scope prog_scope with prog.
Notation "x <- m ;; k" := (bind m (λ x, k))
  (at level 100, m at next level, right associativity) : prog_scope.
Notation "m ;; k" := (bind m (λ _, k))
  (at level 100, right associativity) : prog_scope.

(** Stepping through straight-line code. *)
Ltac wp_step :=
  lazymatch goal with
  | |- wp (bind _ _) _ _ _ => apply wp_bind
  | |- wp (ret _) _ _ _ => apply wp_ret
  | |- wp (throw _) _ _ _ => apply wp_throw
  | |- wp get _ _ _ => apply wp_get
  | |- wp (modify _) _ _ _ => apply wp_modify
  | |- wp (try_catch _ _) _ _ _ => apply wp_try
  end.
Ltac wp_steps := repeat (wp_step; cbv beta).
