(* ===== verification/Threads.v ===== *)
(** * Threads

    A thread of the program that shares its state with other threads.  A [proc] is a
    program of atomic actions; other threads can act at its [Yield]s only, which stand
    where the code takes or releases the lock, or waits.  [valid c p Q w] says of the
    thread [p] in the state [w], for arbitrary interference by the others:
    - no action fails, and each keeps the promise [guar] to the others;
    - whenever the others can act the shared state is in order;
    - when [p] returns, [Q] holds;
    - at every point from which an answer is owed to another thread, it is given within
      [c] steps, or [p] returns within [c] steps, provided the others are [fair] from
      then on.

    The rules follow the structure of the code, so a thread is verified method by
    method. *)

From Stdlib Require Import ZArith Lia FunctionalExtensionality.
From stdpp Require Import base numbers relations.
From S2P Require Import Prelude Prog.

Set Default Goal Selector "!".

Section Proc.
Context {W : Type}.

(** [Loop body s k]: run [body] from [s] until it returns [inr b], then go on with [k b]. *)
Inductive proc : Set → Type :=
| Pure {A : Set} (a : A) : proc A
| Act {A B : Set} (m : prog W B) (k : B → proc A) : proc A
| Yield {A : Set} (k : proc A) : proc A
| Loop {A S B : Set} (body : S → proc (S + B)) (s : S) (k : B → proc A) : proc A.

Fixpoint pbind {A C : Set} (p : proc A) : (A → proc C) → proc C :=
  match p in proc A return (A → proc C) → proc C with
  | Pure a => λ f, f a
  | Act m k => λ f, Act m (λ b, pbind (k b) f)
  | Yield k => λ f, Yield (pbind k f)
  | Loop body s k => λ f, Loop body s (λ b, pbind (k b) f)
  end.

Definition again {A S B : Set} (body : S → proc (S + B)) (k : B → proc A) (r : S + B) : proc A :=
  match r with inl s => Loop body s k | inr b => k b end.

Definition act {B : Set} (m : prog W B) : proc B := Act m Pure.
Definition yield : proc unit := Yield (Pure tt).
Definition loop {S B : Set} (body : S → proc (S + B)) (s : S) : proc B := Loop body s Pure.

Lemma pbind_assoc {A B C : Set} (p : proc A) (f : A → proc B) (g : B → proc C) :
  pbind (pbind p f) g = pbind p (λ a, pbind (f a) g).
Proof.
  revert f. induction p as [A a|A X m k IH|A k IH|A S X body IHbody s k IH]; intros f; cbn [pbind].
  - done.
  - f_equal. extensionality b. apply IH.
  - by rewrite IH.
  - f_equal. extensionality b. apply IH.
Qed.

Lemma pbind_Pure {A : Set} (p : proc A) : pbind p Pure = p.
Proof.
  induction p as [A a|A X m k IH|A k IH|A S X body IHbody s k IH]; cbn [pbind].
  - done.
  - f_equal. extensionality b. apply IH.
  - by rewrite IH.
  - f_equal. extensionality b. apply IH.
Qed.

Lemma pbind_again {A C S B : Set} (body : S → proc (S + B)) (k : B → proc A) (f : A → proc C) s :
  pbind (body s) (again body (λ b, pbind (k b) f)) = pbind (pbind (body s) (again body k)) f.
Proof. rewrite pbind_assoc. f_equal. extensionality r. by destruct r. Qed.

(** Running up to the next yield: the code behind it. *)
Fixpoint resume (fuel : nat) {A : Set} (p : proc A) (w : W) : option (proc A * W) :=
  match fuel with
  | O => None
  | S fuel =>
      match p in proc A return option (proc A * W) with
      | Pure _ => None
      | Act m k => match m w with Done b w' => resume fuel (k b) w' | _ => None end
      | Yield k => Some (k, w)
      | Loop body s k => resume fuel (pbind (body s) (again body k)) w
      end
  end.

End Proc.

Arguments proc : clear implicits.

(** What the other threads may do and what they rely on.  [shared] holds whenever they can
    act; [served] counts the requests that were answered; [pending] says that one is
    waiting. *)
Record protocol (W : Type) := mkProtocol {
  shared : W → Prop;
  rely : W → W → Prop;
  guar : W → W → Prop;
  served : W → nat;
  pending : W → Prop;
  fair : W → W;
}.
Arguments shared {W} _ _.
Arguments rely {W} _ _ _.
Arguments guar {W} _ _ _.
Arguments served {W} _ _.
Arguments pending {W} _ _.
Arguments fair {W} _ _.

(** The company a thread is in: anybody the protocol allows, only the [fair] step, or
    nobody (what happens up to the first yield). *)
Inductive mode := Free | Calm | Never.

#[global] Instance mode_eq_dec : EqDecision mode.
Proof. solve_decision. Defined.

Section Logic.
Context {W : Type} (R : protocol W).

Definition company (m : mode) : W → W → Prop :=
  match m with
  | Free => rely R
  | Calm => λ w w', w' = fair R w
  | Never => λ _ _, False
  end.

(** More than [k] requests have been answered, or the next one is waiting. *)
Definition owes (m : mode) (k : nat) (w : W) : Prop :=
  k < served R w ∨ m ≠ Never ∧ k = served R w ∧ pending R w.

Class ProtocolLaws := {
  rely_refl w : rely R w w;
  rely_fair w : rely R w (fair R w);
  owes_fair k w : owes Free k w → owes Free k (fair R w);
  served_guar w w' : guar R w w' → served R w ≤ served R w';
  owes_guar k w w' : guar R w w' → owes Free k w → owes Free k w';
}.
Context {RL : ProtocolLaws}.

Lemma owes_Free m k w : owes m k w → owes Free k w.
Proof. intros [?|(_ & ? & ?)]; [by left|by right]. Qed.

Lemma owes_keep m k w w' : (owes Free k w → owes Free k w') → (k < served R w → k < served R w') →
  owes m k w → owes m k w'.
Proof.
  intros H1 H2 Ho. pose proof (H1 (owes_Free _ _ _ Ho)) as [?|(_ & ? & ?)]; [by left|].
  destruct Ho as [|(? & _)]; [left; auto|by right].
Qed.

Lemma owes_guar_mode m k w w' : guar R w w' → owes m k w → owes m k w'.
Proof.
  intros Hg. apply owes_keep; [by apply owes_guar|]. pose proof (served_guar _ _ Hg). lia.
Qed.

Section Mode.
Context (md : mode).

Lemma company_fair k w : md ≠ Never ∧ k = served R w ∧ pending R w → company md w (fair R w).
Proof. intros [Hm _]. destruct md; [apply rely_fair|done|done]. Qed.

Lemma owes_fair_mode k w : md ≠ Never ∧ k = served R w ∧ pending R w → owes md k (fair R w).
Proof.
  intros (Hm & H). destruct (owes_fair k w) as [?|(_ & ?)]; [by right|by left|by right].
Qed.

(** Undisturbed and with fair company, the thread answers request number [k] or returns. *)
Fixpoint live (c k : nat) {A : Set} (p : proc W A) (Q : A → W → Prop) (w : W) : Prop :=
  match p in proc _ A return (A → W → Prop) → Prop with
  | Pure a => λ Q, Q a w ∧ owes md k w
  | Act m h => λ Q,
      match c with
      | O => False
      | S c => ∃ b w', m w = Done b w' ∧ live c k (h b) Q w'
      end
  | Yield h => λ Q,
      k < served R w ∨ match c with O => False | S c => live c k h Q (fair R w) end
  | Loop body s h => λ Q,
      match c with O => False | S c => live c k (pbind (body s) (again body h)) Q w end
  end Q.

Fixpoint safe (n c : nat) {A : Set} (p : proc W A) (Q : A → W → Prop) (w : W) : Prop :=
  match n with
  | O => True
  | S n =>
      (∀ k, owes md k w → live c k p Q w) ∧
      match p in proc _ A return (A → W → Prop) → Prop with
      | Pure a => λ Q, Q a w
      | Act m h => λ Q, ∃ b w', m w = Done b w' ∧ guar R w w' ∧ safe n c (h b) Q w'
      | Yield h => λ Q, shared R w ∧ ∀ w', company md w w' → safe n c h Q w'
      | Loop body s h => λ Q, safe n c (pbind (body s) (again body h)) Q w
      end Q
  end.

Definition valid (c : nat) {A : Set} (p : proc W A) (Q : A → W → Prop) (w : W) : Prop :=
  ∀ n, safe n c p Q w.

(** ** Monotonicity *)

Lemma live_mono c c' k {A : Set} (p : proc W A) (Q Q' : A → W → Prop) w :
  c ≤ c' → (∀ a w', Q a w' → Q' a w') → live c k p Q w → live c' k p Q' w.
Proof.
  revert c' A p Q Q' w. induction c as [|c IH]; intros c' A p Q Q' w Hc HQ.
  { destruct p as [A a|A B m h|A h|A S B body s h]; cbn [live]; [|done| |done].
    - destruct c'; cbn [live]; intros [? ?]; auto.
    - destruct c'; cbn [live]; tauto. }
  destruct c' as [|c']; [lia|].
  destruct p as [A a|A B m h|A h|A S B body s h]; cbn [live].
  - intros [? ?]; auto.
  - intros (b & w' & Hm & H). exists b, w'. split; [done|]. eapply IH; [lia|exact HQ|done].
  - intros [H|H]; [by left|right]. eapply IH; [lia|exact HQ|done].
  - intros H. eapply IH; [lia|exact HQ|done].
Qed.

Lemma safe_mono n n' c c' {A : Set} (p : proc W A) (Q Q' : A → W → Prop) w :
  n' ≤ n → c ≤ c' → (∀ a w', Q a w' → Q' a w') → safe n c p Q w → safe n' c' p Q' w.
Proof.
  revert n' A p Q Q' w. induction n as [|n IH]; intros n' A p Q Q' w Hn Hc HQ.
  { by destruct n'; [|lia]. }
  destruct n' as [|n']; [done|]. cbn [safe]. intros [Hl Hs].
  split; [intros k Hk; eapply live_mono; eauto|].
  destruct p as [A a|A B m h|A h|A S B body s h]; [by auto| | |].
  - destruct Hs as (b & w' & Hm & Hg & Hs). exists b, w'. split; [done|]. split; [done|].
    eapply IH; [lia|done|exact HQ|done].
  - destruct Hs as [Hi Hs]. split; [done|]. intros w' Hw.
    eapply IH; [lia|done|exact HQ|by apply Hs].
  - eapply IH; [lia|done|exact HQ|done].
Qed.

Lemma valid_mono c c' {A : Set} (p : proc W A) (Q Q' : A → W → Prop) w :
  valid c p Q w → c ≤ c' → (∀ a w', Q a w' → Q' a w') → valid c' p Q' w.
Proof. intros H Hc HQ n. by eapply safe_mono; [reflexivity|exact Hc|exact HQ|]. Qed.

Lemma valid_live c k {A : Set} (p : proc W A) (Q : A → W → Prop) w :
  valid c p Q w → owes md k w → live c k p Q w.
Proof. intros H Hk. destruct (H 1) as [Hl _]. auto. Qed.

(** ** Rules *)

Lemma valid_pure c {A : Set} (a : A) (Q : A → W → Prop) w : Q a w → valid c (Pure a) Q w.
Proof.
  intros HQ [|n]; [done|]. split; [|done]. intros k Hk. by destruct c.
Qed.

Lemma valid_act c {A B : Set} (m : prog W B) (h : B → proc W A) (Q : A → W → Prop) w :
  wp m (λ b w', guar R w w' ∧ valid c (h b) Q w') (λ _ _, False) w →
  valid (S c) (Act m h) Q w.
Proof.
  unfold wp. intros Hm [|n]; [done|].
  destruct (m w) as [b w'|e w'|] eqn:E; [|done|done]. destruct Hm as [Hg Hv]. split.
  - intros k Hk. exists b, w'. split; [done|]. eapply valid_live; [done|]. by eapply owes_guar_mode.
  - exists b, w'. split; [done|]. split; [done|].
    eapply safe_mono; [reflexivity|apply Nat.le_succ_diag_r|done|apply Hv].
Qed.

Lemma valid_yield c {A : Set} (h : proc W A) (Q : A → W → Prop) w :
  shared R w → (∀ w', company md w w' → valid c h Q w') → valid (S c) (Yield h) Q w.
Proof.
  intros Hi Hv [|n]; [done|]. split.
  - intros k [Hk|Hk]; [by left|right].
    eapply valid_live; [apply Hv, (company_fair k), Hk|]. by apply owes_fair_mode.
  - split; [done|]. intros w' Hw. eapply safe_mono; [reflexivity|apply Nat.le_succ_diag_r|done|by apply Hv].
Qed.

Lemma live_bind c1 c2 k {A B : Set} (p : proc W A) (f : A → proc W B) (Q' : A → W → Prop)
    (Q : B → W → Prop) w :
  (∀ a w', Q' a w' → owes md k w' → live c2 k (f a) Q w') →
  live c1 k p Q' w → live (c1 + c2) k (pbind p f) Q w.
Proof.
  revert A p f Q' w. induction c1 as [|c IH]; intros A p f Q' w Hf Hp.
  { destruct p as [A a|A C m h|A h|A S C body s h]; cbn [live] in Hp; [|done| |done].
    - destruct Hp. by apply Hf.
    - destruct Hp as [Hk|[]]. cbn [pbind Nat.add]. destruct c2; cbn [live]; auto. }
  destruct p as [A a|A C m h|A h|A S C body s h]; cbn [live] in Hp.
  - destruct Hp as [HQ Hk]. eapply live_mono; [|done|by apply Hf]. lia.
  - destruct Hp as (b & w' & Hm & H). exists b, w'. split; [done|]. by eapply IH.
  - destruct Hp as [H|H]; [by left|right]. by eapply IH.
  - cbn [live pbind Nat.add]. rewrite pbind_again. by eapply IH.
Qed.

Lemma safe_bind n c1 c2 {A B : Set} (p : proc W A) (f : A → proc W B) (Q' : A → W → Prop)
    (Q : B → W → Prop) w :
  (∀ a w' n', n' ≤ n → Q' a w' → safe n' (c1 + c2) (f a) Q w') →
  (∀ a w' k, Q' a w' → owes md k w' → live c2 k (f a) Q w') →
  safe n c1 p Q' w → safe n (c1 + c2) (pbind p f) Q w.
Proof.
  revert A p f Q' w. induction n as [|n IH]; intros A p f Q' w Hf Hl; [done|].
  cbn [safe]. intros [Hk Hs].
  assert (Hlive : ∀ k, owes md k w → live (c1 + c2) k (pbind p f) Q w).
  { intros k Ho. eapply live_bind; [|by apply Hk]. intros a w' Ha Ho'. by eapply Hl. }
  destruct p as [A a|A C m h|A h|A S C body s h].
  - by apply (Hf a w (S n)).
  - split; [done|]. cbn [pbind]. destruct Hs as (b & w' & Hm & Hg & Hs). exists b, w'.
    split; [done|]. split; [done|]. eapply IH; [|done|done]. intros a w1 n' Hn. apply Hf. lia.
  - split; [done|]. cbn [pbind]. destruct Hs as [Hi Hs]. split; [done|].
    intros w' Hw. eapply IH; [|done|by apply Hs]. intros a w1 n' Hn. apply Hf. lia.
  - split; [done|]. cbn [pbind]. rewrite pbind_again. eapply IH; [|done|done].
    intros a w1 n' Hn. apply Hf. lia.
Qed.

Lemma valid_bind c1 c2 {A B : Set} (p : proc W A) (f : A → proc W B) (Q : B → W → Prop) w :
  valid c1 p (λ a w', valid c2 (f a) Q w') w → valid (c1 + c2) (pbind p f) Q w.
Proof.
  intros Hp n. eapply safe_bind; [| |apply Hp]; cbv beta.
  - intros a w' n' _ Hf. eapply safe_mono; [reflexivity| |done|apply Hf]. lia.
  - intros a w' k Hf Ho. by eapply valid_live.
Qed.

(** A call of a method whose specification is known. *)
Lemma valid_call c1 c {A B : Set} (p : proc W A) (f : A → proc W B) (Q' : A → W → Prop)
    (Q : B → W → Prop) w :
  valid c1 p Q' w → c1 ≤ c → (∀ a w', Q' a w' → valid (c - c1) (f a) Q w') →
  valid c (pbind p f) Q w.
Proof.
  intros Hp Hc Hf. replace c with (c1 + (c - c1)) by lia. apply valid_bind.
  eapply valid_mono; [exact Hp|done|exact Hf].
Qed.

Lemma valid_tail c {A : Set} (p : proc W A) (Q : A → W → Prop) w :
  valid c (pbind p Pure) Q w → valid c p Q w.
Proof. by rewrite pbind_Pure. Qed.


End Mode.

(** ** Loops *)

Lemma live_mode md md' c k {A : Set} (p : proc W A) (Q : A → W → Prop) w :
  (∀ w, owes md k w → owes md' k w) → live md c k p Q w → live md' c k p Q w.
Proof.
  intros Ho. revert A p Q w. induction c as [|c IH]; intros A p Q w;
    destruct p as [A a|A B m h|A h|A S B body s h]; cbn [live]; try done.
  - intros [? ?]. auto.
  - intros [? ?]. auto.
  - intros (b & w' & ? & ?). eauto.
  - intros [|]; [by left|right; auto].
  - apply IH.
Qed.

Lemma live_pure md c k {A : Set} (a : A) (Q : A → W → Prop) w : Q a w → owes md k w → live md c k (Pure a) Q w.
Proof. by destruct c. Qed.

Section Loop.
Context {S B : Set} (c bound : nat) (I : S → W → Prop) (μ : S → W → nat)
  (body : S → proc W (S + B)) (Q : B → W → Prop).

(** A round of the loop: if it does not yield it leaves fewer rounds to go; and in fair
    company it answers a request that is waiting, or leaves fewer rounds to go. *)
Definition round_post (md : mode) (w : W) (s : S) (r : S + B) (w' : W) : Prop :=
  match r with
  | inl s' => I s' w' ∧ (md = Never → μ s' w' < μ s w) ∧
      (md = Calm → pending R w → served R w < served R w' ∨ μ s' w' < μ s w)
  | inr b => Q b w'
  end.

Hypothesis Hround : ∀ md s w, I s w → μ s w ≤ bound ∧ valid md c (body s) (round_post md w s) w.

Lemma loop_live_served md n k s w : I s w → μ s w ≤ n → k < served R w →
  live md ((1 + n) * Datatypes.S c) k (loop body s) Q w.
Proof.
  revert md s w. induction n as [n IH] using lt_wf_ind. intros md s w HI Hμ Hk.
  destruct (Hround Never s w HI) as [_ Hv].
  apply (live_mono _ (Datatypes.S (c + n * Datatypes.S c)) _ _ _ Q); [lia|done|].
  cbn [loop live]. apply (live_mode Never); [by intros w' [?|[? _]]; [left|]|].
  eapply live_bind; [|by apply valid_live; [|left]].
  intros [s'|b] w' HQ Ho; [|by apply live_pure]. destruct HQ as (HI' & Hlt & _). specialize (Hlt eq_refl).
  destruct Ho as [Ho|[? _]]; [|done].
  eapply live_mono; [|done|apply (IH (n - 1)); [lia|done|lia|done]]. nia.
Qed.

Lemma loop_live n k s w : I s w → μ s w ≤ n → n ≤ bound → owes Calm k w →
  live Calm ((1 + n + bound) * Datatypes.S c + Datatypes.S c) k (loop body s) Q w.
Proof.
  revert s w. induction n as [n IH] using lt_wf_ind. intros s w HI Hμ Hn [Hk|(_ & Hk & Hp)].
  { eapply live_mono; [|done|by apply (loop_live_served _ n)]. nia. }
  destruct (Hround Calm s w HI) as [_ Hv].
  apply (live_mono _ (Datatypes.S (c + (1 + n + bound) * Datatypes.S c)) _ _ _ Q); [lia|done|].
  cbn [loop live]. eapply live_bind; [|apply valid_live; [exact Hv|by right]].
  intros [s'|b] w' HQ Ho; [|by apply live_pure]. destruct HQ as (HI' & _ & Hpr).
  destruct (Hpr eq_refl Hp) as [Hs|Hs].
  - eapply live_mono; [|done|apply (loop_live_served _ bound); [done|by apply (Hround Calm)|lia]]. nia.
  - eapply live_mono; [|done|apply (IH (n - 1)); [lia|done|lia|lia|done]]. nia.
Qed.

Lemma loop_owes md k s w : I s w → owes md k w →
  live md ((2 + 2 * bound) * Datatypes.S c) k (loop body s) Q w.
Proof.
  intros HI Ho. destruct (decide (md = Never)) as [->|Hm].
  - destruct Ho as [Hk|[? _]]; [|done].
    eapply live_mono; [|done|apply (loop_live_served _ bound); [done|by apply (Hround Never)|done]]. nia.
  - destruct (Hround md s w HI) as [Hb _].
    apply (live_mode Calm); [by intros w' [?|(_ & ?)]; [left|right]|].
    eapply live_mono; [|done|apply (loop_live bound); [done|done|done|]]; [nia|]. destruct Ho as [?|(_ & ?)]; [by left|by right].
Qed.

Lemma valid_loop md s w : I s w → valid md (c + (2 + 2 * bound) * Datatypes.S c) (loop body s) Q w.
Proof.
  intros HI n. revert s w HI.
  induction n as [n IH] using lt_wf_ind. intros s w HI. destruct n as [|n]; [done|].
  split.
  { intros k Hk. eapply live_mono; [|done|by apply loop_owes]. lia. }
  eapply safe_bind; [| |by apply Hround]; cbv beta.
  - intros [s'|b] w' n' Hn HQ; [apply IH; [lia|]|by apply valid_pure]. by destruct HQ.
  - intros [s'|b] w' k HQ Ho; [|by apply live_pure]. apply loop_owes; [|done]. by destruct HQ.
Qed.

End Loop.

(** ** Running a valid thread *)

Lemma valid_Act_inv md c {A B : Set} (m : prog W B) (h : B → proc W A) (Q : A → W → Prop) w :
  valid md c (Act m h) Q w → ∃ b w', m w = Done b w' ∧ guar R w w' ∧ valid md c (h b) Q w'.
Proof.
  intros Hv. destruct (Hv 1) as [_ (b & w' & Hm & Hg & _)]. exists b, w'.
  split; [done|]. split; [done|]. intros n.
  destruct (Hv (S n)) as [_ (b2 & w2 & Hm2 & _ & Hs)]. rewrite Hm in Hm2. by simplify_eq.
Qed.

Lemma valid_Yield_inv md c {A : Set} (h : proc W A) (Q : A → W → Prop) w w' :
  valid md c (Yield h) Q w → company md w w' → valid md c h Q w'.
Proof. intros Hv Hw n. destruct (Hv (S n)) as [_ [_ Hs]]. by apply Hs. Qed.

Lemma valid_Yield_shared md c {A : Set} (h : proc W A) (Q : A → W → Prop) w :
  valid md c (Yield h) Q w → shared R w.
Proof. intros Hv. by destruct (Hv 1) as [_ [? _]]. Qed.

Lemma valid_Loop_inv md c {A S B : Set} (body : S → proc W (S + B)) s (h : B → proc W A) Q w :
  valid md c (Loop body s h) Q w → valid md c (pbind (body s) (again body h)) Q w.
Proof. intros Hv n. by destruct (Hv (Datatypes.S n)) as [_ Hs]. Qed.

Lemma resume_fuel f f' {A : Set} (p : proc W A) w r :
  f ≤ f' → resume f p w = Some r → resume f' p w = Some r.
Proof.
  revert f' A p w r. induction f as [|f IH]; intros f' A p w r Hf; [done|].
  destruct f' as [|f']; [lia|]. destruct p as [A a|A C m h|A h|A S C body s h]; cbn [resume].
  - done.
  - destruct (m w); [|done|done]. apply IH. lia.
  - done.
  - apply IH. lia.
Qed.

(** A valid thread that never returns reaches its next yield; and if the answer to request
    [k] was not given by then, it is nearer. *)
Lemma resume_live md c C k {A : Set} (p : proc W A) w :
  live md c k p (λ _ _, False) w → valid md C p (λ _ _, False) w →
  ∃ q w', resume (S c) p w = Some (q, w') ∧ rtc (guar R) w w' ∧
    valid md C (Yield q) (λ _ _, False) w' ∧
    (k < served R w' ∨ ∃ c', c' < c ∧ live md c' k q (λ _ _, False) (fair R w')).
Proof.
  revert A p w. induction c as [|c IH]; intros A p w Hl Hv.
  { destruct p as [A a|A B m h|A h|A S B body s h]; cbn [live] in Hl; [tauto|done| |done].
    destruct Hl as [Hk|[]]. exists h, w. split; [done|]. split; [reflexivity|].
    split; [done|by left]. }
  destruct p as [A a|A B m h|A h|A S B body s h]; cbn [live] in Hl.
  - tauto.
  - destruct Hl as (b & w1 & Hm & Hl). apply valid_Act_inv in Hv as (b' & w1' & Hm' & Hg & Hv).
    rewrite Hm in Hm'. injection Hm' as <- <-.
    destruct (IH _ _ _ Hl Hv) as (q & w' & Hr & Hgs & Hq & Hk). exists q, w'.
    split; [by cbn [resume]; rewrite Hm|]. split; [by eapply rtc_l|]. split; [done|].
    destruct Hk as [|(c' & ? & ?)]; [by left|right; exists c'; split; [lia|done]].
  - exists h, w. split; [done|]. split; [reflexivity|]. split; [done|].
    destruct Hl as [|Hl]; [by left|right]. exists c. split; [lia|done].
  - apply valid_Loop_inv in Hv. destruct (IH _ _ _ Hl Hv) as (q & w' & Hr & Hgs & Hq & Hk).
    exists q, w'. split; [done|]. split; [done|]. split; [done|].
    destruct Hk as [|(c' & ? & ?)]; [by left|right; exists c'; split; [lia|done]].
Qed.

End Logic.

Declare Scope thread_scope.
Delimit Scope thread_scope with thread.
Notation "x <- p ;; q" := (pbind p (λ x, q))
  (at level 100, p at next level, right associativity) : thread_scope.
Notation "p ;; q" := (pbind p (λ _, q))
  (at level 100, right associativity) : thread_scope.
