(* ===== verification/Music.v ===== *)
(** * Music chunks

    [util/SliceBuffer.hxx], [MusicChunk.cxx], [MusicBuffer.cxx] and [MusicPipe.cxx]: the
    memory in which decoded music travels from the decoder through the player to the
    outputs.  A chunk is held by value together with the address of its slice; [holds]
    relates the allocator to the list of the addresses in use, so that a chunk that is
    lost, or returned twice, breaks the relation. *)

From Stdlib Require Import ZArith Lia ZifyBool.
From stdpp Require Import base numbers sets strings list.
From S2P Require Import Prelude Tag AudioFormat Song.

Set Default Goal Selector "!".

(** ** SliceBuffer *)

Module SliceBuffer.

(** The chain of free slices that starts at [available] is the list of their indices. *)
Record t := mkSliceBuffer {
  n_max : nat;
  n_initialized : nat;
  n_allocated : nat;
  available : list nat;
}.

Definition make (count : nat) : option t :=
  assert! 0 <? count ;;
  Some (mkSliceBuffer count 0 0 []).

Definition GetCapacity (b : t) : nat := n_max b.
Definition IsEmpty (b : t) : bool := n_allocated b =? 0.
Definition IsFull (b : t) : bool := n_allocated b =? n_max b.

(** The index of the slice, or [None] for a null pointer. *)
Definition Allocate (b : t) : option (option nat * t) :=
  assert! n_initialized b <=? n_max b ;;
  assert! n_allocated b <=? n_initialized b ;;
  match available b with
  | [] =>
      if n_initialized b =? n_max b then
        assert! n_allocated b =? n_max b ;;
        Some (None, b)
      else
        Some (Some (n_initialized b),
              mkSliceBuffer (n_max b) (S (n_initialized b)) (S (n_allocated b)) [])
  | slice :: next =>
      Some (Some slice, mkSliceBuffer (n_max b) (n_initialized b) (S (n_allocated b)) next)
  end.

Definition Free (slice : nat) (b : t) : option t :=
  assert! n_initialized b <=? n_max b ;;
  assert! 0 <? n_allocated b ;;
  assert! n_allocated b <=? n_initialized b ;;
  assert! slice <? n_max b ;;
  let n := n_allocated b - 1 in
  Some (if n =? 0 then mkSliceBuffer (n_max b) 0 0 []
        else mkSliceBuffer (n_max b) (n_initialized b) n (slice :: available b)).

(** The slices in use are exactly [l], without repetition. *)
Record holds (b : t) (l : list nat) : Prop := {
  h_slices : l ++ available b ≡ₚ seq 0 (n_initialized b);
  h_count : n_allocated b = length l;
  h_max : n_initialized b ≤ n_max b;
}.

#[global] Instance holds_Proper b : Proper ((≡ₚ) ==> iff) (holds b).
Proof.
  assert (H : ∀ l l', l ≡ₚ l' → holds b l → holds b l').
  { intros l l' Hl [H1 H2 H3]. constructor; [by rewrite <-Hl|by rewrite <-Hl|done]. }
  intros l l' Hl. split; by apply H.
Qed.

Lemma holds_NoDup b l : holds b l → NoDup l.
Proof.
  intros [H1 _ _]. assert (Hn : NoDup (l ++ available b)) by (rewrite H1; apply NoDup_seq).
  by apply NoDup_app in Hn as [? _].
Qed.

Lemma holds_length b l : holds b l →
  length l + length (available b) = n_initialized b.
Proof. intros [H1 _ _]. apply Permutation_length in H1. by rewrite length_app, length_seq in H1. Qed.

Lemma make_holds_nothing n b : make n = Some b → holds b [].
Proof. unfold make. destruct (0 <? n); [|done]. intros [= <-]. constructor; simpl; [done|done|lia]. Qed.

(** An allocation gives a slice that was not in use, and fails only if all slices are. *)
Lemma Allocate_ok b l : holds b l →
  ∃ r b', Allocate b = Some (r, b') ∧ n_max b' = n_max b ∧
    match r with
    | Some a => (a ∉ l) ∧ holds b' (a :: l)
    | None => b' = b ∧ length l = n_max b
    end.
Proof.
  intros Hh. pose proof (holds_length b l Hh) as Hlen. pose proof Hh as [H1 H2 H3].
  unfold Allocate. run_checks. destruct (available b) as [|a next] eqn:Ha.
  - simpl in Hlen. destruct (n_initialized b =? n_max b) eqn:E.
    { run_checks. exists None, b. repeat split. lia. }
    eexists _, _. split; [done|]. split; [done|]. split.
    + intros Hin. rewrite app_nil_r in H1. rewrite H1 in Hin. apply elem_of_seq in Hin. lia.
    + rewrite app_nil_r in H1. constructor; simpl; [|lia|lia].
      rewrite app_nil_r, H1. change (0 :: seq 1 (n_initialized b)) with (seq 0 (S (n_initialized b))).
      rewrite seq_S. by rewrite Permutation_app_comm.
  - simpl in Hlen. eexists _, _. split; [done|]. split; [done|]. split.
    + assert (Hn : NoDup (l ++ a :: next)) by (rewrite H1; apply NoDup_seq).
      apply NoDup_app in Hn as (_ & Hn & _). intros Hin. apply (Hn a Hin). constructor.
    + constructor; simpl; [|lia|done]. by rewrite <-H1, <-Permutation_middle.
Qed.

(** Freeing a slice in use. *)
Lemma Free_ok a b l : holds b (a :: l) →
  ∃ b', Free a b = Some b' ∧ n_max b' = n_max b ∧ holds b' l.
Proof.
  intros Hh. pose proof (holds_length b _ Hh) as Hlen. pose proof Hh as [H1 H2 H3]. simpl in *.
  assert (Ha : a < n_initialized b).
  { assert (Hin : a ∈ seq 0 (n_initialized b)) by (rewrite <-H1; constructor).
    apply elem_of_seq in Hin. lia. }
  unfold Free. run_checks. rewrite H2. simpl. rewrite Nat.sub_0_r.
  destruct (length l =? 0) eqn:E.
  - destruct l; [|done]. eexists. split_and!; [done|done|]. constructor; simpl; [done|done|lia].
  - eexists. split_and!; [done|done|]. constructor; simpl; [|done|done].
    by rewrite <-H1, <-Permutation_middle.
Qed.

End SliceBuffer.

(** ** MusicChunk *)

Module MusicChunk.
Import AudioFormat.
#[local] Set Warnings "-register-all".

Definition CHUNK_SIZE : Z := 4096.

(** [struct MusicChunk] without its sample data.  [addr] is the slice it lives in;
    [bit_rate], [time] and [audio_format] are written before they are read. *)
Inductive t := mkChunk {
  addr : nat;
  other : option t;
  length : Z;
  bit_rate : Z;
  time : Z;
  tag : option Tag.Tag;
  audio_format : AudioFormat.AudioFormat;
}.

Definition make (a : nat) : t := mkChunk a None 0 0 0 None Undefined.

Definition IsEmpty (c : t) : bool :=
  (length c =? 0)%Z && match tag c with None => true | Some _ => false end.

Definition CheckFormat (c : t) (other_format : AudioFormat.AudioFormat) : option bool :=
  assert! IsValid other_format ;;
  Some ((length c =? 0)%Z || bool_decide (audio_format c = other_format)).

(** Returns the space behind the data, as its offset and its size. *)
Definition Write (af : AudioFormat.AudioFormat) (data_time _bit_rate : Z) (c : t)
    : option (Z * Z * t) :=
  ok ← CheckFormat c af;
  assert! ok ;;
  assert! (length c =? 0)%Z || IsValid (audio_format c) ;;
  let c := if (length c =? 0)%Z
           then mkChunk (addr c) (other c) (length c) _bit_rate data_time (tag c) af
           else c in
  let frame_size := GetFrameSize af in
  let num_frames := ((CHUNK_SIZE - length c) / frame_size)%Z in
  Some (length c, (num_frames * frame_size)%Z, c).

Definition Expand (af : AudioFormat.AudioFormat) (_length : Z) (c : t)
    : option (bool * t) :=
  let frame_size := GetFrameSize af in
  assert! (length c + _length <=? CHUNK_SIZE)%Z ;;
  assert! bool_decide (audio_format c = af) ;;
  let n := (length c + _length)%Z in
  Some ((CHUNK_SIZE <? n + frame_size)%Z,
        mkChunk (addr c) (other c) n (bit_rate c) (time c) (tag c) (audio_format c)).

Definition set_tag (tg : option Tag.Tag) (c : t) : t :=
  mkChunk (addr c) (other c) (length c) (bit_rate c) (time c) tg (audio_format c).
Definition set_other (o : option t) (c : t) : t :=
  mkChunk (addr c) o (length c) (bit_rate c) (time c) (tag c) (audio_format c).

(** What [SendSilence] and the decoder write into a chunk. *)
Definition set_data (af : AudioFormat.AudioFormat) (tm len : Z) (c : t) : t :=
  mkChunk (addr c) (other c) len (bit_rate c) tm (tag c) af.

(** The slices a chunk occupies. *)
Definition addrs (c : t) : list nat :=
  addr c :: match other c with Some o => [addr o] | None => [] end.

End MusicChunk.

(** ** MusicBuffer *)

Module MusicBuffer.

Definition GetSize (b : SliceBuffer.t) : nat := SliceBuffer.GetCapacity b.
Definition IsEmptyUnsafe (b : SliceBuffer.t) : bool := SliceBuffer.IsEmpty b.

Definition Allocate (b : SliceBuffer.t) : option (option MusicChunk.t * SliceBuffer.t) :=
  match SliceBuffer.Allocate b with
  | Some (r, b) => Some (MusicChunk.make <$> r, b)
  | None => None
  end.

Definition Return (c : MusicChunk.t) (b : SliceBuffer.t) : option SliceBuffer.t :=
  b ← match MusicChunk.other c with
      | Some o =>
          assert! match MusicChunk.other o with None => true | Some _ => false end ;;
          SliceBuffer.Free (MusicChunk.addr o) b
      | None => Some b
      end;
  SliceBuffer.Free (MusicChunk.addr c) b.

End MusicBuffer.

(** ** MusicPipe *)

Module MusicPipe.
Import AudioFormat.

(** [class MusicPipe]: the chain from [head] through the [next] pointers is a list. *)
Record t := mkPipe {
  chunks : list MusicChunk.t;
  size : nat;
  format : AudioFormat.AudioFormat;
}.

Definition make : t := mkPipe [] 0 Undefined.

(** The destructor. *)
Definition delete (p : t) : option unit := check (match chunks p with [] => true | _ => false end).

Definition CheckFormat (p : t) (other : AudioFormat.AudioFormat) : bool :=
  negb (IsDefined (format p)) || bool_decide (format p = other).

Definition Peek (p : t) : option MusicChunk.t := head (chunks p).
Definition GetSize (p : t) : nat := size p.
Definition IsEmpty (p : t) : bool := size p =? 0.

Definition Contains (a : nat) (p : t) : bool :=
  existsb (λ c, MusicChunk.addr c =? a) (chunks p).

Definition Shift (p : t) : option (option MusicChunk.t * t) :=
  match chunks p with
  | [] => Some (None, p)
  | chunk :: head =>
      assert! negb (MusicChunk.IsEmpty chunk) ;;
      let size := size p - 1 in
      assert! match head with [] => size =? 0 | _ => 0 <? size end ;;
      Some (Some chunk, mkPipe head size (if size =? 0 then Undefined else format p))
  end.

(** [while ((chunk = Shift()) != nullptr) buffer.Return(chunk);] *)
Fixpoint Clear_loop (n : nat) (p : t) (b : SliceBuffer.t) : option (t * SliceBuffer.t) :=
  match n with
  | O => None
  | S n =>
      match Shift p with
      | None => None
      | Some (None, p) => Some (p, b)
      | Some (Some c, p) => b ← MusicBuffer.Return c b; Clear_loop n p b
      end
  end.

Definition Clear (p : t) (b : SliceBuffer.t) : option (t * SliceBuffer.t) :=
  Clear_loop (S (length (chunks p))) p b.

Definition Push (c : MusicChunk.t) (p : t) : option t :=
  assert! negb (MusicChunk.IsEmpty c) ;;
  assert! (MusicChunk.length c =? 0)%Z || IsValid (MusicChunk.audio_format c) ;;
  assert! (0 <? size p) || negb (IsDefined (format p)) ;;
  ok ← (if IsDefined (format p) then MusicChunk.CheckFormat c (format p) else Some true);
  assert! ok ;;
  let format := if negb (IsDefined (format p)) && (0 <? MusicChunk.length c)%Z
                then MusicChunk.audio_format c else format p in
  Some (mkPipe (chunks p ++ [c]) (S (size p)) format).

(** *** Pipes of one audio format *)

Section Format.
Context (af : AudioFormat.AudioFormat).
Hypothesis Haf : IsValid af = true.

(** A chunk that may be in a pipe; [mixed] chunks may carry another one. *)
Record chunk_ok (mixed : bool) (c : MusicChunk.t) : Prop := {
  ck_empty : MusicChunk.IsEmpty c = false;
  ck_length : (0 ≤ MusicChunk.length c)%Z;
  ck_format : MusicChunk.length c = 0%Z ∨ MusicChunk.audio_format c = af;
  ck_tag : ∀ tg, MusicChunk.tag c = Some tg → Tag.valid_items (Tag.items tg);
  ck_other : match MusicChunk.other c with
             | None => True
             | Some o => mixed = true ∧ MusicChunk.other o = None
             end;
}.

Record pipe_ok (mixed : bool) (p : t) : Prop := {
  po_size : size p = length (chunks p);
  po_format : format p = Undefined ∨ format p = af ∧ chunks p ≠ [];
  po_chunks : Forall (chunk_ok mixed) (chunks p);
}.

(** The slices in a pipe. *)
Definition slices (p : t) : list nat := chunks p ≫= MusicChunk.addrs.

Lemma chunk_ok_mixed b c : chunk_ok b c → chunk_ok true c.
Proof. intros [H1 H2 H3 H4 H5]. constructor; [done..|]. destruct (MusicChunk.other c); [|done].
  by destruct H5. Qed.

Lemma make_pipe_ok b : pipe_ok b make.
Proof. constructor; [done|by left|constructor]. Qed.

Lemma af_defined : IsDefined af = true.
Proof.
  unfold IsValid, audio_valid_sample_rate, IsDefined in *.
  destruct (sample_rate af =? 0)%Z eqn:E; [|done]. simpl. lia.
Qed.

Lemma CheckFormat_ok b c : chunk_ok b c → MusicChunk.CheckFormat c af = Some true.
Proof.
  intros [_ _ Hf _ _]. unfold MusicChunk.CheckFormat. rewrite Haf. simpl. f_equal.
  destruct Hf as [->| ->]; [done|]. by rewrite bool_decide_eq_true_2, orb_true_r.
Qed.

Lemma pipe_Shift_ok b p : pipe_ok b p →
  match chunks p with
  | [] => Shift p = Some (None, p)
  | c :: _ => ∃ p', Shift p = Some (Some c, p') ∧ chunk_ok b c ∧ pipe_ok b p' ∧
      chunks p = c :: chunks p'
  end.
Proof.
  intros [H1 H2 H3]. unfold Shift. destruct (chunks p) as [|c cs] eqn:E; [done|].
  apply Forall_cons in H3 as [Hc Hcs]. rewrite (ck_empty _ _ Hc). simpl in *. rewrite H1. simpl.
  rewrite Nat.sub_0_r, check_bind by (destruct cs; done). eexists. split; [done|].
  split; [done|]. split; [|done]. constructor; [done| |done]. simpl.
  destruct cs as [|c2 cs]; simpl; [by left|]. destruct H2 as [|[? _]]; [by left|by right].
Qed.

Lemma Push_ok b c p : chunk_ok b c → pipe_ok b p →
  ∃ p', Push c p = Some p' ∧ pipe_ok b p' ∧ chunks p' = chunks p ++ [c].
Proof.
  intros Hc [H1 H2 H3]. pose proof af_defined as Hd. unfold Push. rewrite (ck_empty _ _ Hc).
  rewrite check_bind by done.
  rewrite check_bind by (destruct (ck_format _ _ Hc) as [->| ->]; [done|]; by rewrite Haf, orb_true_r).
  assert (Hsz : (0 <? size p) || negb (IsDefined (format p)) = true).
  { destruct H2 as [->|[_ H2]]; [by rewrite orb_true_r|]. destruct (chunks p); [done|].
    rewrite H1. done. }
  rewrite check_bind by done.
  assert (Hck : (if IsDefined (format p) then MusicChunk.CheckFormat c (format p) else Some true)
    = Some true).
  { destruct H2 as [->|[-> _]]; [done|]. rewrite Hd. by eapply CheckFormat_ok. }
  rewrite Hck. cbn [mbind option_bind]. rewrite check_bind by done. eexists. split; [done|].
  split; [|done]. constructor; simpl.
  - rewrite length_app, H1. simpl. lia.
  - destruct H2 as [->|[-> _]].
    + simpl. destruct (0 <? MusicChunk.length c)%Z eqn:E; [right|by left].
      split; [|by destruct (chunks p)]. destruct (ck_format _ _ Hc); [lia|done].
    + rewrite Hd. simpl. right. split; [done|]. by destruct (chunks p).
  - apply Forall_app. split; [done|]. by constructor.
Qed.

(** *** Returning chunks *)

Lemma Return_addrs c buf l : (∀ o, MusicChunk.other c = Some o → MusicChunk.other o = None) →
  SliceBuffer.holds buf (MusicChunk.addrs c ++ l) →
  ∃ buf', MusicBuffer.Return c buf = Some buf' ∧ SliceBuffer.n_max buf' = SliceBuffer.n_max buf ∧
    SliceBuffer.holds buf' l.
Proof.
  intros Ho Hh. unfold MusicBuffer.Return, MusicChunk.addrs in *.
  destruct (MusicChunk.other c) as [o|]; simpl in Hh.
  - rewrite (Ho o eq_refl), check_bind by done.
    assert (Hh2 : SliceBuffer.holds buf (MusicChunk.addr o :: MusicChunk.addr c :: l))
      by (by rewrite Permutation_swap).
    destruct (SliceBuffer.Free_ok _ _ _ Hh2) as (b1 & -> & Hm1 & Hh1). cbn [mbind option_bind].
    destruct (SliceBuffer.Free_ok _ _ _ Hh1) as (b2 & -> & Hm2 & Hh3).
    exists b2. split; [done|]. split; [congruence|done].
  - cbn [mbind option_bind]. by apply SliceBuffer.Free_ok.
Qed.

Lemma chunk_ok_other b c o : chunk_ok b c → MusicChunk.other c = Some o → MusicChunk.other o = None.
Proof. intros Hc Ho. pose proof (ck_other _ _ Hc) as H. rewrite Ho in H. by destruct H. Qed.

Lemma Return_ok b c buf l : chunk_ok b c → SliceBuffer.holds buf (MusicChunk.addrs c ++ l) →
  ∃ buf', MusicBuffer.Return c buf = Some buf' ∧ SliceBuffer.n_max buf' = SliceBuffer.n_max buf ∧
    SliceBuffer.holds buf' l.
Proof. intros Hc. apply Return_addrs. intros o. by eapply chunk_ok_other. Qed.

Lemma Clear_loop_S n p buf :
  Clear_loop (S n) p buf
  = match Shift p with
    | None => None
    | Some (None, p) => Some (p, buf)
    | Some (Some c, p) => buf ← MusicBuffer.Return c buf; Clear_loop n p buf
    end.
Proof. done. Qed.

Lemma pipe_Clear_ok b p buf l : pipe_ok b p → SliceBuffer.holds buf (slices p ++ l) →
  ∃ p' buf', Clear p buf = Some (p', buf') ∧ SliceBuffer.n_max buf' = SliceBuffer.n_max buf ∧
    p' = make ∧ SliceBuffer.holds buf' l.
Proof.
  unfold Clear. intros Hp Hh. remember (chunks p) as cs eqn:E.
  revert p buf Hp Hh E. induction cs as [|c cs IH]; intros p buf Hp Hh E.
  - pose proof (pipe_Shift_ok b p Hp) as HS. rewrite <-E in HS. rewrite Clear_loop_S, HS.
    exists p, buf. split; [done|]. split; [done|]. unfold slices in Hh. rewrite <-E in Hh.
    destruct Hp as [H1 H2 _]. rewrite <-E in H1, H2. destruct p as [cs sz f]. simpl in *. subst.
    destruct H2 as [->|[_ ?]]; [|done]. done.
  - pose proof (pipe_Shift_ok b p Hp) as HS. rewrite <-E in HS.
    destruct HS as (p1 & HS & Hc & Hp1 & Heq). injection Heq as Heq.
    change (length (c :: cs)) with (S (length cs)). rewrite Clear_loop_S, HS.
    unfold slices in Hh. rewrite <-E in Hh. cbn [mbind list_bind] in Hh. rewrite <-app_assoc in Hh.
    destruct (Return_ok b c buf _ Hc Hh) as (b1 & -> & Hm & Hh1). cbn [mbind option_bind].
    rewrite Heq in Hh1. destruct (IH p1 b1 Hp1 Hh1 Heq) as (p' & b' & -> & Hm' & Hrest).
    exists p', b'. split; [done|]. split; [congruence|done].
Qed.

End Format.

End MusicPipe.
