(* ===== verification/Decoder.v ===== *)
(** * Decoder

    [decoder/DecoderControl.hxx], [decoder/DecoderControl.cxx], and what the decoder thread
    does to the state it shares with the player: [decoder/DecoderThread.cxx] and
    [decoder/Bridge.cxx].  The codec plugins decide in which order the operations of the
    bridge are called, so the thread is the set of its atomic sections: [decoder_act] runs
    one of them, and leaves the state alone when the thread is not at that point.

    Time stamps and replay gain, floating point numbers that are only copied into the
    chunks, and the samples themselves are left out; what opening the converter, the
    conversion and a plugin may throw is a parameter of the actions. *)

From Stdlib Require Import ZArith Lia ZifyBool.
From stdpp Require Import base numbers sets strings list gmap.
From S2P Require Import Prelude Tag AudioFormat Song Music.

Set Default Goal Selector "!".

Module Decoder.
Import Song.

Inductive DecoderState := DECODER_STOP | DECODER_START | DECODER_DECODE | DECODER_ERROR.
Inductive DecoderCommand := DC_NONE | DC_START | DC_STOP | DC_SEEK.

#[global] Instance DecoderState_eq_dec : EqDecision DecoderState.
Proof. solve_decision. Defined.
#[global] Instance DecoderCommand_eq_dec : EqDecision DecoderCommand.
Proof. solve_decision. Defined.

(** [struct DecoderControl]; a pipe is identified by its address. *)
Record DecoderControl := mkDecoderControl {
  state : DecoderState;
  command : DecoderCommand;
  error : option (list Z);
  client_is_waiting : bool;
  seek_error : bool;
  seekable : bool;
  seek_time : Z;
  in_audio_format : AudioFormat.AudioFormat;
  out_audio_format : AudioFormat.AudioFormat;
  song : option DetachedSong;
  start_time : Z;
  end_time : Z;
  total_time : Z;
  pipe : option nat;
}.

(** The constructor; [seek_error] to [out_audio_format], the times and the pipe are not
    initialised. *)
Definition make (garbage : AudioFormat.AudioFormat) : DecoderControl :=
  mkDecoderControl DECODER_STOP DC_NONE None false false false 0 garbage garbage None 0 0 0 None.

Definition set_state s d := mkDecoderControl s (command d) (error d) (client_is_waiting d)
  (seek_error d) (seekable d) (seek_time d) (in_audio_format d) (out_audio_format d) (song d)
  (start_time d) (end_time d) (total_time d) (pipe d).
Definition set_command c d := mkDecoderControl (state d) c (error d) (client_is_waiting d)
  (seek_error d) (seekable d) (seek_time d) (in_audio_format d) (out_audio_format d) (song d)
  (start_time d) (end_time d) (total_time d) (pipe d).
Definition set_failed e d := mkDecoderControl DECODER_ERROR (command d) (Some e)
  (client_is_waiting d) (seek_error d) (seekable d) (seek_time d) (in_audio_format d)
  (out_audio_format d) (song d) (start_time d) (end_time d) (total_time d) (pipe d).
Definition set_waiting b d := mkDecoderControl (state d) (command d) (error d) b
  (seek_error d) (seekable d) (seek_time d) (in_audio_format d) (out_audio_format d) (song d)
  (start_time d) (end_time d) (total_time d) (pipe d).
Definition set_seek e t d := mkDecoderControl (state d) (command d) (error d)
  (client_is_waiting d) e (seekable d) t (in_audio_format d) (out_audio_format d) (song d)
  (start_time d) (end_time d) (total_time d) (pipe d).
Definition set_pipe p d := mkDecoderControl (state d) (command d) (error d)
  (client_is_waiting d) (seek_error d) (seekable d) (seek_time d) (in_audio_format d)
  (out_audio_format d) (song d) (start_time d) (end_time d) (total_time d) p.
Definition set_start s st et p d := mkDecoderControl (state d) (command d) (error d)
  (client_is_waiting d) (seek_error d) (seekable d) (seek_time d) (in_audio_format d)
  (out_audio_format d) (Some s) st et (total_time d) (Some p).

Definition IsIdle (d : DecoderControl) : bool :=
  bool_decide (state d = DECODER_STOP) || bool_decide (state d = DECODER_ERROR).
Definition IsStarting (d : DecoderControl) : bool := bool_decide (state d = DECODER_START).

(** The error to be thrown, if any. *)
Definition CheckRethrowError (d : DecoderControl) : option (option (list Z)) :=
  assert! bool_decide (command d = DC_NONE) ;;
  assert! negb (bool_decide (state d = DECODER_ERROR)) || bool_decide (is_Some (error d)) ;;
  Some (if decide (state d = DECODER_ERROR) then error d else None).

Definition ClearError (d : DecoderControl) : DecoderControl :=
  if decide (state d = DECODER_ERROR) then
    mkDecoderControl DECODER_STOP (command d) None (client_is_waiting d) (seek_error d)
      (seekable d) (seek_time d) (in_audio_format d) (out_audio_format d) (song d)
      (start_time d) (end_time d) (total_time d) (pipe d)
  else d.

Definition IsCurrentSong (_song : DetachedSong) (d : DecoderControl) : option bool :=
  match state d with
  | DECODER_STOP | DECODER_ERROR => Some false
  | DECODER_START | DECODER_DECODE => s ← song d; Some (IsSame s _song)
  end.

Definition CommandFinishedLocked (d : DecoderControl) : option DecoderControl :=
  assert! negb (bool_decide (command d = DC_NONE)) ;;
  Some (set_command DC_NONE d).

Section DecoderThread.
(** The [audio_output_format] setting. *)
Context (configured_audio_format : AudioFormat.AudioFormat).

(** [SetReady], given whether the destination pipe is empty. *)
Definition SetReady (pipe_empty : option bool) (audio_format : AudioFormat.AudioFormat)
    (_seekable : bool) (_duration : Z) (d : DecoderControl) : option DecoderControl :=
  assert! bool_decide (state d = DECODER_START) ;;
  e ← pipe_empty;
  assert! e ;;
  assert! AudioFormat.IsDefined audio_format ;;
  assert! AudioFormat.IsValid audio_format ;;
  out ← AudioFormat.ApplyMask configured_audio_format audio_format;
  Some (mkDecoderControl DECODER_DECODE (command d) (error d) (client_is_waiting d)
    (seek_error d) _seekable (seek_time d) audio_format out (song d) (start_time d)
    (end_time d) _duration (pipe d)).

(** ** The state shared by player and decoder *)

(** [class DecoderBridge]: it exists while a song is being decoded.  [convert] tells
    whether there is a [PcmConvert]; the time stamp and the replay gain, floating point
    numbers that are only copied into the chunks, are left out. *)
Record DecoderBridge := mkBridge {
  current_chunk : option MusicChunk.t;
  seeking : bool;
  bridge_error : option (list Z);
  initial_seek_pending : bool;
  initial_seek_running : bool;
  song_tag : option Tag.Tag;
  stream_tag : option Tag.Tag;
  decoder_tag : option Tag.Tag;
  convert : bool;
}.

Definition set_chunk c b := mkBridge c (seeking b) (bridge_error b) (initial_seek_pending b)
  (initial_seek_running b) (song_tag b) (stream_tag b) (decoder_tag b) (convert b).
Definition set_seeking v b := mkBridge (current_chunk b) v (bridge_error b) (initial_seek_pending b)
  (initial_seek_running b) (song_tag b) (stream_tag b) (decoder_tag b) (convert b).
Definition set_bridge_error e b := mkBridge (current_chunk b) (seeking b) e (initial_seek_pending b)
  (initial_seek_running b) (song_tag b) (stream_tag b) (decoder_tag b) (convert b).
Definition set_initial pending running b := mkBridge (current_chunk b) (seeking b) (bridge_error b)
  pending running (song_tag b) (stream_tag b) (decoder_tag b) (convert b).
Definition set_stream_tag t b := mkBridge (current_chunk b) (seeking b) (bridge_error b)
  (initial_seek_pending b) (initial_seek_running b) None (Some t) (decoder_tag b) (convert b).
Definition set_decoder_tag t b := mkBridge (current_chunk b) (seeking b) (bridge_error b)
  (initial_seek_pending b) (initial_seek_running b) (song_tag b) (stream_tag b) (Some t) (convert b).
Definition set_convert b := mkBridge (current_chunk b) (seeking b) (bridge_error b)
  (initial_seek_pending b) (initial_seek_running b) (song_tag b) (stream_tag b) (decoder_tag b) true.

Record stage := mkStage {
  dc : DecoderControl;
  bridge : option DecoderBridge;
  buffer : SliceBuffer.t;
  pipes : gmap nat MusicPipe.t;
}.

Definition upd_dc (f : DecoderControl → DecoderControl) (s : stage) : stage :=
  mkStage (f (dc s)) (bridge s) (buffer s) (pipes s).
Definition put_dc (d : DecoderControl) (s : stage) : stage :=
  mkStage d (bridge s) (buffer s) (pipes s).
Definition put_bridge (b : option DecoderBridge) (s : stage) : stage :=
  mkStage (dc s) b (buffer s) (pipes s).
Definition put_buffer (b : SliceBuffer.t) (s : stage) : stage :=
  mkStage (dc s) (bridge s) b (pipes s).
Definition put_pipe (q : nat) (p : MusicPipe.t) (s : stage) : stage :=
  mkStage (dc s) (bridge s) (buffer s) (<[q:=p]> (pipes s)).

(** [dc.pipe->...] *)
Definition dest_pipe (s : stage) : option (nat * MusicPipe.t) :=
  q ← pipe (dc s); p ← pipes s !! q; Some (q, p).

(** [pipe->Clear( *buffer)] *)
Definition clear_pipe (q : nat) (s : stage) : option stage :=
  p ← pipes s !! q;
  match MusicPipe.Clear p (buffer s) with
  | Some (p, b) => Some (put_buffer b (put_pipe q p s))
  | None => None
  end.

(** [clear_pipe] on the destination. *)
Definition clear_dest (s : stage) : option stage := q ← pipe (dc s); clear_pipe q s.

(** ** [decoder/Bridge.cxx] *)

Definition CheckCancelRead (b : DecoderBridge) (d : DecoderControl) : bool :=
  match bridge_error b with
  | Some _ => true
  | None =>
      if decide (command d = DC_NONE) then false
      else if bool_decide (command d = DC_SEEK) &&
              (bool_decide (state d = DECODER_START) || seeking b || initial_seek_running b)
      then false
      else true
  end.

(** One attempt of [GetChunk] to get a chunk; without one, the caller waits for the player
    and tries again, or returns when there is a command. *)
Definition GetChunk (b : DecoderBridge) (s : stage) : option (option MusicChunk.t * stage) :=
  match current_chunk b with
  | Some c => Some (Some c, s)
  | None =>
      match MusicBuffer.Allocate (buffer s) with
      | Some (r, buf) => Some (r, put_bridge (Some (set_chunk r b)) (put_buffer buf s))
      | None => None
      end
  end.

Definition FlushChunk (b : DecoderBridge) (s : stage) : option stage :=
  assert! negb (seeking b) ;;
  assert! negb (initial_seek_running b) ;;
  assert! negb (initial_seek_pending b) ;;
  chunk ← current_chunk b;
  let s := put_bridge (Some (set_chunk None b)) s in
  if MusicChunk.IsEmpty chunk then
    buf ← MusicBuffer.Return chunk (buffer s); Some (put_buffer buf s)
  else
    match dest_pipe s with
    | Some (q, p) => p ← MusicPipe.Push chunk p; Some (put_pipe q p s)
    | None => None
    end.

(** [assert(dc.pipe != nullptr)] *)
Definition has_pipe (s : stage) : option unit := check (bool_decide (is_Some (pipe (dc s)))).

Definition PrepareInitialSeek (b : DecoderBridge) (s : stage) : option (bool * DecoderBridge) :=
  _ ← has_pipe s;
  Some
    (if negb (bool_decide (state (dc s) = DECODER_DECODE)) then (false, b)
     else if initial_seek_running b then (true, b)
     else if initial_seek_pending b then
       if negb (seekable (dc s)) then (false, set_initial false (initial_seek_running b) b)
       else if decide (command (dc s) = DC_NONE) then (true, set_initial false true b)
       else (false, set_initial false (initial_seek_running b) b)
     else (false, b)).

Definition GetVirtualCommand (b : DecoderBridge) (s : stage) : option (DecoderCommand * DecoderBridge) :=
  match bridge_error b with
  | Some _ => Some (DC_STOP, b)
  | None =>
      _ ← has_pipe s;
      '(r, b) ← PrepareInitialSeek b s;
      Some (if r : bool then DC_SEEK else command (dc s), b)
  end.

Definition GetCommand (b : DecoderBridge) (s : stage) : option (DecoderCommand * stage) :=
  '(c, b) ← GetVirtualCommand b s; Some (c, put_bridge (Some b) s).

(** The flag tells whether the chunk with the tag was created. *)
Definition DoSendTag (tg : Tag.Tag) (b : DecoderBridge) (s : stage) : option (bool * stage) :=
  s ← match current_chunk b with Some _ => FlushChunk b s | None => Some s end;
  b ← bridge s;
  match GetChunk b s with
  | Some (Some c, s) =>
      b ← bridge s;
      Some (true, put_bridge (Some (set_chunk (Some (MusicChunk.set_tag (Some tg) c)) b)) s)
  | Some (None, s) => Some (false, s)
  | None => None
  end.

(** [stream]: what [is->LockReadTag()] returns; the song tag is sent in its place once. *)
Definition UpdateStreamTag (stream : option Tag.Tag) (b : DecoderBridge) : bool * DecoderBridge :=
  match stream, song_tag b with
  | Some t, _ => (true, set_stream_tag t b)
  | None, Some t => (true, set_stream_tag t b)
  | None, None => (false, b)
  end.

(** [open_error]: what [convert->Open()] throws, if anything. *)
Definition Ready (open_error : option (list Z)) (audio_format : AudioFormat.AudioFormat)
    (_seekable : bool) (_duration : Z) (b : DecoderBridge) (s : stage) : option stage :=
  assert! negb (convert b) ;;
  assert! negb (bool_decide (is_Some (stream_tag b))) ;;
  assert! negb (bool_decide (is_Some (decoder_tag b))) ;;
  assert! negb (seeking b) ;;
  d ← SetReady ((λ x, MusicPipe.IsEmpty x.2) <$> dest_pipe s) audio_format _seekable _duration (dc s);
  Some (if decide (in_audio_format d = out_audio_format d) then put_bridge (Some b) (put_dc d s)
        else
          let b := match open_error with Some e => set_bridge_error (Some e) b | None => b end in
          put_bridge (Some (set_convert b)) (put_dc d s)).

(** [SubmitData] up to its loop: the command, the tags and the conversion, which fails with
    [convert_error], if any.  The flag tells whether the loop is entered. *)
Definition SubmitData (stream : option Tag.Tag) (convert_error : option (list Z)) (len : Z)
    (b : DecoderBridge) (s : stage) : option (bool * stage) :=
  assert! bool_decide (state (dc s) = DECODER_DECODE) ;;
  _ ← has_pipe s;
  assert! (len mod AudioFormat.GetFrameSize (in_audio_format (dc s)) =? 0)%Z ;;
  '(cmd, b) ← GetVirtualCommand b s;
  let s := put_bridge (Some b) s in
  if bool_decide (cmd = DC_STOP) || bool_decide (cmd = DC_SEEK) || (len =? 0)%Z then Some (false, s)
  else
    assert! negb (initial_seek_pending b) ;;
    assert! negb (initial_seek_running b) ;;
    let '(upd, b) := UpdateStreamTag stream b in
    let s := put_bridge (Some b) s in
    '(go, s) ← (if upd : bool then
                  t ← stream_tag b;
                  t ← match decoder_tag b with Some d => Tag.Merge d t | None => Some t end;
                  DoSendTag t b s
                else Some (true, s));
    b ← bridge s;
    if negb go then Some (false, s)
    else if convert b then
      assert! negb (bool_decide (in_audio_format (dc s) = out_audio_format (dc s))) ;;
      Some (match convert_error with
            | Some e => (false, put_bridge (Some (set_bridge_error (Some e) b)) s)
            | None => (true, s)
            end)
    else
      assert! bool_decide (in_audio_format (dc s) = out_audio_format (dc s)) ;;
      Some (true, s).

(** One round of the loop of [SubmitData], with [len] bytes left. *)
Definition SubmitData_round (time rate len : Z) (b : DecoderBridge) (s : stage) : option stage :=
  let af := out_audio_format (dc s) in
  match GetChunk b s with
  | None => None
  | Some (None, s) => Some s
  | Some (Some c, s) =>
      b ← bridge s;
      match MusicChunk.Write af time rate c with
      | None => None
      | Some (_, dest, c) =>
          if (dest =? 0)%Z then FlushChunk (set_chunk (Some c) b) s
          else
            match MusicChunk.Expand af (Z.min dest len) c with
            | None => None
            | Some (full, c) =>
                let b := set_chunk (Some c) b in
                let s := put_bridge (Some b) s in
                if full : bool then FlushChunk b s else Some s
            end
      end
  end.

Definition SubmitTag (stream : option Tag.Tag) (tg : Tag.Tag) (b : DecoderBridge) (s : stage)
    : option stage :=
  assert! bool_decide (state (dc s) = DECODER_DECODE) ;;
  _ ← has_pipe s;
  let b := set_decoder_tag tg b in
  let '(_, b) := UpdateStreamTag stream b in
  '(r, b) ← PrepareInitialSeek b s;
  let s := put_bridge (Some b) s in
  if r : bool then Some s
  else
    t ← match stream_tag b with Some t => Tag.Merge t tg | None => Some tg end;
    '(_, s) ← DoSendTag t b s;
    Some s.

Definition GetSeekTime (b : DecoderBridge) (s : stage) : option stage :=
  _ ← has_pipe s;
  if initial_seek_running b then Some s
  else
    assert! bool_decide (command (dc s) = DC_SEEK) ;;
    Some (put_bridge (Some (set_seeking true b)) s).

Definition CommandFinished (b : DecoderBridge) (s : stage) : option stage :=
  assert! negb (bool_decide (command (dc s) = DC_NONE)) || initial_seek_running b ;;
  assert! negb (bool_decide (command (dc s) = DC_SEEK)) || initial_seek_running b ||
          seek_error (dc s) || seeking b ;;
  _ ← has_pipe s;
  if initial_seek_running b then
    assert! negb (seeking b) ;;
    assert! negb (bool_decide (is_Some (current_chunk b))) ;;
    '(_, p) ← dest_pipe s;
    assert! MusicPipe.IsEmpty p ;;
    Some (put_bridge (Some (set_initial (initial_seek_pending b) false b)) s)
  else
    s ← (if seeking b then
           s ← match current_chunk b with
               | Some c => buf ← MusicBuffer.Return c (buffer s); Some (put_buffer buf s)
               | None => Some s
               end;
           s ← clear_dest s;
           Some (put_bridge (Some (set_chunk None (set_seeking false b))) s)
         else Some s);
    Some (upd_dc (set_command DC_NONE) s).

Definition SeekError (b : DecoderBridge) (s : stage) : option stage :=
  _ ← has_pipe s;
  if initial_seek_running b then
    Some (put_bridge (Some (set_initial (initial_seek_pending b) false b)) s)
  else
    assert! bool_decide (command (dc s) = DC_SEEK) ;;
    let b := set_seeking false b in
    CommandFinished b
      (put_bridge (Some b) (upd_dc (λ d, set_seek true (seek_time d) d) s)).

(** ** [decoder/DecoderThread.cxx] *)

(** [decoder_run_song] up to the point where the plugins are called. *)
Definition decoder_run_song (song : DetachedSong) (s : stage) : option stage :=
  let song_tag := if IsFile song then Some (tag song) else None in
  let bridge := mkBridge None false None (IsPositive (start_time (dc s))) false song_tag None None false in
  d ← CommandFinishedLocked (set_state DECODER_START (dc s));
  Some (put_bridge (Some bridge) (put_dc d s)).

(** [bad_path] is the error of converting the song's path to the file system's character
    set, if it fails. *)
Definition decoder_run (bad_path : option (list Z)) (s : stage) : option stage :=
  let s := upd_dc ClearError s in
  song ← song (dc s);
  match bad_path with
  | Some e => Some (upd_dc (set_failed e) s)
  | None => decoder_run_song song s
  end.

(** [decoder_stream_decode] and [decoder_file_decode] up to the call of the plugin, with
    the reset of the error by their callers. *)
Definition decoder_probe (b : DecoderBridge) (s : stage) : option stage :=
  assert! negb (bool_decide (is_Some (stream_tag b))) ;;
  assert! negb (bool_decide (is_Some (decoder_tag b))) ;;
  assert! bool_decide (state (dc s) = DECODER_START) ;;
  Some (put_bridge (Some (set_bridge_error None b)) s).

(** The end of [decoder_run_song]: the plugin has returned, possibly with an error. *)
Definition decoder_run_end (failure : option (list Z)) (b : DecoderBridge) (s : stage)
    : option stage :=
  s ← match current_chunk b with Some _ => FlushChunk b s | None => Some s end;
  let success := negb (bool_decide (state (dc s) = DECODER_START))
                 || bool_decide (command (dc s) = DC_STOP) in
  let s := put_bridge None s in
  Some (upd_dc (match bridge_error b, failure with
                | Some e, _ | None, Some e => set_failed e
                | None, None =>
                    if success then set_state DECODER_STOP
                    else set_failed (str "Failed to decode")
                end) s).

(** One round of the loop of [decoder_task]. *)
Definition decoder_task (bad_path : option (list Z)) (s : stage) : option stage :=
  assert! bool_decide (state (dc s) = DECODER_STOP) || bool_decide (state (dc s) = DECODER_ERROR) ;;
  match command (dc s) with
  | DC_START => decoder_run bad_path s
  | DC_SEEK => s ← clear_dest s; decoder_run bad_path s
  | DC_STOP => d ← CommandFinishedLocked (dc s); Some (put_dc d s)
  | DC_NONE => Some s
  end.

(** ** The atomic sections of the decoder thread *)

Inductive decoder_action :=
| D_task (bad_path : option (list Z))
| D_probe
| D_ready (open_error : option (list Z)) (audio_format : AudioFormat.AudioFormat) (seekable : bool)
    (duration : Z)
| D_get_command
| D_tag (stream : option Tag.Tag) (tg : Tag.Tag)
| D_send_tag (tg : Tag.Tag)
| D_data (stream : option Tag.Tag) (convert_error : option (list Z)) (len : Z)
| D_round (time rate len : Z)
| D_fail (e : list Z)
| D_get_seek_time
| D_command_finished
| D_seek_error
| D_end (failure : option (list Z)).

(** The types of the items of a tag are those of the enumeration. *)
Definition tag_ok (tg : Tag.Tag) : bool :=
  forallb (λ i, negb (bool_decide (Tag.type i = Tag.TAG_NUM_OF_ITEM_TYPES))) (Tag.items tg).
Definition opt_tag_ok (o : option Tag.Tag) : bool := match o with Some t => tag_ok t | None => true end.

(** A plugin that was told to seek has answered. *)
Definition not_seeking (b : DecoderBridge) : bool :=
  negb (seeking b) && negb (initial_seek_pending b) && negb (initial_seek_running b).

(** There is a SEEK command, real or virtual. *)
Definition told_to_seek (b : DecoderBridge) (d : DecoderControl) : bool :=
  initial_seek_running b || bool_decide (command d = DC_SEEK).

(** What a plugin may do when: it calls [Ready] once, and submits data and tags only behind
    it; it takes a seek only when told to, and leaves it only by finishing it.  The rounds
    of [SubmitData] are atomic sections of their own: commands may arrive in between.
    [D_send_tag] is a [DoSendTag] that goes on after waiting for a free chunk.  A call that
    does not fit is left out. *)
Definition decoder_act (a : decoder_action) (s : stage) : option stage :=
  let d := dc s in
  match a, bridge s with
  | D_task bad_path, None => decoder_task bad_path s
  | D_probe, Some b =>
      if bool_decide (state d = DECODER_START) then decoder_probe b s else Some s
  | D_ready open_error af sk dur, Some b =>
      if bool_decide (state d = DECODER_START) && AudioFormat.IsValid af
      then Ready open_error af sk dur b s else Some s
  | D_get_command, Some b => '(_, s) ← GetCommand b s; Some s
  | D_tag stream tg, Some b =>
      if bool_decide (state d = DECODER_DECODE) && negb (seeking b) && tag_ok tg
         && opt_tag_ok stream && opt_tag_ok (song_tag b)
      then SubmitTag stream tg b s else Some s
  | D_send_tag tg, Some b =>
      if bool_decide (state d = DECODER_DECODE) && not_seeking b && tag_ok tg
      then '(_, s) ← DoSendTag tg b s; Some s else Some s
  | D_data stream convert_error len, Some b =>
      if bool_decide (state d = DECODER_DECODE) && negb (seeking b)
         && opt_tag_ok stream && opt_tag_ok (song_tag b)
         && (len mod AudioFormat.GetFrameSize (in_audio_format d) =? 0)%Z
      then '(_, s) ← SubmitData stream convert_error len b s; Some s else Some s
  | D_round time rate len, Some b =>
      if bool_decide (state d = DECODER_DECODE) && not_seeking b && (0 <? len)%Z
      then SubmitData_round time rate len b s else Some s
  | D_fail e, Some b => Some (put_bridge (Some (set_bridge_error (Some e) b)) s)
  | D_get_seek_time, Some b =>
      if bool_decide (state d = DECODER_DECODE) && told_to_seek b d then GetSeekTime b s else Some s
  | D_command_finished, Some b =>
      if seeking b || initial_seek_running b then CommandFinished b s else Some s
  | D_seek_error, Some b =>
      if bool_decide (state d = DECODER_DECODE) && told_to_seek b d then SeekError b s else Some s
  | D_end failure, Some b =>
      if seeking b then Some s else decoder_run_end failure b s
  | _, _ => Some s
  end.

(** A decoder that does what it is told: it takes commands, accepts every song, format and
    seek position, and stops when asked to. *)
Definition cd_format : AudioFormat.AudioFormat := AudioFormat.mkAudioFormat 44100 AudioFormat.S16 2.

Definition obedient_action (s : stage) : decoder_action :=
  match bridge s, state (dc s), command (dc s) with
  | None, _, _ => D_task None
  | Some b, _, DC_STOP => D_end None
  | Some b, DECODER_START, _ => D_ready None cd_format true (-1)
  | Some b, _, DC_SEEK =>
      if seeking b || initial_seek_running b then D_command_finished
      else if initial_seek_pending b && negb (bool_decide (is_Some (bridge_error b))) then D_get_command
      else D_get_seek_time
  | Some b, _, _ => D_probe
  end.

Definition obey (s : stage) : stage := default s (decoder_act (obedient_action s) s).

End DecoderThread.

End Decoder.
