(* ===== verification/DecoderFacts.v ===== *)
(** * Decoder: the shared state stays in order

    [stage_ok l s]: the state [s] shared by the player and the decoder is in order, and the
    slices [l] of the chunk buffer are held by others.  Every atomic section of the decoder
    thread runs without a failed assertion and keeps it ([decoder_act_ok]); [stage_rel]
    collects what the player may rely on meanwhile. *)

From Stdlib Require Import ZArith Lia ZifyBool.
From stdpp Require Import base numbers sets strings list gmap.
From S2P Require Import Prelude Tag AudioFormat Song Music Decoder.

Set Default Goal Selector "!".

Module DecoderFacts.
Import Decoder.
#[local] Abbreviation holds := SliceBuffer.holds.

(** ** The slices of all pipes *)

Definition pslices (m : gmap nat MusicPipe.t) : list nat :=
  map_to_list m ≫= λ x, MusicPipe.slices x.2.

Lemma pslices_empty : pslices ∅ = [].
Proof. unfold pslices. by rewrite map_to_list_empty. Qed.

Lemma pslices_insert m q p : m !! q = None →
  pslices (<[q:=p]> m) ≡ₚ MusicPipe.slices p ++ pslices m.
Proof. intros H. unfold pslices. by rewrite map_to_list_insert. Qed.

Lemma pslices_delete m q p : m !! q = Some p →
  pslices m ≡ₚ MusicPipe.slices p ++ pslices (delete q m).
Proof.
  intros H. rewrite <-(insert_delete_id m q p H) at 1. rewrite pslices_insert; [done|].
  apply lookup_delete_eq.
Qed.

(** Replacing a pipe. *)
Lemma pslices_update m q p : pslices (<[q:=p]> m) ≡ₚ MusicPipe.slices p ++ pslices (delete q m).
Proof. rewrite <-insert_delete_eq. apply pslices_insert, lookup_delete_eq. Qed.

Lemma slices_snoc p p' c : MusicPipe.chunks p' = MusicPipe.chunks p ++ [c] →
  MusicPipe.slices p' = MusicPipe.slices p ++ MusicChunk.addrs c.
Proof. intros H. unfold MusicPipe.slices. rewrite H, bind_app. simpl. by rewrite app_nil_r. Qed.

(** ** What the player relies on while the decoder acts *)

Record stage_rel (s s' : stage) : Prop := {
  sr_pipe : pipe (dc s') = pipe (dc s);
  sr_song : song (dc s') = song (dc s);
  sr_waiting : client_is_waiting (dc s') = client_is_waiting (dc s);
  sr_command : command (dc s') = command (dc s) ∨ command (dc s') = DC_NONE;
  sr_idle : command (dc s) = DC_NONE → IsIdle (dc s) = true →
    dc s' = dc s ∧ bridge s' = bridge s ∧ pipes s' = pipes s;
  sr_start : command (dc s) = DC_NONE → IsStarting (dc s') = true → IsStarting (dc s) = true;
  sr_stop : command (dc s) = DC_STOP → command (dc s') = DC_NONE → IsIdle (dc s') = true;
  sr_dom : ∀ q, is_Some (pipes s' !! q) ↔ is_Some (pipes s !! q);
  sr_other : ∀ q, pipe (dc s) ≠ Some q → pipes s' !! q = pipes s !! q;
  sr_grow : ∀ q p p', command (dc s) ≠ DC_SEEK → pipes s !! q = Some p → pipes s' !! q = Some p' →
    length (MusicPipe.chunks p) ≤ length (MusicPipe.chunks p');
}.

#[global] Instance stage_rel_refl : Reflexive stage_rel.
Proof.
  intros s. constructor; try done; [by left| |].
  - intros H1 H2. unfold IsIdle in *. destruct (bridge s); congruence.
  - intros q p p' _ H1 H2. by simplify_eq.
Qed.

#[global] Instance stage_rel_trans : Transitive stage_rel.
Proof.
  intros s s1 s2 H1 H2. constructor.
  - by rewrite (sr_pipe _ _ H2), (sr_pipe _ _ H1).
  - by rewrite (sr_song _ _ H2), (sr_song _ _ H1).
  - by rewrite (sr_waiting _ _ H2), (sr_waiting _ _ H1).
  - destruct (sr_command _ _ H1), (sr_command _ _ H2); (left; congruence) || (right; congruence).
  - intros Hc Hi. destruct (sr_idle _ _ H1 Hc Hi) as (Hd & Hb & Hp).
    destruct (sr_idle _ _ H2) as (-> & -> & ->); by rewrite ?Hd.
  - intros Hc Hs. apply (sr_start _ _ H1 Hc), (sr_start _ _ H2); [|done].
    destruct (sr_command _ _ H1); congruence.
  - intros Hc Hn. destruct (sr_command _ _ H1) as [Hm|Hm]; [by apply (sr_stop _ _ H2); [congruence|]|].
    pose proof (sr_stop _ _ H1 Hc Hm) as Hi. by rewrite (proj1 (sr_idle _ _ H2 Hm Hi)).
  - intros q. by rewrite (sr_dom _ _ H2), (sr_dom _ _ H1).
  - intros q Hq. rewrite (sr_other _ _ H2), (sr_other _ _ H1); [done|done|].
    by rewrite (sr_pipe _ _ H1).
  - intros q p p2 Hc Hp Hp2. destruct (proj2 (sr_dom _ _ H1 q)) as [p1 Hp1]; [by eexists|].
    pose proof (sr_grow _ _ H1 q p p1 Hc Hp Hp1).
    assert (Hc1 : command (dc s1) ≠ DC_SEEK) by (destruct (sr_command _ _ H1); congruence).
    pose proof (sr_grow _ _ H2 q p1 p2 Hc1 Hp1 Hp2). lia.
Qed.

Section Facts.
Context (af : AudioFormat.AudioFormat).
Hypothesis Haf : AudioFormat.IsValid af = true.
#[local] Abbreviation pipe_ok := (MusicPipe.pipe_ok af).
#[local] Abbreviation chunk_ok := (MusicPipe.chunk_ok af).

(** ** The invariant *)

(** A chunk that is being filled. *)
Record cur_ok (c : MusicChunk.t) : Prop := {
  cu_other : MusicChunk.other c = None;
  cu_length : (0 ≤ MusicChunk.length c ≤ MusicChunk.CHUNK_SIZE)%Z;
  cu_format : MusicChunk.length c = 0%Z ∨ MusicChunk.audio_format c = af;
  cu_tag : ∀ tg, MusicChunk.tag c = Some tg → Tag.valid_items (Tag.items tg);
}.

Definition cur_slices (b : option DecoderBridge) : list nat :=
  match b with
  | Some b => match current_chunk b with Some c => MusicChunk.addrs c | None => [] end
  | None => []
  end.

(** The pipe the decoder writes to exists; and it is empty. *)
Definition has_dest (s : stage) : Prop := ∃ q p, pipe (dc s) = Some q ∧ pipes s !! q = Some p.
Definition dest_empty (s : stage) : Prop :=
  ∀ q p, pipe (dc s) = Some q → pipes s !! q = Some p → MusicPipe.chunks p = [].

(** What holds between the calls of a plugin. *)
Record plugin_ok (b : DecoderBridge) (s : stage) : Prop := {
  pk_initial : initial_seek_pending b = true ∨ initial_seek_running b = true →
    current_chunk b = None ∧ dest_empty s;
  pk_running : initial_seek_running b = true →
    state (dc s) = DECODER_DECODE ∧ seeking b = false ∧ initial_seek_pending b = false;
  pk_fresh : state (dc s) = DECODER_START →
    stream_tag b = None ∧ decoder_tag b = None ∧ convert b = false ∧ seeking b = false;
  pk_convert : state (dc s) = DECODER_DECODE →
    convert b = negb (bool_decide (in_audio_format (dc s) = out_audio_format (dc s)));
  pk_tags : ∀ t, stream_tag b = Some t ∨ decoder_tag b = Some t → Tag.valid_items (Tag.items t);
}.

Record bridge_ok (b : DecoderBridge) (s : stage) : Prop := {
  bo_busy : IsIdle (dc s) = false;
  bo_dest : has_dest s;
  bo_song : is_Some (song (dc s));
  bo_seeking : seeking b = true → command (dc s) = DC_SEEK ∧ state (dc s) = DECODER_DECODE;
  bo_start : state (dc s) = DECODER_START → current_chunk b = None ∧ dest_empty s;
  bo_current : ∀ c, current_chunk b = Some c → cur_ok c;
  bo_command : command (dc s) ≠ DC_START;
  bo_plugin : plugin_ok b s;
}.

Record idle_ok (s : stage) : Prop := {
  io_idle : IsIdle (dc s) = true;
  io_command : command (dc s) = DC_START ∨ command (dc s) = DC_SEEK →
    has_dest s ∧ is_Some (song (dc s));
  io_start : command (dc s) = DC_START → dest_empty s;
}.

Record stage_ok (l : list nat) (s : stage) : Prop := {
  so_thread : match bridge s with Some b => bridge_ok b s | None => idle_ok s end;
  so_error : state (dc s) = DECODER_ERROR → is_Some (error (dc s));
  so_pipes : ∀ q p, pipes s !! q = Some p → pipe_ok false p;
  so_holds : holds (buffer s) (pslices (pipes s) ++ cur_slices (bridge s) ++ l);
  so_format : out_audio_format (dc s) = af;
}.

Lemma bridge_ok_put x b s : bridge_ok b (put_bridge x s) ↔ bridge_ok b s.
Proof. split; intros [H1 H2 H3 H4 H5 H6 H7 [P1 P2 P3 P4 P5]]; by constructor. Qed.

Lemma stage_ok_Permutation l l' s : l ≡ₚ l' → stage_ok l s → stage_ok l' s.
Proof. intros Hl []. constructor; [done..| |done]. by rewrite <-Hl. Qed.

(** ** The operations of the bridge *)

(** The pipes and the buffer, with the slices [l] held elsewhere. *)
Record mem_ok (l : list nat) (s : stage) : Prop := {
  mo_pipes : ∀ q p, pipes s !! q = Some p → pipe_ok false p;
  mo_holds : holds (buffer s) (pslices (pipes s) ++ l);
}.

(** Only the destination has changed, and only by growing. *)
Record pipes_rel (s s' : stage) : Prop := {
  pr_dom : ∀ q, is_Some (pipes s' !! q) ↔ is_Some (pipes s !! q);
  pr_other : ∀ q, pipe (dc s) ≠ Some q → pipes s' !! q = pipes s !! q;
  pr_grow : ∀ q p p', pipes s !! q = Some p → pipes s' !! q = Some p' →
    length (MusicPipe.chunks p) ≤ length (MusicPipe.chunks p');
}.

Lemma pipes_rel_same s s' : pipes s' = pipes s → pipes_rel s s'.
Proof. intros H. constructor; rewrite H; [done|done|]. intros q p p' H1 H2. by simplify_eq. Qed.

Lemma pipes_rel_trans s s1 s2 : dc s1 = dc s → pipes_rel s s1 → pipes_rel s1 s2 → pipes_rel s s2.
Proof.
  intros Hd H1 H2. constructor.
  - intros q. by rewrite (pr_dom _ _ H2), (pr_dom _ _ H1).
  - intros q Hq. rewrite (pr_other _ _ H2), (pr_other _ _ H1); [done|done|by rewrite Hd].
  - intros q p p2 Hp Hp2. destruct (proj2 (pr_dom _ _ H1 q)) as [p1 Hp1]; [by eexists|].
    pose proof (pr_grow _ _ H1 q p p1 Hp Hp1). pose proof (pr_grow _ _ H2 q p1 p2 Hp1 Hp2). lia.
Qed.

Lemma cur_chunk_ok c : cur_ok c → MusicChunk.IsEmpty c = false → chunk_ok false c.
Proof. intros [] He. constructor; [done|lia|done|done|]. by rewrite cu_other0. Qed.

Lemma chunk_addrs c : MusicChunk.other c = None → MusicChunk.addrs c = [MusicChunk.addr c].
Proof. intros H. unfold MusicChunk.addrs. by rewrite H. Qed.

Lemma Return_cur_ok c buf l : cur_ok c → holds buf (MusicChunk.addrs c ++ l) →
  ∃ buf', MusicBuffer.Return c buf = Some buf' ∧ holds buf' l.
Proof.
  intros Hc Hh. rewrite chunk_addrs in Hh by apply Hc. unfold MusicBuffer.Return.
  rewrite (cu_other _ Hc). cbn [mbind option_bind].
  destruct (SliceBuffer.Free_ok _ _ _ Hh) as (b & -> & _ & Hb). eauto.
Qed.

Lemma not_seeking_spec b : not_seeking b = true →
  seeking b = false ∧ initial_seek_pending b = false ∧ initial_seek_running b = false.
Proof.
  unfold not_seeking. intros [[H1 H2]%andb_true_iff H3]%andb_true_iff. by rewrite !negb_true_iff in *.
Qed.

Lemma FlushChunk_ok b c l s :
  not_seeking b = true → current_chunk b = Some c → cur_ok c → has_dest s →
  mem_ok (MusicChunk.addrs c ++ l) s →
  ∃ s', FlushChunk b s = Some s' ∧ dc s' = dc s ∧
    bridge s' = Some (set_chunk None b) ∧ mem_ok l s' ∧ pipes_rel s s'.
Proof.
  intros (Hsk & Hpe & Hru)%not_seeking_spec Hcur Hc (q & p & Hq & Hp) [Hpipes Hh].
  unfold FlushChunk. rewrite Hsk, Hpe, Hru, Hcur.
  rewrite !check_bind by done. cbn [mbind option_bind]. destruct (MusicChunk.IsEmpty c) eqn:He.
  - cbn [put_bridge buffer]. rewrite Permutation_app_swap_app in Hh.
    destruct (Return_cur_ok c _ _ Hc Hh) as (buf & -> & Hb). cbn [mbind option_bind].
    eexists. split_and!; [done|done|done|by constructor|by apply pipes_rel_same].
  - unfold dest_pipe. cbn [put_bridge dc pipes]. rewrite Hq. cbn [mbind option_bind].
    rewrite Hp. cbn [mbind option_bind].
    destruct (MusicPipe.Push_ok af Haf false c p) as (p' & -> & Hp' & Hch);
      [by apply cur_chunk_ok|by eapply Hpipes|]. cbn [mbind option_bind].
    eexists. split_and!; [done|done|done| |].
    + constructor; cbn [put_pipe put_bridge pipes buffer].
      * intros q' p2. destruct (decide (q' = q)) as [->|Hne].
        { rewrite lookup_insert_eq. by intros [= <-]. }
        rewrite lookup_insert_ne by done. apply Hpipes.
      * rewrite pslices_update, (slices_snoc p p' c Hch).
        rewrite (pslices_delete _ q p Hp) in Hh. rewrite <-!app_assoc in *.
        by rewrite (Permutation_app_swap_app (MusicChunk.addrs c)).
    + constructor; cbn [put_pipe put_bridge pipes dc].
      * intros q'. destruct (decide (q' = q)) as [->|Hne].
        { rewrite lookup_insert_eq, Hp. by split; eauto. }
        by rewrite lookup_insert_ne.
      * intros q' Hne. rewrite lookup_insert_ne; [done|congruence].
      * intros q' p1 p2 H1. destruct (decide (q' = q)) as [->|Hne].
        { rewrite lookup_insert_eq. intros [= <-]. rewrite Hp in H1. injection H1 as <-.
          rewrite Hch, length_app. lia. }
        rewrite lookup_insert_ne by done. intros H2. by simplify_eq.
Qed.

Lemma set_chunk_id b c : current_chunk b = c → b = set_chunk c b.
Proof. intros <-. by destruct b. Qed.

Lemma GetChunk_ok b l s :
  bridge s = Some b → (∀ c, current_chunk b = Some c → cur_ok c) →
  mem_ok (cur_slices (Some b) ++ l) s →
  ∃ r s', GetChunk b s = Some (r, s') ∧ dc s' = dc s ∧ pipes s' = pipes s ∧
    bridge s' = Some (set_chunk r b) ∧ (∀ c, r = Some c → cur_ok c) ∧
    mem_ok (cur_slices (bridge s') ++ l) s'.
Proof.
  intros Hb Hcur [Hp Hh]. unfold GetChunk. cbn [cur_slices] in Hh.
  destruct (current_chunk b) as [c|] eqn:Ec.
  { pose proof (set_chunk_id b _ Ec) as Heq.
    exists (Some c), s. split_and!; [done|done|done|by rewrite <-Heq|by intros ? [= <-]; auto|].
    rewrite Hb. constructor; [done|]. cbn [cur_slices]. by rewrite Ec. }
  unfold MusicBuffer.Allocate.
  destruct (SliceBuffer.Allocate_ok _ _ Hh) as (r & buf & -> & _ & Hr). destruct r as [a|]; simpl.
  - destruct Hr as [_ Hr]. exists (Some (MusicChunk.make a)). eexists.
    split; [done|]. cbn [put_bridge put_buffer dc pipes bridge]. split_and!; [done|done|done| |].
    + intros c [= <-]. constructor; cbn; [done|unfold MusicChunk.CHUNK_SIZE; lia|by left|done].
    + constructor; [done|]. cbn. by rewrite <-Permutation_middle.
  - destruct Hr as [-> _]. exists None. eexists.
    split; [done|]. cbn [put_bridge put_buffer dc pipes bridge]. split_and!; [done|done|done|done|].
    by constructor.
Qed.

Lemma frame_size_pos : (0 < AudioFormat.GetFrameSize af)%Z.
Proof.
  pose proof Haf as H. unfold AudioFormat.IsValid, AudioFormat.audio_valid_channel_count in H.
  unfold AudioFormat.GetFrameSize, AudioFormat.GetSampleSize.
  apply andb_true_iff in H as [H H3]. apply andb_true_iff in H as [_ H2].
  assert (0 < AudioFormat.sample_format_size (AudioFormat.format af))%Z
    by (by destruct (AudioFormat.format af)). nia.
Qed.

(** The space [Write] offers behind the data of a chunk. *)
Lemma Write_cur_ok tm rate c : cur_ok c →
  ∃ off n c', MusicChunk.Write af tm rate c = Some (off, n, c') ∧ cur_ok c' ∧
    MusicChunk.audio_format c' = af ∧ MusicChunk.addrs c' = MusicChunk.addrs c ∧
    (0 ≤ n ≤ MusicChunk.CHUNK_SIZE - MusicChunk.length c')%Z.
Proof.
  intros [H1 H2 H3 H4]. pose proof frame_size_pos as Hf. unfold MusicChunk.Write.
  assert (Hck : MusicChunk.CheckFormat c af = Some true).
  { unfold MusicChunk.CheckFormat. rewrite Haf. simpl. f_equal.
    destruct H3 as [->| ->]; [done|]. by rewrite bool_decide_eq_true_2, orb_true_r. }
  rewrite Hck. cbn [mbind option_bind]. rewrite check_bind by done.
  rewrite check_bind by (destruct H3 as [->| ->]; [done|]; by rewrite Haf, orb_true_r).
  eexists _, _, _. split; [done|].
  assert (Hn : ∀ x, (0 ≤ x)%Z → (0 ≤ x / AudioFormat.GetFrameSize af * AudioFormat.GetFrameSize af ≤ x)%Z).
  { intros x Hx. pose proof (Z.div_mod x (AudioFormat.GetFrameSize af)).
    pose proof (Z.mod_pos_bound x (AudioFormat.GetFrameSize af) Hf).
    pose proof (Z.div_pos x (AudioFormat.GetFrameSize af)). nia. }
  destruct (MusicChunk.length c =? 0)%Z eqn:E; cbn [MusicChunk.length MusicChunk.audio_format].
  - split_and!; [constructor; cbn; [done|lia|by right|done]|done|done|..]; apply Hn; lia.
  - split_and!; [by constructor|destruct H3; [lia|done]|done|..]; apply Hn; lia.
Qed.

Lemma Expand_cur_ok n c : cur_ok c → MusicChunk.audio_format c = af →
  (0 ≤ n ≤ MusicChunk.CHUNK_SIZE - MusicChunk.length c)%Z →
  ∃ full c', MusicChunk.Expand af n c = Some (full, c') ∧ cur_ok c' ∧
    MusicChunk.addrs c' = MusicChunk.addrs c.
Proof.
  intros [H1 H2 H3 H4] Hf Hn. unfold MusicChunk.Expand. rewrite check_bind by lia.
  rewrite check_bind by (by apply bool_decide_eq_true_2).
  eexists _, _. split_and!; [done| |done]. constructor; cbn; [done|lia|by right|done].
Qed.

(** What an operation of the bridge [b] leaves behind. *)
Record produced (b : DecoderBridge) (l : list nat) (s s' : stage) : Prop := {
  pd_dc : dc s' = dc s;
  pd_bridge : ∃ r, bridge s' = Some (set_chunk r b) ∧ ∀ c, r = Some c → cur_ok c;
  pd_mem : mem_ok (cur_slices (bridge s') ++ l) s';
  pd_pipes : pipes_rel s s';
}.

Lemma flush_produced b c l s s0 r :
  dc s = dc s0 → pipes s = pipes s0 → r = Some c →
  not_seeking b = true → cur_ok c → has_dest s →
  mem_ok (MusicChunk.addrs c ++ l) s → ∃ s', FlushChunk (set_chunk r b) s = Some s' ∧ produced b l s0 s'.
Proof.
  intros Hd Hp -> Hsk Hc Hdest Hm.
  destruct (FlushChunk_ok (set_chunk (Some c) b) c l s Hsk eq_refl Hc Hdest Hm)
    as (s' & Heq & Hdc & Hb & Hm' & Hpr).
  exists s'. split; [done|]. constructor.
  - congruence.
  - rewrite Hb. by exists None.
  - by rewrite Hb.
  - apply (pipes_rel_trans s0 s s'); [done| |done]. by apply pipes_rel_same.
Qed.

Lemma SubmitData_round_ok tm rate len b l s :
  bridge s = Some b → not_seeking b = true → (∀ c, current_chunk b = Some c → cur_ok c) →
  has_dest s → out_audio_format (dc s) = af → (0 < len)%Z → mem_ok (cur_slices (Some b) ++ l) s →
  ∃ s', SubmitData_round tm rate len b s = Some s' ∧ produced b l s s'.
Proof.
  intros Hb Hsk Hcur Hdest Hf Hlen Hm. unfold SubmitData_round. rewrite Hf.
  destruct (GetChunk_ok b l s Hb Hcur Hm) as (r & s1 & -> & Hd1 & Hp1 & Hb1 & Hr & Hm1).
  assert (Hdest1 : has_dest s1) by (unfold has_dest in *; by rewrite Hd1, Hp1).
  rewrite Hb1 in Hm1. destruct r as [c|].
  2:{ exists s1. split; [done|]. constructor; [done|by exists None|by rewrite Hb1|by apply pipes_rel_same]. }
  rewrite Hb1. cbn [mbind option_bind].
  destruct (Write_cur_ok tm rate c (Hr c eq_refl)) as (off & n & c1 & -> & Hc1 & Hf1 & Ha1 & Hn).
  cbn [cur_slices current_chunk set_chunk] in Hm1. rewrite <-Ha1 in Hm1.
  destruct (n =? 0)%Z eqn:En; [by eapply (flush_produced b c1 l s1 s)|].
  destruct (Expand_cur_ok (Z.min n len) c1 Hc1 Hf1 ltac:(lia)) as (full & c2 & -> & Hc2 & Ha2).
  rewrite <-Ha2 in Hm1. destruct full.
  - eapply (flush_produced b c2 l _ s); [exact Hd1|exact Hp1|done|done|done|done|].
    by destruct Hm1; constructor.
  - eexists. split; [done|]. constructor; [done| | |by apply pipes_rel_same].
    + exists (Some c2). split; [done|]. by intros ? [= <-].
    + by destruct Hm1; constructor.
Qed.

Lemma flush_current_ok b l s : bridge s = Some b → not_seeking b = true →
  (∀ c, current_chunk b = Some c → cur_ok c) → has_dest s → mem_ok (cur_slices (Some b) ++ l) s →
  ∃ s', match current_chunk b with Some _ => FlushChunk b s | None => Some s end = Some s' ∧
    produced b l s s' ∧ bridge s' = Some (set_chunk None b).
Proof.
  intros Hb Hsk Hcur Hdest Hm. destruct (current_chunk b) as [c|] eqn:Ec.
  - cbn [cur_slices] in Hm. rewrite Ec in Hm.
    destruct (FlushChunk_ok b c l s Hsk Ec (Hcur c eq_refl) Hdest Hm) as (s' & ? & ? & Hb' & ? & ?).
    exists s'. split_and!; [done| |done]. constructor; [done|by exists None|by rewrite Hb'|done].
  - pose proof (set_chunk_id b _ Ec) as Heq.
    exists s. split_and!; [done| |by rewrite Hb, <-Heq].
    constructor; [done| |by rewrite Hb|by apply pipes_rel_same]. exists None. by rewrite Hb, <-Heq.
Qed.

Lemma DoSendTag_ok tg b l s :
  bridge s = Some b → not_seeking b = true → (∀ c, current_chunk b = Some c → cur_ok c) →
  has_dest s → Tag.valid_items (Tag.items tg) → mem_ok (cur_slices (Some b) ++ l) s →
  ∃ sent s', DoSendTag tg b s = Some (sent, s') ∧ produced b l s s'.
Proof.
  intros Hb Hsk Hcur Hdest Htg Hm. unfold DoSendTag.
  destruct (flush_current_ok b l s Hb Hsk Hcur Hdest Hm) as (s1 & -> & [Hd1 _ Hm1 Hp1] & Hb1).
  cbn [mbind option_bind]. rewrite Hb1 in Hm1 |- *. cbn [mbind option_bind].
  destruct (GetChunk_ok (set_chunk None b) l s1 Hb1) as (r & s2 & -> & Hd2 & Hp2 & Hb2 & Hr & Hm2); [done..|].
  assert (Hprel : pipes_rel s s2).
  { eapply pipes_rel_trans; [exact Hd1|exact Hp1|]. by apply pipes_rel_same. }
  rewrite Hb2 in Hm2 |- *. destruct r as [c|].
  2:{ exists false, s2. split; [done|]. constructor; [congruence|by exists None|by rewrite Hb2|done]. }
  cbn [mbind option_bind]. eexists true, _. split; [done|].
  constructor; [cbn; congruence| | |by destruct Hprel; constructor].
  - eexists. split; [done|]. intros c' [= <-]. destruct (Hr c eq_refl).
    constructor; cbn; [done|done|done|]. by intros ? [= <-].
  - by destruct Hm2; constructor.
Qed.

(** ** Clearing a pipe *)

Lemma clear_pipe_ok q l s p : mem_ok l s → pipes s !! q = Some p →
  ∃ s', clear_pipe q s = Some s' ∧ dc s' = dc s ∧ bridge s' = bridge s ∧ mem_ok l s' ∧
    pipes s' = <[q:=MusicPipe.make]> (pipes s) ∧
    SliceBuffer.n_max (buffer s') = SliceBuffer.n_max (buffer s).
Proof.
  intros [Hp Hh] Hq. unfold clear_pipe. rewrite Hq. cbn [mbind option_bind].
  rewrite (pslices_delete _ q p Hq), <-app_assoc in Hh.
  destruct (MusicPipe.pipe_Clear_ok af false p _ _ (Hp q p Hq) Hh) as (p' & buf & -> & Hmax & -> & Hh').
  eexists. split_and!; [done|done|done| |done|done]. constructor; cbn.
  - intros q' p2. destruct (decide (q' = q)) as [->|Hne].
    + rewrite lookup_insert_eq. intros [= <-]. apply MusicPipe.make_pipe_ok.
    + rewrite lookup_insert_ne by done. apply Hp.
  - by rewrite pslices_update.
Qed.

(** ** The atomic sections *)

(** What one action of the decoder thread guarantees. *)
Definition acted (a : decoder_action) (l : list nat) (s s' : stage) : Prop :=
  stage_ok l s' ∧ stage_rel s s' ∧
  (state (dc s) = DECODER_DECODE → state (dc s') = DECODER_DECODE ∨ ∃ f, a = D_end f).

Lemma acted_same a l s : stage_ok l s → acted a l s s.
Proof. intros H. refine (conj _ (conj _ _)); [done|reflexivity|by left]. Qed.

Lemma stage_mem l s : stage_ok l s → mem_ok (cur_slices (bridge s) ++ l) s.
Proof. intros []. by constructor. Qed.

Lemma acted_trans a l s s1 s2 : acted a l s s1 → acted a l s1 s2 → acted a l s s2.
Proof.
  intros (_ & R1 & D1) (O2 & R2 & D2). refine (conj O2 (conj _ _)); [by etrans|].
  intros H. destruct (D1 H) as [H1|]; [by apply D2|by right].
Qed.

(** The operations of the bridge during [DECODE]. *)
Lemma produced_acted a b l s s' :
  bridge s = Some b → not_seeking b = true → stage_ok l s → state (dc s) = DECODER_DECODE →
  produced b l s s' → acted a l s s'.
Proof.
  intros Hb (Hsk & Hpe & Hru)%not_seeking_spec Hs Hst [Hd (r & Hb' & Hcur) [Hp Hh] Hpr].
  pose proof (so_thread _ _ Hs) as Ht. rewrite Hb in Ht. destruct Ht as [H1 H2 H3 H4 H5 H6 H7 [P1 P2 P3 P4 P5]].
  refine (conj _ (conj _ _)).
  - constructor; [|by rewrite Hd; apply Hs|done|done|by rewrite Hd; apply Hs].
    rewrite Hb'. constructor; [by rewrite Hd| |by rewrite Hd|by cbn; rewrite Hsk|
      by rewrite Hd, Hst|done|by rewrite Hd|].
    + destruct H2 as (q & p & Hq & Hqp). destruct (proj2 (pr_dom _ _ Hpr q)) as [p' Hp']; [by eexists|].
      exists q, p'. by rewrite Hd.
    + constructor; cbn; rewrite ?Hd, ?Hpe, ?Hru; try done. by intros [|].
  - constructor; try (rewrite Hd; done).
    + left. by rewrite Hd.
    + intros _. rewrite H1. done.
    + intros E. rewrite Hd, E. done.
    + apply Hpr.
    + apply Hpr.
    + intros q p p' _. apply Hpr.
  - left. by rewrite Hd.
Qed.

(** A change of [DecoderControl] only. *)
Lemma acted_dc a l s d (b : option DecoderBridge) :
  stage_ok l s → cur_slices b = cur_slices (bridge s) →
  (match b with Some b => bridge_ok b (put_bridge (Some b) (put_dc d s))
   | None => idle_ok (put_bridge None (put_dc d s)) end) →
  (state d = DECODER_ERROR → is_Some (error d)) → out_audio_format d = af →
  pipe d = pipe (dc s) → song d = song (dc s) →
  client_is_waiting d = client_is_waiting (dc s) →
  (command d = command (dc s) ∨ command d = DC_NONE) →
  (command (dc s) = DC_NONE → IsIdle (dc s) = false) →
  (command (dc s) = DC_NONE → IsStarting d = true → IsStarting (dc s) = true) →
  (command (dc s) = DC_STOP → command d = DC_NONE → IsIdle d = true) →
  (state (dc s) = DECODER_DECODE → state d = DECODER_DECODE ∨ ∃ f, a = D_end f) →
  acted a l s (put_bridge b (put_dc d s)).
Proof.
  intros Hs Hcs Hb He Hf Hp Hsg Hw Hc Hi Hst Hstop Hdec. refine (conj _ (conj _ _)); [| |done].
  - constructor; [by destruct b|exact He|apply Hs| |exact Hf]. cbn. rewrite Hcs. apply Hs.
  - constructor; try done.
    + intros H1 H2. by rewrite Hi in H2.
    + intros q p p' _ H1 H2. cbn in H2. by simplify_eq.
Qed.

Ltac dc_solve :=
  try match goal with H : bridge _ = _ |- context [bridge _] => by rewrite H end;
  try match goal with H : command _ = _ |- context [command _] => by rewrite H end;
  try (by left); try (by right).

Lemma put_dc_bridge s d b : bridge s = b → put_dc d s = put_bridge b (put_dc d s).
Proof. by intros <-. Qed.

(** A format that is fully given replaces every other one. *)
Lemma ApplyMask_full x : AudioFormat.IsValid x = true → AudioFormat.ApplyMask af x = Some af.
Proof.
  intros Hx. pose proof Haf as H. unfold AudioFormat.IsValid, AudioFormat.audio_valid_sample_rate,
    AudioFormat.audio_valid_channel_count in H.
  apply andb_true_iff in H as [H H3]. apply andb_true_iff in H as [H1 H2].
  unfold AudioFormat.ApplyMask. rewrite Hx, check_bind by done.
  assert (Hd : AudioFormat.is_undefined (AudioFormat.format af) = false)
    by (by destruct (AudioFormat.format af)).
  rewrite check_bind; [|unfold AudioFormat.IsMaskValid, AudioFormat.audio_valid_sample_rate,
    AudioFormat.audio_valid_channel_count; rewrite H1, H2, H3; by rewrite !orb_true_r].
  rewrite Hd. replace (AudioFormat.sample_rate af =? 0)%Z with false by lia.
  replace (AudioFormat.channels af =? 0)%Z with false by lia. cbn [negb].
  replace (AudioFormat.mkAudioFormat (AudioFormat.sample_rate af) (AudioFormat.format af)
    (AudioFormat.channels af)) with af by (by destruct af). by rewrite Haf, check_bind.
Qed.

Lemma decoder_run_ok bad a l s :
  stage_ok l s → bridge s = None → command (dc s) = DC_START ∨ command (dc s) = DC_SEEK →
  dest_empty s → ∃ s', decoder_run bad s = Some s' ∧ acted a l s s'.
Proof.
  intros Hs Hb Hcmd Hde. pose proof (so_thread _ _ Hs) as Ht. rewrite Hb in Ht.
  destruct Ht as [Hidle Hio _]. destruct (Hio Hcmd) as [(q & p & Hq & Hqp) [sg Hsg]].
  unfold decoder_run, decoder_run_song. cbn [upd_dc dc].
  assert (Hclr : song (ClearError (dc s)) = Some sg ∧ command (ClearError (dc s)) = command (dc s) ∧
    pipe (ClearError (dc s)) = Some q ∧ out_audio_format (ClearError (dc s)) = af ∧
    client_is_waiting (ClearError (dc s)) = client_is_waiting (dc s)).
  { unfold ClearError. destruct (decide _); cbn; split_and!; try done; apply Hs. }
  destruct Hclr as (H1 & H2 & H3 & H4 & H5). rewrite H1. cbn [mbind option_bind].
  assert (Hnd : state (dc s) ≠ DECODER_DECODE) by (intros E; unfold IsIdle in Hidle; by rewrite E in Hidle).
  assert (Hne : command (dc s) ≠ DC_NONE) by (destruct Hcmd; congruence).
  assert (Hns : command (dc s) ≠ DC_STOP) by (destruct Hcmd; congruence).
  assert (Hput : ∀ d, mkStage d None (buffer s) (pipes s) = put_bridge None (put_dc d s)) by done.
  destruct bad as [e|].
  - eexists. split; [done|]. unfold upd_dc. cbn [dc bridge buffer pipes]. rewrite Hb, Hput.
    apply acted_dc; cbn; try done; [by rewrite Hb| |by rewrite H3|by rewrite H1|by left; rewrite H2].
    constructor; cbn; [done| |].
    + intros _. split; [|by eexists]. exists q, p. cbn. by rewrite H3.
    + intros _ q' p' Hq' Hp'. cbn in Hq', Hp'. apply (Hde q' p'); [congruence|done].
  - unfold CommandFinishedLocked. cbn [set_state command]. rewrite H2.
    rewrite check_bind by (by rewrite bool_decide_eq_false_2). cbn [mbind option_bind].
    eexists. split; [done|]. unfold put_bridge at 1, put_dc, upd_dc. cbn [dc bridge buffer pipes].
    match goal with |- acted _ _ _ (mkStage ?d ?b _ _) =>
      change (acted a l s (put_bridge b (put_dc d s))) end.
    apply acted_dc; cbn; try done; [by rewrite Hb| |by rewrite H3|by rewrite H1|by right].
    match goal with |- bridge_ok _ ?x => assert (Hde' : dest_empty x) end.
    { intros q' p' Hq' Hp'. cbn in Hq', Hp'. apply (Hde q' p'); [congruence|done]. }
    constructor; cbn; try done.
    + exists q, p. cbn. by rewrite H3.
    + constructor; cbn; try done. by intros t [|].
Qed.

Lemma clear_dest_ok l s q p : mem_ok l s → pipe (dc s) = Some q → pipes s !! q = Some p →
  ∃ s', clear_dest s = Some s' ∧ dc s' = dc s ∧ bridge s' = bridge s ∧ mem_ok l s' ∧
    pipes s' = <[q:=MusicPipe.make]> (pipes s).
Proof.
  intros Hm Hq Hp. unfold clear_dest. rewrite Hq. cbn [mbind option_bind].
  destruct (clear_pipe_ok q l s p Hm Hp) as (s' & ? & ? & ? & ? & ? & _). eauto 10.
Qed.

(** Clearing the destination during a seek. *)
Lemma stage_rel_cleared s s' q p : command (dc s) = DC_SEEK →
  pipe (dc s) = Some q → pipes s !! q = Some p → pipes s' = <[q:=MusicPipe.make]> (pipes s) →
  pipe (dc s') = pipe (dc s) → song (dc s') = song (dc s) →
  client_is_waiting (dc s') = client_is_waiting (dc s) →
  (command (dc s') = command (dc s) ∨ command (dc s') = DC_NONE) → stage_rel s s'.
Proof.
  intros Hc Hq Hp Hpipes H1 H2 H3 H4. constructor; try done; try (rewrite Hc; done).
  - intros q'. rewrite Hpipes. destruct (decide (q' = q)) as [->|Hne].
    + rewrite lookup_insert_eq, Hp. by split; eauto.
    + by rewrite lookup_insert_ne.
  - intros q' Hne. rewrite Hpipes, lookup_insert_ne; [done|congruence].
Qed.

Lemma decoder_task_ok bad l s : stage_ok l s → bridge s = None →
  ∃ s', decoder_task bad s = Some s' ∧ acted (D_task bad) l s s'.
Proof.
  intros Hs Hb. pose proof (so_thread _ _ Hs) as Ht. rewrite Hb in Ht. destruct Ht as [Hi Hcmd Hst].
  unfold decoder_task. rewrite check_bind by exact Hi. destruct (command (dc s)) eqn:Ec.
  - exists s. split; [done|]. by apply acted_same.
  - apply decoder_run_ok; [done|done|by left|by apply Hst].
  - unfold CommandFinishedLocked. rewrite Ec. cbn [check negb bool_decide decide mbind option_bind].
    simpl. eexists. split; [done|]. rewrite (put_dc_bridge s _ None Hb).
    apply acted_dc; cbn; try done; try apply Hs; try (by rewrite Ec); [by rewrite Hb| |by right|by left].
    constructor; [done|by intros [?|?]|done].
  - destruct (Hcmd (or_intror eq_refl)) as [(q & p & Hq & Hp) Hsg].
    pose proof (stage_mem _ _ Hs) as Hm.
    destruct (clear_dest_ok _ s q p Hm Hq Hp) as (s1 & -> & Hd1 & Hb1 & [Hp1 Hh1] & Hpi).
    cbn [mbind option_bind].
    assert (Hs1 : stage_ok l s1).
    { constructor; [|by rewrite Hd1; apply Hs|done|by rewrite Hb1|by rewrite Hd1; apply Hs].
      rewrite Hb1, Hb. constructor; [by rewrite Hd1| |by rewrite Hd1, Ec].
      intros _. split; [|by rewrite Hd1]. exists q, MusicPipe.make. rewrite Hd1, Hpi, lookup_insert_eq. done. }
    assert (Hrel : stage_rel s s1).
    { eapply stage_rel_cleared; try done; rewrite Hd1; try done. by left. }
    destruct (decoder_run_ok bad (D_task bad) l s1 Hs1) as (s2 & -> & Ha).
    + by rewrite Hb1.
    + right. by rewrite Hd1.
    + intros q' p'. rewrite Hd1, Hpi, Hq. intros [= <-]. rewrite lookup_insert_eq. by intros [= <-].
    + exists s2. split; [done|]. destruct Ha as (Ha1 & Ha2 & Ha3). rewrite Hd1 in Ha3.
      refine (conj _ (conj _ _)); [done|by etrans|done].
Qed.

Lemma tag_ok_valid t : tag_ok t = true → Tag.valid_items (Tag.items t).
Proof.
  intros H. apply Forall_forall. intros i Hi Hbad. unfold tag_ok in H. rewrite forallb_forall in H.
  apply list_elem_of_In in Hi. specialize (H i Hi). by rewrite bool_decide_eq_true_2 in H.
Qed.

(** *** A plugin has found a format *)

Definition ready_dc (x : AudioFormat.AudioFormat) (sk : bool) (dur : Z) (d : DecoderControl) :=
  mkDecoderControl DECODER_DECODE (command d) (error d) (client_is_waiting d) (seek_error d) sk
    (seek_time d) x af (song d) (start_time d) (end_time d) dur (pipe d).

Lemma SetReady_ok x sk dur l s b :
  stage_ok l s → bridge s = Some b → state (dc s) = DECODER_START → AudioFormat.IsValid x = true →
  SetReady af ((λ x, MusicPipe.IsEmpty x.2) <$> dest_pipe s) x sk dur (dc s) = Some (ready_dc x sk dur (dc s)).
Proof.
  intros Hs Hb Hst Hv. pose proof (so_thread _ _ Hs) as Ht. rewrite Hb in Ht.
  destruct Ht as [_ (q & p & Hq & Hp) _ _ H5 _ _ _]. destruct (H5 Hst) as [_ Hde].
  assert (Hpe : MusicPipe.IsEmpty p = true).
  { unfold MusicPipe.IsEmpty. rewrite (MusicPipe.po_size _ _ _ (so_pipes _ _ Hs q p Hp)).
    by rewrite (Hde q p Hq Hp). }
  unfold SetReady. rewrite Hst. rewrite check_bind by done. unfold dest_pipe. rewrite Hq.
  cbn [mbind option_bind]. rewrite Hp. cbn [fmap option_fmap option_map mbind option_bind snd].
  rewrite Hpe, check_bind by done. rewrite (MusicPipe.af_defined x Hv), check_bind by done.
  rewrite Hv, check_bind by done. rewrite ApplyMask_full by done. unfold ready_dc. by rewrite Hq.
Qed.

(** The bridge behind [Ready]. *)
Definition ready_bridge (oe : option (list Z)) (x : AudioFormat.AudioFormat) (b : DecoderBridge) :=
  if decide (x = af) then b
  else set_convert (match oe with Some e => set_bridge_error (Some e) b | None => b end).

Lemma Ready_ok oe x sk dur l s b :
  stage_ok l s → bridge s = Some b → state (dc s) = DECODER_START → AudioFormat.IsValid x = true →
  let s' := put_bridge (Some (ready_bridge oe x b)) (put_dc (ready_dc x sk dur (dc s)) s) in
  Ready af oe x sk dur b s = Some s' ∧ acted (D_ready oe x sk dur) l s s'.
Proof.
  intros Hs Hb Hst Hv. cbv zeta. pose proof (so_thread _ _ Hs) as Ht. rewrite Hb in Ht.
  destruct Ht as [H1 H2 H3 H4 H5 H6 H7 [P1 P2 P3 P4 P5]]. destruct (P3 Hst) as (F1 & F2 & F3 & F4).
  split.
  - unfold Ready. rewrite F1, F2, F3, F4, !check_bind by done. rewrite (SetReady_ok _ _ _ _ _ _ Hs Hb Hst Hv).
    cbn [mbind option_bind in_audio_format out_audio_format ready_dc]. unfold ready_bridge.
    by destruct (decide (x = af)), oe.
  - assert (Hb' : ∃ v w, ready_bridge oe x b = mkBridge (current_chunk b) (seeking b) w
      (initial_seek_pending b) (initial_seek_running b) (song_tag b) (stream_tag b) (decoder_tag b) v ∧
      v = negb (bool_decide (x = af))).
    { unfold ready_bridge. destruct (decide (x = af)) as [Hx|Hx].
      - exists (convert b), (bridge_error b). split; [by destruct b|].
        by rewrite F3, bool_decide_eq_true_2.
      - rewrite bool_decide_eq_false_2 by done. destruct oe; eexists _, _; (split; [reflexivity|done]). }
    destruct Hb' as (v & w & -> & Hv'). pose proof (H5 Hst) as [G1 G2].
    apply acted_dc; cbn; try done; [by rewrite Hb| |by left|by intros Hc; rewrite Hc in *|by left].
    constructor; cbn; try done; [by rewrite F4|]. constructor; cbn; try done. by intros H; destruct (P2 H) as (_ & ? & ?).
Qed.

(** *** Changes of the bridge alone *)

Lemma bridge_acted a l s b b' : stage_ok l s → bridge s = Some b →
  current_chunk b' = current_chunk b → bridge_ok b' s → acted a l s (put_bridge (Some b') s).
Proof.
  intros Hs Hb Hcur Hok. replace (put_bridge (Some b') s) with (put_bridge (Some b') (put_dc (dc s) s))
    by (by destruct s).
  apply acted_dc; try done; [rewrite Hb; cbn; by rewrite Hcur|by apply bridge_ok_put; destruct s|apply Hs|apply Hs|
    by left|by intros _; apply Hok|by intros ->|by left].
Qed.

(** [b'] differs from [b] in the state of the initial seek only. *)
Record seek_prepared (b b' : DecoderBridge) (s : stage) (r : bool) : Prop := {
  sp_same : ∃ x y, b' = set_initial x y b;
  sp_ok : bridge_ok b' s;
  sp_not_seeking : r = false → seeking b = false → state (dc s) = DECODER_DECODE → not_seeking b' = true;
}.

Lemma bridge_ok_initial x y b s : bridge_ok b s →
  (x = true ∨ y = true → initial_seek_pending b = true ∨ initial_seek_running b = true) →
  (y = true → state (dc s) = DECODER_DECODE ∧ seeking b = false ∧ x = false) → bridge_ok (set_initial x y b) s.
Proof.
  intros [H1 H2 H3 H4 H5 H6 H7 [P1 P2 P3 P4 P5]] Hxy Hy. constructor; try done. constructor; try done.
  cbn. intros H. apply P1, Hxy, H.
Qed.

Lemma has_pipe_ok s : has_dest s → has_pipe s = Some tt.
Proof.
  intros (q & p & Hq & _). unfold has_pipe. rewrite Hq. by rewrite bool_decide_eq_true_2.
Qed.

Lemma set_initial_same b : b = set_initial (initial_seek_pending b) (initial_seek_running b) b.
Proof. by destruct b. Qed.

Lemma PrepareInitialSeek_ok b s : bridge_ok b s →
  ∃ r b', PrepareInitialSeek b s = Some (r, b') ∧ seek_prepared b b' s r.
Proof.
  intros Hb. unfold PrepareInitialSeek. rewrite has_pipe_ok by apply Hb. cbn [mbind option_bind].
  assert (Hsame : ∀ r, (r = false → seeking b = false → state (dc s) = DECODER_DECODE → not_seeking b = true) →
    seek_prepared b b s r).
  { intros r Hr. constructor; [|done|done]. eexists _, _. apply set_initial_same. }
  case_bool_decide as Hst; cbn [negb].
  2:{ eexists _, _. split; [done|]. apply Hsame. done. }
  destruct (initial_seek_running b) eqn:Er.
  { eexists _, _. split; [done|]. apply Hsame. done. }
  destruct (initial_seek_pending b) eqn:Ep.
  2:{ eexists _, _. split; [done|]. apply Hsame. intros _ Hsk _. unfold not_seeking. by rewrite Hsk, Ep, Er. }
  assert (Hno : seek_prepared b (set_initial false false b) s false).
  { constructor; [by eexists _, _|apply bridge_ok_initial; [done|by intros [|]|done]|].
    intros _ Hsk _. unfold not_seeking. cbn. by rewrite Hsk. }
  destruct (seekable (dc s)); cbn [negb]; [|by eexists _, _].
  destruct (decide (command (dc s) = DC_NONE)) as [Hc|]; [|by eexists _, _].
  eexists _, _. split; [done|]. constructor; [by eexists _, _| |done].
  apply bridge_ok_initial; [done|by left|]. intros _. split_and!; [done| |done].
  destruct (seeking b) eqn:Hsk; [|done]. by destruct (bo_seeking _ _ Hb Hsk) as [H _]; rewrite Hc in H.
Qed.

Lemma GetVirtualCommand_ok b s : bridge_ok b s →
  ∃ cmd b', GetVirtualCommand b s = Some (cmd, b') ∧
    seek_prepared b b' s (bool_decide (cmd = DC_STOP) || bool_decide (cmd = DC_SEEK)).
Proof.
  intros Hb. unfold GetVirtualCommand. destruct (bridge_error b) as [e|].
  { eexists _, _. split; [done|]. constructor; [eexists _, _; apply set_initial_same|done|done]. }
  rewrite has_pipe_ok by apply Hb. cbn [mbind option_bind].
  destruct (PrepareInitialSeek_ok b s Hb) as (r & b' & -> & [S1 S2 S3]). cbn [mbind option_bind].
  eexists _, _. split; [done|]. constructor; [done|done|]. intros Hr. destruct r; [done|by apply S3].
Qed.

Lemma UpdateStreamTag_ok stream b s : bridge_ok b s → state (dc s) = DECODER_DECODE →
  opt_tag_ok stream = true → opt_tag_ok (song_tag b) = true →
  let '(upd, b') := UpdateStreamTag stream b in
  bridge_ok b' s ∧ not_seeking b' = not_seeking b ∧ current_chunk b' = current_chunk b ∧
  seeking b' = seeking b ∧ convert b' = convert b ∧ decoder_tag b' = decoder_tag b ∧
  (upd = true → is_Some (stream_tag b')).
Proof.
  intros Hb Hst H1 H2.
  assert (Hset : ∀ t, tag_ok t = true → bridge_ok (set_stream_tag t b) s).
  { intros t Ht. destruct Hb as [B1 B2 B3 B4 B5 B6 B7 [P1 P2 P3 P4 P5]]. constructor; try done.
    constructor; try done; cbn; [by rewrite Hst|]. intros t' [[= <-]|H]; [by apply tag_ok_valid|by apply P5; right]. }
  unfold UpdateStreamTag. destruct stream as [t|]; [|destruct (song_tag b) as [t|] eqn:E].
  - split_and!; [by apply Hset|done..|by eexists].
  - split_and!; [by apply Hset|done..|by eexists].
  - by split_and!.
Qed.

(** *** Tags and data *)

Section Submit.
Context (b : DecoderBridge) (l : list nat) (s : stage).
Hypothesis (Hs : stage_ok l s) (Hb : bridge s = Some b) (Hst : state (dc s) = DECODER_DECODE).

Lemma submit_bridge_ok : bridge_ok b s.
Proof using Hs Hb. pose proof (so_thread _ _ Hs) as Ht. by rewrite Hb in Ht. Qed.

Lemma submit_mem : mem_ok (cur_slices (Some b) ++ l) s.
Proof using Hs Hb. pose proof (stage_mem _ _ Hs) as Hm. by rewrite Hb in Hm. Qed.

Lemma send_tag_ok a tg : not_seeking b = true → Tag.valid_items (Tag.items tg) →
  ∃ sent s', DoSendTag tg b s = Some (sent, s') ∧ acted a l s s' ∧ dc s' = dc s ∧
    ∃ r, bridge s' = Some (set_chunk r b).
Proof.
  intros Hsk Htg. pose proof submit_bridge_ok as Hok.
  destruct (DoSendTag_ok tg b l s Hb Hsk) as (sent & s' & Heq & Hp);
    [apply Hok|apply Hok|done|apply submit_mem|].
  exists sent, s'. split_and!; [done|by eapply (produced_acted a b)|apply Hp|].
  destruct (pd_bridge _ _ _ _ Hp) as (r & Hr & _). by exists r.
Qed.

Lemma round_ok a tm rate len : not_seeking b = true → (0 < len)%Z →
  ∃ s', SubmitData_round tm rate len b s = Some s' ∧ acted a l s s'.
Proof.
  intros Hsk Hlen. pose proof submit_bridge_ok as Hok.
  destruct (SubmitData_round_ok tm rate len b l s Hb Hsk) as (s' & Heq & Hp);
    [apply Hok|apply Hok|apply Hs|done|apply submit_mem|].
  exists s'. split; [done|]. by eapply (produced_acted a b).
Qed.

End Submit.

Lemma Merge_valid base add : Tag.valid_items (Tag.items base) → Tag.valid_items (Tag.items add) →
  ∃ t, Tag.Merge base add = Some t ∧ Tag.valid_items (Tag.items t).
Proof.
  intros H1 H2. destruct (Tag.MergeReplace_valid (Some base) (Some add)) as (r & Hr & Hv & _);
    [by intros ? [= <-]..|].
  unfold Tag.MergeReplace in Hr. destruct (Tag.Merge base add) as [t|]; [|done].
  exists t. split; [done|]. cbn in Hr. injection Hr as <-. by apply Hv.
Qed.

Lemma fail_ok a e b l s : stage_ok l s → bridge s = Some b →
  acted a l s (put_bridge (Some (set_bridge_error (Some e) b)) s).
Proof.
  intros Hs Hb. apply (bridge_acted a l s b); [done|done|done|].
  destruct (submit_bridge_ok _ _ _ Hs Hb) as [B1 B2 B3 B4 B5 B6 B7 [P1 P2 P3 P4 P5]]. by constructor.
Qed.

Lemma SubmitTag_ok a stream tg b l s :
  stage_ok l s → bridge s = Some b → state (dc s) = DECODER_DECODE → seeking b = false →
  tag_ok tg = true → opt_tag_ok stream = true → opt_tag_ok (song_tag b) = true →
  ∃ s', SubmitTag stream tg b s = Some s' ∧ acted a l s s'.
Proof.
  intros Hs Hb Hst Hsk Htg Hstr Hsg. pose proof (submit_bridge_ok _ _ _ Hs Hb) as Hok.
  unfold SubmitTag. rewrite Hst, check_bind by done. rewrite has_pipe_ok by apply Hok. cbn [mbind option_bind].
  assert (Hok1 : bridge_ok (set_decoder_tag tg b) s).
  { destruct Hok as [B1 B2 B3 B4 B5 B6 B7 [P1 P2 P3 P4 P5]]. constructor; try done.
    constructor; try done; cbn; [by rewrite Hst|]. intros t' [H|[= <-]]; [by apply P5; left|by apply tag_ok_valid]. }
  pose proof (UpdateStreamTag_ok stream _ s Hok1 Hst Hstr Hsg) as Hu.
  destruct (UpdateStreamTag stream (set_decoder_tag tg b)) as [upd b1].
  destruct Hu as (Hok2 & Hst2 & Hcur2 & Hsk2 & _ & Hdt & _).
  destruct (PrepareInitialSeek_ok b1 s Hok2) as (r & b2 & -> & [(x & y & ->) Hok3 Hst3]).
  cbn [mbind option_bind].
  assert (Ha : acted a l s (put_bridge (Some (set_initial x y b1)) s)) by (by eapply (bridge_acted a l s b)).
  destruct r; [by eexists|]. specialize (Hst3 eq_refl ltac:(by rewrite Hsk2) Hst).
  assert (Htag : ∃ t, match stream_tag b1 with Some t => Tag.Merge t tg | None => Some tg end = Some t ∧
    Tag.valid_items (Tag.items t)).
  { destruct (stream_tag b1) as [t|] eqn:E; [|exists tg; by split; [|apply tag_ok_valid]].
    apply Merge_valid; [|by apply tag_ok_valid]. apply (pk_tags _ _ (bo_plugin _ _ Hok2)). by left. }
  destruct Htag as (t & Hm & Hv). cbn [set_initial stream_tag]. rewrite Hm. cbn [mbind option_bind].
  destruct (send_tag_ok _ l _ (proj1 Ha) eq_refl Hst a t Hst3 Hv) as (sent & s' & -> & Ha' & _).
  cbn [mbind option_bind]. eexists. split; [done|]. by eapply acted_trans.
Qed.

Lemma SubmitData_ok a stream cerr len b l s :
  stage_ok l s → bridge s = Some b → state (dc s) = DECODER_DECODE → seeking b = false →
  opt_tag_ok stream = true → opt_tag_ok (song_tag b) = true →
  (len mod AudioFormat.GetFrameSize (in_audio_format (dc s)) =? 0)%Z = true →
  ∃ go s', SubmitData stream cerr len b s = Some (go, s') ∧ acted a l s s'.
Proof.
  intros Hs Hb Hst Hsk Hstr Hsg Hlen. pose proof (submit_bridge_ok _ _ _ Hs Hb) as Hok.
  unfold SubmitData. rewrite Hst, check_bind by done. rewrite has_pipe_ok by apply Hok. cbn [mbind option_bind].
  rewrite check_bind by done.
  destruct (GetVirtualCommand_ok b s Hok) as (cmd & b1 & -> & [(x & y & ->) Hok1 Hst1]). cbn [mbind option_bind].
  set (b1 := set_initial x y b) in *.
  assert (Ha1 : acted a l s (put_bridge (Some b1) s)) by (by eapply (bridge_acted a l s b)).
  destruct (bool_decide (cmd = DC_STOP) || bool_decide (cmd = DC_SEEK)) eqn:Ec; cbn [orb]; [by eexists _, _|].
  destruct (len =? 0)%Z; [by eexists _, _|]. specialize (Hst1 eq_refl Hsk Hst).
  destruct (not_seeking_spec _ Hst1) as (_ & Hpe & Hru). rewrite Hpe, Hru, !check_bind by done.
  pose proof (UpdateStreamTag_ok stream b1 s Hok1 Hst Hstr Hsg) as Hu.
  destruct (UpdateStreamTag stream b1) as [upd b2].
  destruct Hu as (Hok2 & Hst2 & Hcur2 & Hsk2 & Hcv & Hdt & Hupd). rewrite Hst1 in Hst2.
  set (s2 := put_bridge (Some b2) s).
  assert (Ha2 : acted a l s s2) by (by eapply (bridge_acted a l s b)).
  change (put_bridge (Some b2) (put_bridge (Some b1) s)) with s2.
  assert (Hsend : ∃ go s3 r, (if upd then
      t ← stream_tag b2;
      t ← match decoder_tag b2 with Some d => Tag.Merge d t | None => Some t end;
      DoSendTag t b2 s2
    else Some (true, s2)) = Some (go, s3) ∧ acted a l s2 s3 ∧ dc s3 = dc s ∧ bridge s3 = Some (set_chunk r b2)).
  { destruct upd.
    2:{ eexists _, s2, (current_chunk b2). split_and!; [done|apply acted_same, Ha2|done|].
        cbn. by rewrite <-set_chunk_id. }
    destruct (Hupd eq_refl) as [t Ht]. rewrite Ht. cbn [mbind option_bind].
    pose proof (pk_tags _ _ (bo_plugin _ _ Hok2)) as Hpt.
    assert (Htag : ∃ t', match decoder_tag b2 with Some d => Tag.Merge d t | None => Some t end = Some t' ∧
      Tag.valid_items (Tag.items t')).
    { destruct (decoder_tag b2) as [d|] eqn:Ed; [apply Merge_valid; auto|exists t; auto]. }
    destruct Htag as (t' & -> & Hv). cbn [mbind option_bind].
    destruct (send_tag_ok b2 l s2 (proj1 Ha2) eq_refl Hst a t' Hst2 Hv) as (sent & s3 & -> & Ha3 & Hd3 & r & Hr).
    by exists sent, s3, r. }
  destruct Hsend as (go & s3 & r & -> & Ha3 & Hd3 & Hb3). cbn [mbind option_bind].
  pose proof (acted_trans _ _ _ _ _ Ha2 Ha3) as Ha4. rewrite Hb3. cbn [mbind option_bind].
  destruct go; cbn [negb]; [|by eexists _, _].
  pose proof (pk_convert _ _ (bo_plugin _ _ Hok2) Hst) as Hcon. cbn [set_chunk convert]. rewrite Hd3, Hcon.
  case_bool_decide as Heq; cbn [negb].
  { rewrite check_bind by done. by eexists _, _. }
  rewrite check_bind by done. destruct cerr as [e|]; [|by eexists _, _].
  eexists _, _. split; [done|]. eapply acted_trans; [exact Ha4|].
  apply (fail_ok _ e (set_chunk r b2)); [apply Ha4|done].
Qed.

(** *** Seeking *)

(** A seek that is finished. *)
Lemma CommandFinished_ok a b l s :
  stage_ok l s → bridge s = Some b → seeking b = true →
  ∃ s', CommandFinished b s = Some s' ∧ acted a l s s' ∧
    command (dc s') = DC_NONE ∧ is_Some (bridge s').
Proof.
  intros Hs Hb Hsk. pose proof (submit_bridge_ok _ _ _ Hs Hb) as Hok.
  destruct Hok as [H1 (q & p & Hq & Hp) H3 H4 H5 H6 H7 [P1 P2 P3 P4 P5]]. destruct (H4 Hsk) as [Hc Hst].
  assert (Hru : initial_seek_running b = false).
  { destruct (initial_seek_running b); [|done]. destruct (P2 eq_refl) as (_ & ? & _); congruence. }
  unfold CommandFinished. rewrite Hc, Hsk, Hru. rewrite !check_bind by (by rewrite ?orb_true_r).
  rewrite has_pipe_ok by (by exists q, p). cbn [mbind option_bind].
  pose proof (submit_mem _ _ _ Hs Hb) as [Hm1 Hm2]. cbn [cur_slices] in Hm2.
  assert (Hret : ∃ buf, (match current_chunk b with
      | Some c => buf ← MusicBuffer.Return c (buffer s); Some (put_buffer buf s)
      | None => Some s
      end) = Some (put_buffer buf s) ∧ holds buf (pslices (pipes s) ++ l)).
  { destruct (current_chunk b) as [c|] eqn:Ec.
    - rewrite Permutation_app_swap_app in Hm2.
      destruct (Return_cur_ok c _ _ (H6 c eq_refl) Hm2) as (buf & -> & Hh). exists buf. done.
    - exists (buffer s). split; [|done]. by destruct s. }
  destruct Hret as (buf & -> & Hh). cbn [mbind option_bind].
  destruct (clear_dest_ok l (put_buffer buf s) q p) as (s1 & -> & Hd1 & Hb1 & [Hp1 Hh1] & Hpi);
    [by constructor|done|done|]. cbn [mbind option_bind]. eexists. split; [done|].
  cbn [put_buffer dc bridge pipes] in Hd1, Hb1, Hpi.
  split_and!; [|done|by eexists]. refine (conj _ (conj _ _)).
  - constructor; cbn; rewrite ?Hd1; [|apply Hs|done|done|apply Hs].
    constructor; cbn; rewrite ?Hd1; try done.
    + exists q, MusicPipe.make. cbn. rewrite Hd1, Hpi, lookup_insert_eq. done.
    + rewrite Hst. done.
    + constructor; cbn; rewrite ?Hd1, ?Hru; try done; [|by rewrite Hst].
      intros _. split; [done|]. intros q' p'. cbn. rewrite Hd1, Hpi, Hq. intros [= <-].
      rewrite lookup_insert_eq. by intros [= <-].
  - eapply (stage_rel_cleared s _ q p); cbn; rewrite ?Hd1; try done. by right.
  - left. cbn. by rewrite Hd1.
Qed.

Lemma end_initial_ok a b l s : stage_ok l s → bridge s = Some b →
  acted a l s (put_bridge (Some (set_initial (initial_seek_pending b) false b)) s).
Proof.
  intros Hs Hb. apply (bridge_acted a l s b); [done|done|done|]. apply bridge_ok_initial;
    [by apply (submit_bridge_ok b l)|by intros [|]; [left|]|done].
Qed.

(** The initial seek is finished. *)
Lemma initial_finished_ok b l s :
  stage_ok l s → bridge s = Some b → initial_seek_running b = true →
  CommandFinished b s = Some (put_bridge (Some (set_initial (initial_seek_pending b) false b)) s).
Proof.
  intros Hs Hb Hru. pose proof (submit_bridge_ok _ _ _ Hs Hb) as Hok.
  destruct (pk_initial _ _ (bo_plugin _ _ Hok) (or_intror Hru)) as (Hcur & Hde).
  destruct (pk_running _ _ (bo_plugin _ _ Hok) Hru) as (_ & Hsk & _).
  destruct (bo_dest _ _ Hok) as (q & p & Hq & Hp).
  unfold CommandFinished. rewrite Hru, Hsk, Hcur, !check_bind by (by rewrite ?orb_true_r).
  rewrite has_pipe_ok by apply Hok. unfold dest_pipe. rewrite Hq. cbn [mbind option_bind]. rewrite Hp.
  cbn [mbind option_bind]. rewrite check_bind; [done|]. unfold MusicPipe.IsEmpty.
  rewrite (MusicPipe.po_size _ _ _ (so_pipes _ _ Hs q p Hp)). by rewrite (Hde q p Hq Hp).
Qed.

Lemma told_to_seek_spec b d : told_to_seek b d = true →
  initial_seek_running b = true ∨ command d = DC_SEEK.
Proof. intros [H2|H2%bool_decide_eq_true]%orb_true_iff; [by left|by right]. Qed.

Lemma SeekError_ok a b l s :
  stage_ok l s → bridge s = Some b → state (dc s) = DECODER_DECODE → told_to_seek b (dc s) = true →
  ∃ s', SeekError b s = Some s' ∧ acted a l s s'.
Proof.
  intros Hs Hb Hst Ht%told_to_seek_spec. pose proof (submit_bridge_ok _ _ _ Hs Hb) as Hok.
  unfold SeekError. rewrite has_pipe_ok by apply Hok. cbn [mbind option_bind].
  destruct (initial_seek_running b) eqn:Hru; [by eexists; split; [done|apply end_initial_ok]|].
  destruct Ht as [|Hc]; [done|]. rewrite Hc, check_bind by done. unfold CommandFinished. cbn.
  rewrite Hc, Hru. simpl. unfold has_pipe. cbn [put_bridge upd_dc dc set_seek pipe].
  destruct Hok as [H1 (q & p & Hq & Hp) H3 H4 H5 H6 H7 [P1 P2 P3 P4 P5]]. rewrite Hq.
  rewrite bool_decide_eq_true_2 by done. cbn [check mbind option_bind].
  eexists. split; [done|]. unfold upd_dc. cbn.
  match goal with |- acted _ _ _ (mkStage ?d ?b _ _) =>
    change (acted a l s (put_bridge b (put_dc d s))) end.
  apply acted_dc; cbn; try done; try apply Hs; dc_solve. constructor; cbn; try done.
  - exists q, p. by cbn.
  - constructor; cbn; rewrite ?Hru; try done; [|by rewrite Hst]. intros [H|]; [|done]. apply P1. by left.
Qed.

Lemma seek_time_ok a b l s :
  stage_ok l s → bridge s = Some b → state (dc s) = DECODER_DECODE → told_to_seek b (dc s) = true →
  ∃ s', GetSeekTime b s = Some s' ∧ acted a l s s'.
Proof.
  intros Hs Hb Hst Ht%told_to_seek_spec. pose proof (submit_bridge_ok _ _ _ Hs Hb) as Hok.
  unfold GetSeekTime. rewrite has_pipe_ok by apply Hok. cbn [mbind option_bind].
  destruct (initial_seek_running b) eqn:Hru; [exists s; split; [done|by apply acted_same]|].
  destruct Ht as [|Hc]; [done|]. rewrite Hc, check_bind by done. eexists. split; [done|].
  apply (bridge_acted a l s b); [done|done|done|].
  destruct Hok as [H1 H2 H3 H4 H5 H6 H7 [P1 P2 P3 P4 P5]]. constructor; try done.
  constructor; cbn; rewrite ?Hru; try done; [|by rewrite Hst]. intros [H|]; [|done]. apply P1. by left.
Qed.

(** *** The end of a song *)

Lemma decoder_run_end_ok f b l s :
  stage_ok l s → bridge s = Some b → seeking b = false →
  ∃ s', decoder_run_end f b s = Some s' ∧ acted (D_end f) l s s'.
Proof.
  intros Hs Hb Hsk. pose proof (so_thread _ _ Hs) as Ht. rewrite Hb in Ht.
  destruct Ht as [H1 Hdest H3 H4 H5 H6 H7 [P1 P2 P3 P4 P5]]. pose proof (stage_mem _ _ Hs) as Hm. rewrite Hb in Hm.
  cbn [cur_slices] in Hm. unfold decoder_run_end.
  assert (Hfl : ∃ s1, (match current_chunk b with Some _ => FlushChunk b s | None => Some s end)
    = Some s1 ∧ dc s1 = dc s ∧ mem_ok l s1 ∧ pipes_rel s s1).
  { destruct (current_chunk b) as [c|] eqn:Ec.
    - assert (Hstd : not_seeking b = true).
      { unfold not_seeking. rewrite Hsk. destruct (initial_seek_pending b) eqn:E1, (initial_seek_running b) eqn:E2;
          try done; destruct P1 as [? _]; auto; congruence. }
      destruct (FlushChunk_ok b c l s Hstd Ec (H6 c eq_refl) Hdest Hm) as (s1 & ? & ? & _ & ? & ?). eauto.
    - exists s. split_and!; [done|done|done|by apply pipes_rel_same]. }
  destruct Hfl as (s1 & -> & Hd1 & [Hp1 Hh1] & Hpr). cbn [mbind option_bind]. rewrite Hd1.
  eexists. split; [done|]. unfold upd_dc. cbn [put_bridge dc bridge buffer pipes]. rewrite Hd1.
  match goal with |- acted _ _ _ (mkStage (?g _) _ _ _) => set (h := g) end.
  assert (Hg : IsIdle (h (dc s)) = true ∧ (state (h (dc s)) = DECODER_ERROR → is_Some (error (h (dc s)))) ∧
    command (h (dc s)) = command (dc s) ∧ pipe (h (dc s)) = pipe (dc s) ∧
    song (h (dc s)) = song (dc s) ∧ client_is_waiting (h (dc s)) = client_is_waiting (dc s) ∧
    out_audio_format (h (dc s)) = af).
  { subst h. destruct (bridge_error b), f; [..|destruct (_ || _)]; cbn; split_and!; try done; apply Hs. }
  destruct Hg as (G1 & G2 & G3 & G4 & G5 & G6 & G7). refine (conj _ (conj _ _)).
  - constructor; cbn; [|done|done|done|done]. constructor; cbn; [done| |by rewrite G3].
    rewrite G3, G5. intros _. split; [|done]. destruct Hdest as (q & p & Hq & Hp).
    destruct (proj2 (pr_dom _ _ Hpr q)) as [p' Hp']; [by eexists|]. exists q, p'. cbn. by rewrite G4.
  - constructor; cbn; try done.
    + by left.
    + intros _. by rewrite H1.
    + intros _. unfold IsStarting. intros Hx%bool_decide_eq_true. unfold IsIdle in G1. by rewrite Hx in G1.
    + apply Hpr.
    + apply Hpr.
    + intros q p p' _. apply Hpr.
  - right. by eexists.
Qed.

Lemma probe_ok b l s : stage_ok l s → bridge s = Some b → state (dc s) = DECODER_START →
  ∃ s', decoder_probe b s = Some s' ∧ acted D_probe l s s'.
Proof.
  intros Hs Hb Hst. destruct (submit_bridge_ok _ _ _ Hs Hb) as [B1 B2 B3 B4 B5 B6 B7 [P1 P2 P3 P4 P5]].
  destruct (P3 Hst) as (F1 & F2 & _). unfold decoder_probe. rewrite F1, F2, Hst, !check_bind by done.
  eexists. split; [done|]. apply (bridge_acted _ l s b); [done|done|done|]. by constructor.
Qed.

Lemma GetCommand_ok a b l s : stage_ok l s → bridge s = Some b →
  ∃ c s', GetCommand b s = Some (c, s') ∧ acted a l s s'.
Proof.
  intros Hs Hb. pose proof (submit_bridge_ok _ _ _ Hs Hb) as Hok. unfold GetCommand.
  destruct (GetVirtualCommand_ok b s Hok) as (c & b' & -> & [(x & y & ->) Hok' _]). cbn [mbind option_bind].
  eexists _, _. split; [done|]. by apply (bridge_acted a l s b).
Qed.

(** No section of the decoder thread fails an assertion, and each keeps the stage in order. *)
Lemma decoder_act_ok a l s : stage_ok l s →
  ∃ s', decoder_act af a s = Some s' ∧ acted a l s s'.
Proof.
  intros Hs. unfold decoder_act.
  assert (Hsame : ∃ s', Some s = Some s' ∧ acted a l s s') by (exists s; split; [done|by apply acted_same]).
  destruct (bridge s) as [b|] eqn:Hb; [|by destruct a; try done; apply decoder_task_ok].
  destruct a as [bad| |oe x sk dur| |stream tg|tg|stream cerr len|tm rate len|e| | | |f]; try done.
  - case_bool_decide; [by apply probe_ok|done].
  - destruct (bool_decide _ && _) eqn:E; [|done]. apply andb_true_iff in E as [Est%bool_decide_eq_true Ev].
    eexists. by apply Ready_ok.
  - destruct (GetCommand_ok D_get_command b l s Hs Hb) as (c & s' & -> & Ha). cbn [mbind option_bind]. eauto.
  - match goal with |- context [if ?x then _ else _] => destruct x eqn:E end; [|done].
    rewrite !andb_true_iff, negb_true_iff in E. destruct E as ((((Est%bool_decide_eq_true & ?) & ?) & ?) & ?).
    by apply SubmitTag_ok.
  - match goal with |- context [if ?x then _ else _] => destruct x eqn:E end; [|done].
    rewrite !andb_true_iff in E. destruct E as ((Est%bool_decide_eq_true & ?) & Htg%tag_ok_valid).
    destruct (send_tag_ok b l s Hs Hb Est (D_send_tag tg) tg) as (x & s' & -> & Ha & _); [done..|].
    cbn [mbind option_bind]. eauto.
  - match goal with |- context [if ?x then _ else _] => destruct x eqn:E end; [|done].
    rewrite !andb_true_iff, negb_true_iff in E. destruct E as ((((Est%bool_decide_eq_true & ?) & ?) & ?) & ?).
    destruct (SubmitData_ok (D_data stream cerr len) stream cerr len b l s) as (go & s' & -> & Ha); [done..|].
    cbn [mbind option_bind]. eauto.
  - match goal with |- context [if ?x then _ else _] => destruct x eqn:E end; [|done].
    rewrite !andb_true_iff in E. destruct E as ((Est%bool_decide_eq_true & ?) & ?).
    by apply round_ok; [..|lia].
  - eexists. split; [done|]. by apply fail_ok.
  - destruct (bool_decide _ && _) eqn:E; [|done].
    apply andb_true_iff in E as [Est%bool_decide_eq_true Ec]. by apply seek_time_ok.
  - destruct (seeking b) eqn:Esk; cbn [orb].
    { destruct (CommandFinished_ok D_command_finished b l s Hs Hb Esk) as (s' & ? & ? & _). eauto. }
    destruct (initial_seek_running b) eqn:Eru; [|done].
    rewrite (initial_finished_ok b l s) by done. eexists. split; [done|]. by apply end_initial_ok.
  - destruct (bool_decide _ && _) eqn:E; [|done].
    apply andb_true_iff in E as [Est%bool_decide_eq_true Ec]. by apply SeekError_ok.
  - destruct (seeking b) eqn:Esk; [done|]. by apply decoder_run_end_ok.
Qed.

(** ** An obedient decoder *)

(** No command is waiting and the start-up is over. *)
Definition settled (s : stage) : Prop := command (dc s) = DC_NONE ∧ IsStarting (dc s) = false.

(** How many actions an obedient decoder needs to settle. *)
Definition rank (s : stage) : nat :=
  match bridge s, command (dc s), state (dc s) with
  | None, DC_NONE, _ => 0
  | None, DC_STOP, _ => 1
  | None, _, _ => 2
  | Some _, DC_STOP, _ => 2
  | Some _, DC_NONE, DECODER_START => 1
  | Some _, DC_NONE, _ => 0
  | Some _, _, DECODER_START => 4
  | Some b, _, _ =>
      if seeking b then 1 else if initial_seek_running b || initial_seek_pending b then 3 else 2
  end.

Lemma obedient_end s f : obedient_action s = D_end f → command (dc s) = DC_STOP.
Proof. unfold obedient_action. by repeat case_match. Qed.

Lemma obey_acted l s : stage_ok l s → ∃ a, decoder_act af a s = Some (obey af s) ∧
  acted a l s (obey af s) ∧ (∀ f, a = D_end f → command (dc s) = DC_STOP).
Proof.
  intros Hs. exists (obedient_action s). unfold obey.
  destruct (decoder_act_ok (obedient_action s) l s Hs) as (s' & Heq & Ha). rewrite Heq.
  split_and!; [done|done|]. by apply obedient_end.
Qed.

Lemma rank_settled l s : stage_ok l s → rank s = 0 → settled s.
Proof.
  intros Hs. pose proof (so_thread _ _ Hs) as Ht. unfold rank, settled, IsStarting.
  destruct (bridge s) as [b|]; destruct (command (dc s)) eqn:Ec, (state (dc s)) eqn:Est; try done;
    try (by repeat case_match).
  destruct Ht as [Hi _ _]. unfold IsIdle in Hi. by rewrite Est in Hi.
Qed.

Lemma FlushChunk_dc b s s' : FlushChunk b s = Some s' → dc s' = dc s.
Proof.
  unfold FlushChunk. intros E. destruct (seeking b), (initial_seek_running b), (initial_seek_pending b); try done.
  destruct (current_chunk b) as [c|]; cbn in E; [|done]. destruct (MusicChunk.IsEmpty c).
  - destruct (MusicBuffer.Return c (buffer s)); cbn in E; [|done]. by injection E as <-.
  - destruct (dest_pipe _) as [[q p]|]; [|done]. destruct (MusicPipe.Push c p); cbn in E; [|done].
    by injection E as <-.
Qed.

Lemma rank_end l s b : stage_ok l s → bridge s = Some b → seeking b = false →
  ∃ s', decoder_act af (D_end None) s = Some s' ∧ bridge s' = None ∧ command (dc s') = command (dc s).
Proof.
  intros Hs Hb Hsk. unfold decoder_act. rewrite Hb, Hsk.
  destruct (decoder_run_end_ok None b l s Hs Hb Hsk) as (s' & Heq & _). exists s'. split; [done|].
  unfold decoder_run_end in Heq.
  destruct (match current_chunk b with Some _ => FlushChunk b s | None => Some s end) as [s1|] eqn:E; [|done].
  assert (Hd : dc s1 = dc s).
  { destruct (current_chunk b) as [c|]; [|by injection E as ->].
    by apply FlushChunk_dc in E. }
  simpl in Heq. injection Heq as <-. split; [done|]. cbn. rewrite Hd.
  by destruct (bridge_error b); [|destruct (_ || _)].
Qed.

Lemma rank_run s sg : song (dc s) = Some sg → command (dc s) ≠ DC_NONE →
  ∃ s', decoder_run None s = Some s' ∧ is_Some (bridge s') ∧ command (dc s') = DC_NONE ∧
    state (dc s') = DECODER_START.
Proof.
  intros Hsg Hc. unfold decoder_run, decoder_run_song, ClearError, CommandFinishedLocked. cbn.
  destruct (decide (state (dc s) = DECODER_ERROR)); cbn; rewrite Hsg; cbn;
    rewrite bool_decide_eq_false_2 by done; cbn; eauto 10.
Qed.

(** The rank while a song is decoded. *)
Lemma rank_busy s b : bridge s = Some b → rank s =
  match command (dc s), state (dc s) with
  | DC_STOP, _ => 2 | DC_NONE, DECODER_START => 1 | DC_NONE, _ => 0 | _, DECODER_START => 4
  | _, _ => if seeking b then 1 else if initial_seek_running b || initial_seek_pending b then 3 else 2
  end.
Proof. intros Hb. unfold rank. by rewrite Hb. Qed.

Lemma act_rank a s s' : obedient_action s = a → decoder_act af a s = Some s' → obey af s = s'.
Proof. intros <- H. unfold obey. by rewrite H. Qed.

Lemma obey_seek_rank l s b : stage_ok l s → bridge s = Some b → command (dc s) = DC_SEEK →
  state (dc s) = DECODER_DECODE → rank (obey af s) ≤ rank s - 1.
Proof.
  intros Hs Hb Ec Hst. pose proof (submit_bridge_ok _ _ _ Hs Hb) as Hok. rewrite (rank_busy s b Hb), Ec, Hst.
  assert (Ho : obedient_action s = if seeking b || initial_seek_running b then D_command_finished
    else if initial_seek_pending b && negb (bool_decide (is_Some (bridge_error b))) then D_get_command
    else D_get_seek_time) by (unfold obedient_action; by rewrite Hb, Hst, Ec).
  destruct (seeking b) eqn:Hsk; cbn [orb] in Ho.
  { destruct (CommandFinished_ok D_command_finished b l s Hs Hb Hsk) as (s' & Hcf & (_ & _ & Hd) & Hc' & [b' Hb']).
    destruct (Hd Hst) as [Hst'|[f ?]]; [|done].
    rewrite (act_rank _ s s' Ho) by (unfold decoder_act; by rewrite Hb, Hsk, Hcf).
    by rewrite (rank_busy s' b' Hb'), Hc', Hst'. }
  destruct (initial_seek_running b) eqn:Hru; cbn [orb].
  { rewrite (act_rank _ s _ Ho) by (unfold decoder_act; rewrite Hb, Hsk, Hru; by apply (initial_finished_ok b l s)).
    erewrite rank_busy by done. cbn. rewrite Ec, Hst, Hsk.
    destruct (pk_running _ _ (bo_plugin _ _ Hok) Hru) as (_ & _ & ->). cbn. lia. }
  destruct (initial_seek_pending b && negb (bool_decide (is_Some (bridge_error b)))) eqn:Hpe.
  - apply andb_true_iff in Hpe as [Hpe He]. rewrite negb_true_iff in He. apply bool_decide_eq_false in He.
    rewrite Hpe. destruct (bridge_error b) as [e|] eqn:Ee; [by destruct He; eexists|].
    rewrite (act_rank _ s (put_bridge (Some (set_initial false false b)) s) Ho).
    + erewrite rank_busy by done. cbn. by rewrite Ec, Hst, Hsk.
    + unfold decoder_act, GetCommand, GetVirtualCommand, PrepareInitialSeek. rewrite Hb, Ee.
      rewrite has_pipe_ok by apply Hok. cbn [mbind option_bind]. rewrite Hst, Hru, Hpe, Ec. cbn.
      by destruct (seekable (dc s)).
  - rewrite (act_rank _ s (put_bridge (Some (set_seeking true b)) s) Ho).
    + erewrite rank_busy by done. cbn. rewrite Ec, Hst. destruct (initial_seek_pending b); lia.
    + unfold decoder_act, told_to_seek. rewrite Hb, Hst, Ec, Hru, !bool_decide_eq_true_2 by done.
      cbn [andb orb]. unfold GetSeekTime. rewrite has_pipe_ok by apply Hok. cbn [mbind option_bind].
      by rewrite Hru, Ec, check_bind.
Qed.

(** A decoder that is at work. *)
Lemma obey_busy_rank l s b : stage_ok l s → bridge s = Some b → rank (obey af s) ≤ rank s - 1.
Proof.
  intros Hs Hb. destruct (submit_bridge_ok _ _ _ Hs Hb) as [H1 _ _ H4 _ _ H7 _].
  assert (Hst : state (dc s) = DECODER_START ∨ state (dc s) = DECODER_DECODE)
    by (unfold IsIdle in H1; destruct (state (dc s)); auto; done).
  destruct (decide (command (dc s) = DC_STOP)) as [Ec|Hns].
  { assert (Hsk : seeking b = false).
    { destruct (seeking b) eqn:E; [|done]. destruct (H4 eq_refl). congruence. }
    destruct (rank_end l s b Hs Hb Hsk) as (s' & Heq & Hb' & Hc').
    assert (Ho : obedient_action s = D_end None).
    { unfold obedient_action. rewrite Hb, Ec. by destruct (state (dc s)). }
    rewrite (act_rank _ s s' Ho Heq), (rank_busy s b Hb), Ec. unfold rank. by rewrite Hb', Hc', Ec. }
  destruct Hst as [Hst|Hst].
  - destruct (Ready_ok None cd_format true (-1) l s b Hs Hb Hst eq_refl) as [Heq _].
    assert (Ho : obedient_action s = D_ready None cd_format true (-1)).
    { unfold obedient_action. rewrite Hb, Hst. by destruct (command (dc s)). }
    erewrite (act_rank _ s _ Ho) by (unfold decoder_act; rewrite Hb, Hst; exact Heq).
    erewrite (rank_busy s b) by done. erewrite rank_busy by done. cbn. rewrite Hst.
    destruct (command (dc s)); [done|done|done|]. repeat case_match; lia.
  - destruct (command (dc s)) eqn:Ec; [|done|done|by apply (obey_seek_rank l s b)].
    assert (Ho : obedient_action s = D_probe) by (unfold obedient_action; by rewrite Hb, Hst, Ec).
    rewrite (act_rank _ s s Ho) by (unfold decoder_act; by rewrite Hb, Hst).
    by rewrite (rank_busy s b Hb), Ec, Hst.
Qed.

Lemma obey_rank l s : stage_ok l s → rank (obey af s) ≤ rank s - 1.
Proof.
  intros Hs. destruct (bridge s) as [b|] eqn:Hb; [by apply (obey_busy_rank l s b)|].
  pose proof (so_thread _ _ Hs) as Ht. rewrite Hb in Ht. destruct Ht as [Hi Hcmd _].
  unfold obey, obedient_action. rewrite Hb. unfold decoder_act. rewrite Hb.
  assert (Hr : rank s = match command (dc s) with DC_NONE => 0 | DC_STOP => 1 | _ => 2 end).
  { unfold rank. by rewrite Hb. }
  rewrite Hr. unfold decoder_task. rewrite check_bind by exact Hi.
  assert (Hrun : ∀ s1 s2, is_Some (bridge s2) → command (dc s2) = DC_NONE →
    state (dc s2) = DECODER_START → rank (default s1 (Some s2)) ≤ 1).
  { intros s1 s2 [b2 Hb2] Hc2 Hst2. unfold rank. cbn. by rewrite Hb2, Hc2, Hst2. }
  destruct (command (dc s)) eqn:Ec.
  - cbn. by rewrite Hr.
  - destruct (Hcmd (or_introl eq_refl)) as [_ [sg Hsg]].
    destruct (rank_run s sg Hsg) as (s' & -> & ? & ? & ?); [by rewrite Ec|]. by apply Hrun.
  - unfold CommandFinishedLocked. rewrite Ec, bool_decide_eq_false_2, check_bind by done.
    cbn [mbind option_bind default from_option]. unfold id, rank. cbn. by rewrite Hb.
  - destruct (Hcmd (or_intror eq_refl)) as [(q & p & Hq & Hp) [sg Hsg]].
    destruct (clear_dest_ok _ s q p (stage_mem _ _ Hs) Hq Hp) as (s1 & -> & Hd1 & _ & _ & _).
    cbn [mbind option_bind].
    destruct (rank_run s1 sg) as (s' & -> & ? & ? & ?); [by rewrite Hd1|by rewrite Hd1, Ec|].
    by apply Hrun.
Qed.

(** Four actions are enough. *)
Definition obey_all (s : stage) : stage := obey af (obey af (obey af (obey af s))).

Lemma obey_all_settled l s : stage_ok l s → stage_ok l (obey_all s) ∧ settled (obey_all s).
Proof.
  intros H0. unfold obey_all.
  destruct (obey_acted l s H0) as (_ & _ & (H1 & _) & _). pose proof (obey_rank l _ H0) as R0.
  destruct (obey_acted l _ H1) as (_ & _ & (H2 & _) & _). pose proof (obey_rank l _ H1) as R1.
  destruct (obey_acted l _ H2) as (_ & _ & (H3 & _) & _). pose proof (obey_rank l _ H2) as R2.
  destruct (obey_acted l _ H3) as (_ & _ & (H4 & _) & _). pose proof (obey_rank l _ H3) as R3.
  split; [done|]. apply (rank_settled l); [done|].
  assert (rank s ≤ 4) by (unfold rank; repeat case_match; lia). lia.
Qed.

End Facts.
End DecoderFacts.
