(* ===== verification/Outputs.v ===== *)
(** * Audio outputs

    [output/MultipleOutputs.cxx]: the pipe from which the output threads play.  What the
    devices do is read from a list of answers: whether an update finds an open device,
    whether one is enabled, and whether all devices have consumed the chunk at the head of
    the pipe. *)

From Stdlib Require Import ZArith Lia ZifyBool.
From stdpp Require Import base numbers sets strings list.
From S2P Require Import Prelude Tag AudioFormat Song Prog Music.

Set Default Goal Selector "!".
Local Open Scope prog_scope.

Module Outputs.
Import AudioFormat.

(** [class MultipleOutputs]; [opened] stands for a non-null [buffer]. *)
Record MultipleOutputs := mkOutputs {
  opened : bool;
  pipe : option MusicPipe.t;
  input_audio_format : AudioFormat.AudioFormat;
  elapsed_time : Z;
}.

Definition make : MultipleOutputs := mkOutputs false None AudioFormat.Undefined Tag.Negative.

Record outworld := mkOutworld {
  outs : MultipleOutputs;
  chunkbuf : SliceBuffer.t;
  devices : list bool;
}.

#[local] Abbreviation M := (prog outworld).

Definition put (o : MultipleOutputs) : M unit :=
  modify (λ w, mkOutworld o (chunkbuf w) (devices w)).
Definition put_buf (b : SliceBuffer.t) : M unit :=
  modify (λ w, mkOutworld (outs w) b (devices w)).
Definition read_outs : M MultipleOutputs := w <- get ;; ret (outs w).
Definition read_buf : M SliceBuffer.t := w <- get ;; ret (chunkbuf w).

(** The next answer of the devices; a device without a script works. *)
Definition device : M bool := λ w,
  match devices w with
  | [] => Done true w
  | b :: l => Done b (mkOutworld (outs w) (chunkbuf w) l)
  end.

Definition is_null {A} (o : option A) : bool := match o with None => true | Some _ => false end.

(** [Update]: is any device open now? *)
Definition Update : M bool :=
  o <- read_outs ;;
  if negb (AudioFormat.IsDefined (input_audio_format o)) then ret false
  else device.

(** [pipe->Clear( *buffer); delete pipe; pipe = nullptr;] *)
Definition drop_pipe : M unit :=
  o <- read_outs ;;
  match pipe o with
  | None => ret tt
  | Some p =>
      assert_ (opened o) ;;
      b <- read_buf ;;
      r <- lift (MusicPipe.Clear p b) ;;
      put_buf (snd r) ;;
      lift (MusicPipe.delete (fst r)) ;;
      put (mkOutputs (opened o) None (input_audio_format o) (elapsed_time o))
  end.

Definition Close : M unit :=
  drop_pipe ;;
  put make.

Definition Release : M unit :=
  drop_pipe ;;
  put make.

Definition EnableDisable : M unit := ret tt.

(** A new pipe, or the one that exists. *)
Definition reuse_pipe (audio_format : AudioFormat.AudioFormat) (o : MultipleOutputs)
    : M MusicPipe.t :=
  match pipe o with
  | None => ret MusicPipe.make
  | Some p =>
      assert_ (MusicPipe.IsEmpty p || bool_decide (audio_format = input_audio_format o)) ;;
      ret p
  end.

Definition Open (audio_format : AudioFormat.AudioFormat) : M unit :=
  o <- read_outs ;;
  assert_ (Bool.eqb (is_null (pipe o)) (negb (opened o))) ;;
  assert_ (match pipe o with None => true | Some p => MusicPipe.CheckFormat p audio_format end) ;;
  p <- reuse_pipe audio_format o ;;
  put (mkOutputs true (Some p) audio_format (elapsed_time o)) ;;
  EnableDisable ;;
  Update ;;
  enabled <- device ;;
  open <- device ;;
  if negb enabled then
    Close ;; throw (RuntimeError (str "All audio outputs are disabled"))
  else if negb open then
    Close ;; throw (RuntimeError (str "Failed to open audio output"))
  else ret tt.

Definition Play (chunk : MusicChunk.t) : M unit :=
  o <- read_outs ;;
  assert_ (opened o) ;;
  p <- lift (pipe o) ;;
  ok <- lift (MusicChunk.CheckFormat chunk (input_audio_format o)) ;;
  assert_ ok ;;
  u <- Update ;;
  if negb u then throw (RuntimeError (str "Failed to open audio output"))
  else
    p <- lift (MusicPipe.Push chunk p) ;;
    put (mkOutputs (opened o) (Some p) (input_audio_format o) (elapsed_time o)).

(** The loop of [Check]; returns the number of chunks that are left. *)
Fixpoint Check_loop (n : nat) : M nat :=
  match n with
  | O => abort
  | S n =>
      o <- read_outs ;;
      p <- lift (pipe o) ;;
      match MusicPipe.Peek p with
      | None => ret 0
      | Some chunk =>
          assert_ (negb (MusicPipe.IsEmpty p)) ;;
          consumed <- device ;;
          if negb consumed then ret (MusicPipe.GetSize p)
          else
            let elapsed := if (0 <? MusicChunk.length chunk)%Z && negb (Tag.IsNegative (MusicChunk.time chunk))
                           then MusicChunk.time chunk else elapsed_time o in
            r <- lift (MusicPipe.Shift p) ;;
            shifted <- lift (fst r) ;;
            put (mkOutputs (opened o) (Some (snd r)) (input_audio_format o) elapsed) ;;
            b <- read_buf ;;
            b <- lift (MusicBuffer.Return shifted b) ;;
            put_buf b ;;
            Check_loop n
      end
  end.

Definition Check : M nat :=
  o <- read_outs ;;
  assert_ (opened o) ;;
  p <- lift (pipe o) ;;
  Check_loop (S (length (MusicPipe.chunks p))).

Definition Pause : M unit := Update ;; ret tt.
Definition Drain : M unit := ret tt.

Definition Cancel : M unit :=
  o <- read_outs ;;
  match pipe o with
  | None => put (mkOutputs (opened o) None (input_audio_format o) Tag.Negative)
  | Some p =>
      b <- read_buf ;;
      r <- lift (MusicPipe.Clear p b) ;;
      put_buf (snd r) ;;
      put (mkOutputs (opened o) (Some (fst r)) (input_audio_format o) Tag.Negative)
  end.

Definition SongBorder : M unit :=
  o <- read_outs ;;
  put (mkOutputs (opened o) (pipe o) (input_audio_format o) 0).

Definition GetElapsedTime : M Z := o <- read_outs ;; ret (elapsed_time o).

(** ** The outputs keep their pipe in order *)

(** A call that does not throw. *)
Ltac wp_use L := eapply (wp_mono _ _ _ (λ _ _, False)); [by apply L| |by intros ? ? []].

Section Facts.
Context (af : AudioFormat.AudioFormat).
Hypothesis Haf : IsValid af = true.
#[local] Abbreviation holds := SliceBuffer.holds.

Definition outs_ok (o : MultipleOutputs) : Prop :=
  match pipe o with
  | None => opened o = false
  | Some p => opened o = true ∧ MusicPipe.pipe_ok af true p ∧ input_audio_format o = af
  end.

(** The slices the outputs hold. *)
Definition out_slices (o : MultipleOutputs) : list nat :=
  match pipe o with Some p => MusicPipe.slices p | None => [] end.

Record oinv (l : list nat) (v : outworld) : Prop := {
  oi_holds : holds (chunkbuf v) (out_slices (outs v) ++ l);
  oi_outs : outs_ok (outs v);
}.

Lemma outs_ok_opened o : outs_ok o → opened o = true →
  ∃ p, pipe o = Some p ∧ MusicPipe.pipe_ok af true p ∧ input_audio_format o = af.
Proof. unfold outs_ok. destruct (pipe o) as [p|]; [intros (_ & ? & ?) _; eauto|congruence]. Qed.

Lemma make_outs_ok : outs_ok make.
Proof. done. Qed.

Lemma wp_device_calm Q X v :
  (∀ b l, (devices v = [] → b = true ∧ l = []) → Q b (mkOutworld (outs v) (chunkbuf v) l)) →
  wp device Q X v.
Proof. intros H. unfold wp, device. destruct v as [o b [|x l]]; simpl; by apply H. Qed.

Lemma wp_device Q X v :
  (∀ b l, Q b (mkOutworld (outs v) (chunkbuf v) l)) → wp device Q X v.
Proof. intros H. apply wp_device_calm. auto. Qed.

Lemma wp_Update Q X v :
  (∀ b l, Q b (mkOutworld (outs v) (chunkbuf v) l)) → wp Update Q X v.
Proof.
  intros H. unfold Update, read_outs. wp_steps. destruct (negb _); [|by apply wp_device].
  apply wp_ret. specialize (H false (devices v)). by destruct v.
Qed.

Lemma drop_pipe_ok l v X : oinv l v →
  wp drop_pipe (λ _ v', holds (chunkbuf v') l) X v.
Proof.
  intros [Hh Ho]. unfold drop_pipe, read_outs. wp_steps. unfold outs_ok, out_slices in *.
  destruct (pipe (outs v)) as [p|] eqn:Ep; [|by apply wp_ret].
  destruct Ho as (Hop & Hp & Hf). apply wp_bind, wp_assert; [done|].
  unfold read_buf. wp_steps.
  destruct (MusicPipe.pipe_Clear_ok af true p _ _ Hp Hh) as (p' & b & Hc & _ & -> & Hh').
  eapply wp_lift; [exact Hc|]. unfold put_buf. wp_steps. eapply wp_lift; [done|].
  unfold put. wp_steps. done.
Qed.

Lemma Close_ok l v X : oinv l v →
  wp Close (λ _ v', oinv l v' ∧ opened (outs v') = false ∧ out_slices (outs v') = []) X v.
Proof.
  intros Hi. unfold Close. apply wp_bind. wp_use drop_pipe_ok.
  intros [] v' Hh. unfold put. apply wp_modify. split_and!; [by constructor|done|done].
Qed.

Lemma Release_ok l v X : oinv l v →
  wp Release (λ _ v', oinv l v' ∧ opened (outs v') = false ∧ out_slices (outs v') = []) X v.
Proof. apply Close_ok. Qed.

Lemma reuse_pipe_ok l v X : oinv l v →
  wp (reuse_pipe af (outs v)) (λ p v', v' = v ∧ MusicPipe.pipe_ok af true p ∧
    holds (chunkbuf v) (MusicPipe.slices p ++ l)) X v.
Proof.
  intros [Hh Ho]. unfold reuse_pipe, outs_ok, out_slices in *.
  destruct (pipe (outs v)) as [p|].
  - destruct Ho as (_ & Hp & Hf). apply wp_bind, wp_assert; [|by apply wp_ret].
    by rewrite Hf, bool_decide_eq_true_2, orb_true_r.
  - apply wp_ret. split_and!; [done|apply MusicPipe.make_pipe_ok|done].
Qed.

Lemma Open_ok l v : oinv l v →
  wp (Open af) (λ _ v', oinv l v' ∧ opened (outs v') = true)
    (λ _ v', oinv l v' ∧ opened (outs v') = false) v.
Proof.
  intros Hi. unfold Open, read_outs. wp_steps. pose proof (oi_outs _ _ Hi) as Ho. unfold outs_ok in Ho.
  apply wp_assert; [by destruct (pipe (outs v)); [destruct Ho as [-> _]|rewrite Ho]|]. apply wp_bind.
  apply wp_assert.
  { destruct (pipe (outs v)) as [p|]; [|done]. destruct Ho as (_ & Hp & _). unfold MusicPipe.CheckFormat.
    destruct (MusicPipe.po_format _ _ _ Hp) as [->|[-> _]]; [done|].
    by rewrite bool_decide_eq_true_2, orb_true_r. }
  apply wp_bind. wp_use reuse_pipe_ok.
  intros p v' (-> & Hp & Hh). unfold put. wp_steps. apply wp_ret. wp_steps. apply wp_Update. intros _ l1.
  wp_steps. apply wp_device. intros enabled l2. wp_steps. apply wp_device. intros op l3. simpl.
  assert (Hi' : oinv l (mkOutworld (mkOutputs true (Some p) af (elapsed_time (outs v))) (chunkbuf v) l3))
    by (by constructor).
  destruct enabled; simpl; [destruct op; simpl|].
  - by apply wp_ret.
  - apply wp_bind. wp_use Close_ok. intros [] v' (? & ? & _). by apply wp_throw.
  - apply wp_bind. wp_use Close_ok. intros [] v' (? & ? & _). by apply wp_throw.
Qed.

Lemma outputs_Play_ok c l v : MusicPipe.chunk_ok af true c → outs_ok (outs v) → opened (outs v) = true →
  holds (chunkbuf v) (MusicChunk.addrs c ++ out_slices (outs v) ++ l) →
  wp (Play c) (λ _ v', oinv l v' ∧ opened (outs v') = true)
    (λ _ v', outs v' = outs v ∧ chunkbuf v' = chunkbuf v) v.
Proof.
  intros Hc Ho Hop Hh. destruct (outs_ok_opened _ Ho Hop) as (p & Hp & Hpo & Hf).
  unfold Play, read_outs. wp_steps. apply wp_assert; [done|]. wp_steps. eapply wp_lift; [exact Hp|].
  wp_steps. rewrite Hf. eapply wp_lift; [by eapply MusicPipe.CheckFormat_ok|].
  wp_steps. apply wp_assert; [done|]. wp_steps. apply wp_Update. intros u l1.
  destruct u; simpl; [|by apply wp_throw].
  destruct (MusicPipe.Push_ok af Haf true c p Hc Hpo) as (p' & Hpush & Hpo' & Hch).
  apply wp_bind. eapply wp_lift; [exact Hpush|]. unfold put. apply wp_modify. simpl.
  split; [|done]. constructor; [|done]. simpl. unfold out_slices in *. rewrite Hp in Hh. simpl.
  unfold MusicPipe.slices at 1. rewrite Hch, bind_app. simpl. rewrite app_nil_r, <-app_assoc.
  by rewrite (Permutation_app_swap_app (MusicPipe.chunks p ≫= MusicChunk.addrs)).
Qed.

Lemma Check_loop_ok n l v X : oinv l v → opened (outs v) = true →
  length (default [] (MusicPipe.chunks <$> pipe (outs v))) < n →
  wp (Check_loop n) (λ r v', oinv l v' ∧ opened (outs v') = true ∧ (devices v = [] → r = 0)) X v.
Proof.
  revert v. induction n as [|n IH]; intros v [Hh Ho] Hop Hn; [lia|]. cbn [Check_loop].
  destruct (outs_ok_opened _ Ho Hop) as (p & Hp & Hpo & Hf). unfold read_outs. wp_steps.
  eapply wp_lift; [exact Hp|]. rewrite Hp in Hn. cbn in Hn.
  pose proof (MusicPipe.pipe_Shift_ok af true p Hpo) as HS. unfold MusicPipe.Peek.
  destruct (MusicPipe.chunks p) as [|c cs] eqn:Ec; cbn [head hd_error]; [by apply wp_ret|].
  apply wp_bind, wp_assert.
  { unfold MusicPipe.IsEmpty. rewrite (MusicPipe.po_size _ _ _ Hpo), Ec. done. }
  apply wp_bind, wp_device_calm. intros b l1 Hcalm. destruct b; simpl.
  2:{ apply wp_ret. split_and!; [by constructor|done|]. intros Hd. by destruct (Hcalm Hd). }
  destruct HS as (p' & HS & Hc & Hpo' & Heq). injection Heq as Hcs.
  apply wp_bind. eapply wp_lift; [exact HS|]. apply wp_bind. eapply wp_lift; [done|].
  unfold put, read_buf, put_buf. wp_steps. simpl.
  unfold out_slices in Hh. rewrite Hp in Hh. unfold MusicPipe.slices in Hh. rewrite Ec, Hcs in Hh.
  cbn [mbind list_bind] in Hh. rewrite <-app_assoc in Hh.
  destruct (MusicPipe.Return_ok af true c _ _ Hc Hh) as (buf & Hret & _ & Hh').
  eapply wp_lift; [exact Hret|]. wp_steps. eapply (wp_mono _ _ _ X); [apply IH; simpl| |done].
  - by constructor.
  - done.
  - rewrite <-Hcs. simpl in Hn. lia.
  - intros r v' (H1 & H2 & H3). split_and!; [done|done|]. intros Hd. apply H3. by destruct (Hcalm Hd).
Qed.

Lemma Check_ok l v X : oinv l v → opened (outs v) = true →
  wp Check (λ n v', oinv l v' ∧ opened (outs v') = true ∧ (devices v = [] → n = 0)) X v.
Proof.
  intros Hi Hop. destruct (outs_ok_opened _ (oi_outs _ _ Hi) Hop) as (p & Hp & _).
  unfold Check, read_outs. wp_steps. apply wp_assert; [done|]. wp_steps. eapply wp_lift; [exact Hp|].
  apply Check_loop_ok; [done|done|]. rewrite Hp. cbn. lia.
Qed.

Lemma Cancel_ok l v X : oinv l v →
  wp Cancel (λ _ v', oinv l v' ∧ opened (outs v') = opened (outs v)) X v.
Proof.
  intros [Hh Ho]. unfold Cancel, read_outs. wp_steps. unfold outs_ok, out_slices in *.
  destruct (pipe (outs v)) as [p|] eqn:Ep.
  - destruct Ho as (Hop & Hp & Hf). unfold read_buf, put_buf, put. wp_steps.
    destruct (MusicPipe.pipe_Clear_ok af true p _ _ Hp Hh) as (p' & b & Hc & _ & -> & Hh').
    eapply wp_lift; [exact Hc|]. wp_steps. split; [|done]. constructor; [done|].
    refine (conj _ (conj _ _)); [done|apply MusicPipe.make_pipe_ok|done].
  - unfold put. apply wp_modify. split; [|done]. by constructor.
Qed.

Lemma Pause_ok l v X : oinv l v →
  wp Pause (λ _ v', oinv l v' ∧ opened (outs v') = opened (outs v)) X v.
Proof.
  intros [Hh Ho]. unfold Pause. apply wp_bind, wp_Update. intros _ l1. apply wp_ret.
  split; [by constructor|done].
Qed.

Lemma SongBorder_ok l v X : oinv l v →
  wp SongBorder (λ _ v', oinv l v' ∧ opened (outs v') = opened (outs v)) X v.
Proof.
  intros [Hh Ho]. unfold SongBorder, read_outs, put. wp_steps. split; [|done].
  constructor; [done|]. unfold outs_ok in *. simpl. by destruct (pipe (outs v)).
Qed.

End Facts.

End Outputs.
