(* ===== verification/ArgParser.v ===== *)
(** * Command arguments

    [protocol/ArgParser.cxx]: numbers, booleans and ranges in the arguments of
    protocol commands, and the accessors of [command/Request.hxx]. *)

From Stdlib Require Import ZArith Lia ZifyBool.
From stdpp Require Import base numbers sets strings list.
From S2P Require Import Prelude CString Decimal Prog.

Set Default Goal Selector "!".

Module ArgParser.
Import CString Decimal.
Local Open Scope Z_scope.

Definition INT_MIN : Z := - 2 ^ 31.
Definition INT_MAX : Z := 2 ^ 31 - 1.
Definition UINT_MAX : Z := 2 ^ 32 - 1.

#[local] Abbreviation run := (outcome exn).

(** [FormatProtocolError(code, fmt, s)] for a format that ends in [%s]: the buffer
    of 256 bytes holds 255 characters. *)
Definition FormatProtocolError (code : ack) (fmt : string) (s : list Z) : exn :=
  ProtocolError code (take 255 (str fmt ++ s)).

(** [*test] for the end pointer at the offset [n] of [s]. *)
Definition at_ (s : list Z) (n : nat) : Z := first (drop n s).

Definition ParseCommandArgU32 (s : list Z) : run Z :=
  let '(value, test) := strtoul s in
  if (test =? 0)%nat || negb (at_ s test =? 0)
  then Throw (FormatProtocolError ACK_ERROR_ARG "Integer expected: " s)
  else Ret (value mod 2 ^ 32).

Definition ParseCommandArgInt_range (s : list Z) (min_value max_value : Z) : run Z :=
  let '(value, test) := strtol s in
  if (test =? 0)%nat || negb (at_ s test =? 0)
  then Throw (FormatProtocolError ACK_ERROR_ARG "Integer expected: " s)
  else if (value <? min_value) || (max_value <? value)
  then Throw (FormatProtocolError ACK_ERROR_ARG "Number too large: " s)
  else Ret value.

Definition ParseCommandArgInt (s : list Z) : run Z :=
  ParseCommandArgInt_range s INT_MIN INT_MAX.

Record RangeArg := mkRange { start : Z; end_ : Z }.
#[export] Instance RangeArg_eq_dec : EqDecision RangeArg.
Proof. solve_decision. Defined.

Definition All : RangeArg := mkRange 0 UINT_MAX.

Definition ParseCommandArgRange (s : list Z) : run RangeArg :=
  let '(value, test) := strtol s in
  if (test =? 0)%nat || (negb (at_ s test =? 0) && negb (at_ s test =? 58))
  then Throw (FormatProtocolError ACK_ERROR_ARG "Integer or range expected: " s)
  else if (value =? -1) && (at_ s test =? 0) then Ret All
  else if value <? 0
  then Throw (FormatProtocolError ACK_ERROR_ARG "Number is negative: " s)
  else if INT_MAX <? value
  then Throw (FormatProtocolError ACK_ERROR_ARG "Number too large: " s)
  else if at_ s test =? 58 then
    let s2 := drop (S test) s in
    let '(value2, test2) := strtol s2 in
    if negb (at_ s2 test2 =? 0)
    then Throw (FormatProtocolError ACK_ERROR_ARG "Integer or range expected: " s)
    else
      let value2 := if (test2 =? 0)%nat then INT_MAX else value2 in
      if value2 <? 0
      then Throw (FormatProtocolError ACK_ERROR_ARG "Number is negative: " s)
      else if INT_MAX <? value2
      then Throw (FormatProtocolError ACK_ERROR_ARG "Number too large: " s)
      else Ret (mkRange value value2)
  else Ret (mkRange value (value + 1)).

Definition ParseCommandArgUnsigned_max (s : list Z) (max_value : Z) : run Z :=
  let '(value, endptr) := strtoul s in
  if (endptr =? 0)%nat || negb (at_ s endptr =? 0)
  then Throw (FormatProtocolError ACK_ERROR_ARG "Integer expected: " s)
  else if max_value <? value
  then Throw (FormatProtocolError ACK_ERROR_ARG "Number too large: " s)
  else Ret value.

Definition ParseCommandArgUnsigned (s : list Z) : run Z := ParseCommandArgUnsigned_max s UINT_MAX.

Definition ParseCommandArgBool (s : list Z) : run bool :=
  let '(value, endptr) := strtol s in
  if (endptr =? 0)%nat || negb (at_ s endptr =? 0) || (negb (value =? 0) && negb (value =? 1))
  then Throw (FormatProtocolError ACK_ERROR_ARG "Boolean (0/1) expected: " s)
  else Ret (negb (value =? 0)).

(** ** Request: the argument vector *)

#[local] Abbreviation Request := (list (list Z)).

(** [assert(idx < size)], then the parser. *)
Definition arg {A} (f : list Z → run A) (args : Request) (idx : nat) : run A :=
  s ← of_option (args !! idx); f s.

Definition ParseInt : Request → nat → run Z := arg ParseCommandArgInt.
Definition ParseInt_range (args : Request) (idx : nat) (lo hi : Z) : run Z :=
  arg (λ s, ParseCommandArgInt_range s lo hi) args idx.
(** The value passes through an [int] and is assigned to an [unsigned]. *)
Definition ParseUnsigned : Request → nat → run Z := arg ParseCommandArgUnsigned.
Definition ParseUnsigned_max (args : Request) (idx : nat) (max_value : Z) : run Z :=
  arg (λ s, ParseCommandArgUnsigned_max s max_value) args idx.
Definition ParseBool : Request → nat → run bool := arg ParseCommandArgBool.
Definition ParseRange : Request → nat → run RangeArg := arg ParseCommandArgRange.

Definition ParseOptional_int (args : Request) (idx : nat) (default_value : Z) : run Z :=
  if (idx <? length args)%nat then ParseInt args idx else Ret default_value.
Definition ParseOptional_range (args : Request) (idx : nat) (default_value : RangeArg)
    : run RangeArg :=
  if (idx <? length args)%nat then ParseRange args idx else Ret default_value.

(** ** Properties *)

(** A parser returns a value that satisfies [P] or answers with [ACK_ERROR_ARG]. *)
Definition parses {A} (r : run A) (P : A → Prop) : Prop :=
  match r with
  | Ret a => P a
  | Throw e => ∃ what, e = ProtocolError ACK_ERROR_ARG what
  | Abort => False
  end.

Lemma parses_error {A} fmt s (P : A → Prop) :
  parses (Throw (FormatProtocolError ACK_ERROR_ARG fmt s)) P.
Proof. by eexists. Qed.
Lemma parses_ret {A} (a : A) (P : A → Prop) : P a → parses (Ret a) P.
Proof. done. Qed.
#[local] Hint Resolve parses_error parses_ret : core.

Ltac split_parser :=
  repeat match goal with
  | |- context [if ?b then _ else _] => destruct b eqn:?
  end; auto.

Lemma ParseCommandArgU32_range s : parses (ParseCommandArgU32 s) (λ v, 0 ≤ v ≤ UINT_MAX).
Proof.
  unfold ParseCommandArgU32. destruct (strtoul s) as [v n]. split_parser.
  simpl. unfold UINT_MAX. pose proof (Z.mod_pos_bound v (2 ^ 32)). lia.
Qed.

Lemma ParseCommandArgInt_range_ok s lo hi :
  parses (ParseCommandArgInt_range s lo hi) (λ v, lo ≤ v ≤ hi).
Proof.
  unfold ParseCommandArgInt_range. destruct (strtol s) as [v n]. split_parser. simpl. lia.
Qed.

Lemma ParseCommandArgUnsigned_max_ok s hi :
  parses (ParseCommandArgUnsigned_max s hi) (λ v, 0 ≤ v ≤ hi).
Proof.
  unfold ParseCommandArgUnsigned_max. pose proof (strtoul_range s).
  destruct (strtoul s) as [v n]. simpl in *. split_parser. simpl. lia.
Qed.

Lemma ParseCommandArgBool_ok s : parses (ParseCommandArgBool s) (λ _, True).
Proof. unfold ParseCommandArgBool. destruct (strtol s) as [v n]. split_parser. Qed.

Lemma ParseCommandArgRange_range s : parses (ParseCommandArgRange s)
  (λ r, r = All ∨ 0 ≤ start r ≤ INT_MAX ∧ 0 ≤ end_ r ≤ INT_MAX + 1).
Proof.
  unfold ParseCommandArgRange. destruct (strtol s) as [v n].
  destruct (strtol (drop (S n) s)) as [v2 n2]. unfold INT_MAX in *. split_parser; simpl; lia.
Qed.

(** A number is followed by the end of the string or by a character that ends it. *)
Lemma at_print n rest : at_ (print_unsigned n ++ rest) (length (print_unsigned n)) = first rest.
Proof. unfold at_. by rewrite drop_app_length. Qed.

Lemma print_nonempty n : 0 ≤ n ≤ ULONG_MAX → (length (print_unsigned n) =? 0)%nat = false.
Proof. intros H. destruct (print_unsigned_digits n H) as [_ Hne]. by destruct (print_unsigned n). Qed.

Lemma ParseCommandArgUnsigned_print n hi : 0 ≤ n ≤ hi → hi ≤ UINT_MAX →
  ParseCommandArgUnsigned_max (print_unsigned n) hi = Ret n.
Proof.
  intros Hn Hhi. unfold ParseCommandArgUnsigned_max, UINT_MAX in *.
  pose proof (print_unsigned_ok n [] ltac:(unfold ULONG_MAX; lia) eq_refl) as H.
  rewrite app_nil_r in H. rewrite H, print_nonempty by (unfold ULONG_MAX; lia).
  pose proof (at_print n []) as Hat. rewrite app_nil_r in Hat. rewrite Hat. simpl.
  by rewrite (proj2 (Z.ltb_ge _ _)) by lia.
Qed.

Definition colon : list Z := [58].

(** [ParseCommandArgRange] reads a position [a] as the range [[a, a + 1)], [a:b] as
    [[a, b)], [a:] as open towards [INT_MAX] and [-1] as the whole list; whatever string it
    is given, it returns the whole list or a range whose bounds fit the [int] arguments of
    the playlist (the end may exceed [INT_MAX] by one), or it throws an argument error. *)
Theorem ParseCommandArgRange_correct a b :
  0 ≤ a ≤ INT_MAX → 0 ≤ b ≤ INT_MAX →
  ParseCommandArgRange (print_unsigned a) = Ret (mkRange a (a + 1)) ∧
  ParseCommandArgRange (print_unsigned a ++ colon ++ print_unsigned b) = Ret (mkRange a b) ∧
  ParseCommandArgRange (print_unsigned a ++ colon) = Ret (mkRange a INT_MAX) ∧
  ParseCommandArgRange (str "-1") = Ret All ∧
  ∀ s, match ParseCommandArgRange s with
       | Ret r => r = All ∨ 0 ≤ start r ≤ INT_MAX ∧ 0 ≤ end_ r ≤ INT_MAX + 1
       | Throw e => ∃ what, e = ProtocolError ACK_ERROR_ARG what
       | Abort => False
       end.
Proof.
  intros Ha Hb. unfold INT_MAX in *.
  assert (Hone : ∀ n rest, 0 ≤ n ≤ 2 ^ 31 - 1 → isdigit (first rest) = false →
    strtol (print_unsigned n ++ rest) = (n, length (print_unsigned n)) ∧
    (length (print_unsigned n) =? 0)%nat = false).
  { intros n rest Hn Hr. split; [apply strtol_print; [unfold LONG_MAX; lia|done]|].
    apply print_nonempty. unfold ULONG_MAX. lia. }
  assert (Hstart : (a =? -1) = false ∧ (a <? 0) = false ∧ (INT_MAX <? a) = false)
    by (unfold INT_MAX; lia).
  destruct Hstart as (H1 & H2 & H3).
  split_and!; [| | |done|apply ParseCommandArgRange_range]; unfold ParseCommandArgRange.
  - rewrite <-(app_nil_r (print_unsigned a)). destruct (Hone a [] Ha eq_refl) as [-> ->].
    rewrite at_print. simpl. rewrite H1, H2, H3. done.
  - destruct (Hone a (colon ++ print_unsigned b) Ha eq_refl) as [-> ->].
    rewrite at_print. cbn -[strtol drop]. rewrite H1, H2, H3. cbn -[strtol drop].
    change (print_unsigned a ++ 58 :: print_unsigned b)
      with (print_unsigned a ++ colon ++ print_unsigned b).
    rewrite app_assoc, (drop_app_length' (print_unsigned a ++ colon))
      by (rewrite length_app; simpl; lia).
    rewrite <-(app_nil_r (print_unsigned b)). destruct (Hone b [] Hb eq_refl) as [-> ->].
    rewrite at_print. simpl. unfold INT_MAX.
    by rewrite (proj2 (Z.ltb_ge b 0)), (proj2 (Z.ltb_ge _ b)) by lia.
  - destruct (Hone a colon Ha eq_refl) as [-> ->].
    rewrite at_print. cbn -[strtol drop]. rewrite H1, H2, H3. cbn -[strtol drop].
    change [58] with colon.
    rewrite drop_ge by (rewrite length_app; simpl; lia). done.
Qed.

Lemma ParseCommandArgRange_correct_witness :
  ParseCommandArgRange (print_unsigned 3 ++ colon ++ print_unsigned 7) = Ret (mkRange 3 7).
Proof. apply (ParseCommandArgRange_correct 3 7); unfold INT_MAX; lia. Defined.

End ArgParser.
