(* ===== verification/Client.v ===== *)
(** * Client connections

    [client/Client.hxx] and its implementation files: output, idle notifications,
    subscriptions and messages, and [command/CommandListBuilder].  The [server] holds
    the partition, the list of clients and the pending mask of the idle monitor; a
    [Client &] is the number of the client. *)

From Stdlib Require Import ZArith Lia ZifyBool.
From stdpp Require Import base numbers sets strings list.
From S2P Require Import Prelude CString Tokenizer Decimal Fifo Prog.

Set Default Goal Selector "!".

(** ** CommandListBuilder *)

Module CommandListBuilder.

Inductive Mode := MODE_DISABLED | MODE_ENABLED | MODE_OK.
#[export] Instance Mode_eq_dec : EqDecision Mode.
Proof. solve_decision. Defined.

Record t := mk { mode : Mode; commands : list (list Z); size : nat }.

Definition init (garbage : nat) : t := mk MODE_DISABLED [] garbage.

Definition IsActive (b : t) : bool := negb (bool_decide (mode b = MODE_DISABLED)).

Definition IsOKMode (b : t) : option bool :=
  assert! IsActive b ;; Some (bool_decide (mode b = MODE_OK)).

Definition Reset (b : t) : t := mk MODE_DISABLED [] (size b).

Definition Begin (ok : bool) (b : t) : option t :=
  assert! bool_decide (commands b = []) ;;
  assert! bool_decide (mode b = MODE_DISABLED) ;;
  Some (mk (if ok then MODE_OK else MODE_ENABLED) (commands b) 0).

(** [false] if the list is full; the size counts the refused command too. *)
Definition Add (max_size : nat) (cmd : list Z) (b : t) : bool * t :=
  let size' := size b + (length cmd + 1) in
  if max_size <? size' then (false, mk (mode b) (commands b) size')
  else (true, mk (mode b) (commands b ++ [cmd]) size').

(** The list is handed over by reference and cleared by [Reset]. *)
Definition Commit (b : t) : option (list (list Z)) :=
  assert! IsActive b ;; Some (commands b).

End CommandListBuilder.

Module Client.
Import Tokenizer.
Local Open Scope prog_scope.
Local Open Scope Z_scope.

(** ** Events: [IdleFlags.hxx] *)

Definition IDLE_DATABASE : Z := 1.
Definition IDLE_STORED_PLAYLIST : Z := 2.
Definition IDLE_PLAYLIST : Z := 4.
Definition IDLE_PLAYER : Z := 8.
Definition IDLE_MIXER : Z := 16.
Definition IDLE_OUTPUT : Z := 32.
Definition IDLE_OPTIONS : Z := 64.
Definition IDLE_STICKER : Z := 128.
Definition IDLE_UPDATE : Z := 256.
Definition IDLE_SUBSCRIPTION : Z := 512.
Definition IDLE_MESSAGE : Z := 1024.
Definition IDLE_NEIGHBOR : Z := 2048.
Definition IDLE_MOUNT : Z := 4096.

Definition idle_names : list (list Z) :=
  [str "database"; str "stored_playlist"; str "playlist"; str "player"; str "mixer";
   str "output"; str "options"; str "sticker"; str "update"; str "subscription";
   str "message"; str "neighbor"; str "mount"].

Fixpoint idle_parse_from (i : Z) (names : list (list Z)) (name : list Z) : Z :=
  match names with
  | [] => 0
  | n :: names => if CString.StringEqualsCaseASCII name n then Z.shiftl 1 i
                  else idle_parse_from (i + 1) names name
  end.
Definition idle_parse_name (name : list Z) : Z := idle_parse_from 0 idle_names name.

(** ** The client *)

Definition CLIENT_MAX_SUBSCRIPTIONS : nat := 16.
Definition CLIENT_MAX_MESSAGES : nat := 64.

Record ClientMessage := mkMessage { channel : list Z; message : list Z }.

Record Client := mkClient {
  num : nat;
  permission : Z;
  uid : Z;
  cmd_list : CommandListBuilder.t;
  idle_waiting : bool;
  idle_flags : Z;
  idle_subscriptions : Z;
  subscriptions : list (list Z);
  num_subscriptions : nat;
  messages : list ClientMessage;
  (** the socket was closed *)
  expired : bool;
  (** the seconds the timeout was scheduled for, if it is *)
  timeout : option Z;
  output : PeakBuffer.t Z
}.

Definition put_permission (v : Z) (c : Client) : Client :=
  mkClient (num c) v (uid c) (cmd_list c) (idle_waiting c) (idle_flags c) (idle_subscriptions c)
    (subscriptions c) (num_subscriptions c) (messages c) (expired c) (timeout c) (output c).
Definition put_cmd_list (v : CommandListBuilder.t) (c : Client) : Client :=
  mkClient (num c) (permission c) (uid c) v (idle_waiting c) (idle_flags c) (idle_subscriptions c)
    (subscriptions c) (num_subscriptions c) (messages c) (expired c) (timeout c) (output c).
Definition put_idle (waiting : bool) (flags subs : Z) (c : Client) : Client :=
  mkClient (num c) (permission c) (uid c) (cmd_list c) waiting flags subs
    (subscriptions c) (num_subscriptions c) (messages c) (expired c) (timeout c) (output c).
Definition put_subscriptions (v : list (list Z)) (n : nat) (c : Client) : Client :=
  mkClient (num c) (permission c) (uid c) (cmd_list c) (idle_waiting c) (idle_flags c)
    (idle_subscriptions c) v n (messages c) (expired c) (timeout c) (output c).
Definition put_messages (v : list ClientMessage) (c : Client) : Client :=
  mkClient (num c) (permission c) (uid c) (cmd_list c) (idle_waiting c) (idle_flags c)
    (idle_subscriptions c) (subscriptions c) (num_subscriptions c) v (expired c) (timeout c)
    (output c).
Definition put_expired (v : bool) (c : Client) : Client :=
  mkClient (num c) (permission c) (uid c) (cmd_list c) (idle_waiting c) (idle_flags c)
    (idle_subscriptions c) (subscriptions c) (num_subscriptions c) (messages c) v (timeout c)
    (output c).
Definition put_timeout (v : option Z) (c : Client) : Client :=
  mkClient (num c) (permission c) (uid c) (cmd_list c) (idle_waiting c) (idle_flags c)
    (idle_subscriptions c) (subscriptions c) (num_subscriptions c) (messages c) (expired c) v
    (output c).
Definition put_output (v : PeakBuffer.t Z) (c : Client) : Client :=
  mkClient (num c) (permission c) (uid c) (cmd_list c) (idle_waiting c) (idle_flags c)
    (idle_subscriptions c) (subscriptions c) (num_subscriptions c) (messages c) (expired c)
    (timeout c) v.

(** The settings of [client_manager_init] and the contents of new memory. *)
Class ClientConfig := {
  client_timeout : Z;
  client_max_command_list_size : nat;
  client_max_output_buffer_size : nat;
  fresh : nat → list Z;
  fresh_length n : length (fresh n) = n
}.

(** ** Methods on one client; [None] is a failed assertion *)

Section Methods.
Context {CFG : ClientConfig}.

(** The constructor; [idle_subscriptions] and the size of the command list are not
    initialised. *)
Definition make (_num : nat) (_uid default_permission : Z) (garbage : Z * nat) : Client :=
  mkClient _num default_permission _uid (CommandListBuilder.init garbage.2) false 0 garbage.1
    [] 0 [] false (Some client_timeout) (PeakBuffer.new 16384 client_max_output_buffer_size).

Definition SetExpired (c : Client) : Client :=
  if expired c then c else put_timeout (Some 0) (put_expired true c).

(** [Client::Write] and [FullyBufferedSocket::Write]. *)
Definition Write (data : list Z) (c : Client) : option Client :=
  if expired c then Some c
  else if (length data =? 0)%nat then Some c
  else
    (r ← PeakBuffer.Append fresh data (output c);
     let c := put_output r.2 c in
     Some (if (r.1 : bool) then c else SetExpired c))%stdpp.

(** The lines of an idle response. *)
Fixpoint changed_lines (i : Z) (names : list (list Z)) (mask : Z) : list (list Z) :=
  match names with
  | [] => []
  | n :: names =>
      (if Z.testbit mask i then [str "changed: " ++ n ++ [10]] else []) ++
      changed_lines (i + 1) names mask
  end.

Definition IdleNotify (c : Client) : option Client :=
  (assert! idle_waiting c ;;
   assert! negb (idle_flags c =? 0) ;;
   let flags := idle_flags c in
   let c := put_idle false 0 (idle_subscriptions c) c in
   c ← foldl (λ oc l, oc ≫= Write l) (Some c)
         (changed_lines 0 idle_names (Z.land flags (idle_subscriptions c)));
   c ← Write (str "OK" ++ [10]) c;
   Some (put_timeout (Some client_timeout) c))%stdpp.

Definition IdleAdd (flags : Z) (c : Client) : option Client :=
  if expired c then Some c
  else
    let c := put_idle (idle_waiting c) (Z.lor (idle_flags c) flags) (idle_subscriptions c) c in
    if idle_waiting c && negb (Z.land (idle_flags c) (idle_subscriptions c) =? 0)
    then IdleNotify c else Some c.

Definition IdleWait (flags : Z) (c : Client) : option Client :=
  (assert! negb (idle_waiting c) ;;
   let c := put_idle true (idle_flags c) flags c in
   if negb (Z.land (idle_flags c) (idle_subscriptions c) =? 0) then IdleNotify c
   else Some (put_timeout None c))%stdpp.

(** ** Subscriptions and messages *)

Definition valid_channel_char (ch : Z) : bool :=
  IsAlphaNumericASCII ch || (ch =? 95) || (ch =? 45) || (ch =? 46) || (ch =? 58).

(** The first character is tested before the end of the string. *)
Definition client_message_valid_channel_name (name : list Z) : bool :=
  match name with
  | [] => valid_channel_char 0
  | _ => forallb valid_channel_char name
  end.

(** [std::set<std::string>] as its elements in ascending order. *)
Fixpoint string_lt (a b : list Z) : bool :=
  match a, b with
  | _, [] => false
  | [], _ :: _ => true
  | x :: a, y :: b => (x <? y) || ((x =? y) && string_lt a b)
  end.

Fixpoint set_insert (x : list Z) (s : list (list Z)) : list (list Z) :=
  match s with
  | [] => [x]
  | y :: s' => if string_lt x y then x :: s
               else if string_lt y x then y :: set_insert x s' else s
  end.

Definition IsSubscribed (c : Client) (channel_name : list Z) : bool :=
  bool_decide (channel_name ∈ subscriptions c).

Inductive SubscribeResult := SUBSCRIBE_OK | SUBSCRIBE_INVALID | SUBSCRIBE_ALREADY | SUBSCRIBE_FULL.

(** The part of [Subscribe] and [Unsubscribe] that concerns the client; the events they
    emit go to the server. *)
Definition subscribe_client (chan : list Z) (c : Client) : SubscribeResult * Client :=
  if negb (client_message_valid_channel_name chan) then (SUBSCRIBE_INVALID, c)
  else if (CLIENT_MAX_SUBSCRIPTIONS <=? num_subscriptions c)%nat then (SUBSCRIBE_FULL, c)
  else if IsSubscribed c chan then (SUBSCRIBE_ALREADY, c)
  else (SUBSCRIBE_OK, put_subscriptions (set_insert chan (subscriptions c))
                        (S (num_subscriptions c)) c).

Definition unsubscribe_client (chan : list Z) (c : Client) : option (bool * Client) :=
  if negb (IsSubscribed c chan) then Some (false, c)
  else
    (assert! (0 <? num_subscriptions c)%nat ;;
     let c := put_subscriptions (filter (λ s, s ≠ chan) (subscriptions c))
                (num_subscriptions c - 1) c in
     assert! eqb (num_subscriptions c =? 0)%nat (bool_decide (subscriptions c = [])) ;;
     Some (true, c))%stdpp.

Definition PushMessage (msg : ClientMessage) (c : Client) : option (bool * Client) :=
  if (CLIENT_MAX_MESSAGES <=? length (messages c))%nat || negb (IsSubscribed c (channel msg))
  then Some (false, c)
  else
    (c ← (if bool_decide (messages c = []) then IdleAdd IDLE_MESSAGE c else Some c);
     Some (true, put_messages (messages c ++ [msg]) c))%stdpp.

End Methods.

(** ** The server *)

Inductive CommandResult :=
| RESULT_OK | RESULT_IDLE | RESULT_ERROR | RESULT_FINISH | RESULT_CLOSE | RESULT_KILL.
#[export] Instance CommandResult_eq_dec : EqDecision CommandResult.
Proof. solve_decision. Defined.

(** The partition, the clients in the order of the client list, and the mask that the
    idle monitor will deliver. *)
Record server (P : Type) := mkServer {
  part : P;
  clients : list Client;
  pending_mask : Z
}.
Arguments mkServer {P} _ _ _.
Arguments part {P} _.
Arguments clients {P} _.
Arguments pending_mask {P} _.

Section Server.
Context {CFG : ClientConfig} {P : Type}.
#[local] Abbreviation M := (prog (server P)).

Definition find_client (n : nat) (l : list Client) : option Client :=
  snd <$> list_find (λ c, num c = n) l.

(** The client object [n]. *)
Definition client (n : nat) : M Client := s <- get ;; lift (find_client n (clients s)).

Definition put_client (c : Client) : M unit :=
  modify (λ s, mkServer (part s) ((λ d, if decide (num d = num c) then c else d) <$> clients s)
                 (pending_mask s)).

(** A method of the client. *)
Definition on_client (n : nat) (f : Client → option Client) : M unit :=
  c <- client n ;; c' <- lift (f c) ;; put_client c'.

(** [MaskMonitor::OrMask] of the idle monitor, through [Partition::EmitIdle]. *)
Definition EmitIdle (mask : Z) : M unit :=
  modify (λ s, mkServer (part s) (clients s) (Z.lor (pending_mask s) mask)).

Definition Subscribe (n : nat) (chan : list Z) : M SubscribeResult :=
  c <- client n ;;
  let r := subscribe_client chan c in
  match r.1 with
  | SUBSCRIBE_OK => put_client r.2 ;; EmitIdle IDLE_SUBSCRIPTION ;; ret SUBSCRIBE_OK
  | e => ret e
  end.

Definition Unsubscribe (n : nat) (chan : list Z) : M bool :=
  c <- client n ;;
  r <- lift (unsubscribe_client chan c) ;;
  if (r.1 : bool) then put_client r.2 ;; EmitIdle IDLE_SUBSCRIPTION ;; ret true
  else ret false.

(** [for (auto &c : client_list) c.PushMessage(msg)]: whether anybody took it. *)
Fixpoint push_all (msg : ClientMessage) (l : list Client) : option (bool * list Client) :=
  match l with
  | [] => Some (false, [])
  | c :: l =>
      (r ← PushMessage msg c;
       rest ← push_all msg l;
       Some (r.1 || rest.1, r.2 :: rest.2))%stdpp
  end.

(** [ClientList::IdleAdd] *)
Fixpoint idle_add_all (flags : Z) (l : list Client) : option (list Client) :=
  match l with
  | [] => Some []
  | c :: l => (c ← IdleAdd flags c; l ← idle_add_all flags l; Some (c :: l))%stdpp
  end.
Definition ClientList_IdleAdd (flags : Z) (l : list Client) : option (list Client) :=
  (assert! negb (flags =? 0) ;; idle_add_all flags l)%stdpp.

(** [MaskMonitor::RunDeferred] with [Instance::OnIdle]. *)
Definition RunDeferred : M unit :=
  s <- get ;;
  let mask := pending_mask s in
  if negb (mask =? 0) then
    l <- lift (ClientList_IdleAdd mask (clients s)) ;;
    modify (λ s, mkServer (part s) l 0)
  else ret tt.

(** ** Response *)

(** [list_index] and [command] of a [Response] for client [n]. *)
Record Response := mkResponse { list_index : nat; command_name : list Z }.
Definition SetCommand (cmd : list Z) (r : Response) : Response := mkResponse (list_index r) cmd.

Definition write (n : nat) (data : list Z) : M unit := on_client n (Write data).

Definition ack_code (a : ack) : Z :=
  match a with
  | ACK_ERROR_NOT_LIST => 1 | ACK_ERROR_ARG => 2 | ACK_ERROR_PASSWORD => 3
  | ACK_ERROR_PERMISSION => 4 | ACK_ERROR_UNKNOWN => 5 | ACK_ERROR_NO_EXIST => 50
  | ACK_ERROR_PLAYLIST_MAX => 51 | ACK_ERROR_SYSTEM => 52 | ACK_ERROR_PLAYLIST_LOAD => 53
  | ACK_ERROR_UPDATE_ALREADY => 54 | ACK_ERROR_PLAYER_SYNC => 55 | ACK_ERROR_EXIST => 56
  end.

(** ["ACK [%i@%u] {%s} "] *)
Definition ack_head (code : ack) (r : Response) : list Z :=
  str "ACK [" ++ Decimal.print_unsigned (ack_code code) ++ str "@" ++
  Decimal.print_unsigned (Z.of_nat (list_index r)) ++ str "] {" ++ command_name r ++ str "} ".

(** [FormatError]; the message is formatted by the caller. *)
Definition Error (n : nat) (r : Response) (code : ack) (msg : list Z) : M unit :=
  write n (ack_head code r) ;;
  write n msg ;;
  write n [10].

Definition command_success (n : nat) : M unit := write n (str "OK" ++ [10]).

End Server.

End Client.
