(* ===== verification/ClientFacts.v ===== *)
(** * Client connections: invariant and idle notifications *)

From Stdlib Require Import ZArith Lia ZifyBool.
From stdpp Require Import base numbers sets strings list.
From S2P Require Import Prelude CString Tokenizer Decimal Fifo Prog Client.

Set Default Goal Selector "!".

Module ClientFacts.
Import Client.
Local Open Scope Z_scope.

Section Facts.
Context {CFG : ClientConfig}.

#[local] Abbreviation sent c := (PeakBuffer.contents (output c)).

(** ** The invariant of a client *)

Record client_ok (c : Client) : Prop := {
  co_output : PeakBuffer.inv (output c);
  (** a waiting client is owed nothing, and its timeout is off *)
  co_idle : idle_waiting c = true → Z.land (idle_flags c) (idle_subscriptions c) = 0;
  co_timeout : expired c = false → idle_waiting c = true → timeout c = None;
  co_subscriptions : num_subscriptions c = length (subscriptions c) ∧
    (length (subscriptions c) ≤ CLIENT_MAX_SUBSCRIPTIONS)%nat ∧ NoDup (subscriptions c);
  co_messages : (length (messages c) ≤ CLIENT_MAX_MESSAGES)%nat;
  co_list : CommandListBuilder.mode (cmd_list c) = CommandListBuilder.MODE_DISABLED →
    CommandListBuilder.commands (cmd_list c) = []
}.

Lemma make_ok n u p garbage : client_ok (make n u p garbage).
Proof.
  split; simpl; [done|done|done| |unfold CLIENT_MAX_MESSAGES; lia|done].
  split_and!; [done|unfold CLIENT_MAX_SUBSCRIPTIONS; lia|constructor].
Qed.

(** Everything but the connection itself is the same. *)
Record same_client (c c' : Client) : Prop := {
  sc_num : num c' = num c;
  sc_permission : permission c' = permission c;
  sc_uid : uid c' = uid c;
  sc_list : cmd_list c' = cmd_list c;
  sc_waiting : idle_waiting c' = idle_waiting c;
  sc_flags : idle_flags c' = idle_flags c;
  sc_isubs : idle_subscriptions c' = idle_subscriptions c;
  sc_subs : subscriptions c' = subscriptions c;
  sc_nsubs : num_subscriptions c' = num_subscriptions c;
  sc_messages : messages c' = messages c
}.

#[global] Instance same_client_po : PreOrder same_client.
Proof.
  split.
  - intros c. by split.
  - intros a b c [] []. split; congruence.
Qed.

(** Writing: the data is appended, or the connection is gone. *)
Definition wrote (data : list Z) (c c' : Client) : Prop :=
  same_client c c' ∧ PeakBuffer.inv (output c') ∧
  (expired c = true → c' = c) ∧
  (expired c' = false → expired c = false ∧ timeout c' = timeout c ∧ sent c' = sent c ++ data).

Lemma client_Write_ok data c : PeakBuffer.inv (output c) → ∃ c', Write data c = Some c' ∧ wrote data c c'.
Proof.
  intros Hi. unfold Write, wrote. destruct (expired c) eqn:Ex.
  { exists c. split_and!; [done|done|done|done|]. intros H. congruence. }
  destruct (length data =? 0)%nat eqn:E0.
  { assert (data = []) as -> by (apply nil_length_inv; lia). exists c. rewrite app_nil_r.
    by split_and!. }
  destruct (PeakBuffer.peak_Append_ok fresh fresh_length data (output c) Hi)
    as (b & -> & Hi' & Hc & _). simpl.
  destruct (length data <=? PeakBuffer.space (output c))%nat eqn:E.
  - eexists. split; [done|]. split_and!; [done|done|done|]. intros _.
    split_and!; [done|done|]. simpl. by rewrite Hc, take_ge by lia.
  - eexists. split; [done|]. unfold SetExpired. simpl. rewrite Ex. by split_and!.
Qed.

Lemma wrote_trans d1 d2 a b c : wrote d1 a b → wrote d2 b c → wrote (d1 ++ d2) a c.
Proof.
  intros (S1 & I1 & X1 & W1) (S2 & I2 & X2 & W2). split_and!; [by etrans|done| |].
  - intros H. rewrite (X1 H) in *. by apply X2.
  - intros H. destruct (W2 H) as (H2 & T2 & C2). destruct (W1 H2) as (H1 & T1 & C1).
    split_and!; [done|congruence|]. by rewrite C2, C1, app_assoc.
Qed.

(** A sequence of writes. *)
Lemma writes_ok ls c : PeakBuffer.inv (output c) →
  ∃ c', foldl (λ oc l, oc ≫= Write l)%stdpp (Some c) ls = Some c' ∧ wrote (concat ls) c c'.
Proof.
  revert c. induction ls as [|l ls IH]; intros c Hi; simpl.
  - exists c. split; [done|]. split_and!; [done|done|done|]. intros. by rewrite app_nil_r.
  - destruct (client_Write_ok l c Hi) as (c1 & -> & H1). destruct (IH c1) as (c2 & -> & H2); [apply H1|].
    exists c2. split; [done|]. by eapply wrote_trans.
Qed.

(** ** Idle notifications *)

(** The response that reports the events in [mask]. *)
Definition response (mask : Z) : list Z :=
  concat (changed_lines 0 idle_names mask) ++ str "OK" ++ [10].

(** [c] reported the events [mask] and is [c']. *)
Definition notified (mask : Z) (c c' : Client) : Prop :=
  idle_waiting c' = false ∧ idle_flags c' = 0 ∧
  idle_subscriptions c' = idle_subscriptions c ∧
  (expired c' = false → expired c = false ∧ sent c' = sent c ++ response mask).

Lemma IdleNotify_ok c : PeakBuffer.inv (output c) → idle_waiting c = true → idle_flags c ≠ 0 →
  ∃ c', IdleNotify c = Some c' ∧ notified (Z.land (idle_flags c) (idle_subscriptions c)) c c' ∧
    (expired c = true → expired c' = true) ∧ PeakBuffer.inv (output c') ∧
    num c' = num c ∧ permission c' = permission c ∧ uid c' = uid c ∧ cmd_list c' = cmd_list c ∧
    subscriptions c' = subscriptions c ∧ num_subscriptions c' = num_subscriptions c ∧
    messages c' = messages c.
Proof.
  intros Hi Hw Hf. unfold IdleNotify. rewrite Hw, !check_bind by lia.
  destruct (writes_ok (changed_lines 0 idle_names
    (Z.land (idle_flags c) (idle_subscriptions (put_idle false 0 (idle_subscriptions c) c))))
    (put_idle false 0 (idle_subscriptions c) c)) as (c1 & -> & H1); [done|].
  cbn [mbind option_bind]. destruct (client_Write_ok (str "OK" ++ [10]) c1) as (c2 & -> & H2); [apply H1|].
  pose proof (wrote_trans _ _ _ _ _ H1 H2) as (HS & HI & HX & HW). cbn [mbind option_bind].
  eexists. split; [done|]. destruct HS. simpl in *. unfold notified. simpl.
  split_and!; try congruence; try done.
  - intros Hx. destruct (HW Hx) as (E & _ & Hs). done.
  - intros Hx. by rewrite HX.
Qed.

Lemma Write_messages data c c' : Write data c = Some c' → messages c' = messages c.
Proof.
  unfold Write. destruct (expired c) eqn:Ex; [by intros [= <-]|].
  destruct (_ =? 0)%nat; [by intros [= <-]|].
  intros ([b o] & _ & [= <-])%bind_Some. destruct b; [done|].
  unfold SetExpired. simpl. by rewrite Ex.
Qed.

Lemma writes_messages ls c c' :
  foldl (λ oc l, oc ≫= Write l)%stdpp (Some c) ls = Some c' → messages c' = messages c.
Proof.
  revert c. induction ls as [|l ls IH]; intros c; simpl; [by intros [= ->]|].
  destruct (Write l c) as [c1|] eqn:E.
  - intros H. rewrite (IH _ H). by eapply Write_messages.
  - intros H. exfalso. clear IH E. induction ls; [done|]. auto.
Qed.

Lemma IdleNotify_messages c c' : IdleNotify c = Some c' → messages c' = messages c.
Proof.
  unfold IdleNotify. intros (_ & _ & (_ & _ & (c1 & H1 & (c2 & H2 & [= <-])%bind_Some)%bind_Some
    )%bind_Some)%bind_Some.
  simpl. rewrite (Write_messages _ _ _ H2). by rewrite (writes_messages _ _ _ H1).
Qed.

(** The events a waiting client would be told of. *)
Definition owed (c : Client) (flags : Z) : Z :=
  Z.land (Z.lor (idle_flags c) flags) (idle_subscriptions c).

Lemma land_ne_0 a b : Z.land a b ≠ 0 → a ≠ 0.
Proof. intros H ->. by rewrite Z.land_0_l in H. Qed.

(** [IdleAdd]: a waiting client that is owed something is told at once; otherwise the
    events are kept. *)
Lemma IdleAdd_ok c flags : client_ok c → ∃ c', IdleAdd flags c = Some c' ∧ client_ok c' ∧
  (expired c = true → expired c' = true) ∧
  (expired c = false →
   if idle_waiting c && negb (owed c flags =? 0)
   then notified (owed c flags) c c'
   else idle_waiting c' = idle_waiting c ∧ idle_flags c' = Z.lor (idle_flags c) flags ∧
        idle_subscriptions c' = idle_subscriptions c ∧ sent c' = sent c).
Proof.
  intros Hc. unfold IdleAdd. destruct (expired c) eqn:Ex; [by exists c|]. simpl.
  fold (owed c flags). destruct (idle_waiting c && negb (owed c flags =? 0)) eqn:E.
  - destruct (IdleNotify_ok (put_idle (idle_waiting c) (Z.lor (idle_flags c) flags)
      (idle_subscriptions c) c)) as (c' & -> & Hn & Hx & Hi & H1 & H2 & H3 & H4 & H5 & H6 & H7).
    + apply Hc.
    + simpl. lia.
    + simpl. apply (land_ne_0 _ (idle_subscriptions c)). unfold owed in E. lia.
    + exists c'. split; [done|]. destruct Hn as (Hw & Hf & Hs & Ho). simpl in *. split.
      * destruct Hc. split; rewrite ?Hw, ?H4, ?H5, ?H6, ?H7; done.
      * split; [done|]. intros _. by split_and!.
  - eexists. split; [done|]. split; [|done]. destruct Hc as [H1 H2 H3 H4 H5 H6]. split; simpl; try done.
    intros Hw. fold (owed c flags). rewrite Hw in E. lia.
Qed.

Lemma IdleWait_ok c subs : client_ok c → idle_waiting c = false →
  ∃ c', IdleWait subs c = Some c' ∧ client_ok c' ∧
  (expired c = true → expired c' = true) ∧
  if negb (Z.land (idle_flags c) subs =? 0)
  then idle_waiting c' = false ∧ idle_flags c' = 0 ∧
       (expired c' = false → sent c' = sent c ++ response (Z.land (idle_flags c) subs))
  else idle_waiting c' = true ∧ idle_flags c' = idle_flags c ∧ idle_subscriptions c' = subs ∧
       sent c' = sent c.
Proof.
  intros Hc Hw. unfold IdleWait. rewrite Hw, check_bind by done. simpl.
  destruct (negb (Z.land (idle_flags c) subs =? 0)) eqn:E.
  - destruct (IdleNotify_ok (put_idle true (idle_flags c) subs c))
      as (c' & -> & Hn & Hx & Hi & H1 & H2 & H3 & H4 & H5 & H6 & H7); [apply Hc|done| |].
    + simpl. apply (land_ne_0 _ subs). lia.
    + exists c'. split; [done|]. destruct Hn as (Hw' & Hf & Hs & Ho). simpl in *. split.
      * destruct Hc. split; rewrite ?Hw', ?H4, ?H5, ?H6, ?H7; done.
      * split; [done|]. split_and!; [done|done|]. intros Hx'. by apply Ho.
  - eexists. split; [done|]. destruct Hc as [H1 H2 H3 H4 H5 H6]. split; [|done].
    split; simpl; try done. lia.
Qed.

(** ** Subscriptions and messages *)

Lemma string_lt_total a b : string_lt a b = false → string_lt b a = false → a = b.
Proof.
  revert b. induction a as [|x a IH]; intros [|y b]; simpl; try done.
  intros H1 H2. assert (x = y) as -> by lia. f_equal. apply IH; lia.
Qed.

Lemma set_insert_perm x s : (x ∉ s) → set_insert x s ≡ₚ x :: s.
Proof.
  induction s as [|y s IH]; simpl; intros Hx; [done|].
  destruct (string_lt x y) eqn:E1; [done|]. destruct (string_lt y x) eqn:E2.
  - rewrite IH by set_solver. constructor.
  - exfalso. apply Hx. rewrite (string_lt_total x y) by done. set_solver.
Qed.

Lemma subscribe_client_ok chan c : client_ok c → client_ok (subscribe_client chan c).2.
Proof.
  intros Hc. unfold subscribe_client. destruct (negb _); [done|].
  destruct (_ <=? _)%nat eqn:Efull; [done|]. destruct (IsSubscribed c chan) eqn:Esub; [done|].
  simpl. destruct Hc as [H1 H2 H3 (H4 & H5 & H6) H7 H8]. unfold IsSubscribed in *.
  assert (Hni : chan ∉ subscriptions c) by (by eapply bool_decide_eq_false_1).
  pose proof (set_insert_perm chan _ Hni) as Hp.
  split; simpl; try done. rewrite Hp. split_and!; [simpl; lia|simpl; lia|]. by constructor.
Qed.

Lemma filter_ne_length (x : list Z) s : NoDup s → x ∈ s →
  S (length (filter (λ y, y ≠ x) s)) = length s.
Proof.
  induction 1 as [|y s Hy Hs IH]; [set_solver|]. intros Hx.
  destruct (decide (y = x)) as [->|Hne].
  - rewrite filter_cons_False by (by intros []). simpl. f_equal.
    assert (filter (λ y, y ≠ x) s = s) as ->; [|done].
    clear -Hy. induction s as [|z s IH]; [done|].
    rewrite filter_cons_True by set_solver. f_equal. apply IH. set_solver.
  - rewrite filter_cons_True by done. simpl. f_equal. apply IH. set_solver.
Qed.

Lemma unsubscribe_client_ok chan c : client_ok c →
  ∃ b c', unsubscribe_client chan c = Some (b, c') ∧ client_ok c'.
Proof.
  intros Hc. unfold unsubscribe_client, IsSubscribed.
  destruct (bool_decide (chan ∈ subscriptions c)) eqn:E; simpl; [|by eexists _, _].
  apply bool_decide_eq_true in E. destruct Hc as [H1 H2 H3 (H4 & H5 & H6) H7 H8].
  pose proof (filter_ne_length chan _ H6 E) as Hl.
  rewrite check_bind by lia. rewrite check_bind.
  2: { rewrite H4. apply eqb_true_iff. destruct (filter _ _) eqn:Ef; simpl in *.
       - try rewrite bool_decide_true by done. lia.
       - try rewrite bool_decide_false by done. lia. }
  eexists _, _. split; [done|]. split; simpl; try done.
  split_and!; [lia|lia|]. by apply NoDup_filter.
Qed.

Lemma PushMessage_ok msg c : client_ok c → ∃ b c', PushMessage msg c = Some (b, c') ∧ client_ok c'.
Proof.
  intros Hc. unfold PushMessage.
  destruct ((CLIENT_MAX_MESSAGES <=? length (messages c))%nat || _) eqn:E; [by eexists _, _|].
  assert (H : ∃ c1, (if bool_decide (messages c = []) then IdleAdd IDLE_MESSAGE c else Some c)
    = Some c1 ∧ client_ok c1 ∧ messages c1 = messages c).
  { destruct (bool_decide (messages c = [])); [|by eexists].
    destruct (IdleAdd_ok c IDLE_MESSAGE Hc) as (c1 & H1 & Hc1 & _). exists c1.
    split_and!; [done|done|]. unfold IdleAdd in H1. destruct (expired c); [by simplify_eq|].
    destruct (_ && _); [|by simplify_eq]. apply IdleNotify_messages in H1. done. }
  destruct H as (c1 & -> & Hc1 & Hm). eexists _, _. split; [done|].
  destruct Hc1 as [H1 H2 H3 H4 H5 H6]. split; simpl; try done.
  rewrite length_app, Hm. simpl. lia.
Qed.

(** ** No event is lost

    The life of a client that always asks for all events: events arrive, it enters idle
    mode, it leaves idle mode. *)

Inductive idle_op := Event (flags : Z) | Idle | NoIdle.

Definition ALL : Z := 2 ^ 32 - 1.

Definition idle_step (o : idle_op) (c : Client) : option Client :=
  match o with
  | Event flags => IdleAdd flags c
  | Idle => if idle_waiting c then Some c else IdleWait ALL c
  | NoIdle =>
      if idle_waiting c
      then Write (str "OK" ++ [10]) (put_idle false (idle_flags c) (idle_subscriptions c) c)
      else Some c
  end.

Definition idle_run (ops : list idle_op) (c : Client) : option Client :=
  foldl (λ oc o, oc ≫= idle_step o)%stdpp (Some c) ops.

Definition event_of (o : idle_op) : Z := match o with Event f => f | _ => 0 end.
Definition union_of (l : list Z) : Z := foldr Z.lor 0 l.
Definition is_mask (z : Z) : Prop := 0 ≤ z < 2 ^ 32.

Lemma land_ALL z : is_mask z → Z.land z ALL = z.
Proof.
  intros Hz. unfold ALL. replace (2 ^ 32 - 1) with (Z.ones 32) by done.
  rewrite Z.land_ones by done. by apply Z.mod_small.
Qed.

Lemma lor_mask a b : is_mask a → is_mask b → is_mask (Z.lor a b).
Proof.
  unfold is_mask. intros Ha Hb. split; [apply Z.lor_nonneg; lia|].
  destruct (decide (Z.lor a b = 0)) as [->|Hne]; [lia|].
  apply Z.log2_lt_pow2; [pose proof (Z.lor_nonneg a b); lia|].
  rewrite Z.log2_lor by lia.
  assert (∀ x, 0 ≤ x < 2 ^ 32 → Z.log2 x < 32) as Hlog.
  { intros x Hx. destruct (decide (x = 0)) as [->|]; [done|]. apply Z.log2_lt_pow2; lia. }
  apply Z.max_lub_lt; by apply Hlog.
Qed.

(** The client asks for everything while it waits. *)
Definition listening (c : Client) : Prop :=
  client_ok c ∧ is_mask (idle_flags c) ∧ (idle_waiting c = true → idle_subscriptions c = ALL).

(** [masks] were reported between [c] and [c'], and the rest of [added] is still pending. *)
Definition accounted (added : Z) (c c' : Client) : Prop :=
  expired c' = true ∨
  ∃ masks, sent c' = sent c ++ concat (response <$> masks) ∧
    Z.lor (union_of masks) (idle_flags c') = Z.lor (idle_flags c) added.

Lemma accounted_refl c : accounted 0 c c.
Proof. right. exists []. rewrite app_nil_r, Z.lor_0_r. done. Qed.

Lemma union_of_app l1 l2 : union_of (l1 ++ l2) = Z.lor (union_of l1) (union_of l2).
Proof.
  unfold union_of. induction l1 as [|x l1 IH]; simpl; [by rewrite Z.lor_0_l|].
  by rewrite IH, Z.lor_assoc.
Qed.

Lemma accounted_trans a b c1 c2 c3 : (expired c2 = true → expired c3 = true) →
  accounted a c1 c2 → accounted b c2 c3 → accounted (Z.lor a b) c1 c3.
Proof.
  intros Hx [H|(m1 & S1 & E1)]; [by left; apply Hx|]. intros [H|(m2 & S2 & E2)]; [by left|].
  right. exists (m1 ++ m2). split.
  - rewrite S2, S1, fmap_app, concat_app. by rewrite app_assoc.
  - rewrite union_of_app, <-Z.lor_assoc, E2, Z.lor_assoc, E1. by rewrite Z.lor_assoc.
Qed.

Lemma idle_step_ok o c : listening c → is_mask (event_of o) →
  ∃ c', idle_step o c = Some c' ∧ listening c' ∧ accounted (event_of o) c c' ∧
    (expired c = true → expired c' = true).
Proof.
  intros (Hc & Hm & Hs) Hf. destruct o as [f| |]; simpl in *.
  - destruct (IdleAdd_ok c f Hc) as (c' & Heq & Hc' & Hx & Hn). rewrite Heq. exists c'.
    split; [done|]. destruct (expired c) eqn:Ex.
    { unfold IdleAdd in Heq. rewrite Ex in Heq. simplify_eq. split_and!; [by refine (conj _ (conj _ _))|by left|done]. }
    specialize (Hn eq_refl). unfold owed in Hn.
    destruct (idle_waiting c && negb (Z.land (Z.lor (idle_flags c) f) (idle_subscriptions c) =? 0))
      eqn:E.
    + destruct Hn as (Hw & Hf0 & Hs' & Ho). split_and!; [|  |done].
      * refine (conj _ (conj _ _)); [done|rewrite Hf0; done|by rewrite Hw].
      * destruct (expired c') eqn:Ex'; [by left|right]. destruct (Ho eq_refl) as [_ Hsent].
        rewrite Hs, land_ALL in Hsent by (first [lia|by apply lor_mask]).
        exists [Z.lor (idle_flags c) f]. simpl. rewrite app_nil_r, Hf0, !Z.lor_0_r. done.
    + destruct Hn as (Hw & Hf1 & Hs' & Ho). split_and!; [| |done].
      * refine (conj _ (conj _ _)); [done|rewrite Hf1; by apply lor_mask|by rewrite Hw, Hs'].
      * right. exists []. simpl. by rewrite app_nil_r, Hf1.
  - destruct (idle_waiting c) eqn:Ew.
    { exists c. split_and!; [done| |apply accounted_refl|done].
      refine (conj _ (conj _ _)); [done|done|]. intros _. by apply Hs. }
    destruct (IdleWait_ok c ALL Hc Ew) as (c' & -> & Hc' & Hx & Hn). exists c'. split; [done|].
    rewrite land_ALL in Hn by done. destruct (negb (idle_flags c =? 0)).
    + destruct Hn as (Hw & Hf0 & Ho). split_and!; [| |done].
      * refine (conj _ (conj _ _)); [done|rewrite Hf0; done|by rewrite Hw].
      * destruct (expired c') eqn:Ex'; [by left|right]. exists [idle_flags c]. simpl.
        by rewrite app_nil_r, Hf0, !Z.lor_0_r, (Ho eq_refl).
    + destruct Hn as (Hw & Hf1 & Hs' & Ho). split_and!; [| |done].
      * refine (conj _ (conj _ _)); [done|by rewrite Hf1|done].
      * right. exists []. simpl. by rewrite app_nil_r, Hf1, Z.lor_0_r.
  - destruct (idle_waiting c) eqn:Ew; [|exists c; split_and!; [done| |apply accounted_refl|done]].
    2: { refine (conj _ (conj _ _)); [done|done|by rewrite Ew]. }
    destruct (client_Write_ok (str "OK" ++ [10]) (put_idle false (idle_flags c) (idle_subscriptions c) c))
      as (c' & Heq & HS & HI & HX & HW); [apply Hc|]. exists c'. split; [exact Heq|]. clear Heq.
    destruct HS. simpl in *. split_and!.
    + refine (conj _ (conj _ _)); [|congruence|by rewrite sc_waiting0]. destruct Hc.
      split; rewrite ?sc_waiting0, ?sc_nsubs0, ?sc_subs0, ?sc_messages0, ?sc_list0; done.
    + destruct (expired c') eqn:Ex'; [by left|right]. exists [0].
      destruct (HW eq_refl) as (_ & _ & ->). split; [done|]. rewrite sc_flags0, Z.lor_0_r. done.
    + intros Hx. by rewrite (HX Hx).
Qed.

Lemma idle_run_cons o ops c : idle_run (o :: ops) c = (idle_step o c ≫= idle_run ops)%stdpp.
Proof.
  unfold idle_run. simpl. destruct (idle_step o c) as [c'|]; simpl; [done|].
  by induction ops.
Qed.

Lemma idle_run_ok ops c : listening c → Forall (λ o, is_mask (event_of o)) ops →
  ∃ c', idle_run ops c = Some c' ∧ listening c' ∧ accounted (union_of (event_of <$> ops)) c c' ∧
    (expired c = true → expired c' = true).
Proof.
  intros Hc Hops. revert c Hc. induction Hops as [|o ops Ho Hops IH]; intros c Hc.
  - exists c. split_and!; [done|done|apply accounted_refl|done].
  - rewrite idle_run_cons. destruct (idle_step_ok o c Hc Ho) as (c1 & -> & Hl1 & Ha1 & Hx1).
    destruct (IH c1 Hl1) as (c2 & H2 & Hl2 & Ha2 & Hx2). exists c2.
    split_and!; [done|done| |by auto]. simpl. by eapply accounted_trans.
Qed.

(** The events as the protocol names them, with their bits. *)
Definition event_table : list (Z * list Z) :=
  [(0x1, str "database"); (0x2, str "stored_playlist"); (0x4, str "playlist");
   (0x8, str "player"); (0x10, str "mixer"); (0x20, str "output"); (0x40, str "options");
   (0x80, str "sticker"); (0x100, str "update"); (0x200, str "subscription");
   (0x400, str "message"); (0x800, str "neighbor"); (0x1000, str "mount")].

(** The protocol's answer for the events in [mask]: one line per event, in the order of
    the table, then [OK]. *)
Definition report (mask : Z) : list Z :=
  concat ((λ e, str "changed: " ++ e.2 ++ [10]) <$>
    filter (λ e, Z.land mask e.1 ≠ 0) event_table) ++ str "OK" ++ [10].

Lemma testbit_land m i : 0 ≤ i → Z.testbit m i = negb (Z.land m (2 ^ i) =? 0).
Proof.
  intros Hi. rewrite Z.land_comm, <-Z.shiftl_1_l. destruct (Z.testbit m i) eqn:E; symmetry.
  - apply negb_true_iff, Z.eqb_neq. intros H0.
    assert (H : Z.testbit (Z.land (Z.shiftl 1 i) m) i = false) by (rewrite H0; apply Z.bits_0).
    rewrite Z.land_spec, Z.shiftl_1_l, Z.pow2_bits_true, E in H by done. discriminate H.
  - apply negb_false_iff, Z.eqb_eq. apply Z.bits_inj_0. intros j.
    rewrite Z.land_spec, Z.shiftl_1_l.
    destruct (decide (i = j)) as [<-|Hne]; [by rewrite E, andb_false_r|].
    by rewrite Z.pow2_bits_false.
Qed.

(** [names] from bit [i] on against a table. *)
Lemma changed_lines_table mask names : ∀ i table, 0 ≤ i →
  table.*2 = names → table.*1 = (λ k, 2 ^ (i + Z.of_nat k)) <$> seq 0 (length names) →
  changed_lines i names mask
  = (λ e : Z * list Z, str "changed: " ++ e.2 ++ [10]) <$> filter (λ e, Z.land mask e.1 ≠ 0) table.
Proof.
  induction names as [|n names IH]; intros i table Hi Hn Hb; (destruct table as [|[b n'] table];
    [done || discriminate Hn|]); [discriminate Hn|].
  simpl in Hn, Hb. injection Hn as -> Hn. injection Hb as Hb0 Hb. rewrite Z.add_0_r in Hb0.
  cbn [changed_lines]. rewrite (IH (i + 1) table); [|lia|done|].
  2: { etransitivity; [exact Hb|]. rewrite <-seq_shift, <-list_fmap_compose. apply list_fmap_ext. intros _ k _.
       unfold compose. f_equal. lia. }
  rewrite testbit_land by done. rewrite filter_cons. simpl. subst b.
  destruct (Z.land mask (2 ^ i) =? 0) eqn:E; simpl.
  - rewrite decide_False; [done|]. lia.
  - rewrite decide_True; [done|]. lia.
Qed.

Lemma response_report mask : response mask = report mask.
Proof.
  unfold response, report. f_equal. f_equal. by apply (changed_lines_table mask idle_names 0).
Qed.

(** C31: no event is lost on a client that asks for all events, and none is invented.  In
    whatever order events occur and the client enters and leaves idle mode, no assertion
    fails; while the client waits nothing is pending for it; and, unless its connection
    broke, what it was sent are answers of the protocol (a line [changed: name] for each
    reported event of the protocol's table of thirteen, then [OK]) whose reported events,
    together with those still pending, are exactly the events that occurred. *)
Theorem idle_events_delivered ops c :
  client_ok c → idle_waiting c = false → idle_flags c = 0 →
  Forall (λ o, is_mask (event_of o)) ops →
  ∃ c', idle_run ops c = Some c' ∧ client_ok c' ∧
    (idle_waiting c' = true → idle_flags c' = 0) ∧
    (expired c' = true ∨ ∃ masks, sent c' = sent c ++ concat (report <$> masks) ∧
       Z.lor (union_of masks) (idle_flags c') = union_of (event_of <$> ops)).
Proof.
  intros Hc Hw Hf Hops. destruct (idle_run_ok ops c) as (c' & Heq & (Hc' & Hm & Hs) & Ha & _).
  - refine (conj _ (conj _ _)); [done|by rewrite Hf|by rewrite Hw].
  - done.
  - exists c'. split_and!; [done|done| |].
    + intros Hw'. pose proof (co_idle _ Hc' Hw') as H0. rewrite (Hs Hw'), land_ALL in H0 by done.
      done.
    + destruct Ha as [Ha|(masks & H1 & H2)]; [by left|right]. exists masks.
      rewrite <-(list_fmap_ext response report masks) by (intros; apply response_report).
      split; [done|]. by rewrite H2, Hf, Z.lor_0_l.
Qed.

End Facts.

#[local] Instance demo_config : ClientConfig := {|
  client_timeout := 60; client_max_command_list_size := 2048; client_max_output_buffer_size := 64;
  fresh n := replicate n 0; fresh_length n := length_replicate n 0
|}.

Lemma idle_events_delivered_witness :
  let c := make 0 (-1) 15 (0, 0%nat) in
  ∃ c', idle_run [Event IDLE_PLAYER; Idle; Idle; Event IDLE_MIXER] c = Some c' ∧ client_ok c' ∧
    (idle_waiting c' = true → idle_flags c' = 0) ∧
    (expired c' = true ∨ ∃ masks,
       PeakBuffer.contents (output c') = PeakBuffer.contents (output c) ++ concat (report <$> masks) ∧
       Z.lor (union_of masks) (idle_flags c')
       = union_of (event_of <$> [Event IDLE_PLAYER; Idle; Idle; Event IDLE_MIXER])).
Proof.
  apply idle_events_delivered; [apply make_ok|done|done|]. repeat constructor; done.
Defined.

End ClientFacts.
