(* ===== verification/CommandTable.v ===== *)
(** * The command table

    [Permission.cxx], and the registry of [command/AllCommands.cxx] with its lookup and
    the checks made before a handler runs.  The table is the one of a build with all
    options. *)

From Stdlib Require Import ZArith Lia ZifyBool Sorting.
From stdpp Require Import base numbers sets strings list sorting.
From S2P Require Import Prelude CString Prog.

Set Default Goal Selector "!".

(** ** Permissions *)

Module Permission.
Local Open Scope Z_scope.

Definition PERMISSION_NONE : Z := 0.
Definition PERMISSION_READ : Z := 1.
Definition PERMISSION_ADD : Z := 2.
Definition PERMISSION_CONTROL : Z := 4.
Definition PERMISSION_ADMIN : Z := 8.

Definition permission_names : list (list Z * Z) :=
  [(str "read", PERMISSION_READ); (str "add", PERMISSION_ADD);
   (str "control", PERMISSION_CONTROL); (str "admin", PERMISSION_ADMIN)].

(** [None] is the fatal error for an unknown name. *)
Fixpoint ParsePermission_in (names : list (list Z * Z)) (p : list Z) : option Z :=
  match names with
  | [] => None
  | (name, v) :: names => if CString.streq p name then Some v else ParsePermission_in names p
  end.
Definition ParsePermission (p : list Z) : option Z := ParsePermission_in permission_names p.

(** The loop over the comma-separated names; empty names are skipped. *)
Fixpoint parsePermissions_loop (fuel : nat) (s : list Z) (permission : Z) : option Z :=
  match fuel with
  | O => None
  | S fuel =>
      let comma := default (length s) (CString.strchr s 44) in
      permission ←
        (if (0 <? comma)%nat
         then v ← ParsePermission (take comma s); Some (Z.lor permission v)
         else Some permission);
      if (comma =? length s)%nat then Some permission
      else parsePermissions_loop fuel (drop (S comma) s) permission
  end.
Definition parsePermissions (s : list Z) : option Z := parsePermissions_loop (S (length s)) s 0.

(** The passwords with their permissions and the default permissions. *)
Record permissions := mkPermissions {
  permission_passwords : list (list Z * Z);
  permission_default : Z
}.

(** [std::map::insert] keeps an existing entry. *)
Definition insert_password (pw : list Z) (v : Z) (l : list (list Z * Z)) : list (list Z * Z) :=
  if bool_decide (pw ∈ l.*1) then l else l ++ [(pw, v)].

Fixpoint add_passwords (params : list (list Z)) (l : list (list Z * Z))
    : option (list (list Z * Z)) :=
  match params with
  | [] => Some l
  | value :: params =>
      separator ← CString.strchr value 64;
      permission ← parsePermissions (drop (S separator) value);
      add_passwords params (insert_password (take separator value) permission l)
  end.

(** [initPermissions], with the values of the [password] and [default_permissions]
    settings; [None] is a fatal error. *)
Definition initPermissions (passwords : list (list Z)) (default_perms : option (list Z))
    : option permissions :=
  l ← add_passwords passwords [];
  let d := match passwords with
           | [] => Z.lor (Z.lor PERMISSION_READ PERMISSION_ADD)
                         (Z.lor PERMISSION_CONTROL PERMISSION_ADMIN)
           | _ => 0
           end in
  d ← match default_perms with
      | Some value => parsePermissions value
      | None => Some d
      end;
  Some (mkPermissions l d).

(** [-1] is [None]. *)
Definition getPermissionFromPassword (p : permissions) (password : list Z) : option Z :=
  snd <$> (snd <$> list_find (λ e, e.1 = password) (permission_passwords p)).

Definition getDefaultPermissions (p : permissions) : Z := permission_default p.

End Permission.

(** ** The registry *)

Module CommandTable.
Import Permission.
Local Open Scope Z_scope.

Inductive handler :=
| HANDLE_ADD | HANDLE_ADDID | HANDLE_ADDTAGID | HANDLE_CHANNELS | HANDLE_CLEAR
| HANDLE_CLEARERROR | HANDLE_CLEARTAGID | HANDLE_CLOSE | HANDLE_COMMANDS | HANDLE_CONFIG
| HANDLE_CONSUME | HANDLE_COUNT | HANDLE_CROSSFADE | HANDLE_CURRENTSONG | HANDLE_DECODERS
| HANDLE_DELETE | HANDLE_DELETEID | HANDLE_DISABLEOUTPUT | HANDLE_ENABLEOUTPUT | HANDLE_FIND
| HANDLE_FINDADD | HANDLE_IDLE | HANDLE_KILL | HANDLE_LIST | HANDLE_LISTALL
| HANDLE_LISTALLINFO | HANDLE_LISTFILES | HANDLE_LISTMOUNTS | HANDLE_LISTNEIGHBORS
| HANDLE_LISTPLAYLIST | HANDLE_LISTPLAYLISTINFO | HANDLE_LISTPLAYLISTS | HANDLE_LOAD
| HANDLE_LSINFO | HANDLE_MIXRAMPDB | HANDLE_MIXRAMPDELAY | HANDLE_MOUNT | HANDLE_MOVE
| HANDLE_MOVEID | HANDLE_NEXT | HANDLE_NOT_COMMANDS | HANDLE_DEVICES | HANDLE_PASSWORD
| HANDLE_PAUSE | HANDLE_PING | HANDLE_PLAY | HANDLE_PLAYID | HANDLE_PLAYLIST
| HANDLE_PLAYLISTADD | HANDLE_PLAYLISTCLEAR | HANDLE_PLAYLISTDELETE | HANDLE_PLAYLISTFIND
| HANDLE_PLAYLISTID | HANDLE_PLAYLISTINFO | HANDLE_PLAYLISTMOVE | HANDLE_PLAYLISTSEARCH
| HANDLE_PLCHANGES | HANDLE_PLCHANGESPOSID | HANDLE_PREVIOUS | HANDLE_PRIO | HANDLE_PRIOID
| HANDLE_RANDOM | HANDLE_RANGEID | HANDLE_READ_COMMENTS | HANDLE_READ_MESSAGES | HANDLE_RENAME
| HANDLE_REPEAT | HANDLE_REPLAY_GAIN_MODE | HANDLE_REPLAY_GAIN_STATUS | HANDLE_RESCAN
| HANDLE_RM | HANDLE_SAVE | HANDLE_SEARCH | HANDLE_SEARCHADD | HANDLE_SEARCHADDPL | HANDLE_SEEK
| HANDLE_SEEKCUR | HANDLE_SEEKID | HANDLE_SEND_MESSAGE | HANDLE_SETVOL | HANDLE_SHUFFLE
| HANDLE_SINGLE | HANDLE_STATS | HANDLE_STATUS | HANDLE_STICKER | HANDLE_STOP
| HANDLE_SUBSCRIBE | HANDLE_SWAP | HANDLE_SWAPID | HANDLE_TAGTYPES | HANDLE_TOGGLEOUTPUT
| HANDLE_UNMOUNT | HANDLE_UNSUBSCRIBE | HANDLE_UPDATE | HANDLE_URLHANDLERS | HANDLE_VOLUME.

Record command := mkCommand {
  cmd : list Z;
  permission : Z;
  min : Z;
  max : Z;
  handle : handler
}.

Definition commands : list command :=
  [mkCommand (str "add") PERMISSION_ADD 1 1 HANDLE_ADD;
   mkCommand (str "addid") PERMISSION_ADD 1 2 HANDLE_ADDID;
   mkCommand (str "addtagid") PERMISSION_ADD 3 3 HANDLE_ADDTAGID;
   mkCommand (str "channels") PERMISSION_READ 0 0 HANDLE_CHANNELS;
   mkCommand (str "clear") PERMISSION_CONTROL 0 0 HANDLE_CLEAR;
   mkCommand (str "clearerror") PERMISSION_CONTROL 0 0 HANDLE_CLEARERROR;
   mkCommand (str "cleartagid") PERMISSION_ADD 1 2 HANDLE_CLEARTAGID;
   mkCommand (str "close") PERMISSION_NONE (-1) (-1) HANDLE_CLOSE;
   mkCommand (str "commands") PERMISSION_NONE 0 0 HANDLE_COMMANDS;
   mkCommand (str "config") PERMISSION_ADMIN 0 0 HANDLE_CONFIG;
   mkCommand (str "consume") PERMISSION_CONTROL 1 1 HANDLE_CONSUME;
   mkCommand (str "count") PERMISSION_READ 2 (-1) HANDLE_COUNT;
   mkCommand (str "crossfade") PERMISSION_CONTROL 1 1 HANDLE_CROSSFADE;
   mkCommand (str "currentsong") PERMISSION_READ 0 0 HANDLE_CURRENTSONG;
   mkCommand (str "decoders") PERMISSION_READ 0 0 HANDLE_DECODERS;
   mkCommand (str "delete") PERMISSION_CONTROL 1 1 HANDLE_DELETE;
   mkCommand (str "deleteid") PERMISSION_CONTROL 1 1 HANDLE_DELETEID;
   mkCommand (str "disableoutput") PERMISSION_ADMIN 1 1 HANDLE_DISABLEOUTPUT;
   mkCommand (str "enableoutput") PERMISSION_ADMIN 1 1 HANDLE_ENABLEOUTPUT;
   mkCommand (str "find") PERMISSION_READ 2 (-1) HANDLE_FIND;
   mkCommand (str "findadd") PERMISSION_ADD 2 (-1) HANDLE_FINDADD;
   mkCommand (str "idle") PERMISSION_READ 0 (-1) HANDLE_IDLE;
   mkCommand (str "kill") PERMISSION_ADMIN (-1) (-1) HANDLE_KILL;
   mkCommand (str "list") PERMISSION_READ 1 (-1) HANDLE_LIST;
   mkCommand (str "listall") PERMISSION_READ 0 1 HANDLE_LISTALL;
   mkCommand (str "listallinfo") PERMISSION_READ 0 1 HANDLE_LISTALLINFO;
   mkCommand (str "listfiles") PERMISSION_READ 0 1 HANDLE_LISTFILES;
   mkCommand (str "listmounts") PERMISSION_READ 0 0 HANDLE_LISTMOUNTS;
   mkCommand (str "listneighbors") PERMISSION_READ 0 0 HANDLE_LISTNEIGHBORS;
   mkCommand (str "listplaylist") PERMISSION_READ 1 1 HANDLE_LISTPLAYLIST;
   mkCommand (str "listplaylistinfo") PERMISSION_READ 1 1 HANDLE_LISTPLAYLISTINFO;
   mkCommand (str "listplaylists") PERMISSION_READ 0 0 HANDLE_LISTPLAYLISTS;
   mkCommand (str "load") PERMISSION_ADD 1 2 HANDLE_LOAD;
   mkCommand (str "lsinfo") PERMISSION_READ 0 1 HANDLE_LSINFO;
   mkCommand (str "mixrampdb") PERMISSION_CONTROL 1 1 HANDLE_MIXRAMPDB;
   mkCommand (str "mixrampdelay") PERMISSION_CONTROL 1 1 HANDLE_MIXRAMPDELAY;
   mkCommand (str "mount") PERMISSION_ADMIN 2 2 HANDLE_MOUNT;
   mkCommand (str "move") PERMISSION_CONTROL 2 2 HANDLE_MOVE;
   mkCommand (str "moveid") PERMISSION_CONTROL 2 2 HANDLE_MOVEID;
   mkCommand (str "next") PERMISSION_CONTROL 0 0 HANDLE_NEXT;
   mkCommand (str "notcommands") PERMISSION_NONE 0 0 HANDLE_NOT_COMMANDS;
   mkCommand (str "outputs") PERMISSION_READ 0 0 HANDLE_DEVICES;
   mkCommand (str "password") PERMISSION_NONE 1 1 HANDLE_PASSWORD;
   mkCommand (str "pause") PERMISSION_CONTROL 0 1 HANDLE_PAUSE;
   mkCommand (str "ping") PERMISSION_NONE 0 0 HANDLE_PING;
   mkCommand (str "play") PERMISSION_CONTROL 0 1 HANDLE_PLAY;
   mkCommand (str "playid") PERMISSION_CONTROL 0 1 HANDLE_PLAYID;
   mkCommand (str "playlist") PERMISSION_READ 0 0 HANDLE_PLAYLIST;
   mkCommand (str "playlistadd") PERMISSION_CONTROL 2 2 HANDLE_PLAYLISTADD;
   mkCommand (str "playlistclear") PERMISSION_CONTROL 1 1 HANDLE_PLAYLISTCLEAR;
   mkCommand (str "playlistdelete") PERMISSION_CONTROL 2 2 HANDLE_PLAYLISTDELETE;
   mkCommand (str "playlistfind") PERMISSION_READ 2 (-1) HANDLE_PLAYLISTFIND;
   mkCommand (str "playlistid") PERMISSION_READ 0 1 HANDLE_PLAYLISTID;
   mkCommand (str "playlistinfo") PERMISSION_READ 0 1 HANDLE_PLAYLISTINFO;
   mkCommand (str "playlistmove") PERMISSION_CONTROL 3 3 HANDLE_PLAYLISTMOVE;
   mkCommand (str "playlistsearch") PERMISSION_READ 2 (-1) HANDLE_PLAYLISTSEARCH;
   mkCommand (str "plchanges") PERMISSION_READ 1 2 HANDLE_PLCHANGES;
   mkCommand (str "plchangesposid") PERMISSION_READ 1 2 HANDLE_PLCHANGESPOSID;
   mkCommand (str "previous") PERMISSION_CONTROL 0 0 HANDLE_PREVIOUS;
   mkCommand (str "prio") PERMISSION_CONTROL 2 (-1) HANDLE_PRIO;
   mkCommand (str "prioid") PERMISSION_CONTROL 2 (-1) HANDLE_PRIOID;
   mkCommand (str "random") PERMISSION_CONTROL 1 1 HANDLE_RANDOM;
   mkCommand (str "rangeid") PERMISSION_ADD 2 2 HANDLE_RANGEID;
   mkCommand (str "readcomments") PERMISSION_READ 1 1 HANDLE_READ_COMMENTS;
   mkCommand (str "readmessages") PERMISSION_READ 0 0 HANDLE_READ_MESSAGES;
   mkCommand (str "rename") PERMISSION_CONTROL 2 2 HANDLE_RENAME;
   mkCommand (str "repeat") PERMISSION_CONTROL 1 1 HANDLE_REPEAT;
   mkCommand (str "replay_gain_mode") PERMISSION_CONTROL 1 1 HANDLE_REPLAY_GAIN_MODE;
   mkCommand (str "replay_gain_status") PERMISSION_READ 0 0 HANDLE_REPLAY_GAIN_STATUS;
   mkCommand (str "rescan") PERMISSION_CONTROL 0 1 HANDLE_RESCAN;
   mkCommand (str "rm") PERMISSION_CONTROL 1 1 HANDLE_RM;
   mkCommand (str "save") PERMISSION_CONTROL 1 1 HANDLE_SAVE;
   mkCommand (str "search") PERMISSION_READ 2 (-1) HANDLE_SEARCH;
   mkCommand (str "searchadd") PERMISSION_ADD 2 (-1) HANDLE_SEARCHADD;
   mkCommand (str "searchaddpl") PERMISSION_CONTROL 3 (-1) HANDLE_SEARCHADDPL;
   mkCommand (str "seek") PERMISSION_CONTROL 2 2 HANDLE_SEEK;
   mkCommand (str "seekcur") PERMISSION_CONTROL 1 1 HANDLE_SEEKCUR;
   mkCommand (str "seekid") PERMISSION_CONTROL 2 2 HANDLE_SEEKID;
   mkCommand (str "sendmessage") PERMISSION_CONTROL 2 2 HANDLE_SEND_MESSAGE;
   mkCommand (str "setvol") PERMISSION_CONTROL 1 1 HANDLE_SETVOL;
   mkCommand (str "shuffle") PERMISSION_CONTROL 0 1 HANDLE_SHUFFLE;
   mkCommand (str "single") PERMISSION_CONTROL 1 1 HANDLE_SINGLE;
   mkCommand (str "stats") PERMISSION_READ 0 0 HANDLE_STATS;
   mkCommand (str "status") PERMISSION_READ 0 0 HANDLE_STATUS;
   mkCommand (str "sticker") PERMISSION_ADMIN 3 (-1) HANDLE_STICKER;
   mkCommand (str "stop") PERMISSION_CONTROL 0 0 HANDLE_STOP;
   mkCommand (str "subscribe") PERMISSION_READ 1 1 HANDLE_SUBSCRIBE;
   mkCommand (str "swap") PERMISSION_CONTROL 2 2 HANDLE_SWAP;
   mkCommand (str "swapid") PERMISSION_CONTROL 2 2 HANDLE_SWAPID;
   mkCommand (str "tagtypes") PERMISSION_READ 0 0 HANDLE_TAGTYPES;
   mkCommand (str "toggleoutput") PERMISSION_ADMIN 1 1 HANDLE_TOGGLEOUTPUT;
   mkCommand (str "unmount") PERMISSION_ADMIN 1 1 HANDLE_UNMOUNT;
   mkCommand (str "unsubscribe") PERMISSION_READ 1 1 HANDLE_UNSUBSCRIBE;
   mkCommand (str "update") PERMISSION_CONTROL 0 1 HANDLE_UPDATE;
   mkCommand (str "urlhandlers") PERMISSION_READ 0 0 HANDLE_URLHANDLERS;
   mkCommand (str "volume") PERMISSION_CONTROL 1 1 HANDLE_VOLUME].

Definition num_commands : nat := length commands.

(** The sign of [strcmp(a, b)]. *)
Fixpoint strcmp (a b : list Z) : comparison :=
  match a, b with
  | [], [] => Eq
  | [], _ :: _ => Lt
  | _ :: _, [] => Gt
  | x :: a, y :: b => match x ?= y with Eq => strcmp a b | c => c end
  end.

(** The binary search; the inner [option] is the returned pointer. *)
Fixpoint lookup_loop (table : list command) (fuel : nat) (name : list Z) (a b : nat)
    : option (option command) :=
  match fuel with
  | O => None
  | S fuel =>
      let i := ((a + b) / 2)%nat in
      c ← table !! i;
      match strcmp name (cmd c) with
      | Eq => Some (Some c)
      | Lt => if (a <? i)%nat then lookup_loop table fuel name a i else Some None
      | Gt => if (i + 1 <? b)%nat then lookup_loop table fuel name (i + 1) b else Some None
      end
  end.

Definition command_lookup (name : list Z) : option (option command) :=
  lookup_loop commands (S num_commands) name 0 num_commands.

(** What [command_check_request] finds: nothing wrong, or the error it reports. *)
Inductive request_error :=
| NoPermission | WrongNumberOfArguments | TooFewArguments | TooManyArguments.

Definition command_check_request (c : command) (_permission : Z) (size : nat)
    : option request_error :=
  if negb (permission c =? Z.land _permission (permission c)) then Some NoPermission
  else if min c <? 0 then None
  else if (min c =? max c) && negb (max c =? Z.of_nat size) then Some WrongNumberOfArguments
  else if Z.of_nat size <? min c then Some TooFewArguments
  else if (0 <=? max c) && (max c <? Z.of_nat size) then Some TooManyArguments
  else None.

(** [command_available], given the state of the features it asks for. *)
Definition command_available (sticker_enabled neighbors playlists : bool) (c : command) : bool :=
  if CString.streq (cmd c) (str "sticker") then sticker_enabled
  else if CString.streq (cmd c) (str "listneighbors") then neighbors
  else if existsb (CString.streq (cmd c))
    [str "save"; str "rm"; str "rename"; str "playlistdelete"; str "playlistmove";
     str "playlistclear"; str "playlistadd"; str "listplaylists"] then playlists
  else true.

(** The lines of [PrintAvailableCommands] and [PrintUnavailableCommands]. *)
Definition command_line (c : command) : list Z := str "command: " ++ cmd c ++ [10].
Definition PrintAvailableCommands (available : command → bool) (_permission : Z) : list (list Z) :=
  command_line <$> filter (λ c, permission c = Z.land _permission (permission c) ∧
                                available c = true) commands.
Definition PrintUnavailableCommands (_permission : Z) : list (list Z) :=
  command_line <$> filter (λ c, permission c ≠ Z.land _permission (permission c)) commands.

(** ** Properties *)

Lemma strcmp_eq a b : strcmp a b = Eq ↔ a = b.
Proof.
  revert b. induction a as [|x a IH]; intros [|y b]; simpl; try done.
  destruct (Z.compare_spec x y) as [->| |]; [|naive_solver lia|naive_solver lia].
  rewrite IH. split; [by intros ->|by intros [= ->]].
Qed.

Lemma strcmp_antisym a b : strcmp b a = CompOpp (strcmp a b).
Proof.
  revert b. induction a as [|x a IH]; intros [|y b]; simpl; try done.
  rewrite (Z.compare_antisym x y). destruct (x ?= y); simpl; [apply IH|done|done].
Qed.

Lemma strcmp_lt_trans a b c : strcmp a b = Lt → strcmp b c = Lt → strcmp a c = Lt.
Proof.
  revert b c. induction a as [|x a IH]; intros [|y b] [|z c]; simpl; try done.
  destruct (Z.compare_spec x y) as [->|Hxy|Hxy]; [|intros _|done].
  - destruct (y ?= z); [apply IH|done|done].
  - destruct (Z.compare_spec y z) as [->|Hyz|Hyz]; [intros _|intros _|done].
    + by rewrite (proj2 (Z.compare_lt_iff _ _)).
    + by rewrite (proj2 (Z.compare_lt_iff x z)) by lia.
Qed.

(** The table is sorted. *)
Definition sorted (table : list command) : Prop :=
  ∀ i j c d, (i < j)%nat → table !! i = Some c → table !! j = Some d → strcmp (cmd c) (cmd d) = Lt.

Lemma commands_sorted : sorted commands.
Proof.
  assert (H : forallb (λ i, forallb (λ j, (j <=? i)%nat ||
    match strcmp (default [] (cmd <$> commands !! i)) (default [] (cmd <$> commands !! j)) with
    | Lt => true | _ => false end) (seq 0 num_commands)) (seq 0 num_commands) = true)
    by (vm_compute; reflexivity).
  intros i j c d Hij Hc Hd. rewrite forallb_forall in H.
  pose proof (lookup_lt_Some _ _ _ Hc) as Hi. pose proof (lookup_lt_Some _ _ _ Hd) as Hj.
  specialize (H i ltac:(apply in_seq; unfold num_commands; lia)).
  rewrite forallb_forall in H. specialize (H j ltac:(apply in_seq; unfold num_commands; lia)).
  rewrite Hc, Hd in H. simpl in H. rewrite (proj2 (Nat.leb_gt _ _)) in H by lia.
  simpl in H. by destruct (strcmp (cmd c) (cmd d)).
Qed.

(** What the lookup must find. *)
Definition find_command (table : list command) (name : list Z) : option command :=
  snd <$> list_find (λ c, cmd c = name) table.

Lemma find_command_Some table name i c : sorted table → table !! i = Some c → cmd c = name →
  find_command table name = Some c.
Proof.
  intros Hs Hi <-. unfold find_command.
  assert (list_find (λ d, cmd d = cmd c) table = Some (i, c)) as ->; [|done].
  apply list_find_Some. split_and!; [done|done|]. intros j d Hd Hlt Heq.
  pose proof (Hs j i d c Hlt Hd Hi) as H. rewrite Heq in H.
  by rewrite (proj2 (strcmp_eq _ _) eq_refl) in H.
Qed.

Lemma find_command_None table name :
  (∀ i c, table !! i = Some c → cmd c ≠ name) → find_command table name = None.
Proof.
  intros H. unfold find_command. rewrite fmap_None, list_find_None, Forall_forall.
  intros c (i & Hi)%list_elem_of_lookup. by eapply H.
Qed.

(** Everything below [a] is smaller than [name], everything from [b] on is larger. *)
Lemma lookup_loop_ok table fuel name a b : sorted table → (a < b ≤ length table)%nat →
  (b - a < fuel)%nat →
  (∀ i c, (i < a)%nat → table !! i = Some c → strcmp name (cmd c) = Gt) →
  (∀ i c, (b ≤ i)%nat → table !! i = Some c → strcmp name (cmd c) = Lt) →
  lookup_loop table fuel name a b = Some (find_command table name).
Proof.
  intros Hs. revert a b. induction fuel as [|fuel IH]; intros a b Hab Hf Hlo Hhi; [lia|].
  cbn [lookup_loop]. set (i := ((a + b) / 2)%nat).
  assert (Hi : (a ≤ i < b)%nat).
  { subst i. split; [apply Nat.div_le_lower_bound; lia|apply Nat.Div0.div_lt_upper_bound; lia]. }
  destruct (lookup_lt_is_Some_2 table i) as [c Hc]; [lia|]. rewrite Hc. cbn [mbind option_bind].
  assert (Hnone : ∀ a b, (b ≤ a)%nat →
    (∀ i c, (i < a)%nat → table !! i = Some c → strcmp name (cmd c) = Gt) →
    (∀ i c, (b ≤ i)%nat → table !! i = Some c → strcmp name (cmd c) = Lt) →
    find_command table name = None).
  { intros a' b' Hle Hlo' Hhi'. apply find_command_None. intros j d Hd <-.
    pose proof (proj2 (strcmp_eq (cmd d) (cmd d)) eq_refl).
    destruct (decide (j < a')%nat); [by rewrite (Hlo' j d) in H|].
    rewrite (Hhi' j d) in H by (done || lia). done. }
  destruct (strcmp name (cmd c)) eqn:E.
  - apply strcmp_eq in E. by rewrite (find_command_Some table name i c).
  - assert (Hhi' : ∀ j d, (i ≤ j)%nat → table !! j = Some d → strcmp name (cmd d) = Lt).
    { intros j d Hj Hd. destruct (decide (j = i)) as [->|]; [by simplify_eq|].
      eapply strcmp_lt_trans; [exact E|]. eapply (Hs i j); [lia|done|done]. }
    destruct (a <? i)%nat eqn:Ei; [apply IH; [lia|lia|done|done]|].
    by rewrite (Hnone a i) by (done || lia).
  - assert (Hlo' : ∀ j d, (j < i + 1)%nat → table !! j = Some d → strcmp name (cmd d) = Gt).
    { intros j d Hj Hd. destruct (decide (j = i)) as [->|]; [by simplify_eq|].
      rewrite strcmp_antisym. rewrite strcmp_antisym in E.
      assert (strcmp (cmd c) name = Lt) as Hcn by (by destruct (strcmp (cmd c) name)).
      rewrite (strcmp_lt_trans (cmd d) (cmd c) name); [done| |done].
      eapply (Hs j i); [lia|done|done]. }
    destruct (i + 1 <? b)%nat eqn:Ei; [apply IH; [lia|lia|done|done]|].
    by rewrite (Hnone (i + 1)%nat b) by (done || lia).
Qed.

(** The binary search of [command_lookup] terminates, stays inside the command table
    and finds exactly the entry with the given name, for every name. *)
Theorem command_lookup_correct name :
  command_lookup name = Some (find_command commands name).
Proof.
  unfold command_lookup. apply lookup_loop_ok.
  - apply commands_sorted.
  - split; [vm_compute; lia|done].
  - lia.
  - lia.
  - intros i c Hi Hc%lookup_lt_Some. unfold num_commands in *. lia.
Qed.

End CommandTable.
