(* ===== verification/Player.v ===== *)
(** * Player control

    [player/Control.hxx] and [player/Control.cxx]: the object the main thread shares
    with the player thread.  Every method of the main thread takes the lock, so the
    player thread makes progress between the methods and while a synchronous command
    waits for its completion.  The thread is an interface here: [PlayerThread] names
    its two kinds of progress and [PlayerThreadLaws] what the main thread relies on;
    the methods are verified against every thread that keeps these promises. *)

From Stdlib Require Import ZArith Lia ZifyBool.
From stdpp Require Import base numbers strings list.
From S2P Require Import Prelude Tag AudioFormat Song Prog.

Set Default Goal Selector "!".
Local Open Scope prog_scope.

Module Player.
Import Song.

(** [enum class PlayerState], [PlayerCommand], [PlayerError] *)
Inductive PlayerState := STATE_STOP | STATE_PAUSE | STATE_PLAY.

Inductive PlayerCommand :=
| COMMAND_NONE | COMMAND_EXIT | COMMAND_STOP | COMMAND_PAUSE | COMMAND_SEEK
| COMMAND_CLOSE_AUDIO | COMMAND_UPDATE_AUDIO | COMMAND_QUEUE | COMMAND_CANCEL
| COMMAND_REFRESH.

Inductive PlayerError := ERROR_NONE | ERROR_DECODER | ERROR_OUTPUT.

#[global] Instance PlayerState_eq_dec : EqDecision PlayerState.
Proof. solve_decision. Defined.
#[global] Instance PlayerCommand_eq_dec : EqDecision PlayerCommand.
Proof. solve_decision. Defined.
#[global] Instance PlayerError_eq_dec : EqDecision PlayerError.
Proof. solve_decision. Defined.

(** The event masks the player raises with [idle_add]. *)
Inductive IdleFlag := IDLE_PLAYER | IDLE_OPTIONS.

(** [struct player_status]; the last four fields are defined unless stopped. *)
Record player_status := mkStatus {
  status_state : PlayerState;
  status_detail : option (Z * AudioFormat.AudioFormat * Z * Z);
}.

(** [struct PlayerControl].  A null [next_song], [tagged_song] or [error] is [None]. *)
Record PlayerControl := mkPlayerControl {
  command : PlayerCommand;
  state : PlayerState;
  error_type : PlayerError;
  error : option (list Z);
  tagged_song : option DetachedSong;
  bit_rate : Z;
  audio_format : AudioFormat.AudioFormat;
  total_time : Z;
  elapsed_time : Z;
  next_song : option DetachedSong;
  seek_time : Z;
  border_pause : bool;
}.

(** The constructor; the status fields start uninitialised. *)
Definition make (garbage : Z * AudioFormat.AudioFormat * Z * Z * Z) : PlayerControl :=
  let '(bit_rate, audio_format, total, elapsed, seek) := garbage in
  mkPlayerControl COMMAND_NONE STATE_STOP ERROR_NONE None None bit_rate audio_format
    total elapsed None seek false.

Definition set_command c (p : PlayerControl) : PlayerControl :=
  mkPlayerControl c (state p) (error_type p) (error p) (tagged_song p) (bit_rate p)
    (audio_format p) (total_time p) (elapsed_time p) (next_song p) (seek_time p)
    (border_pause p).
Definition set_state s (p : PlayerControl) : PlayerControl :=
  mkPlayerControl (command p) s (error_type p) (error p) (tagged_song p) (bit_rate p)
    (audio_format p) (total_time p) (elapsed_time p) (next_song p) (seek_time p)
    (border_pause p).
Definition set_error t e (p : PlayerControl) : PlayerControl :=
  mkPlayerControl (command p) (state p) t e (tagged_song p) (bit_rate p)
    (audio_format p) (total_time p) (elapsed_time p) (next_song p) (seek_time p)
    (border_pause p).
Definition set_tagged_song s (p : PlayerControl) : PlayerControl :=
  mkPlayerControl (command p) (state p) (error_type p) (error p) s (bit_rate p)
    (audio_format p) (total_time p) (elapsed_time p) (next_song p) (seek_time p)
    (border_pause p).
Definition set_next_song s (p : PlayerControl) : PlayerControl :=
  mkPlayerControl (command p) (state p) (error_type p) (error p) (tagged_song p) (bit_rate p)
    (audio_format p) (total_time p) (elapsed_time p) s (seek_time p) (border_pause p).
Definition set_seek_time t (p : PlayerControl) : PlayerControl :=
  mkPlayerControl (command p) (state p) (error_type p) (error p) (tagged_song p) (bit_rate p)
    (audio_format p) (total_time p) (elapsed_time p) (next_song p) t (border_pause p).
Definition set_border_pause b (p : PlayerControl) : PlayerControl :=
  mkPlayerControl (command p) (state p) (error_type p) (error p) (tagged_song p) (bit_rate p)
    (audio_format p) (total_time p) (elapsed_time p) (next_song p) (seek_time p) b.

(** [CommandFinished], called by the player thread. *)
Definition CommandFinished (p : PlayerControl) : option PlayerControl :=
  assert! negb (bool_decide (command p = COMMAND_NONE)) ;;
  Some (set_command COMMAND_NONE p).

(** [ClearError] *)
Definition ClearError (p : PlayerControl) : PlayerControl := set_error ERROR_NONE None p.

(** [SetError], called by the player thread. *)
Definition SetError (t : PlayerError) (e : list Z) (p : PlayerControl) : option PlayerControl :=
  assert! negb (bool_decide (t = ERROR_NONE)) ;;
  Some (set_error t (Some e) p).

(** ** The player thread *)

(** Progress of the player thread with private state [T]: [drift] while the main
    thread does not hold the lock, [service] from a pending command to the moment
    [command] is [NONE] again.  [thread_inv] holds whenever no command is pending. *)
Class PlayerThread (T : Type) := {
  drift : PlayerControl → T → PlayerControl * T;
  service : PlayerControl → T → PlayerControl * T;
  thread_inv : PlayerControl → T → Prop;
}.

(** The thread never makes up a next song: it keeps it or takes it. *)
Definition keeps_next (p p' : PlayerControl) : Prop :=
  next_song p' = next_song p ∨ next_song p' = None.

(** The error is unchanged or cleared. *)
Definition error_cleared (p p' : PlayerControl) : Prop :=
  error_type p' = error_type p ∧ error p' = error p ∨
  error_type p' = ERROR_NONE ∧ error p' = None.

(** The commands after which no song is pending. *)
Definition takes_next (c : PlayerCommand) : bool :=
  match c with
  | COMMAND_CANCEL | COMMAND_CLOSE_AUDIO | COMMAND_SEEK | COMMAND_STOP => true
  | _ => false
  end.

Definition needs_next (c : PlayerCommand) : bool :=
  match c with COMMAND_SEEK | COMMAND_QUEUE => true | _ => false end.

(** What the main thread changes at rest, and how it posts a command. *)
Record rest_step (p p' : PlayerControl) : Prop := {
  rs_command : command p' = command p;
  rs_state : state p' = state p;
  rs_next : next_song p' = next_song p;
  rs_error : error_cleared p p';
}.

Record post_step (p p' : PlayerControl) : Prop := {
  ps_command : command p = COMMAND_NONE;
  ps_pending : command p' ≠ COMMAND_NONE ∧ command p' ≠ COMMAND_EXIT;
  ps_state : state p' = state p;
  ps_error : error_cleared p p';
  ps_next : if needs_next (command p')
            then next_song p = None ∧ next_song p' ≠ None
            else next_song p' = next_song p;
}.

Class PlayerThreadLaws (T : Type) `{!PlayerThread T} := {
  drift_law p t p' t' :
    thread_inv p t → command p = COMMAND_NONE → drift p t = (p', t') →
    thread_inv p' t' ∧ command p' = COMMAND_NONE ∧ keeps_next p p' ∧
    border_pause p' = border_pause p ∧ (state p = STATE_STOP → p' = p);
  service_law p0 p t p' t' :
    thread_inv p0 t → post_step p0 p → service p t = (p', t') →
    thread_inv p' t' ∧ command p' = COMMAND_NONE ∧ keeps_next p p' ∧
    border_pause p' = border_pause p ∧
    (takes_next (command p) = true → next_song p' = None) ∧
    (command p = COMMAND_CLOSE_AUDIO → state p' = STATE_STOP);
  rest_law p t p' :
    thread_inv p t → command p = COMMAND_NONE → rest_step p p' → thread_inv p' t;
  error_law p t :
    thread_inv p t → error_type p = ERROR_NONE ↔ error p = None;
}.

(** ** The methods of the main thread *)

Record pworld {T : Type} := mkPworld {
  pc : PlayerControl;
  th : T;
  idle : list IdleFlag;
}.
Arguments pworld : clear implicits.
Arguments mkPworld {T} _ _ _.

Section Methods.
Context {T : Type} `{!PlayerThread T}.
#[local] Abbreviation M := (prog (pworld T)).

Definition upd_pc (f : PlayerControl → PlayerControl) : M unit :=
  modify (λ w, mkPworld (f (pc w)) (th w) (idle w)).

Definition read_pc : M PlayerControl := w <- get ;; ret (pc w).

Definition idle_add (f : IdleFlag) : M unit :=
  modify (λ w, mkPworld (pc w) (th w) (idle w ++ [f])).

(** Taking the lock: the player thread has run in the meantime. *)
Definition Lock : M unit := modify (λ w,
  let '(p, t) := drift (pc w) (th w) in mkPworld p t (idle w)).

(** [WaitCommandLocked] *)
Definition WaitCommandLocked : M unit := modify (λ w,
  let '(p, t) := service (pc w) (th w) in mkPworld p t (idle w)).

Definition SynchronousCommand (cmd : PlayerCommand) : M unit :=
  p <- read_pc ;;
  assert_ (bool_decide (command p = COMMAND_NONE)) ;;
  upd_pc (set_command cmd) ;;
  WaitCommandLocked.

Definition LockSynchronousCommand (cmd : PlayerCommand) : M unit :=
  Lock ;; SynchronousCommand cmd.

Definition is_null {A} (o : option A) : bool := match o with None => true | Some _ => false end.

Definition assert_no_next : M unit := p <- read_pc ;; assert_ (is_null (next_song p)).

Definition LockCancel : M unit :=
  LockSynchronousCommand COMMAND_CANCEL ;;
  assert_no_next.

Definition LockStop : M unit :=
  LockSynchronousCommand COMMAND_CLOSE_AUDIO ;;
  assert_no_next ;;
  idle_add IDLE_PLAYER.

Definition LockUpdateAudio : M unit := LockSynchronousCommand COMMAND_UPDATE_AUDIO.

Definition PauseLocked : M unit :=
  p <- read_pc ;;
  if negb (bool_decide (state p = STATE_STOP)) then
    SynchronousCommand COMMAND_PAUSE ;;
    idle_add IDLE_PLAYER
  else ret tt.

Definition LockPause : M unit := Lock ;; PauseLocked.

Definition LockSetPause (pause_flag : bool) : M unit :=
  Lock ;;
  p <- read_pc ;;
  match state p with
  | STATE_STOP => ret tt
  | STATE_PLAY => if pause_flag then PauseLocked else ret tt
  | STATE_PAUSE => if negb pause_flag then PauseLocked else ret tt
  end.

Definition LockSetBorderPause (b : bool) : M unit :=
  Lock ;; upd_pc (set_border_pause b).

Definition LockGetStatus : M player_status :=
  Lock ;;
  SynchronousCommand COMMAND_REFRESH ;;
  p <- read_pc ;;
  ret (mkStatus (state p)
    (if bool_decide (state p = STATE_STOP) then None
     else Some (bit_rate p, audio_format p, total_time p, elapsed_time p))).

(** [GetState] and [GetErrorType]: reads without the lock. *)
Definition GetState : M PlayerState := Lock ;; p <- read_pc ;; ret (state p).
Definition GetErrorType : M PlayerError := Lock ;; p <- read_pc ;; ret (error_type p).

(** [pc.Lock(); state = pc.GetState(); next_song = pc.next_song; pc.Unlock();] *)
Definition LockRead : M (PlayerState * option DetachedSong) :=
  Lock ;; p <- read_pc ;; ret (state p, next_song p).

Definition LockClearError : M unit := Lock ;; upd_pc ClearError.

Definition LockReadTaggedSong : M (option DetachedSong) :=
  Lock ;;
  p <- read_pc ;;
  upd_pc (set_tagged_song None) ;;
  ret (tagged_song p).

Definition EnqueueSongLocked (song : DetachedSong) : M unit :=
  assert_no_next ;;
  upd_pc (λ p, set_seek_time 0 (set_next_song (Some song) p)) ;;
  SynchronousCommand COMMAND_QUEUE.

Definition LockEnqueueSong (song : DetachedSong) : M unit :=
  Lock ;; EnqueueSongLocked song.

Definition SeekLocked (song : DetachedSong) (t : Z) : M unit :=
  p <- read_pc ;;
  (if negb (is_null (next_song p)) then SynchronousCommand COMMAND_CANCEL else ret tt) ;;
  assert_no_next ;;
  upd_pc (λ p, set_seek_time t (set_next_song (Some song) (ClearError p))) ;;
  SynchronousCommand COMMAND_SEEK ;;
  assert_no_next ;;
  p <- read_pc ;;
  if negb (bool_decide (error_type p = ERROR_NONE)) then
    e <- lift (error p) ;;
    throw (RuntimeError e)
  else assert_ (is_null (error p)).

Definition LockSeek (song : DetachedSong) (t : Z) : M unit :=
  Lock ;;
  SeekLocked song t ;;
  idle_add IDLE_PLAYER.

Definition Play (song : DetachedSong) : M unit :=
  Lock ;;
  SeekLocked song 0 ;;
  p <- read_pc ;;
  if bool_decide (state p = STATE_PAUSE) then PauseLocked else ret tt.

End Methods.

(** ** What every method guarantees *)

Section Facts.
Context {T : Type} `{!PlayerThread T, !PlayerThreadLaws T}.
Implicit Types w : pworld T.

(** The player is at rest: no command is pending and the thread's invariant holds. *)
Definition ready w : Prop := thread_inv (pc w) (th w) ∧ command (pc w) = COMMAND_NONE.

(** The pending song was kept or taken. *)
Definition keeps w w' : Prop := keeps_next (pc w) (pc w').

Lemma keeps_none w w' : keeps w w' → next_song (pc w) = None → next_song (pc w') = None.
Proof. intros [H|H] Hn; congruence. Qed.

Lemma wp_Lock w Q X : ready w →
  (∀ w', ready w' → keeps w w' → border_pause (pc w') = border_pause (pc w) →
     (state (pc w) = STATE_STOP → pc w' = pc w) → Q tt w') →
  wp Lock Q X w.
Proof.
  intros [Hi Hc] HQ. unfold Lock. apply wp_modify.
  destruct (drift (pc w) (th w)) as [p t] eqn:E.
  destruct (drift_law _ _ _ _ Hi Hc E) as (Hi' & Hc' & Hk & Hb & Hs). by apply HQ.
Qed.

(** Posting a command and waiting for it. *)
Lemma wp_post w0 w (cmd : PlayerCommand) Q X :
  thread_inv (pc w0) (th w) → post_step (pc w0) (set_command cmd (pc w)) →
  command (pc w) = COMMAND_NONE →
  (∀ w', ready w' → keeps w w' → border_pause (pc w') = border_pause (pc w) →
     (takes_next cmd = true → next_song (pc w') = None) →
     (cmd = COMMAND_CLOSE_AUDIO → state (pc w') = STATE_STOP) → Q tt w') →
  wp (SynchronousCommand cmd) Q X w.
Proof.
  intros Hi Hp Hc HQ. unfold SynchronousCommand, read_pc, upd_pc, WaitCommandLocked. wp_steps.
  apply wp_assert; [by apply bool_decide_eq_true|]. wp_steps. simpl.
  destruct (service (set_command cmd (pc w)) (th w)) as [p t] eqn:E.
  destruct (service_law _ _ _ _ _ Hi Hp E) as (Hi' & Hc' & Hk & Hb & Ht & Hs).
  by apply HQ.
Qed.

Lemma wp_command w cmd Q X :
  ready w → needs_next cmd = false → cmd ≠ COMMAND_NONE → cmd ≠ COMMAND_EXIT →
  (∀ w', ready w' → keeps w w' → border_pause (pc w') = border_pause (pc w) →
     (takes_next cmd = true → next_song (pc w') = None) →
     (cmd = COMMAND_CLOSE_AUDIO → state (pc w') = STATE_STOP) → Q tt w') →
  wp (SynchronousCommand cmd) Q X w.
Proof.
  intros [Hi Hc] Hn H1 H2 HQ. apply (wp_post w); try done. split; simpl; try done.
  - by left.
  - by rewrite Hn.
Qed.

Lemma wp_assert_no_next w Q X : next_song (pc w) = None → Q tt w →
  wp (assert_no_next (T:=T)) Q X w.
Proof.
  intros H HQ. unfold assert_no_next, read_pc. wp_steps. by apply wp_assert; [rewrite H|].
Qed.

Lemma keeps_trans w1 w2 w3 : keeps w1 w2 → keeps w2 w3 → keeps w1 w3.
Proof. unfold keeps, keeps_next. intuition congruence. Qed.

(** The methods that cannot throw: the player stays ready, a pending song is kept or
    taken, never replaced. *)
Lemma LockCancel_ok w Q X : ready w →
  (∀ w', ready w' → next_song (pc w') = None → border_pause (pc w') = border_pause (pc w) →
     Q tt w') →
  wp LockCancel Q X w.
Proof.
  intros Hw HQ. unfold LockCancel, LockSynchronousCommand. wp_steps. apply wp_Lock; [done|].
  intros w1 Hr1 Hk1 Hb1 _. wp_steps. apply wp_command; try done.
  intros w2 Hr2 Hk2 Hb2 Hn2 _. specialize (Hn2 eq_refl). wp_steps. apply wp_assert_no_next; [done|].
  apply HQ; [done|done|congruence].
Qed.

Lemma LockStop_ok w Q X : ready w →
  (∀ w', ready w' → next_song (pc w') = None → state (pc w') = STATE_STOP →
     border_pause (pc w') = border_pause (pc w) → Q tt w') →
  wp LockStop Q X w.
Proof.
  intros Hw HQ. unfold LockStop, LockSynchronousCommand. wp_steps. apply wp_Lock; [done|].
  intros w1 Hr1 Hk1 Hb1 _. wp_steps. apply wp_command; try done.
  intros w2 Hr2 Hk2 Hb2 Hn2 Hs2. specialize (Hn2 eq_refl). specialize (Hs2 eq_refl).
  wp_steps. apply wp_assert_no_next; [done|]. unfold idle_add. wp_steps.
  apply HQ; simpl; [done|done|done|congruence].
Qed.

Lemma PauseLocked_ok w Q X : ready w →
  (∀ w', ready w' → keeps w w' → border_pause (pc w') = border_pause (pc w) → Q tt w') →
  wp PauseLocked Q X w.
Proof.
  intros Hw HQ. unfold PauseLocked, read_pc. wp_steps. case_match.
  - wp_steps. apply wp_command; try done. intros w1 Hr Hk Hb _ _. unfold idle_add. wp_steps.
    by apply HQ.
  - wp_steps. apply HQ; [done|by left|done].
Qed.

Lemma LockSetPause_ok b w Q X : ready w →
  (∀ w', ready w' → keeps w w' → border_pause (pc w') = border_pause (pc w) → Q tt w') →
  wp (LockSetPause b) Q X w.
Proof.
  intros Hw HQ. unfold LockSetPause, read_pc. wp_steps. apply wp_Lock; [done|].
  intros w1 Hr1 Hk1 Hb1 _. wp_steps.
  repeat case_match; try (wp_steps; by apply HQ); apply PauseLocked_ok; try done;
    intros w2 Hr2 Hk2 Hb2; (apply HQ; [done|by eapply keeps_trans|congruence]).
Qed.

Lemma LockSetBorderPause_ok b w Q X : ready w →
  (∀ w', ready w' → keeps w w' → border_pause (pc w') = b → Q tt w') →
  wp (LockSetBorderPause b) Q X w.
Proof.
  intros Hw HQ. unfold LockSetBorderPause, upd_pc. wp_steps. apply wp_Lock; [done|].
  intros w1 [Hi1 Hc1] Hk1 Hb1 _. wp_steps. apply HQ; simpl; [|done|done].
  split; [|done]. eapply rest_law; [done|done|]. split; simpl; try done. by left.
Qed.

Lemma LockClearError_ok w Q X : ready w →
  (∀ w', ready w' → keeps w w' → border_pause (pc w') = border_pause (pc w) → Q tt w') →
  wp LockClearError Q X w.
Proof.
  intros Hw HQ. unfold LockClearError, upd_pc. wp_steps. apply wp_Lock; [done|].
  intros w1 [Hi1 Hc1] Hk1 Hb1 _. wp_steps. apply HQ; simpl; [|done|done].
  split; [|done]. eapply rest_law; [done|done|]. split; simpl; try done. by right.
Qed.

Lemma LockGetStatus_ok w Q X : ready w →
  (∀ s w', ready w' → keeps w w' → border_pause (pc w') = border_pause (pc w) → Q s w') →
  wp LockGetStatus Q X w.
Proof.
  intros Hw HQ. unfold LockGetStatus, read_pc. wp_steps. apply wp_Lock; [done|].
  intros w1 Hr1 Hk1 Hb1 _. wp_steps. apply wp_command; try done.
  intros w2 Hr2 Hk2 Hb2 _ _. wp_steps. apply HQ; [done|by eapply keeps_trans|congruence].
Qed.

Lemma LockRead_ok w Q X : ready w →
  (∀ w', ready w' → keeps w w' → border_pause (pc w') = border_pause (pc w) →
     Q (state (pc w'), next_song (pc w')) w') →
  wp LockRead Q X w.
Proof.
  intros Hw HQ. unfold LockRead, read_pc. wp_steps. apply wp_Lock; [done|].
  intros w1 Hr1 Hk1 Hb1 _. wp_steps. by apply HQ.
Qed.

Lemma GetState_ok w Q X : ready w →
  (∀ w', ready w' → keeps w w' → border_pause (pc w') = border_pause (pc w) →
     (state (pc w) = STATE_STOP → pc w' = pc w) → Q (state (pc w')) w') →
  wp GetState Q X w.
Proof.
  intros Hw HQ. unfold GetState, read_pc. wp_steps. apply wp_Lock; [done|].
  intros w1 Hr1 Hk1 Hb1 Hs1. wp_steps. by apply HQ.
Qed.

Lemma GetErrorType_ok w Q X : ready w →
  (∀ w', ready w' → keeps w w' → border_pause (pc w') = border_pause (pc w) →
     (state (pc w) = STATE_STOP → pc w' = pc w) → Q (error_type (pc w')) w') →
  wp GetErrorType Q X w.
Proof.
  intros Hw HQ. unfold GetErrorType, read_pc. wp_steps. apply wp_Lock; [done|].
  intros w1 Hr1 Hk1 Hb1 Hs1. wp_steps. by apply HQ.
Qed.

(** Enqueueing requires that no song is pending; afterwards the given song is
    pending or already playing. *)
Lemma LockEnqueueSong_ok song w Q X : ready w → next_song (pc w) = None →
  (∀ w', ready w' → (next_song (pc w') = Some song ∨ next_song (pc w') = None) →
     border_pause (pc w') = border_pause (pc w) → Q tt w') →
  wp (LockEnqueueSong song) Q X w.
Proof.
  intros Hw Hn HQ. unfold LockEnqueueSong, EnqueueSongLocked, upd_pc. wp_steps.
  wp_steps. apply wp_Lock; [done|]. intros w1 [Hi1 Hc1] Hk1 Hb1 _.
  pose proof (keeps_none _ _ Hk1 Hn) as Hn1. wp_steps. apply wp_assert_no_next; [done|]. wp_steps.
  wp_steps. apply (wp_post w1); simpl; try done.
  - split; simpl; try done. by left.
  - intros w2 Hr2 [Hk2|Hk2] Hb2 _ _; simpl in *; (apply HQ; [done|by auto|congruence]).
Qed.

(** Seeking leaves no song pending, whether it succeeds or throws. *)
Lemma SeekLocked_ok song t w Q (X : exn → pworld T → Prop) : ready w →
  (∀ w', ready w' → next_song (pc w') = None → border_pause (pc w') = border_pause (pc w) →
     Q tt w') →
  (∀ e w', ready w' → next_song (pc w') = None → border_pause (pc w') = border_pause (pc w) →
     X (RuntimeError e) w') →
  wp (SeekLocked song t) Q X w.
Proof.
  intros Hw HQ HX. unfold SeekLocked, read_pc, upd_pc. wp_steps.
  assert (Hcancel : ∀ R : unit → pworld T → Prop,
    (∀ w', ready w' → next_song (pc w') = None → border_pause (pc w') = border_pause (pc w) →
       R tt w') →
    wp (if negb (is_null (next_song (pc w))) then SynchronousCommand COMMAND_CANCEL else ret tt)
      R X w).
  { intros R HR. destruct (next_song (pc w)) as [s|] eqn:E; simpl.
    - wp_steps. apply wp_command; try done. intros w1 Hr1 Hk1 Hb1 Ht1 _. apply HR; auto.
    - wp_steps. by apply HR. }
  apply Hcancel. intros w1 [Hi1 Hc1] Hn1 Hb1. wp_steps. apply wp_assert_no_next; [done|]. wp_steps.
  wp_steps. apply (wp_post w1); simpl; try done.
  { split; simpl; try done. by right. }
  intros w2 Hr2 _ Hb2 Hn2 _. specialize (Hn2 eq_refl). wp_steps. apply wp_assert_no_next; [done|]. wp_steps.
  pose proof (error_law _ _ (proj1 Hr2)) as He. simpl in Hb2. case_bool_decide as E; simpl.
  - apply wp_assert; [by rewrite (proj1 He E)|]. apply HQ; [done|done|congruence].
  - wp_steps. destruct (error (pc w2)) as [msg|] eqn:Em; [|by destruct E; apply He].
    eapply wp_lift; [done|]. wp_steps. apply HX; [done|done|congruence].
Qed.

Lemma LockSeek_ok song t w Q (X : exn → pworld T → Prop) : ready w →
  (∀ w', ready w' → next_song (pc w') = None → border_pause (pc w') = border_pause (pc w) →
     Q tt w') →
  (∀ e w', ready w' → next_song (pc w') = None → border_pause (pc w') = border_pause (pc w) →
     X (RuntimeError e) w') →
  wp (LockSeek song t) Q X w.
Proof.
  intros Hw HQ HX. unfold LockSeek. wp_steps. apply wp_Lock; [done|].
  intros w1 Hr1 Hk1 Hb1 _. wp_steps. apply SeekLocked_ok; [done|..].
  - intros w2 Hr2 Hn2 Hb2. unfold idle_add. wp_steps. apply HQ; simpl; [done|done|congruence].
  - intros e w2 Hr2 Hn2 Hb2. apply HX; [done|done|congruence].
Qed.

Lemma Play_ok song w Q (X : exn → pworld T → Prop) : ready w →
  (∀ w', ready w' → next_song (pc w') = None → border_pause (pc w') = border_pause (pc w) →
     Q tt w') →
  (∀ e w', ready w' → next_song (pc w') = None → border_pause (pc w') = border_pause (pc w) →
     X (RuntimeError e) w') →
  wp (Play song) Q X w.
Proof.
  intros Hw HQ HX. unfold Play, read_pc. wp_steps. apply wp_Lock; [done|].
  intros w1 Hr1 Hk1 Hb1 _. wp_steps. apply SeekLocked_ok; [done|..].
  - intros w2 Hr2 Hn2 Hb2. wp_steps. case_match.
    + apply PauseLocked_ok; [done|]. intros w3 Hr3 Hk3 Hb3.
      apply HQ; [done|by eapply keeps_none|congruence].
    + wp_steps. apply HQ; [done|done|congruence].
  - intros e w2 Hr2 Hn2 Hb2. apply HX; [done|done|congruence].
Qed.

End Facts.

End Player.
