(* ===== verification/PlayerTask.v ===== *)
(** * The player thread

    [player/Thread.cxx] and the client side of [decoder/DecoderControl.cxx], as a thread
    ([Threads]) on the state it shares with the main thread ([pc]), the decoder thread
    ([st]) and the outputs ([out]).  [Lock] and [Unlock] stand where the code takes and
    releases the mutex; the other threads act there.  Code between an unlock and the next
    lock works on data that only this thread writes, apart from the reads marked with a
    [yield].

    Cross-fading is modelled without its mix ratio, and the number of chunks it overlaps
    ([CrossFadeSettings::Calculate], floating point) is a parameter.  Replay gain and log
    messages are left out. *)

From Stdlib Require Import ZArith Lia ZifyBool.
From stdpp Require Import base numbers sets strings list gmap.
From S2P Require Import Prelude Tag AudioFormat Song Prog Player Threads Music Decoder Outputs.

Set Default Goal Selector "!".
Local Open Scope thread_scope.

Module PlayerTask.
Import Song Player AudioFormat Decoder.

(** The constant members of [PlayerControl]. *)
Class PlayerConfig := {
  buffer_chunks : nat;
  buffered_before_play : nat;
  configured_audio_format : AudioFormat.AudioFormat;
  Calculate : Z → AudioFormat.AudioFormat → AudioFormat.AudioFormat → nat → nat;
  uninitialized_format : AudioFormat.AudioFormat;
}.

Inductive CrossFadeState := XFADE_UNKNOWN | XFADE_DISABLED | XFADE_ENABLED | XFADE_ACTIVE.

#[global] Instance CrossFadeState_eq_dec : EqDecision CrossFadeState.
Proof. solve_decision. Defined.

(** [class Player] *)
Record Player := mkPlayer {
  pipe : option nat;
  buffering : bool;
  decoder_starting : bool;
  decoder_woken : bool;
  paused : bool;
  queued : bool;
  output_open : bool;
  song : option DetachedSong;
  xfade_state : CrossFadeState;
  cross_fade_chunks : nat;
  cross_fade_tag : option Tag.Tag;
  play_audio_format : AudioFormat.AudioFormat;
  elapsed_time : Z;
}.

(** Calls that leave the thread. *)
Inductive Event := OnPlayerSync | OnPlayerTagModified | IdlePlayer.

Record world := mkWorld {
  pc : PlayerControl;
  st : stage;
  out : Outputs.MultipleOutputs;
  devices : list bool;
  pl : Player;
  next_pipe : nat;          (* the address of the next [new MusicPipe()] *)
  locked : bool;            (* the mutex is held by this thread *)
  answered : nat;           (* number of calls of [CommandFinished] *)
  events : list Event;
}.

#[local] Abbreviation P := (proc world).

Definition upd_pc f w := mkWorld (f (pc w)) (st w) (out w) (devices w) (pl w) (next_pipe w)
  (locked w) (answered w) (events w).
Definition put_st s w := mkWorld (pc w) s (out w) (devices w) (pl w) (next_pipe w)
  (locked w) (answered w) (events w).
Definition upd_pl f w := mkWorld (pc w) (st w) (out w) (devices w) (f (pl w)) (next_pipe w)
  (locked w) (answered w) (events w).
Definition put_locked b w := mkWorld (pc w) (st w) (out w) (devices w) (pl w) (next_pipe w)
  b (answered w) (events w).
Definition put_devices l w := mkWorld (pc w) (st w) (out w) l (pl w) (next_pipe w)
  (locked w) (answered w) (events w).
Definition emit e w := mkWorld (pc w) (st w) (out w) (devices w) (pl w) (next_pipe w)
  (locked w) (answered w) (events w ++ [e]).

(** Assignments to the members of [Player]. *)
Definition set_pipe v p := mkPlayer v (buffering p) (decoder_starting p) (decoder_woken p)
  (paused p) (queued p) (output_open p) (song p) (xfade_state p) (cross_fade_chunks p)
  (cross_fade_tag p) (play_audio_format p) (elapsed_time p).
Definition set_buffering v p := mkPlayer (pipe p) v (decoder_starting p) (decoder_woken p)
  (paused p) (queued p) (output_open p) (song p) (xfade_state p) (cross_fade_chunks p)
  (cross_fade_tag p) (play_audio_format p) (elapsed_time p).
Definition set_starting v p := mkPlayer (pipe p) (buffering p) v (decoder_woken p)
  (paused p) (queued p) (output_open p) (song p) (xfade_state p) (cross_fade_chunks p)
  (cross_fade_tag p) (play_audio_format p) (elapsed_time p).
Definition set_woken v p := mkPlayer (pipe p) (buffering p) (decoder_starting p) v
  (paused p) (queued p) (output_open p) (song p) (xfade_state p) (cross_fade_chunks p)
  (cross_fade_tag p) (play_audio_format p) (elapsed_time p).
Definition set_paused v p := mkPlayer (pipe p) (buffering p) (decoder_starting p)
  (decoder_woken p) v (queued p) (output_open p) (song p) (xfade_state p)
  (cross_fade_chunks p) (cross_fade_tag p) (play_audio_format p) (elapsed_time p).
Definition set_queued v p := mkPlayer (pipe p) (buffering p) (decoder_starting p)
  (decoder_woken p) (paused p) v (output_open p) (song p) (xfade_state p)
  (cross_fade_chunks p) (cross_fade_tag p) (play_audio_format p) (elapsed_time p).
Definition set_open v p := mkPlayer (pipe p) (buffering p) (decoder_starting p)
  (decoder_woken p) (paused p) (queued p) v (song p) (xfade_state p)
  (cross_fade_chunks p) (cross_fade_tag p) (play_audio_format p) (elapsed_time p).
Definition set_song v p := mkPlayer (pipe p) (buffering p) (decoder_starting p)
  (decoder_woken p) (paused p) (queued p) (output_open p) v (xfade_state p)
  (cross_fade_chunks p) (cross_fade_tag p) (play_audio_format p) (elapsed_time p).
Definition set_xfade v n p := mkPlayer (pipe p) (buffering p) (decoder_starting p)
  (decoder_woken p) (paused p) (queued p) (output_open p) (song p) v n
  (cross_fade_tag p) (play_audio_format p) (elapsed_time p).
Definition set_xfade_tag v p := mkPlayer (pipe p) (buffering p) (decoder_starting p)
  (decoder_woken p) (paused p) (queued p) (output_open p) (song p) (xfade_state p)
  (cross_fade_chunks p) v (play_audio_format p) (elapsed_time p).
Definition set_play_format v p := mkPlayer (pipe p) (buffering p) (decoder_starting p)
  (decoder_woken p) (paused p) (queued p) (output_open p) (song p) (xfade_state p)
  (cross_fade_chunks p) (cross_fade_tag p) v (elapsed_time p).
Definition set_elapsed v p := mkPlayer (pipe p) (buffering p) (decoder_starting p)
  (decoder_woken p) (paused p) (queued p) (output_open p) (song p) (xfade_state p)
  (cross_fade_chunks p) (cross_fade_tag p) (play_audio_format p) v.

(** ** Primitive actions *)

Definition read {A : Set} (f : world → A) : P A := act (λ w, Done (f w) w).
Definition assert (f : world → bool) : P unit := act (λ w, if f w then Done tt w else Fail).
Definition write (f : world → world) : P unit := act (modify f).
Definition on_pc (f : PlayerControl → PlayerControl) : P unit := write (upd_pc f).
Definition on_pl (f : Player → Player) : P unit := write (upd_pl f).
Definition on_dc (f : DecoderControl → DecoderControl) : P unit :=
  write (λ w, put_st (upd_dc f (st w)) w).
Definition notify (e : Event) : P unit := write (emit e).

(** A partial operation on the stage. *)
Definition on_stage (f : stage → option stage) : P unit := act (λ w,
  match f (st w) with Some s => Done tt (put_st s w) | None => Fail end).

(** A call of the outputs. *)
Definition out_view (w : world) : Outputs.outworld :=
  Outputs.mkOutworld (out w) (buffer (st w)) (devices w).
Definition out_update (v : Outputs.outworld) (w : world) : world :=
  mkWorld (pc w) (put_buffer (Outputs.chunkbuf v) (st w)) (Outputs.outs v) (Outputs.devices v)
    (pl w) (next_pipe w) (locked w) (answered w) (events w).
Definition on_outs {A : Set} (m : prog Outputs.outworld A) : P A := act (zoom out_view out_update m).

(** The call with its exception as a value. *)
Definition try_outs {A : Set} (m : prog Outputs.outworld A) : P (exn + A) := act (λ w,
  match zoom out_view out_update m w with
  | Done a w => Done (inr a) w
  | Raised e w => Done (inl e) w
  | Fail => Fail
  end).

Definition exn_text (e : exn) : list Z :=
  match e with
  | RuntimeError what | ProtocolError _ what => what
  | PlaylistError _ => []
  end.

(** The mutex, and waiting for a condition with the mutex held. *)
Definition acquire : P unit := act (λ w, if locked w then Fail else Done tt (put_locked true w)).
Definition release : P unit := act (λ w, if locked w then Done tt (put_locked false w) else Fail).
Definition Lock : P unit := yield ;; acquire.
Definition Unlock : P unit := release ;; yield.
Definition Wait : P unit := release ;; yield ;; acquire.

Definition CommandFinished : P unit := act (λ w,
  match Player.CommandFinished (pc w) with
  | Some p => Done tt (mkWorld p (st w) (out w) (devices w) (pl w) (next_pipe w) (locked w)
                         (S (answered w)) (events w))
  | None => Fail
  end).
Definition LockCommandFinished : P unit := Lock ;; CommandFinished ;; Unlock.

Definition SetError (t : PlayerError) (e : list Z) : P unit := act (λ w,
  match Player.SetError t e (pc w) with
  | Some p => Done tt (upd_pc (λ _, p) w)
  | None => Fail
  end).

Definition set_play_info total rate af (p : PlayerControl) : PlayerControl :=
  mkPlayerControl (Player.command p) (Player.state p) (error_type p) (Player.error p)
    (tagged_song p) rate af total (Player.elapsed_time p) (next_song p) (Player.seek_time p)
    (border_pause p).
Definition set_pc_elapsed t (p : PlayerControl) : PlayerControl :=
  mkPlayerControl (Player.command p) (Player.state p) (error_type p) (Player.error p)
    (tagged_song p) (bit_rate p) (audio_format p) (Player.total_time p) t (next_song p)
    (Player.seek_time p) (border_pause p).

Definition LockSetTaggedSong (s : DetachedSong) : P unit :=
  Lock ;; on_pc (set_tagged_song (Some s)) ;; Unlock.

(** ** [DecoderControl]: the methods of the player thread *)

Definition read_dc : P DecoderControl := read (λ w, dc (st w)).
Definition read_pl : P Player := read pl.
Definition read_pc : P PlayerControl := read pc.

Definition WaitForDecoder : P unit :=
  assert (λ w, negb (client_is_waiting (dc (st w)))) ;;
  on_dc (set_waiting true) ;;
  Wait ;;
  assert (λ w, client_is_waiting (dc (st w))) ;;
  on_dc (set_waiting false).

Definition LockIsIdle : P bool :=
  Lock ;; d <- read_dc ;; Unlock ;; Pure (IsIdle d).
Definition LockIsStarting : P bool :=
  Lock ;; d <- read_dc ;; Unlock ;; Pure (IsStarting d).
Definition LockIsCurrentSong (s : DetachedSong) : P bool :=
  Lock ;;
  b <- act (λ w, match IsCurrentSong s (dc (st w)) with Some b => Done b w | None => Fail end) ;;
  Unlock ;;
  Pure b.

Definition wait_command_round (_ : unit) : P (unit + unit) :=
  d <- read_dc ;;
  if decide (command d = DC_NONE) then Pure (inr tt)
  else WaitForDecoder ;; Pure (inl tt).
Definition WaitCommandLocked : P unit := loop wait_command_round tt.

Definition SynchronousCommandLocked (cmd : DecoderCommand) : P unit :=
  on_dc (Decoder.set_command cmd) ;; WaitCommandLocked.

Definition LockSynchronousCommand (cmd : DecoderCommand) : P unit :=
  Lock ;; on_dc Decoder.ClearError ;; SynchronousCommandLocked cmd ;; Unlock.

Definition Start (s : DetachedSong) (st_ et : Z) (q : nat) : P unit :=
  assert (λ w, match pipes (st w) !! q with Some p => MusicPipe.IsEmpty p | None => false end) ;;
  on_dc (set_start s st_ et q) ;;
  LockSynchronousCommand DC_START.

Definition Stop : P unit :=
  Lock ;;
  d <- read_dc ;;
  (if decide (command d = DC_NONE) then Pure tt else SynchronousCommandLocked DC_STOP) ;;
  d <- read_dc ;;
  (if IsIdle d then Pure tt else SynchronousCommandLocked DC_STOP) ;;
  Unlock.

(** Returns the message of the error thrown, if any. *)
Definition Seek (t : Z) : P (option (list Z)) :=
  yield ;;
  d <- read_dc ;;
  match state d with
  | DECODER_START | DECODER_ERROR => act abort
  | DECODER_STOP => Pure (Some (str "Decoder is dead"))
  | DECODER_DECODE =>
      if negb (seekable d) then Pure (Some (str "Not seekable"))
      else
        on_dc (set_seek false t) ;;
        LockSynchronousCommand DC_SEEK ;;
        d <- read_dc ;;
        Pure (if seek_error d then Some (str "Decoder failed to seek") else None)
  end.

(** [quit = true; LockAsynchronousCommand(STOP)]; the thread then ends. *)
Definition Quit : P unit :=
  Lock ;; on_dc (Decoder.set_command DC_STOP) ;; Unlock.

(** ** [class Player] *)

Definition is_null {A : Set} (o : option A) : bool := match o with None => true | Some _ => false end.

(** [new MusicPipe()] and [delete pipe] *)
Definition new_pipe : P nat := act (λ w,
  Done (next_pipe w) (mkWorld (pc w) (put_pipe (next_pipe w) MusicPipe.make (st w)) (out w)
    (devices w) (pl w) (S (next_pipe w)) (locked w) (answered w) (events w))).

Definition drop_pipe (q : nat) (s : stage) : option stage :=
  p ← pipes s !! q;
  _ ← MusicPipe.delete p;
  Some (mkStage (dc s) (bridge s) (buffer s) (base.delete q (pipes s))).
Definition delete_pipe (q : nat) : P unit := on_stage (drop_pipe q).

(** The member [pipe], which must not be null. *)
Definition the_pipe : P nat := act (λ w, lift (pipe (pl w)) w).

(** [pipe->GetSize()] *)
Definition pipe_size (q : nat) : P nat :=
  act (λ w, match pipes (st w) !! q with
            | Some p => Done (MusicPipe.GetSize p) w
            | None => Fail
            end).

Definition ResetCrossFade : P unit := on_pl (λ p, set_xfade XFADE_UNKNOWN (cross_fade_chunks p) p).

Definition ClearAndDeletePipe : P unit :=
  q <- the_pipe ;;
  on_stage (clear_pipe q) ;;
  delete_pipe q.

Definition ClearAndReplacePipe (_pipe : option nat) : P unit :=
  ResetCrossFade ;;
  ClearAndDeletePipe ;;
  on_pl (set_pipe _pipe).

Definition ReplacePipe (_pipe : option nat) : P unit :=
  ResetCrossFade ;;
  q <- the_pipe ;;
  delete_pipe q ;;
  on_pl (set_pipe _pipe).

Definition queued_or_seek (w : world) : bool :=
  queued (pl w) || bool_decide (Player.command (pc w) = COMMAND_SEEK).

(** [*pc.next_song] *)
Definition the_next_song : P DetachedSong := act (λ w, lift (next_song (pc w)) w).

Definition StartDecoder (_pipe : nat) : P unit :=
  assert queued_or_seek ;;
  s <- the_next_song ;;
  Lock ;; Unlock ;;
  s <- the_next_song ;;
  p <- read_pc ;;
  Start s (time_add (GetStartTime s) (Player.seek_time p)) (GetEndTime s) _pipe.

Definition StopDecoder : P unit :=
  Stop ;;
  d <- read_dc ;;
  p <- read_pl ;;
  match Decoder.pipe d with
  | None => Pure tt
  | Some q =>
      on_stage (clear_pipe q) ;;
      (if decide (Some q = pipe p) then Pure tt else delete_pipe q) ;;
      on_dc (Decoder.set_pipe None) ;;
      ResetCrossFade
  end.

(** Returns [false] if the decoder has failed. *)
Definition ForwardDecoderError : P bool :=
  e <- act (λ w, lift (CheckRethrowError (dc (st w))) w) ;;
  match e with
  | Some e => SetError ERROR_DECODER e ;; Pure false
  | None => Pure true
  end.

Definition ActivateDecoder : P unit :=
  assert queued_or_seek ;;
  s <- the_next_song ;;
  on_pl (set_queued false) ;;
  Lock ;;
  on_pc (set_tagged_song None) ;;
  s <- the_next_song ;;
  on_pl (set_song (Some s)) ;;
  on_pc (set_next_song None) ;;
  p <- read_pc ;;
  on_pl (set_elapsed (Player.seek_time p)) ;;
  on_pl (set_starting true) ;;
  on_pc (set_play_info (GetDuration s) 0 Undefined) ;;
  Unlock ;;
  notify OnPlayerSync.

Definition real_song_duration (s : DetachedSong) (decoder_duration : Z) : Z :=
  if Tag.IsNegative decoder_duration then GetDuration s
  else
    let start_time := GetStartTime s in
    let end_time := GetEndTime s in
    if IsPositive end_time && (end_time <? SongTime_of decoder_duration)%Z
    then SignedSongTime_of (time_sub end_time start_time)
    else SignedSongTime_of (time_sub (SongTime_of decoder_duration) start_time).

Definition state_is_open (w : world) : bool :=
  bool_decide (Player.state (pc w) = STATE_PLAY) || bool_decide (Player.state (pc w) = STATE_PAUSE).

Definition OpenOutput : P bool :=
  assert (λ w, IsDefined (play_audio_format (pl w))) ;;
  assert state_is_open ;;
  p <- read_pl ;;
  r <- try_outs (Outputs.Open (play_audio_format p)) ;;
  match r with
  | inl e =>
      on_pl (set_open false) ;;
      on_pl (set_paused true) ;;
      Lock ;;
      SetError ERROR_OUTPUT (exn_text e) ;;
      on_pc (Player.set_state STATE_PAUSE) ;;
      Unlock ;;
      notify IdlePlayer ;;
      Pure false
  | inr _ =>
      on_pl (set_open true) ;;
      on_pl (set_paused false) ;;
      Lock ;;
      on_pc (Player.set_state STATE_PLAY) ;;
      Unlock ;;
      notify IdlePlayer ;;
      Pure true
  end.

(** [MultipleOutputs::Wait] *)
Definition outputs_Wait (threshold : nat) : P bool :=
  Lock ;;
  n <- on_outs Outputs.Check ;;
  if n <? threshold then Unlock ;; Pure true
  else
    Wait ;;
    Unlock ;;
    n <- on_outs Outputs.Check ;;
    Pure (n <? threshold).

(** The part of [CheckDecoderStartup] behind the check that the outputs have finished. *)
Definition finish_startup : P bool :=
  Lock ;;
  d <- read_dc ;;
  s <- act (λ w, lift (Decoder.song (dc (st w))) w) ;;
  on_pc (λ p, set_play_info (real_song_duration s (Decoder.total_time d)) (bit_rate p)
                (in_audio_format d) p) ;;
  Unlock ;;
  notify IdlePlayer ;;
  d <- read_dc ;;
  on_pl (set_play_format (out_audio_format d)) ;;
  on_pl (set_starting false) ;;
  p <- read_pl ;;
  (if paused p then Pure tt else OpenOutput ;; Pure tt) ;;
  Pure true.

Definition CheckDecoderStartup : P bool :=
  assert (λ w, decoder_starting (pl w)) ;;
  Lock ;;
  ok <- ForwardDecoderError ;;
  if negb ok then Unlock ;; Pure false
  else
    d <- read_dc ;;
    if negb (IsStarting d) then
      Unlock ;;
      p <- read_pl ;;
      ready <- (if output_open p then outputs_Wait 1 else Pure true) ;;
      if ready then finish_startup else Pure true
    else
      WaitForDecoder ;;
      Unlock ;;
      Pure true.

(** [while (decoder_starting) ...]; the result of [WaitDecoderStartup] *)
Definition startup_round (_ : unit) : P (unit + bool) :=
  p <- read_pl ;;
  if negb (decoder_starting p) then Pure (inr true)
  else
    ok <- CheckDecoderStartup ;;
    if negb ok then
      on_outs Outputs.Cancel ;;
      LockCommandFinished ;;
      Pure (inr false)
    else Pure (inl tt).
Definition WaitDecoderStartup : P bool := loop startup_round tt.

(** [buffer.Allocate()] and [buffer.Return(chunk)] *)
Definition allocate_chunk : P (option MusicChunk.t) := act (λ w,
  match MusicBuffer.Allocate (buffer (st w)) with
  | Some (r, b) => Done r (put_st (put_buffer b (st w)) w)
  | None => Fail
  end).
Definition return_chunk (c : MusicChunk.t) : P unit := on_stage (λ s,
  b ← MusicBuffer.Return c (buffer s); Some (put_buffer b s)).

(** Chunks of silence have no time stamp. *)
Definition SendSilence : P bool :=
  assert (λ w, output_open (pl w)) ;;
  assert (λ w, IsDefined (play_audio_format (pl w))) ;;
  r <- allocate_chunk ;;
  match r with
  | None => Pure true
  | Some chunk =>
      p <- read_pl ;;
      let frame_size := GetFrameSize (play_audio_format p) in
      let num_frames := (MusicChunk.CHUNK_SIZE / frame_size)%Z in
      let chunk := MusicChunk.set_data (play_audio_format p) Tag.Negative
                     (num_frames * frame_size) chunk in
      r <- try_outs (Outputs.Play chunk) ;;
      match r with
      | inl _ =>
          return_chunk chunk ;;
          Pure false
      | inr _ => Pure true
      end
  end.

(** The branch of [SeekDecoder] for a decoder that works on another song. *)
Definition seek_restart : P bool :=
  StopDecoder ;;
  q <- the_pipe ;;
  on_stage (clear_pipe q) ;;
  StartDecoder q ;;
  ActivateDecoder ;;
  WaitDecoderStartup.

(** The branch for a decoder that works on this song. *)
Definition seek_current (start_time : Z) : P bool :=
  assert (λ w, negb (is_null (pipe (pl w)))) ;;
  p <- read_pl ;;
  d <- read_dc ;;
  (if decide (Decoder.pipe d = pipe p) then Pure tt
   else ClearAndReplacePipe (Decoder.pipe d)) ;;
  on_pc (set_next_song None) ;;
  on_pl (set_queued false) ;;
  ok <- WaitDecoderStartup ;;
  if negb ok then Pure false
  else
    p <- read_pc ;;
    let where_ :=
      if negb (Tag.IsNegative (Player.total_time p)) &&
         (SongTime_of (Player.total_time p) <? Player.seek_time p)%Z
      then SongTime_of (Player.total_time p) else Player.seek_time p in
    e <- Seek (time_add where_ start_time) ;;
    match e with
    | Some e => SetError ERROR_DECODER e ;; LockCommandFinished ;; Pure false
    | None => on_pl (set_elapsed where_) ;; Pure true
    end.

Definition SeekDecoder : P bool :=
  s <- the_next_song ;;
  on_outs Outputs.Cancel ;;
  same <- LockIsCurrentSong s ;;
  ok <- (if negb same then seek_restart else seek_current (GetStartTime s)) ;;
  if negb ok then Pure false
  else
    LockCommandFinished ;;
    assert (λ w, bool_decide (xfade_state (pl w) = XFADE_UNKNOWN)) ;;
    on_pl (set_buffering true) ;;
    Pure true.

(** [IsDecoderAtNextSong]; [pipe] must not be null when it is compared. *)
Definition at_next_song (w : world) : bool :=
  negb (is_null (Decoder.pipe (dc (st w)))) && negb (bool_decide (Decoder.pipe (dc (st w)) = pipe (pl w))).
Definition IsDecoderAtNextSong : P bool :=
  assert (λ w, is_null (Decoder.pipe (dc (st w))) || negb (is_null (pipe (pl w)))) ;;
  read at_next_song.

(** *** Commands *)

Definition process_queue : P unit :=
  assert (λ w, negb (is_null (next_song (pc w)))) ;;
  assert (λ w, negb (queued (pl w))) ;;
  next <- IsDecoderAtNextSong ;;
  assert (λ _, negb next) ;;
  on_pl (set_queued true) ;;
  CommandFinished ;;
  Unlock ;;
  idle <- LockIsIdle ;;
  (if idle then q <- new_pipe ;; StartDecoder q else Pure tt) ;;
  Lock.

Definition process_pause : P unit :=
  Unlock ;;
  on_pl (λ p, set_paused (negb (paused p)) p) ;;
  p <- read_pl ;;
  (if paused p then
     on_outs Outputs.Pause ;;
     Lock ;;
     on_pc (Player.set_state STATE_PAUSE)
   else if negb (IsDefined (play_audio_format p)) then
     Lock ;;
     on_pc (Player.set_state STATE_PLAY)
   else
     OpenOutput ;;
     Lock) ;;
  CommandFinished.

Definition process_cancel : P unit :=
  p <- read_pc ;;
  if is_null (next_song p) then on_pc (Player.set_command COMMAND_STOP)
  else
    next <- IsDecoderAtNextSong ;;
    (if next : bool then Unlock ;; StopDecoder ;; Lock else Pure tt) ;;
    on_pc (set_next_song None) ;;
    on_pl (set_queued false) ;;
    CommandFinished.

Definition process_refresh : P unit :=
  p <- read_pl ;;
  (if output_open p && negb (paused p) then Unlock ;; on_outs Outputs.Check ;; Lock else Pure tt) ;;
  e <- on_outs Outputs.GetElapsedTime ;;
  p <- read_pl ;;
  on_pc (set_pc_elapsed (if negb (Tag.IsNegative e) then SongTime_of e else elapsed_time p)) ;;
  CommandFinished.

Definition process_update_audio : P unit :=
  Unlock ;; on_outs Outputs.EnableDisable ;; Lock ;; CommandFinished.

Definition ProcessCommand : P unit :=
  p <- read_pc ;;
  match Player.command p with
  | COMMAND_NONE | COMMAND_STOP | COMMAND_EXIT | COMMAND_CLOSE_AUDIO => Pure tt
  | COMMAND_UPDATE_AUDIO => process_update_audio
  | COMMAND_QUEUE => process_queue
  | COMMAND_PAUSE => process_pause
  | COMMAND_SEEK => Unlock ;; SeekDecoder ;; Lock
  | COMMAND_CANCEL => process_cancel
  | COMMAND_REFRESH => process_refresh
  end.

(** *** Playing chunks *)

Definition update_song_tag (new_tag : Tag.Tag) : P unit :=
  s <- act (λ w, lift (song (pl w)) w) ;;
  if IsFile s then Pure tt
  else
    on_pl (set_song (Some (SetTag new_tag s))) ;;
    LockSetTaggedSong (SetTag new_tag s) ;;
    notify OnPlayerTagModified ;;
    notify IdlePlayer.

(** Returns the exception thrown, if any. *)
Definition play_chunk (chunk : MusicChunk.t) (format : AudioFormat.AudioFormat) : P (option exn) :=
  ok <- act (lift (MusicChunk.CheckFormat chunk format)) ;;
  assert (λ _, ok) ;;
  (match MusicChunk.tag chunk with Some t => update_song_tag t | None => Pure tt end) ;;
  if MusicChunk.IsEmpty chunk then return_chunk chunk ;; Pure None
  else
    Lock ;;
    on_pc (λ p, set_play_info (Player.total_time p) (MusicChunk.bit_rate chunk) (audio_format p) p) ;;
    Unlock ;;
    r <- try_outs (Outputs.Play chunk) ;;
    Pure (match r with inl e => Some e | inr _ => None end).

(** [pipe->Shift()] *)
Definition shift_pipe (q : nat) : P (option MusicChunk.t) := act (λ w,
  match pipes (st w) !! q with
  | Some p =>
      match MusicPipe.Shift p with
      | Some (c, p) => Done c (put_st (put_pipe q p (st w)) w)
      | None => Fail
      end
  | None => Fail
  end).

(** A chunk of the old song with one of the new song mixed in.  Returns [None] when the
    thread has waited for the decoder instead. *)
Definition mix_chunk (q : nat) : P (option (option MusicChunk.t)) :=
  next <- IsDecoderAtNextSong ;;
  assert (λ _, next) ;;
  cross_fade_position <- pipe_size q ;;
  assert (λ w, cross_fade_position <=? cross_fade_chunks (pl w)) ;;
  dq <- act (λ w, lift (Decoder.pipe (dc (st w))) w) ;;
  other_chunk <- shift_pipe dq ;;
  match other_chunk with
  | Some other_chunk =>
      r <- shift_pipe q ;;
      chunk <- act (lift r) ;;
      assert (λ _, is_null (MusicChunk.other chunk)) ;;
      p <- read_pl ;;
      t <- act (lift (Tag.MergeReplace (cross_fade_tag p) (MusicChunk.tag other_chunk))) ;;
      on_pl (set_xfade_tag t) ;;
      let other_chunk := MusicChunk.set_tag None other_chunk in
      if MusicChunk.IsEmpty other_chunk then
        return_chunk other_chunk ;;
        Pure (Some (Some (MusicChunk.set_other None chunk)))
      else Pure (Some (Some (MusicChunk.set_other (Some other_chunk) chunk)))
  | None =>
      Lock ;;
      d <- read_dc ;;
      if IsIdle d then
        Unlock ;;
        on_pl (λ p, set_xfade XFADE_DISABLED (cross_fade_chunks p) p) ;;
        Pure (Some None)
      else
        WaitForDecoder ;;
        Unlock ;;
        Pure None
  end.

Section Config.
Context `{!PlayerConfig}.

(** The end of [PlayNextChunk]: when to wake up the decoder. *)
Definition wake_decoder : P unit :=
  Lock ;;
  d <- read_dc ;;
  low <- (if IsIdle d then Pure false
          else
            dq <- act (lift (Decoder.pipe d)) ;;
            n <- pipe_size dq ;;
            b <- read (λ w, MusicBuffer.GetSize (buffer (st w))) ;;
            Pure (n <=? (buffered_before_play + b * 3) / 4)) ;;
  on_pl (set_woken low) ;;
  Unlock.

(** The chunk is chosen; play it. *)
Definition play_next (chunk : MusicChunk.t) : P bool :=
  p <- read_pl ;;
  t <- (if negb (bool_decide (xfade_state p = XFADE_ACTIVE)) && negb (is_null (cross_fade_tag p)) then
          t <- act (lift (Tag.MergeReplace (MusicChunk.tag chunk) (cross_fade_tag p))) ;;
          on_pl (set_xfade_tag None) ;;
          Pure t
        else Pure (MusicChunk.tag chunk)) ;;
  let chunk := MusicChunk.set_tag t chunk in
  r <- play_chunk chunk (play_audio_format p) ;;
  match r with
  | Some e =>
      return_chunk chunk ;;
      Lock ;;
      SetError ERROR_OUTPUT (exn_text e) ;;
      on_pc (Player.set_state STATE_PAUSE) ;;
      on_pl (set_paused true) ;;
      Unlock ;;
      notify IdlePlayer ;;
      Pure false
  | None => wake_decoder ;; Pure true
  end.

Definition begin_cross_fade (q : nat) : P unit :=
  next <- IsDecoderAtNextSong ;;
  n <- pipe_size q ;;
  p <- read_pl ;;
  if bool_decide (xfade_state p = XFADE_ENABLED) && next && (n <=? cross_fade_chunks p)
  then on_pl (set_xfade XFADE_ACTIVE n) else Pure tt.

Definition PlayNextChunk : P bool :=
  ready <- outputs_Wait 64 ;;
  if negb ready then Pure true
  else
    q <- the_pipe ;;
    begin_cross_fade q ;;
    p <- read_pl ;;
    m <- (if decide (xfade_state p = XFADE_ACTIVE) then mix_chunk q else Pure (Some None)) ;;
    match m with
    | None => Pure true
    | Some (Some chunk) => play_next chunk
    | Some None =>
        r <- shift_pipe q ;;
        chunk <- act (lift r) ;;
        play_next chunk
    end.

Definition SongBorder : P unit :=
  d <- read_dc ;;
  ReplacePipe (Decoder.pipe d) ;;
  on_outs Outputs.SongBorder ;;
  ActivateDecoder ;;
  Lock ;;
  p <- read_pc ;;
  (if border_pause p then on_pl (set_paused true) ;; on_pc (Player.set_state STATE_PAUSE)
   else Pure tt) ;;
  Unlock ;;
  if border_pause p then notify IdlePlayer else Pure tt.

(** *** The main loop during playback *)

(** How a round of the loop of [Run] ends: the mutex is held after [continue_], not
    after [break_]. *)
Definition continue_ : unit + unit := inl tt.
Definition break_ : unit + unit := inr tt.

Definition stop_command (c : PlayerCommand) : bool :=
  match c with COMMAND_STOP | COMMAND_EXIT | COMMAND_CLOSE_AUDIO => true | _ => false end.

(** Buffering at the start of a song; [None] when the round goes on. *)
Definition run_buffering : P (option (unit + unit)) :=
  p <- read_pl ;;
  if negb (buffering p) then Pure None
  else
    q <- the_pipe ;;
    n <- pipe_size q ;;
    idle <- (if n <? buffered_before_play then LockIsIdle else Pure true) ;;
    if (n <? buffered_before_play) && negb idle then
      ok <- (if negb (paused p) && output_open p then
               n <- on_outs Outputs.Check ;;
               if n <? 4 then SendSilence else Pure true
             else Pure true) ;;
      if negb ok then Pure (Some break_)
      else
        Lock ;;
        WaitForDecoder ;;
        Pure (Some continue_)
    else
      on_pl (set_buffering false) ;;
      Pure None.

(** The decoder has finished the current song: make it decode the next one. *)
Definition run_start_next : P unit :=
  idle <- LockIsIdle ;;
  p <- read_pl ;;
  d <- read_dc ;;
  if idle && queued p && bool_decide (Decoder.pipe d = pipe p) then
    assert (λ w, is_null (Decoder.pipe (dc (st w))) ||
                 bool_decide (Decoder.pipe (dc (st w)) = pipe (pl w))) ;;
    q <- new_pipe ;;
    StartDecoder q
  else Pure tt.

(** Decide whether to cross-fade into the next song. *)
Definition run_cross_fade : P unit :=
  yield ;;
  c <- read_pc ;;
  next <- IsDecoderAtNextSong ;;
  p <- read_pl ;;
  if negb (border_pause c) && next && bool_decide (xfade_state p = XFADE_UNKNOWN) then
    starting <- LockIsStarting ;;
    if negb starting then
      d <- read_dc ;;
      b <- read (λ w, MusicBuffer.GetSize (buffer (st w))) ;;
      let chunks := Calculate (Decoder.total_time d) (out_audio_format d) (play_audio_format p)
                      (b - buffered_before_play) in
      on_pl (set_xfade (if 0 <? chunks then XFADE_ENABLED else XFADE_DISABLED) chunks)
    else Pure tt
  else Pure tt.

(** The rest of a round: play a chunk, or wait, or go over to the next song. *)
Definition run_play : P (unit + unit) :=
  p <- read_pl ;;
  if paused p then
    Lock ;;
    c <- read_pc ;;
    (if decide (Player.command c = COMMAND_NONE) then Wait else Pure tt) ;;
    Pure continue_
  else
    q <- the_pipe ;;
    n <- pipe_size q ;;
    if negb (n =? 0) then
      PlayNextChunk ;; Lock ;; Pure continue_
    else
      n <- on_outs Outputs.Check ;;
      if 0 <? n then
        Lock ;; WaitForDecoder ;; Pure continue_
      else
        next <- IsDecoderAtNextSong ;;
        if next : bool then
          SongBorder ;; Lock ;; Pure continue_
        else
          idle <- LockIsIdle ;;
          if idle : bool then
            n <- pipe_size q ;;
            if n =? 0 then on_outs Outputs.Drain ;; Pure break_
            else Lock ;; Pure continue_
          else
            p <- read_pl ;;
            if output_open p then
              ok <- SendSilence ;;
              if negb ok then Pure break_ else Lock ;; Pure continue_
            else Lock ;; Pure continue_.

(** One round, with the mutex held. *)
Definition run_round (_ : unit) : P (unit + unit) :=
  ProcessCommand ;;
  c <- read_pc ;;
  if stop_command (Player.command c) then
    Unlock ;;
    on_outs Outputs.Cancel ;;
    Pure break_
  else
    Unlock ;;
    r <- run_buffering ;;
    match r with
    | Some r => Pure r
    | None =>
        p <- read_pl ;;
        if decoder_starting p then
          ok <- CheckDecoderStartup ;;
          if negb ok then Pure break_ else Lock ;; Pure continue_
        else
          run_start_next ;;
          run_cross_fade ;;
          run_play
    end.

(** What [Run] does at the end of playback. *)
Definition run_end : P unit :=
  StopDecoder ;;
  ClearAndDeletePipe ;;
  on_pl (set_xfade_tag None) ;;
  on_pl (set_song None) ;;
  Lock ;;
  on_pc (set_tagged_song None) ;;
  p <- read_pl ;;
  (if queued p then the_next_song ;; on_pc (set_next_song None) else Pure tt) ;;
  on_pc (Player.set_state STATE_STOP) ;;
  Unlock.

Definition Run : P unit :=
  q <- new_pipe ;;
  on_pl (set_pipe (Some q)) ;;
  StartDecoder q ;;
  ActivateDecoder ;;
  Lock ;;
  on_pc (Player.set_state STATE_PLAY) ;;
  CommandFinished ;;
  loop run_round tt ;;
  run_end.

(** The constructor leaves [play_audio_format] uninitialised. *)
Definition make_player : Player :=
  mkPlayer None true false false false true false None XFADE_UNKNOWN 0 None
    uninitialized_format 0.

Definition do_play : P unit :=
  on_pl (λ _, make_player) ;;
  Run.

(** *** The thread *)

Definition drop_next : P unit := on_pc (set_next_song None) ;; CommandFinished.

(** One round of [player_task], with the mutex held; [inr] when the thread ends. *)
Definition task_round (_ : unit) : P (unit + unit) :=
  p <- read_pc ;;
  match Player.command p with
  | COMMAND_SEEK | COMMAND_QUEUE =>
      assert (λ w, negb (is_null (next_song (pc w)))) ;;
      Unlock ;;
      do_play ;;
      notify OnPlayerSync ;;
      Lock ;;
      Pure (inl tt)
  | COMMAND_STOP =>
      Unlock ;; on_outs Outputs.Cancel ;; Lock ;; drop_next ;; Pure (inl tt)
  | COMMAND_PAUSE => drop_next ;; Pure (inl tt)
  | COMMAND_CLOSE_AUDIO =>
      Unlock ;;
      on_outs Outputs.Release ;;
      Lock ;;
      CommandFinished ;;
      assert (λ w, MusicBuffer.IsEmptyUnsafe (buffer (st w))) ;;
      Pure (inl tt)
  | COMMAND_UPDATE_AUDIO =>
      Unlock ;; on_outs Outputs.EnableDisable ;; Lock ;; CommandFinished ;; Pure (inl tt)
  | COMMAND_EXIT =>
      Unlock ;; Quit ;; on_outs Outputs.Close ;; LockCommandFinished ;; Pure (inr tt)
  | COMMAND_CANCEL => drop_next ;; Pure (inl tt)
  | COMMAND_REFRESH => CommandFinished ;; Pure (inl tt)
  | COMMAND_NONE => Wait ;; Pure (inl tt)
  end.

Definition player_task : P unit := Lock ;; loop task_round tt.

End Config.

End PlayerTask.
