(* ===== verification/PlayerSteps.v ===== *)
(** * The player thread and its environment

    What the main thread, the decoder thread and the devices may do while the player thread
    has released the mutex ([env_step]), what the player thread promises in return ([pcg]),
    and the rules by which its code is stepped through.

    One assumption is made about timing: a decoder does not reach the end of its song while
    the player executes a SEEK command on it ([env_decoder]). *)

From Stdlib Require Import ZArith Lia ZifyBool.
From stdpp Require Import base numbers sets strings list gmap relations.
From S2P Require Import Prelude AudioFormat Tag Song Prog Threads Music Decoder DecoderFacts Outputs Player PlayerTask.

Set Default Goal Selector "!".

Module PlayerRely.
Import Song Player AudioFormat Decoder DecoderFacts PlayerTask.

(** ** The main thread *)

Definition main_step (p p' : PlayerControl) : Prop :=
  Player.command p = COMMAND_NONE ∧ rest_step p p' ∨ post_step p p'.

(** Any number of its steps. *)
Definition main_rel (p p' : PlayerControl) : Prop :=
  p' = p ∨ main_step p p'.

Lemma error_cleared_trans p p1 p2 : error_cleared p p1 → error_cleared p1 p2 → error_cleared p p2.
Proof. intros [[H1 H2]|[H1 H2]] [[H3 H4]|[H3 H4]]; unfold error_cleared; rewrite ?H3, ?H4; auto. Qed.

Lemma main_rel_step p p1 p2 : main_rel p p1 → main_step p1 p2 → main_rel p p2.
Proof.
  intros [->|[[Hc Hr]|Hp]] Hs; right; [done| |].
  - destruct Hr as [R1 R2 R3 R4]. destruct Hs as [[_ [S1 S2 S3 S4]]|[S1 S2 S3 S4 S5]].
    + left. split; [done|]. constructor; [congruence..|by eapply error_cleared_trans].
    + right. constructor; [done|done|congruence|by eapply error_cleared_trans|].
      destruct (needs_next (Player.command p2)); [|congruence]. by rewrite <-R3.
  - exfalso. destruct Hs as [[Hc _]|[Hc _]]; by apply (proj1 (ps_pending _ _ Hp)).
Qed.

(** The error fields agree, and the thread is not asked to exit. *)
Definition pc_ok (p : PlayerControl) : Prop :=
  (error_type p = ERROR_NONE ↔ Player.error p = None) ∧ Player.command p ≠ COMMAND_EXIT.

Lemma main_rel_ok p p' : main_rel p p' → pc_ok p → pc_ok p'.
Proof.
  unfold pc_ok. intros Hm [He Hx].
  assert (Hc : p' = p ∨ error_cleared p p') by (destruct Hm as [|[[_ H]|H]]; [by left|right; apply H..]).
  split; [by destruct Hc as [->|[[-> ->]|[-> ->]]]|].
  destruct Hm as [->|[[_ H]|H]]; [done|by rewrite (rs_command _ _ H)|apply H].
Qed.

Lemma pc_ok_error t e p : t ≠ ERROR_NONE → pc_ok p → pc_ok (set_error t (Some e) p).
Proof. intros Ht [_ Hx]. split; [|done]. by split. Qed.

Lemma main_rel_state p p' : main_rel p p' → Player.state p' = Player.state p.
Proof. intros [->|[[_ H]|H]]; [done|apply H..]. Qed.

Lemma main_rel_pending p p' : main_rel p p' → Player.command p ≠ COMMAND_NONE → p' = p.
Proof. intros [->|[[H _]|H]] Hc; [done|done|]. by destruct H. Qed.

(** No song is put into the place of another one. *)
Lemma main_rel_next p p' : main_rel p p' → next_song p ≠ None → next_song p' = next_song p.
Proof.
  intros [->|[[_ H]|H]] Hn; [done|apply H|]. pose proof (ps_next _ _ H) as H'.
  destruct (needs_next _); [by destruct H'|done].
Qed.

(** ** The promise of the player thread *)

(** [n] and [n'] count the commands that were answered. *)
Record pcg (p : PlayerControl) (n : nat) (p' : PlayerControl) (n' : nat) : Prop := {
  pg_border : border_pause p' = border_pause p;
  pg_next : keeps_next p p';
  pg_command :
    Player.command p' = Player.command p ∧ n' = n ∨
    Player.command p = COMMAND_CANCEL ∧ Player.command p' = COMMAND_STOP ∧ n' = n ∨
    Player.command p ≠ COMMAND_NONE ∧ Player.command p' = COMMAND_NONE ∧ n' = S n ∧
      (takes_next (Player.command p) = true → next_song p' = None) ∧
      (Player.command p = COMMAND_CLOSE_AUDIO → Player.state p' = STATE_STOP);
  pg_stop : Player.state p = STATE_STOP → Player.command p = COMMAND_NONE → p' = p;
}.

Lemma pcg_refl p n : pcg p n p n.
Proof. constructor; [done|by left|by left|done]. Qed.

(** ** The environment *)

Section Env.
Context {cfg : PlayerConfig}.
#[local] Abbreviation af := configured_audio_format.
Hypothesis Haf : IsValid af = true.

Inductive env_step (w : world) : world → Prop :=
| env_decoder a s' :
    decoder_act af a (st w) = Some s' →
    (Player.command (pc w) = COMMAND_SEEK → command (dc (st w)) ≠ DC_STOP →
     state (dc (st w)) = DECODER_DECODE → ∀ f, a ≠ D_end f) →
    env_step w (put_st s' w)
| env_devices l : env_step w (put_devices l w)
| env_main p' : main_step (pc w) p' → env_step w (upd_pc (λ _, p') w).

(** What the player thread knows after any number of steps. *)
Record env_rel (l : list nat) (w w' : world) : Prop := {
  e_pl : pl w' = pl w;
  e_out : out w' = out w;
  e_next_pipe : next_pipe w' = next_pipe w;
  e_locked : locked w' = locked w;
  e_answered : answered w' = answered w;
  e_main : main_rel (pc w) (pc w');
  e_stage : stage_rel (st w) (st w');
  e_ok : stage_ok af l (st w');
  e_decode : Player.command (pc w) = COMMAND_SEEK → command (dc (st w)) ≠ DC_STOP →
    state (dc (st w)) = DECODER_DECODE → state (dc (st w')) = DECODER_DECODE;
}.

Lemma env_rel_refl l w : stage_ok af l (st w) → env_rel l w w.
Proof. intros H. constructor; try done; by left. Qed.

Lemma env_rel_step l w w1 w2 : env_rel l w w1 → env_step w1 w2 → env_rel l w w2.
Proof.
  intros H Hs. destruct Hs as [a s' Ha Hend|ds|p' Hm]; destruct H as [H1 H2 H3 H4 H5 H6 H7 H8 H9];
    constructor; cbn; try done.
  - destruct (decoder_act_ok af Haf a l (st w1) H8) as (s2 & Heq & (_ & Hr & _)).
    rewrite Ha in Heq. injection Heq as ->. by etrans.
  - destruct (decoder_act_ok af Haf a l (st w1) H8) as (s2 & Heq & (Hok & _ & _)).
    rewrite Ha in Heq. by injection Heq as ->.
  - intros Hc Hs Hd. destruct (decoder_act_ok af Haf a l (st w1) H8) as (s2 & Heq & (_ & _ & Hk)).
    rewrite Ha in Heq. injection Heq as ->. destruct Hk as [|[f ->]]; [by apply H9|done|].
    exfalso. apply (Hend ltac:(by rewrite (main_rel_pending _ _ H6); [|rewrite Hc])) with f; [|by apply H9|done].
    destruct (sr_command _ _ H7); congruence.
  - by eapply main_rel_step.
Qed.

Lemma env_rel_rtc l w w' : stage_ok af l (st w) → rtc env_step w w' → env_rel l w w'.
Proof.
  intros Hs. apply (rtc_ind_r (λ z, env_rel l w z) w); [by apply env_rel_refl|].
  intros y z _ Hyz IH. by eapply env_rel_step.
Qed.

(** ** The protocol *)

(** Fair company: the decoder obeys, the devices play, and the main thread waits. *)
Definition settle (w : world) : world :=
  put_devices [] (put_st (obey_all af (st w)) w).

Definition player_protocol : protocol world := {|
  shared w := (∃ l, stage_ok af l (st w)) ∧ pc_ok (pc w);
  rely := rtc env_step;
  guar w w' := pcg (pc w) (answered w) (pc w') (answered w');
  served := answered;
  pending w := Player.command (pc w) ≠ COMMAND_NONE;
  fair := settle;
|}.

Lemma obey_step w : rtc env_step w (put_st (obey af (st w)) w).
Proof using Type.
  unfold obey. destruct (decoder_act af (obedient_action (st w)) (st w)) as [s'|] eqn:E.
  - apply rtc_once. eapply env_decoder; [exact E|]. intros _ Hc _ f Hf. by apply obedient_end in Hf.
  - cbn. by destruct w.
Qed.

#[global] Instance player_protocol_laws : ProtocolLaws player_protocol.
Proof using Type.
  clear Haf.
  constructor.
  - intros w. apply rtc_refl.
  - intros w. unfold rely, fair, player_protocol, settle, obey_all.
    pose proof (obey_step w) as H1.
    pose proof (obey_step (put_st (obey af (st w)) w)) as H2.
    pose proof (obey_step (put_st (obey af (obey af (st w))) w)) as H3.
    pose proof (obey_step (put_st (obey af (obey af (obey af (st w)))) w)) as H4.
    etrans; [exact H1|]. etrans; [exact H2|]. etrans; [exact H3|]. etrans; [exact H4|].
    apply rtc_once, env_devices.
  - intros k w H. exact H.
  - intros w w' Hg. cbn in *.
    destruct (pg_command _ _ _ _ Hg) as [[_ ->]|[(_ & _ & ->)|(_ & _ & -> & _)]]; lia.
  - intros k w w' Hg. unfold owes, served, pending, player_protocol. cbn in *.
    destruct (pg_command _ _ _ _ Hg) as [[-> ->]|[(H1 & H2 & ->)|(H1 & H2 & -> & _)]].
    + done.
    + intros [|(_ & -> & _)]; [by left|right; split_and!; [done|done|by rewrite H2]].
    + intros [|(_ & -> & _)]; left; lia.
Qed.

(** What the player thread knows when it goes on after a yield. *)
Record after (md : mode) (l : list nat) (w w' : world) : Prop := {
  af_env : env_rel l w w';
  af_err : pc_ok (pc w');
  af_mode : md ≠ Never;
  af_calm : md = Calm → settled (st w') ∧ devices w' = [];
}.

Lemma after_company md l w w' : stage_ok af l (st w) → pc_ok (pc w) →
  company player_protocol md w w' → after md l w w'.
Proof.
  intros Hs He Hc. assert (Hr : env_rel l w w').
  { apply env_rel_rtc; [done|]. destruct md; [done| |done]. cbn in Hc. subst w'.
    apply player_protocol_laws. }
  constructor; [done| | |].
  - eapply main_rel_ok; [apply Hr|done].
  - by destruct md.
  - intros ->. cbn in Hc. subst w'. split; [|done]. by eapply obey_all_settled.
Qed.

End Env.
End PlayerRely.

(** * Stepping through the player thread

    Proof rules for the primitive actions of [PlayerTask], and the specifications of the
    client side of [DecoderControl]: a command posted to the decoder is answered, and the
    stage is in order afterwards. *)

Module PlayerSteps.
Import Song Player AudioFormat Decoder DecoderFacts PlayerTask PlayerRely.

Section Steps.
Context {cfg : PlayerConfig}.
#[local] Abbreviation af := configured_audio_format.
Hypothesis Haf : IsValid af = true.
Context (md : mode).
#[local] Abbreviation V := (valid player_protocol md).
Implicit Types w : world.

(** ** Actions *)

Lemma v_act {A B : Set} (m : prog world B) (k : B → proc world A) c Q w b w' :
  m w = Done b w' → pc w' = pc w → answered w' = answered w →
  V c (k b) Q w' → V (S c) (pbind (act m) k) Q w.
Proof.
  intros Hm Hp Ha Hk. apply valid_act; [apply _|]. unfold wp. rewrite Hm. split; [|done].
  unfold guar, player_protocol. rewrite Hp, Ha. apply pcg_refl.
Qed.

Lemma v_read {A B : Set} (f : world → B) (k : B → proc world A) c Q w :
  V c (k (f w)) Q w → V (S c) (pbind (read f) k) Q w.
Proof. by apply v_act. Qed.

Lemma v_assert {A : Set} f (k : unit → proc world A) c Q w :
  f w = true → V c (k tt) Q w → V (S c) (pbind (assert f) k) Q w.
Proof. intros Hf. apply (v_act _ _ _ _ w tt w); [by rewrite Hf|done|done]. Qed.

Lemma v_on_pl {A : Set} f (k : unit → proc world A) c Q w :
  V c (k tt) Q (upd_pl f w) → V (S c) (pbind (on_pl f) k) Q w.
Proof. by apply v_act. Qed.

Lemma v_on_dc {A : Set} f (k : unit → proc world A) c Q w :
  V c (k tt) Q (put_st (upd_dc f (st w)) w) → V (S c) (pbind (on_dc f) k) Q w.
Proof. by apply v_act. Qed.

Lemma v_notify {A : Set} e (k : unit → proc world A) c Q w :
  V c (k tt) Q (emit e w) → V (S c) (pbind (notify e) k) Q w.
Proof. by apply v_act. Qed.

Lemma v_on_stage {A : Set} f s' (k : unit → proc world A) c Q w :
  f (st w) = Some s' → V c (k tt) Q (put_st s' w) → V (S c) (pbind (on_stage f) k) Q w.
Proof. intros Hf. apply (v_act _ _ _ _ w tt (put_st s' w)); [by rewrite Hf|done|done]. Qed.

Lemma v_lift {A B : Set} (o : option B) b (k : B → proc world A) c Q w :
  o = Some b → V c (k b) Q w → V (S c) (pbind (act (lift o)) k) Q w.
Proof. intros ->. by apply v_act. Qed.

Lemma v_lift_of {A B : Set} (f : world → option B) b (k : B → proc world A) c Q w :
  f w = Some b → V c (k b) Q w → V (S c) (pbind (act (λ w, lift (f w) w)) k) Q w.
Proof. intros Hf. apply (v_act _ _ _ _ w b w); [by rewrite Hf|done|done]. Qed.

Lemma v_on_pc {A : Set} f (k : unit → proc world A) c Q w :
  pcg (pc w) (answered w) (f (pc w)) (answered w) →
  V c (k tt) Q (upd_pc f w) → V (S c) (pbind (on_pc f) k) Q w.
Proof. intros Hg Hk. apply valid_act; [apply _|]. by split. Qed.

(** The world after [CommandFinished]. *)
Definition finished w : world :=
  mkWorld (Player.set_command COMMAND_NONE (pc w)) (st w) (out w) (devices w) (pl w)
    (next_pipe w) (locked w) (S (answered w)) (events w).

Lemma v_CommandFinished {A : Set} (k : unit → proc world A) c Q w :
  Player.command (pc w) ≠ COMMAND_NONE →
  (takes_next (Player.command (pc w)) = true → next_song (pc w) = None) →
  (Player.command (pc w) = COMMAND_CLOSE_AUDIO → Player.state (pc w) = STATE_STOP) →
  V c (k tt) Q (finished w) → V (S c) (pbind CommandFinished k) Q w.
Proof.
  intros Hc Ht Hs Hk. apply valid_act; [apply _|]. unfold wp, Player.CommandFinished.
  rewrite bool_decide_eq_false_2, check_bind by done. split; [|done].
  constructor; cbn; [done|by left| |done]. right; right. done.
Qed.

Lemma v_SetError {A : Set} t e (k : unit → proc world A) c Q w :
  t ≠ ERROR_NONE → (Player.state (pc w) = STATE_STOP → Player.command (pc w) ≠ COMMAND_NONE) →
  V c (k tt) Q (upd_pc (set_error t (Some e)) w) → V (S c) (pbind (SetError t e) k) Q w.
Proof.
  intros Ht Hc Hk. apply valid_act; [apply _|]. unfold wp, Player.SetError.
  rewrite bool_decide_eq_false_2, check_bind by done. split; [|done].
  constructor; cbn; [done|by left|by left|]. intros H1 H2. by destruct (Hc H1).
Qed.

(** A call of a method that was verified before. *)
Lemma v_call {A B : Set} c1 c (p : proc world A) (f : A → proc world B) (Q' : A → world → Prop)
    (Q : B → world → Prop) w :
  V c1 p Q' w → (∀ a w', Q' a w' → V c (f a) Q w') → V (c1 + c) (pbind p f) Q w.
Proof.
  clear Haf. intros Hp Hf. eapply valid_call; [exact Hp|lia|].
  replace (c1 + c - c1) with c by lia. done.
Qed.

(** ** The mutex *)

(** Other threads can act. *)
Lemma v_yield {A : Set} l (k : unit → proc world A) c Q w :
  stage_ok af l (st w) → pc_ok (pc w) →
  (∀ w', after md l w w' → V c (k tt) Q w') → V (S c) (pbind yield k) Q w.
Proof.
  intros Hs He Hk. apply valid_yield; [apply _|split; [by exists l|done]|].
  intros w' Hw. by apply Hk, after_company.
Qed.

Lemma v_Lock {A : Set} l (k : unit → proc world A) c Q w :
  locked w = false → stage_ok af l (st w) → pc_ok (pc w) →
  (∀ w', after md l w w' → V c (k tt) Q (put_locked true w')) →
  V (S (S c)) (pbind Lock k) Q w.
Proof.
  intros Hl Hs He Hk. unfold Lock. rewrite pbind_assoc. apply (v_yield l); [done|done|].
  intros w' Hr. apply (v_act _ _ _ _ _ tt (put_locked true w')); [|done|done|exact (Hk _ Hr)].
  by rewrite (e_locked _ _ _ (af_env _ _ _ _ Hr)), Hl.
Qed.

Lemma v_Unlock {A : Set} l (k : unit → proc world A) c Q w :
  locked w = true → stage_ok af l (st w) → pc_ok (pc w) →
  (∀ w', after md l (put_locked false w) w' → V c (k tt) Q w') →
  V (S (S c)) (pbind Unlock k) Q w.
Proof.
  intros Hl Hs He Hk. unfold Unlock. rewrite pbind_assoc.
  eapply v_act; [by rewrite Hl|done|done|]. by apply (v_yield l).
Qed.

Lemma v_Wait {A : Set} l (k : unit → proc world A) c Q w :
  locked w = true → stage_ok af l (st w) → pc_ok (pc w) →
  (∀ w', after md l (put_locked false w) w' → V c (k tt) Q (put_locked true w')) →
  V (S (S (S c))) (pbind Wait k) Q w.
Proof.
  intros Hl Hs He Hk. unfold Wait. rewrite pbind_assoc.
  eapply v_act; [by rewrite Hl|done|done|]. rewrite pbind_assoc. apply (v_yield l); [done|done|].
  intros w' Hr. apply (v_act _ _ _ _ _ tt (put_locked true w')); [|done|done|exact (Hk _ Hr)].
  by rewrite (e_locked _ _ _ (af_env _ _ _ _ Hr)).
Qed.

(** ** The state the player thread relies on *)

(** The chunks in [hand] are held by the player itself. *)
Record core (hand : list nat) (s : stage) (o : Outputs.MultipleOutputs) (np : nat) : Prop := {
  co_stage : stage_ok af (hand ++ Outputs.out_slices o) s;
  co_outs : Outputs.outs_ok af o;
  co_fresh : ∀ q, is_Some (pipes s !! q) → q < np;
  co_waiting : client_is_waiting (dc s) = false;
  co_command : command (dc s) = DC_NONE;
}.

(** What the main thread leaves alone, and what it may do otherwise: post a command. *)
Record pc_rel (p p' : PlayerControl) : Prop := {
  pr_pending : Player.command p ≠ COMMAND_NONE →
    Player.command p' = Player.command p ∧ next_song p' = next_song p;
  pr_post : Player.command p = COMMAND_NONE →
    if needs_next (Player.command p') then next_song p = None ∧ next_song p' ≠ None
    else next_song p' = next_song p;
  pr_state : Player.state p ≠ STATE_STOP → Player.state p' ≠ STATE_STOP;
}.

#[global] Instance pc_rel_refl : Reflexive pc_rel.
Proof. intros p. constructor; [done| |done]. by intros ->. Qed.

#[global] Instance pc_rel_trans : Transitive pc_rel.
Proof.
  intros p p1 p2 [A1 A2 A3] [B1 B2 B3]. constructor; [..|by auto].
  - intros Hc. destruct (A1 Hc) as [E1 E2]. rewrite <-E1 in Hc. destruct (B1 Hc). split; congruence.
  - intros Hc. specialize (A2 Hc). destruct (decide (Player.command p1 = COMMAND_NONE)) as [H1|H1].
    + specialize (B2 H1). rewrite H1 in A2. cbn in A2. by rewrite <-A2.
    + destruct (B1 H1) as [-> ->]. done.
Qed.

Lemma main_rel_pc_rel p p' : main_rel p p' → pc_rel p p'.
Proof.
  intros H. pose proof (main_rel_state _ _ H) as Hs. constructor; [|..|by rewrite Hs].
  - intros Hc. by rewrite (main_rel_pending _ _ H Hc).
  - intros Hc. destruct H as [->|[[_ H]|H]].
    + by rewrite Hc.
    + by rewrite (rs_command _ _ H), Hc, (rs_next _ _ H).
    + apply H.
Qed.

(** A change that does not concern the main thread. *)
Lemma pc_rel_quiet p p' : Player.command p' = Player.command p → next_song p' = next_song p →
  (Player.state p ≠ STATE_STOP → Player.state p' ≠ STATE_STOP) → pc_rel p p'.
Proof. intros H1 H2 H3. constructor; [done| |done]. intros Hc. by rewrite H1, Hc, H2. Qed.

Lemma pc_rel_next p p' : pc_rel p p' → next_song p ≠ None → next_song p' = next_song p.
Proof.
  intros H Hn. destruct (decide (Player.command p = COMMAND_NONE)) as [Hc|Hc]; [|by apply H].
  pose proof (pr_post _ _ H Hc) as H'. destruct (needs_next _); [by destruct H'|done].
Qed.

(** What a method that leaves the members of [Player] alone does. *)
Record mild w w' : Prop := {
  mi_stage : stage_rel (st w) (st w');
  mi_pc : pc_rel (pc w) (pc w');
  mi_pl : pl w' = pl w;
  mi_opened : Outputs.opened (out w') = Outputs.opened (out w);
  mi_next_pipe : next_pipe w' = next_pipe w;
  mi_answered : answered w' = answered w;
  mi_decode : Player.command (pc w) = COMMAND_SEEK → command (dc (st w)) ≠ DC_STOP →
    state (dc (st w)) = DECODER_DECODE → state (dc (st w')) = DECODER_DECODE;
}.

#[global] Instance mild_refl : Reflexive mild.
Proof. intros w. constructor; reflexivity || done. Qed.

#[global] Instance mild_trans : Transitive mild.
Proof.
  intros w w1 w2 [A1 A2 A3 A4 A5 A6 A7] [B1 B2 B3 B4 B5 B6 B7].
  constructor; [by etrans|by etrans|congruence..|].
  intros Hc Hs Hd. apply B7; [|destruct (sr_command _ _ A1); congruence|by apply A7].
  by rewrite (proj1 (pr_pending _ _ A2 ltac:(by rewrite Hc))).
Qed.

Lemma env_rel_mild l w w' : env_rel l w w' → mild w w'.
Proof. intros []. constructor; try done; [by apply main_rel_pc_rel|congruence]. Qed.

Lemma core_env hand l w w' : env_rel l w w' → l = hand ++ Outputs.out_slices (out w) →
  core hand (st w) (out w) (next_pipe w) → core hand (st w') (out w') (next_pipe w').
Proof.
  intros Hr -> [C1 C2 C3 C4 C5]. destruct Hr as [E1 E2 E3 E4 E5 E6 E7 E8 E9]. rewrite E2, E3. constructor; try done.
  - intros q. rewrite (sr_dom _ _ E7). apply C3.
  - by rewrite (sr_waiting _ _ E7).
  - destruct (sr_command _ _ E7); congruence.
Qed.

#[local] Abbreviation Core hand w := (core hand (st w) (out w) (next_pipe w)).
#[local] Abbreviation slots hand w := (hand ++ Outputs.out_slices (out w)).

(** The other threads have acted. *)
Record quiet (hand : list nat) w w' : Prop := {
  q_core : Core hand w';
  q_err : pc_ok (pc w');
  q_mild : mild w w';
  q_mode : md ≠ Never;
  q_calm : md = Calm → settled (st w') ∧ devices w' = [];
}.

Lemma after_quiet hand w w' : Core hand w → after md (slots hand w) w w' → quiet hand w w'.
Proof.
  intros Hco [H1 H2 H3 H4]. constructor; [by eapply core_env|done|by eapply env_rel_mild|done|done].
Qed.

Lemma mild_locked b w w' : mild w w' → mild w (put_locked b w').
Proof. by intros []. Qed.

Lemma mild_unlocked b w w' : mild (put_locked b w) w' → mild w w'.
Proof. by intros []. Qed.

#[global] Instance quiet_trans hand : Transitive (quiet hand).
Proof. intros w w1 w2 [] []. constructor; [done|done|by etrans|done|done]. Qed.

Lemma v_yield' {A : Set} hand (k : unit → proc world A) c Q w :
  Core hand w → pc_ok (pc w) →
  (∀ w', locked w' = locked w → quiet hand w w' → V c (k tt) Q w') → V (S c) (pbind yield k) Q w.
Proof.
  intros Hc He Hk. apply (v_yield (slots hand w)); [apply Hc|done|]. intros w' Ha.
  apply Hk; [apply Ha|by apply after_quiet].
Qed.

Lemma v_lock {A : Set} hand (k : unit → proc world A) c Q w :
  locked w = false → Core hand w → pc_ok (pc w) →
  (∀ w', locked w' = true → quiet hand w w' → V c (k tt) Q w') → V (S (S c)) (pbind Lock k) Q w.
Proof.
  intros Hl Hc He Hk. apply (v_Lock (slots hand w)); [done|apply Hc|done|]. intros w' Ha.
  apply Hk; [done|]. apply (after_quiet hand) in Ha as []; [|done]. constructor; try done. by apply mild_locked.
Qed.

Lemma v_unlock {A : Set} hand (k : unit → proc world A) c Q w :
  locked w = true → Core hand w → pc_ok (pc w) →
  (∀ w', locked w' = false → quiet hand w w' → V c (k tt) Q w') → V (S (S c)) (pbind Unlock k) Q w.
Proof.
  intros Hl Hc He Hk. apply (v_Unlock (slots hand w)); [done|apply Hc|done|]. intros w' Ha.
  apply Hk; [by rewrite (e_locked _ _ _ (af_env _ _ _ _ Ha))|].
  destruct (after_quiet hand (put_locked false w) w' Hc Ha). constructor; try done. by eapply mild_unlocked.
Qed.

Lemma v_wait {A : Set} hand (k : unit → proc world A) c Q w :
  locked w = true → Core hand w → pc_ok (pc w) →
  (∀ w', locked w' = true → quiet hand w w' → V c (k tt) Q w') → V (S (S (S c))) (pbind Wait k) Q w.
Proof.
  intros Hl Hc He Hk. apply (v_Wait (slots hand w)); [done|apply Hc|done|]. intros w' Ha.
  apply Hk; [done|]. destruct (after_quiet hand (put_locked false w) w' Hc Ha). constructor; try done.
  by eapply mild_locked, mild_unlocked.
Qed.

End Steps.
End PlayerSteps.
