(* ===== verification/PlayerDecoder.v ===== *)
(** * The player thread: commands to the decoder

    The client side of [DecoderControl]: a command posted to the decoder is answered, and
    the stage is in order afterwards. *)

From Stdlib Require Import ZArith Lia ZifyBool.
From stdpp Require Import base numbers sets strings list gmap relations.
From S2P Require Import Prelude Tag AudioFormat Song Prog Player Threads Music Decoder.
From S2P Require Import DecoderFacts Outputs PlayerTask PlayerSteps.

Set Default Goal Selector "!".

Module PlayerDecoder.
Import Song Player AudioFormat Decoder DecoderFacts PlayerTask PlayerRely PlayerSteps.

Section Decoder.
Context {cfg : PlayerConfig}.
#[local] Abbreviation af := configured_audio_format.
Hypothesis Haf : IsValid af = true.
#[local] Abbreviation V := (valid player_protocol).
Implicit Types w : world.

(** ** The stage and the members the player writes *)

Record same_dc (d d' : DecoderControl) : Prop := {
  sd_state : state d' = state d;
  sd_command : command d' = command d;
  sd_pipe : Decoder.pipe d' = Decoder.pipe d;
  sd_song : Decoder.song d' = Decoder.song d;
  sd_error : error d' = error d;
  sd_format : out_audio_format d' = out_audio_format d;
  sd_in : in_audio_format d' = in_audio_format d;
}.

Lemma plugin_ok_upd b s f : state (f (dc s)) = state (dc s) → Decoder.pipe (f (dc s)) = Decoder.pipe (dc s) →
  in_audio_format (f (dc s)) = in_audio_format (dc s) →
  out_audio_format (f (dc s)) = out_audio_format (dc s) → plugin_ok b s → plugin_ok b (upd_dc f s).
Proof.
  intros D1 D2 D3 D4 [P1 P2 P3 P4 P5]. unfold dest_empty in *.
  constructor; unfold dest_empty; cbn [upd_dc dc pipes]; by rewrite ?D1, ?D2, ?D3, ?D4.
Qed.

Lemma stage_ok_same l s f : same_dc (dc s) (f (dc s)) → stage_ok af l s → stage_ok af l (upd_dc f s).
Proof.
  intros [D1 D2 D3 D4 D5 D6 D7] [H1 H2 H3 H4 H5].
  constructor; cbn [upd_dc dc bridge pipes buffer]; rewrite ?D1, ?D5, ?D6; try done.
  destruct (bridge s) as [b|].
  - destruct H1. constructor; [..|by apply plugin_ok_upd]; unfold IsIdle, has_dest, dest_empty in *;
      cbn [upd_dc dc pipes]; by rewrite ?D1, ?D2, ?D3, ?D4.
  - destruct H1. constructor; unfold IsIdle, has_dest, dest_empty in *; cbn [upd_dc dc pipes];
      by rewrite ?D1, ?D2, ?D3, ?D4.
Qed.

Lemma set_waiting_back d b : client_is_waiting d = b → set_waiting b (set_waiting true d) = d.
Proof. intros <-. by destruct d. Qed.

(** Waiting and going on. *)
Lemma stage_rel_wait s s' : client_is_waiting (dc s) = false →
  stage_rel (upd_dc (set_waiting true) s) s' → stage_rel s (upd_dc (set_waiting false) s').
Proof.
  intros Hw [R1 R2 R3 R4 R5 R6 R7 R8 R9 R10]. constructor; cbn in *; try done.
  intros Hc Hi. destruct (R5 Hc Hi) as (-> & ? & ?). by rewrite set_waiting_back.
Qed.

Lemma WaitForDecoder_ok md l w : locked w = true → stage_ok af l (st w) → pc_ok (pc w) →
  client_is_waiting (dc (st w)) = false → V md 8 WaitForDecoder (λ _ w', after md l w w') w.
Proof.
  intros Hl Hs He Hw. unfold WaitForDecoder. apply v_assert; [by rewrite Hw|]. apply v_on_dc.
  apply (v_Wait Haf _ l); [done|by apply stage_ok_same|done|].
  intros w' [[E1 E2 E3 E4 E5 E6 E7 E8 E9] Hr He' Hc]. cbn in *.
  apply v_assert; [by cbn; rewrite (sr_waiting _ _ E7)|].
  apply valid_tail, v_on_dc, valid_pure. constructor; [|done|done|].
  - constructor; cbn; try done; [by apply stage_rel_wait|by apply stage_ok_same].
  - intros Hm. destruct (Hc Hm) as [[? ?] ?]. done.
Qed.

Lemma main_rel_trans p p1 p2 : main_rel p p1 → main_rel p1 p2 → main_rel p p2.
Proof. intros H [->|H2]; [done|by eapply main_rel_step]. Qed.

Lemma env_rel_trans l w w1 w2 : env_rel l w w1 → env_rel l w1 w2 → env_rel l w w2.
Proof.
  intros [A1 A2 A3 A4 A5 A6 A7 A8 A9] [B1 B2 B3 B4 B5 B6 B7 B8 B9].
  constructor; [congruence..|by eapply main_rel_trans|by etrans|done|].
  intros Hc Hs Hd. apply B9; [|destruct (sr_command _ _ A7); congruence|by apply A9].
  by rewrite (main_rel_pending _ _ A6); [|rewrite Hc].
Qed.

Definition busy (w : world) : nat := if decide (command (dc (st w)) = DC_NONE) then 0 else 1.

Lemma wait_command_round_ok md l w : locked w = true → stage_ok af l (st w) → pc_ok (pc w) →
  client_is_waiting (dc (st w)) = false →
  V md 9 (wait_command_round tt) (λ r w', env_rel l w w' ∧ pc_ok (pc w') ∧
    match r with
    | inl _ => md ≠ Never ∧ (md = Calm → busy w' < busy w)
    | inr _ => command (dc (st w')) = DC_NONE
    end) w.
Proof.
  intros Hl Hs He Hw. unfold wait_command_round. apply v_read. case_decide as Hc.
  - apply valid_pure. split; [by apply env_rel_refl|done].
  - eapply (v_call _ 8); [by apply (WaitForDecoder_ok _ l)|]. intros [] w' [H1 H2 H3 H4].
    apply valid_pure. split_and!; [done|done|done|]. intros Hm. destruct (H4 Hm) as [[Hn _] _].
    unfold busy. rewrite (decide_True _ _ Hn), (decide_False _ _ Hc). lia.
Qed.

Lemma WaitCommandLocked_ok md l w : locked w = true → stage_ok af l (st w) → pc_ok (pc w) →
  client_is_waiting (dc (st w)) = false →
  V md 49 WaitCommandLocked
    (λ _ w', env_rel l w w' ∧ pc_ok (pc w') ∧ command (dc (st w')) = DC_NONE) w.
Proof.
  intros Hl Hs He Hw. unfold WaitCommandLocked.
  apply (valid_loop player_protocol 9 1 (λ _ w', env_rel l w w' ∧ pc_ok (pc w')) (λ _, busy)).
  2:{ split; [by apply env_rel_refl|done]. }
  intros md' [] w1 [Hr He1]. split; [unfold busy; case_decide; lia|].
  eapply valid_mono; [apply (wait_command_round_ok _ l)|done|].
  - by rewrite (e_locked _ _ _ Hr).
  - apply Hr.
  - done.
  - by rewrite (sr_waiting _ _ (e_stage _ _ _ Hr)).
  - intros [[]|[]] w2 (Hr2 & He2 & H); cbn.
    + split_and!; [by eapply env_rel_trans|done|by intros ->; destruct H|]. intros Hm _. right. by apply H.
    + split_and!; [by eapply env_rel_trans|done|done].
Qed.

Lemma SynchronousCommandLocked_ok md cmd l w : locked w = true →
  stage_ok af l (upd_dc (Decoder.set_command cmd) (st w)) → pc_ok (pc w) →
  client_is_waiting (dc (st w)) = false →
  V md 50 (SynchronousCommandLocked cmd)
    (λ _ w', env_rel l (put_st (upd_dc (Decoder.set_command cmd) (st w)) w) w' ∧
       pc_ok (pc w') ∧ command (dc (st w')) = DC_NONE) w.
Proof. intros Hl Hs He Hw. apply v_on_dc. by apply WaitCommandLocked_ok. Qed.

(** ** Starting, stopping and seeking *)

(** Nothing but the stage was changed by the player. *)
Record aside w w' : Prop := {
  as_pl : pl w' = pl w;
  as_out : out w' = out w;
  as_next_pipe : next_pipe w' = next_pipe w;
  as_locked : locked w' = locked w;
  as_answered : answered w' = answered w;
  as_main : main_rel (pc w) (pc w');
}.

Lemma env_rel_aside l w w' : env_rel l w w' → aside w w'.
Proof. by intros []. Qed.

#[global] Instance aside_trans : Transitive aside.
Proof.
  intros w w1 w2 [] []. constructor; [congruence..|by eapply main_rel_trans].
Qed.

Lemma stage_idle_bridge l s : stage_ok af l s → IsIdle (dc s) = true → bridge s = None.
Proof.
  intros Hs Hi. pose proof (so_thread _ _ _ Hs) as Ht. destruct (bridge s) as [b|]; [|done].
  by rewrite (bo_busy _ _ _ Ht) in Hi.
Qed.

(** Writing to the control block of a decoder that is idle. *)
Lemma stage_ok_idle l s f : stage_ok af l s → bridge s = None → IsIdle (f (dc s)) = true →
  (state (f (dc s)) = DECODER_ERROR → is_Some (error (f (dc s)))) →
  out_audio_format (f (dc s)) = out_audio_format (dc s) →
  (command (f (dc s)) = DC_START ∨ command (f (dc s)) = DC_SEEK →
     has_dest (upd_dc f s) ∧ is_Some (Decoder.song (f (dc s)))) →
  (command (f (dc s)) = DC_START → dest_empty (upd_dc f s)) → stage_ok af l (upd_dc f s).
Proof.
  intros [H1 H2 H3 H4 H5] Hb Hi He Ho Hc Hd.
  constructor; cbn [upd_dc dc bridge pipes buffer]; [|done|done|done|congruence].
  rewrite Hb. by constructor.
Qed.

Lemma ClearError_idle d : IsIdle d = true → IsIdle (Decoder.ClearError d) = true ∧
  state (Decoder.ClearError d) ≠ DECODER_ERROR.
Proof.
  unfold IsIdle, Decoder.ClearError. intros Hi. destruct (decide (state d = DECODER_ERROR)); [done|].
  by destruct (state d).
Qed.

Lemma ClearError_same d : command (Decoder.ClearError d) = command d ∧
  Decoder.pipe (Decoder.ClearError d) = Decoder.pipe d ∧
  Decoder.song (Decoder.ClearError d) = Decoder.song d ∧
  client_is_waiting (Decoder.ClearError d) = client_is_waiting d ∧
  out_audio_format (Decoder.ClearError d) = out_audio_format d.
Proof. unfold Decoder.ClearError. by case_decide. Qed.

(** The pipes and the decoder's errand as they were. *)
Record stage_keep (s s' : stage) : Prop := {
  sk_pipe : Decoder.pipe (dc s') = Decoder.pipe (dc s);
  sk_song : Decoder.song (dc s') = Decoder.song (dc s);
  sk_dom : ∀ q, is_Some (pipes s' !! q) ↔ is_Some (pipes s !! q);
  sk_other : ∀ q, Decoder.pipe (dc s) ≠ Some q → pipes s' !! q = pipes s !! q;
}.

Lemma stage_rel_keep s s' : stage_rel s s' → stage_keep s s'.
Proof. by intros []. Qed.

#[global] Instance stage_keep_trans : Transitive stage_keep.
Proof.
  intros s s1 s2 [A1 A2 A3 A4] [B1 B2 B3 B4]. constructor; [congruence..| |].
  - intros q. by rewrite B3, A3.
  - intros q Hq. rewrite B4, A4; [done|done|by rewrite A1].
Qed.

(** The world with a command posted to the decoder. *)
Definition posted (cmd : DecoderCommand) w : world :=
  put_st (upd_dc (λ d, Decoder.set_command cmd (Decoder.ClearError d)) (st w)) w.

Lemma env_rel_locked b l w w' : env_rel l w w' → env_rel l (put_locked b w) (put_locked b w').
Proof. by intros []. Qed.

(** The error is cleared only when the decoder is idle. *)
Lemma stage_ok_ClearError l s : stage_ok af l s → stage_ok af l (upd_dc Decoder.ClearError s).
Proof.
  intros Hs. destruct (decide (state (dc s) = DECODER_ERROR)) as [He|He].
  - assert (Hi : IsIdle (dc s) = true) by (unfold IsIdle; by rewrite He).
    pose proof (stage_idle_bridge _ _ Hs Hi) as Hb.
    pose proof (so_thread _ _ _ Hs) as Ht. rewrite Hb in Ht. destruct Ht as [_ T2 T3].
    destruct (ClearError_same (dc s)) as (E1 & E2 & E3 & E4 & E5).
    destruct (ClearError_idle _ Hi) as [I1 I2].
    apply stage_ok_idle; try done; rewrite ?E1, ?E3; [|].
    + intros Hc. destruct (T2 Hc) as [(q & p & Hq & Hp) ?]. split; [|done]. exists q, p.
      cbn. by rewrite E2.
    + intros Hc q p. cbn. rewrite E2. by apply T3.
  - replace (upd_dc Decoder.ClearError s) with s; [done|]. unfold upd_dc, Decoder.ClearError.
    rewrite decide_False by done. by destruct s.
Qed.

Lemma LockSynchronousCommand_ok md cmd l w : locked w = false → stage_ok af l (st w) →
  pc_ok (pc w) → client_is_waiting (dc (st w)) = false →
  (∀ w1, after md l w w1 → stage_ok af l (st (posted cmd w1))) →
  V md 55 (LockSynchronousCommand cmd) (λ _ w', ∃ w1, after md l w w1 ∧
    env_rel l (posted cmd w1) w' ∧ pc_ok (pc w') ∧ md ≠ Never ∧ command (dc (st w')) = DC_NONE) w.
Proof.
  intros Hl Hs He Hw Hok. unfold LockSynchronousCommand. apply (v_Lock Haf _ l); [done..|].
  intros w1 Ha. pose proof (Hok w1 Ha) as Hs1. pose proof (af_env _ _ _ _ Ha) as Hr. apply v_on_dc.
  eapply (v_call _ 50).
  { apply (SynchronousCommandLocked_ok _ _ l); [done|done|apply Ha|]. cbn.
    rewrite (proj1 (proj2 (proj2 (proj2 (ClearError_same _))))). by rewrite (sr_waiting _ _ (e_stage _ _ _ Hr)). }
  intros [] w2 (Hr2 & He2 & Hc2). apply valid_tail.
  apply (v_Unlock Haf _ l); [by rewrite (e_locked _ _ _ Hr2)|apply Hr2|done|].
  intros w3 Ha3. apply valid_pure. exists w1. split; [done|].
  pose proof (af_env _ _ _ _ Ha3) as Hr3. split_and!; [|apply Ha3|apply Ha3|].
  - eapply env_rel_trans; [|exact Hr3]. apply (env_rel_locked false) in Hr2.
    assert (Hw1 : put_locked false w1 = w1).
    { destruct w1. unfold put_locked. cbn. f_equal. by rewrite <-Hl, <-(e_locked _ _ _ Hr). }
    unfold posted. rewrite <-Hw1 at 2. exact Hr2.
  - destruct (sr_command _ _ (e_stage _ _ _ Hr3)) as [H|H]; [|done]. by rewrite H.
Qed.

#[local] Abbreviation Core hand w := (core hand (st w) (out w) (next_pipe w)).
#[local] Abbreviation slots hand w := (hand ++ Outputs.out_slices (out w)).

(** The decoder was sent on an errand. *)
Record started (hand : list nat) (sg : DetachedSong) (q : nat) w w' : Prop := {
  sd_core : Core hand w';
  sd_err : pc_ok (pc w');
  sd_aside : aside w w';
  sd_mode : True;
  sd_dest : Decoder.pipe (dc (st w')) = Some q;
  sd_song' : Decoder.song (dc (st w')) = Some sg;
  sd_dom : ∀ q', is_Some (pipes (st w') !! q') ↔ is_Some (pipes (st w) !! q');
  sd_other : ∀ q', q' ≠ q → pipes (st w') !! q' = pipes (st w) !! q';
}.

Lemma Start_ok md hand sg t0 t1 q p w : locked w = false → Core hand w → pc_ok (pc w) →
  IsIdle (dc (st w)) = true → pipes (st w) !! q = Some p → MusicPipe.chunks p = [] →
  V md 57 (Start sg t0 t1 q) (λ _ w', started hand sg q w w') w.
Proof.
  intros Hl Hco He Hi Hp Hch. pose proof Hco as [C1 C2 C3 C4 C5]. unfold Start.
  pose proof (stage_idle_bridge _ _ C1 Hi) as Hb.
  apply v_assert.
  { rewrite Hp. unfold MusicPipe.IsEmpty. by rewrite (MusicPipe.po_size _ _ _ (so_pipes _ _ _ C1 q p Hp)), Hch. }
  apply v_on_dc. set (f := set_start sg t0 t1 q).
  assert (Hs1 : stage_ok af (slots hand w) (upd_dc f (st w))).
  { apply stage_ok_idle; try done; [apply C1|..]; cbn; rewrite C5; [intros [|]; done|done]. }
  eapply valid_mono; [apply (LockSynchronousCommand_ok md DC_START (slots hand w))|done|]; try done.
  - intros w1 Ha. destruct (af_env _ _ _ _ Ha) as [E1 E2 E3 E4 E5 E6 E7 E8 E9].
    destruct (sr_idle _ _ E7) as (Hd & Hb1 & Hp1); [done|done|]. cbn in Hd, Hb1, Hp1.
    destruct (ClearError_same (f (dc (st w)))) as (D1 & D2 & D3 & D4 & D5).
    destruct (ClearError_idle (f (dc (st w))) Hi) as [I1 I2].
    apply stage_ok_idle; [done|by rewrite Hb1|..]; rewrite Hd; cbn [Decoder.set_command].
    + exact I1.
    + intros H. by destruct (I2 H).
    + exact D5.
    + intros _. split; [|by cbn; rewrite D3]. exists q, p. cbn. rewrite Hd. cbn. by rewrite D2, Hp1, Hp.
    + intros _ q' p'. cbn. rewrite Hd, Hp1. cbn. rewrite D2. intros [= <-]. rewrite Hp. by intros [= <-].
  - intros [] w' (w1 & Ha & Hr & He' & _ & Hc).
    destruct (af_env _ _ _ _ Ha) as [E1 E2 E3 E4 E5 E6 E7 E8 E9]. cbn in E1, E2, E3, E4, E5, E6.
    destruct (sr_idle _ _ E7) as (Hd & Hb1 & Hp1); [done|done|]. cbn in Hd, Hb1, Hp1.
    destruct (ClearError_same (f (dc (st w)))) as (D1 & D2 & D3 & D4 & D5).
    destruct Hr as [R1 R2 R3 R4 R5 R6 R7 R8 R9]. cbn in R1, R2, R3, R4, R5, R6.
    assert (Hpipe : Decoder.pipe (dc (st w')) = Some q).
    { rewrite (sr_pipe _ _ R7). cbn. rewrite Hd. by rewrite D2. }
    assert (Hdom : ∀ q', is_Some (pipes (st w') !! q') ↔ is_Some (pipes (st w) !! q')).
    { intros q'. rewrite (sr_dom _ _ R7). cbn. by rewrite Hp1. }
    constructor; try done.
    + rewrite R2, E2, R3, E3. constructor; [done|done| | |done].
      * intros q'. rewrite Hdom. apply C3.
      * rewrite (sr_waiting _ _ R7). cbn. rewrite Hd. by rewrite D4.
    + constructor; [congruence..|by eapply main_rel_trans].
    + rewrite (sr_song _ _ R7). cbn. rewrite Hd. by rewrite D3.
    + intros q' Hne. rewrite (sr_other _ _ R7); cbn; [by rewrite Hp1|]. rewrite Hd, D2. cbn. congruence.
Qed.

(** The decoder is told to stop. *)
Lemma stage_ok_STOP l s : stage_ok af l s → command (dc s) = DC_NONE →
  stage_ok af l (upd_dc (Decoder.set_command DC_STOP) s).
Proof.
  intros [H1 H2 H3 H4 H5] Hc. constructor; try done. cbn [upd_dc bridge].
  destruct (bridge s) as [b|].
  - destruct H1 as [B1 B2 B3 B4 B5 B6 B7 B8]. constructor; try done; [|by apply plugin_ok_upd].
    intros Hsk. destruct (B4 Hsk). congruence.
  - destruct H1 as [I1 I2 I3]. constructor; [done|by intros [|]|done].
Qed.

Lemma stage_rel_STOP s s' : command (dc s) = DC_NONE → command (dc s') = DC_NONE →
  IsIdle (dc s) = false → stage_rel (upd_dc (Decoder.set_command DC_STOP) s) s' →
  stage_rel s s' ∧ IsIdle (dc s') = true.
Proof.
  intros Hc Hc' Hi [R1 R2 R3 R4 R5 R6 R7 R8 R9 R10]. cbn in *.
  assert (Hi' : IsIdle (dc s') = true) by auto. split; [|done].
  constructor; try done; [by right|by rewrite Hi| |by intros q p p' _; apply R10].
  unfold IsStarting, IsIdle in *. intros _ Hx%bool_decide_eq_true. by rewrite Hx in Hi'.
Qed.

Lemma decoder_Stop_ok md hand w : locked w = false → Core hand w → pc_ok (pc w) →
  V md 56 Stop (λ _ w', Core hand w' ∧ pc_ok (pc w') ∧ aside w w' ∧ stage_rel (st w) (st w') ∧
    IsIdle (dc (st w')) = true) w.
Proof.
  intros Hl Hco He. pose proof Hco as [C1 C2 C3 C4 C5]. unfold Stop.
  apply (v_Lock Haf _ (slots hand w)); [done..|]. intros w1 Ha.
  pose proof (af_env _ _ _ _ Ha) as Hr1.
  pose proof (core_env hand _ _ _ Hr1 eq_refl Hco) as Hco1. pose proof Hco1 as [D1 D2 D3 D4 D5].
  apply v_read. cbn [dc st put_locked]. rewrite decide_True by done. cbn [pbind]. apply v_read.
  cbn [dc st put_locked].
  assert (Hend : ∀ c w2, Core hand w2 → aside w1 (put_locked false w2) → stage_rel (st w1) (st w2) →
    locked w2 = true → pc_ok (pc w2) → IsIdle (dc (st w2)) = true →
    V md (S (S c)) Unlock (λ _ w', Core hand w' ∧ pc_ok (pc w') ∧ aside w w' ∧
      stage_rel (st w) (st w') ∧ IsIdle (dc (st w')) = true) w2).
  { intros c w2 Hco2 Has2 Hr2 Hl2 He2 Hi2.
    apply valid_tail, (v_Unlock Haf _ (slots hand w2)); [done|apply Hco2|done|].
    intros w3 Ha3. apply valid_pure. pose proof (af_env _ _ _ _ Ha3) as Hr3.
    pose proof (core_env hand _ _ _ Hr3 eq_refl Hco2) as Hco3.
    split_and!; [done|apply Ha3| | |].
    - etrans; [by eapply env_rel_aside|]. etrans; [exact Has2|by eapply env_rel_aside].
    - etrans; [apply Hr1|]. etrans; [apply Hr2|apply Hr3].
    - destruct (sr_idle _ _ (e_stage _ _ _ Hr3)) as (Hd & _ & _); [apply Hco2|done|]. by rewrite Hd. }
  assert (Hlk : locked w1 = false) by (by rewrite (e_locked _ _ _ Hr1)).
  destruct (IsIdle (dc (st w1))) eqn:Hi.
  - cbn [pbind]. apply Hend; [done| |done|done|apply Ha|done]. by constructor; [..|left].
  - eapply (v_call _ 50).
    { apply (SynchronousCommandLocked_ok _ _ (slots hand w1)); [done|by apply stage_ok_STOP|apply Ha|done]. }
    intros [] w2 (Hr2 & He2 & Hc2).
    destruct (stage_rel_STOP (st w1) (st w2) D5 Hc2 Hi (e_stage _ _ _ Hr2)) as [Hrel Hi2].
    destruct Hr2 as [R1 R2 R3 R4 R5 R6 R7 R8 R9]. cbn in R1, R2, R3, R4, R5, R6.
    apply Hend; [|by constructor|done|done|done|done].
    rewrite R2, R3. constructor; [done|done| |by rewrite (sr_waiting _ _ Hrel)|done].
    intros q. rewrite (sr_dom _ _ Hrel). apply D3.
Qed.

Lemma stage_ok_SEEK l s : stage_ok af l s → command (dc s) = DC_NONE → state (dc s) = DECODER_DECODE →
  stage_ok af l (upd_dc (λ d, Decoder.set_command DC_SEEK (Decoder.ClearError d)) s).
Proof.
  intros [H1 H2 H3 H4 H5] Hc Hst. unfold upd_dc, Decoder.ClearError. rewrite decide_False by congruence.
  constructor; try done. cbn [bridge]. destruct (bridge s) as [b|].
  - destruct H1 as [B1 B2 B3 B4 B5 B6 B7 [P1 P2 P3 P4 P5]]. by constructor.
  - pose proof (io_idle _ H1) as Hi. unfold IsIdle in Hi. by rewrite Hst in Hi.
Qed.

(** Neither starting nor failed. *)
Definition steady (d : DecoderControl) : Prop := state d = DECODER_DECODE ∨ state d = DECODER_STOP.

Lemma steady_mild w w' : mild w w' → Player.command (pc w) = COMMAND_SEEK →
  command (dc (st w)) = DC_NONE → steady (dc (st w)) → steady (dc (st w')).
Proof.
  intros Hm Hp Hc [Hs|Hs].
  - left. apply (mi_decode _ _ Hm); congruence.
  - right. destruct (sr_idle _ _ (mi_stage _ _ Hm)) as (-> & _ & _); [done| |done].
    unfold IsIdle. by rewrite Hs.
Qed.

Lemma mild_command w w' : mild w w' → Player.command (pc w) ≠ COMMAND_NONE →
  Player.command (pc w') = Player.command (pc w) ∧ next_song (pc w') = next_song (pc w).
Proof. intros H. apply (pr_pending _ _ (mi_pc _ _ H)). Qed.

(** Seeking within the song. *)
Lemma Seek_ok md hand t w : locked w = false → Core hand w → pc_ok (pc w) →
  Player.command (pc w) = COMMAND_SEEK → steady (dc (st w)) →
  V md 70 (Seek t) (λ _ w', Core hand w' ∧ pc_ok (pc w') ∧ aside w w' ∧
    stage_keep (st w) (st w') ∧ steady (dc (st w'))) w.
Proof.
  intros Hl Hco He Hp Hst. unfold Seek.
  apply (v_yield Haf _ (slots hand w)); [apply Hco|done|]. intros w1 Ha.
  pose proof (af_env _ _ _ _ Ha) as Hr1. pose proof (core_env hand _ _ _ Hr1 eq_refl Hco) as Hco1.
  pose proof (env_rel_mild _ _ _ Hr1) as Hm1. pose proof (env_rel_aside _ _ _ Hr1) as Has1.
  pose proof (stage_rel_keep _ _ (mi_stage _ _ Hm1)) as Hk1.
  assert (Hst1 : steady (dc (st w1))) by (by eapply steady_mild; [..|apply Hco|]).
  apply v_read. destruct Hst1 as [Hs|Hs]; rewrite Hs; [|by apply valid_pure; split_and!; [|apply Ha| | |right]].
  destruct (negb (seekable (dc (st w1)))); [by apply valid_pure; split_and!; [|apply Ha| | |left]|].
  assert (Hp1 : Player.command (pc w1) = COMMAND_SEEK).
  { rewrite (proj1 (mild_command _ _ Hm1 ltac:(by rewrite Hp))). done. }
  apply v_on_dc. destruct Hco1 as [C1 C2 C3 C4 C5]. eapply (v_call _ 55).
  { apply (LockSynchronousCommand_ok _ _ (slots hand w1));
      [by cbn; rewrite (e_locked _ _ _ Hr1)|by apply stage_ok_same|apply Ha|done|].
    intros w2 Ha2. pose proof (af_env _ _ _ _ Ha2) as Hr2.
    apply stage_ok_SEEK; [apply Hr2| |].
    - destruct (sr_command _ _ (e_stage _ _ _ Hr2)) as [H|H]; [by rewrite H|done].
    - apply (e_decode _ _ _ Hr2); cbn; congruence. }
  intros [] w3 (w2 & Ha2 & Hr3 & He3 & Hnv & Hc3). pose proof (af_env _ _ _ _ Ha2) as Hr2.
  apply v_read, valid_pure. cbn [dc st].
  assert (Hd2 : state (dc (st w2)) = DECODER_DECODE) by (apply (e_decode _ _ _ Hr2); cbn; congruence).
  assert (Hp2 : Player.command (pc w2) = COMMAND_SEEK).
  { by rewrite (main_rel_pending _ _ (e_main _ _ _ Hr2)); cbn; rewrite ?Hp1. }
  assert (Hk2 : stage_keep (st w1) (st w2)) by (by destruct (stage_rel_keep _ _ (e_stage _ _ _ Hr2))).
  assert (Hk3 : stage_keep (st w2) (st w3)).
  { destruct (stage_rel_keep _ _ (e_stage _ _ _ Hr3)) as [K1 K2 K3 K4]. cbn in *.
    destruct (ClearError_same (dc (st w2))) as (D1 & D2 & D3 & _).
    rewrite D2 in K1, K4. rewrite D3 in K2. done. }
  split_and!; [|done| |by etrans; [exact Hk1|etrans; [exact Hk2|exact Hk3]]|].
  - rewrite (e_out _ _ _ Hr3), (e_next_pipe _ _ _ Hr3). cbn.
    rewrite (e_out _ _ _ Hr2), (e_next_pipe _ _ _ Hr2). cbn. constructor; [apply Hr3|done| | |done].
    + intros q. rewrite (sk_dom _ _ Hk3), (sk_dom _ _ Hk2). apply C3.
    + rewrite (sr_waiting _ _ (e_stage _ _ _ Hr3)). cbn.
      rewrite (proj1 (proj2 (proj2 (proj2 (ClearError_same _))))). by rewrite (sr_waiting _ _ (e_stage _ _ _ Hr2)).
  - etrans; [exact Has1|]. etrans; [|exact (env_rel_aside _ _ _ Hr3)].
    destruct (env_rel_aside _ _ _ Hr2). by constructor.
  - left. apply (e_decode _ _ _ Hr3); cbn; [done|done|]. unfold Decoder.ClearError.
    rewrite decide_False by congruence. done.
Qed.

(** ** Reading the decoder's state *)

Lemma WaitForDecoder_quiet md hand w : locked w = true → Core hand w → pc_ok (pc w) →
  V md 8 WaitForDecoder (λ _ w', locked w' = true ∧ quiet md hand w w') w.
Proof.
  intros Hl Hco He. eapply valid_mono; [apply (WaitForDecoder_ok _ (slots hand w)); [done|apply Hco|done|apply Hco]|done|].
  intros [] w' Ha. split; [by rewrite (e_locked _ _ _ (af_env _ _ _ _ Ha))|by apply after_quiet].
Qed.

Lemma LockIsIdle_ok md hand w : locked w = false → Core hand w → pc_ok (pc w) →
  V md 5 LockIsIdle (λ b w', locked w' = false ∧ quiet md hand w w' ∧
    (b = true → IsIdle (dc (st w')) = true)) w.
Proof.
  intros Hl Hco He. apply (v_lock Haf _ hand); [done..|]. intros w1 Hl1 Hq1. apply v_read.
  apply (v_unlock Haf _ hand); [done|apply Hq1..|]. intros w2 Hl2 Hq2. apply valid_pure.
  split_and!; [done|by etrans|]. intros Hi. cbn in Hi.
  destruct (sr_idle _ _ (mi_stage _ _ (q_mild _ _ _ _ Hq2))) as (-> & _ & _); [|done|done].
  apply (q_core _ _ _ _ Hq1).
Qed.

Lemma LockIsStarting_ok md hand w : locked w = false → Core hand w → pc_ok (pc w) →
  V md 5 LockIsStarting (λ b w', locked w' = false ∧ quiet md hand w w') w.
Proof.
  intros Hl Hco He. apply (v_lock Haf _ hand); [done..|]. intros w1 Hl1 Hq1. apply v_read.
  apply (v_unlock Haf _ hand); [done|apply Hq1..|]. intros w2 Hl2 Hq2. apply valid_pure.
  split; [done|by etrans].
Qed.

(** A decoder that is not idle has its errand. *)
Lemma stage_busy l s : stage_ok af l s → IsIdle (dc s) = false →
  has_dest s ∧ is_Some (Decoder.song (dc s)).
Proof.
  intros Hs Hi. pose proof (so_thread _ _ _ Hs) as Ht. destruct (bridge s) as [b|].
  - split; apply Ht.
  - by rewrite (io_idle _ Ht) in Hi.
Qed.

Lemma LockIsCurrentSong_ok md hand sg w : locked w = false → Core hand w → pc_ok (pc w) →
  V md 6 (LockIsCurrentSong sg) (λ b w', locked w' = false ∧ quiet md hand w w' ∧
    (b = true → is_Some (Decoder.pipe (dc (st w'))) ∧
       (Player.command (pc w) = COMMAND_SEEK → IsStarting (dc (st w)) = false →
        state (dc (st w')) = DECODER_DECODE))) w.
Proof.
  intros Hl Hco He. unfold LockIsCurrentSong. apply (v_lock Haf _ hand); [done..|].
  intros w1 Hl1 Hq1. pose proof (q_core _ _ _ _ Hq1) as Hco1.
  assert (Hb : ∃ b, IsCurrentSong sg (dc (st w1)) = Some b ∧ (b = true → IsIdle (dc (st w1)) = false)).
  { unfold IsCurrentSong. destruct (IsIdle (dc (st w1))) eqn:Hi.
    - exists false. unfold IsIdle in Hi. by destruct (state (dc (st w1))).
    - destruct (stage_busy _ _ (co_stage _ _ _ _ Hco1) Hi) as [_ [s Hs]].
      unfold IsIdle in Hi. rewrite Hs. destruct (state (dc (st w1))); try done; by eexists. }
  destruct Hb as (b & Hb & Hbusy). eapply v_act; [by rewrite Hb|done|done|].
  apply (v_unlock Haf _ hand); [done|apply Hq1..|]. intros w2 Hl2 Hq2. apply valid_pure.
  split_and!; [done|by etrans|]. intros ->. specialize (Hbusy eq_refl).
  destruct (stage_busy _ _ (co_stage _ _ _ _ Hco1) Hbusy) as [(q & _ & Hq & _) _].
  pose proof (q_mild _ _ _ _ Hq1) as Hm1. pose proof (q_mild _ _ _ _ Hq2) as Hm2. split.
  - rewrite (sr_pipe _ _ (mi_stage _ _ Hm2)), Hq. eauto.
  - intros Hp Hst. apply (mi_decode _ _ Hm2).
    + rewrite (proj1 (mild_command _ _ Hm1 ltac:(by rewrite Hp))). done.
    + rewrite (co_command _ _ _ _ Hco1). done.
    + pose proof (sr_start _ _ (mi_stage _ _ Hm1) (co_command _ _ _ _ Hco)) as Hx.
      rewrite Hst in Hx. unfold IsIdle, IsStarting in *.
      destruct (state (dc (st w1))); try done. by discriminate (Hx eq_refl).
Qed.

End Decoder.
End PlayerDecoder.
