(* ===== verification/PlayerOuts.v ===== *)
(** * The player thread: its invariants

    What holds of the members of [class Player] and of the outputs while a song is played,
    and why the other threads cannot break it. *)

From Stdlib Require Import ZArith Lia ZifyBool.
From stdpp Require Import base numbers sets strings list gmap relations.
From S2P Require Import Prelude AudioFormat Tag Song Prog Threads Music Decoder DecoderFacts Outputs Player PlayerTask PlayerSteps PlayerDecoder.

Set Default Goal Selector "!".

Module PlayerInv.
Import Song Player AudioFormat Decoder DecoderFacts PlayerTask PlayerRely PlayerSteps PlayerDecoder.

(** What every method does to the world around it. *)
Record gentle_step (s : stage) (c : PlayerControl) (np n : nat)
    (s' : stage) (c' : PlayerControl) (np' n' : nat) : Prop := {
  ge_stage : stage_rel s s';
  ge_pc : pc_rel c c';
  ge_next_pipe : np' = np;
  ge_answered : n' = n;
  ge_decode : Player.command c = COMMAND_SEEK → command (dc s) ≠ DC_STOP →
    state (dc s) = DECODER_DECODE → state (dc s') = DECODER_DECODE;
}.

Definition gentle (w w' : world) : Prop :=
  gentle_step (st w) (pc w) (next_pipe w) (answered w) (st w') (pc w') (next_pipe w') (answered w').

#[global] Instance gentle_refl : Reflexive gentle.
Proof. intros w. constructor; reflexivity || done. Qed.

#[global] Instance gentle_trans : Transitive gentle.
Proof.
  intros w w1 w2 [A1 A2 A3 A4 A5] [B1 B2 B3 B4 B5]. constructor; [by etrans|by etrans|congruence..|].
  intros Hc Hs Hd. apply B5; [|destruct (sr_command _ _ A1); congruence|by apply A5].
  by rewrite (proj1 (pr_pending _ _ A2 ltac:(by rewrite Hc))).
Qed.

Lemma mild_gentle w w' : mild w w' → gentle w w'.
Proof. by intros []. Qed.

Lemma gentle_upd_pc f w : pc_rel (pc w) (f (pc w)) → gentle w (upd_pc f w).
Proof. intros H. by constructor. Qed.

(** The decoder is about to decode the next song. *)
Definition at_next (s : stage) (p : Player) : Prop :=
  Decoder.pipe (dc s) ≠ None ∧ Decoder.pipe (dc s) ≠ pipe p.

Lemma at_next_song_spec w : at_next_song w = true ↔ at_next (st w) (pl w).
Proof.
  unfold at_next_song, at_next. rewrite andb_true_iff, !negb_true_iff, bool_decide_eq_false.
  destruct (Decoder.pipe (dc (st w))); cbn; [|naive_solver]. naive_solver.
Qed.

Section Inv.
Context {cfg : PlayerConfig}.
#[local] Abbreviation af := configured_audio_format.

(** The pipes: that of the song being played, and that of the decoder. *)
Record pipes_inv (s : stage) (p : Player) : Prop := {
  pi_pipe : ∃ q, pipe p = Some q ∧ is_Some (pipes s !! q);
  pi_dom : ∀ q, is_Some (pipes s !! q) → pipe p = Some q ∨ Decoder.pipe (dc s) = Some q;
  pi_dest : ∀ q, Decoder.pipe (dc s) = Some q → is_Some (pipes s !! q);
  pi_song : is_Some (Decoder.song (dc s));
  pi_xfade : xfade_state p ≠ XFADE_UNKNOWN → at_next s p;
  pi_active : xfade_state p = XFADE_ACTIVE → ∀ q x, pipe p = Some q → pipes s !! q = Some x →
    length (MusicPipe.chunks x) ≤ cross_fade_chunks p;
}.

(** The outputs are open if the player thinks so; the format is that of all songs. *)
Record flags_inv (opened : bool) (p : Player) : Prop := {
  fi_open : output_open p = true → opened = true ∧ play_audio_format p = af;
  fi_format : play_audio_format p = af ∨
    IsDefined (play_audio_format p) = false ∧ decoder_starting p = true;
  fi_tag : ∀ t, cross_fade_tag p = Some t → Tag.valid_items (Tag.items t);
  fi_song : is_Some (song p);
}.

(** Music is played through open outputs. *)
Definition playing_inv (p : Player) : Prop :=
  decoder_starting p = false → paused p = false → output_open p = true.

(** A decoder that starts on the current song is waited for. *)
Definition start_inv (s : stage) (p : Player) : Prop :=
  IsStarting (dc s) = true → Decoder.pipe (dc s) = pipe p → decoder_starting p = true.

(** The decoder works on the next song only if there is one. *)
Definition queue_inv (s : stage) (p : Player) : Prop := at_next s p → queued p = true.

(** [queued] tells whether the player has taken notice of [next_song]. *)
Definition sync (c : PlayerControl) (p : Player) : Prop :=
  if needs_next (Player.command c) then next_song c ≠ None ∧ queued p = false
  else queued p = true ↔ next_song c ≠ None.

(** ** The other threads *)

Lemma at_next_stable s s' p : stage_rel s s' → at_next s' p ↔ at_next s p.
Proof. intros H. unfold at_next. by rewrite (sr_pipe _ _ H). Qed.

Lemma pipes_inv_stable s s' p : stage_rel s s' → pipes_inv s p → pipes_inv s' p.
Proof.
  intros H [P1 P2 P3 P4 P5 P6]. constructor.
  - destruct P1 as (q & Hq & Hx). exists q. split; [done|]. by apply (sr_dom _ _ H).
  - intros q Hq. rewrite (sr_pipe _ _ H). by apply P2, (sr_dom _ _ H).
  - intros q. rewrite (sr_pipe _ _ H), (sr_dom _ _ H). apply P3.
  - by rewrite (sr_song _ _ H).
  - intros Hx. apply (at_next_stable _ _ _ H). auto.
  - intros Hx q x Hq. destruct (P5 ltac:(by rewrite Hx)) as [_ Hne].
    rewrite (sr_other _ _ H) by congruence. by apply P6.
Qed.

Lemma start_inv_stable s s' p : stage_rel s s' → command (dc s) = DC_NONE →
  start_inv s p → start_inv s' p.
Proof.
  unfold start_inv. intros H Hc Hs Hst. rewrite (sr_pipe _ _ H). by apply Hs, (sr_start _ _ H).
Qed.

Lemma queue_inv_stable s s' p : stage_rel s s' → queue_inv s p → queue_inv s' p.
Proof. unfold queue_inv. intros H. by rewrite (at_next_stable _ _ _ H). Qed.

Lemma sync_stable c c' p : pc_rel c c' → sync c p → sync c' p.
Proof.
  unfold sync. intros H. destruct (decide (Player.command c = COMMAND_NONE)) as [Hc|Hc].
  - rewrite Hc. cbn. intros Hs. pose proof (pr_post _ _ H Hc) as H'.
    destruct (needs_next (Player.command c')).
    + destruct H' as [H1 H2]. split; [done|]. destruct (queued p); [|done]. by destruct (proj1 Hs).
    + by rewrite H'.
  - destruct (pr_pending _ _ H Hc) as [-> ->]. done.
Qed.

(** All of it, apart from what is put in order step by step. *)
Record base (s : stage) (o : Outputs.MultipleOutputs) (p : Player) : Prop := {
  ba_pipes : pipes_inv s p;
  ba_flags : flags_inv (Outputs.opened o) p;
  ba_queue : queue_inv s p;
}.

Lemma base_stable s s' o o' p : stage_rel s s' → Outputs.opened o' = Outputs.opened o →
  base s o p → base s' o' p.
Proof.
  intros H Ho [B1 B2 B3]. constructor; [by eapply pipes_inv_stable|by rewrite Ho|by eapply queue_inv_stable].
Qed.

Lemma base_mild w w' : mild w w' → base (st w) (out w) (pl w) → base (st w') (out w') (pl w').
Proof. intros H. rewrite (mi_pl _ _ H). apply base_stable; apply H. Qed.

(** A method has run, and the chunks in [hand] are held by the player. *)
Definition fine (hand : list nat) (w w' : world) : Prop :=
  core hand (st w') (out w') (next_pipe w') ∧ pc_ok (pc w') ∧ gentle w w'.

Lemma quiet_fine md hand w w' : quiet md hand w w' → fine hand w w'.
Proof. intros []. split_and!; [done|done|by apply mild_gentle]. Qed.

Lemma fine_step hand' w w1 w2 : gentle w w1 → fine hand' w1 w2 → fine hand' w w2.
Proof. intros H (? & ? & ?). split_and!; [done|done|by etrans]. Qed.

Lemma fine_gentle hand w w' : fine hand w w' → gentle w w'.
Proof. by intros (_ & _ & ?). Qed.

(** A write to [pc] that the main thread does not see. *)
Lemma v_pc {A : Set} md f (k : unit → proc world A) c Q w :
  border_pause (f (pc w)) = border_pause (pc w) → next_song (f (pc w)) = next_song (pc w) →
  Player.command (f (pc w)) = Player.command (pc w) →
  (Player.state (pc w) = STATE_STOP → Player.command (pc w) ≠ COMMAND_NONE) →
  valid player_protocol md c (k tt) Q (upd_pc f w) →
  valid player_protocol md (S c) (pbind (on_pc f) k) Q w.
Proof.
  intros H1 H2 H3 H4. apply v_on_pc. constructor; [done|by left|by left|]. intros Hs Hc. by destruct H4.
Qed.

End Inv.
End PlayerInv.

(** * The player thread: using the outputs

    Calls of the outputs keep the accounts of the chunk buffer; opening them, waiting for
    them, and sending silence. *)

Module PlayerOuts.
Import Song Player AudioFormat Decoder DecoderFacts PlayerTask PlayerRely PlayerSteps PlayerDecoder.
Import PlayerInv.

Section Outs.
Context {cfg : PlayerConfig}.
#[local] Abbreviation af := configured_audio_format.
Hypothesis Haf : IsValid af = true.
#[local] Abbreviation V := (valid player_protocol).
#[local] Abbreviation Core hand w := (core hand (st w) (out w) (next_pipe w)).
Implicit Types w : world.

(** ** The accounts *)

(** The slices that are not with the outputs. *)
Definition elsewhere (hand : list nat) (s : stage) : list nat :=
  pslices (pipes s) ++ cur_slices (bridge s) ++ hand.

Lemma core_oinv hand w : Core hand w → Outputs.oinv af (elsewhere hand (st w)) (out_view w).
Proof.
  intros [C1 C2 C3 C4 C5]. constructor; [|done]. unfold elsewhere. cbn.
  pose proof (so_holds _ _ _ C1) as Hh. rewrite (Permutation_app_comm (Outputs.out_slices (out w))).
  by rewrite <-!app_assoc.
Qed.

Lemma core_out_update hand hand0 s o np o' b :
  core hand0 s o np → Outputs.outs_ok af o' →
  SliceBuffer.holds b (Outputs.out_slices o' ++ elsewhere hand s) → core hand (put_buffer b s) o' np.
Proof.
  intros [[S1 S2 S3 S4 S5] C2 C3 C4 C5] Ho Hh. constructor; try done.
  constructor; cbn [put_buffer dc bridge pipes buffer]; try done.
  - destruct (bridge s); [destruct S1 as [? ? ? ? ? ? ? []]|destruct S1]; by constructor.
  - rewrite (Permutation_app_comm (Outputs.out_slices o')) in Hh. unfold elsewhere in Hh.
    by rewrite <-!app_assoc in Hh.
Qed.

(** Only the amount of free memory has changed. *)
Lemma stage_rel_buffer s b : stage_rel s (put_buffer b s).
Proof. destruct (stage_rel_refl s). by constructor. Qed.

Lemma out_update_gentle v w : gentle w (out_update v w).
Proof. constructor; cbn; [apply stage_rel_buffer|done..]. Qed.

(** A call of the outputs that does not throw. *)
Lemma v_on_outs md {A B : Set} hand (m : prog Outputs.outworld B) R (k : B → proc world A) c Q w :
  Core hand w →
  (∀ l, Outputs.oinv af l (out_view w) →
     wp m (λ a v, Outputs.oinv af l v ∧ R a v) (λ _ _, False) (out_view w)) →
  (∀ a v, R a v → Core hand (out_update v w) → V md c (k a) Q (out_update v w)) →
  V md (S c) (pbind (on_outs m) k) Q w.
Proof.
  intros Hco Hm Hk. pose proof (Hm _ (core_oinv hand w Hco)) as H. unfold wp in H.
  destruct (m (out_view w)) as [a v|e v|] eqn:E; [|done|done]. destruct H as [[H1 H2] HR].
  apply (v_act _ _ _ _ _ _ a (out_update v w)); [unfold zoom; by rewrite E|done|done|].
  apply Hk; [done|]. by apply (core_out_update _ hand _ (out w)).
Qed.

(** A call that may throw. *)
Lemma v_try_outs md {A B : Set} hand (m : prog Outputs.outworld B) R X (k : exn + B → proc world A) c Q w :
  Core hand w →
  (∀ l, Outputs.oinv af l (out_view w) →
     wp m (λ a v, Outputs.oinv af l v ∧ R a v) (λ e v, Outputs.oinv af l v ∧ X e v) (out_view w)) →
  (∀ r v, (match r with inr a => R a v | inl e => X e v end) → Core hand (out_update v w) →
     V md c (k r) Q (out_update v w)) →
  V md (S c) (pbind (try_outs m) k) Q w.
Proof.
  intros Hco Hm Hk. pose proof (Hm _ (core_oinv hand w Hco)) as H. unfold wp in H.
  destruct (m (out_view w)) as [a v|e v|] eqn:E; [| |done]; destruct H as [[H1 H2] HR].
  - apply (v_act _ _ _ _ _ _ (inr a) (out_update v w)); [unfold zoom; by rewrite E|done|done|].
    apply (Hk (inr a)); [done|]. by apply (core_out_update _ hand _ (out w)).
  - apply (v_act _ _ _ _ _ _ (inl e) (out_update v w)); [unfold zoom; by rewrite E|done|done|].
    apply (Hk (inl e)); [done|]. by apply (core_out_update _ hand _ (out w)).
Qed.

(** A chunk is handed over to the outputs. *)
Lemma v_play md {A : Set} hand ch (k : exn + unit → proc world A) c Q w :
  Core (MusicChunk.addrs ch ++ hand) w → MusicPipe.chunk_ok af true ch →
  Outputs.opened (out w) = true →
  (∀ r v, match r with
          | inr _ => Core hand (out_update v w) ∧ Outputs.opened (Outputs.outs v) = true
          | inl _ => Core (MusicChunk.addrs ch ++ hand) (out_update v w) ∧ Outputs.outs v = out w
          end → V md c (k r) Q (out_update v w)) →
  V md (S c) (pbind (try_outs (Outputs.Play ch)) k) Q w.
Proof.
  intros Hco Hch Hop Hk. pose proof (core_oinv _ w Hco) as [Hh Ho].
  assert (Hh2 : SliceBuffer.holds (Outputs.chunkbuf (out_view w))
    (MusicChunk.addrs ch ++ Outputs.out_slices (Outputs.outs (out_view w)) ++ elsewhere hand (st w))).
  { revert Hh. unfold elsewhere. change (Outputs.outs (out_view w)) with (out w). intros Hh.
    rewrite (Permutation_app_swap_app (MusicChunk.addrs ch)).
    rewrite (Permutation_app_swap_app (MusicChunk.addrs ch)).
    by rewrite (Permutation_app_swap_app (MusicChunk.addrs ch)). }
  pose proof (Outputs.outputs_Play_ok af Haf ch _ (out_view w) Hch Ho Hop Hh2) as H. unfold wp in H.
  destruct (Outputs.Play ch (out_view w)) as [a v|e v|] eqn:E; [| |done].
  - destruct H as [[H1 H2] H3].
    apply (v_act _ _ _ _ _ _ (inr a) (out_update v w)); [unfold zoom; by rewrite E|done|done|].
    apply (Hk (inr a)). split; [|done]. by eapply core_out_update.
  - destruct H as [H1 H2].
    apply (v_act _ _ _ _ _ _ (inl e) (out_update v w)); [unfold zoom; by rewrite E|done|done|].
    apply (Hk (inl e)). split; [|done]. apply (core_out_update _ _ _ (out w) _ (Outputs.outs v) (Outputs.chunkbuf v) Hco);
      rewrite H1; [done|by rewrite H2].
Qed.

(** ** Opening the outputs *)

Lemma state_open w : Player.state (pc w) ≠ STATE_STOP → state_is_open w = true.
Proof. unfold state_is_open. by destruct (Player.state (pc w)). Qed.

Lemma OpenOutput_ok md hand w : locked w = false → Core hand w → pc_ok (pc w) →
  play_audio_format (pl w) = af → Player.state (pc w) ≠ STATE_STOP →
  V md 14 OpenOutput (λ b w', locked w' = false ∧ fine hand w w' ∧
    pl w' = set_paused (negb b) (set_open b (pl w)) ∧ Outputs.opened (out w') = b) w.
Proof.
  intros Hl Hco He Hf Hs. unfold OpenOutput.
  apply v_assert; [rewrite Hf; by apply MusicPipe.af_defined|]. apply v_assert; [by apply state_open|].
  apply v_read. rewrite Hf.
  apply (v_try_outs _ hand _ (λ _ v, Outputs.opened (Outputs.outs v) = true)
    (λ _ v, Outputs.opened (Outputs.outs v) = false)); [done|by intros l; apply Outputs.Open_ok|].
  intros r v Hr Hco1. pose proof (out_update_gentle v w) as Hg1. destruct r as [e|[]].
  - apply v_on_pl, v_on_pl. apply (v_lock Haf _ hand); [done..|]. intros w2 Hl2 [Q1 Q2 Q3 Q4 Q5].
    assert (Hs2 : Player.state (pc w2) ≠ STATE_STOP) by (by apply (mi_pc _ _ Q3)).
    apply v_SetError; [done|done|]. apply v_pc; [done..|].
    apply (v_unlock Haf _ hand); [done|done|by apply (pc_ok_error ERROR_OUTPUT)|]. intros w3 Hl3 Hq3.
    apply v_notify, valid_pure. split_and!; [done| | |].
    + eapply fine_step; [exact Hg1|]. eapply fine_step; [exact (mild_gentle _ _ Q3)|].
      eapply fine_step; [|exact (quiet_fine _ _ _ _ Hq3)]. constructor; cbn; try done.
      by apply pc_rel_quiet.
    + cbn. rewrite (mi_pl _ _ (q_mild _ _ _ _ Hq3)). cbn. by rewrite (mi_pl _ _ Q3).
    + cbn. rewrite (mi_opened _ _ (q_mild _ _ _ _ Hq3)). cbn. by rewrite (mi_opened _ _ Q3).
  - apply v_on_pl, v_on_pl. apply (v_lock Haf _ hand); [done..|]. intros w2 Hl2 [Q1 Q2 Q3 Q4 Q5].
    assert (Hs2 : Player.state (pc w2) ≠ STATE_STOP) by (by apply (mi_pc _ _ Q3)).
    apply v_pc; [done..|].
    apply (v_unlock Haf _ hand); [done|done|done|]. intros w3 Hl3 Hq3.
    apply v_notify, valid_pure. split_and!; [done| | |].
    + eapply fine_step; [exact Hg1|]. eapply fine_step; [exact (mild_gentle _ _ Q3)|].
      eapply fine_step; [|exact (quiet_fine _ _ _ _ Hq3)]. constructor; cbn; try done.
      by apply pc_rel_quiet.
    + cbn. rewrite (mi_pl _ _ (q_mild _ _ _ _ Hq3)). cbn. by rewrite (mi_pl _ _ Q3).
    + cbn. rewrite (mi_opened _ _ (q_mild _ _ _ _ Hq3)). cbn. by rewrite (mi_opened _ _ Q3).
Qed.

(** ** Waiting for the outputs *)

(** The outputs were used, and are as open as before. *)
Lemma out_update_mild v w : Outputs.opened (Outputs.outs v) = Outputs.opened (out w) →
  mild w (out_update v w).
Proof. intros H. constructor; cbn; try done. apply stage_rel_buffer. Qed.

Definition kept (hand : list nat) w w' : Prop := Core hand w' ∧ pc_ok (pc w') ∧ mild w w'.

Lemma quiet_kept md hand w w' : quiet md hand w w' → kept hand w w'.
Proof. by intros []. Qed.

Lemma kept_trans hand w w1 w2 : kept hand w w1 → kept hand w1 w2 → kept hand w w2.
Proof. intros (_ & _ & H1) (? & ? & H2). split_and!; [done|done|by etrans]. Qed.

(** [Check], with its result in fair company. *)
Lemma v_check_pipes md {A : Set} hand (k : nat → proc world A) c Q w :
  Core hand w → pc_ok (pc w) → Outputs.opened (out w) = true →
  (∀ n w', locked w' = locked w → kept hand w w' → (devices w = [] → n = 0) →
     pipes (st w') = pipes (st w) → V md c (k n) Q w') →
  V md (S c) (pbind (on_outs Outputs.Check) k) Q w.
Proof.
  intros Hco He Ho Hk.
  apply (v_on_outs _ hand _ (λ n v, Outputs.opened (Outputs.outs v) = true ∧ (devices w = [] → n = 0)));
    [done| |].
  - intros l Hl. eapply (wp_mono _ _ _ (λ _ _, False)); [by apply (Outputs.Check_ok af)| |done]. done.
  - intros n v [H1 H2] Hco'. apply Hk; [done| |done|done]. split_and!; [done|done|].
    apply out_update_mild. congruence.
Qed.

Lemma v_check md {A : Set} hand (k : nat → proc world A) c Q w :
  Core hand w → pc_ok (pc w) → Outputs.opened (out w) = true →
  (∀ n w', locked w' = locked w → kept hand w w' → (devices w = [] → n = 0) → V md c (k n) Q w') →
  V md (S c) (pbind (on_outs Outputs.Check) k) Q w.
Proof. intros Hco He Ho Hk. apply (v_check_pipes md hand); auto. Qed.

Lemma v_cancel md {A : Set} hand (k : unit → proc world A) c Q w :
  Core hand w → pc_ok (pc w) →
  (∀ w', locked w' = locked w → kept hand w w' → V md c (k tt) Q w') →
  V md (S c) (pbind (on_outs Outputs.Cancel) k) Q w.
Proof.
  intros Hco He Hk.
  apply (v_on_outs _ hand _ (λ n v, Outputs.opened (Outputs.outs v) = Outputs.opened (out w))); [done| |].
  - intros l Hl. by apply (Outputs.Cancel_ok af).
  - intros [] v H1 Hco'. apply Hk; [done|]. split_and!; [done|done|]. by apply out_update_mild.
Qed.

Lemma outputs_Wait_ok md hand n w : locked w = false → Core hand w → pc_ok (pc w) →
  Outputs.opened (out w) = true →
  V md 10 (outputs_Wait n) (λ b w', locked w' = false ∧ kept hand w w' ∧ md ≠ Never ∧
    (md = Calm → 0 < n → b = true)) w.
Proof.
  intros Hl Hco He Ho. unfold outputs_Wait. apply (v_lock Haf _ hand); [done..|].
  intros w1 Hl1 Hq1. pose proof (quiet_kept _ _ _ _ Hq1) as K1. destruct Hq1 as [Q1 Q2 Q3 Q4 Q5].
  apply (v_check _ hand); [done|done|by rewrite (mi_opened _ _ Q3)|]. intros m w2 Hl2 K2 Hm.
  rewrite Hl1 in Hl2. destruct (m <? n) eqn:Emn.
  - apply (v_unlock Haf _ hand); [done|apply K2..|]. intros w3 Hl3 Hq3.
    apply valid_pure. split_and!; [done| |done|done].
    eapply kept_trans; [exact K1|]. eapply kept_trans; [exact K2|by eapply quiet_kept].
  - apply (v_wait Haf _ hand); [done|apply K2..|]. intros w3 Hl3 Hq3.
    pose proof (quiet_kept _ _ _ _ Hq3) as K3.
    apply (v_unlock Haf _ hand); [done|apply K3..|]. intros w4 Hl4 Hq4.
    pose proof (quiet_kept _ _ _ _ Hq4) as K4.
    apply (v_check _ hand); [apply K4..| |].
    { rewrite (mi_opened _ _ (proj2 (proj2 K4))), (mi_opened _ _ (proj2 (proj2 K3))).
      by rewrite (mi_opened _ _ (proj2 (proj2 K2))), (mi_opened _ _ Q3). }
    intros m' w5 Hl5 K5 _. apply valid_pure. split_and!; [congruence| |done|].
    + eapply kept_trans; [exact K1|]. eapply kept_trans; [exact K2|].
      eapply kept_trans; [exact K3|]. by eapply kept_trans.
    + intros Hc Hn. destruct (Q5 Hc) as [_ Hd]. rewrite (Hm Hd) in Emn. lia.
Qed.

(** ** Chunks *)

Lemma core_buffer hand hand0 s o np b : core hand0 s o np →
  SliceBuffer.holds b (pslices (pipes s) ++ cur_slices (bridge s) ++ hand ++ Outputs.out_slices o) →
  core hand (put_buffer b s) o np.
Proof.
  intros Hco Hh. eapply core_out_update; [done|apply Hco|]. unfold elsewhere.
  rewrite (Permutation_app_comm (Outputs.out_slices o)). by rewrite <-!app_assoc.
Qed.

Lemma v_allocate md {A : Set} hand (k : option MusicChunk.t → proc world A) c Q w :
  Core hand w →
  (∀ r b, match r with
          | Some ch => ∃ a, ch = MusicChunk.make a ∧ Core (a :: hand) (put_st (put_buffer b (st w)) w)
          | None => Core hand (put_st (put_buffer b (st w)) w)
          end → V md c (k r) Q (put_st (put_buffer b (st w)) w)) →
  V md (S c) (pbind allocate_chunk k) Q w.
Proof.
  intros Hco Hk. pose proof (so_holds _ _ _ (co_stage _ _ _ _ Hco)) as Hh.
  destruct (SliceBuffer.Allocate_ok _ _ Hh) as (r & b & Hr & _ & H).
  apply (v_act _ _ _ _ _ _ (option_map MusicChunk.make r) (put_st (put_buffer b (st w)) w));
    [unfold MusicBuffer.Allocate; by rewrite Hr|done|done|]. apply Hk. destruct r as [a|]; cbn.
  - exists a. split; [done|]. destruct H as [_ H]. eapply core_buffer; [done|].
    by rewrite <-!app_comm_cons, <-!Permutation_middle.
  - destruct H as [-> _]. by eapply core_buffer.
Qed.

Lemma v_return md {A : Set} hand ch (k : unit → proc world A) c Q w :
  (∀ o, MusicChunk.other ch = Some o → MusicChunk.other o = None) →
  Core (MusicChunk.addrs ch ++ hand) w →
  (∀ b, Core hand (put_st (put_buffer b (st w)) w) → V md c (k tt) Q (put_st (put_buffer b (st w)) w)) →
  V md (S c) (pbind (return_chunk ch) k) Q w.
Proof.
  intros Ho Hco Hk. pose proof (so_holds _ _ _ (co_stage _ _ _ _ Hco)) as Hh. rewrite <-app_assoc in Hh.
  rewrite (Permutation_app_swap_app (cur_slices _)) in Hh.
  rewrite (Permutation_app_swap_app (pslices _)) in Hh.
  destruct (MusicPipe.Return_addrs ch _ _ Ho Hh) as (b & Hb & _ & Hh').
  apply v_on_stage with (s' := put_buffer b (st w)); [by rewrite Hb|]. apply Hk. by eapply core_buffer.
Qed.

Lemma silence_pos : (0 < MusicChunk.CHUNK_SIZE / GetFrameSize af * GetFrameSize af)%Z.
Proof.
  pose proof (frame_size_pos af Haf) as Hf. assert (Hle : (GetFrameSize af ≤ MusicChunk.CHUNK_SIZE)%Z).
  { pose proof Haf as H. unfold IsValid, audio_valid_channel_count, MAX_CHANNELS in H.
    unfold GetFrameSize, GetSampleSize, MusicChunk.CHUNK_SIZE.
    assert (sample_format_size (format af) ≤ 8)%Z by (destruct (format af); cbn; lia). nia. }
  pose proof (Z.div_str_pos _ _ (conj Hf Hle)). nia.
Qed.

Lemma SendSilence_ok md hand w : Core hand w → pc_ok (pc w) → output_open (pl w) = true →
  flags_inv (Outputs.opened (out w)) (pl w) →
  V md 7 SendSilence (λ _ w', locked w' = locked w ∧ kept hand w w') w.
Proof.
  intros Hco He Hop Hfl. destruct (fi_open _ _ Hfl Hop) as [Hod Hf]. unfold SendSilence.
  apply v_assert; [done|]. apply v_assert; [rewrite Hf; by apply MusicPipe.af_defined|].
  apply (v_allocate _ hand); [done|]. intros [ch|] b H.
  2:{ apply valid_pure. split; [done|]. split_and!; [done|done|]. constructor; cbn; try done. apply stage_rel_buffer. }
  destruct H as (a & -> & Hco1). apply v_read. cbn [pl put_st]. rewrite Hf. cbv zeta.
  set (ch := MusicChunk.set_data _ _ _ _).
  apply (v_play _ hand); [exact Hco1| |done|].
  { pose proof silence_pos. constructor; cbn; [|lia|by right|done|done].
    unfold MusicChunk.IsEmpty. cbn. rewrite andb_true_r. lia. }
  intros [e|[]] v [Hco2 Hv].
  - apply (v_return _ hand); [done|exact Hco2|]. intros b2 Hco3. apply valid_pure.
    split; [done|]. split_and!; [done|done|]. constructor; cbn; try done; [|by rewrite Hv].
    etrans; [apply stage_rel_buffer|]. etrans; [apply stage_rel_buffer|]. apply stage_rel_buffer.
  - apply valid_pure. split; [done|]. split_and!; [done|done|]. constructor; cbn; try done; [|congruence].
    etrans; [apply stage_rel_buffer|]. apply stage_rel_buffer.
Qed.

End Outs.
End PlayerOuts.

(** * The player thread: its pipes

    Creating, clearing, deleting and shifting pipes, and the methods that start and stop
    the decoder. *)

Module PlayerPipes.
Import Song Player AudioFormat Decoder DecoderFacts PlayerTask PlayerRely PlayerSteps PlayerDecoder.
Import PlayerInv PlayerOuts.

Section Pipes.
Context {cfg : PlayerConfig}.
#[local] Abbreviation af := configured_audio_format.
Hypothesis Haf : IsValid af = true.
#[local] Abbreviation V := (valid player_protocol).
#[local] Abbreviation Core hand w := (core hand (st w) (out w) (next_pipe w)).
Implicit Types w : world.

(** ** Replacing the set of pipes *)

(** The decoder is idle, or finds its destination as it expects it. *)
Definition dest_kept (s : stage) (m : gmap nat MusicPipe.t) : Prop :=
  IsIdle (dc s) = true ∨ ∀ q p, Decoder.pipe (dc s) = Some q → pipes s !! q = Some p →
    ∃ p', m !! q = Some p' ∧ (MusicPipe.chunks p = [] → MusicPipe.chunks p' = []).

Lemma core_pipes hand' hand s o np np' b m :
  core hand s o np → (∀ q p, m !! q = Some p → MusicPipe.pipe_ok af false p) →
  SliceBuffer.holds b (pslices m ++ cur_slices (bridge s) ++ hand' ++ Outputs.out_slices o) →
  dest_kept s m → (∀ q, is_Some (m !! q) → q < np') →
  core hand' (mkStage (dc s) (bridge s) b m) o np'.
Proof.
  intros [[S1 S2 S3 S4 S5] C2 C3 C4 C5] Hp Hh Hd Hf. constructor; try done.
  constructor; cbn; try done. destruct (bridge s) as [br|].
  - destruct S1 as [B1 B2 B3 B4 B5 B6 B7 [P1 P2 P3 P4 P5]]. destruct Hd as [Hi|Hd]; [by rewrite B1 in Hi|].
    destruct B2 as (q & p & Hq & Hx). destruct (Hd q p Hq Hx) as (p' & Hp' & He).
    assert (Hde : dest_empty s → dest_empty (mkStage (dc s) (Some br) b m)).
    { intros He2 q1 p1 Hq1 Hp1. cbn in *. rewrite Hq in Hq1. injection Hq1 as <-. rewrite Hp' in Hp1.
      injection Hp1 as <-. eauto. }
    constructor; cbn; try done; [by exists q, p'| |].
    + intros Hst. destruct (B5 Hst). auto.
    + constructor; cbn; try done. intros H. destruct (P1 H). auto.
  - destruct S1 as [I1 I2 I3]. constructor; cbn; [done|by rewrite C5; intros [|]|by rewrite C5].
Qed.

Lemma pipes_insert_ok (m : gmap nat MusicPipe.t) q x : MusicPipe.pipe_ok af false x →
  (∀ q p, m !! q = Some p → MusicPipe.pipe_ok af false p) →
  ∀ q' p, <[q:=x]> m !! q' = Some p → MusicPipe.pipe_ok af false p.
Proof.
  intros Hx Hm q' p. destruct (decide (q' = q)) as [->|Hne].
  - rewrite lookup_insert_eq. by intros [= <-].
  - rewrite lookup_insert_ne by done. apply Hm.
Qed.

Lemma is_Some_insert (m : gmap nat MusicPipe.t) q x p q' : m !! q = Some p →
  is_Some (<[q:=x]> m !! q') ↔ is_Some (m !! q').
Proof.
  intros H. destruct (decide (q' = q)) as [->|Hne].
  - rewrite lookup_insert_eq, H. by split; eauto.
  - by rewrite lookup_insert_ne.
Qed.

Lemma dest_kept_insert s q p x : pipes s !! q = Some p →
  (MusicPipe.chunks p = [] → MusicPipe.chunks x = []) → dest_kept s (<[q:=x]> (pipes s)).
Proof.
  intros Hp Hx. right. intros q' p' Hq Hp'. destruct (decide (q' = q)) as [->|Hne].
  - rewrite lookup_insert_eq. rewrite Hp in Hp'. injection Hp' as <-. eauto.
  - rewrite lookup_insert_ne by done. eauto.
Qed.

(** ** Single pipes *)

Lemma v_new_pipe md {A : Set} hand (k : nat → proc world A) c Q w : Core hand w →
  (∀ w', pc w' = pc w → pl w' = pl w → out w' = out w → locked w' = locked w →
     answered w' = answered w → pipes (st w) !! next_pipe w = None →
     st w' = put_pipe (next_pipe w) MusicPipe.make (st w) → Core hand w' → V md c (k (next_pipe w)) Q w') →
  V md (S c) (pbind new_pipe k) Q w.
Proof.
  intros Hco Hk. pose proof Hco as [C1 C2 C3 C4 C5].
  assert (Hn : pipes (st w) !! next_pipe w = None).
  { apply eq_None_not_Some. intros H. apply C3 in H. lia. }
  eapply v_act; [done|done|done|]. apply Hk; try done.
  apply (core_pipes hand hand _ _ (next_pipe w)); [done| | | |].
  - apply pipes_insert_ok; [apply MusicPipe.make_pipe_ok|apply C1].
  - rewrite pslices_insert by done. apply C1.
  - right. intros q p _ Hp. rewrite lookup_insert_ne by congruence. eauto.
  - intros q. destruct (decide (q = next_pipe w)) as [->|Hne]; [intros _; cbn; lia|].
    rewrite lookup_insert_ne by done. intros H%C3. cbn. lia.
Qed.

(** The stage with the pipe [q] emptied. *)
Definition cleared (q : nat) (s s' : stage) : Prop :=
  dc s' = dc s ∧ pipes s' = <[q:=MusicPipe.make]> (pipes s).

Lemma v_clear md {A : Set} hand q p (k : unit → proc world A) c Q w : Core hand w → pipes (st w) !! q = Some p →
  (∀ s', cleared q (st w) s' → Core hand (put_st s' w) → V md c (k tt) Q (put_st s' w)) →
  V md (S c) (pbind (on_stage (clear_pipe q)) k) Q w.
Proof.
  intros Hco Hp Hk. destruct (clear_pipe_ok af q _ _ p (stage_mem _ _ _ (co_stage _ _ _ _ Hco)) Hp)
    as (s' & Hc & Hd & Hb & [M1 M2] & Hpi & _).
  apply v_on_stage with (s' := s'); [done|]. apply Hk; [done|].
  assert (Hs : s' = mkStage (dc (st w)) (bridge (st w)) (buffer s') (pipes s')).
  { rewrite <-Hd, <-Hb. by destruct s'. }
  change (core hand s' (out w) (next_pipe w)). rewrite Hs.
  apply (core_pipes hand hand _ _ (next_pipe w)); [done|done|done| |].
  - rewrite Hpi. by apply (dest_kept_insert _ _ p).
  - intros q'. rewrite Hpi, (is_Some_insert _ _ _ p) by done. apply Hco.
Qed.

(** The stage without the pipe [q]. *)
Definition dropped (q : nat) (s s' : stage) : Prop :=
  dc s' = dc s ∧ pipes s' = delete q (pipes s).

Lemma v_delete md {A : Set} hand q p (k : unit → proc world A) c Q w : Core hand w → pipes (st w) !! q = Some p →
  MusicPipe.chunks p = [] → IsIdle (dc (st w)) = true ∨ Decoder.pipe (dc (st w)) ≠ Some q →
  (∀ s', dropped q (st w) s' → Core hand (put_st s' w) → V md c (k tt) Q (put_st s' w)) →
  V md (S c) (pbind (delete_pipe q) k) Q w.
Proof.
  intros Hco Hp Hc Hq Hk.
  apply v_on_stage with (s' := mkStage (dc (st w)) (bridge (st w)) (buffer (st w)) (delete q (pipes (st w)))).
  { unfold drop_pipe. rewrite Hp. cbn [mbind option_bind]. unfold MusicPipe.delete. by rewrite Hc. }
  apply Hk; [done|]. apply (core_pipes hand hand _ _ (next_pipe w)); [done| | | |].
  - intros q' p' [_ H]%lookup_delete_Some. by apply (so_pipes _ _ _ (co_stage _ _ _ _ Hco) q').
  - pose proof (so_holds _ _ _ (co_stage _ _ _ _ Hco)) as Hh. rewrite (pslices_delete _ q p Hp) in Hh.
    unfold MusicPipe.slices in Hh. rewrite Hc in Hh. exact Hh.
  - destruct Hq as [Hi|Hne]; [by left|right]. intros q' p' Hq' Hp'.
    rewrite lookup_delete_ne by congruence. eauto.
  - intros q' [p' [_ H]%lookup_delete_Some]. apply Hco. eauto.
Qed.

(** Taking a chunk from a pipe. *)
Lemma v_shift md {A : Set} hand q p (k : option MusicChunk.t → proc world A) c Q w :
  Core hand w → pipes (st w) !! q = Some p →
  (∀ r p', match r with
           | None => MusicPipe.chunks p = [] ∧ p' = p
           | Some ch => MusicPipe.chunks p = ch :: MusicPipe.chunks p' ∧ MusicPipe.chunk_ok af false ch
           end →
     Core (match r with Some ch => MusicChunk.addrs ch ++ hand | None => hand end)
       (put_st (put_pipe q p' (st w)) w) →
     V md c (k r) Q (put_st (put_pipe q p' (st w)) w)) →
  V md (S c) (pbind (shift_pipe q) k) Q w.
Proof.
  intros Hco Hp Hk. pose proof (so_pipes _ _ _ (co_stage _ _ _ _ Hco) q p Hp) as Hpo.
  pose proof (so_holds _ _ _ (co_stage _ _ _ _ Hco)) as Hh.
  pose proof (MusicPipe.pipe_Shift_ok af false p Hpo) as HS. destruct (MusicPipe.chunks p) as [|ch cs] eqn:Ec.
  - apply (v_act _ _ _ _ _ _ None (put_st (put_pipe q p (st w)) w)); [by rewrite Hp, HS|done|done|].
    apply (Hk None p); [done|]. unfold put_pipe. rewrite insert_id by done.
    replace (mkStage _ _ _ _) with (st w) by (by destruct (st w)). exact Hco.
  - destruct HS as (p' & HS & Hch & Hpo' & Heq).
    apply (v_act _ _ _ _ _ _ (Some ch) (put_st (put_pipe q p' (st w)) w)); [by rewrite Hp, HS|done|done|].
    apply (Hk (Some ch) p'); [done|]. apply (core_pipes _ hand _ _ (next_pipe w)); [done| | | |].
    + apply pipes_insert_ok; [done|]. apply Hco.
    + rewrite pslices_update. rewrite (pslices_delete _ q p Hp) in Hh.
      unfold MusicPipe.slices at 1 in Hh. rewrite Ec, Heq in Hh. cbn [mbind list_bind] in Hh.
      rewrite <-!app_assoc in *. rewrite (Permutation_app_swap_app (cur_slices _)).
      rewrite (Permutation_app_swap_app (pslices _)).
      rewrite (Permutation_app_swap_app (MusicPipe.slices p')). exact Hh.
    + apply (dest_kept_insert _ _ p); [done|]. by rewrite Ec.
    + intros q'. rewrite (is_Some_insert _ _ _ p) by done. apply Hco.
Qed.

Lemma v_size md {A : Set} hand q p (k : nat → proc world A) c Q w : Core hand w → pipes (st w) !! q = Some p →
  V md c (k (length (MusicPipe.chunks p))) Q w → V md (S c) (pbind (pipe_size q) k) Q w.
Proof.
  intros Hco Hp Hk. eapply v_act; [by rewrite Hp|done|done|]. unfold MusicPipe.GetSize.
  by rewrite (MusicPipe.po_size _ _ _ (so_pipes _ _ _ (co_stage _ _ _ _ Hco) q p Hp)).
Qed.

End Pipes.
End PlayerPipes.
