(* ===== verification/PlayerStartup.v ===== *)
(** * The player thread: starting and stopping the decoder

    [StartDecoder], [StopDecoder] and [ActivateDecoder], and the pipes of [class Player]. *)

From Stdlib Require Import ZArith Lia ZifyBool.
From stdpp Require Import base numbers sets strings list gmap relations.
From S2P Require Import Prelude AudioFormat Tag Song Prog Threads Music Decoder DecoderFacts Outputs Player PlayerTask PlayerSteps PlayerDecoder PlayerOuts.

Set Default Goal Selector "!".

Module PlayerErrands.
Import Song Player AudioFormat Decoder DecoderFacts PlayerTask PlayerRely PlayerSteps PlayerDecoder.
Import PlayerInv PlayerOuts PlayerPipes.

Section Errands.
Context {cfg : PlayerConfig}.
#[local] Abbreviation af := configured_audio_format.
Hypothesis Haf : IsValid af = true.
#[local] Abbreviation V := (valid player_protocol).
#[local] Abbreviation Core hand w := (core hand (st w) (out w) (next_pipe w)).
Implicit Types w : world.

(** ** Starting *)

(** The mutex is taken for an instant. *)
Lemma v_lock_unlock md {A : Set} hand (k : unit → proc world A) c Q w :
  locked w = false → Core hand w → pc_ok (pc w) →
  (∀ w', Core hand w' → pc_ok (pc w') → aside w w' → stage_rel (st w) (st w') → md ≠ Never →
     V md c (k tt) Q w') →
  V md (S (S (S (S c)))) (pbind Lock (λ _, pbind Unlock k)) Q w.
Proof.
  intros Hl Hco He Hk. apply (v_Lock Haf _ (hand ++ Outputs.out_slices (out w))); [done|apply Hco|done|].
  intros w1 Ha. pose proof (af_env _ _ _ _ Ha) as Hr1. pose proof (core_env hand _ _ _ Hr1 eq_refl Hco) as Hco1.
  apply (v_Unlock Haf _ (hand ++ Outputs.out_slices (out w1))); [done|apply Hco1|apply Ha|].
  intros w2 Ha2. pose proof (af_env _ _ _ _ Ha2) as Hr2.
  apply Hk; [by apply (core_env hand _ _ _ Hr2 eq_refl Hco1)|apply Ha2| | |apply Ha].
  - etrans; [by eapply env_rel_aside|]. destruct (env_rel_aside _ _ _ Hr2). constructor; try done.
    cbn in *. by rewrite (e_locked _ _ _ Hr1), Hl.
  - etrans; [apply Hr1|apply Hr2].
Qed.

Lemma v_the_next_song md {A : Set} s (k : DetachedSong → proc world A) c Q w : next_song (pc w) = Some s →
  V md c (k s) Q w → V md (S c) (pbind the_next_song k) Q w.
Proof. intros H. apply v_lift_of. by rewrite H. Qed.

Lemma StartDecoder_ok md hand q p w : locked w = false → Core hand w → pc_ok (pc w) →
  IsIdle (dc (st w)) = true → queued_or_seek w = true → next_song (pc w) ≠ None →
  pipes (st w) !! q = Some p → MusicPipe.chunks p = [] →
  V md 65 (StartDecoder q) (λ _ w', ∃ sg, started hand sg q w w') w.
Proof.
  intros Hl Hco He Hi Hqs Hn Hp Hc. destruct (next_song (pc w)) as [s|] eqn:Es; [|done].
  unfold StartDecoder. apply v_assert; [done|]. apply (v_the_next_song _ s); [done|].
  apply (v_lock_unlock _ hand); [done..|]. intros w1 Hco1 He1 Has1 Hs1 _.
  destruct (sr_idle _ _ Hs1) as (Hd & _ & Hpi); [apply Hco|done|].
  assert (Hn1 : next_song (pc w1) = Some s) by (by rewrite (main_rel_next _ _ (as_main _ _ Has1)), Es; [|rewrite Es]).
  apply (v_the_next_song _ s); [done|]. apply v_read.
  eapply valid_mono; [apply (Start_ok Haf md hand s _ _ q p)|lia|].
  - by rewrite (as_locked _ _ Has1).
  - done.
  - done.
  - by rewrite Hd.
  - by rewrite Hpi.
  - done.
  - intros [] w' [D1 D2 D3 D4 D5 D6 D7 D8]. exists s. constructor; try done.
    + by etrans.
    + intros q'. rewrite D7, Hpi. done.
    + intros q' Hne. by rewrite D8, Hpi.
Qed.

(** ** Stopping *)

(** [ResetCrossFade] *)
Definition no_xfade (p : Player) : Player := set_xfade XFADE_UNKNOWN (cross_fade_chunks p) p.

Lemma no_xfade_id p : xfade_state p = XFADE_UNKNOWN → no_xfade p = p.
Proof. intros H. unfold no_xfade, set_xfade. rewrite <-H. by destruct p. Qed.

(** Only the pipe of the current song is left, and the decoder is idle. *)
Record stopped (hand : list nat) w w' : Prop := {
  sp_core : Core hand w';
  sp_err : pc_ok (pc w');
  sp_main : main_rel (pc w) (pc w');
  sp_pl : pl w' = no_xfade (pl w);
  sp_out : out w' = out w;
  sp_locked : locked w' = locked w;
  sp_answered : answered w' = answered w;
  sp_idle : IsIdle (dc (st w')) = true;
  sp_dest : Decoder.pipe (dc (st w')) = None;
  sp_pipes : pipes_inv (st w') (pl w');
}.

(** The pipes after the decoder was stopped. *)
Lemma pipes_inv_stopped s s' p : pipes_inv s p → Decoder.pipe (dc s') = None →
  Decoder.song (dc s') = Decoder.song (dc s) →
  (∀ q, is_Some (pipes s' !! q) → is_Some (pipes s !! q) ∧ (pipe p = Some q ∨ Decoder.pipe (dc s) ≠ Some q)) →
  (∀ q, pipe p = Some q → is_Some (pipes s !! q) → is_Some (pipes s' !! q)) → pipes_inv s' (no_xfade p).
Proof.
  intros [P1 P2 P3 P4 P5 P6] Hn Hs Hd Hk. constructor; cbn; try done.
  - destruct P1 as (q & Hq & Hx). exists q. eauto.
  - intros q Hq. destruct (Hd q Hq) as [Hq' [?|Hne]]; [by left|]. destruct (P2 q Hq'); [by left|done].
  - by rewrite Hn.
  - by rewrite Hs.
Qed.

Lemma StopDecoder_ok md hand w : locked w = false → Core hand w → pc_ok (pc w) →
  pipes_inv (st w) (pl w) → V md 63 StopDecoder (λ _ w', stopped hand w w') w.
Proof.
  intros Hl Hco He Hpi. unfold StopDecoder. eapply (v_call _ 56); [by apply (decoder_Stop_ok Haf md hand)|].
  intros [] w1 (Hco1 & He1 & Has1 & Hs1 & Hi1). destruct Has1 as [A1 A2 A3 A4 A5 A6].
  pose proof (pipes_inv_stable _ _ _ Hs1 Hpi) as Hpi1. rewrite <-A1 in Hpi1.
  apply v_read, v_read. destruct (Decoder.pipe (dc (st w1))) as [q|] eqn:Eq.
  2:{ apply valid_pure. constructor; try done.
      - rewrite no_xfade_id; [done|]. destruct (decide (xfade_state (pl w) = XFADE_UNKNOWN)) as [|Hx]; [done|].
        rewrite A1 in Hpi1. by destruct (pi_xfade _ _ Hpi1 Hx). }
  destruct (pi_dest _ _ Hpi1 q Eq) as [p Hp].
  apply (v_clear _ hand q p); [done|done|]. intros s2 [Hd2 Hp2] Hco2.
  set (w2 := put_st s2 w1) in *.
  assert (Hend : ∀ c s3, dc s3 = dc (st w1) → Core hand (put_st s3 w1) →
    pipes_inv (upd_dc (Decoder.set_pipe None) s3) (no_xfade (pl w)) →
    V md (S (S c)) (pbind (on_dc (Decoder.set_pipe None)) (λ _, ResetCrossFade)) (λ _ w', stopped hand w w')
      (put_st s3 w1)).
  { intros c s3 Hd3 Hco3 Hpi3. apply v_on_dc. apply valid_tail, v_on_pl, valid_pure.
    constructor; cbn [upd_pl put_st pc st out pl locked answered next_pipe]; try done.
    - destruct Hco3 as [C1 C2 C3 C4 C5]. constructor; try done.
      change (stage_ok af (hand ++ Outputs.out_slices (out w1)) (upd_dc (Decoder.set_pipe None) s3)).
      apply stage_ok_idle; cbn; [exact C1|..].
      + apply (stage_idle_bridge _ _ C1). cbn. by rewrite Hd3.
      + unfold IsIdle in *. cbn. by rewrite Hd3.
      + apply C1.
      + done.
      + cbn in C5. rewrite C5. by intros [|].
      + cbn in C5. by rewrite C5.
    - by rewrite A1.
    - cbn. unfold IsIdle in *. by rewrite Hd3.
    - by rewrite A1. }
  cbn [pl put_st]. destruct (decide (Some q = pipe (pl w1))) as [Hq|Hq]; cbn [pbind].
  - apply Hend; [done|done|]. rewrite <-A1. apply (pipes_inv_stopped (st w1)); [done|done|by cbn; rewrite Hd2|..].
    + intros q' Hq'. cbn in Hq'. rewrite Hp2, (is_Some_insert _ _ _ p) in Hq' by done. split; [done|].
      rewrite Eq, <-Hq. destruct (decide (q = q')) as [->|]; [by left|right; congruence].
    + intros q' _ Hx. cbn. by rewrite Hp2, (is_Some_insert _ _ _ p).
  - apply (v_delete _ hand q MusicPipe.make); [done|by cbn; rewrite Hp2, lookup_insert_eq|done|
      left; cbn; by rewrite Hd2|].
    intros s3 [Hd3 Hp3] Hco3. apply Hend; [by rewrite Hd3|done|]. rewrite <-A1.
    apply (pipes_inv_stopped (st w1)); [done|done|by cbn; rewrite Hd3; cbn; rewrite Hd2|..]; cbn.
    + intros q' Hq'. rewrite Hp3 in Hq'. cbn in Hq'. rewrite Hp2, delete_insert_eq in Hq'.
      destruct Hq' as [x [Hne Hx]%lookup_delete_Some]. split; [by eexists|]. right. congruence.
    + intros q' Hq' Hx. rewrite Hp3. cbn. rewrite Hp2, delete_insert_eq. rewrite lookup_delete_ne; [done|congruence].
Qed.

(** ** Going over to the next song *)

(** Taking the next song. *)
Lemma v_take_next md {A : Set} (k : unit → proc world A) c Q w :
  (Player.state (pc w) = STATE_STOP → Player.command (pc w) ≠ COMMAND_NONE) →
  V md c (k tt) Q (upd_pc (set_next_song None) w) →
  V md (S c) (pbind (on_pc (set_next_song None)) k) Q w.
Proof.
  intros H. apply v_on_pc. constructor; [done|by right|by left|]. intros Hs Hc. by destruct (H Hs).
Qed.

(** The player after [ActivateDecoder]. *)
Definition on_air (s : DetachedSong) (t : Z) (p : Player) : Player :=
  set_starting true (set_elapsed t (set_song (Some s) (set_queued false p))).

Record activated (hand : list nat) w w' : Prop := {
  ac_core : Core hand w';
  ac_err : pc_ok (pc w');
  ac_locked : locked w' = false;
  ac_stage : stage_rel (st w) (st w');
  ac_opened : Outputs.opened (out w') = Outputs.opened (out w);
  ac_answered : answered w' = answered w;
  ac_pl : ∃ s t, pl w' = on_air s t (pl w);
  ac_pending : Player.command (pc w) ≠ COMMAND_NONE →
    Player.command (pc w') = Player.command (pc w) ∧ next_song (pc w') = None;
  ac_sync : needs_next (Player.command (pc w)) = false → sync (pc w') (pl w');
  ac_state : Player.state (pc w) ≠ STATE_STOP → Player.state (pc w') ≠ STATE_STOP;
}.

Lemma ActivateDecoder_ok md hand w : locked w = false → Core hand w → pc_ok (pc w) →
  queued_or_seek w = true → next_song (pc w) ≠ None →
  (Player.state (pc w) = STATE_STOP → Player.command (pc w) ≠ COMMAND_NONE) →
  V md 16 ActivateDecoder (λ _ w', activated hand w w') w.
Proof.
  intros Hl Hco He Hqs Hn Hst. destruct (next_song (pc w)) as [s|] eqn:Es; [|done]. unfold ActivateDecoder.
  apply v_assert; [done|]. apply (v_the_next_song _ s); [done|]. apply v_on_pl.
  apply (v_lock Haf _ hand); [done..|]. intros w1 Hl1 [Q1 Q2 Q3 Q4 _].
  pose proof (mi_pc _ _ Q3) as Hp1. change (pc_rel (pc w) (pc w1)) in Hp1.
  assert (Hn1 : next_song (pc w1) = Some s) by (by rewrite (pc_rel_next _ _ Hp1), Es; [|rewrite Es]).
  assert (Hst1 : Player.state (pc w1) = STATE_STOP → Player.command (pc w1) ≠ COMMAND_NONE).
  { destruct (decide (Player.state (pc w) = STATE_STOP)) as [Hs|Hs].
    - intros _. destruct (pr_pending _ _ Hp1 (Hst Hs)) as [-> _]. auto.
    - intros Hs1. by destruct (pr_state _ _ Hp1 Hs Hs1). }
  apply v_pc; [done..|]. apply (v_the_next_song _ s); [done|]. apply v_on_pl.
  apply v_take_next; [done|]. apply v_read, v_on_pl, v_on_pl. apply v_pc; [done..|].
  apply (v_unlock Haf _ hand); [done|done|done|]. intros w2 Hl2 [R1 R2 R3 R4 _].
  apply valid_tail, v_notify, valid_pure. pose proof (mi_pc _ _ R3) as Hp2. cbn in Hp2.
  assert (Hnn : needs_next (Player.command (pc w)) = false → needs_next (Player.command (pc w1)) = false).
  { intros Hx. destruct (decide (Player.command (pc w) = COMMAND_NONE)) as [Hc|Hc].
    - pose proof (pr_post _ _ Hp1 Hc) as H. rewrite Es in H. destruct (needs_next (Player.command (pc w1))); [by destruct H as [? _]|done].
    - by destruct (pr_pending _ _ Hp1 Hc) as [-> _]. }
  constructor; cbn [emit pc st out pl locked answered next_pipe]; try done.
  - etrans; [apply Q3|]. apply R3.
  - rewrite (mi_opened _ _ R3). cbn. by rewrite (mi_opened _ _ Q3).
  - rewrite (mi_answered _ _ R3). cbn. by rewrite (mi_answered _ _ Q3).
  - exists s. eexists. rewrite (mi_pl _ _ R3). cbn. by rewrite (mi_pl _ _ Q3).
  - intros Hc. destruct (pr_pending _ _ Hp1 Hc) as [Hc1 _].
    destruct (pr_pending _ _ Hp2) as [-> ->]; cbn; [by rewrite Hc1|done].
  - intros Hx. rewrite (mi_pl _ _ R3). eapply sync_stable; [exact Hp2|]. unfold sync. cbn.
    rewrite (Hnn Hx). split; [|done]. intros Hq. rewrite (mi_pl _ _ Q3) in Hq. done.
  - intros Hs. apply (pr_state _ _ Hp2). cbn. by apply (pr_state _ _ Hp1).
Qed.

End Errands.
End PlayerErrands.

(** * The player thread: waiting for the decoder to start

    [CheckDecoderStartup] and [WaitDecoderStartup]: the player learns from the decoder that
    the song can be played, or cannot.  In fair company the wait ends. *)

Module PlayerStartup.
Import Song Player AudioFormat Decoder DecoderFacts PlayerTask PlayerRely PlayerSteps PlayerDecoder.
Import PlayerInv PlayerOuts PlayerPipes PlayerErrands.

(** The members of [Player] that say which song is where. *)
Record pl_rel (p p' : Player) : Prop := {
  pl_pipe : pipe p' = pipe p;
  pl_queued : queued p' = queued p;
  pl_xfade : xfade_state p' = xfade_state p;
  pl_chunks : cross_fade_chunks p' = cross_fade_chunks p;
}.

#[global] Instance pl_rel_refl : Reflexive pl_rel.
Proof. by constructor. Qed.

#[global] Instance pl_rel_trans : Transitive pl_rel.
Proof. intros p p1 p2 [] []. constructor; congruence. Qed.

Section Startup.
Context {cfg : PlayerConfig}.
#[local] Abbreviation af := configured_audio_format.
Hypothesis Haf : IsValid af = true.
#[local] Abbreviation V := (valid player_protocol).
#[local] Abbreviation Core hand w := (core hand (st w) (out w) (next_pipe w)).
Implicit Types w : world.

Lemma pipes_inv_rel s p p' : pl_rel p p' → pipes_inv s p → pipes_inv s p'.
Proof.
  intros [R1 R2 R3 R4] [P1 P2 P3 P4 P5 P6].
  constructor; unfold at_next; rewrite ?R1, ?R3, ?R4; done.
Qed.

Lemma queue_inv_rel s p p' : pl_rel p p' → queue_inv s p → queue_inv s p'.
Proof. intros [R1 R2 R3 R4]. unfold queue_inv, at_next. by rewrite R1, R2. Qed.

Lemma sync_rel c p p' : pl_rel p p' → sync c p → sync c p'.
Proof. intros [R1 R2 R3 R4]. unfold sync. by rewrite R2. Qed.

Lemma base_rel s o o' p p' : pl_rel p p' → flags_inv (Outputs.opened o') p' → base s o p → base s o' p'.
Proof.
  intros Hr Hf [B1 B2 B3]. constructor; [by eapply pipes_inv_rel|done|by eapply queue_inv_rel].
Qed.

(** ** The state between two rounds *)

(** Everything but [sync], which a command in progress may suspend. *)
Definition Good (hand : list nat) w : Prop :=
  Core hand w ∧ pc_ok (pc w) ∧ base (st w) (out w) (pl w) ∧ playing_inv (pl w) ∧
  start_inv (st w) (pl w) ∧ Player.state (pc w) ≠ STATE_STOP.

Lemma Good_kept hand w w' : kept hand w w' → Good hand w → Good hand w'.
Proof.
  intros (H1 & H2 & Hm) (Hco & He & Hb & Hp & Hs & Hst). split_and!; [done|done|by eapply base_mild|..].
  - by rewrite (mi_pl _ _ Hm).
  - rewrite (mi_pl _ _ Hm). eapply start_inv_stable; [apply Hm|apply Hco|done].
  - by apply (mi_pc _ _ Hm).
Qed.

Lemma Good_quiet md hand w w' : quiet md hand w w' → Good hand w → Good hand w'.
Proof. intros H. apply Good_kept. by eapply quiet_kept. Qed.

Lemma Good_core hand w : Good hand w → Core hand w.
Proof. by intros (H & _). Qed.
Lemma Good_err hand w : Good hand w → pc_ok (pc w).
Proof. by intros (_ & H & _). Qed.
Lemma Good_base hand w : Good hand w → base (st w) (out w) (pl w).
Proof. by intros (_ & _ & H & _). Qed.
Lemma Good_state hand w : Good hand w → Player.state (pc w) ≠ STATE_STOP.
Proof. by intros (_ & _ & _ & _ & _ & H). Qed.

Lemma Good_error hand t e w : t ≠ ERROR_NONE → Good hand w → Good hand (upd_pc (set_error t (Some e)) w).
Proof. intros Ht (G1 & G2 & G3 & G4 & G5 & G6). split_and!; try done. by apply pc_ok_error. Qed.

Lemma Good_command hand c w : c ≠ COMMAND_EXIT → Good hand w → Good hand (upd_pc (Player.set_command c) w).
Proof. intros Hc (G1 & [He _] & G3 & G4 & G5 & G6). split_and!; try done. Qed.

Lemma Good_finished hand w : Good hand w → Good hand (finished w).
Proof. exact (Good_command hand COMMAND_NONE w ltac:(done)). Qed.

(** ** [CheckDecoderStartup] *)

Lemma song_of_dc md {A : Set} sg (k : DetachedSong → proc world A) c Q w : Decoder.song (dc (st w)) = Some sg →
  V md c (k sg) Q w → V md (S c) (pbind (act (λ w, lift (Decoder.song (dc (st w))) w)) k) Q w.
Proof. intros H. apply v_lift_of. by rewrite H. Qed.

(** The outputs are opened unless the player is paused. *)
Lemma open_unless_paused_ok md hand w : locked w = false → Core hand w → pc_ok (pc w) →
  base (st w) (out w) (pl w) → play_audio_format (pl w) = af → decoder_starting (pl w) = false →
  IsStarting (dc (st w)) = false → Player.state (pc w) ≠ STATE_STOP →
  V md 15 (pbind (if paused (pl w) then Pure tt else pbind OpenOutput (λ _, Pure tt)) (λ _, Pure true))
    (λ b w', b = true ∧ locked w' = false ∧ Good hand w' ∧ gentle w w' ∧ pl_rel (pl w) (pl w') ∧
       decoder_starting (pl w') = false) w.
Proof.
  intros Hl Hco He Hb Hf Hds Hst Hs. destruct (paused (pl w)) eqn:Hp.
  - apply valid_pure. split_and!; try done. split_and!; try done.
    + by intros _ ?; rewrite Hp in *.
    + by intros H; rewrite Hst in H.
  - rewrite pbind_assoc. eapply (v_call _ 14); [by apply (OpenOutput_ok Haf md hand)|].
    intros b w1 (Hl1 & (Hco1 & He1 & Hg1) & Hpl1 & Ho1). apply valid_pure.
    assert (Hr : pl_rel (pl w) (pl w1)) by (rewrite Hpl1; done).
    assert (Hds1 : decoder_starting (pl w1) = false) by (by rewrite Hpl1).
    split_and!; try done. split_and!; try done.
    + eapply base_stable; [apply Hg1|done|]. eapply base_rel; [exact Hr| |exact Hb].
      destruct (ba_flags _ _ _ Hb) as [F1 F2 F3 F4]. rewrite Hpl1, Ho1. by constructor; cbn; auto.
    + rewrite Hpl1. unfold playing_inv. cbn. by destruct b.
    + intros H. apply (sr_start _ _ (ge_stage _ _ _ _ _ _ _ _ Hg1)) in H; [|apply Hco]. congruence.
    + by apply (ge_pc _ _ _ _ _ _ _ _ Hg1).
Qed.

Lemma finish_startup_ok md hand w : locked w = false → Core hand w → pc_ok (pc w) →
  base (st w) (out w) (pl w) → IsStarting (dc (st w)) = false → Player.state (pc w) ≠ STATE_STOP →
  V md 27 finish_startup
    (λ b w', b = true ∧ locked w' = false ∧ Good hand w' ∧ gentle w w' ∧ pl_rel (pl w) (pl w') ∧
       decoder_starting (pl w') = false) w.
Proof.
  intros Hl Hco He Hb Hst Hs. unfold finish_startup. apply (v_lock Haf _ hand); [done..|].
  intros w1 Hl1 [Q1 Q2 Q3 Q4 _]. apply v_read. pose proof (base_mild _ _ Q3 Hb) as Hb1.
  destruct (pi_song _ _ (ba_pipes _ _ _ Hb1)) as [sg Hsg]. apply (song_of_dc _ sg); [done|].
  assert (Hs1 : Player.state (pc w1) ≠ STATE_STOP) by (by apply (mi_pc _ _ Q3)).
  apply v_pc; [done..|]. apply (v_unlock Haf _ hand); [done|done|done|].
  intros w2 Hl2 [R1 R2 R3 R4 _]. apply v_notify, v_read, v_on_pl, v_on_pl, v_read.
  assert (Hst2 : IsStarting (dc (st w2)) = false).
  { destruct (IsStarting (dc (st w2))) eqn:E; [|done].
    apply (sr_start _ _ (mi_stage _ _ R3)) in E; [|apply Q1].
    apply (sr_start _ _ (mi_stage _ _ Q3)) in E; [|apply Hco]. congruence. }
  assert (Hf2 : out_audio_format (dc (st w2)) = af) by apply R1.
  match goal with |- valid _ _ _ _ _ ?x => set (w3 := x) end.
  assert (Hb2 : base (st w2) (out w2) (pl w2)) by (eapply base_mild; [exact R3|exact Hb1]).
  assert (Hb3 : base (st w3) (out w3) (pl w3)).
  { apply (base_rel _ (out w2) _ (pl w2)); [done| |exact Hb2].
    destruct (ba_flags _ _ _ Hb2) as [F1 F2 F3 F4]. constructor; cbn; try done; [|by left].
    intros H. split; [by apply F1|done]. }
  eapply valid_mono; [apply (open_unless_paused_ok md hand w3); try done|lia|].
  - by apply (mi_pc _ _ R3).
  - intros b w' (-> & H1 & H2 & H3 & H4 & H5). split_and!; try done.
    + etrans; [exact (mild_gentle _ _ Q3)|]. etrans; [|exact H3].
      etrans; [|exact (mild_gentle _ _ R3)]. apply gentle_upd_pc, pc_rel_quiet; done.
    + etrans; [|exact H4]. cbn. rewrite (mi_pl _ _ R3). cbn. rewrite (mi_pl _ _ Q3). by constructor.
Qed.

Lemma steady_gentle w w' : gentle w w' → Player.command (pc w) = COMMAND_SEEK →
  command (dc (st w)) = DC_NONE → steady (dc (st w)) → steady (dc (st w')).
Proof.
  intros Hm Hp Hc [Hs|Hs].
  - left. apply (ge_decode _ _ _ _ _ _ _ _ Hm); congruence.
  - right. destruct (sr_idle _ _ (ge_stage _ _ _ _ _ _ _ _ Hm)) as (-> & _ & _); [done| |done].
    unfold IsIdle. by rewrite Hs.
Qed.

Lemma gentle_command w w' : gentle w w' → Player.command (pc w) ≠ COMMAND_NONE →
  Player.command (pc w') = Player.command (pc w) ∧ next_song (pc w') = next_song (pc w).
Proof. intros H. apply (ge_pc _ _ _ _ _ _ _ _ H). Qed.

(** The error of a decoder that has failed is known. *)
Lemma ForwardDecoderError_spec l s : stage_ok af l s → command (dc s) = DC_NONE →
  CheckRethrowError (dc s) = Some (if decide (state (dc s) = DECODER_ERROR) then error (dc s) else None) ∧
  (state (dc s) = DECODER_ERROR → is_Some (error (dc s))).
Proof.
  intros Hs Hc. pose proof (so_error _ _ _ Hs) as He. split; [|done]. unfold CheckRethrowError.
  rewrite check_bind by (by apply bool_decide_eq_true).
  rewrite check_bind; [done|]. destruct (decide (state (dc s) = DECODER_ERROR)) as [E|E].
  - rewrite (bool_decide_eq_true_2 (is_Some _)) by auto. by rewrite orb_true_r.
  - by rewrite bool_decide_eq_false_2.
Qed.

(** The result of waiting for the start of the song. *)
Definition checked (hand : list nat) md w (b : bool) w' : Prop :=
  locked w' = false ∧ Good hand w' ∧ gentle w w' ∧ pl_rel (pl w) (pl w') ∧ md ≠ Never ∧
  (decoder_starting (pl w') = false → Player.command (pc w) = COMMAND_SEEK → steady (dc (st w'))) ∧
  (md = Calm → b = true → decoder_starting (pl w') = false).

Lemma checked_kept hand md b w w' : locked w' = false → decoder_starting (pl w) = true → Good hand w →
  kept hand w w' → md ≠ Never → (md = Calm → b = false) → checked hand md w b w'.
Proof.
  intros Hl Hd Hg Hk Hn Hc. pose proof (proj2 (proj2 Hk)) as Hm.
  split_and!; [done|by eapply Good_kept|by apply mild_gentle|by rewrite (mi_pl _ _ Hm)|done|..].
  - rewrite (mi_pl _ _ Hm), Hd. done.
  - intros Hx ->. by specialize (Hc Hx).
Qed.

Lemma CheckDecoderStartup_ok md hand w : locked w = false → Good hand w →
  decoder_starting (pl w) = true →
  V md 45 CheckDecoderStartup (checked hand md w) w.
Proof.
  intros Hl Hgood Hds. unfold CheckDecoderStartup. apply v_assert; [done|].
  apply (v_lock Haf _ hand); [done|apply Hgood..|]. intros w1 Hl1 Hq1.
  pose proof (Good_quiet _ _ _ _ Hq1 Hgood) as Hg1. pose proof (quiet_kept _ _ _ _ Hq1) as K1.
  destruct Hq1 as [Q1 Q2 Q3 Q4 Q5].
  assert (Hds1 : decoder_starting (pl w1) = true) by (by rewrite (mi_pl _ _ Q3)).
  destruct (ForwardDecoderError_spec _ _ (co_stage _ _ _ _ Q1) (co_command _ _ _ _ Q1)) as [Hre Herr].
  unfold ForwardDecoderError. rewrite pbind_assoc. eapply v_lift_of; [exact Hre|].
  case_decide as E.
  { destruct (Herr E) as [e ->]. rewrite pbind_assoc. apply v_SetError; [done| |].
    { intros H. by destruct (Good_state _ _ Hg1). }
    pose proof (Good_error _ ERROR_DECODER e _ ltac:(done) Hg1) as Hge.
    cbn [pbind negb]. apply (v_unlock Haf _ hand); [done|apply Hge..|]. intros w2 Hl2 Hq2.
    pose proof (q_mild _ _ _ _ Hq2) as Hm2. apply valid_pure.
    split_and!; [done| | | |done| |done].
    - by eapply Good_quiet.
    - etrans; [exact (mild_gentle _ _ Q3)|]. etrans; [|exact (mild_gentle _ _ Hm2)].
      by apply (gentle_upd_pc (set_error ERROR_DECODER (Some e))), pc_rel_quiet.
    - rewrite (mi_pl _ _ Hm2). cbn. by rewrite (mi_pl _ _ Q3).
    - rewrite (mi_pl _ _ Hm2). cbn. by rewrite Hds1. }
  cbn [pbind negb]. apply v_read. destruct (IsStarting (dc (st w1))) eqn:Est; cbn [negb].
  { eapply (v_call _ 8); [by apply (WaitForDecoder_quiet Haf md hand)|]. intros [] w2 [Hl2 Hq2].
    pose proof (quiet_kept _ _ _ _ Hq2) as K2.
    apply (v_unlock Haf _ hand); [done|apply K2..|]. intros w3 Hl3 Hq3. apply valid_pure.
    apply checked_kept; [done|done|done| |done|].
    - eapply kept_trans; [exact K1|]. eapply kept_trans; [exact K2|by eapply quiet_kept].
    - intros Hc. destruct (Q5 Hc) as [[_ H] _]. congruence. }
  apply (v_unlock Haf _ hand); [done|done|done|]. intros w2 Hl2 Hq2.
  pose proof (Good_quiet _ _ _ _ Hq2 Hg1) as Hg2. pose proof (quiet_kept _ _ _ _ Hq2) as K2.
  pose proof (q_mild _ _ _ _ Hq2) as Hm2. apply v_read.
  assert (Hwait : V md 10 (if output_open (pl w2) then outputs_Wait 1 else Pure true)
    (λ b w', locked w' = false ∧ kept hand w2 w' ∧ (md = Calm → b = true)) w2).
  { destruct (output_open (pl w2)) eqn:Eo.
    - eapply valid_mono; [apply (outputs_Wait_ok Haf md hand); [done|apply Hg2..|]|done|].
      + by apply (fi_open _ _ (ba_flags _ _ _ (Good_base _ _ Hg2))).
      + intros b w' (B1 & B2 & _ & B4). split_and!; [done|done|]. intros Hx. apply B4; [done|lia].
    - apply valid_pure. split_and!; [done| |done]. split_and!; [apply Hg2|apply Hg2|reflexivity]. }
  eapply (v_call _ 10); [exact Hwait|]. intros ready w3 (Hl3 & K3 & Hready).
  pose proof (Good_kept _ _ _ K3 Hg2) as Hg3.
  destruct ready.
  2:{ apply valid_pure. apply checked_kept; [done|done|done| |done|].
      - eapply kept_trans; [exact K1|]. by eapply kept_trans.
      - intros Hc. by specialize (Hready Hc). }
  assert (Hst3 : IsStarting (dc (st w3)) = false).
  { destruct (IsStarting (dc (st w3))) eqn:E3; [|done].
    apply (sr_start _ _ (mi_stage _ _ (proj2 (proj2 K3)))) in E3; [|apply Hg2].
    apply (sr_start _ _ (mi_stage _ _ Hm2)) in E3; [|apply Q1]. congruence. }
  eapply valid_mono; [apply (finish_startup_ok md hand); [done|apply Hg3..|done|apply Hg3]|cbn; lia|].
  intros b w' (-> & H1 & H2 & H3 & H4 & H5).
  assert (Hg13 : gentle w1 w3).
  { etrans; apply mild_gentle; [exact Hm2|apply K3]. }
  assert (Hpl : pl w3 = pl w).
  { by rewrite (mi_pl _ _ (proj2 (proj2 K3))), (mi_pl _ _ Hm2), (mi_pl _ _ Q3). }
  split_and!; [done|done| |by rewrite <-Hpl|done| |done].
  - etrans; [exact (mild_gentle _ _ Q3)|]. etrans; [exact Hg13|exact H3].
  - intros _ Hc. assert (Hc1 : Player.command (pc w1) = COMMAND_SEEK).
    { rewrite (proj1 (mild_command _ _ Q3 ltac:(by rewrite Hc))). done. }
    apply (steady_gentle w1); [by etrans|done|apply Q1|].
    unfold IsStarting in Est. unfold steady. destruct (state (dc (st w1))); try done; [by right|by left].
Qed.

(** ** [WaitDecoderStartup] *)

(** The state between two rounds of [Run]. *)
Definition Inv (hand : list nat) w : Prop := Good hand w ∧ sync (pc w) (pl w).

Lemma LockCommandFinished_ok md hand w : locked w = false → Good hand w →
  Player.command (pc w) ≠ COMMAND_NONE → Player.command (pc w) ≠ COMMAND_CLOSE_AUDIO →
  (takes_next (Player.command (pc w)) = true → next_song (pc w) = None) →
  sync (Player.set_command COMMAND_NONE (pc w)) (pl w) →
  V md 5 LockCommandFinished (λ _ w', locked w' = false ∧ Inv hand w' ∧ answered w' = S (answered w) ∧
    pl w' = pl w) w.
Proof.
  intros Hl Hg Hc Hca Ht Hsy. unfold LockCommandFinished. apply (v_lock Haf _ hand); [done|apply Hg..|].
  intros w1 Hl1 Hq1. pose proof (Good_quiet _ _ _ _ Hq1 Hg) as Hg1.
  pose proof (q_mild _ _ _ _ Hq1) as Hm1. destruct (mild_command _ _ Hm1 Hc) as [Hc1 Hn1].
  apply v_CommandFinished; rewrite ?Hc1, ?Hn1; [done|done|done|].
  pose proof (Good_finished _ _ Hg1) as Hgf.
  apply valid_tail, (v_unlock Haf _ hand); [done|apply Hgf..|]. intros w2 Hl2 Hq2.
  pose proof (q_mild _ _ _ _ Hq2) as Hm2. apply valid_pure. split_and!; [done|..].
  - split.
    + by eapply Good_quiet.
    + rewrite (mi_pl _ _ Hm2). eapply sync_stable; [apply Hm2|]. cbn. rewrite (mi_pl _ _ Hm1).
      revert Hsy. unfold sync. cbn. by rewrite Hn1.
  - rewrite (mi_answered _ _ Hm2). cbn. by rewrite (mi_answered _ _ Hm1).
  - rewrite (mi_pl _ _ Hm2). cbn. by rewrite (mi_pl _ _ Hm1).
Qed.

(** A seek command is being carried out, and its song was taken. *)
Definition seeking_now w : Prop :=
  Player.command (pc w) = COMMAND_SEEK ∧ next_song (pc w) = None ∧ queued (pl w) = false.

Lemma seeking_now_gentle w w' : gentle w w' → pl_rel (pl w) (pl w') → seeking_now w → seeking_now w'.
Proof.
  intros Hg Hr (H1 & H2 & H3). destruct (gentle_command _ _ Hg) as [E1 E2]; [by rewrite H1|].
  unfold seeking_now. by rewrite E1, E2, (pl_queued _ _ Hr).
Qed.

(** The command is answered, and no song is left over. *)
Lemma seek_answered_ok md hand w : locked w = false → Good hand w → seeking_now w →
  V md 5 LockCommandFinished (λ _ w', locked w' = false ∧ Inv hand w' ∧ answered w' = S (answered w) ∧
    pl w' = pl w) w.
Proof.
  intros Hl Hg (H1 & H2 & H3). apply LockCommandFinished_ok; rewrite ?H1; try done.
  unfold sync. cbn. rewrite H2, H3. done.
Qed.

Definition waiting (w : world) : nat := if decoder_starting (pl w) then 1 else 0.

(** What a wait for the decoder ends with. *)
Definition startup_end (hand : list nat) w (b : bool) w' : Prop :=
  locked w' = false ∧
  if b then Good hand w' ∧ gentle w w' ∧ pl_rel (pl w) (pl w') ∧ steady (dc (st w'))
  else Inv hand w' ∧ answered w' = S (answered w).

(** What holds at the head of the loop. *)
Definition startup_head (hand : list nat) w w' : Prop :=
  locked w' = false ∧ Good hand w' ∧ gentle w w' ∧ pl_rel (pl w) (pl w') ∧
  (decoder_starting (pl w') = false → steady (dc (st w'))).

Lemma startup_round_ok md hand w : locked w = false → Good hand w → seeking_now w →
  (decoder_starting (pl w) = false → steady (dc (st w))) →
  V md 53 (startup_round tt) (λ r w', match r with
    | inl _ => startup_head hand w w' ∧ md ≠ Never ∧ (md = Calm → waiting w' < waiting w)
    | inr b => startup_end hand w b w'
    end) w.
Proof.
  intros Hl Hg Hs Hst. unfold startup_round. apply v_read. destruct (decoder_starting (pl w)) eqn:Hds; cbn [negb].
  2:{ apply valid_pure. split_and!; [done|done|reflexivity|reflexivity|by apply Hst]. }
  eapply (v_call _ 45); [by apply (CheckDecoderStartup_ok md hand)|].
  intros b w1 (Hl1 & Hg1 & Hgen & Hpl & Hn & Hsd & Hcalm). destruct b; cbn [negb].
  - apply valid_pure. split_and!; [|done|].
    + split_and!; try done. intros H. apply Hsd; [done|apply Hs].
    + intros Hc. unfold waiting. rewrite (Hcalm Hc eq_refl), Hds. lia.
  - apply (v_cancel _ hand); [apply Hg1..|]. intros w2 Hl2 K2. rewrite Hl1 in Hl2.
    eapply (v_call _ 5).
    { apply (seek_answered_ok md hand); [done|by eapply Good_kept|].
      apply (seeking_now_gentle w1); [by apply mild_gentle, K2|by rewrite (mi_pl _ _ (proj2 (proj2 K2)))|].
      by eapply seeking_now_gentle. }
    intros [] w3 (Hl3 & Hi3 & Ha3 & _). apply valid_pure. split_and!; [done|done|].
    rewrite Ha3, (mi_answered _ _ (proj2 (proj2 K2))). by rewrite (ge_answered _ _ _ _ _ _ _ _ Hgen).
Qed.

Lemma WaitDecoderStartup_ok md hand w : locked w = false → Good hand w → seeking_now w →
  (decoder_starting (pl w) = false → steady (dc (st w))) →
  V md 269 WaitDecoderStartup (startup_end hand w) w.
Proof.
  intros Hl Hg Hs Hst. unfold WaitDecoderStartup.
  apply (valid_loop player_protocol 53 1 (λ _, startup_head hand w) (λ _, waiting)).
  2:{ split_and!; [done|done|reflexivity|reflexivity|done]. }
  intros md' [] w1 (Hl1 & Hg1 & Hgen & Hpl & Hsd).
  split; [unfold waiting; case_match; lia|].
  eapply valid_mono; [apply (startup_round_ok md' hand); [done|done|by eapply seeking_now_gentle|done]|done|].
  intros [[]|b] w2.
  - intros ((L & G & Ge & Pl & Sd) & Hn & Hc). split_and!; [|by intros ->|by intros ? _; right; auto].
    split_and!; [done|done|by etrans|by etrans|done].
  - intros [L H]. split; [done|]. destruct b.
    + destruct H as (G & Ge & Pl & Sd). split_and!; [done|by etrans|by etrans|done].
    + destruct H as [G A]. split; [done|]. by rewrite A, (ge_answered _ _ _ _ _ _ _ _ Hgen).
Qed.

End Startup.
End PlayerStartup.
