(* ===== verification/PlayerCommands.v ===== *)
(** * The player thread: seeking

    [SeekDecoder]: the command is answered exactly once, whether the song is already being
    decoded or not, and whether the decoder can seek or fails. *)

From Stdlib Require Import ZArith Lia ZifyBool.
From stdpp Require Import base numbers sets strings list gmap relations.
From S2P Require Import Prelude AudioFormat Tag Song Prog Threads Music Decoder DecoderFacts Outputs Player PlayerTask PlayerSteps PlayerDecoder PlayerOuts PlayerStartup.

Set Default Goal Selector "!".

Module PlayerSeek.
Import Song Player AudioFormat Decoder DecoderFacts PlayerTask PlayerRely PlayerSteps PlayerDecoder.
Import PlayerInv PlayerOuts PlayerPipes PlayerErrands PlayerStartup.

Section Seek.
Context {cfg : PlayerConfig}.
#[local] Abbreviation af := configured_audio_format.
Hypothesis Haf : IsValid af = true.
#[local] Abbreviation V := (valid player_protocol).
#[local] Abbreviation Core hand w := (core hand (st w) (out w) (next_pipe w)).
Implicit Types w : world.

Lemma v_the_pipe md {A : Set} q (k : nat → proc world A) c Q w : pipe (pl w) = Some q →
  V md c (k q) Q w → V md (S c) (pbind the_pipe k) Q w.
Proof. intros H. apply v_lift_of. by rewrite H. Qed.

Lemma flags_inv_on_air o s t p : flags_inv o p → flags_inv o (on_air s t p).
Proof.
  intros [F1 F2 F3 F4]. constructor; cbn; [done| |done|by eexists].
  destruct F2 as [?|[? _]]; [by left|by right].
Qed.

(** The decoder was put to work on the current song. *)
Lemma pipes_inv_started s s' p q sg : pipes_inv s p → pipe p = Some q → Decoder.pipe (dc s) = None →
  Decoder.pipe (dc s') = Some q → Decoder.song (dc s') = Some sg →
  (∀ q', is_Some (pipes s' !! q') ↔ is_Some (pipes s !! q')) → xfade_state p = XFADE_UNKNOWN → pipes_inv s' p.
Proof.
  intros [P1 P2 P3 P4 P5 P6] Hq Hn Hd Hs Hdom Hx. constructor.
  - destruct P1 as (q' & ? & ?). exists q'. by rewrite Hdom.
  - intros q' Hq'. apply Hdom in Hq'. destruct (P2 q' Hq'); [by left|congruence].
  - rewrite Hd. intros q' [= <-]. apply Hdom. destruct P1 as (q2 & ? & ?). congruence.
  - rewrite Hs. by eexists.
  - by rewrite Hx.
  - by rewrite Hx.
Qed.

(** The current song is on the air, and the decoder works on it. *)
Lemma Good_activated hand w w' : activated hand w w' → pipes_inv (st w) (pl w) →
  flags_inv (Outputs.opened (out w)) (pl w) → Decoder.pipe (dc (st w)) = pipe (pl w) →
  Player.state (pc w) ≠ STATE_STOP → Good hand w'.
Proof.
  intros [A1 A2 A3 A4 A5 A6 (s & t & A7) A8 A9 A10] Hpi Hf Hd Hs. rewrite <-A5 in Hf.
  split_and!; [done|done| | | |by apply A10]; rewrite A7.
  - constructor; [|by apply flags_inv_on_air|].
    + pose proof (pipes_inv_stable _ _ _ A4 Hpi) as [P1 P2 P3 P4 P5 P6]. by constructor.
    + intros [_ H]. destruct H. cbn. by rewrite (sr_pipe _ _ A4).
  - by intros H.
  - by intros H.
Qed.

(** What the two branches of [SeekDecoder] end with. *)
Definition seek_end (hand : list nat) w (b : bool) w' : Prop :=
  locked w' = false ∧
  if b then Good hand w' ∧ seeking_now w' ∧ xfade_state (pl w') = XFADE_UNKNOWN ∧ answered w' = answered w
  else Inv hand w' ∧ answered w' = S (answered w).

Lemma seek_restart_ok md hand w : locked w = false → Good hand w →
  Player.command (pc w) = COMMAND_SEEK → next_song (pc w) ≠ None →
  V md 420 seek_restart (seek_end hand w) w.
Proof.
  intros Hl Hg Hc Hn. unfold seek_restart.
  eapply (v_call _ 63); [apply (StopDecoder_ok Haf md hand); [done|apply Hg..]|].
  intros [] w1 [S1 S2 S3 S4 S5 S6 S7 S8 S9 S10].
  assert (Hpc1 : pc w1 = pc w) by (apply (main_rel_pending _ _ S3); by rewrite Hc).
  destruct (pi_pipe _ _ S10) as (q & Hq & [p Hp]). apply (v_the_pipe _ q); [done|].
  apply (v_clear _ hand q p); [done|done|]. intros s2 [Hd2 Hp2] Hco2.
  eapply (v_call _ 65).
  { apply (StartDecoder_ok Haf md hand q MusicPipe.make); cbn; [by rewrite S6|done|done|by rewrite Hd2| | | |done].
    - unfold queued_or_seek. cbn. rewrite Hpc1, Hc. by rewrite orb_true_r.
    - by rewrite Hpc1.
    - by rewrite Hp2, lookup_insert_eq. }
  intros [] w3 (sg & [D1 D2 [A1 A2 A3 A4 A5 A6] _ D5 D6 D7 D8]). cbn in A1, A2, A3, A4, A5, A6, D7.
  assert (Hpc3 : pc w3 = pc w).
  { rewrite <-Hpc1. apply (main_rel_pending _ _ A6). by rewrite Hpc1, Hc. }
  assert (Hpi3 : pipes_inv (st w3) (pl w3)).
  { rewrite A1. apply (pipes_inv_started (st w1) _ _ q sg); try done; [|by rewrite S4].
    intros q'. rewrite D7, Hp2. by apply (is_Some_insert _ _ _ p). }
  assert (Hf3 : flags_inv (Outputs.opened (out w3)) (pl w3)).
  { rewrite A1, A2, S4, S5. by destruct (ba_flags _ _ _ (Good_base _ _ Hg)). }
  assert (Hst3 : Player.state (pc w3) ≠ STATE_STOP) by (rewrite Hpc3; apply Hg).
  eapply (v_call _ 16).
  { apply (ActivateDecoder_ok Haf md hand); [by rewrite A4, S6|done|done| | |done].
    - unfold queued_or_seek. rewrite Hpc3, Hc. by rewrite orb_true_r.
    - by rewrite Hpc3. }
  intros [] w4 Hac. pose proof (Good_activated _ _ _ Hac Hpi3 Hf3 ltac:(by rewrite D5, A1) Hst3) as Hg4.
  destruct Hac as [_ _ L4 _ _ N4 (s & t & P4) C4 _ _]. destruct C4 as [C4 N4']; [by rewrite Hpc3, Hc|].
  assert (Hs4 : seeking_now w4) by (split_and!; [by rewrite C4, Hpc3|done|by rewrite P4]).
  eapply valid_mono; [apply (WaitDecoderStartup_ok Haf md hand); [done|done|done|by rewrite P4]|cbn; lia|].
  intros b w5 [L5 H5]. split; [done|]. destruct b.
  - destruct H5 as (G5 & Ge5 & Pl5 & _). split_and!; [done|by eapply seeking_now_gentle|..].
    + rewrite (pl_xfade _ _ Pl5), P4. cbn. by rewrite A1, S4.
    + rewrite (ge_answered _ _ _ _ _ _ _ _ Ge5), N4, A5. done.
  - destruct H5 as [I5 E5]. split; [done|]. by rewrite E5, N4, A5, S7.
Qed.

Lemma pipes_inv_keep s s' p : stage_keep s s' → xfade_state p = XFADE_UNKNOWN → pipes_inv s p → pipes_inv s' p.
Proof.
  intros [K1 K2 K3 K4] Hx [P1 P2 P3 P4 P5 P6]. constructor; rewrite ?Hx; try done.
  - destruct P1 as (q & ? & ?). exists q. by rewrite K3.
  - intros q. rewrite K1, K3. apply P2.
  - intros q. rewrite K1, K3. apply P3.
  - by rewrite K2.
Qed.

(** The decoder works on the current song, and nothing is cross-faded. *)
Lemma not_at_next s o p : base s o p → queued p = false → is_Some (Decoder.pipe (dc s)) →
  Decoder.pipe (dc s) = pipe p ∧ xfade_state p = XFADE_UNKNOWN.
Proof.
  intros [B1 B2 B3] Hq [q Hd]. destruct (decide (Decoder.pipe (dc s) = pipe p)) as [He|He].
  - split; [done|]. destruct (decide (xfade_state p = XFADE_UNKNOWN)) as [|Hx]; [done|].
    by destruct (pi_xfade _ _ B1 Hx).
  - exfalso. unfold queue_inv in B3. rewrite Hq in B3. discriminate B3. split; [by rewrite Hd|done].
Qed.

(** The song has been sought by the decoder. *)
Lemma Good_sought hand w w' : Good hand w → Core hand w' → pc_ok (pc w') → aside w w' →
  stage_keep (st w) (st w') → steady (dc (st w')) → xfade_state (pl w) = XFADE_UNKNOWN → Good hand w'.
Proof.
  intros (_ & _ & [B1 B2 B3] & Hp & _ & Hst) Hco He [A1 A2 A3 A4 A5 A6] Hk Hsd Hx.
  split_and!; [done|done| |by rewrite A1| |].
  - rewrite A1, A2. constructor; [by eapply pipes_inv_keep|done|].
    unfold queue_inv, at_next. rewrite (sk_pipe _ _ Hk). exact B3.
  - unfold start_inv, IsStarting. intros H%bool_decide_eq_true. destruct Hsd; congruence.
  - by rewrite (main_rel_state _ _ A6).
Qed.

(** Taking the song that the command brought. *)
Lemma Good_taken hand w : Good hand w → is_Some (Decoder.pipe (dc (st w))) → queued (pl w) = false →
  Good hand (upd_pl (set_queued false) (upd_pc (set_next_song None) w)).
Proof.
  intros (Hco & He & [B1 B2 B3] & Hp & Hs & Hst) Hd Hq. split_and!; try done.
  constructor; cbn.
  - destruct B1. by constructor.
  - destruct B2. by constructor.
  - intros H. rewrite <-Hq. by apply B3.
Qed.

Lemma seek_current_ok md hand t0 w : locked w = false → Good hand w →
  Player.command (pc w) = COMMAND_SEEK → queued (pl w) = false → is_Some (Decoder.pipe (dc (st w))) →
  (decoder_starting (pl w) = false → state (dc (st w)) = DECODER_DECODE) →
  V md 361 (seek_current t0) (seek_end hand w) w.
Proof.
  intros Hl Hg Hc Hq Hd Hsd. destruct (not_at_next _ _ _ (Good_base _ _ Hg) Hq Hd) as [Hdp Hx].
  unfold seek_current. apply v_assert; [by rewrite <-Hdp; destruct (Decoder.pipe (dc (st w))); destruct Hd|].
  apply v_read, v_read. rewrite decide_True by done. cbn [pbind].
  apply v_take_next; [intros H; by destruct (Good_state _ _ Hg)|]. apply v_on_pl.
  match goal with |- valid _ _ _ _ _ ?x => set (w1 := x) end.
  assert (Hg1 : Good hand w1) by (by apply Good_taken).
  assert (Hs1 : seeking_now w1) by done.
  eapply (v_call _ 269).
  { apply (WaitDecoderStartup_ok Haf md hand w1); [done|done|done|]. intros H. left. by apply Hsd. }
  intros ok w2 [Hl2 H2]. destruct ok; cbn [negb].
  2:{ apply valid_pure. split; [done|]. exact H2. }
  destruct H2 as (Hg2 & Hge2 & Hpl2 & Hst2). pose proof (seeking_now_gentle _ _ Hge2 Hpl2 Hs1) as Hs2.
  apply v_read. cbv zeta. eapply (v_call _ 70).
  { apply (Seek_ok Haf md hand); [done|apply Hg2..|apply Hs2|done]. }
  intros e w3 (Hco3 & He3 & Has3 & Hk3 & Hst3).
  assert (Hx2 : xfade_state (pl w2) = XFADE_UNKNOWN) by (by rewrite (pl_xfade _ _ Hpl2)).
  pose proof (Good_sought _ _ _ Hg2 Hco3 He3 Has3 Hk3 Hst3 Hx2) as Hg3.
  assert (Hpc3 : pc w3 = pc w2).
  { apply (main_rel_pending _ _ (as_main _ _ Has3)). by rewrite (proj1 Hs2). }
  assert (Hs3 : seeking_now w3) by (unfold seeking_now; by rewrite Hpc3, (as_pl _ _ Has3)).
  assert (Hl3 : locked w3 = false) by (by rewrite (as_locked _ _ Has3)).
  assert (Ha3 : answered w3 = answered w).
  { by rewrite (as_answered _ _ Has3), (ge_answered _ _ _ _ _ _ _ _ Hge2). }
  destruct e as [e|].
  - apply v_SetError; [done|intros H; by destruct (Good_state _ _ Hg3)|].
    eapply (v_call _ 5).
    { apply (seek_answered_ok Haf md hand); [done| |done].
      by apply (Good_error _ ERROR_DECODER). }
    intros [] w4 (Hl4 & Hi4 & Ha4 & _). apply valid_pure. split_and!; [done|done|]. by rewrite Ha4; cbn; rewrite Ha3.
  - apply v_on_pl, valid_pure. split_and!; [done| |done| |done].
    + destruct Hg3 as (G1 & G2 & [B1 B2 B3] & G4 & G5 & G6). split_and!; try done.
      constructor; [by destruct B1; constructor|by destruct B2; constructor|done].
    + cbn. by rewrite (as_pl _ _ Has3).
Qed.

Lemma SeekDecoder_ok md hand w : locked w = false → Inv hand w → Player.command (pc w) = COMMAND_SEEK →
  V md 440 SeekDecoder (λ _ w', locked w' = false ∧ Inv hand w' ∧ answered w' = S (answered w)) w.
Proof.
  intros Hl [Hg Hsy] Hc. unfold sync in Hsy. rewrite Hc in Hsy. destruct Hsy as [Hn Hq].
  unfold SeekDecoder. destruct (next_song (pc w)) as [sg|] eqn:Esg; [|done].
  apply (v_the_next_song _ sg); [done|]. apply (v_cancel _ hand); [apply Hg..|].
  intros w1 Hl1 K1. rewrite Hl in Hl1. pose proof (Good_kept _ _ _ K1 Hg) as Hg1.
  pose proof (proj2 (proj2 K1)) as Hm1.
  eapply (v_call _ 6); [apply (LockIsCurrentSong_ok Haf md hand); [done|apply Hg1..]|].
  intros same w2 (Hl2 & Hq2 & Hsame). pose proof (Good_quiet _ _ _ _ Hq2 Hg1) as Hg2.
  assert (Hm2 : mild w w2) by (etrans; [exact Hm1|apply (q_mild _ _ _ _ Hq2)]).
  destruct (mild_command _ _ Hm2) as [Hc2 Hn2]; [by rewrite Hc|]. rewrite Hc in Hc2.
  assert (Hbranch : V md 420 (if negb same then seek_restart else seek_current (GetStartTime sg)) (seek_end hand w) w2).
  { eapply (valid_mono _ _ 420 _ _ (seek_end hand w2)); [|done|].
    2:{ unfold seek_end. by rewrite (mi_answered _ _ Hm2). }
    destruct same; cbn [negb].
    - eapply (valid_mono _ _ 361); [|lia|done]. destruct (Hsame eq_refl) as [Hd Hdec].
      apply seek_current_ok; [done|done|done|by rewrite (mi_pl _ _ Hm2)|done|].
      intros Hds. destruct (mild_command _ _ Hm1) as [Hc1 _]; [by rewrite Hc|].
      apply Hdec; [by rewrite Hc1|]. destruct (IsStarting (dc (st w1))) eqn:E; [|done].
      destruct Hg1 as (_ & _ & Hb1 & _ & Hsi & _). specialize (Hsi E).
      rewrite (mi_pl _ _ Hm2) in Hds. rewrite (mi_pl _ _ Hm1) in Hsi, Hb1. rewrite Hsi in Hds; [done|].
      apply (not_at_next _ _ _ Hb1); [done|]. by rewrite (sr_pipe _ _ (mi_stage _ _ (q_mild _ _ _ _ Hq2))) in Hd.
    - apply seek_restart_ok; [done|done|done|]. by rewrite Hn2, Esg. }
  eapply (v_call _ 420); [exact Hbranch|]. intros ok w3 [Hl3 H3]. destruct ok; cbn [negb].
  2:{ apply valid_pure. split; [done|exact H3]. }
  destruct H3 as (Hg3 & Hs3 & Hx3 & Ha3).
  eapply (v_call _ 5); [by apply (seek_answered_ok Haf md hand)|]. intros [] w4 (Hl4 & [Hg4 Hsy4] & Ha4 & Hpl4).
  apply v_assert; [rewrite Hpl4, Hx3; by apply bool_decide_eq_true|]. apply v_on_pl, valid_pure.
  split_and!; [done| |by cbn; rewrite Ha4, Ha3]. split; [|done].
  destruct Hg4 as (G1 & G2 & [B1 B2 B3] & G4 & G5 & G6). split_and!; try done.
  constructor; [by destruct B1; constructor|by destruct B2; constructor|done].
Qed.

End Seek.
End PlayerSeek.

(** * The player thread: commands during playback

    [ProcessCommand]: every command but those that end playback is answered at once, and
    the state of the player is in order afterwards. *)

Module PlayerCommands.
Import Song Player AudioFormat Decoder DecoderFacts PlayerTask PlayerRely PlayerSteps PlayerDecoder.
Import PlayerInv PlayerOuts PlayerPipes PlayerErrands PlayerStartup PlayerSeek.

Section Commands.
Context {cfg : PlayerConfig}.
#[local] Abbreviation af := configured_audio_format.
Hypothesis Haf : IsValid af = true.
#[local] Abbreviation V := (valid player_protocol).
#[local] Abbreviation Core hand w := (core hand (st w) (out w) (next_pipe w)).
Implicit Types w : world.

Lemma Inv_kept hand w w' : kept hand w w' → Inv hand w → Inv hand w'.
Proof.
  intros Hk [Hg Hs]. split; [by eapply Good_kept|]. destruct Hk as (_ & _ & Hm).
  rewrite (mi_pl _ _ Hm). eapply sync_stable; [apply Hm|done].
Qed.

Lemma Inv_quiet md hand w w' : quiet md hand w w' → Inv hand w → Inv hand w'.
Proof. intros H. apply Inv_kept. by eapply quiet_kept. Qed.

Lemma sync_queued c p : sync c p → queued p = true → next_song c ≠ None ∧ needs_next (Player.command c) = false.
Proof.
  unfold sync. intros Hs Hq. destruct (needs_next (Player.command c)).
  - destruct Hs. congruence.
  - split; [by apply Hs|done].
Qed.

(** ** Answering *)

Definition answer (hand : list nat) w w' : Prop :=
  locked w' = true ∧ Inv hand w' ∧ answered w' = S (answered w).

Lemma player_CommandFinished_ok md hand n w : locked w = true → Good hand w →
  Player.command (pc w) ≠ COMMAND_NONE → Player.command (pc w) ≠ COMMAND_CLOSE_AUDIO →
  (takes_next (Player.command (pc w)) = true → next_song (pc w) = None) →
  sync (Player.set_command COMMAND_NONE (pc w)) (pl w) → answered w = n →
  V md 1 PlayerTask.CommandFinished (λ _ w', locked w' = true ∧ Inv hand w' ∧ answered w' = S n) w.
Proof.
  intros Hl Hg Hc Hca Ht Hs <-. apply valid_tail, v_CommandFinished; [done..|]. apply valid_pure.
  split_and!; [done| |done]. split; [by apply Good_finished|done].
Qed.

(** The answer to a command that is not about the next song. *)
Lemma sync_NONE c p : needs_next (Player.command c) = false → sync c p →
  sync (Player.set_command COMMAND_NONE c) p.
Proof. unfold sync. by intros ->. Qed.

(** ** Decoding the next song *)

(** The decoder was sent to the next song, with a new pipe. *)
Lemma Good_next hand w w1 w2 sg : Good hand w → ¬ at_next (st w) (pl w) → queued (pl w) = true →
  pipes (st w) !! next_pipe w = None → st w1 = put_pipe (next_pipe w) MusicPipe.make (st w) →
  pl w1 = pl w → out w1 = out w → Player.state (pc w1) = Player.state (pc w) →
  started hand sg (next_pipe w) w1 w2 → Good hand w2.
Proof.
  intros (_ & _ & [B1 B2 B3] & Hp & _ & Hst) Hna Hq Hnew Hs1 Hpl1 Ho1 Hst1
    [D1 D2 [A1 A2 A3 A4 A5 A6] _ D5 D6 D7 D8].
  assert (Hdom : ∀ q, is_Some (pipes (st w2) !! q) ↔ q = next_pipe w ∨ is_Some (pipes (st w) !! q)).
  { intros q. rewrite D7, Hs1. cbn. destruct (decide (q = next_pipe w)) as [->|Hne].
    - rewrite lookup_insert_eq. split; [by left|by eexists].
    - rewrite lookup_insert_ne by done. split; [by right|by intros [|]]. }
  destruct (pi_pipe _ _ B1) as (q0 & Hq0 & Hx0).
  assert (Hne : Some (next_pipe w) ≠ pipe (pl w)).
  { rewrite Hq0. intros [= <-]. by rewrite Hnew in Hx0; destruct Hx0. }
  assert (Hxf : xfade_state (pl w) = XFADE_UNKNOWN).
  { destruct (decide (xfade_state (pl w) = XFADE_UNKNOWN)) as [|Hx]; [done|].
    by destruct Hna; apply (pi_xfade _ _ B1). }
  split_and!; [done|done| | | |by rewrite (main_rel_state _ _ A6), Hst1]; rewrite A1, Hpl1.
  - rewrite A2, Ho1. constructor; [|done|by intros _].
    constructor; rewrite ?Hxf; try done.
    + exists q0. split; [done|]. apply Hdom. by right.
    + intros q [->|Hx]%Hdom; [by right|]. destruct (pi_dom _ _ B1 q Hx) as [|Hd]; [by left|].
      left. destruct (decide (pipe (pl w) = Some q)) as [|Hnq]; [done|].
      destruct Hna. unfold at_next. by rewrite Hd.
    + intros q. rewrite D5. intros [= <-]. apply Hdom. by left.
  - done.
  - intros _. rewrite D5. done.
Qed.

Lemma start_next_ok md hand w : locked w = false → Inv hand w → ¬ at_next (st w) (pl w) →
  queued (pl w) = true → IsIdle (dc (st w)) = true →
  V md 66 (pbind new_pipe (λ q, StartDecoder q))
    (λ _ w', locked w' = false ∧ Inv hand w' ∧ pl w' = pl w ∧ answered w' = answered w) w.
Proof.
  intros Hl [Hg Hs] Hna Hq Hi. destruct (sync_queued _ _ Hs Hq) as [Hn _].
  apply (v_new_pipe Haf _ hand); [apply Hg|]. intros w1 E1 E2 E3 E4 E5 Hnew E6 Hco1.
  eapply valid_mono; [apply (StartDecoder_ok Haf md hand (next_pipe w) MusicPipe.make)|done|].
  - by rewrite E4.
  - done.
  - rewrite E1. apply Hg.
  - by rewrite E6.
  - unfold queued_or_seek. by rewrite E2, Hq.
  - by rewrite E1.
  - rewrite E6. cbn. by rewrite lookup_insert_eq.
  - done.
  - intros [] w2 (sg & Hst). pose proof (sd_aside _ _ _ _ _ Hst) as [A1 A2 A3 A4 A5 A6].
    split_and!; [congruence| |congruence|congruence]. split.
    + by eapply (Good_next _ w w1); try done; [congruence].
    + rewrite A1, E2. eapply sync_stable; [by apply main_rel_pc_rel|]. by rewrite E1.
Qed.

Lemma v_IsDecoderAtNextSong md {A : Set} (k : bool → proc world A) c Q w : is_Some (pipe (pl w)) →
  V md c (k (at_next_song w)) Q w → V md (S (S c)) (pbind IsDecoderAtNextSong k) Q w.
Proof.
  intros [q Hq] Hk. unfold IsDecoderAtNextSong. rewrite pbind_assoc.
  apply v_assert; [rewrite Hq; by rewrite orb_true_r|]. by apply v_read.
Qed.

Lemma Good_pipe hand w : Good hand w → ∃ q p, pipe (pl w) = Some q ∧ pipes (st w) !! q = Some p.
Proof. intros Hg. destruct (pi_pipe _ _ (ba_pipes _ _ _ (Good_base _ _ Hg))) as (q & ? & [p ?]). eauto. Qed.

Lemma Good_not_next hand w : Good hand w → queued (pl w) = false → at_next_song w = false.
Proof.
  intros Hg Hq. destruct (at_next_song w) eqn:E; [|done]. apply at_next_song_spec in E.
  by rewrite (ba_queue _ _ _ (Good_base _ _ Hg) E) in Hq.
Qed.

(** [Good] does not look at [queued] unless the decoder is at the next song. *)
Lemma Good_queued hand b w : Good hand w → (at_next (st w) (pl w) → b = true) →
  Good hand (upd_pl (set_queued b) w).
Proof.
  intros (G1 & G2 & [B1 B2 B3] & G4 & G5 & G6) Hb. split_and!; try done.
  constructor; [by destruct B1; constructor|by destruct B2; constructor|done].
Qed.

Lemma process_queue_ok md w : locked w = true → Inv [] w → Player.command (pc w) = COMMAND_QUEUE →
  V md 85 process_queue (λ _ w', answer [] w w') w.
Proof.
  intros Hl [Hg Hs] Hc. pose proof Hs as Hs0. unfold sync in Hs. rewrite Hc in Hs. destruct Hs as [Hn Hq].
  destruct (Good_pipe _ _ Hg) as (q & p & Hpq & _). unfold process_queue.
  apply v_assert; [by destruct (next_song (pc w))|]. apply v_assert; [by rewrite Hq|].
  apply v_IsDecoderAtNextSong; [by rewrite Hpq; eexists|]. pose proof (Good_not_next _ _ Hg Hq) as Hna.
  rewrite Hna. apply v_assert; [done|]. apply v_on_pl.
  assert (Hg1 : Good [] (upd_pl (set_queued true) w)) by (by apply Good_queued).
  apply v_CommandFinished; [by cbn; rewrite Hc..|].
  assert (Hi2 : Inv [] (finished (upd_pl (set_queued true) w))).
  { split; [by apply Good_finished|]. unfold sync. cbn. done. }
  apply (v_unlock Haf _ []); [done|apply Hi2..|]. intros w3 Hl3 Hq3.
  pose proof (Inv_quiet _ _ _ _ Hq3 Hi2) as Hi3. pose proof (q_mild _ _ _ _ Hq3) as Hm3.
  eapply (v_call _ 5); [apply (LockIsIdle_ok Haf md []); [done|apply Hi3..]|].
  intros idle w4 (Hl4 & Hq4 & Hidle). pose proof (Inv_quiet _ _ _ _ Hq4 Hi3) as Hi4.
  assert (Hm4 : mild (finished (upd_pl (set_queued true) w)) w4) by (etrans; [exact Hm3|apply (q_mild _ _ _ _ Hq4)]).
  assert (Hlast : ∀ c w5, locked w5 = false → Inv [] w5 → answered w5 = S (answered w) →
    V md (S (S c)) Lock (λ _ w', answer [] w w') w5).
  { intros c w5 Hl5 Hi5 Ha5. apply valid_tail, (v_lock Haf _ []); [done|apply Hi5..|].
    intros w6 Hl6 Hq6. apply valid_pure. split_and!; [done|by eapply Inv_quiet|].
    by rewrite (mi_answered _ _ (q_mild _ _ _ _ Hq6)). }
  destruct idle; cbn [pbind].
  - eapply (v_call _ 66).
    { apply (start_next_ok md []); [done|done| |by rewrite (mi_pl _ _ Hm4)|by apply Hidle].
      rewrite (mi_pl _ _ Hm4), (at_next_stable _ _ _ (mi_stage _ _ Hm4)). intros H.
      assert (at_next_song w = true) by (by apply at_next_song_spec). congruence. }
    intros [] w5 (Hl5 & Hi5 & _ & Ha5). apply Hlast; [done|done|]. by rewrite Ha5, (mi_answered _ _ Hm4).
  - apply Hlast; [done|done|]. by rewrite (mi_answered _ _ Hm4).
Qed.

(** ** Other commands *)

(** The command is answered after the mutex was taken again. *)
Lemma lock_answer_ok md hand f w : locked w = false → Good hand w →
  Player.command (pc w) ≠ COMMAND_NONE → Player.command (pc w) ≠ COMMAND_CLOSE_AUDIO →
  takes_next (Player.command (pc w)) = false → needs_next (Player.command (pc w)) = false →
  sync (pc w) (pl w) →
  (∀ c, border_pause (f c) = border_pause c ∧ next_song (f c) = next_song c ∧
     Player.command (f c) = Player.command c ∧ Player.error (f c) = Player.error c ∧
     error_type (f c) = error_type c ∧ (Player.state c ≠ STATE_STOP → Player.state (f c) ≠ STATE_STOP)) →
  V md 4 (pbind Lock (λ _, pbind (on_pc f) (λ _, PlayerTask.CommandFinished))) (λ _ w', answer hand w w') w.
Proof.
  intros Hl Hg Hc Hca Ht Hnn Hs Hf. apply (v_lock Haf _ hand); [done|apply Hg..|]. intros w1 Hl1 Hq1.
  pose proof (Good_quiet _ _ _ _ Hq1 Hg) as (G1 & G2 & G3 & G4 & G5 & G6). pose proof (q_mild _ _ _ _ Hq1) as Hm1.
  destruct (mild_command _ _ Hm1 Hc) as [Hc1 Hn1]. destruct (Hf (pc w1)) as (F1 & F2 & F3 & F4 & F5 & F6).
  apply v_pc; [done|done|done|done|].
  apply player_CommandFinished_ok; cbn; rewrite ?F3, ?Hc1; [done| |done|done|by rewrite Ht| |by rewrite (mi_answered _ _ Hm1)].
  - split_and!; [done| |done|done|done|by apply F6]. unfold pc_ok in *. cbn. by rewrite F3, F4, F5.
  - rewrite (mi_pl _ _ Hm1). unfold sync in *. cbn. rewrite F2, Hn1. by rewrite Hnn in Hs.
Qed.

Lemma lock_answer0_ok md hand w : locked w = false → Good hand w →
  Player.command (pc w) ≠ COMMAND_NONE → Player.command (pc w) ≠ COMMAND_CLOSE_AUDIO →
  takes_next (Player.command (pc w)) = false → needs_next (Player.command (pc w)) = false →
  sync (pc w) (pl w) →
  V md 3 (pbind Lock (λ _, PlayerTask.CommandFinished)) (λ _ w', answer hand w w') w.
Proof.
  intros Hl Hg Hc Hca Ht Hnn Hs. apply (v_lock Haf _ hand); [done|apply Hg..|]. intros w1 Hl1 Hq1.
  pose proof (Good_quiet _ _ _ _ Hq1 Hg) as Hg1. pose proof (q_mild _ _ _ _ Hq1) as Hm1.
  destruct (mild_command _ _ Hm1 Hc) as [Hc1 Hn1].
  apply player_CommandFinished_ok; cbn; rewrite ?Hc1; [done|done|done|done|by rewrite Ht| |by rewrite (mi_answered _ _ Hm1)].
  rewrite (mi_pl _ _ Hm1). unfold sync in *. cbn. rewrite Hn1. by rewrite Hnn in Hs.
Qed.

Lemma answer_mild hand w w1 w2 : mild w w1 → answer hand w1 w2 → answer hand w w2.
Proof. intros Hm (H1 & H2 & H3). split_and!; [done|done|]. by rewrite H3, (mi_answered _ _ Hm). Qed.

(** Switching between pause and play. *)
Lemma Good_toggled hand b f w : Good hand w → f (pl w) = set_paused b (pl w) →
  (b = false → decoder_starting (pl w) = false → output_open (pl w) = true) →
  Good hand (upd_pl f w).
Proof.
  intros (G1 & G2 & [B1 B2 B3] & G4 & G5 & G6) Hf Hb. unfold Good. cbn [upd_pl pl pc st out]. rewrite Hf.
  split_and!; try done.
  - constructor; [by destruct B1; constructor|by destruct B2; constructor|done].
  - intros H1 H2. cbn in *. auto.
Qed.

(** The decoder was stopped. *)
Lemma Good_stopped hand w w' : Good hand w → stopped hand w w' → Good hand w'.
Proof.
  intros (G1 & G2 & [B1 B2 B3] & G4 & G5 & G6) [S1 S2 S3 S4 S5 S6 S7 S8 S9 S10].
  split_and!; [done|done| |by rewrite S4| |by rewrite (main_rel_state _ _ S3)].
  - rewrite S5. constructor; [done|rewrite S4; by destruct B2; constructor|]. intros [H _]. by rewrite S9 in H.
  - intros _ H. rewrite S9 in H. by destruct (pi_pipe _ _ S10) as (q & Hq & _); congruence.
Qed.

Lemma Good_open hand b w w' : Good hand w → fine hand w w' →
  pl w' = set_paused (negb b) (set_open b (pl w)) → Outputs.opened (out w') = b →
  play_audio_format (pl w) = af → Good hand w'.
Proof.
  intros (G1 & G2 & G3 & G4 & G5 & G6) (F1 & F2 & F3) Hpl Ho Hf.
  split_and!; [done|done| | | |].
  - eapply base_stable; [apply F3|done|]. eapply base_rel; [|..|exact G3]; [by rewrite Hpl|].
    destruct (ba_flags _ _ _ G3) as [H1 H2 H3 H4]. rewrite Hpl, Ho. by constructor; cbn; auto.
  - rewrite Hpl. intros _. cbn. by destruct b.
  - rewrite Hpl. apply (start_inv_stable (st w) (st w')) in G5; [|apply F3|apply G1]. exact G5.
  - by apply (ge_pc _ _ _ _ _ _ _ _ F3).
Qed.

Lemma process_pause_ok md w : locked w = true → Inv [] w → Player.command (pc w) = COMMAND_PAUSE →
  V md 30 process_pause (λ _ w', answer [] w w') w.
Proof.
  intros Hl Hi Hc. unfold process_pause. apply (v_unlock Haf _ []); [done|apply Hi..|].
  intros w1 Hl1 Hq1. pose proof (Inv_quiet _ _ _ _ Hq1 Hi) as [Hg1 Hs1]. pose proof (q_mild _ _ _ _ Hq1) as Hm1.
  destruct (mild_command _ _ Hm1) as [Hc1 _]; [by rewrite Hc|]. rewrite Hc in Hc1.
  apply v_on_pl, v_read. cbn [pl upd_pl paused set_paused play_audio_format].
  destruct (paused (pl w1)) eqn:Ep; cbn [negb].
  - destruct (fi_format _ _ (ba_flags _ _ _ (Good_base _ _ Hg1))) as [Hf|[Hf Hds]].
    + rewrite Hf, (MusicPipe.af_defined af Haf). cbn [negb]. rewrite !pbind_assoc. eapply (v_call _ 14).
      { apply (OpenOutput_ok Haf md []); [done|apply Hg1..|done|apply Hg1]. }
      intros b w2 (Hl2 & Hfi & Hpl & Ho). pose proof (Good_open _ b _ _ Hg1 Hfi Hpl Ho Hf) as Hg2.
      destruct (gentle_command _ _ (fine_gentle _ _ _ Hfi)) as [Hc2 _]; [by cbn; rewrite Hc1|]. cbn in Hc2.
      eapply valid_mono; [apply (lock_answer0_ok md []); rewrite ?Hc2, ?Hc1; try done|cbn; lia|].
      * rewrite Hpl. eapply sync_stable; [apply (ge_pc _ _ _ _ _ _ _ _ (fine_gentle _ _ _ Hfi))|]. exact Hs1.
      * intros [] w3 (A1 & A2 & A3). split_and!; [done|done|]. rewrite A3.
        rewrite (ge_answered _ _ _ _ _ _ _ _ (fine_gentle _ _ _ Hfi)). cbn. by rewrite (mi_answered _ _ Hm1).
    + rewrite Hf. cbn [negb]. rewrite !pbind_assoc.
      eapply valid_mono; [apply (lock_answer_ok md []); cbn; rewrite ?Hc1; try done|lia|].
      * apply (Good_toggled _ false); [done|by rewrite Ep|]. intros _. by rewrite Hds.
      * intros [] w2 Ha. by eapply answer_mild.
  - rewrite !pbind_assoc.
    apply (v_on_outs _ [] _ (λ _ v, Outputs.opened (Outputs.outs v) = Outputs.opened (out w1))); [apply Hg1| |].
    { intros l Hl0. by apply (Outputs.Pause_ok af). }
    intros [] v Hv Hco2. rewrite ?pbind_assoc.
    eapply valid_mono; [apply (lock_answer_ok md []); cbn; rewrite ?Hc1; try done|lia|].
    + eapply Good_kept; [|apply (Good_toggled _ true (λ p, set_paused (negb (paused p)) p)); [exact Hg1|by rewrite Ep|done]].
      split_and!; [done|apply Hg1|]. by apply out_update_mild.
    + intros [] w2 Ha. by eapply answer_mild.
Qed.

Lemma process_cancel_ok md w : locked w = true → Inv [] w → Player.command (pc w) = COMMAND_CANCEL →
  V md 85 process_cancel (λ _ w', locked w' = true ∧ Inv [] w' ∧ answered w ≤ answered w' ∧
    (answered w' = S (answered w) ∨ Player.command (pc w') = COMMAND_STOP)) w.
Proof.
  intros Hl [Hg Hs] Hc. unfold process_cancel. apply v_read.
  destruct (next_song (pc w)) as [sg|] eqn:Esg; cbn [is_null].
  2:{ apply valid_tail, v_on_pc.
      { constructor; cbn; [done|by left|by right; left|]. by rewrite Hc. }
      apply valid_pure. split_and!; [done| |done|by right]. split; [by apply Good_command|].
      revert Hs. unfold sync. by rewrite Hc. }
  destruct (Good_pipe _ _ Hg) as (q & p & Hpq & _). apply v_IsDecoderAtNextSong; [by rewrite Hpq; eexists|].
  assert (Hend : ∀ c w1, locked w1 = true → Good [] w1 → Player.command (pc w1) = COMMAND_CANCEL →
    ¬ at_next (st w1) (pl w1) → answered w1 = answered w →
    V md (S (S (S c))) (pbind (on_pc (set_next_song None)) (λ _, pbind (on_pl (set_queued false))
      (λ _, PlayerTask.CommandFinished))) (λ _ w', locked w' = true ∧ Inv [] w' ∧ answered w ≤ answered w' ∧
    (answered w' = S (answered w) ∨ Player.command (pc w') = COMMAND_STOP)) w1).
  { intros c w1 Hl1 Hg1 Hc1 Hna Ha1. apply v_take_next; [by rewrite Hc1|]. apply v_on_pl.
    eapply valid_mono; [apply (player_CommandFinished_ok md [] (answered w)); cbn; rewrite ?Hc1; try done|lia|].
    - apply (Good_queued _ false (upd_pc (set_next_song None) w1)); [|by intros H; destruct Hna].
      destruct Hg1 as (G1 & G2 & G3 & G4 & G5 & G6). by split_and!.
    - intros [] w2 (? & ? & ?). split_and!; [done|done|lia|by left]. }
  destruct (at_next_song w) eqn:En.
  - rewrite !pbind_assoc. apply (v_unlock Haf _ []); [done|apply Hg..|]. intros w1 Hl1 Hq1.
    pose proof (Good_quiet _ _ _ _ Hq1 Hg) as Hg1. pose proof (q_mild _ _ _ _ Hq1) as Hm1.
    destruct (mild_command _ _ Hm1) as [Hc1 _]; [by rewrite Hc|]. rewrite Hc in Hc1.
    eapply (v_call _ 63); [apply (StopDecoder_ok Haf md []); [done|apply Hg1..]|].
    intros [] w2 Hst2. pose proof (Good_stopped _ _ _ Hg1 Hst2) as Hg2. destruct Hst2 as [S1 S2 S3 S4 S5 S6 S7 S8 S9 S10].
    assert (Hpc2 : pc w2 = pc w1) by (apply (main_rel_pending _ _ S3); by rewrite Hc1).
    apply (v_lock Haf _ []); [by rewrite S6|done|done|]. intros w3 Hl3 Hq3. pose proof (q_mild _ _ _ _ Hq3) as Hm3.
    destruct (mild_command _ _ Hm3) as [Hc3 _]; [by rewrite Hpc2, Hc1|].
    apply Hend; [done|by eapply Good_quiet|by rewrite Hc3, Hpc2| |].
    + intros [H _]. by rewrite (sr_pipe _ _ (mi_stage _ _ Hm3)), S9 in H.
    + by rewrite (mi_answered _ _ Hm3), S7, (mi_answered _ _ Hm1).
  - cbn [pbind]. apply Hend; [done|done|done| |done]. rewrite <-at_next_song_spec. by rewrite En.
Qed.

Lemma process_refresh_ok md w : locked w = true → Inv [] w → Player.command (pc w) = COMMAND_REFRESH →
  V md 12 process_refresh (λ _ w', answer [] w w') w.
Proof.
  intros Hl Hi Hc. unfold process_refresh. apply v_read.
  assert (Hcheck : V md 6 (if output_open (pl w) && negb (paused (pl w))
      then pbind Unlock (λ _, pbind (on_outs Outputs.Check) (λ _, Lock)) else Pure tt)
    (λ _ w', locked w' = true ∧ kept [] w w') w).
  { destruct (output_open (pl w)) eqn:Eo, (paused (pl w)) eqn:Ep; cbn [andb negb];
      try (apply valid_pure; split; [done|]; split_and!; [apply Hi|apply Hi|reflexivity]).
    apply (v_unlock Haf _ []); [done|apply Hi..|]. intros w1 Hl1 Hq1. pose proof (quiet_kept _ _ _ _ Hq1) as K1.
    apply (v_check Haf _ []); [apply K1..| |].
    { rewrite (mi_opened _ _ (proj2 (proj2 K1))).
      by apply (fi_open _ _ (ba_flags _ _ _ (Good_base _ _ (proj1 Hi)))). }
    intros n w2 Hl2 K2 _. rewrite Hl1 in Hl2. apply valid_tail, (v_lock Haf _ []); [done|apply K2..|].
    intros w3 Hl3 Hq3. apply valid_pure. split; [done|].
    eapply kept_trans; [exact K1|]. eapply kept_trans; [exact K2|by eapply quiet_kept]. }
  eapply (v_call _ 6); [exact Hcheck|]. intros [] w1 [Hl1 K1]. pose proof (Inv_kept _ _ _ K1 Hi) as [Hg1 Hs1].
  pose proof (proj2 (proj2 K1)) as Hm1. destruct (mild_command _ _ Hm1) as [Hc1 Hn1]; [by rewrite Hc|].
  apply (v_on_outs _ [] _ (λ _ v, Outputs.outs v = out w1)); [apply Hg1| |].
  { intros l Hl0. unfold Outputs.GetElapsedTime, Outputs.read_outs. apply wp_bind, wp_bind, wp_get, wp_ret, wp_ret. done. }
  intros e v Hv Hco2. apply v_read. rewrite Hc in Hc1.
  assert (Hk2 : kept [] w1 (out_update v w1)).
  { split_and!; [done|apply Hg1|]. apply out_update_mild. by rewrite Hv. }
  apply v_pc; [done|done|done|by cbn; rewrite Hc1|].
  eapply valid_mono; [apply (player_CommandFinished_ok md [] (answered w)); cbn; rewrite ?Hc1; try done|lia|].
  - pose proof (Good_kept _ _ _ Hk2 Hg1) as (G1 & G2 & G3 & G4 & G5 & G6). by split_and!.
  - revert Hs1. unfold sync. by rewrite Hc1.
  - by rewrite (mi_answered _ _ Hm1).
  - by intros [] w' H.
Qed.

Lemma process_update_audio_ok md w : locked w = true → Inv [] w → Player.command (pc w) = COMMAND_UPDATE_AUDIO →
  V md 6 process_update_audio (λ _ w', answer [] w w') w.
Proof.
  intros Hl Hi Hc. unfold process_update_audio. apply (v_unlock Haf _ []); [done|apply Hi..|].
  intros w1 Hl1 Hq1. pose proof (Inv_quiet _ _ _ _ Hq1 Hi) as [Hg1 Hs1]. pose proof (q_mild _ _ _ _ Hq1) as Hm1.
  destruct (mild_command _ _ Hm1) as [Hc1 _]; [by rewrite Hc|]. rewrite Hc in Hc1.
  apply (v_on_outs _ [] _ (λ _ v, Outputs.outs v = out w1)); [apply Hg1| |].
  { intros l Hl0. by apply wp_ret. }
  intros [] v Hv Hco2.
  assert (Hk2 : kept [] w1 (out_update v w1)).
  { split_and!; [done|apply Hg1|]. apply out_update_mild. by rewrite Hv. }
  eapply valid_mono; [apply (lock_answer0_ok md []); cbn; rewrite ?Hc1; try done|lia|].
  - by eapply Good_kept.
  - intros [] w3 Ha. eapply answer_mild; [exact Hm1|]. eapply answer_mild; [apply Hk2|done].
Qed.

Lemma ProcessCommand_ok md w : locked w = true → Inv [] w →
  V md 450 ProcessCommand (λ _ w', locked w' = true ∧ Inv [] w' ∧ answered w ≤ answered w' ∧
    (Player.command (pc w) = COMMAND_NONE ∨ answered w < answered w' ∨
     stop_command (Player.command (pc w')) = true)) w.
Proof.
  intros Hl Hi. unfold ProcessCommand. apply v_read. destruct (Player.command (pc w)) eqn:Hc.
  - apply valid_pure. by split_and!; [..|left].
  - apply valid_pure. split_and!; [done..|right; right]. by rewrite Hc.
  - apply valid_pure. split_and!; [done..|right; right]. by rewrite Hc.
  - eapply valid_mono; [by apply process_pause_ok|lia|]. intros [] w' (? & ? & ->). split_and!; [done|done|lia|right; left; lia].
  - apply (v_unlock Haf _ []); [done|apply Hi..|]. intros w1 Hl1 Hq1. pose proof (q_mild _ _ _ _ Hq1) as Hm1.
    eapply (v_call _ 440).
    { apply (SeekDecoder_ok Haf md []); [done|by eapply Inv_quiet|].
      by rewrite (proj1 (mild_command _ _ Hm1 ltac:(by rewrite Hc))). }
    intros b w2 (Hl2 & Hi2 & Ha2). apply valid_tail, (v_lock Haf _ []); [done|apply Hi2..|].
    intros w3 Hl3 Hq3. apply valid_pure. pose proof (mi_answered _ _ (q_mild _ _ _ _ Hq3)).
    pose proof (mi_answered _ _ Hm1). split_and!; [done|by eapply Inv_quiet|lia|right; left; lia].
  - apply valid_pure. split_and!; [done..|right; right]. by rewrite Hc.
  - eapply valid_mono; [by apply process_update_audio_ok|lia|]. intros [] w' (? & ? & ->). split_and!; [done|done|lia|right; left; lia].
  - eapply valid_mono; [by apply process_queue_ok|lia|]. intros [] w' (? & ? & ->). split_and!; [done|done|lia|right; left; lia].
  - eapply valid_mono; [by apply process_cancel_ok|lia|]. intros [] w' (? & ? & ? & [Ha| ->]); (split_and!; [done|done|done|right]); [left; lia|by right].
  - eapply valid_mono; [by apply process_refresh_ok|lia|]. intros [] w' (? & ? & ->). split_and!; [done|done|lia|right; left; lia].
Qed.

End Commands.
End PlayerCommands.
