(* ===== verification/PlayerChunks.v ===== *)
(** * The player thread: playing chunks

    [PlayNextChunk] and [SongBorder]: every chunk that is taken from a pipe reaches the
    outputs or goes back to the buffer, also while two songs are mixed. *)

From Stdlib Require Import ZArith Lia ZifyBool.
From stdpp Require Import base numbers sets strings list gmap relations.
From S2P Require Import Prelude Tag AudioFormat Song Prog Player Threads Music Decoder.
From S2P Require Import DecoderFacts Outputs PlayerTask PlayerSteps.
From S2P Require Import PlayerDecoder PlayerOuts PlayerStartup.
From S2P Require Import PlayerStartup PlayerCommands.

Set Default Goal Selector "!".

Module PlayerChunks.
Import Song Player AudioFormat Decoder DecoderFacts PlayerTask PlayerRely PlayerSteps PlayerDecoder.
Import PlayerInv PlayerOuts PlayerPipes PlayerErrands PlayerStartup PlayerSeek PlayerCommands.

(** The members of [Player] that playing a chunk leaves alone. *)
Record pl_keep (p p' : Player) : Prop := {
  pk_paused : paused p' = paused p;
  pk_open : output_open p' = output_open p;
  pk_pipe : pipe p' = pipe p;
  pk_starting : decoder_starting p' = decoder_starting p;
}.

#[global] Instance pl_keep_refl : Reflexive pl_keep.
Proof. by constructor. Qed.

#[global] Instance pl_keep_trans : Transitive pl_keep.
Proof. intros p p1 p2 [] []. constructor; congruence. Qed.

Section Chunks.
Context {cfg : PlayerConfig}.
#[local] Abbreviation af := configured_audio_format.
Hypothesis Haf : IsValid af = true.
#[local] Abbreviation V := (valid player_protocol).
#[local] Abbreviation Core hand w := (core hand (st w) (out w) (next_pipe w)).
#[local] Abbreviation chunk_ok := (MusicPipe.chunk_ok af).
Implicit Types w : world.

(** A step of the playback, which leaves [hand] to the player. *)
Definition step (hand : list nat) w w' : Prop :=
  locked w' = false ∧ Inv hand w' ∧ answered w' = answered w ∧ pl_keep (pl w) (pl w').

Lemma kept_step hand w w' : locked w' = false → kept hand w w' → Inv hand w → step hand w w'.
Proof.
  intros Hl K Hi. split_and!; [done|by eapply Inv_kept|apply K|by rewrite (mi_pl _ _ (proj2 (proj2 K)))].
Qed.

Lemma step_trans hand hand' w w1 w2 : step hand w w1 → step hand' w1 w2 → step hand' w w2.
Proof.
  intros (_ & _ & A & P) (? & ? & A' & P'). split_and!; [done|done|congruence|by etrans].
Qed.

(** Changing members of [Player] that do not say which song is where. *)
Lemma Inv_pl hand f w : Inv hand w → pl_rel (pl w) (f (pl w)) → flags_inv (Outputs.opened (out w)) (f (pl w)) →
  playing_inv (f (pl w)) → decoder_starting (f (pl w)) = decoder_starting (pl w) → Inv hand (upd_pl f w).
Proof.
  intros [(G1 & G2 & G3 & G4 & G5 & G6) Hs] Hr Hf Hp Hds. split; [|by eapply sync_rel].
  split_and!; try done.
  - by eapply base_rel.
  - unfold start_inv. cbn. rewrite (pl_pipe _ _ Hr), Hds. exact G5.
Qed.

(** ** Tags *)

Lemma LockSetTaggedSong_ok md hand s w : locked w = false → Inv hand w →
  V md 5 (LockSetTaggedSong s) (λ _ w', step hand w w' ∧ pl w' = pl w) w.
Proof.
  intros Hl Hi. unfold LockSetTaggedSong. apply (v_lock Haf _ hand); [done|apply Hi..|].
  intros w1 Hl1 Hq1. pose proof (Inv_quiet _ _ _ _ Hq1 Hi) as [Hg1 Hs1]. pose proof (q_mild _ _ _ _ Hq1) as Hm1.
  apply v_pc; [done..|intros H; by destruct (Good_state _ _ Hg1)|].
  apply valid_tail, (v_unlock Haf _ hand); [done|apply Hg1..|]. intros w2 Hl2 Hq2.
  pose proof (q_mild _ _ _ _ Hq2) as Hm2. apply valid_pure.
  split; [|by rewrite (mi_pl _ _ Hm2); cbn; rewrite (mi_pl _ _ Hm1)]. split_and!; [done| |..].
  - eapply Inv_quiet; [exact Hq2|]. by split.
  - rewrite (mi_answered _ _ Hm2). cbn. by rewrite (mi_answered _ _ Hm1).
  - rewrite (mi_pl _ _ Hm2). cbn. by rewrite (mi_pl _ _ Hm1).
Qed.

Lemma update_song_tag_ok md hand t w : locked w = false → Inv hand w →
  V md 10 (update_song_tag t) (λ _ w', step hand w w') w.
Proof.
  intros Hl Hi. unfold update_song_tag.
  pose proof (ba_flags _ _ _ (Good_base _ _ (proj1 Hi))) as [F1 F2 F3 [sg Hsg]].
  eapply v_lift_of; [exact Hsg|]. assert (Hself : step hand w w).
  { by split_and!. }
  destruct (IsFile sg); [by apply valid_pure|]. apply v_on_pl.
  eapply (v_call _ 5).
  { apply (LockSetTaggedSong_ok md hand); [done|]. apply Inv_pl; [done|done| |apply Hi|done].
    by constructor. }
  intros [] w1 [Hst _]. apply v_notify, valid_tail, v_notify, valid_pure.
  destruct Hst as (S1 & S2 & S3 & S4). split_and!; [done|done|done|by destruct S4].
Qed.

(** ** One chunk *)

Lemma chunk_ok_set_tag m c t : chunk_ok m c → (MusicChunk.tag c ≠ None → t ≠ None) →
  (∀ x, t = Some x → Tag.valid_items (Tag.items x)) → chunk_ok m (MusicChunk.set_tag t c).
Proof.
  intros [H1 H2 H3 H4 H5] Ht Hv. constructor; cbn; try done. revert H1 Ht. unfold MusicChunk.IsEmpty. cbn.
  destruct (MusicChunk.length c =? 0)%Z; [|done]. cbn. destruct (MusicChunk.tag c), t; try done.
  intros _ H. by destruct H.
Qed.

(** [play_chunk]: the chunk is with the outputs afterwards, unless they failed. *)
Lemma play_chunk_ok md c w : locked w = false → Inv (MusicChunk.addrs c) w → chunk_ok true c →
  output_open (pl w) = true →
  V md 20 (play_chunk c af) (λ r w', step (if r is Some _ then MusicChunk.addrs c else []) w w') w.
Proof.
  intros Hl Hi Hc Hop. unfold play_chunk. eapply v_lift; [by eapply MusicPipe.CheckFormat_ok|].
  apply v_assert; [done|].
  assert (Htag : V md 10 (match MusicChunk.tag c with Some t => update_song_tag t | None => Pure tt end)
    (λ _ w', step (MusicChunk.addrs c) w w') w).
  { destruct (MusicChunk.tag c); [by apply update_song_tag_ok|]. apply valid_pure.
    by split_and!. }
  eapply (v_call _ 10); [exact Htag|]. intros [] w1 S1. pose proof S1 as (Hl1 & Hi1 & _ & P1).
  rewrite (MusicPipe.ck_empty _ _ _ Hc). apply (v_lock Haf _ (MusicChunk.addrs c)); [done|apply Hi1..|].
  intros w2 Hl2 Hq2. pose proof (Inv_quiet _ _ _ _ Hq2 Hi1) as Hi2. pose proof (q_mild _ _ _ _ Hq2) as Hm2.
  apply v_pc; [done..|intros H; by destruct (Good_state _ _ (proj1 Hi2))|].
  apply (v_unlock Haf _ (MusicChunk.addrs c)); [done|apply Hi2..|]. intros w3 Hl3 Hq3.
  pose proof (q_mild _ _ _ _ Hq3) as Hm3.
  assert (S3 : step (MusicChunk.addrs c) w1 w3).
  { split_and!; [done| | |].
    - eapply Inv_quiet; [exact Hq3|]. exact Hi2.
    - rewrite (mi_answered _ _ Hm3). cbn. by rewrite (mi_answered _ _ Hm2).
    - rewrite (mi_pl _ _ Hm3). cbn. by rewrite (mi_pl _ _ Hm2). }
  pose proof (step_trans _ _ _ _ _ S1 S3) as S13. pose proof S13 as (_ & Hi3 & _ & P3).
  assert (Hop3 : Outputs.opened (out w3) = true).
  { apply (fi_open _ _ (ba_flags _ _ _ (Good_base _ _ (proj1 Hi3)))). by rewrite (pk_open _ _ P3). }
  apply (v_play Haf _ [] c); [rewrite app_nil_r; apply Hi3|done|done|]. intros r v Hr. apply valid_pure.
  eapply step_trans; [exact S13|]. assert (Hinv : ∀ hand, Core hand (out_update v w3) →
    Outputs.opened (Outputs.outs v) = Outputs.opened (out w3) → step hand w3 (out_update v w3)).
  { intros hand Hco Ho. destruct Hi3 as [(G1 & G2 & G3 & G4 & G5 & G6) Hs].
    split_and!; [done| |done|done]. split; [|done].
    split_and!; [done|done| |done|done|done].
    apply (base_stable (st w3) _ (out w3)); [apply stage_rel_buffer|done|done]. }
  destruct r as [e|[]]; destruct Hr as [H1 H2]; apply Hinv; rewrite ?H2; [by rewrite app_nil_r in H1|done|done|done].
Qed.

(** ** After the chunk *)

Lemma wake_decoder_ok md w : locked w = false → Inv [] w → V md 9 wake_decoder (λ _ w', step [] w w') w.
Proof.
  intros Hl Hi. unfold wake_decoder. apply (v_lock Haf _ []); [done|apply Hi..|]. intros w1 Hl1 Hq1.
  pose proof (Inv_quiet _ _ _ _ Hq1 Hi) as Hi1. pose proof (q_mild _ _ _ _ Hq1) as Hm1. apply v_read.
  assert (Hlow : V md 3 (if IsIdle (dc (st w1)) then Pure false else
      pbind (act (lift (Decoder.pipe (dc (st w1))))) (λ dq, pbind (pipe_size dq) (λ n,
        pbind (read (λ w, MusicBuffer.GetSize (buffer (st w)))) (λ b,
          Pure (n <=? (buffered_before_play + b * 3) / 4))))) (λ _ w', w' = w1) w1).
  { destruct (IsIdle (dc (st w1))) eqn:E; [by apply valid_pure|].
    pose proof (Good_core _ _ (proj1 Hi1)) as Hco.
    destruct (stage_busy _ _ (co_stage _ _ _ _ Hco) E) as [(dq & p & Hdq & Hp) _].
    eapply v_lift; [exact Hdq|]. eapply (v_size _ []); [done|done|]. by apply v_read, valid_pure. }
  eapply (v_call _ 3); [exact Hlow|]. intros low w2 ->. apply v_on_pl.
  assert (Hi2 : Inv [] (upd_pl (set_woken low) w1)).
  { apply Inv_pl; [done|done| |apply Hi1|done]. by destruct (ba_flags _ _ _ (Good_base _ _ (proj1 Hi1))). }
  apply valid_tail, (v_unlock Haf _ []); [done|apply Hi2..|]. intros w3 Hl3 Hq3.
  pose proof (q_mild _ _ _ _ Hq3) as Hm3. apply valid_pure. split_and!; [done|by eapply Inv_quiet|..].
  - rewrite (mi_answered _ _ Hm3). cbn. by rewrite (mi_answered _ _ Hm1).
  - rewrite (mi_pl _ _ Hm3). cbn. by rewrite (mi_pl _ _ Hm1).
Qed.

(** What a part of a round of [Run] ends with. *)
Definition round_step w w' : Prop := locked w' = false ∧ Inv [] w' ∧ answered w' = answered w.

Lemma step_round w w' : step [] w w' → round_step w w'.
Proof. by intros (? & ? & ? & _). Qed.

Lemma round_step_trans hand w w1 w2 : step hand w w1 → round_step w1 w2 → round_step w w2.
Proof. intros (_ & _ & A & _) (? & ? & A'). split_and!; [done|done|congruence]. Qed.

(** The outputs have failed: the player pauses. *)
Lemma output_failed_ok md hand e w : locked w = false → Inv hand w →
  V md 9 (pbind Lock (λ _, pbind (SetError ERROR_OUTPUT e) (λ _, pbind (on_pc (Player.set_state STATE_PAUSE)) (λ _,
    pbind (on_pl (set_paused true)) (λ _, pbind Unlock (λ _, pbind (notify IdlePlayer) (λ _, Pure false)))))))
    (λ _ w', locked w' = false ∧ Inv hand w' ∧ answered w' = answered w) w.
Proof.
  intros Hl Hi. apply (v_lock Haf _ hand); [done|apply Hi..|]. intros w1 Hl1 Hq1.
  pose proof (Inv_quiet _ _ _ _ Hq1 Hi) as Hi1. pose proof (q_mild _ _ _ _ Hq1) as Hm1.
  assert (Hst1 : Player.state (pc w1) ≠ STATE_STOP) by apply Hi1.
  apply v_SetError; [done|done|]. apply v_pc; [done..|]. apply v_on_pl.
  match goal with |- valid _ _ _ _ _ ?x => set (w2 := x) end.
  assert (Hi2 : Inv hand w2).
  { apply (Inv_pl hand (set_paused true) (upd_pc (λ p, Player.set_state STATE_PAUSE (set_error ERROR_OUTPUT (Some e) p)) w1));
      [|done| |done|done].
    - destruct Hi1 as [Hg1 Hs]. split; [|done].
      destruct (Good_error _ ERROR_OUTPUT e _ ltac:(done) Hg1) as (G1 & G2 & G3 & G4 & G5 & G6). by split_and!.
    - by destruct (ba_flags _ _ _ (Good_base _ _ (proj1 Hi1))). }
  apply (v_unlock Haf _ hand); [done|apply Hi2..|]. intros w3 Hl3 Hq3. apply v_notify, valid_pure.
  split_and!; [done|exact (Inv_quiet _ _ _ _ Hq3 Hi2)|]. cbn. rewrite (mi_answered _ _ (q_mild _ _ _ _ Hq3)). cbn.
  by rewrite (mi_answered _ _ Hm1).
Qed.

(** A chunk is given back. *)
Lemma Inv_returned hand hand' b w : Inv hand w → Core hand' (put_st (put_buffer b (st w)) w) →
  Inv hand' (put_st (put_buffer b (st w)) w).
Proof.
  intros [(G1 & G2 & G3 & G4 & G5 & G6) Hs] Hco. split; [|done]. split_and!; [done|done| |done|done|done].
  apply (base_stable (st w) _ (out w)); [apply stage_rel_buffer|done|done].
Qed.

(** The tag collected during a cross-fade goes to the first chunk behind it. *)
Definition pending_tag (p : Player) (c : MusicChunk.t) : proc world (option Tag.Tag) :=
  if negb (bool_decide (xfade_state p = XFADE_ACTIVE)) && negb (is_null (cross_fade_tag p)) then
    pbind (act (lift (Tag.MergeReplace (MusicChunk.tag c) (cross_fade_tag p)))) (λ t,
      pbind (on_pl (set_xfade_tag None)) (λ _, Pure t))
  else Pure (MusicChunk.tag c).

Lemma pending_tag_ok md hand c w : locked w = false → Inv hand w → chunk_ok true c →
  V md 2 (pending_tag (pl w) c) (λ t w', step hand w w' ∧ chunk_ok true (MusicChunk.set_tag t c)) w.
Proof.
  intros Hl Hi Hc. pose proof (ba_flags _ _ _ (Good_base _ _ (proj1 Hi))) as [F1 F2 F3 F4].
  assert (Hself : step hand w w).
  { by split_and!. }
  unfold pending_tag. destruct (negb _ && negb _).
  - destruct (Tag.MergeReplace_valid (MusicChunk.tag c) (cross_fade_tag (pl w))) as (t & Ht & Hv & Hnone);
      [apply Hc|done|]. eapply v_lift; [exact Ht|]. apply v_on_pl, valid_pure. split.
    + split_and!; [done| |done|by constructor].
      apply Inv_pl; [done|done|by constructor|apply Hi|done].
    + apply chunk_ok_set_tag; [done| |done]. intros H1 H2. by destruct (Hnone H2).
  - apply valid_pure. split; [done|]. apply chunk_ok_set_tag; [done|done|apply Hc].
Qed.

Lemma play_next_ok md c w : locked w = false → Inv (MusicChunk.addrs c) w → chunk_ok true c →
  output_open (pl w) = true → V md 45 (play_next c) (λ _ w', round_step w w') w.
Proof.
  intros Hl Hi Hc Hop. unfold play_next. apply v_read.
  assert (Hfmt : play_audio_format (pl w) = af) by (by apply (fi_open _ _ (ba_flags _ _ _ (Good_base _ _ (proj1 Hi))))).
  eapply (v_call _ 2); [by apply (pending_tag_ok md (MusicChunk.addrs c))|]. intros t w1 [S1 Hc1].
  pose proof S1 as (Hl1 & Hi1 & _ & P1). rewrite Hfmt. cbv zeta.
  eapply (v_call _ 20).
  { apply (play_chunk_ok md (MusicChunk.set_tag t c)); [done|done|done|]. by rewrite (pk_open _ _ P1). }
  intros r w2 S2. pose proof S2 as (Hl2 & Hi2 & _). destruct r as [e|].
  - apply (v_return _ []); [by intros o; apply (MusicPipe.chunk_ok_other af true)|rewrite app_nil_r; apply Hi2|].
    intros b Hco3. pose proof (Inv_returned _ _ _ _ Hi2 Hco3) as Hi3.
    eapply valid_mono; [by apply (output_failed_ok md [])|cbn; lia|]. intros _ w4 (? & ? & A4).
    eapply round_step_trans; [exact S1|]. eapply round_step_trans; [exact S2|]. by split_and!.
  - eapply (v_call _ 9); [by apply wake_decoder_ok|]. intros [] w3 S3. apply valid_pure.
    eapply round_step_trans; [exact S1|]. eapply round_step_trans; [exact S2|]. by apply step_round.
Qed.

(** ** Choosing the chunk *)

Lemma step_refl hand w : locked w = false → Inv hand w → step hand w w.
Proof. intros Hl Hi. by split_and!. Qed.

(** Taking a chunk from a pipe. *)
Lemma Inv_shift hand hand' q p p' w : Inv hand w → pipes (st w) !! q = Some p →
  length (MusicPipe.chunks p') ≤ length (MusicPipe.chunks p) →
  Core hand' (put_st (put_pipe q p' (st w)) w) → Inv hand' (put_st (put_pipe q p' (st w)) w).
Proof.
  intros [(G1 & G2 & [B1 B2 B3] & G4 & G5 & G6) Hs] Hp Hlen Hco. split; [|done].
  split_and!; [done|done| |done|done|done]. constructor; [|done|done].
  destruct B1 as [P1 P2 P3 P4 P5 P6].
  assert (Hd : ∀ q', is_Some (<[q:=p']> (pipes (st w)) !! q') ↔ is_Some (pipes (st w) !! q'))
    by (intros q'; by apply (is_Some_insert _ _ _ p)).
  constructor; cbn; try done.
  - destruct P1 as (q0 & ? & ?). exists q0. by rewrite Hd.
  - intros q0. rewrite Hd. apply P2.
  - intros q0. rewrite Hd. apply P3.
  - intros Hx q0 x Hq0. destruct (decide (q0 = q)) as [->|Hne].
    + rewrite lookup_insert_eq. intros [= <-]. specialize (P6 Hx q p Hq0 Hp). lia.
    + rewrite lookup_insert_ne by done. by apply P6.
Qed.

Lemma Inv_xfade hand x n w : Inv hand w → at_next (st w) (pl w) →
  (x = XFADE_ACTIVE → ∀ q p, pipe (pl w) = Some q → pipes (st w) !! q = Some p → length (MusicPipe.chunks p) ≤ n) →
  Inv hand (upd_pl (set_xfade x n) w).
Proof.
  intros [(G1 & G2 & [B1 B2 B3] & G4 & G5 & G6) Hs] Hn Ha. split; [|done].
  split_and!; try done. constructor; [|by destruct B2|done].
  destruct B1 as [P1 P2 P3 P4 P5 P6]. constructor; try done.
Qed.

Lemma begin_cross_fade_ok md q p w : locked w = false → Inv [] w → pipe (pl w) = Some q →
  pipes (st w) !! q = Some p →
  V md 5 (begin_cross_fade q) (λ _ w', step [] w w' ∧ st w' = st w) w.
Proof.
  intros Hl Hi Hq Hp. unfold begin_cross_fade. apply v_IsDecoderAtNextSong; [by rewrite Hq; eexists|].
  eapply (v_size _ []); [apply Hi|exact Hp|]. apply v_read.
  destruct (bool_decide _ && at_next_song w && (length (MusicPipe.chunks p) <=? _)) eqn:E.
  - apply andb_true_iff in E as [[_ En]%andb_true_iff El]. apply at_next_song_spec in En.
    apply valid_tail, v_on_pl, valid_pure. split; [|done].
    split_and!; [done| |done|done].
    apply Inv_xfade; [done|done|]. intros _ q' p'. rewrite Hq. intros [= <-]. rewrite Hp. by intros [= <-].
  - apply valid_pure. split; [by apply step_refl|done].
Qed.

(** What [mix_chunk] ends with. *)
Definition mixed (q : nat) w (m : option (option MusicChunk.t)) w' : Prop :=
  match m with
  | None => round_step w w'
  | Some None => step [] w w' ∧ ∃ p, pipes (st w') !! q = Some p ∧ MusicPipe.chunks p ≠ []
  | Some (Some c) => step (MusicChunk.addrs c) w w' ∧ chunk_ok true c
  end.

(** Nothing of the next song has been decoded: wait, or give up the cross-fade. *)
Lemma mix_wait_ok md q p w : locked w = false → Inv [] w → pipe (pl w) = Some q → pipes (st w) !! q = Some p →
  MusicPipe.chunks p ≠ [] → at_next (st w) (pl w) →
  V md 15 (pbind Lock (λ _, pbind read_dc (λ d,
      if IsIdle d then pbind Unlock (λ _,
        pbind (on_pl (λ p, set_xfade XFADE_DISABLED (cross_fade_chunks p) p)) (λ _, Pure (Some None)))
      else pbind WaitForDecoder (λ _, pbind Unlock (λ _, Pure None))))) (mixed q w) w.
Proof.
  intros Hl Hi Hq Hp Hne Hn. apply (v_lock Haf _ []); [done|apply Hi..|]. intros w1 Hl1 Hq1.
  pose proof (quiet_kept _ _ _ _ Hq1) as K1. pose proof (Inv_quiet _ _ _ _ Hq1 Hi) as Hi1. apply v_read.
  destruct (IsIdle (dc (st w1))).
  - apply (v_unlock Haf _ []); [done|apply Hi1..|]. intros w2 Hl2 Hq2.
    pose proof (Inv_quiet _ _ _ _ Hq2 Hi1) as Hi2.
    assert (K2 : kept [] w w2) by (eapply kept_trans; [exact K1|by eapply quiet_kept]).
    pose proof (proj2 (proj2 K2)) as Hm2. apply v_on_pl, valid_pure. split.
    + split_and!; [done| |apply Hm2|].
      * apply (Inv_xfade _ XFADE_DISABLED (cross_fade_chunks (pl w2))); [done| |done].
        rewrite (mi_pl _ _ Hm2). by apply (at_next_stable _ _ _ (mi_stage _ _ Hm2)).
      * cbn. rewrite (mi_pl _ _ Hm2). by constructor.
    + exists p. split; [|done]. cbn. rewrite (sr_other _ _ (mi_stage _ _ Hm2)); [done|].
      destruct Hn as [_ Hn]. congruence.
  - eapply (v_call _ 8); [apply (WaitForDecoder_quiet Haf md []); [done|apply Hi1..]|]. intros [] w2 [Hl2 Hq2].
    pose proof (Inv_quiet _ _ _ _ Hq2 Hi1) as Hi2.
    apply (v_unlock Haf _ []); [done|apply Hi2..|]. intros w3 Hl3 Hq3. apply valid_pure.
    apply step_round, kept_step; [done| |done].
    eapply kept_trans; [exact K1|]. eapply kept_trans; by eapply quiet_kept.
Qed.

Lemma core_Permutation hand hand' s o np : hand ≡ₚ hand' → core hand s o np → core hand' s o np.
Proof.
  intros Hh [C1 C2 C3 C4 C5]. constructor; try done. eapply stage_ok_Permutation; [|exact C1]. by rewrite Hh.
Qed.

(** A chunk of each song is in hand: combine them. *)
Lemma mix_pair_ok md q ch oc w w0 : locked w = false → Inv (MusicChunk.addrs ch ++ MusicChunk.addrs oc ++ []) w →
  answered w = answered w0 → pl w = pl w0 → chunk_ok false ch → chunk_ok false oc →
  V md 6 (pbind (assert (λ _, is_null (MusicChunk.other ch))) (λ _, pbind read_pl (λ p,
    pbind (act (lift (Tag.MergeReplace (cross_fade_tag p) (MusicChunk.tag oc)))) (λ t,
      pbind (on_pl (set_xfade_tag t)) (λ _,
        let oc := MusicChunk.set_tag None oc in
        if MusicChunk.IsEmpty oc then
          pbind (return_chunk oc) (λ _, Pure (Some (Some (MusicChunk.set_other None ch))))
        else Pure (Some (Some (MusicChunk.set_other (Some oc) ch))))))))
    (mixed q w0) w.
Proof.
  intros Hl Hi Ha Hpl Hch Hoc. pose proof (MusicPipe.ck_other _ _ _ Hch) as Ho1.
  pose proof (MusicPipe.ck_other _ _ _ Hoc) as Ho2.
  assert (E1 : MusicChunk.other ch = None) by (destruct (MusicChunk.other ch); [by destruct Ho1|done]).
  assert (E2 : MusicChunk.other oc = None) by (destruct (MusicChunk.other oc); [by destruct Ho2|done]).
  apply v_assert; [by rewrite E1|]. apply v_read.
  pose proof (ba_flags _ _ _ (Good_base _ _ (proj1 Hi))) as [F1 F2 F3 F4].
  destruct (Tag.MergeReplace_valid (cross_fade_tag (pl w)) (MusicChunk.tag oc)) as (t & Ht & Hv & _);
    [done|apply Hoc|]. eapply v_lift; [exact Ht|]. apply v_on_pl. cbv zeta.
  set (w1 := upd_pl (set_xfade_tag t) w).
  assert (Hi1 : Inv (MusicChunk.addrs ch ++ MusicChunk.addrs oc ++ []) w1).
  { apply Inv_pl; [done|done|by constructor|apply Hi|done]. }
  assert (Hstep : ∀ hand b, Core hand (put_st (put_buffer b (st w1)) w1) →
    step hand w0 (put_st (put_buffer b (st w1)) w1)).
  { intros hand b Hco. split_and!; [done|by eapply Inv_returned|done|]. cbn. rewrite Hpl. by constructor. }
  assert (Hok : ∀ o, (∀ x, o = Some x → MusicChunk.other x = None) → chunk_ok true (MusicChunk.set_other o ch)).
  { intros o Hx. destruct Hch as [H1 H2 H3 H4 _]. constructor; cbn; try done. destruct o; [|done]. auto. }
  destruct (MusicChunk.IsEmpty (MusicChunk.set_tag None oc)).
  - apply (v_return _ (MusicChunk.addrs ch)); [by cbn; rewrite E2| |].
    { eapply core_Permutation; [|apply Hi1]. rewrite app_nil_r. by rewrite Permutation_app_comm. }
    intros b Hco. apply valid_pure. split; [|by apply Hok].
    apply Hstep. unfold MusicChunk.addrs in *. cbn. by rewrite E1 in Hco.
  - apply valid_pure. split; [|by apply Hok; intros x [= <-]].
    split_and!; [done| |done|by cbn; rewrite Hpl; constructor].
    revert Hi1. unfold MusicChunk.addrs. cbn. by rewrite E1, E2.
Qed.

Lemma put_st_id q p w : pipes (st w) !! q = Some p → put_st (put_pipe q p (st w)) w = w.
Proof. intros H. unfold put_st, put_pipe. rewrite insert_id by done. destruct w as [? [] ???????]. done. Qed.

Lemma mix_chunk_ok md q p w : locked w = false → Inv [] w → pipe (pl w) = Some q →
  pipes (st w) !! q = Some p → MusicPipe.chunks p ≠ [] → xfade_state (pl w) = XFADE_ACTIVE →
  V md 25 (mix_chunk q) (mixed q w) w.
Proof.
  intros Hl Hi Hq Hp Hne Hx. destruct (ba_pipes _ _ _ (Good_base _ _ (proj1 Hi))) as [P1 P2 P3 P4 P5 P6].
  assert (Hn : at_next (st w) (pl w)) by (apply P5; by rewrite Hx).
  unfold mix_chunk. apply v_IsDecoderAtNextSong; [by rewrite Hq; eexists|].
  apply v_assert; [by apply at_next_song_spec|]. eapply (v_size _ []); [apply Hi|exact Hp|].
  apply v_assert; [by apply Nat.leb_le, (P6 Hx q)|].
  destruct Hn as [Hn1 Hn2]. destruct (Decoder.pipe (dc (st w))) as [dq|] eqn:Hdq; [|done].
  eapply v_lift_of; [exact Hdq|]. destruct (P3 dq eq_refl) as [pd Hpd].
  assert (Hqd : q ≠ dq) by congruence.
  apply (v_shift _ [] dq pd); [apply Hi|done|]. intros [oc|] pd' Hr Hco1.
  2:{ destruct Hr as [_ ->]. rewrite put_st_id by done. eapply valid_mono; [by eapply mix_wait_ok; [..|by split; rewrite Hdq]|lia|done]. }
  destruct Hr as [Hcd Hoc]. set (w1 := put_st (put_pipe dq pd' (st w)) w) in *.
  assert (Hi1 : Inv (MusicChunk.addrs oc ++ []) w1).
  { eapply Inv_shift; [done|done| |exact Hco1]. rewrite Hcd. cbn. lia. }
  assert (Hp1 : pipes (st w1) !! q = Some p) by (cbn; by rewrite lookup_insert_ne).
  apply (v_shift _ (MusicChunk.addrs oc ++ []) q p); [apply Hi1|done|]. intros [ch|] p' Hr Hco2; [|by destruct Hr].
  destruct Hr as [Hcp Hch]. eapply v_lift; [done|].
  eapply valid_mono; [apply (mix_pair_ok md q ch oc _ w); [done| |done|done|done|done]|lia|done].
  eapply Inv_shift; [exact Hi1|exact Hp1| |exact Hco2]. rewrite Hcp. cbn. lia.
Qed.

(** ** [PlayNextChunk] *)

Lemma take_chunk_ok md q p w : locked w = false → Inv [] w → pipes (st w) !! q = Some p →
  MusicPipe.chunks p ≠ [] → output_open (pl w) = true →
  V md 50 (pbind (shift_pipe q) (λ r, pbind (act (lift r)) (λ c, play_next c))) (λ _ w', round_step w w') w.
Proof.
  intros Hl Hi Hp Hne Hop. apply (v_shift _ [] q p); [apply Hi|done|]. intros [c|] p' Hr Hco; [|by destruct Hr].
  destruct Hr as [Hcp Hc]. eapply v_lift; [done|]. rewrite app_nil_r in Hco.
  eapply valid_mono; [apply play_next_ok; [done| |by eapply MusicPipe.chunk_ok_mixed|done]|lia|done].
  eapply Inv_shift; [done|done| |exact Hco]. rewrite Hcp. cbn. lia.
Qed.

(** A pipe does not become empty while others act. *)
Lemma pipe_grows w w' q p : mild w w' → command (dc (st w)) = DC_NONE → pipes (st w) !! q = Some p →
  MusicPipe.chunks p ≠ [] → ∃ p', pipes (st w') !! q = Some p' ∧ MusicPipe.chunks p' ≠ [].
Proof.
  intros Hm Hc Hp Hne. destruct (proj2 (sr_dom _ _ (mi_stage _ _ Hm) q)) as [p' Hp']; [by eexists|].
  exists p'. split; [done|]. pose proof (sr_grow _ _ (mi_stage _ _ Hm) q p p' ltac:(by rewrite Hc) Hp Hp') as Hg.
  destruct (MusicPipe.chunks p); [done|]. destruct (MusicPipe.chunks p'); [cbn in Hg; lia|done].
Qed.

Lemma PlayNextChunk_ok md q p w : locked w = false → Inv [] w → pipe (pl w) = Some q →
  pipes (st w) !! q = Some p → MusicPipe.chunks p ≠ [] → output_open (pl w) = true →
  V md 95 PlayNextChunk (λ _ w', round_step w w') w.
Proof.
  intros Hl Hi Hq Hp Hne Hop. unfold PlayNextChunk. eapply (v_call _ 10).
  { apply (outputs_Wait_ok Haf md []); [done|apply Hi..|].
    by apply (fi_open _ _ (ba_flags _ _ _ (Good_base _ _ (proj1 Hi)))). }
  intros ready w1 (Hl1 & K1 & _ & _). pose proof (kept_step _ _ _ Hl1 K1 Hi) as S1.
  destruct ready; cbn [negb]; [|by apply valid_pure, step_round].
  pose proof (proj2 (proj2 K1)) as Hm1. pose proof S1 as (_ & Hi1 & _ & _).
  destruct (pipe_grows _ _ q p Hm1) as (p1 & Hp1 & Hne1); [apply Hi|done|done|].
  assert (Hq1 : pipe (pl w1) = Some q) by (by rewrite (mi_pl _ _ Hm1)).
  apply (v_the_pipe _ q); [done|]. eapply (v_call _ 5); [by apply (begin_cross_fade_ok md q p1)|].
  intros [] w2 [S2 Hs2]. pose proof (step_trans _ _ _ _ _ S1 S2) as S12. pose proof S2 as (Hl2 & Hi2 & _ & P2).
  assert (Hop2 : output_open (pl w2) = true) by (by rewrite (pk_open _ _ P2), (mi_pl _ _ Hm1)).
  assert (Hq2 : pipe (pl w2) = Some q) by (by rewrite (pk_pipe _ _ P2)).
  rewrite <-Hs2 in Hp1. apply v_read.
  assert (Hmix : V md 25 (if decide (xfade_state (pl w2) = XFADE_ACTIVE) then mix_chunk q else Pure (Some None))
    (mixed q w2) w2).
  { case_decide as E; [by eapply mix_chunk_ok|]. apply valid_pure. split; [by apply step_refl|eauto]. }
  eapply (v_call _ 25); [exact Hmix|]. intros m w3 Hm3. destruct m as [[c|]|].
  - destruct Hm3 as [S3 Hc]. pose proof S3 as (Hl3 & Hi3 & _ & P3).
    eapply valid_mono; [apply (play_next_ok md c w3); [done|done|done|by rewrite (pk_open _ _ P3)]|cbn; lia|].
    intros b4 w4 R4. eapply round_step_trans; [exact S12|]. by eapply round_step_trans.
  - destruct Hm3 as [S3 (p3 & Hp3 & Hne3)]. pose proof S3 as (Hl3 & Hi3 & _ & P3).
    eapply valid_mono; [apply (take_chunk_ok md q p3); [done|done|done|done|by rewrite (pk_open _ _ P3)]|cbn; lia|].
    intros b4 w4 R4. eapply round_step_trans; [exact S12|]. by eapply round_step_trans.
  - apply valid_pure. by eapply round_step_trans.
Qed.

End Chunks.
End PlayerChunks.
