(* ===== verification/PlayerMain.v ===== *)
(** * The player thread: the loop of [Run]

    One round of the main loop keeps the invariant; a command that is waiting at its head
    is answered in the round, or ends the loop. *)

From Stdlib Require Import ZArith Lia ZifyBool.
From stdpp Require Import base numbers sets strings list gmap relations.
From S2P Require Import Prelude AudioFormat Tag Song Prog Threads Music Decoder DecoderFacts Outputs Player PlayerTask PlayerSteps PlayerDecoder PlayerOuts PlayerStartup PlayerCommands PlayerChunks.

Set Default Goal Selector "!".

Module PlayerRun.
Import Song Player AudioFormat Decoder DecoderFacts PlayerTask PlayerRely PlayerSteps PlayerDecoder.
Import PlayerInv PlayerOuts PlayerPipes PlayerErrands PlayerStartup PlayerSeek PlayerCommands.
Import PlayerChunks.

Section Run.
Context {cfg : PlayerConfig}.
#[local] Abbreviation af := configured_audio_format.
Hypothesis Haf : IsValid af = true.
#[local] Abbreviation V := (valid player_protocol).
#[local] Abbreviation Core hand w := (core hand (st w) (out w) (next_pipe w)).
Implicit Types w : world.

(** ** From one song to the next *)

(** The world after [ReplacePipe]. *)
Lemma player_SongBorder_ok md q p w : locked w = false → Inv [] w → at_next (st w) (pl w) →
  pipe (pl w) = Some q → pipes (st w) !! q = Some p → MusicPipe.chunks p = [] →
  V md 40 SongBorder (λ _ w', round_step w w') w.
Proof.
  intros Hl Hi Hn Hq Hp Hc. pose proof Hi as [Hg Hs]. unfold SongBorder. apply v_read.
  pose proof Hn as [Hn1 Hn2]. destruct (Decoder.pipe (dc (st w))) as [dq|] eqn:Hdq; [|done].
  pose proof (ba_queue _ _ _ (Good_base _ _ Hg) Hn) as Hqd. destruct (sync_queued _ _ Hs Hqd) as [Hnx Hnn].
  unfold ReplacePipe, ResetCrossFade. rewrite pbind_assoc. apply v_on_pl. rewrite pbind_assoc.
  apply (v_the_pipe _ q); [done|]. rewrite pbind_assoc.
  apply (v_delete _ [] q p); [apply Hg|done|done|right; cbn; congruence|]. intros s2 [Hd2 Hp2] Hco2. apply v_on_pl.
  apply (v_on_outs _ [] _ (λ _ v, Outputs.opened (Outputs.outs v) = Outputs.opened (out w))); [exact Hco2| |].
  { intros l Hl0. exact (Outputs.SongBorder_ok af l _ _ Hl0). }
  intros [] v Hv Hco3. match goal with |- valid _ _ _ _ _ ?x => set (w3 := x) end.
  pose proof (ba_pipes _ _ _ (Good_base _ _ Hg)) as [P1 P2 P3 P4 P5 P6].
  assert (Hpi3 : pipes_inv (st w3) (pl w3)).
  { constructor; cbn; rewrite ?Hp2, ?Hd2; try done.
    - exists dq. split; [done|]. cbn. rewrite lookup_delete_ne by congruence. by apply P3.
    - intros q' [x [Hne Hx]%lookup_delete_Some]. right. destruct (P2 q') as [H|H]; [by eexists| |done]. congruence.
    - intros q'. cbn. rewrite Hdq. intros [= <-]. rewrite lookup_delete_ne by congruence. by apply P3. }
  assert (Hf3 : flags_inv (Outputs.opened (out w3)) (pl w3)).
  { cbn. rewrite Hv. by destruct (ba_flags _ _ _ (Good_base _ _ Hg)). }
  eapply (v_call _ 16).
  { apply (ActivateDecoder_ok Haf md []); [done|done|apply Hg| |done|].
    - unfold queued_or_seek. cbn. by rewrite Hqd.
    - intros H. by destruct (Good_state _ _ Hg). }
  intros [] w4 Hac. pose proof (Good_activated _ _ _ Hac Hpi3 Hf3 ltac:(by cbn; rewrite Hd2; cbn; rewrite Hdq) (Good_state _ _ Hg)) as Hg4.
  destruct Hac as [_ _ L4 _ _ N4 (s & t & P4') _ Sy4 _].
  assert (Hi4 : Inv [] w4) by (split; [done|by apply Sy4]).
  apply (v_lock Haf _ []); [done|apply Hi4..|]. intros w5 Hl5 Hq5. pose proof (Inv_quiet _ _ _ _ Hq5 Hi4) as Hi5.
  pose proof (q_mild _ _ _ _ Hq5) as Hm5. apply v_read.
  assert (Hlast : ∀ (b : bool) c w6, locked w6 = true → Inv [] w6 → answered w6 = answered w →
    V md (S (S (S c))) (pbind Unlock (λ _, if b then notify IdlePlayer else Pure tt)) (λ _ w', round_step w w') w6).
  { intros b c w6 Hl6 Hi6 Ha6. apply (v_unlock Haf _ []); [done|apply Hi6..|]. intros w7 Hl7 Hq7.
    assert (R : round_step w w7).
    { split_and!; [done|by eapply Inv_quiet|]. by rewrite (mi_answered _ _ (q_mild _ _ _ _ Hq7)). }
    destruct b; [by apply valid_tail, v_notify, valid_pure|by apply valid_pure]. }
  assert (Ha5 : answered w5 = answered w) by (by rewrite (mi_answered _ _ Hm5), N4).
  destruct (border_pause (pc w5)).
  - rewrite pbind_assoc. apply v_on_pl, v_pc; [done..|intros H; by destruct (Good_state _ _ (proj1 Hi5))|].
    apply (Hlast true); [done| |done].
    assert (Hi6 : Inv [] (upd_pl (set_paused true) w5)).
    { apply Inv_pl; [done|done| |done|done]. by destruct (ba_flags _ _ _ (Good_base _ _ (proj1 Hi5))). }
    destruct Hi6 as [(G1 & G2 & G3 & G4 & G5 & G6) S6]. split; [by split_and!|done].
  - cbn [pbind]. by apply (Hlast false).
Qed.

(** ** Buffering *)

(** How a part of a round ends: with the mutex held if the loop goes on. *)
Definition part_end w (r : unit + unit) w' : Prop :=
  Inv [] w' ∧ answered w' = answered w ∧ locked w' = match r with inl _ => true | inr _ => false end.

Lemma lock_continue_ok md w0 w : round_step w0 w → V md 2 (pbind Lock (λ _, Pure continue_)) (part_end w0) w.
Proof.
  intros (Hl & Hi & Ha). apply (v_lock Haf _ []); [done|apply Hi..|]. intros w1 Hl1 Hq1. apply valid_pure.
  split_and!; [by eapply Inv_quiet| |done]. by rewrite (mi_answered _ _ (q_mild _ _ _ _ Hq1)).
Qed.

Lemma lock_wait_ok md w0 w : round_step w0 w →
  V md 10 (pbind Lock (λ _, pbind WaitForDecoder (λ _, Pure continue_))) (part_end w0) w.
Proof.
  intros (Hl & Hi & Ha). apply (v_lock Haf _ []); [done|apply Hi..|]. intros w1 Hl1 Hq1.
  pose proof (Inv_quiet _ _ _ _ Hq1 Hi) as Hi1.
  eapply (v_call _ 8); [apply (WaitForDecoder_quiet Haf md []); [done|apply Hi1..]|]. intros [] w2 [Hl2 Hq2].
  apply valid_pure. split_and!; [by eapply Inv_quiet| |done].
  by rewrite (mi_answered _ _ (q_mild _ _ _ _ Hq2)), (mi_answered _ _ (q_mild _ _ _ _ Hq1)).
Qed.

(** Silence is sent, or the loop ends. *)
Lemma SendSilence_round md w0 w : round_step w0 w → output_open (pl w) = true →
  V md 7 SendSilence (λ _ w', round_step w0 w') w.
Proof.
  intros (Hl & Hi & Ha) Ho. eapply valid_mono; [apply (SendSilence_ok Haf md []); [apply Hi..|done|]|done|].
  - apply (Good_base _ _ (proj1 Hi)).
  - intros b w' [Hl' K]. split_and!; [congruence|by eapply Inv_kept|]. by rewrite (mi_answered _ _ (proj2 (proj2 K))).
Qed.

(** The outputs are kept busy while the decoder is waited for. *)
Lemma feed_outputs_ok md w0 w : round_step w0 w →
  V md 8 (if negb (paused (pl w)) && output_open (pl w) then
       pbind (on_outs Outputs.Check) (λ n, if n <? 4 then SendSilence else Pure true)
     else Pure true) (λ _ w', round_step w0 w') w.
Proof.
  intros Hr. pose proof Hr as (Hl & Hi & Ha). destruct (negb _), (output_open (pl w)) eqn:Ho; try by apply valid_pure.
  cbn [andb]. apply (v_check Haf _ []); [apply Hi..| |].
  { by apply (fi_open _ _ (ba_flags _ _ _ (Good_base _ _ (proj1 Hi)))). }
  intros n w1 Hl1 K1 _. assert (R1 : round_step w0 w1).
  { split_and!; [congruence|by eapply Inv_kept|]. by rewrite (mi_answered _ _ (proj2 (proj2 K1))). }
  destruct (n <? 4); [|by apply valid_pure]. apply SendSilence_round; [done|].
  by rewrite (mi_pl _ _ (proj2 (proj2 K1))).
Qed.

Lemma run_buffering_ok md w : locked w = false → Inv [] w →
  V md 30 run_buffering (λ r w', match r with
    | Some r => part_end w r w'
    | None => round_step w w' ∧ decoder_starting (pl w') = decoder_starting (pl w)
    end) w.
Proof.
  intros Hl Hi. unfold run_buffering. apply v_read. destruct (buffering (pl w)); cbn [negb]; [|by apply valid_pure].
  destruct (Good_pipe _ _ (proj1 Hi)) as (q & p & Hq & Hp). apply (v_the_pipe _ q); [done|].
  eapply (v_size _ []); [apply Hi|exact Hp|]. set (n := length (MusicPipe.chunks p)).
  assert (Hidle : V md 5 (if n <? buffered_before_play then LockIsIdle else Pure true)
    (λ _ w', round_step w w' ∧ pl w' = pl w) w).
  { destruct (n <? _); [|by apply valid_pure].
    eapply valid_mono; [apply (LockIsIdle_ok Haf md []); [done|apply Hi..]|done|].
    intros b w1 (Hl1 & Hq1 & _). split; [|apply (q_mild _ _ _ _ Hq1)].
    split_and!; [done|by eapply Inv_quiet|apply (q_mild _ _ _ _ Hq1)]. }
  eapply (v_call _ 5); [exact Hidle|]. intros idle w1 [R1 Hpl1]. destruct ((n <? _) && negb idle).
  - rewrite <-Hpl1. eapply (v_call _ 8); [by apply (feed_outputs_ok md w)|]. intros ok w2 R2.
    destruct ok; cbn [negb]; [|by apply valid_pure; destruct R2 as (? & ? & ?)].
    apply (v_lock Haf _ []); [apply R2|apply R2..|]. intros w3 Hl3 Hq3. destruct R2 as (L2 & I2 & A2).
    pose proof (Inv_quiet _ _ _ _ Hq3 I2) as Hi3.
    eapply (v_call _ 8); [apply (WaitForDecoder_quiet Haf md []); [done|apply Hi3..]|]. intros [] w4 [Hl4 Hq4].
    apply valid_pure. split_and!; [by eapply Inv_quiet| |done].
    by rewrite (mi_answered _ _ (q_mild _ _ _ _ Hq4)), (mi_answered _ _ (q_mild _ _ _ _ Hq3)).
  - apply v_on_pl, valid_pure. destruct R1 as (L1 & I1 & A1). split; [|by cbn; rewrite Hpl1].
    split_and!; [done| |done]. apply Inv_pl; [done|done| |apply I1|done].
    by destruct (ba_flags _ _ _ (Good_base _ _ (proj1 I1))).
Qed.

(** ** Decoding ahead *)

Lemma run_start_next_ok md w : locked w = false → Inv [] w →
  V md 75 run_start_next (λ _ w', round_step w w' ∧ pl w' = pl w) w.
Proof.
  intros Hl Hi. unfold run_start_next.
  eapply (v_call _ 5); [apply (LockIsIdle_ok Haf md []); [done|apply Hi..]|].
  intros idle w1 (Hl1 & Hq1 & Hidle). pose proof (Inv_quiet _ _ _ _ Hq1 Hi) as Hi1.
  pose proof (q_mild _ _ _ _ Hq1) as Hm1. apply v_read, v_read.
  destruct (idle && queued (pl w1) && bool_decide _) eqn:E.
  - apply andb_true_iff in E as [[-> Hqd]%andb_true_iff Hd%bool_decide_eq_true].
    apply v_assert; [by rewrite Hd, bool_decide_eq_true_2, orb_true_r|].
    eapply valid_mono; [apply (start_next_ok Haf md []); [done|done| |done|by apply Hidle]|cbn; lia|].
    + by intros [_ ?].
    + intros [] w2 (Hl2 & Hi2 & Hpl2 & Ha2). rewrite Hpl2, (mi_pl _ _ Hm1).
      split; [|done]. split_and!; [done|done|]. by rewrite Ha2, (mi_answered _ _ Hm1).
  - apply valid_pure. split; [|apply Hm1]. split_and!; [done|done|apply Hm1].
Qed.

Lemma run_cross_fade_ok md w : locked w = false → Inv [] w → V md 15 run_cross_fade (λ _ w', step [] w w') w.
Proof.
  intros Hl Hi. unfold run_cross_fade. apply (v_yield' Haf _ []); [apply Hi..|]. intros w1 Hl1 Hq1.
  rewrite Hl in Hl1. pose proof (quiet_kept _ _ _ _ Hq1) as K1. pose proof (kept_step _ _ _ Hl1 K1 Hi) as S1.
  pose proof S1 as (_ & Hi1 & _). apply v_read. destruct (Good_pipe _ _ (proj1 Hi1)) as (q & p & Hq & _).
  apply v_IsDecoderAtNextSong; [by rewrite Hq; eexists|]. apply v_read.
  destruct (_ && at_next_song w1 && _) eqn:E; [|by apply valid_pure].
  apply andb_true_iff in E as [[_ En]%andb_true_iff _]. apply at_next_song_spec in En.
  eapply (v_call _ 5); [apply (LockIsStarting_ok Haf md []); [done|apply Hi1..]|]. intros b w2 [Hl2 Hq2].
  pose proof (quiet_kept _ _ _ _ Hq2) as K2. pose proof (kept_step _ _ _ Hl2 K2 Hi1) as S2.
  pose proof (step_trans _ _ _ _ _ S1 S2) as S12. destruct b; cbn [negb]; [by apply valid_pure|].
  apply v_read, v_read. cbv zeta. apply valid_tail, v_on_pl, valid_pure.
  eapply step_trans; [exact S12|]. split_and!; [done| |done|done].
  apply Inv_xfade; [apply S2| |by case_match].
  rewrite (mi_pl _ _ (proj2 (proj2 K2))). by apply (at_next_stable _ _ _ (mi_stage _ _ (proj2 (proj2 K2)))).
Qed.

(** ** The rest of a round *)

Lemma part_end_step hand w w1 r w2 : step hand w w1 → part_end w1 r w2 → part_end w r w2.
Proof. intros (_ & _ & A & _) (? & A' & ?). split_and!; [done|congruence|done]. Qed.

(** The player is paused: wait for a command. *)
Lemma run_paused_ok md w : locked w = false → Inv [] w →
  V md 6 (pbind Lock (λ _, pbind read_pc (λ c,
    pbind (if decide (Player.command c = COMMAND_NONE) then Wait else Pure tt) (λ _, Pure continue_))))
    (part_end w) w.
Proof.
  intros Hl Hi. apply (v_lock Haf _ []); [done|apply Hi..|]. intros w1 Hl1 Hq1.
  pose proof (Inv_quiet _ _ _ _ Hq1 Hi) as Hi1. pose proof (q_mild _ _ _ _ Hq1) as Hm1. apply v_read. case_decide.
  - apply (v_wait Haf _ []); [done|apply Hi1..|]. intros w2 Hl2 Hq2. apply valid_pure.
    split_and!; [by eapply Inv_quiet| |done]. by rewrite (mi_answered _ _ (q_mild _ _ _ _ Hq2)), (mi_answered _ _ Hm1).
  - apply valid_pure. split_and!; [done|apply Hm1|done].
Qed.

(** The pipe is empty and the outputs have played everything. *)
Lemma run_empty_ok md q p w : locked w = false → Inv [] w → pipe (pl w) = Some q →
  pipes (st w) !! q = Some p → MusicPipe.chunks p = [] →
  V md 50 (pbind IsDecoderAtNextSong (λ next,
    if next : bool then pbind SongBorder (λ _, pbind Lock (λ _, Pure continue_))
    else pbind LockIsIdle (λ idle,
      if idle : bool then pbind (pipe_size q) (λ n,
        if n =? 0 then pbind (on_outs Outputs.Drain) (λ _, Pure break_) else pbind Lock (λ _, Pure continue_))
      else pbind read_pl (λ p,
        if output_open p then pbind SendSilence (λ ok,
          if negb ok then Pure break_ else pbind Lock (λ _, Pure continue_))
        else pbind Lock (λ _, Pure continue_))))) (part_end w) w.
Proof.
  intros Hl Hi Hq Hp Hc. apply v_IsDecoderAtNextSong; [by rewrite Hq; eexists|].
  destruct (at_next_song w) eqn:En.
  { eapply (v_call _ 40); [by apply (player_SongBorder_ok md q p); [..|apply at_next_song_spec| | |]|].
    intros [] w1 R1. eapply valid_mono; [by apply (lock_continue_ok md w)|cbn; lia|done]. }
  eapply (v_call _ 5); [apply (LockIsIdle_ok Haf md []); [done|apply Hi..]|].
  intros idle w1 (Hl1 & Hq1 & _). pose proof (quiet_kept _ _ _ _ Hq1) as K1.
  pose proof (kept_step _ _ _ Hl1 K1 Hi) as S1. pose proof S1 as (_ & Hi1 & A1 & _).
  destruct idle.
  - destruct (proj2 (sr_dom _ _ (mi_stage _ _ (proj2 (proj2 K1))) q)) as [p1 Hp1]; [by eexists|].
    eapply (v_size _ []); [apply Hi1|exact Hp1|]. destruct (_ =? 0).
    + apply (v_on_outs _ [] _ (λ _ v, Outputs.outs v = out w1)); [apply Hi1|by intros l Hl0; apply wp_ret|].
      intros [] v Hv Hco. apply valid_pure. split_and!; [|done|done].
      apply (Inv_kept _ w1); [|done]. split_and!; [done|apply Hi1|]. apply out_update_mild. by rewrite Hv.
    + eapply valid_mono; [apply (lock_continue_ok md w); by apply step_round|cbn; lia|done].
  - apply v_read. destruct (output_open (pl w1)) eqn:Eo.
    + eapply (v_call _ 7); [apply (SendSilence_round md w); [by apply step_round|done]|]. intros ok w2 R2.
      destruct ok; cbn [negb]; [|by apply valid_pure; destruct R2 as (? & ? & ?)].
      eapply valid_mono; [by apply (lock_continue_ok md w)|cbn; lia|done].
    + eapply valid_mono; [apply (lock_continue_ok md w); by apply step_round|cbn; lia|done].
Qed.

Lemma run_play_ok md w : locked w = false → Inv [] w → decoder_starting (pl w) = false →
  V md 110 run_play (part_end w) w.
Proof.
  intros Hl Hi Hds. unfold run_play. apply v_read. destruct (paused (pl w)) eqn:Ep.
  { eapply valid_mono; [by apply (run_paused_ok md w)|lia|done]. }
  assert (Ho : output_open (pl w) = true) by (by apply (proj1 Hi)).
  destruct (Good_pipe _ _ (proj1 Hi)) as (q & p & Hq & Hp). apply (v_the_pipe _ q); [done|].
  eapply (v_size _ []); [apply Hi|exact Hp|]. destruct (MusicPipe.chunks p) as [|c cs] eqn:Ec; cbn [length Nat.eqb negb].
  - apply (v_check_pipes Haf _ []); [apply Hi..| |].
    { by apply (fi_open _ _ (ba_flags _ _ _ (Good_base _ _ (proj1 Hi)))). }
    intros n w1 Hl1 K1 _ Hpi. rewrite Hl in Hl1. pose proof (kept_step _ _ _ Hl1 K1 Hi) as S1.
    pose proof S1 as (_ & Hi1 & _ & Pk1). destruct (0 <? n).
    { eapply valid_mono; [apply (lock_wait_ok md w); by apply step_round|lia|done]. }
    eapply valid_mono; [apply (run_empty_ok md q p w1); [done|done|by rewrite (pk_pipe _ _ Pk1)|by rewrite Hpi|done]|lia|].
    intros r w2 R2. by eapply part_end_step.
  - eapply (v_call _ 95).
    { apply (PlayNextChunk_ok Haf md q p); [done|done|done|done|by rewrite Ec|done]. }
    intros b w1 R1. eapply valid_mono; [by apply (lock_continue_ok md w)|cbn; lia|done].
Qed.

(** ** A round of the loop *)

(** The round after the command was processed. *)
Lemma run_rest_ok md w : locked w = false → Inv [] w →
  V md 240 (pbind run_buffering (λ r, match r with
    | Some r => Pure r
    | None => pbind read_pl (λ p,
        if decoder_starting p then
          pbind CheckDecoderStartup (λ ok, if negb ok then Pure break_ else pbind Lock (λ _, Pure continue_))
        else pbind run_start_next (λ _, pbind run_cross_fade (λ _, run_play)))
    end)) (part_end w) w.
Proof.
  intros Hl Hi. eapply (v_call _ 30); [by apply run_buffering_ok|]. intros [r|] w1 H1; [by apply valid_pure|].
  destruct H1 as [(L1 & I1 & A1) _]. apply v_read. destruct (decoder_starting (pl w1)) eqn:Hds.
  - eapply (v_call _ 45); [apply (CheckDecoderStartup_ok Haf md []); [done|apply I1|done]|].
    intros ok w2 (L2 & G2 & Ge2 & Pl2 & _). assert (R2 : round_step w w2).
    { split_and!; [done| |by rewrite (ge_answered _ _ _ _ _ _ _ _ Ge2)]. split; [done|].
      eapply sync_rel; [exact Pl2|]. eapply sync_stable; [apply Ge2|apply I1]. }
    destruct ok; cbn [negb]; [|by apply valid_pure; destruct R2 as (? & ? & ?)].
    eapply valid_mono; [by apply (lock_continue_ok md w)|cbn; lia|done].
  - eapply (v_call _ 75); [by apply run_start_next_ok|]. intros [] w2 [(L2 & I2 & A2) Pl2].
    eapply (v_call _ 15); [by apply run_cross_fade_ok|]. intros [] w3 S3. pose proof S3 as (L3 & I3 & A3 & P3).
    eapply valid_mono; [apply (run_play_ok md w3); [done|done|by rewrite (pk_starting _ _ P3), Pl2]|cbn; lia|].
    intros r w4 (I4 & A4 & L4). split_and!; [done|congruence|done].
Qed.

Lemma run_round_ok md w : locked w = true → Inv [] w →
  V md 700 (run_round tt) (λ r w', match r with
    | inl _ => locked w' = true ∧ Inv [] w' ∧ answered w ≤ answered w' ∧ md ≠ Never ∧
        (Player.command (pc w) ≠ COMMAND_NONE → answered w < answered w')
    | inr _ => locked w' = false ∧ Inv [] w' ∧ answered w ≤ answered w'
    end) w.
Proof.
  intros Hl Hi. unfold run_round. eapply (v_call _ 450); [by apply (ProcessCommand_ok Haf md w)|].
  intros [] w1 (Hl1 & Hi1 & Hle & Hans). apply v_read.
  destruct (stop_command (Player.command (pc w1))) eqn:Es.
  - apply (v_unlock Haf _ []); [done|apply Hi1..|]. intros w2 Hl2 Hq2. pose proof (Inv_quiet _ _ _ _ Hq2 Hi1) as Hi2.
    apply (v_cancel _ []); [apply Hi2..|]. intros w3 Hl3 K3. apply valid_pure.
    split_and!; [congruence|by eapply Inv_kept|].
    by rewrite (mi_answered _ _ (proj2 (proj2 K3))), (mi_answered _ _ (q_mild _ _ _ _ Hq2)).
  - apply (v_unlock Haf _ []); [done|apply Hi1..|]. intros w2 Hl2 Hq2. pose proof (Inv_quiet _ _ _ _ Hq2 Hi1) as Hi2.
    eapply valid_mono; [by apply (run_rest_ok md w2)|cbn; lia|].
    intros r w3 (I3 & A3 & L3). rewrite (mi_answered _ _ (q_mild _ _ _ _ Hq2)) in A3. destruct r as [[]|[]].
    + split_and!; [done|done|lia|apply Hq2|]. intros Hc. destruct Hans as [?|[?|?]]; [done|lia|congruence].
    + split_and!; [done|done|lia].
Qed.

End Run.
End PlayerRun.

(** * The player thread: [Run] and the thread function

    [player_task] runs for ever without a failed assertion, in any company the protocol
    allows, and answers every command within a fixed number of steps if the decoder and the
    outputs do their part. *)

Module PlayerMain.
Import Song Player AudioFormat Decoder DecoderFacts PlayerTask PlayerRely PlayerSteps PlayerDecoder.
Import PlayerInv PlayerOuts PlayerPipes PlayerErrands PlayerStartup PlayerSeek PlayerCommands.
Import PlayerChunks PlayerRun.

(** When nothing is played, the next song comes with the command. *)
Definition idle_sync (c : PlayerControl) : Prop :=
  if needs_next (Player.command c) then next_song c ≠ None else next_song c = None.

Lemma idle_sync_stable c c' : pc_rel c c' → idle_sync c → idle_sync c'.
Proof.
  unfold idle_sync. intros H. destruct (decide (Player.command c = COMMAND_NONE)) as [Hc|Hc].
  - rewrite Hc. cbn. intros Hn. pose proof (pr_post _ _ H Hc) as H'.
    destruct (needs_next (Player.command c')); [apply H'|congruence].
  - destruct (pr_pending _ _ H Hc) as [-> ->]. done.
Qed.

Section Main.
Context {cfg : PlayerConfig}.
#[local] Abbreviation af := configured_audio_format.
Hypothesis Haf : IsValid af = true.
Hypothesis Hun : IsDefined uninitialized_format = false.
#[local] Abbreviation V := (valid player_protocol).
#[local] Abbreviation Core hand w := (core hand (st w) (out w) (next_pipe w)).
Implicit Types w : world.

(** ** Between two songs played from the stopped state *)

Definition Rest w : Prop :=
  Core [] w ∧ pc_ok (pc w) ∧ IsIdle (dc (st w)) = true ∧ pipes (st w) = ∅ ∧
  Decoder.pipe (dc (st w)) = None ∧ Player.state (pc w) = STATE_STOP ∧ idle_sync (pc w).

(** The other threads have acted. *)
Record rested md w w' : Prop := {
  rt_rest : Rest w';
  rt_pc : Player.command (pc w) ≠ COMMAND_NONE → pc w' = pc w;
  rt_answered : answered w' = answered w;
  rt_out : out w' = out w;
  rt_mode : md ≠ Never;
}.

Lemma Rest_after md w w' : after md (Outputs.out_slices (out w)) w w' → Rest w → rested md w w'.
Proof.
  intros [Hr He Hm _] (R1 & R2 & R3 & R4 & R5 & R6 & R7).
  destruct (sr_idle _ _ (e_stage _ _ _ Hr)) as (Hd & _ & Hp); [apply R1|done|].
  constructor; [|by intros H; apply (main_rel_pending _ _ (e_main _ _ _ Hr))|apply Hr|apply Hr|done].
  split_and!; [by eapply (core_env []); [exact Hr|..]|done|by rewrite Hd|by rewrite Hp|by rewrite Hd|..].
  - by rewrite (main_rel_state _ _ (e_main _ _ _ Hr)).
  - eapply idle_sync_stable; [by apply main_rel_pc_rel, Hr|done].
Qed.

Lemma v_rlock md {A : Set} (k : unit → proc world A) c Q w : locked w = false → Rest w →
  (∀ w', locked w' = true → rested md w w' → V md c (k tt) Q w') → V md (S (S c)) (pbind Lock k) Q w.
Proof.
  intros Hl Hr Hk. apply (v_Lock Haf _ (Outputs.out_slices (out w))); [done|apply Hr..|]. intros w' Ha.
  apply Hk; [done|]. destruct (Rest_after _ _ _ Ha Hr). by constructor.
Qed.

Lemma v_runlock md {A : Set} (k : unit → proc world A) c Q w : locked w = true → Rest w →
  (∀ w', locked w' = false → rested md w w' → V md c (k tt) Q w') → V md (S (S c)) (pbind Unlock k) Q w.
Proof.
  intros Hl Hr Hk. apply (v_Unlock Haf _ (Outputs.out_slices (out w))); [done|apply Hr..|]. intros w' Ha.
  apply Hk; [by rewrite (e_locked _ _ _ (af_env _ _ _ _ Ha))|].
  destruct (Rest_after md (put_locked false w) w' Ha Hr). by constructor.
Qed.

Lemma v_rwait md {A : Set} (k : unit → proc world A) c Q w : locked w = true → Rest w →
  (∀ w', locked w' = true → rested md w w' → V md c (k tt) Q w') → V md (S (S (S c))) (pbind Wait k) Q w.
Proof.
  intros Hl Hr Hk. apply (v_Wait Haf _ (Outputs.out_slices (out w))); [done|apply Hr..|]. intros w' Ha.
  apply Hk; [done|]. destruct (Rest_after md (put_locked false w) w' Ha Hr). by constructor.
Qed.

(** ** The end of playback *)

Lemma run_end_ok md w : locked w = false → Inv [] w →
  V md 85 run_end (λ _ w', locked w' = false ∧ Rest w' ∧ answered w' = answered w) w.
Proof.
  intros Hl [Hg Hs]. unfold run_end. eapply (v_call _ 63); [apply (StopDecoder_ok Haf md []); [done|apply Hg..]|].
  intros [] w1 Hst1. pose proof (Good_stopped _ _ _ Hg Hst1) as Hg1. destruct Hst1 as [S1 S2 S3 S4 S5 S6 S7 S8 S9 S10].
  assert (Hs1 : sync (pc w1) (pl w1)).
  { rewrite S4. eapply sync_stable; [by apply main_rel_pc_rel|]. exact Hs. }
  unfold ClearAndDeletePipe. rewrite !pbind_assoc. destruct (pi_pipe _ _ S10) as (q & Hq & [p Hp]).
  apply (v_the_pipe _ q); [done|]. rewrite pbind_assoc. apply (v_clear _ [] q p); [done|done|].
  intros s2 [Hd2 Hp2] Hco2.
  apply (v_delete _ [] q MusicPipe.make); [done|by cbn; rewrite Hp2, lookup_insert_eq|done|left; by cbn; rewrite Hd2|].
  intros s3 [Hd3 Hp3] Hco3. cbn in Hd3, Hp3. rewrite Hd2 in Hd3.
  assert (Hp0 : pipes s3 = ∅).
  { apply map_empty. intros q'. rewrite Hp3, Hp2, delete_insert_eq. apply eq_None_not_Some.
    intros [x [Hne Hx]%lookup_delete_Some]. destruct (pi_dom _ _ S10 q') as [H|H]; [by eexists|congruence..]. }
  apply v_on_pl, v_on_pl. apply (v_lock Haf _ []); [by cbn; rewrite S6|done|done|]. intros w4 Hl4 [Q1 Q2 Q3 Q4 _].
  pose proof (mi_pc _ _ Q3) as Hp4. cbn in Hp4. destruct (sr_idle _ _ (mi_stage _ _ Q3)) as (Hd4 & _ & Hpi4);
    [apply Hco3|cbn; by rewrite Hd3|]. cbn in Hd4, Hpi4.
  assert (Hst4 : Player.state (pc w4) ≠ STATE_STOP) by (apply (pr_state _ _ Hp4), Hg1).
  assert (Hs4 : sync (pc w4) (pl w4)).
  { rewrite (mi_pl _ _ Q3). eapply sync_stable; [exact Hp4|]. exact Hs1. }
  apply v_pc; [done..|]. apply v_read.
  assert (Hend : ∀ c c', Core [] w4 → pc_ok c' → Player.state c' ≠ STATE_STOP → idle_sync c' →
    V md (S (S (S c))) (pbind (on_pc (Player.set_state STATE_STOP)) (λ _, Unlock))
      (λ _ w', locked w' = false ∧ Rest w' ∧ answered w' = answered w) (upd_pc (λ _, c') w4)).
  { intros c c' Hco Hok Hst Hsy. apply v_pc; [done..|]. apply valid_tail, v_runlock; [done| |].
    - split_and!; [done|done|by cbn; rewrite Hd4, Hd3|by cbn; rewrite Hpi4|by cbn; rewrite Hd4, Hd3|done|done].
    - intros w5 Hl5 [T1 T2 T3 _]. apply valid_pure. split_and!; [done|done|].
      rewrite T3. cbn. by rewrite (mi_answered _ _ Q3); cbn. }
  destruct (queued (pl w4)) eqn:Eq.
  - destruct (sync_queued _ _ Hs4 Eq) as [Hn4 Hnn4]. destruct (next_song (pc w4)) as [sg|] eqn:Esg; [|done].
    cbn [pl upd_pc]. rewrite Eq. rewrite pbind_assoc. apply (v_the_next_song _ sg); [done|].
    apply v_take_next; [done|]. apply (Hend _ (set_next_song None (set_tagged_song None (pc w4)))); [done|done|done|].
    unfold idle_sync. cbn. by rewrite Hnn4.
  - cbn [pl upd_pc]. rewrite Eq. cbn [pbind]. apply (Hend _ (set_tagged_song None (pc w4))); [done|done|done|].
    revert Hs4. unfold sync, idle_sync. cbn. rewrite Eq. destruct (needs_next _); [by intros [? _]|].
    intros H. destruct (next_song (pc w4)); [|done]. by discriminate (proj2 H ltac:(done)).
Qed.

(** ** [Run] *)

(** Bounds on the number of steps: of the main loop, and of [Run]. *)
Definition loop_cost : nat := 700 + (2 + 2 * 0) * S 700.
Definition run_cost : nat := 87 + (loop_cost + 85).

Lemma run_loop_ok md n w : locked w = true → Inv [] w → n ≤ answered w →
  V md loop_cost (loop run_round tt) (λ _ w', locked w' = false ∧ Inv [] w' ∧ n ≤ answered w') w.
Proof.
  intros Hl Hi Hn. unfold loop_cost.
  apply (valid_loop player_protocol 700 0 (λ _ w, locked w = true ∧ Inv [] w ∧ n ≤ answered w) (λ _ _, 0)); [|done].
  intros md' [] w1 (Hl1 & Hi1 & Hn1). split; [done|].
  eapply valid_mono; [by apply (run_round_ok Haf md' w1)|done|]. intros [[]|[]] w2 H.
  - destruct H as (H1 & H2 & H3 & H4 & H5). split_and!; [done|done|lia|by intros ->|]. intros _ Hc. left. by apply H5.
  - destruct H as (H1 & H2 & H3). split_and!; [done|done|lia].
Qed.

(** The first song: its pipe is the only one. *)
Lemma Run_ok md w : locked w = false → Rest w → needs_next (Player.command (pc w)) = true →
  pl w = make_player →
  V md run_cost Run (λ _ w', locked w' = false ∧ Rest w' ∧ answered w < answered w') w.
Proof.
  intros Hl (R1 & R2 & R3 & R4 & R5 & R6 & R7) Hnn Hpl. unfold idle_sync in R7. rewrite Hnn in R7.
  assert (Hc : Player.command (pc w) ≠ COMMAND_NONE) by (by intros H; rewrite H in Hnn).
  unfold Run, run_cost. apply (v_new_pipe Haf _ []); [done|]. intros w1 E1 E2 E3 E4 E5 Hnew E6 Hco1.
  set (q := next_pipe w) in *. apply v_on_pl. eapply (v_call _ 65).
  { apply (StartDecoder_ok Haf md [] q MusicPipe.make); [|done|..|done].
    - cbn. by rewrite E4.
    - cbn. by rewrite E1.
    - cbn. by rewrite E6.
    - unfold queued_or_seek. cbn. by rewrite E2, Hpl.
    - cbn. by rewrite E1.
    - cbn. rewrite E6. cbn. by rewrite lookup_insert_eq. }
  intros [] w2 (sg & [D1 D2 [A1 A2 A3 A4 A5 A6] _ D5 D6 D7 D8]). cbn in A1, A2, A3, A4, A5, A6, D7.
  assert (Hpc2 : pc w2 = pc w) by (rewrite <-E1; apply (main_rel_pending _ _ A6); by rewrite E1).
  assert (Hpl2 : pl w2 = set_pipe (Some q) make_player) by (by rewrite A1, E2, Hpl).
  eapply (v_call _ 16).
  { apply (ActivateDecoder_ok Haf md []); [by rewrite A4, E4|done|done| |by rewrite Hpc2|by rewrite Hpc2].
    unfold queued_or_seek. by rewrite Hpl2. }
  intros [] w3 [C1 C2 C3 C4 C5 C6 (sg' & t & C7) C8 C9 C10]. destruct (C8 ltac:(by rewrite Hpc2)) as [Hc3 Hn3].
  rewrite Hpc2 in Hc3. rewrite Hpl2 in C7.
  assert (Hbase : base (st w3) (out w3) (pl w3)).
  { apply (base_stable (st w2) _ (out w2)); [done|done|]. rewrite C7. constructor.
    - constructor; cbn; try done.
      + exists q. split; [done|]. apply D7. rewrite E6. cbn. by rewrite lookup_insert_eq.
      + intros q' Hx. left. apply D7 in Hx. rewrite E6 in Hx. cbn in Hx. rewrite R4 in Hx.
        destruct (decide (q = q')) as [->|Hne]; [done|]. rewrite lookup_insert_ne, lookup_empty in Hx by done.
        by destruct Hx.
      + intros q'. rewrite D5. intros [= <-]. apply D7. rewrite E6. cbn. by rewrite lookup_insert_eq.
    - constructor; cbn; try done. by right.
    - intros [_ H]. destruct H. by rewrite D5. }
  apply (v_lock Haf _ []); [done..|]. intros w4 Hl4 [Q1 Q2 Q3 Q4 _]. pose proof (base_mild _ _ Q3 Hbase) as Hb4.
  destruct (mild_command _ _ Q3) as [Hc4 Hn4]; [by rewrite Hc3|]. rewrite Hc3 in Hc4. rewrite Hn3 in Hn4.
  apply v_pc; [done..|intros _; by rewrite Hc4|]. apply v_CommandFinished; [by cbn; rewrite Hc4|done| |].
  { cbn. rewrite Hc4. by intros H; rewrite H in Hnn. }
  eapply (v_call _ loop_cost).
  { apply (run_loop_ok md (S (answered w))); [done| |].
    - split.
      + split_and!; [done|split; [apply Q2|done]|done| |by intros _ _; cbn; rewrite (mi_pl _ _ Q3), C7|done].
        cbn. rewrite (mi_pl _ _ Q3), C7. done.
      + unfold sync. cbn. rewrite (mi_pl _ _ Q3), C7, Hn4. done.
    - cbn. rewrite (mi_answered _ _ Q3), C6, A5, E5. apply Nat.le_refl. }
  intros [] w5 (Hl5 & Hi5 & Ha5). eapply valid_mono; [by apply run_end_ok|done|].
  intros [] w6 (Hl6 & Hr6 & Ha6). split; [exact Hl6|]. split; [exact Hr6|]. clear -Ha5 Ha6. lia.
Qed.

(** ** The thread *)

Definition task_cost : nat := 20 + (run_cost + 10).

Definition tick (w : world) : nat := if decide (Player.command (pc w) = COMMAND_NONE) then 0 else 1.

Lemma tick_finished w0 w : Player.command (pc w0) ≠ COMMAND_NONE → tick (finished w) < tick w0.
Proof. intros H. unfold tick. rewrite (decide_False (P:=Player.command (pc w0) = _)) by done. rewrite decide_True by done. lia. Qed.

(** What a round of the thread function ends with. *)
Definition task_end md w w' : Prop :=
  locked w' = true ∧ Rest w' ∧ (Player.command (pc w) ≠ COMMAND_NONE → answered w < answered w') ∧
  (md = Never → tick w' < tick w).

Lemma Rest_out v w : Rest w → Core [] (out_update v w) → Rest (out_update v w).
Proof. intros (R1 & R2 & R3 & R4 & R5 & R6 & R7) Hco. by split_and!. Qed.

Lemma Rest_finished w : Rest w → next_song (pc w) = None → Rest (finished w).
Proof.
  intros (R1 & [R2 _] & R3 & R4 & R5 & R6 & R7) Hn. split_and!; try done.
Qed.

(** The answer to the command; no song is pending. *)
Lemma v_answer md {A : Set} (k : unit → proc world A) c Q w : Rest w → Player.command (pc w) ≠ COMMAND_NONE →
  next_song (pc w) = None → V md c (k tt) Q (finished w) → V md (S c) (pbind PlayerTask.CommandFinished k) Q w.
Proof. intros Hr Hc Hn. apply v_CommandFinished; [done|done|]. intros _. apply Hr. Qed.

Lemma drop_next_ok md w0 w : locked w = true → Rest w → Player.command (pc w) = Player.command (pc w0) →
  Player.command (pc w0) ≠ COMMAND_NONE → answered w = answered w0 →
  V md 2 (pbind drop_next (λ _, Pure (inl tt)))
    (λ r w', match r : unit + unit with inl _ => task_end md w0 w' | inr _ => False end) w.
Proof.
  intros Hl Hr Hc Hn Ha. unfold drop_next. rewrite pbind_assoc.
  apply v_take_next; [by rewrite Hc|]. pose proof Hr as (R1 & R2 & R3 & R4 & R5 & R6 & R7).
  apply v_CommandFinished; [by cbn; rewrite Hc|done|done|]. apply valid_pure.
  split_and!; [done| |by intros _; cbn; rewrite Ha; lia|].
  - split_and!; try done. split; [apply R2|done].
  - intros _. by apply tick_finished.
Qed.

(** An operation on the outputs between two uses of the mutex. *)
Lemma outs_between_ok md {A : Set} (m : prog Outputs.outworld unit) (P : Outputs.MultipleOutputs → Prop)
    (k : unit → proc world A) c Q w : locked w = true → Rest w → Player.command (pc w) ≠ COMMAND_NONE →
  (∀ l v, Outputs.oinv af l v → wp m (λ _ v', Outputs.oinv af l v' ∧ P (Outputs.outs v')) (λ _ _, False) v) →
  (∀ w', locked w' = true → Rest w' → pc w' = pc w → answered w' = answered w → P (out w') → md ≠ Never →
     V md c (k tt) Q w') →
  V md (S (S (S (S (S c))))) (pbind Unlock (λ _, pbind (on_outs m) (λ _, pbind Lock k))) Q w.
Proof.
  intros Hl Hr Hc Hm Hk. apply v_runlock; [done..|]. intros w1 Hl1 [T1 T2 T3 T4 T5].
  apply (v_on_outs _ [] _ (λ _ v, P (Outputs.outs v))); [apply T1|by intros l Hi; apply Hm|].
  intros [] v Hv Hco. apply v_rlock; [done|by apply Rest_out|]. intros w2 Hl2 [U1 U2 U3 U4 U5]. cbn in *.
  specialize (T2 Hc). rewrite T2 in U2. apply Hk; [done|done|by apply U2|congruence|by rewrite U4|done].
Qed.

Lemma idle_no_next w : Rest w → needs_next (Player.command (pc w)) = false → next_song (pc w) = None.
Proof. intros (_ & _ & _ & _ & _ & _ & R7) Hn. unfold idle_sync in R7. by rewrite Hn in R7. Qed.

(** Nothing is allocated when nothing is played and the outputs are closed. *)
Lemma Rest_empty w : Rest w → Outputs.out_slices (out w) = [] → MusicBuffer.IsEmptyUnsafe (buffer (st w)) = true.
Proof.
  intros (R1 & R2 & R3 & R4 & R5 & R6 & R7) Ho. pose proof (so_holds _ _ _ (co_stage _ _ _ _ R1)) as Hh.
  rewrite Ho, R4, pslices_empty, (stage_idle_bridge _ _ (co_stage _ _ _ _ R1) R3) in Hh. cbn in Hh.
  unfold MusicBuffer.IsEmptyUnsafe, SliceBuffer.IsEmpty. rewrite (SliceBuffer.h_count _ _ Hh). done.
Qed.

Lemma answered_end md w0 w : locked w = true → Rest w → pc w = pc w0 → answered w = answered w0 →
  Player.command (pc w0) ≠ COMMAND_NONE → next_song (pc w0) = None → task_end md w0 (finished w).
Proof.
  intros Hl Hr Hp Ha Hc Hn. split_and!; [done|by apply Rest_finished; [|rewrite Hp]|by intros _; cbn; rewrite Ha; lia|].
  intros _. by apply tick_finished.
Qed.

Lemma task_play_ok md w : locked w = true → Rest w → needs_next (Player.command (pc w)) = true →
  V md (19 + (run_cost + 10)) (pbind (assert (λ w, negb (is_null (next_song (pc w))))) (λ _,
      pbind Unlock (λ _, pbind do_play (λ _, pbind (notify OnPlayerSync) (λ _,
        pbind Lock (λ _, Pure (inl tt)))))))
    (λ r w', match r : unit + unit with inl _ => task_end md w w' | inr _ => False end) w.
Proof.
  intros Hl Hr Hnn. assert (Hc : Player.command (pc w) ≠ COMMAND_NONE) by (by intros H; rewrite H in Hnn).
  apply v_assert.
  { destruct Hr as (_ & _ & _ & _ & _ & _ & R7). unfold idle_sync in R7. rewrite Hnn in R7.
    by destruct (next_song (pc w)). }
  apply v_runlock; [done..|]. intros w1 Hl1 [T1 T2 T3 T4 T5]. specialize (T2 Hc).
  unfold do_play. rewrite pbind_assoc. apply v_on_pl.
  eapply (valid_mono _ _ (run_cost + 10)); [|lia|exact (λ _ _ H, H)].
  eapply (v_call _ run_cost); [apply Run_ok; [done|done|by cbn; rewrite T2|done]|].
  intros [] w2 (Hl2 & Hr2 & Ha2). cbn in Ha2. apply v_notify. apply v_rlock; [done|done|].
  intros w3 Hl3 [U1 U2 U3 U4 U5]. apply valid_pure. split_and!; [done|done| |by intros ->].
  intros _. cbn in U3. rewrite U3. by rewrite <-T3.
Qed.

Lemma task_round_ok md w : locked w = true → Rest w →
  V md task_cost (task_round tt)
    (λ r w', match r : unit + unit with inl _ => task_end md w w' | inr _ => False end) w.
Proof.
  intros Hl Hr. unfold task_round, task_cost. apply v_read.
  assert (Hnext := idle_no_next w Hr). pose proof Hr as (_ & [_ Hx] & _).
  destruct (Player.command (pc w)) eqn:Hc; [..|].
  - apply v_rwait; [done..|]. intros w1 Hl1 [T1 T2 T3 T4 T5]. apply valid_pure.
    split_and!; [done|done|by rewrite Hc|by intros ->].
  - done.
  - apply (outs_between_ok md _ (λ _, True)); [done|done|by rewrite Hc| |].
    { intros l v Hi. eapply (wp_mono _ _ _ (λ _ _, False)); [by apply (Outputs.Cancel_ok af)|by intros ? ? [? _]|done]. }
    intros w1 Hl1 Hr1 Hp1 Ha1 _ _. eapply valid_mono; [apply (drop_next_ok md w w1); rewrite ?Hp1, ?Hc; done|lia|done].
  - eapply valid_mono; [apply (drop_next_ok md w w); rewrite ?Hc; done|lia|done].
  - by apply task_play_ok; [..|rewrite Hc].
  - apply (outs_between_ok md _ (λ o, Outputs.out_slices o = [])); [done|done|by rewrite Hc| |].
    { intros l v Hi. eapply (wp_mono _ _ _ (λ _ _, False)); [by apply (Outputs.Release_ok af)|by intros ? ? (? & _ & ?)|done]. }
    intros w1 Hl1 Hr1 Hp1 Ha1 Ho1 _. apply v_answer; [done|by rewrite Hp1, Hc|by rewrite Hp1; apply Hnext|].
    apply v_assert; [by apply (Rest_empty w1)|]. apply valid_pure.
    apply answered_end; [done|done|done|done|by rewrite Hc|by apply Hnext].
  - apply (outs_between_ok md _ (λ _, True)); [done|done|by rewrite Hc|by intros l v Hi; apply wp_ret|].
    intros w1 Hl1 Hr1 Hp1 Ha1 _ _. apply v_answer; [done|by rewrite Hp1, Hc|by rewrite Hp1; apply Hnext|].
    apply valid_pure. apply answered_end; [done|done|done|done|by rewrite Hc|by apply Hnext].
  - by apply task_play_ok; [..|rewrite Hc].
  - eapply valid_mono; [apply (drop_next_ok md w w); rewrite ?Hc; done|lia|done].
  - apply v_answer; [done|by rewrite Hc|by apply Hnext|]. apply valid_pure.
    apply answered_end; [done|done|done|done|by rewrite Hc|by apply Hnext].
Qed.

(** The bound on the number of steps to the answer of a command. *)
Definition thread_cost : nat := 2 + (task_cost + (2 + 2 * 1) * S task_cost).

Theorem player_task_ok md w : locked w = false → Rest w →
  V md thread_cost player_task (λ _ _, False) w.
Proof.
  intros Hl Hr. unfold player_task, thread_cost. apply v_rlock; [done..|]. intros w1 Hl1 [T1 _ _ _ _].
  apply (valid_loop player_protocol task_cost 1 (λ _ w, locked w = true ∧ Rest w) (λ _, tick)); [|done].
  intros md' [] w2 [Hl2 Hr2]. split; [unfold tick; case_decide; lia|].
  eapply valid_mono; [by apply (task_round_ok md' w2)|done|]. intros [[]|[]] w3 H; [|done].
  destruct H as (H1 & H2 & H3 & H4). split_and!; [done|done|done|]. intros _ Hp. left. by apply H3.
Qed.

End Main.
End PlayerMain.
