(* ===== verification/PlayerReal.v ===== *)
(** * The player thread behind its interface

    The main thread is verified against the interface [PlayerThread] ([Player]); here
    [player_task], with a decoder thread and devices that act as a script says, is put
    behind this interface, and the laws of the interface are proved for it.

    The thread runs in turns, from one yield to the next; before each turn the decoder
    thread and the devices act.  When the script is exhausted they are fair: the decoder
    obeys and the devices play ([PlayerRely.settle]). *)

From Stdlib Require Import ZArith Lia ZifyBool.
From stdpp Require Import base numbers sets strings list gmap relations.
From S2P Require Import Prelude Tag AudioFormat Song Prog Player Threads Music Decoder.
From S2P Require Import DecoderFacts Outputs PlayerTask PlayerSteps PlayerMain.

Set Default Goal Selector "!".

Module PlayerReal.
Import Song Player AudioFormat Decoder DecoderFacts PlayerTask PlayerRely PlayerSteps PlayerMain.

(** ** Turns *)

(** What the others do before a turn.  One action is left out: a decoder that is decoding
    and was not told to stop does not end its song while the player executes SEEK.  With
    it the assertions of [DecoderControl::Seek] fail; [PlayerFindings] has the runs. *)
Inductive choice :=
| C_decoder (a : decoder_action)
| C_devices (l : list bool).

Definition is_end (a : decoder_action) : bool := match a with D_end _ => true | _ => false end.

(** The thread between two turns; the [pc] of [others] is out of date, the main thread
    has the current one. *)
Record thread := mkThread {
  code : proc world unit;
  others : world;
  script : list (list choice);
  pauses : list nat;     (* how many turns each absence of the main thread lasts *)
}.

Definition at_ (p : PlayerControl) (t : thread) : world := upd_pc (λ _, p) (others t).

Section Real.
Context {cfg : PlayerConfig}.
#[local] Abbreviation af := configured_audio_format.

Definition ends_during_seek (w : world) (a : decoder_action) : bool :=
  bool_decide (Player.command (pc w) = COMMAND_SEEK) &&
  negb (bool_decide (Decoder.command (dc (st w)) = DC_STOP)) &&
  bool_decide (Decoder.state (dc (st w)) = DECODER_DECODE) && is_end a.

Definition choose (w : world) (c : choice) : world :=
  match c with
  | C_decoder a =>
      if ends_during_seek w a then w
      else match decoder_act af a (st w) with Some s => put_st s w | None => w end
  | C_devices l => put_devices l w
  end.

Definition meanwhile (cs : list (list choice)) (w : world) : world :=
  match cs with [] => settle w | c :: _ => foldl choose w c end.

(** One turn; [None] when an assertion fails, the thread ends or does not yield. *)
Definition turn (p : PlayerControl) (t : thread) : option (PlayerControl * thread) :=
  match resume (S thread_cost) (code t) (meanwhile (script t) (at_ p t)) with
  | Some (q, w) => Some (pc w, mkThread q w (tail (script t)) (pauses t))
  | None => None
  end.

Fixpoint turns (n : nat) (p : PlayerControl) (t : thread) : option (PlayerControl * thread) :=
  match n with
  | O => Some (p, t)
  | S n => match turn p t with Some (p, t) => turns n p t | None => None end
  end.

(** Turns until no command is pending. *)
Fixpoint await (n : nat) (p : PlayerControl) (t : thread) : option (PlayerControl * thread) :=
  if bool_decide (Player.command p = COMMAND_NONE) then Some (p, t) else
  match n with
  | O => None
  | S n => match turn p t with Some (p, t) => await n p t | None => None end
  end.

Definition patience (t : thread) : nat := length (script t) + thread_cost + 2.

(** At every yield the shared state is in order, and whatever the others do next, the rest
    of the thread is valid.  One request was answered before the thread started, so it
    owes progress at all times. *)
Definition thread_ok (p : PlayerControl) (t : thread) : Prop :=
  shared player_protocol (at_ p t) ∧ 0 < answered (others t) ∧
  ∀ w, rtc env_step (at_ p t) w → valid player_protocol Free thread_cost (code t) (λ _ _, False) w.

#[export] Instance real_thread : PlayerThread thread := {
  drift p t :=
    let t' := mkThread (code t) (others t) (script t) (tail (pauses t)) in
    default (p, t) (turns (hd 0 (pauses t)) p t');
  service p t := default (p, t) (await (patience t) p t);
  thread_inv := thread_ok;
}.

(** ** The others keep to the protocol *)

Lemma choose_step w c : rtc env_step w (choose w c).
Proof.
  destruct c as [a|l]; cbn; [|apply rtc_once, env_devices].
  case_match eqn:E; [done|]. destruct (decoder_act af a (st w)) as [s|] eqn:Ha; [|done].
  apply rtc_once. eapply env_decoder; [exact Ha|]. intros Hc Hn Hd f ->.
  unfold ends_during_seek in E.
  by rewrite bool_decide_eq_true_2, bool_decide_eq_false_2, bool_decide_eq_true_2 in E.
Qed.

Lemma choose_pc w c : pc (choose w c) = pc w ∧ answered (choose w c) = answered w.
Proof. destruct c as [a|l]; cbn; [|done]. by repeat case_match. Qed.

Lemma meanwhile_step cs w : rtc env_step w (meanwhile cs w) ∧
  pc (meanwhile cs w) = pc w ∧ answered (meanwhile cs w) = answered w.
Proof.
  destruct cs as [|c cs]; cbn.
  - split; [|done]. apply (player_protocol_laws (cfg:=cfg)).
  - revert w. induction c as [|x c IH]; intros w; [done|]. cbn.
    destruct (IH (choose w x)) as (H1 & H2 & H3). destruct (choose_pc w x) as [H4 H5].
    split_and!; [|congruence..]. etrans; [apply choose_step|done].
Qed.

(** ** A turn *)

Lemma chain_answered w w' : rtc (guar player_protocol) w w' → answered w ≤ answered w'.
Proof.
  induction 1 as [|x y z H _ IH]; [done|]. pose proof (served_guar player_protocol _ _ H) as H1.
  cbn in H1. lia.
Qed.

(** The thread reaches its next yield, having held its promise; and an answer it owes has
    been given or is nearer. *)
Lemma turn_ok p t : thread_ok p t →
  ∃ w1 q w2, w1 = meanwhile (script t) (at_ p t) ∧
    resume (S thread_cost) (code t) w1 = Some (q, w2) ∧
    rtc (guar player_protocol) w1 w2 ∧
    thread_ok (pc w2) (mkThread q w2 (tail (script t)) (pauses t)) ∧
    ∀ c k, live player_protocol Free c k (code t) (λ _ _, False) w1 → c ≤ thread_cost →
      k < answered w2 ∨ ∃ c', c' < c ∧ live player_protocol Free c' k q (λ _ _, False) (settle w2).
Proof.
  intros (Hs & Ha & Hv). destruct (meanwhile_step (script t) (at_ p t)) as (M1 & M2 & M3).
  set (w1 := meanwhile (script t) (at_ p t)) in *. specialize (Hv w1 M1).
  assert (Hl : live player_protocol Free thread_cost 0 (code t) (λ _ _, False) w1).
  { apply valid_live; [done|]. left. cbn. by rewrite M3. }
  destruct (resume_live player_protocol _ _ _ _ _ _ Hl Hv) as (q & w2 & Hr & Hg & Hy & _).
  exists w1, q, w2. split_and!; [done..| |].
  - assert (Hw : at_ (pc w2) (mkThread q w2 (tail (script t)) (pauses t)) = w2) by (by destruct w2).
    assert (Ha2 : 0 < answered w2) by (by eapply Nat.lt_le_trans; [|apply chain_answered, Hg]; rewrite M3).
    unfold thread_ok. rewrite Hw. split; [by eapply valid_Yield_shared|]. split; [exact Ha2|].
    intros w3 H3. by eapply valid_Yield_inv.
  - intros c k Hc Hle. destruct (resume_live player_protocol _ _ _ _ _ _ Hc Hv)
      as (q' & w2' & Hr' & _ & _ & Hk).
    apply (resume_fuel _ (S thread_cost)) in Hr'; [|lia]. rewrite Hr in Hr'.
    injection Hr' as <- <-. done.
Qed.

(** ** Turns while no command is pending *)

Record at_rest (p p' : PlayerControl) : Prop := {
  ar_command : Player.command p' = COMMAND_NONE;
  ar_next : keeps_next p p';
  ar_border : border_pause p' = border_pause p;
  ar_stop : Player.state p = STATE_STOP → p' = p;
}.

Lemma at_rest_refl p : Player.command p = COMMAND_NONE → at_rest p p.
Proof. intros H. constructor; [done|by left|done|done]. Qed.

Lemma at_rest_trans p p1 p2 : at_rest p p1 → at_rest p1 p2 → at_rest p p2.
Proof.
  intros [A1 A2 A3 A4] [B1 B2 B3 B4]. constructor; [done| |congruence|].
  - unfold keeps_next in *. intuition congruence.
  - intros H. specialize (A4 H). subst p1. auto.
Qed.

Lemma pcg_rest p n p' n' : pcg p n p' n' → Player.command p = COMMAND_NONE → at_rest p p'.
Proof.
  intros [G1 G2 G3 G4] Hc. constructor; [|done|done|auto].
  destruct G3 as [[-> _]|[(H & _)|(H & _)]]; [done|by rewrite Hc in H|done].
Qed.

Lemma chain_rest w w' : rtc (guar player_protocol) w w' → Player.command (pc w) = COMMAND_NONE →
  at_rest (pc w) (pc w').
Proof.
  induction 1 as [w|w w1 w2 H _ IH]; intros Hc; [by apply at_rest_refl|].
  pose proof (pcg_rest _ _ _ _ H Hc) as Hr. eapply at_rest_trans; [exact Hr|apply IH, Hr].
Qed.

Lemma turn_rest p t : thread_ok p t → Player.command p = COMMAND_NONE →
  ∃ p' t', turn p t = Some (p', t') ∧ thread_ok p' t' ∧ at_rest p p'.
Proof.
  intros Ht Hc. destruct (turn_ok p t Ht) as (w1 & q & w2 & Hw & Hr & Hg & Ht' & _).
  unfold turn. rewrite <-Hw, Hr. do 2 eexists. split; [done|]. split; [done|].
  destruct (meanwhile_step (script t) (at_ p t)) as (_ & M & _). rewrite <-Hw in M.
  change p with (pc (at_ p t)). rewrite <-M. apply chain_rest; [done|by rewrite M].
Qed.

Lemma turns_rest n p t : thread_ok p t → Player.command p = COMMAND_NONE →
  ∃ p' t', turns n p t = Some (p', t') ∧ thread_ok p' t' ∧ at_rest p p'.
Proof.
  revert p t. induction n as [|n IH]; intros p t Ht Hc.
  { exists p, t. split; [done|]. split; [done|]. by apply at_rest_refl. }
  destruct (turn_rest p t Ht Hc) as (p1 & t1 & E1 & Ht1 & Hr1). cbn [turns]. rewrite E1.
  destruct (IH p1 t1 Ht1 (ar_command _ _ Hr1)) as (p2 & t2 & E2 & Ht2 & Hr2).
  exists p2, t2. split; [done|]. split; [done|]. by eapply at_rest_trans.
Qed.

(** ** Turns until a command is answered *)

(** The command [c], posted when [n] commands had been answered, is pending or answered;
    CANCEL may have become STOP. *)
Definition served_as (c : PlayerCommand) (n : nat) (p : PlayerControl) (n' : nat) : Prop :=
  n' = n ∧ (Player.command p = c ∨ c = COMMAND_CANCEL ∧ Player.command p = COMMAND_STOP) ∨
  n < n' ∧ Player.command p = COMMAND_NONE ∧
    (takes_next c = true → next_song p = None) ∧
    (c = COMMAND_CLOSE_AUDIO → Player.state p = STATE_STOP).

Lemma pcg_served c n p np p' np' : c ≠ COMMAND_NONE → pcg p np p' np' →
  served_as c n p np → served_as c n p' np'.
Proof.
  intros Hc Hg [[-> Hp]|(Hn & Hp & Ht & Hs)].
  - destruct (pg_command _ _ _ _ Hg) as [[H ->]|[(H1 & H2 & ->)|(H1 & H2 & -> & H3 & H4)]].
    + left. rewrite H. done.
    + left. split; [done|]. right. split; [|done].
      destruct Hp as [Hp|[_ Hp]]; congruence.
    + right. split; [lia|]. split; [done|]. split.
      * intros Ht. apply H3. destruct Hp as [->|[_ ->]]; done.
      * intros ->. apply H4. by destruct Hp as [->|[? _]].
  - right. pose proof (pcg_rest _ _ _ _ Hg Hp) as [R1 R2 R3 R4]. split.
    { destruct (pg_command _ _ _ _ Hg) as [[_ ->]|[(_ & _ & ->)|(_ & _ & -> & _)]]; lia. }
    split; [done|]. split.
    + intros H. destruct R2 as [->|]; auto.
    + intros H. rewrite R4; auto.
Qed.

Record held (p p' : PlayerControl) : Prop := {
  he_next : keeps_next p p';
  he_border : border_pause p' = border_pause p;
}.

Lemma held_trans p p1 p2 : held p p1 → held p1 p2 → held p p2.
Proof. intros [A1 A2] [B1 B2]. constructor; [unfold keeps_next in *; intuition congruence|congruence]. Qed.

Lemma chain_served c n w w' : c ≠ COMMAND_NONE → rtc (guar player_protocol) w w' →
  served_as c n (pc w) (answered w) →
  served_as c n (pc w') (answered w') ∧ held (pc w) (pc w').
Proof.
  intros Hc. induction 1 as [w|w w1 w2 H _ IH]; intros Hs.
  { split; [exact Hs|]. split; [by left|done]. }
  destruct IH as [Hs' Hk]; [exact (pcg_served _ _ _ _ _ _ Hc H Hs)|]. split; [done|].
  eapply held_trans; [|exact Hk]. constructor; [apply (pg_next _ _ _ _ H)|apply (pg_border _ _ _ _ H)].
Qed.

Section Await.
Context (c : PlayerCommand) (n : nat) (Hc : c ≠ COMMAND_NONE).

(** A turn on the way to the answer. *)
Lemma turn_served p t : thread_ok p t → served_as c n p (answered (others t)) →
  ∃ p' t', turn p t = Some (p', t') ∧ thread_ok p' t' ∧ held p p' ∧
    served_as c n p' (answered (others t')) ∧ script t' = tail (script t) ∧
    ∀ b, script t = [] → b ≤ thread_cost →
      live player_protocol Free b n (code t) (λ _ _, False) (settle (at_ p t)) →
      n < answered (others t') ∨
      ∃ b', b' < b ∧ live player_protocol Free b' n (code t') (λ _ _, False) (settle (at_ p' t')).
Proof.
  intros Ht Hs. destruct (turn_ok p t Ht) as (w1 & q & w2 & Hw & Hr & Hg & Ht' & Hl).
  destruct (meanwhile_step (script t) (at_ p t)) as (_ & M1 & M2). rewrite <-Hw in M1, M2.
  destruct (chain_served c n w1 w2 Hc Hg) as [Hs' Hk]; [by rewrite M1, M2|]. rewrite M1 in Hk.
  unfold turn. rewrite <-Hw, Hr. do 2 eexists. do 5 (split; [done|]).
  intros b He Hb Hlive. rewrite Hw, He in Hl. cbn [meanwhile] in Hl.
  destruct (Hl b n Hlive Hb) as [H|H]; [by left|right]. cbn. by destruct w2.
Qed.

Lemma served_answered p n' : served_as c n p n' → n < n' → Player.command p = COMMAND_NONE.
Proof. intros [[-> _]|(_ & H & _)]; [lia|done]. Qed.

Lemma served_owes p t : served_as c n p (answered (others t)) →
  owes player_protocol Free n (at_ p t).
Proof.
  intros [[H Hp]|(H & _)]; [right|by left]. split_and!; [done|by cbn|]. cbn.
  destruct Hp as [->|[_ ->]]; done.
Qed.

(** What the main thread finds when it goes on. *)
Definition answer p p' t' : Prop :=
  thread_ok p' t' ∧ held p p' ∧ Player.command p' = COMMAND_NONE ∧
  served_as c n p' (answered (others t')).

Lemma await_none m p p0 t : thread_ok p t → held p0 p → Player.command p = COMMAND_NONE →
  served_as c n p (answered (others t)) → ∃ p' t', await m p t = Some (p', t') ∧ answer p0 p' t'.
Proof.
  intros Ht Hk Hp Hs. exists p, t. split; [|done]. by destruct m; cbn; rewrite bool_decide_eq_true_2.
Qed.

(** The others are fair: the answer comes nearer with every turn. *)
Lemma await_fair b m p0 p t : thread_ok p t → held p0 p → served_as c n p (answered (others t)) →
  script t = [] → b ≤ thread_cost → b < m →
  live player_protocol Free b n (code t) (λ _ _, False) (settle (at_ p t)) →
  ∃ p' t', await m p t = Some (p', t') ∧ answer p0 p' t'.
Proof.
  revert m p t. induction b as [b IH] using lt_wf_ind. intros m p t Ht Hk Hs He Hb Hm Hl.
  destruct (decide (Player.command p = COMMAND_NONE)) as [Hp|Hp]; [by apply await_none|].
  destruct m as [|m]; [lia|]. cbn [await]. rewrite bool_decide_eq_false_2 by done.
  destruct (turn_served p t Ht Hs) as (p1 & t1 & E1 & Ht1 & Hk1 & Hs1 & He1 & Hl1). rewrite E1.
  pose proof (held_trans _ _ _ Hk Hk1) as Hk2. destruct (Hl1 b He Hb Hl) as [H|(b' & Hb' & H)].
  - apply await_none; [done|done|by eapply served_answered|done].
  - apply (IH b'); [done|done|done|done|by rewrite He1, He|lia|lia|done].
Qed.

Lemma await_ok m p0 p t : thread_ok p t → held p0 p → served_as c n p (answered (others t)) →
  length (script t) + thread_cost < m →
  ∃ p' t', await m p t = Some (p', t') ∧ answer p0 p' t'.
Proof.
  intros Ht Hk Hs Hm. remember (script t) as cs eqn:Hcs. revert m p t Hcs Ht Hk Hs Hm.
  induction cs as [|x cs IH]; intros m p t Hcs Ht Hk Hs Hm.
  { apply (await_fair thread_cost); [done..|exact Hm|]. apply valid_live.
    - apply Ht. apply (player_protocol_laws (cfg:=cfg)).
    - apply (owes_fair player_protocol). by apply served_owes. }
  destruct (decide (Player.command p = COMMAND_NONE)) as [Hp|Hp]; [by apply await_none|].
  cbn [length] in Hm. destruct m as [|m]; [lia|]. cbn [await]. rewrite bool_decide_eq_false_2 by done.
  destruct (turn_served p t Ht Hs) as (p1 & t1 & E1 & Ht1 & Hk1 & Hs1 & He1 & _). rewrite E1.
  apply IH; [by rewrite He1, <-Hcs|done|by eapply held_trans|done|lia].
Qed.

End Await.

(** ** The laws *)

Lemma thread_ok_main p p' t : main_step p p' → thread_ok p t → thread_ok p' t.
Proof.
  intros Hm (Hs & Ha & Hv). assert (Hstep : env_step (at_ p t) (at_ p' t)).
  { by apply (env_main (at_ p t) p'). }
  destruct Hs as [Hst Hok]. split; [split; [done|]|].
  - eapply main_rel_ok; [right; exact Hm|done].
  - split; [done|]. intros w Hw. apply Hv. by eapply rtc_l.
Qed.

Lemma thread_ok_pauses p t l : thread_ok p t →
  thread_ok p (mkThread (code t) (others t) (script t) l).
Proof. done. Qed.

Lemma await_post p0 p t : thread_ok p0 t → post_step p0 p →
  ∃ p' t', await (patience t) p t = Some (p', t') ∧
    answer (Player.command p) (answered (others t)) p p' t'.
Proof.
  intros Ht Hp. apply await_ok.
  - apply Hp.
  - eapply thread_ok_main; [right; exact Hp|done].
  - constructor; [by left|done].
  - left. split; [done|by left].
  - unfold patience. lia.
Qed.

Lemma answer_spec c n p p' t' : c ≠ COMMAND_NONE → answer c n p p' t' →
  Player.command p' = COMMAND_NONE ∧ keeps_next p p' ∧ border_pause p' = border_pause p ∧
  (takes_next c = true → next_song p' = None) ∧
  (c = COMMAND_CLOSE_AUDIO → Player.state p' = STATE_STOP).
Proof.
  intros Hc (_ & [K1 K2] & Hn & [[_ Hb]|(_ & _ & H1 & H2)]); [|done].
  rewrite Hn in Hb. destruct Hb as [Hb|[_ Hb]]; [by rewrite <-Hb in Hc|done].
Qed.

#[export] Instance real_thread_laws : PlayerThreadLaws thread.
Proof.
  split.
  - intros p t p' t' Ht Hc. cbn [drift real_thread].
    destruct (turns_rest (hd 0 (pauses t)) p (mkThread (code t) (others t) (script t) (tail (pauses t)))
      (thread_ok_pauses _ _ _ Ht) Hc) as (p1 & t1 & E & Ht1 & [R1 R2 R3 R4]).
    rewrite E. intros [= <- <-]. by split_and!.
  - intros p0 p t p' t' Ht Hp. cbn [service real_thread].
    destruct (await_post p0 p t Ht Hp) as (p1 & t1 & E & Ha).
    rewrite E. intros [= <- <-]. split; [apply Ha|].
    exact (answer_spec _ _ _ _ _ (proj1 (ps_pending _ _ Hp)) Ha).
  - intros p t p' Ht Hc Hr. eapply thread_ok_main; [left; split; done|done].
  - intros p t ((_ & He & _) & _). exact He.
Qed.

(** ** The beginning *)

(** Everything the thread finds when it starts: the objects as their constructors leave
    them, with a buffer of its own. *)
Definition start_world (g : Z * AudioFormat * Z * Z * Z) (b : SliceBuffer.t) : world :=
  mkWorld (Player.make g) (mkStage (Decoder.make af) None b ∅) Outputs.make [] make_player 0
    false 1 [].

Definition start (g : Z * AudioFormat * Z * Z * Z) (b : SliceBuffer.t) (cs : list (list choice))
    (l : list nat) : thread :=
  mkThread player_task (start_world g b) cs l.

Lemma start_Rest g b : SliceBuffer.make buffer_chunks = Some b → Rest (start_world g b).
Proof.
  intros Hb. split_and!; [|by destruct g as [[[[]]]]|done|done|done|by destruct g as [[[[]]]]|].
  - constructor; [|apply Outputs.make_outs_ok|by intros q [? ?]|done|done].
    constructor; [|done|by intros ? ? ?| |done].
    + constructor; [done|by intros [|]|done].
    + cbn. rewrite pslices_empty. by eapply SliceBuffer.make_holds_nothing.
  - by destruct g as [[[[]]]].
Qed.

Lemma start_ok g b cs l : IsValid af = true → IsDefined uninitialized_format = false →
  SliceBuffer.make buffer_chunks = Some b → thread_ok (Player.make g) (start g b cs l).
Proof.
  intros Haf Hun Hb. pose proof (start_Rest g b Hb) as Hr.
  assert (Hw : at_ (Player.make g) (start g b cs l) = start_world g b) by done.
  pose proof Hr as (R1 & R2 & _). pose proof (co_stage _ _ _ _ R1) as Hs.
  unfold thread_ok. rewrite Hw. split; [by split; [eexists|]|]. split; [cbn; lia|].
  intros w Hst. pose proof (after_company Haf Free _ _ w Hs R2 Hst) as Ha.
  destruct (Rest_after Free _ _ Ha Hr) as [T1 _ _ _ _].
  assert (Hl : locked w = false) by (rewrite (e_locked _ _ _ (af_env _ _ _ _ Ha)); exact eq_refl).
  exact (player_task_ok Haf Hun Free w Hl T1).
Qed.

(** The life of the thread: turns, and steps of the main thread in between. *)
Inductive life (p0 : PlayerControl) (t0 : thread) : PlayerControl → thread → Prop :=
| life_start : life p0 t0 p0 t0
| life_main p p' t : life p0 t0 p t → main_step p p' → life p0 t0 p' t
| life_turn p t p' t' : life p0 t0 p t → turn p t = Some (p', t') → life p0 t0 p' t'.

Lemma life_ok p0 t0 p t : thread_ok p0 t0 → life p0 t0 p t → thread_ok p t.
Proof.
  intros H0. induction 1 as [|p p' t _ IH Hm|p t p' t' _ IH Ht]; [done|by eapply thread_ok_main|].
  destruct (turn_ok p t IH) as (w1 & q & w2 & Hw & Hr & _ & Ht' & _).
  unfold turn in Ht. rewrite <-Hw, Hr in Ht. by injection Ht as <- <-.
Qed.

End Real.
End PlayerReal.
