(* ===== verification/ScriptedPlayer.v ===== *)
(** * A scripted player thread

    The smallest thread that keeps the promises of [PlayerThreadLaws]: what happens
    while the main thread is away, and whether the decoder accepts the next seek, is
    read from a script.  It shows that the laws can be met and lets the witnesses and
    the counterexamples of the playlist run. *)

From Stdlib Require Import ZArith Lia ZifyBool.
From stdpp Require Import base numbers strings list.
From S2P Require Import Prelude AudioFormat Song Prog Player.

Set Default Goal Selector "!".

Module ScriptedPlayer.
Import Player.

(** One entry per absence of the main thread. *)
Inductive tick := Idle | SongBorder | PlaybackEnds.

Record script := mkScript {
  ticks : list tick;
  seeks : list (option (list Z));  (* the decoder's error, if any *)
}.

(** The player stops and drops a pending song. *)
Definition stop (p : PlayerControl) : PlayerControl :=
  set_state STATE_STOP (set_next_song None p).

Definition drift_ (p : PlayerControl) (t : script) : PlayerControl * script :=
  match state p, ticks t with
  | STATE_STOP, _ | _, [] => (p, t)
  | _, Idle :: r => (p, mkScript r (seeks t))
  | _, SongBorder :: r => (set_next_song None p, mkScript r (seeks t))
  | _, PlaybackEnds :: r => (stop p, mkScript r (seeks t))
  end.

Definition serve (p : PlayerControl) (t : script) : PlayerControl * script :=
  match command p with
  | COMMAND_NONE | COMMAND_EXIT | COMMAND_UPDATE_AUDIO | COMMAND_REFRESH => (p, t)
  | COMMAND_STOP | COMMAND_CLOSE_AUDIO => (stop p, t)
  | COMMAND_CANCEL =>
      (match next_song p with None => stop p | Some _ => set_next_song None p end, t)
  | COMMAND_PAUSE =>
      (match state p with
       | STATE_STOP => stop p
       | STATE_PLAY => set_state STATE_PAUSE p
       | STATE_PAUSE => set_state STATE_PLAY p
       end, t)
  | COMMAND_QUEUE =>
      (match state p with
       | STATE_STOP => set_state STATE_PLAY (set_next_song None p)
       | _ => p
       end, t)
  | COMMAND_SEEK =>
      match seeks t with
      | Some e :: r => (set_error ERROR_DECODER (Some e) (stop p), mkScript (ticks t) r)
      | _ => (set_next_song None
                (match state p with STATE_STOP => set_state STATE_PLAY p | _ => p end),
              mkScript (ticks t) (drop 1 (seeks t)))
      end
  end.

#[export] Instance scripted : PlayerThread script := {
  drift := drift_;
  service p t := let '(p, t) := serve p t in (set_command COMMAND_NONE p, t);
  thread_inv p t :=
    (error_type p = ERROR_NONE ↔ error p = None) ∧
    (state p = STATE_STOP → next_song p = None);
}.

#[export] Instance scripted_laws : PlayerThreadLaws script.
Proof.
  split.
  - intros p t p' t' [He Hs] Hc. cbn. unfold drift_, keeps_next.
    destruct (state p) eqn:E, (ticks t) as [|[] r]; intros [= <- <-]; simpl; rewrite ?E; naive_solver.
  - intros p0 p t p' t' [He Hs] [Hc [Hn1 Hn2] Hst Her Hnx]. cbn. unfold serve, keeps_next.
    assert (He' : error_type p = ERROR_NONE ↔ error p = None)
      by (destruct Her as [[-> ->]|[-> ->]]; naive_solver).
    destruct (command p) eqn:Ec; try done; simpl in Hnx;
      destruct (seeks t) as [|[e|] r], (state p) eqn:Es, (next_song p) as [s|] eqn:En;
      intros [= <- <-]; simpl; rewrite ?Es, ?En, ?Ec;
      (split; [split; [first [exact He'|split; discriminate]
                      |intros ?; first [done|rewrite Hnx; apply Hs; congruence]]
              |split; [done|split; [by auto|by repeat split]]]).
  - intros p t p' [He Hs] Hc [_ Hst Hn Her]. cbn. rewrite Hst, Hn. split; [|done].
    destruct Her as [[-> ->]|[-> ->]]; naive_solver.
  - intros p t [He Hs]. done.
Qed.

(** A player at rest that follows the given script. *)
Definition idle_player (t : script) : pworld script :=
  mkPworld (make (0, AudioFormat.Undefined, 0, 0, 0)%Z) t [].

Lemma idle_player_ready t : ready (idle_player t).
Proof. split; [|done]. by split. Qed.

End ScriptedPlayer.
