(* ===== verification/Playlist.v ===== *)
(** * Playlist

    [queue/Playlist.hxx], [queue/Playlist.cxx], [queue/PlaylistControl.cxx],
    [queue/PlaylistEdit.cxx], [queue/PlaylistTag.cxx] and [queue/PlaylistUpdate.cxx]:
    the play queue with its current song, and the song handed to the player in
    advance.  Every method of [struct playlist] is a program on the [world] of the
    playlist, the player and the notifications raised so far. *)

From Stdlib Require Import ZArith Lia ZifyBool.
From stdpp Require Import base numbers strings list.
From S2P Require Import Prelude RandomEngine Queue CString Tag Song Prog Player.

Set Default Goal Selector "!".
Local Open Scope prog_scope.

(** [new DetachedSong]: an address different from those of the live objects. *)
Class Allocator := {
  malloc : list nat → nat;
  malloc_fresh l : malloc l ∉ l;
}.

Module Playlist.
Import Tag Song.

(** The notifications of [QueueListener]. *)
Inductive QueueEvent := OnQueueModified | OnQueueOptionsChanged | OnQueueSongStarted.

(** [struct playlist] *)
Record playlist {G : Type} := mkPlaylist {
  queue : Queue.Queue DetachedSong G;
  playing : bool;
  stop_on_error : bool;
  bulk_edit : bool;
  bulk_modified : bool;
  error_count : Z;
  current : Z;
  queued : Z;
}.
Arguments playlist : clear implicits.
Arguments mkPlaylist {G} _ _ _ _ _ _ _ _.

Record world {G T : Type} := mkWorld {
  pl : playlist G;
  player : Player.pworld T;
  events : list QueueEvent;
}.
Arguments world : clear implicits.
Arguments mkWorld {G T} _ _ _.

(** The constructor leaves [stop_on_error], [bulk_modified] and [error_count]
    uninitialised. *)
Definition make {G} (max_length : nat) (garbage : bool * bool * Z) : playlist G :=
  let '(stop_on_error, bulk_modified, error_count) := garbage in
  mkPlaylist (Queue.make max_length) false stop_on_error false bulk_modified error_count (-1) (-1).

(** A null or valid pointer to a song of the queue. *)
Definition song_ptr : Type := option nat.

Section Methods.
Context {G T : Type} `{!RandomEngine G} {HPT : Player.PlayerThread T} {HAL : Allocator}.
#[local] Abbreviation M := (prog (world G T)).
#[local] Abbreviation Queue := (Queue.Queue DetachedSong G).

(** ** State access *)

Definition upd_pl (f : playlist G → playlist G) : M unit :=
  modify (λ w, mkWorld (f (pl w)) (player w) (events w)).
Definition read_pl : M (playlist G) := w <- get ;; ret (pl w).

Definition put_queue (q : Queue) (p : playlist G) : playlist G :=
  mkPlaylist q (playing p) (stop_on_error p) (bulk_edit p) (bulk_modified p) (error_count p)
    (current p) (queued p).
Definition put_playing (b : bool) (p : playlist G) : playlist G :=
  mkPlaylist (queue p) b (stop_on_error p) (bulk_edit p) (bulk_modified p) (error_count p)
    (current p) (queued p).
Definition put_stop_on_error (b : bool) (p : playlist G) : playlist G :=
  mkPlaylist (queue p) (playing p) b (bulk_edit p) (bulk_modified p) (error_count p)
    (current p) (queued p).
Definition put_bulk (e m : bool) (p : playlist G) : playlist G :=
  mkPlaylist (queue p) (playing p) (stop_on_error p) e m (error_count p) (current p) (queued p).
Definition put_error_count (n : Z) (p : playlist G) : playlist G :=
  mkPlaylist (queue p) (playing p) (stop_on_error p) (bulk_edit p) (bulk_modified p) n
    (current p) (queued p).
Definition put_current (c : Z) (p : playlist G) : playlist G :=
  mkPlaylist (queue p) (playing p) (stop_on_error p) (bulk_edit p) (bulk_modified p)
    (error_count p) c (queued p).
Definition put_queued (c : Z) (p : playlist G) : playlist G :=
  mkPlaylist (queue p) (playing p) (stop_on_error p) (bulk_edit p) (bulk_modified p)
    (error_count p) (current p) c.

Definition set_current (c : Z) : M unit := upd_pl (put_current c).
Definition set_queued (c : Z) : M unit := upd_pl (put_queued c).
Definition set_playing (b : bool) : M unit := upd_pl (put_playing b).

Definition notify (e : QueueEvent) : M unit :=
  modify (λ w, mkWorld (pl w) (player w) (events w ++ [e])).

(** A method of the player control. *)
Definition on_player {A} (m : prog (Player.pworld T) A) : M A :=
  zoom player (λ v w, mkWorld (pl w) v (events w)) m.

(** An operation of the queue that returns the new queue, and a query. *)
Definition qdo (f : Queue → option Queue) : M unit :=
  p <- read_pl ;;
  q <- lift (f (queue p)) ;;
  upd_pl (put_queue q).
Definition qask {A} (f : Queue → option A) : M A :=
  p <- read_pl ;;
  lift (f (queue p)).

(** An [int] used as an order number or a position. *)
Definition to_unsigned (z : Z) : option nat := if (0 <=? z)%Z then Some (Z.to_nat z) else None.

Definition OrderToPosition (o : Z) (q : Queue) : option nat :=
  (o ← to_unsigned o; Queue.OrderToPosition q o)%stdpp.
Definition GetOrder (o : Z) (q : Queue) : option (Queue.Item DetachedSong) :=
  (o ← to_unsigned o; Queue.GetOrder q o)%stdpp.
Definition GetNextOrder (o : Z) (q : Queue) : option Z :=
  (o ← to_unsigned o; Queue.GetNextOrder q o)%stdpp.

(** Modifying the song object of the item at [position] in place. *)
Definition upd_song (position : nat) (f : DetachedSong → DetachedSong) (q : Queue)
    : option Queue :=
  (it ← Queue.Get q position;
   Queue.write_item position (Queue.with_song it (f (Queue.song_data it))) q)%stdpp.

(** ** PlaylistEdit.cxx: notification *)

Definition OnModified : M unit :=
  p <- read_pl ;;
  if bulk_edit p then upd_pl (put_bulk true true)
  else
    qdo Queue.IncrementVersion ;;
    notify OnQueueModified.

(** ** Playlist.cxx *)

Definition TagModified (song : DetachedSong) : M unit :=
  p <- read_pl ;;
  if negb (playing p) then ret tt
  else
    assert_ (0 <=? current p)%Z ;;
    it <- qask (GetOrder (current p)) ;;
    position <- qask (OrderToPosition (current p)) ;;
    (if IsSame song (Queue.song_data it)
     then qdo (upd_song position (λ s, (MoveTagItemsFrom s song).1))
     else ret tt) ;;
    o <- lift (to_unsigned (current p)) ;;
    qdo (Queue.ModifyAtOrder o) ;;
    OnModified.

Definition QueueSongOrder (order : nat) : M unit :=
  p <- read_pl ;;
  assert_ (Queue.IsValidOrder (queue p) order) ;;
  set_queued (Z.of_nat order) ;;
  it <- qask (λ q, Queue.GetOrder q order) ;;
  on_player (Player.LockEnqueueSong (Queue.song_data it)).

Definition SongStarted : M unit :=
  p <- read_pl ;;
  assert_ (0 <=? current p)%Z ;;
  position <- qask (OrderToPosition (current p)) ;;
  r <- lift (Queue.SetPriority position 0 (-1) false (queue p)) ;;
  upd_pl (put_queue r.2) ;;
  if (r.1 : bool) then OnModified else ret tt.

Definition GetQueuedSong : M song_ptr :=
  p <- read_pl ;;
  if playing p && (0 <=? queued p)%Z then
    it <- qask (GetOrder (queued p)) ;;
    ret (Some (Queue.song it))
  else ret None.

(** The reshuffle at the start of a new round in random mode; [current] keeps
    pointing to the same song. *)
Definition Reshuffle : M unit :=
  p <- read_pl ;;
  current_position <- qask (OrderToPosition (current p)) ;;
  qdo Queue.ShuffleOrder ;;
  o <- qask (λ q, Queue.PositionToOrder q current_position) ;;
  set_current (Z.of_nat o).

Definition UpdateQueuedSong (prev : song_ptr) : M unit :=
  p <- read_pl ;;
  if negb (playing p) then ret tt
  else if Player.is_null prev && bulk_edit p then ret tt
  else
    assert_ (negb (Queue.IsEmpty (queue p))) ;;
    assert_ (eqb (queued p <? 0)%Z (Player.is_null prev)) ;;
    next_order <- (if (0 <=? current p)%Z then qask (GetNextOrder (current p)) else ret 0%Z) ;;
    (if (next_order =? 0)%Z && Queue.random (queue p) && negb (Queue.single (queue p))
     then Reshuffle else ret tt) ;;
    next_song <- (if (0 <=? next_order)%Z
                  then it <- qask (GetOrder next_order) ;; ret (Some (Queue.song it))
                  else ret None) ;;
    let differs := negb (bool_decide (next_song = prev)) in
    (if negb (Player.is_null prev) && differs then
       on_player Player.LockCancel ;;
       set_queued (-1)
     else ret tt) ;;
    if (0 <=? next_order)%Z then
      if differs then QueueSongOrder (Z.to_nat next_order)
      else set_queued next_order
    else ret tt.

Definition PlayOrder (order : nat) : M unit :=
  set_playing true ;;
  set_queued (-1) ;;
  it <- qask (λ q, Queue.GetOrder q order) ;;
  set_current (Z.of_nat order) ;;
  on_player (Player.Play (Queue.song_data it)) ;;
  SongStarted.

(** ** PlaylistControl.cxx: Stop *)

Definition Stop : M unit :=
  p <- read_pl ;;
  if negb (playing p) then ret tt
  else
    assert_ (0 <=? current p)%Z ;;
    on_player Player.LockStop ;;
    set_queued (-1) ;;
    set_playing false ;;
    if Queue.random (queue p) then Reshuffle else ret tt.

(** ** PlaylistEdit.cxx: deletion *)

(** [DeleteInternal]; returns the new value of [*queued_p]. *)
Definition DeleteInternal (song : nat) (queued_p : song_ptr) : M song_ptr :=
  p <- read_pl ;;
  len <- qask Queue.GetLength ;;
  assert_ (song <? len)%nat ;;
  songOrder <- qask (λ q, Queue.PositionToOrder q song) ;;
  queued_p <-
    (if playing p && (current p =? Z.of_nat songOrder)%Z then
       s <- on_player Player.GetState ;;
       let paused := bool_decide (s = Player.STATE_PAUSE) in
       next <- qask (GetNextOrder (current p)) ;;
       let next := if (next =? Z.of_nat songOrder)%Z then (-1)%Z else next in
       set_current next ;;
       (if (0 <=? next)%Z && negb paused then
          try_catch (PlayOrder (Z.to_nat next)) (λ _, ret tt)
        else
          on_player Player.LockStop ;;
          set_playing false) ;;
       ret None
     else if (current p =? Z.of_nat songOrder)%Z then
       set_current (-1) ;;
       ret queued_p
     else ret queued_p) ;;
  qdo (Queue.DeletePosition song) ;;
  p <- read_pl ;;
  (if (Z.of_nat songOrder <? current p)%Z then set_current (current p - 1) else ret tt) ;;
  ret queued_p.

Definition DeletePosition (song : nat) : M unit :=
  len <- qask Queue.GetLength ;;
  if (len <=? song)%nat then throw (PlaylistError BAD_RANGE)
  else
    queued_song <- GetQueuedSong ;;
    queued_song <- DeleteInternal song queued_song ;;
    UpdateQueuedSong queued_song ;;
    OnModified.

Definition DeleteOrder (order : Z) : M unit :=
  position <- qask (OrderToPosition order) ;;
  DeletePosition position.

(** The loop [do DeleteInternal(--end) while (end != start)]. *)
Fixpoint DeleteRange_loop (n end_ : nat) (queued_p : song_ptr) : M song_ptr :=
  match n with
  | O => ret queued_p
  | S n =>
      queued_p <- DeleteInternal (end_ - 1) queued_p ;;
      DeleteRange_loop n (end_ - 1) queued_p
  end.

Definition DeleteRange (start end_ : nat) : M unit :=
  len <- qask Queue.GetLength ;;
  if (len <=? start)%nat then throw (PlaylistError BAD_RANGE)
  else
    let end_ := if (len <? end_)%nat then len else end_ in
    if (end_ <=? start)%nat then ret tt
    else
      queued_song <- GetQueuedSong ;;
      queued_song <- DeleteRange_loop (end_ - start) end_ queued_song ;;
      UpdateQueuedSong queued_song ;;
      OnModified.

(** ** Playlist.cxx: synchronisation with the player *)

Definition QueuedSongStarted : M unit :=
  on_player (Player.Lock ;; Player.assert_no_next) ;;
  p <- read_pl ;;
  assert_ (-1 <=? queued p)%Z ;;
  assert_ (0 <=? current p)%Z ;;
  let old_current := current p in
  set_current (queued p) ;;
  set_queued (-1) ;;
  (if Queue.consume (queue p) then DeleteOrder old_current else ret tt) ;;
  notify OnQueueSongStarted ;;
  SongStarted.

(** ** PlaylistControl.cxx *)

Definition PlayNext : M unit :=
  p <- read_pl ;;
  if negb (playing p) then throw (PlaylistError NOT_PLAYING)
  else
    assert_ (negb (Queue.IsEmpty (queue p))) ;;
    o <- lift (to_unsigned (current p)) ;;
    assert_ (Queue.IsValidOrder (queue p) o) ;;
    let old_current := current p in
    upd_pl (put_stop_on_error false) ;;
    next_order <- qask (GetNextOrder (current p)) ;;
    (if (next_order <? 0)%Z then
       Stop ;;
       set_current (-1)
     else
       (if (next_order =? 0)%Z && Queue.random (queue p) then
          assert_ (Queue.repeat (queue p)) ;;
          qdo Queue.ShuffleOrder
        else ret tt) ;;
       PlayOrder (Z.to_nat next_order)) ;;
    p <- read_pl ;;
    if Queue.consume (queue p) then DeleteOrder old_current else ret tt.

Definition PlayPosition (song : Z) : M unit :=
  on_player Player.LockClearError ;;
  p <- read_pl ;;
  let go (i : Z) : M unit :=
    p <- read_pl ;;
    i <- (if Queue.random (queue p) then
            i <- (if (0 <=? song)%Z
                  then o <- qask (λ q, Queue.PositionToOrder q (Z.to_nat song)) ;; ret (Z.of_nat o)
                  else ret i) ;;
            (if negb (playing p) then set_current 0 else ret tt) ;;
            p <- read_pl ;;
            o1 <- lift (to_unsigned i) ;;
            o2 <- lift (to_unsigned (current p)) ;;
            qdo (Queue.SwapOrders o1 o2) ;;
            ret (current p)
          else ret i) ;;
    upd_pl (put_stop_on_error false) ;;
    upd_pl (put_error_count 0) ;;
    o <- lift (to_unsigned i) ;;
    PlayOrder o in
  if (song =? -1)%Z then
    if Queue.IsEmpty (queue p) then ret tt
    else if playing p then on_player (Player.LockSetPause false)
    else go (if (0 <=? current p)%Z then current p else 0%Z)
  else if negb ((0 <=? song)%Z && Queue.IsValidPosition (queue p) (Z.to_nat song)) then
    throw (PlaylistError BAD_RANGE)
  else go song.

Definition PlayId (id : Z) : M unit :=
  if (id =? -1)%Z then PlayPosition id
  else
    song <- qask (λ q, Queue.IdToPosition q (Z.to_nat id)) ;;
    if (id <? 0)%Z || (song <? 0)%Z then throw (PlaylistError NO_SUCH_SONG)
    else PlayPosition song.

Definition PlayPrevious : M unit :=
  p <- read_pl ;;
  if negb (playing p) then throw (PlaylistError NOT_PLAYING)
  else
    assert_ (negb (Queue.IsEmpty (queue p))) ;;
    len <- qask Queue.GetLength ;;
    let order := if (0 <? current p)%Z then (current p - 1)%Z
                 else if Queue.repeat (queue p) then (Z.of_nat len - 1)%Z
                 else current p in
    o <- lift (to_unsigned order) ;;
    PlayOrder o.

Definition SeekSongOrder (i : nat) (seek_time : Z) : M unit :=
  p <- read_pl ;;
  assert_ (Queue.IsValidOrder (queue p) i) ;;
  queued_song <- GetQueuedSong ;;
  on_player Player.LockClearError ;;
  upd_pl (put_stop_on_error true) ;;
  upd_pl (put_error_count 0) ;;
  queued_song <-
    (if negb (playing p) || negb (current p =? Z.of_nat i)%Z then
       set_playing true ;;
       set_current (Z.of_nat i) ;;
       ret None
     else ret queued_song) ;;
  set_queued (-1) ;;
  it <- qask (λ q, Queue.GetOrder q i) ;;
  try_catch (on_player (Player.LockSeek (Queue.song_data it) seek_time))
    (λ e, UpdateQueuedSong queued_song ;; throw e) ;;
  UpdateQueuedSong None.

Definition SeekSongPosition (song : nat) (seek_time : Z) : M unit :=
  p <- read_pl ;;
  if negb (Queue.IsValidPosition (queue p) song) then throw (PlaylistError BAD_RANGE)
  else
    i <- (if Queue.random (queue p) then qask (λ q, Queue.PositionToOrder q song)
          else ret song) ;;
    SeekSongOrder i seek_time.

Definition SeekSongId (id : nat) (seek_time : Z) : M unit :=
  song <- qask (λ q, Queue.IdToPosition q id) ;;
  if (song <? 0)%Z then throw (PlaylistError NO_SUCH_SONG)
  else SeekSongPosition (Z.to_nat song) seek_time.

Definition SeekCurrent (seek_time : Z) (relative : bool) : M unit :=
  p <- read_pl ;;
  if negb (playing p) then throw (PlaylistError NOT_PLAYING)
  else
    seek_time <-
      (if relative then
         status <- on_player Player.LockGetStatus ;;
         match Player.status_detail status with
         | None => throw (PlaylistError NOT_PLAYING)
         | Some (_, _, _, elapsed_time) =>
             let t := s32 (seek_time + s32 elapsed_time) in
             ret (if IsNegative t then 0%Z else t)
         end
       else ret seek_time) ;;
    let seek_time := if IsNegative seek_time then 0%Z else seek_time in
    o <- lift (to_unsigned (current p)) ;;
    SeekSongOrder o (SongTime_of seek_time).

(** ** Playlist.cxx: events and options *)

Definition ResumePlayback : M unit :=
  p <- read_pl ;;
  assert_ (playing p) ;;
  s <- on_player Player.GetState ;;
  assert_ (bool_decide (s = Player.STATE_STOP)) ;;
  error <- on_player Player.GetErrorType ;;
  let none := bool_decide (error = Player.ERROR_NONE) in
  upd_pl (λ p, put_error_count (if none then 0 else u32 (error_count p + 1)) p)%Z ;;
  p <- read_pl ;;
  len <- qask Queue.GetLength ;;
  if (stop_on_error p && negb none) || bool_decide (error = Player.ERROR_OUTPUT)
     || (Z.of_nat len <=? error_count p)%Z
  then Stop
  else try_catch PlayNext (λ _, ret tt).

Definition SyncWithPlayer : M unit :=
  p <- read_pl ;;
  if negb (playing p) then ret tt
  else
    r <- on_player Player.LockRead ;;
    if bool_decide (r.1 = Player.STATE_STOP) then ResumePlayback
    else
      (if Player.is_null r.2 && negb (queued p =? -1)%Z then QueuedSongStarted else ret tt) ;;
      r <- on_player Player.LockRead ;;
      p <- read_pl ;;
      if Player.is_null r.2 && (queued p <? 0)%Z then UpdateQueuedSong None else ret tt.

Definition SetRepeat (status : bool) : M unit :=
  p <- read_pl ;;
  if eqb status (Queue.repeat (queue p)) then ret tt
  else
    qdo (λ q, Some (Queue.set_repeat q status)) ;;
    p <- read_pl ;;
    on_player (Player.LockSetBorderPause
      (Queue.single (queue p) && negb (Queue.repeat (queue p)))) ;;
    prev <- GetQueuedSong ;;
    UpdateQueuedSong prev ;;
    notify OnQueueOptionsChanged.

Definition playlist_order : M unit :=
  p <- read_pl ;;
  (if (0 <=? current p)%Z then
     position <- qask (OrderToPosition (current p)) ;;
     set_current (Z.of_nat position)
   else ret tt) ;;
  qdo Queue.RestoreOrder.

Definition SetSingle (status : bool) : M unit :=
  p <- read_pl ;;
  if eqb status (Queue.single (queue p)) then ret tt
  else
    qdo (λ q, Some (Queue.set_single q status)) ;;
    p <- read_pl ;;
    on_player (Player.LockSetBorderPause
      (Queue.single (queue p) && negb (Queue.repeat (queue p)))) ;;
    prev <- GetQueuedSong ;;
    UpdateQueuedSong prev ;;
    notify OnQueueOptionsChanged.

Definition SetConsume (status : bool) : M unit :=
  p <- read_pl ;;
  if eqb status (Queue.consume (queue p)) then ret tt
  else
    qdo (λ q, Some (Queue.set_consume q status)) ;;
    notify OnQueueOptionsChanged.

Definition GetCurrentPosition : M Z :=
  p <- read_pl ;;
  if (0 <=? current p)%Z then
    position <- qask (OrderToPosition (current p)) ;;
    ret (Z.of_nat position)
  else ret (-1)%Z.

Definition SetRandom (status : bool) : M unit :=
  p <- read_pl ;;
  if eqb status (Queue.random (queue p)) then ret tt
  else
    queued_song <- GetQueuedSong ;;
    qdo (λ q, Some (Queue.set_random q status)) ;;
    (if status then
       current_position <- (if playing p then GetCurrentPosition else ret (-1)%Z) ;;
       qdo Queue.ShuffleOrder ;;
       if (0 <=? current_position)%Z then
         current_order <- qask (λ q, Queue.PositionToOrder q (Z.to_nat current_position)) ;;
         qdo (Queue.SwapOrders 0 current_order) ;;
         set_current 0
       else set_current (-1)
     else playlist_order) ;;
    UpdateQueuedSong queued_song ;;
    notify OnQueueOptionsChanged.

Definition GetNextPosition : M Z :=
  p <- read_pl ;;
  let q := queue p in
  if (current p <? 0)%Z then ret (-1)%Z
  else
    let at_order (o : Z) : M Z := position <- qask (OrderToPosition o) ;; ret (Z.of_nat position) in
    if Queue.single q && Queue.repeat q then at_order (current p)
    else if Queue.IsValidOrder q (Z.to_nat (current p + 1)) then at_order (current p + 1)%Z
    else if Queue.repeat q then at_order 0%Z
    else ret (-1)%Z.

(** ** PlaylistEdit.cxx *)

Definition Clear : M unit :=
  Stop ;;
  qdo Queue.Clear ;;
  set_current (-1) ;;
  OnModified.

Definition BeginBulk : M unit :=
  p <- read_pl ;;
  assert_ (negb (bulk_edit p)) ;;
  upd_pl (put_bulk true false).

Definition CommitBulk : M unit :=
  p <- read_pl ;;
  assert_ (bulk_edit p) ;;
  upd_pl (λ p, put_bulk false (bulk_modified p) p) ;;
  if negb (bulk_modified p) then ret tt
  else
    (if (queued p <? 0)%Z then UpdateQueuedSong None else ret tt) ;;
    OnModified.

Definition live_songs (q : Queue) : list nat :=
  omap (λ o, Queue.song <$> o) (take (Queue.length q) (Queue.items q)).

Definition AppendSong (song : DetachedSong) : M nat :=
  full <- qask Queue.IsFull ;;
  if (full : bool) then throw (PlaylistError TOO_LARGE)
  else
    queued_song <- GetQueuedSong ;;
    p <- read_pl ;;
    r <- lift (Queue.Append (malloc (live_songs (queue p))) song 0 (queue p)) ;;
    upd_pl (put_queue r.2) ;;
    p <- read_pl ;;
    len <- qask Queue.GetLength ;;
    (if Queue.random (queue p) then
       let start := if (0 <=? queued p)%Z then (queued p + 1)%Z else (current p + 1)%Z in
       if (start <? Z.of_nat len)%Z
       then qdo (Queue.ShuffleOrderLast (Z.to_nat start) len)
       else ret tt
     else ret tt) ;;
    UpdateQueuedSong queued_song ;;
    OnModified ;;
    ret r.1.

(** [AppendURI]: the song loader is an argument. *)
Definition AppendURI (LoadSong : list Z → exn + DetachedSong) (uri : list Z) : M nat :=
  match LoadSong uri with
  | inl e => throw e
  | inr song => AppendSong song
  end.

Definition SwapPositions (song1 song2 : nat) : M unit :=
  p <- read_pl ;;
  if negb (Queue.IsValidPosition (queue p) song1) || negb (Queue.IsValidPosition (queue p) song2)
  then throw (PlaylistError BAD_RANGE)
  else
    queued_song <- GetQueuedSong ;;
    qdo (Queue.SwapPositions song1 song2) ;;
    (if Queue.random (queue p) then
       o1 <- qask (λ q, Queue.PositionToOrder q song1) ;;
       o2 <- qask (λ q, Queue.PositionToOrder q song2) ;;
       qdo (Queue.SwapOrders o1 o2)
     else if (current p =? Z.of_nat song1)%Z then set_current (Z.of_nat song2)
     else if (current p =? Z.of_nat song2)%Z then set_current (Z.of_nat song1)
     else ret tt) ;;
    UpdateQueuedSong queued_song ;;
    OnModified.

Definition SwapIds (id1 id2 : nat) : M unit :=
  song1 <- qask (λ q, Queue.IdToPosition q id1) ;;
  song2 <- qask (λ q, Queue.IdToPosition q id2) ;;
  if (song1 <? 0)%Z || (song2 <? 0)%Z then throw (PlaylistError NO_SUCH_SONG)
  else SwapPositions (Z.to_nat song1) (Z.to_nat song2).

Definition SetPriorityRange (start end_ : nat) (priority : Z) : M unit :=
  len <- qask Queue.GetLength ;;
  if (len <=? start)%nat then throw (PlaylistError BAD_RANGE)
  else
    let end_ := if (len <? end_)%nat then len else end_ in
    if (end_ <=? start)%nat then ret tt
    else
      current_position <- GetCurrentPosition ;;
      queued_song <- GetQueuedSong ;;
      p <- read_pl ;;
      r <- lift (Queue.SetPriorityRange start end_ priority (current p) (queue p)) ;;
      upd_pl (put_queue r.2) ;;
      (if (0 <=? current_position)%Z then
         o <- qask (λ q, Queue.PositionToOrder q (Z.to_nat current_position)) ;;
         set_current (Z.of_nat o)
       else ret tt) ;;
      UpdateQueuedSong queued_song ;;
      OnModified.

Definition SetPriorityId (song_id : nat) (priority : Z) : M unit :=
  song_position <- qask (λ q, Queue.IdToPosition q song_id) ;;
  if (song_position <? 0)%Z then throw (PlaylistError NO_SUCH_SONG)
  else SetPriorityRange (Z.to_nat song_position) (Z.to_nat song_position + 1) priority.

Definition DeleteId (id : nat) : M unit :=
  song <- qask (λ q, Queue.IdToPosition q id) ;;
  if (song <? 0)%Z then throw (PlaylistError NO_SUCH_SONG)
  else DeletePosition (Z.to_nat song).

Definition StaleSong (uri : list Z) : M unit :=
  p <- read_pl ;;
  current_position <- (if playing p then GetCurrentPosition else ret (-1)%Z) ;;
  len <- qask Queue.GetLength ;;
  down_loop len (λ i,
    if negb (Z.of_nat i =? current_position)%Z then
      it <- qask (λ q, Queue.Get q i) ;;
      if IsURI (Queue.song_data it) uri then DeletePosition i else ret tt
    else ret tt).

(** [MoveRange]: [start] and [end_] are [unsigned], [to] is an [int]. *)
Definition MoveRange (start end_ : nat) (to : Z) : M unit :=
  p <- read_pl ;;
  len <- qask Queue.GetLength ;;
  let len := Z.of_nat len in
  if negb (Queue.IsValidPosition (queue p) start)
     || negb (u32 (Z.of_nat end_ - 1) <? len)%Z
  then throw (PlaylistError BAD_RANGE)
  else if ((0 <=? to) && (len <=? u32 (to + Z.of_nat end_ - Z.of_nat start - 1)))%Z
          || ((to <? 0) && (len <? Z.abs to))%Z
  then throw (PlaylistError BAD_RANGE)
  else if (Z.of_nat start =? to)%Z then ret tt
  else
    queued_song <- GetQueuedSong ;;
    currentSong <- GetCurrentPosition ;;
    let finish (to : Z) : M unit :=
      t <- lift (to_unsigned to) ;;
      qdo (Queue.MoveRange start end_ t) ;;
      p <- read_pl ;;
      (if negb (Queue.random (queue p)) then
         if ((Z.of_nat start <=? current p) && (current p <? Z.of_nat end_))%Z
         then set_current (current p + to - Z.of_nat start)
         else if ((Z.of_nat end_ <=? current p) && (current p <=? to))%Z
         then set_current (current p - (Z.of_nat end_ - Z.of_nat start))
         else if ((to <=? current p) && (current p <? Z.of_nat start))%Z
         then set_current (current p + (Z.of_nat end_ - Z.of_nat start))
         else ret tt
       else ret tt) ;;
      UpdateQueuedSong queued_song ;;
      OnModified in
    if (to <? 0)%Z then
      if (currentSong <? 0)%Z then throw (PlaylistError BAD_RANGE)
      else if ((Z.of_nat start <=? currentSong) && (currentSong <? Z.of_nat end_))%Z
      then ret tt
      else
        let to := ((currentSong + Z.abs to) mod len)%Z in
        finish (if (Z.of_nat start <? to)%Z then to - 1 else to)%Z
    else finish to.

Definition MoveId (id : nat) (to : Z) : M unit :=
  song <- qask (λ q, Queue.IdToPosition q id) ;;
  if (song <? 0)%Z then throw (PlaylistError NO_SUCH_SONG)
  else MoveRange (Z.to_nat song) (Z.to_nat song + 1) to.

Definition Shuffle (start end_ : nat) : M unit :=
  len <- qask Queue.GetLength ;;
  let end_ := if (len <? end_)%nat then len else end_ in
  if (Z.of_nat end_ <=? u32 (Z.of_nat start + 1))%Z then ret tt
  else
    queued_song <- GetQueuedSong ;;
    p <- read_pl ;;
    start <-
      (if playing p && (0 <=? current p)%Z then
         current_position <- qask (OrderToPosition (current p)) ;;
         if (start <=? current_position)%nat && (current_position <? end_)%nat then
           qdo (Queue.SwapPositions start current_position) ;;
           (if Queue.random (queue p) then
              o <- qask (λ q, Queue.PositionToOrder q start) ;;
              set_current (Z.of_nat o)
            else set_current (Z.of_nat start)) ;;
           ret (start + 1)%nat
         else ret start
       else
         set_current (-1) ;;
         ret start) ;;
    qdo (Queue.ShuffleRange start end_) ;;
    UpdateQueuedSong queued_song ;;
    OnModified.

Definition SetSongIdRange (id : nat) (start end_ : Z) : M unit :=
  assert_ ((end_ =? 0) || (start <? end_))%Z ;;
  position <- qask (λ q, Queue.IdToPosition q id) ;;
  if (position <? 0)%Z then throw (PlaylistError NO_SUCH_SONG)
  else
    p <- read_pl ;;
    (if playing p then
       if (position =? current p)%Z then throw (PlaylistError DENIED)
       else if (position =? queued p)%Z then
         on_player Player.LockCancel ;;
         set_queued (-1)
       else ret tt
     else ret tt) ;;
    it <- qask (λ q, Queue.Get q (Z.to_nat position)) ;;
    let d := duration (GetTag (Queue.song_data it)) in
    if negb (IsNegative d) && (d <? start)%Z then throw (PlaylistError BAD_RANGE)
    else
      let end_ := if negb (IsNegative d) && (d <=? end_)%Z then 0%Z else end_ in
      qdo (upd_song (Z.to_nat position) (λ s, SetEndTime end_ (SetStartTime start s))) ;;
      UpdateQueuedSong None ;;
      qdo (Queue.ModifyAtPosition (Z.to_nat position)) ;;
      OnModified.

(** ** PlaylistTag.cxx *)

(** The common frame of the two tag editors. *)
Definition edit_tag (id : nat) (edit : TagBuilder.TagBuilder → option TagBuilder.TagBuilder)
    : M unit :=
  position <- qask (λ q, Queue.IdToPosition q id) ;;
  if (position <? 0)%Z then throw (PlaylistError NO_SUCH_SONG)
  else
    it <- qask (λ q, Queue.Get q (Z.to_nat position)) ;;
    if IsFile (Queue.song_data it) then throw (PlaylistError DENIED)
    else
      b <- lift (edit (TagBuilder.of_tag (tag (Queue.song_data it)))) ;;
      qdo (upd_song (Z.to_nat position) (SetTag (TagBuilder.Commit b).1)) ;;
      qdo (Queue.ModifyAtPosition (Z.to_nat position)) ;;
      OnModified.

Definition AddSongIdTag (global_tag_mask : Z) (id : nat) (tag_type : TagType) (value : list Z)
    : M unit :=
  edit_tag id (TagBuilder.AddItem global_tag_mask tag_type value).

Definition ClearSongIdTag (id : nat) (tag_type : TagType) : M unit :=
  edit_tag id (λ b, Some (
    if decide (tag_type = TAG_NUM_OF_ITEM_TYPES) then TagBuilder.RemoveAll b
    else TagBuilder.RemoveType tag_type b)).

(** ** PlaylistUpdate.cxx *)

(** [db.GetSong(uri)]: the modification time and tag, or nothing when the song is
    unknown or the lookup throws. *)
Definition UpdatePlaylistSong (GetSong : list Z → option (Z * Tag)) (song : DetachedSong)
    : option DetachedSong :=
  if negb (IsInDatabase song) || negb (IsFile song) then None
  else match GetSong (GetURI song) with
       | None => None
       | Some (mtime, t) =>
           if (mtime =? GetLastModified song)%Z then None
           else Some (SetTag t (SetLastModified mtime song))
       end.

Fixpoint DatabaseModified_loop (GetSong : list Z → option (Z * Tag)) (n i : nat)
    (modified : bool) : M bool :=
  match n with
  | O => ret modified
  | S n =>
      it <- qask (λ q, Queue.Get q i) ;;
      match UpdatePlaylistSong GetSong (Queue.song_data it) with
      | Some s =>
          qdo (upd_song i (λ _, s)) ;;
          qdo (Queue.ModifyAtPosition i) ;;
          DatabaseModified_loop GetSong n (S i) true
      | None => DatabaseModified_loop GetSong n (S i) modified
      end
  end.

Definition DatabaseModified (GetSong : list Z → option (Z * Tag)) : M unit :=
  n <- qask Queue.GetLength ;;
  modified <- DatabaseModified_loop GetSong n 0 false ;;
  if (modified : bool) then OnModified else ret tt.

End Methods.

End Playlist.
