(* ===== verification/PlaylistFacts.v ===== *)
(** * Playlist invariant

    [inv its w]: the queue of the playlist represents the items [its], the current
    and the queued order number are in range, the player is at rest, and the song the
    player holds in advance is the one the playlist believes to be queued.  The
    building blocks of the methods are shown to run without a failed assertion and to
    re-establish it. *)

From Stdlib Require Import ZArith Lia ZifyBool.
From stdpp Require Import base numbers sets list.
From S2P Require Import Prelude IdTable RandomEngine Queue QueueFacts QueueEdit QueueOrder QueuePriority.
From S2P Require Import CString Tag Song Prog Player Playlist.

Set Default Goal Selector "!".

Ltac pl_simpl :=
  cbn [Playlist.pl Playlist.player Playlist.events Playlist.queue Playlist.playing
       Playlist.stop_on_error Playlist.bulk_edit Playlist.bulk_modified Playlist.error_count
       Playlist.current Playlist.queued Playlist.put_queue Playlist.put_playing
       Playlist.put_stop_on_error Playlist.put_bulk Playlist.put_error_count
       Playlist.put_current Playlist.put_queued] in *.

Module PlaylistFacts.
Import Playlist.
Import QueueFacts QueueEdit QueueOrder QueuePriority.

#[local] Abbreviation llen := List.length.
#[local] Abbreviation Item := (Queue.Item Song.DetachedSong).

Section Facts.
Context {G T : Type} `{!RandomEngine G, !RandomEngineLaws G}.
Context {HPT : Player.PlayerThread T} {HPL : Player.PlayerThreadLaws T} {HAL : Allocator}.
Implicit Types (w : world G T) (its : list Item) (it : Item).
Implicit Types q : Queue.Queue Song.DetachedSong G.

#[local] Abbreviation q_of w := (queue (pl w)).
#[local] Abbreviation next_of w := (Player.next_song (Player.pc (player w))).
#[local] Abbreviation len_of w := (Queue.length (queue (pl w))).

(** The item with a given order number. *)
Definition order_item w its (o : Z) : option Item :=
  if (0 <=? o)%Z then (ord (q_of w) !! Z.to_nat o) ≫= λ p, its !! p else None.

(** The position of the current song, if there is one. *)
Definition cur_pos w : option nat :=
  if (0 <=? current (pl w))%Z then ord (q_of w) !! Z.to_nat (current (pl w)) else None.

Record core its w : Prop := {
  c_repr : repr (q_of w) its;
  c_plain : plain_order (q_of w);
  c_ready : Player.ready (player w);
  c_current : (-1 ≤ current (pl w) < Z.of_nat (len_of w))%Z;
  c_queued : (-1 ≤ queued (pl w))%Z;
  c_playing : playing (pl w) = true → (0 ≤ current (pl w))%Z;
}.

(** [prev] is what [GetQueuedSong] returned before an edit. *)
Record linked its w (prev : song_ptr) : Prop := {
  l_stopped : playing (pl w) = false → next_of w = None;
  l_sign : playing (pl w) = true → ((queued (pl w) < 0)%Z ↔ prev = None);
  l_none : prev = None → next_of w = None;
  l_uri p s it : prev = Some p → next_of w = Some s → it ∈ its → Queue.song it = p →
    Song.uri s = Song.uri (Queue.song_data it);
}.

Record inv its w : Prop := {
  i_core : core its w;
  i_stopped : playing (pl w) = false → next_of w = None;
  i_none : playing (pl w) = true → (queued (pl w) < 0)%Z → next_of w = None;
  i_range : playing (pl w) = true → (queued (pl w) < Z.of_nat (len_of w))%Z;
  i_uri s it : playing (pl w) = true → order_item w its (queued (pl w)) = Some it →
    next_of w = Some s → Song.uri s = Song.uri (Queue.song_data it);
}.

(** The song of an item and its id; version and priority left out. *)
Definition strip it : nat * Song.DetachedSong * nat :=
  (Queue.song it, Queue.song_data it, Queue.id it).

(** What the tail of an edit leaves alone. *)
Definition qcfg (q : Queue.Queue Song.DetachedSong G) :=
  (Queue.max_length q, Queue.length q, Queue.repeat q, Queue.single q, Queue.consume q,
   Queue.random q).

Record frame w w' : Prop := {
  f_playing : playing (pl w') = playing (pl w);
  f_bulk : bulk_edit (pl w') = bulk_edit (pl w);
  f_cfg : qcfg (q_of w') = qcfg (q_of w);
  f_cur : cur_pos w' = cur_pos w;
}.

#[global] Instance frame_refl : Reflexive frame.
Proof. by intros w. Qed.

#[global] Instance frame_trans : Transitive frame.
Proof. intros w1 w2 w3 [] []. split; congruence. Qed.

(** ** Rules for state access *)

Lemma wp_read_pl Q X w : Q (pl w) w → wp (read_pl (T:=T)) Q X w.
Proof. done. Qed.

Lemma wp_upd_pl f Q X w : Q tt (mkWorld (f (pl w)) (player w) (events w)) → wp (upd_pl f) Q X w.
Proof. done. Qed.

Lemma wp_notify e Q X w : Q tt (mkWorld (pl w) (player w) (events w ++ [e])) → wp (notify e) Q X w.
Proof. done. Qed.

Lemma wp_qask {A} (f : _ → option A) a Q X w :
  f (q_of w) = Some a → Q a w → wp (qask f) Q X w.
Proof. intros Hf HQ. unfold qask. apply wp_bind, wp_read_pl. by eapply wp_lift. Qed.

Lemma wp_qdo f q' Q X w :
  f (q_of w) = Some q' → Q tt (mkWorld (put_queue q' (pl w)) (player w) (events w)) →
  wp (qdo f) Q X w.
Proof.
  intros Hf HQ. unfold qdo. apply wp_bind, wp_read_pl, wp_bind. eapply wp_lift; [done|].
  by apply wp_upd_pl.
Qed.

Lemma wp_player {A} (m : prog (Player.pworld T) A) Q X w :
  wp m (λ a v, Q a (mkWorld (pl w) v (events w))) (λ e v, X e (mkWorld (pl w) v (events w)))
    (player w) →
  wp (on_player m) Q X w.
Proof. intros H. by apply wp_zoom. Qed.

Lemma to_unsigned_nat o : to_unsigned (Z.of_nat o) = Some o.
Proof. unfold to_unsigned. replace (0 <=? Z.of_nat o)%Z with true by lia. by rewrite Nat2Z.id. Qed.

Lemma to_unsigned_pos z : (0 ≤ z)%Z → to_unsigned z = Some (Z.to_nat z).
Proof. intros H. unfold to_unsigned. by replace (0 <=? z)%Z with true by lia. Qed.

(** ** Order lookups *)

Lemma GetOrder_item q its o p : repr q its → ord q !! o = Some p →
  ∃ it, its !! p = Some it ∧ Queue.GetOrder q o = Some it.
Proof.
  intros Hr Ho. pose proof (lookup_lt_Some _ _ _ Ho) as Hlt.
  rewrite (repr_ord_len _ _ Hr) in Hlt.
  destruct (OrderToPosition_ok q its o Hr Hlt) as (p' & Hp & Hp' & Hlt'). simplify_eq.
  destruct (repr_lookup _ _ _ Hr Hlt') as (it & Hit & Hat). exists it. split; [done|].
  unfold Queue.GetOrder. rewrite Hp. cbn [mbind option_bind]. unfold Queue.Get.
  by rewrite check_bind by lia.
Qed.

Lemma order_lookup w its o : core its w → (0 ≤ o < Z.of_nat (len_of w))%Z →
  ∃ p it, ord (q_of w) !! Z.to_nat o = Some p ∧ its !! p = Some it ∧ p < len_of w ∧
    OrderToPosition o (q_of w) = Some p ∧ GetOrder o (q_of w) = Some it ∧
    order_item w its o = Some it.
Proof.
  intros Hc Ho.
  destruct (OrderToPosition_ok (q_of w) its (Z.to_nat o) (c_repr _ _ Hc)) as (p & Hp & Hp' & Hlt).
  { lia. }
  destruct (GetOrder_item _ _ _ _ (c_repr _ _ Hc) Hp') as (it & Hit & Hg).
  exists p, it. unfold OrderToPosition, GetOrder, order_item.
  rewrite to_unsigned_pos by lia. replace (0 <=? o)%Z with true by lia.
  rewrite Hp'. by split_and!.
Qed.

Lemma order_item_lt w its o it : core its w → order_item w its o = Some it →
  (0 ≤ o < Z.of_nat (len_of w))%Z.
Proof.
  intros Hc Ho. unfold order_item in Ho. case_match; [|done].
  destruct (ord (q_of w) !! Z.to_nat o) as [p|] eqn:E; [|done].
  apply lookup_lt_Some in E. rewrite (repr_ord_len _ _ (c_repr _ _ Hc)) in E. lia.
Qed.

(** Distinct items have distinct song objects. *)
Lemma song_inj its it it' q : repr q its → it ∈ its → it' ∈ its →
  Queue.song it = Queue.song it' → it = it'.
Proof.
  intros Hr (i & Hi)%list_elem_of_lookup (j & Hj)%list_elem_of_lookup Heq.
  enough (i = j) by congruence.
  apply (NoDup_lookup _ i j (Queue.song it) (r_ptr _ _ Hr)).
  - by rewrite list_lookup_fmap, Hi.
  - by rewrite list_lookup_fmap, Hj, Heq.
Qed.

Lemma GetQueuedSong_ok w its Q X : inv its w →
  (∀ r, linked its w r → (∀ p, r = Some p → p ∈ Queue.song <$> its) → Q r w) →
  wp (GetQueuedSong (T:=T)) Q X w.
Proof.
  intros [Hc Hs Hn Hrg Hu] HQ. unfold GetQueuedSong. apply wp_bind, wp_read_pl.
  destruct (playing (pl w)) eqn:Hp; cbn [andb].
  - destruct (0 <=? queued (pl w))%Z eqn:Hq; cbn [andb].
    + specialize (Hrg eq_refl). destruct (order_lookup w its (queued (pl w)) Hc)
        as (p & it & _ & Hit & _ & _ & Hg & Hoi); [lia|].
      assert (Hin : it ∈ its) by (by eapply list_elem_of_lookup_2).
      apply wp_bind. eapply wp_qask; [done|]. apply wp_ret, HQ.
      2: { intros ptr [= <-]. by apply list_elem_of_fmap_2. }
      split.
      * congruence.
      * intros _. split; [lia|done].
      * done.
      * intros ptr s it' [= <-] Hs' Hin' Hsong. assert (it' = it) as ->.
        { by eapply song_inj; [apply Hc|..]. }
        by eapply Hu.
    + apply wp_ret, HQ; [|done]. split; [congruence|intros _; split; [done|lia]| |done].
      intros _. apply Hn; [done|lia].
  - apply wp_ret, HQ; [|done]. split; [by auto|congruence|by auto|done].
Qed.

(** The next song of the order always exists. *)
Lemma GetNextOrder_ok w its : core its w → (0 ≤ current (pl w))%Z →
  ∃ n, GetNextOrder (current (pl w)) (q_of w) = Some n ∧ (-1 ≤ n < Z.of_nat (len_of w))%Z ∧
    Queue.GetNextOrder (q_of w) (Z.to_nat (current (pl w))) = Some n.
Proof.
  intros Hc H0. pose proof (c_current _ _ Hc). unfold GetNextOrder.
  rewrite to_unsigned_pos by done. cbn [mbind option_bind]. unfold Queue.GetNextOrder.
  rewrite check_bind by lia. eexists. split_and!; [done| | |done].
  - repeat case_match; lia.
  - repeat case_match; lia.
Qed.

Lemma set_queue_core q' w its : core its w → repr q' its → Queue.length q' = len_of w →
  plain_order q' → ∀ c, (-1 ≤ c < Z.of_nat (len_of w))%Z →
  (playing (pl w) = true → (0 ≤ c)%Z) →
  core its (mkWorld (put_current c (put_queue q' (pl w))) (player w) (events w)).
Proof. intros [] Hr Hl Hp c Hcr Hcp. split; pl_simpl; try done. by rewrite Hl. Qed.

(** [Reshuffle] changes the order only and keeps the current song. *)
Lemma Reshuffle_ok w its Q X : core its w → Queue.random (q_of w) = true →
  (0 ≤ current (pl w))%Z →
  (∀ q' c, core its (mkWorld (put_current c (put_queue q' (pl w))) (player w) (events w)) →
     cfg q' = cfg (q_of w) → (0 ≤ c)%Z →
     cur_pos (mkWorld (put_current c (put_queue q' (pl w))) (player w) (events w)) = cur_pos w →
     Q tt (mkWorld (put_current c (put_queue q' (pl w))) (player w) (events w))) →
  wp (Reshuffle (T:=T)) Q X w.
Proof.
  intros Hc Hrand H0 HQ. pose proof (c_current _ _ Hc). unfold Reshuffle, set_current.
  apply wp_bind, wp_read_pl, wp_bind.
  destruct (order_lookup w its (current (pl w)) Hc) as (p & it & Hp & Hit & Hlt & Ho & _ & _); [lia|].
  eapply wp_qask; [done|]. apply wp_bind.
  destruct (ShuffleOrder_ok _ _ (c_repr _ _ Hc) Hrand) as (q' & Hq' & Hr' & Hcfg & _).
  eapply wp_qdo; [done|]. apply wp_bind.
  pose proof (cfg_length _ _ Hcfg) as Hlen. pose proof (cfg_random _ _ Hcfg) as Hrand'.
  destruct (PositionToOrder_ok q' its p Hr') as (o & Hpo & Hop & Holt); [lia|].
  eapply wp_qask; [exact Hpo|]. apply wp_upd_pl. pl_simpl. apply HQ.
  - apply set_queue_core; try done; [|lia|lia]. unfold plain_order. by rewrite Hrand', Hrand.
  - done.
  - lia.
  - unfold cur_pos. pl_simpl. replace (0 <=? Z.of_nat o)%Z with true by lia.
    replace (0 <=? current (pl w))%Z with true by lia. by rewrite Nat2Z.id, Hop, Hp.
Qed.

(** ** The queued song *)

(** A world with another player state and queued order number. *)
Definition requeue n (v : Player.pworld T) w : world G T :=
  mkWorld (put_queued n (pl w)) v (events w).

Lemma core_requeue its w n v : core its w → Player.ready v → (-1 ≤ n)%Z →
  core its (requeue n v w).
Proof. intros [] Hv Hn. by split. Qed.

Lemma order_item_requeue its w n v o : order_item (requeue n v w) its o = order_item w its o.
Proof. done. Qed.

Lemma QueueSongOrder_ok w its o Q X : core its w → next_of w = None → o < len_of w →
  (∀ v it, Player.ready v → order_item w its (Z.of_nat o) = Some it →
     (Player.next_song (Player.pc v) = Some (Queue.song_data it) ∨
      Player.next_song (Player.pc v) = None) →
     Q tt (requeue (Z.of_nat o) v w)) →
  wp (QueueSongOrder (T:=T) o) Q X w.
Proof.
  intros Hc Hn Ho HQ. unfold QueueSongOrder, set_queued. apply wp_bind, wp_read_pl, wp_bind.
  apply wp_assert; [unfold Queue.IsValidOrder; lia|]. apply wp_bind, wp_upd_pl, wp_bind.
  destruct (order_lookup w its (Z.of_nat o) Hc) as (p & it & _ & Hit & _ & _ & Hg & Hoi); [lia|].
  unfold GetOrder in Hg. rewrite to_unsigned_nat in Hg.
  eapply wp_qask; [exact Hg|]. apply wp_player. pl_simpl.
  apply Player.LockEnqueueSong_ok; [apply Hc|done|]. intros v Hv Hnx _. by eapply HQ.
Qed.

(** The last stage of [UpdateQueuedSong], for the next order number [n] and the song
    [next] it denotes. *)
Definition update_tail (prev next : song_ptr) (n : Z) : prog (world G T) unit :=
  let differs := negb (bool_decide (next = prev)) in
  bind (if negb (Player.is_null prev) && differs
        then bind (on_player Player.LockCancel) (λ _, set_queued (-1)) else ret tt)
    (λ _, if (0 <=? n)%Z
          then if differs then QueueSongOrder (Z.to_nat n) else set_queued n
          else ret tt).

Lemma wp_cancel w its (b : bool) Q X : core its w →
  (∀ v, Player.ready v → (b = true → Player.next_song (Player.pc v) = None) →
     (b = false → v = player w) →
     Q tt (requeue (if b then (-1)%Z else queued (pl w)) v w)) →
  wp (if b then bind (on_player Player.LockCancel) (λ _, set_queued (-1)) else ret tt) Q X w.
Proof.
  intros Hc HQ. destruct b.
  - apply wp_bind, wp_player, Player.LockCancel_ok; [apply Hc|]. intros v Hv Hn _.
    unfold set_queued. apply wp_upd_pl. by apply HQ.
  - apply wp_ret. specialize (HQ (player w)). destruct w as [[] v e]. apply HQ; try done. apply Hc.
Qed.

Lemma update_tail_ok w its prev n Q X : core its w → linked its w prev →
  playing (pl w) = true → (-1 ≤ n < Z.of_nat (len_of w))%Z →
  (∀ v, Player.ready v → inv its (requeue n v w) → Q tt (requeue n v w)) →
  wp (update_tail prev (Queue.song <$> order_item w its n) n) Q X w.
Proof.
  intros Hc [_ Hsg Hnn Huri] Hp Hn HQ. specialize (Hsg Hp). unfold update_tail.
  apply wp_bind. eapply wp_cancel; [done|]. intros v Hv Hv1 Hv2.
  remember (negb (Player.is_null prev) && _) as b eqn:Hb in *.
  assert (Hq1 : (-1 ≤ (if b then (-1) else queued (pl w)))%Z) by (pose proof (c_queued _ _ Hc); case_match; lia).
  assert (Hnone : prev = None → next_of w = None ∧ b = false).
  { intros ->. split; [by apply Hnn|by rewrite Hb]. }
  destruct (0 <=? n)%Z eqn:Hn0.
  - destruct (order_lookup w its n Hc) as (p & it & _ & Hit & _ & _ & _ & Hoi); [lia|].
    rewrite Hoi in *. cbn [fmap option_fmap option_map] in *.
    case_bool_decide as Hd; cbn [negb] in *.
    + subst prev. assert (b = false) as Eb by (by rewrite Hb, andb_false_r).
      rewrite Eb in *. rewrite (Hv2 eq_refl). unfold set_queued. apply wp_upd_pl.
      apply (HQ (player w)); [apply Hc|]. split; unfold requeue; pl_simpl; try done.
      * apply core_requeue; [done|apply Hc|lia].
      * congruence.
      * lia.
      * lia.
      * intros s it' _ Hoi' Hnx. change (order_item w its n = Some it') in Hoi'. simplify_eq.
        eapply Huri; [done|exact Hnx|by eapply list_elem_of_lookup_2|done].
    + assert (Hvn : Player.next_song (Player.pc v) = None).
      { destruct prev as [ptr|].
        - apply Hv1. by rewrite Hb.
        - destruct Hnone as [? Eb]; [done|]. by rewrite (Hv2 Eb). }
      eapply QueueSongOrder_ok; [by apply core_requeue|done|unfold requeue; pl_simpl; lia|].
      intros v' it' Hv' Hoi' Hnx'. rewrite Z2Nat.id in * by lia. apply (HQ v'); [done|].
      rewrite order_item_requeue in Hoi'. simplify_eq.
      split; unfold requeue; pl_simpl; try done.
      * apply core_requeue; [done|done|lia].
      * congruence.
      * lia.
      * lia.
      * intros s it'' _ Hoi'' Hs. change (order_item w its n = Some it'') in Hoi''. simplify_eq.
        destruct Hnx' as [Hnx'|Hnx']; simpl in *; congruence.
  - replace n with (-1)%Z in * by lia.
    assert (Ho : order_item w its (-1) = None) by done. rewrite Ho in *.
    assert (Hfin : (if b then (-1)%Z else queued (pl w)) = (-1)%Z ∧
      Player.next_song (Player.pc v) = None).
    { destruct prev as [ptr|].
      - assert (b = true) as Eb by (by rewrite Hb).
        rewrite Eb in *. split; [done|]. by apply Hv1.
      - destruct Hnone as [? Eb]; [done|]. rewrite Eb in *. rewrite (Hv2 eq_refl).
        split; [|done]. pose proof (proj2 Hsg eq_refl). pose proof (c_queued _ _ Hc). lia. }
    destruct Hfin as [Hq Hvn]. apply wp_ret. rewrite Hq. apply HQ; [done|].
    split; unfold requeue; pl_simpl; try done.
    + apply core_requeue; [done|done|lia].
    + lia.
Qed.

(** What [UpdateQueuedSong] changes: the player, the queued order number and, in
    random mode, the order. *)
Record updated its (prev : song_ptr) w w' : Prop := {
  u_inv : inv its w';
  u_frame : frame w w';
  u_cfg : cfg (q_of w') = cfg (q_of w);
  u_events : events w' = events w;
  u_current : (0 ≤ current (pl w))%Z ↔ (0 ≤ current (pl w'))%Z;
  u_order : Queue.random (q_of w) = false →
    q_of w' = q_of w ∧ current (pl w') = current (pl w);
  u_next n : playing (pl w) = true → prev ≠ None ∨ bulk_edit (pl w) = false →
    GetNextOrder (current (pl w)) (q_of w) = Some n → queued (pl w') = n;
}.

Lemma inv_of_linked its w prev : core its w → linked its w prev →
  playing (pl w) = false ∨ prev = None → inv its w.
Proof.
  intros Hc [Hs Hsg Hn Hu] Hor.
  assert (Hnone : next_of w = None) by (destruct Hor; auto). split; try done.
  - intros Hp. destruct Hor as [|Hpr]; [congruence|].
    pose proof (proj2 (Hsg Hp) Hpr). pose proof (c_current _ _ Hc). lia.
  - intros s it _ _ Hnx. congruence.
Qed.

Lemma cfg_qcfg q q' : cfg q' = cfg q → qcfg q' = qcfg q.
Proof. unfold cfg, qcfg. congruence. Qed.

Lemma UpdateQueuedSong_ok w its prev Q X : core its w → linked its w prev →
  (∀ w', updated its prev w w' → Q tt w') →
  wp (UpdateQueuedSong (T:=T) prev) Q X w.
Proof.
  intros Hc Hl HQ. unfold UpdateQueuedSong. apply wp_bind, wp_read_pl.
  destruct (playing (pl w)) eqn:Hp; cbn [negb].
  2: { apply wp_ret, HQ. split; try done; [by eapply inv_of_linked; [..|left]|congruence]. }
  destruct (Player.is_null prev && bulk_edit (pl w)) eqn:Hb.
  { apply wp_ret, HQ. apply andb_true_iff in Hb as [Hb1 Hb2]. destruct prev; [done|].
    split; try done; [by eapply inv_of_linked; [..|right]|].
    intros n _ [?|?]; congruence. }
  pose proof (c_current _ _ Hc) as Hcur. pose proof (c_playing _ _ Hc Hp) as Hcp.
  apply wp_bind, wp_assert; [unfold Queue.IsEmpty; lia|]. apply wp_bind, wp_assert.
  { pose proof (l_sign _ _ _ Hl Hp). apply eqb_true_iff.
    destruct prev; simpl; [|naive_solver lia]. assert (¬ queued (pl w) < 0)%Z by naive_solver. lia. }
  destruct (GetNextOrder_ok w its Hc Hcp) as (n & Hn & Hrange & _).
  replace (0 <=? current (pl w))%Z with true by lia. apply wp_bind. eapply wp_qask; [exact Hn|].
  assert (Hstage : ∀ R : unit → world G T → Prop,
    (∀ q' c, core its (mkWorld (put_current c (put_queue q' (pl w))) (player w) (events w)) →
       cfg q' = cfg (q_of w) → (0 ≤ c)%Z →
       cur_pos (mkWorld (put_current c (put_queue q' (pl w))) (player w) (events w)) = cur_pos w →
       (Queue.random (q_of w) = false → q' = q_of w ∧ c = current (pl w)) →
       R tt (mkWorld (put_current c (put_queue q' (pl w))) (player w) (events w))) →
    wp (if (n =? 0)%Z && Queue.random (q_of w) && negb (Queue.single (q_of w))
        then Reshuffle else ret tt) R X w).
  { intros R HR. destruct ((n =? 0)%Z && _ && _) eqn:E.
    - apply andb_true_iff in E as [[_ E]%andb_true_iff _].
      eapply Reshuffle_ok; [done|done|done|]. intros q' c H1 H2 H3 H4. apply HR; try done. congruence.
    - apply wp_ret. specialize (HR (q_of w) (current (pl w))).
      destruct w as [[] v e]. by apply HR. }
  apply wp_bind, Hstage. clear Hstage. intros q' c Hc1 Hcfg Hc0 Hcp1 Hplain.
  set (w1 := mkWorld _ _ _) in *. pose proof (cfg_length _ _ Hcfg) as Hlen.
  assert (Hl1 : linked its w1 prev) by (by destruct Hl; split).
  apply wp_bind.
  assert (Hnext : ∀ R : song_ptr → world G T → Prop,
    R (Queue.song <$> order_item w1 its n) w1 →
    wp (if (0 <=? n)%Z then bind (qask (GetOrder n)) (λ it, ret (Some (Queue.song it))) else ret None)
      R X w1).
  { intros R HR. destruct (0 <=? n)%Z eqn:E.
    - destruct (order_lookup w1 its n Hc1) as (p & it & _ & _ & _ & _ & Hg & Hoi).
      { subst w1; pl_simpl; lia. }
      apply wp_bind. eapply wp_qask; [exact Hg|]. apply wp_ret. by rewrite Hoi in HR.
    - apply wp_ret. unfold order_item in HR. by rewrite E in HR. }
  apply Hnext. clear Hnext. apply (update_tail_ok w1 its prev n); try done.
  { subst w1; pl_simpl; lia. }
  intros v Hv Hinv. apply HQ. split.
  - done.
  - split; [done|done|by apply cfg_qcfg|exact Hcp1].
  - done.
  - done.
  - subst w1. unfold requeue. pl_simpl. lia.
  - subst w1. unfold requeue. pl_simpl. exact Hplain.
  - intros m _ _ Hm. subst w1. unfold requeue. pl_simpl. congruence.
Qed.

(** ** Rewriting the items in place *)

(** The new items denote the same songs, position by position. *)
Definition same_uris its its' : Prop :=
  ∀ p it', its' !! p = Some it' →
    ∃ it, its !! p = Some it ∧
      Song.uri (Queue.song_data it') = Song.uri (Queue.song_data it).

Lemma strip_same_uris its its' : strip <$> its' = strip <$> its → same_uris its its'.
Proof.
  intros H p it' Hp. assert (Hl : (strip <$> its') !! p = (strip <$> its) !! p) by by rewrite H.
  rewrite !list_lookup_fmap, Hp in Hl. destruct (its !! p) as [it|]; simplify_eq/=.
  exists it. split; [done|]. unfold strip in *. congruence.
Qed.

Lemma inv_put_queue w q' its its' : inv its w → repr q' its' → ord q' = ord (q_of w) →
  Queue.length q' = len_of w → Queue.random q' = Queue.random (q_of w) → same_uris its its' →
  inv its' (mkWorld (put_queue q' (pl w)) (player w) (events w)).
Proof.
  intros [[] Hs Hn Hrg Hu] Hr Ho Hl Hrand Hsame. split; pl_simpl; try done.
  - split; pl_simpl; try done; [|by rewrite Hl]. unfold plain_order in *. by rewrite Hrand, Ho, Hl.
  - by rewrite Hl.
  - intros s it' Hp Hoi Hnx. unfold order_item in *. pl_simpl. rewrite Ho in Hoi.
    destruct (0 <=? queued (pl w))%Z eqn:E; [|done].
    destruct (ord (q_of w) !! Z.to_nat (queued (pl w))) as [p|] eqn:Ep; [|done]. simpl in Hoi.
    destruct (Hsame _ _ Hoi) as (it & Hit & ->). by apply Hu.
Qed.

(** The state after an in-place change of the items. *)
Record modified its w its' w' : Prop := {
  m_inv : inv its' w';
  m_strip : strip <$> its' = strip <$> its;
  m_frame : frame w w';
  m_ord : ord (q_of w') = ord (q_of w);
  m_current : current (pl w') = current (pl w);
  m_queued : queued (pl w') = queued (pl w);
  m_player : player w' = player w;
}.

Lemma modified_refl its w : inv its w → modified its w its w.
Proof. by intros H. Qed.

Lemma modified_trans its1 w1 its2 w2 its3 w3 :
  modified its1 w1 its2 w2 → modified its2 w2 its3 w3 → modified its1 w1 its3 w3.
Proof. intros [] []. split; try done; try congruence. by etrans. Qed.

Lemma put_queue_modified w q' its its' : inv its w → repr q' its' → ord q' = ord (q_of w) →
  qcfg q' = qcfg (q_of w) → strip <$> its' = strip <$> its →
  modified its w its' (mkWorld (put_queue q' (pl w)) (player w) (events w)).
Proof.
  intros Hi Hr Ho Hcfg Hs. split; pl_simpl; try done.
  - apply (inv_put_queue _ _ its); try done; [| |by apply strip_same_uris]; unfold qcfg in Hcfg; congruence.
  - split; pl_simpl; try done. unfold cur_pos. pl_simpl. by rewrite Ho.
Qed.

(** [inv] does not depend on the event log, the bulk flags and the error state. *)
Lemma inv_ext its w w' : inv its w → q_of w' = q_of w → playing (pl w') = playing (pl w) →
  current (pl w') = current (pl w) → queued (pl w') = queued (pl w) → player w' = player w →
  inv its w'.
Proof.
  intros [[] Hs Hn Hrg Hu] Hq Hp Hc Hqd Hpl.
  split; [split|..]; unfold order_item in *; rewrite ?Hq, ?Hp, ?Hc, ?Hqd, ?Hpl; done.
Qed.

Lemma core_ext its w w' : core its w → q_of w' = q_of w → playing (pl w') = playing (pl w) →
  current (pl w') = current (pl w) → queued (pl w') = queued (pl w) → player w' = player w →
  core its w'.
Proof. intros [] Hq Hp Hc Hqd Hpl. split; rewrite ?Hq, ?Hp, ?Hc, ?Hqd, ?Hpl; done. Qed.

Lemma cur_pos_ext w w' : ord (q_of w') = ord (q_of w) → current (pl w') = current (pl w) →
  cur_pos w' = cur_pos w.
Proof. unfold cur_pos. by intros -> ->. Qed.

(** The priorities of the items. *)
Definition prios its : list Z := Queue.priority <$> its.

Lemma OnModified_prio w its Q X : inv its w →
  (∀ its' w', modified its w its' w' → prios its' = prios its → Q tt w') →
  wp (OnModified (T:=T)) Q X w.
Proof.
  intros Hi HQ. unfold OnModified. apply wp_bind, wp_read_pl.
  destruct (bulk_edit (pl w)) eqn:Hb.
  - apply wp_upd_pl. apply (HQ its); [|done].
    split; [by apply (inv_ext its w)|done|by split|done..].
  - apply wp_bind.
    destruct (IncrementVersion_ok _ _ (c_repr _ _ (i_core _ _ Hi)))
      as (q' & its' & Hq' & Hr' & Hcfg & _ & Ho & Hv).
    eapply wp_qdo; [done|]. apply wp_notify.
    assert (Hlen : Queue.length q' = len_of w) by (unfold cfg in Hcfg; simpl in Hcfg; congruence).
    assert (Hm : modified its w its' (mkWorld (put_queue q' (pl w)) (player w) (events w))).
    { apply put_queue_modified; try done.
      - unfold ord. by rewrite Ho, Hlen.
      - unfold cfg, qcfg in *. simpl in Hcfg. congruence.
      - destruct Hv as [[_ ->]|(_ & _ & ->)]; [done|]. by rewrite <-list_fmap_compose. }
    destruct Hm as [Hm1 Hm2 [] Hm4 Hm5 Hm6 Hm7]. apply (HQ its').
    + split; [by eapply inv_ext|done|by split|done..].
    + destruct Hv as [[_ ->]|(_ & _ & ->)]; [done|]. unfold prios. by rewrite <-list_fmap_compose.
Qed.

Lemma OnModified_ok w its Q X : inv its w →
  (∀ its' w', modified its w its' w' → Q tt w') →
  wp (OnModified (T:=T)) Q X w.
Proof. intros Hi HQ. eapply OnModified_prio; [done|]. intros its' w' Hm _. by eapply HQ. Qed.

Lemma SongStarted_ok w its Q X : inv its w → (0 ≤ current (pl w))%Z →
  (∀ its' w', modified its w its' w' → Q tt w') →
  wp (SongStarted (T:=T)) Q X w.
Proof.
  intros Hi H0 HQ. unfold SongStarted. pose proof (i_core _ _ Hi) as Hc.
  pose proof (c_current _ _ Hc) as Hcur.
  apply wp_bind, wp_read_pl, wp_bind, wp_assert; [lia|].
  destruct (order_lookup w its (current (pl w)) Hc) as (p & it & _ & Hit & Hlt & Ho & _ & _); [lia|].
  apply wp_bind. eapply wp_qask; [done|].
  destruct (SetPriority_ok (q_of w) its p 0 (-1) false it (c_repr _ _ Hc) Hit) as (q' & Hq & Hcfg & Hr & Hord);
    [lia|lia|].
  apply wp_bind. eapply wp_lift; [exact Hq|]. apply wp_bind, wp_upd_pl. cbn [fst snd].
  assert (Hm : modified its w (if (Queue.priority it =? 0)%Z then its
     else <[p := Queue.with_priority (Queue.with_version it (Queue.version (q_of w))) 0]> its)
     (mkWorld (put_queue q' (pl w)) (player w) (events w))).
  { apply put_queue_modified; try done.
    - apply Hord. by right.
    - by apply cfg_qcfg.
    - case_match; [done|]. rewrite list_fmap_insert. apply list_insert_id.
      by rewrite list_lookup_fmap, Hit. }
  destruct (negb _).
  - eapply OnModified_ok; [apply Hm|]. intros its' w' Hm'. eapply HQ. by eapply modified_trans.
  - apply wp_ret. by eapply HQ.
Qed.

(** ** Starting and stopping playback *)

(** Playback of the song with order number [o] was started. *)
Record started its w (o : nat) its' w' : Prop := {
  s_inv : inv its' w';
  s_strip : strip <$> its' = strip <$> its;
  s_playing : playing (pl w') = true;
  s_current : current (pl w') = Z.of_nat o;
  s_queued : queued (pl w') = (-1)%Z;
  s_cfg : qcfg (q_of w') = qcfg (q_of w);
  s_ord : ord (q_of w') = ord (q_of w);
  s_bulk : bulk_edit (pl w') = bulk_edit (pl w);
}.

Lemma inv_playing_fresh its w o v : core its w → Player.ready v →
  Player.next_song (Player.pc v) = None → o < len_of w →
  inv its (mkWorld (put_current (Z.of_nat o) (put_queued (-1) (put_playing true (pl w)))) v (events w)).
Proof.
  intros [] Hv Hn Ho. split; pl_simpl; try done; [split; pl_simpl; try done; lia|..]; lia.
Qed.

Lemma PlayOrder_ok w its o Q (X : exn → world G T → Prop) : core its w → o < len_of w →
  (∀ its' w', started its w o its' w' → Q tt w') →
  (∀ e w', started its w o its w' → X e w') →
  wp (PlayOrder (T:=T) o) Q X w.
Proof.
  intros Hc Ho HQ HX. unfold PlayOrder, set_playing, set_queued, set_current.
  apply wp_bind, wp_upd_pl, wp_bind, wp_upd_pl, wp_bind. pl_simpl.
  destruct (order_lookup w its (Z.of_nat o) Hc) as (p & it & _ & _ & _ & _ & Hg & _); [lia|].
  unfold GetOrder in Hg. rewrite to_unsigned_nat in Hg. eapply wp_qask; [exact Hg|].
  apply wp_bind, wp_upd_pl, wp_bind, wp_player. pl_simpl.
  apply Player.Play_ok; [apply Hc|..].
  - intros v Hv Hn _. eapply (SongStarted_ok _ its); [by apply inv_playing_fresh|pl_simpl; lia|].
    intros its' w' [Hm1 Hm2 [] Hm4 Hm5 Hm6 Hm7]. apply (HQ its'). by split.
  - intros e v Hv Hn _. apply HX. split; try done. by apply inv_playing_fresh.
Qed.

(** Playback was stopped; the current song is kept. *)
Record stopped its w w' : Prop := {
  t_inv : inv its w';
  t_playing : playing (pl w') = false;
  t_cfg : cfg (q_of w') = cfg (q_of w);
  t_cur : cur_pos w' = cur_pos w;
  t_bulk : bulk_edit (pl w') = bulk_edit (pl w);
  t_order : Queue.random (q_of w) = false → q_of w' = q_of w ∧ current (pl w') = current (pl w);
}.

Lemma inv_not_playing its w c v q : core its w → Player.ready v →
  Player.next_song (Player.pc v) = None → repr q its → plain_order q →
  (-1 ≤ c < Z.of_nat (Queue.length q))%Z →
  inv its (mkWorld (put_current c (put_queue q
    (put_playing false (put_queued (-1) (pl w))))) v (events w)).
Proof. intros [] Hv Hn Hr Hp Hcr. by split; pl_simpl; try done; split. Qed.

Lemma Stop_ok w its Q X : core its w → (playing (pl w) = false → next_of w = None) →
  (∀ w', stopped its w w' → Q tt w') →
  wp (Stop (T:=T)) Q X w.
Proof.
  intros Hc Hn HQ. unfold Stop. apply wp_bind, wp_read_pl.
  destruct (playing (pl w)) eqn:Hp; cbn [negb].
  2: { apply wp_ret, HQ. split; try done. by split; try congruence; auto. }
  pose proof (c_playing _ _ Hc Hp) as H0. apply wp_bind, wp_assert; [lia|].
  apply wp_bind, wp_player, Player.LockStop_ok; [apply Hc|]. intros v Hv Hvn _ _.
  unfold set_queued, set_playing. apply wp_bind, wp_upd_pl, wp_bind, wp_upd_pl. pl_simpl.
  set (w1 := mkWorld _ _ _).
  assert (Hi1 : inv its w1).
  { pose proof (inv_not_playing its w (current (pl w)) v (q_of w) Hc Hv Hvn (c_repr _ _ Hc)
      (c_plain _ _ Hc) (c_current _ _ Hc)) as Hi. by apply (inv_ext its _ w1) in Hi. }
  destruct (Queue.random (q_of w)) eqn:Hr.
  - eapply Reshuffle_ok; [apply Hi1|done|done|]. intros q' c Hc' Hcfg' Hc0 Hcp. apply HQ.
    split; [by split|done|done|exact Hcp|done|congruence].
  - apply wp_ret, HQ. by split.
Qed.

(** ** The tail of every edit: [UpdateQueuedSong(pc, queued_song); OnModified();] *)

Record edited its w its' w' : Prop := {
  e_inv : inv its' w';
  e_strip : strip <$> its' = strip <$> its;
  e_frame : frame w w';
  e_order : Queue.random (q_of w) = false →
    ord (q_of w') = ord (q_of w) ∧ current (pl w') = current (pl w);
}.

Lemma finish_prio w its prev Q X : core its w → linked its w prev →
  (∀ its' w', edited its w its' w' → prios its' = prios its → Q tt w') →
  wp (bind (UpdateQueuedSong (T:=T) prev) (λ _, OnModified)) Q X w.
Proof.
  intros Hc Hl HQ. apply wp_bind. eapply UpdateQueuedSong_ok; [done|done|].
  intros w1 [Hi1 Hf1 _ _ _ Ho1 _]. eapply OnModified_prio; [done|].
  intros its' w' [Hi' Hs' Hf' Hord' Hcur' _ _] Hpr. apply (HQ its'); [|done].
  split; [done|done|by etrans|]. intros Hr. destruct (Ho1 Hr) as [Hq Hc1].
  by rewrite Hord', Hcur', Hq.
Qed.

Lemma finish_ok w its prev Q X : core its w → linked its w prev →
  (∀ its' w', edited its w its' w' → Q tt w') →
  wp (bind (UpdateQueuedSong (T:=T) prev) (λ _, OnModified)) Q X w.
Proof. intros Hc Hl HQ. eapply finish_prio; [done|done|]. intros its' w' He _. by eapply HQ. Qed.

(** The link survives a change of the queue that keeps the pending song's object. *)
Lemma linked_its its its' w w' prev : linked its w prev →
  playing (pl w') = playing (pl w) → queued (pl w') = queued (pl w) → player w' = player w →
  (∀ it', it' ∈ its' → ∃ it, it ∈ its ∧ Queue.song it = Queue.song it' ∧
     Song.uri (Queue.song_data it) = Song.uri (Queue.song_data it')) →
  linked its' w' prev.
Proof.
  intros [Hs Hsg Hn Hu] Hp Hq Hpl Hsub. split; rewrite ?Hp, ?Hq, ?Hpl; try done.
  intros p s it' Hpr Hnx Hin Hsong. destruct (Hsub _ Hin) as (it & Hin' & Hsong' & <-).
  eapply Hu; [done|done|done|congruence].
Qed.

(** In particular when the items only moved. *)
Lemma strip_perm_sub its its' : strip <$> its' ≡ₚ strip <$> its →
  ∀ it', it' ∈ its' → ∃ it, it ∈ its ∧ Queue.song it = Queue.song it' ∧
     Song.uri (Queue.song_data it) = Song.uri (Queue.song_data it').
Proof.
  intros Hp it' Hin. assert (Hin' : strip it' ∈ strip <$> its) by (rewrite <-Hp; by apply list_elem_of_fmap_2).
  apply list_elem_of_fmap in Hin' as (it & Heq & Hit). exists it. unfold strip in Heq.
  split_and!; congruence.
Qed.

End Facts.
End PlaylistFacts.
