(* ===== verification/PlaylistDelete.v ===== *)
(** * Deleting songs from the playlist

    [DeleteInternal] and the methods on top of it, including the case in which the
    song being played is deleted, and the consume mode of [QueuedSongStarted] and
    [PlayNext]. *)

From Stdlib Require Import ZArith Lia ZifyBool.
From stdpp Require Import base numbers sets list.
From S2P Require Import Prelude IdTable RandomEngine Queue QueueFacts QueueEdit QueueOrder QueuePriority.
From S2P Require Import CString Tag Song Prog Player Playlist PlaylistFacts.

Set Default Goal Selector "!".

Module PlaylistDelete.
Import Playlist PlaylistFacts.
Import QueueFacts QueueEdit QueueOrder QueuePriority.

#[local] Abbreviation llen := List.length.
#[local] Abbreviation Item := (Queue.Item Song.DetachedSong).

(** Deleting the entry of [i] from the identity order and renumbering. *)
Lemma renumber_seq n i : i < n →
  (λ p, if i <? p then p - 1 else p) <$> delete i (seq 0 n) = seq 0 (n - 1).
Proof.
  intros Hi. apply list_eq. intros j. rewrite list_lookup_fmap.
  destruct (decide (j < n - 1)) as [Hj|Hj].
  - rewrite (lookup_seq_lt 0 (n - 1)) by done. destruct (decide (j < i)).
    + rewrite list_lookup_delete_lt, lookup_seq_lt by lia. simpl. f_equal. case_match; lia.
    + rewrite list_lookup_delete_ge, lookup_seq_lt by lia. simpl. f_equal. case_match; lia.
  - rewrite (lookup_ge_None_2 (seq 0 (n - 1))) by (rewrite length_seq; lia).
    rewrite lookup_ge_None_2; [done|].
    rewrite length_delete by (rewrite lookup_seq_lt; [done|lia]). rewrite length_seq. lia.
Qed.

Lemma delete_middle' {A} (l k : list A) x i : i = llen l → delete i (l ++ x :: k) = l ++ k.
Proof. intros ->. apply delete_middle. Qed.

Section Facts.
Context {G T : Type} `{!RandomEngine G, !RandomEngineLaws G}.
Context {HPT : Player.PlayerThread T} {HPL : Player.PlayerThreadLaws T} {HAL : Allocator}.
Implicit Types (w : world G T) (its : list Item) (it : Item).
Implicit Types q : Queue.Queue Song.DetachedSong G.

#[local] Abbreviation q_of w := (queue (pl w)).
#[local] Abbreviation next_of w := (Player.next_song (Player.pc (player w))).
#[local] Abbreviation len_of w := (Queue.length (queue (pl w))).

(** The flags of the queue. *)
Definition qflags q := (Queue.repeat q, Queue.single q, Queue.consume q, Queue.random q).

Definition shift_pos (song p : nat) : nat := if song <? p then p - 1 else p.

Record deleted its w (song : nat) its' w' : Prop := {
  d_core : core its' w';
  d_strip : strip <$> its' = delete song (strip <$> its);
  d_len : len_of w' = len_of w - 1;
  d_flags : qflags (q_of w') = qflags (q_of w);
  d_bulk : bulk_edit (pl w') = bulk_edit (pl w);
}.

(** The second half of [DeleteInternal]: a song that is not current is removed. *)
Definition remove_song (song songOrder : nat) (r : song_ptr) : prog (world G T) song_ptr :=
  bind (qdo (Queue.DeletePosition song)) (λ _,
  bind read_pl (λ p,
  bind (if (Z.of_nat songOrder <? current p)%Z then set_current (current p - 1) else ret tt)
    (λ _, ret r))).

Lemma remove_song_ok w its song o r Q X : core its w → linked its w r → song < len_of w →
  ord (q_of w) !! o = Some song → current (pl w) ≠ Z.of_nat o →
  (∀ its' w', deleted its w song its' w' → linked its' w' r →
     playing (pl w') = playing (pl w) → queued (pl w') = queued (pl w) →
     current (pl w') = (if (Z.of_nat o <? current (pl w))%Z then current (pl w) - 1
                        else current (pl w))%Z →
     cur_pos w' = shift_pos song <$> cur_pos w → Q r w') →
  wp (remove_song song o r) Q X w.
Proof.
  intros Hc Hl Hlt Ho Hne HQ. unfold remove_song. pose proof (c_repr _ _ Hc) as Hr.
  pose proof (c_current _ _ Hc) as Hcur.
  destruct (queue_DeletePosition_ok _ _ _ Hr Hlt) as (o' & q' & Hpo & Hq & Hr' & Hcfg & _ & Hord).
  assert (o' = o) as ->.
  { apply (PositionToOrder_inv _ _ _ _ Hr) in Hpo as [Hpo _].
    eapply NoDup_lookup; [|done|done]. by apply (perm_seq_elim _ _ (r_order _ _ Hr)). }
  pose proof (lookup_lt_Some _ _ _ Ho) as Holt. rewrite (repr_ord_len _ _ Hr) in Holt.
  assert (Hlen : Queue.length q' = len_of w - 1) by (unfold cfg in Hcfg; simpl in Hcfg; congruence).
  assert (Hflags : qflags q' = qflags (q_of w)) by (unfold cfg, qflags in *; simpl in Hcfg; congruence).
  set (c' := (if (Z.of_nat o <? current (pl w))%Z then current (pl w) - 1 else current (pl w))%Z).
  set (w' := mkWorld (put_current c' (put_queue q' (pl w))) (player w) (events w)).
  apply wp_bind. eapply wp_qdo; [done|]. apply wp_bind, wp_read_pl, wp_bind. pl_simpl.
  assert (Hw' : ∀ R : unit → world G T → Prop, R tt w' →
    wp (if (Z.of_nat o <? current (pl w))%Z then set_current (T:=T) (current (pl w) - 1) else ret tt)
      R X (mkWorld (put_queue q' (pl w)) (player w) (events w))).
  { intros R HR. subst w' c'. destruct (Z.of_nat o <? current (pl w))%Z; [exact HR|].
    apply wp_ret. by destruct w as [[] ? ?]. }
  assert (Hstrip : strip <$> delete_spec (q_of w) its song = delete song (strip <$> its))
    by by apply fmap_delete_spec.
  apply Hw', wp_ret. apply (HQ (delete_spec (q_of w) its song)); try done.
  - split; subst w'; pl_simpl; try done. split; pl_simpl; try done; try apply Hc.
    + unfold plain_order. intros Hrand.
      assert (Hrand' : Queue.random (q_of w) = false) by (unfold qflags in Hflags; congruence).
      pose proof (c_plain _ _ Hc Hrand') as Hpl. rewrite Hord, Hpl in *.
      apply lookup_seq in Ho as [-> _]. rewrite renumber_seq by done. by rewrite Hlen.
    + rewrite Hlen. subst c'. case_match; lia.
    + intros Hp. pose proof (c_playing _ _ Hc Hp). subst c'. case_match; lia.
  - eapply linked_its; [exact Hl|done..|]. intros it' Hin.
    assert (Hin' : strip it' ∈ strip <$> its).
    { eapply list_elem_of_fmap_2 in Hin. rewrite Hstrip in Hin.
      eapply elem_of_submseteq; [exact Hin|]. apply sublist_submseteq, sublist_delete. }
    apply list_elem_of_fmap in Hin' as (it & Heq & Hit). exists it. unfold strip in Heq.
    split_and!; congruence.
  - subst w' c'. unfold cur_pos. pl_simpl. rewrite Hord.
    destruct (0 <=? current (pl w))%Z eqn:E0.
    2: { case_match; [lia|]. by rewrite E0. }
    destruct (Z.of_nat o <? current (pl w))%Z eqn:E1.
    + replace (0 <=? current (pl w) - 1)%Z with true by lia.
      rewrite list_lookup_fmap, list_lookup_delete_ge by lia.
      replace (S (Z.to_nat (current (pl w) - 1))) with (Z.to_nat (current (pl w))) by lia. done.
    + rewrite E0. rewrite list_lookup_fmap, list_lookup_delete_lt by lia. done.
Qed.

Lemma linked_keeps its w v prev : linked its w prev → Player.keeps (player w) v →
  linked its (mkWorld (pl w) v (events w)) prev.
Proof.
  intros [Hs Hsg Hn Hu] Hk. split; pl_simpl; try done.
  - intros Hp. by eapply Player.keeps_none, Hs.
  - intros Hp. by eapply Player.keeps_none, Hn.
  - intros p s it Hp Hnx Hin Hsong. destruct Hk as [Hk|Hk]; [|congruence].
    eapply Hu; [done|by rewrite <-Hk|done|done].
Qed.

Lemma core_keeps its w v : core its w → Player.ready v → core its (mkWorld (pl w) v (events w)).
Proof. intros [] Hv. by split. Qed.

Lemma inv_keeps its w v : inv its w → Player.ready v → Player.keeps (player w) v →
  inv its (mkWorld (pl w) v (events w)).
Proof.
  intros [Hc Hs Hn Hrg Hu] Hv Hk. split; pl_simpl; try done.
  - by apply core_keeps.
  - intros Hp. by eapply Player.keeps_none, Hs.
  - intros Hp Hq. by eapply Player.keeps_none, Hn.
  - intros s it Hp Hoi Hnx. destruct Hk as [Hk|Hk]; [|congruence].
    eapply Hu; [done|done|by rewrite <-Hk].
Qed.

(** The first half of [DeleteInternal]: replacing a current song that is about to be
    deleted. *)
Definition leave_song (p : playlist G) (songOrder : nat) (r : song_ptr)
    : prog (world G T) song_ptr :=
  if playing p && (current p =? Z.of_nat songOrder)%Z then
    bind (on_player Player.GetState) (λ s,
    let paused := bool_decide (s = Player.STATE_PAUSE) in
    bind (qask (GetNextOrder (current p))) (λ next,
    let next := if (next =? Z.of_nat songOrder)%Z then (-1)%Z else next in
    bind (set_current next) (λ _,
    bind (if (0 <=? next)%Z && negb paused
          then try_catch (PlayOrder (Z.to_nat next)) (λ _, ret tt)
          else bind (on_player Player.LockStop) (λ _, set_playing false))
      (λ _, ret None))))
  else if (current p =? Z.of_nat songOrder)%Z then
    bind (set_current (-1)) (λ _, ret r)
  else ret r.

(** What [leave_song] guarantees when the song is current: another song plays, or
    playback stops. *)
Record left its w (o : nat) its' w' : Prop := {
  x_core : core its' w';
  x_strip : strip <$> its' = strip <$> its;
  x_cfg : qcfg (q_of w') = qcfg (q_of w);
  x_ord : ord (q_of w') = ord (q_of w);
  x_bulk : bulk_edit (pl w') = bulk_edit (pl w);
  x_ne : current (pl w') ≠ Z.of_nat o;
}.

Lemma linked_null its w : playing (pl w) = false ∨ (queued (pl w) < 0)%Z →
  next_of w = None → linked its w None.
Proof. intros Hor Hn. split; try done. intros Hp. destruct Hor; [congruence|done]. Qed.

Lemma leave_song_ok w its o r Q X : core its w → linked its w r → o < len_of w →
  (current (pl w) = Z.of_nat o →
     ∀ its' w' r', left its w o its' w' → linked its' w' r' → r' = None ∨ r' = r →
       (playing (pl w) = false → playing (pl w') = false) → Q r' w') →
  (current (pl w) ≠ Z.of_nat o → Q r w) →
  wp (leave_song (pl w) o r) Q X w.
Proof.
  intros Hc Hl Ho HQ1 HQ2. unfold leave_song.
  destruct (current (pl w) =? Z.of_nat o)%Z eqn:E; [|rewrite andb_false_r; apply wp_ret, HQ2; lia].
  apply Z.eqb_eq in E. specialize (HQ1 E). clear HQ2. rewrite andb_true_r.
  destruct (playing (pl w)) eqn:Hp.
  2: { unfold set_current. apply wp_bind, wp_upd_pl, wp_ret. apply (HQ1 its); try done; [| |by right].
       - split; pl_simpl; try done; [|lia]. destruct Hc. split; pl_simpl; try done; lia.
       - by eapply linked_its; [exact Hl|done..|apply strip_perm_sub]. }
  apply wp_bind, wp_player, Player.GetState_ok; [apply Hc|]. intros v Hv Hk _ _.
  apply wp_bind. pose proof (c_playing _ _ Hc Hp) as H0.
  destruct (GetNextOrder_ok w its Hc H0) as (n & Hn & Hrange & _).
  eapply wp_qask; [exact Hn|]. unfold set_current. apply wp_bind, wp_upd_pl. pl_simpl.
  set (next := if (n =? Z.of_nat o)%Z then (-1)%Z else n).
  assert (Hnext : (-1 ≤ next < Z.of_nat (len_of w))%Z ∧ next ≠ Z.of_nat o)
    by (subst next; case_match; lia).
  apply wp_bind. destruct ((0 <=? next)%Z && _) eqn:Eb.
  - apply andb_true_iff in Eb as [Eb _].
    set (w1 := mkWorld (put_current next (pl w)) v (events w)).
    assert (Hc1 : core its w1) by (destruct Hc; split; subst w1; pl_simpl; try done; lia).
    assert (Hpost : ∀ its' w', started its w1 (Z.to_nat next) its' w' →
      wp (ret (None : song_ptr)) Q X w').
    { intros its' w' [Hi Hs Hpl Hcu Hq Hcf Hor Hbu]. apply wp_ret.
      apply (HQ1 its'); try done; [| |by left].
      - split; try done; [apply Hi|]. rewrite Hcu. lia.
      - apply linked_null; [right; lia|]. apply (i_none _ _ Hi); [done|lia]. }
    apply wp_try. eapply (PlayOrder_ok w1 its); [done|subst w1; pl_simpl; lia|exact Hpost|].
    intros e w' Hst. by apply wp_ret, (Hpost its).
  - apply wp_bind, wp_player, Player.LockStop_ok; [done|]. intros v' Hv' Hvn' _ _.
    unfold set_playing. apply wp_upd_pl. apply wp_ret. pl_simpl.
    apply (HQ1 its); [| |by left|done].
    + destruct Hnext. split; pl_simpl; try done. destruct Hc. by split.
    + apply linked_null; [by left|done].
Qed.

Lemma DeleteInternal_ok w its song prev Q X : core its w → linked its w prev →
  song < len_of w →
  (∀ its' w' r, deleted its w song its' w' → linked its' w' r → r = None ∨ r = prev →
     (playing (pl w) = false → playing (pl w') = false) →
     (cur_pos w ≠ Some song →
        playing (pl w') = playing (pl w) ∧ r = prev ∧ queued (pl w') = queued (pl w) ∧
        cur_pos w' = shift_pos song <$> cur_pos w) → Q r w') →
  wp (DeleteInternal (T:=T) song prev) Q X w.
Proof.
  intros Hc Hl Hlt HQ. unfold DeleteInternal. pose proof (c_repr _ _ Hc) as Hr.
  apply wp_bind, wp_read_pl, wp_bind. eapply wp_qask.
  { unfold Queue.GetLength. by rewrite check_bind by (pose proof (r_cap _ _ Hr); lia). }
  apply wp_bind, wp_assert; [lia|].
  destruct (PositionToOrder_ok _ _ _ Hr Hlt) as (o & Hpo & Ho & Holt).
  apply wp_bind. eapply wp_qask; [exact Hpo|]. apply wp_bind.
  assert (Hcp : cur_pos w ≠ Some song ↔ current (pl w) ≠ Z.of_nat o).
  { unfold cur_pos. destruct (0 <=? current (pl w))%Z eqn:E; [|split; [lia|done]].
    split; intros Hne Heq; apply Hne.
    - by rewrite Heq, Nat2Z.id.
    - assert (Z.to_nat (current (pl w)) = o); [|lia].
      eapply NoDup_lookup; [|exact Heq|exact Ho]. by apply (perm_seq_elim _ _ (r_order _ _ Hr)). }
  apply (leave_song_ok w its o prev); try done.
  - intros Heq its1 w1 r [Hc1 Hs1 Hcf1 Hor1 Hb1 Hne1] Hl1 Hrr Hstop.
    assert (Hlen1 : len_of w1 = len_of w) by (unfold qcfg in Hcf1; congruence).
    apply (remove_song_ok w1 its1 song o); try done; [lia|by rewrite Hor1|].
    intros its' w' [Hd1 Hd2 Hd3 Hd4 Hd5] Hl' Hp' _ _ _.
    apply (HQ its'); try done.
    + split; try done; [by rewrite Hd2, Hs1|lia| |congruence].
      unfold qflags, qcfg in *. congruence.
    + intros Hp. rewrite Hp'. auto.
    + intros Hn. by apply Hcp in Hn.
  - intros Hne. apply (remove_song_ok w its song o); try done.
    intros its' w' Hd Hl' Hp' Hq' _ Hcp'. apply (HQ its'); try done; [by right|congruence].
Qed.

(** ** The public deletions *)

Lemma wp_GetLength w its Q X : core its w → Q (len_of w) w → wp (qask (T:=T) Queue.GetLength) Q X w.
Proof.
  intros Hc HQ. eapply wp_qask; [|exact HQ]. unfold Queue.GetLength.
  by rewrite check_bind by (pose proof (r_cap _ _ (c_repr _ _ Hc)); lia).
Qed.

(** The song at position [song] is gone; playback goes on unless it was the current
    one. *)
Record removed its w (song : nat) its' w' : Prop := {
  rm_inv : inv its' w';
  rm_strip : strip <$> its' = delete song (strip <$> its);
  rm_len : len_of w' = len_of w - 1;
  rm_flags : qflags (q_of w') = qflags (q_of w);
  rm_bulk : bulk_edit (pl w') = bulk_edit (pl w);
  rm_stopped : playing (pl w) = false → playing (pl w') = false;
  rm_current : cur_pos w ≠ Some song →
    playing (pl w') = playing (pl w) ∧ cur_pos w' = shift_pos song <$> cur_pos w;
}.

Lemma qcfg_flags q q' : qcfg q' = qcfg q → qflags q' = qflags q ∧ Queue.length q' = Queue.length q.
Proof. unfold qcfg, qflags. split; congruence. Qed.

Lemma DeletePosition_ok w its song Q (X : exn → world G T → Prop) : inv its w →
  (song < len_of w → ∀ its' w', removed its w song its' w' → Q tt w') →
  (len_of w ≤ song → X (PlaylistError BAD_RANGE) w) →
  wp (DeletePosition (T:=T) song) Q X w.
Proof.
  intros Hi HQ HX. pose proof (i_core _ _ Hi) as Hc. unfold DeletePosition.
  apply wp_bind. eapply wp_GetLength; [done|]. destruct (len_of w <=? song) eqn:E.
  { apply wp_throw, HX. lia. }
  apply wp_bind. eapply GetQueuedSong_ok; [done|]. intros prev Hl Hlin.
  apply wp_bind. eapply DeleteInternal_ok; [done|done|lia|].
  intros its1 w1 r [Hd1 Hd2 Hd3 Hd4 Hd5] Hl1 _ Hst Hcur.
  eapply finish_ok; [done|done|]. intros its' w' [He1 He2 [Hfp Hfb Hfc Hfu] _].
  apply (HQ ltac:(lia) its'). destruct (qcfg_flags _ _ Hfc) as [Hfl Hln].
  split; [done|congruence|lia|congruence|congruence| |].
  - intros Hp. rewrite Hfp. auto.
  - intros Hne. destruct (Hcur Hne) as (H1 & _ & _ & H2). split; congruence.
Qed.

Lemma DeleteOrder_ok w its o p Q X : inv its w → ord (q_of w) !! o = Some p →
  (∀ its' w', removed its w p its' w' → Q tt w') →
  wp (DeleteOrder (T:=T) (Z.of_nat o)) Q X w.
Proof.
  intros Hi Ho HQ. pose proof (i_core _ _ Hi) as Hc. pose proof (c_repr _ _ Hc) as Hr.
  pose proof (lookup_lt_Some _ _ _ Ho) as Hlt. rewrite (repr_ord_len _ _ Hr) in Hlt.
  destruct (order_lookup w its (Z.of_nat o) Hc) as (p' & it & Hp & _ & Hp'lt & Hop & _); [lia|].
  rewrite Nat2Z.id in Hp. simplify_eq. unfold DeleteOrder. apply wp_bind.
  eapply wp_qask; [exact Hop|]. eapply DeletePosition_ok; [done|auto|lia].
Qed.

(** The loop of [DeleteRange] removes positions from the back. *)
Lemma DeleteRange_loop_ok n : ∀ w its start r Q X, core its w → linked its w r →
  start + n ≤ len_of w →
  (∀ its' w' r', core its' w' → linked its' w' r' →
     strip <$> its' = take start (strip <$> its) ++ drop (start + n) (strip <$> its) →
     qflags (q_of w') = qflags (q_of w) → bulk_edit (pl w') = bulk_edit (pl w) → Q r' w') →
  wp (DeleteRange_loop (T:=T) n (start + n) r) Q X w.
Proof.
  induction n as [|n IH]; intros w its start r Q X Hc Hl Hlen HQ; cbn [DeleteRange_loop].
  { apply wp_ret. apply (HQ its); try done. by rewrite Nat.add_0_r, take_drop. }
  apply wp_bind. replace (start + S n - 1) with (start + n) by lia.
  eapply DeleteInternal_ok; [done|done|lia|].
  intros its1 w1 r1 [Hd1 Hd2 Hd3 Hd4 Hd5] Hl1 _ _ _.
  eapply (IH w1 its1 start); [done|done|lia|].
  intros its' w' r' Hc' Hl' Hs' Hf' Hb'. apply (HQ its'); try done; [|congruence|congruence].
  rewrite Hs', Hd2.
  assert (Hlt : start + n < llen (strip <$> its)) by (rewrite length_fmap, (r_len _ _ (c_repr _ _ Hc)); lia).
  destruct (lookup_lt_is_Some_2 _ _ Hlt) as [x Hx].
  rewrite (delete_take_drop (strip <$> its) (start + n)).
  rewrite take_app_le, take_take by (rewrite length_take; lia).
  rewrite drop_app_ge by (rewrite length_take; lia). rewrite length_take.
  replace (start `min` (start + n)) with start by lia. f_equal. rewrite drop_drop. f_equal. lia.
Qed.

Lemma DeleteRange_ok w its start end_ Q (X : exn → world G T → Prop) : inv its w →
  (start < len_of w → ∀ its' w', inv its' w' →
     (let e := end_ `min` len_of w in
      strip <$> its' = if e <=? start then strip <$> its
                       else take start (strip <$> its) ++ drop e (strip <$> its)) →
     qflags (q_of w') = qflags (q_of w) → bulk_edit (pl w') = bulk_edit (pl w) → Q tt w') →
  (len_of w ≤ start → X (PlaylistError BAD_RANGE) w) →
  wp (DeleteRange (T:=T) start end_) Q X w.
Proof.
  intros Hi HQ HX. pose proof (i_core _ _ Hi) as Hc. unfold DeleteRange.
  apply wp_bind. eapply wp_GetLength; [done|]. destruct (len_of w <=? start) eqn:E.
  { apply wp_throw, HX. lia. }
  specialize (HQ ltac:(lia)).
  replace (if len_of w <? end_ then len_of w else end_) with (end_ `min` len_of w) by (case_match; lia).
  destruct (end_ `min` len_of w <=? start) eqn:E2.
  { apply wp_ret, (HQ its); [done|cbv zeta; by rewrite E2|done|done]. }
  apply wp_bind. eapply GetQueuedSong_ok; [done|]. intros prev Hl Hlin.
  apply wp_bind. set (e := end_ `min` len_of w) in *.
  replace e with (start + (e - start)) at 2 by lia.
  eapply DeleteRange_loop_ok; [done|done|lia|].
  intros its1 w1 r Hc1 Hl1 Hs1 Hf1 Hb1. eapply finish_ok; [done|done|].
  intros its' w' [He1 He2 [Hfp Hfb Hfc Hfu] _]. destruct (qcfg_flags _ _ Hfc) as [Hfl Hln].
  apply (HQ its'); [done| |congruence|congruence].
  cbv zeta. rewrite E2, He2, Hs1. by replace (start + (e - start)) with e by lia.
Qed.

(** Resolving an id. *)
Lemma wp_IdToPosition w its i Q X : core its w →
  (∀ p it, its !! p = Some it → Queue.id it = i → p < len_of w → Q (Z.of_nat p) w) →
  (i ∉ Queue.id <$> its → ∀ z, (z < 0)%Z → Q z w) →
  wp (qask (T:=T) (λ q, Queue.IdToPosition q i)) Q X w.
Proof.
  intros Hc H1 H2. pose proof (c_repr _ _ Hc) as Hr.
  destruct (decide (i ∈ Queue.id <$> its)) as [Hin|Hni].
  - apply list_elem_of_lookup in Hin as [p Hp].
    pose proof Hp as Hp'. rewrite list_lookup_fmap in Hp'.
    destruct (its !! p) as [it|] eqn:E; simplify_eq/=.
    pose proof (lookup_lt_Some _ _ _ E) as Hlt. rewrite (r_len _ _ Hr) in Hlt.
    eapply wp_qask; [|by eapply H1]. by apply (IdTable.IdToPosition_live _ _ _ _ _ (r_ids _ _ Hr)).
  - destruct (IdTable.IdToPosition_dead _ _ _ _ (r_ids _ _ Hr) Hni) as (z & Hz & Hneg).
    eapply wp_qask; [exact Hz|]. auto.
Qed.

Lemma DeleteId_ok w its i Q (X : exn → world G T → Prop) : inv its w →
  (∀ p it its' w', its !! p = Some it → Queue.id it = i → removed its w p its' w' → Q tt w') →
  (i ∉ Queue.id <$> its → X (PlaylistError NO_SUCH_SONG) w) →
  wp (DeleteId (T:=T) i) Q X w.
Proof.
  intros Hi HQ HX. unfold DeleteId. apply wp_bind. eapply wp_IdToPosition; [apply Hi|..].
  - intros p it Hit Hid Hlt. replace (Z.of_nat p <? 0)%Z with false by lia. rewrite Nat2Z.id.
    eapply DeletePosition_ok; [done| |lia]. intros _ its' w' Hrm. by eapply HQ.
  - intros Hni z Hz. replace (z <? 0)%Z with true by lia. by apply wp_throw, HX.
Qed.

(** ** Stale songs *)

(** The songs that remain: those with another URI, and the protected position. *)
Fixpoint stale_spec (uri : list Z) (protected : Z) (i : nat)
    (l : list (nat * Song.DetachedSong * nat)) : list (nat * Song.DetachedSong * nat) :=
  match l with
  | [] => []
  | x :: l =>
      if negb (Z.of_nat i =? protected)%Z && Song.IsURI x.1.2 uri
      then stale_spec uri protected (S i) l
      else x :: stale_spec uri protected (S i) l
  end.

Lemma wp_Get w its i it Q X : core its w → its !! i = Some it → Q it w →
  wp (qask (T:=T) (λ q, Queue.Get q i)) Q X w.
Proof.
  intros Hc Hit HQ. pose proof (lookup_lt_Some _ _ _ Hit) as Hlt.
  rewrite (r_len _ _ (c_repr _ _ Hc)) in Hlt. eapply wp_qask; [|exact HQ].
  unfold Queue.Get. rewrite check_bind by lia. by apply (repr_item_at _ _ _ _ (c_repr _ _ Hc)).
Qed.

Lemma GetCurrentPosition_ok w its Q X : core its w →
  (∀ z, z = from_option Z.of_nat (-1)%Z (cur_pos w) → Q z w) →
  wp (GetCurrentPosition (T:=T)) Q X w.
Proof.
  intros Hc HQ. unfold GetCurrentPosition. apply wp_bind, wp_read_pl.
  pose proof (c_current _ _ Hc). destruct (0 <=? current (pl w))%Z eqn:E.
  - destruct (order_lookup w its (current (pl w)) Hc) as (p & it & Hp & _ & _ & Ho & _); [lia|].
    apply wp_bind. eapply wp_qask; [exact Ho|]. apply wp_ret, HQ. unfold cur_pos. by rewrite E, Hp.
  - apply wp_ret, HQ. unfold cur_pos. by rewrite E.
Qed.

Section StaleSong.
Variables (w0 : world G T) (its0 : list Item) (uri : list Z).
Hypothesis Hinv0 : inv its0 w0.

(** The position [StaleSong] protects. *)
Definition protected_pos : Z :=
  (if playing (pl w0) then from_option Z.of_nat (-1)%Z (cur_pos w0) else -1)%Z.

(** While positions from the end down to [k] are processed, the song being played
    stays current. *)
Definition protected (k : nat) w : Prop :=
  playing (pl w0) = true → ∀ c, cur_pos w0 = Some c →
  ∃ c', cur_pos w = Some c' ∧ (c < k → c' = c) ∧ (k ≤ c → k ≤ c').

Definition stale_inv (k : nat) w : Prop :=
  ∃ its, inv its w ∧
    strip <$> its = take k (strip <$> its0) ++
                    stale_spec uri protected_pos k (drop k (strip <$> its0)) ∧
    qflags (q_of w) = qflags (q_of w0) ∧ bulk_edit (pl w) = bulk_edit (pl w0) ∧
    playing (pl w) = playing (pl w0) ∧ protected k w.

Lemma protected_skip k w : protected (S k) w → protected k w.
Proof.
  intros H Hp c Hc. destruct (H Hp c Hc) as (c' & H1 & H2 & H3). exists c'.
  split_and!; [done|intros; apply H2; lia|]. intros Hk.
  destruct (decide (c = k)); [rewrite H2; lia|]. specialize (H3 ltac:(lia)). lia.
Qed.

Lemma protected_not k w c : protected (S k) w → playing (pl w0) = true → cur_pos w0 = Some c →
  Z.of_nat k ≠ protected_pos → cur_pos w ≠ Some k.
Proof.
  intros H Hp Hc Hk Heq. destruct (H Hp c Hc) as (c' & H1 & H2 & H3). simplify_eq.
  unfold protected_pos in Hk. rewrite Hp, Hc in Hk. simpl in Hk.
  destruct (decide (c < S k)); [rewrite H2 in Hk; lia|]. specialize (H3 ltac:(lia)). lia.
Qed.

Lemma protected_delete k w w' : protected (S k) w → Z.of_nat k ≠ protected_pos →
  (playing (pl w0) = true → cur_pos w' = shift_pos k <$> cur_pos w) → protected k w'.
Proof.
  intros H Hk Hs Hp c Hc. pose proof (protected_not k w c H Hp Hc Hk) as Hn.
  destruct (H Hp c Hc) as (c' & H1 & H2 & H3). rewrite (Hs Hp), H1. exists (shift_pos k c').
  split; [done|]. rewrite H1 in Hn. assert (c' ≠ k) by congruence. unfold shift_pos. split.
  - intros. rewrite H2 by lia. case_match; lia.
  - intros. destruct (decide (c = k)) as [->|]; [rewrite H2 in * by lia; lia|].
    specialize (H3 ltac:(lia)). case_match; lia.
Qed.

Lemma playing_cur_pos : playing (pl w0) = true → ∃ c, cur_pos w0 = Some c.
Proof.
  intros Hp. pose proof (i_core _ _ Hinv0) as Hc.
  pose proof (c_playing _ _ Hc Hp). pose proof (c_current _ _ Hc).
  destruct (order_lookup w0 its0 (current (pl w0)) Hc) as (p & ? & Hp' & _); [lia|].
  exists p. unfold cur_pos. by replace (0 <=? current (pl w0))%Z with true by lia.
Qed.

(** A song that stays. *)
Lemma stale_keep k w x : (strip <$> its0) !! k = Some x →
  negb (Z.of_nat k =? protected_pos)%Z && Song.IsURI x.1.2 uri = false →
  stale_inv (S k) w → stale_inv k w.
Proof.
  intros Hx Hneg (its & Hi & Hs & Hf & Hb & Hp & Hpr). exists its.
  split_and!; try done; [|by apply protected_skip].
  rewrite Hs, (drop_S _ _ _ Hx). cbn [stale_spec]. rewrite Hneg.
  by rewrite (take_S_r _ _ _ Hx), <-(assoc_L (++)).
Qed.

(** A song that goes. *)
Lemma stale_drop k w its w' its' x : (strip <$> its0) !! k = Some x →
  Z.of_nat k ≠ protected_pos → Song.IsURI x.1.2 uri = true →
  inv its w → strip <$> its = take (S k) (strip <$> its0) ++
    stale_spec uri protected_pos (S k) (drop (S k) (strip <$> its0)) →
  qflags (q_of w) = qflags (q_of w0) → bulk_edit (pl w) = bulk_edit (pl w0) →
  playing (pl w) = playing (pl w0) → protected (S k) w →
  removed its w k its' w' → stale_inv k w'.
Proof.
  intros Hx Hk Hu Hi Hs Hf Hb Hp Hpr [Hr1 Hr2 Hr3 Hr4 Hr5 Hr6 Hr7].
  assert (Hnc : playing (pl w0) = true → cur_pos w ≠ Some k).
  { intros Hpl. destruct (playing_cur_pos Hpl) as [c Hc]. by eapply protected_not. }
  exists its'. split_and!; try done; try congruence.
  - rewrite Hr2, Hs, (drop_S _ _ _ Hx). cbn [stale_spec].
    rewrite Hu, (proj2 (Z.eqb_neq _ _) Hk). cbn [andb negb].
    rewrite (take_S_r _ _ _ Hx), <-(assoc_L (++)). apply delete_middle'.
    rewrite length_take. pose proof (lookup_lt_Some _ _ _ Hx). lia.
  - destruct (playing (pl w0)) eqn:Hpl; [|rewrite Hp in Hr6; auto].
    destruct Hr7 as [Hr7 _]; [by apply Hnc|congruence].
  - eapply protected_delete; [done|done|]. intros Hpl. apply Hr7. by apply Hnc.
Qed.

Lemma StaleSong_ok Q X :
  (∀ w', stale_inv 0 w' → Q tt w') → wp (StaleSong (T:=T) uri) Q X w0.
Proof.
  intros HQ. unfold StaleSong. pose proof (i_core _ _ Hinv0) as Hc.
  pose proof (r_len _ _ (c_repr _ _ Hc)) as Hlen. apply wp_bind, wp_read_pl, wp_bind.
  assert (Hpos : ∀ R : Z → world G T → Prop, R protected_pos w0 →
    wp (if playing (pl w0) then GetCurrentPosition (T:=T) else ret (-1)%Z) R X w0).
  { intros R HR. unfold protected_pos in HR. destruct (playing (pl w0)); [|by apply wp_ret].
    eapply GetCurrentPosition_ok; [done|]. by intros z ->. }
  apply Hpos. clear Hpos. apply wp_bind. eapply wp_GetLength; [done|].
  eapply (wp_mono _ (λ _ w', stale_inv 0 w') _ X); [|intros []; apply HQ|done].
  apply (wp_down_loop stale_inv).
  2: { exists its0. rewrite take_ge, drop_ge by (rewrite length_fmap; lia). rewrite app_nil_r.
       split_and!; try done. intros _ c Hcp. by exists c. }
  intros k w Hk Hst. destruct (lookup_lt_is_Some_2 (strip <$> its0) k) as [x Hx].
  { rewrite length_fmap. lia. }
  destruct (negb (Z.of_nat k =? protected_pos)%Z) eqn:Ecp.
  2: { apply wp_ret. eapply stale_keep; [exact Hx|by rewrite Ecp|done]. }
  pose proof Hst as (its & Hi & Hs & Hf & Hb & Hp & Hpr).
  assert (Hsk : (strip <$> its) !! k = Some x).
  { pose proof (lookup_lt_Some _ _ _ Hx). rewrite Hs, lookup_app_l by (rewrite length_take; lia).
    by rewrite lookup_take_lt by lia. }
  rewrite list_lookup_fmap in Hsk. destruct (its !! k) as [it|] eqn:Hit; [|done].
  injection Hsk as <-.
  apply wp_bind. eapply wp_Get; [apply Hi|exact Hit|].
  destruct (Song.IsURI (Queue.song_data it) uri) eqn:Eu.
  2: { apply wp_ret. eapply stale_keep; [exact Hx|by rewrite Ecp|done]. }
  pose proof (lookup_lt_Some _ _ _ Hit) as Hklt.
  rewrite (r_len _ _ (c_repr _ _ (i_core _ _ Hi))) in Hklt.
  eapply DeletePosition_ok; [done| |lia]. intros _ its' w' Hrm.
  eapply (stale_drop k w its w' its'); [exact Hx|lia|exact Eu|done..].
Qed.

End StaleSong.

End Facts.
End PlaylistDelete.
