(* ===== verification/PlaylistControl.v ===== *)
(** * Playback control

    [PlaylistControl.cxx] and the event handlers of [Playlist.cxx]: every method
    re-establishes the playlist invariant, on success and when it throws. *)

From Stdlib Require Import ZArith Lia ZifyBool.
From stdpp Require Import base numbers sets list.
From S2P Require Import Prelude IdTable RandomEngine Queue QueueFacts QueueEdit QueueOrder.
From S2P Require Import QueuePriority CString Tag Song Prog Player Playlist PlaylistFacts.
From S2P Require Import PlaylistDelete.

Set Default Goal Selector "!".

Module PlaylistControl.
Import Playlist PlaylistFacts PlaylistDelete.
Import QueueFacts QueueEdit QueueOrder QueuePriority.

#[local] Abbreviation llen := List.length.
#[local] Abbreviation Item := (Queue.Item Song.DetachedSong).

Section Facts.
Context {G T : Type} `{!RandomEngine G, !RandomEngineLaws G}.
Context {HPT : Player.PlayerThread T} {HPL : Player.PlayerThreadLaws T} {HAL : Allocator}.
Implicit Types (w : world G T) (its : list Item) (it : Item).
Implicit Types q : Queue.Queue Song.DetachedSong G.

#[local] Abbreviation q_of w := (queue (pl w)).
#[local] Abbreviation next_of w := (Player.next_song (Player.pc (player w))).
#[local] Abbreviation len_of w := (Queue.length (queue (pl w))).

(** Some item list makes the invariant true. *)
Definition good w : Prop := ∃ its, inv its w.

Lemma good_intro its w : inv its w → good w.
Proof. by exists its. Qed.

(** The current song and its id. *)
Definition cur_song its w : option (nat * Song.DetachedSong * nat) :=
  cur_pos w ≫= λ p, (strip <$> its) !! p.

Lemma delete_shift {A} (l : list A) i p : p ≠ i → delete i l !! shift_pos i p = l !! p.
Proof.
  intros Hne. unfold shift_pos. case_match.
  - rewrite list_lookup_delete_ge by lia. f_equal. lia.
  - rewrite list_lookup_delete_lt by lia. done.
Qed.

(** Removing another song does not change the current one. *)
Lemma removed_cur_song its w p its' w' : removed its w p its' w' → cur_pos w ≠ Some p →
  cur_song its' w' = cur_song its w.
Proof.
  intros [_ Hs _ _ _ _ Hc] Hne. destruct (Hc Hne) as [_ Hcp]. unfold cur_song.
  rewrite Hcp, Hs. destruct (cur_pos w) as [c|]; simpl; [|done].
  apply delete_shift. congruence.
Qed.

Lemma modified_cur_song its w its' w' : modified its w its' w' → cur_song its' w' = cur_song its w.
Proof. intros [_ Hs [_ _ _ Hc] _ _ _ _]. unfold cur_song. by rewrite Hs, Hc. Qed.

(** A playing world in which nothing is queued. *)
Lemma inv_restart its w (o : Z) v : core its w → Player.ready v →
  Player.next_song (Player.pc v) = None → (0 ≤ o < Z.of_nat (len_of w))%Z →
  inv its (mkWorld (put_queued (-1) (put_current o (pl w))) v (events w)).
Proof.
  intros [] Hv Hn Ho. split; pl_simpl; try done; [split; pl_simpl; try done; lia|..]; lia.
Qed.

Lemma QueuedSongStarted_ok w its itq Q X : inv its w → playing (pl w) = true →
  order_item w its (queued (pl w)) = Some itq → next_of w = None →
  (Queue.consume (q_of w) = true → queued (pl w) ≠ current (pl w)) →
  (∀ its' w' cp, inv its' w' → playing (pl w') = true → cur_pos w = Some cp →
     strip <$> its' = (if Queue.consume (q_of w) then delete cp (strip <$> its)
                       else strip <$> its) →
     cur_song its' w' = Some (strip itq) → Q tt w') →
  wp (QueuedSongStarted (T:=T)) Q X w.
Proof.
  intros Hi Hp Hoi Hn Hcons HQ. pose proof (i_core _ _ Hi) as Hc. unfold QueuedSongStarted.
  pose proof (order_item_lt _ _ _ _ Hc Hoi) as Hqr. pose proof (c_current _ _ Hc) as Hcr.
  pose proof (c_playing _ _ Hc Hp) as H0.
  destruct (order_lookup w its (current (pl w)) Hc) as (cp & itc & Hcp & _); [lia|].
  destruct (order_lookup w its (queued (pl w)) Hc) as (qp & itq' & Hqp & Hitq & _ & _ & _ & Hoi'); [lia|].
  simplify_eq. apply wp_bind, wp_player, wp_bind, Player.wp_Lock; [apply Hc|].
  intros v Hv Hk _ _. pose proof (Player.keeps_none _ _ Hk Hn) as Hvn.
  apply Player.wp_assert_no_next; [done|]. apply wp_bind, wp_read_pl. pl_simpl.
  apply wp_bind, wp_assert; [lia|]. apply wp_bind, wp_assert; [lia|].
  unfold set_current, set_queued. apply wp_bind, wp_upd_pl, wp_bind, wp_upd_pl. pl_simpl.
  set (w1 := mkWorld _ _ _).
  assert (Hi1 : inv its w1) by (by apply inv_restart).
  assert (Hcp1 : cur_pos w1 = Some qp).
  { unfold cur_pos. subst w1. pl_simpl. by replace (0 <=? queued (pl w))%Z with true by lia. }
  assert (Hcs1 : cur_song its w1 = Some (strip itq)).
  { unfold cur_song. rewrite Hcp1. simpl. by rewrite list_lookup_fmap, Hitq. }
  assert (Hcpw : cur_pos w = Some cp).
  { unfold cur_pos. by replace (0 <=? current (pl w))%Z with true by lia. }
  assert (Hfin : ∀ its2 w2, inv its2 w2 → playing (pl w2) = true →
    strip <$> its2 = (if Queue.consume (q_of w) then delete cp (strip <$> its) else strip <$> its) →
    cur_song its2 w2 = Some (strip itq) →
    wp (bind (notify OnQueueSongStarted) (λ _, SongStarted (T:=T))) Q X w2).
  { intros its2 w2 Hi2 Hp2 Hs2 Hcs2. apply wp_bind, wp_notify.
    assert (Hc2 : (0 ≤ current (pl w2))%Z) by (by apply (i_core _ _ Hi2)).
    eapply SongStarted_ok; [by eapply inv_ext; [exact Hi2|..]|done|].
    intros its' w' Hm. pose proof (modified_cur_song _ _ _ _ Hm) as Hcs'.
    destruct Hm as [Hm1 Hm2 [Hm3 _ _ _] _ _ _ _]. pl_simpl.
    apply (HQ its' w' cp); [done|congruence|done|congruence|by etrans; [exact Hcs'|]]. }
  apply wp_bind. destruct (Queue.consume (q_of w)) eqn:Econ.
  - specialize (Hcons eq_refl). rewrite <-(Z2Nat.id (current (pl w))) by lia.
    assert (Hne : qp ≠ cp).
    { intros ->. apply Hcons. enough (Z.to_nat (queued (pl w)) = Z.to_nat (current (pl w))) by lia.
      eapply NoDup_lookup; [|exact Hqp|exact Hcp].
      by apply (perm_seq_elim _ _ (r_order _ _ (c_repr _ _ Hc))). }
    eapply (DeleteOrder_ok w1); [done|exact Hcp|]. intros its2 w2 Hrm.
    pose proof (removed_cur_song _ _ _ _ _ Hrm ltac:(congruence)) as Hcs2.
    destruct Hrm as [Hr1 Hr2 _ _ _ _ Hr7]. destruct Hr7 as [Hr7 _]; [congruence|].
    apply (Hfin its2); [done|by rewrite Hr7|done|congruence].
  - apply wp_ret. by apply (Hfin its).
Qed.

Lemma PlayNext_ok w its Q (X : exn → world G T → Prop) : inv its w →
  (playing (pl w) = true → ∀ w', good w' → Q tt w') →
  (∀ e w', good w' → X e w') →
  wp (PlayNext (T:=T)) Q X w.
Proof.
  intros Hi HQ HX. pose proof (i_core _ _ Hi) as Hc. unfold PlayNext.
  apply wp_bind, wp_read_pl. destruct (playing (pl w)) eqn:Hp; cbn [negb].
  2: { apply wp_throw, HX. by exists its. }
  specialize (HQ eq_refl). pose proof (c_current _ _ Hc) as Hcr. pose proof (c_playing _ _ Hc Hp) as H0.
  apply wp_bind, wp_assert; [unfold Queue.IsEmpty; lia|].
  apply wp_bind. eapply wp_lift; [by apply to_unsigned_pos|].
  apply wp_bind, wp_assert; [unfold Queue.IsValidOrder; lia|]. apply wp_bind, wp_upd_pl.
  set (w1 := mkWorld _ _ _). assert (Hc1 : core its w1) by (by eapply core_ext).
  destruct (GetNextOrder_ok w1 its Hc1 H0) as (n & Hn & Hrange & Hgn).
  apply wp_bind. eapply wp_qask; [exact Hn|].
  assert (Hdone : ∀ its2 w2, inv its2 w2 → len_of w2 = len_of w →
    current (pl w2) ≠ current (pl w) ∨ Queue.consume (q_of w2) = false →
    wp (bind (read_pl (T:=T)) (λ p, if Queue.consume (queue p) then DeleteOrder (current (pl w)) else ret tt))
      Q X w2).
  { intros its2 w2 Hi2 Hlen2 Hor. apply wp_bind, wp_read_pl.
    destruct (Queue.consume (q_of w2)) eqn:Econ; [|apply wp_ret, HQ; by exists its2].
    rewrite <-(Z2Nat.id (current (pl w))) by lia. pose proof (i_core _ _ Hi2) as Hc2.
    destruct (order_lookup w2 its2 (current (pl w)) Hc2) as (p & it & Hpo & _); [lia|].
    eapply DeleteOrder_ok; [done|exact Hpo|]. intros its3 w3 Hrm. apply HQ. by exists its3; apply Hrm. }
  apply wp_bind. destruct (n <? 0)%Z eqn:En.
  - apply wp_bind. eapply Stop_ok; [done|subst w1; pl_simpl; congruence|].
    intros w2 [Ht1 Ht2 Ht3 _ _ _]. unfold set_current. apply wp_upd_pl.
    eapply (Hdone its); pl_simpl; [|by apply cfg_length in Ht3|left; lia].
    destruct Ht1 as [[] Hs Hnn Hrg Hu]. split; pl_simpl; try done; try congruence.
    split; pl_simpl; try done; [lia|congruence].
  - assert (Hcn : Queue.consume (q_of w) = true → n ≠ current (pl w)).
    { intros Hco. unfold Queue.GetNextOrder in Hgn. subst w1. pl_simpl. rewrite Hco in Hgn.
      rewrite check_bind in Hgn by lia. rewrite andb_false_r in Hgn.
      repeat case_match; simplify_eq; lia. }
    assert (Hplay : ∀ w2, core its w2 → qcfg (q_of w2) = qcfg (q_of w) →
      wp (PlayOrder (T:=T) (Z.to_nat n)) (λ _ w3,
        wp (bind (read_pl (T:=T)) (λ p, if Queue.consume (queue p)
              then DeleteOrder (current (pl w)) else ret tt)) Q X w3) X w2).
    { intros w2 Hc2 Hcfg2. assert (Hlen2 : len_of w2 = len_of w) by (unfold qcfg in Hcfg2; congruence).
      eapply (PlayOrder_ok w2 its); [done|subst w1; pl_simpl; lia| |].
      - intros its3 w3 [Hs1 Hs2 _ Hs4 _ Hs6 _ _]. apply (Hdone its3); [done|unfold qcfg in *; congruence|].
        rewrite Hs4, Z2Nat.id by lia. destruct (Queue.consume (q_of w)) eqn:Eco; [left; auto|].
        right. unfold qcfg in *. congruence.
      - intros e w3 [Hs1 _ _ _ _ _ _ _]. apply HX. by exists its. }
    apply wp_bind. destruct ((n =? 0)%Z && Queue.random (q_of w)) eqn:Er.
    + apply andb_true_iff in Er as [E0 Er]. apply wp_bind, wp_assert.
      { unfold Queue.GetNextOrder in Hgn. subst w1. pl_simpl. rewrite check_bind in Hgn by lia.
        destruct (Queue.repeat (q_of w)); [done|]. rewrite !andb_false_r in Hgn. simpl in Hgn.
        case_match; simplify_eq; lia. }
      destruct (ShuffleOrder_ok _ _ (c_repr _ _ Hc1) Er) as (q' & Hq' & Hr' & Hcfg & _).
      eapply wp_qdo; [exact Hq'|]. apply Hplay; [|by apply cfg_qcfg].
      destruct Hc1. split; pl_simpl; try done.
      * unfold plain_order. rewrite (cfg_random _ _ Hcfg). subst w1. pl_simpl. congruence.
      * by rewrite (cfg_length _ _ Hcfg).
    + apply wp_ret. by apply Hplay.
Qed.

(** ** Playing a given song *)

Lemma PlayOrder_good w its o Q (X : exn → world G T → Prop) : core its w → o < len_of w →
  (∀ w', good w' → playing (pl w') = true → current (pl w') = Z.of_nat o → Q tt w') →
  (∀ e w', good w' → X e w') →
  wp (PlayOrder (T:=T) o) Q X w.
Proof.
  intros Hc Ho HQ HX. eapply PlayOrder_ok; [done|done|..].
  - intros its' w' [H1 _ H3 H4 _ _ _ _]. apply HQ; try done. by exists its'.
  - intros e w' [H1 _ _ _ _ _ _ _]. apply HX. by exists its.
Qed.

(** The part of [PlayPosition] behind the argument checks. *)
Definition play_selected (song i : Z) : prog (world G T) unit :=
  bind read_pl (λ p,
  bind (if Queue.random (queue p) then
          bind (if (0 <=? song)%Z
                then bind (qask (λ q, Queue.PositionToOrder q (Z.to_nat song)))
                       (λ o, ret (Z.of_nat o))
                else ret i) (λ i,
          bind (if negb (playing p) then set_current 0 else ret tt) (λ _,
          bind read_pl (λ p,
          bind (lift (to_unsigned i)) (λ o1,
          bind (lift (to_unsigned (current p))) (λ o2,
          bind (qdo (Queue.SwapOrders o1 o2)) (λ _,
          ret (current p)))))))
        else ret i) (λ i,
  bind (upd_pl (put_stop_on_error false)) (λ _,
  bind (upd_pl (put_error_count 0)) (λ _,
  bind (lift (to_unsigned i)) (λ o,
  PlayOrder o))))).

(** Exchanging two order numbers in random mode. *)
Lemma swap_orders_core w its o1 o2 Q X : core its w → Queue.random (q_of w) = true →
  o1 < len_of w → o2 < len_of w →
  (∀ q', core its (mkWorld (put_queue q' (pl w)) (player w) (events w)) →
     cfg q' = cfg (q_of w) → ord q' !! o2 = ord (q_of w) !! o1 →
     Q tt (mkWorld (put_queue q' (pl w)) (player w) (events w))) →
  wp (qdo (T:=T) (Queue.SwapOrders o1 o2)) Q X w.
Proof.
  intros Hc Hr H1 H2 HQ.
  destruct (SwapOrders_ok _ _ o1 o2 (c_repr _ _ Hc) H1 H2) as (p1 & p2 & q' & Hp1 & Hp2 & Hq & Hr' & Hcfg & _ & Ho).
  eapply wp_qdo; [exact Hq|]. apply HQ; [|done|].
  - destruct Hc. split; pl_simpl; try done.
    + unfold plain_order. rewrite (cfg_random _ _ Hcfg). congruence.
    + by rewrite (cfg_length _ _ Hcfg).
  - rewrite Ho, Hp1. rewrite list_lookup_insert_eq; [done|].
    rewrite length_insert, (repr_ord_len _ _ (c_repr _ _ Hc)). lia.
Qed.

(** Playback has been started at the requested position. *)
Definition plays its (song : Z) w' : Prop :=
  ∃ its', inv its' w' ∧ strip <$> its' = strip <$> its ∧ playing (pl w') = true ∧
    ((0 ≤ song)%Z → cur_pos w' = Some (Z.to_nat song)).

Lemma play_selected_ok w its song i Q (X : exn → world G T → Prop) : core its w →
  (0 ≤ i < Z.of_nat (len_of w))%Z → (song < Z.of_nat (len_of w))%Z → ((0 ≤ song)%Z → i = song) →
  (∀ w', plays its song w' → Q tt w') →
  (∀ e w', plays its song w' → X e w') →
  wp (play_selected song i) Q X w.
Proof.
  intros Hc Hi Hsong Hsi HQ HX. unfold play_selected. apply wp_bind, wp_read_pl, wp_bind.
  assert (Hplay : ∀ w1 j, core its w1 → len_of w1 = len_of w → (0 ≤ j < Z.of_nat (len_of w))%Z →
    ((0 ≤ song)%Z → ord (q_of w1) !! Z.to_nat j = Some (Z.to_nat song)) →
    wp (bind (upd_pl (put_stop_on_error false)) (λ _,
        bind (upd_pl (put_error_count 0)) (λ _,
        bind (lift (to_unsigned j)) (λ o, PlayOrder (T:=T) o)))) Q X w1).
  { intros w1 j Hc1 Hl1 Hj Hoj. apply wp_bind, wp_upd_pl, wp_bind, wp_upd_pl, wp_bind.
    eapply wp_lift; [apply to_unsigned_pos; lia|].
    assert (Hst : ∀ its' w2 w3, started its w2 (Z.to_nat j) its' w3 → q_of w2 = q_of w1 →
      plays its song w3).
    { intros its' w2 w3 [S1 S2 S3 S4 S5 S6 S7 S8] Hq. exists its'. split_and!; try done.
      intros H0. unfold cur_pos. rewrite S4, S7, Hq. replace (0 <=? _)%Z with true by lia.
      rewrite Nat2Z.id. by apply Hoj. }
    eapply (PlayOrder_ok _ its); [by eapply core_ext|pl_simpl; lia|..].
    - intros its' w' Hs. apply HQ. by eapply Hst.
    - intros e w' Hs. apply HX. by eapply Hst. }
  destruct (Queue.random (q_of w)) eqn:Hr.
  2: { apply wp_ret, Hplay; try done. intros H0. rewrite Hsi by done.
       rewrite (c_plain _ _ Hc Hr). apply lookup_seq_lt. lia. }
  apply wp_bind.
  assert (Hsel : ∀ R : Z → world G T → Prop,
    (∀ j, (0 ≤ j < Z.of_nat (len_of w))%Z →
       ((0 ≤ song)%Z → ord (q_of w) !! Z.to_nat j = Some (Z.to_nat song)) → R j w) →
    wp (if (0 <=? song)%Z
        then bind (qask (T:=T) (λ q, Queue.PositionToOrder q (Z.to_nat song))) (λ o, ret (Z.of_nat o))
        else ret i) R X w).
  { intros R HR. destruct (0 <=? song)%Z eqn:E; [|by apply wp_ret, HR; [|lia]].
    destruct (PositionToOrder_ok (q_of w) its (Z.to_nat song) (c_repr _ _ Hc)) as (o & Ho & Hop & Holt); [lia|].
    apply wp_bind. eapply wp_qask; [exact Ho|]. apply wp_ret, HR; [lia|]. by rewrite Nat2Z.id. }
  apply Hsel. clear Hsel. intros j Hj Hoj. apply wp_bind.
  assert (Hswap : ∀ w1, core its w1 → q_of w1 = q_of w → (0 ≤ current (pl w1))%Z →
    wp (bind read_pl (λ p, bind (lift (to_unsigned j)) (λ o1,
        bind (lift (to_unsigned (current p))) (λ o2,
        bind (qdo (T:=T) (Queue.SwapOrders o1 o2)) (λ _, ret (current p))))))
      (λ i w', wp (bind (upd_pl (put_stop_on_error false)) (λ _,
        bind (upd_pl (put_error_count 0)) (λ _,
        bind (lift (to_unsigned i)) (λ o, PlayOrder (T:=T) o)))) Q X w') X w1).
  { intros w1 Hc1 Hq1 H01. pose proof (c_current _ _ Hc1) as Hcr1. rewrite Hq1 in Hcr1.
    apply wp_bind, wp_read_pl, wp_bind. eapply wp_lift; [apply to_unsigned_pos; lia|]. apply wp_bind.
    eapply wp_lift; [by apply to_unsigned_pos|]. apply wp_bind.
    eapply swap_orders_core; [done|congruence|rewrite Hq1; lia|rewrite Hq1; lia|].
    intros q' Hc' Hcfg Hsw. apply wp_ret, Hplay;
      [done|pl_simpl; rewrite (cfg_length _ _ Hcfg); by rewrite Hq1|lia|].
    intros H0. pl_simpl. rewrite Hsw, Hq1. by apply Hoj. }
  destruct (playing (pl w)) eqn:Hp; cbn [negb].
  - apply wp_ret, Hswap; [done|done|by apply Hc].
  - unfold set_current. apply wp_upd_pl. apply Hswap; pl_simpl; [|done|lia].
    destruct Hc. split; pl_simpl; try done; lia.
Qed.

(** [PlayPosition] of a valid position plays the song there, in random mode too. *)
Lemma PlayPosition_at w its (song : nat) Q (X : exn → world G T → Prop) : inv its w →
  song < len_of w →
  (∀ w', plays its (Z.of_nat song) w' → Q tt w') →
  (∀ e w', plays its (Z.of_nat song) w' → X e w') →
  wp (PlayPosition (T:=T) (Z.of_nat song)) Q X w.
Proof.
  intros Hi Hs HQ HX. unfold PlayPosition. apply wp_bind, wp_player.
  apply Player.LockClearError_ok; [apply Hi|]. intros v Hv Hk _.
  pose proof (i_core _ _ (inv_keeps _ _ _ Hi Hv Hk)) as Hc1. pl_simpl.
  apply wp_bind, wp_read_pl. pl_simpl. replace (Z.of_nat song =? -1)%Z with false by lia.
  replace (_ && _) with true by (unfold Queue.IsValidPosition; lia). cbn [negb].
  eapply (play_selected_ok _ its); [done|..]; pl_simpl; try done; lia.
Qed.

Lemma PlayPosition_ok w its song Q (X : exn → world G T → Prop) : inv its w →
  (∀ w', good w' → Q tt w') → (∀ e w', good w' → X e w') →
  wp (PlayPosition (T:=T) song) Q X w.
Proof.
  intros Hi HQ HX. unfold PlayPosition. apply wp_bind, wp_player.
  apply Player.LockClearError_ok; [apply Hi|]. intros v Hv Hk _.
  pose proof (inv_keeps _ _ _ Hi Hv Hk) as Hi1. pose proof (i_core _ _ Hi1) as Hc1.
  pose proof (c_current _ _ Hc1) as Hcr. pl_simpl.
  assert (HQ' : ∀ z w', plays its z w' → Q tt w') by (intros z w' (its' & ? & _); apply HQ; by exists its').
  assert (HX' : ∀ z e w', plays its z w' → X e w') by (intros z e w' (its' & ? & _); apply HX; by exists its').
  apply wp_bind, wp_read_pl. pl_simpl. destruct (song =? -1)%Z eqn:Es.
  - destruct (Queue.IsEmpty (q_of w)) eqn:Ee; [by apply wp_ret, HQ; exists its|].
    unfold Queue.IsEmpty in Ee. destruct (playing (pl w)) eqn:Hp.
    + apply wp_player. apply Player.LockSetPause_ok; [done|]. intros v2 Hv2 Hk2 _.
      apply HQ. exists its. apply (inv_keeps _ _ _ Hi1 Hv2 Hk2).
    + eapply (play_selected_ok _ its); [done| | | |by apply HQ'|by apply HX']; pl_simpl; [case_match| |]; lia.
  - destruct (_ && _) eqn:E; cbn [negb].
    + apply andb_true_iff in E as [E1 E2]. unfold Queue.IsValidPosition in E2.
      eapply (play_selected_ok _ its); [done| | | |by apply HQ'|by apply HX']; pl_simpl; lia.
    + apply wp_throw, HX. by exists its.
Qed.

Lemma PlayId_ok w its id Q (X : exn → world G T → Prop) : inv its w →
  (∀ w', good w' → Q tt w') → (∀ e w', good w' → X e w') →
  wp (PlayId (T:=T) id) Q X w.
Proof.
  intros Hi HQ HX. unfold PlayId. case_match; [by eapply PlayPosition_ok|].
  apply wp_bind. eapply wp_IdToPosition; [apply Hi|..].
  - intros p it _ _ _. case_match; [apply wp_throw, HX; by exists its|]. by eapply PlayPosition_ok.
  - intros _ z Hz. replace (z <? 0)%Z with true by lia. rewrite orb_true_r.
    apply wp_throw, HX. by exists its.
Qed.

Lemma PlayPrevious_ok w its Q (X : exn → world G T → Prop) : inv its w →
  (∀ w', good w' → Q tt w') → (∀ e w', good w' → X e w') →
  wp (PlayPrevious (T:=T)) Q X w.
Proof.
  intros Hi HQ HX. pose proof (i_core _ _ Hi) as Hc. unfold PlayPrevious. apply wp_bind, wp_read_pl.
  destruct (playing (pl w)) eqn:Hp; cbn [negb]; [|apply wp_throw, HX; by exists its].
  pose proof (c_current _ _ Hc). pose proof (c_playing _ _ Hc Hp).
  apply wp_bind, wp_assert; [unfold Queue.IsEmpty; lia|]. apply wp_bind. eapply wp_GetLength; [done|].
  apply wp_bind. eapply wp_lift; [apply to_unsigned_pos; repeat case_match; lia|].
  eapply PlayOrder_good; [done|repeat case_match; lia|auto|auto].
Qed.

(** ** Seeking *)

(** A seek that fails may find the song it cancelled still registered; the assertion
    of [UpdateQueuedSong] then fails.  Outside that case every seek is safe. *)
Definition seek_safe w (i : nat) : Prop :=
  playing (pl w) = false ∨ current (pl w) ≠ Z.of_nat i ∨ (queued (pl w) < 0)%Z.

Lemma SeekSongOrder_ok w its i t Q (X : exn → world G T → Prop) : inv its w →
  i < len_of w → seek_safe w i →
  (∀ w', good w' → Q tt w') → (∀ e w', good w' → X e w') →
  wp (SeekSongOrder (T:=T) i t) Q X w.
Proof.
  intros Hi Hlt Hsafe HQ HX. pose proof (i_core _ _ Hi) as Hc. unfold SeekSongOrder.
  apply wp_bind, wp_read_pl, wp_bind, wp_assert; [unfold Queue.IsValidOrder; lia|].
  apply wp_bind. eapply GetQueuedSong_ok; [done|]. intros prev Hl Hlin.
  apply wp_bind, wp_player, Player.LockClearError_ok; [apply Hc|]. intros v Hv Hk _.
  apply wp_bind, wp_upd_pl, wp_bind, wp_upd_pl. pl_simpl. apply wp_bind.
  set (w1 := mkWorld _ _ _).
  assert (Hc1 : core its w1) by (by eapply core_ext; [apply core_keeps; [exact Hc|exact Hv]|..]).
  assert (Hsel : ∀ R : song_ptr → world G T → Prop,
    (∀ w2, core its w2 → len_of w2 = len_of w → playing (pl w2) = true →
       current (pl w2) = Z.of_nat i → R None w2) →
    wp (if negb (playing (pl w)) || negb (current (pl w) =? Z.of_nat i)%Z
        then bind (set_playing true) (λ _, bind (set_current (Z.of_nat i)) (λ _, ret None))
        else ret prev) R X w1).
  { intros R HR. destruct (negb (playing (pl w)) || _) eqn:E.
    - unfold set_playing, set_current. apply wp_bind, wp_upd_pl, wp_bind, wp_upd_pl, wp_ret, HR; try done.
      destruct Hc1. split; subst w1; pl_simpl; try done; lia.
    - apply orb_false_iff in E as [E1%negb_false_iff E2%negb_false_iff].
      assert (Hneg : (queued (pl w) < 0)%Z) by (destruct Hsafe as [|[|]]; [congruence|lia|done]).
      rewrite (proj1 (l_sign _ _ _ Hl E1) Hneg). apply wp_ret, HR; try done. subst w1; pl_simpl. lia. }
  apply Hsel. clear Hsel. intros w2 Hc2 Hl2 Hp2 Hcu2. unfold set_queued. apply wp_bind, wp_upd_pl.
  destruct (order_lookup w2 its (Z.of_nat i) Hc2) as (p & it & _ & _ & _ & _ & Hg & _); [lia|].
  unfold GetOrder in Hg. rewrite to_unsigned_nat in Hg.
  apply wp_bind. eapply wp_qask; [exact Hg|]. apply wp_bind, wp_try, wp_player. pl_simpl.
  assert (Hupd : ∀ v' R, Player.ready v' → Player.next_song (Player.pc v') = None →
    (∀ w', good w' → R tt w') →
    wp (UpdateQueuedSong (T:=T) None) R X (mkWorld (put_queued (-1) (pl w2)) v' (events w2))).
  { intros v' R Hv' Hn' HR. eapply (UpdateQueuedSong_ok _ its).
    - by apply core_requeue.
    - apply linked_null; [right; pl_simpl; lia|done].
    - intros w' Hu. apply HR. exists its. apply Hu. }
  apply Player.LockSeek_ok; [apply Hc2|..].
  - intros v' Hv' Hn' _. by apply Hupd.
  - intros e v' Hv' Hn' _. apply wp_bind, Hupd; [done|done|]. intros w' Hg'. by apply wp_throw, HX.
Qed.

Lemma SeekSongPosition_ok w its song t Q (X : exn → world G T → Prop) : inv its w →
  (∀ i, i < len_of w → ord (q_of w) !! i = Some song → seek_safe w i) →
  (∀ w', good w' → Q tt w') → (∀ e w', good w' → X e w') →
  wp (SeekSongPosition (T:=T) song t) Q X w.
Proof.
  intros Hi Hsafe HQ HX. pose proof (i_core _ _ Hi) as Hc. unfold SeekSongPosition.
  apply wp_bind, wp_read_pl. unfold Queue.IsValidPosition.
  destruct (song <? len_of w) eqn:E; cbn [negb]; [|apply wp_throw, HX; by exists its].
  apply wp_bind. destruct (Queue.random (q_of w)) eqn:Er.
  - destruct (PositionToOrder_ok (q_of w) its song (c_repr _ _ Hc)) as (o & Ho & Hos & Hlt); [lia|].
    eapply wp_qask; [exact Ho|]. eapply SeekSongOrder_ok; eauto.
  - apply wp_ret. eapply SeekSongOrder_ok; eauto; [lia|]. apply Hsafe; [lia|].
    rewrite (c_plain _ _ Hc Er). apply lookup_seq. lia.
Qed.

(** The song of order number [i], addressed by the position of its item. *)
Definition seek_position_safe w (song : nat) : Prop :=
  ∀ i, i < len_of w → ord (q_of w) !! i = Some song → seek_safe w i.

Lemma SeekSongId_ok w its id t Q (X : exn → world G T → Prop) : inv its w →
  (∀ p it, its !! p = Some it → Queue.id it = id → seek_position_safe w p) →
  (∀ w', good w' → Q tt w') → (∀ e w', good w' → X e w') →
  wp (SeekSongId (T:=T) id t) Q X w.
Proof.
  intros Hi Hsafe HQ HX. unfold SeekSongId. apply wp_bind. eapply wp_IdToPosition; [apply Hi|..].
  - intros p it Hit Hid Hlt. replace (Z.of_nat p <? 0)%Z with false by lia. rewrite Nat2Z.id.
    eapply SeekSongPosition_ok; [done|by eapply Hsafe|done|done].
  - intros _ z Hz. replace (z <? 0)%Z with true by lia. apply wp_throw, HX. by exists its.
Qed.

Lemma SeekCurrent_ok w its t relative Q (X : exn → world G T → Prop) : inv its w →
  (playing (pl w) = true → (queued (pl w) < 0)%Z) →
  (∀ w', good w' → Q tt w') → (∀ e w', good w' → X e w') →
  wp (SeekCurrent (T:=T) t relative) Q X w.
Proof.
  intros Hi Hsafe HQ HX. pose proof (i_core _ _ Hi) as Hc. unfold SeekCurrent.
  apply wp_bind, wp_read_pl. destruct (playing (pl w)) eqn:Hp; cbn [negb].
  2: { apply wp_throw, HX. by exists its. }
  specialize (Hsafe eq_refl). pose proof (c_current _ _ Hc). pose proof (c_playing _ _ Hc Hp).
  assert (Hgo : ∀ v t', Player.ready v → Player.keeps (player w) v →
    wp (bind (lift (to_unsigned (current (pl w)))) (λ o,
        SeekSongOrder (T:=T) o (Song.SongTime_of (if Tag.IsNegative t' then 0%Z else t')))) Q X
      (mkWorld (pl w) v (events w))).
  { intros v t' Hv Hk. apply wp_bind. eapply wp_lift; [by apply to_unsigned_pos|].
    eapply SeekSongOrder_ok; [by apply inv_keeps|pl_simpl; lia| |auto|auto]. by right; right. }
  apply wp_bind. destruct relative.
  - apply wp_bind, wp_player, Player.LockGetStatus_ok; [apply Hc|]. intros st v Hv Hk _.
    destruct (Player.status_detail st) as [[[[? ?] ?] el]|].
    + by apply wp_ret, Hgo.
    + apply wp_throw, HX. exists its. by apply inv_keeps.
  - apply wp_ret. specialize (Hgo (player w) t (c_ready _ _ Hc)).
    destruct w as [? ? ?]. apply Hgo. by left.
Qed.

End Facts.
End PlaylistControl.
