(* ===== verification/PlaylistEdits.v ===== *)
(** * Player events and options of the playlist

    [SyncWithPlayer], [ResumePlayback] and the setters of the playback options in
    [Playlist.cxx]. *)

From Stdlib Require Import ZArith Lia ZifyBool.
From stdpp Require Import base numbers sets list.
From S2P Require Import Prelude IdTable RandomEngine Queue QueueFacts QueueEdit QueueOrder QueuePriority CString Tag Song Prog Player Playlist PlaylistFacts PlaylistDelete PlaylistControl.

Set Default Goal Selector "!".

Module PlaylistOptions.
Import Playlist PlaylistFacts PlaylistDelete PlaylistControl.
Import QueueFacts QueueEdit QueueOrder QueuePriority.

#[local] Abbreviation llen := List.length.
#[local] Abbreviation Item := (Queue.Item Song.DetachedSong).

Section Facts.
Context {G T : Type} `{!RandomEngine G, !RandomEngineLaws G}.
Context {HPT : Player.PlayerThread T} {HPL : Player.PlayerThreadLaws T} {HAL : Allocator}.
Implicit Types (w : world G T) (its : list Item) (it : Item).
Implicit Types q : Queue.Queue Song.DetachedSong G.

#[local] Abbreviation q_of w := (queue (pl w)).
#[local] Abbreviation next_of w := (Player.next_song (Player.pc (player w))).
#[local] Abbreviation len_of w := (Queue.length (queue (pl w))).

(** ** Events from the player *)

Lemma ResumePlayback_ok w its Q X : inv its w → playing (pl w) = true →
  Player.state (Player.pc (player w)) = Player.STATE_STOP →
  (∀ w', good w' → Q tt w') →
  wp (ResumePlayback (T:=T)) Q X w.
Proof.
  intros Hi Hp Hs HQ. unfold ResumePlayback. apply wp_bind, wp_read_pl, wp_bind, wp_assert; [done|].
  apply wp_bind, wp_player, Player.GetState_ok; [apply Hi|]. intros v Hv Hk _ Heq.
  specialize (Heq Hs). apply wp_bind, wp_assert; [by rewrite Heq, Hs|].
  apply wp_bind, wp_player. pl_simpl. apply Player.GetErrorType_ok; [done|].
  intros v2 Hv2 Hk2 _ _. apply wp_bind, wp_upd_pl, wp_bind, wp_read_pl, wp_bind. pl_simpl.
  set (w2 := mkWorld _ _ _).
  assert (Hi2 : inv its w2).
  { eapply inv_ext; [apply (inv_keeps _ _ v2 Hi Hv2)|..]; try done.
    by eapply Player.keeps_trans. }
  eapply wp_GetLength; [apply Hi2|]. destruct (_ || _).
  - eapply Stop_ok; [apply Hi2|apply Hi2|]. intros w' Ht. apply HQ. exists its. apply Ht.
  - apply wp_try. eapply PlayNext_ok; [done|auto|]. intros e w' Hg. by apply wp_ret, HQ.
Qed.

(** The queued song has not been made current yet under the consume flag. *)
Definition sync_safe w : Prop :=
  playing (pl w) = true → Queue.consume (q_of w) = true → queued (pl w) ≠ current (pl w).

Lemma linked_none its w : inv its w → (playing (pl w) = true → (queued (pl w) < 0)%Z) →
  linked its w None.
Proof.
  intros [Hc Hs Hn Hrg Hu] Hq. destruct (playing (pl w)) eqn:Hp.
  - apply linked_null; [by right; auto|]. apply Hn; auto.
  - apply linked_null; [by left|auto].
Qed.

Lemma SyncWithPlayer_ok w its Q X : inv its w → sync_safe w →
  (∀ w', good w' → Q tt w') →
  wp (SyncWithPlayer (T:=T)) Q X w.
Proof.
  intros Hi Hsafe HQ. unfold SyncWithPlayer. apply wp_bind, wp_read_pl.
  destruct (playing (pl w)) eqn:Hp; cbn [negb]; [|apply wp_ret, HQ; by exists its].
  apply wp_bind, wp_player, Player.LockRead_ok; [apply Hi|]. intros v Hv Hk _.
  pose proof (inv_keeps _ _ _ Hi Hv Hk) as Hi1. cbn [fst snd].
  case_bool_decide as Es.
  { by eapply ResumePlayback_ok. }
  assert (Htail : ∀ w1, good w1 →
    wp (bind (on_player (T:=T) Player.LockRead) (λ r, bind read_pl (λ p,
      if Player.is_null r.2 && (queued p <? 0)%Z then UpdateQueuedSong None else ret tt))) Q X w1).
  { intros w1 [its1 Hi1']. apply wp_bind, wp_player, Player.LockRead_ok; [apply Hi1'|].
    intros v1 Hv1 Hk1 _. pose proof (inv_keeps _ _ _ Hi1' Hv1 Hk1) as Hi2.
    apply wp_bind, wp_read_pl. cbn [fst snd]. destruct (_ && _) eqn:E; [|by apply wp_ret, HQ; exists its1].
    apply andb_true_iff in E as [_ E]. eapply UpdateQueuedSong_ok; [apply Hi2| |].
    - apply linked_none; [done|]. pl_simpl. lia.
    - intros w' Hu. apply HQ. exists its1. apply Hu. }
  apply wp_bind. destruct (Player.is_null _ && _) eqn:E; [|by apply wp_ret, Htail; exists its].
  apply andb_true_iff in E as [En Eq]. apply negb_true_iff in Eq.
  pose proof (i_core _ _ Hi1) as Hc1. pose proof (c_queued _ _ Hc1). pose proof (i_range _ _ Hi1 Hp).
  destruct (order_lookup _ its (queued (pl w)) Hc1) as (p & itq & _ & _ & _ & _ & _ & Hoi); [pl_simpl; lia|].
  eapply QueuedSongStarted_ok; [exact Hi1|done|exact Hoi| |by intros; apply Hsafe|].
  - pl_simpl. by destruct (Player.next_song (Player.pc v)).
  - intros its' w' cp Hi' _ _ _ _. apply Htail. by exists its'.
Qed.

(** ** Options *)

(** The options are not part of the representation. *)
Lemma repr_flags q q' its : repr q its →
  Queue.max_length q' = Queue.max_length q → Queue.length q' = Queue.length q →
  Queue.version q' = Queue.version q → Queue.items q' = Queue.items q →
  Queue.order q' = Queue.order q → Queue.id_table q' = Queue.id_table q → repr q' its.
Proof.
  intros Hr H1 H2 H3 H4 H5 H6. destruct q, q'. simpl in *. subst. split; apply Hr.
Qed.

(** Changing an option other than random mode. *)
Lemma set_option_inv w its (f : Queue.Queue Song.DetachedSong G → Queue.Queue Song.DetachedSong G) :
  inv its w → (∀ q its, repr q its → repr (f q) its) → (∀ q, ord (f q) = ord q) →
  (∀ q, Queue.length (f q) = Queue.length q) → (∀ q, Queue.random (f q) = Queue.random q) →
  inv its (mkWorld (put_queue (f (q_of w)) (pl w)) (player w) (events w)) ∧
  cur_song its (mkWorld (put_queue (f (q_of w)) (pl w)) (player w) (events w)) = cur_song its w.
Proof.
  intros Hi Hr Ho Hl Hrand. split.
  - apply (inv_put_queue _ _ its); try done; [by apply Hr, Hi|].
    intros p it Hit. by exists it.
  - unfold cur_song, cur_pos. pl_simpl. by rewrite Ho.
Qed.

(** The tail of [SetRepeat] and [SetSingle]. *)
Lemma option_tail_ok w its b Q X : inv its w →
  (∀ w', inv its w' → playing (pl w') = playing (pl w) → cur_pos w' = cur_pos w →
     cfg (q_of w') = cfg (q_of w) → Q tt w') →
  wp (bind (on_player (T:=T) (Player.LockSetBorderPause b)) (λ _,
      bind GetQueuedSong (λ prev,
      bind (UpdateQueuedSong prev) (λ _, notify OnQueueOptionsChanged)))) Q X w.
Proof.
  intros Hi HQ. apply wp_bind, wp_player, Player.LockSetBorderPause_ok; [apply Hi|].
  intros v Hv Hk _. pose proof (inv_keeps _ _ _ Hi Hv Hk) as Hi1.
  apply wp_bind. eapply GetQueuedSong_ok; [exact Hi1|]. intros prev Hl Hlin. apply wp_bind.
  eapply UpdateQueuedSong_ok; [apply Hi1|exact Hl|]. intros w1 [Hu1 [Hf1 _ _ Hf4] Hu3 _ _ _ _].
  apply wp_notify, HQ; [by eapply inv_ext|done|exact Hf4|done].
Qed.

Lemma SetRepeat_ok w its b Q X : inv its w →
  (∀ w', inv its w' → playing (pl w') = playing (pl w) → cur_song its w' = cur_song its w →
     Queue.repeat (q_of w') = b → Q tt w') →
  wp (SetRepeat (T:=T) b) Q X w.
Proof.
  intros Hi HQ. unfold SetRepeat. apply wp_bind, wp_read_pl. destruct (eqb _ _) eqn:E.
  { apply eqb_prop in E. by apply wp_ret, HQ. }
  apply wp_bind. eapply wp_qdo; [done|]. apply wp_bind, wp_read_pl.
  destruct (set_option_inv w its (λ q, Queue.set_repeat q b) Hi) as [Hi1 Hc1]; try done.
  { intros q its' Hr. by eapply repr_flags. }
  eapply option_tail_ok; [exact Hi1|]. intros w' Hi' Hp' Hcp' Hcfg'. apply HQ; [done|done| |].
  - rewrite <-Hc1. unfold cur_song. by rewrite Hcp'.
  - unfold cfg in Hcfg'. pl_simpl. simpl in Hcfg'. congruence.
Qed.

Lemma SetSingle_ok w its b Q X : inv its w →
  (∀ w', inv its w' → playing (pl w') = playing (pl w) → cur_song its w' = cur_song its w →
     Queue.single (q_of w') = b → Q tt w') →
  wp (SetSingle (T:=T) b) Q X w.
Proof.
  intros Hi HQ. unfold SetSingle. apply wp_bind, wp_read_pl. destruct (eqb _ _) eqn:E.
  { apply eqb_prop in E. by apply wp_ret, HQ. }
  apply wp_bind. eapply wp_qdo; [done|]. apply wp_bind, wp_read_pl.
  destruct (set_option_inv w its (λ q, Queue.set_single q b) Hi) as [Hi1 Hc1]; try done.
  { intros q its' Hr. by eapply repr_flags. }
  eapply option_tail_ok; [exact Hi1|]. intros w' Hi' Hp' Hcp' Hcfg'. apply HQ; [done|done| |].
  - rewrite <-Hc1. unfold cur_song. by rewrite Hcp'.
  - unfold cfg in Hcfg'. pl_simpl. simpl in Hcfg'. congruence.
Qed.

Lemma SetConsume_ok w its b Q X : inv its w →
  (∀ w', inv its w' → playing (pl w') = playing (pl w) → cur_song its w' = cur_song its w →
     Queue.consume (q_of w') = b → Q tt w') →
  wp (SetConsume (T:=T) b) Q X w.
Proof.
  intros Hi HQ. unfold SetConsume. apply wp_bind, wp_read_pl. destruct (eqb _ _) eqn:E.
  { apply eqb_prop in E. by apply wp_ret, HQ. }
  apply wp_bind. eapply wp_qdo; [done|].
  destruct (set_option_inv w its (λ q, Queue.set_consume q b) Hi) as [Hi1 Hc1]; try done.
  { intros q its' Hr. by eapply repr_flags. }
  apply wp_notify, HQ; [by eapply inv_ext|done|exact Hc1|done].
Qed.

(** The order part of [SetRandom]. *)
Definition reorder (p : playlist G) (status : bool) : prog (world G T) unit :=
  if status then
    bind (if playing p then GetCurrentPosition else ret (-1)%Z) (λ current_position,
    bind (qdo Queue.ShuffleOrder) (λ _,
    if (0 <=? current_position)%Z then
      bind (qask (λ q, Queue.PositionToOrder q (Z.to_nat current_position))) (λ current_order,
      bind (qdo (Queue.SwapOrders 0 current_order)) (λ _,
      set_current 0))
    else set_current (-1)))
  else playlist_order.

(** Random mode is switched on: the current song becomes the first of the order. *)
Lemma reorder_on_ok w its Q X : core its w → Queue.random (q_of w) = true →
  (∀ q' c, repr q' its → cfg q' = cfg (q_of w) → (-1 ≤ c < Z.of_nat (len_of w))%Z →
     (if playing (pl w) then c = 0%Z ∧ ord q' !! 0 = cur_pos w else c = (-1)%Z) →
     Q tt (mkWorld (put_current c (put_queue q' (pl w))) (player w) (events w))) →
  wp (reorder (pl w) true) Q X w.
Proof.
  intros Hc Hr HQ. unfold reorder. apply wp_bind. pose proof (c_current _ _ Hc) as Hcr.
  destruct (ShuffleOrder_ok _ _ (c_repr _ _ Hc) Hr) as (q1 & Hq1 & Hr1 & Hcfg1 & _).
  pose proof (cfg_length _ _ Hcfg1) as Hl1.
  destruct (playing (pl w)) eqn:Hp.
  - pose proof (c_playing _ _ Hc Hp) as H0.
    destruct (order_lookup w its (current (pl w)) Hc) as (p & it & Hpo & _ & Hplt & _); [lia|].
    assert (Hcp : cur_pos w = Some p).
    { unfold cur_pos. by replace (0 <=? current (pl w))%Z with true by lia. }
    eapply GetCurrentPosition_ok; [done|]. intros z ->. rewrite Hcp. cbn [from_option].
    apply wp_bind. eapply wp_qdo; [exact Hq1|]. replace (0 <=? Z.of_nat p)%Z with true by lia.
    rewrite Nat2Z.id.
    destruct (PositionToOrder_ok q1 its p Hr1) as (o & Ho & Hop & Holt); [lia|].
    apply wp_bind. eapply wp_qask; [exact Ho|].
    destruct (SwapOrders_ok q1 its 0 o Hr1) as (p1 & p2 & q2 & Hp1 & Hp2 & Hq2 & Hr2 & Hcfg2 & _ & Ho2);
      [lia|lia|].
    apply wp_bind. eapply wp_qdo; [exact Hq2|]. unfold set_current. apply wp_upd_pl. pl_simpl.
    apply (HQ q2 0%Z); [done|congruence|lia|]. split; [done|]. rewrite Ho2, Hcp. simplify_eq.
    destruct (decide (o = 0)) as [->|Hne].
    + rewrite list_lookup_insert_eq; [congruence|].
      rewrite length_insert, (repr_ord_len _ _ Hr1). exact Holt.
    + rewrite list_lookup_insert_ne, list_lookup_insert_eq; [done| |done].
      rewrite (repr_ord_len _ _ Hr1). clear -Holt. lia.
  - apply wp_ret, wp_bind. eapply wp_qdo; [exact Hq1|]. unfold set_current. apply wp_upd_pl. pl_simpl.
    apply (HQ q1 (-1)%Z); [done|done|lia|done].
Qed.

(** Random mode is switched off: order numbers become positions again. *)
Lemma reorder_off_ok w its Q X : repr (q_of w) its →
  (-1 ≤ current (pl w) < Z.of_nat (len_of w))%Z →
  (∀ q' c, repr q' its → cfg q' = cfg (q_of w) → ord q' = seq 0 (Queue.length q') →
     (-1 ≤ c < Z.of_nat (len_of w))%Z →
     (if (0 <=? current (pl w))%Z then (0 ≤ c)%Z ∧ cur_pos w = Some (Z.to_nat c)
      else c = current (pl w)) →
     Q tt (mkWorld (put_current c (put_queue q' (pl w))) (player w) (events w))) →
  wp (reorder (pl w) false) Q X w.
Proof.
  intros Hr Hcr HQ. unfold reorder, playlist_order. apply wp_bind, wp_read_pl, wp_bind.
  destruct (RestoreOrder_ok _ _ Hr) as (q' & Hq' & Hr' & Hcfg' & _ & Ho').
  pose proof (cfg_length _ _ Hcfg') as Hl'. rewrite <-Hl' in Ho'.
  destruct (0 <=? current (pl w))%Z eqn:E.
  - destruct (OrderToPosition_ok (q_of w) its (Z.to_nat (current (pl w))) Hr) as (p & Hp & Hop & Hlt); [lia|].
    apply wp_bind. eapply wp_qask.
    { unfold OrderToPosition. rewrite to_unsigned_pos by lia. exact Hp. }
    unfold set_current. apply wp_upd_pl. eapply wp_qdo; [exact Hq'|]. pl_simpl.
    apply (HQ q' (Z.of_nat p)); [done|done|done|lia|]. split; [lia|].
    unfold cur_pos. by rewrite E, Hop, Nat2Z.id.
  - apply wp_ret. eapply wp_qdo; [exact Hq'|].
    specialize (HQ q' (current (pl w)) Hr' Hcfg' Ho' Hcr eq_refl). by destruct w as [[] ? ?].
Qed.

Lemma put_current_id w q' : mkWorld (put_queue q' (pl w)) (player w) (events w)
  = mkWorld (put_current (current (pl w)) (put_queue q' (pl w))) (player w) (events w).
Proof. by destruct w as [[] ? ?]. Qed.

Lemma SetRandom_ok w its b Q X : inv its w →
  (∀ w', inv its w' → playing (pl w') = playing (pl w) → Queue.random (q_of w') = b →
     (playing (pl w) = true ∨ b = false ∨ Queue.random (q_of w) = b →
        cur_song its w' = cur_song its w) → Q tt w') →
  wp (SetRandom (T:=T) b) Q X w.
Proof.
  intros Hi HQ. pose proof (i_core _ _ Hi) as Hc. unfold SetRandom. apply wp_bind, wp_read_pl.
  destruct (eqb _ _) eqn:E.
  { apply eqb_prop in E. by apply wp_ret, HQ. }
  apply wp_bind. eapply GetQueuedSong_ok; [done|]. intros prev Hl Hlin.
  apply wp_bind. eapply wp_qdo; [done|]. apply wp_bind.
  set (w1 := mkWorld _ _ _). assert (Hr1 : repr (q_of w1) its) by (by eapply repr_flags; [apply Hc|..]).
  assert (Htail : ∀ q' c, repr q' its → cfg q' = cfg (q_of w1) → plain_order q' →
    (-1 ≤ c < Z.of_nat (len_of w))%Z → (playing (pl w) = true → (0 ≤ c)%Z) →
    (playing (pl w) = true ∨ b = false →
       cur_pos (mkWorld (put_current c (put_queue q' (pl w1))) (player w1) (events w1)) = cur_pos w) →
    wp (bind (UpdateQueuedSong (T:=T) prev) (λ _, notify OnQueueOptionsChanged)) Q X
      (mkWorld (put_current c (put_queue q' (pl w1))) (player w1) (events w1))).
  { intros q' c Hr' Hcfg' Hpl Hcr' Hcp' Hcur. apply wp_bind. eapply (UpdateQueuedSong_ok _ its).
    - destruct Hc. split; subst w1; pl_simpl; try done.
      by rewrite (cfg_length _ _ Hcfg').
    - eapply linked_its; [exact Hl|done..|by apply strip_perm_sub].
    - intros w2 [Hu1 [Hf1 _ Hf3 Hf4] Hu3 _ _ _ _]. apply wp_notify, HQ; [by eapply inv_ext|done| |].
      + pl_simpl. rewrite (cfg_random _ _ Hu3). by apply cfg_random in Hcfg'.
      + intros Hor. unfold cur_song. f_equal. etrans; [exact Hf4|]. apply Hcur.
        destruct Hor as [|[|Heq]]; [by left|by right|]. rewrite Heq, eqb_reflx in E. done. }
  destruct b.
  - eapply (reorder_on_ok w1 its); [|done|].
    { destruct Hc. split; subst w1; pl_simpl; try done. }
    intros q' c Hr' Hcfg' Hcr' Hif. apply Htail; try done.
    + unfold plain_order. by rewrite (cfg_random _ _ Hcfg').
    + intros Hp. subst w1. pl_simpl. rewrite Hp in Hif. lia.
    + intros [Hp|]; [|done]. subst w1. pl_simpl. rewrite Hp in Hif. destruct Hif as [-> Hif].
      unfold cur_pos at 1. by pl_simpl.
  - eapply (reorder_off_ok w1 its); [done|exact (c_current _ _ Hc)|].
    intros q' c Hr' Hcfg' Ho' Hcr' Hif. apply Htail; try done.
    + by intros _.
    + intros Hp. pose proof (c_playing _ _ Hc Hp). subst w1. pl_simpl.
      replace (0 <=? current (pl w))%Z with true in Hif by lia. by destruct Hif.
    + intros _. pose proof (cfg_length _ _ Hcfg') as Hlq. rewrite <-Hlq in Hcr'.
      subst w1. pl_simpl. unfold cur_pos at 1. pl_simpl. destruct (0 <=? current (pl w))%Z eqn:E0.
      * destruct Hif as [Hc0 Hif]. replace (0 <=? c)%Z with true by lia.
        etrans; [|exact (eq_sym Hif)]. rewrite Ho'. apply lookup_seq. lia.
      * subst c. rewrite E0. unfold cur_pos. by rewrite E0.
Qed.

End Facts.
End PlaylistOptions.

(** * Editing the playlist

    [PlaylistEdit.cxx] without the deletions, [PlaylistTag.cxx] and
    [PlaylistUpdate.cxx]: what each edit does to the songs of the queue, that the
    current song stays current, and that the invariant is re-established. *)

Module PlaylistEdits.
Import Playlist PlaylistFacts PlaylistDelete PlaylistControl PlaylistOptions.
Import QueueFacts QueueEdit QueueOrder QueuePriority.

#[local] Abbreviation llen := List.length.
#[local] Abbreviation Item := (Queue.Item Song.DetachedSong).

(** The world after an edit of the queue that sets the current order number to [c]. *)
Definition requeued {G T} (q' : Queue.Queue Song.DetachedSong G) (c : Z) (w : world G T) : world G T :=
  mkWorld (put_current c (put_queue q' (pl w))) (player w) (events w).

(** Recognising the world after an edit. *)
Ltac to_requeued q c w :=
  match goal with
  | |- wp _ _ _ ?v => replace v with (requeued q c w) by (by destruct w as [[] ? ?])
  end.

(** Case distinction on the test of a conditional. *)
Ltac wp_if E :=
  match goal with
  | |- wp (if ?b then _ else _) _ _ _ => destruct b eqn:E
  end.

Section Facts.
Context {G T : Type} `{!RandomEngine G, !RandomEngineLaws G}.
Context {HPT : Player.PlayerThread T} {HPL : Player.PlayerThreadLaws T} {HAL : Allocator}.
Implicit Types (w : world G T) (its : list Item) (it : Item).
Implicit Types q : Queue.Queue Song.DetachedSong G.

#[local] Abbreviation q_of w := (queue (pl w)).
#[local] Abbreviation next_of w := (Player.next_song (Player.pc (player w))).
#[local] Abbreviation len_of w := (Queue.length (queue (pl w))).

(** An edit of the queue: the new items, the new current order number. *)
Record edit_ok its its' w q' (c : Z) : Prop := {
  k_repr : repr q' its';
  k_plain : plain_order q';
  k_flags : qflags q' = qflags (q_of w);
  k_current : (-1 ≤ c < Z.of_nat (Queue.length q'))%Z;
  k_playing : playing (pl w) = true → (0 ≤ c)%Z;
  k_sub it' : it' ∈ its' → (∃ it, it ∈ its ∧ Queue.song it = Queue.song it' ∧
     Song.uri (Queue.song_data it) = Song.uri (Queue.song_data it')) ∨
     Queue.song it' ∉ Queue.song <$> its;
}.

(** The result of an edit. *)
Record edit_done its its' w q' (c : Z) its'' w' : Prop := {
  ed_inv : inv its'' w';
  ed_strip : strip <$> its'' = strip <$> its';
  ed_playing : playing (pl w') = playing (pl w);
  ed_flags : qflags (q_of w') = qflags (q_of w);
  ed_bulk : bulk_edit (pl w') = bulk_edit (pl w);
  ed_cur : cur_song its'' w' = cur_song its' (requeued q' c w);
  ed_order : Queue.random (q_of w) = false →
    ord (q_of w') = ord q' ∧ current (pl w') = c;
}.

Lemma edit_core its its' w q' c : core its w → edit_ok its its' w q' c → core its' (requeued q' c w).
Proof. intros [] []. by split. Qed.

(** A pending song is still found at the address it had. *)
Lemma edit_linked its its' w q' c prev : linked its w prev → edit_ok its its' w q' c →
  (∀ p, prev = Some p → p ∈ Queue.song <$> its) → linked its' (requeued q' c w) prev.
Proof.
  intros [Hs Hsg Hn Hu] Hk Hin. split; unfold requeued; pl_simpl; try done.
  intros p s it' Hp Hnx Hit Hsong. destruct (k_sub _ _ _ _ _ Hk _ Hit) as [(it & H1 & H2 & <-)|Hni].
  - eapply Hu; [done|done|done|congruence].
  - destruct Hni. rewrite Hsong. by apply Hin.
Qed.

Lemma edit_tail_prio w its its' q' c prev Q X : core its w → linked its w prev →
  (∀ p, prev = Some p → p ∈ Queue.song <$> its) → edit_ok its its' w q' c →
  (∀ its'' w', edit_done its its' w q' c its'' w' → prios its'' = prios its' → Q tt w') →
  wp (bind (UpdateQueuedSong (T:=T) prev) (λ _, OnModified)) Q X (requeued q' c w).
Proof.
  intros Hc Hl Hin Hk HQ. eapply finish_prio; [by eapply edit_core|by eapply edit_linked|].
  intros its'' w' [He1 He2 [Hf1 Hf2 Hf3 Hf4] He4] Hpr. apply (HQ its''); [|done].
  destruct (qcfg_flags _ _ Hf3) as [Hfl _]. pose proof (k_flags _ _ _ _ _ Hk).
  unfold requeued in *. pl_simpl. split; try done.
  - congruence.
  - unfold cur_song. by rewrite Hf4, He2.
  - intros Hr. apply He4. unfold qflags in *. congruence.
Qed.

Lemma edit_tail w its its' q' c prev Q X : core its w → linked its w prev →
  (∀ p, prev = Some p → p ∈ Queue.song <$> its) → edit_ok its its' w q' c →
  (∀ its'' w', edit_done its its' w q' c its'' w' → Q tt w') →
  wp (bind (UpdateQueuedSong (T:=T) prev) (λ _, OnModified)) Q X (requeued q' c w).
Proof.
  intros Hc Hl Hin Hk HQ. eapply (edit_tail_prio w its its'); [done..|].
  intros its'' w' Hd _. by eapply HQ.
Qed.

(** ** Appending *)

Lemma live_songs_ok q its : repr q its → live_songs q = Queue.song <$> its.
Proof.
  intros Hr. unfold live_songs.
  replace (take (Queue.length q) (Queue.items q)) with (Some <$> its).
  { clear Hr. induction its as [|it its IH]; [done|]. cbn. by rewrite IH. }
  apply list_eq. intros i. rewrite list_lookup_fmap.
  destruct (its !! i) as [it|] eqn:E; simpl.
  - pose proof (lookup_lt_Some _ _ _ E) as Hlt. rewrite (r_len _ _ Hr) in Hlt.
    rewrite lookup_take_lt by done. symmetry. by apply Hr.
  - apply lookup_ge_None in E. symmetry. apply lookup_ge_None.
    rewrite length_take. rewrite (r_len _ _ Hr) in E. lia.
Qed.

(** What [AppendSong] does to a playlist that is not full. *)
Record appended its w (song : Song.DetachedSong) (i : nat) its' w' : Prop := {
  ap_inv : inv its' w';
  ap_fresh : i ∉ Queue.id <$> its;
  ap_strip : ∃ ptr, strip <$> its' = (strip <$> its) ++ [(ptr, song, i)];
  ap_playing : playing (pl w') = playing (pl w);
  ap_cur : Queue.random (q_of w) = false ∨ (queued (pl w) < 0)%Z ∨
           (current (pl w) ≤ queued (pl w))%Z → cur_song its' w' = cur_song its w;
}.

Lemma AppendSong_ok w its song Q (X : exn → world G T → Prop) : inv its w →
  (len_of w < Queue.max_length (q_of w) →
   ∀ i its' w', appended its w song i its' w' → Q i w') →
  (len_of w = Queue.max_length (q_of w) → X (PlaylistError TOO_LARGE) w) →
  wp (AppendSong (T:=T) song) Q X w.
Proof.
  intros Hi HQ HX. pose proof (i_core _ _ Hi) as Hc. pose proof (c_repr _ _ Hc) as Hr.
  pose proof (r_cap _ _ Hr) as Hcap. pose proof (c_current _ _ Hc) as Hcr.
  unfold AppendSong. apply wp_bind. eapply wp_qask.
  { unfold Queue.IsFull. rewrite check_bind by lia. done. }
  destruct (_ <=? _) eqn:E; [apply wp_throw, HX; lia|]. specialize (HQ ltac:(lia)).
  apply wp_bind. eapply GetQueuedSong_ok; [done|]. intros prev Hl Hlin.
  apply wp_bind, wp_read_pl, wp_bind.
  set (ptr := malloc (live_songs (q_of w))).
  assert (Hptr : ptr ∉ Queue.song <$> its)
    by (subst ptr; rewrite (live_songs_ok _ _ Hr); apply malloc_fresh).
  destruct (Append_ok _ _ ptr song 0 Hr ltac:(lia) Hptr ltac:(lia))
    as (i & q1 & Hq1 & Hni & Hr1 & Hcfg1 & _ & Ho1).
  eapply wp_lift; [exact Hq1|]. apply wp_bind, wp_upd_pl, wp_bind, wp_read_pl, wp_bind.
  set (its1 := its ++ _) in *. cbn [fst snd].
  assert (Hl1 : Queue.length q1 = S (len_of w)) by (unfold cfg in Hcfg1; simpl in Hcfg1; congruence).
  assert (Hf1 : qflags q1 = qflags (q_of w)) by (unfold cfg, qflags in *; simpl in Hcfg1; congruence).
  assert (Hstrip : strip <$> its1 = (strip <$> its) ++ [(ptr, song, i)])
    by (subst its1; by rewrite fmap_app).
  assert (Hsub : ∀ it', it' ∈ its1 → (∃ it, it ∈ its ∧ Queue.song it = Queue.song it' ∧
     Song.uri (Queue.song_data it) = Song.uri (Queue.song_data it')) ∨
     Queue.song it' ∉ Queue.song <$> its).
  { intros it' [Hin|Hin]%elem_of_app; [left; by exists it'|].
    apply list_elem_of_singleton in Hin as ->. by right. }
  assert (Htail : ∀ q2, repr q2 its1 → plain_order q2 → cfg q2 = cfg q1 →
    (Queue.random (q_of w) = false ∨ (queued (pl w) < 0)%Z ∨ (current (pl w) ≤ queued (pl w))%Z →
     (0 ≤ current (pl w))%Z → ord q2 !! Z.to_nat (current (pl w)) = ord (q_of w) !! Z.to_nat (current (pl w))) →
    wp (bind (UpdateQueuedSong (T:=T) prev) (λ _, bind OnModified (λ _, ret i))) Q X
      (requeued q2 (current (pl w)) w)).
  { intros q2 Hr2 Hp2 Hcfg2 Hcur.
    apply wp_assoc, wp_bind. eapply (edit_tail w its its1 q2); [done|done|done| |].
    { split; try done.
      - rewrite <-Hf1. unfold cfg, qflags in *. congruence.
      - rewrite (cfg_length _ _ Hcfg2), Hl1. lia.
      - apply Hc. }
    intros its'' w' [Hd1 Hd2 Hd3 _ _ Hd5 _]. apply wp_ret. apply (HQ i its'').
    split; [done|done|exists ptr; congruence|done|]. intros Hor. rewrite Hd5.
    unfold cur_song, cur_pos, requeued. pl_simpl. destruct (0 <=? current (pl w))%Z eqn:E0; [|done].
    rewrite Hcur by (done || lia).
    destruct (order_lookup w its (current (pl w)) Hc) as (p & it & Hp & Hit & _); [lia|].
    rewrite Hp. simpl. rewrite Hstrip, lookup_app_l; [done|]. rewrite length_fmap.
    by eapply lookup_lt_Some. }
  assert (Ho1c : (0 ≤ current (pl w))%Z →
    ord q1 !! Z.to_nat (current (pl w)) = ord (q_of w) !! Z.to_nat (current (pl w))).
  { intros H0. rewrite Ho1, lookup_app_l; [done|]. rewrite (repr_ord_len _ _ Hr). lia. }
  assert (Hrandom : Queue.random q1 = Queue.random (q_of w)) by (unfold qflags in Hf1; congruence).
  eapply wp_qask; [unfold Queue.GetLength; by rewrite check_bind by (pose proof (r_cap _ _ Hr1); pl_simpl; lia)|].
  pl_simpl. apply wp_bind. rewrite Hrandom. destruct (Queue.random (q_of w)) eqn:Er.
  - set (start := (if (0 <=? queued (pl w))%Z then queued (pl w) + 1 else current (pl w) + 1)%Z).
    destruct (start <? Z.of_nat (Queue.length q1))%Z eqn:Es.
    + pose proof (c_queued _ _ Hc).
      assert (Hs0 : (0 ≤ start)%Z) by (subst start; case_match; lia).
      destruct (ShuffleOrderLast_ok q1 its1 (Z.to_nat start) (Queue.length q1) Hr1)
        as (q2 & r & p1 & p2 & Hq2 & Hr2 & Hcfg2 & Hrr & Hp1 & Hp2 & Ho2); [lia|].
      eapply wp_qdo; [exact Hq2|]. to_requeued q2 (current (pl w)) w. apply Htail; try done.
      * unfold plain_order. rewrite (cfg_random _ _ Hcfg2). congruence.
      * intros Hor H0. rewrite Ho2. rewrite !list_lookup_insert_ne; [by apply Ho1c| |].
        -- subst start. destruct Hor as [|[|]]; [done| |]; case_match; lia.
        -- subst start. destruct Hor as [|[|]]; [done| |]; case_match; lia.
    + apply wp_ret. to_requeued q1 (current (pl w)) w. apply Htail; try done.
      unfold plain_order. congruence.
  - apply wp_ret. to_requeued q1 (current (pl w)) w. apply Htail; try done.
    intros _. rewrite Ho1, (c_plain _ _ Hc Er), Hl1. by rewrite seq_S.
Qed.

Lemma AppendURI_ok w its LoadSong uri Q (X : exn → world G T → Prop) : inv its w →
  (∀ song i its' w', LoadSong uri = inr song → appended its w song i its' w' → Q i w') →
  (∀ e, LoadSong uri = inl e ∨ e = PlaylistError TOO_LARGE → X e w) →
  wp (AppendURI (T:=T) LoadSong uri) Q X w.
Proof.
  intros Hi HQ HX. unfold AppendURI. destruct (LoadSong uri) as [e|song].
  - apply wp_throw, HX. by left.
  - eapply AppendSong_ok; [done|..]; eauto.
Qed.

(** ** Rearranging the songs *)

(** The songs are now [l]; under the condition [P] the current song is still the same. *)
Record arranged its w (l : list (nat * Song.DetachedSong * nat)) (P : Prop) its' w' : Prop := {
  ar_inv : inv its' w';
  ar_strip : strip <$> its' = l;
  ar_playing : playing (pl w') = playing (pl w);
  ar_flags : qflags (q_of w') = qflags (q_of w);
  ar_bulk : bulk_edit (pl w') = bulk_edit (pl w);
  ar_cur : P → cur_song its' w' = cur_song its w;
}.

Lemma arrange_tail_prio w its its1 q' c prev P Q X : inv its w → linked its w prev →
  (∀ p, prev = Some p → p ∈ Queue.song <$> its) →
  repr q' its1 → plain_order q' → cfg q' = cfg (q_of w) → strip <$> its1 ≡ₚ strip <$> its →
  (-1 ≤ c < Z.of_nat (len_of w))%Z → (playing (pl w) = true → (0 ≤ c)%Z) →
  (P → cur_song its1 (requeued q' c w) = cur_song its w) →
  (∀ its' w', arranged its w (strip <$> its1) P its' w' → prios its' = prios its1 → Q tt w') →
  wp (bind (UpdateQueuedSong (T:=T) prev) (λ _, OnModified)) Q X (requeued q' c w).
Proof.
  intros Hi Hl Hin Hr Hpl Hcfg Hperm Hc Hcp Hcur HQ.
  eapply (edit_tail_prio w its its1); [apply Hi|done|done| |].
  - split; try done.
    + apply cfg_qcfg, qcfg_flags in Hcfg. apply Hcfg.
    + by rewrite (cfg_length _ _ Hcfg).
    + intros it' Hin'. left. by eapply strip_perm_sub.
  - intros its'' w' [] Hpr. apply (HQ its''); [|done]. split; try done.
    intros HP. by rewrite ed_cur0, Hcur.
Qed.

Lemma arrange_tail w its its1 q' c prev P Q X : inv its w → linked its w prev →
  (∀ p, prev = Some p → p ∈ Queue.song <$> its) →
  repr q' its1 → plain_order q' → cfg q' = cfg (q_of w) → strip <$> its1 ≡ₚ strip <$> its →
  (-1 ≤ c < Z.of_nat (len_of w))%Z → (playing (pl w) = true → (0 ≤ c)%Z) →
  (P → cur_song its1 (requeued q' c w) = cur_song its w) →
  (∀ its' w', arranged its w (strip <$> its1) P its' w' → Q tt w') →
  wp (bind (UpdateQueuedSong (T:=T) prev) (λ _, OnModified)) Q X (requeued q' c w).
Proof.
  intros Hi Hl Hin Hr Hpl Hcfg Hperm Hc Hcp Hcur HQ.
  eapply (arrange_tail_prio w its its1 q' c prev P); try done. intros its' w' Ha _. by eapply HQ.
Qed.

(** The current song follows a renumbering of the positions. *)
Lemma cur_song_follows its w its' w' (f : nat → nat) : core its w →
  cur_pos w' = f <$> cur_pos w →
  (∀ p, p < len_of w → (strip <$> its') !! f p = (strip <$> its) !! p) →
  cur_song its' w' = cur_song its w.
Proof.
  intros Hc Hcp Hf. unfold cur_song. rewrite Hcp. destruct (cur_pos w) as [p|] eqn:E; simpl; [|done].
  apply Hf. unfold cur_pos in E. case_match; [|done]. apply list_elem_of_lookup_2 in E.
  rewrite (r_order _ _ (c_repr _ _ Hc)) in E. apply elem_of_seq in E. lia.
Qed.

(** *** Swapping two songs *)

Definition swap_pos (p1 p2 p : nat) : nat :=
  if p =? p1 then p2 else if p =? p2 then p1 else p.

Definition swap_list {A} (p1 p2 : nat) (l : list A) : list A :=
  match l !! p1, l !! p2 with
  | Some x1, Some x2 => <[p2:=x1]> (<[p1:=x2]> l)
  | _, _ => l
  end.

Lemma swap_list_lookup {A} (l : list A) p1 p2 p : p1 < llen l → p2 < llen l →
  swap_list p1 p2 l !! swap_pos p1 p2 p = l !! p.
Proof.
  intros H1 H2. unfold swap_list, swap_pos.
  destruct (lookup_lt_is_Some_2 _ _ H1) as [x1 E1]. destruct (lookup_lt_is_Some_2 _ _ H2) as [x2 E2].
  rewrite E1, E2. destruct (p =? p1) eqn:F1.
  { apply Nat.eqb_eq in F1 as ->. rewrite list_lookup_insert_eq by (by rewrite length_insert). done. }
  destruct (p =? p2) eqn:F2.
  - apply Nat.eqb_eq in F2 as ->. rewrite list_lookup_insert_ne by lia.
    by rewrite list_lookup_insert_eq.
  - by rewrite !list_lookup_insert_ne by lia.
Qed.

Lemma swap_list_perm {A} (l : list A) p1 p2 : swap_list p1 p2 l ≡ₚ l.
Proof.
  unfold swap_list. destruct (l !! p1) eqn:E1, (l !! p2) eqn:E2; try done.
  by apply Permutation_insert_swap.
Qed.

Lemma strip_swap_spec q its p1 p2 it1 it2 : its !! p1 = Some it1 → its !! p2 = Some it2 →
  strip <$> swap_spec q its p1 p2 it1 it2 = swap_list p1 p2 (strip <$> its).
Proof.
  intros H1 H2. unfold swap_spec, swap_list. rewrite !list_fmap_insert, !list_lookup_fmap, H1, H2.
  done.
Qed.

(** Swapping two entries of a duplicate-free list renames its elements. *)
Lemma swap_entries (l : list nat) o1 o2 p1 p2 : NoDup l → l !! o1 = Some p1 → l !! o2 = Some p2 →
  <[o2:=p1]> (<[o1:=p2]> l) = swap_pos p1 p2 <$> l.
Proof.
  intros Hnd H1 H2. apply list_eq. intros i. rewrite list_lookup_fmap. unfold swap_pos.
  pose proof (lookup_lt_Some _ _ _ H1). pose proof (lookup_lt_Some _ _ _ H2).
  destruct (decide (i = o2)) as [->|]; [|destruct (decide (i = o1)) as [->|]].
  - rewrite list_lookup_insert_eq, H2 by (by rewrite length_insert). simpl. f_equal.
    repeat case_match; lia.
  - rewrite list_lookup_insert_ne, list_lookup_insert_eq, H1 by done. simpl. f_equal.
    by rewrite Nat.eqb_refl.
  - rewrite !list_lookup_insert_ne by done. destruct (l !! i) as [p|] eqn:E; simpl; [|done].
    f_equal. repeat case_match; try done.
    + exfalso. apply n0. eapply NoDup_lookup; [done|done|]. rewrite H1. f_equal. lia.
    + exfalso. apply n. eapply NoDup_lookup; [done|done|]. rewrite H2. f_equal. lia.
Qed.

Lemma SwapPositions_ok w its p1 p2 Q (X : exn → world G T → Prop) : inv its w →
  (p1 < len_of w → p2 < len_of w →
   ∀ its' w', arranged its w (swap_list p1 p2 (strip <$> its)) True its' w' → Q tt w') →
  (len_of w ≤ p1 ∨ len_of w ≤ p2 → X (PlaylistError BAD_RANGE) w) →
  wp (SwapPositions (T:=T) p1 p2) Q X w.
Proof.
  intros Hi HQ HX. pose proof (i_core _ _ Hi) as Hc. pose proof (c_repr _ _ Hc) as Hr.
  pose proof (c_current _ _ Hc) as Hcr. pose proof (c_playing _ _ Hc) as Hcp.
  unfold SwapPositions. apply wp_bind, wp_read_pl. unfold Queue.IsValidPosition.
  destruct (_ || _) eqn:E; [apply wp_throw, HX; lia|].
  assert (p1 < len_of w ∧ p2 < len_of w) as [H1 H2] by lia. specialize (HQ H1 H2).
  apply wp_bind. eapply GetQueuedSong_ok; [done|]. intros prev Hl Hlin.
  destruct (repr_lookup _ _ _ Hr H1) as (it1 & Hi1 & _).
  destruct (repr_lookup _ _ _ Hr H2) as (it2 & Hi2 & _).
  destruct (queue_SwapPositions_ok _ _ _ _ _ _ Hr Hi1 Hi2) as (q1 & Hq1 & Hr1 & Hcfg1 & _ & Ho1).
  apply wp_bind. eapply wp_qdo; [exact Hq1|]. apply wp_bind.
  set (its1 := swap_spec _ _ _ _ _ _) in *.
  assert (Hs1 : strip <$> its1 = swap_list p1 p2 (strip <$> its)) by by apply strip_swap_spec.
  pose proof (cfg_length _ _ Hcfg1) as Hlen1.
  assert (Hord1 : ord q1 = ord (q_of w)) by (unfold ord; by rewrite Ho1, Hlen1).
  assert (Hfin : ∀ q' c, repr q' its1 → plain_order q' → cfg q' = cfg (q_of w) →
    (-1 ≤ c < Z.of_nat (len_of w))%Z → (playing (pl w) = true → (0 ≤ c)%Z) →
    cur_pos (requeued q' c w) = swap_pos p1 p2 <$> cur_pos w →
    wp (bind (UpdateQueuedSong (T:=T) prev) (λ _, OnModified)) Q X (requeued q' c w)).
  { intros q' c Hr' Hpl' Hcfg' Hcr' Hcp' Hcur.
    eapply (arrange_tail w its its1 q' c prev True); try done.
    - rewrite Hs1. apply swap_list_perm.
    - intros _. eapply cur_song_follows; [done|exact Hcur|]. intros p Hp. rewrite Hs1.
      apply swap_list_lookup; rewrite length_fmap, (r_len _ _ Hr); done.
    - rewrite Hs1. done. }
  destruct (Queue.random (q_of w)) eqn:Er.
  - destruct (PositionToOrder_ok q1 its1 p1 Hr1) as (o1 & Hpo1 & Hop1 & Hol1); [lia|].
    destruct (PositionToOrder_ok q1 its1 p2 Hr1) as (o2 & Hpo2 & Hop2 & Hol2); [lia|].
    apply wp_bind. eapply wp_qask; [exact Hpo1|]. apply wp_bind. eapply wp_qask; [exact Hpo2|].
    destruct (SwapOrders_ok q1 its1 o1 o2 Hr1 Hol1 Hol2)
      as (p1' & p2' & q2 & Hop1' & Hop2' & Hq2 & Hr2 & Hcfg2 & _ & Ho2).
    rewrite Hop1 in Hop1'. rewrite Hop2 in Hop2'. injection Hop1' as <-. injection Hop2' as <-.
    eapply wp_qdo; [exact Hq2|]. to_requeued q2 (current (pl w)) w. apply Hfin; try done.
    + unfold plain_order. rewrite (cfg_random _ _ Hcfg2), (cfg_random _ _ Hcfg1). congruence.
    + congruence.
    + unfold cur_pos, requeued. pl_simpl. case_match; [|done]. rewrite Ho2, swap_entries; [|..|done|done].
      { by rewrite list_lookup_fmap, Hord1. }
      apply (perm_seq_elim _ _ (r_order _ _ Hr1)).
  - pose proof (c_plain _ _ Hc Er) as Hpl.
    assert (Hp1 : plain_order q1) by (intros _; by rewrite Hord1, Hlen1).
    assert (Hcur : ∀ c, (0 ≤ c < Z.of_nat (len_of w))%Z → (0 ≤ current (pl w))%Z →
      swap_pos p1 p2 (Z.to_nat (current (pl w))) = Z.to_nat c →
      cur_pos (requeued q1 c w) = swap_pos p1 p2 <$> cur_pos w).
    { intros c Hc' H0 Heq. unfold cur_pos, requeued. pl_simpl. rewrite Hord1, Hpl.
      replace (0 <=? c)%Z with true by lia. replace (0 <=? current (pl w))%Z with true by lia.
      rewrite !lookup_seq_lt by lia. simpl. by rewrite Heq. }
    unfold set_current. destruct (current (pl w) =? Z.of_nat p1)%Z eqn:E1;
      [|destruct (current (pl w) =? Z.of_nat p2)%Z eqn:E2].
    + apply wp_upd_pl. apply (Hfin q1); try done; [lia|lia|]. apply Hcur; [lia|lia|].
      unfold swap_pos. repeat case_match; lia.
    + apply wp_upd_pl. apply (Hfin q1); try done; [lia|lia|]. apply Hcur; [lia|lia|].
      unfold swap_pos. repeat case_match; lia.
    + apply wp_ret. to_requeued q1 (current (pl w)) w. apply Hfin; try done.
      destruct (decide (0 ≤ current (pl w))%Z).
      * apply Hcur; [lia|lia|]. unfold swap_pos. repeat case_match; lia.
      * unfold cur_pos, requeued. pl_simpl. by replace (0 <=? current (pl w))%Z with false by lia.
Qed.

End Facts.
End PlaylistEdits.
