(* ===== verification/PlaylistMoves.v ===== *)
(** * Moving, shuffling and prioritising songs

    The edits of [PlaylistEdit.cxx] that rearrange the queue: priorities, block moves
    and the shuffle of a range. *)

From Stdlib Require Import ZArith Lia ZifyBool.
From stdpp Require Import base numbers sets list.
From S2P Require Import Prelude IdTable RandomEngine Queue QueueFacts QueueEdit QueueOrder.
From S2P Require Import QueuePriority CString Tag Song Prog Player Playlist PlaylistFacts.
From S2P Require Import PlaylistDelete PlaylistControl PlaylistEdits.

Set Default Goal Selector "!".

Module PlaylistMoves.
Import Playlist PlaylistFacts PlaylistDelete PlaylistControl PlaylistOptions PlaylistEdits.
Import QueueFacts QueueEdit QueueOrder QueuePriority.

#[local] Abbreviation llen := List.length.
#[local] Abbreviation Item := (Queue.Item Song.DetachedSong).

Section Facts.
Context {G T : Type} `{!RandomEngine G, !RandomEngineLaws G}.
Context {HPT : Player.PlayerThread T} {HPL : Player.PlayerThreadLaws T} {HAL : Allocator}.
Implicit Types (w : world G T) (its : list Item) (it : Item).
Implicit Types q : Queue.Queue Song.DetachedSong G.

#[local] Abbreviation q_of w := (queue (pl w)).
#[local] Abbreviation len_of w := (Queue.length (queue (pl w))).

Lemma SwapIds_ok w its i1 i2 Q (X : exn → world G T → Prop) : inv its w →
  (∀ p1 p2 it1 it2 its' w', its !! p1 = Some it1 → Queue.id it1 = i1 →
     its !! p2 = Some it2 → Queue.id it2 = i2 →
     arranged its w (swap_list p1 p2 (strip <$> its)) True its' w' → Q tt w') →
  (i1 ∉ Queue.id <$> its ∨ i2 ∉ Queue.id <$> its → X (PlaylistError NO_SUCH_SONG) w) →
  wp (SwapIds (T:=T) i1 i2) Q X w.
Proof.
  intros Hi HQ HX. pose proof (i_core _ _ Hi) as Hc. unfold SwapIds. apply wp_bind.
  eapply wp_IdToPosition; [done|..].
  - intros p1 it1 Hit1 Hid1 Hlt1. apply wp_bind. eapply wp_IdToPosition; [done|..].
    + intros p2 it2 Hit2 Hid2 Hlt2. replace (_ || _) with false by lia. rewrite !Nat2Z.id.
      eapply SwapPositions_ok; [done| |lia]. intros _ _ its' w'. by eapply HQ.
    + intros Hni z Hz. replace (_ || _) with true by lia. apply wp_throw, HX. by right.
  - intros Hni z Hz. apply wp_bind. eapply wp_IdToPosition; [done|..].
    + intros p2 it2 _ _ _. replace (_ || _) with true by lia. apply wp_throw, HX. by left.
    + intros _ z2 _. replace (_ || _) with true by lia. apply wp_throw, HX. by left.
Qed.

(** ** Priorities *)

Lemma strip_priority_spec q its start end_ prio :
  strip <$> priority_spec q its start end_ prio = strip <$> its.
Proof.
  apply list_eq. intros i. rewrite !list_lookup_fmap. unfold priority_spec.
  rewrite list_lookup_imap. destruct (its !! i); simpl; [|done]. by case_match.
Qed.

(** The priorities after [SetPriorityRange]. *)
Definition set_prios (start end_ : nat) (prio : Z) (l : list Z) : list Z :=
  imap (λ i p, if (start <=? i) && (i <? end_) then prio else p) l.

Lemma prios_priority_spec q its start end_ prio :
  prios (priority_spec q its start end_ prio) = set_prios start end_ prio (prios its).
Proof.
  apply list_eq. intros i. unfold prios, set_prios, priority_spec.
  rewrite list_lookup_fmap, !list_lookup_imap, list_lookup_fmap.
  destruct (its !! i) as [it|]; simpl; [|done]. f_equal.
  destruct ((start <=? i) && (i <? end_)); simpl; [|done].
  destruct (Queue.priority it =? prio)%Z eqn:E; simpl; [lia|done].
Qed.

Lemma set_prios_min start end_ prio l : set_prios start (end_ `min` llen l) prio l = set_prios start end_ prio l.
Proof.
  apply imap_ext. intros i x Hx%lookup_lt_Some.
  replace (i <? end_ `min` llen l) with (i <? end_) by lia. done.
Qed.

Lemma set_prios_one p prio l : set_prios p (S p) prio l = <[p := prio]> l.
Proof.
  apply list_eq. intros i. unfold set_prios. rewrite list_lookup_imap, list_lookup_insert.
  destruct (l !! i) as [x|] eqn:E; simpl.
  - apply lookup_lt_Some in E. case_decide; f_equal; case_match; (done || lia).
  - symmetry. apply lookup_ge_None in E. case_decide; [lia|]. done.
Qed.

Lemma SetPriorityRange_ok w its start end_ prio Q (X : exn → world G T → Prop) : inv its w →
  (0 ≤ prio ≤ 255)%Z →
  (start < len_of w → ∀ its' w', arranged its w (strip <$> its) True its' w' →
     prios its' = set_prios start end_ prio (prios its) → Q tt w') →
  (len_of w ≤ start → X (PlaylistError BAD_RANGE) w) →
  wp (SetPriorityRange (T:=T) start end_ prio) Q X w.
Proof.
  intros Hi Hprio HQ HX. pose proof (i_core _ _ Hi) as Hc. pose proof (c_repr _ _ Hc) as Hr.
  pose proof (c_current _ _ Hc) as Hcr. pose proof (c_playing _ _ Hc) as Hcp.
  assert (Hmin : set_prios start (end_ `min` len_of w) prio (prios its) = set_prios start end_ prio (prios its)).
  { rewrite <-(r_len _ _ Hr). unfold prios. rewrite <-(length_fmap Queue.priority its). apply set_prios_min. }
  rewrite <-Hmin in HQ. clear Hmin.
  unfold SetPriorityRange. apply wp_bind. eapply wp_GetLength; [done|].
  destruct (len_of w <=? start) eqn:E; [apply wp_throw, HX; lia|].
  replace (if len_of w <? end_ then len_of w else end_) with (end_ `min` len_of w) by (case_match; lia).
  set (e := end_ `min` len_of w) in *.
  specialize (HQ ltac:(lia)). destruct (e <=? start) eqn:E2.
  { apply wp_ret, (HQ its); [by split|]. unfold set_prios. symmetry. apply list_eq. intros i.
    rewrite list_lookup_imap. destruct (prios its !! i); simpl; [|done]. f_equal.
    case_match; [lia|done]. }
  apply wp_bind. eapply GetCurrentPosition_ok; [done|]. intros cp Hcpos.
  apply wp_bind. eapply GetQueuedSong_ok; [done|]. intros prev Hl Hlin.
  apply wp_bind, wp_read_pl, wp_bind.
  destruct (queue_SetPriorityRange_ok (q_of w) its start e prio (current (pl w)) Hr)
    as (m & q1 & Hq1 & Hcfg1 & Hr1 & Ho1); [lia|done|done|].
  eapply wp_lift; [exact Hq1|]. apply wp_bind, wp_upd_pl, wp_bind. cbn [snd].
  pose proof (cfg_length _ _ Hcfg1) as Hlen1. set (its1 := priority_spec _ _ _ _ _) in *.
  assert (Hs1 : strip <$> its1 = strip <$> its) by apply strip_priority_spec.
  assert (Hpl1 : plain_order q1).
  { intros Hrand. rewrite (cfg_random _ _ Hcfg1) in Hrand. rewrite Ho1 by done.
    rewrite Hlen1. by apply (c_plain _ _ Hc). }
  assert (Hfin : ∀ c, (-1 ≤ c < Z.of_nat (len_of w))%Z → (playing (pl w) = true → (0 ≤ c)%Z) →
    cur_pos (requeued q1 c w) = cur_pos w →
    wp (bind (UpdateQueuedSong (T:=T) prev) (λ _, OnModified)) Q X (requeued q1 c w)).
  { intros c Hcr' Hcp' Hcur. eapply (arrange_tail_prio w its its1 q1 c prev True); try done.
    - by rewrite Hs1.
    - intros _. unfold cur_song. by rewrite Hcur, Hs1.
    - rewrite Hs1. intros its' w' Ha Hpr. apply (HQ its'); [done|].
      rewrite Hpr. apply prios_priority_spec. }
  unfold cur_pos in Hcpos. destruct (0 <=? current (pl w))%Z eqn:E0.
  - destruct (order_lookup w its (current (pl w)) Hc) as (p & it & Hp & _ & Hplt & _); [lia|].
    rewrite Hp in Hcpos. simpl in Hcpos. subst cp.
    replace (0 <=? Z.of_nat p)%Z with true by lia. rewrite Nat2Z.id.
    destruct (PositionToOrder_ok q1 its1 p Hr1) as (o & Hpo & Hop & Hol); [lia|].
    apply wp_bind. eapply wp_qask; [exact Hpo|]. unfold set_current. apply wp_upd_pl.
    apply (Hfin (Z.of_nat o)); [lia|lia|]. unfold cur_pos, requeued. pl_simpl. rewrite E0.
    replace (0 <=? Z.of_nat o)%Z with true by lia. by rewrite Nat2Z.id, Hop, Hp.
  - subst cp. simpl. apply wp_ret. to_requeued q1 (current (pl w)) w. apply Hfin; [done|lia|].
    unfold cur_pos, requeued. pl_simpl. by rewrite E0.
Qed.

Lemma SetPriorityId_ok w its i prio Q (X : exn → world G T → Prop) : inv its w →
  (0 ≤ prio ≤ 255)%Z →
  (∀ p it its' w', its !! p = Some it → Queue.id it = i →
     arranged its w (strip <$> its) True its' w' →
     prios its' = <[p := prio]> (prios its) → Q tt w') →
  (i ∉ Queue.id <$> its → X (PlaylistError NO_SUCH_SONG) w) →
  wp (SetPriorityId (T:=T) i prio) Q X w.
Proof.
  intros Hi Hprio HQ HX. unfold SetPriorityId. apply wp_bind. eapply wp_IdToPosition; [apply Hi|..].
  - intros p it Hit Hid Hlt. replace (Z.of_nat p <? 0)%Z with false by lia. rewrite Nat2Z.id.
    eapply SetPriorityRange_ok; [done|done| |lia]. intros _ its' w' Ha.
    replace (p + 1) with (S p) by lia. rewrite set_prios_one. by apply (HQ p it).
  - intros Hni z Hz. replace (z <? 0)%Z with true by lia. by apply wp_throw, HX.
Qed.

(** ** Moving a block *)

Lemma fmap_move_spec q its start end_ to : repr q its → start < end_ ≤ Queue.length q →
  to + (end_ - start) ≤ Queue.length q →
  strip <$> move_spec q its start end_ to = move_list start end_ to (strip <$> its).
Proof.
  intros Hr H1 H2. unfold move_spec, move_list. rewrite !fmap_app, !fmap_take, !fmap_drop.
  rewrite fmap_imap. rewrite !fmap_app, !fmap_take, !fmap_drop, !fmap_imap.
  assert (Hs : imap (λ j, strip ∘ (λ it, if moved start end_ to j then bump q it else it)) its
    = strip <$> its); [|by rewrite Hs].
  apply list_eq. intros i. rewrite list_lookup_imap, list_lookup_fmap.
  destruct (its !! i); simpl; [|done]. by case_match.
Qed.

(** The new order number of the current song, outside random mode. *)
Definition move_current (start end_ : nat) (to c : Z) : Z :=
  if ((Z.of_nat start <=? c) && (c <? Z.of_nat end_))%Z then c + to - Z.of_nat start
  else if ((Z.of_nat end_ <=? c) && (c <=? to))%Z then c - (Z.of_nat end_ - Z.of_nat start)
  else if ((to <=? c) && (c <? Z.of_nat start))%Z then c + (Z.of_nat end_ - Z.of_nat start)
  else c.

(** The case in which it does not follow the song: the block comes from before the
    current song and is inserted right across it. *)
Definition left_behind w (start end_ to : nat) : Prop :=
  Queue.random (q_of w) = false ∧ (Z.of_nat end_ ≤ current (pl w))%Z ∧
  (Z.of_nat to < current (pl w) < Z.of_nat (to + (end_ - start)))%Z.

(** The part of [MoveRange] after the destination is known. *)
Definition move_finish (start end_ : nat) (queued_song : song_ptr) (to : Z) : prog (world G T) unit :=
  bind (lift (to_unsigned to)) (λ t,
  bind (qdo (Queue.MoveRange start end_ t)) (λ _,
  bind read_pl (λ p,
  bind (if negb (Queue.random (queue p)) then
         if ((Z.of_nat start <=? current p) && (current p <? Z.of_nat end_))%Z
         then set_current (current p + to - Z.of_nat start)
         else if ((Z.of_nat end_ <=? current p) && (current p <=? to))%Z
         then set_current (current p - (Z.of_nat end_ - Z.of_nat start))
         else if ((to <=? current p) && (current p <? Z.of_nat start))%Z
         then set_current (current p + (Z.of_nat end_ - Z.of_nat start))
         else ret tt
       else ret tt) (λ _,
  bind (UpdateQueuedSong queued_song) (λ _, OnModified))))).

Lemma move_finish_ok w its start end_ t prev Q X : inv its w → linked its w prev →
  (∀ p, prev = Some p → p ∈ Queue.song <$> its) →
  start < end_ ≤ len_of w → t + (end_ - start) ≤ len_of w →
  (∀ its' w', arranged its w (move_list start end_ t (strip <$> its))
     (¬ left_behind w start end_ t) its' w' → Q tt w') →
  wp (move_finish start end_ prev (Z.of_nat t)) Q X w.
Proof.
  intros Hi Hl Hin Hse Hto HQ. pose proof (i_core _ _ Hi) as Hc. pose proof (c_repr _ _ Hc) as Hr.
  pose proof (c_current _ _ Hc) as Hcr. pose proof (c_playing _ _ Hc) as Hcp.
  unfold move_finish. apply wp_bind. eapply wp_lift; [apply to_unsigned_nat|].
  destruct (queue_MoveRange_ok _ _ _ _ _ Hr Hse Hto) as (q1 & Hq1 & Hr1 & Hcfg1 & Ho1).
  apply wp_bind. eapply wp_qdo; [exact Hq1|]. apply wp_bind, wp_read_pl, wp_bind. pl_simpl.
  pose proof (cfg_length _ _ Hcfg1) as Hlen1. rewrite (cfg_random _ _ Hcfg1).
  set (its1 := move_spec _ _ _ _ _) in *.
  assert (Hs1 : strip <$> its1 = move_list start end_ t (strip <$> its)) by by apply fmap_move_spec.
  assert (Hfin : ∀ c, (-1 ≤ c < Z.of_nat (len_of w))%Z → (playing (pl w) = true → (0 ≤ c)%Z) →
    (¬ left_behind w start end_ t →
     cur_pos (requeued q1 c w) = move_pos start end_ t <$> cur_pos w) →
    wp (bind (UpdateQueuedSong (T:=T) prev) (λ _, OnModified)) Q X (requeued q1 c w)).
  { intros c Hcr' Hcp' Hcur.
    eapply (arrange_tail w its its1 q1 c prev (¬ left_behind w start end_ t)); try done.
    - intros Hrand. rewrite Ho1, Hlen1. rewrite (cfg_random _ _ Hcfg1) in Hrand. rewrite Hrand.
      by apply (c_plain _ _ Hc).
    - rewrite Hs1. apply move_list_perm. lia.
    - intros Hlb. eapply cur_song_follows; [done|by apply Hcur|]. intros p Hp. rewrite Hs1.
      apply lookup_move_list; rewrite length_fmap, (r_len _ _ Hr); lia.
    - by rewrite Hs1. }
  destruct (Queue.random (q_of w)) eqn:Er; cbn [negb].
  { apply wp_ret. to_requeued q1 (current (pl w)) w. apply Hfin; [done|done|]. intros _.
    unfold cur_pos, requeued. pl_simpl. case_match; [|done]. by rewrite Ho1, list_lookup_fmap. }
  assert (Hfin' : wp (bind (UpdateQueuedSong (T:=T) prev) (λ _, OnModified)) Q X
    (requeued q1 (move_current start end_ (Z.of_nat t) (current (pl w))) w)).
  { apply Hfin.
    - unfold move_current. repeat case_match; lia.
    - intros Hp. specialize (Hcp Hp). unfold move_current. repeat case_match; lia.
    - intros Hlb. unfold cur_pos, requeued. pl_simpl. rewrite Ho1, (c_plain _ _ Hc Er).
      unfold left_behind in Hlb. rewrite Er in Hlb.
      destruct (0 <=? current (pl w))%Z eqn:E0.
      + rewrite (lookup_seq_lt 0 (len_of w) (Z.to_nat (current (pl w)))) by lia. simpl.
        replace (move_current start end_ (Z.of_nat t) (current (pl w)))
          with (Z.of_nat (move_pos start end_ t (Z.to_nat (current (pl w))))).
        2: { unfold move_current, move_pos. clear -Hlb E0 Hse Hto.
             assert (¬ (Z.of_nat end_ ≤ current (pl w) ∧
               Z.of_nat t < current (pl w) < Z.of_nat (t + (end_ - start)))%Z) by tauto.
             clear Hlb. repeat case_match; lia. }
        pose proof (move_pos_lt start end_ t (len_of w) (Z.to_nat (current (pl w)))).
        rewrite Nat2Z.id, lookup_seq_lt by lia. replace (0 <=? _)%Z with true by lia. done.
      + replace (move_current start end_ (Z.of_nat t) (current (pl w))) with (current (pl w)).
        2: { unfold move_current. repeat case_match; lia. }
        by rewrite E0. }
  unfold move_current, set_current in *.
  destruct (_ && _); [by apply wp_upd_pl|]. destruct (_ && _); [by apply wp_upd_pl|].
  destruct (_ && _); [by apply wp_upd_pl|]. apply wp_ret.
  to_requeued q1 (current (pl w)) w. done.
Qed.

(** The destination of a relative move, when the current song is at [cp]. *)
Definition relative_dest (len start cp : nat) (to : Z) : Z :=
  let t := ((Z.of_nat cp + Z.abs to) mod Z.of_nat len)%Z in
  if (Z.of_nat start <? t)%Z then (t - 1)%Z else t.

Lemma relative_dest_range len start cp to : start < len →
  (0 ≤ relative_dest len start cp to < Z.of_nat len)%Z.
Proof.
  intros Hs. unfold relative_dest.
  pose proof (Z.mod_pos_bound (Z.of_nat cp + Z.abs to) (Z.of_nat len)). case_match; lia.
Qed.

(** Where the block goes: an absolute position, or one relative to the current song. *)
Definition dest_of w (start : nat) (to : Z) (t : nat) : Prop :=
  if (0 <=? to)%Z then Z.of_nat t = to
  else ∃ cp, cur_pos w = Some cp ∧ Z.of_nat t = relative_dest (len_of w) start cp to.

(** The ranges and destinations [MoveRange] refuses. *)
Definition move_refused w (start end_ : nat) (to : Z) : Prop :=
  len_of w < end_ ∨
  (0 ≤ to ∧ Z.of_nat (len_of w) < to + Z.of_nat (end_ - start))%Z ∨
  (to < 0)%Z ∧ ((Z.of_nat (len_of w) < Z.abs to)%Z ∨ cur_pos w = None).

Lemma MoveRange_ok w its start end_ to Q (X : exn → world G T → Prop) : inv its w →
  start < end_ → (Z.of_nat end_ < 2^32)%Z → (Z.of_nat (len_of w) < 2^30)%Z → (to < 2^31)%Z →
  (0 ≤ to ∨ end_ = S start)%Z →
  (end_ ≤ len_of w → Z.of_nat start = to → Q tt w) →
  (∀ c, end_ ≤ len_of w → (to < 0)%Z → cur_pos w = Some c → start ≤ c < end_ → Q tt w) →
  (∀ t its' w', end_ ≤ len_of w → t + (end_ - start) ≤ len_of w → dest_of w start to t →
     (∀ c, (to < 0)%Z → cur_pos w = Some c → ¬ (start ≤ c < end_)) →
     arranged its w (move_list start end_ t (strip <$> its))
       (¬ left_behind w start end_ t) its' w' → Q tt w') →
  (move_refused w start end_ to → X (PlaylistError BAD_RANGE) w) →
  wp (MoveRange (T:=T) start end_ to) Q X w.
Proof.
  intros Hi Hse He Hlen Hto Hshape HQ0 HQ1 HQ HX. pose proof (i_core _ _ Hi) as Hc.
  unfold move_refused in HX.
  unfold MoveRange. apply wp_bind, wp_read_pl, wp_bind. eapply wp_GetLength; [done|].
  cbv zeta. unfold Song.u32. rewrite (Z.mod_small (Z.of_nat end_ - 1)) by lia.
  unfold Queue.IsValidPosition.
  destruct (_ || _) eqn:E1; [apply wp_throw, HX; lia|].
  assert (start < len_of w ∧ end_ ≤ len_of w) as [Hs' He'] by lia. clear E1.
  wp_if E2.
  { apply wp_throw, HX. destruct (decide (0 ≤ to)%Z); [|lia]. rewrite Z.mod_small in E2 by lia. lia. }
  destruct (_ =? to)%Z eqn:E3; [apply wp_ret, HQ0; lia|].
  apply wp_bind. eapply GetQueuedSong_ok; [done|]. intros prev Hl Hlin.
  apply wp_bind. eapply GetCurrentPosition_ok; [done|]. intros cp Hcp.
  destruct (to <? 0)%Z eqn:E4.
  - destruct (cur_pos w) as [p|] eqn:Ep; simpl in Hcp; subst cp.
    2: { apply wp_throw, HX. right; right. split; [lia|by right]. }
    replace (Z.of_nat p <? 0)%Z with false by lia.
    wp_if E6; [apply wp_ret, (HQ1 p); (done || lia)|].
    pose proof (relative_dest_range (len_of w) start p to ltac:(lia)) as Hrd.
    set (d := relative_dest (len_of w) start p to) in *.
    change (wp (move_finish start end_ prev d) Q X w).
    rewrite <-(Z2Nat.id d) by lia. eapply move_finish_ok; [done|done|done|lia|lia|].
    intros its' w'. apply HQ; [lia|lia| |].
    2: { intros c _ [= <-]. lia. }
    unfold dest_of. replace (0 <=? to)%Z with false by lia. exists p. rewrite Z2Nat.id by lia. done.
  - assert (to + Z.of_nat end_ - Z.of_nat start - 1 < Z.of_nat (len_of w))%Z.
    { rewrite Z.mod_small in E2 by lia. lia. }
    change (wp (move_finish start end_ prev to) Q X w).
    rewrite <-(Z2Nat.id to) by lia. eapply move_finish_ok; [done|done|done|lia|lia|].
    intros its' w'. apply HQ; [lia|lia| |lia]. unfold dest_of.
    replace (0 <=? to)%Z with true by lia. lia.
Qed.

Lemma MoveId_ok w its i to Q (X : exn → world G T → Prop) : inv its w →
  (Z.of_nat (len_of w) < 2^30)%Z → (to < 2^31)%Z →
  (∀ p it, its !! p = Some it → Queue.id it = i →
     Z.of_nat p = to ∨ (to < 0)%Z ∧ cur_pos w = Some p → Q tt w) →
  (∀ p it t its' w', its !! p = Some it → Queue.id it = i → t < len_of w → dest_of w p to t →
     ((to < 0)%Z → cur_pos w ≠ Some p) →
     arranged its w (move_list p (S p) t (strip <$> its)) True its' w' → Q tt w') →
  (∀ p it, its !! p = Some it → Queue.id it = i → move_refused w p (S p) to →
     X (PlaylistError BAD_RANGE) w) →
  (i ∉ Queue.id <$> its → X (PlaylistError NO_SUCH_SONG) w) →
  wp (MoveId (T:=T) i to) Q X w.
Proof.
  intros Hi Hlen Hto HQ0 HQ HX HX2. unfold MoveId. apply wp_bind. eapply wp_IdToPosition; [apply Hi|..].
  - intros p it Hit Hid Hlt. replace (Z.of_nat p <? 0)%Z with false by lia. rewrite Nat2Z.id.
    replace (p + 1) with (S p) by lia.
    eapply MoveRange_ok; [done|lia|lia|lia|lia|by right|..].
    + intros _ Heq. eapply HQ0; [done|done|by left].
    + intros c _ Hneg Hcp Hcr. eapply HQ0; [done|done|right]. split; [done|].
      rewrite Hcp. f_equal. lia.
    + intros t its' w' _ Ht Hd Hout [Ha1 Ha2 Ha3 Ha4 Ha5 Ha6]. eapply (HQ p it t); [done|done|lia|done| |].
      * intros Hneg Hcp. apply (Hout p Hneg Hcp). lia.
      * split; try done. intros _. apply Ha6. unfold left_behind. lia.
    + intros Hr. by eapply HX.
  - intros Hni z Hz. replace (z <? 0)%Z with true by lia. by apply wp_throw, HX2.
Qed.

(** ** Shuffling a range *)

Lemma same_songs_strip its its' : same_songs its its' → strip <$> its' ≡ₚ strip <$> its.
Proof.
  intros [_ H]. apply (fmap_Permutation (λ x : nat * nat * Song.DetachedSong * Z,
    (x.1.1.2, x.1.2, x.1.1.1))) in H. by rewrite <-!list_fmap_compose in H.
Qed.

(** The last stage of [Shuffle]: the items [its1] of [q1] are shuffled in [a, b). *)
Lemma shuffle_tail w its its1 q1 c a b prev P Q X : inv its w → linked its w prev →
  (∀ p, prev = Some p → p ∈ Queue.song <$> its) →
  repr q1 its1 → cfg q1 = cfg (q_of w) → ord q1 = ord (q_of w) →
  strip <$> its1 ≡ₚ strip <$> its → a ≤ b ≤ len_of w →
  (-1 ≤ c < Z.of_nat (len_of w))%Z → (playing (pl w) = true → (0 ≤ c)%Z) →
  (P → ∃ p, cur_pos (requeued q1 c w) = Some p ∧ ¬ (a ≤ p < b) ∧
       (strip <$> its1) !! p = cur_song its w) →
  (∀ l its' w', l ≡ₚ strip <$> its →
     (∀ i, ¬ (a ≤ i < b) → l !! i = (strip <$> its1) !! i) →
     arranged its w l P its' w' → Q tt w') →
  wp (bind (qdo (Queue.ShuffleRange a b)) (λ _, bind (UpdateQueuedSong (T:=T) prev) (λ _, OnModified)))
    Q X (requeued q1 c w).
Proof.
  intros Hi Hl Hin Hr1 Hcfg1 Ho1 Hp1 Hab Hc Hcp Hcur HQ. apply wp_bind.
  pose proof (cfg_length _ _ Hcfg1) as Hlen1.
  destruct (ShuffleRange_ok q1 its1 a b Hr1) as (q2 & its2 & Hq2 & Hr2 & Hcfg2 & Ho2 & Hss & Hout); [lia|].
  pose proof (cfg_length _ _ Hcfg2) as Hlen2.
  assert (Hord2 : ord q2 = ord (q_of w)) by (rewrite <-Ho1; unfold ord; by rewrite Ho2, Hlen2).
  assert (Hs2 : ∀ i, ¬ (a ≤ i < b) → (strip <$> its2) !! i = (strip <$> its1) !! i).
  { intros i Hi'. by rewrite !list_lookup_fmap, Hout. }
  assert (Hperm2 : strip <$> its2 ≡ₚ strip <$> its) by (by rewrite (same_songs_strip _ _ Hss)).
  eapply wp_qdo; [exact Hq2|]. to_requeued q2 c w.
  eapply (arrange_tail w its its2 q2 c prev P); try done.
  - intros Hrand. rewrite Hord2, Hlen2, Hlen1.
    rewrite (cfg_random _ _ Hcfg2), (cfg_random _ _ Hcfg1) in Hrand. by apply (c_plain _ _ (i_core _ _ Hi)).
  - congruence.
  - intros HP. destruct (Hcur HP) as (p & Hp & Hpo & Hcs). unfold cur_song at 1.
    assert (cur_pos (requeued q2 c w) = Some p) as ->.
    { rewrite <-Hp. unfold cur_pos, requeued. pl_simpl. by rewrite Hord2, Ho1. }
    simpl. by rewrite Hs2.
  - intros its' w'. by apply HQ.
Qed.

Lemma Shuffle_ok w its start end_ Q X : inv its w → (Z.of_nat start + 1 < 2^32)%Z →
  (end_ `min` len_of w ≤ start + 1 → Q tt w) →
  (∀ l its' w', start + 1 < end_ `min` len_of w → l ≡ₚ strip <$> its →
     (∀ i, ¬ (start ≤ i < end_ `min` len_of w) → l !! i = (strip <$> its) !! i) →
     arranged its w l (playing (pl w) = true) its' w' → Q tt w') →
  wp (Shuffle (T:=T) start end_) Q X w.
Proof.
  intros Hi Hs HQ0 HQ. pose proof (i_core _ _ Hi) as Hc. pose proof (c_repr _ _ Hc) as Hr.
  pose proof (c_current _ _ Hc) as Hcr. pose proof (c_playing _ _ Hc) as Hcp.
  unfold Shuffle. apply wp_bind. eapply wp_GetLength; [done|]. cbv zeta.
  replace (if len_of w <? end_ then len_of w else end_) with (end_ `min` len_of w) by (case_match; lia).
  set (e := end_ `min` len_of w) in *. unfold Song.u32. rewrite Z.mod_small by lia.
  wp_if E; [apply wp_ret, HQ0; lia|]. assert (Hse : start + 1 < e) by lia. clear E.
  apply wp_bind. eapply GetQueuedSong_ok; [done|]. intros prev Hl Hlin.
  apply wp_bind, wp_read_pl, wp_bind.
  destruct (playing (pl w)) eqn:Hp; cbn [andb].
  2: { unfold set_current. apply wp_bind, wp_upd_pl, wp_ret.
       to_requeued (q_of w) (-1)%Z w.
       eapply (shuffle_tail w its its (q_of w) (-1) start e prev (false = true)); try done; try lia.
       intros l its' w'. by apply HQ. }
  specialize (Hcp eq_refl). replace (0 <=? current (pl w))%Z with true by lia.
  destruct (order_lookup w its (current (pl w)) Hc) as (p & it & Hop & Hit & Hplt & Hpo & _); [lia|].
  assert (Hcur : cur_pos w = Some p).
  { unfold cur_pos. by replace (0 <=? current (pl w))%Z with true by lia. }
  assert (Hcs : cur_song its w = Some (strip it)).
  { unfold cur_song. rewrite Hcur. simpl. by rewrite list_lookup_fmap, Hit. }
  apply wp_bind. eapply wp_qask; [exact Hpo|]. wp_if E.
  - assert (start ≤ p < e) as Hpr by lia. clear E.
    destruct (repr_lookup _ _ start Hr) as (it0 & Hit0 & _); [lia|].
    destruct (queue_SwapPositions_ok _ _ _ _ _ _ Hr Hit0 Hit) as (q1 & Hq1 & Hr1 & Hcfg1 & _ & Ho1).
    pose proof (cfg_length _ _ Hcfg1) as Hlen1.
    assert (Hord1 : ord q1 = ord (q_of w)) by (unfold ord; by rewrite Ho1, Hlen1).
    set (its1 := swap_spec _ _ _ _ _ _) in *.
    assert (Hs1 : strip <$> its1 = swap_list start p (strip <$> its)) by by apply strip_swap_spec.
    assert (Hl1 : (strip <$> its1) !! start = Some (strip it)).
    { replace start with (swap_pos start p p) by (unfold swap_pos; repeat case_match; lia).
      rewrite Hs1, swap_list_lookup by (rewrite length_fmap, (r_len _ _ Hr); lia).
      by rewrite list_lookup_fmap, Hit. }
    assert (Hfin : ∀ c, (0 ≤ c < Z.of_nat (len_of w))%Z → ord q1 !! Z.to_nat c = Some start →
      wp (bind (qdo (Queue.ShuffleRange (start + 1) e))
        (λ _, bind (UpdateQueuedSong (T:=T) prev) (λ _, OnModified))) Q X (requeued q1 c w)).
    { intros c Hc0 Hco. eapply (shuffle_tail w its its1 q1 c (start + 1) e prev (true = true)); try done; try lia.
      - rewrite Hs1. apply swap_list_perm.
      - intros _. exists start. split_and!; [|lia|congruence]. unfold cur_pos, requeued. pl_simpl.
        by replace (0 <=? c)%Z with true by lia.
      - intros l its' w' Hperm Hout. apply HQ; [done|done|]. intros i Hi'. rewrite Hout by lia.
        rewrite Hs1. replace i with (swap_pos start p i) at 1 by (unfold swap_pos; repeat case_match; lia).
        apply swap_list_lookup; rewrite length_fmap, (r_len _ _ Hr); lia. }
    apply wp_bind. eapply wp_qdo; [exact Hq1|]. apply wp_bind. unfold set_current.
    destruct (Queue.random (q_of w)) eqn:Er.
    + destruct (PositionToOrder_ok q1 its1 start Hr1) as (o & Hpo1 & Hop1 & Hol1); [lia|].
      apply wp_bind. eapply wp_qask; [exact Hpo1|]. apply wp_upd_pl, wp_ret.
      apply (Hfin (Z.of_nat o)); [lia|]. by rewrite Nat2Z.id.
    + apply wp_upd_pl, wp_ret. apply (Hfin (Z.of_nat start)); [lia|].
      rewrite Hord1, (c_plain _ _ Hc Er), Nat2Z.id. by apply lookup_seq_lt; lia.
  - apply wp_ret. to_requeued (q_of w) (current (pl w)) w.
    eapply (shuffle_tail w its its (q_of w) (current (pl w)) start e prev (true = true)); try done; try lia.
    + intros _. exists p. split_and!; [exact Hcur|lia|]. by rewrite Hcs, list_lookup_fmap, Hit.
    + intros l its' w'. by apply HQ.
Qed.

End Facts.
End PlaylistMoves.
