(* ===== verification/PlaylistInPlace.v ===== *)
(** * In-place edits of the playlist

    [PlaylistTag.cxx], [PlaylistUpdate.cxx], [SetSongIdRange], [TagModified], [Clear] and
    the bulk edits: song objects are changed where they are, the rest of the playlist is
    left alone. *)

From Stdlib Require Import ZArith Lia ZifyBool.
From stdpp Require Import base numbers sets list.
From S2P Require Import Prelude IdTable RandomEngine Queue QueueFacts QueueEdit QueueOrder.
From S2P Require Import QueuePriority CString TagString Tag Song Prog Player Playlist PlaylistFacts.
From S2P Require Import PlaylistDelete PlaylistControl PlaylistEdits.

Set Default Goal Selector "!".

Module PlaylistInPlace.
Import Playlist PlaylistFacts PlaylistDelete PlaylistControl PlaylistOptions PlaylistEdits.
Import QueueFacts.

#[local] Abbreviation llen := List.length.
#[local] Abbreviation Item := (Queue.Item Song.DetachedSong).
#[local] Abbreviation stripped := (nat * Song.DetachedSong * nat)%type.

Section Facts.
Context {G T : Type} `{!RandomEngine G, !RandomEngineLaws G}.
Context {HPT : Player.PlayerThread T} {HPL : Player.PlayerThreadLaws T} {HAL : Allocator}.
Implicit Types (w : world G T) (its : list Item) (it : Item).
Implicit Types q : Queue.Queue Song.DetachedSong G.

#[local] Abbreviation q_of w := (queue (pl w)).
#[local] Abbreviation next_of w := (Player.next_song (Player.pc (player w))).
#[local] Abbreviation len_of w := (Queue.length (queue (pl w))).

(** ** Rewriting a song object *)

(** The songs are now [l]; order, current and queued song are the same. *)
Record patched its w (l : list stripped) its' w' : Prop := {
  pt_inv : inv its' w';
  pt_strip : strip <$> its' = l;
  pt_frame : frame w w';
  pt_ord : ord (q_of w') = ord (q_of w);
  pt_current : current (pl w') = current (pl w);
  pt_queued : queued (pl w') = queued (pl w);
  pt_player : player w' = player w;
}.

Lemma patched_modified its w l its1 w1 its' w' :
  patched its w l its1 w1 → modified its1 w1 its' w' → patched its w l its' w'.
Proof. intros [] []. split; try done; try congruence. by etrans. Qed.

(** The songs with the one at position [p] changed by [f]. *)
Definition set_song (p : nat) (f : Song.DetachedSong → Song.DetachedSong) (l : list stripped)
    : list stripped :=
  alter (λ x, (x.1.1, f x.1.2, x.2)) p l.

Lemma wp_upd_song w its p it f Q X : inv its w → its !! p = Some it →
  Song.uri (f (Queue.song_data it)) = Song.uri (Queue.song_data it) →
  (∀ its' w' it', its' !! p = Some it' →
     patched its w (set_song p f (strip <$> its)) its' w' → Q tt w') →
  wp (qdo (T:=T) (upd_song p f)) Q X w.
Proof.
  intros Hi Hit Hu HQ. pose proof (c_repr _ _ (i_core _ _ Hi)) as Hr.
  pose proof (lookup_lt_Some _ _ _ Hit) as Hlt. rewrite (r_len _ _ Hr) in Hlt.
  set (it' := Queue.with_song it (f (Queue.song_data it))).
  destruct (repr_write_item _ _ p it it' Hr Hit eq_refl eq_refl) as [Hq Hr'].
  { by apply (Forall_lookup_1 _ _ _ _ (r_versions _ _ Hr) Hit). }
  { by apply (Forall_lookup_1 _ _ _ _ (r_prio _ _ Hr) Hit). }
  eapply wp_qdo.
  { unfold upd_song, Queue.Get. rewrite check_bind by lia.
    rewrite (repr_item_at _ _ _ _ Hr Hit). cbn [mbind option_bind]. exact Hq. }
  apply (HQ (<[p:=it']> its) _ it').
  { apply list_lookup_insert_eq. by rewrite (r_len _ _ Hr). }
  split; pl_simpl; try done.
  - apply (inv_put_queue _ _ its); try done. intros j x Hx. destruct (decide (j = p)) as [->|Hne].
    + rewrite list_lookup_insert_eq in Hx by (by rewrite (r_len _ _ Hr)). injection Hx as <-.
      by exists it.
    + rewrite list_lookup_insert_ne in Hx by done. by exists x.
  - unfold set_song. apply list_eq. intros j. destruct (decide (j = p)) as [->|Hne].
    + rewrite list_lookup_alter_eq, !list_lookup_fmap, Hit.
      rewrite list_lookup_insert_eq by (by rewrite (r_len _ _ Hr)). done.
    + rewrite list_lookup_alter_ne, !list_lookup_fmap by done.
      by rewrite list_lookup_insert_ne by done.
Qed.

(** Marking an item as changed. *)
Lemma wp_modify_item w its f p it Q X : inv its w → its !! p = Some it →
  f (q_of w) = Queue.ModifyAtPosition p (q_of w) →
  (∀ its' w', modified its w its' w' → Q tt w') →
  wp (qdo (T:=T) f) Q X w.
Proof.
  intros Hi Hit Hf HQ. pose proof (c_repr _ _ (i_core _ _ Hi)) as Hr.
  destruct (ModifyAtPosition_ok _ _ _ _ Hr Hit) as (q' & Hq & Hr' & Hcfg & _ & Ho).
  eapply wp_qdo; [by rewrite Hf|]. eapply HQ. apply put_queue_modified; try done.
  - unfold ord. by rewrite Ho, (cfg_length _ _ Hcfg).
  - by apply cfg_qcfg.
  - rewrite list_fmap_insert. apply list_insert_id. by rewrite list_lookup_fmap, Hit.
Qed.

Lemma wp_ModifyAtPosition w its p it Q X : inv its w → its !! p = Some it →
  (∀ its' w', modified its w its' w' → Q tt w') →
  wp (qdo (T:=T) (Queue.ModifyAtPosition p)) Q X w.
Proof. intros Hi Hit. by eapply wp_modify_item. Qed.

Lemma retouch_ok w its p it f Q X : inv its w → its !! p = Some it →
  Song.uri (f (Queue.song_data it)) = Song.uri (Queue.song_data it) →
  (∀ its' w', patched its w (set_song p f (strip <$> its)) its' w' → Q tt w') →
  wp (bind (qdo (T:=T) (upd_song p f)) (λ _,
      bind (qdo (Queue.ModifyAtPosition p)) (λ _, OnModified))) Q X w.
Proof.
  intros Hi Hit Hu HQ. apply wp_bind. eapply wp_upd_song; [done|done|done|].
  intros its1 w1 it1 Hit1 Hp1. apply wp_bind.
  eapply wp_ModifyAtPosition; [apply Hp1|done|]. intros its2 w2 Hm2.
  eapply OnModified_ok; [apply Hm2|]. intros its3 w3 Hm3. eapply HQ.
  eapply patched_modified; [|exact Hm3]. by eapply patched_modified.
Qed.

(** ** Tags *)

Lemma edit_tag_ok w its i edit Q (X : exn → world G T → Prop) : inv its w →
  (∀ t, ∃ b, edit (Tag.TagBuilder.of_tag t) = Some b) →
  (∀ p it b its' w', its !! p = Some it → Queue.id it = i →
     Song.IsFile (Queue.song_data it) = false →
     edit (Tag.TagBuilder.of_tag (Song.tag (Queue.song_data it))) = Some b →
     patched its w (set_song p (Song.SetTag (Tag.TagBuilder.Commit b).1) (strip <$> its)) its' w' →
     Q tt w') →
  (i ∉ Queue.id <$> its → X (PlaylistError NO_SUCH_SONG) w) →
  (∀ it, it ∈ its → Queue.id it = i → Song.IsFile (Queue.song_data it) = true →
     X (PlaylistError DENIED) w) →
  wp (edit_tag (T:=T) i edit) Q X w.
Proof.
  intros Hi Hed HQ HX1 HX2. unfold edit_tag. apply wp_bind. eapply wp_IdToPosition; [apply Hi|..].
  - intros p it Hit Hid Hlt. replace (Z.of_nat p <? 0)%Z with false by lia. rewrite Nat2Z.id.
    apply wp_bind. eapply wp_Get; [apply Hi|done|].
    destruct (Song.IsFile (Queue.song_data it)) eqn:Ef.
    { eapply wp_throw, HX2; [by eapply list_elem_of_lookup_2|done|done]. }
    destruct (Hed (Song.tag (Queue.song_data it))) as [b Hb].
    apply wp_bind. eapply wp_lift; [exact Hb|]. eapply retouch_ok; [done|done|done|].
    intros its' w'. by eapply HQ.
  - intros Hni z Hz. replace (z <? 0)%Z with true by lia. by apply wp_throw, HX1.
Qed.

Lemma AddItem_total mask ty v b : Forall is_byte v →
  ∃ b', Tag.TagBuilder.AddItem mask ty v b = Some b'.
Proof.
  intros Hv. destruct v as [|c v]; [by eexists|].
  destruct (Tag.IsTagEnabled mask ty) eqn:E.
  - destruct (Tag.AddItem_clean mask ty (c :: v) b Hv ltac:(done) E) as (v' & -> & _). by eexists.
  - unfold Tag.TagBuilder.AddItem. rewrite E. by eexists.
Qed.

(** ** Database updates *)

(** What [DatabaseModified] makes of a song. *)
Definition refresh (GetSong : list Z → option (Z * Tag.Tag)) (x : stripped) : stripped :=
  (x.1.1, default x.1.2 (UpdatePlaylistSong GetSong x.1.2), x.2).

Lemma UpdatePlaylistSong_uri GetSong s s' :
  UpdatePlaylistSong GetSong s = Some s' → Song.uri s' = Song.uri s.
Proof. unfold UpdatePlaylistSong. intros H. by repeat (case_match; simplify_eq/=). Qed.

Lemma set_song_refresh GetSong i l x s : l !! i = Some x →
  UpdatePlaylistSong GetSong x.1.2 = Some s →
  set_song i (λ _, s) l = <[i:=refresh GetSong x]> l.
Proof.
  intros Hx Hs. unfold set_song, refresh. rewrite Hs. simpl. apply list_eq. intros j.
  destruct (decide (j = i)) as [->|Hne].
  - rewrite list_lookup_alter_eq, list_lookup_insert_eq, Hx by by eapply lookup_lt_Some. done.
  - by rewrite list_lookup_alter_ne, list_lookup_insert_ne.
Qed.

Lemma DatabaseModified_loop_ok GetSong n : ∀ w its i m Q X, inv its w → i + n = len_of w →
  (∀ m' its' w', patched its w (take i (strip <$> its) ++ (refresh GetSong <$> drop i (strip <$> its)))
     its' w' → Q m' w') →
  wp (DatabaseModified_loop (T:=T) GetSong n i m) Q X w.
Proof.
  induction n as [|n IH]; intros w its i m Q X Hi Hin HQ; cbn [DatabaseModified_loop].
  { pose proof (r_len _ _ (c_repr _ _ (i_core _ _ Hi))) as Hl.
    apply wp_ret, (HQ m its). rewrite take_ge, drop_ge by (rewrite length_fmap; lia).
    rewrite app_nil_r. by split. }
  destruct (repr_lookup _ _ i (c_repr _ _ (i_core _ _ Hi))) as (it & Hit & _); [lia|].
  assert (Hs : (strip <$> its) !! i = Some (strip it)) by by rewrite list_lookup_fmap, Hit.
  rewrite (drop_S _ _ _ Hs) in HQ. cbn [fmap list_fmap] in HQ.
  apply wp_bind. eapply wp_Get; [apply Hi|done|].
  destruct (UpdatePlaylistSong GetSong (Queue.song_data it)) as [s|] eqn:Eu.
  - apply wp_bind. eapply wp_upd_song; [done|done|by eapply UpdatePlaylistSong_uri|].
    intros its1 w1 it1 Hit1 Hp1. apply wp_bind.
    eapply wp_ModifyAtPosition; [apply Hp1|done|]. intros its2 w2 Hm2.
    pose proof (patched_modified _ _ _ _ _ _ _ Hp1 Hm2) as [H1 H2 H3 H4 H5 H6 H7].
    pose proof (qcfg_flags _ _ (f_cfg _ _ H3)) as [_ Hl2].
    eapply (IH w2 its2 (S i)); [done|lia|]. intros m' its' w' [K1 K2 K3 K4 K5 K6 K7].
    apply (HQ m' its'). split; try done; try congruence; [|by etrans].
    rewrite K2, H2. rewrite (set_song_refresh GetSong i _ (strip it)) by done.
    assert (i < llen (strip <$> its)) by by eapply lookup_lt_Some.
    rewrite take_insert_lt, drop_insert_lt by lia. rewrite (take_S_r _ _ _ Hs).
    rewrite insert_app_r_alt by (rewrite length_take; lia).
    rewrite length_take, <-(assoc_L (++)). f_equal.
    by replace (i - i `min` llen (strip <$> its)) with 0 by lia.
  - eapply (IH w its (S i)); [done|lia|]. intros m' its' w' Hp. apply (HQ m' its').
    rewrite (take_S_r _ _ _ Hs), <-(assoc_L (++)) in Hp. simpl in Hp.
    replace (refresh GetSong (strip it)) with (strip it); [done|].
    unfold refresh. cbn [strip fst snd]. by rewrite Eu.
Qed.

Lemma DatabaseModified_ok w its GetSong Q X : inv its w →
  (∀ its' w', patched its w (refresh GetSong <$> (strip <$> its)) its' w' → Q tt w') →
  wp (DatabaseModified (T:=T) GetSong) Q X w.
Proof.
  intros Hi HQ. unfold DatabaseModified. apply wp_bind. eapply wp_GetLength; [apply Hi|].
  apply wp_bind. eapply DatabaseModified_loop_ok; [done|done|].
  intros m its1 w1 Hp. cbn [take drop app] in Hp. destruct m.
  - eapply OnModified_ok; [apply Hp|]. intros its' w' Hm. eapply HQ. by eapply patched_modified.
  - apply wp_ret. by eapply HQ.
Qed.

(** ** Changing the playback range of a song *)

(** The queued song may be looked up by its position. *)
Definition range_safe its w (i : nat) : Prop :=
  playing (pl w) = false ∨ (queued (pl w) < 0)%Z ∨
  ∃ p it, its !! p = Some it ∧ Queue.id it = i ∧ queued (pl w) = Z.of_nat p.

(** The end time is dropped when it is not before the end of the song. *)
Definition clip_end (d end_ : Z) : Z :=
  if negb (Tag.IsNegative d) && (d <=? end_)%Z then 0%Z else end_.

(** Nothing is queued: the invariant gives the link that [UpdateQueuedSong(pc, nullptr)]
    expects. *)
Lemma linked_idle its w : inv its w → playing (pl w) = false ∨ (queued (pl w) < 0)%Z →
  linked its w None.
Proof.
  intros [Hc Hs Hn _ _] Hor. split.
  - done.
  - intros Hp. split; [done|]. intros _. by destruct Hor; [congruence|].
  - intros _. destruct (playing (pl w)) eqn:Hp; [|by apply Hs]. apply Hn; [done|].
    by destruct Hor.
  - done.
Qed.

(** The state after the pending song was taken back. *)
Lemma cancelled_inv its w v : inv its w → Player.ready v → Player.next_song (Player.pc v) = None →
  inv its (requeue (-1)%Z v w).
Proof.
  intros [Hc _ _ _ _] Hv Hn. pose proof (c_current _ _ Hc). split; unfold requeue; pl_simpl; try done.
  - by apply core_requeue.
  - lia.
Qed.

Lemma SetSongIdRange_ok w its i start end_ Q (X : exn → world G T → Prop) : inv its w →
  (end_ = 0 ∨ start < end_)%Z → range_safe its w i →
  (∀ p it its' w', its !! p = Some it → Queue.id it = i → inv its' w' →
     strip <$> its' = set_song p (λ s, Song.SetEndTime
       (clip_end (Tag.duration (Song.GetTag (Queue.song_data it))) end_)
       (Song.SetStartTime start s)) (strip <$> its) →
     frame w w' → Q tt w') →
  (i ∉ Queue.id <$> its → X (PlaylistError NO_SUCH_SONG) w) →
  (∀ p it, its !! p = Some it → Queue.id it = i → playing (pl w) = true →
     current (pl w) = Z.of_nat p → X (PlaylistError DENIED) w) →
  (∀ p it w', its !! p = Some it → Queue.id it = i →
     (0 ≤ Tag.duration (Song.GetTag (Queue.song_data it)) < start)%Z →
     inv its w' → frame w w' → X (PlaylistError BAD_RANGE) w') →
  wp (SetSongIdRange (T:=T) i start end_) Q X w.
Proof.
  intros Hi Hse Hsafe HQ HX1 HX2 HX3. unfold SetSongIdRange. apply wp_bind, wp_assert; [lia|].
  apply wp_bind. eapply wp_IdToPosition; [apply Hi|..].
  2: { intros Hni z Hz. replace (z <? 0)%Z with true by lia. by apply wp_throw, HX1. }
  intros p it Hit Hid Hlt. replace (Z.of_nat p <? 0)%Z with false by lia.
  apply wp_bind, wp_read_pl, wp_bind. rewrite Nat2Z.id.
  assert (Hrest : ∀ w1, inv its w1 → frame w w1 →
    playing (pl w1) = false ∨ (queued (pl w1) < 0)%Z →
    wp (bind (qask (λ q, Queue.Get q p)) (λ it0,
      let d := Tag.duration (Song.GetTag (Queue.song_data it0)) in
      if negb (Tag.IsNegative d) && (d <? start)%Z then throw (PlaylistError BAD_RANGE)
      else
        let end_0 := if negb (Tag.IsNegative d) && (d <=? end_)%Z then 0%Z else end_ in
        bind (qdo (upd_song p (λ s, Song.SetEndTime end_0 (Song.SetStartTime start s)))) (λ _,
        bind (UpdateQueuedSong (T:=T) None) (λ _,
        bind (qdo (Queue.ModifyAtPosition p)) (λ _, OnModified))))) Q X w1).
  { intros w1 Hi1 Hf1 Hidle. apply wp_bind. eapply wp_Get; [apply Hi1|done|]. cbv zeta.
    wp_if E.
    { eapply wp_throw, HX3; [done|done| |done|done]. unfold Tag.IsNegative in E. lia. }
    fold (clip_end (Tag.duration (Song.GetTag (Queue.song_data it))) end_).
    apply wp_bind. eapply wp_upd_song; [done|done|done|].
    intros its2 w2 it2 Hit2 [P1 P2 P3 P4 P5 P6 P7]. apply wp_bind.
    eapply UpdateQueuedSong_ok; [apply P1|apply linked_idle; [done|]|].
    { rewrite P6, (f_playing _ _ P3). done. }
    intros w3 Hu3. apply wp_bind. eapply wp_ModifyAtPosition; [apply (u_inv _ _ _ _ Hu3)|done|].
    intros its4 w4 Hm4. eapply OnModified_ok; [apply Hm4|]. intros its5 w5 Hm5.
    eapply HQ; [done|done|apply Hm5| |].
    - rewrite (m_strip _ _ _ _ Hm5), (m_strip _ _ _ _ Hm4). done.
    - etrans; [|apply Hm5]. etrans; [|apply Hm4]. etrans; [|apply Hu3]. by etrans. }
  unfold set_queued. destruct (playing (pl w)) eqn:Hp.
  2: { apply wp_ret, Hrest; [done|done|by left]. }
  wp_if E1; [eapply wp_throw, HX2; (done || lia)|]. wp_if E2.
  - apply wp_bind, wp_player, Player.LockCancel_ok; [apply Hi|]. intros v Hv Hvn _.
    apply wp_upd_pl. apply (Hrest (requeue (-1)%Z v w)).
    + by apply cancelled_inv.
    + by split.
    + right. done.
  - apply wp_ret, Hrest; [done|done|]. right. destruct Hsafe as [|[|(p' & it' & Hit' & Hid' & Hq')]];
      [congruence|done|]. assert (p' = p) as ->; [|lia].
    apply (NoDup_lookup (Queue.id <$> its) p' p i).
    + apply (IdTable.holds_nodup _ _ _ (r_ids _ _ (c_repr _ _ (i_core _ _ Hi)))).
    + by rewrite list_lookup_fmap, Hit', <-Hid'.
    + by rewrite list_lookup_fmap, Hit, <-Hid.
Qed.

(** ** Tags received from the decoder *)

(** The current song adopts the tag when it has the same URI. *)
Definition retag (song : Song.DetachedSong) (s : Song.DetachedSong) : Song.DetachedSong :=
  if Song.IsSame song s then (Song.MoveTagItemsFrom s song).1 else s.

Lemma retag_uri song s : Song.uri (retag song s) = Song.uri s.
Proof. unfold retag, Song.MoveTagItemsFrom. by repeat case_match. Qed.

Lemma set_song_id p f l x : l !! p = Some x → f x.1.2 = x.1.2 → set_song p f l = l.
Proof.
  intros Hx Hf. unfold set_song. apply list_eq. intros j. destruct (decide (j = p)) as [->|Hne].
  - rewrite list_lookup_alter_eq, Hx. simpl. rewrite Hf. by destruct x as [[] ?].
  - by rewrite list_lookup_alter_ne.
Qed.

Lemma TagModified_ok w its song Q X : inv its w →
  (playing (pl w) = false → Q tt w) →
  (∀ p its' w', playing (pl w) = true → cur_pos w = Some p →
     patched its w (set_song p (retag song) (strip <$> its)) its' w' → Q tt w') →
  wp (TagModified (T:=T) song) Q X w.
Proof.
  intros Hi HQ0 HQ. pose proof (i_core _ _ Hi) as Hc. unfold TagModified.
  apply wp_bind, wp_read_pl. destruct (playing (pl w)) eqn:Hp; cbn [negb]; [|by apply wp_ret, HQ0].
  pose proof (c_playing _ _ Hc Hp) as H0. pose proof (c_current _ _ Hc) as Hcr.
  apply wp_bind, wp_assert; [lia|].
  destruct (order_lookup w its (current (pl w)) Hc) as (p & it & Hop & Hit & Hlt & Hpo & Hgo & _); [lia|].
  apply wp_bind. eapply wp_qask; [exact Hgo|]. apply wp_bind. eapply wp_qask; [exact Hpo|].
  assert (Hcur : cur_pos w = Some p).
  { unfold cur_pos. by replace (0 <=? current (pl w))%Z with true by lia. }
  assert (Hrest : ∀ its1 w1 it1, its1 !! p = Some it1 →
    patched its w (set_song p (retag song) (strip <$> its)) its1 w1 →
    wp (bind (lift (to_unsigned (current (pl w)))) (λ o, bind (qdo (Queue.ModifyAtOrder o))
      (λ _, OnModified (T:=T)))) Q X w1).
  { intros its1 w1 it1 Hit1 Hp1. apply wp_bind. eapply wp_lift; [by apply to_unsigned_pos|].
    pose proof (qcfg_flags _ _ (f_cfg _ _ (pt_frame _ _ _ _ _ Hp1))) as [_ Hl1].
    assert (Hm : Queue.ModifyAtOrder (Z.to_nat (current (pl w))) (q_of w1) = Queue.ModifyAtPosition p (q_of w1)).
    { unfold Queue.ModifyAtOrder. rewrite check_bind by lia.
      rewrite <-ord_lookup, (pt_ord _ _ _ _ _ Hp1), Hop by lia. done. }
    apply wp_bind. eapply wp_modify_item; [apply Hp1|exact Hit1|exact Hm|]. intros its2 w2 Hm2.
    eapply OnModified_ok; [apply Hm2|]. intros its3 w3 Hm3. eapply (HQ p its3); [done|done|].
    eapply patched_modified; [|exact Hm3]. by eapply patched_modified. }
  assert (Hst : (strip <$> its) !! p = Some (strip it)) by by rewrite list_lookup_fmap, Hit.
  apply wp_bind. destruct (Song.IsSame song (Queue.song_data it)) eqn:Es.
  - assert (Hf : ∀ l : list stripped, l !! p = Some (strip it) →
      set_song p (λ s, (Song.MoveTagItemsFrom s song).1) l = set_song p (retag song) l).
    { intros l Hl. unfold set_song. apply list_eq. intros j. destruct (decide (j = p)) as [->|Hne].
      - rewrite !list_lookup_alter_eq, Hl. unfold retag. cbn [fmap option_fmap option_map strip fst snd].
        by rewrite Es.
      - by rewrite !list_lookup_alter_ne. }
    eapply wp_upd_song; [done|done|by unfold Song.MoveTagItemsFrom; case_match|].
    intros its1 w1 it1 Hit1 Hp1. rewrite Hf in Hp1 by done. by eapply Hrest.
  - apply wp_ret. eapply (Hrest its w it); [done|].
    rewrite (set_song_id p _ _ (strip it)); [by split|done|]. unfold retag. cbn [strip fst snd]. by rewrite Es.
Qed.

(** ** Clear and bulk edits *)

Lemma Clear_ok w its Q X : inv its w →
  (∀ its' w', inv its' w' → its' = [] → playing (pl w') = false → current (pl w') = (-1)%Z → Q tt w') →
  wp (Clear (T:=T)) Q X w.
Proof.
  intros Hi HQ. unfold Clear. apply wp_bind. eapply Stop_ok; [apply Hi|apply Hi|].
  intros w1 [Hi1 Hp1 Hcfg1 _ _ _].
  destruct (QueueEdit.queue_Clear_ok _ _ (c_repr _ _ (i_core _ _ Hi1))) as (q2 & Hq2 & Hr2 & Hcfg2 & _).
  apply wp_bind. eapply wp_qdo; [exact Hq2|]. unfold set_current. apply wp_bind, wp_upd_pl.
  assert (Hl2 : Queue.length q2 = 0) by (unfold cfg in Hcfg2; simpl in Hcfg2; congruence).
  eapply (OnModified_ok _ []).
  - destruct Hi1 as [[] Hs1 _ _ _]. split; pl_simpl; try done; [split; pl_simpl; try done|..].
    + intros _. rewrite Hl2. unfold ord. by rewrite Hl2.
    + rewrite Hl2. lia.
    + congruence.
    + intros Hp. congruence.
    + intros Hp. congruence.
    + intros s it Hp. congruence.
  - intros its' w' Hm. apply (HQ its'); [apply Hm| | |].
    + pose proof (m_strip _ _ _ _ Hm) as Hs. by apply fmap_nil_inv in Hs.
    + rewrite (f_playing _ _ (m_frame _ _ _ _ Hm)). done.
    + rewrite (m_current _ _ _ _ Hm). done.
Qed.

Lemma BeginBulk_ok w its Q X : inv its w → bulk_edit (pl w) = false →
  (∀ w', inv its w' → bulk_edit (pl w') = true → cur_pos w' = cur_pos w →
     playing (pl w') = playing (pl w) → Q tt w') →
  wp (BeginBulk (T:=T)) Q X w.
Proof.
  intros Hi Hb HQ. unfold BeginBulk. apply wp_bind, wp_read_pl, wp_bind, wp_assert; [by rewrite Hb|].
  apply wp_upd_pl, HQ; try done. by apply (inv_ext its w).
Qed.

Lemma CommitBulk_ok w its Q X : inv its w → bulk_edit (pl w) = true →
  (∀ its' w', inv its' w' → strip <$> its' = strip <$> its → bulk_edit (pl w') = false →
     cur_pos w' = cur_pos w → playing (pl w') = playing (pl w) → Q tt w') →
  wp (CommitBulk (T:=T)) Q X w.
Proof.
  intros Hi Hb HQ. unfold CommitBulk. apply wp_bind, wp_read_pl, wp_bind, wp_assert; [done|].
  apply wp_bind, wp_upd_pl. set (w1 := mkWorld _ _ _).
  assert (Hi1 : inv its w1) by by apply (inv_ext its w).
  wp_if E; [by apply wp_ret, (HQ its)|]. apply wp_bind.
  assert (Hfin : ∀ w2, inv its w2 → frame w1 w2 → wp (OnModified (T:=T)) Q X w2).
  { intros w2 Hi2 [Hf1 Hf2 Hf3 Hf4]. eapply OnModified_ok; [done|]. intros its' w' [M1 M2 [M3 M4 M5 M6] _ _ _ _].
    apply (HQ its'); try done; [by rewrite M4, Hf2|by rewrite M6, Hf4|by rewrite M3, Hf1]. }
  wp_if E2; [|by apply wp_ret, Hfin].
  eapply UpdateQueuedSong_ok; [apply Hi1|apply linked_idle; [done|right; subst w1; pl_simpl; lia]|].
  intros w2 Hu. apply Hfin; apply Hu.
Qed.

(** ** The next song, for the status response *)

Definition next_position w : Z :=
  let q := q_of w in
  if (current (pl w) <? 0)%Z then (-1)%Z
  else
    let c := Z.to_nat (current (pl w)) in
    let o := if Queue.single q && Queue.repeat q then Some c
             else if S c <? Queue.length q then Some (S c)
             else if Queue.repeat q then Some 0 else None in
    from_option Z.of_nat (-1)%Z (o ≫= λ o, ord q !! o).

Lemma GetNextPosition_ok w its Q X : inv its w → Q (next_position w) w →
  wp (GetNextPosition (T:=T)) Q X w.
Proof.
  intros Hi HQ. pose proof (i_core _ _ Hi) as Hc. pose proof (c_current _ _ Hc) as Hcr.
  unfold GetNextPosition. apply wp_bind, wp_read_pl. unfold next_position in HQ. cbv zeta in *.
  wp_if E; [by apply wp_ret|].
  assert (Hat : ∀ o : Z, (0 ≤ o < Z.of_nat (len_of w))%Z →
    Q (from_option Z.of_nat (-1)%Z (ord (q_of w) !! Z.to_nat o)) w →
    wp (bind (qask (T:=T) (OrderToPosition o)) (λ position, ret (Z.of_nat position))) Q X w).
  { intros o Ho HQo. destruct (order_lookup w its o Hc Ho) as (p & it & Hp & _ & _ & Hop & _).
    apply wp_bind. eapply wp_qask; [exact Hop|]. apply wp_ret. by rewrite Hp in HQo. }
  unfold Queue.IsValidOrder in *.
  destruct (Queue.single (q_of w) && Queue.repeat (q_of w)); [apply Hat; [lia|done]|].
  replace (Z.to_nat (current (pl w) + 1)) with (S (Z.to_nat (current (pl w)))) by lia.
  wp_if E2.
  - apply Hat; [lia|]. by replace (Z.to_nat (current (pl w) + 1)) with (S (Z.to_nat (current (pl w)))) by lia.
  - destruct (Queue.repeat (q_of w)); [apply Hat; [lia|done]|by apply wp_ret].
Qed.

End Facts.
End PlaylistInPlace.
