(* ===== verification/PlaylistSystem.v ===== *)
(** * The playlist as a system

    Every request a client or the player can make of the playlist, in any order.  From
    the empty playlist, whatever the sequence of admissible requests and whatever the
    player thread does in between, no assertion of the playlist, the queue or the
    player control fails and the playlist invariant holds; and every edit does to the
    abstract song list what its documentation says. *)

From Stdlib Require Import ZArith Lia ZifyBool.
From stdpp Require Import base numbers sets list relations.
From S2P Require Import Prelude IdTable RandomEngine Queue QueueFacts QueueEdit QueueOrder.
From S2P Require Import QueuePriority CString TagString Tag Song Prog Player Playlist PlaylistFacts.
From S2P Require Import PlaylistDelete PlaylistControl PlaylistEdits PlaylistMoves.
From S2P Require Import PlaylistInPlace.

Set Default Goal Selector "!".

Module PlaylistSystem.
Import Playlist PlaylistFacts PlaylistDelete PlaylistControl PlaylistOptions PlaylistEdits.
Import PlaylistMoves PlaylistInPlace QueueFacts.

#[local] Abbreviation llen := List.length.
#[local] Abbreviation Item := (Queue.Item Song.DetachedSong).
#[local] Abbreviation stripped := (nat * Song.DetachedSong * nat)%type.

(** The edits, with the arguments of the methods. *)
Inductive edit :=
| EClear
| EAppendSong (song : Song.DetachedSong)
| ESwapPositions (song1 song2 : nat)
| ESwapIds (id1 id2 : nat)
| ESetPriorityRange (start end_ : nat) (priority : Z)
| ESetPriorityId (id : nat) (priority : Z)
| EDeletePosition (song : nat)
| EDeleteRange (start end_ : nat)
| EDeleteId (id : nat)
| EStaleSong (uri : list Z)
| EMoveRange (start end_ : nat) (to : Z)
| EMoveId (id : nat) (to : Z)
| EShuffle (start end_ : nat)
| ESetSongIdRange (id : nat) (start end_ : Z)
| EAddSongIdTag (mask : Z) (id : nat) (type : Tag.TagType) (value : list Z)
| EClearSongIdTag (id : nat) (type : Tag.TagType)
| EDatabaseModified (GetSong : list Z → option (Z * Tag.Tag))
| ETagModified (song : Song.DetachedSong)
| ESetRepeat (b : bool) | ESetSingle (b : bool) | ESetConsume (b : bool) | ESetRandom (b : bool).

(** All requests: the edits, bulk brackets, playback control and player events. *)
Inductive request :=
| Edit (e : edit)
| BeginBulkEdit | CommitBulkEdit
| StopPlayback | PlayPos (song : Z) | PlaySongId (id : Z) | Next | Previous
| SeekPosition (song : nat) (t : Z) | SeekId (id : nat) (t : Z) | SeekCur (t : Z) (relative : bool)
| PlayerEvent.

Section System.
Context {G T : Type} `{!RandomEngine G, !RandomEngineLaws G}.
Context {HPT : Player.PlayerThread T} {HPL : Player.PlayerThreadLaws T} {HAL : Allocator}.
Implicit Types (w : world G T) (its : list Item) (it : Item).

#[local] Abbreviation q_of w := (queue (pl w)).
#[local] Abbreviation len_of w := (Queue.length (queue (pl w))).

Definition run_edit (e : edit) : prog (world G T) unit :=
  match e with
  | EClear => Clear
  | EAppendSong s => bind (AppendSong s) (λ _, ret tt)
  | ESwapPositions a b => SwapPositions a b
  | ESwapIds a b => SwapIds a b
  | ESetPriorityRange s e p => SetPriorityRange s e p
  | ESetPriorityId i p => SetPriorityId i p
  | EDeletePosition p => DeletePosition p
  | EDeleteRange s e => DeleteRange s e
  | EDeleteId i => DeleteId i
  | EStaleSong u => StaleSong u
  | EMoveRange s e t => MoveRange s e t
  | EMoveId i t => MoveId i t
  | EShuffle s e => Shuffle s e
  | ESetSongIdRange i s e => SetSongIdRange i s e
  | EAddSongIdTag m i ty v => AddSongIdTag m i ty v
  | EClearSongIdTag i ty => ClearSongIdTag i ty
  | EDatabaseModified db => DatabaseModified db
  | ETagModified s => TagModified s
  | ESetRepeat b => SetRepeat b
  | ESetSingle b => SetSingle b
  | ESetConsume b => SetConsume b
  | ESetRandom b => SetRandom b
  end.

Definition handle (r : request) : prog (world G T) unit :=
  match r with
  | Edit e => run_edit e
  | BeginBulkEdit => BeginBulk
  | CommitBulkEdit => CommitBulk
  | StopPlayback => Stop
  | PlayPos song => PlayPosition song
  | PlaySongId i => PlayId i
  | Next => PlayNext
  | Previous => PlayPrevious
  | SeekPosition song t => SeekSongPosition song t
  | SeekId i t => SeekSongId i t
  | SeekCur t rel => SeekCurrent t rel
  | PlayerEvent => SyncWithPlayer
  end.

(** ** Admissible requests

    What the callers guarantee (argument ranges), and the states in which the code has
    a known defect and is kept out (see the counterexamples). *)

(** No song is handed over in advance. *)
Definition idle w : bool := negb (playing (pl w)) || (queued (pl w) <? 0)%Z.

Definition seekable w (song : nat) : bool :=
  idle w ||
  match Queue.PositionToOrder (q_of w) song with
  | Some o => negb (current (pl w) =? Z.of_nat o)%Z
  | None => true
  end.

Definition byteb (b : Z) : bool := ((0 <=? b) && (b <? 256))%Z.

Definition admissible_edit (e : edit) w : bool :=
  match e with
  | ESetPriorityRange _ _ p | ESetPriorityId _ p => ((0 <=? p) && (p <=? 255))%Z
  | EMoveRange start end_ to =>
      (start <? end_) && (Z.of_nat end_ <? 2^32)%Z && (Z.of_nat (len_of w) <? 2^30)%Z &&
      (to <? 2^31)%Z && ((0 <=? to)%Z || (end_ =? S start))
  | EMoveId _ to => (Z.of_nat (len_of w) <? 2^30)%Z && (to <? 2^31)%Z
  | EShuffle start _ => (Z.of_nat start + 1 <? 2^32)%Z
  | ESetSongIdRange i start end_ =>
      ((end_ =? 0) || (start <? end_))%Z &&
      (idle w || bool_decide (Queue.IdToPosition (q_of w) i = Some (queued (pl w))))
  | EAddSongIdTag _ _ _ v => forallb byteb v
  | _ => true
  end.

Definition admissible (r : request) w : bool :=
  match r with
  | Edit e => admissible_edit e w
  | BeginBulkEdit => negb (bulk_edit (pl w))
  | CommitBulkEdit => bulk_edit (pl w)
  | SeekPosition song _ => seekable w song
  | SeekId i _ =>
      match Queue.IdToPosition (q_of w) i with
      | Some z => (z <? 0)%Z || seekable w (Z.to_nat z)
      | None => true
      end
  | SeekCur _ _ => idle w
  | PlayerEvent =>
      negb (playing (pl w) && Queue.consume (q_of w) && (queued (pl w) =? current (pl w))%Z)
  | _ => true
  end.

(** One request, whether it succeeds or throws. *)
Inductive step : relation (world G T) :=
| step_done r w w' : admissible r w = true → handle r w = Done tt w' → step w w'
| step_raised r e w w' : admissible r w = true → handle r w = Raised e w' → step w w'.

(** ** The abstract playlist *)

Record abs := mkAbs {
  a_songs : list stripped;      (* song object, contents, id *)
  a_current : option nat;       (* the id of the current song *)
  a_playing : bool;
  a_random : bool;
  a_prios : list Z;             (* the priorities, by position *)
  a_order : Z;                  (* the order number of the current song, or -1 *)
  a_max : nat;                  (* the capacity *)
  a_repeat : bool;
  a_single : bool;
  a_consume : bool;
}.

Definition ids (l : list stripped) : list nat := snd <$> l.

Definition absw its w : abs :=
  mkAbs (strip <$> its) (snd <$> cur_song its w) (playing (pl w)) (Queue.random (q_of w))
    (prios its) (current (pl w)) (Queue.max_length (q_of w))
    (Queue.repeat (q_of w)) (Queue.single (q_of w)) (Queue.consume (q_of w)).

(** Same current song, same playback state. *)
Definition undisturbed (a a' : abs) : Prop :=
  a_current a' = a_current a ∧ a_playing a' = a_playing a.

(** A block is moved; the current song is followed unless the block overtakes it. *)
Definition moved_to (a a' : abs) (start end_ t : nat) : Prop :=
  a_songs a' = move_list start end_ t (a_songs a) ∧ a_playing a' = a_playing a ∧
  (a_random a = true ∨ t ≤ start ∨ end_ = S start → a_current a' = a_current a).

(** Removing one song: playback is disturbed only if it is the current one. *)
Definition removed_at (a a' : abs) (p : nat) : Prop :=
  p < llen (a_songs a) ∧ a_songs a' = delete p (a_songs a) ∧
  (a_current a ≠ ids (a_songs a) !! p → undisturbed a a').

(** The current song is at position [c]. *)
Definition current_at_pos (a : abs) (c : nat) : Prop :=
  ∃ i, a_current a = Some i ∧ ids (a_songs a) !! c = Some i.

(** Where [MoveRange] puts the block [start, end_): a destination that is not negative is
    the new position of its first song; a negative one counts from the current song, and a
    block with the current song in it stays. *)
Definition move_spec_of (a a' : abs) (start end_ : nat) (to : Z) : Prop :=
  end_ ≤ llen (a_songs a) ∧
  ((0 ≤ to)%Z → moved_to a a' start end_ (Z.to_nat to)) ∧
  ((to < 0)%Z → ∃ c, current_at_pos a c ∧
     if decide (start ≤ c < end_) then a_songs a' = a_songs a ∧ undisturbed a a'
     else
       let d := ((Z.of_nat c + Z.abs to) mod Z.of_nat (llen (a_songs a)))%Z in
       moved_to a a' start end_ (Z.to_nat (if (Z.of_nat start <? d)%Z then d - 1 else d)%Z)).

(** The moves it refuses: beyond the end, or relative to a current song there is not. *)
Definition move_bad (a : abs) (start end_ : nat) (to : Z) : Prop :=
  let len := llen (a_songs a) in
  len < end_ ∨
  (0 ≤ to ∧ Z.of_nat len < to + Z.of_nat (end_ - start))%Z ∨
  (to < 0)%Z ∧ ((Z.of_nat len < Z.abs to)%Z ∨ a_current a = None).

(** What each edit promises about the abstract playlist. *)
Definition edit_spec (e : edit) (a a' : abs) : Prop :=
  match e with
  | EClear => a_songs a' = [] ∧ a_current a' = None ∧ a_playing a' = false
  | EAppendSong s =>
      a_playing a' = a_playing a ∧ (a_random a = false → a_current a' = a_current a) ∧
      ∃ ptr i, (i ∉ ids (a_songs a)) ∧ a_songs a' = a_songs a ++ [(ptr, s, i)]
  | ESwapPositions p1 p2 =>
      a_songs a' = swap_list p1 p2 (a_songs a) ∧ undisturbed a a'
  | ESwapIds i1 i2 =>
      undisturbed a a' ∧ ∃ p1 p2, ids (a_songs a) !! p1 = Some i1 ∧ ids (a_songs a) !! p2 = Some i2 ∧
        a_songs a' = swap_list p1 p2 (a_songs a)
  | ESetPriorityRange start end_ prio =>
      start < llen (a_songs a) ∧ a_songs a' = a_songs a ∧ undisturbed a a' ∧
      a_prios a' = imap (λ i p, if decide (start ≤ i < end_) then prio else p) (a_prios a)
  | ESetPriorityId i prio =>
      a_songs a' = a_songs a ∧ undisturbed a a' ∧
      ∃ p, ids (a_songs a) !! p = Some i ∧ a_prios a' = <[p := prio]> (a_prios a)
  | EDeletePosition p => removed_at a a' p
  | EDeleteRange start end_ =>
      a_songs a' = take start (a_songs a) ++ drop (start `max` end_) (a_songs a)
  | EDeleteId i => ∃ p, ids (a_songs a) !! p = Some i ∧ removed_at a a' p
  | EStaleSong uri =>
      (* exactly the songs with this URI go, the playing one excepted *)
      a_songs a' = filter (λ x, Song.IsURI x.1.2 uri = false ∨
                                a_playing a = true ∧ a_current a = Some x.2) (a_songs a) ∧
      a_playing a' = a_playing a
  | EMoveRange start end_ to =>
      move_spec_of a a' start end_ to
  | EMoveId i to =>
      ∃ p, ids (a_songs a) !! p = Some i ∧ move_spec_of a a' p (S p) to
  | EShuffle start end_ =>
      a_songs a' ≡ₚ a_songs a ∧ (∀ p, p < start ∨ end_ ≤ p → a_songs a' !! p = a_songs a !! p) ∧
      a_playing a' = a_playing a ∧ (a_playing a = true → a_current a' = a_current a)
  | ESetSongIdRange i start end_ =>
      undisturbed a a' ∧ ∃ p x, a_songs a !! p = Some x ∧ x.2 = i ∧
        a_songs a' = set_song p (λ s, Song.SetEndTime
          (clip_end (Tag.duration (Song.GetTag x.1.2)) end_) (Song.SetStartTime start s)) (a_songs a)
  | EAddSongIdTag mask i ty v =>
      undisturbed a a' ∧ ∃ p x b, a_songs a !! p = Some x ∧ x.2 = i ∧ Song.IsFile x.1.2 = false ∧
        Tag.TagBuilder.AddItem mask ty v (Tag.TagBuilder.of_tag (Song.tag x.1.2)) = Some b ∧
        a_songs a' = set_song p (Song.SetTag (Tag.TagBuilder.Commit b).1) (a_songs a)
  | EClearSongIdTag i ty =>
      undisturbed a a' ∧ ∃ p x, a_songs a !! p = Some x ∧ x.2 = i ∧ Song.IsFile x.1.2 = false ∧
        let b := Tag.TagBuilder.of_tag (Song.tag x.1.2) in
        a_songs a' = set_song p (Song.SetTag (Tag.TagBuilder.Commit
          (if decide (ty = Tag.TAG_NUM_OF_ITEM_TYPES) then Tag.TagBuilder.RemoveAll b
           else Tag.TagBuilder.RemoveType ty b)).1) (a_songs a)
  | EDatabaseModified db => a_songs a' = refresh db <$> a_songs a ∧ undisturbed a a'
  | ETagModified s =>
      undisturbed a a' ∧
      a_songs a' = (λ x, if a_playing a && bool_decide (a_current a = Some x.2)
                         then (x.1.1, retag s x.1.2, x.2) else x) <$> a_songs a
  | ESetRepeat b => a_songs a' = a_songs a ∧ undisturbed a a' ∧ a_repeat a' = b
  | ESetSingle b => a_songs a' = a_songs a ∧ undisturbed a a' ∧ a_single a' = b
  | ESetConsume b => a_songs a' = a_songs a ∧ undisturbed a a' ∧ a_consume a' = b
  | ESetRandom b =>
      a_songs a' = a_songs a ∧ a_playing a' = a_playing a ∧ a_random a' = b ∧
      (a_playing a = true ∨ b = false → a_current a' = a_current a)
  end.

(** Edits never throw after they have changed something. *)
Definition error_spec (e : edit) (a a' : abs) (x : exn) : Prop :=
  a_songs a' = a_songs a ∧ undisturbed a a' ∧
  match e with
  | EDeletePosition p => x = PlaylistError BAD_RANGE ∧ llen (a_songs a) ≤ p
  | EDeleteRange start _ => x = PlaylistError BAD_RANGE ∧ llen (a_songs a) ≤ start
  | EDeleteId i => x = PlaylistError NO_SUCH_SONG ∧ i ∉ ids (a_songs a)
  | EAppendSong _ => x = PlaylistError TOO_LARGE ∧ llen (a_songs a) = a_max a
  | ESwapPositions p1 p2 =>
      x = PlaylistError BAD_RANGE ∧ (llen (a_songs a) ≤ p1 ∨ llen (a_songs a) ≤ p2)
  | ESwapIds i1 i2 =>
      x = PlaylistError NO_SUCH_SONG ∧ (i1 ∉ ids (a_songs a) ∨ i2 ∉ ids (a_songs a))
  | ESetPriorityRange start _ _ => x = PlaylistError BAD_RANGE ∧ llen (a_songs a) ≤ start
  | ESetPriorityId i _ => x = PlaylistError NO_SUCH_SONG ∧ i ∉ ids (a_songs a)
  | EMoveRange start end_ to => x = PlaylistError BAD_RANGE ∧ move_bad a start end_ to
  | EMoveId i to =>
      x = PlaylistError NO_SUCH_SONG ∧ i ∉ ids (a_songs a) ∨
      x = PlaylistError BAD_RANGE ∧ ∃ p, ids (a_songs a) !! p = Some i ∧ move_bad a p (S p) to
  | ESetSongIdRange i start _ =>
      x = PlaylistError NO_SUCH_SONG ∧ i ∉ ids (a_songs a) ∨
      (* the code compares the position with the order number of the current song *)
      x = PlaylistError DENIED ∧ a_playing a = true ∧
        (∃ p, ids (a_songs a) !! p = Some i ∧ a_order a = Z.of_nat p) ∨
      x = PlaylistError BAD_RANGE ∧
        ∃ y, y ∈ a_songs a ∧ y.2 = i ∧ (0 ≤ Tag.duration (Song.GetTag y.1.2) < start)%Z
  | EAddSongIdTag _ i _ _ | EClearSongIdTag i _ =>
      x = PlaylistError NO_SUCH_SONG ∧ i ∉ ids (a_songs a) ∨
      x = PlaylistError DENIED ∧ ∃ y, y ∈ a_songs a ∧ y.2 = i ∧ Song.IsFile y.1.2 = true
  | EClear | EStaleSong _ | EShuffle _ _ | EDatabaseModified _ | ETagModified _
  | ESetRepeat _ | ESetSingle _ | ESetConsume _ | ESetRandom _ => False
  end.

Definition refines (e : edit) its w : Prop :=
  wp (run_edit e)
    (λ _ w', ∃ its', inv its' w' ∧ edit_spec e (absw its w) (absw its' w'))
    (λ x w', ∃ its', inv its' w' ∧ error_spec e (absw its w) (absw its' w') x) w.

(** ** Refinement, edit by edit *)

Lemma ids_strip its : ids (strip <$> its) = Queue.id <$> its.
Proof. unfold ids. by rewrite <-list_fmap_compose. Qed.

Lemma ids_lookup l p : ids l !! p = snd <$> (l !! p).
Proof. apply list_lookup_fmap. Qed.

Lemma a_current_pos its w : a_current (absw its w) = cur_pos w ≫= λ p, ids (strip <$> its) !! p.
Proof. cbn. unfold cur_song. destruct (cur_pos w); simpl; [|done]. by rewrite ids_lookup. Qed.

Lemma ids_nodup its w : inv its w → NoDup (ids (strip <$> its)).
Proof.
  intros Hi. rewrite ids_strip. apply (IdTable.holds_nodup _ _ _ (r_ids _ _ (c_repr _ _ (i_core _ _ Hi)))).
Qed.

Lemma id_at its p it : its !! p = Some it → ids (strip <$> its) !! p = Some (Queue.id it).
Proof. intros H. by rewrite ids_strip, list_lookup_fmap, H. Qed.

Lemma undisturbed_pos its w its' w' : ids (strip <$> its') = ids (strip <$> its) →
  cur_pos w' = cur_pos w → playing (pl w') = playing (pl w) →
  undisturbed (absw its w) (absw its' w').
Proof. intros H1 H2 H3. split; [|done]. by rewrite !a_current_pos, H1, H2. Qed.

Lemma undisturbed_cur its w its' w' : cur_song its' w' = cur_song its w →
  playing (pl w') = playing (pl w) → undisturbed (absw its w) (absw its' w').
Proof. intros H1 H2. split; cbn; congruence. Qed.

Lemma arranged_undisturbed its w l (P : Prop) its' w' : arranged its w l P its' w' → P →
  a_songs (absw its' w') = l ∧ undisturbed (absw its w) (absw its' w').
Proof. intros [] HP. split; [done|]. apply undisturbed_cur; auto. Qed.

Lemma same_refl its w : a_songs (absw its w) = a_songs (absw its w) ∧ undisturbed (absw its w) (absw its w).
Proof. done. Qed.

Lemma length_a_songs its w : inv its w → llen (a_songs (absw its w)) = len_of w.
Proof. intros Hi. cbn. rewrite length_fmap. apply (r_len _ _ (c_repr _ _ (i_core _ _ Hi))). Qed.

Lemma refine_Clear its w : inv its w → refines EClear its w.
Proof.
  intros Hi. eapply Clear_ok; [done|]. intros its' w' Hi' -> Hp Hc. exists []. split; [done|].
  cbn. split_and!; [done| |done]. unfold cur_song, cur_pos. by rewrite Hc.
Qed.

Lemma refine_AppendSong its w s : inv its w → refines (EAppendSong s) its w.
Proof.
  intros Hi. unfold refines, run_edit. apply wp_bind. eapply AppendSong_ok; [done| |].
  - intros _ i its' w' [H1 H2 [ptr H3] H4 H5]. apply wp_ret. exists its'. split; [done|]. cbn.
    split_and!; [done| |].
    + intros Hr. rewrite H5; [done|by left].
    + exists ptr, i. by rewrite ids_strip.
  - intros Hfull. exists its. split; [done|]. split; [done|]. split; [done|]. split; [done|].
    by rewrite length_a_songs.
Qed.

Lemma refine_Swap its w a b : inv its w → refines (ESwapPositions a b) its w.
Proof.
  intros Hi. eapply SwapPositions_ok; [done| |].
  - intros _ _ its' w' Ha. exists its'. split; [apply Ha|]. by eapply arranged_undisturbed.
  - intros Hor. exists its. split; [done|]. split; [done|]. split; [done|]. split; [done|].
    by rewrite length_a_songs.
Qed.

Lemma refine_SwapIds its w a b : inv its w → refines (ESwapIds a b) its w.
Proof.
  intros Hi. eapply SwapIds_ok; [done| |].
  - intros p1 p2 it1 it2 its' w' H1 <- H2 <- Ha. exists its'. split; [apply Ha|].
    destruct (arranged_undisturbed _ _ _ _ _ _ Ha I). split; [done|]. exists p1, p2.
    split_and!; [by apply id_at|by apply id_at|done].
  - intros Hor. exists its. split; [done|]. split; [done|]. split; [done|]. split; [done|].
    cbn. by rewrite ids_strip.
Qed.

Lemma refine_Priority its w s e p : inv its w → (0 ≤ p ≤ 255)%Z →
  refines (ESetPriorityRange s e p) its w.
Proof.
  intros Hi Hp. eapply SetPriorityRange_ok; [done|done|..].
  - intros Hs its' w' Ha Hpr. exists its'. split; [apply Ha|].
    destruct (arranged_undisturbed _ _ _ _ _ _ Ha I). split; [by rewrite length_a_songs|].
    split; [done|]. split; [done|]. cbn. rewrite Hpr. apply imap_ext. intros j x _.
    case_decide; case_match; (done || lia).
  - intros Hs. exists its. split; [done|]. split; [done|]. split; [done|]. split; [done|].
    by rewrite length_a_songs.
Qed.

Lemma refine_PriorityId its w i p : inv its w → (0 ≤ p ≤ 255)%Z →
  refines (ESetPriorityId i p) its w.
Proof.
  intros Hi Hp. eapply SetPriorityId_ok; [done|done|..].
  - intros pos it its' w' Hit <- Ha Hpr. exists its'. split; [apply Ha|].
    destruct (arranged_undisturbed _ _ _ _ _ _ Ha I). split; [done|]. split; [done|].
    exists pos. split; [by apply id_at|done].
  - intros Hni. exists its. split; [done|]. split; [done|]. split; [done|]. split; [done|].
    cbn. by rewrite ids_strip.
Qed.

Lemma removed_spec its w p its' w' : inv its w → p < len_of w → removed its w p its' w' →
  removed_at (absw its w) (absw its' w') p.
Proof.
  intros Hi Hp Hr. unfold removed_at. rewrite length_a_songs by done.
  split_and!; [done|apply Hr|]. rewrite a_current_pos. intros Hne.
  assert (cur_pos w ≠ Some p) as Hcp.
  { intros Heq. rewrite Heq in Hne. done. }
  apply undisturbed_cur; [by eapply removed_cur_song|by apply (rm_current _ _ _ _ _ Hr)].
Qed.

Lemma refine_DeletePosition its w p : inv its w → refines (EDeletePosition p) its w.
Proof.
  intros Hi. eapply DeletePosition_ok; [done| |].
  - intros Hp its' w' Hr. exists its'. split; [apply Hr|]. by apply removed_spec.
  - intros Hp. exists its. split; [done|]. split_and!; try done. by rewrite length_a_songs.
Qed.

Lemma refine_DeleteRange its w s e : inv its w → refines (EDeleteRange s e) its w.
Proof.
  intros Hi. pose proof (length_a_songs its w Hi) as Hl. eapply DeleteRange_ok; [done| |].
  - intros Hs its' w' Hi' Hst _ _. exists its'. split; [done|]. cbn in *. rewrite Hst.
    case_match.
    + replace (s `max` e) with s by lia. by rewrite take_drop.
    + replace (s `max` e) with e by lia. f_equal.
      destruct (decide (e ≤ len_of w)); [by rewrite Nat.min_l|].
      rewrite Nat.min_r by lia. by rewrite !drop_ge by lia.
  - intros Hp. exists its. split; [done|]. split_and!; try done. by rewrite Hl.
Qed.

Lemma refine_DeleteId its w i : inv its w → refines (EDeleteId i) its w.
Proof.
  intros Hi. eapply DeleteId_ok; [done| |].
  - intros p it its' w' Hit <- Hr. exists its'. split; [apply Hr|]. exists p.
    pose proof (lookup_lt_Some _ _ _ Hit) as Hlt.
    rewrite (r_len _ _ (c_repr _ _ (i_core _ _ Hi))) in Hlt.
    split; [by apply id_at|by apply removed_spec].
  - intros Hni. exists its. split; [done|]. split_and!; try done. cbn. by rewrite ids_strip.
Qed.

(** The songs [StaleSong] keeps, as a filter. *)
Lemma stale_spec_filter uri c (P : stripped → Prop) `{!∀ x, Decision (P x)} l : ∀ i,
  (∀ j x, l !! j = Some x → (Z.of_nat (i + j) = c ↔ P x)) →
  stale_spec uri c i l = filter (λ x, Song.IsURI x.1.2 uri = false ∨ P x) l.
Proof.
  induction l as [|x l IH]; intros i HP; [done|]. cbn [stale_spec].
  assert (Hx : Z.of_nat i = c ↔ P x) by (rewrite <-(HP 0 x eq_refl), Nat.add_0_r; done).
  rewrite (IH (S i)).
  2: { intros j y Hy. rewrite <-(HP (S j) y Hy). by rewrite Nat.add_succ_r. }
  destruct (Song.IsURI x.1.2 uri) eqn:Eu.
  - destruct (Z.of_nat i =? c)%Z eqn:Ec; cbn [negb andb].
    + rewrite filter_cons_True; [done|]. right. apply Hx. lia.
    + rewrite filter_cons_False; [done|]. intros [?|Hp%Hx]; [congruence|lia].
  - rewrite andb_false_r, filter_cons_True; [done|]. by left.
Qed.

(** A position is the current one iff it holds the current id. *)
Lemma current_at its w p x : inv its w → (strip <$> its) !! p = Some x →
  (cur_pos w = Some p ↔ a_current (absw its w) = Some x.2).
Proof.
  intros Hi Hx. rewrite a_current_pos. pose proof (ids_nodup _ _ Hi) as Hnd.
  assert (Hp : ids (strip <$> its) !! p = Some x.2) by by rewrite ids_lookup, Hx.
  destruct (cur_pos w) as [c|]; simpl; [|naive_solver]. split; [by intros [= ->]|].
  intros Hc. f_equal. by eapply NoDup_lookup.
Qed.

Lemma refine_StaleSong its w u : inv its w → refines (EStaleSong u) its w.
Proof.
  intros Hi. unfold refines, run_edit. eapply StaleSong_ok; [exact Hi|].
  intros w' (its' & Hi' & Hs & _ & _ & Hp & _). exists its'. split; [done|]. split; [|done].
  cbn [absw a_songs]. rewrite Hs. cbn [take drop app]. apply stale_spec_filter.
  intros j x Hx. rewrite <-(current_at its w j x Hi Hx). unfold protected_pos. cbn [absw a_playing].
  destruct (playing (pl w)); [|naive_solver lia].
  destruct (cur_pos w) as [c|]; simpl; [|naive_solver lia].
  split; [intros ?; split; [done|f_equal; lia]|]. intros [_ [= ->]]. done.
Qed.

Lemma moved_spec its w start end_ t its' w' :
  arranged its w (move_list start end_ t (strip <$> its)) (¬ left_behind w start end_ t) its' w' →
  moved_to (absw its w) (absw its' w') start end_ t.
Proof.
  intros [H1 H2 H3 H4 H5 H6]. unfold moved_to. cbn. split_and!; [done|done|]. intros Hor.
  rewrite H6; [done|]. unfold left_behind. intros (Hr & Hc1 & Hc2).
  destruct Hor as [|[|]]; [congruence|lia|lia].
Qed.

Lemma current_at_pos_iff its w c : inv its w → current_at_pos (absw its w) c ↔ cur_pos w = Some c.
Proof.
  intros Hi. pose proof (i_core _ _ Hi) as Hc. unfold current_at_pos. rewrite a_current_pos. split.
  - intros (i & Hcur & Hci). destruct (cur_pos w) as [p|]; [|done]. f_equal.
    eapply NoDup_lookup; [by apply (ids_nodup its w)|exact Hcur|exact Hci].
  - intros Hcp. rewrite Hcp. cbn [mbind option_bind].
    assert (Hlt : c < llen (ids (strip <$> its))).
    { rewrite ids_strip, length_fmap, (r_len _ _ (c_repr _ _ Hc)). unfold cur_pos in Hcp.
      case_match; [|done]. apply list_elem_of_lookup_2 in Hcp.
      rewrite (r_order _ _ (c_repr _ _ Hc)) in Hcp. apply elem_of_seq in Hcp. lia. }
    destruct (lookup_lt_is_Some_2 _ _ Hlt) as [i Hid]. by exists i.
Qed.

Lemma move_list_same {A} start end_ (l : list A) : start ≤ end_ → move_list start end_ start l = l.
Proof.
  intros H. unfold move_list. destruct (decide (start ≤ llen l)).
  - rewrite take_app_le, drop_app_le by (rewrite length_take; lia).
    rewrite take_take, Nat.min_id, (drop_ge (take start l)) by (rewrite length_take; lia). cbn [app].
    replace (drop end_ l) with (drop (end_ - start) (drop start l)) by (rewrite drop_drop; f_equal; lia).
    by rewrite !take_drop.
  - rewrite (take_ge l), (drop_ge l end_), (drop_ge l start), app_nil_r by lia.
    rewrite take_nil, take_ge, drop_ge by lia. cbn [app]. by rewrite app_nil_r.
Qed.

Lemma move_stays its w start end_ : inv its w → start < end_ ≤ len_of w →
  moved_to (absw its w) (absw its w) start end_ start.
Proof. intros Hi Hse. split; [|done]. symmetry. apply move_list_same. lia. Qed.

Lemma move_refined its w start end_ to t its' w' : inv its w → start < end_ → end_ ≤ len_of w →
  dest_of w start to t → (∀ c, (to < 0)%Z → cur_pos w = Some c → ¬ (start ≤ c < end_)) →
  moved_to (absw its w) (absw its' w') start end_ t →
  move_spec_of (absw its w) (absw its' w') start end_ to.
Proof.
  intros Hi Hse He Hd Hout Hm. unfold move_spec_of, dest_of in *. rewrite length_a_songs by done.
  split; [done|]. destruct (0 <=? to)%Z eqn:E; (split; [intros H|intros H]); try lia.
  - replace (Z.to_nat to) with t by lia. done.
  - destruct Hd as (c & Hc & Ht). exists c. split; [by apply current_at_pos_iff|].
    rewrite decide_False by (by apply Hout). unfold relative_dest in Ht. cbv zeta in *.
    replace (Z.to_nat _) with t by lia. done.
Qed.

Lemma move_refuses its w start end_ to : inv its w → move_refused w start end_ to →
  move_bad (absw its w) start end_ to.
Proof.
  intros Hi Hr. unfold move_bad, move_refused in *. rewrite length_a_songs by done. cbv zeta.
  destruct Hr as [|[|[Hneg [|Hn]]]]; [by left|by right; left|by right; right; split; [|left]|].
  right; right. split; [done|right]. rewrite a_current_pos. by rewrite Hn.
Qed.

Lemma refine_MoveRange its w s e t : inv its w → admissible_edit (EMoveRange s e t) w = true →
  refines (EMoveRange s e t) its w.
Proof.
  intros Hi Ha. unfold admissible_edit in Ha. eapply MoveRange_ok; [done|lia|lia|lia|lia|lia|..].
  - intros He <-. exists its. split; [done|]. split; [by rewrite length_a_songs|].
    split; [|lia]. intros _. rewrite Nat2Z.id. apply move_stays; [done|lia].
  - intros c He Hneg Hc Hin. exists its. split; [done|]. split; [by rewrite length_a_songs|].
    split; [lia|]. intros _. exists c. split; [by apply current_at_pos_iff|]. by rewrite decide_True.
  - intros d its' w' He _ Hd Hout Har. exists its'. split; [apply Har|].
    eapply move_refined; [done|lia|done|done|done|]. by eapply moved_spec.
  - intros Hr. exists its. split; [done|]. split; [done|]. split; [done|]. split; [done|].
    by apply move_refuses.
Qed.

Lemma refine_MoveId its w i t : inv its w → admissible_edit (EMoveId i t) w = true →
  refines (EMoveId i t) its w.
Proof.
  intros Hi Ha. unfold admissible_edit in Ha.
  assert (Hlt : ∀ p it, its !! p = Some it → p < len_of w).
  { intros p it Hp%lookup_lt_Some. by rewrite (r_len _ _ (c_repr _ _ (i_core _ _ Hi))) in Hp. }
  eapply MoveId_ok; [done|lia|lia|..].
  - intros p it Hit <- Hor. pose proof (Hlt _ _ Hit). exists its. split; [done|].
    exists p. split; [by apply id_at|]. split; [rewrite length_a_songs by done; lia|].
    destruct Hor as [<-|[Hneg Hc]]; (split; [intros H0|intros H0]); try lia.
    + rewrite Nat2Z.id. apply move_stays; [done|lia].
    + exists p. split; [by apply current_at_pos_iff|]. by rewrite decide_True by lia.
  - intros p it d its' w' Hit <- Hd Hdest Hout [A1 A2 A3 A4 A5 A6]. exists its'. split; [done|].
    pose proof (Hlt _ _ Hit). exists p. split; [by apply id_at|].
    eapply move_refined; [done|lia|lia|done| |].
    + intros c Hneg Hc Hin. apply (Hout Hneg). rewrite Hc. f_equal. lia.
    + apply moved_spec. by split; auto.
  - intros p it Hit <- Hr. exists its. split; [done|]. split; [done|]. split; [done|]. right.
    split; [done|]. exists p. split; [by apply id_at|by apply move_refuses].
  - intros Hni. exists its. split; [done|]. split; [done|]. split; [done|]. left.
    split; [done|]. cbn. by rewrite ids_strip.
Qed.

Lemma refine_Shuffle its w s e : inv its w → (Z.of_nat s + 1 < 2^32)%Z → refines (EShuffle s e) its w.
Proof.
  intros Hi Hs. pose proof (length_a_songs its w Hi) as Hl. eapply Shuffle_ok; [done|lia|..].
  - intros _. by exists its.
  - intros l its' w' _ Hp Ho [A1 A2 A3 A4 A5 A6]. exists its'. split; [done|]. cbn in *.
    rewrite A2. split_and!; [done| |done|].
    + intros p Hpo. apply Ho. lia.
    + intros Hpl. by rewrite A6.
Qed.

Lemma ids_set_song p f l : ids (set_song p f l) = ids l.
Proof.
  unfold ids, set_song. apply list_eq. intros j. rewrite !list_lookup_fmap.
  destruct (decide (p = j)) as [->|Hne].
  - rewrite list_lookup_alter_eq. by destruct (l !! j).
  - by rewrite list_lookup_alter_ne.
Qed.

Lemma patched_undisturbed its w l its' w' : patched its w l its' w' → ids l = ids (strip <$> its) →
  undisturbed (absw its w) (absw its' w').
Proof.
  intros [H1 H2 [] _ _ _ _] Hl. apply undisturbed_pos; [by rewrite H2|done|done].
Qed.

Lemma IdToPosition_at its w p it : inv its w → its !! p = Some it →
  Queue.IdToPosition (q_of w) (Queue.id it) = Some (Z.of_nat p).
Proof.
  intros Hi Hit. unfold Queue.IdToPosition.
  eapply (IdTable.IdToPosition_live _ _ _ _ _ (r_ids _ _ (c_repr _ _ (i_core _ _ Hi)))).
  by rewrite list_lookup_fmap, Hit.
Qed.

Lemma idle_cases w : idle w = true → playing (pl w) = false ∨ (queued (pl w) < 0)%Z.
Proof. unfold idle. destruct (playing (pl w)); [right|by left]. simpl in *. lia. Qed.

Lemma range_safe_ok its w i : inv its w →
  idle w || bool_decide (Queue.IdToPosition (q_of w) i = Some (queued (pl w))) = true →
  range_safe its w i.
Proof.
  intros Hi [H|H]%orb_true_iff; [destruct (idle_cases _ H); [by left|by right; left]|].
  apply bool_decide_eq_true in H. destruct (decide (i ∈ Queue.id <$> its)) as [Hin|Hni].
  - apply list_elem_of_fmap in Hin as (it & -> & Hin). apply list_elem_of_lookup in Hin as [p Hp].
    rewrite (IdToPosition_at its w p it Hi Hp) in H. injection H as H.
    right. right. exists p, it. done.
  - destruct (IdTable.IdToPosition_dead _ _ _ _ (r_ids _ _ (c_repr _ _ (i_core _ _ Hi))) Hni) as (z & Hz & Hneg).
    unfold Queue.IdToPosition in H. rewrite Hz in H. injection H as Heq. right. left. lia.
Qed.

Lemma refine_SetSongIdRange its w i s e : inv its w →
  admissible_edit (ESetSongIdRange i s e) w = true → refines (ESetSongIdRange i s e) its w.
Proof.
  intros Hi [Ha1 Ha2]%andb_true_iff.
  eapply SetSongIdRange_ok; [done|lia|by apply range_safe_ok|..].
  - intros p it its' w' Hit <- Hi' Hs [F1 F2 F3 F4]. exists its'. split; [done|]. split.
    + apply undisturbed_pos; [|done|done]. by rewrite Hs, ids_set_song.
    + exists p, (strip it). cbn. split_and!; [|done|done]. by rewrite list_lookup_fmap, Hit.
  - intros Hni. exists its. split; [done|]. split; [done|]. split; [done|]. left.
    split; [done|]. cbn. by rewrite ids_strip.
  - intros p it Hit <- Hp Hc. exists its. split; [done|]. split; [done|]. split; [done|].
    right; left. split; [done|]. split; [done|]. exists p. split; [by apply id_at|done].
  - intros p it w' Hit <- Hd Hi' [F1 F2 F3 F4]. exists its. split; [done|]. split; [done|].
    split; [by apply undisturbed_pos|]. right; right. split; [done|]. exists (strip it). split; [|by split].
    apply list_elem_of_fmap_2. by eapply list_elem_of_lookup_2.
Qed.

Lemma refine_AddTag its w m i ty v : inv its w → Forall is_byte v →
  refines (EAddSongIdTag m i ty v) its w.
Proof.
  intros Hi Hv. eapply edit_tag_ok; [done|intros t; by apply AddItem_total|..].
  - intros p it b its' w' Hit <- Hf Hb Hp. exists its'. split; [apply Hp|]. split.
    + eapply patched_undisturbed; [exact Hp|apply ids_set_song].
    + exists p, (strip it), b. cbn. split_and!; try done; [by rewrite list_lookup_fmap, Hit|apply Hp].
  - intros Hni. exists its. split; [done|]. split_and!; try done. left. cbn. by rewrite ids_strip.
  - intros it Hin <- Hf. exists its. split; [done|]. split; [done|]. split; [done|]. right.
    split; [done|]. exists (strip it). split_and!; try done. by apply list_elem_of_fmap_2.
Qed.

Lemma refine_ClearTag its w i ty : inv its w → refines (EClearSongIdTag i ty) its w.
Proof.
  intros Hi. eapply edit_tag_ok; [done|intros t; by eexists|..].
  - intros p it b its' w' Hit <- Hf [= <-] Hp. exists its'. split; [apply Hp|]. split.
    + eapply patched_undisturbed; [exact Hp|apply ids_set_song].
    + exists p, (strip it). cbn. split_and!; try done; [by rewrite list_lookup_fmap, Hit|apply Hp].
  - intros Hni. exists its. split; [done|]. split_and!; try done. left. cbn. by rewrite ids_strip.
  - intros it Hin <- Hf. exists its. split; [done|]. split; [done|]. split; [done|]. right.
    split; [done|]. exists (strip it). split_and!; try done. by apply list_elem_of_fmap_2.
Qed.

Lemma refine_Database its w db : inv its w → refines (EDatabaseModified db) its w.
Proof.
  intros Hi. eapply DatabaseModified_ok; [done|]. intros its' w' Hp. exists its'.
  split; [apply Hp|]. split; [apply Hp|]. eapply patched_undisturbed; [exact Hp|].
  unfold ids. by rewrite <-list_fmap_compose.
Qed.

(** Rewriting the current song, by position and by id. *)
Lemma set_song_current its w p f : inv its w → cur_pos w = Some p →
  set_song p f (strip <$> its) =
  (λ x, if bool_decide (a_current (absw its w) = Some x.2) then (x.1.1, f x.1.2, x.2) else x)
    <$> (strip <$> its).
Proof.
  intros Hi Hc. unfold set_song. apply list_eq. intros j. rewrite (list_lookup_fmap _ (strip <$> its)).
  destruct ((strip <$> its) !! j) as [x|] eqn:Ex.
  - pose proof (current_at its w j x Hi Ex) as Hcur. simpl. destruct (decide (p = j)) as [->|Hne].
    + rewrite list_lookup_alter_eq, Ex. simpl. rewrite bool_decide_true; [done|]. by apply Hcur.
    + rewrite list_lookup_alter_ne, Ex by done. rewrite bool_decide_false; [done|].
      rewrite <-Hcur. congruence.
  - simpl. apply lookup_ge_None in Ex. apply lookup_ge_None. by rewrite length_alter.
Qed.

Lemma refine_TagModified its w s : inv its w → refines (ETagModified s) its w.
Proof.
  intros Hi. eapply TagModified_ok; [done|..].
  - intros Hp. exists its. split; [done|]. split; [done|]. cbn. rewrite Hp. cbn [andb].
    by rewrite list_fmap_id.
  - intros p its' w' Hp Hc Hpt. exists its'. split; [apply Hpt|]. split.
    + eapply patched_undisturbed; [exact Hpt|apply ids_set_song].
    + cbn [absw a_songs a_playing]. rewrite (pt_strip _ _ _ _ _ Hpt), Hp. cbn [andb].
      by apply (set_song_current its w p).
Qed.

(** Every admissible edit refines its specification. *)
Lemma edit_refines its w e : inv its w → admissible_edit e w = true → refines e its w.
Proof.
  intros Hi Ha. destruct e; cbn [admissible_edit] in Ha.
  - by apply refine_Clear.
  - by apply refine_AppendSong.
  - by apply refine_Swap.
  - by apply refine_SwapIds.
  - apply refine_Priority; [done|lia].
  - apply refine_PriorityId; [done|lia].
  - by apply refine_DeletePosition.
  - by apply refine_DeleteRange.
  - by apply refine_DeleteId.
  - by apply refine_StaleSong.
  - by apply refine_MoveRange.
  - by apply refine_MoveId.
  - apply refine_Shuffle; [done|lia].
  - by apply refine_SetSongIdRange.
  - apply refine_AddTag; [done|]. apply Is_true_true, forallb_True in Ha.
    eapply Forall_impl; [exact Ha|]. intros b Hb. apply Is_true_true in Hb.
    unfold byteb in Hb. unfold is_byte. lia.
  - by apply refine_ClearTag.
  - by apply refine_Database.
  - by apply refine_TagModified.
  - eapply SetRepeat_ok; [done|]. intros w' H1 H2 H3 H4. exists its. split; [done|].
    split; [done|]. split; [by apply undisturbed_cur|done].
  - eapply SetSingle_ok; [done|]. intros w' H1 H2 H3 H4. exists its. split; [done|].
    split; [done|]. split; [by apply undisturbed_cur|done].
  - eapply SetConsume_ok; [done|]. intros w' H1 H2 H3 H4. exists its. split; [done|].
    split; [done|]. split; [by apply undisturbed_cur|done].
  - eapply SetRandom_ok; [done|]. intros w' H1 H2 H3 H4. exists its. split; [done|]. cbn.
    split_and!; try done. intros Hor. rewrite H4; [done|]. tauto.
Qed.

(** ** Safety of every request *)

Lemma seekable_ok its w song : inv its w → seekable w song = true → seek_position_safe w song.
Proof.
  intros Hi [H|H]%orb_true_iff i Hlt Ho.
  - destruct (idle_cases _ H); [by left|by right; right].
  - right. left. pose proof (c_repr _ _ (i_core _ _ Hi)) as Hr.
    assert (Hs : song < len_of w).
    { apply list_elem_of_lookup_2 in Ho. rewrite (r_order _ _ Hr) in Ho. apply elem_of_seq in Ho. lia. }
    destruct (PositionToOrder_ok _ _ _ Hr Hs) as (o & Hpo & Hop & _). rewrite Hpo in H.
    assert (o = i) as ->; [|lia].
    eapply NoDup_lookup; [|exact Hop|exact Ho]. apply (perm_seq_elim _ _ (r_order _ _ Hr)).
Qed.

Lemma handle_ok w r : good w → admissible r w = true →
  wp (handle r) (λ _ w', good w') (λ _ w', good w') w.
Proof.
  intros [its Hi] Ha. destruct r; cbn [admissible handle] in *.
  - eapply wp_mono; [by apply edit_refines|..]; intros ? ? (its' & Hi' & _); by exists its'.
  - eapply BeginBulk_ok; [done|by apply negb_true_iff|]. intros w' Hi' _ _ _. by exists its.
  - eapply CommitBulk_ok; [done|done|]. intros its' w' Hi' _ _ _ _. by exists its'.
  - eapply Stop_ok; [apply Hi|apply Hi|]. intros w' Hs. exists its. apply Hs.
  - by eapply PlayPosition_ok.
  - by eapply PlayId_ok.
  - by eapply PlayNext_ok.
  - by eapply PlayPrevious_ok.
  - eapply SeekSongPosition_ok; [done|by eapply seekable_ok|done|done].
  - eapply SeekSongId_ok; [done| |done|done]. intros p it Hit <-.
    rewrite (IdToPosition_at its w p it Hi Hit) in Ha.
    replace (Z.of_nat p <? 0)%Z with false in Ha by lia. rewrite Nat2Z.id in Ha.
    by eapply seekable_ok.
  - eapply SeekCurrent_ok; [done| |done|done]. intros Hp. destruct (idle_cases _ Ha); [congruence|done].
  - eapply SyncWithPlayer_ok; [done| |done]. intros Hp Hc. rewrite Hp, Hc in Ha. cbn in Ha. lia.
Qed.

(** The freshly constructed playlist with a player at rest. *)
Definition initial (max_length : nat) (garbage : bool * bool * Z) (v : Player.pworld T) : world G T :=
  mkWorld (make max_length garbage) v [].

Lemma initial_good n garbage v : 0 < n → Player.ready v →
  Player.next_song (Player.pc v) = None → good (initial n garbage v).
Proof.
  intros Hn Hv Hnx. exists []. destruct garbage as [[a b] c]. pose proof (make_repr (Song:=Song.DetachedSong) (G:=G) n Hn).
  split; cbn; try done.
Qed.

Lemma step_good w w' : good w → step w w' → good w'.
Proof.
  intros Hg Hst. inversion Hst as [r ? ? Ha Hh|r e ? ? Ha Hh]; subst;
    pose proof (handle_ok w r Hg Ha) as Hok; unfold wp in Hok; by rewrite Hh in Hok.
Qed.

End System.
End PlaylistSystem.
