(* ===== verification/PlaylistProps.v ===== *)
(** * Properties of the playlist

    The theorems about [struct playlist] as a whole, for every random engine, player
    thread and allocator that keep their promises, each with a run on a concrete
    playlist. *)

From Stdlib Require Import ZArith Lia ZifyBool.
From stdpp Require Import base numbers strings sets list relations.
From Stdlib Require Import ZArith Lia.
From stdpp Require Import base numbers strings list.
From S2P Require Import Prelude IdTable RandomEngine Queue QueueFacts QueueEdit QueueOrder QueuePriority TagString CString Tag Song Prog Player ScriptedPlayer Playlist PlaylistFacts PlaylistDelete PlaylistControl PlaylistEdits PlaylistMoves PlaylistInPlace PlaylistSystem.

Set Default Goal Selector "!".

Module PlaylistProps.
Import Playlist PlaylistFacts PlaylistDelete PlaylistControl PlaylistOptions PlaylistEdits.
Import Lcg ScriptedPlayer PlaylistMoves PlaylistInPlace PlaylistSystem QueueFacts.

#[local] Abbreviation llen := List.length.
#[local] Abbreviation Item := (Queue.Item Song.DetachedSong).

Section Props.
Context {G T : Type} `{!RandomEngine G, !RandomEngineLaws G}.
Context {HPT : Player.PlayerThread T} {HPL : Player.PlayerThreadLaws T} {HAL : Allocator}.
Implicit Types (w : world G T) (its : list Item) (it : Item).

#[local] Abbreviation q_of w := (queue (pl w)).
#[local] Abbreviation len_of w := (Queue.length (queue (pl w))).

(** The items of the queue and the abstract playlist, read off a state. *)
Definition items_of w : list Item :=
  omap (λ o, o) (take (len_of w) (Queue.items (q_of w))).

Definition abs_of w : abs := absw (items_of w) w.

Lemma items_of_inv its w : inv its w → items_of w = its.
Proof.
  intros Hi. pose proof (c_repr _ _ (i_core _ _ Hi)) as Hr. unfold items_of.
  replace (take (len_of w) (Queue.items (q_of w))) with (Some <$> its).
  { clear Hi Hr. induction its as [|it its IH]; [done|]. cbn. by rewrite IH. }
  apply list_eq. intros i. rewrite list_lookup_fmap.
  destruct (its !! i) as [it|] eqn:E; simpl.
  - pose proof (lookup_lt_Some _ _ _ E) as Hlt. rewrite (r_len _ _ Hr) in Hlt.
    rewrite lookup_take_lt by done. symmetry. by apply Hr.
  - apply lookup_ge_None in E. symmetry. apply lookup_ge_None.
    rewrite length_take. rewrite (r_len _ _ Hr) in E. lia.
Qed.

Lemma good_inv w : good w → inv (items_of w) w.
Proof. intros [its Hi]. by rewrite (items_of_inv _ _ Hi). Qed.

(** ** Executing a list of requests *)

Fixpoint exec (rs : list request) w : option (world G T) :=
  match rs with
  | [] => Some w
  | r :: rs =>
      if admissible r w then
        match handle r w with
        | Done _ w' | Raised _ w' => exec rs w'
        | Fail => None
        end
      else None
  end.

Lemma exec_reach rs : ∀ w, rtc step w (default w (exec rs w)).
Proof.
  induction rs as [|r rs IH]; intros w; [done|]. cbn [exec].
  destruct (admissible r w) eqn:Ha; [|done]. destruct (handle r w) as [[] w'|e w'|] eqn:Hh; [| |done].
  - destruct (exec rs w') as [w''|] eqn:E; [|done]. simpl. specialize (IH w'). rewrite E in IH.
    eapply rtc_l; [by eapply step_done|done].
  - destruct (exec rs w') as [w''|] eqn:E; [|done]. simpl. specialize (IH w'). rewrite E in IH.
    eapply rtc_l; [by eapply step_raised|done].
Qed.

Lemma reach_good w w' : rtc step w w' → good w → good w'.
Proof. induction 1 as [|w1 w2 w3 Hst _ IH]; [done|]. intros Hg. by eapply IH, step_good. Qed.

(** The states a playlist can get into. *)
Definition reachable n garbage v w : Prop := rtc step (initial n garbage v) w.

Definition demo n garbage v rs : world G T :=
  default (initial n garbage v) (exec rs (initial n garbage v)).

Lemma demo_good n garbage v rs : 0 < n → Player.ready v →
  Player.next_song (Player.pc v) = None → good (demo n garbage v rs).
Proof. intros Hn Hv Hnx. eapply reach_good; [apply exec_reach|by apply initial_good]. Qed.

(** The position of an order number, -1 for none. *)
Definition position_of_order (n : Z) w : Z :=
  from_option Z.of_nat (-1)%Z (if (0 <=? n)%Z then ord (q_of w) !! Z.to_nat n else None).

(** ** Playing on *)

(** The state after [PlayNext] outside random mode. *)
Definition went_on its w its' w' : Prop :=
  let n := default (-1)%Z (Queue.GetNextOrder (q_of w) (Z.to_nat (current (pl w)))) in
  inv its' w' ∧
  strip <$> its' = (if Queue.consume (q_of w) then delete (Z.to_nat (current (pl w))) (strip <$> its)
                    else strip <$> its) ∧
  if (n <? 0)%Z then playing (pl w') = false ∧ cur_song its' w' = None
  else playing (pl w') = true ∧ cur_song its' w' = (strip <$> its) !! Z.to_nat n.

Lemma PlayNext_plain w its Q (X : exn → world G T → Prop) : inv its w → playing (pl w) = true →
  Queue.random (q_of w) = false →
  (∀ its' w', went_on its w its' w' → Q tt w') → (∀ e w', good w' → X e w') →
  wp (PlayNext (T:=T)) Q X w.
Proof.
  intros Hi Hp Hrand HQ HX. pose proof (i_core _ _ Hi) as Hc. unfold PlayNext.
  apply wp_bind, wp_read_pl. rewrite Hp. cbn [negb].
  pose proof (c_current _ _ Hc) as Hcr. pose proof (c_playing _ _ Hc Hp) as H0.
  apply wp_bind, wp_assert; [unfold Queue.IsEmpty; lia|].
  apply wp_bind. eapply wp_lift; [by apply to_unsigned_pos|].
  apply wp_bind, wp_assert; [unfold Queue.IsValidOrder; lia|]. apply wp_bind, wp_upd_pl.
  set (w1 := mkWorld _ _ _). assert (Hc1 : core its w1) by (by eapply core_ext).
  destruct (GetNextOrder_ok w1 its Hc1 H0) as (n & Hn & Hrange & Hgn).
  apply wp_bind. eapply wp_qask; [exact Hn|]. pose proof (c_plain _ _ Hc Hrand) as Hpl.
  change (Queue.GetNextOrder (q_of w) (Z.to_nat (current (pl w))) = Some n) in Hgn.
  set (cons := Queue.consume (q_of w)).
  assert (Hdone : ∀ its2 w2, inv its2 w2 → strip <$> its2 = strip <$> its →
    ord (q_of w2) = ord (q_of w) → Queue.consume (q_of w2) = cons →
    cur_pos w2 ≠ Some (Z.to_nat (current (pl w))) ∨ cons = false →
    (∀ its' w', inv its' w' → strip <$> its' = (if cons then delete (Z.to_nat (current (pl w))) (strip <$> its)
                    else strip <$> its) → playing (pl w') = playing (pl w2) →
       cur_song its' w' = cur_song its2 w2 → Q tt w') →
    wp (bind (read_pl (T:=T)) (λ p, if Queue.consume (queue p) then DeleteOrder (current (pl w)) else ret tt))
      Q X w2).
  { intros its2 w2 Hi2 Hs2 Ho2 Hco2 Hor Hk. apply wp_bind, wp_read_pl. rewrite Hco2.
    destruct cons eqn:Econ; [|by apply wp_ret, (Hk its2)].
    rewrite <-(Z2Nat.id (current (pl w))) by lia.
    eapply (DeleteOrder_ok w2 its2 _ (Z.to_nat (current (pl w)))); [done| |].
    { rewrite Ho2, Hpl. apply lookup_seq_lt. lia. }
    intros its3 w3 Hrm. destruct Hor as [Hne|]; [|done].
    apply (Hk its3); [apply Hrm|rewrite (rm_strip _ _ _ _ _ Hrm); by rewrite Hs2| |].
    - by apply (rm_current _ _ _ _ _ Hrm).
    - by eapply removed_cur_song. }
  assert (Hwent : ∀ its' w', inv its' w' →
    strip <$> its' = (if cons then delete (Z.to_nat (current (pl w))) (strip <$> its) else strip <$> its) →
    (if (n <? 0)%Z then playing (pl w') = false ∧ cur_song its' w' = None
     else playing (pl w') = true ∧ cur_song its' w' = (strip <$> its) !! Z.to_nat n) → Q tt w').
  { intros its' w' H1 H2 H3. apply (HQ its'). unfold went_on. rewrite Hgn. by split_and!. }
  apply wp_bind. destruct (n <? 0)%Z eqn:En.
  - apply wp_bind. eapply Stop_ok; [done|subst w1; pl_simpl; congruence|].
    intros w2 [Ht1 Ht2 Ht3 _ _ Ht6]. destruct (Ht6 Hrand) as [Hq2 _].
    unfold set_current. apply wp_upd_pl. eapply (Hdone its); pl_simpl; try done.
    + destruct Ht1 as [[] Hs Hnn Hrg Hu]. split; pl_simpl; try done; try congruence.
      split; pl_simpl; try done; [lia|congruence].
    + by rewrite Hq2.
    + by rewrite Hq2.
    + by left.
    + intros its' w' H1 H2 H3 H4. apply (Hwent its'); [done|done|]. split; [congruence|].
      rewrite H4. done.
  - assert (Hcn : cons = true → n ≠ current (pl w)).
    { subst cons. intros Hco. unfold Queue.GetNextOrder in Hgn. rewrite Hco in Hgn.
      rewrite check_bind in Hgn by lia. rewrite andb_false_r in Hgn.
      repeat case_match; simplify_eq; lia. }
    apply wp_bind. replace ((n =? 0)%Z && Queue.random (q_of w)) with false
      by (rewrite Hrand; by rewrite andb_false_r).
    apply wp_ret. eapply (PlayOrder_ok w1 its); [done|subst w1; pl_simpl; lia| |].
    + intros its3 w3 [S1 S2 S3 S4 S5 S6 S7 S8].
      assert (Hcp3 : cur_pos w3 = Some (Z.to_nat n)).
      { unfold cur_pos. rewrite S4, S7. replace (0 <=? _)%Z with true by lia. rewrite Nat2Z.id.
        change (ord (q_of w) !! Z.to_nat n = Some (Z.to_nat n)). rewrite Hpl. apply lookup_seq_lt.
        subst w1. pl_simpl. lia. }
      apply (Hdone its3); try done.
      * unfold qcfg in S6. injection S6 as _ _ _ _ H _. done.
      * destruct cons eqn:Econ; [left|by right]. rewrite Hcp3. intros [= Heq].
        specialize (Hcn eq_refl). lia.
      * intros its' w' H1 H2 H3 H4. apply (Hwent its'); [done|done|]. split; [congruence|].
        rewrite H4. unfold cur_song. by rewrite Hcp3, S2.
    + intros e w3 [S1 _ _ _ _ _ _ _]. apply HX. by exists its.
Qed.

(** A pending song in a good state. *)
Lemma good_pending w s : good w → Player.next_song (Player.pc (player w)) = Some s →
  playing (pl w) = true ∧ (0 ≤ queued (pl w) < Z.of_nat (len_of w))%Z ∧
  ∃ it, order_item w (items_of w) (queued (pl w)) = Some it ∧
    Song.uri s = Song.uri (Queue.song_data it).
Proof.
  intros Hg Hs. pose proof (good_inv _ Hg) as [Hc Hst Hn Hrg Hu].
  destruct (playing (pl w)) eqn:Hp; [|rewrite Hst in Hs; done]. split; [done|].
  destruct (decide (queued (pl w) < 0)%Z); [rewrite Hn in Hs; done|]. specialize (Hrg eq_refl).
  split; [lia|].
  destruct (order_lookup w _ (queued (pl w)) Hc) as (p & it & _ & _ & _ & _ & _ & Hoi); [lia|].
  exists it. split; [done|]. by apply Hu.
Qed.

(** C1: from the empty playlist and a player at rest, after any sequence of admissible
    requests (successful or throwing, with the player thread acting at every lock), the
    playlist invariant holds and the next admissible request runs without a failed
    assertion or an access outside an array, and ends in such a state again. *)
Theorem reachable_safe n garbage v w r :
  0 < n → Player.ready v → Player.next_song (Player.pc v) = None →
  reachable n garbage v w → admissible r w = true →
  good w ∧
  match handle r w with
  | Done _ w' | Raised _ w' => good w'
  | Fail => False
  end.
Proof.
  intros Hn Hv Hnx Hst Ha. assert (Hg : good w) by (by eapply reach_good, initial_good).
  split; [done|]. pose proof (handle_ok w r Hg Ha) as Hok. unfold wp in Hok. by destruct (handle r w).
Qed.


(** C3: playlist and player agree about what comes next, after any sequence of admissible
    requests from the empty playlist and a player at rest: whenever the player holds a
    song in advance, the playlist is playing, its queued order number denotes a song of the
    queue, and that song has the URI of the player's copy. *)
Theorem queued_song_coherent n garbage v w s :
  0 < n → Player.ready v → Player.next_song (Player.pc v) = None →
  reachable n garbage v w → Player.next_song (Player.pc (player w)) = Some s →
  playing (pl w) = true ∧ (0 ≤ queued (pl w) < Z.of_nat (len_of w))%Z ∧
  ∃ it, order_item w (items_of w) (queued (pl w)) = Some it ∧
    Song.uri s = Song.uri (Queue.song_data it).
Proof.
  intros Hn Hv Hnx Hst Hs. assert (Hg : good w) by (by eapply reach_good, initial_good).
  by apply good_pending.
Qed.

(** C33: the "next" command outside random mode goes to the song [GetNextOrder] names, or
    stops and forgets the current song at the end of the queue; in consume mode exactly
    the song that was left is removed. *)
Theorem PlayNext_correct w : good w → playing (pl w) = true → Queue.random (q_of w) = false →
  match PlayNext w with
  | Done _ w' => went_on (items_of w) w (items_of w') w'
  | Raised _ w' => good w'
  | Fail => False
  end.
Proof.
  intros Hg Hp Hr.
  assert (Hwp : wp PlayNext (λ _ w', went_on (items_of w) w (items_of w') w') (λ _ w', good w') w).
  { eapply PlayNext_plain; [by apply good_inv|done|done| |done].
    intros its' w' Hw. by rewrite (items_of_inv its' w') by apply Hw. }
  unfold wp in Hwp. by destruct (PlayNext w).
Qed.

(** C34: playing a valid position starts the song at that position, in random mode too
    (where the play order is rearranged), keeps the song list, and also when the player
    reports an error the requested song is the current one. *)
Theorem PlayPosition_correct w (song : nat) : good w → song < len_of w →
  match PlayPosition (Z.of_nat song) w with
  | Done _ w' | Raised _ w' =>
      good w' ∧ a_songs (abs_of w') = a_songs (abs_of w) ∧ playing (pl w') = true ∧
      cur_pos w' = Some song
  | Fail => False
  end.
Proof.
  intros Hg Hs.
  assert (Hp : ∀ w', plays (items_of w) (Z.of_nat song) w' →
    good w' ∧ a_songs (abs_of w') = a_songs (abs_of w) ∧ playing (pl w') = true ∧
    cur_pos w' = Some song).
  { intros w' (its' & H1 & H2 & H3 & H4). unfold abs_of. rewrite (items_of_inv _ _ H1).
    split_and!; [by exists its'|done|done|]. rewrite H4 by lia. by rewrite Nat2Z.id. }
  assert (Hwp : wp (PlayPosition (Z.of_nat song)) (λ _ w', plays (items_of w) (Z.of_nat song) w')
    (λ _ w', plays (items_of w) (Z.of_nat song) w') w).
  { eapply PlayPosition_at; [by apply good_inv|done|done|done]. }
  unfold wp in Hwp. destruct (PlayPosition (Z.of_nat song) w); [auto|auto|done].
Qed.


(** The next song reported to clients ([GetNextPosition]) is the one the playlist
    will hand to the player ([GetNextOrder]), unless consume mode is on. *)
Theorem next_position_agrees w n : good w → (0 ≤ current (pl w))%Z →
  Queue.consume (q_of w) = false → GetNextOrder (current (pl w)) (q_of w) = Some n →
  GetNextPosition w = Done (position_of_order n w) w.
Proof.
  intros Hg H0 Hco Hn. pose proof (i_core _ _ (good_inv _ Hg)) as Hc.
  pose proof (c_current _ _ Hc) as Hcr.
  assert (Hwp : wp GetNextPosition (λ z w', z = next_position w ∧ w' = w) (λ _ _, False) w)
    by (eapply GetNextPosition_ok; [by apply good_inv|done]).
  unfold wp in Hwp. destruct (GetNextPosition w) as [z w'| |]; [|done..].
  destruct Hwp as [-> ->]. f_equal. unfold next_position, position_of_order. cbv zeta.
  replace (current (pl w) <? 0)%Z with false by lia. f_equal.
  unfold GetNextOrder in Hn. rewrite to_unsigned_pos in Hn by done. cbn [mbind option_bind] in Hn.
  unfold Queue.GetNextOrder in Hn. rewrite check_bind in Hn by lia. rewrite Hco in Hn.
  injection Hn as <-. cbn [negb]. rewrite andb_true_r, orb_true_r, andb_true_r.
  replace (Z.to_nat (current (pl w)) + 1) with (S (Z.to_nat (current (pl w)))) by lia.
  destruct (Queue.single (q_of w) && Queue.repeat (q_of w)).
  { replace (0 <=? _)%Z with true by lia. by rewrite Nat2Z.id. }
  destruct (S (Z.to_nat (current (pl w))) <? len_of w).
  { replace (0 <=? _)%Z with true by lia. by rewrite Nat2Z.id. }
  by destruct (Queue.repeat (q_of w)).
Qed.

End Props.

(** ** A concrete playlist *)

(** An allocator: one more than every live address. *)
Lemma bump_fresh l : S (max_list l) ∉ l.
Proof. apply max_list_not_elem_of_gt. lia. Qed.

#[export] Instance bump_allocator : Allocator :=
  {| malloc l := S (max_list l); malloc_fresh := bump_fresh |}.

Definition demo_song (name : string) : Song.DetachedSong :=
  Song.of_uri_tag (str name) (Tag.mkTag (-1) false []).

(** Three songs, ["a"] playing and ["b"] handed to the player. *)
Definition demo_requests : list request :=
  [Edit (EAppendSong (demo_song "a")); Edit (EAppendSong (demo_song "b"));
   Edit (EAppendSong (demo_song "c")); PlayPos 0; PlayerEvent].

Definition demo_world (t : ScriptedPlayer.script) (rs : list request)
    : world Z ScriptedPlayer.script :=
  demo 4 (false, false, 0%Z) (ScriptedPlayer.idle_player t) rs.

Lemma demo_world_good t rs : good (demo_world t rs).
Proof. apply demo_good; [lia|apply ScriptedPlayer.idle_player_ready|done]. Qed.

Definition quiet : ScriptedPlayer.script := mkScript [] [].

Lemma reachable_safe_witness :
  let w := demo_world quiet demo_requests in
  good w ∧ match handle (Edit (EMoveId 3 0)) w with
           | Done _ w' | Raised _ w' => good w'
           | Fail => False
           end.
Proof.
  apply (reachable_safe 4 (false, false, 0%Z) (idle_player quiet)).
  - lia.
  - apply idle_player_ready.
  - reflexivity.
  - apply exec_reach.
  - vm_compute. reflexivity.
Defined.

(** The songs, current id and playback state after a request. *)
Definition outcome (r : result (world Z script) unit) : option (list nat * option nat * bool) :=
  match r with
  | Done _ w | Raised _ w => Some (ids (a_songs (abs_of w)), a_current (abs_of w), playing (pl w))
  | Fail => None
  end.


Lemma queued_song_coherent_witness :
  let w := demo_world quiet demo_requests in
  playing (pl w) = true ∧ (0 ≤ queued (pl w) < Z.of_nat (Queue.length (queue (pl w))))%Z ∧
  ∃ it, order_item w (items_of w) (queued (pl w)) = Some it ∧
    Song.uri (demo_song "b") = Song.uri (Queue.song_data it).
Proof.
  apply (queued_song_coherent 4 (false, false, 0%Z) (idle_player quiet)).
  - lia.
  - apply idle_player_ready.
  - reflexivity.
  - apply exec_reach.
  - vm_compute. reflexivity.
Defined.

Lemma PlayNext_correct_witness :
  let w := demo_world quiet (demo_requests ++ [Edit (ESetConsume true)]) in
  outcome (PlayNext w) = Some ([2; 3], Some 2, true) ∧
  match PlayNext w with
  | Done _ w' => went_on (items_of w) w (items_of w') w'
  | Raised _ w' => good w'
  | Fail => False
  end.
Proof.
  split; [vm_compute; reflexivity|]. apply PlayNext_correct.
  - apply demo_world_good.
  - vm_compute. reflexivity.
  - vm_compute. reflexivity.
Defined.

Lemma PlayPosition_correct_witness :
  let w := demo_world quiet (demo_requests ++ [Edit (ESetRandom true)]) in
  match PlayPosition (Z.of_nat 2) w with
  | Done _ w' | Raised _ w' =>
      good w' ∧ a_songs (abs_of w') = a_songs (abs_of w) ∧ playing (pl w') = true ∧
      cur_pos w' = Some 2
  | Fail => False
  end.
Proof.
  apply PlayPosition_correct.
  - apply demo_world_good.
  - apply Nat.ltb_lt. vm_compute. reflexivity.
Defined.

(** The player passes the song border just before the event is handled. *)
Definition demo_border : world Z script :=
  demo_world (mkScript [Idle; Idle; Idle; SongBorder] [])
    (demo_requests ++ [Edit (ESetConsume true); Edit (ESetSingle true)]).


Lemma next_position_agrees_witness :
  let w := demo_world quiet demo_requests in GetNextPosition w = Done 1%Z w.
Proof.
  cbv zeta. rewrite (next_position_agrees (demo_world quiet demo_requests) 1).
  - vm_compute. reflexivity.
  - apply demo_world_good.
  - vm_compute. discriminate.
  - vm_compute. reflexivity.
  - vm_compute. reflexivity.
Defined.

End PlaylistProps.

(** * Defects of the playlist

    Runs of the model, on states reached by ordinary requests, in which the playlist
    loses track of the current song or fails one of its assertions.  They are the reason
    for the conditions of [PlaylistSystem.admissible] and for the exceptions in
    [PlaylistSystem.edit_spec]. *)

Module PlaylistFindings.
Import Playlist Lcg ScriptedPlayer PlaylistSystem PlaylistProps.

(** A playlist of the given songs after some requests. *)
Definition scene (t : script) (names : list string) (rs : list request) : world Z script :=
  demo 6 (false, false, 0%Z) (idle_player t)
    (((λ s, Edit (EAppendSong (demo_song s))) <$> names) ++ rs).

Definition abc : list string := ["a"; "b"; "c"]%string.
Definition abcd : list string := ["a"; "b"; "c"; "d"]%string.

(** [MoveRange] compares [current] with the destination and not with the end of the
    moved block: song 3 is playing, songs 1 and 2 are moved behind it, and song 2 is
    current afterwards. *)
Theorem MoveRange_leaves_current :
  let w := scene quiet abc [PlayPos 2] in
  a_current (abs_of w) = Some 3 ∧
  outcome (MoveRange 0 2 1 w) = Some ([3; 1; 2], Some 2, true).
Proof. split; vm_compute; reflexivity. Qed.

(** A relative [MoveRange] of several songs can compute a destination behind the end of
    the queue. *)
Theorem MoveRange_relative_out_of_range :
  let w := scene quiet (abcd ++ ["e"%string]) [PlayPos 3] in
  MoveRange 0 3 (-1) w = Fail.
Proof. vm_compute. reflexivity. Qed.

(** [SetSongIdRange] calls [UpdateQueuedSong(pc, nullptr)] although another song is
    queued. *)
Theorem SetSongIdRange_assertion :
  let w := scene quiet abc [PlayPos 0; PlayerEvent] in
  queued (pl w) = 1%Z ∧ SetSongIdRange 3 0 0 w = Fail.
Proof. split; vm_compute; reflexivity. Qed.

(** A seek in the current song that the decoder rejects: the handler passes the old
    queued song although [queued] has been reset. *)
Theorem SeekCurrent_assertion :
  let w := scene (mkScript [] [None; Some (str "decoder error")]) abc [PlayPos 0; PlayerEvent] in
  SeekCurrent 1000 false w = Fail.
Proof. vm_compute. reflexivity. Qed.

(** A single song on repeat is queued behind itself; with consume switched on meanwhile,
    the song border deletes it and [SongStarted] finds no current song. *)
Theorem consume_repeat_assertion :
  let w := scene (mkScript [Idle; Idle; Idle; SongBorder] []) ["a"%string]
             [Edit (ESetRepeat true); PlayPos 0; PlayerEvent; Edit (ESetConsume true)] in
  SyncWithPlayer w = Fail.
Proof. vm_compute. reflexivity. Qed.

(** The "next" command at the end of a random round in consume mode reshuffles before it
    deletes: song 2 was playing, but song 4 is removed. *)
Theorem PlayNext_consumes_wrong_song :
  let w := scene quiet abcd [Edit (ESetRepeat true); PlayPos 0; Edit (ESetRandom true);
             Next; Next; Next; Edit (ESetConsume true)] in
  a_current (abs_of w) = Some 2 ∧
  outcome (PlayNext w) = Some ([1; 2; 3], Some 1, true).
Proof. split; vm_compute; reflexivity. Qed.

(** Appending in random mode while the queued song precedes the current one in the play
    order may move the new song to the current order number: song 2 is playing, the new
    song 5 becomes current. *)
Theorem AppendSong_changes_current :
  let w := scene quiet abcd [Edit (ESetRepeat true); PlayPos 0; Edit (ESetRandom true);
             Next; Next; Next; PlayerEvent] in
  a_current (abs_of w) = Some 2 ∧
  outcome (run_edit (EAppendSong (demo_song "e"%string)) w) = Some ([1; 2; 3; 4; 5], Some 5, true).
Proof. split; vm_compute; reflexivity. Qed.

(** With single, repeat and consume all on, the reported next song is the current one,
    but the playlist plays the following one. *)
Theorem GetNextPosition_consume_differs :
  let w := scene quiet abc [PlayPos 0; Edit (ESetRepeat true); Edit (ESetSingle true);
             Edit (ESetConsume true)] in
  GetNextPosition w = Done 0%Z w ∧ GetNextOrder (current (pl w)) (queue (pl w)) = Some 1%Z.
Proof. split; vm_compute; reflexivity. Qed.

End PlaylistFindings.
