(* ===== verification/PlayerProps.v ===== *)
(** * Properties of the player thread

    The theorems about [player_task] in company, for a complete output format: with a
    decoder thread that does not end its song in the middle of a SEEK and
    arbitrary devices it never fails, it answers every command once they are fair, and
    the playlist runs on top of it. *)

From Stdlib Require Import ZArith Lia ZifyBool.
From stdpp Require Import base numbers strings sets list relations.
From Stdlib Require Import ZArith Lia.
From S2P Require Import Prelude RandomEngine AudioFormat Tag Song Prog Threads Music Decoder DecoderFacts Outputs Player PlayerTask PlayerSteps PlayerMain PlayerReal Playlist PlaylistControl PlaylistSystem PlaylistProps.

Set Default Goal Selector "!".

Module PlayerProps.
Import Lcg PlaylistControl PlaylistSystem PlaylistProps.
Import Player AudioFormat Decoder DecoderFacts PlayerTask PlayerRely PlayerMain PlayerReal.

Section Props.
Context {cfg : PlayerConfig}.
#[local] Abbreviation af := configured_audio_format.

(** Three conditions bound what the theorems of this section cover.  [af], the setting
    [audio_output_format], is a complete and valid format (without the setting the mask is
    empty and the format of the chunks varies from song to song).  The
    player's format, which its constructor leaves uninitialised, happens to be undefined.
    And [choose] keeps a decoder that is decoding and was not told to stop from ending its
    song while the player executes SEEK: there the assertions of [DecoderControl::Seek] do
    fail (see [PlayerFindings]).  A wait returns at the next turn: mutexes and condition
    variables are not modelled, so a forgotten signal would not be seen. *)

(** C6: the player thread does not fail.  With a complete [audio_output_format] and under the
    conditions above, started, for any
    sequence of actions of the decoder thread, answers of the devices and steps of the
    main thread, its next turn reaches a yield: no assertion of the thread, of the decoder
    control, of the pipes or of the outputs fails, and no loop runs without yielding.  The
    error fields of the player control agree, and every slice of the music buffer has one
    owner: a pipe, the decoder's chunk or the list [l] of the player and the outputs. *)
Theorem player_thread_never_fails g b cs ps p t :
  IsValid af = true → IsDefined uninitialized_format = false →
  SliceBuffer.make buffer_chunks = Some b →
  life (Player.make g) (start g b cs ps) p t →
  ∃ p' t', turn p t = Some (p', t') ∧ pc_ok p' ∧
    let s := st (others t') in
    ∃ l, SliceBuffer.holds (Decoder.buffer s) (pslices (pipes s) ++ cur_slices (bridge s) ++ l).
Proof.
  intros Haf Hun Hb Hl. pose proof (life_ok _ _ _ _ (start_ok g b cs ps Haf Hun Hb) Hl) as Ht.
  destruct (turn_ok p t Ht) as (w1 & q & w2 & Hw & Hr & _ & Ht' & _).
  unfold turn. rewrite <-Hw, Hr. do 2 eexists. split; [done|].
  destruct Ht' as ([[l Hs] Hp] & _). split; [done|]. exists l. apply (so_holds _ _ _ Hs).
Qed.

(** C7: every command is answered, with a complete [audio_output_format] and under the
    conditions above (every wait returns at the next turn).  Whenever the main thread posts
    a command, the player
    thread answers it within [patience] turns, whatever the others do while their script
    lasts, if they are fair afterwards.  A song that was not taken is kept, CANCEL,
    CLOSE_AUDIO, SEEK and STOP leave none pending, and after CLOSE_AUDIO the player is
    stopped. *)
Theorem player_answers_commands g b cs ps p0 p t :
  IsValid af = true → IsDefined uninitialized_format = false →
  SliceBuffer.make buffer_chunks = Some b →
  life (Player.make g) (start g b cs ps) p0 t → post_step p0 p →
  ∃ p' t', await (length (script t) + thread_cost + 2) p t = Some (p', t') ∧
    Player.command p' = COMMAND_NONE ∧ keeps_next p p' ∧ border_pause p' = border_pause p ∧
    (takes_next (Player.command p) = true → next_song p' = None) ∧
    (Player.command p = COMMAND_CLOSE_AUDIO → Player.state p' = STATE_STOP).
Proof.
  intros Haf Hun Hb Hl Hp. pose proof (life_ok _ _ _ _ (start_ok g b cs ps Haf Hun Hb) Hl) as Ht.
  destruct (await_post p0 p t Ht Hp) as (p' & t' & E & Ha). exists p', t'. split; [exact E|].
  exact (answer_spec _ _ _ _ _ (proj1 (ps_pending _ _ Hp)) Ha).
Qed.

(** C8: no assertion of the decoder thread fails, with a complete [audio_output_format] and
    under the conditions above on the past.  In every state of the player thread's life
    each atomic section of the decoder thread, the end of a song included, runs through,
    and no slice of the music buffer is lost or has two owners. *)
Theorem decoder_thread_never_fails g b cs ps p t a :
  IsValid af = true → IsDefined uninitialized_format = false →
  SliceBuffer.make buffer_chunks = Some b →
  life (Player.make g) (start g b cs ps) p t →
  ∃ s', decoder_act af a (st (others t)) = Some s' ∧
    ∃ l, SliceBuffer.holds (Decoder.buffer s') (pslices (pipes s') ++ cur_slices (bridge s') ++ l).
Proof.
  intros Haf Hun Hb Hl. pose proof (life_ok _ _ _ _ (start_ok g b cs ps Haf Hun Hb) Hl) as Ht.
  destruct Ht as ([[l Hs] _] & _). destruct (decoder_act_ok af Haf a l _ Hs) as (s' & E & (Hok & _)).
  exists s'. split; [exact E|]. exists l. apply (so_holds _ _ _ Hok).
Qed.

(** C5: the playlist on top of the player thread, with a complete [audio_output_format] and
    under the conditions above.  From the empty playlist and the player
    thread at its start, after any sequence of admissible requests, the playlist invariant
    holds, and the next admissible request runs without a failed assertion in either
    thread and ends in such a state again. *)
Theorem playlist_with_player_thread {G} `{!RandomEngine G, !RandomEngineLaws G, !Playlist.Allocator}
    n garbage g b cs ps (w : Playlist.world G thread) r :
  IsValid af = true → IsDefined uninitialized_format = false →
  SliceBuffer.make buffer_chunks = Some b → 0 < n →
  reachable n garbage (mkPworld (Player.make g) (start g b cs ps) []) w →
  admissible r w = true →
  good w ∧
  match handle r w with
  | Done _ w' | Raised _ w' => good w'
  | Fail => False
  end.
Proof.
  intros Haf Hun Hb Hn Hst Ha.
  assert (Hg : good w).
  { eapply reach_good; [exact Hst|]. apply initial_good; [done|split|by destruct g as [[[[]]]]].
    - by apply start_ok.
    - by destruct g as [[[[]]]]. }
  split; [done|]. pose proof (handle_ok w r Hg Ha) as Hok. unfold wp in Hok. by destruct (handle r w).
Qed.

End Props.

(** ** A concrete player

    A buffer of eight chunks, an output format, and a decoder that is asked for the song
    ["a"], sends three chunks, is slow, and ends. *)

#[export] Instance demo_config : PlayerConfig := {|
  buffer_chunks := 8;
  buffered_before_play := 2;
  configured_audio_format := cd_format;
  Calculate := λ _ _ _ _, 2;
  uninitialized_format := Undefined;
|}.

Definition demo_garbage : Z * AudioFormat * Z * Z * Z := (0, Undefined, 0, 0, 0)%Z.
Definition demo_buffer : SliceBuffer.t := SliceBuffer.mkSliceBuffer 8 0 0 [].

Definition demo_script : list (list choice) :=
  [[C_decoder (D_task None)]; []; [C_decoder D_get_seek_time; C_devices [true; false]];
   [C_decoder (D_data None None 4096); C_decoder (D_round 0 320 4096)]; [C_decoder (D_end None)]].

Definition demo_thread : thread := start demo_garbage demo_buffer demo_script [3; 0; 5].
Definition demo_pc : PlayerControl := Player.make demo_garbage.

(** SEEK into ["a"] is posted. *)
Definition demo_posted : PlayerControl :=
  Player.set_command COMMAND_SEEK (Player.set_seek_time 0 (set_next_song (Some (demo_song "a")) demo_pc)).

Lemma demo_post : post_step demo_pc demo_posted.
Proof. constructor; try done. by left. Qed.

Lemma demo_life_posted : life demo_pc demo_thread demo_posted demo_thread.
Proof. eapply life_main; [apply life_start|]. right. apply demo_post. Qed.

(** The player thread takes the song and starts to play. *)
Example demo_plays :
  match await (patience demo_thread) demo_posted demo_thread with
  | Some (p, t) => (Player.state p, next_song p, events (others t)) = (STATE_PLAY, None, [OnPlayerSync])
  | None => False
  end.
Proof. vm_compute. reflexivity. Qed.

Lemma player_thread_never_fails_witness :
  ∃ p' t', turn demo_posted demo_thread = Some (p', t') ∧ pc_ok p' ∧
    let s := st (others t') in
    ∃ l, SliceBuffer.holds (Decoder.buffer s) (pslices (pipes s) ++ cur_slices (bridge s) ++ l).
Proof.
  apply (player_thread_never_fails demo_garbage demo_buffer demo_script [3; 0; 5]).
  - reflexivity.
  - reflexivity.
  - reflexivity.
  - apply demo_life_posted.
Defined.

Lemma player_answers_commands_witness :
  ∃ p' t', await (length demo_script + thread_cost + 2) demo_posted demo_thread = Some (p', t') ∧
    Player.command p' = COMMAND_NONE ∧ keeps_next demo_posted p' ∧ border_pause p' = false ∧
    (takes_next COMMAND_SEEK = true → next_song p' = None) ∧
    (COMMAND_SEEK = COMMAND_CLOSE_AUDIO → Player.state p' = STATE_STOP).
Proof.
  apply (player_answers_commands demo_garbage demo_buffer demo_script [3; 0; 5] demo_pc demo_posted
    demo_thread).
  - reflexivity.
  - reflexivity.
  - reflexivity.
  - apply life_start.
  - apply demo_post.
Defined.

Lemma decoder_thread_never_fails_witness :
  ∃ s', decoder_act cd_format (D_task None) (st (others demo_thread)) = Some s' ∧
    ∃ l, SliceBuffer.holds (Decoder.buffer s') (pslices (pipes s') ++ cur_slices (bridge s') ++ l).
Proof.
  apply (decoder_thread_never_fails demo_garbage demo_buffer demo_script [3; 0; 5] demo_posted
    demo_thread (D_task None)).
  - reflexivity.
  - reflexivity.
  - reflexivity.
  - apply demo_life_posted.
Defined.

(** The playlist of [demo_requests] with this player. *)
Definition demo_player : pworld thread := mkPworld demo_pc demo_thread [].
Definition demo_playlist : Playlist.world Z thread :=
  demo 4 (false, false, 0%Z) demo_player demo_requests.

Example demo_playlist_plays : Player.state (Player.pc (Playlist.player demo_playlist)) = STATE_PLAY.
Proof. vm_compute. reflexivity. Qed.

Lemma playlist_with_player_thread_witness :
  good demo_playlist ∧
  match handle (Edit (EMoveId 3 0)) demo_playlist with
  | Done _ w' | Raised _ w' => good w'
  | Fail => False
  end.
Proof.
  apply (playlist_with_player_thread 4 (false, false, 0%Z) demo_garbage demo_buffer demo_script [3; 0; 5]).
  - reflexivity.
  - reflexivity.
  - reflexivity.
  - lia.
  - apply exec_reach.
  - vm_compute. reflexivity.
Defined.

End PlayerProps.

(** * Runs of the player thread that show its flaws

    Each run is evaluated; the text says what is wrong with it. *)

Module PlayerFindings.
Import PlaylistProps Player Decoder PlayerTask PlayerRely PlayerMain PlayerReal PlayerProps.

(** Post the command [c] and wait for the answer. *)
Definition ask {cfg : PlayerConfig} (c : PlayerCommand) (r : option (PlayerControl * thread))
    : option (PlayerControl * thread) :=
  match r with Some (p, t) => await 200 (Player.set_command c p) t | None => None end.

(** The URI of the song cannot be converted to a file name: [decoder_run] stores the
    exception but leaves START pending, so [decoder_task] tries again for ever and the
    player thread, waiting for the end of START, does not answer. *)
Definition unreadable : list choice := [C_decoder (D_task (Some (str "bad path")))].

Example bad_path_blocks_player :
  match turns 100 demo_posted (start demo_garbage demo_buffer (replicate 100 unreadable) []) with
  | Some (p, t) =>
      let d := dc (st (others t)) in
      (Player.command p, Decoder.command d, Decoder.state d) = (COMMAND_SEEK, DC_START, DECODER_ERROR)
  | None => False
  end.
Proof. vm_compute. reflexivity. Qed.

(** [Player::play_audio_format] is not initialised; PAUSE reads it before the decoder has
    announced a format.  Two PAUSE commands while the decoder is starting open the output
    with whatever was in memory. *)
Definition stale_format : AudioFormat.AudioFormat := AudioFormat.mkAudioFormat 8000 AudioFormat.S8 1.

#[local] Instance dirty_config : PlayerConfig := {|
  buffer_chunks := 8;
  buffered_before_play := 2;
  configured_audio_format := cd_format;
  Calculate := λ _ _ _ _, 2;
  uninitialized_format := stale_format;
|}.

Definition slow_start : list (list choice) := [[]; [C_decoder (D_task None)]] ++ replicate 40 [].

Example pause_opens_uninitialised_format :
  match ask COMMAND_PAUSE (ask COMMAND_PAUSE
          (await 200 demo_posted (start demo_garbage demo_buffer slow_start []))) with
  | Some (p, t) => (Player.state p, Outputs.input_audio_format (out (others t))) = (STATE_PLAY, stale_format)
  | None => False
  end.
Proof. vm_compute. reflexivity. Qed.

(** A decoder that fails in the middle of a song: the state goes from DECODE to ERROR. *)
Definition late_failure (s : stage) : option stage :=
  foldl (λ o a, match o with Some s => decoder_act cd_format a s | None => None end) (Some s)
    [D_task None; D_ready None cd_format true (-1); D_data None None 4096; D_round 0 320 4096; D_fail (str "read error"); D_end None].

Example error_after_decode :
  let s := mkStage (Decoder.set_command DC_START (mkDecoderControl DECODER_STOP DC_NONE None false false
             false 0 cd_format cd_format (Some (demo_song "a")) 0 0 0 (Some 0))) None
             (SliceBuffer.mkSliceBuffer 8 0 0 []) {[0 := MusicPipe.make]} in
  (λ s, Decoder.state (dc s)) <$> late_failure s = Some DECODER_ERROR.
Proof. vm_compute. reflexivity. Qed.

(** A decoder that may also end its song during a SEEK. *)
Definition choose_free (w : world) (c : choice) : world :=
  match c with
  | C_decoder a => match decoder_act cd_format a (st w) with Some s => put_st s w | None => w end
  | C_devices l => put_devices l w
  end.

(** Turns with such a decoder; [inl] is what was there before the turn that failed. *)
Fixpoint run_free {cfg : PlayerConfig} (cs : list (list choice)) (p : PlayerControl) (t : thread)
    : (PlayerCommand * DecoderCommand * DecoderState) + (PlayerControl * thread) :=
  match cs with
  | [] => inr (p, t)
  | c :: cs =>
      match resume (S thread_cost) (code t) (foldl choose_free (at_ p t) c) with
      | Some (q, w) => run_free cs (pc w) (mkThread q w [] [])
      | None => inl (Player.command p, Decoder.command (dc (st (others t))),
                     Decoder.state (dc (st (others t))))
      end
  end.

(** SEEK into the song that is playing. *)
Definition seek_again (p : PlayerControl) : PlayerControl :=
  Player.set_command COMMAND_SEEK (Player.set_seek_time 1000 (set_next_song (Some (demo_song "a")) p)).

Definition seek_while {cfg : PlayerConfig} (cs : list (list choice))
    (r : (PlayerCommand * DecoderCommand * DecoderState) + (PlayerControl * thread)) :=
  match r with inr (p, t) => run_free cs (seek_again p) t | inl e => inl e end.

(** The song plays. *)
Definition playing_song :=
  run_free (cfg := demo_config)
    (replicate 6 [] ++ [[C_decoder (D_task None)]; [C_decoder (D_ready None cd_format true (-1))]] ++
     replicate 4 []) demo_posted (start demo_garbage demo_buffer [] []).

(** The decoder fails between [WaitDecoderStartup] and [DecoderControl::Seek]: the
    assertion that its state is not ERROR fails. *)
Example decoder_failure_meets_seek :
  match seek_while (cfg := demo_config)
    (replicate 8 [] ++ [[C_decoder (D_fail (str "read error")); C_decoder (D_end None)]] ++
     replicate 10 []) playing_song with
  | inl e => e = (COMMAND_SEEK, DC_NONE, DECODER_ERROR)
  | inr _ => False
  end.
Proof. vm_compute. reflexivity. Qed.

(** The decoder reaches the end of the song while SEEK is pending: it starts again, SEEK
    is answered in the state START, and the next SEEK finds that state: the assertion that
    it is not START fails. *)
Example restarted_decoder_meets_seek :
  match seek_while (cfg := demo_config) (replicate 20 []) (seek_while (cfg := demo_config)
    (replicate 16 [] ++ [[C_decoder (D_end None)]; [C_decoder (D_task None)]] ++ replicate 10 [])
    playing_song) with
  | inl e => e = (COMMAND_SEEK, DC_NONE, DECODER_START)
  | inr _ => False
  end.
Proof. vm_compute. reflexivity. Qed.

End PlayerFindings.
