(* ===== verification/Commands.v ===== *)
(** * Commands

    The handlers of [command/QueueCommands.cxx], [command/PlayerCommands.cxx],
    [command/TagCommands.cxx], [command/MessageCommands.cxx] and
    [command/OtherCommands.cxx] that work on the play queue, the player and the clients;
    the errors of [command/CommandError.cxx]; [command_process] of
    [command/AllCommands.cxx]; and the processing of a line in
    [client/ClientProcess.cxx] and [client/ClientRead.cxx].  The handlers of the other
    subsystems (database, stored playlists, outputs, storage, stickers) are a parameter. *)

From Stdlib Require Import ZArith Lia ZifyBool.
From stdpp Require Import base numbers sets strings list.
From S2P Require Import Prelude RandomEngine Queue CString Tokenizer Decimal Tag Song Fifo Prog.
From S2P Require Import ArgParser Client CommandTable Player Playlist.

Set Default Goal Selector "!".
Local Open Scope prog_scope.
Local Open Scope Z_scope.

Module Commands.
Import Decimal ArgParser Client CommandTable Permission.

(** The part of the environment the handlers ask for: the song loader, which reads files
    and the database, the tags enabled in the configuration, the passwords, and which
    optional features are configured. *)
Class Environment := {
  LoadSong : list Z → exn + Song.DetachedSong;
  global_tag_mask : Z;
  passwords : permissions;
  available : command → bool;
  (** the text given to a [PlaylistError] where it is thrown *)
  playlist_error_what : PlaylistResult → list Z
}.

#[local] Abbreviation Request := (list (list Z)).

(** The handlers of the subsystems that are not modelled. *)
Class OtherHandlers (W : Type) := {
  other_handler : handler → nat → Request → Response → prog W CommandResult
}.

Section Handlers.
Context {G T : Type} `{!RandomEngine G} {HPT : Player.PlayerThread T} {HAL : Allocator}.
Context {CFG : ClientConfig} {ENV : Environment}.
#[local] Abbreviation W := (server (Playlist.world G T)).
#[local] Abbreviation M := (prog W).
Context {OTHER : OtherHandlers W}.

(** A method of [playlist] or [Partition], and of the player control. *)
Definition on_playlist {A} (m : prog (Playlist.world G T) A) : M A :=
  zoom part (λ v s, mkServer v (clients s) (pending_mask s)) m.
Definition on_player {A} (m : prog (Player.pworld T) A) : M A :=
  on_playlist (Playlist.on_player m).

(** An [unsigned] passed as an [int]. *)
Definition to_int (z : Z) : Z := if z <? 2 ^ 31 then z else z - 2 ^ 32.

(** The result of a parser. *)
Definition parse {A} (r : outcome exn A) : M A :=
  match r with
  | Ret a => ret a
  | Throw e => throw e
  | Abort => abort
  end.

Definition OK : M CommandResult := ret RESULT_OK.

(** ** QueueCommands.cxx *)

Definition handle_addid (n : nat) (args : Request) (r : Response) : M CommandResult :=
  uri <- lift (args !! 0%nat) ;;
  added_id <- on_playlist (Playlist.AppendURI LoadSong uri) ;;
  (if (length args =? 2)%nat then
     to <- parse (ParseUnsigned args 1) ;;
     try_catch (on_playlist (Playlist.MoveId added_id (to_int to)))
       (λ e, on_playlist (Playlist.DeleteId added_id) ;; throw e)
   else ret tt) ;;
  write n (str "Id: " ++ print_unsigned (Z.of_nat added_id) ++ [10]) ;;
  OK.

Definition handle_delete (args : Request) : M CommandResult :=
  range <- parse (ParseRange args 0) ;;
  on_playlist (Playlist.DeleteRange (Z.to_nat (start range)) (Z.to_nat (end_ range))) ;;
  OK.

Definition handle_deleteid (args : Request) : M CommandResult :=
  id <- parse (ParseUnsigned args 0) ;;
  on_playlist (Playlist.DeleteId (Z.to_nat id)) ;;
  OK.

Definition handle_shuffle (args : Request) : M CommandResult :=
  range <- parse (ParseOptional_range args 0 All) ;;
  on_playlist (Playlist.Shuffle (Z.to_nat (start range)) (Z.to_nat (end_ range))) ;;
  OK.

Definition handle_clear : M CommandResult := on_playlist Playlist.Clear ;; OK.

(** The loops over the arguments behind the priority. *)
Fixpoint prio_loop (priority : Z) (args : Request) : M unit :=
  match args with
  | [] => ret tt
  | i :: args =>
      range <- parse (ParseCommandArgRange i) ;;
      on_playlist (Playlist.SetPriorityRange (Z.to_nat (start range)) (Z.to_nat (end_ range))
                     priority) ;;
      prio_loop priority args
  end.
Definition handle_prio (args : Request) : M CommandResult :=
  priority <- parse (ParseUnsigned_max args 0 255) ;;
  prio_loop priority (tail args) ;;
  OK.

Fixpoint prioid_loop (priority : Z) (args : Request) : M unit :=
  match args with
  | [] => ret tt
  | i :: args =>
      song_id <- parse (ParseCommandArgUnsigned i) ;;
      on_playlist (Playlist.SetPriorityId (Z.to_nat song_id) priority) ;;
      prioid_loop priority args
  end.
Definition handle_prioid (args : Request) : M CommandResult :=
  priority <- parse (ParseUnsigned_max args 0 255) ;;
  prioid_loop priority (tail args) ;;
  OK.

Definition handle_move (args : Request) : M CommandResult :=
  range <- parse (ParseRange args 0) ;;
  to <- parse (ParseInt args 1) ;;
  on_playlist (Playlist.MoveRange (Z.to_nat (start range)) (Z.to_nat (end_ range)) to) ;;
  OK.

Definition handle_moveid (args : Request) : M CommandResult :=
  id <- parse (ParseUnsigned args 0) ;;
  to <- parse (ParseInt args 1) ;;
  on_playlist (Playlist.MoveId (Z.to_nat id) to) ;;
  OK.

Definition handle_swap (args : Request) : M CommandResult :=
  song1 <- parse (ParseUnsigned args 0) ;;
  song2 <- parse (ParseUnsigned args 1) ;;
  on_playlist (Playlist.SwapPositions (Z.to_nat song1) (Z.to_nat song2)) ;;
  OK.

Definition handle_swapid (args : Request) : M CommandResult :=
  id1 <- parse (ParseUnsigned args 0) ;;
  id2 <- parse (ParseUnsigned args 1) ;;
  on_playlist (Playlist.SwapIds (Z.to_nat id1) (Z.to_nat id2)) ;;
  OK.

(** ** PlayerCommands.cxx *)

Definition handle_play (args : Request) : M CommandResult :=
  song <- parse (ParseOptional_int args 0 (-1)) ;;
  on_playlist (Playlist.PlayPosition song) ;;
  OK.

Definition handle_playid (args : Request) : M CommandResult :=
  id <- parse (ParseOptional_int args 0 (-1)) ;;
  on_playlist (Playlist.PlayId id) ;;
  OK.

Definition handle_stop : M CommandResult := on_playlist Playlist.Stop ;; OK.

Definition handle_pause (args : Request) : M CommandResult :=
  (if negb (length args =? 0)%nat then
     pause_flag <- parse (ParseBool args 0) ;;
     on_player (Player.LockSetPause pause_flag)
   else on_player Player.LockPause) ;;
  OK.

(** [playlist.queue.single = b] *)
Definition put_single (b : bool) : M unit :=
  on_playlist (Playlist.upd_pl (λ p,
    Playlist.put_queue (Queue.set_single (Playlist.queue p) b) p)).

(** Single mode is switched off for the duration of the call. *)
Definition handle_next : M CommandResult :=
  s <- get ;;
  let single := Queue.single (Playlist.queue (Playlist.pl (part s))) in
  put_single false ;;
  try_catch (on_playlist Playlist.PlayNext) (λ e, put_single single ;; throw e) ;;
  put_single single ;;
  OK.

Definition handle_previous : M CommandResult := on_playlist Playlist.PlayPrevious ;; OK.

Definition handle_repeat (args : Request) : M CommandResult :=
  status <- parse (ParseBool args 0) ;; on_playlist (Playlist.SetRepeat status) ;; OK.
Definition handle_single (args : Request) : M CommandResult :=
  status <- parse (ParseBool args 0) ;; on_playlist (Playlist.SetSingle status) ;; OK.
Definition handle_consume (args : Request) : M CommandResult :=
  status <- parse (ParseBool args 0) ;; on_playlist (Playlist.SetConsume status) ;; OK.

Definition handle_clearerror : M CommandResult := on_player Player.LockClearError ;; OK.

(** ** TagCommands.cxx *)

Definition handle_addtagid (n : nat) (args : Request) (r : Response) : M CommandResult :=
  song_id <- parse (ParseUnsigned args 0) ;;
  tag_name <- lift (args !! 1%nat) ;;
  let tag_type := Tag.tag_name_parse_i tag_name in
  if decide (tag_type = Tag.TAG_NUM_OF_ITEM_TYPES) then
    Error n r ACK_ERROR_ARG (str "Unknown tag type: " ++ tag_name) ;; ret RESULT_ERROR
  else
    value <- lift (args !! 2%nat) ;;
    on_playlist (Playlist.AddSongIdTag global_tag_mask (Z.to_nat song_id) tag_type value) ;;
    OK.

Definition handle_cleartagid (n : nat) (args : Request) (r : Response) : M CommandResult :=
  song_id <- parse (ParseUnsigned args 0) ;;
  if (2 <=? length args)%nat then
    tag_name <- lift (args !! 1%nat) ;;
    let tag_type := Tag.tag_name_parse_i tag_name in
    if decide (tag_type = Tag.TAG_NUM_OF_ITEM_TYPES) then
      Error n r ACK_ERROR_ARG (str "Unknown tag type: " ++ tag_name) ;; ret RESULT_ERROR
    else on_playlist (Playlist.ClearSongIdTag (Z.to_nat song_id) tag_type) ;; OK
  else on_playlist (Playlist.ClearSongIdTag (Z.to_nat song_id) Tag.TAG_NUM_OF_ITEM_TYPES) ;; OK.

(** ** OtherCommands.cxx *)

Definition handle_password (n : nat) (args : Request) (r : Response) : M CommandResult :=
  password <- lift (args !! 0%nat) ;;
  match getPermissionFromPassword passwords password with
  | None => Error n r ACK_ERROR_PASSWORD (str "incorrect password") ;; ret RESULT_ERROR
  | Some p => on_client n (λ c, Some (put_permission p c)) ;; OK
  end.

Fixpoint idle_mask (args : Request) (flags : Z) : sum (list Z) Z :=
  match args with
  | [] => inr flags
  | i :: args =>
      let event := idle_parse_name i in
      if event =? 0 then inl i else idle_mask args (Z.lor flags event)
  end.

Definition handle_idle (n : nat) (args : Request) (r : Response) : M CommandResult :=
  match idle_mask args 0 with
  | inl i => Error n r ACK_ERROR_ARG (str "Unrecognized idle event: " ++ i) ;; ret RESULT_ERROR
  | inr flags =>
      let flags := if flags =? 0 then 2 ^ 32 - 1 else flags in
      on_client n (IdleWait flags) ;;
      ret RESULT_IDLE
  end.

(** ** MessageCommands.cxx *)

Definition handle_subscribe (n : nat) (args : Request) (r : Response) : M CommandResult :=
  assert_ (length args =? 1)%nat ;;
  channel_name <- lift (args !! 0%nat) ;;
  res <- Subscribe n channel_name ;;
  match res with
  | SUBSCRIBE_OK => OK
  | SUBSCRIBE_INVALID => Error n r ACK_ERROR_ARG (str "invalid channel name") ;; ret RESULT_ERROR
  | SUBSCRIBE_ALREADY =>
      Error n r ACK_ERROR_EXIST (str "already subscribed to this channel") ;; ret RESULT_ERROR
  | SUBSCRIBE_FULL =>
      Error n r ACK_ERROR_EXIST (str "subscription list is full") ;; ret RESULT_ERROR
  end.

Definition handle_unsubscribe (n : nat) (args : Request) (r : Response) : M CommandResult :=
  assert_ (length args =? 1)%nat ;;
  channel_name <- lift (args !! 0%nat) ;;
  done <- Unsubscribe n channel_name ;;
  if (done : bool) then OK
  else Error n r ACK_ERROR_NO_EXIST (str "not subscribed to this channel") ;; ret RESULT_ERROR.

(** All channels in ascending order, without duplicates. *)
Definition all_channels (l : list Client) : list (list Z) :=
  foldl (λ acc c, foldl (λ acc ch, set_insert ch acc) acc (subscriptions c)) [] l.

Definition write_all (n : nat) (ls : list (list Z)) : M unit :=
  foldr (λ l m, write n l ;; m) (ret tt) ls.

Definition handle_channels (n : nat) (args : Request) : M CommandResult :=
  assert_ (length args =? 0)%nat ;;
  s <- get ;;
  write_all n ((λ ch, str "channel: " ++ ch ++ [10]) <$> all_channels (clients s)) ;;
  OK.

(** The loop that prints the first message and removes it. *)
Fixpoint read_messages_loop (fuel n : nat) : M unit :=
  match fuel with
  | O => abort
  | S fuel =>
      c <- client n ;;
      match messages c with
      | [] => ret tt
      | msg :: _ =>
          write n (str "channel: " ++ channel msg ++ [10] ++ str "message: " ++ message msg ++ [10]) ;;
          on_client n (λ c, Some (put_messages (tail (messages c)) c)) ;;
          read_messages_loop fuel n
      end
  end.
Definition handle_read_messages (n : nat) (args : Request) : M CommandResult :=
  assert_ (length args =? 0)%nat ;;
  c <- client n ;;
  read_messages_loop (S (length (messages c))) n ;;
  OK.

Definition handle_send_message (n : nat) (args : Request) (r : Response) : M CommandResult :=
  assert_ (length args =? 2)%nat ;;
  channel_name <- lift (args !! 0%nat) ;;
  message_text <- lift (args !! 1%nat) ;;
  if negb (client_message_valid_channel_name channel_name) then
    Error n r ACK_ERROR_ARG (str "invalid channel name") ;; ret RESULT_ERROR
  else
    s <- get ;;
    p <- lift (push_all (mkMessage channel_name message_text) (clients s)) ;;
    modify (λ s, mkServer (part s) p.2 (pending_mask s)) ;;
    if (p.1 : bool) then OK
    else Error n r ACK_ERROR_NO_EXIST (str "nobody is subscribed to this channel") ;;
         ret RESULT_ERROR.

(** ** The handlers of the table *)

Definition run_handler (h : handler) (n : nat) (args : Request) (r : Response)
    : M CommandResult :=
  match h with
  | HANDLE_ADDID => handle_addid n args r
  | HANDLE_DELETE => handle_delete args
  | HANDLE_DELETEID => handle_deleteid args
  | HANDLE_SHUFFLE => handle_shuffle args
  | HANDLE_CLEAR => handle_clear
  | HANDLE_PRIO => handle_prio args
  | HANDLE_PRIOID => handle_prioid args
  | HANDLE_MOVE => handle_move args
  | HANDLE_MOVEID => handle_moveid args
  | HANDLE_SWAP => handle_swap args
  | HANDLE_SWAPID => handle_swapid args
  | HANDLE_PLAY => handle_play args
  | HANDLE_PLAYID => handle_playid args
  | HANDLE_STOP => handle_stop
  | HANDLE_PAUSE => handle_pause args
  | HANDLE_NEXT => handle_next
  | HANDLE_PREVIOUS => handle_previous
  | HANDLE_REPEAT => handle_repeat args
  | HANDLE_SINGLE => handle_single args
  | HANDLE_CONSUME => handle_consume args
  | HANDLE_CLEARERROR => handle_clearerror
  | HANDLE_ADDTAGID => handle_addtagid n args r
  | HANDLE_CLEARTAGID => handle_cleartagid n args r
  | HANDLE_PASSWORD => handle_password n args r
  | HANDLE_IDLE => handle_idle n args r
  | HANDLE_SUBSCRIBE => handle_subscribe n args r
  | HANDLE_UNSUBSCRIBE => handle_unsubscribe n args r
  | HANDLE_CHANNELS => handle_channels n args
  | HANDLE_READ_MESSAGES => handle_read_messages n args
  | HANDLE_SEND_MESSAGE => handle_send_message n args r
  | HANDLE_COMMANDS =>
      c <- client n ;; write_all n (PrintAvailableCommands available (Client.permission c)) ;; OK
  | HANDLE_NOT_COMMANDS =>
      c <- client n ;; write_all n (PrintUnavailableCommands (Client.permission c)) ;; OK
  | HANDLE_PING => OK
  | HANDLE_CLOSE => ret RESULT_FINISH
  | HANDLE_KILL => ret RESULT_KILL
  | h => other_handler h n args r
  end.

(** ** CommandError.cxx *)

Definition ToAck_playlist (result : PlaylistResult) : ack :=
  match result with
  | DENIED => ACK_ERROR_PERMISSION
  | NO_SUCH_SONG | NO_SUCH_LIST => ACK_ERROR_NO_EXIST
  | LIST_EXISTS => ACK_ERROR_EXIST
  | BAD_NAME | BAD_RANGE => ACK_ERROR_ARG
  | NOT_PLAYING => ACK_ERROR_PLAYER_SYNC
  | TOO_LARGE => ACK_ERROR_PLAYLIST_MAX
  | SUCCESS | DISABLED => ACK_ERROR_UNKNOWN
  end.

Definition ToAck (e : exn) : ack :=
  match e with
  | ProtocolError code _ => code
  | PlaylistError code => ToAck_playlist code
  | RuntimeError _ => ACK_ERROR_UNKNOWN
  end.

(** [e.what()] *)
Definition what (e : exn) : list Z :=
  match e with
  | ProtocolError _ m | RuntimeError m => m
  | PlaylistError code => playlist_error_what code
  end.

Definition PrintError (n : nat) (r : Response) (e : exn) : M unit :=
  Error n r (ToAck e) (what e).

(** ** AllCommands.cxx *)

Definition COMMAND_ARGV_MAX : nat := 2 + (Tag.tag_index Tag.TAG_NUM_OF_ITEM_TYPES * 2).

(** The outcome of splitting a line. *)
Inductive parsed :=
| NoCommand
| BadCommand (e : Tokenizer.error)
| TooManyArgs
| BadArgument (e : Tokenizer.error)
| Parsed (cmd_name : list Z) (args : Request).

(** The loop over the arguments: pointers into the line, which is returned too. *)
Fixpoint parse_args (fuel : nat) (t : Tokenizer.tokenizer) (argv : list nat)
    : outcome Tokenizer.error (option (list nat * Tokenizer.tokenizer)) :=
  match fuel with
  | O => Abort
  | S fuel =>
      if (length argv =? COMMAND_ARGV_MAX)%nat then Ret None
      else
        (r ← Tokenizer.NextParam t;
         match r.1 with
         | None => Ret (Some (argv, r.2))
         | Some a => parse_args fuel r.2 (argv ++ [a])
         end)%stdpp
  end.

(** The words are read from the line when everything is split. *)
Definition parse_line (line : list Z) : option parsed :=
  match Tokenizer.NextWord (Tokenizer.mkTokenizer (line ++ [0]) 0) with
  | Abort => None
  | Throw e => Some (BadCommand e)
  | Ret (None, _) => Some NoCommand
  | Ret (Some w, t) =>
      match parse_args (S COMMAND_ARGV_MAX) t [] with
      | Abort => None
      | Throw e => Some (BadArgument e)
      | Ret None => Some TooManyArgs
      | Ret (Some (argv, t)) =>
          Some (Parsed (Tokenizer.c_str (Tokenizer.line t) w)
                       (Tokenizer.c_str (Tokenizer.line t) <$> argv))
      end
  end.

Definition tok_exn (e : Tokenizer.error) : exn := RuntimeError (str (Tokenizer.what e)).

Definition quoted (s : list Z) : list Z := [34] ++ s ++ [34].

Definition request_error_text (e : request_error) (c : command) : ack * list Z :=
  match e with
  | NoPermission => (ACK_ERROR_PERMISSION, str "you don't have permission for " ++ quoted (cmd c))
  | WrongNumberOfArguments =>
      (ACK_ERROR_ARG, str "wrong number of arguments for " ++ quoted (cmd c))
  | TooFewArguments => (ACK_ERROR_ARG, str "too few arguments for " ++ quoted (cmd c))
  | TooManyArguments => (ACK_ERROR_ARG, str "too many arguments for " ++ quoted (cmd c))
  end.

(** [command_checked_lookup]: the command and the response, which knows its name now. *)
Definition command_checked_lookup (n : nat) (r : Response) (_permission : Z)
    (cmd_name : list Z) (args : Request) : M (option (command * Response)) :=
  c <- lift (command_lookup cmd_name) ;;
  match c with
  | None =>
      Error n r ACK_ERROR_UNKNOWN (str "unknown command " ++ quoted cmd_name) ;;
      ret None
  | Some c =>
      let r := SetCommand (cmd c) r in
      match command_check_request c _permission (length args) with
      | Some e =>
          let '(code, text) := request_error_text e c in
          Error n r code text ;;
          ret None
      | None => ret (Some (c, r))
      end
  end.

Definition command_process (n num : nat) (line : list Z) : M CommandResult :=
  let r := mkResponse num [] in
  try_catch
    (p <- lift (parse_line line) ;;
     match p with
     | NoCommand => Error n r ACK_ERROR_UNKNOWN (str "No command given") ;; ret RESULT_FINISH
     | BadCommand e => Error n r ACK_ERROR_UNKNOWN (str (Tokenizer.what e)) ;; ret RESULT_FINISH
     | TooManyArgs => Error n r ACK_ERROR_ARG (str "Too many arguments") ;; ret RESULT_ERROR
     | BadArgument e => throw (tok_exn e)
     | Parsed cmd_name args =>
         c <- client n ;;
         found <- command_checked_lookup n r (Client.permission c) cmd_name args ;;
         match found with
         | Some (c, r) => run_handler (handle c) n args r
         | None => ret RESULT_ERROR
         end
     end)
    (λ e, PrintError n r e ;; ret RESULT_ERROR).

(** ** ClientProcess.cxx *)

Definition CLIENT_LIST_MODE_BEGIN : list Z := str "command_list_begin".
Definition CLIENT_LIST_OK_MODE_BEGIN : list Z := str "command_list_ok_begin".
Definition CLIENT_LIST_MODE_END : list Z := str "command_list_end".

Fixpoint client_process_command_list (n : nat) (list_ok : bool) (num : nat)
    (cmds : list (list Z)) (last : CommandResult) : M CommandResult :=
  match cmds with
  | [] => ret last
  | i :: cmds =>
      r <- command_process n num i ;;
      c <- client n ;;
      if negb (bool_decide (r = RESULT_OK)) || expired c then ret r
      else
        (if list_ok then write n (str "list_OK" ++ [10]) else ret tt) ;;
        client_process_command_list n list_ok (S num) cmds r
  end.

(** What follows a command or a command list. *)
Definition finish_command (n : nat) (r : CommandResult) (reset : bool) : M CommandResult :=
  c <- client n ;;
  if bool_decide (r = RESULT_CLOSE) || expired c then ret RESULT_CLOSE
  else
    (if bool_decide (r = RESULT_OK) then command_success n else ret tt) ;;
    (if reset then on_client n (λ c, Some (put_cmd_list (CommandListBuilder.Reset (cmd_list c)) c))
     else ret tt) ;;
    ret r.

Definition client_process_line (n : nat) (line : list Z) : M CommandResult :=
  c <- client n ;;
  if CString.streq line (str "noidle") then
    (if idle_waiting c then
       put_client (put_idle false (idle_flags c) (idle_subscriptions c) c) ;;
       command_success n
     else ret tt) ;;
    OK
  else if idle_waiting c then ret RESULT_CLOSE
  else if CommandListBuilder.IsActive (cmd_list c) then
    if CString.streq line CLIENT_LIST_MODE_END then
      cmds <- lift (CommandListBuilder.Commit (cmd_list c)) ;;
      list_ok <- lift (CommandListBuilder.IsOKMode (cmd_list c)) ;;
      r <- client_process_command_list n list_ok 0 cmds RESULT_OK ;;
      finish_command n r true
    else
      let '(added, l) := CommandListBuilder.Add client_max_command_list_size line (cmd_list c) in
      put_client (put_cmd_list l c) ;;
      if (added : bool) then OK else ret RESULT_CLOSE
  else if CString.streq line CLIENT_LIST_MODE_BEGIN then
    l <- lift (CommandListBuilder.Begin false (cmd_list c)) ;;
    put_client (put_cmd_list l c) ;;
    OK
  else if CString.streq line CLIENT_LIST_OK_MODE_BEGIN then
    l <- lift (CommandListBuilder.Begin true (cmd_list c)) ;;
    put_client (put_cmd_list l c) ;;
    OK
  else
    r <- command_process n 0 line ;;
    finish_command n r false.

(** ** ClientRead.cxx *)

Inductive InputResult := INPUT_MORE | INPUT_AGAIN | INPUT_CLOSED.

(** [Client::Close]: the client leaves the list and is deleted. *)
Definition Close (n : nat) : M unit :=
  modify (λ s, mkServer (part s) (filter (λ c, num c ≠ n) (clients s)) (pending_mask s)).

(** [OnSocketInput] with the buffered [data]; the first component is the number of bytes
    consumed.  [flushed] is the result of [Flush]; whether the instance shuts down on
    [KILL] is the last component. *)
Definition OnSocketInput (n : nat) (data : list Z) (flushed : bool)
    : M (nat * InputResult * bool) :=
  match CString.strchr data 10 with
  | None => ret (0%nat, INPUT_MORE, false)
  | Some newline =>
      on_client n (λ c, Some (put_timeout (Some client_timeout) c)) ;;
      let line := Tokenizer.until_nul (Tokenizer.StripRight (take newline data)) in
      result <- client_process_line n line ;;
      match result with
      | RESULT_OK | RESULT_IDLE | RESULT_ERROR =>
          c <- client n ;;
          if expired c then Close n ;; ret (S newline, INPUT_CLOSED, false)
          else ret (S newline, INPUT_AGAIN, false)
      | RESULT_KILL => Close n ;; ret (S newline, INPUT_CLOSED, true)
      | RESULT_FINISH =>
          (if flushed then Close n else ret tt) ;; ret (S newline, INPUT_CLOSED, false)
      | RESULT_CLOSE => Close n ;; ret (S newline, INPUT_CLOSED, false)
      end
  end.

End Handlers.
End Commands.
