(* ===== verification/CommandLine.v ===== *)
(** * Splitting a command line

    The in-place splitter of [command_process] computes a function of the text of the
    line, for every line; and a line that quotes its arguments the way the protocol
    prescribes is split into exactly these arguments. *)

From Stdlib Require Import ZArith Lia ZifyBool.
From stdpp Require Import base numbers sets strings list.
From S2P Require Import Prelude Tokenizer Tag Commands.

Set Default Goal Selector "!".
Local Open Scope Z_scope.

Module CommandLine.
Import Tokenizer Commands.

(** ** The text of a line *)

Fixpoint split_args (fuel : nat) (s : list Z) (ws : list (list Z))
    : outcome error (option (list (list Z))) :=
  match fuel with
  | O => Abort
  | S fuel =>
      if (length ws =? COMMAND_ARGV_MAX)%nat then Ret None
      else
        r ← next_param s;
        match r with
        | None => Ret (Some ws)
        | Some (w, rest) => split_args fuel rest (ws ++ [w])
        end
  end.

Definition split_line (s : list Z) : option parsed :=
  match next_word valid_word_first_char valid_word_char LetterExpected InvalidWordCharacter s with
  | Abort => None
  | Throw e => Some (BadCommand e)
  | Ret None => Some NoCommand
  | Ret (Some (name, rest)) =>
      match split_args (S COMMAND_ARGV_MAX) rest [] with
      | Abort => None
      | Throw e => Some (BadArgument e)
      | Ret None => Some TooManyArgs
      | Ret (Some args) => Some (Parsed name args)
      end
  end.

(** ** The splitter computes it *)

(** The word [w] at [p] ends before the unread text [s] at [input t]. *)
Definition behind (t : tokenizer) (s : list Z) (p : nat) (w : list Z) : Prop :=
  cstr (line t) p w ∧ ((p + length w < input t)%nat ∨ s = []).

Lemma behind_word t w rest t' : word_at (line t) (input t) w rest t' →
  behind t' rest (input t) w.
Proof. intros []. by split. Qed.

(** Later words do not touch earlier ones. *)
Lemma behind_step t s p v w rest t' : s ≠ [] → behind t s p v →
  word_at (line t) (input t) w rest t' → behind t' rest p v.
Proof.
  intros Hne [Hv [Hlt|Hs]] [Hl Hf Hw Hr Ho Ha]; [|done]. split; [|lia].
  eapply cstr_agree; [done|]. intros i Hi. apply Hf. lia.
Qed.

(** The outcome of [parse_args] on the words [argv] and the name at [p0]. *)
Definition splits (p0 : nat) (name : list Z)
    (m : outcome error (option (list nat * tokenizer)))
    (r : outcome error (option (list (list Z)))) : Prop :=
  match r with
  | Ret (Some ws) => ∃ argv t, m = Ret (Some (argv, t)) ∧ cstr (line t) p0 name ∧
      Forall2 (cstr (line t)) argv ws
  | Ret None => m = Ret None
  | Throw e => m = Throw e
  | Abort => m = Abort
  end.

Lemma parse_args_ok p0 name fuel t s argv ws :
  cstr (line t) (input t) s → behind t s p0 name → Forall2 (behind t s) argv ws →
  splits p0 name (parse_args fuel t argv) (split_args fuel s ws).
Proof.
  revert t s argv ws. induction fuel as [|fuel IH]; intros t s argv ws Hs Hn Hws; [done|].
  cbn [parse_args split_args]. rewrite (Forall2_length _ _ _ Hws).
  destruct (length ws =? COMMAND_ARGV_MAX)%nat; [done|].
  pose proof (NextParam_ok t s Hs) as H. unfold implements in H.
  destruct (next_param s) as [[[w rest]|]|e|] eqn:E; cbn [mbind outcome_bind]; [| |by rewrite H|done].
  - destruct H as (t' & -> & Hwa & Hlt). cbn [mbind outcome_bind fst snd].
    assert (Hne : s ≠ []) by (by intros ->).
    apply IH; [apply Hwa|by eapply behind_step|].
    apply Forall2_app; [|constructor; [by eapply behind_word|constructor]].
    eapply Forall2_impl; [exact Hws|]. intros p v Hv. by eapply behind_step.
  - destruct H as [-> ->]. simpl. eexists _, _. split; [done|]. split; [apply Hn|].
    eapply Forall2_impl; [exact Hws|]. by intros p v [].
Qed.

(** The text functions never get stuck. *)
Lemma span_word_total valid e s : match span_word valid e s with Abort => False | _ => True end.
Proof.
  induction s as [|c s IH]; simpl; [done|]. destruct (IsWhitespaceFast c); [done|].
  destruct (valid c); simpl; [|done]. by destruct (span_word valid e s).
Qed.

Lemma next_word_total first valid e1 e2 s :
  match next_word first valid e1 e2 s with
  | Abort => False
  | Ret (Some (w, _)) => w ≠ []
  | _ => True
  end.
Proof.
  destruct s as [|c s]; simpl; [done|]. destruct (first c); simpl; [|done].
  pose proof (span_word_total valid e2 s) as H. by destruct (span_word valid e2 s).
Qed.

Lemma span_string_total k s : (length s ≤ k)%nat →
  match span_string s with Abort => False | _ => True end.
Proof.
  revert s. induction k as [|k IH]; intros [|c s] Hk; simpl in *; try done; try lia.
  destruct (c =? 34); [done|]. destruct (c =? 92).
  - destruct s as [|d s]; [done|]. specialize (IH s ltac:(simpl in *; lia)).
    by destruct (span_string s).
  - specialize (IH s ltac:(lia)). by destruct (span_string s).
Qed.

Lemma next_param_total s : match next_param s with Abort => False | _ => True end.
Proof.
  assert (Hw : match next_word valid_unquoted_char valid_unquoted_char InvalidUnquotedCharacter
    InvalidUnquotedCharacter s with Abort => False | _ => True end).
  { pose proof (next_word_total valid_unquoted_char valid_unquoted_char InvalidUnquotedCharacter
      InvalidUnquotedCharacter s) as H. by repeat case_match. }
  destruct s as [|c s]; [done|]. destruct (decide (c = 34)) as [->|Hne].
  - simpl. unfold next_string. pose proof (span_string_total (length s) s ltac:(done)) as H.
    destruct (span_string s) as [[w rest]|e|]; simpl; [|done|done].
    destruct rest as [|d rest]; [done|]. by destruct (IsWhitespaceFast d).
  - unfold next_param. by repeat case_match.
Qed.

(** Neither the buffer nor the argument vector is ever left. *)
Lemma split_args_total fuel s ws : (COMMAND_ARGV_MAX < fuel + length ws)%nat →
  (length ws ≤ COMMAND_ARGV_MAX)%nat →
  match split_args fuel s ws with
  | Ret (Some ws') => (length ws' < COMMAND_ARGV_MAX)%nat
  | Ret None | Throw _ => True
  | Abort => False
  end.
Proof.
  revert s ws. induction fuel as [|fuel IH]; intros s ws Hf Hl; [lia|].
  cbn [split_args]. destruct (length ws =? COMMAND_ARGV_MAX)%nat eqn:E; [done|].
  pose proof (next_param_total s) as H. destruct (next_param s) as [[[w rest]|]|e|]; simpl; try done.
  - apply IH; rewrite length_app; simpl; lia.
  - lia.
Qed.

Lemma c_str_all buf argv ws : Forall2 (cstr buf) argv ws → c_str buf <$> argv = ws.
Proof. induction 1 as [|p w argv ws Hw _ IH]; [done|]. by rewrite fmap_cons, IH, (cstr_c_str _ _ _ Hw). Qed.

Lemma parse_line_split s : (0 ∉ s) → parse_line s = split_line s.
Proof.
  intros Hs. unfold parse_line, split_line.
  pose proof (cstr_intro [] s [] Hs) as Hc. rewrite app_nil_l in Hc. cbn [length] in Hc.
  pose proof (NextWord_ok (mkTokenizer (s ++ [0]) 0) s Hc) as H. unfold implements in H.
  destruct (next_word _ _ _ _ s) as [[[name rest]|]|e|]; [| |by rewrite H|done].
  - destruct H as (t' & -> & Hwa & _). cbv iota beta. cbn [input line] in *.
    pose proof (parse_args_ok 0 name (S COMMAND_ARGV_MAX) t' rest [] [] (wa_rest _ _ _ _ _ Hwa)
      (behind_word (mkTokenizer (s ++ [0]) 0) _ _ _ Hwa) (proj2 (Forall2_nil _) I)) as H.
    destruct (split_args _ rest []) as [[ws|]|e|]; unfold splits in H;
      [|by rewrite H|by rewrite H|by rewrite H].
    destruct H as (argv & t & -> & Hn & Hws). by rewrite (cstr_c_str _ _ _ Hn), (c_str_all _ _ _ Hws).
  - by destruct H as [_ ->].
Qed.

(** C29: splitting a command line is total and works on the text alone.  Whatever bytes a
    client sends, [parse_line] terminates without reading or writing outside the line
    buffer or the argument vector, its result is the one of [split_line] on the text, and
    a parsed command has fewer than [COMMAND_ARGV_MAX] arguments: although the words share
    the buffer that is overwritten in the course of the work, none is damaged. *)
Theorem parse_line_total s : (0 ∉ s) →
  ∃ p, parse_line s = Some p ∧ split_line s = Some p ∧
    match p with
    | Parsed name args => name ≠ [] ∧ (length args < COMMAND_ARGV_MAX)%nat
    | _ => True
    end.
Proof.
  intros Hs. rewrite (parse_line_split s Hs). unfold split_line.
  pose proof (next_word_total valid_word_first_char valid_word_char LetterExpected
    InvalidWordCharacter s) as H.
  destruct (next_word _ _ _ _ s) as [[[name rest]|]|e|]; [|by eexists|by eexists|done].
  pose proof (split_args_total (S COMMAND_ARGV_MAX) rest [] ltac:(cbn [length]; lia) ltac:(cbn [length]; lia)) as H2.
  destruct (split_args _ rest []) as [[ws|]|e|]; [|by eexists|by eexists|done].
  eexists. split_and!; [done|done|by split].
Qed.

Lemma parse_line_total_witness :
  let s := str "find artist " ++ [34; 65; 92; 34; 34] in
  (0 ∉ s) ∧ ∃ p, parse_line s = Some p ∧ split_line s = Some p ∧
    match p with
    | Parsed name args => name ≠ [] ∧ (length args < COMMAND_ARGV_MAX)%nat
    | _ => True
    end.
Proof.
  split; [apply (bool_decide_unpack _); vm_compute; exact I|].
  apply parse_line_total. apply (bool_decide_unpack _). vm_compute. exact I.
Defined.

(** ** Quoting *)

(** Backslash and quote are escaped. *)
Definition escape (s : list Z) : list Z :=
  concat ((λ c, if (c =? 34) || (c =? 92) then [92; c] else [c]) <$> s).
Definition quote (s : list Z) : list Z := [34] ++ escape s ++ [34].

(** A command with its arguments, each in quotes. *)
Definition render (name : list Z) (args : list (list Z)) : list Z :=
  name ++ concat ((λ a, [32] ++ quote a) <$> args).

Lemma span_string_escape s rest : span_string (escape s ++ 34 :: rest) = Ret (s, rest).
Proof.
  induction s as [|c s IH]; [done|]. unfold escape. cbn [fmap list_fmap concat].
  change (concat _) with (escape s). destruct ((c =? 34) || (c =? 92)) eqn:E.
  - change (([92; c] ++ escape s) ++ 34 :: rest) with (92 :: c :: (escape s ++ 34 :: rest)).
    cbn [span_string]. change (92 =? 34) with false. change (92 =? 92) with true. cbn match.
    by rewrite IH.
  - change (([c] ++ escape s) ++ 34 :: rest) with (c :: (escape s ++ 34 :: rest)).
    cbn [span_string]. apply orb_false_elim in E as [-> ->]. by rewrite IH.
Qed.

(** The text behind an argument: nothing, or a space and a quote. *)
Definition next_quoted (rest : list Z) : Prop :=
  rest = [] ∨ ∃ r, rest = 32 :: 34 :: r.

Lemma next_param_quote a rest : next_quoted rest →
  next_param (quote a ++ rest) = Ret (Some (a, strip rest)).
Proof.
  intros Hr. unfold quote, next_param. rewrite <-!app_assoc. cbn [app]. unfold next_string.
  rewrite span_string_escape. simpl. by destruct Hr as [->|[r ->]].
Qed.

Lemma render_args_next args : next_quoted (concat ((λ a, [32] ++ quote a) <$> args)).
Proof. destruct args as [|a args]; [by left|]. right. by eexists. Qed.

Lemma strip_args a rest : strip ([32] ++ quote a ++ rest) = quote a ++ rest.
Proof. done. Qed.

Lemma split_args_render args : ∀ fuel ws, (length args < fuel)%nat →
  (length ws + length args < COMMAND_ARGV_MAX)%nat →
  split_args fuel (strip (concat ((λ a, [32] ++ quote a) <$> args))) ws = Ret (Some (ws ++ args)).
Proof.
  induction args as [|a args IH]; intros [|fuel] ws Hf Hl; try (simpl in *; lia).
  - cbn [split_args fmap list_fmap concat strip]. simpl in Hl.
    rewrite (proj2 (Nat.eqb_neq _ _)) by lia. cbn. by rewrite app_nil_r.
  - cbn [fmap list_fmap concat]. rewrite <-app_assoc, strip_args. cbn [split_args].
    simpl in Hl. rewrite (proj2 (Nat.eqb_neq _ _)) by lia.
    rewrite next_param_quote by apply render_args_next. cbn [mbind outcome_bind].
    rewrite IH by (rewrite ?length_app; simpl in *; lia). by rewrite <-app_assoc.
Qed.

Definition is_word (name : list Z) : Prop :=
  match name with
  | [] => False
  | c :: name => valid_word_first_char c = true ∧ Forall (λ c, valid_word_char c = true) name
  end.

Lemma word_char_not_space c : valid_word_char c = true → IsWhitespaceFast c = false.
Proof.
  unfold valid_word_char, IsAlphaNumericASCII, IsAlphaASCII, IsUpperAlphaASCII, IsLowerAlphaASCII,
    IsDigitASCII, IsWhitespaceFast, IsWhitespaceOrNull. lia.
Qed.

Lemma span_word_name e name rest : Forall (λ c, valid_word_char c = true) name →
  next_quoted rest → span_word valid_word_char e (name ++ rest) = Ret (name, strip rest).
Proof.
  intros Hn Hr. induction Hn as [|c name Hc Hn IH]; simpl.
  - by destruct Hr as [->|[r ->]].
  - rewrite (word_char_not_space c Hc), Hc. simpl. by rewrite IH.
Qed.

Lemma escape_no_nul a : (0 ∉ a) → (0 ∉ escape a).
Proof.
  unfold escape. induction a as [|c a IH]; [done|]. intros H. cbn [fmap list_fmap concat].
  destruct ((c =? 34) || (c =? 92)); set_solver.
Qed.

Lemma is_word_no_nul name : is_word name → (0 ∉ name).
Proof.
  assert (H0 : valid_word_char 0 = false) by done.
  assert (H1 : valid_word_first_char 0 = false) by done.
  destruct name as [|c name]; [done|]. intros [Hc Hn] [<-|Hin]%elem_of_cons; [congruence|].
  rewrite Forall_forall in Hn. rewrite (Hn 0 Hin) in H0. done.
Qed.

Lemma render_no_nul name args : is_word name → Forall (λ a, 0 ∉ a) args → (0 ∉ render name args).
Proof.
  intros Hn Ha. unfold render. rewrite elem_of_app. intros [H|H]; [by eapply is_word_no_nul|].
  induction Ha as [|a args Hz Ha IH]; [set_solver|]. cbn [fmap list_fmap concat] in H.
  pose proof (escape_no_nul a Hz). unfold quote in H. set_solver.
Qed.

(** C28: quoting and splitting are inverse.  A command line made of a command name and
    arguments in double quotes, with quotes and backslashes escaped by a backslash, is
    split into exactly this name and these arguments, whatever bytes the arguments hold,
    as long as there is room in the argument vector. *)
Theorem parse_line_roundtrip name args :
  is_word name → Forall (λ a, 0 ∉ a) args → (length args < COMMAND_ARGV_MAX)%nat →
  parse_line (render name args) = Some (Parsed name args).
Proof.
  intros Hn Ha Hl. rewrite parse_line_split by (by apply render_no_nul).
  unfold split_line, render. destruct name as [|c name]; [done|]. destruct Hn as [Hc Hn].
  cbn [next_word app]. rewrite Hc. cbn [negb].
  rewrite span_word_name by (done || apply render_args_next). cbn [mbind outcome_bind fst snd].
  cbn [mret outcome_ret]. by rewrite split_args_render by (simpl; lia).
Qed.

Lemma parse_line_roundtrip_witness :
  parse_line (render (str "addtagid") [str "3"; str "Title"; [34; 92; 32; 39]])
  = Some (Parsed (str "addtagid") [str "3"; str "Title"; [34; 92; 32; 39]]).
Proof.
  apply parse_line_roundtrip.
  - split; [done|]. repeat constructor.
  - apply (bool_decide_unpack _). vm_compute. exact I.
  - vm_compute. lia.
Defined.

End CommandLine.
