(* ===== verification/CommandProps.v ===== *)
(** * Correctness of the command layer

    What happens between a line of a client and the playlist: no handler runs without
    permission and a checked number of arguments; the playlist commands translate their
    arguments into exactly one request of the playlist and report its error; a command
    list runs its commands in order at its end. *)

From Stdlib Require Import ZArith Lia ZifyBool.
From stdpp Require Import base numbers sets strings list relations.
From stdpp Require Import base numbers sets strings list.
From S2P Require Import Prelude RandomEngine Queue CString Decimal Tokenizer Fifo Tag Song Prog ArgParser Client ClientFacts CommandTable Player ScriptedPlayer Playlist PlaylistControl PlaylistEdits PlaylistSystem PlaylistProps Commands CommandLine.

Set Default Goal Selector "!".
Local Open Scope prog_scope.
Local Open Scope Z_scope.

Module CommandProps.
Import ArgParser Client ClientFacts CommandTable Commands.

Section Props.
Context {G T : Type} `{!RandomEngine G, !RandomEngineLaws G}.
Context {HPT : Player.PlayerThread T} {HPL : Player.PlayerThreadLaws T} {HAL : Allocator}.
Context {CFG : ClientConfig} {ENV : Environment}.
#[local] Abbreviation W := (server (Playlist.world G T)).
Context {OTHER : OtherHandlers W}.
Implicit Types s : W.

(** ** Clients by number *)

Definition replace_client (c : Client) (l : list Client) : list Client :=
  (λ d, if decide (num d = num c) then c else d) <$> l.

Lemma find_client_cons n c l :
  find_client n (c :: l) = if decide (num c = n) then Some c else find_client n l.
Proof.
  unfold find_client. cbn [list_find]. destruct (decide (num c = n)) as [H|H]; [done|].
  by destruct (list_find _ l) as [[i d]|].
Qed.

Lemma find_client_num n l c : find_client n l = Some c → num c = n.
Proof.
  induction l as [|d l IH]; [done|]. rewrite find_client_cons.
  destruct (decide (num d = n)); [by intros [= <-]|done].
Qed.

Lemma find_replace c c' l : find_client (num c) l = Some c' →
  find_client (num c) (replace_client c l) = Some c.
Proof.
  induction l as [|d l IH]; [done|]. unfold replace_client. cbn [fmap list_fmap].
  rewrite !find_client_cons. destruct (decide (num d = num c)) as [Hd|Hd].
  - by rewrite decide_True.
  - rewrite decide_False by done. apply IH.
Qed.

Lemma find_replace_other m c l : m ≠ num c →
  find_client m (replace_client c l) = find_client m l.
Proof.
  intros Hne. induction l as [|d l IH]; [done|]. unfold replace_client. cbn [fmap list_fmap].
  rewrite !find_client_cons. fold (replace_client c l). rewrite IH.
  destruct (decide (num d = num c)) as [Hd|Hd]; [|done].
  by rewrite decide_False, decide_False by congruence.
Qed.

(** ** Writing to a client *)

(** The server after [data] was written to the client [n], which was [c]. *)
Definition answered (n : nat) (c : Client) (data : list Z) (s s' : W) : Prop :=
  part s' = part s ∧ pending_mask s' = pending_mask s ∧
  ∃ c', wrote data c c' ∧ clients s' = replace_client c' (clients s).

Lemma replace_client_num c c' l : num c' = num c →
  replace_client c' (replace_client c l) = replace_client c' l.
Proof.
  intros Hn. unfold replace_client. rewrite <-list_fmap_compose. apply list_fmap_ext.
  intros i d _. unfold compose. destruct (decide (num d = num c)) as [Hd|Hd].
  - rewrite decide_True, decide_True by congruence. done.
  - rewrite Hn. by destruct (decide (num d = num c)).
Qed.

Lemma wp_write n data s c Q X : find_client n (clients s) = Some c →
  PeakBuffer.inv (output c) →
  (∀ s', answered n c data s s' → Q tt s') → wp (write n data) Q X s.
Proof.
  intros Hc Hi HQ. pose proof (find_client_num _ _ _ Hc) as Hn.
  unfold write, on_client, client. repeat apply wp_bind. apply wp_get.
  eapply wp_lift; [exact Hc|]. destruct (client_Write_ok data c Hi) as (c' & Heq & Hw).
  apply wp_bind. eapply wp_lift; [exact Heq|]. apply wp_modify. apply HQ.
  split_and!; [done|done|]. by exists c'.
Qed.

Lemma answered_find n c data s s' : find_client n (clients s) = Some c → answered n c data s s' →
  ∃ c', find_client n (clients s') = Some c' ∧ wrote data c c'.
Proof.
  intros Hc (_ & _ & c' & Hw & ->). exists c'. split; [|done].
  pose proof (find_client_num _ _ _ Hc) as Hn. destruct Hw as ([] & _).
  assert (n = num c') as -> by congruence. by apply (find_replace c' c).
Qed.

Lemma answered_trans n c c1 d1 d2 s s1 s2 : find_client n (clients s) = Some c →
  answered n c d1 s s1 → find_client n (clients s1) = Some c1 → answered n c1 d2 s1 s2 →
  answered n c (d1 ++ d2) s s2.
Proof.
  intros Hc H1 Hc1 (P2 & M2 & c2 & W2 & L2).
  destruct (answered_find _ _ _ _ _ Hc H1) as (c1' & Hc1' & W1). simplify_eq.
  destruct H1 as (P1 & M1 & c1'' & W1' & L1). split_and!; [congruence|congruence|].
  exists c2. split; [by eapply wrote_trans|]. rewrite L2, L1. apply replace_client_num.
  destruct W1' as ([] & _), W2 as ([] & _), W1 as ([] & _). congruence.
Qed.

Definition ack_line (r : Response) (code : ack) (msg : list Z) : list Z :=
  ack_head code r ++ msg ++ [10].

Lemma wp_Error n r code msg s c Q X : find_client n (clients s) = Some c →
  PeakBuffer.inv (output c) →
  (∀ s', answered n c (ack_line r code msg) s s' → Q tt s') → wp (Error n r code msg) Q X s.
Proof.
  intros Hc Hi HQ. unfold Error. apply wp_bind. eapply wp_write; [done|done|]. intros s1 H1.
  destruct (answered_find _ _ _ _ _ Hc H1) as (c1 & Hc1 & W1). apply wp_bind.
  eapply wp_write; [done|apply W1|]. intros s2 H2.
  pose proof (answered_trans _ _ _ _ _ _ _ _ Hc H1 Hc1 H2) as H12.
  destruct (answered_find _ _ _ _ _ Hc H12) as (c2 & Hc2 & W2).
  eapply wp_write; [done|apply W2|]. intros s3 H3. apply HQ. unfold ack_line.
  rewrite app_assoc. by eapply answered_trans.
Qed.

(** ** No handler runs unchecked *)

(** A program that leaves the partition alone and does not throw. *)
Definition quiet {A} (m : prog W A) : Prop :=
  ∀ s, match m s with Done _ s' => part s' = part s | Raised _ _ => False | Fail => True end.

Lemma quiet_ret {A} (a : A) : quiet (ret a).
Proof. done. Qed.

Lemma quiet_bind {A B} (m : prog W A) (k : A → prog W B) :
  quiet m → (∀ a, quiet (k a)) → quiet (bind m k).
Proof.
  intros Hm Hk s. unfold bind. specialize (Hm s). destruct (m s) as [a s1| |]; [|done|done].
  specialize (Hk a s1). destruct (k a s1); [congruence|done|done].
Qed.

Lemma quiet_write n data : quiet (write n data).
Proof.
  intros s. unfold write, on_client, client, bind, get, lift, put_client, modify.
  destruct (find_client n (clients s)) as [c|]; [|done]. by destruct (Write data c).
Qed.

Lemma quiet_Error n r code msg : quiet (Error n r code msg).
Proof.
  unfold Error. apply quiet_bind; [apply quiet_write|intros _].
  apply quiet_bind; [apply quiet_write|intros _]. apply quiet_write.
Qed.

Lemma quiet_reply {A} n r code msg (a : A) : quiet (Error n r code msg ;; ret a).
Proof. apply quiet_bind; [apply quiet_Error|]. intros _. apply quiet_ret. Qed.

(** The client may use the command, and the number of arguments is the declared one. *)
Definition authorised (c : command) (_permission : Z) (args : list (list Z)) : Prop :=
  Z.land _permission (CommandTable.permission c) = CommandTable.permission c ∧
  (0 ≤ min c → min c ≤ Z.of_nat (length args) ∧ (0 ≤ max c → Z.of_nat (length args) ≤ max c)).

Lemma check_request_ok c p args : command_check_request c p (length args) = None → authorised c p args.
Proof.
  unfold command_check_request, authorised.
  destruct (CommandTable.permission c =? Z.land p (CommandTable.permission c)) eqn:E1; simpl; [|done].
  split; [lia|]. intros Hmin. destruct (min c <? 0) eqn:E2; [lia|].
  destruct ((min c =? max c) && negb (max c =? Z.of_nat (length args))) eqn:E3; [done|].
  destruct (Z.of_nat (length args) <? min c) eqn:E4; [done|].
  destruct ((0 <=? max c) && (max c <? Z.of_nat (length args))) eqn:E5; [done|]. lia.
Qed.

(** C26: no command without permission.  Whatever line a client sends, [command_process]
    either leaves the playlist and the player as they were, or the line is a command of
    the table that the client's permissions include, with a number of arguments between
    the declared minimum and maximum. *)
Theorem command_process_guarded n num line s res s' :
  command_process n num line s = Done res s' →
  part s' = part s ∨
  ∃ name args c cl, parse_line line = Some (Parsed name args) ∧
    find_client n (clients s) = Some cl ∧ find_command commands name = Some c ∧
    authorised c (Client.permission cl) args.
Proof.
  assert (Hq : ∀ (m : prog W CommandResult) s0, quiet m → part s0 = part s →
    m s0 = Done res s' → part s' = part s).
  { intros m s0 Hm Heq H. specialize (Hm s0). rewrite H in Hm. congruence. }
  unfold command_process, try_catch. unfold bind at 1, lift at 1.
  destruct (parse_line line) as [p|]; [|done].
  assert (Hquiet : ∀ m : prog W CommandResult, quiet m →
    match m s with
    | Done a w => Done a w
    | Raised e w => (PrintError n (mkResponse num []) e ;; ret RESULT_ERROR) w
    | Fail => Fail
    end = Done res s' → part s' = part s).
  { intros m Hm H. pose proof (Hm s) as Hms. destruct (m s); simplify_eq; done. }
  destruct p as [| e| |e|name args].
  - intros H. left. by eapply Hquiet; [apply quiet_reply|].
  - intros H. left. by eapply Hquiet; [apply quiet_reply|].
  - intros H. left. by eapply Hquiet; [apply quiet_reply|].
  - intros H. left. by eapply Hq; [apply quiet_reply| |exact H].
  - unfold bind at 1, client at 1, bind at 1, get, lift at 1.
    destruct (find_client n (clients s)) as [cl|] eqn:Hcl; [|done].
    unfold command_checked_lookup. unfold bind at 1. unfold bind at 1. unfold lift at 1.
    rewrite command_lookup_correct. destruct (find_command commands name) as [c|] eqn:Hfind.
    + destruct (command_check_request c (Client.permission cl) (length args)) as [e|] eqn:Echk.
      * destruct (request_error_text e c) as [code text]. intros H. left.
        eapply (Hquiet ((Error n (SetCommand (cmd c) (mkResponse num [])) code text ;;
          ret RESULT_ERROR))); [apply quiet_reply|]. rewrite <-H. unfold bind.
        by destruct (Error n (SetCommand (cmd c) (mkResponse num [])) code text s).
      * intros _. right. exists name, args, c, cl. split_and!; [done|done|done|].
        by apply check_request_ok.
    + intros H. left.
      eapply (Hquiet ((Error n (mkResponse num []) ACK_ERROR_UNKNOWN
        (str "unknown command " ++ quoted name) ;; ret RESULT_ERROR))); [apply quiet_reply|].
      rewrite <-H. unfold bind. by destruct (Error n (mkResponse num []) ACK_ERROR_UNKNOWN _ s).
Qed.

(** ** The playlist commands *)

Import PlaylistControl PlaylistSystem.

(** What a playlist command asks of the playlist: one of its requests, or to skip to the
    next song whatever the single mode. *)
Inductive call := Request (req : request) | SkipNext.

Definition with_single (b : bool) (w : Playlist.world G T) : Playlist.world G T :=
  Playlist.mkWorld (Playlist.put_queue (Queue.set_single (Playlist.queue (Playlist.pl w)) b)
    (Playlist.pl w)) (Playlist.player w) (Playlist.events w).

(** Single mode is off during the call and afterwards what it was before, error or not. *)
Definition run_call (c : call) (w : Playlist.world G T) : result (Playlist.world G T) unit :=
  let restore := with_single (Queue.single (Playlist.queue (Playlist.pl w))) in
  match c with
  | Request req => PlaylistSystem.handle req w
  | SkipNext =>
      match PlaylistSystem.handle Next (with_single false w) with
      | Done _ w' => Done tt (restore w')
      | Raised e w' => Raised e (restore w')
      | Fail => Fail
      end
  end.

(** The calls one after the other, up to the first error: one in an argument or one of
    the playlist. *)
Fixpoint run_calls (ds : list (Prelude.outcome exn call)) (w : Playlist.world G T)
    : result (Playlist.world G T) unit :=
  match ds with
  | [] => Done tt w
  | Ret c :: ds =>
      match run_call c w with
      | Done _ w' => run_calls ds w'
      | r => r
      end
  | Throw e :: _ => Raised e w
  | Abort :: _ => Fail
  end.

(** The calls a playlist command makes, or the error in its arguments. *)
Definition decode (h : handler) (args : list (list Z))
    : option (list (Prelude.outcome exn call)) :=
  match h with
  | HANDLE_DELETE => Some [r ← ParseRange args 0;
      Ret (Request (Edit (EDeleteRange (Z.to_nat (start r)) (Z.to_nat (end_ r)))))]%stdpp
  | HANDLE_DELETEID => Some [i ← ParseUnsigned args 0; Ret (Request (Edit (EDeleteId (Z.to_nat i))))]%stdpp
  | HANDLE_SHUFFLE => Some [r ← ParseOptional_range args 0 All;
      Ret (Request (Edit (EShuffle (Z.to_nat (start r)) (Z.to_nat (end_ r)))))]%stdpp
  | HANDLE_CLEAR => Some [Ret (Request (Edit EClear))]
  | HANDLE_MOVE => Some [r ← ParseRange args 0; to ← ParseInt args 1;
      Ret (Request (Edit (EMoveRange (Z.to_nat (start r)) (Z.to_nat (end_ r)) to)))]%stdpp
  | HANDLE_MOVEID => Some [i ← ParseUnsigned args 0; to ← ParseInt args 1;
      Ret (Request (Edit (EMoveId (Z.to_nat i) to)))]%stdpp
  | HANDLE_SWAP => Some [a ← ParseUnsigned args 0; b ← ParseUnsigned args 1;
      Ret (Request (Edit (ESwapPositions (Z.to_nat a) (Z.to_nat b))))]%stdpp
  | HANDLE_SWAPID => Some [a ← ParseUnsigned args 0; b ← ParseUnsigned args 1;
      Ret (Request (Edit (ESwapIds (Z.to_nat a) (Z.to_nat b))))]%stdpp
  | HANDLE_PLAY => Some [p ← ParseOptional_int args 0 (-1); Ret (Request (PlayPos p))]%stdpp
  | HANDLE_PLAYID => Some [p ← ParseOptional_int args 0 (-1); Ret (Request (PlaySongId p))]%stdpp
  | HANDLE_STOP => Some [Ret (Request StopPlayback)]
  | HANDLE_NEXT => Some [Ret SkipNext]
  | HANDLE_PREVIOUS => Some [Ret (Request Previous)]
  | HANDLE_REPEAT => Some [b ← ParseBool args 0; Ret (Request (Edit (ESetRepeat b)))]%stdpp
  | HANDLE_SINGLE => Some [b ← ParseBool args 0; Ret (Request (Edit (ESetSingle b)))]%stdpp
  | HANDLE_CONSUME => Some [b ← ParseBool args 0; Ret (Request (Edit (ESetConsume b)))]%stdpp
  | HANDLE_PRIO =>
      Some match ParseUnsigned_max args 0 255 with
           | Ret p => (λ a, r ← ParseCommandArgRange a;
               Ret (Request (Edit (ESetPriorityRange (Z.to_nat (start r)) (Z.to_nat (end_ r)) p))))
               <$> tail args
           | Throw e => [Throw e]
           | Abort => [Abort]
           end%stdpp
  | HANDLE_PRIOID =>
      Some match ParseUnsigned_max args 0 255 with
           | Ret p => (λ a, i ← ParseCommandArgUnsigned a;
               Ret (Request (Edit (ESetPriorityId (Z.to_nat i) p)))) <$> tail args
           | Throw e => [Throw e]
           | Abort => [Abort]
           end%stdpp
  | _ => None
  end.

(** The number of arguments a handler accesses without looking. *)
Definition needed (h : handler) : Z :=
  match h with
  | HANDLE_MOVE | HANDLE_MOVEID | HANDLE_SWAP | HANDLE_SWAPID => 2
  | HANDLE_DELETE | HANDLE_DELETEID | HANDLE_REPEAT | HANDLE_SINGLE | HANDLE_CONSUME
  | HANDLE_PRIO | HANDLE_PRIOID => 1
  | _ => 0
  end.

(** The outcome of the calls as the outcome of a handler. *)
Definition handled (r : result (Playlist.world G T) unit) s : result W CommandResult :=
  match r with
  | Done _ v => Done RESULT_OK (mkServer v (clients s) (pending_mask s))
  | Raised e v => Raised e (mkServer v (clients s) (pending_mask s))
  | Fail => Fail
  end.

Lemma server_eta s : mkServer (part s) (clients s) (pending_mask s) = s.
Proof. by destruct s. Qed.

Lemma prio_calls {A} (parser : list Z → Prelude.outcome exn A) (mk : A → request)
    (loop : list (list Z) → prog W unit) (Hnil : loop [] = ret tt)
    (Hcons : ∀ i args, loop (i :: args)
      = (a <- parse (parser i) ;; on_playlist (PlaylistSystem.handle (mk a)) ;; loop args)) args : ∀ s,
  (loop args ;; OK) s
  = handled (run_calls ((λ a, (x ← parser a; Ret (Request (mk x)))%stdpp) <$> args) (part s)) s.
Proof.
  induction args as [|a args IH]; intros s.
  { rewrite Hnil. cbn [fmap list_fmap run_calls handled]. by rewrite server_eta. }
  rewrite Hcons. cbn [fmap list_fmap run_calls].
  destruct (parser a) as [x|e|]; cbn [mbind outcome_bind parse run_call].
  - unfold bind at 1, bind at 1, ret at 1, bind at 1, on_playlist at 1, zoom.
    destruct (PlaylistSystem.handle (mk x) (part s)) as [[] v|e v|]; [|done|done].
    apply (IH (mkServer v (clients s) (pending_mask s))).
  - cbn [handled]. by rewrite server_eta.
  - done.
Qed.

Lemma single_call (d : Prelude.outcome exn request) s :
  (req <- parse d ;; on_playlist (PlaylistSystem.handle req) ;; OK) s
  = handled (run_calls [(r ← d; Ret (Request r))%stdpp] (part s)) s.
Proof.
  destruct d as [req|e|]; cbn [mbind outcome_bind parse run_calls run_call].
  - unfold bind, ret, on_playlist, zoom. by destruct (PlaylistSystem.handle req (part s)) as [[] v|e v|].
  - cbn [handled]. by rewrite server_eta.
  - done.
Qed.

Lemma run_next s : handle_next s = handled (run_calls [Ret SkipNext] (part s)) s.
Proof.
  unfold handle_next, put_single, Playlist.upd_pl, on_playlist, zoom, modify, bind, get, try_catch,
    throw, OK, ret.
  cbn [run_calls run_call part].
  change (PlaylistSystem.handle (G:=G) (T:=T) Next) with (Playlist.PlayNext (G:=G) (T:=T)).
  unfold with_single.
  match goal with |- context [Playlist.PlayNext ?w] => destruct (Playlist.PlayNext w) as [[] v|e v|] end;
    reflexivity.
Qed.

(** One call: parse the arguments, then the two sides are the same run. *)
Ltac one_call :=
  repeat match goal with
  | |- context [@mbind (Prelude.outcome exn) _ _ _ _ ?q] => destruct q; cbn [mbind outcome_bind parse]
  end;
  cbn [run_calls run_call PlaylistSystem.handle PlaylistSystem.run_edit handled parse];
  unfold bind, ret, OK, throw, abort, on_playlist, zoom;
  try done; try (by rewrite server_eta);
  try match goal with
  | |- context [match ?m with Done _ _ => _ | Raised _ _ => _ | Fail => _ end] =>
      by destruct m as [[] ?|? ?|]
  end.

Lemma run_decoded h n args r ds s : decode h args = Some ds →
  run_handler h n args r s = handled (run_calls ds (part s)) s.
Proof.
  intros Hd. destruct h; cbn [decode] in Hd; try discriminate Hd; injection Hd as <-;
    cbn [run_handler];
    unfold handle_delete, handle_deleteid, handle_shuffle, handle_move, handle_moveid, handle_swap,
      handle_swapid, handle_play, handle_playid, handle_repeat, handle_single, handle_consume,
      handle_prio, handle_prioid, handle_clear, handle_stop, handle_previous;
    lazymatch goal with
    | |- context [handle_next] => apply run_next
    | |- context [ParseUnsigned_max args 0 255] =>
        destruct (ParseUnsigned_max args 0 255) as [p|e|]; cbn [parse];
          [unfold bind at 1, ret at 1|cbn [run_calls handled]; by rewrite server_eta|done]
    | _ => one_call
    end.
  - by apply (prio_calls ParseCommandArgRange (λ x, Edit (ESetPriorityRange (Z.to_nat (start x)) (Z.to_nat (end_ x)) p)) (prio_loop p)).
  - by apply (prio_calls ParseCommandArgUnsigned (λ x, Edit (ESetPriorityId (Z.to_nat x) p)) (prioid_loop p)).
Qed.

Lemma arg_total {A} (f : list Z → Prelude.outcome exn A) (args : list (list Z)) idx :
  (∀ x, f x ≠ Abort) → (idx < length args)%nat → arg f args idx ≠ Abort.
Proof.
  intros Hf Hi. destruct (lookup_lt_is_Some_2 args idx Hi) as [x Hx]. unfold arg. rewrite Hx.
  apply Hf.
Qed.

Lemma parses_total {A} (r : Prelude.outcome exn A) P : parses r P → r ≠ Abort.
Proof. by intros H ->. Qed.

(** The arguments are parsed without a failed assertion, and the priorities are bytes. *)
Definition call_ok (d : Prelude.outcome exn call) : Prop :=
  match d with
  | Ret (Request (Edit (ESetPriorityRange _ _ p))) | Ret (Request (Edit (ESetPriorityId _ p))) =>
      0 ≤ p ≤ 255
  | Abort => False
  | _ => True
  end.

(** A command with several calls only sets priorities. *)
Definition priority_call (d : Prelude.outcome exn call) : Prop :=
  match d with
  | Ret (Request (Edit (ESetPriorityRange _ _ _))) | Ret (Request (Edit (ESetPriorityId _ _)))
  | Throw _ => True
  | _ => False
  end.

Lemma priority_calls_ok {A} (parser : list Z → Prelude.outcome exn A) (mk : A → Z → edit) args :
  1 ≤ Z.of_nat (length args) → (∀ x, parser x ≠ Abort) →
  (∀ a p, 0 ≤ p ≤ 255 → call_ok (Ret (Request (Edit (mk a p)))) ∧
     priority_call (Ret (Request (Edit (mk a p))))) →
  let ds := match ParseUnsigned_max args 0 255 with
            | Ret p => (λ a, (x ← parser a; Ret (Request (Edit (mk x p))))%stdpp) <$> tail args
            | Throw e => [Throw e]
            | Abort => [Abort]
            end in
  Forall call_ok ds ∧ ((∃ d, ds = [d]) ∨ Forall priority_call ds).
Proof.
  intros Hn Hp Hmk ds. subst ds. destruct args as [|a args]; [simpl in Hn; lia|].
  unfold ParseUnsigned_max, arg. cbn [lookup list_lookup tail of_option mbind outcome_bind].
  pose proof (ParseCommandArgUnsigned_max_ok a 255) as Hu.
  destruct (ParseCommandArgUnsigned_max a 255) as [p|e|]; [|split; [by apply Forall_singleton|left; by eexists]|done].
  assert (Hall : ∀ d, d ∈ ((λ a, (x ← parser a; Ret (Request (Edit (mk x p))))%stdpp) <$> args) →
    call_ok d ∧ priority_call d).
  { intros d (b & -> & _)%list_elem_of_fmap. pose proof (Hp b).
    destruct (parser b) as [x|e|]; cbn [mbind outcome_bind]; [apply Hmk; apply Hu|done|done]. }
  split; [|right]; apply Forall_forall; intros d Hd; by apply Hall.
Qed.

Lemma decode_ok h args ds : decode h args = Some ds → needed h ≤ Z.of_nat (length args) →
  Forall call_ok ds ∧ ((∃ d, ds = [d]) ∨ Forall priority_call ds).
Proof.
  assert (HR : ∀ i, (i < length args)%nat → ParseRange args i ≠ Abort).
  { intros i. apply arg_total. intros x. eapply parses_total, ParseCommandArgRange_range. }
  assert (HU : ∀ i, (i < length args)%nat → ParseUnsigned args i ≠ Abort).
  { intros i. apply arg_total. intros x. eapply parses_total, ParseCommandArgUnsigned_max_ok. }
  assert (HI : ∀ i, (i < length args)%nat → ParseInt args i ≠ Abort).
  { intros i. apply arg_total. intros x. eapply parses_total, ParseCommandArgInt_range_ok. }
  assert (HB : ∀ i, (i < length args)%nat → ParseBool args i ≠ Abort).
  { intros i. apply arg_total. intros x. eapply parses_total, ParseCommandArgBool_ok. }
  intros Hd Hn. destruct h; cbn [decode needed] in Hd, Hn; try discriminate Hd; injection Hd as <-;
    lazymatch goal with
    | |- context [ParseUnsigned_max] => idtac
    | _ => split; [|left; by eexists]; apply Forall_singleton
    end;
    try done; unfold ParseOptional_range, ParseOptional_int;
    repeat match goal with
    | |- context [if ?b then _ else _] => destruct b eqn:?
    end; try done;
    repeat match goal with
    | |- context [ParseRange args ?i] =>
        pose proof (HR i ltac:(lia)); destruct (ParseRange args i); cbn [mbind outcome_bind]
    | |- context [ParseUnsigned args ?i] =>
        pose proof (HU i ltac:(lia)); destruct (ParseUnsigned args i); cbn [mbind outcome_bind]
    | |- context [ParseInt args ?i] =>
        pose proof (HI i ltac:(lia)); destruct (ParseInt args i); cbn [mbind outcome_bind]
    | |- context [ParseBool args ?i] =>
        pose proof (HB i ltac:(lia)); destruct (ParseBool args i); cbn [mbind outcome_bind]
    end; try done.
  - by apply priority_calls_ok; [lia|intros x; eapply parses_total, ParseCommandArgRange_range|].
  - by apply priority_calls_ok; [lia|intros x; eapply parses_total, ParseCommandArgUnsigned_max_ok|].
Qed.

(** The table declares at least the arguments the handlers access. *)
Lemma table_arity name c : find_command commands name = Some c →
  needed (CommandTable.handle c) ≤ min c ∨ needed (CommandTable.handle c) = 0.
Proof.
  assert (H : forallb (λ c, (needed (CommandTable.handle c) <=? min c)
    || (needed (CommandTable.handle c) =? 0)) commands = true) by (vm_compute; reflexivity).
  unfold find_command. intros ([i c'] & (Hi & _ & _)%list_find_Some & ->)%fmap_Some.
  rewrite forallb_forall in H. apply list_elem_of_lookup_2, list_elem_of_In in Hi.
  specialize (H _ Hi). simpl. lia.
Qed.

Lemma authorised_arity name c p args : find_command commands name = Some c →
  authorised c p args → needed (CommandTable.handle c) ≤ Z.of_nat (length args).
Proof.
  intros Hf [_ Ha]. destruct (table_arity name c Hf) as [H|H]; [|lia].
  destruct (decide (0 ≤ min c)) as [Hm|Hm]; [destruct (Ha Hm); lia|]. lia.
Qed.

Lemma with_single_good b w : good w → good (with_single b w).
Proof.
  intros [its Hi]. exists its.
  destruct (PlaylistOptions.set_option_inv w its (λ q, Queue.set_single q b) Hi) as [Hi1 _]; try done.
  intros q its' Hr. by eapply PlaylistOptions.repr_flags.
Qed.

Lemma run_call_ok c w : good w →
  match c with Request req => admissible req w = true | SkipNext => True end →
  match run_call c w with Done _ w' | Raised _ w' => good w' | Fail => False end.
Proof.
  intros Hg Ha. destruct c as [req|]; cbn [run_call].
  - exact (PlaylistSystem.handle_ok w req Hg Ha).
  - pose proof (PlaylistSystem.handle_ok (with_single false w) Next
      (with_single_good false w Hg) eq_refl) as H. unfold wp in H.
    destruct (PlaylistSystem.handle Next (with_single false w)); [by apply with_single_good..|done].
Qed.

Lemma run_priority_calls_ok ds : ∀ w, good w → Forall call_ok ds → Forall priority_call ds →
  match run_calls ds w with Done _ w' | Raised _ w' => good w' | Fail => False end.
Proof.
  induction ds as [|d ds IH]; intros w Hg Hc Hp; [done|].
  apply Forall_cons in Hc as [Hd Hc]. apply Forall_cons in Hp as [Hpd Hp].
  destruct d as [c|e|]; cbn [run_calls]; [|done|done].
  pose proof (run_call_ok c w Hg) as H. destruct c as [[[]| | | | | | | | | | |]|]; try done;
    (lapply H; [clear H; intros H|cbn [call_ok] in Hd; cbn [admissible admissible_edit]; lia]);
    destruct (run_call _ w) as [[] w'|e w'|]; done || by apply IH.
Qed.

(** C15: a playlist command makes exactly the calls its arguments name, safely.  This is about
    the commands delete, deleteid, shuffle, clear, move, moveid, swap, swapid, play,
    playid, stop, next, previous, repeat, single, consume, prio and prioid, sent by an
    authorised client.  The calls are run in order up to the first error: a malformed
    argument (nothing is done for it) or an error of the playlist; [prio] and [prioid]
    make one call per argument behind the priority, and [next] skips with single mode
    switched off and puts the mode back, error or not.  Provided the one request of the
    other commands is admissible, no assertion fails and the playlist invariant holds
    again; success is returned, or the error is sent to the client as an ACK line. *)
Theorem playlist_command_safe n num line name args c cl ds s :
  parse_line line = Some (Parsed name args) →
  find_client n (clients s) = Some cl → PeakBuffer.inv (output cl) →
  find_command commands name = Some c →
  command_check_request c (Client.permission cl) (length args) = None →
  decode (CommandTable.handle c) args = Some ds →
  good (part s) → (∀ req, ds = [Ret (Request req)] → admissible req (part s) = true) →
  match command_process n num line s with
  | Done RESULT_OK s' => run_calls ds (part s) = Done tt (part s') ∧ good (part s') ∧
      clients s' = clients s
  | Done RESULT_ERROR s' => ∃ e s1, run_calls ds (part s) = Raised e (part s') ∧ good (part s') ∧
      answered n cl (ack_line (mkResponse num []) (ToAck e) (what e)) s1 s' ∧
      clients s1 = clients s
  | _ => False
  end.
Proof.
  intros Hline Hcl Hout Hc Hchk Hdec Hgood Hadm.
  assert (Hrun : command_process n num line s =
    try_catch (λ s, handled (run_calls ds (part s)) s)
      (λ e, PrintError n (mkResponse num []) e ;; ret RESULT_ERROR) s).
  { unfold command_process, try_catch, command_checked_lookup, client, bind, lift, get, ret.
    rewrite Hline, Hcl, command_lookup_correct, Hc, Hchk.
    rewrite (run_decoded _ _ _ _ _ _ Hdec). unfold bind, ret. done. }
  assert (Hok : match run_calls ds (part s) with
                | Done _ w' | Raised _ w' => good w' | Fail => False end).
  { destruct (decode_ok _ _ _ Hdec) as [Hcalls [[d ->]|Hp]].
    - eapply authorised_arity; [done|]. by apply check_request_ok.
    - apply Forall_cons in Hcalls as [Hcalls _]. destruct d as [cc|e|]; cbn [run_calls]; [|done|destruct Hcalls].
      assert (Ha : match cc with Request req => admissible req (part s) = true | SkipNext => True end)
        by (destruct cc; auto).
      pose proof (run_call_ok cc (part s) Hgood Ha) as H.
      by destruct (run_call cc (part s)) as [[] w'|e w'|].
    - by apply run_priority_calls_ok. }
  rewrite Hrun. unfold try_catch. destruct (run_calls ds (part s)) as [[] v|e v|]; [| |done];
    cbn [handled]; [done|].
  set (s1 := mkServer v (clients s) (pending_mask s)).
  assert (Hwp : wp (PrintError n (mkResponse num []) e)
    (λ _ s', answered n cl (ack_line (mkResponse num []) (ToAck e) (what e)) s1 s')
    (λ _ _, False) s1) by (by apply wp_Error with (c := cl)).
  unfold bind. unfold wp in Hwp. destruct (PrintError n (mkResponse num []) e s1) as [[] s'| |];
    [|done|done]. cbn [ret]. destruct Hwp as (Hp & Hm & Hw). exists e, s1.
  rewrite Hp. by split_and!.
Qed.

(** ** Command lists *)

(** The lines of a client, one after the other as long as they are accepted. *)
Fixpoint feed (n : nat) (lines : list (list Z)) : prog W CommandResult :=
  match lines with
  | [] => ret RESULT_OK
  | l :: lines =>
      r <- client_process_line n l ;;
      if decide (r = RESULT_OK) then feed n lines else ret r
  end.

Definition list_begin (ok : bool) : list Z :=
  if ok then CLIENT_LIST_OK_MODE_BEGIN else CLIENT_LIST_MODE_BEGIN.
Definition list_mode (ok : bool) : CommandListBuilder.Mode :=
  if ok then CommandListBuilder.MODE_OK else CommandListBuilder.MODE_ENABLED.

(** The size of a command list as [CommandListBuilder] counts it. *)
Definition list_size (ls : list (list Z)) : nat := foldr (λ l k, (length l + 1 + k)%nat) 0%nat ls.

(** Client [n] with the commands [ls] collected so far. *)
Definition collected (ok : bool) (ls : list (list Z)) (c : Client) s : W :=
  mkServer (part s)
    (replace_client (put_cmd_list (CommandListBuilder.mk (list_mode ok) ls (list_size ls)) c)
       (clients s)) (pending_mask s).

Lemma list_size_snoc ls l : list_size (ls ++ [l]) = (list_size ls + (length l + 1))%nat.
Proof. induction ls as [|x ls IH]; simpl; [lia|]. rewrite IH. lia. Qed.

Lemma list_size_app l1 l2 : list_size (l1 ++ l2) = (list_size l1 + list_size l2)%nat.
Proof. induction l1 as [|x l1 IH]; simpl; [lia|]. rewrite IH. lia. Qed.

Lemma find_collected n ok ls c s : find_client n (clients s) = Some c →
  find_client n (clients (collected ok ls c s))
  = Some (put_cmd_list (CommandListBuilder.mk (list_mode ok) ls (list_size ls)) c).
Proof.
  intros Hc. pose proof (find_client_num _ _ _ Hc) as <-.
  by apply (find_replace (put_cmd_list _ c) c).
Qed.

Lemma list_mode_active ok ls k : CommandListBuilder.IsActive (CommandListBuilder.mk (list_mode ok) ls k) = true.
Proof. by destruct ok. Qed.

Definition list_line (l : list Z) : Prop := l ≠ CLIENT_LIST_MODE_END ∧ l ≠ str "noidle".

(** Collecting one line. *)
Lemma collect_line n ok ls l c s : find_client n (clients s) = Some c →
  idle_waiting c = false → list_line l →
  (list_size (ls ++ [l]) ≤ client_max_command_list_size)%nat →
  client_process_line n l (collected ok ls c s) = Done RESULT_OK (collected ok (ls ++ [l]) c s).
Proof.
  intros Hc Hw [Hend Hno] Hsize. rewrite list_size_snoc in Hsize.
  unfold client_process_line, client, bind, get, lift. rewrite (find_collected n ok ls c s Hc).
  unfold CString.streq. rewrite (bool_decide_false (l = str "noidle")) by done.
  cbn [idle_waiting put_cmd_list cmd_list]. rewrite Hw, list_mode_active.
  rewrite bool_decide_false by done. unfold CommandListBuilder.Add.
  cbn [CommandListBuilder.size CommandListBuilder.mode CommandListBuilder.commands].
  rewrite (proj2 (Nat.ltb_ge _ _)) by done.
  unfold put_client, modify, OK, ret, collected. f_equal. f_equal.
  rewrite list_size_snoc. cbn [clients].
  by apply (replace_client_num (put_cmd_list _ c) (put_cmd_list _ c)).
Qed.

Lemma collect_lines n ok ls2 : ∀ ls1 c s, find_client n (clients s) = Some c →
  idle_waiting c = false → Forall list_line ls2 →
  (list_size (ls1 ++ ls2) ≤ client_max_command_list_size)%nat →
  feed n ls2 (collected ok ls1 c s) = Done RESULT_OK (collected ok (ls1 ++ ls2) c s).
Proof.
  induction ls2 as [|l ls2 IH]; intros ls1 c s Hc Hw Hl Hsize.
  { by rewrite app_nil_r. }
  apply Forall_cons in Hl as [Hl1 Hl2]. cbn [feed]. unfold bind at 1.
  rewrite (collect_line n ok ls1 l c s Hc Hw Hl1).
  - rewrite decide_True by done. replace (ls1 ++ l :: ls2) with ((ls1 ++ [l]) ++ ls2) in *
      by (by rewrite <-app_assoc). by apply IH.
  - rewrite list_size_app in *. simpl in *. lia.
Qed.

Lemma begin_list n ok c s : find_client n (clients s) = Some c →
  idle_waiting c = false → CommandListBuilder.mode (cmd_list c) = CommandListBuilder.MODE_DISABLED →
  CommandListBuilder.commands (cmd_list c) = [] →
  client_process_line n (list_begin ok) s = Done RESULT_OK (collected ok [] c s).
Proof.
  intros Hc Hw Hm Hcmds. unfold client_process_line, client, bind, get, lift. rewrite Hc.
  assert (CString.streq (list_begin ok) (str "noidle") = false) as -> by (by destruct ok).
  rewrite Hw. unfold CommandListBuilder.IsActive. rewrite Hm, bool_decide_true by done. cbn [negb].
  destruct ok.
  - assert (CString.streq (list_begin true) CLIENT_LIST_MODE_BEGIN = false) as -> by done.
    assert (CString.streq (list_begin true) CLIENT_LIST_OK_MODE_BEGIN = true) as -> by done.
    unfold CommandListBuilder.Begin. rewrite Hm, Hcmds, !check_bind by done. done.
  - assert (CString.streq (list_begin false) CLIENT_LIST_MODE_BEGIN = true) as -> by done.
    unfold CommandListBuilder.Begin. rewrite Hm, Hcmds, !check_bind by done. done.
Qed.

Lemma on_client_find n (f : Client → Client) s s' : (∀ c, num (f c) = num c) →
  on_client n (λ c, Some (f c)) s = Done tt s' →
  ∃ c, find_client n (clients s') = Some (f c).
Proof.
  intros Hf. unfold on_client, client, bind, get, lift, put_client, modify.
  destruct (find_client n (clients s)) as [c|] eqn:Hc; [|done]. intros [= <-]. exists c.
  pose proof (find_client_num _ _ _ Hc) as Hn. cbn [clients].
  replace n with (num (f c)) by (rewrite Hf; done).
  apply (find_replace (f c) c). by rewrite Hf, Hn.
Qed.

Lemma finish_command_reset n r s r' s' : finish_command n r true s = Done r' s' →
  r' = RESULT_CLOSE ∨ ∃ c, find_client n (clients s') = Some c ∧
    CommandListBuilder.mode (cmd_list c) = CommandListBuilder.MODE_DISABLED ∧
    CommandListBuilder.commands (cmd_list c) = [].
Proof.
  unfold finish_command. unfold bind at 1, client at 1, bind at 1, get, lift.
  destruct (find_client n (clients s)) as [c|]; [|done].
  destruct (bool_decide (r = RESULT_CLOSE) || expired c); [intros [= <- _]; by left|].
  unfold bind at 1. destruct ((if bool_decide (r = RESULT_OK) then command_success n else ret tt) s)
    as [[] s1| |]; [|done|done].
  unfold bind at 1. destruct (on_client n _ s1) as [[] s2| |] eqn:E; [|done|done].
  intros [= <- <-]. right. destruct (on_client_find n
    (λ c, put_cmd_list (CommandListBuilder.Reset (cmd_list c)) c) s1 s2) as (c2 & H); [done|done|].
  by eexists.
Qed.

Lemma closing_line n ok ls c s : find_client n (clients s) = Some c → idle_waiting c = false →
  client_process_line n CLIENT_LIST_MODE_END (collected ok ls c s)
  = (r <- client_process_command_list n ok 0 ls RESULT_OK ;; finish_command n r true)
      (collected ok ls c s).
Proof.
  intros Hc Hw. unfold client_process_line. unfold bind at 1, client at 1, bind at 1, get, lift at 1.
  rewrite (find_collected n ok ls c s Hc).
  assert (CString.streq CLIENT_LIST_MODE_END (str "noidle") = false) as -> by done.
  cbn [idle_waiting put_cmd_list cmd_list]. rewrite Hw, list_mode_active.
  assert (CString.streq CLIENT_LIST_MODE_END CLIENT_LIST_MODE_END = true) as -> by done.
  unfold CommandListBuilder.Commit, CommandListBuilder.IsOKMode.
  rewrite list_mode_active, !check_bind by done. unfold lift, bind at 1. cbn [CommandListBuilder.commands].
  unfold bind at 1. by destruct ok.
Qed.

(** What a command list does, command by command: an unsuccessful command, or one after
    which the connection is broken, is the last one; after a successful one the line
    [list_OK] is sent if the client asked for it. *)
Inductive runs_list (n : nat) (ok : bool) :
    nat → list (list Z) → W → CommandResult → W → Prop :=
| runs_nil num s : runs_list n ok num [] s RESULT_OK s
| runs_next num l ls s s1 s2 s3 r c :
    command_process n num l s = Done RESULT_OK s1 →
    find_client n (clients s1) = Some c → expired c = false →
    (if ok then write n (str "list_OK" ++ [10]) s1 = Done tt s2 else s2 = s1) →
    runs_list n ok (S num) ls s2 r s3 →
    runs_list n ok num (l :: ls) s r s3
| runs_stop num l ls s s1 r c :
    command_process n num l s = Done r s1 →
    find_client n (clients s1) = Some c → (r ≠ RESULT_OK ∨ expired c = true) →
    runs_list n ok num (l :: ls) s r s1.

(** What follows the list: a client to be closed, or whose connection is broken, is
    closed; otherwise [OK] is sent if every command succeeded, and the list is emptied. *)
Inductive ends_list (n : nat) : CommandResult → W → CommandResult → W → Prop :=
| ends_close r s c : find_client n (clients s) = Some c →
    r = RESULT_CLOSE ∨ expired c = true → ends_list n r s RESULT_CLOSE s
| ends_open r s s1 s2 c : find_client n (clients s) = Some c →
    r ≠ RESULT_CLOSE → expired c = false →
    (r = RESULT_OK → write n (str "OK" ++ [10]) s = Done tt s1) →
    (r ≠ RESULT_OK → s1 = s) →
    on_client n (λ c, Some (put_cmd_list (CommandListBuilder.Reset (cmd_list c)) c)) s1
      = Done tt s2 →
    ends_list n r s r s2.

Lemma runs_list_iff n ok ls : ∀ num s r s',
  client_process_command_list n ok num ls RESULT_OK s = Done r s' ↔ runs_list n ok num ls s r s'.
Proof.
  induction ls as [|l ls IH]; intros num s r s'; cbn [client_process_command_list].
  { split; [intros [= <- <-]; constructor|by inversion 1]. }
  unfold bind at 1. split.
  - destruct (command_process n num l s) as [r1 s1| |] eqn:E1; [|done|done].
    unfold bind at 1, client, bind at 1, get, lift.
    destruct (find_client n (clients s1)) as [c|] eqn:Hc; [|done].
    destruct (negb (bool_decide (r1 = RESULT_OK)) || expired c) eqn:Est.
    { intros [= <- <-]. eapply runs_stop; [done|done|]. destruct (expired c); [by right|left].
      by destruct r1. }
    apply orb_false_iff in Est as [H1 He]. destruct r1; try done.
    unfold bind at 1. destruct ok.
    + destruct (write n _ s1) as [[] s2| |] eqn:Ew; [|done|done]. intros H.
      eapply runs_next; [done|done|done|exact Ew|by apply IH].
    + intros H. eapply runs_next; [done|done|done|done|by apply IH].
  - intros Hr. inversion Hr as [|? ? ? ? s1 s2 ? ? c E1 Hc He Hw Hrest|? ? ? ? ? ? c E1 Hc Hst]; subst;
      rewrite E1; unfold bind at 1, client, bind at 1, get, lift; rewrite Hc.
    + rewrite He, bool_decide_true by done. cbn [negb orb]. apply IH in Hrest. unfold bind at 1. destruct ok.
      * by rewrite Hw.
      * by subst s2.
    + replace (negb (bool_decide (r = RESULT_OK)) || expired c) with true; [done|].
      destruct Hst as [Hst| ->]; [by rewrite bool_decide_false|by rewrite orb_true_r].
Qed.

Lemma ends_list_iff n r s r' s' :
  finish_command n r true s = Done r' s' ↔ ends_list n r s r' s'.
Proof.
  unfold finish_command. unfold bind at 1, client at 1, bind at 1, get, lift. split.
  - destruct (find_client n (clients s)) as [c|] eqn:Hc; [|done].
    destruct (bool_decide (r = RESULT_CLOSE) || expired c) eqn:Ec.
    { intros [= <- <-]. eapply ends_close; [done|]. destruct (expired c); [by right|left].
      by destruct r. }
    apply orb_false_iff in Ec as [Hr%bool_decide_eq_false He]. unfold bind at 1.
    destruct (bool_decide (r = RESULT_OK)) eqn:Eok; unfold bind at 1.
    + apply bool_decide_eq_true in Eok as ->. unfold command_success.
      destruct (write n _ s) as [[] s1| |] eqn:Ew; [|done|done].
      destruct (on_client n _ s1) as [[] s2| |] eqn:Eo; [|done|done]. intros [= <- <-].
      by eapply ends_open.
    + apply bool_decide_eq_false in Eok. unfold ret at 1.
      destruct (on_client n _ s) as [[] s2| |] eqn:Eo; [|done|done]. intros [= <- <-].
      by eapply ends_open.
  - inversion 1 as [? ? c Hc Hor|? ? s1 s2 c Hc Hr He Hok Hno Ho]; subst; rewrite Hc.
    + replace (bool_decide (r = RESULT_CLOSE) || expired c) with true; [done|].
      destruct Hor as [Hr| ->]; [by rewrite bool_decide_true|by rewrite orb_true_r].
    + rewrite bool_decide_false, He by done. unfold bind at 1.
      destruct (decide (r' = RESULT_OK)) as [->|Hne].
      * rewrite bool_decide_true by done. unfold command_success. cbn [orb]. rewrite Hok by done.
        unfold bind. by rewrite Ho.
      * rewrite bool_decide_false by done. unfold ret at 2. cbn [orb]. rewrite (Hno Hne) in Ho.
        unfold bind. by rewrite Ho.
Qed.

(** C27: a command list runs at its end, in order.  From the moment a client opens a command
    list, every line is only collected: nothing is executed, no other client is touched
    and nothing is sent.  The closing line then runs the collected commands in the order
    in which they were sent, numbered from zero: each only after the one before it
    succeeded ([list_OK] is sent in between if asked for), and none behind the first that
    does not succeed or that breaks the connection.  Then [OK] is sent if all succeeded;
    unless the connection is closed the client is out of list mode afterwards. *)
Theorem command_list_correct n ok ls c s :
  find_client n (clients s) = Some c → client_ok c → idle_waiting c = false →
  CommandListBuilder.mode (cmd_list c) = CommandListBuilder.MODE_DISABLED →
  Forall list_line ls → (list_size ls ≤ client_max_command_list_size)%nat →
  let s1 := collected ok ls c s in
  feed n (list_begin ok :: ls) s = Done RESULT_OK s1 ∧
  (∀ r s2, client_process_line n CLIENT_LIST_MODE_END s1 = Done r s2 ↔
    ∃ r1 s3, runs_list n ok 0 ls s1 r1 s3 ∧ ends_list n r1 s3 r s2) ∧
  ∀ r s2, client_process_line n CLIENT_LIST_MODE_END s1 = Done r s2 →
    r = RESULT_CLOSE ∨ ∃ c2, find_client n (clients s2) = Some c2 ∧
      CommandListBuilder.mode (cmd_list c2) = CommandListBuilder.MODE_DISABLED ∧
      CommandListBuilder.commands (cmd_list c2) = [].
Proof.
  intros Hc Hok Hw Hm Hl Hsize s1. pose proof (co_list c Hok Hm) as Hcmds.
  pose proof (closing_line n ok ls c s Hc Hw) as Hend. fold s1 in Hend.
  split; [|split].
  - cbn [feed]. unfold bind at 1. rewrite (begin_list n ok c s Hc Hw Hm Hcmds).
    rewrite decide_True by done. by apply (collect_lines n ok ls [] c s).
  - intros r s2. rewrite Hend. unfold bind at 1. split.
    + destruct (client_process_command_list n ok 0 ls RESULT_OK s1) as [r1 s3| |] eqn:E; [|done|done].
      intros H. exists r1, s3. by rewrite <-runs_list_iff, <-ends_list_iff.
    + intros (r1 & s3 & Hr & He). rewrite <-runs_list_iff in Hr. rewrite Hr. by apply ends_list_iff.
  - intros r s2. rewrite Hend. unfold bind at 1.
    destruct (client_process_command_list n ok 0 ls RESULT_OK s1) as [r1 s3| |]; [|done|done].
    apply finish_command_reset.
Qed.

End Props.

(** ** A concrete server *)

Import Lcg ScriptedPlayer PlaylistControl PlaylistSystem PlaylistProps.

#[local] Instance demo_config : ClientConfig := {|
  client_timeout := 60; client_max_command_list_size := 2048; client_max_output_buffer_size := 64;
  fresh n := replicate n 0; fresh_length n := length_replicate n 0
|}.

#[local] Instance demo_environment : Environment := {|
  LoadSong uri := inr (Song.of_uri_tag uri (Tag.mkTag (-1) false []));
  global_tag_mask := 2 ^ 20 - 1;
  passwords := Permission.mkPermissions [] 15;
  available _ := true;
  playlist_error_what _ := str "Playlist error"
|}.

#[local] Instance demo_others : OtherHandlers (server (Playlist.world Z script)) := {|
  other_handler _ _ _ _ := ret RESULT_OK
|}.

(** Three songs in the queue, one client with all permissions and one without any. *)
Definition demo_server : server (Playlist.world Z script) :=
  mkServer (demo_world PlaylistProps.quiet demo_requests)
    [make 1 (-1) 0 (0, 0%nat); make 0 (-1) 15 (0, 0%nat)] 0.

Lemma command_process_guarded_witness :
  match command_process 0 0 (str "clear") demo_server with
  | Done res s' => part s' = part demo_server ∨
      ∃ name args c cl, parse_line (str "clear") = Some (Parsed name args) ∧
        find_client 0 (clients demo_server) = Some cl ∧ find_command commands name = Some c ∧
        authorised c (Client.permission cl) args
  | _ => False
  end.
Proof.
  destruct (command_process 0 0 (str "clear") demo_server) as [res s'| |] eqn:E.
  - eapply command_process_guarded. exact E.
  - exfalso. vm_compute in E. discriminate E.
  - exfalso. vm_compute in E. discriminate E.
Defined.

Lemma playlist_command_safe_witness :
  let line := str "move 2 0" in
  let cl := make 0 (-1) 15 (0, 0%nat) in
  let ds := [Ret (Request (Edit (EMoveRange 2 3 0)))] in
  match command_process 0 7 line demo_server with
  | Done RESULT_OK s' => run_calls ds (part demo_server) = Done tt (part s') ∧ good (part s') ∧
      clients s' = clients demo_server
  | Done RESULT_ERROR s' => ∃ e s1, run_calls ds (part demo_server) = Raised e (part s') ∧
      good (part s') ∧ answered 0 cl (ack_line (mkResponse 7 []) (ToAck e) (what e)) s1 s' ∧
      clients s1 = clients demo_server
  | _ => False
  end.
Proof.
  apply (playlist_command_safe 0 7 (str "move 2 0") (str "move") [str "2"; str "0"]
    (mkCommand (str "move") Permission.PERMISSION_CONTROL 2 2 HANDLE_MOVE)
    (make 0 (-1) 15 (0, 0%nat)) [Ret (Request (Edit (EMoveRange 2 3 0)))] demo_server).
  - vm_compute. reflexivity.
  - reflexivity.
  - apply make_ok.
  - vm_compute. reflexivity.
  - vm_compute. reflexivity.
  - vm_compute. reflexivity.
  - apply demo_world_good.
  - intros req [= <-]. vm_compute. reflexivity.
Defined.

Lemma command_list_correct_witness :
  let ls := [str "swap 0 1"; str "play 1"] in
  let s1 := collected true ls (make 0 (-1) 15 (0, 0%nat)) demo_server in
  feed 0 (list_begin true :: ls) demo_server = Done RESULT_OK s1 ∧
  (∀ r s2, client_process_line 0 CLIENT_LIST_MODE_END s1 = Done r s2 ↔
    ∃ r1 s3, runs_list 0 true 0 ls s1 r1 s3 ∧ ends_list 0 r1 s3 r s2) ∧
  ∀ r s2, client_process_line 0 CLIENT_LIST_MODE_END s1 = Done r s2 →
    r = RESULT_CLOSE ∨ ∃ c2, find_client 0 (clients s2) = Some c2 ∧
      CommandListBuilder.mode (cmd_list c2) = CommandListBuilder.MODE_DISABLED ∧
      CommandListBuilder.commands (cmd_list c2) = [].
Proof.
  apply command_list_correct.
  - reflexivity.
  - apply make_ok.
  - reflexivity.
  - reflexivity.
  - repeat constructor; intros H; vm_compute in H; discriminate H.
  - vm_compute. lia.
Defined.

End CommandProps.

(** * Where the command layer departs from its documentation

    Concrete runs of the model; each one is a behaviour of the code that its comments or
    the protocol documentation do not promise. *)

Local Open Scope Z_scope.

Module CommandFindings.
Import Lcg ScriptedPlayer PlaylistProps Client Commands CommandProps.
#[local] Existing Instances demo_config demo_environment demo_others.

(** The result, the number of songs and the bytes sent to client 0. *)
Definition observe (r : Prog.result (server (Playlist.world Z script)) CommandResult)
    : option (CommandResult * nat * list Z) :=
  match r with
  | Done res s =>
      Some (res, Queue.length (Playlist.queue (Playlist.pl (part s))),
            match find_client 0 (clients s) with
            | Some c => PeakBuffer.contents (output c)
            | None => []
            end)
  | _ => None
  end.

(** An error thrown by a handler is reported without the name of the command. *)
Theorem thrown_error_has_no_command_name :
  observe (command_process 0 0 (str "play 99") demo_server)
  = Some (RESULT_ERROR, 3%nat, str "ACK [2@0] {} Playlist error" ++ [10]).
Proof. vm_compute. reflexivity. Qed.

(** An error reported by a handler has it. *)
Theorem reported_error_has_command_name :
  observe (command_process 0 0 (str "idle nonsense") demo_server)
  = Some (RESULT_ERROR, 3%nat, str "ACK [2@0] {idle} Unrecognized idle event: nonsense" ++ [10]).
Proof. vm_compute. reflexivity. Qed.

(** [addid] with a malformed position fails, but the song stays in the queue. *)
Theorem addid_bad_position_keeps_song :
  observe (command_process 0 0 (str "addid x y") demo_server)
  = Some (RESULT_ERROR, 4%nat, str "ACK [2@0] {} Integer expected: y" ++ [10]).
Proof. vm_compute. reflexivity. Qed.

(** A pending event the client did not ask for is dropped by the next notification: it is
    not reported when the client asks for it later. *)
Theorem idle_drops_other_events :
  (c ← IdleWait IDLE_PLAYER (make 0 (-1) 15 (0, 0%nat));
   c ← IdleAdd IDLE_PLAYLIST c;
   c ← IdleAdd IDLE_PLAYER c;
   c ← IdleWait IDLE_PLAYLIST c;
   Some (idle_waiting c, idle_flags c, PeakBuffer.contents (output c)))%stdpp
  = Some (true, 0, str "changed: player" ++ [10] ++ str "OK" ++ [10]).
Proof. vm_compute. reflexivity. Qed.

End CommandFindings.
