(* ===== verification/Samples.v ===== *)
(** * Samples

    What the PCM library computes with: [pcm/Traits.hxx], [pcm/PcmUtils.hxx],
    [pcm/ShiftConvert.hxx], [pcm/FloatConvert.hxx], [pcm/PcmPrng.hxx] and [pcm/Silence.cxx],
    and the reinterpretation of a block of bytes as an array of samples
    ([util/ConstBuffer.hxx]).

    A signed operation whose result does not fit its type is undefined, so it is checked:
    [int w x] is [None] when [x] needs more than [w] bits.  A [float] is an IEEE 754 number
    of the Standard Library's [SpecFloat]; the payload of a NaN is not kept. *)

From Stdlib Require Import ZArith Lia ZifyBool.
From Stdlib Require Import SpecFloat.
From stdpp Require Import base numbers sets list list_numbers.
From S2P Require Import Prelude AudioFormat.

Set Default Goal Selector "!".
Local Open Scope Z_scope.

Module Samples.
Import AudioFormat.

(** ** Integers of a given width *)

Definition in_range (w x : Z) : bool := (- 2 ^ (w - 1) <=? x) && (x <? 2 ^ (w - 1)).

(** The value of a signed expression of type [intw_t]. *)
Definition int (w x : Z) : option Z := assert! in_range w x ;; Some x.

(** Conversion to [intw_t], which keeps the low bits. *)
Definition to_signed (w x : Z) : Z := (x + 2 ^ (w - 1)) mod 2 ^ w - 2 ^ (w - 1).

(** Conversion to [uintw_t]. *)
Definition to_unsigned (w x : Z) : Z := x mod 2 ^ w.

(** ** Bytes

    The byte order of the machine is a parameter. *)

Class Host := { IsBigEndian : bool }.

Section Bytes.
Context `{!Host}.

Definition host_order (bytes : list Z) : list Z :=
  if IsBigEndian then reverse bytes else bytes.

(** Reading [length bytes] bytes as an unsigned or a signed integer. *)
Definition load_unsigned (bytes : list Z) : Z := little_endian_to_Z 8 (host_order bytes).
Definition load_signed (bytes : list Z) : Z :=
  to_signed (8 * Z.of_nat (length bytes)) (load_unsigned bytes).

(** Writing an integer of [size] bytes. *)
Definition store_int (size : nat) (x : Z) : list Z :=
  host_order (Z_to_little_endian (Z.of_nat size) 8 x).

End Bytes.

(** The blocks of [size] elements of a list whose length is a multiple of [size]. *)
Fixpoint blocks {A} (fuel size : nat) (l : list A) : list (list A) :=
  match fuel, l with
  | S fuel, _ :: _ => take size l :: blocks fuel size (drop size l)
  | _, _ => []
  end.

Definition split_blocks {A} (size : nat) (l : list A) : list (list A) :=
  blocks (length l) size l.

Section Buffers.
Context `{!Host}.

(** [ConstBuffer<T>::FromVoid] for a signed integer type of [size] bytes. *)
Definition FromVoid (size : nat) (data : list Z) : option (list Z) :=
  assert! (length data mod size =? 0)%nat ;;
  Some (load_signed <$> split_blocks size data).

(** [ConstBuffer<T>::ToVoid] *)
Definition ToVoid (size : nat) (samples : list Z) : list Z :=
  samples ≫= store_int size.

(** [PcmSilence] *)
Definition PcmSilence (size : nat) (f : SampleFormat) : list Z :=
  replicate size (match f with DSD => 105 | _ => 0 end).

End Buffers.

(** ** [SampleTraits]: the widths of [value_type], [sum_type] and [long_type], and [BITS] *)

Record SampleTraits := mkTraits {
  value_bits : Z;
  sum_bits : Z;
  long_bits : Z;
  BITS : Z;
}.

Definition traits_S8 : SampleTraits := mkTraits 8 32 32 8.
Definition traits_S16 : SampleTraits := mkTraits 16 32 32 16.
Definition traits_S32 : SampleTraits := mkTraits 32 64 64 32.
Definition traits_S24_P32 : SampleTraits := mkTraits 32 32 64 24.

(** The integer formats. *)
Definition traits_of (f : SampleFormat) : option SampleTraits :=
  match f with
  | S8 => Some traits_S8
  | S16 => Some traits_S16
  | S24_P32 => Some traits_S24_P32
  | S32 => Some traits_S32
  | UNDEFINED | FLOAT | DSD => None
  end.

Definition SAMPLE_SIZE (T : SampleTraits) : nat := Z.to_nat (value_bits T / 8).
Definition MIN (T : SampleTraits) : Z := - Z.shiftl 1 (BITS T - 1).
Definition MAX (T : SampleTraits) : Z := Z.shiftl 1 (BITS T - 1) - 1.

(** A value of the sample format, which need not use all bits of [value_type]. *)
Definition is_sample (T : SampleTraits) (x : Z) : Prop := MIN T ≤ x ≤ MAX T.

(** [PcmClamp] *)
Definition PcmClamp (T : SampleTraits) (x : Z) : Z :=
  if x <? MIN T then MIN T
  else if x >? MAX T then MAX T
  else x.

(** [LeftShiftSampleConvert::Convert] and [RightShiftSampleConvert::Convert]: the type of
    the shifted value is [DV] or [SV] promoted to [int]. *)
Definition LeftShift (ST DT : SampleTraits) (x : Z) : option Z :=
  y ← int 32 (Z.shiftl x (BITS DT - BITS ST));
  Some (to_signed (value_bits DT) y).

Definition RightShift (ST DT : SampleTraits) (x : Z) : Z :=
  to_signed (value_bits DT) (Z.shiftr x (BITS ST - BITS DT)).

(** [pcm_prng], on an [unsigned long] of 64 bits. *)
Definition pcm_prng (state : Z) : Z :=
  Z.land (to_unsigned 64 (to_unsigned 64 (to_unsigned 64 state * 0x0019660d) + 0x3c6ef35f))
    0xffffffff.

(** ** [float] *)

Definition float32 := spec_float.

Definition fmul : float32 → float32 → float32 := SFmul 24 128.
Definition fadd : float32 → float32 → float32 := SFadd 24 128.
Definition fdiv : float32 → float32 → float32 := SFdiv 24 128.

(** [float(x)] for an integer [x]: rounded to the nearest. *)
Definition float_of_Z (x : Z) : float32 := binary_normalize 24 128 x 0 false.

(** [double(x)] and [float(x)] for a floating point number. *)
Definition to_double (x : float32) : spec_float :=
  match x with
  | S754_finite s m e => binary_round 53 1024 s m e
  | _ => x
  end.

Definition to_float (x : spec_float) : float32 :=
  match x with
  | S754_finite s m e => binary_round 24 128 s m e
  | _ => x
  end.

(** Conversion to [intw_t], which discards the fraction; undefined when the result does
    not fit. *)
Definition truncate (w : Z) (x : spec_float) : option Z :=
  match x with
  | S754_zero _ => Some 0
  | S754_finite s m e =>
      let a := Z.shiftl (Z.pos m) e in int w (if s then - a else a)
  | S754_infinity _ | S754_nan => None
  end.

(** The representation in memory: sign, 8 bits of exponent, 23 bits of fraction. *)
Definition float_of_bits (x : Z) : float32 :=
  let s := Z.testbit x 31 in
  let e := Z.land (Z.shiftr x 23) 255 in
  let m := Z.land x (2 ^ 23 - 1) in
  if e =? 255 then (if m =? 0 then S754_infinity s else S754_nan)
  else match (if e =? 0 then m else m + 2 ^ 23) with
       | Z.pos p => S754_finite s p (Z.max e 1 - 150)
       | _ => S754_zero s
       end.

Definition bits_of_float (x : float32) : Z :=
  let sign (s : bool) := if s then 2 ^ 31 else 0 in
  match x with
  | S754_zero s => sign s
  | S754_infinity s => sign s + Z.shiftl 255 23
  | S754_nan => Z.shiftl 255 23 + 2 ^ 22
  | S754_finite s m e =>
      if Z.pos m <? 2 ^ 23 then sign s + Z.pos m
      else sign s + Z.shiftl (e + 150) 23 + (Z.pos m - 2 ^ 23)
  end.

(** [FloatToIntegerSampleConvert]: [factor] is an [int] shifted, then a [float]. *)
Definition float_to_integer_factor (T : SampleTraits) : float32 :=
  float_of_Z (to_signed 32 (Z.shiftl 1 (BITS T - 1))).

Definition FloatToInteger (T : SampleTraits) (x : float32) : option Z :=
  y ← truncate (long_bits T) (fmul x (float_to_integer_factor T));
  Some (PcmClamp T y).

(** [IntegerToFloatSampleConvert]: [factor] is [0.5 / (1 << (BITS - 2))]. *)
Definition integer_to_float_factor (T : SampleTraits) : float32 :=
  to_float (SFdiv 53 1024 (S754_finite false (2 ^ 52) (-53))
    (binary_normalize 53 1024 (Z.shiftl 1 (BITS T - 2)) 0 false)).

Definition IntegerToFloat (T : SampleTraits) (x : Z) : float32 :=
  fmul (float_of_Z x) (integer_to_float_factor T).

Section FloatBuffers.
Context `{!Host}.

(** [ConstBuffer<float>::FromVoid] and [ToVoid] *)
Definition FloatFromVoid (data : list Z) : option (list float32) :=
  assert! (length data mod 4 =? 0)%nat ;;
  Some ((λ b, float_of_bits (load_unsigned b)) <$> split_blocks 4 data).

Definition FloatToVoid (samples : list float32) : list Z :=
  samples ≫= λ x, store_int 4 (bits_of_float x).

End FloatBuffers.

End Samples.
