(* ===== verification/TextIO.v ===== *)
(** * Reading and writing text files

    [fs/io/BufferedOutputStream.cxx], [fs/io/BufferedReader.cxx] and
    [util/TextFile.hxx], on the dynamic FIFO buffer of [Fifo].  The stream behind an
    output is the list of bytes it received; the stream behind a reader delivers the bytes
    of the file in pieces whose sizes are a script.  Errors of the file system are left
    out.  The theorems: what is formatted arrives in order, whatever the buffer size; and
    reading line by line gives the lines of the file, however it is cut into pieces. *)

From Stdlib Require Import ZArith Lia ZifyBool.
From stdpp Require Import base numbers sets strings list.
From Stdlib Require Import SpecFloat.
From S2P Require Import Prelude CString Decimal Tokenizer Fifo Samples.

Set Default Goal Selector "!".

Module TextIO.
Import CString ForeignFifoBuffer.

#[local] Abbreviation fifo := (ForeignFifoBuffer.t Z).

(** What [new char[n]] returns. *)
Class Heap := { fresh : nat → list Z; fresh_length n : length (fresh n) = n }.

Section Defs.
Context `{!Heap}.

Definition new_buffer (n : nat) : fifo := mk 0 0 (fresh n).

(** [buffer.Write().size] after [Write]. *)
Definition room (f : fifo) : nat := capacity f - tail f.

(** ** BufferedOutputStream *)

Record BufferedOutputStream := mkOutput { os : list Z; obuffer : fifo }.

Definition new_output : BufferedOutputStream := mkOutput [] (new_buffer (Z.to_nat 32768)).

(** [nullptr] is returned as [false]; the data fits into the buffer otherwise. *)
Definition AppendToBuffer (xs : list Z) (o : BufferedOutputStream)
    : option (bool * BufferedOutputStream) :=
  f ← ForeignFifoBuffer.Write (obuffer o);
  if room f <? length xs then Some (false, mkOutput (os o) f)
  else
    f ← fill xs f;
    f ← Append (length xs) f;
    Some (true, mkOutput (os o) f).

Definition Flush (o : BufferedOutputStream) : option BufferedOutputStream :=
  let r := Read (obuffer o) in
  if length r =? 0 then Some o
  else
    f ← Consume (length r) (obuffer o);
    Some (mkOutput (os o ++ r) f).

Definition Write (xs : list Z) (o : BufferedOutputStream) : option BufferedOutputStream :=
  r ← AppendToBuffer xs o;
  if (r.1 : bool) then Some r.2
  else
    o ← Flush r.2;
    r ← AppendToBuffer xs o;
    if (r.1 : bool) then Some r.2
    else Some (mkOutput (os r.2 ++ xs) (obuffer r.2)).

(** What [vsnprintf(p, size, ...)] stores for the text: at most [size - 1] bytes of it and
    the terminator. *)
Definition vsnprintf (size : nat) (text : list Z) : list Z :=
  match size with
  | O => []
  | S n => take n text ++ [0%Z]
  end.

(** [Format(fmt, ...)], where [text] is what the format expands to. *)
Definition Format (text : list Z) (o : BufferedOutputStream) : option BufferedOutputStream :=
  f ← ForeignFifoBuffer.Write (obuffer o);
  let o := mkOutput (os o) f in
  o ← (if room (obuffer o) =? 0 then
         o ← Flush o;
         f ← ForeignFifoBuffer.Write (obuffer o);
         Some (mkOutput (os o) f)
       else Some o);
  let size := length text in
  f ← fill (vsnprintf (room (obuffer o)) text) (obuffer o);
  let o := mkOutput (os o) f in
  o ← (if room (obuffer o) <=? size then
         o ← Flush o;
         f ← ForeignFifoBuffer.Write (obuffer o);
         f ← (if room f <=? size then
                f ← DynWantWrite fresh (size + 1) f;
                ForeignFifoBuffer.Write f
              else Some f);
         f ← fill (vsnprintf (size + 1) text) f;
         Some (mkOutput (os o) f)
       else Some o);
  f ← Append size (obuffer o);
  Some (mkOutput (os o) f).

(** ** BufferedReader *)

(** A stream: the bytes still to come, and how many of them the next calls of [Read] give. *)
Record Reader := mkReader { rest : list Z; sizes : list nat }.

(** [reader.Read(data, size)]: at least one byte unless the stream has ended. *)
Definition Reader_Read (size : nat) (r : Reader) : list Z * Reader :=
  let n := match sizes r with
           | [] => size
           | k :: _ => max 1 (min k size)
           end in
  (take n (rest r), mkReader (drop n (rest r)) (tl (sizes r))).

Record BufferedReader := mkBufferedReader {
  reader : Reader; buffer : fifo; eof : bool; line_number : nat }.

Definition MAX_SIZE : nat := Z.to_nat (512 * 1024).

Definition new_reader (r : Reader) : BufferedReader :=
  mkBufferedReader r (new_buffer (Z.to_nat 4096)) false 0.

(** The range to read into: the buffer grows when it is full, unless it may not. *)
Definition make_room (f : fifo) : option (bool * fifo) :=
  f ← ForeignFifoBuffer.Write f;
  if room f =? 0 then
    if MAX_SIZE <=? capacity f then Some (false, f)
    else
      f ← Grow fresh (capacity f * 2) f;
      f ← ForeignFifoBuffer.Write f;
      assert! negb (room f =? 0) ;;
      Some (true, f)
  else Some (true, f).

Definition Fill (need_more : bool) (b : BufferedReader) : option (bool * BufferedReader) :=
  if eof b then Some (negb need_more, b)
  else
    w ← make_room (buffer b);
    let f := w.2 in
    if negb w.1 then
      Some (negb need_more, mkBufferedReader (reader b) f (eof b) (line_number b))
    else
      let '(xs, r) := Reader_Read (room f) (reader b) in
      f ← fill xs f;
      if length xs =? 0 then Some (negb need_more, mkBufferedReader r f true (line_number b))
      else
        f ← Append (length xs) f;
        Some (true, mkBufferedReader r f (eof b) (line_number b)).

(** [ReadBufferedLine(buffer)]: the line without its end. *)
Definition ReadBufferedLine (f : fifo) : option (option (list Z) * fifo) :=
  let r := Read f in
  match strchr r 10 with
  | None => Some (None, f)
  | Some newline =>
      f ← Consume (newline + 1) f;
      let newline := if (0 <? newline) && bool_decide (r !! (newline - 1) = Some 13%Z)
                     then newline - 1 else newline in
      Some (Some (Tokenizer.until_nul (take newline r)), f)
  end.

(** The loop of [ReadLine]; the result is [None] when [Fill] has failed. *)
Fixpoint ReadLine_loop (fuel : nat) (b : BufferedReader)
    : option (option (list Z) * BufferedReader) :=
  match fuel with
  | O => None
  | S fuel =>
      r ← ReadBufferedLine (buffer b);
      let b := mkBufferedReader (reader b) r.2 (eof b) (line_number b) in
      match r.1 with
      | Some line =>
          Some (Some line, mkBufferedReader (reader b) (buffer b) (eof b) (S (line_number b)))
      | None =>
          r ← Fill true b;
          if (r.1 : bool) then ReadLine_loop fuel r.2 else Some (None, r.2)
      end
  end.

(** The file has at most as many pieces as bytes. *)
Definition ReadLine (b : BufferedReader) : option (option (list Z) * BufferedReader) :=
  r ← ReadLine_loop (2 + length (rest (reader b))) b;
  let b := r.2 in
  match r.1 with
  | Some line => Some (Some line, b)
  | None =>
      if negb (eof b) || IsEmpty (buffer b) then Some (None, b)
      else
        f ← ForeignFifoBuffer.Write (buffer b);
        f ← (if room f =? 0 then
               f ← Grow fresh (capacity f + 1) f;
               f ← ForeignFifoBuffer.Write f;
               assert! negb (room f =? 0) ;;
               Some f
             else Some f);
        f ← fill [0%Z] f;
        Some (Some (Tokenizer.until_nul (Read f)),
              mkBufferedReader (reader b) (Clear f) (eof b) (S (line_number b)))
  end.

(** ** Loading a whole file, as the callers of [TextFile::ReadLine] do *)

Fixpoint read_all (fuel : nat) (b : BufferedReader) : option (list (list Z)) :=
  match fuel with
  | O => None
  | S fuel =>
      r ← ReadLine b;
      match r.1 with
      | None => Some []
      | Some line => l ← read_all fuel r.2; Some (line :: l)
      end
  end.

Definition read_file (sizes : list nat) (data : list Z) : option (list (list Z)) :=
  read_all (1 + length data) (new_reader (mkReader data sizes)).

#[local] Opaque MAX_SIZE.

(** ** Reference: the lines of a text *)

(** A line without the carriage return at its end. *)
Definition strip_cr (l : list Z) : list Z :=
  if bool_decide (last l = Some 13%Z) then take (length l - 1) l else l.

(** Every piece but the last was terminated; the last one counts unless it is empty. *)
Fixpoint lines_of (pieces : list (list Z)) : list (list Z) :=
  match pieces with
  | [] | [[]] => []
  | [p] => [Tokenizer.until_nul p]
  | p :: ps => Tokenizer.until_nul (strip_cr p) :: lines_of ps
  end.

Definition text_lines (text : list Z) : list (list Z) := lines_of (split 10 text).

(** ** Output *)

(** Everything written so far, flushed or not. *)
Definition written (o : BufferedOutputStream) : list Z := os o ++ Read (obuffer o).

Record output_ok (o : BufferedOutputStream) : Prop := {
  oo_inv : inv (obuffer o);
  oo_cap : 1 ≤ capacity (obuffer o) }.

Lemma Flush_ok o : output_ok o → ∃ o', Flush o = Some o' ∧ output_ok o' ∧
  written o' = written o ∧ Read (obuffer o') = [] ∧ capacity (obuffer o') = capacity (obuffer o).
Proof.
  intros [Hi Hc]. unfold Flush. destruct (length (Read (obuffer o)) =? 0) eqn:E.
  - exists o. split_and!; [done|by split|done| |done]. apply nil_length_inv. lia.
  - destruct (fifo_Consume_ok (length (Read (obuffer o))) (obuffer o) Hi) as (f & -> & Hi' & Hc' & Hr);
      [lia|]. rewrite drop_all in Hr.
    eexists. split; [done|]. unfold written. simpl. rewrite Hr, app_nil_r.
    split_and!; [split; simpl; lia || done|done|done|done].
Qed.

(** An empty buffer offers its whole capacity. *)
Lemma Write_empty_room f : inv f → Read f = [] → ∃ f', ForeignFifoBuffer.Write f = Some f' ∧ inv f' ∧
  capacity f' = capacity f ∧ Read f' = [] ∧ room f' = capacity f.
Proof.
  intros Hi Hr. destruct (fifo_Write_ok f Hi) as (f' & E & Hi' & Hc & Hr' & _).
  exists f'. pose proof (length_Read f Hi) as Hl. rewrite Hr in Hl. simpl in Hl.
  unfold ForeignFifoBuffer.Write, IsEmpty in E. destruct Hi as [??].
  rewrite (proj2 (Nat.eqb_eq _ _)) in E by lia. injection E as <-.
  unfold room, capacity. simpl. split_and!; [|done|done|by rewrite Hr'|lia].
  unfold ForeignFifoBuffer.Write, IsEmpty. by rewrite (proj2 (Nat.eqb_eq _ _)) by lia.
Qed.

Lemma fill_ok xs (f : fifo) : inv f → tail f + length xs ≤ capacity f →
  ∃ f', fill xs f = Some f' ∧ inv f' ∧ capacity f' = capacity f ∧ tail f' = tail f ∧
    Read f' = Read f ∧ slice (tail f) (tail f + length xs) (data f') = xs.
Proof.
  intros [Hht Htc] Hle. unfold fill, capacity in *. rewrite write_at_Some by done. simpl.
  eexists. split; [done|]. unfold inv, capacity, Read. simpl. rewrite length_write_at by done.
  split_and!; [lia|lia|done|done| |by apply slice_write]. apply slice_write_before; lia.
Qed.

Lemma Append_after_fill n (f : fifo) : inv f → tail f + n ≤ capacity f →
  ∃ f', Append n f = Some f' ∧ inv f' ∧ capacity f' = capacity f ∧
    Read f' = Read f ++ slice (tail f) (tail f + n) (data f).
Proof.
  intros [Hht Htc] Hle. unfold Append. rewrite !check_bind by lia. eexists. split; [done|].
  unfold inv, capacity, Read in *. simpl. split_and!; [lia|lia|done|]. symmetry.
  apply slice_app; lia.
Qed.

Lemma AppendToBuffer_ok xs o : output_ok o → ∃ b o', AppendToBuffer xs o = Some (b, o') ∧
  output_ok o' ∧ written o' = written o ++ (if (b : bool) then xs else []).
Proof.
  intros [Hi Hc]. unfold AppendToBuffer.
  destruct (fifo_Write_ok _ Hi) as (f & -> & Hi' & Hc' & Hr & _). simpl.
  destruct (room f <? length xs) eqn:E.
  - exists false. eexists. split; [done|]. unfold written. simpl. rewrite Hr, app_nil_r.
    split; [|done]. split; simpl; [done|lia].
  - unfold room in E. pose proof Hi' as [_ ?].
    destruct (fill_Append_ok xs f Hi') as (f' & Hfa & Hi2 & Hc2 & Hr2); [lia|].
    destruct (fill xs f) as [fx|]; simpl in *; [|done]. rewrite Hfa. simpl.
    exists true. eexists. split; [done|]. unfold written. simpl. rewrite Hr2, Hr, app_assoc.
    split; [|done]. split; simpl; [done|lia].
Qed.

Lemma Write_ok xs o : output_ok o → ∃ o', Write xs o = Some o' ∧ output_ok o' ∧
  written o' = written o ++ xs.
Proof.
  intros Ho. unfold Write. destruct (AppendToBuffer_ok xs o Ho) as (b & o1 & -> & Ho1 & Hw1).
  simpl. destruct b; [by exists o1|].
  destruct (Flush_ok o1 Ho1) as (o2 & -> & Ho2 & Hw2 & Hr2 & _). simpl.
  destruct (AppendToBuffer_ok xs o2 Ho2) as (b & o3 & E & Ho3 & Hw3). rewrite E. simpl.
  rewrite Hw2, Hw1, app_nil_r in Hw3. destruct b; [by exists o3|]. rewrite app_nil_r in Hw3.
  eexists. split; [done|]. split; [destruct Ho3; by split|].
  rewrite <-Hw3. unfold written. simpl.
  assert (Hr3 : Read (obuffer o3) = []).
  { unfold AppendToBuffer in E. destruct Ho2 as [Hi2 _].
    destruct (fifo_Write_ok _ Hi2) as (f & Ew & _ & _ & Hr & _). rewrite Ew in E. simpl in E.
    case_match; [by simplify_eq/=; rewrite Hr|].
    destruct (fill xs f); simpl in E; [|done]. destruct (Append _ _); simpl in E; done. }
  by rewrite Hr3, !app_nil_r.
Qed.

Lemma vsnprintf_length size text : 0 < size → length (vsnprintf size text) ≤ size.
Proof. intros Hs. destruct size; [lia|]. simpl. rewrite length_app, length_take. simpl. lia. Qed.

Lemma vsnprintf_fits size text : length text < size → vsnprintf size text = text ++ [0%Z].
Proof. intros Hs. destruct size; [lia|]. simpl. by rewrite take_ge by lia. Qed.

(** Formatting a text that fits, and accepting it. *)
Lemma print_ok text n (f : fifo) : inv f → length text < n → n ≤ room f →
  ∃ f', (f ← fill (vsnprintf n text) f; Append (length text) f) = Some f' ∧ inv f' ∧
    capacity f' = capacity f ∧ Read f' = Read f ++ text.
Proof.
  intros Hi Hn Hr. pose proof Hi as [_ ?]. rewrite vsnprintf_fits by done. unfold room in Hr.
  destruct (fill_ok (text ++ [0%Z]) f Hi) as (f1 & -> & Hi1 & Hc1 & Ht1 & Hr1 & Hs1).
  { rewrite length_app. simpl. lia. } simpl.
  destruct (Append_after_fill (length text) f1 Hi1) as (f2 & -> & Hi2 & Hc2 & Hr2); [lia|].
  exists f2. split_and!; [done|done|lia|]. rewrite Hr2, Hr1, Ht1. f_equal.
  rewrite length_app in Hs1. simpl in Hs1.
  rewrite <-(slice_app (tail f) (tail f + length text)) in Hs1 by (unfold capacity in *; lia).
  apply app_inj_1 in Hs1 as [-> _]; [done|]. rewrite length_slice; unfold capacity in *; lia.
Qed.

(** The buffer after making room for [n] bytes. *)
Lemma want_room n (f : fifo) : inv f → 1 ≤ capacity f →
  ∃ f', (f ← DynWantWrite fresh n f; ForeignFifoBuffer.Write f) = Some f' ∧ inv f' ∧
    1 ≤ capacity f' ∧ Read f' = Read f ∧ n ≤ room f'.
Proof.
  intros Hi Hc. destruct (DynWantWrite_ok fresh n f Hi Hc fresh_length)
    as (f1 & -> & Hi1 & Hc1 & Hr1 & Hroom). simpl.
  destruct (fifo_Write_ok f1 Hi1) as (f2 & -> & Hi2 & Hc2 & Hr2 & _ & Ht2).
  exists f2. unfold room. split_and!; [done|done|lia|by rewrite Hr2, Hr1|lia].
Qed.

Lemma Format_ok text o : output_ok o → ∃ o', Format text o = Some o' ∧ output_ok o' ∧
  written o' = written o ++ text.
Proof.
  intros [Hi Hc]. unfold Format.
  destruct (fifo_Write_ok _ Hi) as (f1 & -> & Hi1 & Hc1 & Hr1 & Hfull & _). simpl.
  assert (∃ o1, (if room f1 =? 0 then o ← Flush (mkOutput (os o) f1);
      f ← ForeignFifoBuffer.Write (obuffer o); Some (mkOutput (os o) f)
      else Some (mkOutput (os o) f1)) = Some o1 ∧ output_ok o1 ∧ written o1 = written o ∧
      0 < room (obuffer o1)) as (o1 & -> & [Hi2 Hc2] & Hw & Hroom).
  { assert (Hw0 : written (mkOutput (os o) f1) = written o) by (unfold written; simpl; by rewrite Hr1).
    destruct (room f1 =? 0) eqn:E.
    - destruct (Flush_ok (mkOutput (os o) f1)) as (o1 & -> & [Hi' Hc'] & Hw & Hr & Hcap);
        [by split; simpl; lia || done|]. simpl.
      destruct (Write_empty_room _ Hi' Hr) as (f & -> & Hif & Hcf & Hrf & Hroom). simpl.
      eexists. split; [done|]. simpl. split_and!; [split; simpl; lia || done| |lia].
      rewrite <-Hw0, <-Hw. unfold written. simpl. by rewrite Hrf, Hr.
    - eexists. split; [done|]. simpl. split_and!; [split; simpl; lia || done|done|lia]. }
  simpl. rewrite <-Hw. clear o Hi Hc f1 Hi1 Hc1 Hr1 Hfull Hw.
  destruct (fill_ok (vsnprintf (room (obuffer o1)) text) (obuffer o1) Hi2)
    as (f2 & E2 & Hif & Hcf & Htf & Hrf & _).
  { pose proof (vsnprintf_length (room (obuffer o1)) text Hroom) as Hl. unfold room in *. lia. }
  rewrite E2. simpl.
  assert (Hrm : room f2 = room (obuffer o1)) by (unfold room; lia). rewrite Hrm.
  destruct (room (obuffer o1) <=? length text) eqn:E.
  - destruct (Flush_ok (mkOutput (os o1) f2)) as (o2 & -> & [Hi' Hc'] & Hw & Hr & Hcap);
      [by split; simpl; lia || done|]. simpl.
    destruct (Write_empty_room _ Hi' Hr) as (f3 & -> & Hi3 & Hc3 & Hr3 & Hroom3). simpl.
    assert (∃ f4, (if room f3 <=? length text then f ← DynWantWrite fresh (length text + 1) f3;
      ForeignFifoBuffer.Write f else Some f3) = Some f4 ∧ inv f4 ∧ 1 ≤ capacity f4 ∧
      Read f4 = [] ∧ length text + 1 ≤ room f4) as (f4 & -> & Hi4 & Hc4 & Hr4 & Hroom4).
    { destruct (room f3 <=? length text) eqn:E3; [|exists f3; split_and!; done || lia].
      destruct (want_room (length text + 1) f3) as (f4 & -> & H4); [done|lia|].
      exists f4. by rewrite Hr3 in H4. }
    simpl. destruct (print_ok text (length text + 1) f4 Hi4) as (f5 & E5 & Hi5 & Hc5 & Hr5); [lia|lia|].
    destruct (fill _ f4) as [fx|]; simpl in *; [|done]. rewrite E5. simpl.
    eexists. split; [done|]. split; [split; simpl; lia || done|].
    unfold written in *. simpl in *. by rewrite Hr5, Hr4, <-Hrf, <-Hw, Hr, app_nil_r.
  - destruct (print_ok text (room (obuffer o1)) (obuffer o1) Hi2) as (f5 & E5 & Hi5 & Hc5 & Hr5); [lia|lia|].
    rewrite E2 in E5. simpl in *. rewrite E5. simpl.
    eexists. split; [done|]. split; [split; simpl; lia || done|].
    unfold written. simpl. by rewrite Hr5, app_assoc.
Qed.

(** ** Input *)

(** What is still to be read. *)
Definition unread (b : BufferedReader) : list Z := Read (buffer b) ++ rest (reader b).

Record reader_ok (b : BufferedReader) : Prop := {
  rk_inv : inv (buffer b);
  rk_cap : 1 ≤ capacity (buffer b);
  rk_eof : eof b = true → rest (reader b) = [] }.

Lemma make_room_ok f : inv f → 1 ≤ capacity f → length (Read f) < MAX_SIZE →
  ∃ f', make_room f = Some (true, f') ∧ inv f' ∧ 1 ≤ capacity f' ∧ Read f' = Read f ∧ 0 < room f'.
Proof.
  intros Hi Hc Hmax. unfold make_room.
  destruct (fifo_Write_ok f Hi) as (f1 & -> & Hi1 & Hc1 & Hr1 & Hfull & _). simpl.
  destruct (room f1 =? 0) eqn:E; [|exists f1; split_and!; done || lia].
  unfold room in E. pose proof Hi1 as [_ ?]. rewrite <-Hr1 in Hmax.
  assert (Hlen : length (Read f1) = capacity f1) by (apply Hfull; lia).
  rewrite (proj2 (Nat.leb_gt _ _)) by lia.
  destruct (Grow_ok fresh (capacity f1 * 2) f1) as (f2 & -> & Hi2 & Hc2 & Hr2);
    [done|lia|apply fresh_length|]. simpl.
  destruct (fifo_Write_ok f2 Hi2) as (f3 & -> & Hi3 & Hc3 & Hr3 & Hfull3 & _). simpl.
  assert (0 < room f3).
  { unfold room. destruct (decide (tail f3 = capacity f3)) as [Ht|]; [|destruct Hi3; lia].
    specialize (Hfull3 Ht). rewrite Hr3, Hr2 in Hfull3. lia. }
  rewrite check_bind by lia. exists f3. split_and!; [done|done|lia|by rewrite Hr3, Hr2, Hr1|done].
Qed.

Lemma Fill_ok b : reader_ok b → length (Read (buffer b)) < MAX_SIZE →
  ∃ c b', Fill true b = Some (c, b') ∧ reader_ok b' ∧ unread b' = unread b ∧
    line_number b' = line_number b ∧
    if (c : bool) then length (rest (reader b')) < length (rest (reader b))
    else eof b' = true ∧ Read (buffer b') = Read (buffer b).
Proof.
  intros [Hi Hc Heof] Hmax. unfold Fill. destruct (eof b) eqn:E.
  { exists false, b. split_and!; [done|by split; auto|done..]. }
  destruct (make_room_ok _ Hi Hc Hmax) as (f & -> & Hif & Hcf & Hrf & Hroom). simpl.
  unfold Reader_Read. set (n := match sizes (reader b) with [] => room f | k :: _ => _ end).
  assert (Hn : 1 ≤ n ≤ room f) by (subst n; case_match; lia).
  assert (Hl : tail f + length (take n (rest (reader b))) ≤ capacity f)
    by (rewrite length_take; destruct Hif; unfold room in *; lia).
  set (xs := take n (rest (reader b))) in *.
  destruct (length xs =? 0) eqn:E0.
  - destruct (fill_ok xs f Hif Hl) as (f1 & -> & Hi1 & Hc1 & _ & Hr1 & _). simpl.
    eexists false, _. split; [done|]. unfold unread. simpl.
    assert (Hnil : rest (reader b) = []).
    { apply nil_length_inv. subst xs. rewrite length_take in E0. lia. }
    rewrite Hnil, drop_nil, Hr1, Hrf. split_and!; [split; simpl; lia || done|done..].
  - destruct (fill_Append_ok xs f Hif Hl) as (f1 & Ef & Hi1 & Hc1 & Hr1).
    destruct (fill xs f) as [fx|]; simpl in *; [|done]. rewrite Ef. simpl.
    eexists true, _. split; [done|]. unfold unread. simpl. rewrite length_drop.
    split_and!; [split; simpl; lia || done| |done|].
    + rewrite Hr1, Hrf, <-app_assoc. unfold xs. by rewrite take_drop.
    + subst xs. rewrite length_take in E0. lia.
Qed.

Lemma strip_cr_code p q :
  take (if (0 <? length p) && bool_decide ((p ++ q) !! (length p - 1) = Some 13%Z)
        then length p - 1 else length p) (p ++ q) = strip_cr p.
Proof.
  unfold strip_cr. destruct (decide (p = [])) as [->|Hp]; [done|].
  assert (0 < length p) by (destruct p; [done|simpl; lia]).
  rewrite lookup_app_l by lia. replace (length p - 1) with (Nat.pred (length p)) by lia. rewrite <-last_lookup.
  replace (Nat.pred (length p)) with (length p - 1) by lia.
  replace (0 <? length p) with true by lia. simpl.
  case_bool_decide; [rewrite take_app_le by lia; done|]. apply take_app_length.
Qed.

(** Reading a line out of the buffer. *)
Lemma ReadBufferedLine_ok (f : fifo) : inv f →
  ∃ r f', ReadBufferedLine f = Some (r, f') ∧ inv f' ∧ capacity f' = capacity f ∧
    match r with
    | None => (10%Z ∉ Read f) ∧ Read f' = Read f
    | Some line => ∃ p, Read f = p ++ 10%Z :: Read f' ∧ (10%Z ∉ p) ∧ line = Tokenizer.until_nul (strip_cr p)
    end.
Proof.
  intros Hi. unfold ReadBufferedLine. destruct (strchr (Read f) 10) as [n|] eqn:E.
  - apply strchr_decompose in E as [Hs Hn]. set (p := take n (Read f)) in *.
    assert (Hlen : length (Read f) = length p + S (length (drop (S n) (Read f)))).
    { rewrite Hs at 1. rewrite length_app. done. }
    assert (n = length p) as Hnp.
    { subst p. rewrite length_take, length_drop in *. lia. }
    destruct (fifo_Consume_ok (n + 1) f Hi) as (f' & -> & Hi' & Hc & Hr); [lia|]. simpl.
    eexists (Some _), f'. split; [done|]. split_and!; [done|done|]. exists p.
    rewrite Hr. replace (n + 1) with (S n) by lia. split_and!; [done|done|].
    f_equal. pose proof (strip_cr_code p (10%Z :: drop (S n) (Read f))) as Hx.
    by rewrite <-Hs, <-Hnp in Hx.
  - exists None, f. apply strchr_None in E. by split_and!.
Qed.

(** The text in front of the first line end, of which there may be none. *)
Definition head_line (text : list Z) : list Z := default [] (hd_error (split 10 text)).

Lemma head_line_app p q : 10%Z ∉ p → head_line (p ++ 10%Z :: q) = p.
Proof. intros Hp. unfold head_line. by rewrite split_sep. Qed.

Lemma head_line_all p : 10%Z ∉ p → head_line p = p.
Proof. intros Hp. unfold head_line. by rewrite split_no_sep. Qed.

Lemma head_line_prefix p q : 10%Z ∉ p → length p ≤ length (head_line (p ++ q)).
Proof.
  intros Hp. unfold head_line. induction p as [|x p IH]; simpl; [lia|].
  rewrite (proj2 (Z.eqb_neq x 10)) by set_solver. destruct (split_cons 10 (p ++ q)) as (h & t & E).
  rewrite E in *. simpl in *. specialize (IH ltac:(set_solver)). lia.
Qed.

Lemma ReadLine_loop_ok fuel b : reader_ok b → length (head_line (unread b)) < MAX_SIZE →
  length (rest (reader b)) < fuel →
  ∃ r b', ReadLine_loop fuel b = Some (r, b') ∧ reader_ok b' ∧
    match r with
    | Some line => ∃ p, unread b = p ++ 10%Z :: unread b' ∧ (10%Z ∉ p) ∧
        line = Tokenizer.until_nul (strip_cr p)
    | None => eof b' = true ∧ unread b' = unread b ∧ 10%Z ∉ unread b
    end.
Proof.
  revert b. induction fuel as [|fuel IH]; intros b Hb Hmax Hf; [lia|]. cbn [ReadLine_loop].
  pose proof Hb as [Hi Hc He].
  destruct (ReadBufferedLine_ok _ Hi) as (r & f & -> & Hif & Hcf & Hr). simpl.
  destruct r as [line|].
  - destruct Hr as (p & Hr & Hp & ->). eexists (Some _), _. split; [done|].
    split; [split; simpl; lia || done|]. exists p. split_and!; [|done|done].
    unfold unread. simpl. by rewrite Hr, <-app_assoc.
  - destruct Hr as [Hn Hr]. set (b1 := mkBufferedReader _ _ _ _).
    assert (Hu : unread b1 = unread b) by (unfold unread; simpl; by rewrite Hr).
    destruct (Fill_ok b1) as (c & b2 & -> & Hb2 & Hu2 & _ & Hcase).
    { split; simpl; lia || done. }
    { simpl. rewrite Hr. eapply Nat.le_lt_trans; [|exact Hmax]. by apply head_line_prefix. }
    simpl. rewrite Hu in Hu2. destruct c.
    + destruct (IH b2) as (r & b' & -> & Hb' & H'); [done|by rewrite Hu2|simpl in Hcase; lia|].
      exists r, b'. by rewrite <-Hu2.
    + destruct Hcase as [Heof Hr2]. exists None, b2. split_and!; [done|done|done|done|].
      pose proof Hb2 as [_ _ He2]. rewrite <-Hu2. unfold unread.
      rewrite (He2 Heof), app_nil_r, Hr2. simpl. by rewrite Hr.
Qed.

Lemma reading_last f : inv f → 1 ≤ capacity f →
  ∃ f', (f ← ForeignFifoBuffer.Write f;
         f ← (if room f =? 0 then f ← Grow fresh (capacity f + 1) f;
                f ← ForeignFifoBuffer.Write f; assert! negb (room f =? 0) ;; Some f
              else Some f); fill [0%Z] f) = Some f' ∧ inv f' ∧ 1 ≤ capacity f' ∧ Read f' = Read f.
Proof.
  intros Hi Hc. destruct (fifo_Write_ok f Hi) as (f1 & -> & Hi1 & Hc1 & Hr1 & Hfull & _). simpl.
  assert (∃ f2, (if room f1 =? 0 then f ← Grow fresh (capacity f1 + 1) f1;
      f ← ForeignFifoBuffer.Write f; assert! negb (room f =? 0) ;; Some f
      else Some f1) = Some f2 ∧ inv f2 ∧ 1 ≤ capacity f2 ∧ Read f2 = Read f ∧ 0 < room f2)
    as (f2 & -> & Hi2 & Hc2 & Hr2 & Hroom).
  { destruct (room f1 =? 0) eqn:E; [|exists f1; split_and!; done || lia].
    destruct (Grow_ok fresh (capacity f1 + 1) f1) as (f2 & -> & Hi2 & Hc2 & Hr2);
      [done|lia|apply fresh_length|]. simpl.
    destruct (fifo_Write_ok f2 Hi2) as (f3 & -> & Hi3 & Hc3 & Hr3 & Hfull3 & _). simpl.
    assert (0 < room f3).
    { unfold room. destruct (decide (tail f3 = capacity f3)) as [Ht|]; [|destruct Hi3; lia].
      specialize (Hfull3 Ht). rewrite Hr3, Hr2, length_Read in Hfull3 by done. destruct Hi1; lia. }
    rewrite check_bind by lia. exists f3. split_and!; [done|done|lia|by rewrite Hr3, Hr2, Hr1|done]. }
  simpl. destruct (fill_ok [0%Z] f2 Hi2) as (f3 & -> & Hi3 & Hc3 & _ & Hr3 & _).
  { unfold room in Hroom. simpl. lia. }
  exists f3. split_and!; [done|done|lia|by rewrite Hr3].
Qed.

(** No line is too long for the buffer. *)
Definition short_lines (text : list Z) : Prop := Forall (λ p, length p < MAX_SIZE) (split 10 text).

Lemma short_head text : short_lines text → length (head_line text) < MAX_SIZE.
Proof.
  unfold short_lines, head_line. destruct (split_cons 10 text) as (h & t & ->).
  by intros Hs%Forall_inv.
Qed.

(** One line, or the end of the file. *)
Lemma ReadLine_ok b : reader_ok b → short_lines (unread b) →
  ∃ r b', ReadLine b = Some (r, b') ∧ reader_ok b' ∧
    match r with
    | Some line => text_lines (unread b) = line :: text_lines (unread b') ∧
        short_lines (unread b') ∧
        length (unread b') < length (unread b)
    | None => text_lines (unread b) = []
    end.
Proof.
  intros Hb Hmax. pose proof (short_head _ Hmax) as Hhead. unfold ReadLine.
  destruct (ReadLine_loop_ok (2 + length (rest (reader b))) b) as (r & b1 & -> & Hb1 & Hr);
    [done|done|lia|]. cbn [mbind option_bind fst snd]. destruct r as [line|].
  - destruct Hr as (p & Hu & Hp & ->). eexists (Some _), b1. split_and!; [done|done|..].
    + unfold text_lines. rewrite Hu, split_sep by done. destruct (split_cons 10 (unread b1)) as (h & t & E). rewrite E. by destruct p.
    + unfold short_lines in *. rewrite Hu, split_sep in Hmax by done. by apply Forall_inv_tail in Hmax.
    + rewrite Hu, length_app. simpl. lia.
  - destruct Hr as (Heof & Hu & Hn). rewrite Heof. cbn [negb orb].
    pose proof Hb1 as [Hi1 Hc1 He1].
    assert (Hrd : Read (buffer b1) = unread b).
    { rewrite <-Hu. unfold unread. by rewrite (He1 Heof), app_nil_r. }
    pose proof (length_Read _ Hi1) as Hl. rewrite Hrd in Hl.
    destruct (IsEmpty (buffer b1)) eqn:E; unfold IsEmpty in E.
    + exists None, b1. split_and!; [done|done|].
      assert (unread b = []) as -> by (apply nil_length_inv; lia). done.
    + destruct (reading_last _ Hi1 Hc1) as (f & Ef & Hi & Hc & Hr).
      destruct (ForeignFifoBuffer.Write (buffer b1)) as [f1|]; [|done].
      cbn [mbind option_bind] in *. destruct (if room f1 =? 0 then _ else _) as [f2|]; [|done].
      cbn [mbind option_bind] in *. rewrite Ef. cbn [mbind option_bind].
      eexists (Some _), _. split; [done|]. set (b2 := mkBufferedReader _ _ _ _).
      assert (Hu2 : unread b2 = []).
      { unfold unread. simpl. by rewrite (He1 Heof). }
      rewrite Hu2, Hr, Hrd. unfold text_lines. rewrite (split_no_sep 10 (unread b)) by done.
      split_and!; [split; simpl; unfold inv; simpl; lia || done|..].
      * destruct (unread b); [simpl in Hl; destruct Hi1; lia|done].
      * unfold short_lines in *. rewrite (split_no_sep 10 (unread b)) in Hmax by done.
        apply Forall_inv in Hmax. constructor; [simpl; lia|constructor].
      * destruct Hi1. simpl. lia.
Qed.

Lemma read_all_ok fuel b : reader_ok b → short_lines (unread b) → length (unread b) < fuel →
  read_all fuel b = Some (text_lines (unread b)).
Proof.
  revert b. induction fuel as [|fuel IH]; intros b Hb Hs Hf; [lia|]. cbn [read_all].
  destruct (ReadLine_ok b Hb Hs) as (r & b' & -> & Hb' & Hr). simpl.
  destruct r as [line|]; [|by rewrite Hr]. destruct Hr as (-> & Hs' & Hl).
  by rewrite IH by (done || lia).
Qed.

Lemma new_reader_ok r : reader_ok (new_reader r).
Proof.
  split; [|unfold new_reader, capacity; simpl; rewrite fresh_length; lia|done].
  unfold inv, capacity. simpl. lia.
Qed.

(** Reading a file gives its lines, however the reads cut it into pieces. *)
Lemma read_file_ok sizes data : short_lines data →
  read_file sizes data = Some (text_lines data).
Proof.
  intros Hs. unfold read_file.
  assert (Hu : unread (new_reader (mkReader data sizes)) = data)
    by done.
  rewrite read_all_ok; rewrite ?Hu; [done|apply new_reader_ok|done|lia].
Qed.

(** A sequence of [Write] and [Format] calls. *)
Inductive output_call := Put (xs : list Z) | Print (text : list Z).

Definition call_bytes (c : output_call) : list Z := match c with Put xs => xs | Print t => t end.

Definition do_call (c : output_call) : BufferedOutputStream → option BufferedOutputStream :=
  match c with Put xs => Write xs | Print t => Format t end.

Fixpoint do_calls (cs : list output_call) (o : BufferedOutputStream) : option BufferedOutputStream :=
  match cs with
  | [] => Some o
  | c :: cs => do_call c o ≫= do_calls cs
  end.

(** Writing a file: the calls, and the final [Flush]; the bytes of the file. *)
Definition write_file (cs : list output_call) : option (list Z) :=
  o ← do_calls cs new_output; o ← Flush o; Some (os o).

Lemma do_calls_ok cs o : output_ok o → ∃ o', do_calls cs o = Some o' ∧ output_ok o' ∧
  written o' = written o ++ concat (call_bytes <$> cs).
Proof.
  revert o. induction cs as [|c cs IH]; intros o Ho; simpl.
  - exists o. by rewrite app_nil_r.
  - assert (∃ o1, do_call c o = Some o1 ∧ output_ok o1 ∧ written o1 = written o ++ call_bytes c)
      as (o1 & -> & Ho1 & Hw) by (destruct c; [by apply Write_ok|by apply Format_ok]).
    simpl. destruct (IH o1 Ho1) as (o' & -> & Ho' & Hw'). exists o'.
    split_and!; [done|done|]. by rewrite Hw', Hw, <-app_assoc.
Qed.

(** Everything written arrives, in order. *)
Lemma write_file_ok cs : write_file cs = Some (concat (call_bytes <$> cs)).
Proof.
  unfold write_file. destruct (do_calls_ok cs new_output) as (o & -> & Ho & Hw).
  { split; simpl; unfold inv, capacity; simpl; [lia|rewrite fresh_length; lia]. }
  simpl. destruct (Flush_ok o Ho) as (o' & -> & _ & Hw' & Hr & _). simpl. f_equal.
  rewrite Hw in Hw'. unfold written in Hw'. rewrite Hr, app_nil_r in Hw'. by rewrite Hw'.
Qed.

End Defs.

End TextIO.

(** * Numbers in text files

    The conversions of [printf] and the parsers of [<stdlib.h>] that the database and state
    files use besides those of [Decimal]: [%li], [%f], [atoi] and [atof], and the
    conversions of [Chrono.hxx] between times and floating point seconds.  Doubles are the
    binary64 values of [SpecFloat]. *)


Module Numbers.
Local Open Scope Z_scope.
Import CString Decimal.

(** ** Integers *)

(** [%i] and [%li] *)
Definition print_signed (n : Z) : list Z :=
  if n <? 0 then 45 :: print_unsigned (- n) else print_unsigned n.

(** [atoi]: [strtol] cut down to [int]. *)
Definition atoi (s : list Z) : Z := Samples.to_signed 32 (strtol s).1.

(** [ParseUint64]; [unsigned long long] has the width of [unsigned long]. *)
Definition ParseUint64 (s : list Z) : Z := (strtoul s).1.

(** ** Doubles *)

Definition double := spec_float.
Definition dmul : double → double → double := SFmul 53 1024.
Definition ddiv : double → double → double := SFdiv 53 1024.
Definition double_of_Z (n : Z) : double := binary_normalize 53 1024 n 0 false.

(** [n / d] rounded to the nearest integer, ties to even. *)
Definition round_div (n d : Z) : Z :=
  let q := n / d in
  let r := n mod d in
  if 2 * r <? d then q
  else if d <? 2 * r then q + 1
  else if Z.even q then q else q + 1.

(** [n] as [k] decimal digits, with leading zeroes. *)
Definition zero_padded (k : nat) (n : Z) : list Z :=
  let ds := dec_digits k n in replicate (k - length ds) 48 ++ ds.

Definition minus (s : bool) : list Z := if s then [45] else [].

(** [%f]: the value times 10^6, rounded; 400 digits are enough for every double. *)
Definition print_double (x : double) : list Z :=
  match x with
  | S754_zero s => minus s ++ str "0.000000"
  | S754_infinity s => minus s ++ str "inf"
  | S754_nan => str "nan"
  | S754_finite s m e =>
      let n := round_div (Z.pos m * 2 ^ Z.max 0 e * 10 ^ 6) (2 ^ Z.max 0 (- e)) in
      minus s ++ dec_digits 400 (n / 10 ^ 6) ++ [46] ++ zero_padded 6 (n mod 10 ^ 6)
  end.

(** The double nearest to [m * 10^e]. *)
Definition decimal_to_double (neg : bool) (m e : Z) : double :=
  match m with
  | Z.pos p =>
      if 0 <=? e then binary_normalize 53 1024 ((if neg then -1 else 1) * (m * 10 ^ e)) 0 neg
      else match 10 ^ (- e) with
           | Z.pos q => ddiv (S754_finite neg p 0) (S754_finite false q 0)
           | _ => S754_nan
           end
  | _ => S754_zero neg
  end.

Definition hex_digit (c : Z) : option Z :=
  if isdigit c then Some (c - 48)
  else let c := tolower c in
       if (97 <=? c) && (c <=? 102) then Some (c - 87) else None.

Fixpoint span_hex (s : list Z) : list Z :=
  match s with
  | c :: s => match hex_digit c with Some d => d :: span_hex s | None => [] end
  | [] => []
  end.

(** The exponent behind the letter [e] (or [p]), if there is one. *)
Definition scan_exponent (letter : Z) (s : list Z) : Z :=
  if tolower (first s) =? letter then
    let s := drop 1 s in
    let '(neg, s) := match s with
                     | 45 :: s => (true, s)
                     | 43 :: s => (false, s)
                     | _ => (false, s)
                     end in
    let v := digits_value (span_digits s) in
    if neg then - v else v
  else 0.

(** The digits behind a decimal point. *)
Definition fraction (s : list Z) : list Z := if first s =? 46 then drop 1 s else [].

(** Digits with an optional fraction and exponent. *)
Definition scan_decimal (neg : bool) (s : list Z) : double :=
  let ds := span_digits s in
  let s := drop (length ds) s in
  let fs := span_digits (fraction s) in
  let s := if first s =? 46 then drop (1 + length fs) s else s in
  match ds ++ fs with
  | [] => S754_zero false
  | _ => decimal_to_double neg (digits_value (ds ++ fs))
           (scan_exponent 101 s - Z.of_nat (length fs))
  end.

(** The same in base 16, behind [0x]; [None] when no digit follows. *)
Definition scan_hex (neg : bool) (s : list Z) : option double :=
  let ds := span_hex s in
  let s := drop (length ds) s in
  let fs := span_hex (fraction s) in
  let s := if first s =? 46 then drop (1 + length fs) s else s in
  match ds ++ fs with
  | [] => None
  | _ =>
      let m := foldl (λ acc d, acc * 16 + d) 0 (ds ++ fs) in
      Some (binary_normalize 53 1024 ((if neg then -1 else 1) * m)
              (scan_exponent 112 s - 4 * Z.of_nat (length fs)) neg)
  end.

(** [atof]: white space, sign, and the longest prefix that is a number. *)
Definition atof (s : list Z) : double :=
  let s := drop (skip_space s) s in
  let '(neg, s) := match s with
                   | 45 :: s => (true, s)
                   | 43 :: s => (false, s)
                   | _ => (false, s)
                   end in
  let low := tolower <$> s in
  if starts_with low (str "inf") then S754_infinity neg
  else if starts_with low (str "nan") then S754_nan
  else match (if starts_with low (str "0x") then scan_hex neg (drop 2 s) else None) with
       | Some x => x
       | None => scan_decimal neg s
       end.

(** ** Times *)

(** [ToDoubleS] *)
Definition ToDoubleS (ms : Z) : double := ddiv (double_of_Z ms) (double_of_Z 1000).

(** [SignedSongTime::FromS(double)]: undefined when the result does not fit. *)
Definition SignedFromS (x : double) : option Z :=
  Samples.truncate 32 (dmul x (double_of_Z 1000)).

(** [SongTime::FromS(double)] *)
Definition UnsignedFromS (x : double) : option Z :=
  n ← Samples.truncate 64 (dmul x (double_of_Z 1000));
  assert! (0 <=? n) && (n <? 2 ^ 32) ;; Some n.

(** ** Lemmas *)

Lemma strtol_print_signed n rest : LONG_MIN ≤ n ≤ LONG_MAX → isdigit (first rest) = false →
  (strtol (print_signed n ++ rest)).1 = n.
Proof.
  intros Hn Hr. unfold print_signed. destruct (n <? 0) eqn:E.
  - unfold LONG_MIN, LONG_MAX in *.
    destruct (print_unsigned_digits (- n)) as [Hd Hne]; [unfold ULONG_MAX; lia|].
    unfold strtol, scan. cbn [app skip_space]. change (isspace 45) with false. cbn iota. rewrite drop_0.
    change (drop 1 (45 :: print_unsigned (- n) ++ rest)) with (print_unsigned (- n) ++ rest).
    rewrite span_digits_app by done.
    destruct (print_unsigned (- n)) as [|c ds] eqn:Ep; [done|]. rewrite <-Ep.
    unfold print_unsigned. destruct (dec_digits_ok 20 (- n)) as (-> & _); [lia|].
    unfold LONG_MIN, LONG_MAX. simpl. lia.
  - by rewrite strtol_print by lia.
Qed.

Lemma to_signed_small w x : 0 < w → - 2 ^ (w - 1) ≤ x < 2 ^ (w - 1) → Samples.to_signed w x = x.
Proof.
  intros Hw Hx. unfold Samples.to_signed.
  assert (2 ^ w = 2 * 2 ^ (w - 1)) by (rewrite <-Z.pow_succ_r by lia; f_equal; lia).
  rewrite Z.mod_small; lia.
Qed.

Lemma atoi_print n rest : - 2 ^ 31 ≤ n < 2 ^ 31 → isdigit (first rest) = false →
  atoi (print_signed n ++ rest) = n.
Proof.
  intros Hn Hr. unfold atoi. rewrite strtol_print_signed by (unfold LONG_MIN, LONG_MAX; lia || done).
  by apply to_signed_small.
Qed.

(** The characters of printed numbers. *)
Definition number_char (c : Z) : bool := isdigit c || (c =? 45) || (c =? 46).

Lemma print_signed_chars n : LONG_MIN ≤ n ≤ LONG_MAX →
  Forall (λ c, number_char c = true) (print_signed n).
Proof.
  intros Hn. unfold print_signed, LONG_MIN, LONG_MAX in *. destruct (n <? 0) eqn:E.
  - destruct (print_unsigned_digits (- n)) as [Hd _]; [unfold ULONG_MAX; lia|].
    constructor; [done|]. eapply Forall_impl; [exact Hd|]. unfold number_char. by intros c ->.
  - destruct (print_unsigned_digits n) as [Hd _]; [unfold ULONG_MAX; lia|].
    eapply Forall_impl; [exact Hd|]. unfold number_char. by intros c ->.
Qed.

(** A time that was printed and read again. *)
Definition stored_time (ms : Z) : option Z := SignedFromS (atof (print_double (ToDoubleS ms))).

End Numbers.
