(* ===== verification/SongFilter.v ===== *)
(** * Song filters

    [SongFilter.cxx] and [db/LightSong.hxx]: the criteria of the commands [find], [search]
    and their relatives, parsed from their arguments and matched against songs.  Case
    folding and collation are third-party code ([lib/icu]), the class [Icu].  The theorem
    says what a filter accepts in terms of the arguments it was made from. *)

From Stdlib Require Import ZArith Lia ZifyBool.
From stdpp Require Import base numbers sets strings list.
From S2P Require Import Prelude CString UriUtil Decimal Tag Song Samples.

Set Default Goal Selector "!".

Module SongFilter.
Import CString Tag.

(** ** Songs of the database *)

(** [struct LightSong]; the pointers that may be null are options. *)
Record LightSong := mkLightSong {
  directory : option (list Z);
  uri : list Z;
  real_uri : option (list Z);
  tag : Tag;
  mtime : Z;
  start_time : Z;
  end_time : Z;
}.

#[export] Instance LightSong_eq_dec : EqDecision LightSong.
Proof. solve_decision. Defined.

Definition GetURI (s : LightSong) : list Z :=
  match directory s with
  | None => uri s
  | Some d => d ++ UriUtil.slash :: uri s
  end.

Definition GetDuration (s : LightSong) : Z :=
  if Song.IsPositive (end_time s) then Song.SignedSongTime_of (Song.time_sub (end_time s) (start_time s))
  else if IsNegative (duration (tag s)) then duration (tag s)
  else Song.SignedSongTime_of (Song.time_sub (Song.SongTime_of (duration (tag s))) (start_time s)).

(** ** Third-party functions *)

Class Icu := {
  IcuCaseFold : list Z → list Z;
  IcuCollate : list Z → list Z → Z
}.

(** ** [strptime(s, "%FT%TZ")] and [timegm] *)

(** Up to [n] digits, as long as the number may stay below [hi]. *)
Fixpoint take_digits (n : nat) (hi acc : Z) (s : list Z) : Z * list Z :=
  match n, s with
  | S n, c :: s' =>
      if Decimal.isdigit c && (acc * 10 <=? hi)%Z
      then take_digits n hi (acc * 10 + (c - 48))%Z s' else (acc, s)
  | _, _ => (acc, s)
  end.

(** A number between [lo] and [hi], behind white space. *)
Definition get_number (lo hi : Z) (n : nat) (s : list Z) : option (Z * list Z) :=
  let s := drop (Decimal.skip_space s) s in
  if Decimal.isdigit (first s) then
    let '(v, s) := take_digits n hi 0 s in
    if (lo <=? v)%Z && (v <=? hi)%Z then Some (v, s) else None
  else None.

(** A literal character of the format. *)
Definition get_char (c : Z) (s : list Z) : option (list Z) :=
  if (first s =? c)%Z then Some (drop 1 s) else None.

(** Days from 1970-01-01 to the first of March of the year [y]. *)
Definition days_to_march (y : Z) : Z := (365 * y + y / 4 - y / 100 + y / 400 - 719468)%Z.

(** [timegm], with a month in 1 .. 12; a day behind the end of the month counts on. *)
Definition timegm (y m d hh mm ss : Z) : Z :=
  let '(y, m) := if (m <=? 2)%Z then (y - 1, m + 9)%Z else (y, m - 3)%Z in
  ((days_to_march y + (153 * m + 2) / 5 + (d - 1)) * 86400 + hh * 3600 + mm * 60 + ss)%Z.

Definition strptime (s : list Z) : option (Z * list Z) :=
  '(y, s) ← get_number 0 9999 4 s; s ← get_char 45 s;
  '(m, s) ← get_number 1 12 2 s; s ← get_char 45 s;
  '(d, s) ← get_number 1 31 2 s; s ← get_char 84 s;
  '(hh, s) ← get_number 0 23 2 s; s ← get_char 58 s;
  '(mm, s) ← get_number 0 59 2 s; s ← get_char 58 s;
  '(ss, s) ← get_number 0 61 2 s; s ← get_char 90 s;
  Some (timegm y m d hh mm ss, s).

Definition ParseTimeStamp (s : list Z) : Z :=
  let '(value, endptr) := Decimal.strtoul s in
  if (endptr =? length s) && (0 <? endptr) then Samples.to_signed 64 value
  else match strptime s with
       | Some (t, []) => t
       | _ => 0%Z
       end.

(** ** Criteria *)

(** The pseudo tags, as numbers behind [TAG_NUM_OF_ITEM_TYPES]. *)
Definition LOCATE_TAG_BASE_TYPE : nat := 20 + 1.
Definition LOCATE_TAG_MODIFIED_SINCE : nat := 20 + 2.
Definition LOCATE_TAG_FILE_TYPE : nat := 20 + 10.
Definition LOCATE_TAG_ANY_TYPE : nat := 20 + 20.

Definition locate_parse_type (s : list Z) : nat :=
  if StringEqualsCaseASCII s (str "file") || StringEqualsCaseASCII s (str "filename")
  then LOCATE_TAG_FILE_TYPE
  else if StringEqualsCaseASCII s (str "any") then LOCATE_TAG_ANY_TYPE
  else if streq s (str "base") then LOCATE_TAG_BASE_TYPE
  else if streq s (str "modified-since") then LOCATE_TAG_MODIFIED_SINCE
  else tag_index (tag_name_parse_i s).

Section Filter.
Context `{!Icu}.

Definition ImportString (p : list Z) (fold_case : bool) : list Z :=
  if fold_case then IcuCaseFold p else p.

(** [SongFilter::Item].  The constructor for time stamps leaves [fold_case] unset and the
    value null; the other one leaves the time unset. *)
Record Item := mkItem {
  i_tag : nat; i_fold_case : option bool; i_value : option (list Z); i_time : option Z }.

Definition string_item (_tag : nat) (_value : list Z) (_fold_case : bool) : Item :=
  mkItem _tag (Some _fold_case) (Some (ImportString _value _fold_case)) None.

Definition time_item (_tag : nat) (_time : Z) : Item := mkItem _tag None None (Some _time).

Definition StringMatch (i : Item) (s : list Z) : option bool :=
  assert! negb (i_tag i =? LOCATE_TAG_MODIFIED_SINCE) ;;
  fold_case ← i_fold_case i;
  value ← i_value i;
  Some (if (fold_case : bool) then bool_decide (is_Some (strstr (IcuCaseFold s) value))
        else streq s value).

(** [Item::Match(const TagItem &)] *)
Definition Match_TagItem (i : Item) (item : TagItem) : option bool :=
  if (i_tag i =? LOCATE_TAG_ANY_TYPE) || (tag_index (type item) =? i_tag i)
  then StringMatch i (value item) else Some false.

(** The sweep through the items of a tag: whether one matched, and the visited types. *)
Fixpoint Match_items (i : Item) (l : list TagItem) (visited_types : list bool)
    : option (bool * list bool) :=
  match l with
  | [] => Some (false, visited_types)
  | item :: l =>
      visited_types ← store (tag_index (type item)) true visited_types;
      b ← Match_TagItem i item;
      if (b : bool) then Some (true, visited_types) else Match_items i l visited_types
  end.

(** The sweep for the artist that stands in for the album artist. *)
Fixpoint Match_artist (i : Item) (l : list TagItem) : option bool :=
  match l with
  | [] => Some false
  | item :: l =>
      b ← (if decide (type item = TAG_ARTIST) then StringMatch i (value item) else Some false);
      if (b : bool) then Some true else Match_artist i l
  end.

(** [Item::Match(const Tag &)] *)
Definition Match_Tag (i : Item) (_tag : Tag) : option bool :=
  r ← Match_items i (items _tag) (replicate 20 false);
  if (r.1 : bool) then Some true
  else if i_tag i <? 20 then
    visited ← r.2 !! i_tag i;
    if negb visited then
      value ← i_value i;
      if (length value =? 0) then Some true
      else
        artist ← r.2 !! tag_index TAG_ARTIST;
        if (i_tag i =? tag_index TAG_ALBUM_ARTIST) && artist then Match_artist i (items _tag)
        else Some false
    else Some false
  else Some false.

(** [Item::Match] for the two kinds of songs, which differ in their accessors only. *)
Definition Match_song (i : Item) (_uri : list Z) (_mtime : Z) (_tag : Tag) : option bool :=
  if i_tag i =? LOCATE_TAG_BASE_TYPE then
    value ← i_value i; Some (UriUtil.uri_is_child_or_same value _uri)
  else if i_tag i =? LOCATE_TAG_MODIFIED_SINCE then
    time ← i_time i; Some (time <=? _mtime)%Z
  else if i_tag i =? LOCATE_TAG_FILE_TYPE then StringMatch i _uri
  else Match_Tag i _tag.

Definition Item_Match_Light (i : Item) (s : LightSong) : option bool :=
  Match_song i (GetURI s) (mtime s) (tag s).

Definition Item_Match_Detached (i : Item) (s : Song.DetachedSong) : option bool :=
  Match_song i (Song.GetURI s) (Song.GetLastModified s) (Song.GetTag s).

(** ** Filters *)

Definition SongFilter := list Item.

(** [Parse(tag, value, fold_case)]: the result and the filter. *)
Definition Parse (tag_string value : list Z) (fold_case : bool) (f : SongFilter)
    : option (bool * SongFilter) :=
  let tag := locate_parse_type tag_string in
  if tag =? 20 then Some (false, f)
  else
    base ← (if tag =? LOCATE_TAG_BASE_TYPE then
              safe ← UriUtil.uri_safe_local value;
              Some (if (safe : bool) then Some false else None)
            else Some (Some fold_case));
    match base with
    | None => Some (false, f)
    | Some fold_case =>
        if tag =? LOCATE_TAG_MODIFIED_SINCE then
          let t := ParseTimeStamp value in
          if (t =? 0)%Z then Some (false, f)
          else Some (true, f ++ [time_item tag t])
        else Some (true, f ++ [string_item tag value fold_case])
    end.

(** The loop over pairs of arguments. *)
Fixpoint Parse_pairs (args : list (list Z)) (fold_case : bool) (f : SongFilter)
    : option (bool * SongFilter) :=
  match args with
  | tag :: value :: args =>
      r ← Parse tag value fold_case f;
      if (r.1 : bool) then Parse_pairs args fold_case r.2 else Some (false, r.2)
  | _ => Some (true, f)
  end.

(** [Parse(args, fold_case)] *)
Definition Parse_args (args : list (list Z)) (fold_case : bool) (f : SongFilter)
    : option (bool * SongFilter) :=
  if (length args =? 0) || negb (length args mod 2 =? 0) then Some (false, f)
  else Parse_pairs args fold_case f.

(** A loop that stops at the first element for which [test] does not hold. *)
Fixpoint all_match {A} (test : A → option bool) (l : list A) : option bool :=
  match l with
  | [] => Some true
  | i :: l => b ← test i; if (b : bool) then all_match test l else Some false
  end.

Definition Match_Light (f : SongFilter) (s : LightSong) : option bool :=
  all_match (λ i, Item_Match_Light i s) f.

Definition Match_Detached (f : SongFilter) (s : Song.DetachedSong) : option bool :=
  all_match (λ i, Item_Match_Detached i s) f.

Definition IsEmpty (f : SongFilter) : bool := length f =? 0.

(** Reads an unset [fold_case] when a time stamp comes first. *)
Fixpoint HasFoldCase (f : SongFilter) : option bool :=
  match f with
  | [] => Some false
  | i :: f => b ← i_fold_case i; if (b : bool) then Some true else HasFoldCase f
  end.

Definition HasOtherThanBase (f : SongFilter) : bool :=
  existsb (λ i, negb (i_tag i =? LOCATE_TAG_BASE_TYPE)) f.

(** The outer [None] is a null [value] of a base item. *)
Fixpoint GetBase (f : SongFilter) : option (option (list Z)) :=
  match f with
  | [] => Some None
  | i :: f => if i_tag i =? LOCATE_TAG_BASE_TYPE then Some <$> i_value i else GetBase f
  end.

(** ** Specification *)

(** A text satisfies a criterion: equal, or containing the value when case is folded. *)
Definition accepts (fold_case : bool) (v s : list Z) : Prop :=
  if fold_case then ∃ a b, IcuCaseFold s = a ++ IcuCaseFold v ++ b else s = v.

(** The values searched for a tag type: the artists stand in for missing album artists. *)
Definition candidates (ty : TagType) (l : list TagItem) : list (list Z) :=
  match values_of ty l with
  | [] => if decide (ty = TAG_ALBUM_ARTIST) then values_of TAG_ARTIST l else []
  | vs => vs
  end.

Definition tag_criterion (fold_case : bool) (t : nat) (v : list Z) (l : list TagItem) : Prop :=
  if decide (t = LOCATE_TAG_ANY_TYPE) then ∃ i, i ∈ l ∧ accepts fold_case v (value i)
  else ∃ ty, tag_index ty = t ∧
    ((∃ x, x ∈ candidates ty l ∧ accepts fold_case v x) ∨
     (values_of ty l = [] ∧ ImportString v fold_case = [])).

(** What the criterion [name value] of a command demands of a song. *)
Definition criterion (fold_case : bool) (name v _uri : list Z) (_mtime : Z) (_tag : Tag) : Prop :=
  let t := locate_parse_type name in
  if decide (t = LOCATE_TAG_BASE_TYPE) then _uri = v ∨ ∃ r, _uri = v ++ UriUtil.slash :: r
  else if decide (t = LOCATE_TAG_MODIFIED_SINCE) then (ParseTimeStamp v ≤ _mtime)%Z
  else if decide (t = LOCATE_TAG_FILE_TYPE) then accepts fold_case v _uri
  else tag_criterion fold_case t v (items _tag).

Fixpoint pairs (args : list (list Z)) : list (list Z * list Z) :=
  match args with
  | name :: v :: args => (name, v) :: pairs args
  | _ => []
  end.

(** ** Items *)

Lemma strstr_spec s needle : is_Some (strstr s needle) ↔ ∃ a b, s = a ++ needle ++ b.
Proof.
  split.
  - intros [i Hi]. apply strstr_Some in Hi as [Hs _]. by eexists _, _.
  - intros (a & b & E). destruct (strstr s needle) eqn:En; [done|].
    rewrite strstr_None in En. by destruct (En a b).
Qed.

Lemma StringMatch_ok t v fold_case s : t ≠ LOCATE_TAG_MODIFIED_SINCE →
  ∃ b, StringMatch (string_item t v fold_case) s = Some b ∧ (b = true ↔ accepts fold_case v s).
Proof.
  intros Ht. unfold StringMatch, string_item. simpl i_tag.
  rewrite check_bind by (apply negb_true_iff, Nat.eqb_neq; done). simpl. eexists. split; [done|].
  unfold accepts, ImportString, streq. destruct fold_case; rewrite bool_decide_eq_true; [|done].
  apply strstr_spec.
Qed.

Definition visited_ok (visited : list bool) (l : list TagItem) : Prop :=
  length visited = 20 ∧ ∀ ty, ty ≠ TAG_NUM_OF_ITEM_TYPES →
    visited !! tag_index ty = Some (bool_decide (ty ∈ types_of l)).

Lemma visited_empty : visited_ok (replicate 20 false) [].
Proof.
  split; [done|]. intros ty Hty. rewrite lookup_replicate_2 by (by apply tag_index_lt). done.
Qed.

Lemma visited_step visited l item : visited_ok visited l → type item ≠ TAG_NUM_OF_ITEM_TYPES →
  ∃ visited', store (tag_index (type item)) true visited = Some visited' ∧
    visited_ok visited' (l ++ [item]).
Proof.
  intros [Hl Hv] Ht. rewrite store_Some by (rewrite Hl; by apply tag_index_lt).
  eexists. split; [done|]. split; [by rewrite length_insert|]. intros ty Hty.
  unfold types_of. rewrite fmap_app. simpl. destruct (decide (ty = type item)) as [->|Hne].
  - rewrite list_lookup_insert_eq by (rewrite Hl; by apply tag_index_lt).
    rewrite bool_decide_eq_true_2; [done|]. set_solver.
  - rewrite list_lookup_insert_ne by (intros E; by apply tag_index_inj in E).
    rewrite (Hv ty Hty). unfold types_of. f_equal. apply bool_decide_ext. set_solver.
Qed.

Lemma Match_TagItem_ok t v fold_case item : t ≠ LOCATE_TAG_MODIFIED_SINCE →
  ∃ b, Match_TagItem (string_item t v fold_case) item = Some b ∧
    (b = true ↔ (t = LOCATE_TAG_ANY_TYPE ∨ tag_index (type item) = t) ∧
       accepts fold_case v (value item)).
Proof.
  intros Ht. unfold Match_TagItem. simpl i_tag. case_match eqn:E.
  - destruct (StringMatch_ok t v fold_case (value item) Ht) as (b & -> & Hb). exists b.
    split; [done|]. rewrite Hb. split; [|tauto]. intros Ha. split; [|done]. lia.
  - exists false. split; [done|]. split; [done|]. intros [Hx _]. lia.
Qed.

Lemma Match_items_ok t v fold_case l k visited : t ≠ LOCATE_TAG_MODIFIED_SINCE →
  valid_items l → visited_ok visited k →
  ∃ b visited', Match_items (string_item t v fold_case) l visited = Some (b, visited') ∧
    (b = true ↔ ∃ item, item ∈ l ∧ (t = LOCATE_TAG_ANY_TYPE ∨ tag_index (type item) = t) ∧
       accepts fold_case v (value item)) ∧
    (b = false → visited_ok visited' (k ++ l)).
Proof.
  intros Ht. revert k visited. induction l as [|item l IH]; intros k visited Hl Hv; cbn [Match_items].
  - exists false, visited. split_and!; [done| |by rewrite app_nil_r]. set_solver.
  - apply Forall_cons in Hl as [Hi Hl].
    destruct (visited_step visited k item Hv Hi) as (visited1 & -> & Hv1). simpl.
    destruct (Match_TagItem_ok t v fold_case item Ht) as (b & -> & Hb). simpl. destruct b.
    + exists true, visited1. split_and!; [done| |done]. split; [|done]. intros _.
      exists item. split; [by left|]. by apply Hb.
    + destruct (IH (k ++ [item]) visited1 Hl Hv1) as (b & visited2 & -> & Hb2 & Hv2).
      exists b, visited2. split_and!; [done| |by rewrite <-app_assoc in Hv2].
      rewrite Hb2. split.
      * intros (x & Hx & Hacc). exists x. split; [by right|done].
      * intros (x & [->|Hx]%elem_of_cons & Hacc); [|by exists x]. by apply Hb in Hacc.
Qed.

Lemma elem_of_values ty l x :
  x ∈ values_of ty l ↔ ∃ item, item ∈ l ∧ type item = ty ∧ value item = x.
Proof.
  unfold values_of. rewrite list_elem_of_fmap. split.
  - intros (item & -> & [Ht Hi]%list_elem_of_filter). by exists item.
  - intros (item & Hi & Ht & <-). exists item. split; [done|]. by apply list_elem_of_filter.
Qed.

Lemma Match_artist_ok t v fold_case l : t ≠ LOCATE_TAG_MODIFIED_SINCE →
  ∃ b, Match_artist (string_item t v fold_case) l = Some b ∧
    (b = true ↔ ∃ x, x ∈ values_of TAG_ARTIST l ∧ accepts fold_case v x).
Proof.
  intros Ht. induction l as [|item l (b & IH & Hb)]; cbn [Match_artist].
  - exists false. split; [done|]. split; [done|]. by intros (x & ?%not_elem_of_nil & _).
  - assert (∃ c, (if decide (type item = TAG_ARTIST) then
        StringMatch (string_item t v fold_case) (value item) else Some false) = Some c ∧
        (c = true ↔ type item = TAG_ARTIST ∧ accepts fold_case v (value item))) as (c & -> & Hc).
    { case_decide as E.
      - destruct (StringMatch_ok t v fold_case (value item) Ht) as (c & -> & Hc). exists c.
        rewrite Hc. tauto.
      - exists false. split; [done|]. split; [done|tauto]. }
    simpl. setoid_rewrite elem_of_values in Hb. setoid_rewrite elem_of_values. destruct c.
    + exists true. split; [done|]. split; [|done]. intros _. destruct Hc as [Hc _].
      destruct (Hc eq_refl) as [??]. exists (value item). split; [|done].
      exists item. split_and!; [by left|done|done].
    + exists b. split; [done|]. rewrite Hb. split.
      * intros (x & (i & Hi & Hx) & Ha). exists x. split; [|done]. exists i. split; [by right|done].
      * intros (x & (i & [->|Hi]%elem_of_cons & Hx & <-) & Ha); [|exists (value i); split; [by exists i|done]].
        destruct Hc as [_ Hc]. by specialize (Hc (conj Hx Ha)).
Qed.

Lemma in_values_types ty l : ty ∈ types_of l ↔ values_of ty l ≠ [].
Proof.
  split.
  - intros (i & -> & Hi)%list_elem_of_fmap Hn.
    assert (value i ∈ values_of (type i) l) as Hv by (apply elem_of_values; by exists i).
    rewrite Hn in Hv. by apply not_elem_of_nil in Hv.
  - intros Hn. destruct (decide (ty ∈ types_of l)) as [|Hni]; [done|].
    by apply values_of_absent in Hni.
Qed.

(** The tag index of a criterion: a tag type, or the pseudo type for all of them. *)
Definition tag_like (t : nat) : Prop :=
  t = LOCATE_TAG_ANY_TYPE ∨ ∃ ty, ty ≠ TAG_NUM_OF_ITEM_TYPES ∧ t = tag_index ty.

Lemma Match_any_ok v fold_case tg : valid_items (items tg) →
  ∃ b, Match_Tag (string_item LOCATE_TAG_ANY_TYPE v fold_case) tg = Some b ∧
    (b = true ↔ tag_criterion fold_case LOCATE_TAG_ANY_TYPE v (items tg)).
Proof.
  intros Hv. unfold Match_Tag, tag_criterion. rewrite decide_True by done.
  destruct (Match_items_ok LOCATE_TAG_ANY_TYPE v fold_case (items tg) [] (replicate 20 false))
    as (b & vis & -> & Hb & _); [done|done|apply visited_empty|].
  exists b. split; [by destruct b|]. rewrite Hb. split; intros (i & ? & ?); exists i; tauto.
Qed.

Lemma tag_criterion_type ty v fold_case l : ty ≠ TAG_NUM_OF_ITEM_TYPES →
  tag_criterion fold_case (tag_index ty) v l ↔
  (∃ x, x ∈ candidates ty l ∧ accepts fold_case v x) ∨
  (values_of ty l = [] ∧ ImportString v fold_case = []).
Proof.
  intros Hty. pose proof (tag_index_lt ty Hty) as Hlt. unfold tag_criterion.
  rewrite decide_False by (unfold LOCATE_TAG_ANY_TYPE; lia).
  split; [by intros (ty' & ->%tag_index_inj & ?)|]. by exists ty.
Qed.

Lemma Match_type_ok ty v fold_case tg : ty ≠ TAG_NUM_OF_ITEM_TYPES → valid_items (items tg) →
  ∃ b, Match_Tag (string_item (tag_index ty) v fold_case) tg = Some b ∧
    (b = true ↔ tag_criterion fold_case (tag_index ty) v (items tg)).
Proof.
  intros Hty Hv. pose proof (tag_index_lt ty Hty) as Hlt.
  setoid_rewrite tag_criterion_type; [|done]. unfold Match_Tag.
  assert (tag_index ty ≠ LOCATE_TAG_ANY_TYPE) as Hany by (unfold LOCATE_TAG_ANY_TYPE; lia).
  assert (tag_index ty ≠ LOCATE_TAG_MODIFIED_SINCE) as Hmod by (unfold LOCATE_TAG_MODIFIED_SINCE; lia).
  destruct (Match_items_ok (tag_index ty) v fold_case (items tg) [] (replicate 20 false))
    as (b & vis & -> & Hb & Hvis); [done|done|apply visited_empty|].
  cbn [mbind option_bind fst snd]. simpl i_tag. rewrite (proj2 (Nat.ltb_lt _ _) Hlt).
  assert (Hb' : b = true ↔ ∃ x, x ∈ values_of ty (items tg) ∧ accepts fold_case v x).
  { rewrite Hb. split.
    - intros (i & Hi & [?|E%tag_index_inj] & Ha); [done|]. exists (value i).
      rewrite elem_of_values. split; [by exists i|done].
    - intros (x & (i & Hi & <- & <-)%elem_of_values & Ha). exists i. tauto. }
  clear Hb. unfold candidates. destruct b.
  - exists true. split; [done|]. split; [|done]. intros _. left.
    destruct Hb' as [Hb' _]. destruct (Hb' eq_refl) as (x & Hx & Ha). exists x.
    destruct (values_of ty (items tg)); [by apply not_elem_of_nil in Hx|done].
  - destruct (Hvis eq_refl) as [_ Hvisited]. simpl in Hvisited. rewrite (Hvisited ty Hty).
    cbn [mbind option_bind]. case_bool_decide as Hin; cbn [negb].
    + exists false. split; [done|]. split; [done|]. apply in_values_types in Hin.
      intros [Hx|[? _]]; [|done]. apply Hb'. by destruct (values_of ty (items tg)).
    + assert (values_of ty (items tg) = []) as Hnil by (by apply values_of_absent). rewrite Hnil.
      unfold string_item. simpl i_value. cbn [mbind option_bind].
      destruct (length (ImportString v fold_case) =? 0) eqn:E.
      { exists true. split; [done|]. split; [|done]. intros _. right. split; [done|].
        apply nil_length_inv. lia. }
      assert (ImportString v fold_case ≠ []) as Hne by (intros Hx; rewrite Hx in E; done).
      rewrite (Hvisited TAG_ARTIST) by done. cbn [mbind option_bind].
      destruct (decide (ty = TAG_ALBUM_ARTIST)) as [->|Hna].
      * simpl andb. case_bool_decide as Ha.
        -- destruct (Match_artist_ok (tag_index TAG_ALBUM_ARTIST) v fold_case (items tg) Hmod)
             as (b & Eb & Hb). exists b. split; [exact Eb|]. rewrite Hb. naive_solver.
        -- exists false. split; [done|]. split; [done|]. rewrite (values_of_absent _ _ Ha).
           intros [(x & ?%not_elem_of_nil & _)|[_ ?]]; done.
      * exists false. split.
        -- case_match eqn:Ea; [|done]. exfalso. apply andb_true_iff in Ea as [Ea _].
           apply Nat.eqb_eq, tag_index_inj in Ea. done.
        -- split; [done|]. intros [(x & ?%not_elem_of_nil & _)|[_ ?]]; done.
Qed.

(** ** Parsing *)

Lemma tag_name_index name : tag_index (tag_name_parse_i name) ≠ 20 →
  tag_name_parse_i name ≠ TAG_NUM_OF_ITEM_TYPES.
Proof. intros Hn E. by rewrite E in Hn. Qed.

(** What an accepted criterion adds to the filter, and when that matches. *)
Lemma Parse_ok name v fold_case f f' : Parse name v fold_case f = Some (true, f') →
  ∃ i, f' = f ++ [i] ∧ ∀ u t tg, valid_items (items tg) →
    ∃ b, Match_song i u t tg = Some b ∧ (b = true ↔ criterion fold_case name v u t tg).
Proof.
  unfold Parse, criterion. set (t := locate_parse_type name).
  destruct (t =? 20) eqn:E20; [done|].
  destruct (t =? LOCATE_TAG_BASE_TYPE) eqn:Eb.
  - destruct (UriUtil.uri_safe_local v) as [[]|]; simpl; [|done..].
    replace (t =? LOCATE_TAG_MODIFIED_SINCE) with false
      by (unfold LOCATE_TAG_BASE_TYPE, LOCATE_TAG_MODIFIED_SINCE in *; lia).
    intros [= <-]. eexists. split; [done|]. intros u tm tg _. unfold Match_song. simpl i_tag.
    rewrite Eb, decide_True by lia. simpl. eexists. split; [done|].
    unfold UriUtil.uri_is_child_or_same, streq.
    rewrite orb_true_iff, bool_decide_eq_true, UriUtil.uri_is_child_correct. naive_solver.
  - cbn [mbind option_bind]. destruct (t =? LOCATE_TAG_MODIFIED_SINCE) eqn:Em.
    + destruct (ParseTimeStamp v =? 0)%Z eqn:Et; [done|]. intros [= <-]. eexists. split; [done|].
      intros u tm tg _. unfold Match_song. simpl i_tag. rewrite Eb, Em, decide_False, decide_True by lia.
      simpl. eexists. split; [done|]. apply Z.leb_le.
    + intros [= <-]. eexists. split; [done|]. intros u tm tg Htg.
      unfold Match_song. simpl i_tag. rewrite Eb, Em, !decide_False by lia.
      destruct (t =? LOCATE_TAG_FILE_TYPE) eqn:Ef.
      { rewrite decide_True by lia. apply StringMatch_ok. lia. }
      rewrite decide_False by lia.
      assert (tag_like t) as [->|(ty & Hty & ->)].
      { subst t. unfold locate_parse_type, tag_like in *.
        repeat (case_match; [first [by left | lia]|]). right.
        exists (tag_name_parse_i name). split; [|done]. apply tag_name_index. lia. }
      * by apply Match_any_ok.
      * by apply Match_type_ok.
Qed.

Lemma Parse_pairs_ok n args fold_case f f' : length args = 2 * n →
  Parse_pairs args fold_case f = Some (true, f') →
  ∃ l, f' = f ++ l ∧ Forall2 (λ p i, ∀ u t tg, valid_items (items tg) →
    ∃ b, Match_song i u t tg = Some b ∧ (b = true ↔ criterion fold_case p.1 p.2 u t tg))
    (pairs args) l.
Proof.
  revert args f. induction n as [|n IH]; intros args f Hl.
  - destruct args; [|simpl in Hl; lia]. intros [= <-]. exists []. by rewrite app_nil_r.
  - destruct args as [|name [|v args]]; simpl in Hl; try lia. cbn [Parse_pairs pairs].
    destruct (Parse name v fold_case f) as [[[] f1]|] eqn:E; simpl; [|done..].
    intros (l & -> & Hall)%IH; [|lia]. apply Parse_ok in E as (i & -> & Hi).
    exists (i :: l). split; [by rewrite <-app_assoc|]. by constructor.
Qed.

(** A filter made from arguments matches exactly what all its criteria demand. *)
Lemma filter_ok args fold_case f u t tg :
  Parse_args args fold_case [] = Some (true, f) → valid_items (items tg) →
  ∃ b, all_match (λ i, Match_song i u t tg) f = Some b ∧
    (b = true ↔ Forall (λ p, criterion fold_case p.1 p.2 u t tg) (pairs args)).
Proof.
  unfold Parse_args. destruct (_ || _) eqn:E; [done|]. intros Hp Htg.
  apply (Parse_pairs_ok (length args / 2)) in Hp as (l & -> & Hall).
  2:{ pose proof (Nat.div_mod_eq (length args) 2). lia. }
  simpl. revert Hall. generalize (pairs args). intros ps Hall.
  induction Hall as [|p i ps l Hi _ (c & E' & Hc)]; simpl.
  - exists true. by rewrite Forall_nil.
  - destruct (Hi u t tg Htg) as (b & -> & Hb). simpl. setoid_rewrite Forall_cons. destruct b.
    + exists c. split; [done|]. rewrite Hc. tauto.
    + exists false. split; [done|]. split; [done|]. intros [Hx%Hb _]. done.
Qed.

(** C23: song filters.  A filter parsed from the arguments of [find] or [search] never fails
    an assertion or reads an unset field when it is matched, and it matches a song exactly
    when the song satisfies every criterion: its URI is the value, or below it for [base];
    it is not older than the time stamp; or one of its values for the tag (for the album
    artist, in its absence, the artist; for [any], every tag) equals the value or, when
    case is ignored, contains it; an empty value asks for the absence of the tag. *)
Theorem song_filter_correct args fold_case f (s : LightSong) (d : Song.DetachedSong) :
  Parse_args args fold_case [] = Some (true, f) →
  valid_items (items (tag s)) → valid_items (items (Song.tag d)) →
  (∃ b, Match_Light f s = Some b ∧
     (b = true ↔ Forall (λ p, criterion fold_case p.1 p.2 (GetURI s) (mtime s) (tag s)) (pairs args))) ∧
  (∃ b, Match_Detached f d = Some b ∧
     (b = true ↔ Forall (λ p, criterion fold_case p.1 p.2 (Song.uri d) (Song.mtime d) (Song.tag d))
                  (pairs args))).
Proof. intros Hp Hs Hd. split; by apply filter_ok. Qed.

End Filter.

(** ASCII case folding, and the order of bytes. *)
Fixpoint compare_bytes (a b : list Z) : Z :=
  match a, b with
  | [], [] => 0
  | [], _ :: _ => -1
  | _ :: _, [] => 1
  | x :: a, y :: b => if (x <? y)%Z then -1 else if (y <? x)%Z then 1 else compare_bytes a b
  end.

#[export] Instance ascii_icu : Icu := {|
  IcuCaseFold s := tolower <$> s;
  IcuCollate := compare_bytes
|}.

Example time_stamps :
  ParseTimeStamp (str "1234567890") = 1234567890%Z ∧
  ParseTimeStamp (str "2009-02-13T23:31:30Z") = 1234567890%Z ∧
  ParseTimeStamp (str "2009-02-13") = 0%Z.
Proof. vm_compute. done. Qed.

Lemma song_filter_correct_witness :
  let s := mkLightSong (Some (str "rock")) (str "a.ogg") None
             (mkTag 180000 false [mkTagItem TAG_ARTIST (str "The Band")]) 1000 0 0 in
  let d := Song.of_uri (str "rock/b.ogg") in
  let f := [string_item 4 (str "the b") true; string_item 21 (str "rock") false] in
  Parse_args [str "albumartist"; str "the b"; str "base"; str "rock"] true [] = Some (true, f) ∧
  Match_Light f s = Some true ∧ Match_Detached f d = Some false.
Proof.
  intros s d f.
  assert (Hp : Parse_args [str "albumartist"; str "the b"; str "base"; str "rock"] true []
    = Some (true, f)) by (vm_compute; reflexivity).
  destruct (song_filter_correct _ _ _ s d Hp) as [(b & E & _) (c & E' & _)].
  { apply (bool_decide_unpack _). vm_compute. exact I. }
  { constructor. }
  rewrite E, E'. split; [exact Hp|].
  split; [rewrite <-E|rewrite <-E']; vm_compute; reflexivity.
Defined.

End SongFilter.
