(* ===== verification/Directory.v ===== *)
(** * Paths

    [fs/Traits.cxx] for the UTF-8 paths of the database. *)

From Stdlib Require Import ZArith Lia ZifyBool.
From stdpp Require Import base numbers sets strings list.
From stdpp Require Import base numbers sets gmap strings list.
From S2P Require Import Prelude CString UriUtil Decimal Tag Song Samples SongFilter.

Set Default Goal Selector "!".

Module PathTraits.
Import CString UriUtil.

Definition IsSeparator (ch : Z) : bool := (ch =? slash)%Z.

Definition FindLastSeparator (p : list Z) : option nat := strrchr p slash.

Definition Build (a b : list Z) : list Z :=
  if length a =? 0 then b
  else if length b =? 0 then a
  else
    let result := if IsSeparator (default 0%Z (last a)) then a else a ++ [slash] in
    result ++ (if IsSeparator (first b) then drop 1 b else b).

Definition GetBase (p : list Z) : list Z :=
  match FindLastSeparator p with
  | Some sep => drop (sep + 1) p
  | None => p
  end.

Definition GetParent (p : list Z) : list Z :=
  match FindLastSeparator p with
  | None => [dot]
  | Some sep => if sep =? 0 then take 1 p else take sep p
  end.

Fixpoint skip_separators (p : list Z) : list Z :=
  match p with
  | c :: p' => if IsSeparator c then skip_separators p' else p
  | [] => []
  end.

Definition Relative (base other : list Z) : option (list Z) :=
  match StringAfterPrefix other base with
  | None => None
  | Some [] => Some []
  | Some (c :: other) => if IsSeparator c then Some (skip_separators other) else None
  end.

(** ** Lemmas *)

(** A name: not empty, and without separators. *)
Definition name_ok (n : list Z) : Prop := n ≠ [] ∧ slash ∉ n.

Lemma strrchr_last p n : slash ∉ n → strrchr (p ++ slash :: n) slash = Some (length p).
Proof.
  intros Hn. unfold strrchr. rewrite reverse_app, reverse_cons, <-app_assoc. simpl.
  rewrite strchr_app by (by rewrite elem_of_reverse). simpl.
  rewrite length_reverse, length_app. simpl. f_equal. lia.
Qed.

Lemma GetBase_app p n : slash ∉ n → GetBase (p ++ slash :: n) = n.
Proof.
  intros Hn. unfold GetBase, FindLastSeparator. rewrite strrchr_last by done.
  rewrite skipn_app, drop_ge by lia. by replace (length p + 1 - length p) with 1 by lia.
Qed.

Lemma GetBase_name n : slash ∉ n → GetBase n = n.
Proof.
  intros Hn. unfold GetBase, FindLastSeparator, strrchr.
  rewrite (proj2 (strchr_None _ _)); [done|]. by rewrite elem_of_reverse.
Qed.

(** [Build] of a path that does not end in a separator and a name. *)
Lemma Build_name p n : p ≠ [] → last p ≠ Some slash → name_ok n → Build p n = p ++ slash :: n.
Proof.
  intros Hp Hl [Hn Hs]. unfold Build, IsSeparator.
  destruct p as [|x p]; [done|]. destruct n as [|c n]; [done|]. simpl length.
  destruct (last (x :: p)) as [l|] eqn:El; [|by apply last_None in El]. simpl default.
  rewrite (proj2 (Z.eqb_neq l slash)) by congruence. change (first (c :: n)) with c.
  rewrite (proj2 (Z.eqb_neq c slash)) by set_solver. simpl. by rewrite <-app_assoc.
Qed.

Lemma name_last n : name_ok n → last n ≠ Some slash.
Proof. intros [_ Hs] E. apply Hs. by apply last_Some_elem_of in E. Qed.

Lemma path_last p n : name_ok n → last (p ++ slash :: n) ≠ Some slash.
Proof.
  intros Hn. rewrite last_app_cons. destruct n as [|c n]; [by destruct Hn|].
  rewrite last_cons_cons. by apply name_last.
Qed.

End PathTraits.

(** * The song database

    [db/plugins/simple]: the tree of directories, songs and playlists ([Directory.cxx],
    [Song.cxx], [SongSort.cxx], [db/PlaylistVector.cxx]), mount points ([Mount.cxx],
    [PrefixedLightSong.hxx]) and the queries of [SimpleDatabasePlugin.cxx] with
    [db/Selection.cxx] and [db/Helpers.cxx].

    A directory is a value that contains its children; a pointer into the tree is the list
    of child indices that leads to it.  A mounted database is again a [SimpleDatabase], the
    only implementation that keeps its songs in memory.  A visit with callbacks is the
    list of the calls made, and the error that ended it; the database mutex is not part of
    the model. *)

Module Directory.
Import CString UriUtil Tag PathTraits.
Import (hints) SongFilter.

#[local] Abbreviation LightSong := SongFilter.LightSong.
#[local] Abbreviation SongFilter := SongFilter.SongFilter.

(** ** Data *)

(** [struct Song] of the database; its parent is the directory it is in. *)
Record Song := mkDbSong {
  s_uri : list Z;
  s_tag : Tag;
  s_mtime : Z;
  s_start_time : Z;
  s_end_time : Z;
}.

#[export] Instance Song_eq_dec : EqDecision Song.
Proof. solve_decision. Defined.

Record PlaylistInfo := mkPlaylistInfo { p_name : list Z; p_mtime : Z }.

#[export] Instance PlaylistInfo_eq_dec : EqDecision PlaylistInfo.
Proof. solve_decision. Defined.

(** [struct Directory]; [has_parent] says whether [parent] is set. *)
Inductive Directory := mkDirectory {
  children : list Directory;
  songs : list Song;
  playlists : list PlaylistInfo;
  has_parent : bool;
  d_mtime : Z;
  inode : Z;
  device : Z;
  path : list Z;
  mounted_database : option SimpleDatabase;
}
(** [class SimpleDatabase] after [Open]: the tree and the songs lent to callers. *)
with SimpleDatabase := mkDatabase {
  root : Directory;
  prefixed_light_song : option SongFilter.LightSong;
  light_song : option SongFilter.LightSong;
  borrowed_song_count : nat;
}.

Definition DEVICE_INARCHIVE : Z := 2 ^ 32 - 1.
Definition DEVICE_CONTAINER : Z := 2 ^ 32 - 2.

Definition set_children (l : list Directory) (d : Directory) : Directory :=
  mkDirectory l (songs d) (playlists d) (has_parent d) (d_mtime d) (inode d) (device d) (path d)
    (mounted_database d).
Definition set_songs (l : list Song) (d : Directory) : Directory :=
  mkDirectory (children d) l (playlists d) (has_parent d) (d_mtime d) (inode d) (device d) (path d)
    (mounted_database d).
Definition set_playlists (l : list PlaylistInfo) (d : Directory) : Directory :=
  mkDirectory (children d) (songs d) l (has_parent d) (d_mtime d) (inode d) (device d) (path d)
    (mounted_database d).
Definition set_mtime (t : Z) (d : Directory) : Directory :=
  mkDirectory (children d) (songs d) (playlists d) (has_parent d) t (inode d) (device d) (path d)
    (mounted_database d).
Definition set_device (v : Z) (d : Directory) : Directory :=
  mkDirectory (children d) (songs d) (playlists d) (has_parent d) (d_mtime d) (inode d) v (path d)
    (mounted_database d).
Definition set_mounted (m : option SimpleDatabase) (d : Directory) : Directory :=
  mkDirectory (children d) (songs d) (playlists d) (has_parent d) (d_mtime d) (inode d) (device d)
    (path d) m.

(** ** Directories *)

Definition new_directory (_path_utf8 : list Z) (_parent : bool) : Directory :=
  mkDirectory [] [] [] _parent 0 0 0 _path_utf8 None.

Definition NewRoot : Directory := new_directory [] false.

Definition IsMount (d : Directory) : bool := bool_decide (is_Some (mounted_database d)).
Definition IsRoot (d : Directory) : bool := negb (has_parent d).

Definition IsEmpty (d : Directory) : bool :=
  (length (children d) =? 0) && (length (songs d) =? 0) && (length (playlists d) =? 0).

Definition GetName (d : Directory) : option (list Z) :=
  assert! negb (IsRoot d) ;; Some (GetBase (path d)).

(** [CreateChild]: the new child is the last one. *)
Definition CreateChild (name_utf8 : list Z) (d : Directory) : option Directory :=
  assert! negb (first name_utf8 =? 0)%Z ;;
  let path_utf8 := if IsRoot d then name_utf8 else Build (path d) name_utf8 in
  Some (set_children (children d ++ [new_directory path_utf8 true]) d).

Fixpoint find_child (name : list Z) (i : nat) (l : list Directory)
    : option (option (nat * Directory)) :=
  match l with
  | [] => Some None
  | child :: l =>
      n ← GetName child;
      if streq n name then Some (Some (i, child)) else find_child name (S i) l
  end.

(** The outer [None] is a failed assertion, the inner one the null pointer. *)
Definition FindChild (name : list Z) (d : Directory) : option (option (nat * Directory)) :=
  find_child name 0 (children d).

(** [MakeChild]: the index of the child. *)
Definition MakeChild (name_utf8 : list Z) (d : Directory) : option (nat * Directory) :=
  c ← FindChild name_utf8 d;
  match c with
  | Some (i, _) => Some (i, d)
  | None => d' ← CreateChild name_utf8 d; Some (length (children d), d')
  end.

(** [child->Delete()] *)
Definition Delete (i : nat) (d : Directory) : option Directory :=
  c ← children d !! i;
  assert! has_parent c ;;
  Some (set_children (take i (children d) ++ drop (S i) (children d)) d).

Fixpoint PruneEmpty (d : Directory) : Directory :=
  set_children (filter (λ c, IsEmpty c = false) (PruneEmpty <$> children d)) d.

Definition isRootDirectory (name : list Z) : bool :=
  (first name =? 0)%Z || ((first name =? slash)%Z && (default 0 (name !! 1%nat) =? 0)%Z).

(** The loop of [LookupDirectory]: a pointer to the last directory found, the directory,
    and the rest of the name. *)
Fixpoint lookup_loop (fuel : nat) (at_ : list nat) (d : Directory) (name : list Z)
    : option (list nat * Directory * option (list Z)) :=
  match fuel with
  | O => None
  | S fuel =>
      match strchr name slash with
      | Some O => Some (at_, d, Some name)
      | sep =>
          c ← FindChild (match sep with Some i => take i name | None => name end) d;
          match c with
          | None => Some (at_, d, Some name)
          | Some (i, c) =>
              match sep with
              | None => Some (at_ ++ [i], c, None)
              | Some s => lookup_loop fuel (at_ ++ [i]) c (drop (s + 1) name)
              end
          end
      end
  end.

Definition LookupDirectory (uri : list Z) (d : Directory)
    : option (list nat * Directory * option (list Z)) :=
  if isRootDirectory uri then Some ([], d, None)
  else lookup_loop (S (length uri)) [] d uri.

Definition AddSong (s : Song) (d : Directory) : Directory := set_songs (songs d ++ [s]) d.

(** [RemoveSong], by the song's place in the list. *)
Definition RemoveSong (i : nat) (d : Directory) : option Directory :=
  assert! (i <? length (songs d)) ;;
  Some (set_songs (take i (songs d) ++ drop (S i) (songs d)) d).

Definition FindSong (name_utf8 : list Z) (d : Directory) : option Song :=
  snd <$> list_find (λ s, s_uri s = name_utf8) (songs d).

(** [Song::Export], in the directory [d]. *)
Definition Export (d : Directory) (s : Song) : LightSong :=
  SongFilter.mkLightSong (if IsRoot d then None else Some (path d)) (s_uri s) None (s_tag s)
    (s_mtime s) (s_start_time s) (s_end_time s).

(** [Song::GetURI] *)
Definition Song_GetURI (d : Directory) (s : Song) : option (list Z) :=
  assert! negb (first (s_uri s) =? 0)%Z ;;
  Some (if IsRoot d then s_uri s else path d ++ slash :: s_uri s).

(** [Song::NewFrom] *)
Definition NewFrom (other : Song.DetachedSong) : option Song :=
  assert! negb (length (Song.GetURI other) =? 0) ;;
  Some (mkDbSong (Song.GetURI other) (Song.GetTag other) (Song.GetLastModified other)
    (Song.GetStartTime other) (Song.GetEndTime other)).

(** [Directory::Export]: path and modification time. *)
Definition Directory_Export (d : Directory) : list Z * Z := (path d, d_mtime d).

(** ** Playlists of a directory *)

Fixpoint UpdateOrInsert (pi : PlaylistInfo) (l : list PlaylistInfo) : bool * list PlaylistInfo :=
  match l with
  | [] => (true, [pi])
  | p :: l =>
      if streq (p_name p) (p_name pi) then
        if (p_mtime pi =? p_mtime p)%Z then (false, p :: l)
        else (true, mkPlaylistInfo (p_name p) (p_mtime pi) :: l)
      else let '(b, l) := UpdateOrInsert pi l in (b, p :: l)
  end.

Fixpoint playlist_erase (name : list Z) (l : list PlaylistInfo) : bool * list PlaylistInfo :=
  match l with
  | [] => (false, [])
  | p :: l =>
      if streq (p_name p) name then (true, l)
      else let '(b, l) := playlist_erase name l in (b, p :: l)
  end.

(** ** Sorting *)

Section Sort.
Context `{!SongFilter.Icu}.

Definition compare_utf8_string (a b : option (list Z)) : Z :=
  match a, b with
  | None, None => 0
  | None, Some _ => -1
  | Some _, None => 1
  | Some a, Some b => SongFilter.IcuCollate a b
  end.

(** [Tag::GetValue] of a proper type. *)
Definition value_of (t : Tag) (ty : TagType) : option (list Z) := default None (GetValue t ty).

Definition compare_string_tag_item (a b : Tag) (ty : TagType) : Z :=
  compare_utf8_string (value_of a ty) (value_of b ty).

(** The difference of two [long]s is returned as an [int]. *)
Definition compare_number_string (a b : option (list Z)) : Z :=
  let number (s : option (list Z)) := match s with None => 0%Z | Some s => (Decimal.strtol s).1 end in
  let ai := number a in let bi := number b in
  if (ai <=? 0)%Z then if (bi <=? 0)%Z then 0 else -1
  else if (bi <=? 0)%Z then 1
  else Samples.to_signed 32 (ai - bi).

Definition compare_tag_item (a b : Tag) (ty : TagType) : Z :=
  compare_number_string (value_of a ty) (value_of b ty).

Definition song_cmp (a b : Song) : bool :=
  let ret := compare_string_tag_item (s_tag a) (s_tag b) TAG_ALBUM in
  if negb (ret =? 0)%Z then (ret <? 0)%Z
  else
    let ret := compare_tag_item (s_tag a) (s_tag b) TAG_DISC in
    if negb (ret =? 0)%Z then (ret <? 0)%Z
    else
      let ret := compare_tag_item (s_tag a) (s_tag b) TAG_TRACK in
      if negb (ret =? 0)%Z then (ret <? 0)%Z
      else (SongFilter.IcuCollate (s_uri a) (s_uri b) <? 0)%Z.

(** [std::list::sort], which is stable: [x] goes in front of everything not less. *)
Fixpoint insert_sorted {A} (lt : A → A → bool) (x : A) (l : list A) : list A :=
  match l with
  | [] => [x]
  | y :: l => if lt y x then y :: insert_sorted lt x l else x :: y :: l
  end.

Definition list_sort {A} (lt : A → A → bool) (l : list A) : list A :=
  foldr (insert_sorted lt) [] l.

Definition directory_cmp (a b : Directory) : bool :=
  (SongFilter.IcuCollate (path a) (path b) <? 0)%Z.

Definition song_list_sort (l : list Song) : list Song := list_sort song_cmp l.

(** Sorting the children by their paths and sorting inside of them are independent. *)
Fixpoint Sort (d : Directory) : Directory :=
  set_songs (song_list_sort (songs d))
    (set_children (list_sort directory_cmp (Sort <$> children d)) d).

End Sort.

(** ** Visits *)

(** Which of the callbacks are set. *)
Record Visitors := mkVisitors { visit_directory : bool; visit_song : bool; visit_playlist : bool }.

(** The calls of the callbacks; a [LightDirectory] is its path and time. *)
Inductive visit :=
| VDirectory (uri : list Z) (mtime : Z)
| VSong (s : LightSong)
| VPlaylist (p : PlaylistInfo) (uri : list Z) (mtime : Z).

Inductive DatabaseErrorCode := NOT_FOUND | CONFLICT.

(** The calls made, and the error that was thrown behind them. *)
Record walk := mkWalk { visits : list visit; thrown : option DatabaseErrorCode }.

Definition calls (l : list visit) : walk := mkWalk l None.

(** A walk and what comes after it; [None] is a failed assertion. *)
Definition and_then (w : walk) (k : option walk) : option walk :=
  match thrown w with
  | Some e => Some w
  | None => w' ← k; Some (mkWalk (visits w ++ visits w') (thrown w'))
  end.

Fixpoint walk_all {A} (f : A → option walk) (l : list A) : option walk :=
  match l with
  | [] => Some (calls [])
  | x :: l => w ← f x; and_then w (walk_all f l)
  end.

(** [PrefixedLightSong], [PrefixedLightDirectory] and the visitors of [WalkMount]. *)
Definition PrefixedLightSong (base : list Z) (s : LightSong) : LightSong :=
  SongFilter.mkLightSong None (Build base (SongFilter.GetURI s)) (SongFilter.real_uri s)
    (SongFilter.tag s) (SongFilter.mtime s) (SongFilter.start_time s) (SongFilter.end_time s).

Definition PrefixedLightDirectory (base uri : list Z) : list Z :=
  if (first uri =? 0)%Z then base else Build base uri.

Definition prefix_visit (base : list Z) (v : visit) : visit :=
  match v with
  | VDirectory uri t => VDirectory (PrefixedLightDirectory base uri) t
  | VSong s => VSong (PrefixedLightSong base s)
  | VPlaylist p uri t => VPlaylist p (PrefixedLightDirectory base uri) t
  end.

Record DatabaseSelection := mkSelection {
  sel_uri : list Z; sel_recursive : bool; sel_filter : option SongFilter }.

Section Visit.
Context `{!SongFilter.Icu}.

(** The constructor takes the base of the filter when no URI is given. *)
Definition new_selection (_uri : list Z) (_recursive : bool) (_filter : option SongFilter)
    : option DatabaseSelection :=
  match _filter with
  | Some f =>
      if length _uri =? 0 then
        base ← SongFilter.GetBase f;
        Some (mkSelection (default _uri base) _recursive _filter)
      else Some (mkSelection _uri _recursive _filter)
  | None => Some (mkSelection _uri _recursive _filter)
  end.

Definition Selection_Match (filter : option SongFilter) (s : LightSong) : option bool :=
  match filter with None => Some true | Some f => SongFilter.Match_Light f s end.

Definition Selection_IsEmpty (s : DatabaseSelection) : bool :=
  (length (sel_uri s) =? 0) &&
  match sel_filter s with None => true | Some f => SongFilter.IsEmpty f end.

Definition Selection_HasOtherThanBase (s : DatabaseSelection) : bool :=
  match sel_filter s with None => false | Some f => SongFilter.HasOtherThanBase f end.

(** A song is passed on when it matches. *)
Definition offer_song (filter : option SongFilter) (s : LightSong) : option walk :=
  b ← Selection_Match filter s; Some (calls (if (b : bool) then [VSong s] else [])).

(** [SimpleDatabase::Visit], given the function that walks a directory. *)
Definition Visit_with
    (Walk : bool → option SongFilter → Visitors → Directory → option walk)
    (db : SimpleDatabase) (selection : DatabaseSelection) (v : Visitors) : option walk :=
  r ← LookupDirectory (sel_uri selection) (root db);
  let '(_, d, rest) := r in
  match rest with
  | None =>
      and_then (calls (if sel_recursive selection && visit_directory v
                       then [VDirectory (path d) (d_mtime d)] else []))
        (Walk (sel_recursive selection) (sel_filter selection) v d)
  | Some rest =>
      let not_found := mkWalk [] (Some NOT_FOUND) in
      if bool_decide (strchr rest slash = None) && visit_song v then
        match FindSong rest d with
        | Some s => offer_song (sel_filter selection) (Export d s)
        | None => Some not_found
        end
      else Some not_found
  end.

(** [Directory::Walk] with [WalkMount]; the fuel is the depth of the tree. *)
Fixpoint Walk_fuel (fuel : nat) (recursive : bool) (filter : option SongFilter) (v : Visitors)
    (d : Directory) : option walk :=
  match fuel with
  | O => None
  | S fuel =>
      match mounted_database d with
      | Some db =>
          assert! IsEmpty d ;;
          selection ← new_selection [] recursive filter;
          w ← Visit_with (Walk_fuel fuel) db selection v;
          Some (mkWalk (prefix_visit (path d) <$> visits w) (thrown w))
      | None =>
          w ← (if visit_song v
               then walk_all (λ s, offer_song filter (Export d s)) (songs d) else Some (calls []));
          and_then w
            (and_then
               (calls (if visit_playlist v
                       then (λ p, VPlaylist p (path d) (d_mtime d)) <$> playlists d else []))
               (walk_all (λ c,
                  and_then (calls (if visit_directory v then [VDirectory (path c) (d_mtime c)] else []))
                    (if recursive then Walk_fuel fuel recursive filter v c else Some (calls [])))
                 (children d)))
      end
  end.

(** The depth of a tree, mounted databases included. *)
Fixpoint depth (d : Directory) : nat :=
  S (max_list (depth <$> children d)) +
  match mounted_database d with Some db => depth (root db) | None => 0 end.

Definition Walk (recursive : bool) (filter : option SongFilter) (v : Visitors) (d : Directory)
    : option walk := Walk_fuel (depth d) recursive filter v d.

Definition Visit (db : SimpleDatabase) (selection : DatabaseSelection) (v : Visitors)
    : option walk := Visit_with Walk db selection v.

End Visit.

(** ** Access to single songs *)

Definition db_outcome := outcome DatabaseErrorCode.

(** A pointer returned by [GetSong]: to [light_song] or to [prefixed_light_song]. *)
Inductive song_ref := RefLight | RefPrefixed.

Definition deref (db : SimpleDatabase) (r : song_ref) : option LightSong :=
  match r with RefLight => light_song db | RefPrefixed => prefixed_light_song db end.

(** The directory at a pointer, replaced by the result of [f]. *)
Fixpoint update_at (at_ : list nat) (f : Directory → option Directory) (d : Directory)
    : option Directory :=
  match at_ with
  | [] => f d
  | i :: at_ =>
      c ← children d !! i;
      c ← update_at at_ f c;
      Some (set_children (<[i := c]> (children d)) d)
  end.

Definition set_root (r : Directory) (db : SimpleDatabase) : SimpleDatabase :=
  mkDatabase r (prefixed_light_song db) (light_song db) (borrowed_song_count db).

(** [GetSong(uri)], where the URI may be the null pointer.  A mounted database is asked with
    the rest of the URI, which gets shorter. *)
Fixpoint GetSong_fuel (fuel : nat) (uri : option (list Z)) (db : SimpleDatabase)
    : db_outcome (song_ref * SimpleDatabase) :=
  match fuel with
  | O => Abort
  | S fuel =>
      _ ← of_option (check (bool_decide (prefixed_light_song db = None)));
      _ ← of_option (check (borrowed_song_count db =? 0));
      uri ← of_option uri;
      '(at_, d, rest) ← of_option (LookupDirectory uri (root db));
      match mounted_database d with
      | Some m =>
          '(r, m) ← GetSong_fuel fuel rest m;
          song ← of_option (deref m r);
          tree ← of_option (update_at at_ (λ d, Some (set_mounted (Some m) d)) (root db));
          mret (RefPrefixed, mkDatabase tree (Some (PrefixedLightSong (path d) song))
                  (light_song db) (borrowed_song_count db))
      | None =>
          match rest with
          | None => Throw NOT_FOUND
          | Some rest =>
              if bool_decide (strchr rest slash ≠ None) then Throw NOT_FOUND
              else match FindSong rest d with
                   | None => Throw NOT_FOUND
                   | Some s =>
                       mret (RefLight, mkDatabase (root db) (prefixed_light_song db)
                               (Some (Export d s)) (S (borrowed_song_count db)))
                   end
          end
      end
  end.

Definition GetSong (uri : list Z) (db : SimpleDatabase)
    : db_outcome (song_ref * SimpleDatabase) := GetSong_fuel (S (length uri)) (Some uri) db.

Definition ReturnSong (r : song_ref) (db : SimpleDatabase) : option SimpleDatabase :=
  _ ← deref db r;
  match r with
  | RefPrefixed => Some (mkDatabase (root db) None (light_song db) (borrowed_song_count db))
  | RefLight =>
      assert! 0 <? borrowed_song_count db ;;
      Some (mkDatabase (root db) None (light_song db) (borrowed_song_count db - 1))
  end.

(** [Close]: the assertions. *)
Definition Close (db : SimpleDatabase) : option unit :=
  assert! bool_decide (prefixed_light_song db = None) ;;
  check (borrowed_song_count db =? 0).

Definition new_database : SimpleDatabase := mkDatabase NewRoot None None 0.

(** ** Mount points *)

Definition Mount (uri : list Z) (m db : SimpleDatabase) : db_outcome SimpleDatabase :=
  _ ← of_option (check (negb (first uri =? 0)%Z));
  '(at_, d, rest) ← of_option (LookupDirectory uri (root db));
  match rest with
  | None => Throw CONFLICT
  | Some rest =>
      if bool_decide (strchr rest slash ≠ None) then Throw NOT_FOUND
      else
        tree ← of_option (update_at at_ (λ d,
          d ← CreateChild rest d;
          c ← last (children d);
          Some (set_children (take (length (children d) - 1) (children d) ++
                              [set_mounted (Some m) c]) d)) (root db));
        mret (set_root tree db)
  end.

(** [LockUmountSteal]: the stolen database and the tree without the mount point. *)
Definition LockUmountSteal (uri : list Z) (db : SimpleDatabase)
    : option (option SimpleDatabase * SimpleDatabase) :=
  r ← LookupDirectory uri (root db);
  let '(at_, d, rest) := r in
  match rest, mounted_database d, last at_ with
  | None, Some m, Some i =>
      tree ← update_at (take (length at_ - 1) at_) (Delete i) (root db);
      Some (Some m, set_root tree db)
  | _, _, _ => Some (None, db)
  end.

Definition Unmount (uri : list Z) (db : SimpleDatabase) : option (bool * SimpleDatabase) :=
  r ← LockUmountSteal uri db;
  match r.1 with
  | None => Some (false, r.2)
  | Some m => _ ← Close m; Some (true, r.2)
  end.

(** The first part of [Save]: what is written afterwards is this tree. *)
Definition Save_prepare `{!SongFilter.Icu} (db : SimpleDatabase) : SimpleDatabase :=
  set_root (Sort (PruneEmpty (root db))) db.

(** ** Statistics ([db/Helpers.cxx]) *)

Record DatabaseStats := mkStats {
  song_count : Z; total_duration : Z; artist_count : nat; album_count : nat }.

(** The running counts, with the two sets of names. *)
Record stats_state := mkStatsState {
  st_songs : Z; st_duration : Z; st_artists : gset (list Z); st_albums : gset (list Z) }.

Definition StatsVisitTag (st : stats_state) (t : Tag) : stats_state :=
  let d := if IsNegative (duration t) then st_duration st
           else ((st_duration st + duration t) mod 2 ^ 64)%Z in
  foldl (λ st item,
    match type item with
    | TAG_ARTIST => mkStatsState (st_songs st) (st_duration st) ({[value item]} ∪ st_artists st)
                      (st_albums st)
    | TAG_ALBUM => mkStatsState (st_songs st) (st_duration st) (st_artists st)
                     ({[value item]} ∪ st_albums st)
    | _ => st
    end) (mkStatsState (st_songs st) d (st_artists st) (st_albums st)) (items t).

Definition StatsVisitSong (st : stats_state) (s : LightSong) : stats_state :=
  StatsVisitTag (mkStatsState ((st_songs st + 1) mod 2 ^ 32)%Z (st_duration st) (st_artists st)
    (st_albums st)) (SongFilter.tag s).

(** The songs among the visits, in order. *)
Definition visited_songs (l : list visit) : list LightSong :=
  omap (λ v, match v with VSong s => Some s | _ => None end) l.

Definition GetStats `{!SongFilter.Icu} (db : SimpleDatabase) (selection : DatabaseSelection)
    : db_outcome DatabaseStats :=
  w ← of_option (Visit db selection (mkVisitors false true false));
  match thrown w with
  | Some e => Throw e
  | None =>
      let st := foldl StatsVisitSong (mkStatsState 0 0 ∅ ∅) (visited_songs (visits w)) in
      mret (mkStats (st_songs st) (st_duration st) (size (st_artists st)) (size (st_albums st)))
  end.

End Directory.
