(* ===== verification/DirectoryFacts.v ===== *)
(** * The invariant of the song database

    A tree is well formed when every directory knows its own path, names are unique and
    contain no separator, and nothing is mounted.  The operations keep it so; a lookup
    finds what a path denotes; and a walk visits every song of the tree. *)

From Stdlib Require Import ZArith Lia ZifyBool.
From stdpp Require Import base numbers sets gmap strings list.
From S2P Require Import Prelude CString UriUtil Tag SongFilter Directory.

Set Default Goal Selector "!".

Module DirectoryFacts.
Import CString UriUtil Tag PathTraits Directory.

(** Induction over the tree, without the mounted databases. *)
Fixpoint directory_ind' (P : Directory → Prop) (H : ∀ d, Forall P (children d) → P d)
    (d : Directory) : P d.
Proof.
  apply H. destruct d as [l ? ? ? ? ? ? ? ?]. simpl.
  induction l as [|c l IH]; [constructor|]. constructor; [by apply directory_ind'|apply IH].
Qed.

(** ** The invariant *)

(** A file name: not empty, without separators and terminators. *)
Definition file_name (n : list Z) : Prop := name_ok n ∧ 0%Z ∉ n.

(** The path of the entry [n] of the directory at [p]; the root has the empty path. *)
Definition child_path (p n : list Z) : list Z := match p with [] => n | _ => p ++ slash :: n end.

Inductive wf_gen (distinct : Prop) (p : list Z) (d : Directory) : Prop := wf_intro {
  wf_path : path d = p;
  wf_parent : has_parent d = bool_decide (p ≠ []);
  wf_mount : mounted_database d = None;
  wg_songs : distinct → NoDup (s_uri <$> songs d);
  wf_names : Forall file_name (s_uri <$> songs d);
  wf_playlists : NoDup (p_name <$> playlists d);
  wf_unique : NoDup (path <$> children d);
  wg_children : ∀ c, c ∈ children d → ∃ n, file_name n ∧
    (distinct → n ∉ (s_uri <$> songs d)) ∧ wf_gen distinct (child_path p n) c
}.
Arguments wf_path {_} _ _ _.
Arguments wf_parent {_} _ _ _.
Arguments wf_mount {_} _ _ _.
Arguments wg_songs {_} _ _ _.
Arguments wf_names {_} _ _ _.
Arguments wf_playlists {_} _ _ _.
Arguments wf_unique {_} _ _ _.
Arguments wg_children {_} _ _ _.

Abbreviation wf := (wf_gen True).

Lemma wf_songs p d : wf p d → NoDup (s_uri <$> songs d).
Proof. intros Hd. by apply (wg_songs _ _ Hd). Qed.

Lemma wf_children p d : wf p d → ∀ c, c ∈ children d →
  ∃ n, file_name n ∧ (n ∉ (s_uri <$> songs d)) ∧ wf (child_path p n) c.
Proof. intros Hd c Hc. destruct (wg_children _ _ Hd c Hc) as (n & Hn & Hni & Hwf). exists n. auto. Qed.

(** A path that entries can be appended to. *)
Definition good_path (p : list Z) : Prop := last p ≠ Some slash.

Lemma child_path_inj p n n' : child_path p n = child_path p n' → n = n'.
Proof. destruct p; simpl; [done|]. intros E. by simplify_eq. Qed.

Lemma child_path_cons p n : n ≠ [] → child_path p n ≠ [].
Proof. by destruct p. Qed.

Lemma child_path_good p n : name_ok n → good_path (child_path p n).
Proof.
  intros Hn. destruct p; simpl; [by apply name_last|].
  by apply (path_last (_ :: _)).
Qed.

Lemma child_path_app p n r : child_path p (n ++ r) = child_path p n ++ r.
Proof. destruct p; simpl; [done|]. by rewrite <-app_assoc. Qed.

Lemma child_path_assoc p n m : n ≠ [] → child_path (child_path p n) m = child_path p (n ++ slash :: m).
Proof. intros Hn. rewrite child_path_app. destruct p, n; done. Qed.

(** Two names in front of a separator. *)
Lemma name_sep_inj n r n' r' : slash ∉ n → slash ∉ n' → n ++ slash :: r = n' ++ slash :: r' → n = n'.
Proof.
  revert n'. induction n as [|x n IH]; intros [|y n'] Hn Hn' E; simplify_eq/=; try done.
  - set_solver.
  - set_solver.
  - f_equal. apply (IH n'); [set_solver|set_solver|done].
Qed.

Lemma wf_IsRoot {D} p d : wf_gen D p d → IsRoot d = bool_decide (p = []).
Proof.
  intros Hd. unfold IsRoot. rewrite (wf_parent _ _ Hd), <-bool_decide_not.
  apply bool_decide_ext. destruct (decide (p = [])); tauto.
Qed.

Lemma child_name {D} p n c : file_name n → wf_gen D (child_path p n) c → GetName c = Some n.
Proof.
  intros [[Hn Hs] _] Hc. unfold GetName. rewrite (wf_IsRoot _ _ Hc).
  rewrite bool_decide_eq_false_2 by (by apply child_path_cons). simpl.
  rewrite (wf_path _ _ Hc). f_equal. destruct p; simpl; [by apply GetBase_name|].
  by apply (GetBase_app (_ :: _)).
Qed.

(** ** Finding children *)

Lemma find_child_ok {D} p l i name :
  (∀ c, c ∈ l → ∃ n, file_name n ∧ wf_gen D (child_path p n) c) →
  ∃ r, find_child name i l = Some r ∧
    match r with
    | Some (j, c) => ∃ k, j = i + k ∧ l !! k = Some c ∧ path c = child_path p name ∧ file_name name
    | None => ∀ c, c ∈ l → path c ≠ child_path p name
    end.
Proof.
  revert i. induction l as [|c l IH]; intros i Hl; cbn [find_child].
  { exists None. split; [done|]. by intros c ?%not_elem_of_nil. }
  destruct (Hl c) as (n & Hn & Hc); [by left|]. rewrite (child_name p n c Hn Hc). simpl.
  unfold streq. case_bool_decide as E.
  - subst n. exists (Some (i, c)). split; [done|]. exists 0. rewrite Nat.add_0_r.
    split_and!; [done|done|exact (wf_path _ _ Hc)|done].
  - destruct (IH (S i)) as (r & -> & Hr); [intros; apply Hl; by right|]. exists r. split; [done|].
    destruct r as [[j c']|].
    + destruct Hr as (k & -> & ? & ? & ?). exists (S k). split_and!; [lia|done|done|done].
    + intros c' [->|Hc']%elem_of_cons; [|by apply Hr]. rewrite (wf_path _ _ Hc).
      by intros ?%child_path_inj.
Qed.

Lemma FindChild_ok {D} p d name : wf_gen D p d →
  ∃ r, FindChild name d = Some r ∧
    match r with
    | Some (i, c) => children d !! i = Some c ∧ wf_gen D (child_path p name) c ∧ file_name name
    | None => ∀ c, c ∈ children d → path c ≠ child_path p name
    end.
Proof.
  intros Hd. destruct (find_child_ok (D:=D) p (children d) 0 name) as (r & E & Hr).
  { intros c Hc. destruct (wg_children _ _ Hd c Hc) as (n & ? & _ & ?). by exists n. }
  exists r. split; [exact E|]. destruct r as [[j c]|]; [|done].
  destruct Hr as (k & -> & Hk & Hp & Hn). split_and!; [done| |done].
  destruct (wg_children _ _ Hd c) as (n & Hn' & _ & Hc); [by eapply list_elem_of_lookup_2|].
  rewrite (wf_path _ _ Hc) in Hp. by rewrite <-Hp.
Qed.

(** ** The songs of a tree *)

Fixpoint all_songs (d : Directory) : list SongFilter.LightSong :=
  (Export d <$> songs d) ++ concat (all_songs <$> children d).

Lemma all_songs_unfold d : all_songs d = (Export d <$> songs d) ++ concat (all_songs <$> children d).
Proof. by destruct d. Qed.

Lemma Export_uri p d s : wf p d → SongFilter.GetURI (Export d s) = child_path p (s_uri s).
Proof.
  intros Hd. unfold Export, SongFilter.GetURI. simpl. rewrite (wf_IsRoot _ _ Hd), (wf_path _ _ Hd).
  case_bool_decide as E; [by subst|]. by destruct p.
Qed.

(** The URIs below a path. *)
Definition below (p u : list Z) : Prop := p = [] ∨ ∃ r, u = p ++ slash :: r.
Definition within (p u : list Z) : Prop := u = p ∨ ∃ r, u = p ++ slash :: r.

Lemma below_child p n u : n ≠ [] → below (child_path p n) u → ∃ r, u = child_path p n ++ slash :: r.
Proof. intros Hn [E|?]; [by apply child_path_cons in E|done]. Qed.

Lemma elem_of_all_songs d s : s ∈ all_songs d ↔
  (∃ x, x ∈ songs d ∧ s = Export d x) ∨ (∃ c, c ∈ children d ∧ s ∈ all_songs c).
Proof.
  rewrite all_songs_unfold, elem_of_app, list_elem_of_fmap, list_elem_of_In, in_concat.
  setoid_rewrite <-list_elem_of_In. setoid_rewrite list_elem_of_fmap. naive_solver.
Qed.

Lemma all_songs_below p d : wf p d → ∀ s, s ∈ all_songs d → below p (SongFilter.GetURI s).
Proof.
  revert p. induction d as [d IH] using directory_ind'. intros p Hd s. rewrite elem_of_all_songs.
  intros [(x & Hx & ->)|(c & Hc & Hs)].
  - rewrite (Export_uri p d x Hd). unfold below. destruct p; [by left|]. right. by eexists.
  - destruct (wf_children _ _ Hd c Hc) as (n & [[Hn _] _] & _ & Hwf).
    rewrite Forall_forall in IH. destruct (below_child p n _ Hn (IH c Hc _ Hwf s Hs)) as [r ->].
    destruct p; [by left|]. right. exists (n ++ slash :: r). simpl. by rewrite <-app_assoc.
Qed.

Lemma filter_concat_none {A} (P : A → Prop) `{!∀ x, Decision (P x)} (ll : list (list A)) :
  Forall (λ l, Forall (λ x, ¬ P x) l) ll → filter P (concat ll) = [].
Proof.
  intros Hll. apply filter_none. by apply Forall_concat.
Qed.

Lemma filter_ext_in {A} (P Q : A → Prop) `{!∀ x, Decision (P x), !∀ x, Decision (Q x)} (l : list A) :
  (∀ x, x ∈ l → P x ↔ Q x) → filter P l = filter Q l.
Proof.
  induction l as [|x l IH]; intros Hl; [done|]. rewrite !filter_cons.
  rewrite (decide_ext (P x) (Q x)) by (apply Hl; by left).
  rewrite IH by (intros; apply Hl; by right). done.
Qed.

(** Songs within the path of a child are the songs of this child. *)
Lemma child_songs p d i c n (P : SongFilter.LightSong → Prop) `{!∀ s, Decision (P s)} :
  wf p d → children d !! i = Some c → wf (child_path p n) c → file_name n →
  (∀ s, P s → within (child_path p n) (SongFilter.GetURI s)) →
  filter P (all_songs d) = filter P (all_songs c).
Proof.
  intros Hd Hi Hc [[Hn Hns] _] HP. rewrite all_songs_unfold, filter_app.
  rewrite filter_none.
  2:{ apply Forall_fmap, Forall_forall. intros s Hs HPs. simpl in HPs.
      pose proof (wf_names _ _ Hd) as Hnames. rewrite Forall_forall in Hnames.
      destruct (Hnames (s_uri s)) as [[_ Hs'] _]; [by apply list_elem_of_fmap_2|].
      destruct (HP _ HPs) as [E|[r E]]; rewrite (Export_uri p d s Hd) in E.
      - apply child_path_inj in E.
        destruct (wf_children _ _ Hd c) as (n' & _ & Hni & Hc'); [by eapply list_elem_of_lookup_2|].
        pose proof (wf_path _ _ Hc') as Hp. rewrite (wf_path _ _ Hc) in Hp. apply child_path_inj in Hp as <-.
        apply Hni. rewrite <-E. by apply list_elem_of_fmap_2.
      - rewrite <-child_path_app in E. apply child_path_inj in E. rewrite E in Hs'. set_solver. }
  simpl. rewrite <-(take_drop_middle (children d) i c Hi) at 1.
  rewrite fmap_app, fmap_cons, concat_app, filter_app. cbn [concat]. rewrite filter_app.
  assert (Hothers : ∀ j c', children d !! j = Some c' → j ≠ i → Forall (λ s, ¬ P s) (all_songs c')).
  { intros j c' Hj Hji. apply Forall_forall. intros s Hs HPs.
    destruct (wf_children _ _ Hd c') as (n' & [[Hn' Hns'] _] & _ & Hc'); [by eapply list_elem_of_lookup_2|].
    destruct (below_child p n' _ Hn' (all_songs_below _ _ Hc' s Hs)) as [r' E'].
    assert (n = n') as <-.
    { destruct (HP _ HPs) as [E|[r E]]; rewrite E, <-!child_path_app in E'; apply child_path_inj in E'.
      - rewrite E' in Hns. set_solver.
      - by apply name_sep_inj in E'. }
    pose proof (wf_unique _ _ Hd) as Hu. apply Hji.
    eapply NoDup_lookup; [exact Hu|..]; rewrite list_lookup_fmap, ?Hj, ?Hi; simpl;
      by rewrite ?(wf_path _ _ Hc), ?(wf_path _ _ Hc'). }
  rewrite !filter_concat_none; [by rewrite app_nil_r|..]; apply Forall_fmap, Forall_lookup; intros j c' Hj; simpl.
  - rewrite lookup_drop in Hj. eapply Hothers; [exact Hj|lia].
  - pose proof (lookup_lt_Some _ _ _ Hj) as Hlt. rewrite length_take in Hlt.
    rewrite lookup_take_lt in Hj by lia. eapply Hothers; [exact Hj|lia].
Qed.

(** ** Looking up *)

(** The directory at a pointer. *)
Fixpoint descend (at_ : list nat) (d : Directory) : option Directory :=
  match at_ with
  | [] => Some d
  | i :: at_ => c ← children d !! i; descend at_ c
  end.

(** A path through a child that does not exist leads to no song. *)
Lemma no_song_within p d seg r : wf p d → slash ∉ seg →
  (∀ c, c ∈ children d → path c ≠ child_path p seg) →
  ∀ s, s ∈ all_songs d → ¬ within (child_path p (seg ++ slash :: r)) (SongFilter.GetURI s).
Proof.
  intros Hd Hseg Hno s Hs Hw.
  assert (∃ r', SongFilter.GetURI s = child_path p (seg ++ slash :: r')) as [r' E].
  { destruct Hw as [->|[r' ->]]; [by eexists|]. rewrite <-child_path_app, <-app_assoc. simpl.
    by eexists. }
  apply elem_of_all_songs in Hs as [(x & Hx & ->)|(c & Hc & Hs)].
  - rewrite (Export_uri p d x Hd) in E. apply child_path_inj in E.
    pose proof (wf_names _ _ Hd) as Hnames. rewrite Forall_forall in Hnames.
    destruct (Hnames (s_uri x)) as [[_ Hs'] _]; [by apply list_elem_of_fmap_2|].
    rewrite E in Hs'. set_solver.
  - destruct (wf_children _ _ Hd c Hc) as (n & [[Hn Hns] _] & _ & Hwf).
    destruct (below_child p n _ Hn (all_songs_below _ _ Hwf s Hs)) as [r2 E2].
    rewrite E, <-child_path_app in E2. apply child_path_inj, name_sep_inj in E2; [|done..]. subst n.
    by apply (Hno c Hc), (wf_path _ _ Hwf).
Qed.

Lemma no_empty_name p d : wf p d → ∀ c, c ∈ children d → path c ≠ child_path p [].
Proof.
  intros Hd c Hc. destruct (wf_children _ _ Hd c Hc) as (n & [[Hn _] _] & _ & Hwf).
  rewrite (wf_path _ _ Hwf). by intros ?%child_path_inj.
Qed.

(** What a lookup of [full] finds in the tree [d]: the directory with this path, or the last
    directory [c] on the way, with the path [q], in which nothing continues with [rest].
    In either case the songs within [full] are all in [c]. *)
Definition found (full : list Z) (d c : Directory) (rest : option (list Z)) : Prop :=
  (∀ (P : SongFilter.LightSong → Prop) (dec : ∀ s : SongFilter.LightSong, Decision (P s)),
     (∀ s, P s → within full (SongFilter.GetURI s)) →
     filter P (all_songs d) = filter P (all_songs c)) ∧
  match rest with
  | None => wf full c
  | Some rest => ∃ q, wf q c ∧ full = child_path q rest ∧
      if bool_decide (slash ∈ rest)
      then ∀ s, s ∈ all_songs c → ¬ within full (SongFilter.GetURI s)
      else ∀ c', c' ∈ children c → path c' ≠ full
  end.

Lemma within_below p n r u : within (child_path p (n ++ slash :: r)) u → within (child_path p n) u.
Proof.
  intros Hw. right. rewrite child_path_app in Hw. destruct Hw as [->|[r' ->]]; [by eexists|].
  rewrite <-app_assoc. by eexists.
Qed.

Lemma found_here p d rest : wf p d →
  (if bool_decide (slash ∈ rest) then ∃ seg r, rest = seg ++ slash :: r ∧ (slash ∉ seg) ∧
     ∀ c, c ∈ children d → path c ≠ child_path p seg
   else ∀ c, c ∈ children d → path c ≠ child_path p rest) →
  found (child_path p rest) d d (Some rest).
Proof.
  intros Hd Hno. split; [done|]. exists p. split_and!; [done|done|].
  case_bool_decide; [|done]. destruct Hno as (seg & r & -> & Hs & Hno).
  by apply (no_song_within p d seg r).
Qed.

(** Descending into a child, and finding the rest there. *)
Lemma found_below p d j c n r c' rest : wf p d → children d !! j = Some c →
  wf (child_path p n) c → file_name n → found (child_path p (n ++ slash :: r)) c c' rest →
  found (child_path p (n ++ slash :: r)) d c' rest.
Proof.
  intros Hd Hj Hc Hn [Hsongs Hrest]. split; [|exact Hrest]. intros P ? HP.
  rewrite (child_songs p d j c n P Hd Hj Hc Hn); [by apply Hsongs|].
  intros s HPs. specialize (HP s HPs). by apply (within_below p n r).
Qed.

Lemma tree_lookup_ok fuel at_ p d name : wf p d → length name < fuel →
  ∃ ext c rest, lookup_loop fuel at_ d name = Some (at_ ++ ext, c, rest) ∧
    descend ext d = Some c ∧ found (child_path p name) d c rest.
Proof.
  revert at_ p d name. induction fuel as [|fuel IH]; intros at_ p d name Hd Hf; [lia|].
  cbn [lookup_loop]. destruct (strchr name slash) as [[|i]|] eqn:E.
  - exists [], d, (Some name). rewrite app_nil_r. split_and!; [done|done|].
    apply strchr_decompose in E as [E _]. simpl in E. apply found_here; [done|].
    rewrite bool_decide_eq_true_2 by (rewrite E; set_solver).
    exists [], (drop 1 name). split_and!; [exact E|set_solver|by apply no_empty_name].
  - pose proof (strchr_decompose _ _ _ E) as [Hname Hseg].
    replace (S i + 1) with (S (S i)) by lia.
    set (seg := take (S i) name) in *. set (rest := drop (S (S i)) name) in *.
    destruct (FindChild_ok p d seg Hd) as (r & -> & Hr). simpl. destruct r as [[j c]|].
    + destruct Hr as (Hj & Hc & Hn).
      destruct (IH (at_ ++ [j]) (child_path p seg) c rest Hc) as (ext & c' & rest' & -> & Hdesc & Hfound).
      { apply (f_equal length) in Hname. rewrite length_app in Hname. simpl in Hname. lia. }
      exists (j :: ext), c', rest'. rewrite <-app_assoc. split_and!; [done|simpl; by rewrite Hj|].
      rewrite child_path_assoc in Hfound by apply Hn.
      rewrite Hname. by apply (found_below p d j c seg).
    + exists [], d, (Some name). rewrite app_nil_r. split_and!; [done|done|].
      apply found_here; [done|]. rewrite bool_decide_eq_true_2 by (rewrite Hname; set_solver).
      by exists seg, rest.
  - apply strchr_None in E. destruct (FindChild_ok p d name Hd) as (r & -> & Hr). simpl.
    destruct r as [[j c]|].
    + destruct Hr as (Hj & Hc & Hn). exists [j], c, None. simpl. rewrite Hj. split_and!; [done|done|].
      split; [|done].
      intros P ? HP. by apply (child_songs p d j c name P).
    + exists [], d, (Some name). rewrite app_nil_r. split_and!; [done|done|].
      apply found_here; [done|]. by rewrite bool_decide_eq_false_2.
Qed.

Lemma descend_songs at_ d c : descend at_ d = Some c → ∀ s, s ∈ all_songs c → s ∈ all_songs d.
Proof.
  revert d. induction at_ as [|i at_ IH]; intros d; cbn [descend]; [by intros [= ->]|].
  intros (c' & Hc' & Hd)%bind_Some s Hs. apply elem_of_all_songs. right. exists c'.
  split; [by eapply list_elem_of_lookup_2|]. by apply (IH c').
Qed.

(** ** Songs by name *)

Lemma FindSong_ok p d name : wf p d →
  match FindSong name d with
  | Some s => s ∈ songs d ∧ s_uri s = name
  | None => ∀ s, s ∈ songs d → s_uri s ≠ name
  end.
Proof.
  intros Hd. unfold FindSong. destruct (list_find _ _) as [[i s]|] eqn:E; simpl.
  - apply list_find_Some in E as (Hi & Hs & _). split; [by eapply list_elem_of_lookup_2|done].
  - by rewrite list_find_None, Forall_forall in E.
Qed.

(** The songs within the path of an entry that is not a directory: the song of this name. *)
Lemma songs_within p d rest (P : SongFilter.LightSong → Prop) `{dec : !∀ s, Decision (P s)} :
  wf p d → slash ∉ rest → (∀ c, c ∈ children d → path c ≠ child_path p rest) →
  (∀ s, P s → within (child_path p rest) (SongFilter.GetURI s)) →
  filter P (all_songs d) =
    filter P (match FindSong rest d with Some s => [Export d s] | None => [] end).
Proof.
  intros Hd Hrest Hno HP. rewrite all_songs_unfold, filter_app.
  rewrite (filter_none P (concat _)), app_nil_r.
  2:{ apply Forall_concat, Forall_fmap, Forall_forall. intros c Hc. simpl. apply Forall_forall.
      intros s Hs HPs. destruct (wf_children _ _ Hd c Hc) as (n & [[Hn Hns] _] & _ & Hwf).
      destruct (below_child p n _ Hn (all_songs_below _ _ Hwf s Hs)) as [r E].
      apply (Hno c Hc). rewrite (wf_path _ _ Hwf). f_equal.
      destruct (HP s HPs) as [E'|[r' E']]; rewrite E, <-!child_path_app in E'; apply child_path_inj in E'.
      - rewrite <-E' in Hrest. set_solver.
      - by apply name_sep_inj in E'. }
  assert (Hx : ∀ x, x ∈ songs d → P (Export d x) → s_uri x = rest).
  { intros x Hx HPx. pose proof (HP _ HPx) as Hw. rewrite (Export_uri p d x Hd) in Hw.
    destruct Hw as [E|[r E]]; [by apply child_path_inj in E|].
    rewrite <-child_path_app in E. apply child_path_inj in E.
    pose proof (wf_names _ _ Hd) as Hnames. rewrite Forall_forall in Hnames.
    destruct (Hnames (s_uri x)) as [[_ Hs'] _]; [by apply list_elem_of_fmap_2|].
    rewrite E in Hs'. set_solver. }
  pose proof (FindSong_ok p d rest Hd) as Hf. destruct (FindSong rest d) as [s|].
  - destruct Hf as [Hs Hn]. pose proof (wf_songs _ _ Hd) as Hnd. clear Hno HP Hd.
    induction (songs d) as [|x l IH]; [by apply not_elem_of_nil in Hs|].
    apply NoDup_cons in Hnd as [Hni Hnd]. rewrite fmap_cons, filter_cons. cbn [filter list_filter].
    apply elem_of_cons in Hs as [->|Hs].
    + rewrite (filter_none P (Export d <$> l)); [done|].
      apply Forall_fmap, Forall_forall. intros y Hy HPy. apply Hni.
      rewrite Hn, <-(Hx y); [by apply list_elem_of_fmap_2|by right|done].
    + rewrite decide_False; [apply IH; [intros; apply Hx; [by right|done]|done|done]|].
      intros HPx. apply Hni. rewrite (Hx x), <-Hn by (by left || done). by apply list_elem_of_fmap_2.
  - apply filter_none, Forall_fmap, Forall_forall. intros x Hxs HPx. simpl in HPx.
    by apply (Hf x Hxs), Hx.
Qed.

(** ** Walking *)

Section Walk.
Context `{!SongFilter.Icu}.

(** The songs a filter lets through. *)
Definition selected (filter_ : option SongFilter.SongFilter) (s : SongFilter.LightSong) : Prop :=
  Selection_Match filter_ s = Some true.

#[export] Instance selected_dec f s : Decision (selected f s).
Proof. unfold selected. apply _. Defined.

(** The filter can be evaluated on these songs. *)
Definition matchable (f : option SongFilter.SongFilter) (l : list SongFilter.LightSong) : Prop :=
  Forall (λ s, is_Some (Selection_Match f s)) l.

Lemma visited_songs_app l k : visited_songs (l ++ k) = visited_songs l ++ visited_songs k.
Proof. apply omap_app. Qed.

(** A walk that ends normally and visits the songs [l]. *)
Definition walked (w : option walk) (l : list SongFilter.LightSong) : Prop :=
  ∃ w', w = Some w' ∧ thrown w' = None ∧ visited_songs (visits w') = l.

Lemma walked_calls l k : visited_songs l = k → walked (Some (calls l)) k.
Proof. intros <-. by eexists. Qed.

Lemma walked_and_then w k l l' : thrown w = None → visited_songs (visits w) = l → walked k l' →
  walked (and_then w k) (l ++ l').
Proof.
  intros Hw <- (w' & -> & Ht & <-). unfold and_then. rewrite Hw. simpl. eexists. split; [done|].
  split; [done|]. apply visited_songs_app.
Qed.

Lemma walk_all_ok {A} (f : A → option walk) (g : A → list SongFilter.LightSong) l :
  (∀ x, x ∈ l → walked (f x) (g x)) → walked (walk_all f l) (concat (g <$> l)).
Proof.
  induction l as [|x l IH]; intros Hf; cbn [walk_all]; [by apply walked_calls|].
  destruct (Hf x) as (w & -> & Ht & Hw); [by left|]. simpl. apply walked_and_then; [done|done|].
  apply IH. intros y Hy. apply Hf. by right.
Qed.

Lemma offer_song_ok f s : is_Some (Selection_Match f s) →
  walked (offer_song f s) (filter (selected f) [s]).
Proof.
  intros [b E]. unfold offer_song. rewrite E. simpl. apply walked_calls.
  rewrite filter_cons. destruct b; case_decide as Hs; unfold selected in Hs; congruence || done.
Qed.

Lemma visited_no_songs {A} (f : A → visit) l : (∀ x s, f x ≠ VSong s) → visited_songs (f <$> l) = [].
Proof.
  intros Hf. induction l as [|x l IH]; [done|].
  change (f <$> x :: l) with ([f x] ++ (f <$> l)). rewrite visited_songs_app, IH. destruct (f x) eqn:E; [done| |done]. by apply Hf in E.
Qed.

Lemma concat_filter (P : SongFilter.LightSong → Prop) `{!∀ s, Decision (P s)} ll :
  concat (filter P <$> ll) = filter P (concat ll).
Proof. induction ll as [|l ll IH]; [done|]. rewrite fmap_cons. cbn [concat]. by rewrite filter_app, IH. Qed.

(** Walking a tree visits the songs of the tree that match, in order. *)
Lemma Walk_fuel_ok fuel f v p d : wf p d → depth d ≤ fuel → matchable f (all_songs d) →
  visit_song v = true →
  walked (Walk_fuel fuel true f v d) (filter (selected f) (all_songs d)).
Proof.
  intros Hd. revert p Hd fuel. induction d as [d IH] using directory_ind'.
  intros p Hd fuel Hfuel Hm Hv. pose proof (wf_mount _ _ Hd) as Hmount.
  destruct fuel as [|fuel]; [destruct d; simpl in Hfuel; lia|]. cbn [Walk_fuel].
  rewrite Hmount, Hv. rewrite all_songs_unfold in Hm |- *. unfold matchable in Hm.
  apply Forall_app in Hm as [Hm Hmc]. rewrite filter_app.
  assert (Hw : walked (walk_all (λ s, offer_song f (Export d s)) (songs d))
    (filter (selected f) (Export d <$> songs d))).
  { rewrite Forall_fmap, Forall_forall in Hm.
    pose proof (walk_all_ok (λ s, offer_song f (Export d s)) (λ s, filter (selected f) [Export d s]) (songs d)) as Hall.
    replace (filter (selected f) (Export d <$> songs d))
      with (concat ((λ s, filter (selected f) [Export d s]) <$> songs d)).
    - apply Hall. intros x Hx. apply offer_song_ok. by apply Hm.
    - clear. induction (songs d) as [|x l IH]; [done|]. rewrite !fmap_cons. cbn [concat].
      rewrite IH. change (Export d x :: (Export d <$> l)) with ([Export d x] ++ (Export d <$> l)).
      by rewrite filter_app. }
  destruct Hw as (w & -> & Ht & Hvis). cbn [mbind option_bind]. apply walked_and_then; [done|done|].
  apply (walked_and_then (calls _) _ []); [done|simpl; destruct (visit_playlist v); [by apply visited_no_songs|done]|].
  rewrite <-concat_filter, <-list_fmap_compose.
  apply walk_all_ok. intros c Hc. simpl.
  apply (walked_and_then (calls _) _ []); [done|by destruct (visit_directory v)|].
  rewrite Forall_forall in IH. destruct (wf_children _ _ Hd c Hc) as (n & _ & _ & Hwf).
  apply (IH c Hc _ Hwf); [|unfold matchable|done].
  - destruct d as [cs ? ? ? ? ? ? ? m]. simpl in *. subst m. simpl in Hfuel.
    assert (depth c ≤ max_list (depth <$> cs)); [|lia].
    apply max_list_elem_of_le. by apply list_elem_of_fmap_2.
  - apply Forall_forall. intros s Hs. rewrite Forall_concat, Forall_fmap, Forall_forall in Hmc.
    specialize (Hmc c Hc). simpl in Hmc. by rewrite Forall_forall in Hmc; apply Hmc.
Qed.

End Walk.

End DirectoryFacts.
