(* ===== verification/DatabaseProps.v ===== *)
(** * What the song database guarantees

    Queries of [SimpleDatabase] against a scan of the whole tree, lookups of single songs,
    and the invariant under every edit of the tree. *)

From Stdlib Require Import ZArith Lia ZifyBool.
From stdpp Require Import base numbers sets gmap strings list.
From Stdlib Require Import ZArith Lia.
From stdpp Require Import base numbers strings list.
From S2P Require Import Prelude CString UriUtil Tag TextIO SongFilter Directory DirectoryFacts.

Set Default Goal Selector "!".

Module DatabaseProps.
Import CString UriUtil Tag PathTraits Directory DirectoryFacts.

(** ** Queries *)

Section Queries.
Context `{!SongFilter.Icu}.

#[export] Instance below_dec p u : Decision (below p u).
Proof.
  destruct (decide (p = [])) as [->|Hp]; [by left; left|].
  destruct (uri_is_child p u) eqn:E.
  - left. right. by apply uri_is_child_correct.
  - right. intros [?|Hr]; [done|]. apply uri_is_child_correct in Hr. congruence.
Defined.

#[export] Instance within_dec p u : Decision (within p u).
Proof.
  destruct (uri_is_child_or_same p u) eqn:E.
  - left. unfold uri_is_child_or_same, streq in E.
    apply orb_true_iff in E as [->%bool_decide_eq_true|E]; [by left|]. right. by apply uri_is_child_correct.
  - right. intros Hw. apply not_true_iff_false in E. apply E. unfold uri_is_child_or_same, streq.
    apply orb_true_iff. destruct Hw as [->|Hw]; [left; by apply bool_decide_eq_true|].
    right. by apply uri_is_child_correct.
Defined.

(** A song that matches a filter is within the base of the filter. *)
Lemma base_within f b s : SongFilter.GetBase f = Some (Some b) → SongFilter.Match_Light f s = Some true →
  within b (SongFilter.GetURI s).
Proof.
  unfold SongFilter.Match_Light. induction f as [|i f IH]; cbn [SongFilter.GetBase SongFilter.all_match]; [done|].
  intros Hb Hm. apply bind_Some in Hm as (c & Hi & Hm).
  destruct c; [|done]. destruct (SongFilter.i_tag i =? SongFilter.LOCATE_TAG_BASE_TYPE) eqn:E; [|by apply IH].
  unfold SongFilter.Item_Match_Light, SongFilter.Match_song in Hi. rewrite E in Hi.
  destruct (SongFilter.i_value i) as [v|]; simplify_eq/=. unfold uri_is_child_or_same, streq in Hi.
  apply orb_true_iff in Hi as [->%bool_decide_eq_true|Hi]; [by left|].
  right. by apply uri_is_child_correct.
Qed.

(** The URI of a selection: the one given, or the base of the filter. *)
Lemma selection_uri u f sel : new_selection u true f = Some sel →
  sel_recursive sel = true ∧ sel_filter sel = f ∧
  (sel_uri sel = u ∨ u = [] ∧ ∀ s, selected f s → within (sel_uri sel) (SongFilter.GetURI s)).
Proof.
  unfold new_selection. destruct f as [f|]; [|intros [= <-]; by auto].
  destruct (length u =? 0) eqn:E; [|intros [= <-]; by auto].
  assert (u = []) as -> by (apply nil_length_inv; lia).
  destruct (SongFilter.GetBase f) as [[b|]|] eqn:Eb; intros [= <-]; simpl; [|by auto].
  split_and!; [done|done|]. right. split; [done|]. intros s Hs. by eapply base_within.
Qed.

Lemma isRoot_spec u : 0%Z ∉ u → first u ≠ slash → isRootDirectory u = bool_decide (u = []).
Proof.
  intros H0 Hs. unfold isRootDirectory. destruct u as [|c u]; [done|]. simpl in Hs.
  change (first (c :: u)) with c. rewrite (proj2 (Z.eqb_neq c 0)) by set_solver.
  by rewrite (proj2 (Z.eqb_neq c slash)).
Qed.

(** A query at the root walks the whole tree. *)
Lemma visit_root f v db U : wf [] (root db) → isRootDirectory U = true → visit_song v = true →
  matchable f (all_songs (root db)) →
  ∃ w, Visit db (mkSelection U true f) v = Some w ∧
    visited_songs (visits w) = filter (selected f) (all_songs (root db)) ∧ thrown w = None.
Proof.
  intros Hwf Er Hv Hm. unfold Visit, Visit_with, LookupDirectory. cbn [sel_uri].
  rewrite Er. cbn [mbind option_bind sel_recursive sel_filter].
  destruct (Walk_fuel_ok (depth (root db)) f v [] (root db)) as (w & Ew & Ht & Hw); [done..|].
  unfold Walk. rewrite Ew. eexists. split; [done|]. split; [|done].
  cbn [visits calls]. rewrite visited_songs_app, Hw. by destruct (visit_directory v).
Qed.

(** A query below the root finds the songs within its URI. *)
Lemma visit_entry f v db U : wf [] (root db) → isRootDirectory U = false → visit_song v = true →
  matchable f (all_songs (root db)) →
  ∃ w, Visit db (mkSelection U true f) v = Some w ∧
    visited_songs (visits w) =
      filter (λ s, selected f s ∧ within U (SongFilter.GetURI s)) (all_songs (root db)) ∧
    (thrown w = None ∨ thrown w = Some NOT_FOUND ∧ visits w = []).
Proof.
  intros Hwf Er Hv Hm. unfold Visit, Visit_with, LookupDirectory. cbn [sel_uri sel_recursive sel_filter].
  rewrite Er. set (Q := λ s, selected f s ∧ within U (SongFilter.GetURI s)).
  assert (HQ : ∀ s, Q s → within U (SongFilter.GetURI s)) by (intros s Hs; apply Hs).
  destruct (tree_lookup_ok (S (length U)) [] [] (root db) U Hwf)
    as (ext & c & rest & -> & Hdesc & Hsongs & Hrest); [lia|].
  cbn [mbind option_bind app child_path] in *. rewrite (Hsongs Q _ HQ).
  assert (Hmc : matchable f (all_songs c)).
  { apply Forall_forall. intros s Hs. unfold matchable in Hm. rewrite Forall_forall in Hm.
    by eapply Hm, descend_songs. }
  destruct rest as [rest|].
  - destruct Hrest as (q & Hq & Hfull & Hno). case_bool_decide as Hslash.
    { rewrite bool_decide_eq_false_2 by (by rewrite strchr_None; tauto). simpl.
      eexists. split; [done|]. split; [|by right]. symmetry. apply filter_none, Forall_forall.
      intros s Hs HQs. by apply (Hno s Hs), HQ. }
    rewrite bool_decide_eq_true_2 by (by rewrite strchr_None). rewrite Hv. cbn [andb].
    rewrite Hfull in Hno, HQ. rewrite (songs_within q c rest Q Hq Hslash Hno HQ).
    pose proof (FindSong_ok q c rest Hq) as Hfs. destruct (FindSong rest c) as [s|].
    + destruct Hfs as [Hs Hn]. destruct (offer_song_ok f (Export c s)) as (w & -> & Ht & Hw).
      { unfold matchable in Hmc. rewrite Forall_forall in Hmc. apply Hmc, elem_of_all_songs.
        left. by exists s. }
      exists w. split; [done|]. split; [|by left]. rewrite Hw. apply filter_ext_in.
      intros x ->%list_elem_of_singleton. unfold Q. rewrite Hfull, (Export_uri q c s Hq), Hn.
      split; [intros ?; split; [done|by left]|tauto].
    + eexists. split; [done|]. split; [done|by right].
  - destruct (Walk_fuel_ok (depth c) f v U c) as (w & Ew & Ht & Hw); [done..|].
    unfold Walk. rewrite Ew. eexists. split; [done|]. split; [|by left].
    cbn [visits calls]. rewrite visited_songs_app, Hw.
    replace (visited_songs _) with (@nil SongFilter.LightSong) by (by destruct (visit_directory v)).
    apply filter_ext_in. intros s Hs. unfold Q. split; [|tauto]. intros Hsel.
    split; [done|]. destruct (all_songs_below _ _ Hrest s Hs) as [->|?]; [done|by right].
Qed.


End Queries.

(** ** Single songs *)

(** No song is lent to a caller. *)
Definition idle (db : SimpleDatabase) : Prop :=
  prefixed_light_song db = None ∧ borrowed_song_count db = 0.

Lemma song_uri_nonempty d s : wf [] d → s ∈ all_songs d → SongFilter.GetURI s ≠ [].
Proof.
  intros Hwf [(x & Hx & ->)|(c & Hc & Hs)]%elem_of_all_songs E.
  - rewrite (Export_uri [] _ x Hwf) in E. pose proof (wf_names _ _ Hwf) as Hn.
    rewrite Forall_forall in Hn.
    destruct (Hn (s_uri x)) as [[? _] _]; [by apply list_elem_of_fmap_2|done].
  - destruct (wf_children _ _ Hwf c Hc) as (n & [[Hn _] _] & _ & Hc').
    destruct (below_child [] n _ Hn (all_songs_below _ _ Hc' s Hs)) as [r E'].
    rewrite E in E'. simpl in E'. by destruct n.
Qed.


(** ** Edits *)

(** The edits of the tree, at the directory a pointer leads to. *)
Inductive edit :=
| EMakeChild (name : list Z)
| EAddSong (s : Song)
| ERemoveSong (i : nat)
| EDelete (i : nat)
| EPlaylist (pi : PlaylistInfo)
| EErasePlaylist (name : list Z)
| EPrune
| EStamp (mtime device : Z).

Definition run_edit (e : edit) (d : Directory) : option Directory :=
  match e with
  | EMakeChild name => snd <$> MakeChild name d
  | EAddSong s => Some (AddSong s d)
  | ERemoveSong i => RemoveSong i d
  | EDelete i => Delete i d
  | EPlaylist pi => Some (set_playlists (UpdateOrInsert pi (playlists d)).2 d)
  | EErasePlaylist name => Some (set_playlists (playlist_erase name (playlists d)).2 d)
  | EPrune => Some (PruneEmpty d)
  | EStamp t v => Some (set_mtime t (set_device v d))
  end.

Section Edits.
Context {distinct : Prop}.

(** What an edit requires: a new name is a file name, and the indices are those of existing
    entries.  If names are to stay [distinct], a new name is no song's, and a new song's no
    directory's.  The update of a container ([Container.cxx]) does not check the
    latter: it makes the directory of a container file before the song of the same name is
    deleted, and adds the tracks as the plugin names them. *)
Definition edit_ok (e : edit) (d : Directory) : Prop :=
  match e with
  | EMakeChild name => file_name name ∧ (distinct → name ∉ (s_uri <$> songs d))
  | EAddSong s => file_name (s_uri s) ∧
      (distinct → (s_uri s ∉ (s_uri <$> songs d)) ∧
        child_path (path d) (s_uri s) ∉ (path <$> children d))
  | ERemoveSong i => i < length (songs d)
  | EDelete i => i < length (children d)
  | _ => True
  end.

(** Entries may be dropped, and children replaced by others with the same path. *)
Lemma wf_change p d cs ss ps t i v : wf_gen distinct p d →
  NoDup (path <$> cs) →
  (∀ c, c ∈ cs → ∃ c0, c0 ∈ children d ∧ path c0 = path c ∧ ∀ q, wf_gen distinct q c0 → wf_gen distinct q c) →
  (distinct → NoDup (s_uri <$> ss)) → ss ⊆ songs d → NoDup (p_name <$> ps) →
  wf_gen distinct p (mkDirectory cs ss ps (has_parent d) t i v (path d) (mounted_database d)).
Proof.
  intros Hd Hcn Hcs Hsn Hss Hp. split; simpl; try by destruct Hd.
  - pose proof (wf_names _ _ Hd) as Hn. rewrite Forall_fmap, Forall_forall in Hn.
    apply Forall_fmap, Forall_forall. intros x Hx. by apply Hn, Hss.
  - intros c Hc. destruct (Hcs c Hc) as (c0 & Hc0 & Hpath & Hwf).
    destruct (wg_children _ _ Hd c0 Hc0) as (n & Hn & Hni & Hwf0).
    exists n. split; [done|]. split; [|by apply Hwf].
    intros HD (x & -> & Hx)%list_elem_of_fmap. apply (Hni HD).
    by apply list_elem_of_fmap_2, Hss.
Qed.

Lemma NoDup_sublist_fmap {A B} (f : A → B) l k : l `sublist_of` k → NoDup (f <$> k) → NoDup (f <$> l).
Proof. intros Hs Hn. eapply sublist_NoDup; [exact Hn|by apply fmap_sublist]. Qed.

Lemma delete_sublist {A} i (l : list A) : take i l ++ drop (S i) l `sublist_of` l.
Proof. rewrite <-delete_take_drop. apply sublist_delete. Qed.

Lemma self_child d cs : cs `sublist_of` children d →
  ∀ c, c ∈ cs → ∃ c0, c0 ∈ children d ∧ path c0 = path c ∧ ∀ q, wf_gen distinct q c0 → wf_gen distinct q c.
Proof. intros Hs c Hc. exists c. split; [by eapply elem_of_sublist|done]. Qed.

Lemma path_set_children l d : path (set_children l d) = path d.
Proof. done. Qed.

Lemma PruneEmpty_path d : path (PruneEmpty d) = path d.
Proof. by destruct d. Qed.

Lemma PruneEmpty_unfold d :
  PruneEmpty d = set_children (filter (λ c, IsEmpty c = false) (PruneEmpty <$> children d)) d.
Proof. by destruct d. Qed.

Lemma PruneEmpty_wf p d : wf_gen distinct p d → wf_gen distinct p (PruneEmpty d).
Proof.
  revert p. induction d as [d IH] using directory_ind'. intros p Hd. rewrite PruneEmpty_unfold.
  rewrite Forall_forall in IH. apply wf_change; [done| | |apply (wg_songs _ _ Hd)|done|apply (wf_playlists _ _ Hd)].
  - eapply NoDup_sublist_fmap; [apply sublist_filter|]. rewrite <-list_fmap_compose.
    replace (path ∘ PruneEmpty <$> children d) with (path <$> children d); [apply (wf_unique _ _ Hd)|].
    apply list_fmap_ext. intros _ c _. simpl. by rewrite PruneEmpty_path.
  - intros c [_ (c0 & -> & Hc0)%list_elem_of_fmap]%list_elem_of_filter. exists c0.
    split_and!; [done|by rewrite PruneEmpty_path|]. intros q. by apply IH.
Qed.

Lemma insert_sorted_perm {A} (lt : A → A → bool) x l : insert_sorted lt x l ≡ₚ x :: l.
Proof.
  induction l as [|y l IH]; [done|]. cbn [insert_sorted]. destruct (lt y x); [|done].
  rewrite IH. apply Permutation_swap.
Qed.

Lemma list_sort_perm {A} (lt : A → A → bool) l : list_sort lt l ≡ₚ l.
Proof.
  induction l as [|x l IH]; [done|]. unfold list_sort in *. simpl. by rewrite insert_sorted_perm, IH.
Qed.

Section Sorting.
Context `{!SongFilter.Icu}.

Lemma Sort_unfold d : Sort d =
  set_songs (song_list_sort (songs d)) (set_children (list_sort directory_cmp (Sort <$> children d)) d).
Proof. by destruct d. Qed.

Lemma Sort_path d : path (Sort d) = path d.
Proof. by destruct d. Qed.

Lemma Sort_wf p d : wf_gen distinct p d → wf_gen distinct p (Sort d).
Proof.
  revert p. induction d as [d IH] using directory_ind'. intros p Hd. rewrite Sort_unfold.
  rewrite Forall_forall in IH.
  apply (wf_change p d); [done| | | | |apply (wf_playlists _ _ Hd)];
    cbn [children songs set_children set_songs].
  - rewrite list_sort_perm, <-list_fmap_compose.
    replace (path ∘ Sort <$> children d) with (path <$> children d); [apply (wf_unique _ _ Hd)|].
    apply list_fmap_ext. intros _ c _. simpl. by rewrite Sort_path.
  - intros c. rewrite list_sort_perm. intros (c0 & -> & Hc0)%list_elem_of_fmap. exists c0.
    split_and!; [done|by rewrite Sort_path|]. intros q. by apply IH.
  - unfold song_list_sort. rewrite list_sort_perm. apply (wg_songs _ _ Hd).
  - intros x. unfold song_list_sort. by rewrite list_sort_perm.
Qed.

End Sorting.

(** One edit of a directory. *)
Lemma UpdateOrInsert_names pi l : NoDup (p_name <$> l) →
  NoDup (p_name <$> (UpdateOrInsert pi l).2) ∧
  ∀ n, n ∈ (p_name <$> (UpdateOrInsert pi l).2) → n = p_name pi ∨ n ∈ (p_name <$> l).
Proof.
  induction l as [|p l IH]; cbn [UpdateOrInsert]; intros Hl.
  - split; [apply NoDup_singleton|]. simpl. set_solver.
  - rewrite fmap_cons in Hl. apply NoDup_cons in Hl as [Hni Hl]. unfold streq. case_bool_decide as E.
    + destruct (p_mtime pi =? p_mtime p)%Z; simpl; (split; [by apply NoDup_cons|set_solver]).
    + destruct (IH Hl) as [Hn Hin]. destruct (UpdateOrInsert pi l) as [b l']. simpl in *.
      split; [|set_solver]. apply NoDup_cons. split; [|done]. intros [?|?]%Hin; done.
Qed.

Lemma playlist_erase_sublist name l : (playlist_erase name l).2 `sublist_of` l.
Proof.
  induction l as [|p l IH]; cbn [playlist_erase]; [done|].
  destruct (streq _ _); [by apply sublist_cons|].
  destruct (playlist_erase name l). simpl in *. by apply sublist_skip.
Qed.

Lemma new_child_wf p n : file_name n → wf_gen distinct (child_path p n) (new_directory (child_path p n) true).
Proof.
  intros [[Hn _] _]. split; simpl; try (done || constructor || by intros ? ?%not_elem_of_nil).
  symmetry. apply bool_decide_eq_true_2. by apply child_path_cons.
Qed.

Lemma first_file_name n : file_name n → first n ≠ 0%Z.
Proof. intros [[Hn _] H0] E. destruct n as [|c n]; [done|]. apply H0. change (first (c :: n)) with c in E. rewrite E. by left. Qed.

(** The path [CreateChild] gives to the new directory. *)
Lemma CreateChild_ok p d n : wf_gen distinct p d → good_path p → file_name n →
  CreateChild n d = Some (set_children (children d ++ [new_directory (child_path p n) true]) d).
Proof.
  intros Hd Hp Hn. unfold CreateChild.
  rewrite check_bind by (apply negb_true_iff, Z.eqb_neq; by apply first_file_name).
  rewrite (wf_IsRoot _ _ Hd), (wf_path _ _ Hd). case_bool_decide as E; [by subst|].
  rewrite Build_name by (done || apply Hn). by destruct p.
Qed.

Lemma NoDup_snoc {A} (l : list A) x : NoDup l → x ∉ l → NoDup (l ++ [x]).
Proof. intros Hl Hx. rewrite Permutation_app_comm. by apply NoDup_cons. Qed.

Lemma CreateChild_wf p d n : wf_gen distinct p d → good_path p → file_name n → (distinct → n ∉ (s_uri <$> songs d)) →
  child_path p n ∉ (path <$> children d) →
  wf_gen distinct p (set_children (children d ++ [new_directory (child_path p n) true]) d).
Proof.
  intros Hd Hp Hn Hni Hnew. split; simpl; try by destruct Hd.
  - rewrite fmap_app. by apply NoDup_snoc; [apply (wf_unique _ _ Hd)|].
  - intros c [Hc| ->%list_elem_of_singleton]%elem_of_app; [by apply (wg_children _ _ Hd)|].
    exists n. split; [done|]. split; [done|by apply new_child_wf].
Qed.

Lemma AddSong_wf p d s : wf_gen distinct p d → file_name (s_uri s) →
  (distinct → (s_uri s ∉ (s_uri <$> songs d)) ∧ child_path p (s_uri s) ∉ (path <$> children d)) →
  wf_gen distinct p (AddSong s d).
Proof.
  intros Hd Hn Hnew. split; simpl; try by destruct Hd.
  - intros HD. rewrite fmap_app. by apply NoDup_snoc; [apply (wg_songs _ _ Hd)|apply Hnew].
  - rewrite fmap_app. apply Forall_app. split; [apply (wf_names _ _ Hd)|by constructor].
  - intros c Hc. destruct (wg_children _ _ Hd c Hc) as (m & Hm & Hni' & Hwf). exists m.
    split; [done|]. split; [|done]. rewrite fmap_app.
    intros HD [?|E%list_elem_of_singleton]%elem_of_app; [by apply Hni'|].
    apply (Hnew HD). rewrite <-E, <-(wf_path _ _ Hwf). by apply list_elem_of_fmap_2.
Qed.

Lemma run_edit_wf e p d : wf_gen distinct p d → good_path p → edit_ok e d →
  ∃ d', run_edit e d = Some d' ∧ wf_gen distinct p d' ∧ path d' = path d.
Proof.
  intros Hd Hp He. pose proof (self_child d) as Hself. pose proof (wf_playlists _ _ Hd) as Hpl.
  pose proof (wf_unique _ _ Hd) as Hu. pose proof (wg_songs _ _ Hd) as Hs.
  destruct e as [n|s|i|i|pi|n| |t v]; simpl in *.
  - unfold MakeChild. destruct (FindChild_ok p d n Hd) as (r & -> & Hr). simpl.
    destruct r as [[i c]|]; simpl; [by exists d|]. rewrite (CreateChild_ok p d n) by tauto. simpl.
    eexists. split; [done|]. split; [|done]. apply CreateChild_wf; try tauto.
    intros (c & E & Hc)%list_elem_of_fmap. by apply (Hr c Hc).
  - eexists. split; [done|]. split; [|done]. rewrite (wf_path _ _ Hd) in He. apply AddSong_wf; tauto.
  - unfold RemoveSong. rewrite check_bind by lia. eexists. split; [done|]. split; [|done].
    apply (wf_change p d); [done|done|by apply Hself|..|done].
    + intros HD. specialize (Hs HD). eapply NoDup_sublist_fmap; [apply delete_sublist|done].
    + apply sublist_subseteq, delete_sublist.
  - unfold Delete. destruct (lookup_lt_is_Some_2 (children d) i He) as [c Hc]. rewrite Hc. simpl.
    destruct (wg_children _ _ Hd c) as (n & [[Hn _] _] & _ & Hwf); [by eapply list_elem_of_lookup_2|].
    rewrite (wf_parent _ _ Hwf), bool_decide_eq_true_2 by (by apply child_path_cons). simpl.
    eexists. split; [done|]. split; [|done]. apply (wf_change p d); [done| | |done|done|done].
    + eapply NoDup_sublist_fmap; [apply delete_sublist|done].
    + apply Hself, delete_sublist.
  - eexists. split; [done|]. split; [|done]. apply (wf_change p d); [done|done|by apply Hself|done|done|].
    by apply UpdateOrInsert_names.
  - eexists. split; [done|]. split; [|done]. apply (wf_change p d); [done|done|by apply Hself|done|done|].
    eapply NoDup_sublist_fmap; [apply playlist_erase_sublist|done].
  - eexists. split; [done|]. split; [by apply PruneEmpty_wf|apply PruneEmpty_path].
  - eexists. split; [done|]. split; [|done]. by apply (wf_change p d); [done|done|apply Hself|..].
Qed.

(** An edit somewhere in the tree. *)
Lemma update_at_wf at_ f p d c : wf_gen distinct p d → good_path p → descend at_ d = Some c →
  (∀ q, wf_gen distinct q c → good_path q → ∃ c', f c = Some c' ∧ wf_gen distinct q c' ∧ path c' = path c) →
  ∃ d', update_at at_ f d = Some d' ∧ wf_gen distinct p d' ∧ path d' = path d.
Proof.
  revert p d. induction at_ as [|i at_ IH]; intros p d Hd Hp Hdesc Hf; simpl in *.
  { injection Hdesc as ->. by apply Hf. }
  destruct (children d !! i) as [x|] eqn:Hi; [|done]. simpl in *.
  destruct (wg_children _ _ Hd x) as (n & Hn & Hni & Hx); [by eapply list_elem_of_lookup_2|].
  destruct (IH _ _ Hx) as (x' & -> & Hx' & Hpath); [apply child_path_good, Hn|done|done|]. simpl.
  eexists. split; [done|]. split; [|done]. split; simpl; try by destruct Hd.
  - rewrite list_fmap_insert, Hpath, list_insert_id by (by rewrite list_lookup_fmap, Hi).
    apply (wf_unique _ _ Hd).
  - intros y [k Hk]%list_elem_of_lookup. destruct (decide (k = i)) as [->|Hne].
    + rewrite list_lookup_insert_eq in Hk by (by eapply lookup_lt_Some). injection Hk as <-. by exists n.
    + rewrite list_lookup_insert_ne in Hk by done.
      apply (wg_children _ _ Hd). by eapply list_elem_of_lookup_2.
Qed.

Section Reachable.
Context `{!SongFilter.Icu}.

(** What the update thread and [Save] do to the tree. *)
Inductive db_step (d : Directory) : Directory → Prop :=
| step_edit at_ e c d' : descend at_ d = Some c → edit_ok e c →
    update_at at_ (run_edit e) d = Some d' → db_step d d'
| step_sort : db_step d (Sort d).

Lemma NewRoot_wf : wf_gen distinct [] NewRoot.
Proof. split; simpl; try (done || constructor || by intros ? ?%not_elem_of_nil). Qed.

Lemma edit_wf at_ e c d : wf_gen distinct [] d → descend at_ d = Some c → edit_ok e c →
  ∃ d', update_at at_ (run_edit e) d = Some d' ∧ wf_gen distinct [] d'.
Proof.
  intros Hd Hc He. destruct (update_at_wf at_ (run_edit e) [] d c) as (d' & E & Hd' & _);
    [done|done|done| |by exists d'].
  intros q Hq Hg. by apply run_edit_wf.
Qed.

(** C18: the invariant of the database.  Starting from an empty tree, whatever directories,
    songs and playlists are added under file names (not empty, no separator) or removed, and
    whenever the tree is pruned or sorted: every path is the parent's path and a file name,
    the parent links agree, no two children of a directory have the same path, no two of its
    playlists the same name, nothing is mounted, and the next edit fails no assertion.
    If moreover the updates keep the names of songs and directories [distinct], as all
    but the update of a container file do, no two songs of a directory have the same name and
    none has the name of a child. *)
Theorem database_invariant d : rtc db_step NewRoot d →
  wf_gen distinct [] d ∧ ∀ at_ e c, descend at_ d = Some c → edit_ok e c →
    ∃ d', update_at at_ (run_edit e) d = Some d' ∧ wf_gen distinct [] d'.
Proof.
  intros Hr. assert (Hd : wf_gen distinct [] d).
  { revert Hr. apply (rtc_ind_r (λ d, wf_gen distinct [] d)); [apply NewRoot_wf|].
    intros x y _ [at_ e c d' Hc He E|] Hx; [|by apply Sort_wf].
    destruct (edit_wf at_ e c x Hx Hc He) as (y' & E' & Hy). by simplify_eq. }
  split; [done|]. intros at_ e c. by apply edit_wf.
Qed.

End Reachable.
End Edits.
Arguments edit_ok _ _ _ : clear implicits.
Arguments db_step _ {_} _ _.

Section Saving.
Context `{!SongFilter.Icu}.

(** ** What is saved *)

(** No directory but the root is empty. *)
Inductive pruned : Directory → Prop :=
| pruned_intro d : Forall (λ c, IsEmpty c = false ∧ pruned c) (children d) → pruned d.

Lemma IsEmpty_songs d : IsEmpty d = true → all_songs d = [].
Proof.
  unfold IsEmpty. rewrite !andb_true_iff, !Nat.eqb_eq. intros [[Hc%nil_length_inv Hs%nil_length_inv] _].
  by rewrite all_songs_unfold, Hc, Hs.
Qed.

Lemma PruneEmpty_songs d : all_songs (PruneEmpty d) = all_songs d.
Proof.
  induction d as [d IH] using directory_ind'. rewrite PruneEmpty_unfold, !all_songs_unfold.
  change (songs (set_children _ _)) with (songs d).
  change (children (set_children ?l _)) with l. f_equal.
  induction IH as [|c l Hc _ IHl]; [done|]. rewrite !fmap_cons, filter_cons. case_decide as E.
  - rewrite fmap_cons. cbn [concat]. by rewrite Hc, IHl.
  - rewrite IHl. cbn [concat]. rewrite <-Hc, IsEmpty_songs; [done|]. by apply not_false_iff_true.
Qed.

Lemma PruneEmpty_pruned d : pruned (PruneEmpty d).
Proof.
  induction d as [d IH] using directory_ind'. rewrite PruneEmpty_unfold. constructor. simpl.
  apply Forall_forall. intros c [Hc (c0 & -> & Hc0)%list_elem_of_fmap]%list_elem_of_filter.
  rewrite Forall_forall in IH. split; [done|by apply IH].
Qed.

Lemma concat_perm {A B} (f g : A → list B) l : (∀ x, x ∈ l → f x ≡ₚ g x) → concat (f <$> l) ≡ₚ concat (g <$> l).
Proof.
  induction l as [|x l IH]; intros Hl; [done|]. rewrite !fmap_cons. cbn [concat].
  rewrite (Hl x) by (by left). by rewrite IH by (intros; apply Hl; by right).
Qed.

Lemma concat_permutation {A} (l k : list (list A)) : l ≡ₚ k → concat l ≡ₚ concat k.
Proof.
  induction 1 as [|x l k _ IH|x y l|l k m _ IH1 _ IH2]; simpl; [done|by rewrite IH| |by rewrite IH1].
  by rewrite !app_assoc, (Permutation_app_comm y x).
Qed.

Lemma Sort_songs d : all_songs (Sort d) ≡ₚ all_songs d.
Proof.
  induction d as [d IH] using directory_ind'. rewrite Sort_unfold, !all_songs_unfold.
  cbn [songs children set_songs set_children]. apply Permutation_app.
  - change (Export _) with (Export d). unfold song_list_sort. by rewrite list_sort_perm.
  - rewrite (concat_permutation _ (all_songs <$> (Sort <$> children d)))
      by (by rewrite list_sort_perm).
    rewrite <-list_fmap_compose. apply concat_perm. rewrite Forall_forall in IH. intros c Hc. by apply IH.
Qed.

Lemma Sort_IsEmpty d : IsEmpty (Sort d) = IsEmpty d.
Proof.
  rewrite Sort_unfold. unfold IsEmpty, song_list_sort. simpl.
  by rewrite !(Permutation_length (list_sort_perm _ _)), length_fmap.
Qed.

Lemma Sort_pruned d : pruned d → pruned (Sort d).
Proof.
  induction d as [d IH] using directory_ind'. intros Hp. inversion Hp as [d' Hd Heq]; subst d'. rewrite Sort_unfold. constructor. simpl.
  rewrite list_sort_perm. apply Forall_fmap. rewrite Forall_forall in *. intros c Hc. simpl.
  rewrite Sort_IsEmpty. destruct (Hd c Hc). split; [done|by apply IH].
Qed.

(** [Save] writes a tree without empty directories that has the same songs. *)
Theorem save_keeps_songs db : wf [] (root db) →
  let saved := root (Save_prepare db) in
  wf [] saved ∧ pruned saved ∧ all_songs saved ≡ₚ all_songs (root db).
Proof.
  intros Hd saved. subst saved. unfold Save_prepare. simpl. split_and!.
  - by apply Sort_wf, PruneEmpty_wf.
  - apply Sort_pruned, PruneEmpty_pruned.
  - by rewrite Sort_songs, PruneEmpty_songs.
Qed.

End Saving.

(** ** Instances *)

#[local] Existing Instance SongFilter.ascii_icu.

(** A database with two songs, one in a directory. *)
Definition sample_song (n artist : list Z) : Song :=
  mkDbSong n (mkTag 180000 false [mkTagItem TAG_ARTIST artist]) 1000 0 0.

Definition sample_tree : Directory :=
  mkDirectory
    [mkDirectory [] [sample_song (str "b.ogg") (str "Bach")] [] true 5 0 0 (str "rock") None]
    [sample_song (str "a.ogg") (str "Abba")] [] false 0 0 0 [] None.

Definition sample_db : SimpleDatabase := mkDatabase sample_tree None None 0.

Lemma sample_wf : wf [] sample_tree.
Proof.
  assert (Hf : ∀ n, bool_decide (n ≠ [] ∧ slash ∉ n ∧ 0%Z ∉ n) = true → file_name n).
  { intros n (?&?&?)%bool_decide_eq_true. done. }
  split; simpl; try done.
  - intros _. apply NoDup_singleton.
  - constructor; [apply Hf; by vm_compute|constructor].
  - constructor.
  - apply NoDup_singleton.
  - intros c ->%list_elem_of_singleton. exists (str "rock"). split_and!.
    + apply Hf. by vm_compute.
    + intros _. apply (bool_decide_unpack _). by vm_compute.
    + split; simpl; try done.
      * intros _. apply NoDup_singleton.
      * constructor; [apply Hf; by vm_compute|constructor].
      * constructor.
      * constructor.
      * by intros c ?%not_elem_of_nil.
Qed.



Lemma database_invariant_witness :
  ∃ d, rtc (db_step True) NewRoot d ∧ wf [] d ∧ length (children d) = 1.
Proof.
  exists (set_children [new_directory (str "rock") true] NewRoot).
  assert (Hr : rtc (db_step True) NewRoot (set_children [new_directory (str "rock") true] NewRoot)).
  { apply rtc_once. apply (step_edit NewRoot [] (EMakeChild (str "rock")) NewRoot); [reflexivity| |reflexivity].
    split; [split; [split; [discriminate|]|]|intros _]; apply (bool_decide_unpack _); vm_compute; exact I. }
  split; [exact Hr|]. split; [exact (proj1 (database_invariant _ Hr))|reflexivity].
Defined.

Lemma save_keeps_songs_witness :
  all_songs (root (Save_prepare sample_db)) ≡ₚ all_songs sample_tree.
Proof. exact (proj2 (proj2 (save_keeps_songs sample_db sample_wf))). Defined.

End DatabaseProps.

(** * Runs of the song database that show its flaws

    Each run is evaluated; the text says what is wrong with it. *)

Module DatabaseFindings.
Import Tag Directory.

#[local] Existing Instance SongFilter.ascii_icu.

Definition song (n : string) : Song := mkDbSong (str n) Tag.empty 1000 0 0.

(** A database with the song [x.ogg], mounted at [mnt] of another one. *)
Definition inner : SimpleDatabase :=
  mkDatabase (AddSong (song "x.ogg") NewRoot) None None 0.

Definition outer : SimpleDatabase :=
  match Mount (str "mnt") inner new_database with Ret db => db | _ => new_database end.

Definition songs_found (u : string) (f : option SongFilter.SongFilter) : option (list (list Z) * bool) :=
  sel ← new_selection (str u) true f;
  w ← Visit outer sel (mkVisitors false true false);
  Some (SongFilter.GetURI <$> visited_songs (visits w), bool_decide (thrown w = None)).

(** The mounted song is found by a query without filter. *)
Theorem mounted_song_visible : songs_found "" None = Some ([str "mnt/x.ogg"], true).
Proof. vm_compute. reflexivity. Qed.

(** [Save] prunes the mount point: a mounted directory has no entries of its own, and
    [PruneEmpty] takes it for an empty one.  The mounted database is lost. *)
Theorem save_drops_mount : IsEmpty (root (Save_prepare outer)) = true.
Proof. vm_compute. reflexivity. Qed.

(** The filter is applied to the URIs the songs have in the mounted database: the song
    [mnt/x.ogg] does not match its own URI. *)
Theorem mounted_song_not_found :
  songs_found "" (Some [SongFilter.string_item 30 (str "mnt/x.ogg") false]) = Some ([], true).
Proof. vm_compute. reflexivity. Qed.

(** A query below a mount point finds nothing, although the mounted database has a song. *)
Theorem query_in_mount_fails :
  songs_found "mnt/x.ogg" None = Some ([], false).
Proof. vm_compute. reflexivity. Qed.

(** A song that was fetched through a mount point is never returned to the mounted database:
    the second request fails its assertion on the number of lent songs. *)
Theorem mounted_song_not_returned :
  match GetSong (str "mnt/x.ogg") outer with
  | Ret (r, db) =>
      match ReturnSong r db with
      | Some db => GetSong (str "mnt/x.ogg") db = Abort
      | None => False
      end
  | _ => False
  end.
Proof. vm_compute. reflexivity. Qed.

(** The URI of a mount point itself is passed on as a null pointer. *)
Theorem get_mount_point_aborts : GetSong (str "mnt") outer = Abort.
Proof. vm_compute. reflexivity. Qed.

(** The difference of two track numbers is cut down to an [int]: a number that is 2^31 behind
    another one sorts in front of it. *)
Theorem track_order_wraps :
  compare_number_string (Some (str "2147483649")) (Some (str "1")) = (-2147483648)%Z.
Proof. vm_compute. reflexivity. Qed.

(** A filter that begins with a time stamp has an unset [fold_case]. *)
Theorem has_fold_case_unset :
  ∃ f, SongFilter.Parse_args [str "modified-since"; str "1000"] false [] = Some (true, f) ∧
    SongFilter.HasFoldCase f = None.
Proof. eexists. split; vm_compute; reflexivity. Qed.

End DatabaseFindings.
