(* ===== verification/Pcm.v ===== *)
(** * Dithering, volume and mixing

    [pcm/PcmDither.cxx], [pcm/Volume.cxx] and [pcm/PcmMix.cxx].

    A [ConstBuffer] is the list of its elements; an [option] is [None] for a failed
    assertion or undefined behaviour.
    The memory of a [PcmBuffer] that a function returns without having written it has
    unknown contents, given by the class [Memory]. *)

From Stdlib Require Import ZArith Lia ZifyBool.
From Stdlib Require Import SpecFloat.
From stdpp Require Import base numbers sets strings list list_numbers.
From S2P Require Import Prelude AudioFormat Prog Samples.

Set Default Goal Selector "!".
Local Open Scope Z_scope.

Module Pcm.
Import AudioFormat Samples.

(** The byte at each offset of a buffer that has not been written. *)
Class Memory := { garbage : nat → Z }.

Definition unwritten `{!Memory} (start count : nat) : list Z := garbage <$> seq start count.

(** A loop over an array that threads a state. *)
Fixpoint map_state {S A B} (f : S → A → option (B * S)) (s : S) (l : list A)
    : option (list B * S) :=
  match l with
  | [] => Some ([], s)
  | a :: l =>
      '(b, s) ← f s a;
      '(bs, s) ← map_state f s l;
      Some (b :: bs, s)
  end.

(** ** [PcmDither] *)

Record PcmDither := mkDither {
  error0 : Z;
  error1 : Z;
  error2 : Z;
  random : Z;
}.

Definition make_dither : PcmDither := mkDither 0 0 0 0.

(** [Dither<T, MIN, MAX, scale_bits>], where [T] has [w] bits. *)
Definition Dither (w min max scale_bits : Z) (d : PcmDither) (sample : Z)
    : option (Z * PcmDither) :=
  let round := Z.shiftl 1 (scale_bits - 1) in
  let mask := Z.shiftl 1 scale_bits - 1 in
  e ← int 32 (error0 d - error1 d);
  e ← int 32 (e + error2 d);
  sample ← int w (sample + e);
  let e2 := error1 d in
  let e1 := Z.quot (error0 d) 2 in
  output ← int w (sample + round);
  let rnd := to_signed w (pcm_prng (random d)) in
  noise ← int w (Z.land rnd mask - Z.land (random d) mask);
  output ← int w (output + noise);
  let '(output, sample) :=
    if output >? max then (max, if sample >? max then max else sample)
    else if output <? min then (min, if sample <? min then min else sample)
    else (output, sample) in
  let output := Z.land output (Z.lnot mask) in
  e0 ← int w (sample - output);
  Some (Z.shiftr output scale_bits,
        mkDither (to_signed 32 e0) e1 e2 (to_signed 32 rnd)).

(** [DitherShift<ST, SBITS, DBITS>] *)
Definition DitherShift (w sbits dbits : Z) : PcmDither → Z → option (Z * PcmDither) :=
  Dither w (- Z.shiftl 1 (sbits - 1)) (Z.shiftl 1 (sbits - 1) - 1) (sbits - dbits).

(** [DitherConvert<ST, DT>] on one sample and on an array. *)
Definition DitherConvert_sample (ST DT : SampleTraits) (d : PcmDither) (x : Z)
    : option (Z * PcmDither) :=
  '(y, d) ← Dither (sum_bits ST) (MIN ST) (MAX ST) (BITS ST - BITS DT) d x;
  Some (to_signed (value_bits DT) y, d).

Definition DitherConvert (ST DT : SampleTraits) : PcmDither → list Z → option (list Z * PcmDither) :=
  map_state (DitherConvert_sample ST DT).

Definition Dither24To16 := DitherConvert traits_S24_P32 traits_S16.
Definition Dither32To16 := DitherConvert traits_S32 traits_S16.

(** ** Volume *)

Definition PCM_VOLUME_BITS : Z := 10.
Definition PCM_VOLUME_1 : Z := 1024.

Definition pcm_volume_sample (T : SampleTraits) (volume : Z) (d : PcmDither) (x : Z)
    : option (Z * PcmDither) :=
  p ← int (long_bits T) (x * volume);
  '(y, d) ← DitherShift (long_bits T) (BITS T + PCM_VOLUME_BITS) (BITS T) d p;
  Some (to_signed (value_bits T) y, d).

Definition pcm_volume_change (T : SampleTraits) (volume : Z)
    : PcmDither → list Z → option (list Z * PcmDither) :=
  map_state (pcm_volume_sample T volume).

Definition pcm_volume_to_float (volume : Z) : float32 :=
  fdiv (float_of_Z volume) (float_of_Z PCM_VOLUME_1).

Definition pcm_volume_change_float (volume : float32) (src : list float32) : list float32 :=
  (λ x, fmul x volume) <$> src.

(** [class PcmVolume] *)
Record PcmVolume := mkVolume {
  v_format : SampleFormat;
  volume : Z;
  v_dither : PcmDither;
}.

Definition make_volume : PcmVolume := mkVolume UNDEFINED PCM_VOLUME_1 make_dither.

Definition SetVolume (x : Z) (v : PcmVolume) : PcmVolume := mkVolume (v_format v) x (v_dither v).

Definition Volume_Open (f : SampleFormat) : prog PcmVolume unit :=
  (v <- get ;;
   assert_ (is_undefined (v_format v)) ;;
   if is_undefined f then
     throw (RuntimeError (str "Software volume for " ++ sample_format_to_string f
                          ++ str " is not implemented"))
   else modify (λ v, mkVolume f (volume v) (v_dither v)))%prog.

Definition Volume_Close (v : PcmVolume) : option PcmVolume :=
  assert! negb (is_undefined (v_format v)) ;;
  Some (mkVolume UNDEFINED (volume v) (v_dither v)).

Section Apply.
Context `{!Host, !Memory}.

(** The [int] argument of [pcm_volume_change] is the [unsigned] volume. *)
Definition Apply_typed (T : SampleTraits) (v : PcmVolume) (src : list Z)
    : option (list Z * PcmVolume) :=
  let size := (length src / SAMPLE_SIZE T * SAMPLE_SIZE T)%nat in
  samples ← FromVoid (SAMPLE_SIZE T) (take size src);
  '(dest, d) ← pcm_volume_change T (to_signed 32 (volume v)) (v_dither v) samples;
  Some (ToVoid (SAMPLE_SIZE T) dest ++ unwritten size (length src - size),
        mkVolume (v_format v) (volume v) d).

Definition Apply (v : PcmVolume) (src : list Z) : option (list Z * PcmVolume) :=
  if volume v =? PCM_VOLUME_1 then Some (src, v)
  else if volume v =? 0 then Some (PcmSilence (length src) (v_format v), v)
  else match v_format v with
       | UNDEFINED => None
       | S8 => Apply_typed traits_S8 v src
       | S16 => Apply_typed traits_S16 v src
       | S24_P32 => Apply_typed traits_S24_P32 v src
       | S32 => Apply_typed traits_S32 v src
       | FLOAT =>
           let size := (length src / 4 * 4)%nat in
           samples ← FloatFromVoid (take size src);
           Some (FloatToVoid (pcm_volume_change_float (pcm_volume_to_float (to_signed 32 (volume v)))
                                samples) ++ unwritten size (length src - size), v)
       | DSD => Some (src, v)
       end.

End Apply.

(** ** Mixing *)

(** [PcmAddVolume] on one sample and on an array; [b] has at least the length of [a]. *)
Definition PcmAddVolume_sample (T : SampleTraits) (volume1 volume2 : Z) (d : PcmDither)
    (ab : Z * Z) : option (Z * PcmDither) :=
  let '(a, b) := ab in
  a ← int (long_bits T) (a * volume1);
  b ← int (long_bits T) (b * volume2);
  c ← int (long_bits T) (a + b);
  '(y, d) ← DitherShift (long_bits T) (BITS T + PCM_VOLUME_BITS) (BITS T) d c;
  Some (to_signed (value_bits T) y, d).

Definition PcmAddVolume (T : SampleTraits) (volume1 volume2 : Z) (d : PcmDither)
    (a b : list Z) : option (list Z * PcmDither) :=
  map_state (PcmAddVolume_sample T volume1 volume2) d (zip a b).

(** [PcmAdd]: the sum has [sum_type], the argument of [PcmClamp] [long_type]. *)
Definition PcmAdd_sample (T : SampleTraits) (a b : Z) : option Z :=
  c ← int (sum_bits T) (a + b);
  Some (PcmClamp T c).

Definition PcmAdd (T : SampleTraits) (a b : list Z) : option (list Z) :=
  mapM (λ ab, PcmAdd_sample T ab.1 ab.2) (zip a b).

Definition pcm_add_vol_float (volume1 volume2 : float32) (a b : list float32) : list float32 :=
  zip_with (λ x y, fadd (fmul x volume1) (fmul y volume2)) a b.

Definition pcm_add_float (a b : list float32) : list float32 := zip_with fadd a b.

Section Mix.
Context `{!Host}.

(** The functions below overwrite [buffer1]; [buffer2] has the same size. *)
Definition PcmAddVolumeVoid (T : SampleTraits) (volume1 volume2 : Z) (d : PcmDither)
    (buffer1 buffer2 : list Z) : option (list Z * PcmDither) :=
  a ← FromVoid (SAMPLE_SIZE T) buffer1;
  b ← FromVoid (SAMPLE_SIZE T) buffer2;
  '(c, d) ← PcmAddVolume T volume1 volume2 d a b;
  Some (ToVoid (SAMPLE_SIZE T) c, d).

Definition PcmAddVoid (T : SampleTraits) (buffer1 buffer2 : list Z) : option (list Z) :=
  a ← FromVoid (SAMPLE_SIZE T) buffer1;
  b ← FromVoid (SAMPLE_SIZE T) buffer2;
  c ← PcmAdd T a b;
  Some (ToVoid (SAMPLE_SIZE T) c).

(** The result is the new [buffer1] and dither, or [None] for the return value [false]. *)
Definition pcm_add_vol (d : PcmDither) (buffer1 buffer2 : list Z) (vol1 vol2 : Z)
    (f : SampleFormat) : option (option (list Z * PcmDither)) :=
  match f with
  | UNDEFINED | DSD => Some None
  | S8 => Some <$> PcmAddVolumeVoid traits_S8 vol1 vol2 d buffer1 buffer2
  | S16 => Some <$> PcmAddVolumeVoid traits_S16 vol1 vol2 d buffer1 buffer2
  | S24_P32 => Some <$> PcmAddVolumeVoid traits_S24_P32 vol1 vol2 d buffer1 buffer2
  | S32 => Some <$> PcmAddVolumeVoid traits_S32 vol1 vol2 d buffer1 buffer2
  | FLOAT =>
      a ← FloatFromVoid (take (length buffer1 / 4 * 4) buffer1);
      b ← FloatFromVoid (take (length buffer2 / 4 * 4) buffer2);
      Some (Some (FloatToVoid (pcm_add_vol_float (pcm_volume_to_float vol1)
                    (pcm_volume_to_float vol2) a b)
                  ++ drop (length buffer1 / 4 * 4) buffer1, d))
  end.

Definition pcm_add (buffer1 buffer2 : list Z) (f : SampleFormat)
    : option (option (list Z)) :=
  match f with
  | UNDEFINED | DSD => Some None
  | S8 => Some <$> PcmAddVoid traits_S8 buffer1 buffer2
  | S16 => Some <$> PcmAddVoid traits_S16 buffer1 buffer2
  | S24_P32 => Some <$> PcmAddVoid traits_S24_P32 buffer1 buffer2
  | S32 => Some <$> PcmAddVoid traits_S32 buffer1 buffer2
  | FLOAT =>
      a ← FloatFromVoid (take (length buffer1 / 4 * 4) buffer1);
      b ← FloatFromVoid (take (length buffer2 / 4 * 4) buffer2);
      Some (Some (FloatToVoid (pcm_add_float a b) ++ drop (length buffer1 / 4 * 4) buffer1))
  end.

(** [Clamp] of [util/Clamp.hxx] *)
Definition Clamp (value min max : Z) : Z :=
  if value <? min then min else if value >? max then max else value.

Definition M_PI_2 : spec_float := S754_finite false 7074237752028440 (-52).

(** The volume of the first buffer; [sin] is the function of the C library. *)
Definition mix_volume (sin : spec_float → spec_float) (portion1 : float32) : option Z :=
  let s := to_float (sin (SFmul 53 1024 M_PI_2 (to_double portion1))) in
  let s := fmul s s in
  vol1 ← truncate 32 (SFadd 53 1024 (to_double (fmul s (float_of_Z PCM_VOLUME_1)))
                        (S754_finite false (2 ^ 52) (-53)));
  Some (Clamp vol1 0 PCM_VOLUME_1).

Definition pcm_mix (sin : spec_float → spec_float) (d : PcmDither) (buffer1 buffer2 : list Z)
    (f : SampleFormat) (portion1 : float32) : option (option (list Z * PcmDither)) :=
  if SFltb portion1 (S754_zero false) then
    r ← pcm_add buffer1 buffer2 f;
    Some (match r with Some b => Some (b, d) | None => None end)
  else
    vol1 ← mix_volume sin portion1;
    pcm_add_vol d buffer1 buffer2 vol1 (PCM_VOLUME_1 - vol1) f.

End Mix.
End Pcm.
