(* ===== verification/PcmFacts.v ===== *)
(** * Dithering is bounded and unbiased

    The arithmetic behind [Dither]: with the error terms of the filter in [dither_ok], no
    operation overflows, the result is a sample of the destination format, the error terms
    stay in range, and the terms of successive samples cancel. *)

From Stdlib Require Import ZArith Lia ZifyBool.
From stdpp Require Import base numbers sets strings list list_numbers.
From Stdlib Require Import SpecFloat.
From S2P Require Import Prelude AudioFormat Samples Pcm.

Set Default Goal Selector "!".

Module PcmFacts.
Local Open Scope Z_scope.
Import AudioFormat Samples Pcm.

(** ** Integers *)

Lemma int_Some w x : - 2 ^ (w - 1) ≤ x < 2 ^ (w - 1) → int w x = Some x.
Proof. intros H. unfold int, in_range. rewrite check_bind by lia. done. Qed.

Lemma to_signed_id w x : 0 < w → - 2 ^ (w - 1) ≤ x < 2 ^ (w - 1) → to_signed w x = x.
Proof.
  intros Hw H. unfold to_signed.
  assert (E : 2 ^ w = 2 * 2 ^ (w - 1)).
  { rewrite <-Z.pow_succ_r by lia. f_equal. lia. }
  rewrite Z.mod_small; lia.
Qed.

Lemma to_signed_range w x : 0 < w → - 2 ^ (w - 1) ≤ to_signed w x < 2 ^ (w - 1).
Proof.
  intros Hw. unfold to_signed.
  assert (E : 2 ^ w = 2 * 2 ^ (w - 1)).
  { rewrite <-Z.pow_succ_r by lia. f_equal. lia. }
  pose proof (Z.mod_pos_bound (x + 2 ^ (w - 1)) (2 ^ w)). lia.
Qed.

Lemma land_mask x k : 0 ≤ k → Z.land x (Z.shiftl 1 k - 1) = x mod 2 ^ k.
Proof.
  intros Hk. rewrite Z.shiftl_1_l. replace (2 ^ k - 1) with (Z.ones k).
  - by apply Z.land_ones.
  - rewrite Z.ones_equiv. lia.
Qed.

Lemma land_lnot_mask x k : 0 ≤ k →
  Z.land x (Z.lnot (Z.shiftl 1 k - 1)) = 2 ^ k * (x / 2 ^ k).
Proof.
  intros Hk. rewrite Z.shiftl_1_l. replace (2 ^ k - 1) with (Z.ones k).
  2:{ rewrite Z.ones_equiv. lia. }
  rewrite <-Z.ldiff_land, Z.ldiff_ones_r by done.
  rewrite Z.shiftl_mul_pow2, Z.shiftr_div_pow2 by done. lia.
Qed.

(** ** One sample *)

(** The error terms for a shift by [k] bits. *)
Record dither_ok (k : Z) (d : PcmDither) : Prop := {
  do_error0 : 2 * Z.abs (error0 d) < 3 * 2 ^ k;
  do_error1 : 4 * Z.abs (error1 d) < 3 * 2 ^ k;
  do_error2 : 4 * Z.abs (error2 d) < 3 * 2 ^ k;
}.

Lemma make_dither_ok k : 0 ≤ k → dither_ok k make_dither.
Proof. intros Hk. pose proof (Z.pow_pos_nonneg 2 k). split; simpl; lia. Qed.

(** The sample after the feedback of the error terms. *)
Definition shaped (d : PcmDither) (x : Z) : Z := x + (error0 d - error1 d + error2 d).

(** The quantisation step of [Dither] by itself. *)
Lemma quantise_ok M K s a b :
  1 < K → K mod 2 = 0 → 0 < M → 0 ≤ a < K → 0 ≤ b < K →
  let o := s + K / 2 + (a - b) in
  let '(o', s') :=
    if o >? M * K - 1 then (M * K - 1, if s >? M * K - 1 then M * K - 1 else s)
    else if o <? - (M * K) then (- (M * K), if s <? - (M * K) then - (M * K) else s)
    else (o, s) in
  let y := o' / K in
  - M ≤ y < M ∧ 2 * Z.abs (s' - K * y) < 3 * K ∧
  (- (M * K) ≤ s < M * K → s' = s).
Proof.
  intros HK Heven HM Ha Hb o.
  assert (HK2 : K / 2 * 2 = K) by (pose proof (Z.div_mod K 2); lia).
  assert (Hmax : (M * K - 1) / K = M - 1).
  { symmetry. apply (Z.div_unique_pos _ _ _ (K - 1)); lia. }
  assert (Hmin : (- (M * K)) / K = - M).
  { symmetry. apply (Z.div_unique_pos _ _ _ 0); lia. }
  destruct (Z.gtb_spec o (M * K - 1)) as [Ho|Ho].
  - cbv zeta iota. rewrite Hmax. destruct (Z.gtb_spec s (M * K - 1)); subst o; nia.
  - destruct (Z.ltb_spec o (- (M * K))) as [Ho'|Ho']; cbv zeta iota.
    + rewrite Hmin. destruct (Z.ltb_spec s (- (M * K))); subst o; nia.
    + pose proof (Z.div_mod o K). pose proof (Z.mod_pos_bound o K).
      assert (- M ≤ o / K) by (apply Z.div_le_lower_bound; nia).
      assert (o / K < M) by (apply Z.div_lt_upper_bound; nia).
      subst o. repeat split; lia.
Qed.

(** What one step of the filter does, for a destination format of [2 * M] values. *)
Record step_ok (k M x : Z) (d : PcmDither) (y : Z) (d' : PcmDither) : Prop := {
  st_dither : dither_ok k d';
  st_range : - M ≤ y < M;
  st_error1 : error1 d' = Z.quot (error0 d) 2;
  st_error2 : error2 d' = error1 d;
  st_value : - (M * 2 ^ k) ≤ shaped d x < M * 2 ^ k → 2 ^ k * y + error0 d' = shaped d x;
}.

Lemma Dither_ok w k M d x :
  32 ≤ w → 1 ≤ k ≤ 16 → 0 < M → M * 2 ^ k + 8 * 2 ^ k ≤ 2 ^ (w - 1) →
  dither_ok k d → Z.abs x ≤ 2 ^ (w - 1) - 8 * 2 ^ k →
  ∃ y d', Dither w (- (M * 2 ^ k)) (M * 2 ^ k - 1) k d x = Some (y, d') ∧
    step_ok k M x d y d'.
Proof.
  intros Hw Hk HM Hmax [He0 He1 He2] Hx.
  assert (HK : 1 < 2 ^ k) by (apply Z.pow_gt_1; lia).
  assert (Heven : 2 ^ k = 2 * 2 ^ (k - 1)).
  { rewrite <-Z.pow_succ_r by lia. f_equal. lia. }
  assert (HK16 : 2 ^ k ≤ 65536) by (apply (Z.pow_le_mono_r 2 k 16); lia).
  assert (Hw31 : 2 ^ 31 ≤ 2 ^ (w - 1)) by (apply Z.pow_le_mono_r; lia).
  change (2 ^ 31) with 2147483648 in Hw31.
  assert (H31 : 2 ^ (32 - 1) = 2147483648) by done.
  unfold Dither. rewrite !land_mask, (Z.shiftl_1_l (k - 1)) by lia.
  rewrite (int_Some 32) by (rewrite H31; lia). simpl.
  rewrite (int_Some 32) by (rewrite H31; lia). simpl.
  rewrite (int_Some w (x + _)) by lia. simpl. rewrite (int_Some w (_ + 2 ^ _)) by lia. simpl.
  set (a := to_signed w _ mod 2 ^ k). set (b := random d mod 2 ^ k).
  assert (Ha : 0 ≤ a < 2 ^ k) by (apply Z.mod_pos_bound; lia).
  assert (Hb : 0 ≤ b < 2 ^ k) by (apply Z.mod_pos_bound; lia).
  rewrite (int_Some w) by lia. simpl. rewrite (int_Some w) by lia. simpl.
  pose proof (quantise_ok M (2 ^ k) (shaped d x) a b HK) as HQ. cbv zeta in HQ.
  replace (2 ^ k / 2) with (2 ^ (k - 1)) in HQ by (rewrite Heven, Z.mul_comm, Z.div_mul; lia).
  unfold shaped in *. rewrite Z.add_assoc in *.
  destruct (if _ >? _ then _ else _) as [o s] eqn:E in HQ.
  rewrite E. destruct HQ as (Hy & He & Hv); [rewrite Heven, Z.mul_comm; apply Z.mod_mul; lia|done..|].
  rewrite land_lnot_mask, Z.shiftr_div_pow2, (Z.mul_comm (2 ^ k)), Z.div_mul by lia.
  rewrite (int_Some w) by lia. simpl. do 2 eexists. split; [done|].
  rewrite to_signed_id by (rewrite ?H31; lia).
  split; simpl; [split; simpl|..]; try lia.
  - rewrite <-Z.quot_abs, Z.quot_div_nonneg by lia. change (Z.abs 2) with 2.
    pose proof (Z.mul_div_le (Z.abs (error0 d)) 2). lia.
  - unfold shaped. intros Hs. specialize (Hv ltac:(lia)). lia.
Qed.

(** ** Arrays *)

Definition total (l : list Z) : Z := foldr Z.add 0 l.

Lemma total_cons x l : total (x :: l) = x + total l.
Proof. done. Qed.

(** What the filter still owes to the samples to come. *)
Definition carry (d : PcmDither) : Z := error0 d + error2 d.

(** A loop of steps on the samples [g a]: it runs through and its results are in range; when
    no sample is near the limits, the sum of the samples is kept up to the carry. *)
Lemma map_state_steps {A} (f : PcmDither → A → option (Z * PcmDither)) (g : A → Z)
    (P : A → Prop) k M d l :
  0 ≤ k → 0 < M →
  (∀ d a, dither_ok k d → P a → ∃ y d', f d a = Some (y, d') ∧ step_ok k M (g a) d y d') →
  dither_ok k d → Forall P l →
  ∃ ys d', map_state f d l = Some (ys, d') ∧ dither_ok k d' ∧ length ys = length l ∧
    Forall (λ y, - M ≤ y < M) ys ∧
    (Forall (λ a, Z.abs (g a) + 3 * 2 ^ k ≤ M * 2 ^ k) l →
     2 ^ k * total ys + carry d' = total (g <$> l) + carry d).
Proof.
  intros Hk HM Hf. revert d. induction l as [|a l IH]; intros d Hd Hl.
  { exists [], d. split_and!; [done..|]. intros _. simpl. lia. }
  apply Forall_cons_1 in Hl as [Ha Hl]. cbn [map_state].
  destruct (Hf d a Hd Ha) as (y & d1 & -> & [Hd1 Hy He1 He2 Hv]). simpl.
  destruct (IH d1 Hd1 Hl) as (ys & d2 & -> & Hd2 & Hlen & Hys & Hsum). simpl.
  exists (y :: ys), d2. split_and!; [done|done|simpl; lia|by constructor|].
  intros [Ha' Hl']%Forall_cons_1. specialize (Hsum Hl'). destruct Hd as [H0 H1 H2].
  unfold shaped in Hv. specialize (Hv ltac:(lia)). unfold carry in *.
  rewrite !total_cons. change (list_fmap A Z g l) with (g <$> l). lia.
Qed.

(** The integer formats. *)
Definition integer_traits : list SampleTraits :=
  [traits_S8; traits_S16; traits_S24_P32; traits_S32].

Lemma traits_cases f T : traits_of f = Some T →
  T ∈ integer_traits.
Proof. destruct f; simpl; intros ?; simplify_eq; unfold integer_traits; set_solver. Qed.

Ltac each_traits H :=
  unfold integer_traits in H; repeat (apply elem_of_cons in H as [->|H]); [..|by apply elem_of_nil in H].

(** The widths suffice for a product with a volume below [2 ^ 15]. *)
Lemma traits_widths T : T ∈ integer_traits →
  8 ≤ BITS T ∧ 32 ≤ long_bits T ∧ BITS T ≤ value_bits T ∧
  2 ^ (BITS T - 1) * 2 ^ 15 + 2 ^ 15 ≤ 2 ^ (long_bits T - 1).
Proof. intros HT. each_traits HT; cbv; repeat split; congruence. Qed.

(** [DitherShift] from a product with a volume, which has ten more bits. *)
Lemma DitherShift_ok T d x :
  T ∈ integer_traits →
  dither_ok 10 d → Z.abs x ≤ 2 ^ (BITS T - 1) * 2 ^ 15 →
  ∃ y d', DitherShift (long_bits T) (BITS T + PCM_VOLUME_BITS) (BITS T) d x = Some (y, d') ∧
    step_ok 10 (2 ^ (BITS T - 1)) x d y d'.
Proof.
  intros (Hb & Hw & _ & Hm)%traits_widths Hd Hx. unfold DitherShift, PCM_VOLUME_BITS.
  replace (BITS T + 10 - BITS T) with 10 by lia.
  rewrite Z.shiftl_1_l. replace (BITS T + 10 - 1) with (BITS T - 1 + 10) by lia.
  rewrite Z.pow_add_r by lia.
  assert (HM : 0 < 2 ^ (BITS T - 1)) by (apply Z.pow_pos_nonneg; lia).
  change (2 ^ 15) with 32768 in *. apply Dither_ok; try done; change (2 ^ 10) with 1024; lia.
Qed.

Lemma sample_cast T y :
  T ∈ integer_traits →
  - 2 ^ (BITS T - 1) ≤ y < 2 ^ (BITS T - 1) → to_signed (value_bits T) y = y ∧ is_sample T y.
Proof.
  intros (Hb & _ & Hv & _)%traits_widths Hy.
  pose proof (Z.pow_le_mono_r 2 (BITS T - 1) (value_bits T - 1)).
  split; [apply to_signed_id; lia|]. unfold is_sample, MIN, MAX. rewrite Z.shiftl_1_l. lia.
Qed.

Lemma sample_abs T x : T ∈ integer_traits →
  is_sample T x → Z.abs x ≤ 2 ^ (BITS T - 1).
Proof. intros _. unfold is_sample, MIN, MAX. rewrite Z.shiftl_1_l. lia. Qed.

(** A step whose result is cast to the sample type. *)
Lemma cast_step T k x d y d' :
  T ∈ integer_traits →
  step_ok k (2 ^ (BITS T - 1)) x d y d' →
  step_ok k (2 ^ (BITS T - 1)) x d (to_signed (value_bits T) y) d'.
Proof. intros HT Hs. by rewrite (proj1 (sample_cast T y HT (st_range _ _ _ _ _ _ Hs))). Qed.

(** ** The operations *)

Lemma volume_step T v d x :
  T ∈ integer_traits →
  0 ≤ v ≤ 2 ^ 14 → dither_ok 10 d → is_sample T x →
  ∃ y d', pcm_volume_sample T v d x = Some (y, d') ∧
    step_ok 10 (2 ^ (BITS T - 1)) (x * v) d y d'.
Proof.
  intros HT Hv Hd Hx%sample_abs; [|done].
  pose proof (traits_widths T HT) as (_ & _ & _ & Hm). change (2 ^ 14) with 16384 in Hv.
  change (2 ^ 15) with 32768 in Hm.
  assert (Hp : Z.abs (x * v) ≤ 2 ^ (BITS T - 1) * 2 ^ 14).
  { rewrite Z.abs_mul. change (2 ^ 14) with 16384. nia. }
  change (2 ^ 14) with 16384 in Hp. unfold pcm_volume_sample. rewrite int_Some by lia. simpl.
  destruct (DitherShift_ok T d (x * v) HT Hd) as (y & d' & -> & Hs).
  { change (2 ^ 15) with 32768. lia. }
  simpl. eexists _, _. split; [done|]. by apply cast_step.
Qed.

Lemma mix_step T v1 v2 d a b :
  T ∈ integer_traits →
  0 ≤ v1 → 0 ≤ v2 → v1 + v2 ≤ 2 ^ 14 → dither_ok 10 d → is_sample T a → is_sample T b →
  ∃ y d', PcmAddVolume_sample T v1 v2 d (a, b) = Some (y, d') ∧
    step_ok 10 (2 ^ (BITS T - 1)) (a * v1 + b * v2) d y d'.
Proof.
  intros HT Hv1 Hv2 Hv Hd Ha%sample_abs Hb%sample_abs; [|done..].
  pose proof (traits_widths T HT) as (_ & _ & _ & Hm). change (2 ^ 14) with 16384 in Hv.
  change (2 ^ 15) with 32768 in Hm.
  assert (Ha' : Z.abs (a * v1) ≤ 2 ^ (BITS T - 1) * v1) by (rewrite Z.abs_mul; nia).
  assert (Hb' : Z.abs (b * v2) ≤ 2 ^ (BITS T - 1) * v2) by (rewrite Z.abs_mul; nia).
  assert (Hab : 2 ^ (BITS T - 1) * v1 + 2 ^ (BITS T - 1) * v2 ≤ 2 ^ (BITS T - 1) * 16384) by nia.
  assert (0 ≤ 2 ^ (BITS T - 1) * v1 ∧ 0 ≤ 2 ^ (BITS T - 1) * v2) by lia.
  unfold PcmAddVolume_sample. rewrite int_Some by lia. simpl.
  rewrite int_Some by lia. simpl. rewrite int_Some by lia. simpl.
  destruct (DitherShift_ok T d (a * v1 + b * v2) HT Hd) as (y & d' & -> & Hs).
  { change (2 ^ 15) with 32768. lia. }
  simpl. eexists _, _. split; [done|]. by apply cast_step.
Qed.

Lemma convert_widths ST : ST ∈ [traits_S24_P32; traits_S32] →
  MIN ST = - (2 ^ 15 * 2 ^ (BITS ST - 16)) ∧ MAX ST = 2 ^ 15 * 2 ^ (BITS ST - 16) - 1 ∧
  32 ≤ sum_bits ST ∧ 1 ≤ BITS ST - 16 ≤ 16 ∧
  2 * (2 ^ 15 * 2 ^ (BITS ST - 16)) + 8 * 2 ^ (BITS ST - 16) ≤ 2 ^ (sum_bits ST - 1).
Proof. intros HT. each_traits HT; cbv; repeat split; congruence. Qed.

Lemma convert_step ST d x :
  ST ∈ [traits_S24_P32; traits_S32] → dither_ok (BITS ST - 16) d → is_sample ST x →
  ∃ y d', DitherConvert_sample ST traits_S16 d x = Some (y, d') ∧
    step_ok (BITS ST - 16) (2 ^ 15) x d y d'.
Proof.
  intros HT Hd Hx. pose proof (convert_widths ST HT) as (Hmin & Hmax & Hw & Hk & Hm).
  unfold is_sample in Hx. rewrite Hmin, Hmax in Hx.
  destruct (Dither_ok (sum_bits ST) (BITS ST - 16) (2 ^ 15) d x) as (y & d' & E & Hs);
    [lia|done|done|lia|done|lia|].
  rewrite <-Hmin, <-Hmax in E.
  unfold DitherConvert_sample. change (BITS traits_S16) with 16. rewrite E. simpl.
  eexists _, _. split; [done|]. apply (cast_step traits_S16); [by right; left|done].
Qed.

End PcmFacts.

(** * Buffers of bytes and of samples

    Reading back what was written, and cutting a buffer into blocks. *)


Module BufferFacts.
Local Open Scope Z_scope.
Import AudioFormat Samples PcmFacts.

Definition is_byte (b : Z) : Prop := 0 ≤ b < 2 ^ 8.

(** ** Blocks *)

Section Blocks.
Context {A : Type}.
Local Open Scope nat_scope.

Lemma blocks_concat size (l : list (list A)) fuel :
  0 < size → Forall (λ b, length b = size) l → length l ≤ fuel →
  blocks fuel size (concat l) = l.
Proof.
  intros Hs Hl. revert fuel. induction Hl as [|b l Hb Hl IH]; intros fuel Hf.
  { by destruct fuel. }
  destruct fuel as [|fuel]; simpl in *; [lia|].
  destruct (b ++ concat l) as [|x r] eqn:E.
  { apply (f_equal length) in E. rewrite length_app in E. simpl in E. lia. }
  rewrite <-E, take_app_length' by done. rewrite drop_app_length' by done.
  rewrite IH by lia. done.
Qed.

Lemma length_concat_blocks size (l : list (list A)) :
  Forall (λ b, length b = size) l → length (concat l) = length l * size.
Proof. induction 1; simpl; [done|]. rewrite length_app. lia. Qed.

Lemma split_blocks_concat size (l : list (list A)) :
  0 < size → Forall (λ b, length b = size) l → split_blocks size (concat l) = l.
Proof.
  intros Hs Hl. apply blocks_concat; [done..|]. rewrite length_concat_blocks with size l; [|done].
  nia.
Qed.

(** Every list whose length is a multiple of [size] is cut into full blocks. *)
Lemma blocks_exist size (l : list A) :
  0 < size → length l mod size = 0 →
  ∃ bs, l = concat bs ∧ Forall (λ b, length b = size) bs ∧ length bs = length l / size.
Proof.
  intros Hs. remember (length l / size) as n eqn:Hn. revert l Hn.
  induction n as [|n IH]; intros l Hn Hm.
  - exists []. apply Nat.Div0.mod_divides in Hm as [c Hc]. rewrite Hc in Hn.
    rewrite Nat.mul_comm, Nat.div_mul in Hn by lia. subst c.
    rewrite Nat.mul_0_r in Hc. by apply nil_length_inv in Hc as ->.
  - assert (Hlen : length l = size * S n).
    { apply Nat.Div0.div_exact in Hm. by rewrite Hm, <-Hn. }
    destruct (IH (drop size l)) as (bs & Hd & Hbs & Hl).
    + rewrite length_drop, Hlen. replace (size * S n - size) with (n * size) by lia.
      by rewrite Nat.div_mul by lia.
    + rewrite length_drop, Hlen. replace (size * S n - size) with (n * size) by lia.
      apply Nat.Div0.mod_mul.
    + exists (take size l :: bs). simpl. rewrite <-Hd, take_drop. split_and!; [done| |lia].
      constructor; [|done]. rewrite length_take. nia.
Qed.

Lemma split_blocks_spec size (l : list A) :
  0 < size → length l mod size = 0 →
  concat (split_blocks size l) = l ∧ Forall (λ b, length b = size) (split_blocks size l) ∧
  length (split_blocks size l) = length l / size.
Proof.
  intros Hs Hm. destruct (blocks_exist size l Hs Hm) as (bs & Hl & Hbs & Hn).
  assert (E : split_blocks size l = bs) by (by rewrite Hl; apply split_blocks_concat).
  rewrite E. by split_and!.
Qed.

(** The [j]th element of the [i]th block. *)
Lemma lookup_concat size (bs : list (list A)) i j b :
  Forall (λ b, length b = size) bs → bs !! i = Some b → j < size →
  concat bs !! (i * size + j) = b !! j.
Proof.
  intros Hbs. revert i. induction Hbs as [|c bs Hc Hbs IH]; intros i Hi Hj; [done|].
  destruct i as [|i]; simpl in *.
  - simplify_eq. by apply lookup_app_l.
  - rewrite lookup_app_r by lia. rewrite <-(IH i) by done. f_equal. lia.
Qed.

End Blocks.

(** ** Integers in memory *)

Section Bytes.
Context `{!Host}.

Lemma host_order_involutive l : host_order (host_order l) = l.
Proof. unfold host_order. destruct IsBigEndian; [apply reverse_involutive|done]. Qed.

Lemma length_host_order l : length (host_order l) = length l.
Proof. unfold host_order. destruct IsBigEndian; [apply length_reverse|done]. Qed.

Lemma host_order_bytes l : Forall is_byte l → Forall is_byte (host_order l).
Proof. unfold host_order. destruct IsBigEndian; [|done]. by rewrite Forall_reverse. Qed.

Lemma length_store size x : length (store_int size x) = size.
Proof.
  unfold store_int. rewrite length_host_order.
  pose proof (length_Z_to_little_endian (Z.of_nat size) 8 x). lia.
Qed.

Lemma store_bytes size x : Forall is_byte (store_int size x).
Proof. apply host_order_bytes. apply Z_to_little_endian_bound; lia. Qed.

Lemma load_store size x : load_unsigned (store_int size x) = x mod 2 ^ (8 * Z.of_nat size).
Proof.
  unfold load_unsigned, store_int. rewrite host_order_involutive.
  rewrite little_endian_to_Z_to_little_endian by lia. f_equal. f_equal. lia.
Qed.

Lemma to_signed_mod w x : 0 < w → to_signed w (x mod 2 ^ w) = to_signed w x.
Proof. intros Hw. unfold to_signed. by rewrite Z.add_mod_idemp_l by lia. Qed.

Lemma load_signed_store size x : (0 < size)%nat →
  load_signed (store_int size x) = to_signed (8 * Z.of_nat size) x.
Proof.
  intros Hs. unfold load_signed. rewrite length_store, load_store. apply to_signed_mod. lia.
Qed.

Lemma store_load b : Forall is_byte b → store_int (length b) (load_unsigned b) = b.
Proof.
  intros Hb. unfold store_int, load_unsigned.
  rewrite Z_to_little_endian_to_Z.
  - apply host_order_involutive.
  - by rewrite length_host_order.
  - lia.
  - by apply host_order_bytes.
Qed.

Lemma store_to_signed size x :
  store_int size (to_signed (8 * Z.of_nat size) x) = store_int size x.
Proof.
  unfold store_int. f_equal. apply list_eq. intros i. apply option_eq. intros y.
  rewrite !Z_to_little_endian_lookup_Some by lia.
  assert (E : ∀ j, 0 ≤ j < 8 * Z.of_nat size →
    Z.testbit (to_signed (8 * Z.of_nat size) x) j = Z.testbit x j).
  { intros j Hj. rewrite <-(Z.mod_pow2_bits_low _ (8 * Z.of_nat size)) by lia.
    rewrite <-(Z.mod_pow2_bits_low x (8 * Z.of_nat size)) by lia. f_equal.
    unfold to_signed. rewrite Zminus_mod_idemp_l. f_equal. lia. }
  assert (E' : Z.of_nat i < Z.of_nat size →
    Z.land (to_signed (8 * Z.of_nat size) x ≫ (Z.of_nat i * 8)) (Z.ones 8) =
    Z.land (x ≫ (Z.of_nat i * 8)) (Z.ones 8)).
  { intros Hi. apply Z.bits_inj'. intros j Hj. rewrite !Z.land_spec, !Z.shiftr_spec by done.
    destruct (decide (j < 8)).
    - by rewrite E by lia.
    - by rewrite Z.ones_spec_high, !andb_false_r by lia. }
  split; intros [Hi ->]; (split; [done|]); [|symmetry]; by apply E'.
Qed.

Lemma store_load_signed b : Forall is_byte b → store_int (length b) (load_signed b) = b.
Proof. intros Hb. unfold load_signed. rewrite store_to_signed. by apply store_load. Qed.

Lemma load_signed_range b : (0 < length b)%nat →
  - 2 ^ (8 * Z.of_nat (length b) - 1) ≤ load_signed b < 2 ^ (8 * Z.of_nat (length b) - 1).
Proof. intros Hb. apply to_signed_range. lia. Qed.

(** ** Buffers *)

Lemma ToVoid_concat size l : ToVoid size l = concat (store_int size <$> l).
Proof. unfold ToVoid. induction l; [done|]. simpl. by f_equal. Qed.

Lemma store_lengths size l : Forall (λ b, length b = size) (store_int size <$> l).
Proof. apply Forall_fmap, Forall_true. intros x. apply length_store. Qed.

Lemma length_ToVoid size l : length (ToVoid size l) = (length l * size)%nat.
Proof.
  rewrite ToVoid_concat, (length_concat_blocks size) by apply store_lengths.
  by rewrite length_fmap.
Qed.

Lemma ToVoid_bytes size l : Forall is_byte (ToVoid size l).
Proof.
  rewrite ToVoid_concat. apply Forall_concat, Forall_fmap, Forall_true. intros x.
  apply store_bytes.
Qed.

(** Samples survive the way through memory. *)
Lemma FromVoid_ToVoid size l :
  (0 < size)%nat →
  Forall (λ x, - 2 ^ (8 * Z.of_nat size - 1) ≤ x < 2 ^ (8 * Z.of_nat size - 1)) l →
  FromVoid size (ToVoid size l) = Some l.
Proof.
  intros Hs Hl. unfold FromVoid. rewrite length_ToVoid, Nat.Div0.mod_mul. simpl.
  rewrite ToVoid_concat, split_blocks_concat by (done || apply store_lengths).
  f_equal. rewrite <-list_fmap_compose. rewrite <-(list_fmap_id l) at 2.
  apply list_fmap_ext. intros i x Hx. simpl. rewrite load_signed_store by done.
  rewrite Forall_lookup in Hl. apply to_signed_id; [lia|]. by apply (Hl i).
Qed.

Lemma FromVoid_Some size data :
  (0 < size)%nat → (length data mod size = 0)%nat →
  ∃ l, FromVoid size data = Some l ∧ (length data = length l * size)%nat ∧
    Forall (λ x, - 2 ^ (8 * Z.of_nat size - 1) ≤ x < 2 ^ (8 * Z.of_nat size - 1)) l.
Proof.
  intros Hs Hm. unfold FromVoid. rewrite Hm. simpl. eexists. split; [done|].
  destruct (split_blocks_spec size data Hs Hm) as (E & Hb & Hn). split.
  - rewrite length_fmap, <-(length_concat_blocks size) by done. by rewrite E.
  - apply Forall_fmap. eapply Forall_impl; [exact Hb|]. cbv beta. intros b Hlen. simpl.
    rewrite <-Hlen. apply load_signed_range. lia.
Qed.

Lemma ToVoid_FromVoid size data l :
  (0 < size)%nat → Forall is_byte data → FromVoid size data = Some l → ToVoid size l = data.
Proof.
  intros Hs Hd. unfold FromVoid.
  destruct (decide (length data mod size = 0)%nat) as [Hm|Hm].
  2:{ unfold check. by rewrite (proj2 (Nat.eqb_neq _ _) Hm). }
  rewrite Hm. simpl. intros ?; simplify_eq.
  destruct (split_blocks_spec size data Hs Hm) as (E & Hb & _).
  rewrite ToVoid_concat, <-list_fmap_compose. rewrite <-E in Hd. apply Forall_concat in Hd.
  rewrite <-E at 2. f_equal. rewrite <-(list_fmap_id (split_blocks size data)) at 2.
  apply list_fmap_ext. intros i b Hi. simpl. rewrite Forall_lookup in Hb, Hd.
  rewrite <-(Hb i b Hi). apply store_load_signed. by apply (Hd i).
Qed.

End Bytes.

End BufferFacts.

(** * Floating point samples

    Integers of up to 24 bits, scaled by a power of two, are represented exactly: the
    conversions from 8, 16 and 24 bit samples to [float] and back lose nothing. *)


Module FloatFacts.
Local Open Scope Z_scope.
Import AudioFormat Samples PcmFacts BufferFacts.

(** ** Digits *)

Lemma digits_log2 m : Z.pos (digits2_pos m) = Z.log2 (Z.pos m) + 1.
Proof.
  induction m as [m IH|m IH|]; [..|done]; simpl digits2_pos; rewrite Pos2Z.inj_succ, IH.
  - rewrite (Pos2Z.inj_xI m), Z.log2_succ_double by lia. lia.
  - rewrite (Pos2Z.inj_xO m), Z.log2_double by lia. lia.
Qed.

Lemma digits_range m k : 2 ^ k ≤ Z.pos m < 2 ^ (k + 1) → 0 ≤ k → Z.pos (digits2_pos m) = k + 1.
Proof. intros Hm Hk. rewrite digits_log2, (Z.log2_unique _ k) by lia. done. Qed.

Lemma iter_xO m p : Z.pos (Pos.iter xO m p) = Z.pos m * 2 ^ Z.pos p.
Proof.
  induction p as [|p IH] using Pos.peano_ind; [simpl; lia|].
  rewrite Pos.iter_succ, (Pos2Z.inj_xO (Pos.iter _ _ _)), IH, Pos2Z.inj_succ, Z.pow_succ_r by lia. lia.
Qed.

(** A number in normal form, far from overflow and underflow. *)
Definition normal (m : positive) (e : Z) : Prop := 2 ^ 23 ≤ Z.pos m < 2 ^ 24 ∧ -100 ≤ e ≤ 100.

Lemma normal_digits m e : normal m e → Z.pos (digits2_pos m) = 24.
Proof. intros [Hm _]. by apply (digits_range m 23). Qed.

Lemma fexp_normal e : -100 ≤ e → fexp 24 128 (24 + e) = e.
Proof. intros He. unfold fexp, emin. lia. Qed.

(** Rounding does nothing to such a number. *)
Lemma round_normal s m e : normal m e → binary_round_aux 24 128 s (Z.pos m) e loc_Exact = S754_finite s m e.
Proof.
  intros Hn. unfold binary_round_aux, shr_fexp.
  change (Zdigits2 (Z.pos m)) with (Z.pos (digits2_pos m)).
  rewrite (normal_digits m e), fexp_normal, Z.sub_diag by (done || apply Hn). simpl.
  rewrite (normal_digits m e), fexp_normal, Z.sub_diag by (done || apply Hn). simpl.
  destruct Hn as [_ He]. by rewrite (proj2 (Z.leb_le e (128 - 24))) by lia.
Qed.

(** Multiplication by a power of two is exact. *)
Lemma fmul_pow2 s m e s' e' : normal m e → -100 ≤ e + (e' + 23) ≤ 100 →
  fmul (S754_finite s m e) (S754_finite s' (2 ^ 23) e') = S754_finite (xorb s s') m (e + (e' + 23)).
Proof.
  intros Hn He. unfold fmul, SFmul, binary_round_aux, shr_fexp.
  rewrite Pos.mul_comm.
  change (2 ^ 23 * m)%positive
    with (m~0~0~0~0~0~0~0~0~0~0~0~0~0~0~0~0~0~0~0~0~0~0~0)%positive.
  cbn [Zdigits2 digits2_pos]. rewrite !Pos2Z.inj_succ, (normal_digits m e) by done.
  replace (fexp 24 128 _) with (e + (e' + 23)) by (unfold fexp, emin; lia).
  replace (e + (e' + 23) - (e + e')) with 23 by lia. cbn [shr shr_record_of_loc SpecFloat.iter_pos shr_1 orb].
  cbn [loc_of_shr_record round_nearest_even shr_m].
  change (Zdigits2 (Z.pos m)) with (Z.pos (digits2_pos m)).
  rewrite (normal_digits m e) by done.
  replace (e + e' + 23) with (e + (e' + 23)) by lia. rewrite fexp_normal, Z.sub_diag by lia.
  cbn [shr shr_record_of_loc shr_m]. by rewrite (proj2 (Z.leb_le _ (128 - 24))) by lia.
Qed.

(** ** Integers *)

Lemma float_of_small x : x ≠ 0 → Z.abs x < 2 ^ 24 →
  ∃ m e, float_of_Z x = S754_finite (x <? 0) m e ∧ normal m e ∧ -23 ≤ e ≤ 0 ∧
    Z.pos m = Z.abs x * 2 ^ (- e).
Proof.
  intros Hx Hmax.
  assert (H : ∀ p, Z.pos p < 2 ^ 24 → ∃ m e,
    (∀ s, binary_round 24 128 s p 0 = S754_finite s m e) ∧ normal m e ∧ -23 ≤ e ≤ 0 ∧
    Z.pos m = Z.pos p * 2 ^ (- e)).
  { intros p Hp. set (k := Z.log2 (Z.pos p)).
    pose proof (Z.log2_spec (Z.pos p) eq_refl) as Hk. fold k in Hk.
    assert (Hk0 : 0 ≤ k) by apply Z.log2_nonneg.
    assert (Hk23 : k ≤ 23).
    { destruct (decide (k ≤ 23)) as [|Hgt]; [done|]. pose proof (Z.pow_le_mono_r 2 24 k). lia. }
    assert (Hal : ∃ m, shl_align p 0 (k - 23) = (m, k - 23) ∧ Z.pos m = Z.pos p * 2 ^ (23 - k)).
    { unfold shl_align. rewrite Z.sub_0_r. destruct (k - 23) as [|q|q] eqn:Eq; [|lia|].
      - exists p. split; [done|]. replace (23 - k) with 0 by lia. lia.
      - exists (Pos.iter xO p q). split; [done|]. rewrite iter_xO. do 2 f_equal. lia. }
    destruct Hal as (m & Hal & Hm). exists m, (k - 23).
    assert (Hn : normal m (k - 23)).
    { split; [|lia]. rewrite Hm. rewrite Z.pow_succ_r in Hk by done.
      assert (E : 2 ^ k * 2 ^ (23 - k) = 2 ^ 23).
      { rewrite <-Z.pow_add_r by lia. f_equal. lia. }
      assert (0 < 2 ^ (23 - k)) by (apply Z.pow_pos_nonneg; lia).
      change (2 ^ 24) with (2 * 2 ^ 23). nia. }
    split_and!; [|done|lia|lia|by replace (- (k - 23)) with (23 - k) by lia].
    intros s. unfold binary_round. rewrite digits_log2. fold k.
    replace (fexp 24 128 (k + 1 + 0)) with (k - 23) by (unfold fexp, emin; lia).
    rewrite Hal. by apply round_normal. }
  destruct x as [|p|p]; [done|..]; destruct (H p) as (m & e & Hr & Hn & He & Hm); try (simpl in Hmax; lia);
    exists m, e; (split; [apply Hr|done]).
Qed.

(** ** In memory *)

Lemma land_high a b k : 0 ≤ k → 0 ≤ b < 2 ^ k → Z.land (a * 2 ^ k + b) (2 ^ k - 1) = b.
Proof.
  intros Hk Hb. replace (2 ^ k - 1) with (Z.ones k) by (rewrite Z.ones_equiv; lia).
  rewrite Z.land_ones by done. rewrite Z.add_comm, Z.mod_add by lia. by apply Z.mod_small.
Qed.

Lemma shiftr_high a b k : 0 ≤ k → 0 ≤ b < 2 ^ k → Z.shiftr (a * 2 ^ k + b) k = a.
Proof.
  intros Hk Hb. rewrite Z.shiftr_div_pow2 by done.
  symmetry. apply (Z.div_unique_pos _ _ _ b); lia.
Qed.

Lemma float_bits s m e : normal m e → float_of_bits (bits_of_float (S754_finite s m e)) = S754_finite s m e.
Proof.
  intros [Hm He]. unfold bits_of_float.
  rewrite (proj2 (Z.ltb_ge (Z.pos m) (2 ^ 23))) by lia.
  set (f := Z.pos m - 2 ^ 23). assert (Hf : 0 ≤ f < 2 ^ 23) by (unfold f; lia).
  set (b := if s then 1 else 0 : Z).
  replace (_ + Z.shiftl (e + 150) 23 + f) with ((b * 2 ^ 8 + (e + 150)) * 2 ^ 23 + f).
  2:{ rewrite Z.shiftl_mul_pow2 by lia. unfold b. destruct s; lia. }
  unfold float_of_bits. rewrite shiftr_high, (land_high _ f 23) by lia.
  replace (Z.land (b * 2 ^ 8 + (e + 150)) 255) with (e + 150)
    by (symmetry; apply (land_high b (e + 150) 8); lia).
  assert (Hbit : Z.testbit ((b * 2 ^ 8 + (e + 150)) * 2 ^ 23 + f) 31 = s).
  { rewrite Z.testbit_odd. replace 31 with (23 + 8) by done. rewrite <-Z.shiftr_shiftr by lia.
    rewrite shiftr_high, shiftr_high by lia. unfold b. by destruct s. }
  rewrite Hbit. rewrite (proj2 (Z.eqb_neq _ 255)) by lia.
  rewrite (proj2 (Z.eqb_neq _ 0)) by lia. replace (f + 2 ^ 23) with (Z.pos m) by (unfold f; lia).
  cbv iota. f_equal. lia.
Qed.

Lemma bits_range s m e : normal m e → 0 ≤ bits_of_float (S754_finite s m e) < 2 ^ 32.
Proof.
  intros [Hm He]. unfold bits_of_float. rewrite (proj2 (Z.ltb_ge (Z.pos m) (2 ^ 23))) by lia.
  rewrite Z.shiftl_mul_pow2 by lia. destruct s; lia.
Qed.

(** ** Samples *)

(** The formats of at most 24 bits. *)
Definition small_traits : list SampleTraits := [traits_S8; traits_S16; traits_S24_P32].

Lemma factors T : T ∈ small_traits →
  integer_to_float_factor T = S754_finite false (2 ^ 23) (- (BITS T - 1) - 23) ∧
  float_to_integer_factor T = S754_finite false (2 ^ 23) (BITS T - 1 - 23) ∧
  8 ≤ BITS T ≤ 24 ∧ 32 ≤ long_bits T.
Proof.
  intros HT. unfold small_traits in HT. repeat (apply elem_of_cons in HT as [->|HT]); [..|by apply elem_of_nil in HT].
  all: split_and!; [vm_compute; reflexivity|vm_compute; reflexivity|cbv; congruence..].
Qed.

Lemma sample_small T x : T ∈ small_traits → is_sample T x → Z.abs x < 2 ^ 24 ∧ Z.abs x ≤ 2 ^ (BITS T - 1).
Proof.
  intros HT Hx. pose proof (factors T HT) as (_ & _ & Hb & _).
  unfold is_sample, MIN, MAX in Hx. rewrite Z.shiftl_1_l in Hx.
  pose proof (Z.pow_le_mono_r 2 (BITS T - 1) 23). change (2 ^ 24) with (2 * 2 ^ 23). lia.
Qed.

(** The float of a sample: zero, or normal with the sample as its scaled value. *)
Lemma IntegerToFloat_spec T x : T ∈ small_traits → is_sample T x →
  (x = 0 ∧ IntegerToFloat T x = S754_zero false) ∨
  (∃ m e, IntegerToFloat T x = S754_finite (x <? 0) m e ∧ normal m e ∧
     -23 ≤ e + (BITS T - 1) ≤ 0 ∧ Z.pos m = Z.abs x * 2 ^ (- (e + (BITS T - 1)))).
Proof.
  intros HT Hx. pose proof (factors T HT) as (Ef & _ & Hb & _).
  destruct (sample_small T x HT Hx) as [Hs _]. unfold IntegerToFloat. rewrite Ef.
  destruct (decide (x = 0)) as [->|H0]; [by left|right].
  destruct (float_of_small x H0 Hs) as (m & e & -> & Hn & He & Hm).
  exists m, (e - (BITS T - 1)). rewrite fmul_pow2 by (done || lia). rewrite xorb_false_r.
  split_and!; [f_equal; lia| |lia|lia|].
  - destruct Hn as [Hm' _]. split; [done|lia].
  - rewrite Hm. do 2 f_equal. lia.
Qed.

Lemma FloatToInteger_exact T x : T ∈ small_traits → is_sample T x →
  FloatToInteger T (IntegerToFloat T x) = Some x.
Proof.
  intros HT Hx. pose proof (factors T HT) as (_ & Ef & Hb & Hl).
  destruct (sample_small T x HT Hx) as [Hs _].
  assert (Hc : PcmClamp T x = x).
  { unfold PcmClamp. unfold is_sample in Hx. repeat case_match; lia. }
  unfold FloatToInteger. rewrite Ef.
  destruct (IntegerToFloat_spec T x HT Hx) as [[-> ->]|(m & e & -> & Hn & He & Hm)].
  { simpl. by rewrite Hc. }
  rewrite fmul_pow2 by (done || lia). rewrite xorb_false_r. unfold truncate.
  replace (Z.shiftl (Z.pos m) (e + (BITS T - 1 - 23 + 23))) with (Z.abs x).
  - replace (if x <? 0 then - Z.abs x else Z.abs x) with x by (destruct (Z.ltb_spec x 0); lia).
    rewrite int_Some.
    + simpl. by rewrite Hc.
    + pose proof (Z.pow_le_mono_r 2 24 (long_bits T - 1)). lia.
  - set (k := - (e + (BITS T - 1))) in *. replace (e + (BITS T - 1 - 23 + 23)) with (- k) by lia.
    rewrite Z.shiftl_opp_r, Z.shiftr_div_pow2, Hm by lia. rewrite Z.div_mul; [done|]. lia.
Qed.

Lemma float_memory T x : T ∈ small_traits → is_sample T x →
  let y := IntegerToFloat T x in
  float_of_bits (bits_of_float y) = y ∧ 0 ≤ bits_of_float y < 2 ^ 32.
Proof.
  intros HT Hx y. subst y.
  destruct (IntegerToFloat_spec T x HT Hx) as [[-> ->]|(m & e & -> & Hn & He & Hm)]; [done|].
  split; [by apply float_bits|by apply bits_range].
Qed.

End FloatFacts.
