(* ===== verification/PcmProps.v ===== *)
(** * Properties of the PCM library

    Dithering, volume and mixing run without overflow and without bias. *)

From Stdlib Require Import ZArith Lia ZifyBool.
From Stdlib Require Import SpecFloat.
From stdpp Require Import base numbers sets strings list list_numbers.
From S2P Require Import Prelude AudioFormat Samples Pcm PcmFacts.

Set Default Goal Selector "!".
Local Open Scope Z_scope.

Module PcmProps.
Import AudioFormat Samples Pcm PcmFacts BufferFacts.

(** ** Dithering *)

Lemma range_sample T l : T ∈ integer_traits →
  Forall (λ y, - 2 ^ (BITS T - 1) ≤ y < 2 ^ (BITS T - 1)) l → Forall (is_sample T) l.
Proof.
  intros HT Hl. eapply Forall_impl; [exact Hl|]. intros y Hy. by apply (sample_cast T y HT).
Qed.

Lemma carry_bound k d : dither_ok k d → 4 * Z.abs (carry d) < 9 * 2 ^ k.
Proof. intros [H0 _ H2]. unfold carry. lia. Qed.

(** The conversion to 16 bit is unbiased.  Dithering a stream of 24 or 32 bit samples
    never overflows and yields as many 16 bit samples; and as long as no sample is within
    three steps of the limits, the sums of input and output differ by less than three steps,
    however long the stream is: the rounding errors are fed back and cancel. *)
Theorem dither_unbiased ST l :
  ST ∈ [traits_S24_P32; traits_S32] → Forall (is_sample ST) l →
  let step := 2 ^ (BITS ST - 16) in
  ∃ ys d, DitherConvert ST traits_S16 make_dither l = Some (ys, d) ∧
    length ys = length l ∧ Forall (is_sample traits_S16) ys ∧
    (Forall (λ x, Z.abs x + 3 * step ≤ 2 ^ (BITS ST - 1)) l →
     Z.abs (step * total ys - total l) < 3 * step).
Proof.
  intros HT Hl step. pose proof (convert_widths ST HT) as (_ & _ & _ & Hk & _).
  assert (Hk0 : 0 ≤ BITS ST - 16) by lia.
  destruct (map_state_steps (DitherConvert_sample ST traits_S16) id (is_sample ST)
    (BITS ST - 16) (2 ^ 15) make_dither l) as (ys & d & E & Hd & Hlen & Hys & Hsum);
    [done|done| |by apply make_dither_ok|done|].
  { intros d x. by apply convert_step. }
  exists ys, d. split_and!; [exact E|done| |].
  - apply (range_sample traits_S16); [by right; left|done].
  - intros Hroom. apply carry_bound in Hd. rewrite list_fmap_id in Hsum. simpl in Hsum.
    change (carry make_dither) with 0 in Hsum. fold step in Hd, Hsum.
    enough (step * total ys + carry d = total l) by lia.
    rewrite Hsum; [lia|]. eapply Forall_impl; [exact Hroom|]. cbv beta. intros x Hx.
    replace (2 ^ 15 * step) with (2 ^ (BITS ST - 1)); [done|].
    unfold step. rewrite <-Z.pow_add_r by lia. f_equal. lia.
Qed.

Lemma dither_unbiased_witness :
  ∃ ys d, DitherConvert traits_S24_P32 traits_S16 make_dither [300; -8388000; 40000] = Some (ys, d) ∧
    length ys = 3%nat ∧ Forall (is_sample traits_S16) ys ∧
    (Forall (λ x, Z.abs x + 3 * 2 ^ 8 ≤ 2 ^ 23) [300; -8388000; 40000] →
     Z.abs (2 ^ 8 * total ys - (300 + (-8388000 + (40000 + 0)))) < 3 * 2 ^ 8).
Proof.
  apply (dither_unbiased traits_S24_P32 [300; -8388000; 40000]).
  - by left.
  - repeat constructor; cbv; congruence.
Defined.

(** ** Volume and mixing *)

Section Buffers.
Context `{!Host}.

Lemma SAMPLE_SIZE_bits T : T ∈ integer_traits →
  (0 < SAMPLE_SIZE T)%nat ∧ 8 * Z.of_nat (SAMPLE_SIZE T) = value_bits T.
Proof. intros HT. each_traits HT; cbv; split; (done || lia). Qed.

Lemma samples_in_memory T l : T ∈ integer_traits → Forall (is_sample T) l →
  FromVoid (SAMPLE_SIZE T) (ToVoid (SAMPLE_SIZE T) l) = Some l.
Proof.
  intros HT Hl. pose proof (SAMPLE_SIZE_bits T HT) as [Hs Hb].
  pose proof (traits_widths T HT) as (_ & _ & Hv & _).
  apply FromVoid_ToVoid; [done|]. eapply Forall_impl; [exact Hl|]. intros x Hx. rewrite Hb.
  unfold is_sample, MIN, MAX in Hx. rewrite Z.shiftl_1_l in Hx.
  pose proof (Z.pow_le_mono_r 2 (BITS T - 1) (value_bits T - 1)). lia.
Qed.

(** Two buffers of samples, and the sum of their products with the volumes. *)
Definition mixed (v1 v2 : Z) (ab : Z * Z) : Z := ab.1 * v1 + ab.2 * v2.

Lemma PcmAddVolume_ok T v1 v2 d a b :
  T ∈ integer_traits → 0 ≤ v1 → 0 ≤ v2 → v1 + v2 ≤ 2 ^ 14 → dither_ok 10 d →
  Forall (is_sample T) a → Forall (is_sample T) b → length a = length b →
  ∃ c d', PcmAddVolume T v1 v2 d a b = Some (c, d') ∧ dither_ok 10 d' ∧ length c = length a ∧
    Forall (is_sample T) c ∧
    (Forall (λ ab, Z.abs (mixed v1 v2 ab) + 3 * 2 ^ 10 ≤ 2 ^ (BITS T - 1) * 2 ^ 10) (zip a b) →
     Z.abs (2 ^ 10 * total c - total (mixed v1 v2 <$> zip a b)) < 5 * 2 ^ 10).
Proof.
  intros HT H1 H2 H3 Hd Ha Hb Hlen.
  destruct (map_state_steps (PcmAddVolume_sample T v1 v2) (mixed v1 v2)
    (λ ab, is_sample T ab.1 ∧ is_sample T ab.2) 10 (2 ^ (BITS T - 1)) d (zip a b))
    as (c & d' & E & Hd' & Hl & Hc & Hsum).
  - lia.
  - pose proof (traits_widths T HT). apply Z.pow_pos_nonneg; lia.
  - intros d0 [x y] Hd0 [Hx Hy]. by apply mix_step.
  - done.
  - rewrite Forall_lookup in Ha, Hb. apply Forall_lookup. intros i [x y] Hi.
    apply lookup_zip_with_Some in Hi as (? & ? & ? & ? & ?). simplify_eq/=. eauto.
  - exists c, d'. split_and!; [exact E|done| |by apply range_sample|].
    + rewrite Hl, length_zip_with. lia.
    + intros Hroom. specialize (Hsum Hroom). apply carry_bound in Hd, Hd'. lia.
Qed.

Lemma PcmAdd_sample_ok T x y :
  T ∈ integer_traits → is_sample T x → is_sample T y →
  PcmAdd_sample T x y = Some (PcmClamp T (x + y)).
Proof.
  intros HT Hx%sample_abs Hy%sample_abs; [|done..]. unfold PcmAdd_sample.
  assert (Hw : 2 * 2 ^ (BITS T - 1) < 2 ^ (sum_bits T - 1)) by (each_traits HT; done).
  rewrite int_Some by lia. done.
Qed.

Lemma PcmAdd_ok T a b :
  T ∈ integer_traits → Forall (is_sample T) a → Forall (is_sample T) b → length a = length b →
  PcmAdd T a b = Some (zip_with (λ x y, PcmClamp T (x + y)) a b).
Proof.
  intros HT Ha. revert b. unfold PcmAdd. induction Ha as [|x a Hx Ha IH]; intros b Hb Hlen.
  { done. }
  destruct Hb as [|y b Hy Hb]; [done|]. cbn [zip_with mapM fst snd].
  rewrite PcmAdd_sample_ok by done. rewrite IH by (done || (simpl in Hlen; lia)). done.
Qed.

Lemma PcmClamp_sample T x : T ∈ integer_traits → is_sample T (PcmClamp T x).
Proof.
  intros (Hb & _)%traits_widths. unfold is_sample, PcmClamp, MIN, MAX. rewrite Z.shiftl_1_l.
  pose proof (Z.pow_pos_nonneg 2 (BITS T - 1)). repeat case_match; lia.
Qed.

Lemma zip_clamp_samples T a b : T ∈ integer_traits →
  Forall (is_sample T) (zip_with (λ x y, PcmClamp T (x + y)) a b).
Proof.
  intros HT. apply Forall_lookup. intros i z Hz. apply lookup_zip_with_Some in Hz as (? & ? & -> & _).
  by apply PcmClamp_sample.
Qed.

Lemma mix_volume_range sin portion v : mix_volume sin portion = Some v → 0 ≤ v ≤ PCM_VOLUME_1.
Proof.
  unfold mix_volume. intros (x & _ & ?)%bind_Some. simplify_eq/=. unfold Clamp, PCM_VOLUME_1.
  repeat case_match; lia.
Qed.

(** C12: cross-fading.  For every integer format, mixing two buffers of samples of the same
    length never overflows, and gives as many samples of the format.  A negative ratio (MixRamp)
    adds the samples and clips the sums; otherwise the volumes add up to 100 %, and unless a
    sample is near the limits the result is unbiased: its sum is that of the weighted
    samples, up to five steps in the whole buffer. *)
Theorem pcm_mix_correct sin portion f T d a b :
  traits_of f = Some T → dither_ok 10 d →
  Forall (is_sample T) a → Forall (is_sample T) b → length a = length b →
  SFltb portion (S754_zero false) = true ∨ is_Some (mix_volume sin portion) →
  let n := SAMPLE_SIZE T in
  ∃ c d', pcm_mix sin d (ToVoid n a) (ToVoid n b) f portion = Some (Some (ToVoid n c, d')) ∧
    dither_ok 10 d' ∧ length c = length a ∧ Forall (is_sample T) c ∧
    if SFltb portion (S754_zero false)
    then c = zip_with (λ x y, PcmClamp T (x + y)) a b
    else ∃ v, mix_volume sin portion = Some v ∧ 0 ≤ v ≤ 1024 ∧
      let m := mixed v (1024 - v) <$> zip a b in
      Forall (λ x, Z.abs x + 3 * 2 ^ 10 ≤ 2 ^ (BITS T - 1) * 2 ^ 10) m →
      Z.abs (2 ^ 10 * total c - total m) < 5 * 2 ^ 10.
Proof.
  intros Hf Hd Ha Hb Hlen Hp n. pose proof (traits_cases f T Hf) as HT. unfold pcm_mix.
  destruct (SFltb portion _) eqn:Hneg.
  - exists (zip_with (λ x y, PcmClamp T (x + y)) a b), d.
    assert (E : pcm_add (ToVoid n a) (ToVoid n b) f = Some <$> PcmAddVoid T (ToVoid n a) (ToVoid n b))
      by (by destruct f; simplify_eq/=).
    rewrite E. unfold PcmAddVoid. fold n. unfold n.
    rewrite !samples_in_memory by done. simpl. rewrite PcmAdd_ok by done. simpl. split_and!; try done.
    + rewrite length_zip_with. lia.
    + by apply zip_clamp_samples.
  - destruct Hp as [?|[v Hv]]; [done|]. pose proof (mix_volume_range _ _ _ Hv) as Hr.
    unfold PCM_VOLUME_1 in *. rewrite Hv. simpl.
    destruct (PcmAddVolume_ok T v (1024 - v) d a b) as (c & d' & E & Hd' & Hl & Hc & Hsum);
      [done|lia|lia|lia|done..|].
    assert (E' : pcm_add_vol d (ToVoid n a) (ToVoid n b) v (1024 - v) f =
      Some <$> PcmAddVolumeVoid T v (1024 - v) d (ToVoid n a) (ToVoid n b))
      by (by destruct f; simplify_eq/=).
    rewrite E'. unfold PcmAddVolumeVoid. fold n. unfold n.
    rewrite !samples_in_memory by done. simpl. rewrite E. simpl.
    exists c, d'. split_and!; try done. exists v. split_and!; [done|lia|lia|].
    intros Hroom. apply Hsum. by rewrite Forall_fmap in Hroom.
Qed.

Lemma zeros_in_memory n len : ToVoid n (replicate len 0) = replicate (len * n) 0.
Proof.
  induction len as [|len IH]; [done|]. cbn [replicate]. unfold ToVoid in *.
  rewrite bind_cons, IH, Nat.mul_succ_l, Nat.add_comm, replicate_add. f_equal.
  unfold store_int, host_order.
  assert (E : Z_to_little_endian (Z.of_nat n) 8 0 = replicate n 0).
  { clear. induction n as [|n IHn]; [done|].
    rewrite Nat2Z.inj_succ, Z_to_little_endian_succ by lia. rewrite Z.shiftr_0_l, IHn. done. }
  rewrite E. destruct IsBigEndian; [apply reverse_replicate|done].
Qed.

Lemma total_zeros n : total (replicate n 0) = 0.
Proof. induction n as [|n IH]; [done|]. cbn [replicate]. rewrite total_cons. lia. Qed.

Lemma total_scaled v l : total ((λ x, x * v) <$> l) = v * total l.
Proof. induction l as [|x l IH]; [simpl; lia|]. rewrite fmap_cons, !total_cons. lia. Qed.

Lemma Apply_typed_ok `{!Memory} T v src :
  T ∈ integer_traits → 0 ≤ volume v ≤ 2 ^ 14 → dither_ok 10 (v_dither v) →
  Forall (is_sample T) src →
  ∃ dest d, Apply_typed T v (ToVoid (SAMPLE_SIZE T) src) =
      Some (ToVoid (SAMPLE_SIZE T) dest, mkVolume (v_format v) (volume v) d) ∧
    dither_ok 10 d ∧ length dest = length src ∧ Forall (is_sample T) dest ∧
    (Forall (λ x, Z.abs (x * volume v) + 3 * 2 ^ 10 ≤ 2 ^ (BITS T - 1) * 2 ^ 10) src →
     Z.abs (2 ^ 10 * total dest - volume v * total src) < 5 * 2 ^ 10).
Proof.
  intros HT Hv Hd Hsrc. pose proof (SAMPLE_SIZE_bits T HT) as [Hn _].
  destruct (map_state_steps (pcm_volume_sample T (volume v)) (λ x, x * volume v) (is_sample T)
    10 (2 ^ (BITS T - 1)) (v_dither v) src) as (dest & d & Er & Hd' & Hlen & Hdest & Hsum);
    [lia| | |done|done|].
  { pose proof (traits_widths T HT). apply Z.pow_pos_nonneg; lia. }
  { intros d0 x. by apply volume_step. }
  exists dest, d. split_and!; [|done|done|by apply range_sample|].
  - unfold Apply_typed. rewrite length_ToVoid, Nat.div_mul, Nat.sub_diag by lia.
    rewrite firstn_all2 by (rewrite length_ToVoid; lia).
    rewrite samples_in_memory by done. simpl. unfold pcm_volume_change.
    rewrite to_signed_id by (simpl; lia). rewrite Er. simpl. by rewrite app_nil_r.
  - intros Hroom. specialize (Hsum Hroom). apply carry_bound in Hd, Hd'.
    rewrite total_scaled in Hsum. lia.
Qed.

(** Software volume.  For every integer format and a volume up to 1600 %, scaling a buffer
    never overflows, keeps the number of samples and their range, 100 % leaves the samples
    as they are, 0 % is silence, and otherwise the result is unbiased as long as no sample
    is near the limits. *)
Theorem volume_correct `{!Memory} T v src :
  traits_of (v_format v) = Some T → 0 ≤ volume v ≤ 2 ^ 14 → dither_ok 10 (v_dither v) →
  Forall (is_sample T) src →
  let n := SAMPLE_SIZE T in
  ∃ dest v', Apply v (ToVoid n src) = Some (ToVoid n dest, v') ∧
    v_format v' = v_format v ∧ volume v' = volume v ∧ dither_ok 10 (v_dither v') ∧
    length dest = length src ∧ Forall (is_sample T) dest ∧
    (volume v = 1024 → dest = src) ∧ (volume v = 0 → dest = replicate (length src) 0) ∧
    (Forall (λ x, Z.abs (x * volume v) + 3 * 2 ^ 10 ≤ 2 ^ (BITS T - 1) * 2 ^ 10) src →
     Z.abs (2 ^ 10 * total dest - volume v * total src) < 5 * 2 ^ 10).
Proof.
  intros Hf Hv Hd Hsrc n. pose proof (traits_cases _ T Hf) as HT.
  unfold Apply, PCM_VOLUME_1.
  destruct (Z.eqb_spec (volume v) 1024) as [E1|E1].
  { exists src, v. split_and!; try done; [lia|]. intros _. rewrite E1. lia. }
  destruct (Z.eqb_spec (volume v) 0) as [E0|E0].
  { exists (replicate (length src) 0), v. split_and!; try done.
    - rewrite length_ToVoid, zeros_in_memory. unfold PcmSilence.
      by destruct (v_format v); simplify_eq/=.
    - by rewrite length_replicate.
    - apply Forall_replicate. each_traits HT; cbv; split; congruence.
    - intros _. rewrite total_zeros, E0. lia. }
  destruct (Apply_typed_ok T v src HT Hv Hd Hsrc) as (dest & d & E & Hd' & Hlen & Hs & Hsum).
  exists dest, (mkVolume (v_format v) (volume v) d). split_and!; try done.
  by destruct (v_format v); simplify_eq/=.
Qed.

End Buffers.

#[local] Instance little_endian_host : Host := {| IsBigEndian := false |}.
#[local] Instance zero_memory : Memory := {| garbage := λ _, 0 |}.

Lemma pcm_mix_correct_witness :
  ∃ c d', pcm_mix (λ _, SFone 53 1024) make_dither
      (ToVoid (SAMPLE_SIZE traits_S16) [100; -32768]) (ToVoid (SAMPLE_SIZE traits_S16) [7; -5])
      S16 (SFone 24 128) = Some (Some (ToVoid (SAMPLE_SIZE traits_S16) c, d')) ∧ length c = 2%nat.
Proof.
  destruct (pcm_mix_correct (λ _, SFone 53 1024) (SFone 24 128) S16 traits_S16 make_dither
    [100; -32768] [7; -5]) as (c & d' & E & _ & Hl & _).
  - done.
  - by apply make_dither_ok.
  - repeat constructor; cbv; congruence.
  - repeat constructor; cbv; congruence.
  - done.
  - right. vm_compute. by eexists.
  - exists c, d'. split; [exact E|exact Hl].
Defined.

Lemma volume_correct_witness :
  ∃ dest v', Apply (mkVolume S24_P32 512 make_dither)
      (ToVoid (SAMPLE_SIZE traits_S24_P32) [100; -8388608]) =
    Some (ToVoid (SAMPLE_SIZE traits_S24_P32) dest, v') ∧ length dest = 2%nat.
Proof.
  destruct (volume_correct traits_S24_P32 (mkVolume S24_P32 512 make_dither) [100; -8388608])
    as (dest & v' & E & _ & _ & _ & Hl & _).
  - done.
  - simpl. lia.
  - by apply make_dither_ok.
  - repeat constructor; cbv; congruence.
  - exists dest, v'. split; [exact E|exact Hl].
Defined.

End PcmProps.
