(* ===== verification/PcmConvert.v ===== *)
(** * PCM conversion

    [pcm/PcmFormat.cxx], [pcm/FormatConverter.cxx], [pcm/PcmChannels.cxx],
    [pcm/ChannelsConverter.cxx], [pcm/FallbackResampler.cxx], [pcm/GlueResampler.cxx] and
    [pcm/PcmConvert.cxx]: a chain of resampler, format converter and channel converter.

    The virtual class [PcmResampler] is the class of the same name; the resampler that is
    part of the program is an instance.  [dsd2pcm], a floating point filter written in C, is
    a parameter. *)

From Stdlib Require Import ZArith Lia ZifyBool.
From Stdlib Require Import SpecFloat.
From stdpp Require Import base numbers sets strings list list_numbers.
From S2P Require Import Prelude AudioFormat Prog Samples Pcm.

Set Default Goal Selector "!".
Local Open Scope Z_scope.

Module PcmConvert.
Import AudioFormat Samples Pcm.

(** [ConstBuffer<void>]; [None] is the null buffer. *)
Definition buffer := option (list Z).
Definition contents (b : buffer) : list Z := default [] b.

(** ** Sample formats *)

Section Format.
Context `{!Host}.

(** [AllocateConvert] with a [PerSampleConvert] *)
Definition AllocateConvert {A B} (convert : A → option B) (src : list A) : option (list B) :=
  mapM convert src.

(** The typed results of these functions; the inner [None] is the null buffer. *)
Definition pcm_convert_to_16 (d : PcmDither) (f : SampleFormat) (src : list Z)
    : option (option (list Z) * PcmDither) :=
  match f with
  | UNDEFINED | DSD => Some (None, d)
  | S8 =>
      l ← FromVoid 1 src;
      l ← AllocateConvert (LeftShift traits_S8 traits_S16) l;
      Some (Some l, d)
  | S16 => l ← FromVoid 2 src; Some (Some l, d)
  | S24_P32 =>
      l ← FromVoid 4 src;
      '(l, d) ← Dither24To16 d l;
      Some (Some l, d)
  | S32 =>
      l ← FromVoid 4 src;
      '(l, d) ← Dither32To16 d l;
      Some (Some l, d)
  | FLOAT =>
      l ← FloatFromVoid src;
      l ← AllocateConvert (FloatToInteger traits_S16) l;
      Some (Some l, d)
  end.

Definition pcm_convert_to_24 (f : SampleFormat) (src : list Z) : option (option (list Z)) :=
  match f with
  | UNDEFINED | DSD => Some None
  | S8 =>
      l ← FromVoid 1 src;
      l ← AllocateConvert (LeftShift traits_S8 traits_S24_P32) l; Some (Some l)
  | S16 =>
      l ← FromVoid 2 src;
      l ← AllocateConvert (LeftShift traits_S16 traits_S24_P32) l; Some (Some l)
  | S24_P32 => l ← FromVoid 4 src; Some (Some l)
  | S32 =>
      l ← FromVoid 4 src;
      l ← AllocateConvert (λ x, Some (RightShift traits_S32 traits_S24_P32 x)) l; Some (Some l)
  | FLOAT =>
      l ← FloatFromVoid src;
      l ← AllocateConvert (FloatToInteger traits_S24_P32) l; Some (Some l)
  end.

Definition pcm_convert_to_32 (f : SampleFormat) (src : list Z) : option (option (list Z)) :=
  match f with
  | UNDEFINED | DSD => Some None
  | S8 =>
      l ← FromVoid 1 src;
      l ← AllocateConvert (LeftShift traits_S8 traits_S32) l; Some (Some l)
  | S16 =>
      l ← FromVoid 2 src;
      l ← AllocateConvert (LeftShift traits_S16 traits_S32) l; Some (Some l)
  | S24_P32 =>
      l ← FromVoid 4 src;
      l ← AllocateConvert (LeftShift traits_S24_P32 traits_S32) l; Some (Some l)
  | S32 => l ← FromVoid 4 src; Some (Some l)
  | FLOAT =>
      l ← FloatFromVoid src;
      l ← AllocateConvert (FloatToInteger traits_S32) l; Some (Some l)
  end.

Definition pcm_convert_to_float (f : SampleFormat) (src : list Z)
    : option (option (list float32)) :=
  match f with
  | UNDEFINED | DSD => Some None
  | S8 =>
      l ← FromVoid 1 src;
      l ← AllocateConvert (λ x, Some (IntegerToFloat traits_S8 x)) l; Some (Some l)
  | S16 =>
      l ← FromVoid 2 src;
      l ← AllocateConvert (λ x, Some (IntegerToFloat traits_S16 x)) l; Some (Some l)
  | S24_P32 =>
      l ← FromVoid 4 src;
      l ← AllocateConvert (λ x, Some (IntegerToFloat traits_S24_P32 x)) l; Some (Some l)
  | S32 =>
      l ← FromVoid 4 src;
      l ← AllocateConvert (λ x, Some (IntegerToFloat traits_S32 x)) l; Some (Some l)
  | FLOAT => l ← FloatFromVoid src; Some (Some l)
  end.

(** [class PcmFormatConverter] *)
Record PcmFormatConverter := mkFormatConverter {
  fc_src : SampleFormat;
  fc_dest : SampleFormat;
  fc_dither : PcmDither;
}.

Definition make_format_converter : PcmFormatConverter :=
  mkFormatConverter UNDEFINED UNDEFINED make_dither.

Definition Format_Open (src dest : SampleFormat) : prog PcmFormatConverter unit :=
  (assert_ (negb (is_undefined src)) ;;
   assert_ (negb (is_undefined dest)) ;;
   match dest with
   | UNDEFINED => abort
   | S8 | DSD =>
       throw (RuntimeError (str "PCM conversion from " ++ sample_format_to_string src
                            ++ str " to " ++ sample_format_to_string dest
                            ++ str " is not implemented"))
   | S16 | S24_P32 | S32 | FLOAT =>
       modify (λ c, mkFormatConverter src dest (fc_dither c))
   end)%prog.

Definition Format_Close (c : PcmFormatConverter) : PcmFormatConverter :=
  mkFormatConverter UNDEFINED UNDEFINED (fc_dither c).

Definition Format_Convert (src : buffer) (c : PcmFormatConverter)
    : option (buffer * PcmFormatConverter) :=
  match fc_dest c with
  | UNDEFINED | S8 | DSD => None
  | S16 =>
      '(l, d) ← pcm_convert_to_16 (fc_dither c) (fc_src c) (contents src);
      Some (option_map (ToVoid 2) l, mkFormatConverter (fc_src c) (fc_dest c) d)
  | S24_P32 => l ← pcm_convert_to_24 (fc_src c) (contents src); Some (option_map (ToVoid 4) l, c)
  | S32 => l ← pcm_convert_to_32 (fc_src c) (contents src); Some (option_map (ToVoid 4) l, c)
  | FLOAT => l ← pcm_convert_to_float (fc_src c) (contents src); Some (option_map FloatToVoid l, c)
  end.

End Format.

(** ** Channels *)

Section Channels.
Context {A : Type} (StereoToMono_sample : A → A → option A) (average : list A → option A).

Definition MonoToStereo (src : list A) : list A := src ≫= λ value, [value; value].

Fixpoint StereoToMono (src : list A) : option (list A) :=
  match src with
  | a :: b :: src =>
      x ← StereoToMono_sample a b;
      l ← StereoToMono src;
      Some (x :: l)
  | [] => Some []
  | [_] => None
  end.

Definition NToStereo (src_channels : nat) (src : list A) : option (list A) :=
  assert! (length src mod src_channels =? 0)%nat ;;
  l ← mapM average (split_blocks src_channels src);
  Some (l ≫= λ value, [value; value]).

Definition NToM (dest_channels src_channels : nat) (src : list A) : option (list A) :=
  assert! (length src mod src_channels =? 0)%nat ;;
  l ← mapM average (split_blocks src_channels src);
  Some (l ≫= replicate dest_channels).

Definition ConvertChannels (dest_channels src_channels : nat) (src : list A)
    : option (list A) :=
  assert! (length src mod src_channels =? 0)%nat ;;
  if (src_channels =? 1)%nat && (dest_channels =? 2)%nat then Some (MonoToStereo src)
  else if (src_channels =? 2)%nat && (dest_channels =? 1)%nat then StereoToMono src
  else if (dest_channels =? 2)%nat then NToStereo src_channels src
  else NToM dest_channels src_channels src.

End Channels.

(** [StereoToMono] on two samples, and the value of a frame in [NToStereo] and [NToM]. *)
Definition StereoToMono_int (T : SampleTraits) (a b : Z) : option Z :=
  c ← int (sum_bits T) (a + b);
  Some (to_signed (value_bits T) (Z.quot c 2)).

Fixpoint sum_int (T : SampleTraits) (sum : Z) (l : list Z) : option Z :=
  match l with
  | [] => Some sum
  | x :: l => sum ← int (sum_bits T) (sum + x); sum_int T sum l
  end.

Definition average_int (T : SampleTraits) (frame : list Z) : option Z :=
  match frame with
  | [] => None
  | x :: l =>
      sum ← sum_int T x l;
      Some (to_signed (value_bits T) (Z.quot sum (Z.of_nat (length frame))))
  end.

Definition StereoToMono_float (a b : float32) : option float32 :=
  Some (fdiv (fadd a b) (float_of_Z 2)).

Definition average_float (frame : list float32) : option float32 :=
  match frame with
  | [] => None
  | x :: l => Some (fdiv (foldl fadd x l) (float_of_Z (Z.of_nat (length frame))))
  end.

Definition pcm_convert_channels (T : SampleTraits) : nat → nat → list Z → option (list Z) :=
  ConvertChannels (StereoToMono_int T) (average_int T).

Definition pcm_convert_channels_float : nat → nat → list float32 → option (list float32) :=
  ConvertChannels StereoToMono_float average_float.

(** [class PcmChannelsConverter] *)
Record PcmChannelsConverter := mkChannelsConverter {
  cc_format : SampleFormat;
  src_channels : Z;
  dest_channels : Z;
}.

Definition make_channels_converter : PcmChannelsConverter := mkChannelsConverter UNDEFINED 0 0.

Definition Channels_Open (f : SampleFormat) (src dest : Z) : prog PcmChannelsConverter unit :=
  (assert_ (negb (is_undefined f)) ;;
   match f with
   | S16 | S24_P32 | S32 | FLOAT => modify (λ _, mkChannelsConverter f src dest)
   | UNDEFINED | S8 | DSD =>
       throw (RuntimeError (str "PCM channel conversion for " ++ sample_format_to_string f
                            ++ str " is not implemented"))
   end)%prog.

Definition Channels_Close (c : PcmChannelsConverter) : PcmChannelsConverter :=
  mkChannelsConverter UNDEFINED (src_channels c) (dest_channels c).

Definition Channels_Convert `{!Host} (src : buffer) (c : PcmChannelsConverter) : option buffer :=
  let n := Z.to_nat (src_channels c) in
  let m := Z.to_nat (dest_channels c) in
  match cc_format c with
  | UNDEFINED | S8 | DSD => None
  | S16 =>
      l ← FromVoid 2 (contents src);
      l ← pcm_convert_channels traits_S16 m n l; Some (Some (ToVoid 2 l))
  | S24_P32 =>
      l ← FromVoid 4 (contents src);
      l ← pcm_convert_channels traits_S24_P32 m n l; Some (Some (ToVoid 4 l))
  | S32 =>
      l ← FromVoid 4 (contents src);
      l ← pcm_convert_channels traits_S32 m n l; Some (Some (ToVoid 4 l))
  | FLOAT =>
      l ← FloatFromVoid (contents src);
      l ← pcm_convert_channels_float m n l; Some (Some (FloatToVoid l))
  end.

(** ** Resampling *)

(** The interface [PcmResampler]: [Open] returns the input format it asks for (the
    modified argument) and the format of its output. *)
Class PcmResampler (R : Type) := {
  resampler_Open : AudioFormat → Z → prog R (AudioFormat * AudioFormat);
  resampler_Close : R → R;
  resampler_Resample : buffer → R → option (buffer * R);
}.

(** [class FallbackPcmResampler] *)
Record FallbackPcmResampler := mkFallback {
  fb_format : AudioFormat;
  out_rate : Z;
}.

Definition make_fallback : FallbackPcmResampler := mkFallback Undefined 0.

Definition Fallback_Open (af : AudioFormat) (new_sample_rate : Z)
    : prog FallbackPcmResampler (AudioFormat * AudioFormat) :=
  (assert_ (IsValid af) ;;
   assert_ (audio_valid_sample_rate new_sample_rate) ;;
   f <- lift (match format af with
              | UNDEFINED => None
              | S8 => Some S16
              | S16 => Some S16
              | FLOAT => Some FLOAT
              | S24_P32 => Some S24_P32
              | S32 => Some S32
              | DSD => Some FLOAT
              end) ;;
   let af := mkAudioFormat (sample_rate af) f (channels af) in
   modify (λ _, mkFallback af new_sample_rate) ;;
   ret (af, mkAudioFormat new_sample_rate f (channels af)))%prog.

(** Arithmetic on [unsigned]. *)
Definition u32 (x : Z) : Z := x mod 2 ^ 32.

(** [ConstBuffer::operator[]] *)
Definition element (src : list Z) (i : Z) : option Z :=
  assert! (0 <=? i) && (i <? Z.of_nat (length src)) ;; src !! Z.to_nat i.

(** The loops of [pcm_resample_fallback]: [dest_pos] is 0, 1, ... for one channel and
    0, 2, ... for two. *)
Definition resample_mono (src_rate dest_rate : Z) (src : list Z) (dest_samples : nat)
    : option (list Z) :=
  mapM (λ dest_pos, element src (u32 (Z.of_nat dest_pos * src_rate) / dest_rate))
    (seq 0 dest_samples).

Definition resample_stereo (src_rate dest_rate : Z) (src : list Z) (dest_samples : nat)
    : option (list Z) :=
  l ← mapM (λ i,
        let src_pos := u32 (Z.of_nat (2 * i) * src_rate) / dest_rate in
        let src_pos := Z.land src_pos (u32 (Z.lnot 1)) in
        a ← element src src_pos;
        b ← element src (u32 (src_pos + 1));
        Some [a; b])
      (seq 0 (dest_samples / 2));
  Some (concat l).

Section Resample.
Context `{!Host, !Memory}.

(** [pcm_resample_fallback_void<T>] for a type of [size] bytes. *)
Definition pcm_resample_fallback_void (size : nat) (channels src_rate : Z) (src : list Z)
    (dest_rate : Z) : option (list Z) :=
  src ← FromVoid size src;
  let src_frames := u32 (Z.of_nat (length src) / channels) in
  let dest_frames := u32 (src_frames * dest_rate + src_rate - 1) / src_rate in
  let dest_samples := Z.to_nat (u32 (dest_frames * channels)) in
  assert! (Z.of_nat (length src) mod channels =? 0) ;;
  if channels =? 1 then ToVoid size <$> resample_mono src_rate dest_rate src dest_samples
  else if channels =? 2 then ToVoid size <$> resample_stereo src_rate dest_rate src dest_samples
  else Some (unwritten 0 (dest_samples * size)).

Definition Fallback_Resample (src : buffer) (r : FallbackPcmResampler)
    : option (buffer * FallbackPcmResampler) :=
  let af := fb_format r in
  let run size := l ← pcm_resample_fallback_void size (channels af) (sample_rate af)
                        (contents src) (out_rate r);
                  Some (Some l, r) in
  match format af with
  | UNDEFINED | S8 | DSD => None
  | S16 => run 2%nat
  | FLOAT | S24_P32 | S32 => run 4%nat
  end.

#[global] Instance fallback_resampler : PcmResampler FallbackPcmResampler := {|
  resampler_Open := Fallback_Open;
  resampler_Close := id;
  resampler_Resample := Fallback_Resample;
|}.

End Resample.

Section Convert.
Context `{!Host, !Memory} {R : Type} `{!PcmResampler R}.

(** [class GluePcmResampler] *)
Record GluePcmResampler := mkGlue {
  resampler : R;
  src_sample_format : SampleFormat;
  requested_sample_format : SampleFormat;
  output_sample_format : SampleFormat;
  g_converter : PcmFormatConverter;
}.

Definition set_resampler (r : R) (g : GluePcmResampler) : GluePcmResampler :=
  mkGlue r (src_sample_format g) (requested_sample_format g) (output_sample_format g)
    (g_converter g).

Definition set_g_converter (c : PcmFormatConverter) (g : GluePcmResampler) : GluePcmResampler :=
  mkGlue (resampler g) (src_sample_format g) (requested_sample_format g)
    (output_sample_format g) c.

Definition Glue_Open (src_format : AudioFormat) (new_sample_rate : Z)
    : prog GluePcmResampler unit :=
  (assert_ (IsValid src_format) ;;
   assert_ (audio_valid_sample_rate new_sample_rate) ;;
   formats <- zoom resampler set_resampler (resampler_Open src_format new_sample_rate) ;;
   let '(requested_format, dest_format) := formats in
   assert_ (IsValid dest_format) ;;
   assert_ (channels requested_format =? channels src_format) ;;
   assert_ (channels dest_format =? channels src_format) ;;
   assert_ (sample_rate dest_format =? new_sample_rate) ;;
   (if bool_decide (format requested_format ≠ format src_format) then
      zoom g_converter set_g_converter (Format_Open (format src_format) (format requested_format))
    else ret tt) ;;
   modify (λ g, mkGlue (resampler g) (format src_format) (format requested_format)
                  (format dest_format) (g_converter g)))%prog.

Definition Glue_Close (g : GluePcmResampler) : GluePcmResampler :=
  let g := if bool_decide (requested_sample_format g ≠ src_sample_format g)
           then set_g_converter (Format_Close (g_converter g)) g else g in
  set_resampler (resampler_Close (resampler g)) g.

Definition Glue_Resample (src : buffer) (g : GluePcmResampler)
    : option (buffer * GluePcmResampler) :=
  assert! bool_decide (src ≠ None) ;;
  '(src, g) ←
    (if bool_decide (requested_sample_format g ≠ src_sample_format g) then
       '(src, c) ← Format_Convert src (g_converter g);
       Some (src, set_g_converter c g)
     else Some (src, g));
  '(dest, r) ← resampler_Resample src (resampler g);
  Some (dest, set_resampler r g).

(** [class PcmConvert] *)
Record PcmConvert := mkConvert {
  glue : GluePcmResampler;
  format_converter : PcmFormatConverter;
  channels_converter : PcmChannelsConverter;
  src_format : AudioFormat;
  dest_format : AudioFormat;
  enable_resampler : bool;
  enable_format : bool;
  enable_channels : bool;
}.

Definition set_glue x c := mkConvert x (format_converter c) (channels_converter c)
  (src_format c) (dest_format c) (enable_resampler c) (enable_format c) (enable_channels c).
Definition set_format_converter x c := mkConvert (glue c) x (channels_converter c)
  (src_format c) (dest_format c) (enable_resampler c) (enable_format c) (enable_channels c).
Definition set_channels_converter x c := mkConvert (glue c) (format_converter c) x
  (src_format c) (dest_format c) (enable_resampler c) (enable_format c) (enable_channels c).
Definition set_formats src dest c := mkConvert (glue c) (format_converter c)
  (channels_converter c) src dest (enable_resampler c) (enable_format c) (enable_channels c).
Definition set_enable_resampler x c := mkConvert (glue c) (format_converter c)
  (channels_converter c) (src_format c) (dest_format c) x (enable_format c) (enable_channels c).
Definition set_enable_format x c := mkConvert (glue c) (format_converter c)
  (channels_converter c) (src_format c) (dest_format c) (enable_resampler c) x (enable_channels c).
Definition set_enable_channels x c := mkConvert (glue c) (format_converter c)
  (channels_converter c) (src_format c) (dest_format c) (enable_resampler c) (enable_format c) x.

Definition close_resampler : prog PcmConvert unit := (
  c <- get ;;
  if enable_resampler c then modify (λ c, set_glue (Glue_Close (glue c)) c) else ret tt)%prog.

Definition close_format : prog PcmConvert unit := (
  c <- get ;;
  if enable_format c
  then modify (λ c, set_format_converter (Format_Close (format_converter c)) c)
  else ret tt)%prog.

(** The three stages of [PcmConvert::Open]. *)
Definition open_resampler (fmt dest : AudioFormat) : prog PcmConvert AudioFormat := (
  modify (set_enable_resampler (negb (sample_rate fmt =? sample_rate dest))) ;;
  c <- get ;;
  if enable_resampler c then
    zoom glue set_glue (Glue_Open fmt (sample_rate dest)) ;;
    c <- get ;;
    ret (mkAudioFormat (sample_rate dest) (output_sample_format (glue c)) (channels fmt))
  else ret fmt)%prog.

Definition open_format (fmt dest : AudioFormat) : prog PcmConvert AudioFormat := (
  modify (set_enable_format (bool_decide (format fmt ≠ format dest))) ;;
  c <- get ;;
  (if enable_format c then
     try_catch
       (zoom format_converter set_format_converter (Format_Open (format fmt) (format dest)))
       (λ e, close_resampler ;; throw e)
   else ret tt) ;;
  ret (mkAudioFormat (sample_rate fmt) (format dest) (channels fmt)))%prog.

Definition open_channels (fmt dest : AudioFormat) : prog PcmConvert unit := (
  modify (set_enable_channels (negb (channels fmt =? channels dest))) ;;
  c <- get ;;
  if enable_channels c then
    try_catch
      (zoom channels_converter set_channels_converter
         (Channels_Open (format fmt) (channels fmt) (channels dest)))
      (λ e, close_format ;; close_resampler ;; throw e)
  else ret tt)%prog.

Definition Convert_Open (src dest : AudioFormat) : prog PcmConvert unit := (
  c <- get ;;
  assert_ (negb (IsValid (src_format c))) ;;
  assert_ (negb (IsValid (dest_format c))) ;;
  assert_ (IsValid src) ;;
  assert_ (IsValid dest) ;;
  let fmt := mkAudioFormat (sample_rate src)
               (match format src with DSD => FLOAT | f => f end) (channels src) in
  fmt <- open_resampler fmt dest ;;
  fmt <- open_format fmt dest ;;
  open_channels fmt dest ;;
  modify (set_formats src dest))%prog.

Definition Convert_Close : prog PcmConvert unit := (
  c <- get ;;
  (if enable_channels c
   then modify (λ c, set_channels_converter (Channels_Close (channels_converter c)) c)
   else ret tt) ;;
  close_format ;;
  close_resampler ;;
  modify (set_formats Undefined Undefined))%prog.

(** [PcmDsd::ToFloat]: a floating point filter, given the channel count and the bytes; it
    can fail to allocate its state. *)
Context (dsd_ToFloat : Z → list Z → option (list Z)).

Definition Convert (buf : buffer) : prog PcmConvert buffer := (
  c <- get ;;
  buf <- match format (src_format c) with
         | DSD => match dsd_ToFloat (channels (src_format c)) (contents buf) with
                  | Some d => ret (Some d)
                  | None => throw (RuntimeError (str "DSD to PCM conversion failed"))
                  end
         | _ => ret buf
         end ;;
  buf <- (if enable_resampler c then
            r <- lift (Glue_Resample buf (glue c)) ;;
            modify (set_glue r.2) ;; ret r.1
          else ret buf) ;;
  buf <- (if enable_format c then
            r <- lift (Format_Convert buf (format_converter c)) ;;
            modify (set_format_converter r.2) ;; ret r.1
          else ret buf) ;;
  if enable_channels c then lift (Channels_Convert buf (channels_converter c)) else ret buf)%prog.

End Convert.
Arguments GluePcmResampler : clear implicits.
Arguments PcmConvert : clear implicits.

Definition make_convert {R} (r : R) : PcmConvert R :=
  mkConvert (mkGlue r UNDEFINED UNDEFINED UNDEFINED make_format_converter) make_format_converter
    make_channels_converter Undefined Undefined false false false.

End PcmConvert.
