(* ===== verification/PcmExport.v ===== *)
(** * PCM export

    [pcm/PcmPack.cxx], [pcm/PcmDop.cxx], [Dsd8To32] of [pcm/PcmDsd.cxx], [pcm/Order.cxx],
    [util/ByteReverse.cxx], [pcm/Interleave.cxx] and [pcm/PcmExport.cxx]: the binary
    representations that audio devices ask for.

    A pointer into a buffer is an offset, and an access outside the buffer is [None]. *)

From Stdlib Require Import ZArith Lia ZifyBool.
From stdpp Require Import base numbers sets strings list list_numbers.
From S2P Require Import Prelude AudioFormat Samples Pcm.

Set Default Goal Selector "!".
Local Open Scope Z_scope.

Module PcmExport.
Import AudioFormat Samples Pcm.

(** ** Packed 24 bit samples *)

Section Pack.
Context `{!Host}.

(** [pack_sample]: three of the four bytes of the sample, in the order of the machine. *)
Definition pack_sample (x : Z) : list Z :=
  let src := store_int 4 x in
  take 3 (if IsBigEndian then drop 1 src else src).

Definition pcm_pack_24 (src : list Z) : list Z := src ≫= pack_sample.

(** [unpack_sample]: the sign is taken from the first byte on a big endian machine, from
    the last one otherwise. *)
Definition unpack_sample (src : list Z) : option Z :=
  match src with
  | [a; b; c] =>
      let sign x := if Z.testbit x 7 then 255 else 0 in
      Some (load_signed (if IsBigEndian then [sign a; a; b; c] else [a; b; c; sign c]))
  | _ => None
  end.

(** The source has a multiple of three bytes. *)
Definition pcm_unpack_24 (src : list Z) : option (list Z) :=
  mapM unpack_sample (split_blocks 3 src).

End Pack.

(** ** DSD *)

Definition pcm_two_dsd_to_dop_marker1 (a b : Z) : Z :=
  Z.lor (Z.lor 0xff050000 (Z.shiftl a 8)) b.
Definition pcm_two_dsd_to_dop_marker2 (a b : Z) : Z :=
  Z.lor (Z.lor 0xfffa0000 (Z.shiftl a 8)) b.

(** One run of the inner loop: a DoP frame from the two DSD frames at [src]. *)
Definition dop_frame (marker : Z → Z → Z) (channels src : nat) (data : list Z)
    : option (list Z) :=
  mapM (λ c, a ← data !! (src + c)%nat;
             b ← data !! (src + c + channels)%nat;
             Some (marker a b))
    (seq 0 channels).

(** The outer loop: [n] rounds of two frames. *)
Fixpoint dop_rounds (n channels src : nat) (data : list Z) : option (list Z) :=
  match n with
  | O => Some []
  | S n =>
      a ← dop_frame pcm_two_dsd_to_dop_marker1 channels src data;
      b ← dop_frame pcm_two_dsd_to_dop_marker2 channels (src + 2 * channels) data;
      l ← dop_rounds n channels (src + 4 * channels) data;
      Some (a ++ b ++ l)
  end.

Section Dsd.
Context `{!Host, !Memory}.

(** [pcm_dsd_to_dop]: the bytes of the result. *)
Definition pcm_dsd_to_dop (channels : Z) (src : list Z) : option (list Z) :=
  assert! audio_valid_channel_count channels ;;
  assert! (0 <? length src)%nat ;;
  assert! (Z.of_nat (length src) mod channels =? 0) ;;
  let num_src_samples := Samples.to_unsigned 32 (Z.of_nat (length src)) in
  let num_src_frames := num_src_samples / channels in
  let num_frames := num_src_frames / 2 in
  let num_samples := Samples.to_unsigned 32 (num_frames * channels) in
  dest ← dop_rounds (Z.to_nat (num_frames / 2)) (Z.to_nat channels) 0 src;
  let size := Z.to_nat (num_samples * 4) in
  let dest := ToVoid 4 dest in
  Some (take size dest ++ unwritten (length dest) (size - length dest)).

Definition Construct32 (a b c d : Z) : Z :=
  Z.lor (Z.lor (Z.lor a (Z.shiftl b 8)) (Z.shiftl c 16)) (Z.shiftl d 24).

Definition Dsd8To32Sample (src : nat) (channels : nat) (data : list Z) : option Z :=
  a ← data !! src;
  b ← data !! (src + channels)%nat;
  c ← data !! (src + 2 * channels)%nat;
  d ← data !! (src + 3 * channels)%nat;
  Some (Construct32 a b c d).

Fixpoint dsd32_rounds (n channels src : nat) (data : list Z) : option (list Z) :=
  match n with
  | O => Some []
  | S n =>
      a ← mapM (λ c, Dsd8To32Sample (src + c) channels data) (seq 0 channels);
      l ← dsd32_rounds n channels (src + 4 * channels) data;
      Some (a ++ l)
  end.

Definition Dsd8To32 (channels : nat) (src : list Z) : option (list Z) :=
  let in_frames := (length src / channels)%nat in
  let out_frames := (in_frames / 4)%nat in
  ToVoid 4 <$> dsd32_rounds out_frames channels 0 src.

End Dsd.

(** ** Channel order *)

(** [TwoPointers]: the samples written so far, and the offset of [src]. *)
Definition TwoPointers : Type := list Z * nat.

Section Order.
Context (data : list Z).

Definition CopyOne (p : TwoPointers) : option TwoPointers :=
  let '(dest, src) := p in
  x ← data !! src;
  Some (dest ++ [x], S src).

Definition CopyTwo (p : TwoPointers) : option TwoPointers :=
  p ← CopyOne p; CopyOne p.

Definition SwapTwoPairs (p : TwoPointers) : option TwoPointers :=
  let '(dest, src) := p in
  a ← data !! (src + 2)%nat;
  b ← data !! (src + 3)%nat;
  c ← data !! src;
  d ← data !! (src + 1)%nat;
  Some (dest ++ [a; b; c; d], (src + 4)%nat).

Definition ToAlsa51 (p : TwoPointers) : option TwoPointers :=
  p ← CopyTwo p; SwapTwoPairs p.

Definition ToAlsa71 (p : TwoPointers) : option TwoPointers :=
  p ← ToAlsa51 p; CopyTwo p.

Fixpoint order_loop (n : nat) (step : TwoPointers → option TwoPointers) (p : TwoPointers)
    : option TwoPointers :=
  match n with
  | O => Some p
  | S n => p ← step p; order_loop n step p
  end.

End Order.

Section Export.
Context `{!Host, !Memory}.

(** The result of a loop that has written [dest], in a buffer of the size of [src]. *)
Definition order_result (size : nat) (src dest : list Z) : list Z :=
  let dest := ToVoid size dest in
  let n := (length src * size)%nat in
  dest ++ unwritten (length dest) (n - length dest).

(** Both functions divide the number of samples by six. *)
Definition ToAlsaChannelOrder51 (size : nat) (src : list Z) : option (list Z) :=
  '(dest, _) ← order_loop (length src / 6) (ToAlsa51 src) ([], 0%nat);
  Some (order_result size src dest).

Definition ToAlsaChannelOrder71 (size : nat) (src : list Z) : option (list Z) :=
  '(dest, _) ← order_loop (length src / 6) (ToAlsa71 src) ([], 0%nat);
  Some (order_result size src dest).

Definition ToAlsaChannelOrderT (size : nat) (data : list Z) (channels : Z) : option (list Z) :=
  src ← FromVoid size data;
  if channels =? 6 then ToAlsaChannelOrder51 size src
  else if channels =? 8 then ToAlsaChannelOrder71 size src
  else Some data.

Definition ToAlsaChannelOrder (data : list Z) (f : SampleFormat) (channels : Z)
    : option (list Z) :=
  match f with
  | UNDEFINED | S8 | DSD => Some data
  | S16 => ToAlsaChannelOrderT 2 data channels
  | S24_P32 | S32 | FLOAT => ToAlsaChannelOrderT 4 data channels
  end.

(** ** Byte order *)

(** [ByteSwap16], [ByteSwap32] and [ByteSwap64] on the bytes of the number. *)
Definition ByteSwap (size : nat) (x : Z) : Z :=
  little_endian_to_Z 8 (reverse (Z_to_little_endian (Z.of_nat size) 8 x)).

(** [reverse_bytes_16], [reverse_bytes_32] and [reverse_bytes_64] *)
Definition reverse_bytes_sized (size : nat) (src : list Z) : list Z :=
  split_blocks size src ≫= λ b, store_int size (ByteSwap size (load_unsigned b)).

(** [reverse_bytes_linear]: from the last byte to the first. *)
Fixpoint reverse_bytes_linear (n : nat) (src : list Z) : option (list Z) :=
  match n with
  | O => Some []
  | S n => x ← src !! n; l ← reverse_bytes_linear n src; Some (x :: l)
  end.

Definition reverse_bytes_generic (src : list Z) (frame_size : nat) : option (list Z) :=
  assert! (0 <? frame_size)%nat ;;
  assert! (length src mod frame_size =? 0)%nat ;;
  l ← mapM (reverse_bytes_linear frame_size) (split_blocks frame_size src);
  Some (concat l).

Definition reverse_bytes (src : list Z) (frame_size : nat) : option (list Z) :=
  assert! (0 <? frame_size)%nat ;;
  assert! (length src mod frame_size =? 0)%nat ;;
  match frame_size with
  | 2%nat => Some (reverse_bytes_sized 2 src)
  | 4%nat => Some (reverse_bytes_sized 4 src)
  | 8%nat => Some (reverse_bytes_sized 8 src)
  | _ => reverse_bytes_generic src frame_size
  end.

(** ** [PcmExport] *)

Record Params := mkParams {
  p_alsa_channel_order : bool;
  p_dsd_u32 : bool;
  p_dop : bool;
  p_shift8 : bool;
  p_pack24 : bool;
  p_reverse_endian : bool;
}.

Record PcmExport := mkExport {
  channels : Z;
  alsa_channel_order : SampleFormat;
  dsd_u32 : bool;
  dop : bool;
  shift8 : bool;
  pack24 : bool;
  reverse_endian : Z;
}.

Definition is_dsd (f : SampleFormat) : bool := match f with DSD => true | _ => false end.
Definition is_24 (f : SampleFormat) : bool := match f with S24_P32 => true | _ => false end.

Definition Open (f : SampleFormat) (_channels : Z) (params : Params) : option PcmExport :=
  assert! audio_valid_sample_format f ;;
  let order := if p_alsa_channel_order params then f else UNDEFINED in
  assert! negb (p_dsd_u32 params) || negb (p_dop params) ;;
  assert! negb (p_dop params) || audio_valid_channel_count _channels ;;
  let dsd_u32 := p_dsd_u32 params && is_dsd f in
  let f := if dsd_u32 then S32 else f in
  let dop := p_dop params && is_dsd f in
  let f := if dop then S24_P32 else f in
  let shift8 := p_shift8 params && is_24 f in
  let pack24 := p_pack24 params && is_24 f in
  assert! negb shift8 || negb pack24 ;;
  let sample_size := if pack24 then 3 else sample_format_size f in
  let reverse_endian :=
    if p_reverse_endian params && (sample_size >? 1) then sample_size else 0 in
  Some (mkExport (Samples.to_unsigned 8 _channels) order dsd_u32 dop shift8 pack24 reverse_endian).

Definition GetFrameSize (e : PcmExport) (af : AudioFormat) : Z :=
  if pack24 e then AudioFormat.channels af * 3
  else if dsd_u32 e then channels e * 4
  else if dop e then channels e * 4
  else AudioFormat.GetFrameSize af.

Definition Export (e : PcmExport) (data : list Z) : option (list Z) :=
  data ← match alsa_channel_order e with
         | UNDEFINED => Some data
         | f => ToAlsaChannelOrder data f (channels e)
         end;
  data ← (if dsd_u32 e then Dsd8To32 (Z.to_nat (channels e)) data else Some data);
  data ← (if dop e then pcm_dsd_to_dop (channels e) data else Some data);
  data ← (if pack24 e then
            src ← FromVoid 4 data;
            Some (pcm_pack_24 src)
          else if shift8 e then
            src ← FromVoid 4 data;
            Some (ToVoid 4 ((λ i, Z.shiftl i 8) <$> src))
          else Some data);
  if reverse_endian e >? 0 then
    assert! (reverse_endian e >=? 2) ;;
    reverse_bytes data (Z.to_nat (reverse_endian e))
  else Some data.

Definition CalcSourceSize (e : PcmExport) (size : nat) : nat :=
  let size := if pack24 e then (size / 3 * 4)%nat else size in
  if dop e then (size / 2)%nat else size.

End Export.

(** ** Interleaving *)

(** A [dest] array of samples, written at increasing or scattered offsets. *)
Section Interleave.
Context {A : Type}.

(** [GenericPcmInterleave]: samples of [sample_size] bytes, frame by frame. *)
Definition GenericPcmInterleave (src : list (list A)) (n_frames sample_size : nat)
    : option (list A) :=
  l ← mapM (λ frame,
        m ← mapM (λ s, let b := take sample_size (drop (frame * sample_size) s) in
                       assert! (length b =? sample_size)%nat ;; Some b) src;
        Some (concat m))
      (seq 0 n_frames);
  Some (concat l).

(** [PcmInterleaveStereo] *)
Fixpoint PcmInterleaveStereo (src1 src2 : list A) (n_frames : nat) {struct n_frames}
    : option (list A) :=
  match n_frames, src1, src2 with
  | O, _, _ => Some []
  | S n, x :: src1, y :: src2 => l ← PcmInterleaveStereo src1 src2 n; Some (x :: y :: l)
  | S _, _, _ => None
  end.

(** The inner loop of [PcmInterleaveT]: [n] samples of [s] are written to [d], [d + step],
    ... *)
Fixpoint scatter (dest : list A) (d step : nat) (s : list A) (n : nat) {struct n}
    : option (list A) :=
  match n with
  | O => Some dest
  | S n =>
      match s with
      | [] => None
      | x :: s => dest ← store d x dest; scatter dest (d + step) step s n
      end
  end.

(** The outer loop, from the channel [d]. *)
Fixpoint interleave_channels (dest : list A) (d step : nat) (src : list (list A))
    (n_frames : nat) : option (list A) :=
  match src with
  | [] => Some dest
  | s :: src =>
      dest ← scatter dest d step s n_frames;
      interleave_channels dest (S d) step src n_frames
  end.

(** [PcmInterleaveT], which overwrites [dest]. *)
Definition PcmInterleaveT (dest : list A) (src : list (list A)) (n_frames : nat)
    : option (list A) :=
  match src with
  | [src0; src1] =>
      l ← PcmInterleaveStereo src0 src1 n_frames;
      assert! (length l <=? length dest)%nat ;;
      Some (l ++ drop (length l) dest)
  | _ => interleave_channels dest 0 (length src) src n_frames
  end.

End Interleave.

(** [PcmInterleave], on bytes; the arrays of [src] hold samples of [sample_size] bytes. *)
Definition PcmInterleave `{!Host} (dest : list Z) (src : list (list Z))
    (n_frames sample_size : nat) : option (list Z) :=
  let typed size :=
    src ← mapM (FromVoid size) src;
    dest ← FromVoid size dest;
    r ← PcmInterleaveT dest src n_frames;
    Some (ToVoid size r) in
  match sample_size with
  | 2%nat => typed 2%nat
  | 4%nat => typed 4%nat
  | _ =>
      l ← GenericPcmInterleave src n_frames sample_size;
      assert! (length l <=? length dest)%nat ;;
      Some (l ++ drop (length l) dest)
  end.

End PcmExport.
