(* ===== verification/PcmExportProps.v ===== *)
(** * Packing, byte order and interleaving *)

From Stdlib Require Import ZArith Lia ZifyBool.
From stdpp Require Import base numbers sets strings list list_numbers.
From S2P Require Import Prelude AudioFormat Samples Pcm PcmFacts PcmExport.

Set Default Goal Selector "!".
Local Open Scope Z_scope.

Module PcmExportFacts.
Import AudioFormat Samples Pcm PcmFacts BufferFacts PcmExport.

(** A loop whose body always succeeds. *)
Lemma mapM_total {A B} (f : A → option B) (g : A → B) l :
  (∀ x, x ∈ l → f x = Some (g x)) → mapM f l = Some (g <$> l).
Proof.
  intros H. apply mapM_Some_2. induction l as [|x l IH]; [constructor|].
  rewrite fmap_cons. constructor; [apply H; by left|]. apply IH. intros y Hy. apply H. by right.
Qed.

(** ** Packing *)

Section Pack.
Context `{!Host}.

Lemma lor_byte b x : is_byte b → Z.lor b (x ≪ 8) = b + 256 * x.
Proof.
  intros Hb. rewrite <-Z.add_nocarry_lor.
  - rewrite Z.shiftl_mul_pow2 by lia. change (2 ^ 8) with 256. lia.
  - apply Z.bits_inj'. intros n Hn. rewrite Z.land_spec, Z.bits_0.
    destruct (decide (n < 8)).
    + by rewrite (Z.shiftl_spec_low _ _ n), andb_false_r by lia.
    + rewrite <-(Z.mod_small b (2 ^ 8)) by apply Hb. by rewrite Z.mod_pow2_bits_high by lia.
Qed.

Lemma pack_sample_store x : pack_sample x = store_int 3 x.
Proof.
  unfold pack_sample, store_int, host_order.
  assert (E : Z_to_little_endian 3 8 x = take 3 (Z_to_little_endian 4 8 x)) by done.
  change (Z.of_nat 3) with 3. change (Z.of_nat 4) with 4. rewrite E. by destruct IsBigEndian.
Qed.

(** The sign extension of the fourth byte. *)
Lemma sign_extend a b c : is_byte a → is_byte b → is_byte c →
  to_signed 32 (a + 256 * (b + 256 * (c + 256 * (if Z.testbit c 7 then 255 else 0)))) =
  to_signed 24 (a + 256 * (b + 256 * c)).
Proof.
  unfold is_byte. change (2 ^ 8) with 256. intros Ha Hb Hc.
  assert (Hbit : Z.testbit c 7 = (128 <=? c)).
  { rewrite Z.testbit_odd, Z.shiftr_div_pow2 by lia. change (2 ^ 7) with 128.
    destruct (Z.leb_spec 128 c).
    - rewrite <-(Z.div_unique_pos c 128 1 (c - 128)) by lia. done.
    - rewrite Z.div_small by lia. done. }
  rewrite Hbit. unfold to_signed.
  change (2 ^ (32 - 1)) with 2147483648. change (2 ^ 32) with 4294967296.
  change (2 ^ (24 - 1)) with 8388608. change (2 ^ 24) with 16777216.
  destruct (Z.leb_spec 128 c).
  - rewrite <-(Z.mod_unique_pos (a + 256 * (b + 256 * (c + 256 * 255)) + 2147483648) 4294967296 1
      (a + 256 * (b + 256 * (c + 256 * 255)) + 2147483648 - 4294967296)) by lia.
    rewrite <-(Z.mod_unique_pos (a + 256 * (b + 256 * c) + 8388608) 16777216 1
      (a + 256 * (b + 256 * c) + 8388608 - 16777216)) by lia. lia.
  - rewrite !Z.mod_small by lia. lia.
Qed.

Lemma unpack_sample_load b : length b = 3%nat → Forall is_byte b →
  unpack_sample b = Some (load_signed b).
Proof.
  destruct b as [|a [|b [|c [|]]]]; simpl; try done. intros _ Hb.
  apply Forall_cons_1 in Hb as [Ha Hb]. apply Forall_cons_1 in Hb as [Hb Hc].
  apply Forall_cons_1 in Hc as [Hc _]. f_equal.
  assert (Hs : ∀ x, is_byte (if Z.testbit x 7 then 255 else 0)).
  { intros x. destruct (Z.testbit x 7); cbv; split; congruence. }
  unfold load_signed, load_unsigned, host_order. destruct IsBigEndian; cbn [length reverse app rev_append].
  all: cbn [little_endian_to_Z rev_append reverse]; rewrite !lor_byte by (done || apply Hs);
    rewrite ?Z.mul_0_r, ?Z.add_0_r.
  - by apply sign_extend.
  - by apply sign_extend.
Qed.

(** Unpacking undoes packing for 24 bit samples. *)
Lemma unpack_pack l : Forall (is_sample traits_S24_P32) l → pcm_unpack_24 (pcm_pack_24 l) = Some l.
Proof.
  intros Hl. unfold pcm_unpack_24, pcm_pack_24.
  assert (E : l ≫= pack_sample = concat (store_int 3 <$> l)).
  { clear. induction l; [done|]. rewrite bind_cons, pack_sample_store, IHl. done. }
  rewrite E, split_blocks_concat by (lia || apply store_lengths).
  rewrite (mapM_total _ load_signed).
  - f_equal. rewrite <-list_fmap_compose. rewrite <-(list_fmap_id l) at 2.
    apply list_fmap_ext. intros i x Hx. simpl. rewrite load_signed_store by lia.
    rewrite Forall_lookup in Hl. specialize (Hl i x Hx). unfold is_sample, MIN, MAX in Hl.
    rewrite Z.shiftl_1_l in Hl. apply to_signed_id; [lia|].
    change (8 * Z.of_nat 3 - 1) with (BITS traits_S24_P32 - 1). lia.
  - intros b Hb. apply list_elem_of_fmap in Hb as (x & -> & _).
    apply unpack_sample_load; [apply length_store|apply store_bytes].
Qed.

End Pack.

(** ** Byte order *)

Section Reverse.
Context `{!Host}.

Lemma reverse_linear n src : (n ≤ length src)%nat →
  reverse_bytes_linear n src = Some (reverse (take n src)).
Proof.
  induction n as [|n IH]; intros Hn; [done|]. simpl.
  destruct (lookup_lt_is_Some_2 src n) as [x Hx]; [lia|]. rewrite Hx, IH by lia. simpl.
  by rewrite (take_S_r _ _ x) by done; rewrite reverse_snoc.
Qed.

Lemma reverse_block b : Forall is_byte b →
  store_int (length b) (ByteSwap (length b) (load_unsigned b)) = reverse b.
Proof.
  intros Hb. unfold store_int, ByteSwap, load_unsigned.
  rewrite (Z_to_little_endian_to_Z _ 8 (host_order b)); [|by rewrite length_host_order|lia|].
  2:{ by apply host_order_bytes. }
  rewrite Z_to_little_endian_to_Z.
  - unfold host_order. destruct IsBigEndian; [by rewrite reverse_involutive|done].
  - by rewrite length_reverse, length_host_order.
  - lia.
  - apply Forall_reverse. by apply host_order_bytes.
Qed.

(** All the variants of [reverse_bytes] do the same. *)
Lemma reverse_bytes_spec src n :
  (0 < n)%nat → (length src mod n = 0)%nat → Forall is_byte src →
  reverse_bytes src n = Some (concat (reverse <$> split_blocks n src)).
Proof.
  intros Hn Hm Hs. destruct (split_blocks_spec n src Hn Hm) as (Hc & Hb & _).
  assert (Hbytes : Forall (Forall is_byte) (split_blocks n src)).
  { apply Forall_concat. by rewrite Hc. }
  assert (Hsized : reverse_bytes_sized n src = concat (reverse <$> split_blocks n src)).
  { unfold reverse_bytes_sized. clear Hc. induction Hb as [|b l Hb Hl IH]; [done|].
    apply Forall_cons_1 in Hbytes as [Hb' Hl']. rewrite bind_cons, IH by done.
    rewrite fmap_cons. simpl. rewrite <-(reverse_block b Hb'). by rewrite Hb. }
  assert (Hgen : reverse_bytes_generic src n = Some (concat (reverse <$> split_blocks n src))).
  { unfold reverse_bytes_generic. rewrite Hm, (proj2 (Nat.ltb_lt _ _)) by done. simpl.
    rewrite (mapM_total _ reverse); [done|]. intros b Hin. rewrite Forall_forall in Hb.
    specialize (Hb b Hin). rewrite reverse_linear by lia. by rewrite <-Hb, firstn_all. }
  unfold reverse_bytes. rewrite Hm, (proj2 (Nat.ltb_lt _ _)) by done. simpl.
  by repeat case_match; subst; rewrite ?Hsized.
Qed.

Lemma reverse_bytes_involutive src n :
  (0 < n)%nat → (length src mod n = 0)%nat → Forall is_byte src →
  ∃ r, reverse_bytes src n = Some r ∧ length r = length src ∧ reverse_bytes r n = Some src.
Proof.
  intros Hn Hm Hs. destruct (split_blocks_spec n src Hn Hm) as (Hc & Hb & Hl).
  rewrite reverse_bytes_spec by done. eexists. split; [done|].
  assert (Hb' : Forall (λ b, length b = n) (reverse <$> split_blocks n src)).
  { apply Forall_fmap. eapply Forall_impl; [exact Hb|]. intros b E. simpl. by rewrite length_reverse. }
  assert (Hlen : length (concat (reverse <$> split_blocks n src)) = length src).
  { rewrite (length_concat_blocks n) by done. rewrite length_fmap, <-(length_concat_blocks n), Hc; done. }
  split; [done|]. rewrite reverse_bytes_spec; [|done|by rewrite Hlen|].
  - rewrite split_blocks_concat by done. rewrite <-list_fmap_compose.
    f_equal. rewrite <-Hc at 2. f_equal. rewrite <-(list_fmap_id (split_blocks n src)) at 2.
    apply list_fmap_ext. intros i b _. simpl. apply reverse_involutive.
  - apply Forall_concat, Forall_fmap. rewrite <-Hc in Hs. apply Forall_concat in Hs.
    eapply Forall_impl; [exact Hs|]. intros b Hb0. simpl. by apply Forall_reverse.
Qed.

End Reverse.

(** ** Interleaving *)

Section Interleave.
Context {A : Type}.
Local Open Scope nat_scope.
Implicit Types (dest s : list A) (src : list (list A)).

Lemma scatter_ok dest d step s n :
  0 < step → n ≤ length s → (n = 0 ∨ d + (n - 1) * step < length dest) →
  ∃ r, scatter dest d step s n = Some r ∧ length r = length dest ∧
    (∀ i, i < n → r !! (d + i * step) = s !! i) ∧
    (∀ j, (∀ i, i < n → j ≠ d + i * step) → r !! j = dest !! j).
Proof.
  intros Hstep. revert dest d s. induction n as [|n IH]; intros dest d s Hs Hd.
  { exists dest. split_and!; [done|done|intros i Hi; lia|done]. }
  destruct s as [|x s]; simpl in Hs; [lia|]. simpl.
  rewrite store_Some by nia. simpl.
  destruct (IH (<[d:=x]> dest) (d + step) s) as (r & -> & Hlen & Hin & Hout).
  - lia.
  - rewrite length_insert. destruct n; [by left|right]. nia.
  - exists r. rewrite length_insert in Hlen. split_and!; [done|done| |].
    + intros [|i] Hi; simpl.
      * rewrite Nat.add_0_r, Hout by (intros i _; nia). apply list_lookup_insert_eq. nia.
      * rewrite <-Hin by lia. f_equal. lia.
    + intros j Hj. rewrite Hout.
      * apply list_lookup_insert_ne. specialize (Hj 0). lia.
      * intros i Hi. specialize (Hj (S i)). nia.
Qed.

Lemma interleave_channels_ok dest d step src n :
  d + length src ≤ step → 0 < step → length dest = n * step →
  Forall (λ s, n ≤ length s) src →
  ∃ r, interleave_channels dest d step src n = Some r ∧ length r = length dest ∧
    (∀ i c s, i < n → src !! c = Some s → r !! (i * step + (d + c)) = s !! i) ∧
    (∀ i c, i < n → c < d → r !! (i * step + c) = dest !! (i * step + c)).
Proof.
  intros Hd Hstep Hlen Hsrc. revert dest d Hd Hlen.
  induction Hsrc as [|s src Hs Hsrc IH]; intros dest d Hd Hlen; simpl in *.
  { exists dest. split_and!; done. }
  destruct (scatter_ok dest d step s n) as (r1 & -> & Hlen1 & Hin1 & Hout1); [done|done|nia|].
  simpl. destruct (IH r1 (S d)) as (r & -> & Hlen2 & Hin2 & Hout2); [lia|lia|].
  exists r. split_and!; [done|lia| |].
  - intros i [|c] t Hi Ht; simplify_eq/=.
    + rewrite Nat.add_0_r, Hout2 by lia. rewrite <-Hin1 by done. f_equal. lia.
    + rewrite <-(Hin2 i c t) by done. f_equal. lia.
  - intros i c Hi Hc. rewrite Hout2 by lia. apply Hout1. intros k Hk E.
    destruct (Nat.lt_trichotomy i k) as [H|[->|H]]; nia.
Qed.

Lemma stereo_ok (src1 src2 : list A) n : n ≤ length src1 → n ≤ length src2 →
  ∃ r, PcmInterleaveStereo src1 src2 n = Some r ∧ length r = n * 2 ∧
    (∀ i, i < n → r !! (i * 2) = src1 !! i ∧ r !! (i * 2 + 1) = src2 !! i).
Proof.
  revert src1 src2. induction n as [|n IH]; intros src1 src2 H1 H2.
  { exists []. split_and!; [done|done|intros i Hi; lia]. }
  destruct src1 as [|x src1], src2 as [|y src2]; simpl in *; try lia.
  destruct (IH src1 src2) as (r & -> & Hlen & Hr); [lia|lia|]. simpl.
  exists (x :: y :: r). split_and!; [done|simpl; lia|].
  intros [|i] Hi; simpl; [done|]. apply Hr. lia.
Qed.

(** Frame [i], channel [c] of the result is sample [i] of channel [c]. *)
Lemma PcmInterleaveT_ok dest src n :
  0 < length src → length dest = n * length src → Forall (λ s, n ≤ length s) src →
  ∃ r, PcmInterleaveT dest src n = Some r ∧ length r = length dest ∧
    (∀ i c s, i < n → src !! c = Some s → r !! (i * length src + c) = s !! i).
Proof.
  intros Hch Hlen Hsrc.
  destruct (interleave_channels_ok dest 0 (length src) src n) as (r & E & Hl & Hr & _);
    [done..|].
  destruct src as [|s0 [|s1 [|s2 src]]]; try (exists r; split_and!; done).
  apply Forall_cons_1 in Hsrc as [H0 Hsrc]. apply Forall_cons_1 in Hsrc as [H1 _].
  destruct (stereo_ok s0 s1 n H0 H1) as (r' & E' & Hl' & Hr'). simpl in *. rewrite E'. simpl.
  rewrite check_bind by (apply Nat.leb_le; lia). rewrite drop_ge, app_nil_r by lia.
  exists r'. split_and!; [done|lia|]. intros i [|[|c]] s Hi Hs; simplify_eq/=.
  - rewrite Nat.add_0_r. by apply Hr'.
  - by apply Hr'.
Qed.

Lemma GenericPcmInterleave_ok src n size :
  Forall (λ s, n * size ≤ length s) src →
  ∃ r, GenericPcmInterleave src n size = Some r ∧ length r = n * length src * size ∧
    (∀ i c s b, i < n → src !! c = Some s → b < size →
       r !! ((i * length src + c) * size + b) = s !! (i * size + b)).
Proof.
  intros Hsrc. set (block i s := take size (drop (i * size) s) : list A).
  assert (Hblock : ∀ i s, s ∈ src → i < n → length (block i s) = size).
  { intros i s Hs Hi. rewrite Forall_forall in Hsrc. specialize (Hsrc s Hs).
    unfold block. rewrite length_take, length_drop. nia. }
  set (frame i := concat (block i <$> src)).
  assert (Hframe : ∀ i, i < n → Forall (λ b, length b = size) (block i <$> src)).
  { intros i Hi. apply Forall_fmap, Forall_forall. intros s Hs. by apply Hblock. }
  assert (Hflen : Forall (λ f, length f = length src * size) (frame <$> seq 0 n)).
  { apply Forall_fmap, Forall_forall. intros i [_ Hi]%elem_of_seq. simpl. unfold frame.
    rewrite (length_concat_blocks size) by (apply Hframe; lia). by rewrite length_fmap. }
  exists (concat (frame <$> seq 0 n)). split_and!.
  - unfold GenericPcmInterleave. rewrite (mapM_total _ frame); [done|].
    intros i [_ Hi]%elem_of_seq. rewrite (mapM_total _ (block i)); [done|].
    intros s Hs. fold (block i s). rewrite check_bind; [done|]. apply Nat.eqb_eq, Hblock; [done|lia].
  - rewrite (length_concat_blocks (length src * size)) by done.
    rewrite length_fmap, length_seq. lia.
  - intros i c s b Hi Hc Hb. assert (c < length src) by (by eapply lookup_lt_Some).
    replace ((i * length src + c) * size + b) with (i * (length src * size) + (c * size + b)) by lia.
    rewrite (lookup_concat _ _ _ _ (frame i)); [|done| |nia].
    2:{ rewrite list_lookup_fmap, lookup_seq_lt by lia. done. }
    unfold frame. rewrite (lookup_concat size _ _ _ (block i s)); [|by apply Hframe| |done].
    2:{ by rewrite list_lookup_fmap, Hc. }
    unfold block. by rewrite lookup_take_lt, lookup_drop by done.
Qed.

End Interleave.

(** ** Channel order *)

(** The frames of the result of [ToAlsaChannelOrder51]. *)
Definition alsa51 (frame : list Z) : list Z :=
  match frame with
  | [l; r; c; lfe; sl; sr] => [l; r; sl; sr; c; lfe]
  | _ => frame
  end.

Lemma ToAlsa51_frame pre a b c d e f post dest :
  ToAlsa51 (pre ++ [a; b; c; d; e; f] ++ post) (dest, length pre) =
  Some (dest ++ [a; b; e; f; c; d], length (pre ++ [a; b; c; d; e; f])).
Proof.
  assert (H : ∀ k x, [a; b; c; d; e; f] !! k = Some x →
    (pre ++ [a; b; c; d; e; f] ++ post) !! (length pre + k)%nat = Some x).
  { intros k x Hk. rewrite lookup_app_r by lia. rewrite Nat.add_comm, Nat.add_sub.
    by apply lookup_app_l_Some. }
  rewrite length_app. revert H. generalize (pre ++ [a; b; c; d; e; f] ++ post) as data.
  generalize (length pre) as p. intros p data H.
  pose proof (H 0%nat a eq_refl) as H0. pose proof (H 1%nat b eq_refl) as H1.
  pose proof (H 2%nat c eq_refl) as H2. pose proof (H 3%nat d eq_refl) as H3.
  pose proof (H 4%nat e eq_refl) as H4. pose proof (H 5%nat f eq_refl) as H5. clear H.
  rewrite !(Nat.add_comm p) in *. unfold ToAlsa51, CopyTwo, CopyOne, SwapTwoPairs. simpl in *.
  rewrite H0. simpl. rewrite H1. simpl. rewrite !(Nat.add_comm p). simpl.
  rewrite H4. simpl. rewrite H5. simpl. rewrite H2. simpl. rewrite H3. simpl.
  by rewrite <-!app_assoc.
Qed.

Lemma order51_loop pre bs dest :
  Forall (λ b, length b = 6%nat) bs →
  order_loop (length bs) (ToAlsa51 (pre ++ concat bs)) (dest, length pre) =
  Some (dest ++ concat (alsa51 <$> bs), length (pre ++ concat bs)).
Proof.
  intros Hbs. revert pre dest. induction Hbs as [|b bs Hb Hbs IH]; intros pre dest.
  { simpl. by rewrite !app_nil_r. }
  destruct b as [|b0 [|b1 [|b2 [|b3 [|b4 [|b5 [|]]]]]]]; try done.
  cbn [length order_loop concat]. rewrite ToAlsa51_frame. cbn [mbind option_bind].
  rewrite app_assoc, IH. rewrite fmap_cons. cbn [concat alsa51]. by rewrite <-!app_assoc.
Qed.

Lemma concat_alsa51 bs :
  Forall (λ b, length b = 6%nat) bs → length (concat (alsa51 <$> bs)) = length (concat bs).
Proof.
  induction 1 as [|b bs Hb Hbs IH]; [done|]. rewrite fmap_cons. cbn [concat].
  rewrite !length_app, IH. f_equal.
  by destruct b as [|b0 [|b1 [|b2 [|b3 [|b4 [|b5 [|]]]]]]].
Qed.

Section Stages.
Context `{!Host, !Memory}.

(** 5.1: centre and LFE change places with the surround channels in every frame. *)
Lemma order51_spec size src : (length src mod 6 = 0)%nat →
  ToAlsaChannelOrder51 size src = Some (ToVoid size (concat (alsa51 <$> split_blocks 6 src))).
Proof.
  intros Hm. destruct (split_blocks_spec 6 src) as (Hc & Hb & Hn); [lia|done|].
  unfold ToAlsaChannelOrder51. rewrite <-Hn.
  pose proof (order51_loop [] (split_blocks 6 src) [] Hb) as E. simpl in E. rewrite Hc in E.
  rewrite E. simpl. unfold order_result. rewrite length_ToVoid, concat_alsa51, Hc by done.
  rewrite Nat.sub_diag. by rewrite app_nil_r.
Qed.

Lemma dop_frame_ok marker channels src data :
  (src + 2 * channels ≤ length data)%nat →
  ∃ l, dop_frame marker channels src data = Some l ∧ length l = channels.
Proof.
  intros Hlen. unfold dop_frame.
  rewrite (mapM_total _ (λ c, marker (data !!! (src + c)%nat) (data !!! (src + c + channels)%nat))).
  - eexists. split; [done|]. by rewrite length_fmap, length_seq.
  - intros c [_ Hc]%elem_of_seq.
    rewrite !(list_lookup_lookup_total_lt data) by lia. done.
Qed.

Lemma dop_rounds_ok n channels src data :
  (src + n * (4 * channels) ≤ length data)%nat →
  ∃ l, dop_rounds n channels src data = Some l ∧ length l = (n * (2 * channels))%nat.
Proof.
  revert src. induction n as [|n IH]; intros src Hlen; [by exists []|]. cbn [dop_rounds].
  destruct (dop_frame_ok pcm_two_dsd_to_dop_marker1 channels src data) as (a & -> & Ha); [lia|].
  destruct (dop_frame_ok pcm_two_dsd_to_dop_marker2 channels (src + 2 * channels) data)
    as (b & -> & Hb); [lia|].
  destruct (IH (src + 4 * channels)%nat) as (l & -> & Hl); [lia|]. simpl.
  eexists. split; [done|]. rewrite !length_app. lia.
Qed.

Lemma dsd32_rounds_ok n channels src data :
  (src + n * (4 * channels) ≤ length data)%nat →
  ∃ l, dsd32_rounds n channels src data = Some l ∧ length l = (n * channels)%nat.
Proof.
  revert src. induction n as [|n IH]; intros src Hlen; [by exists []|]. cbn [dsd32_rounds].
  rewrite (mapM_total _ (λ c, Construct32 (data !!! (src + c)%nat) (data !!! (src + c + channels)%nat)
    (data !!! (src + c + 2 * channels)%nat) (data !!! (src + c + 3 * channels)%nat))).
  - destruct (IH (src + 4 * channels)%nat) as (l & -> & Hl); [lia|]. simpl.
    eexists. split; [done|]. rewrite length_app, length_fmap, length_seq. lia.
  - intros c [_ Hc]%elem_of_seq. unfold Dsd8To32Sample.
    rewrite !(list_lookup_lookup_total_lt data) by lia. done.
Qed.

Lemma dop_ok channels m data :
  1 ≤ channels ≤ 8 → length data = (m * (4 * Z.to_nat channels))%nat → (0 < m)%nat →
  Z.of_nat (length data) < 2 ^ 32 →
  ∃ out, pcm_dsd_to_dop channels data = Some out ∧ length out = (2 * length data)%nat ∧
    Forall is_byte out.
Proof.
  intros Hch Hlen Hm Hmax. unfold pcm_dsd_to_dop.
  rewrite check_bind by (unfold audio_valid_channel_count, MAX_CHANNELS; lia).
  rewrite check_bind by (apply Nat.ltb_lt; lia).
  assert (E : Z.of_nat (length data) = 4 * Z.of_nat m * channels) by lia.
  rewrite check_bind by (rewrite E, Z.mod_mul by lia; done).
  unfold Samples.to_unsigned. rewrite (Z.mod_small (Z.of_nat (length data))) by lia.
  rewrite E, Z.div_mul by lia.
  replace (4 * Z.of_nat m / 2) with (2 * Z.of_nat m) by (apply Z.div_unique_exact; lia).
  replace (2 * Z.of_nat m / 2) with (Z.of_nat m) by (apply Z.div_unique_exact; lia).
  rewrite Z.mod_small by lia. rewrite Nat2Z.id.
  destruct (dop_rounds_ok m (Z.to_nat channels) 0 data) as (l & -> & Hl); [lia|]. simpl.
  replace (Z.to_nat (2 * Z.of_nat m * channels * 4)) with (2 * length data)%nat by lia.
  assert (El : length (ToVoid 4 l) = (2 * length data)%nat) by (rewrite length_ToVoid; lia).
  rewrite El, Nat.sub_diag, firstn_all2, app_nil_r by lia.
  eexists. split_and!; [done|done|apply ToVoid_bytes].
Qed.

Lemma dsd32_ok channels m data :
  (0 < channels)%nat → length data = (m * (4 * channels))%nat →
  ∃ out, Dsd8To32 channels data = Some out ∧ length out = length data ∧ Forall is_byte out.
Proof.
  intros Hch Hlen. unfold Dsd8To32.
  replace (length data / channels / 4)%nat with m.
  - destruct (dsd32_rounds_ok m channels 0 data) as (l & -> & Hl); [lia|]. simpl.
    eexists. split_and!; [done|rewrite length_ToVoid; lia|apply ToVoid_bytes].
  - rewrite Hlen, Nat.mul_assoc, Nat.div_mul, Nat.div_mul by lia. done.
Qed.

End Stages.

End PcmExportFacts.

(** * Properties of PCM export *)

Local Open Scope Z_scope.

Module PcmExportProps.
Import AudioFormat Samples Pcm PcmFacts BufferFacts PcmExport PcmExportFacts.

(** ** Interleaving *)

Section Interleave.
Context `{!Host}.

Lemma lookup_ToVoid size r p x b : r !! p = Some x → (b < size)%nat →
  ToVoid size r !! (p * size + b)%nat = store_int size x !! b.
Proof.
  intros Hp Hb. rewrite ToVoid_concat. apply lookup_concat; [apply store_lengths| |done].
  by rewrite list_lookup_fmap, Hp.
Qed.

Lemma lookup_FromVoid size s l i x b :
  (0 < size)%nat → Forall is_byte s → FromVoid size s = Some l → l !! i = Some x →
  (b < size)%nat → store_int size x !! b = s !! (i * size + b)%nat.
Proof.
  intros Hs Hbytes E Hi Hb. rewrite <-(ToVoid_FromVoid size s l) by done.
  symmetry. by apply lookup_ToVoid.
Qed.

Lemma typed_sources size n (src : list (list Z)) :
  (0 < size)%nat → Forall (λ s, length s = (n * size)%nat) src →
  ∃ l, mapM (FromVoid size) src = Some l ∧ length l = length src ∧
    Forall (λ t, length t = n) l ∧
    (∀ c s, src !! c = Some s → ∃ t, l !! c = Some t ∧ FromVoid size s = Some t).
Proof.
  intros Hsz Hsrc. induction Hsrc as [|s src Hs Hsrc (l & E & Hlen & Hl & Hlk)].
  { exists []. split_and!; done. }
  destruct (FromVoid_Some size s) as (t & Et & Hlt & _); [done| |].
  { rewrite Hs. apply Nat.Div0.mod_mul. }
  exists (t :: l). cbn [mapM]. rewrite Et. simpl. rewrite E. split_and!; [done|simpl; lia| |].
  - constructor; [nia|done].
  - intros [|c] s' Hc; simplify_eq/=; eauto.
Qed.

(** The variants for 16 and 32 bit samples, which go through typed arrays. *)
Lemma typed_interleave dest src n size :
  (0 < size)%nat → (0 < length src)%nat → length dest = (n * length src * size)%nat →
  Forall (λ s, Forall is_byte s ∧ length s = (n * size)%nat) src →
  ∃ r, (src ← mapM (FromVoid size) src;
        dest ← FromVoid size dest;
        r ← PcmInterleaveT dest src n;
        Some (ToVoid size r)) = Some r ∧ length r = length dest ∧
    (∀ i c s b, (i < n)%nat → src !! c = Some s → (b < size)%nat →
       r !! ((i * length src + c) * size + b)%nat = s !! (i * size + b)%nat).
Proof.
  intros Hsz Hch Hdest Hsrc. apply Forall_and in Hsrc as [Hbytes Hlen].
  destruct (typed_sources size n src Hsz Hlen) as (l & El & Hll & Hl & Hlk). rewrite El. simpl.
  destruct (FromVoid_Some size dest) as (d & Ed & Hd & _); [done| |].
  { rewrite Hdest. apply Nat.Div0.mod_mul. }
  rewrite Ed. simpl. destruct (PcmInterleaveT_ok d l n) as (r & Er & Hr & Hi); [lia|nia| |].
  { eapply Forall_impl; [exact Hl|]. cbv beta. lia. }
  rewrite Er. simpl. eexists. split; [done|]. split; [rewrite length_ToVoid; nia|].
  intros i c s b Hin Hc Hb. destruct (Hlk c s Hc) as (t & Ht & Es).
  rewrite Forall_lookup in Hl, Hbytes. specialize (Hl c t Ht). specialize (Hbytes c s Hc).
  destruct (lookup_lt_is_Some_2 t i) as [x Hx]; [lia|].
  rewrite (lookup_ToVoid size r _ x); [|rewrite <-Hll, (Hi i c t); done|done].
  by apply (lookup_FromVoid size s t).
Qed.

(** Interleaving.  For every sample size, and whichever of the three implementations is
    chosen, byte [b] of the sample of channel [c] in frame [i] of the result is that byte of
    the [i]th sample of the channel's buffer. *)
Theorem interleave_correct dest src n size :
  (0 < size)%nat → (0 < length src)%nat → length dest = (n * length src * size)%nat →
  Forall (λ s, Forall is_byte s ∧ length s = (n * size)%nat) src →
  ∃ r, PcmInterleave dest src n size = Some r ∧ length r = length dest ∧
    (∀ i c s b, (i < n)%nat → src !! c = Some s → (b < size)%nat →
       r !! ((i * length src + c) * size + b)%nat = s !! (i * size + b)%nat).
Proof.
  intros Hsz Hch Hdest Hsrc. pose proof (typed_interleave dest src n size) as Ht.
  destruct (GenericPcmInterleave_ok src n size) as (r & E & Hlen & Hr).
  { eapply Forall_impl; [exact Hsrc|]. intros s [_ Hs]. lia. }
  assert (Hgen : ∃ r, (l ← GenericPcmInterleave src n size;
      assert! (length l <=? length dest)%nat ;;
      Some (l ++ drop (length l) dest)) = Some r ∧ length r = length dest ∧
      (∀ i c s b, (i < n)%nat → src !! c = Some s → (b < size)%nat →
         r !! ((i * length src + c) * size + b)%nat = s !! (i * size + b)%nat)).
  { exists r. rewrite E. simpl. rewrite check_bind by (apply Nat.leb_le; lia).
    rewrite drop_ge, app_nil_r by lia. split_and!; [done|lia|done]. }
  unfold PcmInterleave.
  destruct size as [|[|[|[|[|size]]]]]; first [exact Hgen | exact (Ht Hsz Hch Hdest Hsrc)].
Qed.

End Interleave.

(** ** The export chain *)

Section Export.
Context `{!Host, !Memory}.

(** The size of a frame of the source; DSD data comes in groups of four bytes per channel. *)
Definition source_frame (f : SampleFormat) (ch : Z) : nat :=
  Z.to_nat (if is_dsd f then 4 * ch else sample_format_size f * ch).

(** A buffer of [m] frames. *)
Record frames (f : SampleFormat) (ch : Z) (m : nat) (data : list Z) : Prop := {
  fr_length : length data = (m * source_frame f ch)%nat;
  fr_some : (0 < m)%nat;
  fr_max : Z.of_nat (length data) < 2 ^ 32;
  fr_bytes : Forall is_byte data;
}.

(** Both formats that [ToAlsaChannelOrder] handles, except for eight channels. *)
Lemma order_ok f ch m data :
  1 ≤ ch ≤ 8 → ch ≠ 8 ∨ is_dsd f = true ∨ f = S8 → frames f ch m data →
  ∃ out, ToAlsaChannelOrder data f ch = Some out ∧ frames f ch m out.
Proof.
  intros Hch H8 Hd.
  assert (HT : ∀ size, (0 < size)%nat → source_frame f ch = (size * Z.to_nat ch)%nat → ch ≠ 8 →
    ∃ out, ToAlsaChannelOrderT size data ch = Some out ∧ frames f ch m out).
  { intros size Hs Hf Hne. destruct Hd as [Hlen Hm Hmax Hb]. unfold ToAlsaChannelOrderT.
    destruct (FromVoid_Some size data) as (l & -> & Hl & _); [done| |].
    { rewrite Hlen, Hf, (Nat.mul_comm size), Nat.mul_assoc. apply Nat.Div0.mod_mul. }
    simpl. destruct (Z.eqb_spec ch 6) as [->|H6].
    - assert (Hl6 : length l = (m * 6)%nat).
      { rewrite Hl, Hf in Hlen. change (Z.to_nat 6) with 6%nat in Hlen. nia. }
      rewrite order51_spec by (rewrite Hl6; apply Nat.Div0.mod_mul).
      destruct (split_blocks_spec 6 l) as (Hc & Hbl & _); [lia|by rewrite Hl6; apply Nat.Div0.mod_mul|].
      assert (El : length (ToVoid size (concat (alsa51 <$> split_blocks 6 l))) = length data).
      { rewrite length_ToVoid, concat_alsa51, Hc by done. lia. }
      eexists. split; [done|]. split; rewrite ?El; try done. apply ToVoid_bytes.
    - rewrite (proj2 (Z.eqb_neq ch 8)) by done. by exists data. }
  destruct f; try (exists data; split; [done|done]); destruct H8 as [H8|[H8|H8]]; try done.
  - by apply (HT 2%nat); [lia|unfold source_frame; simpl; lia|].
  - by apply (HT 4%nat); [lia|unfold source_frame; simpl; lia|].
  - by apply (HT 4%nat); [lia|unfold source_frame; simpl; lia|].
  - by apply (HT 4%nat); [lia|unfold source_frame; simpl; lia|].
Qed.

(** The last two stages, for [k] words of four bytes or samples of another size. *)
Lemma pack_ok data k : length data = (k * 4)%nat →
  ∃ l, FromVoid 4 data = Some l ∧ length (pcm_pack_24 l) = (k * 3)%nat ∧
    Forall is_byte (pcm_pack_24 l) ∧
    length (ToVoid 4 ((λ i, Z.shiftl i 8) <$> l)) = length data.
Proof.
  intros Hd. destruct (FromVoid_Some 4 data) as (l & E & Hl & _); [lia|by rewrite Hd; apply Nat.Div0.mod_mul|].
  exists l. assert (Hk : length l = k) by lia.
  assert (Ep : pcm_pack_24 l = ToVoid 3 l).
  { unfold pcm_pack_24, ToVoid. apply list_bind_ext; [|done]. intros x. apply pack_sample_store. }
  rewrite Ep. split_and!; [done|by rewrite length_ToVoid, Hk|apply ToVoid_bytes|].
  rewrite length_ToVoid, length_fmap. lia.
Qed.

(** [Export] in three parts. *)
Definition export_tail (pack24 shift8 : bool) (rev : Z) (data : list Z) : option (list Z) :=
  data ← (if pack24 then
            src ← FromVoid 4 data;
            Some (pcm_pack_24 src)
          else if shift8 then
            src ← FromVoid 4 data;
            Some (ToVoid 4 ((λ i, Z.shiftl i 8) <$> src))
          else Some data);
  if rev >? 0 then
    assert! (rev >=? 2) ;;
    reverse_bytes data (Z.to_nat rev)
  else Some data.

Lemma reverse_stage (size : Z) (prev : bool) data k :
  1 ≤ size → length data = (k * Z.to_nat size)%nat → Forall is_byte data →
  let rev := if prev && (size >? 1) then size else 0 in
  ∃ out, (if rev >? 0 then assert! (rev >=? 2) ;; reverse_bytes data (Z.to_nat rev)
          else Some data) = Some out ∧ length out = length data ∧ Forall is_byte out.
Proof.
  intros Hs Hlen Hb rev. subst rev.
  destruct prev; simpl; [|by exists data]. destruct (Z.gtb_spec size 1); [|by exists data].
  rewrite (proj2 (Z.gtb_gt size 0)) by lia. rewrite check_bind by lia.
  assert (Hm : (length data mod Z.to_nat size = 0)%nat) by (rewrite Hlen; apply Nat.Div0.mod_mul).
  destruct (reverse_bytes_involutive data (Z.to_nat size)) as (r & E & Hl & _); [lia|done|done|].
  exists r. split_and!; [done|done|]. rewrite reverse_bytes_spec in E by (lia || done). simplify_eq.
  destruct (split_blocks_spec (Z.to_nat size) data) as (Hc & _); [lia|done|].
  apply Forall_concat, Forall_fmap. rewrite <-Hc in Hb. apply Forall_concat in Hb.
  eapply Forall_impl; [exact Hb|]. intros b Hb'. by apply Forall_reverse.
Qed.

Lemma words_tail_ok (pack shift prev : bool) data k :
  length data = (k * 4)%nat → Forall is_byte data →
  let size := if pack then 3 else 4 in
  ∃ out, export_tail pack shift (if prev && (size >? 1) then size else 0) data = Some out ∧
    length out = (k * if pack then 3 else 4)%nat ∧ Forall is_byte out.
Proof.
  intros Hlen Hb size. destruct (pack_ok data k Hlen) as (l & E & Hp & Hpb & Hs).
  unfold export_tail. destruct pack; simpl in size; subst size.
  - rewrite E. simpl. destruct (reverse_stage 3 prev (pcm_pack_24 l) k) as (out & Eo & Hl & Ho);
      [lia|done|done|]. exists out. split_and!; [exact Eo|lia|done].
  - assert (∃ d, (if shift then src ← FromVoid 4 data; Some (ToVoid 4 ((λ i, i ≪ 8) <$> src))
                  else Some data) = Some d ∧ length d = length data ∧ Forall is_byte d)
      as (d & -> & Hd & Hdb).
    { destruct shift; [|by exists data]. rewrite E. simpl. eexists. split_and!; [done|done|].
      apply ToVoid_bytes. }
    simpl. destruct (reverse_stage 4 prev d k) as (out & Eo & Hl & Ho); [lia|lia|done|].
    exists out. split_and!; [exact Eo|simpl; lia|done].
Qed.

Lemma Export_unfold e data :
  Export e data =
  (data ← match alsa_channel_order e with
          | UNDEFINED => Some data
          | f => ToAlsaChannelOrder data f (channels e)
          end;
   data ← (if dsd_u32 e then Dsd8To32 (Z.to_nat (channels e)) data else Some data);
   data ← (if dop e then pcm_dsd_to_dop (channels e) data else Some data);
   export_tail (pack24 e) (shift8 e) (reverse_endian e) data).
Proof. done. Qed.

(** The object that [Open] sets up. *)
Definition opened (f : SampleFormat) (ch : Z) (ps : Params) : PcmExport :=
  let u32 := p_dsd_u32 ps && is_dsd f in
  let dop := p_dop ps && negb (p_dsd_u32 ps) && is_dsd f in
  let word := is_24 f || dop in
  let pack := p_pack24 ps && word in
  let size := if pack then 3 else if u32 || dop then 4 else sample_format_size f in
  mkExport ch (if p_alsa_channel_order ps then f else UNDEFINED) u32 dop (p_shift8 ps && word)
    pack (if p_reverse_endian ps && (size >? 1) then size else 0).

Lemma Open_spec f ch ps e : 1 ≤ ch ≤ 8 → Open f ch ps = Some e →
  audio_valid_sample_format f = true ∧ e = opened f ch ps.
Proof.
  intros Hch. assert (Hv : audio_valid_channel_count ch = true).
  { unfold audio_valid_channel_count, MAX_CHANNELS. lia. }
  unfold Open, opened, Samples.to_unsigned. rewrite (Z.mod_small ch), Hv by lia.
  destruct ps as [o u d s8 p24 r], f, u, d, s8, p24; simpl; intros E; by simplify_eq/=.
Qed.

Lemma audio_channels ch : audio_valid_channel_count ch = true → 1 ≤ ch ≤ 8.
Proof. unfold audio_valid_channel_count, MAX_CHANNELS. lia. Qed.

(** The chain behind the reordering, for the three kinds of formats. *)
Definition export_rest (e : PcmExport) (ch : Z) (data : list Z) : option (list Z) :=
  data ← (if dsd_u32 e then Dsd8To32 (Z.to_nat ch) data else Some data);
  data ← (if dop e then pcm_dsd_to_dop ch data else Some data);
  export_tail (pack24 e) (shift8 e) (reverse_endian e) data.

Definition exports (e : PcmExport) (af : AudioFormat) (data : list Z) : Prop :=
  ∃ out, export_rest e (AudioFormat.channels af) data = Some out ∧
    CalcSourceSize e (length out) = length data ∧
    Z.of_nat (length out) mod GetFrameSize e af = 0.

Lemma whole_frames (k : nat) n : 0 < n → (Z.of_nat k * n) mod n = 0.
Proof. intros Hn. apply Z.mod_mul. lia. Qed.

Lemma plain_export_ok f ch ps m data rate :
  1 ≤ ch ≤ 8 → audio_valid_sample_format f = true → is_dsd f = false → is_24 f = false →
  length data = (m * source_frame f ch)%nat → Forall is_byte data →
  exports (opened f ch ps) (mkAudioFormat rate f ch) data.
Proof.
  intros Hch Hf Hdsd H24 Hlen Hb. unfold exports, export_rest, opened, CalcSourceSize, GetFrameSize.
  rewrite Hdsd, H24, !andb_false_r. cbn [dsd_u32 dop pack24 shift8 reverse_endian orb mbind option_bind].
  unfold source_frame in Hlen. rewrite Hdsd in Hlen.
  assert (Hs : 1 ≤ sample_format_size f) by (by destruct f).
  unfold export_tail. cbn [mbind option_bind].
  destruct (reverse_stage (sample_format_size f) (p_reverse_endian ps) data (m * Z.to_nat ch))
    as (out & E & Hl & _); [done|lia|done|].
  exists out. split_and!; [exact E|done|]. unfold AudioFormat.GetFrameSize, GetSampleSize. simpl.
  replace (Z.of_nat (length out)) with (Z.of_nat m * (sample_format_size f * ch)) by lia.
  apply whole_frames. nia.
Qed.

Lemma s24_export_ok f ch ps m data rate :
  1 ≤ ch ≤ 8 → is_24 f = true → length data = (m * source_frame f ch)%nat → Forall is_byte data →
  exports (opened f ch ps) (mkAudioFormat rate f ch) data.
Proof.
  intros Hch H24 Hlen Hb. destruct f; try done.
  assert (Hw : length data = (m * Z.to_nat ch * 4)%nat) by (unfold source_frame in Hlen; simpl in Hlen; lia).
  unfold exports, export_rest, opened, CalcSourceSize, GetFrameSize.
  cbn -[Nat.div Z.modulo Nat.mul Z.mul Z.of_nat Z.to_nat export_tail Z.gtb].
  rewrite !andb_false_r, !andb_true_r. cbn -[Nat.div Z.modulo Nat.mul Z.mul Z.of_nat Z.to_nat export_tail Z.gtb].
  destruct (words_tail_ok (p_pack24 ps) (p_shift8 ps) (p_reverse_endian ps) data (m * Z.to_nat ch))
    as (out & E & Hl & _); [done|done|].
  exists out. split_and!; [by rewrite ?andb_true_r in E| |].
  - destruct (p_pack24 ps); simpl in Hl; rewrite Hl; [rewrite Nat.div_mul by lia|]; lia.
  - destruct (p_pack24 ps); simpl in Hl.
    + replace (Z.of_nat (length out)) with (Z.of_nat m * (ch * 3)) by lia. apply whole_frames. lia.
    + unfold AudioFormat.GetFrameSize, GetSampleSize. simpl.
      replace (Z.of_nat (length out)) with (Z.of_nat m * (4 * ch)) by lia. apply whole_frames. lia.
Qed.

Lemma dsd_export_ok f ch ps m data rate :
  1 ≤ ch ≤ 8 → is_dsd f = true → length data = (m * source_frame f ch)%nat → (0 < m)%nat →
  Z.of_nat (length data) < 2 ^ 32 → Forall is_byte data →
  exports (opened f ch ps) (mkAudioFormat rate f ch) data.
Proof.
  intros Hch Hdsd Hlen Hm Hmax Hb. destruct f; try done. unfold source_frame in Hlen. simpl in Hlen.
  assert (Hw : length data = (m * (4 * Z.to_nat ch))%nat) by lia.
  unfold exports, export_rest, opened, CalcSourceSize, GetFrameSize.
  cbn -[Nat.div Z.modulo Nat.mul Z.mul Z.of_nat Z.to_nat export_tail Z.gtb].
  rewrite !andb_true_r. destruct (p_dsd_u32 ps); [|destruct (p_dop ps)];
    cbn -[Nat.div Z.modulo Nat.mul Z.mul Z.of_nat Z.to_nat export_tail Z.gtb];
    rewrite ?andb_false_r, ?andb_true_r; cbn -[Nat.div Z.modulo Nat.mul Z.mul Z.of_nat Z.to_nat export_tail Z.gtb].
  - destruct (dsd32_ok (Z.to_nat ch) m data) as (d & -> & Hd & Hdb); [lia|done|]. cbn [mbind option_bind].
    destruct (words_tail_ok false false (p_reverse_endian ps) d (m * Z.to_nat ch))
      as (out & E & Hl & _); [lia|done|]. simpl in Hl.
    exists out. split_and!; [by rewrite ?andb_true_r in E|lia|].
    replace (Z.of_nat (length out)) with (Z.of_nat m * (ch * 4)) by lia. apply whole_frames. lia.
  - destruct (dop_ok ch m data) as (d & -> & Hd & Hdb); [done|done|done|done|]. cbn [mbind option_bind].
    destruct (words_tail_ok (p_pack24 ps) (p_shift8 ps) (p_reverse_endian ps) d (m * 2 * Z.to_nat ch))
      as (out & E & Hl & _); [lia|done|].
    exists out. split_and!; [by rewrite ?andb_true_r in E| |]; destruct (p_pack24 ps); simpl in Hl.
    + rewrite Hl, Nat.div_mul by lia.
      replace (m * 2 * Z.to_nat ch * 4)%nat with (length data * 2)%nat by lia. by rewrite Nat.div_mul by lia.
    + replace (length out) with (length data * 2)%nat by lia. by rewrite Nat.div_mul by lia.
    + replace (Z.of_nat (length out)) with (Z.of_nat (2 * m) * (ch * 3)) by lia. apply whole_frames. lia.
    + replace (Z.of_nat (length out)) with (Z.of_nat (2 * m) * (ch * 4)) by lia. apply whole_frames. lia.
  - destruct (reverse_stage 1 (p_reverse_endian ps) data (length data)) as (out & E & Hl & _);
      [done|simpl; lia|done|].
    exists out. split_and!; [rewrite ?andb_false_r in E; exact E|done|]. unfold AudioFormat.GetFrameSize, GetSampleSize. simpl.
    replace (Z.of_nat (length out)) with (Z.of_nat (4 * m) * ch) by lia. 
    destruct ch; try lia; apply whole_frames; lia.
Qed.

(** C11: export.  For every configuration that [Open] accepts, and every buffer of whole frames
    (for DSD, of four bytes per channel), the export chain runs through, emits whole frames
    of the size [GetFrameSize] announces, and [CalcSourceSize] maps the size of the result
    back to that of the source.  Reordering eight channels is excluded. *)
Theorem export_correct f ch ps e m data rate :
  Open f ch ps = Some e → audio_valid_channel_count ch = true → frames f ch m data →
  (p_alsa_channel_order ps = true → ch ≠ 8 ∨ is_dsd f = true ∨ f = S8) →
  ∃ out, Export e data = Some out ∧ CalcSourceSize e (length out) = length data ∧
    Z.of_nat (length out) mod GetFrameSize e (mkAudioFormat rate f ch) = 0.
Proof.
  intros HO Hch%audio_channels Hd H8. apply Open_spec in HO as [Hf ->]; [|done].
  assert (∃ d1, match (if p_alsa_channel_order ps then f else UNDEFINED) with
                | UNDEFINED => Some data | f => ToAlsaChannelOrder data f ch end = Some d1 ∧
                frames f ch m d1) as (d1 & E1 & Hd1).
  { destruct (p_alsa_channel_order ps); [|by exists data].
    destruct (order_ok f ch m data) as (d1 & E & H1); [done|by apply H8|done|].
    exists d1. split; [|done]. by destruct f. }
  rewrite Export_unfold. cbn [alsa_channel_order channels opened]. rewrite E1. clear E1.
  cbn [mbind option_bind].
  assert (Hlen1 : length d1 = length data) by (by rewrite (fr_length _ _ _ _ Hd1), (fr_length _ _ _ _ Hd)).
  rewrite <-Hlen1. clear Hlen1 Hd H8 data. destruct Hd1 as [Hlen Hm Hmax Hb].
  destruct (is_dsd f) eqn:Hdsd; [|destruct (is_24 f) eqn:H24].
  - exact (dsd_export_ok f ch ps m d1 rate Hch Hdsd Hlen Hm Hmax Hb).
  - exact (s24_export_ok f ch ps m d1 rate Hch H24 Hlen Hb).
  - exact (plain_export_ok f ch ps m d1 rate Hch Hf Hdsd H24 Hlen Hb).
Qed.

End Export.

#[local] Instance little_endian_host : Host := {| IsBigEndian := false |}.
#[local] Instance zero_memory : Memory := {| garbage := λ _, 0 |}.

Lemma interleave_correct_witness :
  ∃ r, PcmInterleave [0; 0; 0; 0; 0; 0] [[1; 2; 3]; [4; 5; 6]] 1 3 = Some r ∧ length r = 6%nat.
Proof.
  destruct (interleave_correct [0; 0; 0; 0; 0; 0] [[1; 2; 3]; [4; 5; 6]] 1 3) as (r & E & Hl & _).
  - lia.
  - simpl. lia.
  - done.
  - repeat constructor; cbv; congruence.
  - exists r. done.
Defined.

Definition seq_bytes (n : nat) : list Z := Z.of_nat <$> seq 0 n.

(** DoP, packed to three bytes and byte-swapped. *)
Definition dop_params : Params := mkParams true false true false true true.

Lemma export_correct_witness :
  ∃ e out, Open DSD 2 dop_params = Some e ∧ Export e (seq_bytes 16) = Some out ∧
    CalcSourceSize e (length out) = 16%nat.
Proof.
  destruct (export_correct DSD 2 dop_params (opened DSD 2 dop_params) 2 (seq_bytes 16) 2822400)
    as (out & E & Hs & _).
  - done.
  - done.
  - split; [done|lia|done|]. repeat constructor; cbv; congruence.
  - intros _. right. by left.
  - exists (opened DSD 2 dop_params), out. split_and!; [done|exact E|exact Hs].
Defined.

End PcmExportProps.
