(* ===== verification/PcmConvertProps.v ===== *)
(** * Resampling and floating point samples *)

From Stdlib Require Import ZArith Lia ZifyBool.
From Stdlib Require Import SpecFloat.
From stdpp Require Import base numbers sets strings list list_numbers.
From Stdlib Require Import ZArith Lia.
From stdpp Require Import base numbers list.
From S2P Require Import Prelude AudioFormat Prog Samples Pcm PcmFacts PcmProps PcmConvert PcmExport PcmExportProps.

Set Default Goal Selector "!".

Module PcmConvertFacts.
Local Open Scope Z_scope.
Import AudioFormat Samples Pcm PcmFacts BufferFacts PcmConvert.

(** ** The fallback resampler *)

Lemma land_even x : 0 ≤ x < 2 ^ 32 → Z.land x (u32 (Z.lnot 1)) = 2 * (x / 2).
Proof.
  intros Hx. change (u32 (Z.lnot 1)) with (Z.shiftl (Z.ones 31) 1).
  replace (2 * (x / 2)) with (Z.shiftl (Z.shiftr x 1) 1).
  2:{ rewrite Z.shiftl_mul_pow2, Z.shiftr_div_pow2 by lia. change (2 ^ 1) with 2. lia. }
  apply Z.bits_inj'. intros n Hn. rewrite Z.land_spec.
  destruct (decide (n = 0)) as [->|H0].
  { by rewrite !Z.shiftl_spec_low, andb_false_r by lia. }
  rewrite !Z.shiftl_spec, Z.shiftr_spec by lia. replace (n - 1 + 1) with n by lia.
  destruct (decide (n < 32)).
  - by rewrite Z.ones_spec_low, andb_true_r by lia.
  - rewrite Z.ones_spec_high, andb_false_r by lia.
    rewrite <-(Z.mod_small x (2 ^ 32)) by done. by rewrite Z.mod_pow2_bits_high by lia.
Qed.

Lemma u32_small x : 0 ≤ x < 2 ^ 32 → u32 x = x.
Proof. apply Z.mod_small. Qed.

Lemma element_Some src i x : 0 ≤ i → src !! Z.to_nat i = Some x → element src i = Some x.
Proof.
  intros Hi Hx. unfold element. rewrite check_bind; [done|].
  apply lookup_lt_Some in Hx. lia.
Qed.

(** The frame of the source that frame [k] of the result is taken from. *)
Definition source_pos (src_rate dest_rate : Z) (k : nat) : nat :=
  Z.to_nat (Z.of_nat k * src_rate / dest_rate).

(** The number of frames in the result: rounded up. *)
Definition dest_frames (src_rate dest_rate : Z) (frames : nat) : nat :=
  Z.to_nat ((Z.of_nat frames * dest_rate + src_rate - 1) / src_rate).

Section Rates.
Context (sr dr : Z) (frames : nat).
Hypothesis (Hsr : 0 < sr) (Hdr : 0 < dr).

Lemma dest_frames_bound k : (k < dest_frames sr dr frames)%nat →
  Z.of_nat k * sr < Z.of_nat frames * dr.
Proof.
  unfold dest_frames. intros Hk.
  assert (Hle : Z.of_nat k + 1 ≤ (Z.of_nat frames * dr + sr - 1) / sr) by lia.
  apply (Z.mul_le_mono_nonneg_l _ _ sr) in Hle; [|lia].
  pose proof (Z.mul_div_le (Z.of_nat frames * dr + sr - 1) sr). lia.
Qed.

Lemma source_pos_bound k : (k < dest_frames sr dr frames)%nat → (source_pos sr dr k < frames)%nat.
Proof.
  intros Hk%dest_frames_bound. unfold source_pos.
  assert (0 ≤ Z.of_nat k * sr / dr) by (apply Z.div_pos; lia).
  assert (Z.of_nat k * sr / dr < Z.of_nat frames); [|lia].
  apply Z.div_lt_upper_bound; lia.
Qed.

Lemma source_pos_Z k : Z.of_nat (source_pos sr dr k) = Z.of_nat k * sr / dr.
Proof. unfold source_pos. rewrite Z2Nat.id; [done|]. apply Z.div_pos; lia. Qed.

Lemma source_pos_stereo k : 2 * Z.of_nat k * sr / dr / 2 = Z.of_nat (source_pos sr dr k).
Proof.
  rewrite source_pos_Z, Z.div_div by lia. rewrite (Z.mul_comm dr 2), <-Z.mul_assoc.
  by rewrite Z.div_mul_cancel_l by lia.
Qed.

End Rates.

Lemma mapM_lookup {B} (f : nat → option B) n :
  (∀ k, (k < n)%nat → is_Some (f k)) →
  ∃ l, mapM f (seq 0 n) = Some l ∧ length l = n ∧ ∀ k, (k < n)%nat → l !! k = f k.
Proof.
  intros H. destruct (mapM f (seq 0 n)) as [l|] eqn:E.
  - exists l. apply mapM_Some in E. pose proof (Forall2_length _ _ _ E) as Hlen.
    rewrite length_seq in Hlen. split_and!; [done|done|]. intros k Hk.
    destruct (H k Hk) as [x Hx]. rewrite Hx.
    destruct (lookup_lt_is_Some_2 l k) as [y Hy]; [lia|].
    rewrite (Forall2_lookup_lr _ _ _ k k y E) in Hx by (done || by apply lookup_seq_lt). congruence.
  - apply mapM_None, Exists_exists in E as (k & Hk%elem_of_seq & E).
    destruct (H k) as [x Hx]; [lia|]. congruence.
Qed.

(** [src] holds [n] frames of one or two channels. *)
Lemma resample_mono_ok sr dr src :
  0 < sr → 0 < dr → Z.of_nat (length src) * dr + sr < 2 ^ 32 →
  let n := dest_frames sr dr (length src) in
  ∃ l, resample_mono sr dr src n = Some l ∧ length l = n ∧
    ∀ k, (k < n)%nat → l !! k = src !! source_pos sr dr k.
Proof.
  intros Hsr Hdr Hmax n. unfold resample_mono.
  assert (Hk : ∀ k, (k < n)%nat →
    element src (u32 (Z.of_nat k * sr) / dr) = src !! source_pos sr dr k ∧
    is_Some (src !! source_pos sr dr k)).
  { intros k Hk. pose proof (dest_frames_bound sr dr (length src) Hsr k Hk).
    destruct (lookup_lt_is_Some_2 src (source_pos sr dr k)) as [x Hx].
    { by apply source_pos_bound. }
    rewrite u32_small by lia. rewrite Hx. split; [|done].
    apply element_Some; [apply Z.div_pos; lia|done]. }
  destruct (mapM_lookup (λ k, element src (u32 (Z.of_nat k * sr) / dr)) n) as (l & E & Hl & Hlk).
  { intros k H. destruct (Hk k H) as [-> ?]. done. }
  exists l. split_and!; [done|done|]. intros k H. rewrite Hlk by done. by apply Hk.
Qed.

Lemma resample_stereo_ok sr dr src frames :
  0 < sr → 0 < dr → length src = (2 * frames)%nat → 2 * (Z.of_nat frames * dr + sr) < 2 ^ 32 →
  let n := dest_frames sr dr frames in
  ∃ l, resample_stereo sr dr src (n * 2) = Some l ∧ length l = (n * 2)%nat ∧
    ∀ k c, (k < n)%nat → (c < 2)%nat → l !! (k * 2 + c)%nat = src !! (source_pos sr dr k * 2 + c)%nat.
Proof.
  intros Hsr Hdr Hlen Hmax n. unfold resample_stereo. rewrite Nat.div_mul by lia.
  set (f := λ i, let src_pos := Z.land (u32 (Z.of_nat (2 * i) * sr) / dr) (u32 (Z.lnot 1)) in
    a ← element src src_pos; b ← element src (u32 (src_pos + 1)); Some [a; b]).
  assert (Hk : ∀ k, (k < n)%nat → ∃ a b, f k = Some [a; b] ∧
    src !! (source_pos sr dr k * 2)%nat = Some a ∧ src !! (source_pos sr dr k * 2 + 1)%nat = Some b).
  { intros k Hk. pose proof (dest_frames_bound sr dr frames Hsr k Hk).
    pose proof (source_pos_bound sr dr frames Hsr Hdr k Hk) as Hpos.
    destruct (lookup_lt_is_Some_2 src (source_pos sr dr k * 2)%nat) as [a Ha]; [lia|].
    destruct (lookup_lt_is_Some_2 src (source_pos sr dr k * 2 + 1)%nat) as [b Hb]; [lia|].
    exists a, b. split; [|done]. unfold f. cbv zeta.
    replace (Z.of_nat (2 * k)) with (2 * Z.of_nat k) by lia.
    rewrite (u32_small (_ * sr)) by lia.
    assert (Hr : 0 ≤ 2 * Z.of_nat k * sr / dr < 2 ^ 32).
    { split; [apply Z.div_pos; lia|]. apply Z.div_lt_upper_bound; nia. }
    rewrite land_even, source_pos_stereo by done.
    assert (Ea : element src (2 * Z.of_nat (source_pos sr dr k)) = Some a).
    { apply element_Some; [lia|]. rewrite <-Ha. f_equal. lia. }
    assert (Eb : element src (2 * Z.of_nat (source_pos sr dr k) + 1) = Some b).
    { apply element_Some; [lia|]. rewrite <-Hb. f_equal. lia. }
    rewrite Ea. simpl.
    assert (Hf : Z.of_nat (length src) < 2 ^ 32) by nia.
    rewrite u32_small by lia.
    by rewrite Eb. }
  destruct (mapM_lookup f n) as (l & E & Hl & Hlk).
  { intros k H. destruct (Hk k H) as (a & b & -> & _). done. }
  assert (Hb : Forall (λ b, length b = 2%nat) l).
  { apply Forall_lookup. intros k b Hb. assert (k < n)%nat by (apply lookup_lt_Some in Hb; lia).
    rewrite Hlk in Hb by done. destruct (Hk k) as (x & y & E' & _); [done|]. by simplify_eq. }
  rewrite E. simpl. eexists. split_and!; [done|by rewrite (length_concat_blocks 2), Hl|].
  intros k c H Hc. destruct (Hk k H) as (a & b & E' & Ha & Hb').
  rewrite (lookup_concat 2 l k c [a; b]); [|done|by rewrite Hlk|done].
  destruct c as [|[|c]]; [by rewrite Nat.add_0_r|done|lia].
Qed.

End PcmConvertFacts.

(** * Properties of PCM conversion *)


Module PcmConvertProps.
Local Open Scope Z_scope.
Import AudioFormat Samples Pcm PcmFacts BufferFacts FloatFacts PcmConvert PcmConvertFacts.
Import PcmExportFacts PcmProps.

(** ** Shifts *)

(** The pairs of formats the shifting converters are used for. *)
Definition shifts : list (SampleTraits * SampleTraits) :=
  [(traits_S8, traits_S16); (traits_S8, traits_S24_P32); (traits_S16, traits_S24_P32);
   (traits_S8, traits_S32); (traits_S16, traits_S32); (traits_S24_P32, traits_S32)].

Lemma shifts_spec ST DT : (ST, DT) ∈ shifts →
  1 ≤ BITS ST ∧ BITS ST < BITS DT ∧ BITS DT ≤ value_bits DT ≤ 32.
Proof.
  unfold shifts. intros H. repeat (apply elem_of_cons in H as [H|H]); [..|by apply elem_of_nil in H];
    simplify_eq; cbv; repeat split; congruence.
Qed.

Lemma LeftShift_ok ST DT x : (ST, DT) ∈ shifts → is_sample ST x →
  LeftShift ST DT x = Some (x * 2 ^ (BITS DT - BITS ST)) ∧
  is_sample DT (x * 2 ^ (BITS DT - BITS ST)).
Proof.
  intros (H1 & H2 & H3)%shifts_spec Hx. unfold is_sample, MIN, MAX, LeftShift in *.
  rewrite Z.shiftl_1_l in *. rewrite Z.shiftl_mul_pow2 by lia.
  set (k := BITS DT - BITS ST).
  assert (E : 2 ^ (BITS DT - 1) = 2 ^ (BITS ST - 1) * 2 ^ k).
  { rewrite <-Z.pow_add_r by lia. f_equal. lia. }
  assert (Hk : 0 < 2 ^ k) by (apply Z.pow_pos_nonneg; lia).
  assert (Hr : - 2 ^ (BITS DT - 1) ≤ x * 2 ^ k ≤ 2 ^ (BITS DT - 1) - 1) by nia.
  pose proof (Z.pow_le_mono_r 2 (BITS DT - 1) (value_bits DT - 1)).
  pose proof (Z.pow_le_mono_r 2 (value_bits DT - 1) (32 - 1)).
  rewrite int_Some by lia. simpl. rewrite to_signed_id by lia. done.
Qed.

Lemma RightShift_ok x : is_sample traits_S32 x →
  RightShift traits_S32 traits_S24_P32 x = x / 2 ^ 8 ∧ is_sample traits_S24_P32 (x / 2 ^ 8).
Proof.
  intros Hx. unfold RightShift. rewrite Z.shiftr_div_pow2 by (simpl; lia).
  change (2 ^ (BITS traits_S32 - BITS traits_S24_P32)) with 256. change (2 ^ 8) with 256.
  assert (Hr : - 8388608 ≤ x / 256 ≤ 8388607).
  { change (- 2147483648 ≤ x ≤ 2147483647) in Hx.
    split; [apply Z.div_le_lower_bound; lia|].
    assert (x / 256 < 8388608); [|lia]. apply Z.div_lt_upper_bound; lia. }
  split; [|exact Hr]. apply to_signed_id; [done|]. change (value_bits traits_S24_P32) with 32.
  simpl. lia.
Qed.

Lemma LeftShift_all ST DT l : (ST, DT) ∈ shifts → Forall (is_sample ST) l →
  ∃ l', AllocateConvert (LeftShift ST DT) l = Some l' ∧ length l' = length l ∧
    Forall (is_sample DT) l' ∧ l' = (λ x, x * 2 ^ (BITS DT - BITS ST)) <$> l.
Proof.
  intros HS Hl. eexists. split.
  { apply (mapM_total _ (λ x, x * 2 ^ (BITS DT - BITS ST))). intros x Hx.
    rewrite Forall_forall in Hl. by apply LeftShift_ok; [|apply Hl]. }
  split_and!; [by rewrite length_fmap| |done]. apply Forall_fmap. eapply Forall_impl; [exact Hl|].
  intros x Hx. by apply LeftShift_ok.
Qed.

(** ** Formats and back *)

Section Convert.
Context `{!Host}.

Lemma floats_in_memory (l : list float32) :
  Forall (λ y, float_of_bits (bits_of_float y) = y ∧ 0 ≤ bits_of_float y < 2 ^ 32) l →
  FloatFromVoid (FloatToVoid l) = Some l.
Proof.
  intros Hl.
  assert (E : FloatToVoid l = concat (store_int 4 ∘ bits_of_float <$> l)).
  { clear. unfold FloatToVoid. induction l; [done|]. by rewrite bind_cons, IHl. }
  assert (Hb : Forall (λ b, length b = 4%nat) (store_int 4 ∘ bits_of_float <$> l)).
  { apply Forall_fmap, Forall_true. intros x. apply length_store. }
  unfold FloatFromVoid. rewrite E, (length_concat_blocks 4), Nat.Div0.mod_mul by done. simpl.
  rewrite split_blocks_concat by (done || lia). f_equal. rewrite <-list_fmap_compose.
  rewrite <-(list_fmap_id l) at 2. apply list_fmap_ext. intros i y Hy. simpl.
  rewrite Forall_lookup in Hl. destruct (Hl i y Hy) as [H1 H2].
  rewrite load_store, Z.mod_small; [done|]. simpl. simpl in H2. lia.
Qed.

(** Conversions that lose nothing: to [float] or to a wider integer. *)
Definition lossless : list (SampleFormat * SampleFormat) :=
  [(S16, FLOAT); (S24_P32, FLOAT); (S24_P32, S32)].

Lemma float_samples T l : T ∈ small_traits → Forall (is_sample T) l →
  FloatFromVoid (FloatToVoid (IntegerToFloat T <$> l)) = Some (IntegerToFloat T <$> l) ∧
  AllocateConvert (FloatToInteger T) (IntegerToFloat T <$> l) = Some l.
Proof.
  intros HT Hl. split.
  - apply floats_in_memory, Forall_fmap. eapply Forall_impl; [exact Hl|]. intros x Hx.
    by apply float_memory.
  - unfold AllocateConvert. clear -HT Hl. induction Hl as [|x l Hx Hl IH]; [done|].
    rewrite fmap_cons. cbn [mapM]. rewrite FloatToInteger_exact by done. simpl. by rewrite IH.
Qed.

Lemma contents_Some l : contents (Some l) = l.
Proof. done. Qed.

Lemma pure_convert {A B} (f : A → B) l : AllocateConvert (λ x, Some (f x)) l = Some (f <$> l).
Proof. by apply mapM_total. Qed.

(** C14: lossless conversions.  16 and 24 bit samples converted to [float] and back, and 24 bit
    samples converted to 32 bit and back, are the same bytes again: the scaling by a power of
    two is exact, and so is the truncation. *)
Theorem format_roundtrip f via T d1 d2 l :
  (f, via) ∈ lossless → traits_of f = Some T → Forall (is_sample T) l →
  let data := ToVoid (SAMPLE_SIZE T) l in
  ∃ mid, Format_Convert (Some data) (mkFormatConverter f via d1) =
      Some (Some mid, mkFormatConverter f via d1) ∧
    Format_Convert (Some mid) (mkFormatConverter via f d2) =
      Some (Some data, mkFormatConverter via f d2).
Proof.
  intros Hf HT Hl data. pose proof (samples_in_memory T l (traits_cases f T HT) Hl) as Hmem.
  fold data in Hmem. unfold lossless in Hf.
  repeat (apply elem_of_cons in Hf as [Hf|Hf]); [..|by apply elem_of_nil in Hf]; simplify_eq/=.
  - destruct (float_samples traits_S16 l) as [H1 H2]; [by right; left|done|].
    exists (FloatToVoid (IntegerToFloat traits_S16 <$> l)).
    unfold Format_Convert, pcm_convert_to_float, pcm_convert_to_16. cbn [fc_dest fc_src].
    rewrite !contents_Some.
    change (SAMPLE_SIZE traits_S16) with 2%nat in Hmem. rewrite Hmem. simpl. rewrite pure_convert. simpl.
    split; [done|]. rewrite H1. simpl. by rewrite H2.
  - destruct (float_samples traits_S24_P32 l) as [H1 H2]; [by right; right; left|done|].
    exists (FloatToVoid (IntegerToFloat traits_S24_P32 <$> l)).
    unfold Format_Convert, pcm_convert_to_float, pcm_convert_to_24. cbn [fc_dest fc_src].
    rewrite !contents_Some.
    change (SAMPLE_SIZE traits_S24_P32) with 4%nat in Hmem. rewrite Hmem. simpl. rewrite pure_convert. simpl.
    split; [done|]. rewrite H1. simpl. by rewrite H2.
  - destruct (LeftShift_all traits_S24_P32 traits_S32 l) as (l' & E & _ & Hl' & ->);
      [by do 5 right; left|done|].
    eexists. unfold Format_Convert, pcm_convert_to_32, pcm_convert_to_24. cbn [fc_dest fc_src].
    rewrite !contents_Some.
    change (SAMPLE_SIZE traits_S24_P32) with 4%nat in Hmem. rewrite Hmem. simpl. rewrite E. simpl.
    split; [done|]. rewrite (samples_in_memory traits_S32) by (done || by do 3 right; left). simpl.
    rewrite pure_convert. simpl. unfold data. do 4 f_equal.
    rewrite <-list_fmap_compose. rewrite <-(list_fmap_id l) at 2. apply list_fmap_ext.
    intros i x Hx. simpl. rewrite Forall_lookup in Hl'.
    etransitivity; [apply (RightShift_ok (x * 2 ^ 8))|by rewrite Z.div_mul].
    apply (Hl' i). by rewrite list_lookup_fmap, Hx.
Qed.

End Convert.

(** ** Resampling *)

Section Resample.
Context `{!Host, !Memory}.

(** C13: the built-in resampler.  For one or two channels, and as long as the products fit in
    32 bits, it reads inside its source, returns the source's length scaled by the ratio of
    the rates and rounded up, and frame [k] of the result is the frame [k * sr / dr] of the
    source. *)
Theorem resample_correct T (ch frames : nat) sr dr src :
  T ∈ integer_traits → (1 ≤ ch ≤ 2)%nat → 0 < sr → 0 < dr →
  Z.of_nat ch * (Z.of_nat frames * dr + sr) < 2 ^ 32 →
  Forall (is_sample T) src → length src = (frames * ch)%nat →
  let n := dest_frames sr dr frames in
  ∃ out, pcm_resample_fallback_void (SAMPLE_SIZE T) (Z.of_nat ch) sr (ToVoid (SAMPLE_SIZE T) src) dr =
      Some (ToVoid (SAMPLE_SIZE T) out) ∧ length out = (n * ch)%nat ∧
    (∀ k c, (k < n)%nat → (c < ch)%nat →
       (source_pos sr dr k < frames)%nat ∧
       out !! (k * ch + c)%nat = src !! (source_pos sr dr k * ch + c)%nat).
Proof.
  intros HT Hch Hsr Hdr Hmax Hsrc Hlen n. unfold pcm_resample_fallback_void.
  rewrite samples_in_memory by done. simpl.
  replace (Z.of_nat (length src) / Z.of_nat ch) with (Z.of_nat frames)
    by (rewrite Hlen, Nat2Z.inj_mul, Z.div_mul; lia).
  rewrite check_bind by (rewrite Hlen, Nat2Z.inj_mul, Z.mod_mul by lia; done).
  rewrite (u32_small (Z.of_nat frames)) by nia.
  rewrite (u32_small (_ * dr + sr - 1)) by nia.
  assert (Hn : Z.of_nat n = (Z.of_nat frames * dr + sr - 1) / sr).
  { unfold n, dest_frames. rewrite Z2Nat.id; [done|]. apply Z.div_pos; nia. }
  assert (Hnmax : Z.of_nat n * Z.of_nat ch < 2 ^ 32).
  { assert (Z.of_nat n ≤ Z.of_nat frames * dr + sr - 1); [|nia].
    rewrite Hn. apply Z.div_le_upper_bound; nia. }
  rewrite <-Hn, u32_small by nia.
  replace (Z.to_nat (Z.of_nat n * Z.of_nat ch)) with (n * ch)%nat by lia.
  assert (ch = 1 ∨ ch = 2)%nat as [->| ->] by lia.
  - rewrite Nat.mul_1_r in *. subst frames.
    destruct (resample_mono_ok sr dr src) as (out & E & Hl & Hk); [done|done|lia|].
    fold n in E. simpl. rewrite E. simpl. exists out. split_and!; [done|lia|].
    intros k c Hkn Hc. split; [by apply source_pos_bound|].
    replace (k * 1 + c)%nat with k by lia. rewrite Hk by done. f_equal. lia.
  - destruct (resample_stereo_ok sr dr src frames) as (out & E & Hl & Hk); [done|done|lia|lia|].
    fold n in E. simpl. rewrite E. simpl. exists out. split_and!; [done|done|].
    intros k c Hkn Hc. split; [by apply source_pos_bound|by apply Hk].
Qed.

End Resample.

(** ** The chain of converters *)

(** What [GluePcmResampler] relies on, and asserts, about a resampler: it keeps the number
    of channels, delivers the requested rate, and asks for a format that can be produced. *)
Definition convertible (f : SampleFormat) : bool :=
  match f with S16 | S24_P32 | S32 | FLOAT => true | UNDEFINED | S8 | DSD => false end.

Class PcmResamplerLaws (R : Type) `{!PcmResampler R} := {
  resampler_Open_ok af rate r :
    IsValid af = true → audio_valid_sample_rate rate = true →
    wp (resampler_Open af rate)
      (λ fs _, IsValid fs.2 = true ∧ channels fs.1 = channels af ∧ channels fs.2 = channels af ∧
               sample_rate fs.2 = rate ∧ (format fs.1 = format af ∨ convertible (format fs.1) = true))
      (λ _ _, True) r;
}.

#[global] Instance fallback_laws `{!Host, !Memory} : PcmResamplerLaws FallbackPcmResampler.
Proof.
  split. intros af rate r Hv Hr. unfold wp, resampler_Open, fallback_resampler, Fallback_Open.
  unfold bind, assert_, lift, modify, ret. rewrite Hv, Hr. unfold IsValid in *.
  destruct af as [sr f ch]. simpl in *. destruct f; simpl in *; try (by rewrite andb_false_r in Hv).
  all: split_and!; try done; rewrite ?Hr; try lia; by (left + right).
Qed.

Section Chain.
Context `{!Host, !Memory} {R : Type} `{!PcmResampler R, !PcmResamplerLaws R}.

Definition format_closed (c : PcmFormatConverter) : Prop := fc_src c = UNDEFINED ∧ fc_dest c = UNDEFINED.

(** What the destructors assert: every converter is closed. *)
Record closed (c : PcmConvert R) : Prop := {
  cl_formats : IsValid (src_format c) = false ∧ IsValid (dest_format c) = false;
  cl_format : format_closed (format_converter c);
  cl_channels : cc_format (channels_converter c) = UNDEFINED;
  cl_resampler : format_closed (g_converter (glue c));
}.

Lemma make_convert_closed (r : R) : closed (make_convert r).
Proof. by split. Qed.

(** The resampler's own converter is open only if it is needed. *)
Definition glue_ok (open : bool) (g : GluePcmResampler R) : Prop :=
  if open then (requested_sample_format g = src_sample_format g → format_closed (g_converter g))
  else format_closed (g_converter g).

Lemma Glue_Close_ok g : glue_ok true g → format_closed (g_converter (Glue_Close g)).
Proof.
  unfold glue_ok, Glue_Close. intros Hg. case_bool_decide; simpl; [done|].
  apply Hg. by destruct (decide (requested_sample_format g = src_sample_format g)).
Qed.

Lemma Format_Open_ok src dest c :
  is_undefined src = false → is_undefined dest = false → format_closed c →
  wp (Format_Open src dest) (λ _ c', fc_src c' = src ∧ fc_dest c' = dest ∧ fc_dither c' = fc_dither c)
    (λ _ c', c' = c ∧ convertible dest = false) c.
Proof.
  intros Hs Hd Hc. unfold Format_Open. wp_steps. apply wp_assert; [by rewrite Hs|].
  wp_steps. apply wp_assert; [by rewrite Hd|]. destruct dest; try done; by wp_steps.
Qed.

Lemma Glue_Open_ok af rate g :
  IsValid af = true → audio_valid_sample_rate rate = true → format_closed (g_converter g) →
  wp (Glue_Open af rate) (λ _ g', glue_ok true g' ∧ is_undefined (output_sample_format g') = false)
    (λ _ g', format_closed (g_converter g')) g.
Proof.
  intros Hv Hr Hg. unfold Glue_Open. wp_steps. apply wp_assert; [done|]. wp_steps.
  apply wp_assert; [done|]. wp_steps. apply wp_zoom. eapply wp_mono; [by apply resampler_Open_ok| |done].
  intros [req dst] r (Hdv & Hc1 & Hc2 & Hsr & Hf). simpl in *. wp_steps.
  apply wp_assert; [done|]. wp_steps. apply wp_assert; [lia|]. wp_steps. apply wp_assert; [lia|].
  wp_steps. apply wp_assert; [lia|]. wp_steps.
  assert (Hund : ∀ a, IsValid a = true → is_undefined (format a) = false).
  { intros [? f ?]. unfold IsValid. by destruct f; simpl; rewrite ?andb_false_r. }
  assert (Hout : is_undefined (format dst) = false) by (by apply Hund).
  case_bool_decide as Hd.
  - apply wp_zoom. destruct Hf as [Hf|Hf]; [done|]. eapply wp_mono.
    + apply Format_Open_ok; [by apply Hund| |done]. by destruct (format req).
    + intros _ c _. wp_steps. simpl. split; [|done]. done.
    + by intros e c [-> _].
  - wp_steps. simpl. split; [|done]. by intros _.
Qed.

Lemma close_resampler_ok c :
  glue_ok (enable_resampler c) (glue c) →
  wp close_resampler (λ _ c', ∃ g, c' = set_glue g c ∧ format_closed (g_converter g))
    (λ _ _, False) c.
Proof.
  intros Hg. unfold close_resampler. wp_steps. destruct (enable_resampler c); wp_steps.
  - eexists. split; [done|]. by apply Glue_Close_ok.
  - exists (glue c). split; [by destruct c|done].
Qed.

Lemma close_format_ok (c : PcmConvert R) :
  (enable_format c = false → format_closed (format_converter c)) →
  wp close_format (λ _ c', ∃ f, c' = set_format_converter f c ∧ format_closed f) (λ _ _, False) c.
Proof.
  intros Hf. unfold close_format. wp_steps. destruct (enable_format c); wp_steps.
  - by eexists.
  - exists (format_converter c). split; [by destruct c|by apply Hf].
Qed.

Lemma open_resampler_ok fmt dest c :
  IsValid fmt = true → IsValid dest = true → closed c →
  wp (open_resampler fmt dest)
    (λ fmt' c', ∃ g b, c' = set_glue g (set_enable_resampler b c) ∧ glue_ok b g ∧
       is_undefined (format fmt') = false ∧ channels fmt' = channels fmt)
    (λ _ c', closed c') c.
Proof.
  intros Hv Hd [Hf1 Hf2 Hc Hg]. unfold open_resampler. wp_steps. simpl.
  assert (Hund : is_undefined (format fmt) = false).
  { destruct fmt as [? f ?]. unfold IsValid in Hv. by destruct f; simpl in *; rewrite ?andb_false_r in Hv. }
  destruct (sample_rate fmt =? sample_rate dest); simpl; wp_steps.
  - exists (glue c), false. split_and!; done.
  - apply wp_zoom. eapply wp_mono.
    + apply Glue_Open_ok; [done| |done]. unfold IsValid in Hd. lia.
    + intros _ g [Hok Hout]. wp_steps. exists g, true. done.
    + intros e g Hcl. by split.
Qed.

Lemma open_format_ok fmt dest c :
  is_undefined (format fmt) = false → IsValid dest = true →
  glue_ok (enable_resampler c) (glue c) → format_closed (format_converter c) →
  wp (open_format fmt dest)
    (λ fmt' c', ∃ f b, c' = set_format_converter f (set_enable_format b c) ∧
       (b = false → format_closed f) ∧ format fmt' = format dest)
    (λ _ c', ∃ g b, c' = set_glue g (set_enable_format b c) ∧ format_closed (g_converter g)) c.
Proof.
  intros Hu Hd Hg Hf. unfold open_format. wp_steps. simpl.
  assert (Hund : is_undefined (format dest) = false).
  { destruct dest as [? f ?]. unfold IsValid in Hd. by destruct f; simpl in *; rewrite ?andb_false_r in Hd. }
  case_bool_decide; wp_steps.
  - apply wp_zoom. eapply wp_mono; [by apply Format_Open_ok|..].
    + intros _ f _. wp_steps. exists f, true. done.
    + intros e f [-> _]. wp_steps. eapply wp_mono; [apply close_resampler_ok| |done].
      { done. }
      intros _ c' (g & -> & Hcl). wp_steps. exists g, true. split; [by destruct c|done].
  - exists (format_converter c), false. done.
Qed.

Lemma open_channels_ok fmt dest c :
  is_undefined (format fmt) = false →
  glue_ok (enable_resampler c) (glue c) →
  (enable_format c = false → format_closed (format_converter c)) →
  cc_format (channels_converter c) = UNDEFINED →
  wp (open_channels fmt dest)
    (λ _ c', ∃ h b, c' = set_channels_converter h (set_enable_channels b c) ∧
       (b = false → cc_format h = UNDEFINED))
    (λ _ c', ∃ g f b, c' = set_glue g (set_format_converter f (set_enable_channels b c)) ∧
       format_closed (g_converter g) ∧ format_closed f) c.
Proof.
  intros Hu Hg Hf Hc. unfold open_channels. wp_steps. simpl.
  destruct (channels fmt =? channels dest); simpl; wp_steps.
  { exists (channels_converter c), false. done. }
  apply wp_zoom. unfold Channels_Open. wp_steps. apply wp_assert; [by rewrite Hu|].
  destruct (format fmt); try done; wp_steps; try (by eexists _, true).
  all: eapply wp_mono; [by apply close_format_ok| |done]; intros _ c' (f & -> & Hcl); wp_steps;
    (eapply wp_mono; [by apply close_resampler_ok| |done]); intros _ c' (g & -> & Hcl'); wp_steps;
    (exists g, f, true; split; [by destruct c|done]).
Qed.

(** C10: opening and closing the converter.  From a closed converter, [Open] with valid formats
    fails no assertion of its three stages, whatever the resampler does within its contract;
    if a stage throws, the stages before it are closed again; and closing what was opened
    leaves every converter closed, as their destructors demand. *)
Theorem convert_open_close src dest (c : PcmConvert R) :
  closed c → IsValid src = true → IsValid dest = true →
  wp (Convert_Open src dest)
    (λ _ c', src_format c' = src ∧ dest_format c' = dest ∧
       wp Convert_Close (λ _ c'', closed c'') (λ _ _, False) c')
    (λ _ c', closed c') c.
Proof.
  intros Hc Hs Hd. pose proof Hc as [[Hf1 Hf2] Hfc Hcc Hgc]. unfold Convert_Open. wp_steps.
  apply wp_assert; [by rewrite Hf1|]. wp_steps. apply wp_assert; [by rewrite Hf2|]. wp_steps.
  apply wp_assert; [done|]. wp_steps. apply wp_assert; [done|]. wp_steps.
  eapply wp_mono; [apply open_resampler_ok; [|done..]| |done].
  { destruct src as [? f ?]. by destruct f. }
  intros fmt c1 (g & b & -> & Hg & Hu & _). wp_steps.
  eapply wp_mono; [by apply open_format_ok| |].
  2:{ intros e c' (g' & b' & -> & Hcl). by split. }
  intros fmt' c2 (f & b' & -> & Hf & Hfmt). wp_steps.
  eapply wp_mono; [apply open_channels_ok|..]; [|done|done|done| |].
  - rewrite Hfmt. destruct dest as [? q ?]. unfold IsValid in Hd.
    by destruct q; simpl in *; rewrite ?andb_false_r in Hd.
  - intros _ c3 (h & b'' & -> & Hh). wp_steps. split_and!; [done|done|].
    unfold Convert_Close. wp_steps. simpl.
    destruct b''; wp_steps.
    + eapply wp_mono; [by apply close_format_ok| |done]. intros _ c4 (f4 & -> & Hcl). wp_steps.
      eapply wp_mono; [by apply close_resampler_ok| |done]. intros _ c5 (g5 & -> & Hcl'). wp_steps.
      by split.
    + eapply wp_mono; [by apply close_format_ok| |done]. intros _ c4 (f4 & -> & Hcl). wp_steps.
      eapply wp_mono; [by apply close_resampler_ok| |done]. intros _ c5 (g5 & -> & Hcl'). wp_steps.
      split; try done. by apply Hh.
  - intros e c' (g' & f' & b'' & -> & Hcl & Hcl'). by split.
Qed.

End Chain.

(** ** Whole frames through the chain *)

Section Frames.
Context `{!Host, !Memory}.

Lemma sum_int_ok T l : T ∈ [traits_S16; traits_S24_P32; traits_S32] →
  Forall (is_sample T) l →
  ∀ s n, n * MIN T ≤ s ≤ n * MAX T → 0 ≤ n → n + Z.of_nat (length l) ≤ 8 →
  ∃ s', sum_int T s l = Some s' ∧
    (n + Z.of_nat (length l)) * MIN T ≤ s' ≤ (n + Z.of_nat (length l)) * MAX T.
Proof.
  intros HT Hl.
  assert (Hw : - 2 ^ (sum_bits T - 1) ≤ 8 * MIN T ∧ 8 * MAX T < 2 ^ (sum_bits T - 1) ∧ MIN T < 0 ∧ 0 < MAX T)
    by (each_traits HT; cbv; repeat split; congruence).
  induction Hl as [|y l Hy Hl IH]; intros s n Hs Hn H8; simpl.
  { exists s. split; [done|]. lia. }
  simpl in H8. unfold is_sample in Hy.
  assert (Hs' : (n + 1) * MIN T ≤ s + y ≤ (n + 1) * MAX T) by lia.
  rewrite int_Some by nia. simpl.
  destruct (IH (s + y) (n + 1)) as (s' & -> & Hr); [done|lia|lia|]. exists s'. split; [done|].
  replace (n + Z.of_nat (S (length l))) with (n + 1 + Z.of_nat (length l)) by lia. done.
Qed.

Lemma quot_between lo hi n s : 0 < n → lo ≤ 0 → 0 ≤ hi → n * lo ≤ s ≤ n * hi → lo ≤ Z.quot s n ≤ hi.
Proof.
  intros Hn Hlo Hhi Hs. split.
  - apply Z.quot_le_lower_bound; lia.
  - apply Z.quot_le_upper_bound; lia.
Qed.

(** A frame's average is a sample again. *)
Lemma average_ok T frame : T ∈ [traits_S16; traits_S24_P32; traits_S32] →
  (1 ≤ length frame ≤ 8)%nat → Forall (is_sample T) frame →
  ∃ y, average_int T frame = Some y ∧ is_sample T y.
Proof.
  intros HT Hlen Hf. destruct frame as [|x l]; [simpl in Hlen; lia|].
  apply Forall_cons_1 in Hf as [Hx Hl]. unfold average_int. simpl in Hlen.
  destruct (sum_int_ok T l HT Hl x 1) as (s' & -> & Hs); [unfold is_sample in Hx; lia|lia|lia|].
  simpl. eexists. split; [done|].
  assert (Hq : is_sample T (Z.quot s' (Z.pos (Pos.of_succ_nat (length l))))).
  { apply quot_between; [lia|each_traits HT; cbv; congruence|each_traits HT; cbv; congruence|].
    replace (Z.pos _) with (1 + Z.of_nat (length l)) by lia. done. }
  rewrite to_signed_id; [done|each_traits HT; done|].
  assert (Hr : - 2 ^ (value_bits T - 1) ≤ MIN T ∧ MAX T < 2 ^ (value_bits T - 1))
    by (each_traits HT; cbv; repeat split; congruence).
  unfold is_sample in Hq. lia.
Qed.

Lemma stereo_average T a b : StereoToMono_int T a b = average_int T [a; b].
Proof. unfold StereoToMono_int, average_int. simpl. by destruct (int _ _). Qed.

Lemma mapM_samples {A} (P : A → Prop) (Q : Z → Prop) (f : A → option Z) l :
  (∀ x, P x → ∃ y, f x = Some y ∧ Q y) → Forall P l →
  ∃ l', mapM f l = Some l' ∧ length l' = length l ∧ Forall Q l'.
Proof.
  intros Hf. induction 1 as [|x l Hx Hl (l' & E & Hlen & Hl')].
  { exists []. done. }
  destruct (Hf x Hx) as (y & Ey & Hy). exists (y :: l'). cbn [mapM]. rewrite Ey. simpl. rewrite E.
  split_and!; [done|simpl; lia|by constructor].
Qed.

Lemma bind_replicate (Q : Z → Prop) m l : Forall Q l →
  length (l ≫= replicate m) = (length l * m)%nat ∧ Forall Q (l ≫= replicate m).
Proof.
  induction 1 as [|x l Hx Hl [IH1 IH2]]; [done|]. rewrite bind_cons, length_app, length_replicate, IH1.
  split; [simpl; lia|]. apply Forall_app_2; [by apply Forall_replicate|done].
Qed.

Lemma stereo_to_mono_ok T k l :
  T ∈ [traits_S16; traits_S24_P32; traits_S32] → length l = (k * 2)%nat → Forall (is_sample T) l →
  ∃ l', StereoToMono (StereoToMono_int T) l = Some l' ∧ length l' = k ∧ Forall (is_sample T) l'.
Proof.
  intros HT. revert l. induction k as [|k IH]; intros l Hlen Hl.
  { apply nil_length_inv in Hlen as ->. by exists []. }
  destruct l as [|a [|b l]]; simpl in Hlen; try lia.
  apply Forall_cons_1 in Hl as [Ha Hl]. apply Forall_cons_1 in Hl as [Hb Hl].
  destruct (average_ok T [a; b]) as (y & Ey & Hy); [done|simpl; lia|by rewrite !Forall_cons|].
  destruct (IH l) as (l' & El & Hl' & Hs); [lia|done|].
  exists (y :: l'). simpl. rewrite stereo_average, Ey. simpl. rewrite El.
  split_and!; [done|simpl; lia|by constructor].
Qed.

Lemma convert_channels_ok T n m l k :
  T ∈ [traits_S16; traits_S24_P32; traits_S32] → (1 ≤ n ≤ 8)%nat →
  length l = (k * n)%nat → Forall (is_sample T) l →
  ∃ l', pcm_convert_channels T m n l = Some l' ∧ length l' = (k * m)%nat ∧ Forall (is_sample T) l'.
Proof.
  intros HT Hn Hlen Hl. unfold pcm_convert_channels, ConvertChannels.
  assert (Hm : (length l mod n = 0)%nat) by (rewrite Hlen; apply Nat.Div0.mod_mul).
  rewrite Hm. simpl. destruct (split_blocks_spec n l) as (Hc & Hb & Hk); [lia|done|].
  destruct (mapM_samples (λ b, length b = n ∧ Forall (is_sample T) b) (is_sample T) (average_int T)
    (split_blocks n l)) as (av & Eav & Hav & Hs).
  { intros b [Hb1 Hb2]. apply average_ok; [done|lia|done]. }
  { apply Forall_and. split; [done|]. apply Forall_concat. by rewrite Hc. }
  assert (Hlav : length av = k) by (rewrite Hav, Hk, Hlen, Nat.div_mul; lia).
  destruct ((n =? 1)%nat && (m =? 2)%nat) eqn:E1; [|destruct ((n =? 2)%nat && (m =? 1)%nat) eqn:E2].
  - assert (n = 1 ∧ m = 2)%nat as [-> ->] by lia.
    destruct (bind_replicate (is_sample T) 2 l Hl) as [H1 H2].
    exists (MonoToStereo l). split_and!; [done| |done]. rewrite Nat.mul_1_r in Hlen. by subst k.
  - assert (n = 2 ∧ m = 1)%nat as [-> ->] by lia. rewrite Nat.mul_1_r. by apply stereo_to_mono_ok.
  - destruct (bind_replicate (is_sample T) m av Hs) as [H1 H2]. rewrite Hlav in H1.
    destruct (m =? 2)%nat eqn:E3.
    + assert (m = 2)%nat as -> by lia. unfold NToStereo. rewrite Hm. simpl. rewrite Eav. simpl.
      eexists. split; [done|]. done.
    + unfold NToM. rewrite Hm. simpl. rewrite Eav. simpl. eexists. split; [done|]. done.
Qed.

(** The dither state the conversion to 16 bit needs. *)
Definition dither_ready (TS : SampleTraits) (d : PcmDither) : Prop :=
  TS ∈ [traits_S24_P32; traits_S32] → dither_ok (BITS TS - 16) d.

Lemma convert_format_ok f g TS TD d l :
  traits_of f = Some TS → traits_of g = Some TD → f ≠ g → g ≠ S8 → dither_ready TS d →
  Forall (is_sample TS) l →
  ∃ l' d', Format_Convert (Some (ToVoid (SAMPLE_SIZE TS) l)) (mkFormatConverter f g d) =
      Some (Some (ToVoid (SAMPLE_SIZE TD) l'), mkFormatConverter f g d') ∧
    dither_ready TS d' ∧ length l' = length l ∧ Forall (is_sample TD) l'.
Proof.
  intros Hf Hg Hne H8 Hd Hl. pose proof (samples_in_memory TS l (traits_cases f TS Hf) Hl) as Hmem.
  assert (Hdith : ∀ ST, ST ∈ [traits_S24_P32; traits_S32] → TS = ST → ∃ l' d',
    DitherConvert ST traits_S16 d l = Some (l', d') ∧ dither_ok (BITS ST - 16) d' ∧
    length l' = length l ∧ Forall (is_sample traits_S16) l').
  { intros ST HT ->. pose proof (convert_widths ST HT) as (_ & _ & _ & Hk & _).
    destruct (map_state_steps (DitherConvert_sample ST traits_S16) id (is_sample ST)
      (BITS ST - 16) (2 ^ 15) d l) as (ys & d' & E & Hd' & Hlen & Hys & _);
      [lia|done| |by apply Hd|done|].
    { intros d0 x. by apply convert_step. }
    exists ys, d'. split_and!; [done|done|done|]. by apply (range_sample traits_S16); [by right; left|]. }
  assert (Hshift : ∀ ST DT, (ST, DT) ∈ shifts → TS = ST → ∃ l',
    AllocateConvert (LeftShift ST DT) l = Some l' ∧ length l' = length l ∧ Forall (is_sample DT) l').
  { intros ST DT HS ->. destruct (LeftShift_all ST DT l HS Hl) as (l' & E & Hlen & Hl' & _). eauto. }
  unfold Format_Convert. cbn [fc_dest fc_src fc_dither]. rewrite contents_Some.
  destruct g, f; simpl in Hf, Hg; simplify_eq; try done;
    unfold pcm_convert_to_16, pcm_convert_to_24, pcm_convert_to_32;
    change (SAMPLE_SIZE traits_S8) with 1%nat in *; change (SAMPLE_SIZE traits_S16) with 2%nat in *;
    change (SAMPLE_SIZE traits_S24_P32) with 4%nat in *; change (SAMPLE_SIZE traits_S32) with 4%nat in *;
    rewrite Hmem; cbn [mbind option_bind].
  all: try (match goal with |- context [AllocateConvert (LeftShift ?ST ?DT) _] =>
         destruct (Hshift ST DT) as (l' & E & Hlen & Hs) end;
       [unfold shifts; rewrite !elem_of_cons; tauto|done|rewrite E; exists l', d; done]).
  - destruct (Hdith traits_S24_P32) as (l' & d' & E & Hd' & Hlen & Hs); [by left|done|].
    unfold Dither24To16. rewrite E. exists l', d'. split_and!; try done. intros _. exact Hd'.
  - destruct (Hdith traits_S32) as (l' & d' & E & Hd' & Hlen & Hs); [by right; left|done|].
    unfold Dither32To16. rewrite E. exists l', d'. split_and!; try done. intros _. exact Hd'.
  - rewrite pure_convert. eexists _, d. split_and!; [done|done|by rewrite length_fmap|].
    apply Forall_fmap. eapply Forall_impl; [exact Hl|]. intros x Hx. simpl.
    destruct (RightShift_ok x Hx) as [-> ?]. done.
Qed.

Context {R : Type} `{!PcmResampler R} (dsd : Z → list Z → option (list Z)).

(** A converter opened for two formats of the same rate. *)
Record ready (src dest : AudioFormat) (TS : SampleTraits) (c : PcmConvert R) : Prop := {
  rd_src : src_format c = src;
  rd_resampler : enable_resampler c = false;
  rd_format : enable_format c = bool_decide (format src ≠ format dest);
  rd_channels : enable_channels c = negb (channels src =? channels dest);
  rd_fc : enable_format c = true → format dest ≠ S8 ∧
    ∃ d, format_converter c = mkFormatConverter (format src) (format dest) d ∧ dither_ready TS d;
  rd_cc : enable_channels c = true → format dest ≠ S8 ∧
    channels_converter c = mkChannelsConverter (format dest) (channels src) (channels dest);
}.

Lemma open_ready src dest TS TD r :
  IsValid src = true → IsValid dest = true → sample_rate src = sample_rate dest →
  traits_of (format src) = Some TS → traits_of (format dest) = Some TD →
  wp (Convert_Open src dest) (λ _ c, ready src dest TS c) (λ _ _, True) (make_convert r).
Proof.
  intros Hs Hd Hr HS HD. unfold Convert_Open. wp_steps. apply wp_assert; [done|]. wp_steps.
  apply wp_assert; [done|]. wp_steps. apply wp_assert; [done|]. wp_steps. apply wp_assert; [done|].
  wp_steps. replace (match format src with DSD => FLOAT | f => f end) with (format src)
    by (by destruct (format src)).
  unfold open_resampler. wp_steps. simpl.
  rewrite Hr, Z.eqb_refl. simpl. wp_steps. unfold open_format. wp_steps. simpl.
  assert (Hready : ∀ d, d = make_dither → dither_ready TS d).
  { intros d -> HT. apply make_dither_ok. pose proof (convert_widths TS HT). lia. }
  assert (Hch : ∀ c : PcmConvert R, enable_resampler c = false →
    enable_format c = bool_decide (format src ≠ format dest) →
    (enable_format c = true → format dest ≠ S8 ∧ ∃ d, format_converter c =
       mkFormatConverter (format src) (format dest) d ∧ dither_ready TS d) →
    wp (open_channels (mkAudioFormat (sample_rate dest) (format dest) (channels src)) dest)
      (λ _ c', ready src dest TS (set_formats src dest c')) (λ _ _, True) c).
  { intros c H1 H2 H3. unfold open_channels. wp_steps. simpl.
    destruct (channels src =? channels dest) eqn:Ec; simpl; wp_steps.
    { split; simpl; try done. by rewrite Ec. }
    apply wp_zoom. unfold Channels_Open. wp_steps. apply wp_assert; [by destruct (format dest)|].
    destruct (format dest) eqn:Ef; try done; wp_steps.
    2-4: split; simpl; try done; rewrite ?Ec, ?Ef; done.
    unfold wp, close_format, close_resampler, bind, get, modify, ret, throw.
    by repeat case_match. }
  case_bool_decide as Hne; wp_steps.
  - apply wp_zoom. unfold Format_Open. wp_steps. apply wp_assert; [by destruct (format src)|]. wp_steps.
    apply wp_assert; [by destruct (format dest)|].
    destruct (format dest) eqn:Ef; try done; wp_steps.
    all: eapply wp_mono; [apply Hch|intros [] c' Hc'; wp_steps; exact Hc'|done]; simpl; try done;
      intros _; (split; [done|]); eexists; (split; [done|by apply Hready]).
  - eapply wp_mono; [apply Hch|intros [] c' Hc'; wp_steps; exact Hc'|done]; simpl; try done.
Qed.

Lemma wide_traits g T : traits_of g = Some T → g ≠ S8 → T ∈ [traits_S16; traits_S24_P32; traits_S32].
Proof. destruct g; simpl; intros ? ?; simplify_eq; set_solver. Qed.

Lemma Channels_Convert_ok g T n m k l :
  traits_of g = Some T → g ≠ S8 → 1 ≤ n ≤ 8 →
  length l = (k * Z.to_nat n)%nat → Forall (is_sample T) l →
  ∃ l', Channels_Convert (Some (ToVoid (SAMPLE_SIZE T) l)) (mkChannelsConverter g n m) =
      Some (Some (ToVoid (SAMPLE_SIZE T) l')) ∧
    length l' = (k * Z.to_nat m)%nat ∧ Forall (is_sample T) l'.
Proof.
  intros HT H8 Hn Hlen Hl. pose proof (samples_in_memory T l (traits_cases g T HT) Hl) as Hmem.
  destruct (convert_channels_ok T (Z.to_nat n) (Z.to_nat m) l k) as (l' & E & Hl' & Hs);
    [by eapply wide_traits|lia|done|done|].
  exists l'. split; [|done]. unfold Channels_Convert. cbn [cc_format src_channels dest_channels].
  rewrite contents_Some. destruct g; simpl in HT; simplify_eq; try done.
  all: change (SAMPLE_SIZE traits_S16) with 2%nat in *; change (SAMPLE_SIZE traits_S24_P32) with 4%nat in *;
    change (SAMPLE_SIZE traits_S32) with 4%nat in *; rewrite Hmem; cbn [mbind option_bind]; by rewrite E.
Qed.

Lemma Convert_ok src dest TS TD c k l :
  ready src dest TS c → IsValid src = true →
  traits_of (format src) = Some TS → traits_of (format dest) = Some TD →
  length l = (k * Z.to_nat (channels src))%nat → Forall (is_sample TS) l →
  ∃ l' c', Convert dsd (Some (ToVoid (SAMPLE_SIZE TS) l)) c =
      Done (Some (ToVoid (SAMPLE_SIZE TD) l')) c' ∧ ready src dest TS c' ∧
    length l' = (k * Z.to_nat (channels dest))%nat ∧ Forall (is_sample TD) l'.
Proof.
  intros Hrd Hv HS HD Hlen Hl. pose proof Hrd as [Hsrc Hr Hf Hc Hfc Hcc].
  assert (Hch : 1 ≤ channels src ≤ 8).
  { unfold IsValid, audio_valid_channel_count, MAX_CHANNELS in Hv. lia. }
  assert (∃ l1 c1, (if enable_format c then
        (r <- lift (Format_Convert (Some (ToVoid (SAMPLE_SIZE TS) l)) (format_converter c)) ;;
         modify (set_format_converter r.2) ;; ret r.1)%prog
      else ret (Some (ToVoid (SAMPLE_SIZE TS) l))) c = Done (Some (ToVoid (SAMPLE_SIZE TD) l1)) c1 ∧
      ready src dest TS c1 ∧ length l1 = length l ∧ Forall (is_sample TD) l1)
    as (l1 & c1 & E1 & Hready & Hl1 & Hs1).
  { rewrite Hf. case_bool_decide as Hne.
    - destruct Hfc as (H8 & d & Efc & Hd); [by rewrite Hf|].
      destruct (convert_format_ok (format src) (format dest) TS TD d l) as (l1 & d1 & E & Hd1 & H1 & H2);
        [done..|]. unfold bind, lift. rewrite Efc, E. simpl.
      eexists l1, _. split; [done|]. split; [|done]. split; simpl; try done.
      + by rewrite bool_decide_true.
      + intros _. split; [done|]. by eexists.
    - assert (format src = format dest) as Heq by (by destruct (decide (format src = format dest))).
      rewrite Heq in HS. simplify_eq. exists l, c. split; [done|]. split; [exact Hrd|done]. }
  assert (EC : Convert dsd (Some (ToVoid (SAMPLE_SIZE TS) l)) c =
    match (if enable_format c then
        (r <- lift (Format_Convert (Some (ToVoid (SAMPLE_SIZE TS) l)) (format_converter c)) ;;
         modify (set_format_converter r.2) ;; ret r.1)%prog
      else ret (Some (ToVoid (SAMPLE_SIZE TS) l))) c with
    | Done b c1 => (if enable_channels c then lift (Channels_Convert b (channels_converter c))
                    else ret b) c1
    | Raised e c1 => Raised e c1
    | Fail => Fail
    end).
  { unfold Convert, bind, get, ret. rewrite Hsrc, Hr. by destruct (format src). }
  rewrite EC, E1.
  rewrite Hc. destruct (channels src =? channels dest) eqn:Ec; simpl.
  - exists l1, c1. split_and!; [done|done| |done]. rewrite Hl1, Hlen. f_equal. lia.
  - destruct Hcc as [H8 Ecc]; [by rewrite Hc|].
    destruct (Channels_Convert_ok (format dest) TD (channels src) (channels dest) k l1)
      as (l2 & E2 & Hl2 & Hs2); [done|done|done|lia|done|].
    unfold lift. rewrite Ecc, E2. exists l2, c1. done.
Qed.

(** One buffer after the other. *)
Fixpoint convert_all (bufs : list buffer) : prog (PcmConvert R) (list buffer) :=
  match bufs with
  | [] => ret []
  | b :: bufs => (x <- Convert dsd b ;; l <- convert_all bufs ;; ret (x :: l))%prog
  end.

Lemma convert_all_ok src dest TS TD c ls :
  ready src dest TS c → IsValid src = true →
  traits_of (format src) = Some TS → traits_of (format dest) = Some TD →
  Forall (λ l, Forall (is_sample TS) l ∧ ∃ k, length l = (k * Z.to_nat (channels src))%nat) ls →
  ∃ outs c', convert_all (Some ∘ ToVoid (SAMPLE_SIZE TS) <$> ls) c =
      Done (Some ∘ ToVoid (SAMPLE_SIZE TD) <$> outs) c' ∧
    Forall2 (λ l out, Forall (is_sample TD) out ∧
      (length out * Z.to_nat (channels src) = length l * Z.to_nat (channels dest))%nat) ls outs.
Proof.
  intros Hr Hv HS HD Hl. revert c Hr. induction Hl as [|l ls (Hl & k & Hk) Hls IH]; intros c Hr.
  { exists [], c. done. }
  destruct (Convert_ok src dest TS TD c k l) as (out & c1 & E & Hr1 & Hlen & Hs); [done..|].
  destruct (IH c1 Hr1) as (outs & c2 & E2 & H2). exists (out :: outs), c2.
  rewrite !fmap_cons. cbn [convert_all]. unfold bind at 1. cbn [compose]. rewrite E.
  unfold bind. rewrite E2. split; [done|]. constructor; [|done]. split; [done|]. nia.
Qed.

(** C9: the conversion chain.  A converter opened for two integer formats of the same rate
    converts every stream of buffers of whole frames: no shift, sum or dither step
    overflows, no buffer fails, and each result has the same number of frames, with the
    destination's channels and samples in its range. *)
Theorem convert_stream src dest TS TD r c ls :
  IsValid src = true → IsValid dest = true → sample_rate src = sample_rate dest →
  traits_of (format src) = Some TS → traits_of (format dest) = Some TD →
  Convert_Open src dest (make_convert r) = Done tt c →
  Forall (λ l, Forall (is_sample TS) l ∧ ∃ k, length l = (k * Z.to_nat (channels src))%nat) ls →
  ∃ outs c', convert_all (Some ∘ ToVoid (SAMPLE_SIZE TS) <$> ls) c =
      Done (Some ∘ ToVoid (SAMPLE_SIZE TD) <$> outs) c' ∧
    Forall2 (λ l out, Forall (is_sample TD) out ∧
      (length out * Z.to_nat (channels src) = length l * Z.to_nat (channels dest))%nat) ls outs.
Proof.
  intros Hs Hd Hr HS HD Ho Hl. pose proof (open_ready src dest TS TD r Hs Hd Hr HS HD) as Hw.
  unfold wp in Hw. rewrite Ho in Hw. by apply (convert_all_ok src dest).
Qed.

End Frames.

#[local] Instance little_endian_host : Host := {| IsBigEndian := false |}.
#[local] Instance zero_memory : Memory := {| garbage := λ _, 0 |}.

Lemma format_roundtrip_witness :
  let data := ToVoid (SAMPLE_SIZE traits_S16) [1; -32768; 12345] in
  ∃ mid, Format_Convert (Some data) (mkFormatConverter S16 FLOAT make_dither) =
      Some (Some mid, mkFormatConverter S16 FLOAT make_dither) ∧
    Format_Convert (Some mid) (mkFormatConverter FLOAT S16 make_dither) =
      Some (Some data, mkFormatConverter FLOAT S16 make_dither).
Proof.
  apply (format_roundtrip S16 FLOAT traits_S16 make_dither make_dither [1; -32768; 12345]).
  - by left.
  - done.
  - repeat constructor; cbv; congruence.
Defined.

Lemma resample_correct_witness :
  ∃ out, pcm_resample_fallback_void (SAMPLE_SIZE traits_S16) 2 44100
      (ToVoid (SAMPLE_SIZE traits_S16) [1; 2; 3; 4; 5; 6]) 48000 =
    Some (ToVoid (SAMPLE_SIZE traits_S16) out) ∧ length out = 8%nat.
Proof.
  destruct (resample_correct traits_S16 2 3 44100 48000 [1; 2; 3; 4; 5; 6]) as (out & E & Hl & _).
  - by right; left.
  - lia.
  - done.
  - done.
  - done.
  - repeat constructor; cbv; congruence.
  - done.
  - exists out. split; [exact E|exact Hl].
Defined.

Definition cd : AudioFormat := mkAudioFormat 44100 S32 2.
Definition mono16 : AudioFormat := mkAudioFormat 44100 S16 1.

Lemma convert_open_close_witness :
  wp (Convert_Open cd mono16)
    (λ _ c', src_format c' = cd ∧ dest_format c' = mono16 ∧
       wp Convert_Close (λ _ c'', closed c'') (λ _ _, False) c')
    (λ _ c', closed c') (make_convert make_fallback).
Proof.
  apply (convert_open_close cd mono16 (make_convert make_fallback)).
  - apply make_convert_closed.
  - done.
  - done.
Defined.

Definition cd_to_mono : PcmConvert FallbackPcmResampler :=
  mkConvert (mkGlue make_fallback UNDEFINED UNDEFINED UNDEFINED make_format_converter)
    (mkFormatConverter S32 S16 make_dither) (mkChannelsConverter S16 2 1) cd mono16 false true true.

Lemma convert_stream_witness :
  Convert_Open cd mono16 (make_convert make_fallback) = Done tt cd_to_mono ∧
  ∃ outs c', convert_all (λ _ l, Some l) (Some ∘ ToVoid (SAMPLE_SIZE traits_S32) <$> [[100000; -5; 7; 9]])
      cd_to_mono = Done (Some ∘ ToVoid (SAMPLE_SIZE traits_S16) <$> outs) c' ∧ length outs = 1%nat.
Proof.
  assert (E : Convert_Open cd mono16 (make_convert make_fallback) = Done tt cd_to_mono) by done.
  split; [exact E|].
  destruct (convert_stream (λ _ l, Some l) cd mono16 traits_S32 traits_S16 make_fallback cd_to_mono
    [[100000; -5; 7; 9]]) as (outs & c' & Eo & Hf).
  - done.
  - done.
  - done.
  - done.
  - done.
  - exact E.
  - constructor; [|constructor]. split; [repeat constructor; cbv; congruence|]. by exists 2%nat.
  - exists outs, c'. split; [exact Eo|]. by rewrite <-(Forall2_length _ _ _ Hf).
Defined.

End PcmConvertProps.

(** * Runs of the PCM library that show its flaws

    Each run is evaluated; the text says what is wrong with it. *)


Module PcmFindings.
Local Open Scope Z_scope.
Import AudioFormat Samples Pcm PcmConvert PcmExport.

#[local] Instance little_endian_host : Host := {| IsBigEndian := false |}.

(** Memory full of one byte. *)
Definition filled (b : Z) : Memory := {| garbage := λ _, b |}.

(** [ToAlsaChannelOrder71] divides the number of samples by six instead of eight: with three
    frames of 7.1 it makes four rounds and reads (and writes) behind the end. *)
Theorem order71_overruns :
  @ToAlsaChannelOrder _ (filled 0) (ToVoid 2 (Z.of_nat <$> seq 0 24)) S16 8 = None.
Proof. vm_compute. reflexivity. Qed.

(** [pcm_dsd_to_dop] says it "discards the last odd frame", but counts it: the frame is
    returned without having been written. *)
Theorem dop_odd_frame_unwritten b :
  @pcm_dsd_to_dop _ (filled b) 1 [1; 2] = Some [b; b; b; b].
Proof. reflexivity. Qed.

(** Converting [float] to 32 bit inverts the polarity: [1 << 31] is negative as an [int],
    and so is the factor. *)
Theorem float_to_32_inverts :
  FloatToInteger traits_S32 (IntegerToFloat traits_S32 1073741824) = Some (-1073741824).
Proof. vm_compute. reflexivity. Qed.

(** A [float] sample far above full scale is meant to be clamped, but it is converted to an
    [int] first, which is undefined when it does not fit. *)
Theorem float_to_16_undefined : FloatToInteger traits_S16 (float_of_Z 65536) = None.
Proof. vm_compute. reflexivity. Qed.

(** The built-in resampler does nothing for three or more channels, and returns a buffer it
    has not written. *)
Theorem resample_surround_unwritten b :
  @pcm_resample_fallback_void _ (filled b) 2 3 44100 (ToVoid 2 [1; 2; 3]) 44100 =
  Some [b; b; b; b; b; b].
Proof. reflexivity. Qed.

End PcmFindings.
