(* ===== verification/SongSave.v ===== *)
(** * Times in text files

    Durations are kept in milliseconds and written as floating point seconds with six
    decimals.  The rounding errors of the two divisions and the multiplication are bounded
    here: a duration that is saved and loaded again is the same or one millisecond less. *)

From Stdlib Require Import ZArith Lia ZifyBool.
From Stdlib Require Import SpecFloat.
From stdpp Require Import base numbers sets strings list.
From S2P Require Import Prelude UTF8 TagString CString Decimal Tokenizer Tag Song Samples TextIO Directory PcmFacts.

Set Default Goal Selector "!".

Module TimeFacts.
Local Open Scope Z_scope.
Import CString Decimal Numbers.

(** ** Rounding to a double *)

Lemma shr_1_half r : 0 ≤ shr_m r → shr_m (shr_1 r) = shr_m r / 2.
Proof.
  destruct r as [[|[p|p|]|p] b c]; simpl; intros H; try lia; try done.
  - apply (Z.div_unique _ _ _ 1); lia.
  - apply (Z.div_unique _ _ _ 0); lia.
Qed.

Lemma shr_iter p r : 0 ≤ shr_m r → shr_m (SpecFloat.iter_pos shr_1 p r) = shr_m r / 2 ^ Z.pos p.
Proof.
  revert r. induction p as [p IH|p IH|]; intros r Hr; cbn [SpecFloat.iter_pos].
  - pose proof (shr_1_half r Hr) as Hh.
    assert (0 ≤ shr_m (shr_1 r)) by (rewrite Hh; apply Z.div_pos; lia).
    rewrite !IH by (rewrite ?IH by done; try done; apply Z.div_pos; lia).
    rewrite Hh, !Z.div_div by lia. f_equal. rewrite (Pos2Z.inj_xI p), Z.pow_add_r by lia.
    replace (2 * Z.pos p) with (Z.pos p + Z.pos p) by lia. rewrite Z.pow_add_r by lia. lia.
  - rewrite !IH by (rewrite ?IH by done; try done; apply Z.div_pos; lia).
    rewrite Z.div_div by lia. f_equal. rewrite (Pos2Z.inj_xO p).
    replace (2 * Z.pos p) with (Z.pos p + Z.pos p) by lia. by rewrite Z.pow_add_r by lia.
  - by apply shr_1_half.
Qed.

(** Cutting a number down to 53 digits. *)
Lemma shr_fexp_ok mz ez l : 2 ^ 52 ≤ mz → -1000 ≤ ez →
  ∃ r, shr_fexp 53 1024 mz ez l = (r, ez + (Z.log2 mz - 52)) ∧
    shr_m r = mz / 2 ^ (Z.log2 mz - 52) ∧ 52 ≤ Z.log2 mz ∧ (Z.log2 mz = 52 → r = shr_record_of_loc mz l).
Proof.
  intros Hm He. assert (Hlog : 52 ≤ Z.log2 mz) by (by apply Z.log2_le_pow2; [lia|]).
  unfold shr_fexp. destruct mz as [|p|p]; try lia. cbn [Zdigits2].
  rewrite FloatFacts.digits_log2. unfold fexp, emin.
  rewrite Z.max_l by lia. replace (_ + 1 + ez - 53 - ez) with (Z.log2 (Z.pos p) - 52) by lia.
  assert (Hrec : shr_m (shr_record_of_loc (Z.pos p) l) = Z.pos p) by (destruct l as [|[]]; done).
  destruct (Z.log2 (Z.pos p) - 52) as [|n|n] eqn:E; [..|lia]; cbn [shr]; eexists.
  - split_and!; [by rewrite Z.add_0_r|by rewrite Hrec, Z.pow_0_r, Z.div_1_r|done|done].
  - split_and!; [done| |done|lia]. by rewrite shr_iter, Hrec by (rewrite Hrec; lia).
Qed.

(** Rounding is off by at most one unit in the last place of the result. *)
Lemma round_bound s mz ez l : 2 ^ 52 ≤ mz → -1000 ≤ ez → ez + Z.log2 mz ≤ 900 →
  ∃ m t, binary_round_aux 53 1024 s mz ez l = S754_finite s m (ez + t) ∧
    2 ^ 52 ≤ Z.pos m < 2 ^ 53 ∧ 0 ≤ t ∧ Z.abs (Z.pos m * 2 ^ t - mz) ≤ 2 ^ t.
Proof.
  intros Hm He Hmax. unfold binary_round_aux.
  destruct (shr_fexp_ok mz ez l Hm He) as (r & -> & Hr & Hlog & _).
  set (n := Z.log2 mz - 52) in *. assert (Hn : 0 ≤ n) by lia. assert (Hp : 0 < 2 ^ n) by lia.
  assert (Hq : 2 ^ 52 ≤ mz / 2 ^ n < 2 ^ 53).
  { pose proof (Z.log2_spec mz ltac:(lia)) as Hs. replace (Z.log2 mz) with (52 + n) in Hs by lia.
    replace (Z.succ (52 + n)) with (53 + n) in Hs by lia. rewrite !Z.pow_add_r in Hs by lia.
    split; [apply Z.div_le_lower_bound; lia|apply Z.div_lt_upper_bound; lia]. }
  pose proof (Z.div_mod mz (2 ^ n) ltac:(lia)) as Hdm. pose proof (Z.mod_pos_bound mz (2 ^ n) Hp) as Hmod.
  set (q := mz / 2 ^ n) in *.
  set (v := round_nearest_even _ _). assert (Hv : v = q ∨ v = q + 1).
  { unfold v. rewrite Hr. destruct (loc_of_shr_record r) as [|[]]; simpl; [by left|..|by left|by right].
    case_match; [by left|by right]. }
  clearbody v.
  destruct (shr_fexp_ok v (ez + n) loc_Exact) as (r2 & -> & Hr2 & Hlog2 & _); [lia|lia|].
  assert (Hcase : (v < 2 ^ 53 ∧ Z.log2 v = 52) ∨ (v = 2 ^ 53 ∧ Z.log2 v = 53)).
  { destruct (decide (v < 2 ^ 53)); [left; split; [done|]; apply Z.log2_unique; lia|right].
    assert (v = 2 ^ 53) as -> by lia. done. }
  rewrite Hr2. destruct Hcase as [[Hv' ->]|[-> ->]].
  - rewrite Z.sub_diag, Z.pow_0_r, Z.div_1_r. destruct v as [|m|m]; try lia.
    rewrite (proj2 (Z.leb_le _ _)) by lia. exists m, n. split_and!; [f_equal; lia|lia|lia|lia|nia].
  - change (2 ^ 53 / 2 ^ (53 - 52)) with (Z.pos (2 ^ 52)). cbn iota.
    rewrite (proj2 (Z.leb_le _ _)) by lia. exists (2 ^ 52)%positive, (n + 1).
    split_and!; [f_equal; lia|lia|lia|lia|]. rewrite Z.pow_add_r by lia. nia.
Qed.

(** A number of 53 digits is not changed. *)
Lemma round_exact s m e : 2 ^ 52 ≤ Z.pos m < 2 ^ 53 → -1000 ≤ e ≤ 900 →
  binary_round_aux 53 1024 s (Z.pos m) e loc_Exact = S754_finite s m e.
Proof.
  intros Hm He. assert (Hl : Z.log2 (Z.pos m) = 52) by (apply Z.log2_unique; lia).
  unfold binary_round_aux.
  do 2 (destruct (shr_fexp_ok (Z.pos m) e loc_Exact) as (r & -> & _ & _ & Hr); [lia|lia|];
        rewrite (Hr Hl), Hl, Z.sub_diag, Z.add_0_r; clear r Hr; cbn [shr_record_of_loc loc_of_shr_record shr_m round_nearest_even]).
  by rewrite (proj2 (Z.leb_le _ _)) by lia.
Qed.

(** ** Division and multiplication *)

(** A double within two units in the last place of the quotient [a / b]. *)
Definition near (x : double) (a b : Z) : Prop :=
  ∃ m k, x = S754_finite false m (- k) ∧ 0 ≤ k ∧ 2 ^ 52 ≤ Z.pos m < 2 ^ 53 ∧
    Z.abs (Z.pos m * b - a * 2 ^ k) ≤ 2 * b.

(** A positive integer below 2^53 is represented exactly. *)
Lemma double_of_Z_pos n : 0 < n < 2 ^ 53 →
  ∃ m k, double_of_Z n = S754_finite false m (- k) ∧ 0 ≤ k ≤ 52 ∧ Z.pos m = n * 2 ^ k ∧ 2 ^ 52 ≤ Z.pos m < 2 ^ 53.
Proof.
  intros Hn. destruct n as [|n|n]; try lia. unfold double_of_Z, binary_normalize, binary_round.
  rewrite FloatFacts.digits_log2. set (l := Z.log2 (Z.pos n)).
  assert (Hl : 0 ≤ l ≤ 52).
  { split; [apply Z.log2_nonneg|]. unfold l. apply Z.lt_succ_r, Z.log2_lt_pow2; lia. }
  pose proof (Z.log2_spec (Z.pos n) ltac:(lia)) as Hs. fold l in Hs. rewrite Z.pow_succ_r in Hs by lia.
  unfold fexp, emin. rewrite Z.max_l by lia. replace (l + 1 + 0 - 53) with (- (52 - l)) by lia.
  assert (Hp : 2 ^ 52 = 2 ^ l * 2 ^ (52 - l)) by (rewrite <-Z.pow_add_r by lia; f_equal; lia).
  assert (H0 : 0 < 2 ^ (52 - l)) by lia.
  unfold shl_align. replace (- (52 - l) - 0) with (- (52 - l)) by lia.
  assert (Hr : 2 ^ 52 ≤ Z.pos n * 2 ^ (52 - l) < 2 ^ 53).
  { change (2 ^ 53) with (2 * 2 ^ 52). rewrite Hp. nia. }
  destruct (52 - l) as [|d|d] eqn:E; simpl; [..|lia].
  - rewrite round_exact by lia. exists n, 0. split_and!; simpl; lia || done.
  - pose proof (FloatFacts.iter_xO n d) as Hx. rewrite round_exact by (rewrite ?Hx; lia).
    exists (Pos.iter xO n d), (Z.pos d). rewrite Hx. split_and!; try lia. done.
Qed.

Lemma ddiv_near m1 k1 m2 k2 a b : 0 < a < 2 ^ 51 → 0 < b < 2 ^ 51 → 0 ≤ k1 ≤ 52 → 0 ≤ k2 ≤ 52 →
  Z.pos m1 = a * 2 ^ k1 → Z.pos m2 = b * 2 ^ k2 → Z.pos m1 < 2 ^ 53 →
  near (ddiv (S754_finite false m1 (- k1)) (S754_finite false m2 (- k2))) a b.
Proof.
  intros Ha Hb Hk1 Hk2 E1 E2 Hlt. unfold ddiv, SFdiv, SFdiv_core_binary. cbn [Zdigits2].
  rewrite !FloatFacts.digits_log2. set (l1 := Z.log2 (Z.pos m1)). set (l2 := Z.log2 (Z.pos m2)).
  pose proof (Z.log2_spec (Z.pos m1) ltac:(lia)) as Hl1. fold l1 in Hl1.
  pose proof (Z.log2_spec (Z.pos m2) ltac:(lia)) as Hl2. fold l2 in Hl2.
  rewrite Z.pow_succ_r in Hl1, Hl2 by apply Z.log2_nonneg.
  assert (0 ≤ l1 < 53) by (split; [apply Z.log2_nonneg|]; apply Z.log2_lt_pow2; lia).
  assert (0 ≤ l2 < 103).
  { split; [apply Z.log2_nonneg|]. apply Z.log2_lt_pow2; [lia|]. rewrite E2.
    assert (2 ^ k2 ≤ 2 ^ 52) by (apply Z.pow_le_mono_r; lia). nia. }
  unfold fexp, emin. rewrite Z.max_l, Z.min_l by lia.
  set (s := 53 + l2 - l1). assert (Hs : 0 < s) by lia.
  replace (- k1 - - k2 - _) with s by lia.
  replace (_ - _ - 53) with (k2 - k1 - s) by lia.
  replace (match s with 0 => Z.pos m1 | Z.pos _ => Z.shiftl (Z.pos m1) s | Z.neg _ => 0 end)
    with (Z.pos m1 * 2 ^ s) by (rewrite <-Z.shiftl_mul_pow2 by lia; destruct s; [lia|done|lia]).
  pose proof (Z_div_mod (Z.pos m1 * 2 ^ s) (Z.pos m2) ltac:(lia)) as Hdm.
  destruct (Z.div_eucl _ _) as [q r]. destruct Hdm as [Hq Hr].
  assert (Hq52 : 2 ^ 52 ≤ q).
  { assert (2 ^ l1 * 2 ^ s = 2 ^ 53 * 2 ^ l2) as Hp
      by (rewrite <-!Z.pow_add_r by lia; f_equal; lia).
    assert (2 ^ l1 * 2 ^ s ≤ Z.pos m1 * 2 ^ s) by (apply Z.mul_le_mono_nonneg_r; lia). nia. }
  assert (Hq54 : Z.log2 q < 54).
  { assert (2 ^ l1 * 2 ^ s = 2 ^ 53 * 2 ^ l2) as Hp
      by (rewrite <-!Z.pow_add_r by lia; f_equal; lia).
    assert (Z.pos m1 * 2 ^ s < 2 * 2 ^ l1 * 2 ^ s) by (apply Z.mul_lt_mono_pos_r; lia).
    apply Z.log2_lt_pow2; nia. }
  destruct (round_bound (xorb false false) q (k2 - k1 - s) (new_location (Z.pos m2) r)) as (m & t & -> & Hm & Ht & Hb2);
    [done|lia|lia|].
  assert (Hmain : Z.abs (Z.pos m * 2 ^ t * (b * 2 ^ k2) - a * 2 ^ k1 * 2 ^ s) ≤ 2 * 2 ^ t * (b * 2 ^ k2)).
  { rewrite <-E1, <-E2, Hq. assert (0 < 2 ^ t) by lia. nia. }
  set (K := k1 + s - k2 - t).
  assert (HK : 0 ≤ K).
  { destruct (decide (0 ≤ K)); [done|]. exfalso.
    assert (2 ^ (k1 + s) ≤ 2 ^ (k2 + t)) as Hpow by (apply Z.pow_le_mono_r; lia).
    rewrite !Z.pow_add_r in Hpow by lia.
    assert (0 < 2 ^ t * 2 ^ k2) by (apply Z.mul_pos_pos; lia).
    assert ((Z.pos m - 2) * b * (2 ^ k2 * 2 ^ t) ≤ a * (2 ^ k2 * 2 ^ t)) by nia.
    assert ((Z.pos m - 2) * b ≤ a) by nia. nia. }
  exists m, K. split_and!; [f_equal; lia|lia|lia|lia|].
  assert (Hpow : 2 ^ k1 * 2 ^ s = 2 ^ K * (2 ^ k2 * 2 ^ t)).
  { rewrite <-!Z.pow_add_r by lia. f_equal. lia. }
  assert (Hc : 0 < 2 ^ k2 * 2 ^ t) by (apply Z.mul_pos_pos; lia).
  apply (Z.mul_le_mono_pos_r _ _ (2 ^ k2 * 2 ^ t) Hc).
  rewrite <-(Z.abs_eq (2 ^ k2 * 2 ^ t)) at 1 by lia. rewrite <-Z.abs_mul.
  replace ((Z.pos m * b - a * 2 ^ K) * (2 ^ k2 * 2 ^ t))
    with (Z.pos m * 2 ^ t * (b * 2 ^ k2) - a * (2 ^ K * (2 ^ k2 * 2 ^ t))) by ring.
  rewrite <-Hpow, (Z.mul_assoc a). eapply Z.le_trans; [exact Hmain|]. apply Z.eq_le_incl. ring.
Qed.

(** The exponent of a quotient below 2^31/1000 is small. *)
Lemma near_scale m k ms : 0 < ms < 2 ^ 31 → 2 ^ 52 ≤ Z.pos m →
  Z.abs (Z.pos m * 1000 - ms * 2 ^ k) ≤ 2000 → 2 ^ 30 < 2 ^ k.
Proof. intros Hms Hm Hn. nia. Qed.

(** Multiplying by 1000 and cutting off the fraction. *)
Lemma FromS_near x ms : 0 < ms < 2 ^ 31 → near x ms 1000 →
  SignedFromS x = Some ms ∨ SignedFromS x = Some (ms - 1).
Proof.
  intros Hms (m & k & -> & Hk & Hm & Hn). pose proof (near_scale m k ms Hms ltac:(lia) ltac:(lia)) as Hk30.
  assert (H1000 : double_of_Z 1000 = S754_finite false 8796093022208000 (- 43)) by reflexivity.
  unfold SignedFromS, dmul. rewrite H1000. cbn [SFmul xorb].
  set (M := 8796093022208000%positive) in *. assert (HM : Z.pos M = 1000 * 2 ^ 43) by reflexivity.
  assert (Hk100 : k < 100).
  { destruct (decide (k < 100)); [done|]. assert (2 ^ 100 ≤ 2 ^ k) by (apply Z.pow_le_mono_r; lia). nia. }
  assert (Hlog : Z.log2 (Z.pos (m * M)) < 110) by (apply Z.log2_lt_pow2; rewrite ?Pos2Z.inj_mul, ?HM; nia).
  destruct (round_bound false (Z.pos (m * M)) (- k + - 43) loc_Exact) as (m3 & t & -> & Hm3 & Ht & Hb);
    [rewrite Pos2Z.inj_mul, HM; nia|lia|lia|].
  rewrite Pos2Z.inj_mul, HM in Hb.
  assert (Ht54 : 2 ^ t < 2 ^ 55) by nia.
  set (K := k + 43 - t).
  assert (HK : 0 < K).
  { destruct (decide (0 < K)); [done|]. assert (2 ^ (k + 43) ≤ 2 ^ t) as Hp by (apply Z.pow_le_mono_r; lia).
    rewrite Z.pow_add_r in Hp by lia. nia. }
  assert (Hpow : 2 ^ k * 2 ^ 43 = 2 ^ K * 2 ^ t) by (rewrite <-!Z.pow_add_r by lia; f_equal; lia).
  assert (Hz : (ms - 1) * 2 ^ K < Z.pos m3 < (ms + 1) * 2 ^ K).
  { assert (0 < 2 ^ t) as Ht0 by lia.
    assert (Z.abs (Z.pos m3 * 2 ^ t - ms * (2 ^ K * 2 ^ t)) < 2 ^ K * 2 ^ t) as Habs.
    { rewrite <-Hpow. assert (2 ^ 30 * 2 ^ 43 < 2 ^ k * 2 ^ 43) by (apply Z.mul_lt_mono_pos_r; lia). 
      assert (Z.abs (Z.pos m * (1000 * 2 ^ 43) - ms * (2 ^ k * 2 ^ 43)) ≤ 2000 * 2 ^ 43) by lia. lia. }
    split; apply (Z.mul_lt_mono_pos_r (2 ^ t)); lia. }
  unfold Samples.truncate. replace (- k + - 43 + t) with (- K) by lia. rewrite Z.shiftl_opp_r, Z.shiftr_div_pow2 by lia.
  assert (Hd : Z.pos m3 / 2 ^ K = ms ∨ Z.pos m3 / 2 ^ K = ms - 1).
  { assert (ms - 1 ≤ Z.pos m3 / 2 ^ K) by (apply Z.div_le_lower_bound; lia).
    assert (Z.pos m3 / 2 ^ K < ms + 1) by (apply Z.div_lt_upper_bound; lia). lia. }
  destruct Hd as [-> | ->]; [left|right]; unfold Samples.int, Samples.in_range; rewrite check_bind by lia; done.
Qed.

(** ** The text *)

Lemma round_div_near a n d : 0 < d → 2 * Z.abs (a - n * d) < d → round_div a d = n.
Proof.
  intros Hd Ha. unfold round_div. destruct (decide (n * d ≤ a)).
  - rewrite <-(Z.div_unique_pos a d n (a - n * d)), <-(Z.mod_unique_pos a d n (a - n * d)) by lia.
    by rewrite (proj2 (Z.ltb_lt _ _)) by lia.
  - rewrite <-(Z.div_unique_pos a d (n - 1) (a - (n - 1) * d)), <-(Z.mod_unique_pos a d (n - 1) (a - (n - 1) * d)) by lia.
    rewrite (proj2 (Z.ltb_ge _ _)) by lia. rewrite (proj2 (Z.ltb_lt _ _)) by lia. lia.
Qed.

Lemma print_near x ms : 0 < ms < 2 ^ 31 → near x ms 1000 →
  print_double x = dec_digits 400 (ms * 1000 / 10 ^ 6) ++ [46] ++ zero_padded 6 (ms * 1000 mod 10 ^ 6).
Proof.
  intros Hms (m & k & -> & Hk & Hm & Hn). pose proof (near_scale m k ms Hms ltac:(lia) ltac:(lia)) as Hk30.
  unfold print_double. rewrite (Z.max_l 0), (Z.max_r 0), Z.opp_involutive, Z.pow_0_r, Z.mul_1_r by lia.
  rewrite (round_div_near _ (ms * 1000)) by lia. done.
Qed.

Lemma digits_value_app ds fs : digits_value (ds ++ fs) = digits_value ds * 10 ^ Z.of_nat (length fs) + digits_value fs.
Proof.
  induction fs as [|f fs IH] using rev_ind; [rewrite app_nil_r; simpl; unfold digits_value; simpl; lia|].
  rewrite (assoc_L (++)), !digits_value_snoc, IH, length_app. simpl.
  replace (Z.of_nat (length fs + 1)) with (Z.of_nat (length fs) + 1) by lia. rewrite Z.pow_add_r by lia. lia.
Qed.

Lemma digits_value_zeroes k ds : digits_value (replicate k 48 ++ ds) = digits_value ds.
Proof.
  rewrite digits_value_app. replace (digits_value (replicate k 48)) with 0; [lia|].
  induction k as [|k IH]; [done|]. rewrite replicate_S_end, digits_value_snoc, <-IH. done.
Qed.

Lemma zero_padded_ok k n : k ≠ 0%nat → 0 ≤ n < 10 ^ Z.of_nat k →
  digits_value (zero_padded k n) = n ∧ Forall (λ c, isdigit c = true) (zero_padded k n) ∧
  length (zero_padded k n) = k.
Proof.
  intros Hk Hn. destruct (dec_digits_ok k n Hn) as (Hv & Hd & _ & Hl). unfold zero_padded.
  rewrite digits_value_zeroes, length_app, length_replicate. split_and!; [done| |lia].
  apply Forall_app. split; [|done]. by apply Forall_replicate.
Qed.

(** A prefix that begins with another character. *)
Lemma starts_with_other c s p : first p ≠ c → p ≠ [] → starts_with (c :: s) p = false.
Proof. destruct p as [|x p]; [done|]. unfold first. simpl. intros Hx _. by rewrite (proj2 (Z.eqb_neq _ _)) by congruence. Qed.

Lemma tolower_digit c : isdigit c = true → tolower c = c.
Proof. unfold isdigit, tolower. intros H. destruct ((65 <=? c) && (c <=? 90)) eqn:E; lia. Qed.

(** The number read back: the digits on both sides of the point. *)
Lemma atof_decimal n : 0 < n < 10 ^ 400 → 
  atof (dec_digits 400 (n / 10 ^ 6) ++ [46] ++ zero_padded 6 (n mod 10 ^ 6)) = decimal_to_double false n (-6).
Proof.
  intros Hn. destruct (dec_digits_ok 400 (n / 10 ^ 6)) as (Hv & Hd & Hne & _).
  { split; [apply Z.div_pos; lia|]. apply Z.div_lt_upper_bound; [lia|]. lia. }
  specialize (Hne ltac:(done)). set (ds := dec_digits _ _) in *. clearbody ds.
  destruct (zero_padded_ok 6 (n mod 10 ^ 6)) as (Hv6 & Hd6 & Hl6); [done|apply Z.mod_pos_bound; lia|].
  set (fs := zero_padded _ _) in *. clearbody fs.
  destruct ds as [|c ds]; [done|]. pose proof (Forall_inv Hd) as Hc. simpl in Hc.
  assert (Hspan : span_digits ((c :: ds) ++ [46] ++ fs) = c :: ds) by (by apply span_digits_app).
  assert (Hfs : span_digits fs = fs) by (rewrite <-(app_nil_r fs) at 1; by apply span_digits_app).
  unfold atof. cbn [app]. rewrite (skip_space_digit c) by done. rewrite drop_0.
  unfold isdigit in Hc.
  match goal with |- (let '(neg, s) := ?M in _) = _ => assert (Hsign : M = (false, c :: ds ++ 46 :: fs)) end.
  { assert (c = 48 ∨ c = 49 ∨ c = 50 ∨ c = 51 ∨ c = 52 ∨ c = 53 ∨ c = 54 ∨ c = 55 ∨ c = 56 ∨ c = 57) as Hcs by lia.
    by repeat destruct Hcs as [->|Hcs]; try (rewrite Hcs). }
  rewrite Hsign. cbn [fmap list_fmap].
  assert (Hlow : tolower c = c) by (apply tolower_digit; unfold isdigit; lia).
  rewrite Hlow, !starts_with_other by first [done|unfold first; simpl; lia].
  assert (H0x : starts_with (c :: (tolower <$> ds ++ 46 :: fs)) (str "0x") = false).
  { change (str "0x") with [48; 120]. cbn [starts_with]. destruct (c =? 48); [|done].
    destruct ds as [|d ds]; [done|].
    apply Forall_inv_tail, Forall_inv in Hd. simpl in Hd. simpl. rewrite tolower_digit by done.
    unfold isdigit in Hd. by rewrite (proj2 (Z.eqb_neq _ _)) by lia. }
  rewrite H0x. unfold scan_decimal. change (c :: ds ++ 46 :: fs) with ((c :: ds) ++ [46] ++ fs).
  rewrite Hspan, drop_app_length. 
  change (fraction ([46] ++ fs)) with fs. change (first ([46] ++ fs) =? 46) with true. cbn iota. rewrite Hfs.
  change (drop (1 + length fs) ([46] ++ fs)) with (drop (length fs) fs). rewrite drop_all. cbn [app].
  change (c :: ds ++ fs) with ((c :: ds) ++ fs).
  rewrite digits_value_app, Hv, Hv6, Hl6.
  f_equal. pose proof (Z.div_mod n (10 ^ 6)). lia.
Qed.


(** ** Saving and loading a time *)

(** A time on disk: exactly the milliseconds, with six decimals. *)
Lemma print_time ms : 0 < ms < 2 ^ 31 →
  print_double (ToDoubleS ms) = dec_digits 400 (ms * 1000 / 10 ^ 6) ++ [46] ++ zero_padded 6 (ms * 1000 mod 10 ^ 6).
Proof.
  intros Hms. apply print_near; [done|]. unfold ToDoubleS.
  destruct (double_of_Z_pos ms) as (m & k & -> & Hk & Hm & Hr); [lia|].
  change (double_of_Z 1000) with (S754_finite false 8796093022208000 (- 43)).
  apply (ddiv_near m k _ 43); lia || done.
Qed.

(** The number read back is near the quotient again. *)
Lemma scan_time ms : 0 < ms < 2 ^ 31 → near (atof (print_double (ToDoubleS ms))) ms 1000.
Proof.
  intros Hms. rewrite print_time by done. rewrite atof_decimal by lia.
  unfold decimal_to_double. change (0 <=? -6) with false. change (10 ^ - -6) with 1000000. cbn iota.
  destruct (ms * 1000) as [|p|p] eqn:E; try lia.
  destruct (ddiv_near p 0 1000000 0 (ms * 1000) (10 ^ 6)) as (m & k & Hdiv & Hk & Hm & Hn); try lia.
  change (- 0) with 0 in Hdiv. rewrite Hdiv. exists m, k. split_and!; [done|done|lia|lia|]. lia.
Qed.

(** A duration survives up to a millisecond. *)
Theorem stored_time_bound ms : 0 ≤ ms < 2 ^ 31 →
  stored_time ms = Some ms ∨ stored_time ms = Some (ms - 1) ∧ 0 < ms.
Proof.
  intros Hms. destruct (decide (ms = 0)) as [->|Hne]; [left; vm_compute; reflexivity|].
  unfold stored_time. destruct (FromS_near (atof (print_double (ToDoubleS ms))) ms) as [H|H];
    [lia|apply scan_time; lia|by left|right]. split; [done|lia].
Qed.

End TimeFacts.

(** * Songs in text files

    [SongSave.cxx] and [TagSave.cxx]: a song of the database file or of
    the state file is a block of lines between [song_begin] and [song_end].  Writing
    is the sequence of calls to the output stream; the reader works on the lines that
    [TextFile::ReadLine] still has to give.  What comes back is described by
    [stored_song]. *)

Module SongSave.
Import CString Decimal Tag Numbers TextIO.

(** ** Writing *)

Definition newline : list Z := [10%Z].

Definition SONG_BEGIN : list Z := str "song_begin: ".
Definition SONG_MTIME : list Z := str "mtime".
Definition SONG_END : list Z := str "song_end".

Definition range_save (start_ms end_ms : Z) : list output_call :=
  if (0 <? end_ms)%Z then
    [Print (str "Range: " ++ print_unsigned start_ms ++ str "-" ++ print_unsigned end_ms ++ newline)]
  else if (0 <? start_ms)%Z then [Print (str "Range: " ++ print_unsigned start_ms ++ str "-" ++ newline)]
  else [].

Definition save_item (i : TagItem) : option output_call :=
  n ← tag_table_lookup_type tag_item_names (type i);
  Some (Print (n ++ str ": " ++ value i ++ newline)).

Definition tag_save (t : Tag) : option (list output_call) :=
  let time := if negb (IsNegative (duration t))
              then [Print (str "Time: " ++ print_double (ToDoubleS (duration t)) ++ newline)] else [] in
  let playlist := if has_playlist t then [Print (str "Playlist: yes" ++ newline)] else [] in
  l ← mapM save_item (items t);
  Some (time ++ playlist ++ l).

(** The two overloads of [song_save] differ in the accessors only. *)
Definition song_save_fields (uri : list Z) (start_time end_time : Z) (tag : Tag) (mtime : Z)
    : option (list output_call) :=
  t ← tag_save tag;
  Some (Print (SONG_BEGIN ++ uri ++ newline) :: range_save start_time end_time ++ t ++
        [Print (SONG_MTIME ++ str ": " ++ print_signed mtime ++ newline);
         Print (SONG_END ++ newline)]).

Definition song_save (song : Directory.Song) : option (list output_call) :=
  song_save_fields (Directory.s_uri song) (Directory.s_start_time song) (Directory.s_end_time song)
    (Directory.s_tag song) (Directory.s_mtime song).

Definition song_save_detached (song : Song.DetachedSong) : option (list output_call) :=
  song_save_fields (Song.GetURI song) (Song.GetStartTime song) (Song.GetEndTime song)
    (Song.GetTag song) (Song.GetLastModified song).

(** ** Reading *)

(** The exceptions of the readers; they all are [std::runtime_error]. *)
Inductive LoadError :=
| UnknownLine (line : list Z)
| MalformedLine (line : list Z)
| DuplicateSubdirectory (name : list Z)
| DuplicateSong (name : list Z)
| UnexpectedEndOfFile
| DatabaseCorrupted
| DuplicateVersionLine
| DuplicateCharsetLine
| CharsetMismatch
| UnrecognizedTag (name : list Z)
| FormatMismatch
| TagListMismatch.

(** The lines still to be read. *)
#[local] Abbreviation text_file := (list (list Z)).

(** [name: value], cut at the colon. *)
Definition split_line (line : list Z) : option (list Z * list Z) :=
  match strchr line 58%Z with
  | None | Some O => None
  | Some colon => Some (take colon line, Tokenizer.strip (drop (S colon) line))
  end.

(** The value of a range line. *)
Definition parse_range (value : list Z) : Z * Z :=
  let '(start_ms, n) := strtoul value in
  (Samples.to_unsigned 32 start_ms,
   if (first (drop n value) =? 45)%Z
   then Samples.to_unsigned 32 (strtoul (drop (S n) value)).1 else 0%Z).

Section Load.
(** The enabled tags. *)
Context (global_tag_mask : Z).

(** One line of a song. *)
Definition load_line (name value : list Z) (song : Song.DetachedSong) (tag : TagBuilder.TagBuilder)
    : outcome LoadError (Song.DetachedSong * TagBuilder.TagBuilder) :=
  let type := tag_name_parse name in
  if negb (bool_decide (type = TAG_NUM_OF_ITEM_TYPES)) then
    tag ← of_option (TagBuilder.AddItem global_tag_mask type value tag); Ret (song, tag)
  else if streq name (str "Time") then
    d ← of_option (SignedFromS (atof value)); Ret (song, TagBuilder.SetDuration d tag)
  else if streq name (str "Playlist") then
    Ret (song, TagBuilder.SetHasPlaylist (streq value (str "yes")) tag)
  else if streq name SONG_MTIME then Ret (Song.SetLastModified (atoi value) song, tag)
  else if streq name (str "Range") then
    let '(start_ms, end_ms) := parse_range value in
    Ret (Song.SetEndTime end_ms (Song.SetStartTime start_ms song), tag)
  else Throw (UnknownLine name).

(** The loop; lines that were read before an exception are gone. *)
Fixpoint song_load_loop (file : text_file) (song : Song.DetachedSong) (tag : TagBuilder.TagBuilder)
    : text_file * outcome LoadError (Song.DetachedSong * TagBuilder.TagBuilder) :=
  match file with
  | [] => ([], Ret (song, tag))
  | line :: file =>
      if streq line SONG_END then (file, Ret (song, tag))
      else match split_line line with
           | None => (file, Throw (UnknownLine line))
           | Some (name, value) =>
               match load_line name value song tag with
               | Ret (song, tag) => song_load_loop file song tag
               | Throw e => (file, Throw e)
               | Abort => (file, Abort)
               end
           end
  end.

Definition song_load (file : text_file) (uri : list Z) : text_file * outcome LoadError Song.DetachedSong :=
  let '(file, r) := song_load_loop file (Song.of_uri uri) TagBuilder.empty in
  (file, r ← r; Ret (Song.SetTag (TagBuilder.Commit r.2).1 r.1)).

End Load.

(** ** What comes back *)

(** Texts lose white space at their beginning; empty texts and disabled tags are left out. *)
Definition stored_item (mask : Z) (i : TagItem) : option TagItem :=
  let v := Tokenizer.strip (value i) in
  if (length v =? 0) || negb (IsTagEnabled mask (type i)) then None else Some (mkTagItem (type i) v).

Definition stored_duration (d : Z) : Z :=
  if IsNegative d then Negative else default Negative (stored_time d).

Definition stored_tag (mask : Z) (t : Tag) : Tag :=
  mkTag (stored_duration (duration t)) (has_playlist t) (omap (stored_item mask) (items t)).

(** A modification time has 32 bits. *)
Definition stored_song (mask : Z) (s : Directory.Song) : Directory.Song :=
  Directory.mkDbSong (Directory.s_uri s) (stored_tag mask (Directory.s_tag s))
    (Samples.to_signed 32 (Directory.s_mtime s)) (Directory.s_start_time s) (Directory.s_end_time s).

(** ** Lines *)

(** A line that survives: no line end or terminator in it, and no carriage return at its end. *)
Definition line_ok (l : list Z) : Prop := (10%Z ∉ l) ∧ (0%Z ∉ l) ∧ last l ≠ Some 13%Z.

Definition to_text (lines : list (list Z)) : list Z := concat ((λ l, l ++ newline) <$> lines).

(** The calls write these lines. *)
Definition writes (cs : list output_call) (lines : list (list Z)) : Prop :=
  concat (call_bytes <$> cs) = to_text lines.

Lemma to_text_app a b : to_text (a ++ b) = to_text a ++ to_text b.
Proof. unfold to_text. by rewrite fmap_app, concat_app. Qed.

Lemma to_text_cons l ls : to_text (l :: ls) = l ++ 10%Z :: to_text ls.
Proof. unfold to_text, newline. rewrite fmap_cons. cbn [concat]. by rewrite <-app_assoc. Qed.

Lemma until_nul_id s : (0%Z ∉ s) → Tokenizer.until_nul s = s.
Proof.
  induction s as [|c s IH]; simpl; [done|]. intros H.
  rewrite (proj2 (Z.eqb_neq c 0)), IH by set_solver. done.
Qed.

(** The lines of a file made of proper lines. *)
Lemma text_lines_ok ls : Forall line_ok ls → text_lines (to_text ls) = ls.
Proof.
  unfold text_lines. induction 1 as [|l ls (Hn & H0 & Hr) Hls IH]; [done|].
  rewrite to_text_cons, split_sep by done. destruct (split_cons 10 (to_text ls)) as (h & t & E).
  rewrite E in IH |- *. assert (Hstrip : Tokenizer.until_nul (strip_cr l) = l).
  { unfold strip_cr. rewrite bool_decide_eq_false_2 by done. by apply until_nul_id. }
  transitivity (Tokenizer.until_nul (strip_cr l) :: lines_of (h :: t)); [by destruct l|].
  by rewrite Hstrip, IH.
Qed.

Lemma writes_nil : writes [] [].
Proof. done. Qed.

Lemma writes_app cs ls cs' ls' : writes cs ls → writes cs' ls' → writes (cs ++ cs') (ls ++ ls').
Proof. unfold writes. intros H H'. by rewrite fmap_app, concat_app, to_text_app, H, H'. Qed.

(** One call that writes one line. *)
Lemma writes_line l : writes [Print (l ++ newline)] [l].
Proof. done. Qed.

Lemma writes_cons l cs ls : writes cs ls → writes (Print (l ++ newline) :: cs) (l :: ls).
Proof. apply (writes_app [_] [_]), writes_line. Qed.

#[export] Hint Resolve writes_nil writes_line writes_cons writes_app : code.

(** ** The lines of a song *)

Definition range_lines (start_ms end_ms : Z) : list (list Z) :=
  if (0 <? end_ms)%Z then [str "Range: " ++ print_unsigned start_ms ++ str "-" ++ print_unsigned end_ms]
  else if (0 <? start_ms)%Z then [str "Range: " ++ print_unsigned start_ms ++ str "-"] else [].

Definition item_line (i : TagItem) : list Z :=
  default [] (tag_table_lookup_type tag_item_names (type i)) ++ str ": " ++ value i.

Definition time_lines (d : Z) : list (list Z) :=
  if IsNegative d then [] else [str "Time: " ++ print_double (ToDoubleS d)].

Definition playlist_lines (b : bool) : list (list Z) := if b then [str "Playlist: yes"] else [].

(** The lines behind the first one. *)
Definition song_body (start_time end_time : Z) (t : Tag) (mtime : Z) : list (list Z) :=
  range_lines start_time end_time ++ time_lines (duration t) ++ playlist_lines (has_playlist t) ++
  (item_line <$> items t) ++ [SONG_MTIME ++ str ": " ++ print_signed mtime; SONG_END].

Lemma save_item_ok i : type i ≠ TAG_NUM_OF_ITEM_TYPES →
  ∃ n, tag_table_lookup_type tag_item_names (type i) = Some n ∧ n ≠ [] ∧ (58%Z ∉ n) ∧ tag_name_parse n = type i ∧
    line_ok n.
Proof.
  intros Hi. assert (∀ t, t ≠ TAG_NUM_OF_ITEM_TYPES → ∃ n, tag_table_lookup_type tag_item_names t = Some n ∧
    bool_decide (n ≠ [] ∧ (58%Z ∉ n) ∧ tag_name_parse n = t ∧ (10%Z ∉ n) ∧ (0%Z ∉ n) ∧ last n ≠ Some 13%Z) = true) as H.
  { intros []; try done; eexists; (split; [reflexivity|vm_compute; reflexivity]). }
  destruct (H _ Hi) as (n & ? & (?&?&?&?&?&?)%bool_decide_eq_true_1). by exists n.
Qed.

Lemma save_items_ok l : valid_items l →
  ∃ cs, mapM save_item l = Some cs ∧ writes cs (item_line <$> l).
Proof.
  induction 1 as [|i l Hi Hl (cs & Hcs & Hw)]; [by exists []|].
  destruct (save_item_ok i Hi) as (n & Hn & _).
  exists (Print (n ++ str ": " ++ value i ++ newline) :: cs). split.
  - cbn [mapM]. replace (save_item i) with (Some (Print (n ++ str ": " ++ value i ++ newline)))
      by (unfold save_item; by rewrite Hn). simpl. by rewrite Hcs.
  - rewrite fmap_cons. replace (item_line i) with (n ++ str ": " ++ value i)
      by (unfold item_line; by rewrite Hn).
    replace (n ++ str ": " ++ value i ++ newline) with ((n ++ str ": " ++ value i) ++ newline)
      by (by rewrite <-!app_assoc).
    by apply writes_cons.
Qed.

Lemma song_save_ok uri a b t m : valid_items (items t) →
  ∃ cs, song_save_fields uri a b t m = Some cs ∧ writes cs ((SONG_BEGIN ++ uri) :: song_body a b t m).
Proof.
  intros Ht. unfold song_save_fields, tag_save. destruct (save_items_ok _ Ht) as (cs & -> & Hcs).
  cbn [mbind option_bind]. eexists. split; [done|]. rewrite (app_assoc SONG_BEGIN). apply writes_cons.
  unfold song_body. apply writes_app.
  { unfold range_save, range_lines. repeat case_match; [..|done]; rewrite ?app_assoc; apply writes_line. }
  rewrite <-!app_assoc. apply writes_app.
  { unfold time_lines. destruct (IsNegative _); [done|]. cbn [negb]. rewrite app_assoc. apply writes_line. }
  apply writes_app; [unfold playlist_lines; case_match; [apply writes_line|done]|].
  apply writes_app; [done|]. rewrite !app_assoc. apply writes_cons, writes_line.
Qed.

End SongSave.
