(* ===== verification/SongSaveProps.v ===== *)
(** * Loading the songs that were written

    The lines of a song, read again, give the song that [stored_song] describes; the lines
    behind it are left.  Every line written is a proper one. *)

From Stdlib Require Import ZArith Lia ZifyBool.
From stdpp Require Import base numbers sets strings list.
From S2P Require Import Prelude UTF8 TagString CString Decimal Tokenizer Tag Song Samples TextIO Directory SongSave.

Set Default Goal Selector "!".

Module SongSaveFacts.
Import CString Decimal Tag Numbers TextIO SongSave.

(** ** Characters *)

Lemma strip_other c s : Tokenizer.IsWhitespaceNotNull c = false → Tokenizer.strip (c :: s) = c :: s.
Proof. intros H. simpl. by rewrite H. Qed.

Lemma strip_space s : Tokenizer.strip (32%Z :: s) = Tokenizer.strip s.
Proof. done. Qed.

Lemma digit_not_space c : isdigit c = true → Tokenizer.IsWhitespaceNotNull c = false.
Proof. unfold isdigit, Tokenizer.IsWhitespaceNotNull. lia. Qed.

Lemma number_char_not_space c : number_char c = true → Tokenizer.IsWhitespaceNotNull c = false.
Proof. unfold number_char, isdigit, Tokenizer.IsWhitespaceNotNull. lia. Qed.

Lemma strip_number s : Forall (λ c, number_char c = true) s → Tokenizer.strip s = s.
Proof.
  intros [|c s' Hc _]; [done|]. by apply strip_other, number_char_not_space.
Qed.

(** A bound on the lines that is easily checked. *)
Lemma short_lines_bound n text : (Z.of_nat n ≤ 512 * 1024)%Z →
  forallb (λ p, length p <? n) (split 10 text) = true → short_lines text.
Proof.
  rewrite forallb_forall. intros Hn H. apply Forall_forall. intros p Hp%list_elem_of_In%H.
  unfold MAX_SIZE. lia.
Qed.

(** Printable characters: no control characters among them. *)
Definition printable (s : list Z) : Prop := Forall (λ c, 32 ≤ c)%Z s.

Lemma printable_app a b : printable a → printable b → printable (a ++ b).
Proof. intros. by apply Forall_app. Qed.

Lemma printable_line_ok s : printable s → line_ok s.
Proof.
  unfold printable. rewrite Forall_forall. intros H. split_and!.
  - intros ?%H. lia.
  - intros ?%H. lia.
  - intros E. apply last_Some_elem_of in E. apply H in E. lia.
Qed.

(** Printable text in front of a proper line. *)
Lemma prefix_line_ok p s : printable p → line_ok s → line_ok (p ++ s).
Proof.
  intros Hp (Hn & H0 & Hr). destruct (printable_line_ok p Hp) as (Hn' & H0' & Hr').
  split_and!; [set_solver|set_solver|]. rewrite last_app. by destruct (last s).
Qed.

Lemma number_chars_printable s : Forall (λ c, number_char c = true) s → printable s.
Proof. intros H. eapply Forall_impl; [exact H|]. unfold number_char, isdigit. simpl. lia. Qed.

Lemma digits_printable s : Forall (λ c, isdigit c = true) s → printable s.
Proof. intros H. eapply Forall_impl; [exact H|]. unfold isdigit. simpl. lia. Qed.

Lemma print_unsigned_printable n : (0 ≤ n ≤ ULONG_MAX)%Z → printable (print_unsigned n).
Proof. intros Hn. by apply digits_printable, print_unsigned_digits. Qed.

(** A literal is printable when the check says so. *)
Lemma literal_printable s : forallb (λ c, 32 <=? c)%Z s = true → printable s.
Proof.
  rewrite forallb_forall. intros H. apply Forall_forall. intros c Hc%list_elem_of_In%H. lia.
Qed.

Lemma clean_printable v : TagString.clean v → printable v.
Proof.
  intros [_ H]. eapply Forall_impl; [exact H|]. unfold TagString.char_is_non_printable. simpl. lia.
Qed.

Lemma StringAfterPrefix_app p s : StringAfterPrefix (p ++ s) p = Some s.
Proof. unfold StringAfterPrefix. by rewrite starts_with_app, drop_app_length. Qed.

(** ** Texts of tags *)

Lemma utf8_tail c s : (0 < c < 128)%Z → UTF8.utf8 (c :: s) → UTF8.utf8 s.
Proof.
  intros Hc (cs & l & -> & Hlen & _ & Hl)%UTF8.utf8_inv.
  assert (UTF8.SequenceLengthUTF8_char c = 1) as E
    by (unfold UTF8.SequenceLengthUTF8_char, UTF8.IsASCII; by rewrite (proj2 (Z.ltb_lt _ _)) by lia).
  rewrite E in Hlen. destruct cs; [done|]. simpl in Hlen. lia.
Qed.

Lemma strip_clean v : TagString.clean v → TagString.clean (Tokenizer.strip v).
Proof.
  induction v as [|c v IH]; [done|]. intros Hv. simpl. destruct (Tokenizer.IsWhitespaceNotNull c) eqn:E; [|done].
  apply IH. destruct Hv as [Hu Hp]. split; [|by apply Forall_inv_tail in Hp].
  apply (utf8_tail c); [|done]. unfold Tokenizer.IsWhitespaceNotNull in E. lia.
Qed.

Lemma strip_suffix v : Tokenizer.strip v `suffix_of` v.
Proof.
  induction v as [|c v IH]; [done|]. simpl. destruct (Tokenizer.IsWhitespaceNotNull c); [|done]. by apply suffix_cons_r.
Qed.

Lemma FixTagString_clean v : Forall is_byte v → TagString.clean v → TagString.FixTagString v = Some None.
Proof.
  intros Hb Hv. destruct (TagString.FixTagString_total v Hb) as (r & -> & _ & _ & _ & Hr & _).
  by rewrite (proj2 Hr).
Qed.

(** A text of a tag: made by the tag builder. *)
Definition value_ok (v : list Z) : Prop := TagString.clean v ∧ Forall is_byte v.

Lemma strip_ok v : value_ok v → value_ok (Tokenizer.strip v).
Proof.
  intros [Hc Hb]. split; [exact (strip_clean v Hc)|]. destruct (strip_suffix v) as [k Hk].
  rewrite Hk in Hb. by apply Forall_app in Hb as [_ Hb].
Qed.

Definition tag_ok (t : Tag) : Prop :=
  valid_items (items t) ∧ Forall (λ i, value_ok (value i)) (items t) ∧
  (Z.of_nat (length (items t)) < 65536)%Z ∧ (duration t < 2 ^ 31)%Z.

(** A song that can be written: its name fits on a line and its fields have their types. *)
Definition song_ok (s : Directory.Song) : Prop :=
  line_ok (Directory.s_uri s) ∧ Directory.s_uri s ≠ [] ∧ tag_ok (Directory.s_tag s) ∧
  (LONG_MIN ≤ Directory.s_mtime s ≤ LONG_MAX)%Z ∧ (0 ≤ Directory.s_start_time s < 2 ^ 32)%Z ∧
  (0 ≤ Directory.s_end_time s < 2 ^ 32)%Z.


(** ** Reading the lines *)

Section Load.
Context (mask : Z).

Lemma split_line_ok n v : n ≠ [] → (58%Z ∉ n) → split_line (n ++ str ": " ++ v) = Some (n, Tokenizer.strip v).
Proof.
  intros Hn H58. unfold split_line. change (n ++ str ": " ++ v) with (n ++ 58%Z :: 32%Z :: v).
  rewrite strchr_app by done. destruct n as [|c n]; [done|]. cbn [length].
  change (S (length n)) with (length (c :: n)).
  rewrite take_app_length. replace (S (length (c :: n))) with (length (c :: n) + 1) by lia.
  rewrite <-drop_drop, drop_app_length. done.
Qed.

(** One line of a song. *)
Lemma song_load_line n v file song tag : n ≠ [] → (58%Z ∉ n) →
  song_load_loop mask ((n ++ str ": " ++ v) :: file) song tag =
    match load_line mask n (Tokenizer.strip v) song tag with
    | Ret (song, tag) => song_load_loop mask file song tag
    | Throw e => (file, Throw e)
    | Abort => (file, Abort)
    end.
Proof.
  intros Hn H58. cbn [song_load_loop]. unfold streq.
  rewrite bool_decide_eq_false_2.
  2:{ intros E. assert (58%Z ∉ SONG_END) as Hni by (apply (bool_decide_unpack _); by vm_compute).
      apply Hni. rewrite <-E. set_solver. }
  by rewrite split_line_ok.
Qed.

Lemma load_item i song tag : type i ≠ TAG_NUM_OF_ITEM_TYPES → value_ok (value i) →
  load_line mask (default [] (tag_table_lookup_type tag_item_names (type i))) (Tokenizer.strip (value i)) song tag =
    Ret (song, match stored_item mask i with Some j => TagBuilder.push j tag | None => tag end).
Proof.
  intros Hi Hv. destruct (save_item_ok i Hi) as (n & -> & _ & _ & Hp & _). change (default [] (Some n)) with n.
  unfold load_line, stored_item. rewrite Hp, bool_decide_eq_false_2 by done. cbn [negb].
  unfold TagBuilder.AddItem. destruct (_ || _) eqn:E; [done|].
  unfold TagBuilder.AddItemInternal. apply orb_false_iff in E as [E _]. rewrite E. cbn [negb check mbind option_bind].
  destruct (strip_ok _ Hv) as [Hc Hb]. rewrite FixTagString_clean by done. done.
Qed.

Lemma load_items l file song tag : valid_items l → Forall (λ i, value_ok (value i)) l →
  song_load_loop mask ((item_line <$> l) ++ file) song tag =
  song_load_loop mask file song
    (TagBuilder.mkTagBuilder (TagBuilder.duration tag) (TagBuilder.has_playlist tag)
       (TagBuilder.items tag ++ omap (stored_item mask) l)).
Proof.
  revert tag. induction l as [|i l IH]; intros tag Hl Hv.
  { simpl. rewrite app_nil_r. by destruct tag. }
  apply Forall_cons in Hl as [Hi Hl]. apply Forall_cons in Hv as [Hvi Hv].
  rewrite fmap_cons. cbn [app]. unfold item_line at 1.
  destruct (save_item_ok i Hi) as (n & En & Hn & H58 & _).
  rewrite song_load_line by (by rewrite En). rewrite load_item by done.
  rewrite IH by done. f_equal. cbn [omap list_omap]. destruct (stored_item mask i); [|done].
  cbn [TagBuilder.push TagBuilder.duration TagBuilder.has_playlist TagBuilder.items].
  by rewrite <-app_assoc.
Qed.

End Load.

(** ** Numbers on the lines *)

Lemma atoi_print_any n : (LONG_MIN ≤ n ≤ LONG_MAX)%Z → atoi (print_signed n) = Samples.to_signed 32 n.
Proof.
  intros Hn. unfold atoi. rewrite <-(app_nil_r (print_signed n)) at 1. by rewrite strtol_print_signed.
Qed.

Lemma parse_range_both a b : (0 ≤ a < 2 ^ 32)%Z → (0 ≤ b < 2 ^ 32)%Z →
  parse_range (print_unsigned a ++ str "-" ++ print_unsigned b) = (a, b).
Proof.
  intros Ha Hb. unfold parse_range. rewrite print_unsigned_ok by (done || unfold ULONG_MAX; lia).
  rewrite drop_app_length. change (first (str "-" ++ print_unsigned b) =? 45)%Z with true. cbn iota.
  replace (S (length (print_unsigned a))) with (length (print_unsigned a) + 1) by lia.
  rewrite <-drop_drop, drop_app_length.
  change (drop 1 (str "-" ++ print_unsigned b)) with (print_unsigned b).
  rewrite <-(app_nil_r (print_unsigned b)), print_unsigned_ok by (done || unfold ULONG_MAX; lia).
  cbn [fst]. unfold Samples.to_unsigned. rewrite (Z.mod_small a), (Z.mod_small b) by lia. done.
Qed.

Lemma parse_range_open a : (0 ≤ a < 2 ^ 32)%Z → parse_range (print_unsigned a ++ str "-") = (a, 0%Z).
Proof.
  intros Ha. unfold parse_range. rewrite print_unsigned_ok by (done || unfold ULONG_MAX; lia).
  rewrite drop_app_length. change (first (str "-") =? 45)%Z with true. cbn iota.
  replace (S (length (print_unsigned a))) with (length (print_unsigned a) + 1) by lia.
  rewrite <-drop_drop, drop_app_length. unfold Samples.to_unsigned. by rewrite Z.mod_small by lia.
Qed.

(** The text of a time begins with a digit. *)
Lemma time_text ms : (0 ≤ ms < 2 ^ 31)%Z →
  Forall (λ c, number_char c = true) (print_double (ToDoubleS ms)).
Proof.
  intros Hms. destruct (decide (ms = 0%Z)) as [->|Hne].
  { apply Forall_forall. intros c Hc%list_elem_of_In. revert c Hc. apply forallb_forall. vm_compute. done. }
  rewrite TimeFacts.print_time by lia.
  assert (Hdig : ∀ l, Forall (λ c, isdigit c = true) l → Forall (λ c, number_char c = true) l).
  { intros l H. eapply Forall_impl; [exact H|]. unfold number_char. by intros c ->. }
  apply Forall_app_2; [apply Hdig|apply Forall_app_2; [by repeat constructor|apply Hdig]].
  - apply dec_digits_ok. split; [apply Z.div_pos; lia|]. apply Z.div_lt_upper_bound; lia.
  - apply TimeFacts.zero_padded_ok; [done|]. apply Z.mod_pos_bound. lia.
Qed.

Lemma print_unsigned_head a s : (0 ≤ a ≤ ULONG_MAX)%Z → Tokenizer.strip (print_unsigned a ++ s) = print_unsigned a ++ s.
Proof.
  intros Ha. destruct (print_unsigned_digits a Ha) as [Hd Hne]. destruct (print_unsigned a) as [|c l]; [done|].
  apply strip_other, digit_not_space. by apply Forall_inv in Hd.
Qed.

(** ** Whole songs *)

Section Songs.
Context (mask : Z).

Lemma load_range a b file song tag : (0 ≤ a < 2 ^ 32)%Z → (0 ≤ b < 2 ^ 32)%Z →
  Song.start_time song = 0%Z → Song.end_time song = 0%Z →
  song_load_loop mask (range_lines a b ++ file) song tag =
  song_load_loop mask file (Song.SetEndTime b (Song.SetStartTime a song)) tag.
Proof.
  intros Ha Hb Hs He. unfold range_lines.
  assert (Hline : ∀ r, parse_range (Tokenizer.strip r) = (a, b) →
    song_load_loop mask ((str "Range" ++ str ": " ++ r) :: file) song tag =
    song_load_loop mask file (Song.SetEndTime b (Song.SetStartTime a song)) tag).
  { intros r Hr. rewrite song_load_line by (done || (apply (bool_decide_unpack _); by vm_compute)).
    change (load_line mask (str "Range") (Tokenizer.strip r) song tag) with
      (let '(start_ms, end_ms) := parse_range (Tokenizer.strip r) in
       Ret (E := LoadError) (Song.SetEndTime end_ms (Song.SetStartTime start_ms song), tag)).
    by rewrite Hr. }
  destruct (0 <? b)%Z eqn:Eb; [|destruct (0 <? a)%Z eqn:Ea].
  - apply Hline. rewrite print_unsigned_head by (unfold ULONG_MAX; lia). by apply parse_range_both.
  - apply Hline. rewrite print_unsigned_head by (unfold ULONG_MAX; lia). rewrite parse_range_open by done.
    f_equal. lia.
  - replace b with 0%Z by lia. replace a with 0%Z by lia. destruct song. simpl in Hs, He. by subst.
Qed.

Lemma load_time d file song tag : (d < 2 ^ 31)%Z → TagBuilder.duration tag = Negative →
  song_load_loop mask (time_lines d ++ file) song tag =
  song_load_loop mask file song (TagBuilder.SetDuration (stored_duration d) tag).
Proof.
  intros Hd Ht. unfold time_lines, stored_duration. destruct (IsNegative d) eqn:E.
  { rewrite <-Ht. by destruct tag. }
  unfold IsNegative in E. cbn [app].
  change (str "Time: " ++ ?x) with (str "Time" ++ str ": " ++ x).
  rewrite song_load_line by (done || (apply (bool_decide_unpack _); by vm_compute)).
  rewrite strip_number by (apply time_text; lia).
  change (load_line mask (str "Time") ?v song tag) with
    (d ← of_option (SignedFromS (atof v)); Ret (E := LoadError) (song, TagBuilder.SetDuration d tag)).
  change (SignedFromS (atof (print_double (ToDoubleS d)))) with (stored_time d).
  destruct (TimeFacts.stored_time_bound d) as [->|[-> _]]; [lia|done|done].
Qed.

Lemma load_has_playlist b file song tag : TagBuilder.has_playlist tag = false →
  song_load_loop mask (playlist_lines b ++ file) song tag =
  song_load_loop mask file song (TagBuilder.SetHasPlaylist b tag).
Proof.
  intros Ht. unfold playlist_lines. destruct b; [|rewrite <-Ht; by destruct tag].
  cbn [app]. change (str "Playlist: yes") with (str "Playlist" ++ str ": " ++ str "yes").
  rewrite song_load_line by (done || (apply (bool_decide_unpack _); by vm_compute)). reflexivity.
Qed.

Lemma load_mtime m file song tag : (LONG_MIN ≤ m ≤ LONG_MAX)%Z →
  song_load_loop mask ((SONG_MTIME ++ str ": " ++ print_signed m) :: file) song tag =
  song_load_loop mask file (Song.SetLastModified (Samples.to_signed 32 m) song) tag.
Proof.
  intros Hm. rewrite song_load_line by (done || (apply (bool_decide_unpack _); by vm_compute)).
  rewrite strip_number by (by apply print_signed_chars).
  change (load_line mask SONG_MTIME ?v song tag) with
    (Ret (E := LoadError) (Song.SetLastModified (atoi v) song, tag)).
  by rewrite atoi_print_any.
Qed.

Lemma stored_items_length l : length (omap (stored_item mask) l) ≤ length l.
Proof.
  induction l as [|i l IH]; [done|]. cbn [omap list_omap]. destruct (stored_item mask i); cbn [length]; lia.
Qed.

(** The lines behind the first one give the song back. *)
Lemma song_load_body uri a b t m file : tag_ok t → (LONG_MIN ≤ m ≤ LONG_MAX)%Z →
  (0 ≤ a < 2 ^ 32)%Z → (0 ≤ b < 2 ^ 32)%Z →
  song_load mask (song_body a b t m ++ file) uri =
  (file, Ret (Song.mkSong uri [] (stored_tag mask t) (Samples.to_signed 32 m) a b)).
Proof.
  intros (Hi & Hv & Hlen & Hd) Hm Ha Hb. unfold song_load, song_body. rewrite <-!app_assoc.
  rewrite load_range, load_time, load_has_playlist, load_items by done. cbn [app].
  rewrite load_mtime by done. cbn [song_load_loop]. unfold streq.
  rewrite bool_decide_eq_true_2 by done. cbn [mbind outcome_bind]. unfold TagBuilder.Commit.
  cbn [TagBuilder.items TagBuilder.SetHasPlaylist TagBuilder.SetDuration TagBuilder.empty
       TagBuilder.duration TagBuilder.has_playlist app fst snd].
  pose proof (stored_items_length (items t)).
  rewrite take_ge by (rewrite Z.mod_small, Nat2Z.id; lia). done.
Qed.

(** ** The lines are proper ones *)

Lemma item_line_ok i : type i ≠ TAG_NUM_OF_ITEM_TYPES → value_ok (value i) → line_ok (item_line i).
Proof.
  intros Hi [Hc _]. unfold item_line. destruct (save_item_ok i Hi) as (n & -> & _ & _ & _ & Hn).
  change (default [] (Some n)) with n. destruct Hn as (H10 & H0 & H13).
  pose proof (printable_line_ok (str ": " ++ value i)) as Hl.
  destruct Hl as (H10' & H0' & H13').
  { apply printable_app; [by apply literal_printable|by apply clean_printable]. }
  split_and!; [set_solver|set_solver|]. rewrite last_app. by destruct (last (str ": " ++ value i)).
Qed.

Lemma song_body_ok a b t m : tag_ok t → (LONG_MIN ≤ m ≤ LONG_MAX)%Z →
  (0 ≤ a < 2 ^ 32)%Z → (0 ≤ b < 2 ^ 32)%Z → Forall line_ok (song_body a b t m).
Proof.
  intros (Hi & Hv & _ & Hd) Hm Ha Hb. unfold song_body.
  assert (Hlit : ∀ s, forallb (λ c, 32 <=? c)%Z s = true → printable s) by apply literal_printable.
  assert (Hnum : ∀ n, (0 ≤ n < 2 ^ 32)%Z → printable (print_unsigned n))
    by (intros n Hn; apply print_unsigned_printable; unfold ULONG_MAX; lia).
  apply Forall_app_2; [|apply Forall_app_2; [|apply Forall_app_2; [|apply Forall_app_2]]].
  - unfold range_lines. destruct (0 <? b)%Z; [|destruct (0 <? a)%Z; [|constructor]];
      apply Forall_singleton, printable_line_ok; repeat apply printable_app; auto.
  - unfold time_lines. destruct (IsNegative (duration t)) eqn:E; [constructor|].
    apply Forall_singleton, printable_line_ok, printable_app; [by apply Hlit|].
    apply number_chars_printable, time_text. unfold IsNegative in E. lia.
  - unfold playlist_lines. destruct (has_playlist t); [|constructor].
    by apply Forall_singleton, printable_line_ok, Hlit.
  - apply Forall_fmap, Forall_forall. intros i Hin. rewrite Forall_forall in Hv. simpl.
    unfold valid_items in Hi. rewrite Forall_forall in Hi. by apply item_line_ok; [apply Hi|apply Hv].
  - apply Forall_cons; split; [|apply Forall_singleton; by apply printable_line_ok, Hlit].
    apply printable_line_ok. repeat apply printable_app; [by apply Hlit..|].
    by apply number_chars_printable, print_signed_chars.
Qed.

(** A song of the database, written and read. *)
Lemma song_roundtrip s file : song_ok s →
  ∃ cs, song_save s = Some cs ∧
    writes cs ((SONG_BEGIN ++ Directory.s_uri s) ::
               song_body (Directory.s_start_time s) (Directory.s_end_time s) (Directory.s_tag s) (Directory.s_mtime s)) ∧
    ∃ song, song_load mask (song_body (Directory.s_start_time s) (Directory.s_end_time s) (Directory.s_tag s)
       (Directory.s_mtime s) ++ file) (Directory.s_uri s) = (file, Ret song) ∧
      Directory.NewFrom song = Some (stored_song mask s).
Proof.
  intros (Hu & Hne & Ht & Hm & Ha & Hb).
  destruct (song_save_ok (Directory.s_uri s) (Directory.s_start_time s) (Directory.s_end_time s)
              (Directory.s_tag s) (Directory.s_mtime s)) as (cs & Hcs & Hw); [apply Ht|].
  exists cs. split_and!; [done|done|]. rewrite song_load_body by done. eexists. split; [done|].
  unfold Directory.NewFrom, stored_song. cbn. by destruct (Directory.s_uri s) eqn:E.
Qed.

End Songs.

End SongSaveFacts.

(** * Songs survive being written

    The composition of the song writer, the output stream, the line reader and the song
    reader. *)

Module SongSaveProps.
Import CString Decimal Tag Numbers TextIO SongSave SongSaveFacts.

Section File.
Context `{!Heap} (mask : Z).

(** C20: songs in text files.  A song with fields of their types is written without a
    failure; reading the file, in pieces of any size, and loading the song gives its name,
    range, playlist flag and tags back, the last up to white space at their beginning and
    disabled types; its modification time modulo 2^32; and a duration that is the same or
    one millisecond less. *)
Theorem song_file_roundtrip s sizes : song_ok s →
  ∃ cs bytes, song_save s = Some cs ∧ write_file cs = Some bytes ∧
    (short_lines bytes → ∃ lines song,
       read_file sizes bytes = Some ((SONG_BEGIN ++ Directory.s_uri s) :: lines) ∧
       song_load mask lines (Directory.s_uri s) = ([], Ret song) ∧
       Song.GetURI song = Directory.s_uri s ∧
       Song.GetStartTime song = Directory.s_start_time s ∧ Song.GetEndTime song = Directory.s_end_time s ∧
       Song.GetLastModified song = Samples.to_signed 32 (Directory.s_mtime s) ∧
       has_playlist (Song.GetTag song) = has_playlist (Directory.s_tag s) ∧
       items (Song.GetTag song) = omap (stored_item mask) (items (Directory.s_tag s)) ∧
       let d := duration (Directory.s_tag s) in let d' := duration (Song.GetTag song) in
       if IsNegative d then IsNegative d' = true else d' = d ∨ d' = (d - 1)%Z ∧ (0 ≤ d')%Z).
Proof.
  intros Hs. destruct (song_roundtrip mask s [] Hs) as (cs & Hcs & Hw & _).
  destruct Hs as (Hu & Hne & Ht & Hm & Ha & Hb).
  exists cs. rewrite write_file_ok, Hw. eexists. split_and!; [done|done|]. intros Hshort.
  rewrite read_file_ok by done.
  assert (Hok : Forall line_ok ((SONG_BEGIN ++ Directory.s_uri s) ::
    song_body (Directory.s_start_time s) (Directory.s_end_time s) (Directory.s_tag s) (Directory.s_mtime s))).
  { constructor; [by apply prefix_line_ok; [apply literal_printable|]|by apply song_body_ok]. }
  rewrite text_lines_ok by done. eexists _, _. split; [done|].
  rewrite <-(app_nil_r (song_body _ _ _ _)), song_load_body by done. split_and!; try done. cbv zeta.
  cbn. unfold stored_duration. destruct (IsNegative (duration (Directory.s_tag s))) eqn:E; [done|].
  unfold IsNegative in E. destruct Ht as (_ & _ & _ & Hd).
  destruct (TimeFacts.stored_time_bound (duration (Directory.s_tag s))) as [->|[-> ?]]; [lia|by left|].
  right. cbn. lia.
Qed.

End File.

(** A duration of 1001 ms comes back as 1000 ms. *)
Definition example : Directory.Song :=
  Directory.mkDbSong (str "x") (mkTag 1001 true [mkTagItem TAG_TITLE (str " a")]) (2 ^ 31) 0 0.

#[local] Instance zero_heap : Heap := { fresh n := replicate n 0%Z; fresh_length n := length_replicate n 0%Z }.

Lemma example_ok : song_ok example.
Proof.
  split; [apply (bool_decide_unpack _); vm_compute; exact I|]. split; [done|].
  split; [|by split_and!]. split; [by repeat constructor|]. split; [|done].
  apply Forall_singleton. split; [|by repeat constructor].
  split; [repeat (apply UTF8.utf8_ascii; [done|]); constructor|by repeat constructor].
Qed.

Lemma song_file_roundtrip_witness :
  ∃ lines song, song_load (2 ^ 20 - 1) lines (str "x") = ([], Ret song) ∧
    duration (Song.GetTag song) = 1000%Z ∧ Song.GetLastModified song = (- 2 ^ 31)%Z ∧
    items (Song.GetTag song) = [mkTagItem TAG_TITLE (str "a")].
Proof.
  destruct (song_file_roundtrip (2 ^ 20 - 1) example [3; 1]) as (cs & bytes & Hcs & Hbytes & H).
  - exact example_ok.
  - assert (Hshort : short_lines bytes).
    { assert (E : song_save example ≫= write_file = Some bytes) by (rewrite Hcs; exact Hbytes).
      vm_compute in E. injection E as <-. apply (short_lines_bound 100); [lia|vm_compute; reflexivity]. }
    destruct (H Hshort) as (lines & song & Hread & Hload & _ & _ & _ & Hm & _ & Hi & _).
    exists lines, song. split; [exact Hload|]. split; [|split; [exact Hm|exact Hi]].
    assert (E : (cs ← song_save example; b ← write_file cs; read_file [3; 1] b) =
      Some ((SONG_BEGIN ++ str "x") :: lines)) by (rewrite Hcs; cbn; rewrite Hbytes; exact Hread).
    vm_compute in E. injection E as <-. vm_compute in Hload. injection Hload as <-. reflexivity.
Defined.

End SongSaveProps.
