(* ===== verification/DatabaseSave.v ===== *)
(** * The database file

    [db/plugins/simple/DirectorySave.cxx], [DatabaseSave.cxx] and [PlaylistDatabase.cxx]:
    writing the tree of the simple database to a text file and reading it, and
    [SimpleDatabase::Save], [Load] and [Open] on top of them. *)

From Stdlib Require Import ZArith Lia ZifyBool.
From stdpp Require Import base numbers sets strings list.
From S2P Require Import Prelude CString Decimal Tag Song Tokenizer Samples TextIO SongFilter Directory SongSave.

Set Default Goal Selector "!".

Module DatabaseSave.
Import CString Decimal Tag Numbers TextIO Directory SongSave.

#[local] Abbreviation text_file := (list (list Z)).

(** ** Playlists of a directory *)

Definition PLAYLIST_META_BEGIN : list Z := str "playlist_begin: ".

Definition playlist_save (pi : PlaylistInfo) : output_call :=
  Print (PLAYLIST_META_BEGIN ++ p_name pi ++ newline ++
         str "mtime: " ++ print_signed (p_mtime pi) ++ newline ++
         str "playlist_end" ++ newline).

Definition playlist_vector_save (pv : list PlaylistInfo) : list output_call := playlist_save <$> pv.

Fixpoint playlist_metadata_loop (file : text_file) (pm : PlaylistInfo)
    : outcome LoadError (PlaylistInfo * text_file) :=
  match file with
  | [] => Ret (pm, [])
  | line :: file =>
      if streq line (str "playlist_end") then Ret (pm, file)
      else match split_line line with
           | None => Throw (UnknownLine line)
           | Some (name, value) =>
               if streq name (str "mtime") then
                 playlist_metadata_loop file (mkPlaylistInfo (p_name pm) (strtol value).1)
               else Throw (UnknownLine name)
           end
  end.

Definition playlist_metadata_load (file : text_file) (pv : list PlaylistInfo) (name : list Z)
    : outcome LoadError (list PlaylistInfo * text_file) :=
  r ← playlist_metadata_loop file (mkPlaylistInfo name 0);
  Ret ((UpdateOrInsert r.1 pv).2, r.2).

(** ** Directories *)

Definition DIRECTORY_DIR : list Z := str "directory: ".
Definition DIRECTORY_TYPE : list Z := str "type: ".
Definition DIRECTORY_MTIME : list Z := str "mtime: ".
Definition DIRECTORY_BEGIN : list Z := str "begin: ".
Definition DIRECTORY_END : list Z := str "end: ".

Definition DeviceToTypeString (device : Z) : option (list Z) :=
  if (device =? DEVICE_INARCHIVE)%Z then Some (str "archive")
  else if (device =? DEVICE_CONTAINER)%Z then Some (str "container")
  else None.

Definition ParseTypeString (type : list Z) : Z :=
  if streq type (str "archive") then DEVICE_INARCHIVE
  else if streq type (str "container") then DEVICE_CONTAINER
  else 0.

(** The lines in front of and behind the contents. *)
Definition save_header (d : Directory) : list output_call :=
  if IsRoot d then []
  else
    match DeviceToTypeString (device d) with
    | Some type => [Print (DIRECTORY_TYPE ++ type ++ newline)]
    | None => []
    end ++
    (if negb (d_mtime d =? 0)%Z
     then [Print (DIRECTORY_MTIME ++ print_unsigned (Samples.to_unsigned 64 (d_mtime d)) ++ newline)]
     else []) ++
    [Print (DIRECTORY_BEGIN ++ path d ++ newline)].

Definition save_footer (d : Directory) : list output_call :=
  if IsRoot d then [] else [Print (DIRECTORY_END ++ path d ++ newline)].

(** [None]: a child without a parent, or a tag item of no type. *)
Fixpoint directory_save (directory : Directory) : option (list output_call) :=
  cs ← foldr (λ child acc,
        name ← GetName child;
        l ← (if IsMount child then Some [] else directory_save child);
        rest ← acc;
        Some (Print (DIRECTORY_DIR ++ name ++ newline) :: l ++ rest))
      (Some []) (children directory);
  ss ← mapM song_save (songs directory);
  Some (save_header directory ++ cs ++ concat ss ++ playlist_vector_save (playlists directory) ++
        save_footer directory).

Definition ParseLine (directory : Directory) (line : list Z) : option Directory :=
  match StringAfterPrefix line DIRECTORY_MTIME with
  | Some p => Some (set_mtime (Samples.to_signed 64 (ParseUint64 p)) directory)
  | None =>
      match StringAfterPrefix line DIRECTORY_TYPE with
      | Some p => Some (set_device (ParseTypeString p) directory)
      | None => None
      end
  end.

(** The loop up to the [begin] line. *)
Fixpoint load_header (file : text_file) (directory : Directory)
    : outcome LoadError (Directory * text_file) :=
  match file with
  | [] => Throw UnexpectedEndOfFile
  | line :: file =>
      if starts_with line DIRECTORY_BEGIN then Ret (directory, file)
      else match ParseLine directory line with
           | Some directory => load_header file directory
           | None => Throw (MalformedLine line)
           end
  end.

Section Load.
Context (global_tag_mask : Z).

(** [directory_load_subdir], given the function that loads a directory.  The exception
    handler deletes the new child; the tree is dropped by the callers then. *)
Definition load_subdir (load : text_file → Directory → outcome LoadError (Directory * text_file))
    (file : text_file) (parent : Directory) (name : list Z) : outcome LoadError (Directory * text_file) :=
  c ← of_option (FindChild name parent);
  match c with
  | Some _ => Throw (DuplicateSubdirectory name)
  | None =>
      parent ← of_option (CreateChild name parent);
      directory ← of_option (last (children parent));
      r ← load_header file directory;
      r ← load r.2 r.1;
      Ret (set_children (take (length (children parent) - 1) (children parent) ++ [r.1]) parent, r.2)
  end.

Fixpoint directory_load_loop (fuel : nat) (file : text_file) (directory : Directory)
    : outcome LoadError (Directory * text_file) :=
  match fuel with
  | O => Abort
  | S fuel =>
      match file with
      | [] => Ret (directory, [])
      | line :: file =>
          if starts_with line DIRECTORY_END then Ret (directory, file)
          else match StringAfterPrefix line DIRECTORY_DIR with
          | Some p =>
              r ← load_subdir (directory_load_loop fuel) file directory p;
              directory_load_loop fuel r.2 r.1
          | None =>
          match StringAfterPrefix line SONG_BEGIN with
          | Some name =>
              match FindSong name directory with
              | Some _ => Throw (DuplicateSong name)
              | None =>
                  let '(file, r) := song_load global_tag_mask file name in
                  song ← r;
                  song ← of_option (NewFrom song);
                  directory_load_loop fuel file (AddSong song directory)
              end
          | None =>
          match StringAfterPrefix line PLAYLIST_META_BEGIN with
          | Some name =>
              r ← playlist_metadata_load file (playlists directory) name;
              directory_load_loop fuel r.2 (set_playlists r.1 directory)
          | None => Throw (MalformedLine line)
          end end end
      end
  end.

(** Every round consumes a line. *)
Definition directory_load (file : text_file) (directory : Directory)
    : outcome LoadError (Directory * text_file) :=
  directory_load_loop (S (length file)) file directory.

End Load.

(** ** The file *)

Definition DIRECTORY_INFO_BEGIN : list Z := str "info_begin".
Definition DIRECTORY_INFO_END : list Z := str "info_end".
Definition DB_FORMAT_PREFIX : list Z := str "format: ".
Definition DIRECTORY_MPD_VERSION : list Z := str "mpd_version: ".
Definition DIRECTORY_FS_CHARSET : list Z := str "fs_charset: ".
Definition DB_TAG_PREFIX : list Z := str "tag: ".
Definition DB_FORMAT : Z := 2.
Definition OLDEST_DB_FORMAT : Z := 1.

(** [fs_charset] is a static string nothing is ever assigned to. *)
Definition fs_charset : list Z := [].
Definition GetFSCharset : list Z := match fs_charset with [] => str "UTF-8" | _ => fs_charset end.

(** [TagType(0)] ... [TagType(TAG_NUM_OF_ITEM_TYPES - 1)], with their names. *)
Definition save_tag_names (mask : Z) : list output_call :=
  (λ e : TagType * list Z, Print (DB_TAG_PREFIX ++ e.2 ++ newline)) <$>
    filter (λ e, IsTagEnabled mask e.1 = true) tag_item_names.

(** What the information at the beginning has said so far. *)
Record db_info := mkInfo {
  format : Z; found_charset : bool; found_version : bool; tags : list bool }.

Section File.
(** The enabled tags, and the version string of the build. *)
Context (global_tag_mask : Z) (VERSION : list Z).

Definition db_save_internal (music_root : Directory) : option (list output_call) :=
  l ← directory_save music_root;
  Some ([Print (DIRECTORY_INFO_BEGIN ++ newline);
         Print (DB_FORMAT_PREFIX ++ print_unsigned DB_FORMAT ++ newline);
         Print (DIRECTORY_MPD_VERSION ++ VERSION ++ newline);
         Print (DIRECTORY_FS_CHARSET ++ GetFSCharset ++ newline)] ++
        save_tag_names global_tag_mask ++
        [Print (DIRECTORY_INFO_END ++ newline)] ++ l).

(** One line of the information. *)
Definition load_info_line (line : list Z) (i : db_info) : outcome LoadError db_info :=
  match StringAfterPrefix line DB_FORMAT_PREFIX with
  | Some p => Ret (mkInfo (Samples.to_unsigned 32 (atoi p)) (found_charset i) (found_version i) (tags i))
  | None =>
  if starts_with line DIRECTORY_MPD_VERSION then
    if found_version i then Throw DuplicateVersionLine
    else Ret (mkInfo (format i) (found_charset i) true (tags i))
  else match StringAfterPrefix line DIRECTORY_FS_CHARSET with
  | Some new_charset =>
      if found_charset i then Throw DuplicateCharsetLine
      else if negb (first GetFSCharset =? 0)%Z && negb (streq new_charset GetFSCharset)
      then Throw CharsetMismatch
      else Ret (mkInfo (format i) true (found_version i) (tags i))
  | None =>
  match StringAfterPrefix line DB_TAG_PREFIX with
  | Some name =>
      let tag := tag_name_parse name in
      if bool_decide (tag = TAG_NUM_OF_ITEM_TYPES) then Throw (UnrecognizedTag name)
      else l ← of_option (store (tag_index tag) true (tags i));
           Ret (mkInfo (format i) (found_charset i) (found_version i) l)
  | None => Throw (MalformedLine line)
  end end end.

Fixpoint load_info (file : text_file) (i : db_info) : outcome LoadError (db_info * text_file) :=
  match file with
  | [] => Ret (i, [])
  | line :: file =>
      if streq line DIRECTORY_INFO_END then Ret (i, file)
      else i ← load_info_line line i; load_info file i
  end.

(** [for (...) if (IsTagEnabled(i) && !tags[i]) throw] *)
Definition tags_match (l : list bool) : bool :=
  forallb (λ e : TagType * list Z,
    negb (IsTagEnabled global_tag_mask e.1) || default false (l !! tag_index e.1)) tag_item_names.

Definition db_load_internal (file : text_file) (music_root : Directory) : outcome LoadError Directory :=
  match file with
  | [] => Throw DatabaseCorrupted
  | line :: file =>
      if negb (streq DIRECTORY_INFO_BEGIN line) then Throw DatabaseCorrupted
      else
        r ← load_info file (mkInfo 0 false false (replicate 20 false));
        let '(i, file) := r in
        if (format i <? OLDEST_DB_FORMAT)%Z || (DB_FORMAT <? format i)%Z then Throw FormatMismatch
        else if negb (tags_match (tags i)) then Throw TagListMismatch
        else r ← directory_load global_tag_mask file music_root; Ret r.1
  end.

(** ** The database object *)

Context `{!Heap, !SongFilter.Icu}.

(** [Save]: the database afterwards, and the bytes of the file. *)
Definition Save (db : SimpleDatabase) : option (SimpleDatabase * list Z) :=
  let db := Save_prepare db in
  cs ← db_save_internal (root db);
  bytes ← write_file cs;
  Some (db, bytes).

(** [Load], of a file whose bytes arrive in pieces of some sizes. *)
Definition Load (sizes : list nat) (bytes : list Z) (music_root : Directory) : outcome LoadError Directory :=
  file ← of_option (read_file sizes bytes);
  db_load_internal file music_root.

(** [Open], when the file exists: a file that cannot be loaded is discarded. *)
Definition Open (sizes : list nat) (bytes : list Z) : option SimpleDatabase :=
  match Load sizes bytes NewRoot with
  | Ret r => Some (mkDatabase r None None 0)
  | Throw _ => Some (mkDatabase NewRoot None None 0)
  | Abort => None
  end.

End File.

End DatabaseSave.
