(* ===== verification/DatabaseSaveProps.v ===== *)
(** * Loading the tree that was written

    The lines of a well-formed tree, and what the loader makes of them: [stored] describes
    the tree that comes back. *)

From Stdlib Require Import ZArith Lia ZifyBool.
From stdpp Require Import base numbers sets gmap strings list.
From S2P Require Import Prelude UTF8 TagString CString UriUtil Decimal Tokenizer Tag Song Samples TextIO SongFilter Directory DirectoryFacts DatabaseProps SongSave SongSaveProps DatabaseSave.

Set Default Goal Selector "!".

Module DatabaseSaveFacts.
Import CString UriUtil Decimal Tag Numbers TextIO PathTraits Directory DirectoryFacts DatabaseProps SongSave SongSaveFacts DatabaseSave.

(** ** What can be written *)

Definition playlist_ok (p : PlaylistInfo) : Prop :=
  line_ok (p_name p) ∧ (LONG_MIN ≤ p_mtime p ≤ LONG_MAX)%Z.

(** Names and paths that fit on a line, and fields within their types. *)
Inductive storable (d : Directory) : Prop := storable_intro {
  st_path : line_ok (path d);
  st_mtime : (LONG_MIN ≤ d_mtime d ≤ LONG_MAX)%Z;
  st_songs : Forall song_ok (songs d);
  st_playlists : Forall playlist_ok (playlists d);
  st_children : ∀ c, c ∈ children d → storable c
}.

(** ** What comes back *)

Definition stored_device (v : Z) : Z := match DeviceToTypeString v with Some _ => v | None => 0%Z end.

(** The root has no header, so it comes back without its time and type; inode numbers are
    not written. *)
Fixpoint stored (mask : Z) (d : Directory) : Directory :=
  mkDirectory (stored mask <$> children d) (stored_song mask <$> songs d) (playlists d) (has_parent d)
    (if IsRoot d then 0%Z else d_mtime d) 0 (if IsRoot d then 0%Z else stored_device (device d))
    (path d) None.

Lemma stored_unfold mask d : stored mask d =
  mkDirectory (stored mask <$> children d) (stored_song mask <$> songs d) (playlists d) (has_parent d)
    (if IsRoot d then 0%Z else d_mtime d) 0 (if IsRoot d then 0%Z else stored_device (device d))
    (path d) None.
Proof. by destruct d. Qed.

Lemma stored_path mask d : path (stored mask d) = path d.
Proof. by destruct d. Qed.

Lemma stored_paths mask (l : list Directory) : path <$> (stored mask <$> l) = path <$> l.
Proof. rewrite <-list_fmap_compose. apply list_fmap_ext. intros i c _. apply stored_path. Qed.

Lemma stored_uris mask (l : list Song) : s_uri <$> (stored_song mask <$> l) = s_uri <$> l.
Proof. by rewrite <-list_fmap_compose. Qed.

Lemma stored_wf mask p d : wf p d → wf p (stored mask d).
Proof.
  revert p. induction d as [d IH] using directory_ind'. intros p Hd. rewrite stored_unfold.
  rewrite Forall_forall in IH. split; cbn [path has_parent mounted_database songs playlists children].
  - apply (wf_path _ _ Hd).
  - apply (wf_parent _ _ Hd).
  - done.
  - rewrite stored_uris. apply (wg_songs _ _ Hd).
  - rewrite stored_uris. apply (wf_names _ _ Hd).
  - apply (wf_playlists _ _ Hd).
  - rewrite stored_paths. apply (wf_unique _ _ Hd).
  - intros c' (c & -> & Hc)%list_elem_of_fmap. destruct (wf_children _ _ Hd c Hc) as (n & Hn & Hni & Hwf).
    exists n. rewrite stored_uris. auto.
Qed.

(** ** The lines *)

Definition song_lines (s : Song) : list (list Z) :=
  (SONG_BEGIN ++ s_uri s) :: song_body (s_start_time s) (s_end_time s) (s_tag s) (s_mtime s).

Definition playlist_lines (p : PlaylistInfo) : list (list Z) :=
  [PLAYLIST_META_BEGIN ++ p_name p; str "mtime" ++ str ": " ++ print_signed (p_mtime p); str "playlist_end"].

Definition header_lines (d : Directory) : list (list Z) :=
  if IsRoot d then []
  else match DeviceToTypeString (device d) with Some type => [DIRECTORY_TYPE ++ type] | None => [] end ++
       (if negb (d_mtime d =? 0)%Z
        then [DIRECTORY_MTIME ++ print_unsigned (Samples.to_unsigned 64 (d_mtime d))] else []) ++
       [DIRECTORY_BEGIN ++ path d].

Definition footer_lines (d : Directory) : list (list Z) :=
  if IsRoot d then [] else [DIRECTORY_END ++ path d].

Fixpoint dir_lines (d : Directory) : list (list Z) :=
  header_lines d ++
  concat ((λ c, (DIRECTORY_DIR ++ GetBase (path c)) :: dir_lines c) <$> children d) ++
  concat (song_lines <$> songs d) ++ concat (playlist_lines <$> playlists d) ++ footer_lines d.

Definition child_lines (c : Directory) : list (list Z) := (DIRECTORY_DIR ++ GetBase (path c)) :: dir_lines c.

(** The lines between header and footer. *)
Definition contents (d : Directory) : list (list Z) :=
  concat (child_lines <$> children d) ++ concat (song_lines <$> songs d) ++ concat (playlist_lines <$> playlists d).

Lemma dir_lines_unfold d : dir_lines d = header_lines d ++ contents d ++ footer_lines d.
Proof. unfold contents. rewrite <-!app_assoc. by destruct d. Qed.

(** ** Writing them *)

Lemma songs_save_ok l : Forall song_ok l →
  ∃ ss, mapM song_save l = Some ss ∧ writes (concat ss) (concat (song_lines <$> l)).
Proof.
  induction 1 as [|s l Hs Hl (ss & Hss & Hw)]; [by exists []|].
  destruct (song_roundtrip 0 s [] Hs) as (cs & Hcs & Hwc & _). exists (cs :: ss). split.
  - cbn [mapM]. rewrite Hcs. simpl. by rewrite Hss.
  - rewrite fmap_cons. cbn [concat]. by apply writes_app.
Qed.

Lemma playlists_save_ok l : writes (playlist_vector_save l) (concat (playlist_lines <$> l)).
Proof.
  induction l as [|p l IH]; [done|]. unfold playlist_vector_save in *. rewrite !fmap_cons. cbn [concat].
  apply (writes_app [_]); [|done]. unfold writes, playlist_save, playlist_lines, newline.
  rewrite !to_text_cons. cbn [fmap list_fmap call_bytes concat to_text]. rewrite <-!app_assoc.
  cbn [app]. by rewrite <-?app_assoc.
Qed.

Lemma header_save_ok d : writes (save_header d) (header_lines d).
Proof.
  unfold save_header, header_lines. destruct (IsRoot d); [done|].
  apply writes_app; [destruct (DeviceToTypeString _); [rewrite app_assoc; apply writes_line|done]|].
  apply writes_app; [destruct (negb _); [rewrite app_assoc; apply writes_line|done]|].
  rewrite app_assoc. apply writes_line.
Qed.

Lemma child_base p n c : file_name n → wf (child_path p n) c → GetBase (path c) = n.
Proof.
  intros Hn Hc. pose proof (child_name p n c Hn Hc) as E. unfold GetName in E.
  by apply bind_Some in E as (_ & _ & [= <-]).
Qed.

Lemma directory_save_ok d p : wf p d → storable d →
  ∃ cs, directory_save d = Some cs ∧ writes cs (dir_lines d).
Proof.
  revert p. induction d as [d IH] using directory_ind'. intros p Hd Hs.
  assert (Hchildren : ∃ cs, foldr (λ child acc, name ← GetName child;
      l ← (if IsMount child then Some [] else directory_save child); rest ← acc;
      Some (Print (DIRECTORY_DIR ++ name ++ newline) :: l ++ rest)) (Some []) (children d) = Some cs ∧
    writes cs (concat (child_lines <$> children d))).
  { pose proof (wf_children _ _ Hd) as Hwf. pose proof (st_children _ Hs) as Hst.
    induction (children d) as [|c l IHl]; [by exists []|]. apply Forall_cons in IH as [IHc IH].
    destruct IHl as (cs & Hcs & Hw); [done|intros; apply Hwf; by right|intros; apply Hst; by right|].
    destruct (Hwf c) as (n & Hn & _ & Hc); [by left|].
    destruct (IHc _ Hc) as (lc & Hlc & Hwc); [apply Hst; by left|].
    cbn [foldr]. rewrite (child_name p n c Hn Hc). cbn [mbind option_bind].
    assert (Hm : IsMount c = false) by (unfold IsMount; by rewrite (wf_mount _ _ Hc)).
    rewrite Hm, Hlc. cbn [mbind option_bind]. rewrite Hcs. cbn [mbind option_bind].
    eexists. split; [done|]. rewrite fmap_cons. cbn [concat]. unfold child_lines at 1.
    rewrite (child_base p n c Hn Hc), app_assoc.
    apply (writes_cons _ (lc ++ cs) (dir_lines c ++ _)). by apply writes_app. }
  destruct Hchildren as (cs & Hcs & Hw). destruct (songs_save_ok (songs d) (st_songs _ Hs)) as (ss & Hss & Hws).
  exists (save_header d ++ cs ++ concat ss ++ playlist_vector_save (playlists d) ++ save_footer d).
  split; [by destruct d; simpl in *; rewrite Hcs, Hss|].
  rewrite dir_lines_unfold. unfold contents. rewrite <-!app_assoc.
  apply writes_app; [apply header_save_ok|]. apply writes_app; [done|]. apply writes_app; [done|].
  apply writes_app; [apply playlists_save_ok|]. unfold save_footer, footer_lines.
  destruct (IsRoot d); [done|]. rewrite app_assoc. apply writes_line.
Qed.


(** ** The lines are proper ones *)

Lemma literal_line_ok p s : forallb (λ c, 32 <=? c)%Z p = true → line_ok s → line_ok (p ++ s).
Proof. intros Hp. by apply prefix_line_ok, literal_printable. Qed.

Lemma to_unsigned64_range n : (0 ≤ Samples.to_unsigned 64 n ≤ ULONG_MAX)%Z.
Proof. unfold Samples.to_unsigned, ULONG_MAX. pose proof (Z.mod_pos_bound n (2 ^ 64)). lia. Qed.

Lemma song_lines_ok s : song_ok s → Forall line_ok (song_lines s).
Proof.
  intros (Hu & _ & Ht & Hm & Ha & Hb). apply Forall_cons. split; [by apply literal_line_ok|].
  by apply song_body_ok.
Qed.

Lemma playlist_lines_ok p : playlist_ok p → Forall line_ok (playlist_lines p).
Proof.
  intros [Hn Hm]. unfold playlist_lines. rewrite !Forall_cons. split_and!; [..|done].
  - by apply literal_line_ok.
  - apply printable_line_ok. repeat apply printable_app; [by apply literal_printable..|].
    by apply number_chars_printable, print_signed_chars.
  - by apply printable_line_ok, literal_printable.
Qed.

Lemma header_lines_ok d : line_ok (path d) → Forall line_ok (header_lines d).
Proof.
  intros Hp. unfold header_lines. destruct (IsRoot d); [constructor|].
  apply Forall_app_2; [|apply Forall_app_2].
  - unfold DeviceToTypeString. repeat case_match; simplify_eq; [..|constructor];
      by apply Forall_singleton, printable_line_ok, literal_printable.
  - destruct (negb _); [|constructor]. apply Forall_singleton, printable_line_ok, printable_app;
      [by apply literal_printable|]. apply print_unsigned_printable, to_unsigned64_range.
  - by apply Forall_singleton, literal_line_ok.
Qed.

(** A part of a proper line behind some of its characters. *)
Lemma line_ok_tail p n : n ≠ [] → line_ok (p ++ n) → line_ok n.
Proof.
  intros Hn (H10 & H0 & Hl). split_and!; [set_solver|set_solver|].
  rewrite last_app in Hl. destruct (last n) eqn:E; [done|]. by apply last_None in E.
Qed.

Lemma name_line_ok p n c : file_name n → wf (child_path p n) c → line_ok (path c) → line_ok n.
Proof.
  intros [[Hn _] _] Hc. rewrite (wf_path _ _ Hc). destruct p as [|x p]; [done|].
  change (child_path (x :: p) n) with ((x :: p) ++ [slash] ++ n). rewrite app_assoc. by apply line_ok_tail.
Qed.

Lemma dir_lines_ok d p : wf p d → storable d → Forall line_ok (dir_lines d).
Proof.
  revert p. induction d as [d IH] using directory_ind'. intros p Hd Hs. rewrite dir_lines_unfold.
  rewrite Forall_forall in IH. unfold contents.
  apply Forall_app_2; [by apply header_lines_ok, st_path|]. repeat apply Forall_app_2.
  - apply Forall_concat, Forall_fmap, Forall_forall. intros c Hc.
    destruct (wf_children _ _ Hd c Hc) as (n & Hn & _ & Hwf). pose proof (st_children _ Hs c Hc) as Hsc.
    apply Forall_cons. split; [|by eapply IH].
    rewrite (child_base p n c Hn Hwf). apply literal_line_ok; [done|].
    apply (name_line_ok p n c Hn Hwf). by apply st_path.
  - apply Forall_concat, Forall_fmap. eapply Forall_impl; [apply (st_songs _ Hs)|]. by apply song_lines_ok.
  - apply Forall_concat, Forall_fmap. eapply Forall_impl; [apply (st_playlists _ Hs)|]. by apply playlist_lines_ok.
  - unfold footer_lines. destruct (IsRoot d); [constructor|]. apply Forall_singleton, literal_line_ok; [done|].
    by apply st_path.
Qed.

(** ** Reading them *)

(** The directory [d0] with entries. *)
Definition with_entries (cs : list Directory) (ss : list Song) (ps : list PlaylistInfo) (d0 : Directory) : Directory :=
  mkDirectory cs ss ps (has_parent d0) (d_mtime d0) (inode d0) (device d0) (path d0) (mounted_database d0).

Section Load.
Context (mask : Z).

(** The header is read into the new directory. *)
Lemma load_header_ok d k q : IsRoot d = false → (LONG_MIN ≤ d_mtime d ≤ LONG_MAX)%Z →
  load_header (header_lines d ++ k) (new_directory q true) =
  Ret (mkDirectory [] [] [] true (d_mtime d) 0 (stored_device (device d)) q None, k).
Proof.
  intros Hr Hm. unfold header_lines. rewrite Hr, <-!app_assoc.
  assert (Htype : load_header (match DeviceToTypeString (device d) with Some type => [DIRECTORY_TYPE ++ type] | None => [] end ++
      (if negb (d_mtime d =? 0)%Z then [DIRECTORY_MTIME ++ print_unsigned (Samples.to_unsigned 64 (d_mtime d))] else []) ++
      [DIRECTORY_BEGIN ++ path d] ++ k) (new_directory q true) =
    load_header ((if negb (d_mtime d =? 0)%Z then [DIRECTORY_MTIME ++ print_unsigned (Samples.to_unsigned 64 (d_mtime d))] else []) ++
      [DIRECTORY_BEGIN ++ path d] ++ k) (set_device (stored_device (device d)) (new_directory q true))).
  { unfold stored_device, DeviceToTypeString. destruct (device d =? DEVICE_INARCHIVE)%Z eqn:E1.
    { apply Z.eqb_eq in E1. rewrite E1. reflexivity. }
    destruct (device d =? DEVICE_CONTAINER)%Z eqn:E2; [apply Z.eqb_eq in E2; rewrite E2|]; reflexivity. }
  rewrite Htype. clear Htype.
  assert (Hbegin : ∀ e, load_header ((DIRECTORY_BEGIN ++ path d) :: k) e = Ret (e, k)).
  { intros e. cbn [load_header]. by rewrite starts_with_app. }
  destruct (negb (d_mtime d =? 0)%Z) eqn:E.
  - cbn [app load_header].
    change (starts_with (DIRECTORY_MTIME ++ ?x) DIRECTORY_BEGIN) with false. cbn iota.
    unfold ParseLine. rewrite StringAfterPrefix_app. cbn iota.
    rewrite starts_with_app. f_equal. f_equal. unfold set_mtime, set_device, new_directory. cbn. f_equal.
    unfold ParseUint64. rewrite <-(app_nil_r (print_unsigned _)).
    rewrite print_unsigned_ok by (done || apply to_unsigned64_range). cbn [fst].
    replace (Samples.to_signed 64 (Samples.to_unsigned 64 (d_mtime d))) with (d_mtime d); [done|].
    unfold Samples.to_signed, Samples.to_unsigned, LONG_MIN, LONG_MAX in *.
    rewrite Zplus_mod_idemp_l, Z.mod_small; lia.
  - cbn [app]. rewrite Hbegin. apply negb_false_iff, Z.eqb_eq in E. by rewrite E.
Qed.

(** A round on the lines of a song. *)
Lemma load_song fuel s k d0 : song_ok s → (∀ x, x ∈ songs d0 → s_uri x ≠ s_uri s) →
  directory_load_loop mask (S fuel) (song_lines s ++ k) d0 =
  directory_load_loop mask fuel k (AddSong (stored_song mask s) d0).
Proof.
  intros Hs Hnew. destruct (song_roundtrip mask s k Hs) as (_ & _ & _ & song & Hload & Hnf).
  unfold song_lines. cbn [app directory_load_loop].
  change (starts_with (SONG_BEGIN ++ s_uri s) DIRECTORY_END) with false.
  change (StringAfterPrefix (SONG_BEGIN ++ s_uri s) DIRECTORY_DIR) with (@None (list Z)). cbn iota.
  rewrite StringAfterPrefix_app. unfold FindSong.
  rewrite (proj2 (list_find_None _ _)); [|by apply Forall_forall]. cbn [fmap option_fmap option_map].
  rewrite Hload. cbn [mbind outcome_bind]. by rewrite Hnf.
Qed.

Lemma load_songs l : Forall song_ok l → ∀ fuel k d0,
  NoDup (s_uri <$> l) → (∀ x s, x ∈ songs d0 → s ∈ l → s_uri x ≠ s_uri s) →
  length (concat (song_lines <$> l) ++ k) < fuel →
  ∃ fuel', length k < fuel' ∧
    directory_load_loop mask fuel (concat (song_lines <$> l) ++ k) d0 =
    directory_load_loop mask fuel' k (set_songs (songs d0 ++ (stored_song mask <$> l)) d0).
Proof.
  induction 1 as [|s l Hs Hl IH]; intros fuel k d0 Hnd Hnew Hf.
  { exists fuel. split; [done|]. simpl. rewrite app_nil_r. by destruct d0. }
  change (NoDup (s_uri s :: (s_uri <$> l))) in Hnd. apply NoDup_cons in Hnd as [Hni Hnd].
  rewrite fmap_cons in Hf |- *.
  cbn [concat] in Hf |- *. rewrite <-app_assoc in Hf |- *.
  destruct fuel as [|fuel]; [lia|].
  rewrite load_song; [|done|intros x Hx; apply Hnew; [done|by left]].
  destruct (IH fuel k (AddSong (stored_song mask s) d0)) as (fuel' & Hf' & ->).
  - done.
  - intros x s' [Hx|Hx]%elem_of_app Hs'; [apply Hnew; [done|by right]|].
    apply list_elem_of_singleton in Hx as ->. intros E. apply Hni. cbn in E. rewrite E. by apply list_elem_of_fmap_2.
  - rewrite length_app in Hf. unfold song_lines at 1 in Hf. cbn [length] in Hf. lia.
  - exists fuel'. split; [done|]. f_equal. unfold AddSong. destruct d0. simpl. by rewrite <-app_assoc.
Qed.

(** A round on the lines of a playlist. *)
Lemma UpdateOrInsert_new pi l : p_name pi ∉ (p_name <$> l) → (UpdateOrInsert pi l).2 = l ++ [pi].
Proof.
  induction l as [|p l IH]; [done|]. rewrite fmap_cons, not_elem_of_cons. intros [Hp Hl].
  cbn [UpdateOrInsert]. unfold streq. rewrite bool_decide_eq_false_2 by congruence.
  destruct (UpdateOrInsert pi l). simpl in *. by rewrite IH.
Qed.

Lemma load_playlist_info fuel p k d0 : playlist_ok p → p_name p ∉ (p_name <$> playlists d0) →
  directory_load_loop mask (S fuel) (playlist_lines p ++ k) d0 =
  directory_load_loop mask fuel k (set_playlists (playlists d0 ++ [p]) d0).
Proof.
  intros [_ Hm] Hnew. unfold playlist_lines. cbn [app directory_load_loop].
  change (starts_with (PLAYLIST_META_BEGIN ++ p_name p) DIRECTORY_END) with false.
  change (StringAfterPrefix (PLAYLIST_META_BEGIN ++ p_name p) DIRECTORY_DIR) with (@None (list Z)).
  change (StringAfterPrefix (PLAYLIST_META_BEGIN ++ p_name p) SONG_BEGIN) with (@None (list Z)). cbn iota.
  rewrite StringAfterPrefix_app. unfold playlist_metadata_load.
  assert (Hload : playlist_metadata_loop ((str "mtime" ++ str ": " ++ print_signed (p_mtime p)) :: str "playlist_end" :: k)
    (mkPlaylistInfo (p_name p) 0) = Ret (p, k)).
  { cbn [playlist_metadata_loop]. 
    change (streq (str "mtime" ++ ?x) (str "playlist_end")) with (bool_decide (str "mtime" ++ x = str "playlist_end")).
    rewrite bool_decide_eq_false_2 by done.
    rewrite split_line_ok by (done || (apply (bool_decide_unpack _); by vm_compute)).
    rewrite strip_number by (by apply print_signed_chars).
    change (streq (str "mtime") (str "mtime")) with true. cbn iota.
    change (streq (str "playlist_end") (str "playlist_end")) with true. cbn iota.
    rewrite <-(app_nil_r (print_signed _)), strtol_print_signed by done. by destruct p. }
  rewrite Hload. cbn [mbind outcome_bind fst snd]. rewrite UpdateOrInsert_new by done. done.
Qed.

Lemma load_playlists l : Forall playlist_ok l → ∀ fuel k d0,
  NoDup (p_name <$> playlists d0 ++ l) → length (concat (playlist_lines <$> l) ++ k) < fuel →
  ∃ fuel', length k < fuel' ∧
    directory_load_loop mask fuel (concat (playlist_lines <$> l) ++ k) d0 =
    directory_load_loop mask fuel' k (set_playlists (playlists d0 ++ l) d0).
Proof.
  induction 1 as [|p l Hp Hl IH]; intros fuel k d0 Hnd Hf.
  { exists fuel. split; [done|]. simpl. rewrite app_nil_r. by destruct d0. }
  rewrite fmap_cons in Hf |- *. cbn [concat] in Hf |- *. rewrite <-app_assoc in Hf |- *.
  destruct fuel as [|fuel]; [lia|].
  rewrite load_playlist_info; [|done|].
  2:{ rewrite fmap_app, fmap_cons, NoDup_app in Hnd. destruct Hnd as (_ & Hd & _). intros Hin.
      apply (Hd _ Hin). by left. }
  destruct (IH fuel k (set_playlists (playlists d0 ++ [p]) d0)) as (fuel' & Hf' & ->).
  - cbn. by rewrite <-app_assoc.
  - rewrite length_app in Hf. cbn [length playlist_lines] in Hf. lia.
  - exists fuel'. split; [done|]. f_equal. destruct d0. simpl. by rewrite <-app_assoc.
Qed.

(** ** Sub directories *)

(** A tree of which the children [cs] have been loaded. *)
Lemma partial_wf p d d0 cs : wf p d → cs `sublist_of` children d → path d0 = p →
  has_parent d0 = has_parent d → mounted_database d0 = None →
  wf p (with_entries (stored mask <$> cs) [] [] d0).
Proof.
  intros Hd Hcs Hp Hh Hm. pose proof (wf_path _ _ Hd) as E. subst p. unfold with_entries.
  rewrite <-E, Hh, Hm, <-(wf_mount _ _ Hd). rewrite <-E in Hd.
  apply wf_change; [done| | |constructor|by apply list_subseteq_nil|constructor].
  - rewrite stored_paths. eapply NoDup_sublist_fmap; [exact Hcs|apply (wf_unique _ _ Hd)].
  - intros c' (c & -> & Hc)%list_elem_of_fmap. exists c. rewrite stored_path.
    split_and!; [by eapply elem_of_sublist|done|]. intros q. by apply stored_wf.
Qed.

(** What [load] has to do with the lines of the child [c]. *)
Definition loads_contents (c : Directory) : Prop := ∀ p fuel k d0, wf p c → good_path p → storable c →
  children d0 = [] → songs d0 = [] → playlists d0 = [] → path d0 = p → has_parent d0 = has_parent c →
  mounted_database d0 = None → length (contents c ++ k) < fuel →
  ∃ fuel', length k < fuel' ∧
    directory_load_loop mask fuel (contents c ++ k) d0 =
    directory_load_loop mask fuel' k
      (with_entries (stored mask <$> children c) (stored_song mask <$> songs c) (playlists c) d0).

Lemma child_not_root p n c : wf (child_path p n) c → n ≠ [] → IsRoot c = false.
Proof.
  intros Hc Hn. rewrite (wf_IsRoot _ _ Hc). apply bool_decide_eq_false_2. by apply child_path_cons.
Qed.

(** A round on the lines of a child. *)
Lemma load_child p n c d0 fuel k : wf p d0 → good_path p → file_name n → wf (child_path p n) c → storable c →
  loads_contents c → (∀ c', c' ∈ children d0 → path c' ≠ path c) → length (child_lines c ++ k) < S fuel →
  directory_load_loop mask (S fuel) (child_lines c ++ k) d0 =
  directory_load_loop mask fuel k (set_children (children d0 ++ [stored mask c]) d0).
Proof.
  intros Hd0 Hp Hn Hc Hs Hload Hnew Hf. assert (Hne : n ≠ []) by apply Hn. pose proof (child_not_root p n c Hc Hne) as Hr.
  unfold child_lines in *. cbn [app directory_load_loop length] in *. rewrite (child_base p n c Hn Hc).
  change (starts_with (DIRECTORY_DIR ++ n) DIRECTORY_END) with false. cbn iota.
  rewrite StringAfterPrefix_app. unfold load_subdir at 1.
  destruct (FindChild_ok p d0 n Hd0) as (r & -> & Hr'). cbn [of_option mbind outcome_bind].
  destruct r as [[i c']|].
  { destruct Hr' as (Hi & Hc' & _). exfalso. apply (Hnew c'); [by eapply list_elem_of_lookup_2|].
    by rewrite (wf_path _ _ Hc'), (wf_path _ _ Hc). }
  rewrite (CreateChild_ok p d0 n Hd0 Hp Hn). cbn [of_option mbind outcome_bind].
  change (children (set_children ?l d0)) with l. rewrite last_snoc. cbn [of_option mbind outcome_bind].
  rewrite dir_lines_unfold, <-!app_assoc in Hf |- *.
  rewrite load_header_ok by (done || apply (st_mtime _ Hs)). cbn [mbind outcome_bind fst snd].
  assert (Hf' : length (contents c ++ footer_lines c ++ k) < fuel).
  { rewrite length_app in Hf. lia. }
  destruct (Hload (child_path p n) fuel (footer_lines c ++ k)
    (mkDirectory [] [] [] true (d_mtime c) 0 (stored_device (device c)) (child_path p n) None)) as (fuel' & Hl & ->); try done.
  { apply child_path_good, Hn. }
  { cbn. rewrite (wf_parent _ _ Hc). symmetry. apply bool_decide_eq_true_2. by apply child_path_cons. }
  destruct fuel' as [|fuel']; [lia|]. unfold footer_lines. rewrite Hr. cbn [app directory_load_loop].
  rewrite starts_with_app. cbn [mbind outcome_bind fst snd].
  rewrite length_app. cbn [length]. replace (length (children d0) + 1 - 1) with (length (children d0)) by lia.
  rewrite take_app_length. f_equal. unfold set_children. cbn. f_equal. f_equal. f_equal.
  rewrite stored_unfold, Hr, (wf_path _ _ Hc). unfold with_entries. cbn.
  rewrite (wf_parent _ _ Hc), bool_decide_eq_true_2 by (by apply child_path_cons). done.
Qed.

Lemma load_children p d d0 todo : wf p d → good_path p → storable d → path d0 = p →
  has_parent d0 = has_parent d → mounted_database d0 = None →
  Forall loads_contents (children d) → ∀ before fuel k, children d = before ++ todo →
  length (concat (child_lines <$> todo) ++ k) < fuel →
  ∃ fuel', length k < fuel' ∧
    directory_load_loop mask fuel (concat (child_lines <$> todo) ++ k) (with_entries (stored mask <$> before) [] [] d0) =
    directory_load_loop mask fuel' k (with_entries (stored mask <$> children d) [] [] d0).
Proof.
  intros Hd Hp Hs Hp0 Hh Hm Hall. induction todo as [|c todo IH]; intros before fuel k E Hf.
  { exists fuel. split; [done|]. rewrite app_nil_r in E. by rewrite E. }
  rewrite fmap_cons in Hf |- *. cbn [concat] in Hf |- *. rewrite <-app_assoc in Hf |- *.
  destruct fuel as [|fuel]; [lia|].
  assert (Hin : c ∈ children d) by (rewrite E; set_solver).
  destruct (wf_children _ _ Hd c Hin) as (n & Hn & _ & Hc). rewrite Forall_forall in Hall.
  assert (Hsub : before `sublist_of` children d) by (rewrite E; by apply sublist_inserts_r).
  assert (Hnew : ∀ c', c' ∈ (stored mask <$> before) → path c' ≠ path c).
  { intros c' (c1 & -> & Hc1)%list_elem_of_fmap. rewrite stored_path. intros Ep.
    pose proof (wf_unique _ _ Hd) as Hu. rewrite E, fmap_app, fmap_cons in Hu. apply NoDup_app in Hu as (_ & Hu & _).
    apply (Hu (path c1)); [by apply list_elem_of_fmap_2|]. rewrite Ep. by left. }
  rewrite (load_child p n); [|by apply (partial_wf p d)|done|done|done|by apply (st_children _ Hs)|by apply Hall|done|done].
  destruct (IH (before ++ [c]) fuel k) as (fuel' & Hf' & Hload).
  - by rewrite <-app_assoc.
  - rewrite length_app in Hf. unfold child_lines at 1 in Hf. cbn [length] in Hf. lia.
  - exists fuel'. split; [done|]. rewrite <-Hload. f_equal. unfold with_entries, set_children. cbn.
    by rewrite fmap_app.
Qed.

Lemma load_contents d : loads_contents d.
Proof.
  induction d as [d IH] using directory_ind'.
  intros p fuel k d0 Hd Hp Hs Hc0 Hs0 Hp0 Hpath Hh Hm Hf. unfold contents in *. rewrite <-!app_assoc in Hf |- *.
  assert (E0 : d0 = with_entries (stored mask <$> []) [] [] d0).
  { destruct d0. simpl in *. by subst. }
  match goal with |- context [directory_load_loop mask fuel ?l d0] =>
    replace (directory_load_loop mask fuel l d0)
      with (directory_load_loop mask fuel l (with_entries (stored mask <$> []) [] [] d0)) by (by rewrite <-E0) end.
  destruct (load_children p d d0 (children d) Hd Hp Hs Hpath Hh Hm IH [] fuel
    (concat (song_lines <$> songs d) ++ concat (playlist_lines <$> playlists d) ++ k)) as (f1 & Hf1 & ->); [done|done|].
  destruct (load_songs (songs d) (st_songs _ Hs) f1 (concat (playlist_lines <$> playlists d) ++ k)
    (with_entries (stored mask <$> children d) [] [] d0)) as (f2 & Hf2 & ->).
  { apply (wf_songs _ _ Hd). } { by intros x s ?%not_elem_of_nil. } { done. }
  destruct (load_playlists (playlists d) (st_playlists _ Hs) f2 k
    (set_songs ([] ++ (stored_song mask <$> songs d)) (with_entries (stored mask <$> children d) [] [] d0))) as (f3 & Hf3 & Hload).
  { cbn. apply (wf_playlists _ _ Hd). } { done. }
  exists f3. split; [done|]. cbn [songs with_entries app] in *. rewrite Hload. done.
Qed.

End Load.

End DatabaseSaveFacts.

(** * Saving and opening the database

    The file that [Save] writes opens again, whatever pieces its bytes arrive in, and gives
    the tree that [stored] describes. *)

Module DatabaseSaveProps.
Import CString UriUtil Decimal Tag Numbers TextIO PathTraits Directory DirectoryFacts DatabaseProps SongSave SongSaveFacts DatabaseSave DatabaseSaveFacts.

(** ** Pruning and sorting keep a tree storable *)

Lemma storable_prune d : storable d → storable (PruneEmpty d).
Proof.
  induction d as [d IH] using directory_ind'. intros Hs. rewrite PruneEmpty_unfold. rewrite Forall_forall in IH.
  split; cbn; [apply (st_path _ Hs)|apply (st_mtime _ Hs)|apply (st_songs _ Hs)|apply (st_playlists _ Hs)|].
  intros c' [_ (c & -> & Hc)%list_elem_of_fmap]%list_elem_of_filter. by apply IH, (st_children _ Hs).
Qed.

Lemma storable_sort `{!SongFilter.Icu} d : storable d → storable (Sort d).
Proof.
  induction d as [d IH] using directory_ind'. intros Hs. rewrite Sort_unfold. rewrite Forall_forall in IH.
  split; cbn; [apply (st_path _ Hs)|apply (st_mtime _ Hs)| |apply (st_playlists _ Hs)|].
  - unfold song_list_sort. rewrite list_sort_perm. apply (st_songs _ Hs).
  - intros c' Hc'. rewrite list_sort_perm in Hc'. apply list_elem_of_fmap in Hc' as (c & -> & Hc).
    by apply IH, (st_children _ Hs).
Qed.

(** ** The information at the beginning *)

Section Info.
Context (mask : Z).

Definition tag_line (e : TagType * list Z) : list Z := DB_TAG_PREFIX ++ e.2.

Definition enabled_names : list (TagType * list Z) := filter (λ e, IsTagEnabled mask e.1 = true) tag_item_names.

Definition info_lines (VERSION : list Z) : list (list Z) :=
  [DIRECTORY_INFO_BEGIN; DB_FORMAT_PREFIX ++ print_unsigned DB_FORMAT; DIRECTORY_MPD_VERSION ++ VERSION;
   DIRECTORY_FS_CHARSET ++ GetFSCharset] ++ (tag_line <$> enabled_names) ++ [DIRECTORY_INFO_END].

Lemma tag_names_ok e : e ∈ tag_item_names →
  tag_name_parse e.2 = e.1 ∧ e.1 ≠ TAG_NUM_OF_ITEM_TYPES ∧ tag_index e.1 < 20 ∧ printable e.2.
Proof.
  intros He. assert (bool_decide (tag_name_parse e.2 = e.1 ∧ e.1 ≠ TAG_NUM_OF_ITEM_TYPES ∧ tag_index e.1 < 20 ∧
    forallb (λ c, 32 <=? c)%Z e.2 = true) = true) as H.
  { revert e He. apply Forall_forall. repeat (constructor; [vm_compute; reflexivity|]). constructor. }
  apply bool_decide_eq_true_1 in H as (? & ? & ? & ?). split_and!; [done..|by apply literal_printable].
Qed.

Lemma save_tag_names_ok : writes (save_tag_names mask) (tag_line <$> enabled_names).
Proof.
  unfold save_tag_names, enabled_names. induction (filter _ _) as [|e l IH]; [done|].
  rewrite !fmap_cons. rewrite (app_assoc DB_TAG_PREFIX). by apply writes_cons.
Qed.

(** Marking the types of the names. *)
Definition mark (l : list (TagType * list Z)) (t : list bool) : list bool :=
  foldl (λ t e, <[tag_index e.1 := true]> t) t l.

Lemma length_mark l t : length (mark l t) = length t.
Proof. revert t. induction l as [|e l IH]; intros t; [done|]. cbn. unfold mark in IH. by rewrite IH, length_insert. Qed.

Lemma mark_lookup l t i : t !! i = Some true → mark l t !! i = Some true.
Proof.
  revert t. induction l as [|e l IH]; intros t Hi; [done|]. apply IH.
  destruct (decide (tag_index e.1 = i)) as [->|Hne]; [|by rewrite list_lookup_insert_ne].
  apply list_lookup_insert_eq. by eapply lookup_lt_Some.
Qed.

Lemma mark_in e l t : e ∈ l → tag_index e.1 < length t → mark l t !! tag_index e.1 = Some true.
Proof.
  revert t. induction l as [|e' l IH]; intros t He Hi; [by apply not_elem_of_nil in He|].
  change (mark (e' :: l) t) with (mark l (<[tag_index e'.1 := true]> t)).
  apply elem_of_cons in He as [<-|He].
  - apply mark_lookup. by apply list_lookup_insert_eq.
  - apply IH; [done|]. by rewrite length_insert.
Qed.

Lemma load_tags l k i : l ⊆ tag_item_names → length (tags i) = 20 →
  load_info ((tag_line <$> l) ++ k) i =
  load_info k (mkInfo (format i) (found_charset i) (found_version i) (mark l (tags i))).
Proof.
  revert i. induction l as [|e l IH]; intros i Hl Hi; [by destruct i|].
  rewrite fmap_cons. cbn [app load_info].
  destruct (tag_names_ok e) as (Hp & Hn & Hlt & _); [apply Hl; by left|].
  change (streq (tag_line e) DIRECTORY_INFO_END) with (bool_decide (tag_line e = DIRECTORY_INFO_END)).
  rewrite bool_decide_eq_false_2 by done. unfold load_info_line, tag_line.
  change (StringAfterPrefix (DB_TAG_PREFIX ++ e.2) DB_FORMAT_PREFIX) with (@None (list Z)).
  change (starts_with (DB_TAG_PREFIX ++ e.2) DIRECTORY_MPD_VERSION) with false.
  change (StringAfterPrefix (DB_TAG_PREFIX ++ e.2) DIRECTORY_FS_CHARSET) with (@None (list Z)). cbn iota.
  rewrite StringAfterPrefix_app, Hp, bool_decide_eq_false_2, store_Some by (done || lia).
  cbn [of_option mbind outcome_bind].
  rewrite IH; [done|set_solver|cbn; by rewrite length_insert].
Qed.

Lemma tags_match_ok : tags_match mask (mark enabled_names (replicate 20 false)) = true.
Proof.
  unfold tags_match. apply forallb_forall. intros e He%list_elem_of_In.
  destruct (IsTagEnabled mask e.1) eqn:E; [|done]. rewrite mark_in; [done|by apply list_elem_of_filter|].
  rewrite length_replicate. by apply tag_names_ok.
Qed.

Lemma load_info_ok VERSION k :
  db_load_internal mask (info_lines VERSION ++ k) NewRoot = (r ← directory_load mask k NewRoot; Ret r.1).
Proof.
  unfold info_lines. cbn [app db_load_internal]. unfold streq at 1. rewrite bool_decide_eq_true_2 by done.
  cbn [negb]. rewrite <-app_assoc.
  assert (Hinfo : load_info ((DB_FORMAT_PREFIX ++ print_unsigned DB_FORMAT) :: (DIRECTORY_MPD_VERSION ++ VERSION) ::
      (DIRECTORY_FS_CHARSET ++ GetFSCharset) :: (tag_line <$> enabled_names) ++ [DIRECTORY_INFO_END] ++ k)
      (mkInfo 0 false false (replicate 20 false)) =
    load_info ((tag_line <$> enabled_names) ++ [DIRECTORY_INFO_END] ++ k) (mkInfo 2 true true (replicate 20 false)))
    by reflexivity.
  rewrite Hinfo, load_tags; [|by intros e [_ ?]%list_elem_of_filter|done].
  cbn [app load_info]. unfold streq at 1. rewrite bool_decide_eq_true_2 by done.
  cbn [mbind outcome_bind format tags]. change ((2 <? OLDEST_DB_FORMAT)%Z || (DB_FORMAT <? 2)%Z) with false.
  cbn iota. rewrite tags_match_ok. done.
Qed.

Lemma info_lines_ok VERSION : line_ok VERSION → Forall line_ok (info_lines VERSION).
Proof.
  intros HV. unfold info_lines. apply Forall_app_2; [|apply Forall_app_2].
  - rewrite !Forall_cons. split_and!; [..|done]; try (by apply printable_line_ok, literal_printable).
    by apply literal_line_ok.
  - apply Forall_fmap, Forall_forall. intros e [_ He]%list_elem_of_filter. cbv beta. unfold tag_line.
    apply literal_line_ok; [done|]. by apply printable_line_ok, tag_names_ok.
  - by apply Forall_singleton, printable_line_ok, literal_printable.
Qed.

End Info.

(** ** The songs that come back *)

Lemma stored_songs mask d : SongFilter.GetURI <$> all_songs (stored mask d) = SongFilter.GetURI <$> all_songs d.
Proof.
  induction d as [d IH] using directory_ind'. rewrite !all_songs_unfold, stored_unfold, !fmap_app.
  cbn [songs children]. f_equal.
  - rewrite <-!list_fmap_compose. apply list_fmap_ext. intros i s _. done.
  - induction (children d) as [|c l IHl]; [done|]. apply Forall_cons in IH as [IHc IH].
    rewrite !fmap_cons. cbn [concat]. by rewrite !fmap_app, IHc, IHl.
Qed.

(** ** The file *)

Section File.
Context `{!Heap, !SongFilter.Icu} (mask : Z) (VERSION : list Z).

Lemma db_save_ok d : wf [] d → storable d →
  ∃ cs, db_save_internal mask VERSION d = Some cs ∧ writes cs (info_lines mask VERSION ++ dir_lines d).
Proof.
  intros Hd Hs. destruct (directory_save_ok d [] Hd Hs) as (cs & Hcs & Hw). unfold db_save_internal.
  rewrite Hcs. cbn [mbind option_bind]. eexists. split; [done|].
  unfold info_lines. rewrite <-!app_assoc. rewrite (app_assoc DB_FORMAT_PREFIX), (app_assoc DIRECTORY_MPD_VERSION), (app_assoc DIRECTORY_FS_CHARSET).
  apply (writes_app [_; _; _; _] [_; _; _; _]); [do 4 apply writes_cons; apply writes_nil|].
  apply writes_app; [apply save_tag_names_ok|]. by apply (writes_cons _ cs).
Qed.

Lemma root_parent d : wf [] d → has_parent d = false.
Proof. intros Hd. by rewrite (wf_parent _ _ Hd). Qed.

Lemma db_load_ok d : wf [] d → storable d →
  db_load_internal mask (info_lines mask VERSION ++ dir_lines d) NewRoot = Ret (stored mask d).
Proof.
  intros Hd Hs. rewrite load_info_ok, dir_lines_unfold. unfold directory_load.
  assert (Hroot : IsRoot d = true) by (rewrite (wf_IsRoot _ _ Hd); by apply bool_decide_eq_true_2).
  unfold header_lines, footer_lines. rewrite Hroot. cbn [app].
  destruct (load_contents mask d [] (S (length (contents d ++ []))) [] NewRoot) as (fuel & Hf & ->); try done.
  { by rewrite (root_parent d). }
  { lia. }
  destruct fuel as [|fuel]; [simpl in Hf; lia|]. cbn [directory_load_loop mbind outcome_bind fst].
  rewrite stored_unfold, Hroot, (wf_path _ _ Hd). unfold with_entries. cbn. f_equal. f_equal.
  by rewrite (root_parent d).
Qed.

(** C19: saving and opening the database.  [Save] never fails on a well-formed tree whose
    names fit on lines; and when no line is longer than the reader accepts, [Open] gives the
    saved tree back, whatever pieces the bytes of the file arrive in: the same directories,
    playlists and songs in the same order, with inode numbers and the times of the root
    dropped, modification times of songs cut to 32 bits, white space at the beginning of tag
    values removed, and durations within a millisecond. *)
Theorem save_open_roundtrip db :
  wf [] (root db) → storable (root db) → line_ok VERSION →
  ∃ db' bytes, Save mask VERSION db = Some (db', bytes) ∧ db' = Save_prepare db ∧
    (short_lines bytes → ∀ sizes,
       Open mask sizes bytes = Some (mkDatabase (stored mask (root db')) None None 0) ∧
       wf [] (stored mask (root db')) ∧
       SongFilter.GetURI <$> all_songs (stored mask (root db')) = SongFilter.GetURI <$> all_songs (root db')).
Proof.
  intros Hd Hs HV. set (d := root (Save_prepare db)).
  assert (Hd' : wf [] d) by (apply Sort_wf, PruneEmpty_wf, Hd).
  assert (Hs' : storable d) by (apply storable_sort, storable_prune, Hs).
  destruct (db_save_ok d Hd' Hs') as (cs & Hcs & Hw).
  exists (Save_prepare db), (to_text (info_lines mask VERSION ++ dir_lines d)).
  split_and!; [|done|].
  - unfold Save. fold d. rewrite Hcs. cbn [mbind option_bind]. rewrite write_file_ok. cbn [mbind option_bind].
    by rewrite Hw.
  - intros Hshort sizes. split_and!; [|by apply stored_wf|apply stored_songs].
    unfold Open, Load. rewrite read_file_ok by done. cbn [of_option mbind outcome_bind].
    rewrite text_lines_ok by (apply Forall_app_2; [by apply info_lines_ok|by eapply dir_lines_ok]).
    by rewrite db_load_ok.
Qed.

End File.

(** A database with one directory and one song. *)
#[local] Existing Instance SongFilter.ascii_icu.

#[export] Instance zero_heap : Heap := { fresh n := replicate n 0%Z; fresh_length n := length_replicate n 0%Z }.

Definition example_song : Song :=
  mkDbSong (str "x.ogg") (mkTag 12345 false [mkTagItem TAG_ARTIST (str "A")]) 1000 0 500.

Definition example_db : SimpleDatabase :=
  mkDatabase (set_children [mkDirectory [] [example_song] [mkPlaylistInfo (str "l.m3u") 7] true 99 0 0 (str "d") None]
    NewRoot) None None 0.

Definition example_file : list Z := to_text
  [str "info_begin"; str "format: 2"; str "mpd_version: 0.20"; str "fs_charset: UTF-8"; str "tag: Artist";
   str "info_end"; str "directory: d"; str "mtime: 99"; str "begin: d"; str "song_begin: x.ogg"; str "Range: 0-500";
   str "Time: 12.345000"; str "Artist: A"; str "mtime: 1000"; str "song_end"; str "playlist_begin: l.m3u";
   str "mtime: 7"; str "playlist_end"; str "end: d"].

Lemma literal_ok l : bool_decide ((10%Z ∉ l) ∧ (0%Z ∉ l) ∧ last l ≠ Some 13%Z) = true → line_ok l.
Proof. by intros ?%bool_decide_eq_true_1. Qed.

Lemma example_wf : wf [] (root example_db).
Proof.
  assert (Hf : ∀ n, bool_decide (n ≠ [] ∧ slash ∉ n ∧ 0%Z ∉ n) = true → file_name n)
    by (intros n (?&?&?)%bool_decide_eq_true; done).
  split; simpl; [done|done|done|intros _; constructor|constructor|constructor|apply NoDup_singleton|].
  intros c ->%list_elem_of_singleton. exists (str "d"). split_and!; [by apply Hf|intros _; apply not_elem_of_nil|].
  split; simpl; [done|done|done|intros _; apply NoDup_singleton| |apply NoDup_singleton|constructor|].
  - constructor; [by apply Hf|constructor].
  - by intros c ?%not_elem_of_nil.
Qed.

Lemma example_storable : storable (root example_db).
Proof.
  split; [by apply literal_ok|done|constructor|constructor|].
  intros c ->%list_elem_of_singleton. split; [by apply literal_ok|done|..].
  - apply Forall_singleton. split_and!; [by apply literal_ok|done| |done..].
    split_and!; [by repeat constructor| |done..]. apply Forall_singleton. split; [|by repeat constructor].
    split; [apply UTF8.utf8_ascii; [done|constructor]|by repeat constructor].
  - apply Forall_singleton. split; [by apply literal_ok|done].
  - by intros c ?%not_elem_of_nil.
Qed.

Lemma save_open_roundtrip_witness :
  Save 1 (str "0.20") example_db = Some (example_db, example_file) ∧
  ∀ sizes, Open 1 sizes example_file = Some example_db.
Proof.
  destruct (save_open_roundtrip 1 (str "0.20") example_db) as (db' & bytes & Hsave & -> & Hopen).
  - exact example_wf.
  - exact example_storable.
  - by apply literal_ok.
  - assert (Hb : Save 1 (str "0.20") example_db = Some (example_db, example_file)) by (vm_compute; reflexivity).
    assert (bytes = example_file) as -> by (rewrite Hb in Hsave; congruence).
    split; [exact Hb|]. intros sizes.
    destruct (Hopen ltac:(apply (short_lines_bound 100); [lia|vm_compute; reflexivity]) sizes) as [-> _].
    vm_compute. reflexivity.
Defined.

End DatabaseSaveProps.
