(* ===== verification/QueueSave.v ===== *)
(** * The queue in the state file

    [queue/QueueSave.cxx], [playlist/PlaylistSong.cxx] and the reader of
    [queue/PlaylistState.cxx]: a song of the database is written as its position and URI and
    looked up again when it is loaded; any other song is written with its tags.  What the
    song loader finds for a URI is an argument; it answers [None] when it throws or returns
    the null pointer. *)

From Stdlib Require Import ZArith Lia ZifyBool.
From stdpp Require Import base numbers sets strings list.
From S2P Require Import Prelude IdTable RandomEngine Queue QueueFacts QueueProps UTF8 TagString CString UriUtil Decimal Tokenizer Tag Song Samples TextIO Directory SongSave SongSaveProps.

Set Default Goal Selector "!".

Module QueueSave.
Import CString Decimal Tag Numbers TextIO SongSave.

#[local] Abbreviation DetachedSong := Song.DetachedSong.
#[local] Abbreviation text_file := (list (list Z)).

(** ** Looking songs up *)

Definition merge_song_metadata (add base : DetachedSong) : option DetachedSong :=
  t ← (if IsDefined (Song.GetTag base)
       then b ← TagBuilder.Complement (Song.GetTag base) (TagBuilder.of_tag (Song.GetTag add));
            Some (TagBuilder.Commit b).1
       else Some (Song.GetTag add));
  Some (Song.SetLastModified (Song.GetLastModified base) (Song.SetTag t add)).

Section Loader.
Context (LoadSong : list Z → option DetachedSong).

(** The result, and the song as the call leaves it. *)
Definition playlist_check_load_song (song : DetachedSong) : option (bool * DetachedSong) :=
  match LoadSong (Song.GetURI song) with
  | None => Some (false, song)
  | Some tmp =>
      let song := Song.SetURI (Song.GetURI tmp) song in
      let song := if negb (Song.HasRealURI song) && Song.HasRealURI tmp
                  then Song.SetRealURI (Song.GetRealURI tmp) song else song in
      song ← merge_song_metadata song tmp; Some (true, song)
  end.

Definition playlist_check_translate_song (song : DetachedSong) (base_uri : option (list Z))
    : option (bool * DetachedSong) :=
  let base_uri := match base_uri with
                  | Some b => if streq b (str ".") then None else Some b
                  | None => None
                  end in
  let uri := Song.GetURI song in
  let song := match base_uri with
              | Some b => if negb (UriUtil.uri_has_scheme uri) && negb (UriUtil.IsAbsolute uri)
                          then Song.SetURI (PathTraits.Build b uri) song else song
              | None => song
              end in
  playlist_check_load_song song.

End Loader.

(** ** Writing *)

Definition PRIO_LABEL : list Z := str "Prio: ".

Definition queue_save_database_song (idx : Z) (song : DetachedSong) : output_call :=
  Print (print_signed idx ++ str ":" ++ Song.GetURI song ++ newline).

Definition queue_save_full_song (song : DetachedSong) : option (list output_call) := song_save_detached song.

(** A whole song of the database. *)
Definition is_brief (song : DetachedSong) : bool :=
  Song.IsInDatabase song && (Song.GetStartTime song =? 0)%Z && (Song.GetEndTime song =? 0)%Z.

Definition queue_save_song (idx : Z) (song : DetachedSong) : option (list output_call) :=
  if is_brief song then Some [queue_save_database_song idx song] else queue_save_full_song song.

Section Queue.
Context {G : Type} `{!RandomEngine G}.
#[local] Abbreviation Queue := (Queue.Queue DetachedSong G).

(** One position of the loop. *)
Definition queue_save_item (q : Queue) (i : nat) (cs : list output_call) : option (list output_call) :=
  prio ← Queue.GetPriorityAtPosition q i;
  it ← Queue.Get q i;
  l ← queue_save_song (Z.of_nat i) (Queue.song_data it);
  Some (cs ++ (if negb (prio =? 0)%Z then [Print (PRIO_LABEL ++ print_unsigned prio ++ newline)] else []) ++ l).

Definition queue_save (q : Queue) : option (list output_call) :=
  n ← Queue.GetLength q;
  for_range 0 n (queue_save_item q) [].

(** The part of [playlist_state_save] that writes the queue. *)
Definition PLAYLIST_STATE_FILE_PLAYLIST_BEGIN : list Z := str "playlist_begin".
Definition PLAYLIST_STATE_FILE_PLAYLIST_END : list Z := str "playlist_end".

Definition playlist_save_queue (q : Queue) : option (list output_call) :=
  l ← queue_save q;
  Some (Put (PLAYLIST_STATE_FILE_PLAYLIST_BEGIN ++ newline) :: l ++
        [Put (PLAYLIST_STATE_FILE_PLAYLIST_END ++ newline)]).

(** ** Reading *)

Context (global_tag_mask : Z) (LoadSong : list Z → option DetachedSong).

(** [None] inside is the early return. *)
Definition parse_song (file : text_file) (line : list Z) : option (text_file * option DetachedSong) :=
  match StringAfterPrefix line SONG_BEGIN with
  | Some uri =>
      match song_load global_tag_mask file uri with
      | (file, Ret song) => Some (file, Some song)
      | (file, Throw _) => Some (file, None)
      | (_, Abort) => None
      end
  | None =>
      let '(ret, n) := strtol line in
      if (ret <? 0)%Z || negb (first (drop n line) =? 58)%Z || (first (drop (S n) line) =? 0)%Z
      then Some (file, None)
      else Some (file, Some (Song.of_uri (drop (S n) line)))
  end.

(** The label of a priority, and the line behind it. *)
Definition parse_priority (file : text_file) (line : list Z) : text_file * option (Z * list Z) :=
  match StringAfterPrefix line PRIO_LABEL with
  | Some p =>
      match file with
      | [] => ([], None)
      | line :: file => (file, Some (((strtoul p).1 mod 256)%Z, line))
      end
  | None => (file, Some (0%Z, line))
  end.

(** The rest of the file and the queue; [ptr] is the address of the next song. *)
Definition queue_load_song (file : text_file) (line : list Z) (q : Queue) (ptr : nat)
    : option (text_file * Queue * nat) :=
  full ← Queue.IsFull q;
  if (full : bool) then Some (file, q, ptr)
  else
    let '(file, r) := parse_priority file line in
    match r with
    | None => Some (file, q, ptr)
    | Some (priority, line) =>
        '(file, song) ← parse_song file line;
        match song with
        | None => Some (file, q, ptr)
        | Some song =>
            '(ok, song) ← playlist_check_translate_song LoadSong song None;
            if (ok : bool) then '(_, q) ← Queue.Append ptr song priority q; Some (file, q, S ptr)
            else Some (file, q, ptr)
        end
    end.

Fixpoint playlist_load_loop (fuel : nat) (line : list Z) (file : text_file) (q : Queue) (ptr : nat)
    : option (text_file * Queue * nat) :=
  match fuel with
  | O => None
  | S fuel =>
      if starts_with line PLAYLIST_STATE_FILE_PLAYLIST_END then Some (file, q, ptr)
      else
        '(file, q, ptr) ← queue_load_song file line q ptr;
        match file with
        | [] => Some ([], q, ptr)
        | line :: file => playlist_load_loop fuel line file q ptr
        end
  end.

(** [playlist_state_load] on the queue; every round consumes a line. *)
Definition playlist_state_load (file : text_file) (q : Queue) (ptr : nat) : option (text_file * Queue * nat) :=
  match file with
  | [] => Some ([], q, ptr)
  | line :: file =>
      '(file, q, ptr) ← playlist_load_loop (S (length file)) line file q ptr;
      q ← Queue.IncrementVersion q;
      Some (file, q, ptr)
  end.

End Queue.

End QueueSave.

(** * The queue survives a restart

    The part of the state file that holds the queue, written and loaded into an empty
    queue. *)

Module QueueSaveProps.
Import CString Decimal Tag Numbers TextIO SongSave SongSaveFacts QueueSave QueueFacts RandomEngine.Lcg.

#[local] Abbreviation DetachedSong := Song.DetachedSong.
#[local] Abbreviation Item := (Queue.Item DetachedSong).

(** A song that can be written. *)
Definition detached_ok (s : DetachedSong) : Prop :=
  line_ok (Song.uri s) ∧ Song.uri s ≠ [] ∧ tag_ok (Song.tag s) ∧
  (LONG_MIN ≤ Song.mtime s ≤ LONG_MAX)%Z ∧ (0 ≤ Song.start_time s < 2 ^ 32)%Z ∧ (0 ≤ Song.end_time s < 2 ^ 32)%Z.

(** The lines of a queue. *)
Definition prio_lines (prio : Z) : list (list Z) :=
  if negb (prio =? 0)%Z then [PRIO_LABEL ++ print_unsigned prio] else [].

Definition song_lines (i : nat) (s : DetachedSong) : list (list Z) :=
  if is_brief s then [print_signed (Z.of_nat i) ++ str ":" ++ Song.uri s]
  else (SONG_BEGIN ++ Song.uri s) :: song_body (Song.start_time s) (Song.end_time s) (Song.tag s) (Song.mtime s).

Definition item_lines (i : nat) (it : Item) : list (list Z) :=
  prio_lines (Queue.priority it) ++ song_lines i (Queue.song_data it).

Definition queue_lines (its : list Item) : list (list Z) := concat (imap item_lines its).

Section Queue.
Context {G : Type} `{!RandomEngine G, !RandomEngineLaws G}.
Implicit Types (q : Queue.Queue DetachedSong G) (its : list Item).

(** ** Writing *)

Lemma save_song_ok i s : detached_ok s →
  ∃ cs, queue_save_song (Z.of_nat i) s = Some cs ∧ writes cs (song_lines i s).
Proof.
  intros (Hu & Hne & Ht & Hm & Ha & Hb). unfold queue_save_song, song_lines. destruct (is_brief s).
  - eexists. split; [done|]. unfold queue_save_database_song. rewrite (app_assoc (str ":")), app_assoc.
    apply writes_line.
  - apply song_save_ok, Ht.
Qed.

Lemma queue_save_item_ok q its i it cs ls : repr q its → its !! i = Some it → detached_ok (Queue.song_data it) →
  writes cs ls → ∃ cs', queue_save_item q i cs = Some cs' ∧ writes cs' (ls ++ item_lines i it).
Proof.
  intros Hr Hi Hs Hw. pose proof (repr_item_at _ _ _ _ Hr Hi) as Hat.
  assert (Hlt : i < Queue.length q) by (rewrite <-(r_len _ _ Hr); by eapply lookup_lt_Some).
  destruct (save_song_ok i _ Hs) as (l & Hl & Hwl).
  unfold queue_save_item, Queue.GetPriorityAtPosition, Queue.Get. rewrite !check_bind by lia.
  rewrite Hat. cbn [mbind option_bind]. rewrite Hl. cbn [mbind option_bind].
  eexists. split; [done|]. apply writes_app; [done|]. apply writes_app; [|done].
  unfold prio_lines. destruct (negb _); [|done]. rewrite app_assoc. apply writes_line.
Qed.

Lemma queue_save_ok q its : repr q its → Forall (λ it, detached_ok (Queue.song_data it)) its →
  ∃ cs, queue_save q = Some cs ∧ writes cs (queue_lines its).
Proof.
  intros Hr Hs. unfold queue_save, Queue.GetLength. pose proof (r_cap _ _ Hr) as Hcap.
  rewrite check_bind by lia. cbn [mbind option_bind].
  destruct (for_range_inv (λ i cs, i ≤ length its ∧ writes cs (queue_lines (take i its)))
    (queue_save_item q) 0 (Queue.length q) []) as (cs & -> & Hlen & Hw).
  - lia.
  - intros i cs Hi [_ Hw]. destruct (repr_lookup q its i Hr) as (it & Hit & _); [lia|].
    rewrite Forall_lookup in Hs.
    destruct (queue_save_item_ok q its i it cs _ Hr Hit (Hs i it Hit) Hw) as (cs' & -> & Hw'). exists cs'.
    pose proof (lookup_lt_Some _ _ _ Hit). split; [done|]. split; [lia|].
    rewrite (take_S_r _ _ _ Hit). unfold queue_lines in *. rewrite imap_app, concat_app. simpl.
    rewrite length_take, Nat.min_l, Nat.add_0_r, app_nil_r by lia. done.
  - split; [lia|done].
  - exists cs. split; [done|]. rewrite take_ge in Hw by (rewrite (r_len _ _ Hr); done). done.
Qed.

(** ** Reading *)

Context (mask : Z) (LoadSong : list Z → option DetachedSong).

(** What is known of a song before it is looked up. *)
Definition saved_song (s : DetachedSong) : DetachedSong :=
  if is_brief s then Song.of_uri (Song.uri s)
  else Song.mkSong (Song.uri s) [] (stored_tag mask (Song.tag s)) (Samples.to_signed 32 (Song.mtime s))
         (Song.start_time s) (Song.end_time s).

(** The song after a restart; [None] when the loader does not find it. *)
Definition restored (s : DetachedSong) : option DetachedSong :=
  match playlist_check_translate_song LoadSong (saved_song s) None with
  | Some (true, s) => Some s
  | _ => None
  end.

Lemma digit_no_prefix s p : isdigit (first s) = true → isdigit (first p) = false → p ≠ [] → starts_with s p = false.
Proof.
  intros Hs Hp Hne. destruct s as [|c s]; [done|]. apply TimeFacts.starts_with_other; [|done].
  intros E. unfold first in Hs. simpl in Hs. by rewrite E, Hs in Hp.
Qed.

Lemma digit_no_prefix_None s p : isdigit (first s) = true → isdigit (first p) = false → p ≠ [] →
  StringAfterPrefix s p = None.
Proof. intros. unfold StringAfterPrefix. by rewrite digit_no_prefix. Qed.

Lemma print_nat_head i s : (Z.of_nat i < 2 ^ 31)%Z → isdigit (first (print_signed (Z.of_nat i) ++ s)) = true.
Proof.
  intros Hi. unfold print_signed. rewrite (proj2 (Z.ltb_ge _ _)) by lia.
  destruct (print_unsigned_digits (Z.of_nat i)) as [Hd Hne]; [unfold ULONG_MAX; lia|].
  destruct (print_unsigned _) as [|c l]; [done|]. by apply Forall_inv in Hd.
Qed.

Lemma parse_song_ok i s k : detached_ok s → (Z.of_nat i < 2 ^ 31)%Z →
  ∃ l ls, song_lines i s = l :: ls ∧ parse_song mask (ls ++ k) l = Some (k, Some (saved_song s)) ∧
    StringAfterPrefix l PRIO_LABEL = None ∧ starts_with l PLAYLIST_STATE_FILE_PLAYLIST_END = false.
Proof.
  intros (Hu & Hne & Ht & Hm & Ha & Hb) Hi. unfold song_lines, saved_song, parse_song. destruct (is_brief s).
  - eexists _, []. split; [done|]. pose proof (print_nat_head i (str ":" ++ Song.uri s) Hi) as Hd.
    rewrite (digit_no_prefix_None _ SONG_BEGIN), (digit_no_prefix_None _ PRIO_LABEL), digit_no_prefix by done.
    split; [|done]. unfold print_signed. rewrite (proj2 (Z.ltb_ge _ _)) by lia.
    rewrite strtol_print by (done || unfold LONG_MAX; lia).
    rewrite (proj2 (Z.ltb_ge _ _)) by lia. rewrite drop_app_length.
    replace (S (length (print_unsigned (Z.of_nat i)))) with (length (print_unsigned (Z.of_nat i)) + 1) by lia.
    rewrite <-drop_drop, drop_app_length. change (drop 1 (str ":" ++ Song.uri s)) with (Song.uri s).
    change (first (str ":" ++ Song.uri s) =? 58)%Z with true. destruct Hu as (_ & H0 & _).
    assert (E : (first (Song.uri s) =? 0)%Z = false).
    { destruct (Song.uri s) as [|c u]; [done|]. unfold first. simpl. apply Z.eqb_neq. set_solver. }
    rewrite E. done.
  - eexists _, _. split; [done|]. rewrite StringAfterPrefix_app, song_load_body by done. done.
Qed.

(** A round for one item. *)
Lemma load_item_ok q its i it k ptr : repr q its → Queue.length q < Queue.max_length q →
  detached_ok (Queue.song_data it) → (0 ≤ Queue.priority it ≤ 255)%Z → (Z.of_nat i < 2 ^ 31)%Z →
  (∀ p, p ∈ (Queue.song <$> its) → p < ptr) →
  is_Some (playlist_check_translate_song LoadSong (saved_song (Queue.song_data it)) None) →
  ∃ l ls q' its' ptr', item_lines i it = l :: ls ∧ starts_with l PLAYLIST_STATE_FILE_PLAYLIST_END = false ∧
    queue_load_song mask LoadSong (ls ++ k) l q ptr = Some (k, q', ptr') ∧ repr q' its' ∧
    Queue.max_length q' = Queue.max_length q ∧ Queue.length q' ≤ S (Queue.length q) ∧
    (∀ p, p ∈ (Queue.song <$> its') → p < ptr') ∧
    (λ x, (Queue.song_data x, Queue.priority x)) <$> its' =
      ((λ x, (Queue.song_data x, Queue.priority x)) <$> its) ++
      omap (λ x, s ← restored (Queue.song_data x); Some (s, Queue.priority x)) [it].
Proof.
  intros Hr Hfull Hs Hprio Hi Hptr [[ok s'] Htrans].
  destruct (parse_song_ok i (Queue.song_data it) k Hs Hi) as (l & ls & El & Hparse & Hnp & Hend).
  assert (Hload : ∀ file line, parse_priority file line = (ls ++ k, Some (Queue.priority it, l)) →
    ∃ q' its' ptr', queue_load_song mask LoadSong file line q ptr = Some (k, q', ptr') ∧ repr q' its' ∧
      Queue.max_length q' = Queue.max_length q ∧ Queue.length q' ≤ S (Queue.length q) ∧
      (∀ p, p ∈ (Queue.song <$> its') → p < ptr') ∧
      (λ x, (Queue.song_data x, Queue.priority x)) <$> its' =
        ((λ x, (Queue.song_data x, Queue.priority x)) <$> its) ++
        omap (λ x, s ← restored (Queue.song_data x); Some (s, Queue.priority x)) [it]).
  { intros file line Hp. unfold queue_load_song, Queue.IsFull. pose proof (r_cap _ _ Hr).
    rewrite check_bind by lia. cbn [mbind option_bind]. rewrite (proj2 (Nat.leb_gt _ _)) by lia.
    rewrite Hp, Hparse. cbn [mbind option_bind]. rewrite Htrans. cbn [mbind option_bind].
    cbn [omap list_omap]. unfold restored. rewrite Htrans. destruct ok.
    - destruct (Append_ok q its ptr s' (Queue.priority it) Hr Hfull) as (id & q' & -> & _ & Hr' & Hcfg & _); [|done|].
      { intros Hin. apply Hptr in Hin. lia. }
      cbn [mbind option_bind]. eexists q', _, (S ptr). split; [done|]. split; [done|].
      unfold cfg in Hcfg. injection Hcfg as Hm Hl. split; [|split; [|split]].
      + done.
      + rewrite Hl. simpl. lia.
      + rewrite fmap_app. intros p [Hin|Hin]%elem_of_app; [apply Hptr in Hin; lia|].
        apply list_elem_of_singleton in Hin as ->. simpl. lia.
      + rewrite fmap_app. done.
    - exists q, its, ptr. split_and!; try done; [lia|]. by rewrite app_nil_r. }
  unfold item_lines, prio_lines. destruct (negb (Queue.priority it =? 0)%Z) eqn:E.
  - destruct (Hload (song_lines i (Queue.song_data it) ++ k) (PRIO_LABEL ++ print_unsigned (Queue.priority it)))
      as (q' & its' & ptr' & Hq & Hrest).
    { unfold parse_priority. rewrite StringAfterPrefix_app, El. cbn [app].
      rewrite <-(app_nil_r (print_unsigned _)), print_unsigned_ok by (done || unfold ULONG_MAX; lia).
      cbn [fst]. by rewrite Z.mod_small by lia. }
    eexists _, _, q', its', ptr'. split; [done|]. split; [done|]. split; [exact Hq|exact Hrest].
  - destruct (Hload (ls ++ k) l) as (q' & its' & ptr' & Hq & Hrest).
    { unfold parse_priority. rewrite Hnp. apply negb_false_iff, Z.eqb_eq in E. by rewrite E. }
    exists l, ls, q', its', ptr'. split; [by rewrite El|]. by split.
Qed.

(** The priorities and songs of items, and what is restored of them. *)
Definition data (its : list Item) : list (DetachedSong * Z) := (λ x, (Queue.song_data x, Queue.priority x)) <$> its.

Definition restored_data (its : list Item) : list (DetachedSong * Z) :=
  omap (λ x, s ← restored (Queue.song_data x); Some (s, Queue.priority x)) its.

Definition checked (it : Item) : Prop :=
  detached_ok (Queue.song_data it) ∧ (0 ≤ Queue.priority it ≤ 255)%Z ∧
  is_Some (playlist_check_translate_song LoadSong (saved_song (Queue.song_data it)) None).

Lemma load_loop_ok todo : Forall checked todo → ∀ i q its ptr fuel l file rest,
  repr q its → (∀ p, p ∈ (Queue.song <$> its) → p < ptr) →
  Queue.length q + length todo ≤ Queue.max_length q → (Z.of_nat (i + length todo) < 2 ^ 31)%Z →
  concat (imap (λ j, item_lines (i + j)) todo) ++ PLAYLIST_STATE_FILE_PLAYLIST_END :: rest = l :: file →
  length file < fuel →
  ∃ q' its' ptr', playlist_load_loop mask LoadSong fuel l file q ptr = Some (rest, q', ptr') ∧ repr q' its' ∧
    data its' = data its ++ restored_data todo.
Proof.
  induction 1 as [|it todo (Hs & Hprio & Htrans) Hall IH]; intros i q its ptr fuel l file rest Hr Hptr Hcap Hi E Hf;
    (destruct fuel as [|fuel]; [lia|]); cbn [playlist_load_loop].
  { simpl in E. injection E as <- <-. exists q, its, ptr. split; [done|]. split; [done|].
    unfold restored_data. simpl. by rewrite app_nil_r. }
  rewrite imap_cons in E. cbn [concat] in E. rewrite <-app_assoc in E.
  cbn [length] in Hcap, Hi. 
  set (k := concat _ ++ _) in E.
  destruct (load_item_ok q its (i + 0) it k ptr Hr) as
    (l' & ls & q' & its' & ptr' & El & Hend & Hload & Hr' & Hm & Hl & Hptr' & Hdata); [lia|done|done|lia|done|done|].
  rewrite El in E. cbn [app] in E. injection E as <- <-. rewrite Hend, Hload. cbn [mbind option_bind].
  destruct k as [|l2 file2] eqn:Ek; [by destruct (concat (imap _ todo))|].
  destruct (IH (S i) q' its' ptr' fuel l2 file2 rest) as (q'' & its'' & ptr'' & Hq & Hr'' & Hd); try done.
  - lia.
  - cbn [length] in Hi. lia.
  - rewrite <-Ek. unfold k. f_equal. f_equal. apply imap_ext. intros j x _. simpl. by rewrite Nat.add_succ_r.
  - rewrite length_app in Hf. cbn [length] in Hf. lia.
  - exists q'', its'', ptr''. split; [exact Hq|]. split; [done|]. rewrite Hd. unfold data at 1. rewrite Hdata.
    unfold restored_data. rewrite <-app_assoc. f_equal. simpl. by destruct (_ ≫= _).
Qed.

Lemma versions_data q its : repr q its →
  ∃ q' its', Queue.IncrementVersion q = Some q' ∧ repr q' its' ∧ data its' = data its.
Proof.
  intros Hr. destruct (IncrementVersion_ok q its Hr) as (q' & its' & Hq & Hr' & _ & _ & _ & H).
  exists q', its'. split_and!; [done|done|]. destruct H as [[_ ->]|(_ & _ & ->)]; [done|].
  unfold data. by rewrite <-list_fmap_compose.
Qed.

(** ** The lines are proper ones *)

Lemma item_lines_ok i it : (Z.of_nat i < 2 ^ 31)%Z → checked it → Forall line_ok (item_lines i it).
Proof.
  intros Hi ((Hu & _ & Ht & Hm & Ha & Hb) & Hprio & _). apply Forall_app_2.
  - unfold prio_lines. destruct (negb _); [|constructor]. apply Forall_singleton, printable_line_ok, printable_app.
    + by apply literal_printable.
    + apply print_unsigned_printable. unfold ULONG_MAX. lia.
  - unfold song_lines. destruct (is_brief _).
    + apply Forall_singleton. rewrite (assoc_L (++)). apply prefix_line_ok; [|done].
      apply printable_app; [|by apply literal_printable].
      apply number_chars_printable, print_signed_chars. unfold LONG_MIN, LONG_MAX. lia.
    + constructor; [by apply prefix_line_ok; [apply literal_printable|]|by apply song_body_ok].
Qed.

(** ** What comes back *)

(** A song that can be written, and whose entry in the database has a proper tag. *)
Definition loadable (it : Item) : Prop :=
  let s := Queue.song_data it in
  detached_ok s ∧ (0 ≤ Queue.priority it ≤ 255)%Z ∧
  ∀ found, LoadSong (Song.uri s) = Some found → valid_items (items (Song.tag found)) ∧
    (Z.of_nat (length (items (Song.tag s)) + length (items (Song.tag found))) < 65536)%Z.

(** The tag that is in the file: none for a whole song of the database. *)
Definition written_tag (s : DetachedSong) : Tag :=
  if decide (Song.IsInDatabase s = true ∧ Song.start_time s = 0%Z ∧ Song.end_time s = 0%Z)
  then mkTag (-1) false [] else stored_tag mask (Song.tag s).

(** [t] has the values of [kept] and, for the types without one, those of [found]. *)
Definition completed (kept found t : Tag) : Prop :=
  duration t = (if (duration kept <? 0)%Z then duration found else duration kept) ∧
  has_playlist t = has_playlist kept || has_playlist found ∧
  ∀ ty, values_of ty (items t) =
    match values_of ty (items kept) with [] => values_of ty (items found) | v => v end.

(** [s'] is the song [s] after the restart, when [found] is what the loader returned. *)
Definition came_back (s found s' : DetachedSong) : Prop :=
  Song.uri s' = Song.uri found ∧ Song.real_uri s' = Song.real_uri found ∧
  Song.mtime s' = Song.mtime found ∧
  Song.start_time s' = Song.start_time s ∧ Song.end_time s' = Song.end_time s ∧
  (if decide (items (Song.tag found) = [] ∧ (duration (Song.tag found) < 0)%Z)
   then Song.tag s' = written_tag s
   else completed (written_tag s) (Song.tag found) (Song.tag s')).

(** The queue after the restart: every song the loader finds, in order and with its
    priority. *)
Inductive comes_back : list Item → list (DetachedSong * Z) → Prop :=
| back_nil : comes_back [] []
| back_gone it its l : LoadSong (Song.uri (Queue.song_data it)) = None →
    comes_back its l → comes_back (it :: its) l
| back_found it its found s' l : LoadSong (Song.uri (Queue.song_data it)) = Some found →
    came_back (Queue.song_data it) found s' →
    comes_back its l → comes_back (it :: its) ((s', Queue.priority it) :: l).

Lemma stored_valid l : valid_items l → valid_items (omap (stored_item mask) l).
Proof.
  unfold valid_items. rewrite !Forall_forall. intros H i (j & Hj & Hi)%list_elem_of_omap.
  unfold stored_item in Hi. repeat case_match; simplify_eq. simpl. by apply H.
Qed.

Lemma is_brief_decide s : is_brief s
  = bool_decide (Song.IsInDatabase s = true ∧ Song.start_time s = 0%Z ∧ Song.end_time s = 0%Z).
Proof.
  unfold is_brief, Song.GetStartTime, Song.GetEndTime. apply eq_true_iff_eq.
  rewrite bool_decide_eq_true, !andb_true_iff, !Z.eqb_eq. tauto.
Qed.

Lemma saved_song_ok s : detached_ok s →
  saved_song s = Song.mkSong (Song.uri s) [] (written_tag s) (Song.mtime (saved_song s))
    (Song.start_time s) (Song.end_time s) ∧
  valid_items (items (written_tag s)) ∧
  (length (items (written_tag s)) ≤ length (items (Song.tag s))).
Proof.
  intros (_ & _ & (Hv & _) & _). unfold saved_song, written_tag. rewrite is_brief_decide.
  case_decide as E.
  - rewrite bool_decide_eq_true_2 by done. destruct E as (_ & -> & ->).
    split_and!; [done|constructor|simpl; lia].
  - rewrite bool_decide_eq_false_2 by done. split_and!; [done|by apply stored_valid|].
    apply stored_items_length.
Qed.

Lemma translated s : detached_ok s →
  (∀ found, LoadSong (Song.uri s) = Some found → valid_items (items (Song.tag found)) ∧
    (Z.of_nat (length (items (Song.tag s)) + length (items (Song.tag found))) < 65536)%Z) →
  match LoadSong (Song.uri s) with
  | None => ∃ s', playlist_check_translate_song LoadSong (saved_song s) None = Some (false, s')
  | Some found => ∃ s', playlist_check_translate_song LoadSong (saved_song s) None = Some (true, s') ∧
      came_back s found s'
  end.
Proof.
  intros Hs Hf. destruct (saved_song_ok s Hs) as (Es & Hv & Hl). rewrite Es.
  generalize (Song.mtime (saved_song s)). intros m.
  unfold playlist_check_translate_song, playlist_check_load_song, Song.GetURI. cbn [Song.uri].
  destruct (LoadSong (Song.uri s)) as [found|] eqn:E; [|by eexists].
  destruct (Hf found eq_refl) as [Hvf Hlf]. unfold merge_song_metadata.
  set (song := if negb (Song.HasRealURI _) && _ then _ else _).
  assert (Hsong : song = Song.mkSong (Song.uri found) (Song.real_uri found) (written_tag s) m
    (Song.start_time s) (Song.end_time s)).
  { subst song. unfold Song.HasRealURI, Song.GetRealURI, Song.HasRealURI. simpl.
    by destruct (Song.real_uri found) eqn:Er. }
  rewrite Hsong. clear song Hsong. unfold Song.GetTag. cbn [Song.tag].
  assert (Hdef : IsDefined (Song.tag found)
    = negb (bool_decide (items (Song.tag found) = [] ∧ (duration (Song.tag found) < 0)%Z))).
  { unfold IsDefined, IsEmpty, IsNegative. apply eq_true_iff_eq.
    rewrite negb_true_iff, bool_decide_eq_false, orb_true_iff, !negb_true_iff.
    destruct (items (Song.tag found)); simpl; [|naive_solver].
    split; [intros [|Hd] [_ Hn]; [done|lia]|]. intros H. right.
    destruct (duration (Song.tag found) <? 0)%Z eqn:Ed; [|done]. exfalso. apply H. split; [done|lia]. }
  rewrite Hdef. case_bool_decide as Eu; cbn [negb mbind option_bind].
  - eexists. split; [done|]. unfold came_back. rewrite decide_True by done. done.
  - pose proof (Merge_ok (Song.tag found) (written_tag s) Hvf Hv ltac:(lia)) as Hm.
    fold (Merge (Song.tag found) (written_tag s)). rewrite Hm. cbn [mbind option_bind].
    eexists. split; [done|]. unfold came_back. rewrite decide_False by done.
    split_and!; try done. split_and!; [done|done|]. intros ty. simpl.
    rewrite values_of_app, values_of_filter. case_decide as Ety.
    + rewrite app_nil_r. destruct (values_of ty (items (written_tag s))) eqn:Ev; [|done].
      by apply values_of_nil in Ev.
    + by rewrite (values_of_absent ty (items (written_tag s))) by done.
Qed.

Lemma loadable_checked it : loadable it → checked it.
Proof.
  intros (Hs & Hp & Hf). split; [done|split; [done|]]. pose proof (translated _ Hs Hf) as H.
  case_match; destruct H as [s' H]; [destruct H as [H _]|]; by eexists.
Qed.

Lemma comes_back_ok its : Forall loadable its → comes_back its (restored_data its).
Proof.
  induction 1 as [|it its (Hs & Hp & Hf) _ IH]; [constructor|].
  unfold restored_data. cbn [omap list_omap]. unfold restored at 1.
  pose proof (translated _ Hs Hf) as H.
  destruct (LoadSong (Song.uri (Queue.song_data it))) as [found|] eqn:E.
  - destruct H as (s' & -> & Hb). by eapply back_found.
  - destruct H as [s' ->]. by apply back_gone.
Qed.

Context `{!Heap}.

(** C21: the queue in the state file.  The queue section of the state file is written without
    a failure; when no line is too long, reading it in pieces of any size and loading it into
    an empty queue that is large enough consumes exactly this section, runs without a failed
    assertion, and gives exactly the songs whose URI the loader still finds, in their order
    and with their priorities: each has the URI and the modification time of the loader's
    answer and its own range, and its tag is what was written (nothing for a whole song
    of the database) completed, type by type, by the tag of the answer. *)
Theorem queue_roundtrip q its q0 ptr rest :
  repr q its → Forall loadable its → (Z.of_nat (Queue.length q) < 2 ^ 31)%Z →
  repr q0 [] → Queue.length q ≤ Queue.max_length q0 →
  ∃ cs bytes, playlist_save_queue q = Some cs ∧ write_file cs = Some bytes ∧
    (short_lines bytes → ∀ sizes, ∃ lines q' its' ptr',
       read_file sizes bytes = Some (PLAYLIST_STATE_FILE_PLAYLIST_BEGIN :: lines) ∧
       playlist_state_load mask LoadSong (lines ++ rest) q0 ptr = Some (rest, q', ptr') ∧ repr q' its' ∧
       comes_back its (data its')).
Proof.
  intros Hr Hloadable Hlen Hr0 Hcap. unfold playlist_save_queue.
  assert (Hall : Forall checked its) by (eapply Forall_impl; [exact Hloadable|apply loadable_checked]).
  destruct (queue_save_ok q its Hr) as (l & -> & Hw).
  { eapply Forall_impl; [exact Hall|]. by intros it [? _]. }
  cbn [mbind option_bind]. eexists _, (to_text (PLAYLIST_STATE_FILE_PLAYLIST_BEGIN :: queue_lines its ++
    [PLAYLIST_STATE_FILE_PLAYLIST_END])). split; [done|].
  rewrite write_file_ok. split.
  { f_equal. rewrite to_text_cons, to_text_app, fmap_cons, fmap_app. cbn [concat fmap list_fmap call_bytes].
    rewrite concat_app, Hw. unfold newline. rewrite <-!app_assoc. cbn [app].
    by f_equal. }
  intros Hshort sizes. rewrite read_file_ok by done.
  assert (Hlines : Forall line_ok (PLAYLIST_STATE_FILE_PLAYLIST_BEGIN :: queue_lines its ++ [PLAYLIST_STATE_FILE_PLAYLIST_END])).
  { constructor; [by apply printable_line_ok, literal_printable|]. apply Forall_app_2.
    - apply Forall_concat, Forall_lookup. intros i x Hx. rewrite list_lookup_imap in Hx.
      destruct (its !! i) as [it|] eqn:Ei; [|done]. injection Hx as <-. rewrite Forall_lookup in Hall.
      apply item_lines_ok; [|by eapply Hall]. apply lookup_lt_Some in Ei. rewrite (r_len _ _ Hr) in Ei. lia.
    - by apply Forall_singleton, printable_line_ok, literal_printable. }
  rewrite text_lines_ok by done. unfold playlist_state_load.
  destruct ((queue_lines its ++ [PLAYLIST_STATE_FILE_PLAYLIST_END]) ++ rest) as [|l1 file] eqn:E.
  { by destruct (queue_lines its). }
  destruct (load_loop_ok its Hall 0 q0 [] ptr (S (length file)) l1 file rest Hr0) as (q1 & its1 & ptr1 & Hq1 & Hr1 & Hd1).
  { by intros p ?%not_elem_of_nil. }
  { rewrite <-(r_len _ _ Hr0), (r_len _ _ Hr). simpl. lia. }
  { rewrite (r_len _ _ Hr). simpl. lia. }
  { rewrite <-E, <-app_assoc. done. }
  { lia. }
  destruct (versions_data q1 its1 Hr1) as (q2 & its2 & Hq2 & Hr2 & Hd2).
  eexists _, q2, its2, ptr1. split; [done|]. rewrite E, Hq1. cbn [mbind option_bind]. rewrite Hq2.
  split; [done|]. split; [done|]. rewrite Hd2, Hd1. by apply comes_back_ok.
Qed.

End Queue.

(** A queue with a song of the database, a stream with a priority and a file that is gone
    after the restart. *)
#[local] Instance empty_heap : Heap := { fresh n := replicate n 0%Z; fresh_length n := length_replicate n 0%Z }.

Definition example_load (u : list Z) : option DetachedSong :=
  if bool_decide (u = str "gone.ogg") then None
  else Some (Song.mkSong u [] (mkTag 5000 false [mkTagItem TAG_TITLE (str "A")]) 5 0 0).

Definition example_stream : DetachedSong :=
  Song.mkSong (str "http://h/s") [] (mkTag (-1) false [mkTagItem TAG_NAME (str "S")]) 0 0 0.

Definition example_songs : list (DetachedSong * Z) :=
  [(Song.of_uri (str "a.ogg"), 0%Z); (example_stream, 7%Z); (Song.of_uri (str "gone.ogg"), 0%Z)].

Definition example_queue : Queue.Queue DetachedSong Z := QueueProps.build 4 example_songs.

Lemma example_queue_repr : repr example_queue (QueueProps.contents example_queue).
Proof. apply QueueProps.built_repr, QueueProps.build_built; [lia|simpl; lia|]. repeat constructor; simpl; lia. Qed.

Lemma example_song_ok u t : bool_decide (u ≠ [] ∧ (10%Z ∉ u) ∧ (0%Z ∉ u) ∧ last u ≠ Some 13%Z) = true → tag_ok t →
  detached_ok (Song.mkSong u [] t 0 0 0).
Proof. by intros (?&?&?&?)%bool_decide_eq_true_1 ?. Qed.

Lemma check_loadable its l : data its = l →
  Forall (λ x, detached_ok x.1 ∧ (0 ≤ x.2 ≤ 255)%Z ∧ length (items (Song.tag x.1)) ≤ 1) l →
  Forall (loadable example_load) its.
Proof.
  intros <- Hok. unfold data in Hok. rewrite (Forall_fmap (A:=Item)) in Hok.
  eapply Forall_impl; [exact Hok|]. intros it (Hs & Hp & Hl). split; [done|split; [done|]].
  intros found. unfold example_load. case_bool_decide; [done|]. intros [= <-].
  split; [by repeat constructor|]. simpl in *. lia.
Qed.

Lemma example_loadable : Forall (loadable example_load) (QueueProps.contents example_queue).
Proof.
  apply (check_loadable _ example_songs); [vm_compute; reflexivity|].
  repeat (constructor; [split; [apply example_song_ok; [reflexivity|]|simpl; lia]|]);
    [by repeat constructor| |by repeat constructor|constructor].
  split_and!; [by repeat constructor| |done..]. apply Forall_singleton. split; [|by repeat constructor].
  split; [apply UTF8.utf8_ascii; [done|constructor]|by repeat constructor].
Qed.

(** What is looked at: the URI, the titles, the names and the priority. *)
Definition view (x : DetachedSong * Z) : list Z * list (list Z) * list (list Z) * Z :=
  (Song.uri x.1, values_of TAG_TITLE (items (Song.tag x.1)), values_of TAG_NAME (items (Song.tag x.1)), x.2).

Lemma example_came_back s s' u : came_back (2 ^ 20 - 1) s
    (Song.mkSong u [] (mkTag 5000 false [mkTagItem TAG_TITLE (str "A")]) 5 0 0) s' →
  Song.uri s' = u ∧ ∀ ty, values_of ty (items (Song.tag s')) =
    match values_of ty (items (written_tag (2 ^ 20 - 1) s)) with
    | [] => values_of ty [mkTagItem TAG_TITLE (str "A")] | v => v end.
Proof. intros (Hu & _ & _ & _ & _ & Ht). rewrite decide_False in Ht by by intros []. by destruct Ht as (_ & _ & Ht). Qed.

Lemma back_inv it its l found : example_load (Song.uri (Queue.song_data it)) = found →
  comes_back (2 ^ 20 - 1) example_load (it :: its) l →
  match found with
  | None => comes_back (2 ^ 20 - 1) example_load its l
  | Some f => ∃ s' l', l = (s', Queue.priority it) :: l' ∧
      came_back (2 ^ 20 - 1) (Queue.song_data it) f s' ∧ comes_back (2 ^ 20 - 1) example_load its l'
  end.
Proof.
  intros E H. inversion H as [|? ? ? Hn|? ? f s' l' Hf]; subst; [by rewrite Hn|rewrite Hf; by eexists _, _].
Qed.

Lemma example_back its l : data its = example_songs → comes_back (2 ^ 20 - 1) example_load its l →
  view <$> l = [(str "a.ogg", [str "A"], [], 0%Z); (str "http://h/s", [str "A"], [str "S"], 7%Z)].
Proof.
  intros Hd Hb. destruct its as [|a [|b [|c [|]]]]; try discriminate Hd.
  unfold data, example_songs in Hd. cbn [fmap list_fmap] in Hd. injection Hd as Ha Hpa Hb' Hpb Hc Hpc.
  apply (back_inv _ _ _ (example_load (str "a.ogg"))) in Hb as (s1 & l1 & -> & H1 & Hb); [|by rewrite Ha].
  apply (back_inv _ _ _ (example_load (str "http://h/s"))) in Hb as (s2 & l2 & -> & H2 & Hb); [|by rewrite Hb'].
  apply (back_inv _ _ _ (example_load (str "gone.ogg"))) in Hb; [|by rewrite Hc].
  change (example_load (str "gone.ogg")) with (@None DetachedSong) in Hb. inversion Hb; subst l2.
  apply example_came_back in H1 as [Hu1 Ht1]. apply example_came_back in H2 as [Hu2 Ht2].
  rewrite Ha in Ht1. rewrite Hb' in Ht2. cbn [fmap list_fmap]. unfold view. cbn [fst snd].
  rewrite Hu1, Hu2, !Ht1, !Ht2, Hpa, Hpb. vm_compute. reflexivity.
Qed.

Lemma queue_roundtrip_witness :
  ∃ lines q' ptr', playlist_state_load (2 ^ 20 - 1) example_load (lines ++ [str "x"]) (Queue.make 3 : Queue.Queue _ Z) 0 =
      Some ([str "x"], q', ptr') ∧
    view <$> data (QueueProps.contents q') =
      [(str "a.ogg", [str "A"], [], 0%Z); (str "http://h/s", [str "A"], [str "S"], 7%Z)].
Proof.
  destruct (queue_roundtrip (2 ^ 20 - 1) example_load example_queue (QueueProps.contents example_queue)
    (Queue.make 3) 0 [str "x"]) as (cs & bytes & Hcs & Hbytes & H).
  - exact example_queue_repr.
  - exact example_loadable.
  - vm_compute. reflexivity.
  - apply make_repr. lia.
  - vm_compute. lia.
  - destruct (H ltac:(apply (short_lines_bound 100); [lia|];
      assert (E : playlist_save_queue example_queue ≫= write_file = Some bytes) by (rewrite Hcs; exact Hbytes);
      vm_compute in E; injection E as <-; vm_compute; reflexivity) [3; 1])
      as (lines & q' & its' & ptr' & _ & Hload & Hr & Hdata).
    exists lines, q', ptr'. split; [exact Hload|]. rewrite (QueueProps.contents_repr _ _ Hr).
    assert (Ec : data (QueueProps.contents example_queue) = example_songs) by (vm_compute; reflexivity).
    exact (example_back _ _ Ec Hdata).
Defined.

End QueueSaveProps.
