(* ===== verification/CueParser.v ===== *)
(** * CUE sheets

    [playlist/cue/CueParser.cxx] and the song enumerator of
    [playlist/plugins/CuePlaylistPlugin.cxx].  The parser cuts a line into words in place
    and keeps a pointer to what is left; a line is the text in front of its terminator,
    and the pointer is the rest of it, or [None] when it has moved past the terminator,
    where reading is undefined.  Songs are held back until the following track has set
    their end. *)

From Stdlib Require Import ZArith Lia ZifyBool.
From stdpp Require Import base numbers sets strings list.
From S2P Require Import Prelude CString Decimal Tag Song Tokenizer Samples.

Set Default Goal Selector "!".

Module CueParser.
Import CString Decimal Tag.

#[local] Abbreviation DetachedSong := Song.DetachedSong.

(** ** Words *)

(** [char **pp] *)
Definition cursor : Type := option (list Z).

(** The word that starts here, and where the pointer is left: one byte behind the end of
    the word, which may be behind the terminator. *)
Fixpoint cue_next_word (p : list Z) : list Z * cursor :=
  match p with
  | [] => ([], None)
  | c :: q =>
      if Tokenizer.IsWhitespaceOrNull c then ([], Some q)
      else let '(word, pp) := cue_next_word q in (c :: word, pp)
  end.

(** A quote that is not closed extends to the end of the line. *)
Definition cue_next_quoted (p : list Z) : list Z * cursor :=
  match strchr p 34%Z with
  | None => (p, Some [])
  | Some e => (take e p, Some (drop (S e) p))
  end.

(** [None] is undefined behaviour; the word is [None] for [nullptr]. *)
Definition cue_next_token (pp : cursor) : option (option (list Z) * cursor) :=
  p ← pp;
  let p := Tokenizer.strip p in
  if (first p =? 0)%Z then Some (None, pp)
  else let '(word, pp) := cue_next_word p in Some (Some word, pp).

Definition cue_next_value (pp : cursor) : option (option (list Z) * cursor) :=
  p ← pp;
  let p := Tokenizer.strip p in
  if (first p =? 0)%Z then Some (None, pp)
  else
    let '(word, pp) := if (first p =? 34)%Z then cue_next_quoted (drop 1 p) else cue_next_word p in
    Some (Some word, pp).

(** The result of [minutes:seconds:frames] is an [unsigned long] converted to [int]. *)
Definition cue_parse_position (p : list Z) : Z :=
  let '(minutes, n) := strtoul p in
  if (n =? 0) || negb (first (drop n p) =? 58)%Z then (-1)%Z
  else
    let p := drop (S n) p in
    let '(seconds, n) := strtoul p in
    if (n =? 0) || negb (first (drop n p) =? 58)%Z then (-1)%Z
    else
      let p := drop (S n) p in
      let '(frames, n) := strtoul p in
      if (n =? 0) || negb (first (drop n p) =? 0)%Z then (-1)%Z
      else
        let u := Samples.to_unsigned 64 in
        Samples.to_signed 32 (u (u (u (minutes * 60000) + u (seconds * 1000)) + u (frames * 1000) / 75))%Z.

(** ** The parser *)

Inductive State := HEADER | WAVE | IGNORE_FILE | TRACK | IGNORE_TRACK.

#[export] Instance State_eq_dec : EqDecision State.
Proof. solve_decision. Defined.

Record CueParser := mkCueParser {
  state : State;
  header_tag : TagBuilder.TagBuilder;
  song_tag : TagBuilder.TagBuilder;
  filename : list Z;
  current : option DetachedSong;
  previous : option DetachedSong;
  finished : option DetachedSong;
  end_ : bool;
}.

Definition new_parser : CueParser :=
  mkCueParser HEADER TagBuilder.empty TagBuilder.empty [] None None None false.

Definition set_state (s : State) (c : CueParser) : CueParser :=
  mkCueParser s (header_tag c) (song_tag c) (filename c) (current c) (previous c) (finished c) (end_ c).
Definition set_header_tag (t : TagBuilder.TagBuilder) (c : CueParser) : CueParser :=
  mkCueParser (state c) t (song_tag c) (filename c) (current c) (previous c) (finished c) (end_ c).
Definition set_song_tag (t : TagBuilder.TagBuilder) (c : CueParser) : CueParser :=
  mkCueParser (state c) (header_tag c) t (filename c) (current c) (previous c) (finished c) (end_ c).
Definition set_filename (n : list Z) (c : CueParser) : CueParser :=
  mkCueParser (state c) (header_tag c) (song_tag c) n (current c) (previous c) (finished c) (end_ c).
Definition set_songs (cur prev fin : option DetachedSong) (c : CueParser) : CueParser :=
  mkCueParser (state c) (header_tag c) (song_tag c) (filename c) cur prev fin (end_ c).
Definition set_end (c : CueParser) : CueParser :=
  mkCueParser (state c) (header_tag c) (song_tag c) (filename c) (current c) (previous c) (finished c) true.

(** [GetCurrentTag], and the parser after the tag it points to has been changed. *)
Definition GetCurrentTag (c : CueParser) : option TagBuilder.TagBuilder :=
  match state c with
  | HEADER => Some (header_tag c)
  | TRACK => Some (song_tag c)
  | _ => None
  end.

Definition put_current_tag (t : TagBuilder.TagBuilder) (c : CueParser) : CueParser :=
  match state c with
  | HEADER => set_header_tag t c
  | TRACK => set_song_tag t c
  | _ => c
  end.

Definition Commit (c : CueParser) : option CueParser :=
  assert! bool_decide (finished c = None) ;;
  assert! negb (end_ c) ;;
  match current c with
  | None => Some c
  | Some song =>
      assert! negb (IsDefined (Song.GetTag song)) ;;
      let '(t, b) := TagBuilder.Commit (song_tag c) in
      Some (set_songs None (Some (Song.SetTag t song)) (previous c) (set_song_tag b c))
  end.

Section Parser.
(** The enabled tags. *)
Context (global_tag_mask : Z).

Definition cue_add_tag (tag : TagBuilder.TagBuilder) (type : TagType) (pp : cursor)
    : option TagBuilder.TagBuilder :=
  '(value, _) ← cue_next_value pp;
  match value with
  | None => Some tag
  | Some value => TagBuilder.AddItem global_tag_mask type value tag
  end.

Definition cue_parse_rem (pp : cursor) (tag : TagBuilder.TagBuilder) : option TagBuilder.TagBuilder :=
  '(type, pp) ← cue_next_token pp;
  match type with
  | None => Some tag
  | Some type =>
      let type2 := tag_name_parse_i type in
      if negb (bool_decide (type2 = TAG_NUM_OF_ITEM_TYPES)) then cue_add_tag tag type2 pp else Some tag
  end.

(** The commands, in the order in which they are compared. *)
Definition on_rem (pp : cursor) (c : CueParser) : option CueParser :=
  match GetCurrentTag c with
  | None => Some c
  | Some tag => tag ← cue_parse_rem pp tag; Some (put_current_tag tag c)
  end.

Definition on_performer (pp : cursor) (c : CueParser) : option CueParser :=
  let type := if bool_decide (state c = TRACK) then TAG_ARTIST else TAG_ALBUM_ARTIST in
  match GetCurrentTag c with
  | None => Some c
  | Some tag => tag ← cue_add_tag tag type pp; Some (put_current_tag tag c)
  end.

Definition on_title (pp : cursor) (c : CueParser) : option CueParser :=
  match state c with
  | HEADER => tag ← cue_add_tag (header_tag c) TAG_ALBUM pp; Some (set_header_tag tag c)
  | TRACK => tag ← cue_add_tag (song_tag c) TAG_TITLE pp; Some (set_song_tag tag c)
  | _ => Some c
  end.

Definition file_type_known (type : list Z) : bool :=
  streq type (str "WAVE") || streq type (str "MP3") || streq type (str "AIFF").

Definition on_file (pp : cursor) (c : CueParser) : option CueParser :=
  c ← Commit c;
  '(new_filename, pp) ← cue_next_value pp;
  match new_filename with
  | None => Some c
  | Some new_filename =>
      '(type, pp) ← cue_next_token pp;
      match type with
      | None => Some c
      | Some type =>
          if negb (file_type_known type) then Some (set_state IGNORE_FILE c)
          else Some (set_filename new_filename (set_state WAVE c))
      end
  end.

Definition on_track (pp : cursor) (c : CueParser) : option CueParser :=
  c ← Commit c;
  '(nr, pp) ← cue_next_token pp;
  match nr with
  | None => Some c
  | Some nr =>
      '(type, pp) ← cue_next_token pp;
      match type with
      | None => Some c
      | Some type =>
          if negb (streq type (str "AUDIO")) then Some (set_state IGNORE_TRACK c)
          else
            let c := set_state TRACK c in
            let c := set_songs (Some (Song.of_uri (filename c))) (previous c) (finished c) c in
            tag ← TagBuilder.AddItem global_tag_mask TAG_TRACK nr (header_tag c);
            Some (set_song_tag tag c)
      end
  end.

(** [None] is also the null pointer that is dereferenced when no song is open. *)
Definition set_times (nr : list Z) (position_ms : Z) (c : CueParser) : option CueParser :=
  let previous' :=
    match previous c with
    | Some p => Some (if (Song.GetStartTime p <? position_ms)%Z then Song.SetEndTime position_ms p else p)
    | None => None
    end in
  song ← current c;
  let c := set_songs (Some (Song.SetStartTime position_ms song)) previous' (finished c) c in
  Some (if negb (streq nr (str "00")) || bool_decide (previous c = None) then set_state IGNORE_TRACK c else c).

Definition on_index (pp : cursor) (c : CueParser) : option CueParser :=
  '(nr, pp) ← cue_next_token pp;
  match nr with
  | None => Some c
  | Some nr =>
      '(position, pp) ← cue_next_token pp;
      match position with
      | None => Some c
      | Some position =>
          let position_ms := cue_parse_position position in
          if (position_ms <? 0)%Z then Some c else set_times nr position_ms c
      end
  end.

Definition Feed2 (p : list Z) (c : CueParser) : option CueParser :=
  assert! negb (end_ c) ;;
  '(command, pp) ← cue_next_token (Some p);
  match command with
  | None => Some c
  | Some command =>
      if streq command (str "REM") then on_rem pp c
      else if streq command (str "PERFORMER") then on_performer pp c
      else if streq command (str "TITLE") then on_title pp c
      else if streq command (str "FILE") then on_file pp c
      else if bool_decide (state c = IGNORE_FILE) then Some c
      else if streq command (str "TRACK") then on_track pp c
      else if bool_decide (state c = IGNORE_TRACK) then Some c
      else if bool_decide (state c = TRACK) && streq command (str "INDEX") then on_index pp c
      else Some c
  end.

(** The copy of the line is freed afterwards. *)
Definition Feed (line : list Z) (c : CueParser) : option CueParser :=
  assert! negb (end_ c) ;;
  Feed2 line c.

Definition Finish (c : CueParser) : option CueParser :=
  if end_ c then Some c
  else c ← Commit c; Some (set_end c).

Definition Get (c : CueParser) : option (option DetachedSong * CueParser) :=
  c ← (if bool_decide (finished c = None) && end_ c then
         assert! bool_decide (current c = None) ;;
         Some (set_songs (current c) None (previous c) c)
       else Some c);
  Some (finished c, set_songs (current c) (previous c) None c).

(** ** The enumerator *)

(** The loop over the lines that are left. *)
Fixpoint feed_lines (lines : list (list Z)) (c : CueParser)
    : option (option DetachedSong * list (list Z) * CueParser) :=
  match lines with
  | [] =>
      c ← Finish c;
      '(song, c) ← Get c;
      Some (song, [], c)
  | line :: lines =>
      c ← Feed line c;
      '(song, c) ← Get c;
      match song with
      | Some song => Some (Some song, lines, c)
      | None => feed_lines lines c
      end
  end.

Definition NextSong (lines : list (list Z)) (c : CueParser)
    : option (option DetachedSong * list (list Z) * CueParser) :=
  '(song, c) ← Get c;
  match song with
  | Some song => Some (Some song, lines, c)
  | None => feed_lines lines c
  end.

(** All songs, until [nullptr] is returned; every song but two takes a line. *)
Fixpoint all_songs_loop (fuel : nat) (lines : list (list Z)) (c : CueParser) : option (list DetachedSong) :=
  match fuel with
  | O => None
  | S fuel =>
      '(song, lines, c) ← NextSong lines c;
      match song with
      | None => Some []
      | Some song => l ← all_songs_loop fuel lines c; Some (song :: l)
      end
  end.

Definition all_songs (lines : list (list Z)) : option (list DetachedSong) :=
  all_songs_loop (length lines + 3) lines new_parser.

End Parser.

End CueParser.
