(* ===== verification/CueProps.v ===== *)
(** * Properties of the CUE parser

    The parser delivers its songs one at a time and late; what it delivers in the end is
    described by [sheet], which reads the commands in order and keeps the list of all
    tracks.  [read_line] gives the command of a line, and nothing when an argument is
    missing: on such lines the code reads behind the text or uses a song it does not have. *)

From Stdlib Require Import ZArith Lia ZifyBool.
From stdpp Require Import base numbers sets strings list.
From S2P Require Import Prelude CString UTF8 TagString Decimal Tag Song Tokenizer Samples TextIO CueParser.

Set Default Goal Selector "!".

Module CueProps.
Import CString Decimal Tag CueParser.

#[local] Abbreviation DetachedSong := Song.DetachedSong.

(** ** The specification *)

Record track := mkTrack { t_file : list Z; t_tag : TagBuilder.TagBuilder; t_start : Z; t_end : Z }.

Record sheet := mkSheet {
  s_state : State; s_header : TagBuilder.TagBuilder; s_file : list Z; s_tracks : list track }.

Definition new_sheet : sheet := mkSheet HEADER TagBuilder.empty [] [].

Inductive command :=
| Nothing
| Rem (type : TagType) (v : list Z)
| Performer (v : list Z)
| Title (v : list Z)
| File (name : list Z) (known : bool)
| Track (nr : list Z) (audio : bool)
| Index (first_index : bool) (position_ms : Z).

Section Spec.
Context (mask : Z).

(** A value is stored in its sanitised form, and not at all when it is empty or disabled. *)
Definition add_value (ty : TagType) (v : list Z) (b : TagBuilder.TagBuilder) : TagBuilder.TagBuilder :=
  if (length v =? 0) || negb (IsTagEnabled mask ty) then b
  else TagBuilder.push (mkTagItem ty (default v (default None (TagString.FixTagString v)))) b.

(** A change of the last track. *)
Definition with_last (f : track → track) (l : list track) : list track :=
  match reverse l with [] => [] | t :: r => reverse (f t :: r) end.

Definition set_tag (f : TagBuilder.TagBuilder → TagBuilder.TagBuilder) (t : track) : track :=
  mkTrack (t_file t) (f (t_tag t)) (t_start t) (t_end t).

(** The tag a command speaks of: that of the sheet, or that of the last track. *)
Definition add_tag (in_header in_track : TagType) (v : list Z) (s : sheet) : sheet :=
  match s_state s with
  | HEADER => mkSheet HEADER (add_value in_header v (s_header s)) (s_file s) (s_tracks s)
  | TRACK => mkSheet TRACK (s_header s) (s_file s) (with_last (set_tag (add_value in_track v)) (s_tracks s))
  | _ => s
  end.

(** An index starts the last track and ends the one before it, if that has begun earlier. *)
Definition end_at (pos : Z) (t : track) : track :=
  if (t_start t <? pos)%Z then mkTrack (t_file t) (t_tag t) (t_start t) pos else t.
Definition start_at (pos : Z) (t : track) : track := mkTrack (t_file t) (t_tag t) pos (t_end t).

Definition index_tracks (pos : Z) (l : list track) : list track :=
  match reverse l with
  | [] => []
  | [t] => [start_at pos t]
  | t :: p :: r => reverse (start_at pos t :: end_at pos p :: r)
  end.

Definition step (s : sheet) (c : command) : sheet :=
  match c with
  | Nothing => s
  | Rem type v => add_tag type type v s
  | Performer v => add_tag TAG_ALBUM_ARTIST TAG_ARTIST v s
  | Title v => add_tag TAG_ALBUM TAG_TITLE v s
  | File name known =>
      if known then mkSheet WAVE (s_header s) name (s_tracks s)
      else mkSheet IGNORE_FILE (s_header s) (s_file s) (s_tracks s)
  | Track nr audio =>
      if bool_decide (s_state s = IGNORE_FILE) then s
      else if audio then
        mkSheet TRACK (s_header s) (s_file s)
          (s_tracks s ++ [mkTrack (s_file s) (add_value TAG_TRACK nr (s_header s)) 0 0])
      else mkSheet IGNORE_TRACK (s_header s) (s_file s) (s_tracks s)
  | Index later pos =>
      if bool_decide (s_state s = TRACK) && (0 <=? pos)%Z then
        mkSheet (if later || (length (s_tracks s) <=? 1) then IGNORE_TRACK else TRACK) (s_header s) (s_file s)
          (index_tracks pos (s_tracks s))
      else s
  end.

(** The song of a track. *)
Definition song_of (t : track) : DetachedSong :=
  Song.mkSong (t_file t) [] (TagBuilder.Commit (t_tag t)).1 0 (t_start t) (t_end t).

End Spec.

(** ** The command of a line *)

Definition token (pp : cursor) : option (list Z * cursor) :=
  '(v, pp) ← cue_next_token pp; v ← v; Some (v, pp).

(** A value that may be absent. *)
Definition value_command (f : list Z → command) (pp : cursor) : option command :=
  '(v, _) ← cue_next_value pp;
  match v with None => Some Nothing | Some v => Some (f v) end.

Definition read_line (line : list Z) : option command :=
  '(w, pp) ← cue_next_token (Some line);
  match w with
  | None => Some Nothing
  | Some w =>
      if streq w (str "REM") then
        '(type, pp) ← token pp;
        if bool_decide (tag_name_parse_i type = TAG_NUM_OF_ITEM_TYPES) then Some Nothing
        else value_command (Rem (tag_name_parse_i type)) pp
      else if streq w (str "PERFORMER") then value_command Performer pp
      else if streq w (str "TITLE") then value_command Title pp
      else if streq w (str "FILE") then
        '(name, pp) ← cue_next_value pp; name ← name;
        '(type, _) ← token pp;
        Some (File name (file_type_known type))
      else if streq w (str "TRACK") then
        '(nr, pp) ← token pp; '(type, _) ← token pp;
        Some (Track nr (streq type (str "AUDIO")))
      else if streq w (str "INDEX") then
        '(nr, pp) ← token pp; '(position, _) ← token pp;
        Some (Index (negb (streq nr (str "00"))) (cue_parse_position position))
      else Some Nothing
  end.

(** ** The words are made of the bytes of the line *)

Section Bytes.
#[local] Abbreviation bytes := (Forall is_byte).

Lemma strip_bytes p : bytes p → bytes (Tokenizer.strip p).
Proof. induction 1; simpl; [done|]. destruct (Tokenizer.IsWhitespaceNotNull _); [done|by constructor]. Qed.

Lemma next_word_bytes p w pp : bytes p → cue_next_word p = (w, pp) → bytes w ∧ ∀ q, pp = Some q → bytes q.
Proof.
  intros H. revert w pp. induction H as [|c p Hc Hp IH]; intros w pp; simpl; [by intros [= <- <-]|].
  destruct (Tokenizer.IsWhitespaceOrNull c); [intros [= <- <-]; split; [done|by intros q [= <-]]|].
  destruct (cue_next_word p) as [w' pp'] eqn:E. intros [= <- <-].
  destruct (IH w' pp' eq_refl) as [Hw Hq]. split; [by constructor|done].
Qed.

Definition cbytes (pp : cursor) : Prop := ∀ q, pp = Some q → bytes q.

Lemma next_token_bytes pp w pp' : cbytes pp → cue_next_token pp = Some (w, pp') →
  (∀ v, w = Some v → bytes v) ∧ cbytes pp'.
Proof.
  intros Hp. unfold cue_next_token. destruct pp as [p|]; [|done]. simpl.
  pose proof (strip_bytes p (Hp p eq_refl)) as Hs. destruct (_ =? 0)%Z; [by intros [= <- <-]|].
  destruct (cue_next_word _) as [v q] eqn:E. intros [= <- <-].
  destruct (next_word_bytes _ _ _ Hs E) as [Hv Hq]. by split; [intros ? [= <-]|].
Qed.

Lemma next_value_bytes pp w pp' : cbytes pp → cue_next_value pp = Some (w, pp') →
  (∀ v, w = Some v → bytes v) ∧ cbytes pp'.
Proof.
  intros Hp. unfold cue_next_value. destruct pp as [p|]; [|done]. simpl.
  pose proof (strip_bytes p (Hp p eq_refl)) as Hs. destruct (_ =? 0)%Z; [by intros [= <- <-]|].
  destruct (first _ =? 34)%Z.
  - unfold cue_next_quoted. pose proof (Forall_drop _ 1 _ Hs) as Hd.
    destruct (strchr _ _) as [e|]; intros [= <- <-].
    + split; [intros ? [= <-]; by apply Forall_take|intros ? [= <-]; by apply Forall_drop].
    + split; [by intros ? [= <-]|intros ? [= <-]; constructor].
  - destruct (cue_next_word _) as [v q] eqn:E. intros [= <- <-].
    destruct (next_word_bytes _ _ _ Hs E) as [Hv Hq]. by split; [intros ? [= <-]|].
Qed.

End Bytes.

(** ** One line *)

Section Lines.
Context (mask : Z).

Lemma AddItem_value ty v b : Forall is_byte v → TagBuilder.AddItem mask ty v b = Some (add_value mask ty v b).
Proof.
  intros Hb. unfold TagBuilder.AddItem, add_value. destruct (_ || _) eqn:E; [done|].
  unfold TagBuilder.AddItemInternal. apply orb_false_iff in E as [E _]. rewrite E. cbn [negb check mbind option_bind].
  destruct (TagString.FixTagString_total v Hb) as (r & -> & _). done.
Qed.

(** The song of a track that is being read. *)
Definition open_song (t : track) : DetachedSong := Song.mkSong (t_file t) [] empty 0 (t_start t) (t_end t).

Definition opt {A} (o : option A) : list A := option_list o.

(** The tracks [done] have been delivered, [fin] is to be delivered next, [pv] waits for its
    end, and [cu] is being read. *)
Record mid (done : list track) (fin pv cu : option track) (c : CueParser) (s : sheet) : Prop := {
  m_tracks : s_tracks s = done ++ opt fin ++ opt pv ++ opt cu;
  m_state : state c = s_state s;
  m_header : header_tag c = s_header s;
  m_file : filename c = s_file s;
  m_finished : finished c = song_of <$> fin;
  m_previous : previous c = song_of <$> pv;
  m_current : current c = open_song <$> cu;
  m_tag : ∀ t, cu = Some t → song_tag c = t_tag t;
  m_done : pv = None → done = [] ∧ fin = None;
  m_end : end_ c = false;
}.

(** Between two lines; a track is open in the state [TRACK]. *)
Definition sim (done : list track) (pv cu : option track) (c : CueParser) (s : sheet) : Prop :=
  mid done None pv cu c s ∧ (s_state s = TRACK → is_Some cu).

Lemma Commit_mid done pv cu c s : mid done None pv cu c s →
  ∃ c' fin pv', Commit c = Some c' ∧ mid done fin pv' None c' s.
Proof.
  intros [Ht Hs Hh Hf Hfin Hp Hc Htag Hd He]. unfold Commit. rewrite Hfin, He, Hc.
  rewrite check_bind by done. rewrite check_bind by done. destruct cu as [t|]; cbn [fmap option_fmap option_map].
  - rewrite check_bind by done. rewrite (Htag t eq_refl). eexists _, pv, (Some t). split; [done|].
    by split.
  - exists c, None, pv. done.
Qed.

Lemma Get_mid done fin pv cu c s : mid done fin pv cu c s →
  ∃ c', Get c = Some (song_of <$> fin, c') ∧ mid (done ++ opt fin) None pv cu c' s.
Proof.
  intros [Ht Hs Hh Hf Hfin Hp Hc Htag Hd He]. unfold Get. rewrite He, andb_false_r. cbn [mbind option_bind].
  rewrite Hfin. eexists. split; [done|]. split; try done.
  - by rewrite Ht, <-app_assoc.
  - intros Hpv. destruct (Hd Hpv) as [-> ->]. done.
Qed.

(** What a line does, before the song it has finished is taken. *)
Definition fed (done : list track) (c' : option CueParser) (s : sheet) : Prop :=
  ∃ c1 fin pv cu, c' = Some c1 ∧ mid done fin pv cu c1 s ∧ (s_state s = TRACK → is_Some cu).

Lemma fed_same done pv cu c s : sim done pv cu c s → fed done (Some c) s.
Proof. intros [H Ho]. by exists c, None, pv, cu. Qed.

(** A value for the current tag. *)
Lemma fed_value done pv cu c s th tt pp cmd f : sim done pv cu c s → cbytes pp →
  (∀ v, step mask s (f v) = add_tag mask th tt v s) → value_command f pp = Some cmd →
  fed done (match state c with
            | HEADER => tag ← cue_add_tag mask (header_tag c) th pp; Some (set_header_tag tag c)
            | TRACK => tag ← cue_add_tag mask (song_tag c) tt pp; Some (set_song_tag tag c)
            | _ => Some c
            end) (step mask s cmd).
Proof.
  intros Hsim Hb Hstep. pose proof Hsim as [H Ho]. unfold value_command, cue_add_tag.
  destruct (cue_next_value pp) as [[v pp']|] eqn:Ev; [|done]. cbn [mbind option_bind].
  destruct (next_value_bytes _ _ _ Hb Ev) as [Hv _].
  destruct v as [v|]; intros [= <-].
  2: { simpl. destruct (state c) eqn:Es; try by eapply fed_same.
       - exists (set_header_tag (header_tag c) c), None, pv, cu. split; [done|]. destruct H. done.
       - exists (set_song_tag (song_tag c) c), None, pv, cu. split; [done|]. destruct H. done. }
  rewrite Hstep. unfold add_tag. rewrite <-(m_state _ _ _ _ _ _ H).
  destruct (state c) eqn:Es; try by eapply fed_same.
  - rewrite AddItem_value by auto. cbn [mbind option_bind]. eexists _, None, pv, cu. split; [done|].
    split; [|done]. destruct H as [Ht Hs Hh Hf Hfin Hp Hc Htag Hd He]. split; simpl; try done. by rewrite Hh.
  - rewrite AddItem_value by auto. cbn [mbind option_bind].
    destruct (Ho ltac:(by rewrite <-(m_state _ _ _ _ _ _ H))) as [t ->].
    eexists _, None, pv, (Some (set_tag (add_value mask tt v) t)). split; [done|]. split; [|done].
    destruct H as [Ht Hs Hh Hf Hfin Hp Hc Htag Hd He]. split; simpl in *; try congruence.
    + rewrite Ht. unfold with_last. rewrite app_assoc, reverse_app. simpl. rewrite reverse_cons, reverse_involutive.
      by rewrite <-app_assoc.
    + by rewrite Hc.
    + intros ? [= <-]. simpl. by rewrite (Htag t eq_refl).
    + done.
Qed.

Lemma bind_some {A B} (m : option A) (f : A → option B) b : m ≫= f = Some b → ∃ a, m = Some a ∧ f a = Some b.
Proof. destruct m as [a|]; [by exists a|done]. Qed.

Lemma token_inv pp r : token pp = Some r → cue_next_token pp = Some (Some r.1, r.2).
Proof.
  unfold token. destruct (cue_next_token pp) as [[[v|] q]|]; cbn [mbind option_bind]; [|done|done].
  by intros [= <-].
Qed.

Lemma fed_file done pv cu c s pp cmd : sim done pv cu c s → cbytes pp →
  ('(name, pp) ← cue_next_value pp; name ← name; '(type, _) ← token pp; Some (File name (file_type_known type))) = Some cmd →
  fed done (on_file pp c) (step mask s cmd).
Proof.
  intros [H _] Hb Hread. unfold on_file. destruct (Commit_mid _ _ _ _ _ H) as (c1 & fin & pv' & -> & H1).
  cbn [mbind option_bind]. destruct (cue_next_value pp) as [[name q]|]; cbn [mbind option_bind] in *; [|done].
  destruct name as [name|]; cbn [mbind option_bind] in *; [|done].
  apply bind_some in Hread as ([type q'] & Htok & [= <-]). apply token_inv in Htok as ->. cbn [mbind option_bind fst].
  destruct H1 as [Ht Hs Hh Hf Hfin Hp Hc Htag Hd He].
  simpl. destruct (file_type_known type); simpl; (eexists _, fin, pv', None; split; [done|]; split; [by split|done]).
Qed.

Lemma fed_track done pv cu c s pp cmd : sim done pv cu c s → cbytes pp → state c ≠ IGNORE_FILE →
  ('(nr, pp) ← token pp; '(type, _) ← token pp; Some (Track nr (streq type (str "AUDIO")))) = Some cmd →
  fed done (on_track mask pp c) (step mask s cmd).
Proof.
  intros [H _] Hb Hst Hread. unfold on_track. destruct (Commit_mid _ _ _ _ _ H) as (c1 & fin & pv' & -> & H1).
  cbn [mbind option_bind]. apply bind_some in Hread as ([nr q] & Htok & Hread). apply token_inv in Htok.
  pose proof (next_token_bytes _ _ _ Hb Htok) as [Hnr _]. rewrite Htok. cbn [mbind option_bind fst snd] in *.
  apply bind_some in Hread as ([type q'] & Htok' & [= <-]). apply token_inv in Htok' as ->. cbn [mbind option_bind fst].
  rewrite (m_state _ _ _ _ _ _ H) in Hst.
  destruct H1 as [Ht Hs Hh Hf Hfin Hp Hc Htag Hd He].
  simpl. rewrite bool_decide_eq_false_2 by done. destruct (streq type (str "AUDIO")); simpl.
  - rewrite AddItem_value by auto. cbn [mbind option_bind].
    eexists _, fin, pv', (Some (mkTrack (s_file s) (add_value mask TAG_TRACK nr (s_header s)) 0 0)).
    split; [done|]. split; [|done]. split; simpl; try done.
    + rewrite Ht. simpl. by rewrite ?app_nil_r, <-!app_assoc.
    + unfold open_song. simpl. by rewrite Hf.
    + intros t [= <-]. simpl. by rewrite Hh.
  - eexists _, fin, pv', None. split; [done|]. split; [by split|done].
Qed.

Lemma index_tracks_two pos done p t : index_tracks pos (done ++ [p; t]) = done ++ [end_at pos p; start_at pos t].
Proof.
  unfold index_tracks. rewrite reverse_app. simpl. rewrite !reverse_cons, reverse_involutive. by rewrite <-app_assoc.
Qed.

Lemma end_song pos p :
  (if (t_start p <? pos)%Z then Song.SetEndTime pos (song_of p) else song_of p) = song_of (end_at pos p).
Proof. unfold end_at. by destruct (_ <? _)%Z. Qed.

Lemma fed_index done pv cu c s pp cmd : sim done pv cu c s → cbytes pp → state c = TRACK →
  ('(nr, pp) ← token pp; '(position, _) ← token pp;
     Some (Index (negb (streq nr (str "00"))) (cue_parse_position position))) = Some cmd →
  fed done (on_index pp c) (step mask s cmd).
Proof.
  intros Hsim Hb Hst Hread. pose proof Hsim as [H Ho]. unfold on_index.
  apply bind_some in Hread as ([nr q] & Htok & Hread). apply token_inv in Htok as ->. cbn [mbind option_bind fst snd] in *.
  apply bind_some in Hread as ([position q'] & Htok' & [= <-]). apply token_inv in Htok' as ->. cbn [mbind option_bind fst].
  pose proof (m_state _ _ _ _ _ _ H) as Hs'. rewrite Hst in Hs'. simpl. rewrite <-Hs', bool_decide_eq_true_2 by done.
  set (pos := cue_parse_position position). destruct (pos <? 0)%Z eqn:E.
  { rewrite (proj2 (Z.leb_gt _ _)) by lia. by eapply fed_same. }
  rewrite (proj2 (Z.leb_le _ _)) by lia. cbn [andb]. destruct (Ho ltac:(done)) as [t ->].
  destruct H as [Ht Hs Hh Hf Hfin Hp Hc Htag Hd He]. unfold set_times. rewrite Hc. cbn [fmap option_fmap option_map mbind option_bind].
  rewrite Hp. destruct pv as [p|].
  - simpl. eexists _, None, (Some (end_at pos p)), (Some (start_at pos t)). split; [done|].
    assert (Hl : length (s_tracks s) <=? 1 = false) by (rewrite Ht, !length_app; simpl; apply Nat.leb_gt; lia).
    rewrite Hl, orb_false_r. rewrite Ht.
    change (done ++ opt None ++ opt (Some p) ++ opt (Some t)) with (done ++ [p; t]). rewrite index_tracks_two.
    split; [|by destruct (streq nr (str "00"))]. destruct (streq nr (str "00")); simpl;
      (split; simpl; try done; [by rewrite end_song|intros u [= <-]; by rewrite (Htag t eq_refl)]).
  - destruct (Hd eq_refl) as [-> _]. rewrite Ht. change ([] ++ opt None ++ opt None ++ opt (Some t)) with [t]. cbn [length Nat.leb].
    rewrite orb_true_r. simpl. rewrite orb_true_r.
    eexists _, None, None, (Some (start_at pos t)). split; [done|]. split; [|done].
    split; simpl; try done. intros u [= <-]. by rewrite (Htag t eq_refl).
Qed.

(** A whole line. *)
Lemma Feed_ok done pv cu c s line cmd : sim done pv cu c s → Forall is_byte line → read_line line = Some cmd →
  fed done (Feed mask line c) (step mask s cmd).
Proof.
  intros Hsim Hb Hread. pose proof Hsim as [H Ho]. pose proof (m_end _ _ _ _ _ _ H) as He.
  pose proof (m_state _ _ _ _ _ _ H) as Hst.
  unfold Feed, Feed2. rewrite He, check_bind by done. rewrite check_bind by done. unfold read_line in Hread.
  destruct (cue_next_token (Some line)) as [[w pp]|] eqn:Ew; [|done]. cbn [mbind option_bind] in *.
  assert (Hpp : cbytes pp) by (eapply next_token_bytes, Ew; by intros q [= <-]).
  destruct w as [w|]; [|injection Hread as <-; by eapply fed_same].
  destruct (streq w (str "REM")).
  { apply bind_some in Hread as ([type q] & Htok & Hread). apply token_inv in Htok. cbn [fst snd] in Htok.
    destruct (next_token_bytes _ _ _ Hpp Htok) as [_ Hq]. unfold on_rem, cue_parse_rem.
    rewrite Htok. cbn [mbind option_bind].
    destruct (bool_decide (tag_name_parse_i type = TAG_NUM_OF_ITEM_TYPES)) eqn:Ety.
    - injection Hread as <-. cbn [negb]. unfold GetCurrentTag, put_current_tag.
      destruct (state c) eqn:Es; cbn [mbind option_bind]; try by eapply fed_same.
      + exists (set_header_tag (header_tag c) c), None, pv, cu. split; [done|]. by destruct c.
      + exists (set_song_tag (song_tag c) c), None, pv, cu. split; [done|]. by destruct c.
    - cbn [negb]. pose proof (fed_value done pv cu c s (tag_name_parse_i type) (tag_name_parse_i type) q cmd
        (Rem (tag_name_parse_i type)) Hsim Hq (λ _, eq_refl) Hread) as Hfed.
      unfold GetCurrentTag, put_current_tag. by destruct (state c). }
  destruct (streq w (str "PERFORMER")).
  { pose proof (fed_value done pv cu c s TAG_ALBUM_ARTIST TAG_ARTIST pp cmd Performer Hsim Hpp (λ _, eq_refl) Hread) as Hfed.
    unfold on_performer, GetCurrentTag, put_current_tag. by destruct (state c). }
  destruct (streq w (str "TITLE")).
  { pose proof (fed_value done pv cu c s TAG_ALBUM TAG_TITLE pp cmd Title Hsim Hpp (λ _, eq_refl) Hread) as Hfed.
    unfold on_title. by destruct (state c). }
  destruct (streq w (str "FILE")); [by eapply fed_file|].
  destruct (streq w (str "TRACK")).
  { case_bool_decide as Es.
    - apply bind_some in Hread as ([nr q] & _ & Hread). apply bind_some in Hread as ([ty q'] & _ & [= <-]).
      simpl. rewrite bool_decide_eq_true_2 by congruence. by eapply fed_same.
    - by eapply fed_track. }
  destruct (streq w (str "INDEX")).
  { destruct (decide (state c = TRACK)) as [Es|Es].
    - rewrite Es. simpl. by eapply fed_index.
    - apply bind_some in Hread as ([nr q] & _ & Hread). apply bind_some in Hread as ([ty q'] & _ & [= <-]).
      rewrite (bool_decide_eq_false_2 (state c = TRACK)) by done. simpl.
      rewrite (bool_decide_eq_false_2 (s_state s = TRACK)) by congruence. cbn [andb].
      destruct (bool_decide (state c = IGNORE_FILE)), (bool_decide (state c = IGNORE_TRACK)); by eapply fed_same. }
  injection Hread as <-. rewrite andb_false_r. destruct (bool_decide (state c = IGNORE_FILE)), (bool_decide (state c = IGNORE_TRACK)); by eapply fed_same.
Qed.

(** ** All lines *)

(** A line that has all its arguments. *)
Definition reads (line : list Z) (cmd : command) : Prop := Forall is_byte line ∧ read_line line = Some cmd.

(** The songs [D] have been delivered, and all lines together make the sheet [S]. *)
Definition reading (D : list DetachedSong) (lines : list (list Z)) (c : CueParser) (S : sheet) : Prop :=
  ∃ cmds done pv cu s, Forall2 reads lines cmds ∧ sim done pv cu c s ∧
    foldl (step mask) s cmds = S ∧ D = song_of <$> done.

Definition ended (D : list DetachedSong) (c : CueParser) (S : sheet) : Prop :=
  end_ c = true ∧ current c = None ∧ finished c = None ∧
  ∃ done pv, s_tracks S = done ++ opt pv ∧ previous c = song_of <$> pv ∧ D = song_of <$> done.

Definition measure (lines : list (list Z)) (c : CueParser) : nat :=
  length lines + (if end_ c then length (opt (previous c)) else 2).

(** The answer of [NextSong]. *)
Definition answer (D : list DetachedSong) (n : nat) (S : sheet)
    (r : option (option DetachedSong * list (list Z) * CueParser)) : Prop :=
  ∃ song lines' c', r = Some (song, lines', c') ∧
    match song with
    | None => song_of <$> s_tracks S = D
    | Some song =>
        (reading (D ++ [song]) lines' c' S ∨ lines' = [] ∧ ended (D ++ [song]) c' S) ∧ measure lines' c' < n
    end.

Lemma ended_Get D c S : ended D c S → ∃ song c', Get c = Some (song, c') ∧
  match song with
  | None => song_of <$> s_tracks S = D ∧ c' = c
  | Some song => ended (D ++ [song]) c' S ∧ measure [] c' = 0 ∧ measure [] c = 1
  end.
Proof.
  intros (He & Hc & Hf & done & pv & Ht & Hp & ->). unfold Get. rewrite Hf, He, Hc. simpl. rewrite Hp.
  destruct pv as [p|]; simpl.
  - exists (Some (song_of p)). eexists. split; [done|]. unfold measure. simpl. rewrite He, Hp. split; [|done].
    split_and!; [done|done|done|]. exists (done ++ [p]), None. split_and!; [by rewrite Ht, app_nil_r|done|].
    by rewrite fmap_app.
  - exists None. eexists. split; [done|]. rewrite Ht. simpl. rewrite app_nil_r. split; [done|].
    destruct c; simpl in *. unfold set_songs. simpl. congruence.
Qed.

Lemma cue_finish_ok D c done pv cu s : sim done pv cu c s → D = song_of <$> done →
  answer D 2 s (c ← Finish c; '(song, c) ← Get c; Some (song, [], c)).
Proof.
  intros [H _] ->. destruct (Commit_mid _ _ _ _ _ H) as (c1 & fin & pv' & Hc & H1). unfold Finish.
  rewrite (m_end _ _ _ _ _ _ H), Hc. cbn [mbind option_bind].
  destruct H1 as [Ht Hs Hh Hf Hfin Hp Hcur Htag Hd He]. destruct fin as [t|].
  - assert (Get (set_end c1) = Some (Some (song_of t), set_songs (current c1) (previous c1) None (set_end c1))) as ->.
    { unfold Get. simpl. rewrite bool_decide_eq_false_2 by (by rewrite Hfin). simpl. by rewrite Hfin. }
    eexists (Some _), [], _. split; [done|]. split.
    + right. split; [done|]. split_and!; try done. exists (done ++ [t]), pv'.
      split_and!; [|done|by rewrite fmap_app]. rewrite Ht. simpl. by rewrite app_nil_r, <-app_assoc.
    + unfold measure. simpl. rewrite Hp. destruct pv'; simpl; lia.
  - assert (Hend : ended (song_of <$> done) (set_end c1) s).
    { split_and!; try done. exists done, pv'. split_and!; try done. rewrite Ht. simpl. by rewrite app_nil_r. }
    destruct (ended_Get _ _ _ Hend) as (song & c' & -> & Hsong). eexists song, [], c'. split; [done|].
    destruct song as [song|]; [|by destruct Hsong]. destruct Hsong as (He' & Hm & _). split; [by right|]. lia.
Qed.

Lemma feed_lines_ok lines : ∀ D c S, reading D lines c S → answer D (length lines + 2) S (feed_lines mask lines c).
Proof.
  induction lines as [|line lines IH]; intros D c S (cmds & done & pv & cu & s & Hl & Hsim & HS & HD).
  { apply Forall2_nil_inv_l in Hl as ->. simpl in HS. subst S. simpl. by eapply cue_finish_ok. }
  apply Forall2_cons_inv_l in Hl as (cmd & cmds' & [Hb Hr] & Hl & ->). simpl in HS.
  destruct (Feed_ok _ _ _ _ _ _ _ Hsim Hb Hr) as (c1 & fin & pv' & cu' & Hfeed & Hm & Ho).
  destruct (Get_mid _ _ _ _ _ _ Hm) as (c2 & Hget & Hm2).
  assert (Hread : reading ((song_of <$> done) ++ opt (song_of <$> fin)) lines c2 S).
  { exists cmds', (done ++ opt fin), pv', cu', (step mask s cmd). split_and!; [done|done|done|].
    rewrite fmap_app. by destruct fin. }
  simpl. rewrite Hfeed. cbn [mbind option_bind]. rewrite Hget. cbn [mbind option_bind].
  rewrite HD. destruct fin as [t|]; cbn [fmap option_fmap option_map].
  - eexists (Some _), lines, c2. split; [done|]. split; [by left|]. unfold measure.
    rewrite (m_end _ _ _ _ _ _ Hm2). lia.
  - simpl in Hread. rewrite app_nil_r in Hread. destruct (IH _ _ _ Hread) as (song & l & c' & Hf & Hs).
    exists song, l, c'. split; [exact Hf|]. destruct song; [|done]. destruct Hs. split; [done|lia].
Qed.

Lemma NextSong_ok D lines c S : reading D lines c S ∨ lines = [] ∧ ended D c S →
  answer D (measure lines c) S (NextSong mask lines c).
Proof.
  intros [H|[-> H]]; unfold NextSong.
  - pose proof H as (cmds & done & pv & cu & s & Hl & [Hm Ho] & HS & HD).
    destruct (Get_mid _ _ _ _ _ _ Hm) as (c' & -> & Hm'). cbn [fmap option_fmap option_map mbind option_bind].
    unfold measure. rewrite (m_end _ _ _ _ _ _ Hm). apply feed_lines_ok.
    exists cmds, done, pv, cu, s. simpl in Hm'. rewrite app_nil_r in Hm'. by split_and!.
  - destruct (ended_Get _ _ _ H) as (song & c' & -> & Hs). cbn [mbind option_bind]. destruct song as [song|].
    + destruct Hs as (He & Hm & Hm'). eexists _, _, _. split; [done|]. split; [by right|lia].
    + destruct Hs as [Hs ->]. simpl. unfold Finish. destruct H as (He & Hc & Hf & Hx). rewrite He.
      cbn [mbind option_bind]. destruct (ended_Get D c S) as (song & c' & -> & Hs'); [by split_and!|].
      cbn [mbind option_bind]. eexists _, _, _. split; [done|]. destruct song as [song|]; [|by destruct Hs'].
      destruct Hs' as (He' & Hm & Hm'). split; [by right|lia].
Qed.

Lemma all_songs_loop_ok fuel : ∀ D lines c S, reading D lines c S ∨ lines = [] ∧ ended D c S →
  measure lines c < fuel → ∃ l, all_songs_loop mask fuel lines c = Some l ∧ D ++ l = song_of <$> s_tracks S.
Proof.
  induction fuel as [|fuel IH]; intros D lines c S H Hf; [lia|]. simpl.
  destruct (NextSong_ok D lines c S H) as (song & lines' & c' & -> & Hs). cbn [mbind option_bind].
  destruct song as [song|].
  - destruct Hs as [Hs Hm]. destruct (IH _ _ _ _ Hs) as (l & -> & Hl); [lia|]. cbn [mbind option_bind].
    exists (song :: l). split; [done|]. by rewrite <-Hl, <-app_assoc.
  - exists []. split; [done|]. by rewrite app_nil_r, Hs.
Qed.

(** The CUE parser.  On any lines that have their arguments, the enumerator stops, fails
    no assertion, reads nothing outside of a line and uses no song it does not have; and the
    songs it delivers one by one are those of the specification, which keeps all tracks. *)
Theorem cue_playlist_correct lines cmds : Forall2 reads lines cmds →
  all_songs mask lines = Some (song_of <$> s_tracks (foldl (step mask) new_sheet cmds)).
Proof.
  intros Hl. unfold all_songs.
  destruct (all_songs_loop_ok (length lines + 3) [] lines new_parser (foldl (step mask) new_sheet cmds)) as (l & -> & Hs).
  - left. exists cmds, [], None, None, new_sheet. by split_and!.
  - unfold measure. simpl. lia.
  - by rewrite <-Hs.
Qed.

End Lines.

Lemma cue_playlist_correct_witness :
  all_songs default_tag_mask [str "FILE x MP3"; str "TRACK 7 AUDIO"; str "REM GENRE pop"; str "INDEX 01 1:00:00"] =
  Some [Song.mkSong (str "x") [] (mkTag Negative false [mkTagItem TAG_TRACK (str "7"); mkTagItem TAG_GENRE (str "pop")])
    0 60000 0].
Proof.
  rewrite (cue_playlist_correct default_tag_mask _
    [File (str "x") true; Track (str "7") true; Rem TAG_GENRE (str "pop"); Index true 60000]).
  - vm_compute. reflexivity.
  - assert (Hb : ∀ l, forallb (λ c, (0 <=? c) && (c <? 256))%Z l = true → Forall is_byte l).
    { intros l Hl. apply Forall_forall. rewrite forallb_forall in Hl. intros c Hc%list_elem_of_In%Hl. unfold is_byte. lia. }
    repeat (constructor; [split; [by apply Hb|vm_compute; reflexivity]|]). constructor.
Defined.

End CueProps.

(** ** Sheets as they are written *)

Module CueSheet.
Import CString Decimal Tag CueParser CueProps.

(** Times in a sheet are counted in frames of 1/75 second. *)
Record cue_track := mkCueTrack { number : list Z; title : list Z; performer : list Z; index : Z }.
Record cue_file := mkCueFile { name : list Z; tracks : list cue_track }.
Record cue_sheet := mkCueSheet { artist : list Z; album : list Z; files : list cue_file }.

(** *** Printing *)

Definition quoted (v : list Z) : list Z := 34%Z :: v ++ [34%Z].

Definition two_digits (n : Z) : list Z := [48 + n / 10; 48 + n mod 10]%Z.

Definition print_position (f : Z) : list Z :=
  print_unsigned (f / 4500) ++ 58%Z :: two_digits (f / 75 mod 60) ++ 58%Z :: two_digits (f mod 75).

Definition print_track (t : cue_track) : list (list Z) :=
  [str "  TRACK " ++ number t ++ str " AUDIO";
   str "    TITLE " ++ quoted (title t);
   str "    PERFORMER " ++ quoted (performer t);
   str "    INDEX 01 " ++ print_position (index t)].

Definition print_file (f : cue_file) : list (list Z) :=
  (str "FILE " ++ quoted (name f) ++ str " WAVE") :: concat (print_track <$> tracks f).

Definition print_sheet (s : cue_sheet) : list (list Z) :=
  [str "PERFORMER " ++ quoted (artist s); str "TITLE " ++ quoted (album s)] ++ concat (print_file <$> files s).

(** *** The songs *)

Definition ms (f : Z) : Z := (f * 1000 / 75)%Z.

Definition song_tag (s : cue_sheet) (t : cue_track) : Tag :=
  mkTag Negative false
    [mkTagItem TAG_ALBUM_ARTIST (artist s); mkTagItem TAG_ALBUM (album s); mkTagItem TAG_TRACK (number t);
     mkTagItem TAG_TITLE (title t); mkTagItem TAG_ARTIST (performer t)].

(** The tracks in their order, with the files they are in. *)
Definition all_tracks (s : cue_sheet) : list (list Z * cue_track) :=
  concat ((λ f, pair (name f) <$> tracks f) <$> files s).

(** A song ends where the next track begins, if that is later. *)
Definition end_of (t : cue_track) (next : list (list Z * cue_track)) : Z :=
  match next with
  | [] => 0%Z
  | (_, u) :: _ => if (ms (index t) <? ms (index u))%Z then ms (index u) else 0%Z
  end.

Fixpoint track_songs (s : cue_sheet) (l : list (list Z * cue_track)) : list Song.DetachedSong :=
  match l with
  | [] => []
  | (n, t) :: l => Song.mkSong n [] (song_tag s t) 0 (ms (index t)) (end_of t l) :: track_songs s l
  end.

(** *** Conditions *)

(** A value that is stored as it is. *)
Definition value_ok (v : list Z) : Prop :=
  Forall is_byte v ∧ (UTF8.lenient_utf8 v ∧ Forall (λ c, 0x20 ≤ c)%Z v) ∧ v ≠ [].
Definition text_ok (v : list Z) : Prop := value_ok v ∧ 34%Z ∉ v.
Definition word_ok (v : list Z) : Prop := value_ok v ∧ Forall (λ c, Tokenizer.IsWhitespaceOrNull c = false) v.

Definition track_ok (t : cue_track) : Prop :=
  word_ok (number t) ∧ text_ok (title t) ∧ text_ok (performer t) ∧ (0 ≤ index t ∧ ms (index t) < 2 ^ 31)%Z.
Definition file_ok (f : cue_file) : Prop :=
  Forall is_byte (name f) ∧ 34%Z ∉ name f ∧ Forall track_ok (tracks f).
Definition sheet_ok (s : cue_sheet) : Prop :=
  text_ok (artist s) ∧ text_ok (album s) ∧ Forall file_ok (files s).

Lemma value_clean v : value_ok v → TagString.clean v.
Proof.
  intros (Hb & [Hu Hc] & _). split; [by apply UTF8.lenient_iff|by apply TagString.printable_forall].
Qed.

Lemma ascii_value v : bool_decide (Forall (λ c, 32 ≤ c < 127)%Z v ∧ v ≠ []) = true → value_ok v.
Proof.
  intros [Hv Hne]%bool_decide_eq_true_1. split_and!; [| | |done].
  - eapply Forall_impl; [exact Hv|]. unfold is_byte. simpl. lia.
  - clear Hne. induction Hv as [|c v Hc Hv IH]; [constructor|].
    apply (UTF8.lenient_app [c]); [apply UTF8.lenient_1; lia|done].
  - eapply Forall_impl; [exact Hv|]. simpl. lia.
Qed.

(** *** Reading the lines *)

Lemma next_word_end w : Forall (λ c, Tokenizer.IsWhitespaceOrNull c = false) w → cue_next_word w = (w, None).
Proof. induction 1 as [|c w Hc Hw IH]; [done|]. simpl. by rewrite Hc, IH. Qed.

Lemma next_word_space w rest : Forall (λ c, Tokenizer.IsWhitespaceOrNull c = false) w →
  cue_next_word (w ++ 32%Z :: rest) = (w, Some rest).
Proof. induction 1 as [|c w Hc Hw IH]; [done|]. simpl. by rewrite Hc, IH. Qed.

Lemma strip_word c w : Tokenizer.IsWhitespaceOrNull c = false →
  Tokenizer.strip (c :: w) = c :: w ∧ (first (c :: w) =? 0)%Z = false.
Proof.
  unfold Tokenizer.IsWhitespaceOrNull. intros Hc. unfold first. simpl. unfold Tokenizer.IsWhitespaceNotNull.
  rewrite Hc, andb_false_r. split; [done|]. lia.
Qed.

Lemma token_word w rest : w ≠ [] → Forall (λ c, Tokenizer.IsWhitespaceOrNull c = false) w →
  token (Some (w ++ 32%Z :: rest)) = Some (w, Some rest) ∧ token (Some w) = Some (w, None).
Proof.
  intros Hne Hw. destruct w as [|c w]; [done|]. pose proof (Forall_inv Hw) as Hc. unfold token, cue_next_token.
  cbn [mbind option_bind app]. destruct (strip_word c (w ++ 32%Z :: rest) Hc) as [-> ->].
  destruct (strip_word c w Hc) as [-> ->].
  change (c :: w ++ 32%Z :: rest) with ((c :: w) ++ 32%Z :: rest). by rewrite next_word_space, next_word_end.
Qed.

Lemma value_quoted v rest : 34%Z ∉ v → cue_next_value (Some (quoted v ++ rest)) = Some (Some v, Some rest).
Proof.
  intros Hv. unfold cue_next_value, quoted. cbn [mbind option_bind app]. cbn [Tokenizer.strip].
  change (Tokenizer.IsWhitespaceNotNull 34) with false. cbn iota. change (first (34%Z :: _)) with 34%Z.
  change (34 =? 0)%Z with false. change (34 =? 34)%Z with true. cbn iota. cbn [drop]. rewrite drop_0. unfold cue_next_quoted. rewrite <-app_assoc.
  change ([34%Z] ++ rest) with (34%Z :: rest). rewrite strchr_app by done.
  rewrite take_app_length. f_equal. f_equal. f_equal. replace (S (length v)) with (length v + 1) by lia.
  by rewrite <-drop_drop, drop_app_length.
Qed.

Lemma value_quoted_end v : 34%Z ∉ v → cue_next_value (Some (quoted v)) = Some (Some v, Some []).
Proof. intros Hv. by rewrite <-(app_nil_r (quoted v)), value_quoted. Qed.

(** *** Positions *)

Lemma strtoul_digits ds rest : ds ≠ [] → Forall (λ c, isdigit c = true) ds → isdigit (first rest) = false →
  (digits_value ds ≤ ULONG_MAX)%Z → strtoul (ds ++ rest) = (digits_value ds, length ds).
Proof.
  intros Hne Hds Hr Hv. unfold strtoul. rewrite scan_digits by done. destruct ds as [|c ds]; [done|].
  by rewrite (proj2 (Z.ltb_ge _ _)) by lia.
Qed.

Lemma two_digits_ok n rest : (0 ≤ n < 100)%Z → isdigit (first rest) = false →
  strtoul (two_digits n ++ rest) = (n, 2).
Proof.
  intros Hn Hr. assert (Hv : digits_value (two_digits n) = n).
  { unfold two_digits, digits_value. cbn [foldl]. pose proof (Z.div_mod n 10). lia. }
  rewrite strtoul_digits; [by rewrite Hv|done| |done|rewrite Hv; unfold ULONG_MAX; lia].
  assert (0 ≤ n / 10 < 10)%Z by (split; [apply Z.div_pos|apply Z.div_lt_upper_bound]; lia).
  pose proof (Z.mod_pos_bound n 10 ltac:(lia)). unfold two_digits, isdigit. repeat constructor; lia.
Qed.

Lemma drop_sep (a b : list Z) c : first (drop (length a) (a ++ c :: b)) = c ∧ drop (S (length a)) (a ++ c :: b) = b.
Proof.
  rewrite drop_app_length. split; [done|]. by rewrite <-Nat.add_1_r, <-drop_drop, drop_app_length.
Qed.

Lemma position_ok f : (0 ≤ f)%Z → (ms f < 2 ^ 31)%Z → cue_parse_position (print_position f) = ms f.
Proof.
  intros Hf Hms. assert (Hf' : (f < 2 ^ 31)%Z).
  { unfold ms in Hms. destruct (Z.lt_ge_cases f (2 ^ 31)); [done|].
    assert (2 ^ 31 ≤ f * 1000 / 75)%Z by (apply Z.div_le_lower_bound; lia). lia. }
  pose proof (Z.div_mod f 75 ltac:(lia)). pose proof (Z.mod_pos_bound f 75 ltac:(lia)).
  pose proof (Z.mod_pos_bound (f / 75) 60 ltac:(lia)). pose proof (Z.div_mod (f / 75) 60 ltac:(lia)).
  assert (Hm : (f / 4500 = f / 75 / 60)%Z) by (by rewrite Z.div_div by lia).
  set (m := (f / 4500)%Z) in *. set (s := (f / 75 mod 60)%Z) in *. set (r := (f mod 75)%Z) in *.
  assert (0 ≤ m < 2 ^ 31)%Z by lia.
  assert (E1 : strtoul (print_position f) = (m, length (print_unsigned m))).
  { unfold print_position. apply print_unsigned_ok; [unfold ULONG_MAX; lia|done]. }
  pose proof (two_digits_ok s (58%Z :: two_digits r) ltac:(lia) eq_refl) as E2.
  pose proof (two_digits_ok r [] ltac:(lia) eq_refl) as E3. rewrite app_nil_r in E3.
  destruct (print_unsigned_digits m) as [_ Hne]; [unfold ULONG_MAX; lia|].
  destruct (drop_sep (print_unsigned m) (two_digits s ++ 58%Z :: two_digits r) 58) as [F1 D1].
  destruct (drop_sep (two_digits s) (two_digits r) 58) as [F2 D2].
  assert (Hl : (length (print_unsigned m) =? 0) = false) by (apply Nat.eqb_neq; by destruct (print_unsigned m)).
  unfold cue_parse_position. rewrite E1, Hl. unfold print_position. fold m s r. rewrite F1, D1, E2.
  change 2 with (length (two_digits s)). rewrite F2, D2. change (length (two_digits s)) with 2.
  rewrite E3. change (first (drop 2 (two_digits r))) with 0%Z. cbn [Nat.eqb orb Z.eqb Pos.eqb negb].
  assert (Hr : (0 ≤ r * 1000 / 75 < 1000)%Z) by (split; [apply Z.div_pos|apply Z.div_lt_upper_bound]; lia).
  assert (Hval : (m * 60000 + s * 1000 + r * 1000 / 75 = ms f)%Z).
  { unfold ms. replace (f * 1000)%Z with (r * 1000 + (m * 60 + s) * 1000 * 75)%Z by lia.
    rewrite Z.div_add by lia. lia. }
  unfold Samples.to_unsigned. rewrite (Z.mod_small (m * 60000)), (Z.mod_small (s * 1000)), (Z.mod_small (r * 1000)),
    (Z.mod_small (m * 60000 + s * 1000)) by lia.
  rewrite Hval, Z.mod_small by lia. apply Numbers.to_signed_small; lia.
Qed.

(** *** The commands of a sheet *)

Definition track_cmds (t : cue_track) : list command :=
  [Track (number t) true; Title (title t); Performer (performer t); Index true (ms (index t))].
Definition file_cmds (f : cue_file) : list command := File (name f) true :: concat (track_cmds <$> tracks f).
Definition sheet_cmds (s : cue_sheet) : list command :=
  [Performer (artist s); Title (album s)] ++ concat (file_cmds <$> files s).

Lemma read_title x : read_line (str "TITLE " ++ x) = value_command Title (Some x) ∧
  read_line (str "    TITLE " ++ x) = value_command Title (Some x).
Proof. by split. Qed.

Lemma read_performer x : read_line (str "PERFORMER " ++ x) = value_command Performer (Some x) ∧
  read_line (str "    PERFORMER " ++ x) = value_command Performer (Some x).
Proof. by split. Qed.

Lemma read_file x : read_line (str "FILE " ++ x) =
  ('(name, pp) ← cue_next_value (Some x); name ← name; '(type, _) ← token pp; Some (File name (file_type_known type))).
Proof. done. Qed.

Lemma read_track x : read_line (str "  TRACK " ++ x) =
  ('(nr, pp) ← token (Some x); '(type, _) ← token pp; Some (Track nr (streq type (str "AUDIO")))).
Proof. done. Qed.

Lemma read_index x : read_line (str "    INDEX 01 " ++ x) =
  ('(position, _) ← token (Some x); Some (Index true (cue_parse_position position))).
Proof. done. Qed.

Lemma value_quoted_command f v : 34%Z ∉ v → value_command f (Some (quoted v)) = Some (f v).
Proof. intros Hv. unfold value_command. by rewrite value_quoted_end. Qed.

Lemma literal_bytes (p : string) v : forallb (λ c, (0 <=? c) && (c <? 256))%Z (str p) = true → Forall is_byte v →
  Forall is_byte (str p ++ v).
Proof.
  intros Hp Hv. apply Forall_app_2; [|done]. apply Forall_forall. rewrite forallb_forall in Hp.
  intros c Hc%list_elem_of_In%Hp. unfold is_byte. lia.
Qed.

Lemma quoted_bytes v : Forall is_byte v → Forall is_byte (quoted v).
Proof. intros Hv. constructor; [done|]. apply Forall_app_2; [done|]. by apply Forall_singleton. Qed.

Lemma position_chars f : (0 ≤ f < 2 ^ 31)%Z →
  Forall is_byte (print_position f) ∧ print_position f ≠ [] ∧
  Forall (λ c, Tokenizer.IsWhitespaceOrNull c = false) (print_position f).
Proof.
  intros Hf. destruct (print_unsigned_digits (f / 4500)) as [Hd Hne].
  { split; [apply Z.div_pos; lia|]. unfold ULONG_MAX. assert (f / 4500 ≤ f)%Z by (apply Z.div_le_upper_bound; lia). lia. }
  assert (Htwo : ∀ n, (0 ≤ n < 100)%Z → Forall (λ c, isdigit c = true) (two_digits n)).
  { intros n Hn. assert (0 ≤ n / 10 < 10)%Z by (split; [apply Z.div_pos|apply Z.div_lt_upper_bound]; lia).
    pose proof (Z.mod_pos_bound n 10 ltac:(lia)). unfold two_digits, isdigit. repeat constructor; lia. }
  pose proof (Htwo (f / 75 mod 60)%Z ltac:(pose proof (Z.mod_pos_bound (f / 75) 60); lia)) as H2.
  pose proof (Htwo (f mod 75)%Z ltac:(pose proof (Z.mod_pos_bound f 75); lia)) as H3.
  assert (Hall : Forall (λ c, (48 ≤ c ≤ 58)%Z) (print_position f)).
  { unfold print_position, isdigit in *. apply Forall_app_2; [eapply Forall_impl; [exact Hd|]; simpl; lia|].
    constructor; [lia|]. apply Forall_app_2; [eapply Forall_impl; [exact H2|]; simpl; lia|].
    constructor; [lia|]. eapply Forall_impl; [exact H3|]; simpl; lia. }
  split_and!.
  - eapply Forall_impl; [exact Hall|]. unfold is_byte. simpl. lia.
  - unfold print_position. by destruct (print_unsigned _).
  - eapply Forall_impl; [exact Hall|]. unfold Tokenizer.IsWhitespaceOrNull. simpl. lia.
Qed.

Lemma ms_small f : (ms f < 2 ^ 31)%Z → (f < 2 ^ 31)%Z.
Proof.
  intros Hms. unfold ms in Hms. destruct (Z.lt_ge_cases f (2 ^ 31)); [done|].
  assert (2 ^ 31 ≤ f * 1000 / 75)%Z by (apply Z.div_le_lower_bound; lia). lia.
Qed.

Lemma print_track_ok t : track_ok t → Forall2 reads (print_track t) (track_cmds t).
Proof.
  intros (((Hnb & _ & Hnne) & Hnw) & ((Htb & _) & Htq) & ((Hpb & _) & Hpq) & Hi & Hms).
  pose proof (ms_small _ Hms). destruct (position_chars (index t)) as (Hxb & Hxne & Hxw); [lia|].
  unfold print_track, track_cmds.
  apply Forall2_cons_2; [|apply Forall2_cons_2; [|apply Forall2_cons_2; [|apply Forall2_cons_2; [|done]]]]; split.
  - apply literal_bytes; [done|]. apply Forall_app_2; [done|]. rewrite <-(app_nil_r (str _)); by apply literal_bytes.
  - rewrite read_track. change (number t ++ str " AUDIO") with (number t ++ 32%Z :: str "AUDIO").
    destruct (token_word (number t) (str "AUDIO") Hnne Hnw) as [-> _]. done.
  - apply literal_bytes; [done|]. by apply quoted_bytes.
  - destruct (read_title (quoted (title t))) as [_ ->]. by apply value_quoted_command.
  - apply literal_bytes; [done|]. by apply quoted_bytes.
  - destruct (read_performer (quoted (performer t))) as [_ ->]. by apply value_quoted_command.
  - by apply literal_bytes.
  - rewrite read_index. destruct (token_word (print_position (index t)) [] Hxne Hxw) as [_ ->].
    cbn [mbind option_bind]. by rewrite position_ok.
Qed.

Lemma print_file_ok f : file_ok f → Forall2 reads (print_file f) (file_cmds f).
Proof.
  intros (Hb & Hq & Ht). unfold print_file, file_cmds. apply Forall2_cons_2.
  - split; [|rewrite read_file, value_quoted by done; done]. apply literal_bytes; [done|].
    apply Forall_app_2; [by apply quoted_bytes|]. rewrite <-(app_nil_r (str _)); by apply literal_bytes.
  - induction Ht as [|t ts Ht Hts IH]; [done|]. cbn [fmap list_fmap concat]. apply Forall2_app; [|done].
    by apply print_track_ok.
Qed.

Lemma print_sheet_ok s : sheet_ok s → Forall2 reads (print_sheet s) (sheet_cmds s).
Proof.
  intros (((Hab & _) & Haq) & ((Htb & _) & Htq) & Hf). unfold print_sheet, sheet_cmds.
  apply Forall2_cons_2; [|apply Forall2_cons_2].
  - split; [apply literal_bytes; [done|]; by apply quoted_bytes|].
    destruct (read_performer (quoted (artist s))) as [-> _]. by apply value_quoted_command.
  - split; [apply literal_bytes; [done|]; by apply quoted_bytes|].
    destruct (read_title (quoted (album s))) as [-> _]. by apply value_quoted_command.
  - induction Hf as [|f fs Hf Hfs IH]; [done|]. cbn [fmap list_fmap concat]. apply Forall2_app; [|done].
    by apply print_file_ok.
Qed.

(** *** The sheet they make *)

Section Sheet.
Context (mask : Z) (s : cue_sheet).

(** The types of a sheet are enabled. *)
Definition enabled : Prop :=
  Forall (λ ty, IsTagEnabled mask ty = true) [TAG_ALBUM_ARTIST; TAG_ALBUM; TAG_TRACK; TAG_TITLE; TAG_ARTIST].

Lemma add_value_ok ty v b : value_ok v → IsTagEnabled mask ty = true →
  add_value mask ty v b = TagBuilder.push (mkTagItem ty v) b.
Proof.
  intros Hv He. pose proof (value_clean v Hv) as Hc. destruct Hv as (Hb & _ & Hne). unfold add_value. rewrite He. destruct v as [|c v]; [done|]. cbn [length Nat.eqb orb negb].
  destruct (TagString.FixTagString_total _ Hb) as (r & -> & _ & _ & _ & Hr & _).
  rewrite (proj2 Hr Hc). done.
Qed.

Definition header : TagBuilder.TagBuilder :=
  TagBuilder.mkTagBuilder Negative false [mkTagItem TAG_ALBUM_ARTIST (artist s); mkTagItem TAG_ALBUM (album s)].

Definition track_of (n : list Z) (t : cue_track) (end_ : Z) : track :=
  mkTrack n (TagBuilder.of_tag (song_tag s t)) (ms (index t)) end_.

Fixpoint tracks_of (l : list (list Z * cue_track)) : list track :=
  match l with
  | [] => []
  | (n, t) :: l => track_of n t (end_of t l) :: tracks_of l
  end.

Lemma tracks_songs l : song_of <$> tracks_of l = track_songs s l.
Proof. induction l as [|[n t] l IH]; [done|]. simpl. f_equal. apply IH. Qed.

Lemma tracks_of_snoc l n t :
  tracks_of (l ++ [(n, t)]) = with_last (end_at (ms (index t))) (tracks_of l) ++ [track_of n t 0].
Proof.
  assert (Hcons : ∀ f (x y : track) k, with_last f (x :: y :: k) = x :: with_last f (y :: k)).
  { intros f x y k. unfold with_last. rewrite reverse_cons.
    destruct (reverse (y :: k)) as [|z r] eqn:E; [by rewrite reverse_cons in E; destruct (reverse k)|]. simpl.
    by rewrite !reverse_cons, reverse_app. }
  induction l as [|[m u] l IH]; [done|]. destruct l as [|[m' u'] l].
  - simpl. unfold with_last, end_at. simpl. by destruct (_ <? _)%Z.
  - change (tracks_of (((m, u) :: (m', u') :: l) ++ [(n, t)])) with
      (track_of m u (end_of u ((m', u') :: l)) :: tracks_of (((m', u') :: l) ++ [(n, t)])).
    rewrite IH. cbn [tracks_of]. by rewrite Hcons.
Qed.

Lemma with_last_snoc f (l : list track) x : with_last f (l ++ [x]) = l ++ [f x].
Proof. unfold with_last. rewrite reverse_app. simpl. by rewrite reverse_cons, reverse_involutive. Qed.

Lemma index_tracks_snoc pos l x : index_tracks pos (l ++ [x]) = with_last (end_at pos) l ++ [start_at pos x].
Proof.
  unfold index_tracks, with_last. rewrite reverse_app. simpl. destruct (reverse l) as [|y r] eqn:E; simpl.
  - done.
  - by rewrite !reverse_cons.
Qed.

Hypothesis Hen : enabled.

Lemma enabled_at ty : ty ∈ [TAG_ALBUM_ARTIST; TAG_ALBUM; TAG_TRACK; TAG_TITLE; TAG_ARTIST] → IsTagEnabled mask ty = true.
Proof. revert ty. by apply Forall_forall. Qed.

(** The commands of one track. *)
Lemma step_track h n l st nr : st ≠ IGNORE_FILE →
  step mask (mkSheet st h n l) (Track nr true) = mkSheet TRACK h n (l ++ [mkTrack n (add_value mask TAG_TRACK nr h) 0 0]).
Proof. intros Hst. unfold step. cbn [s_state]. by rewrite bool_decide_eq_false_2. Qed.

Lemma step_value h n l x ty v :
  add_tag mask TAG_NAME ty v (mkSheet TRACK h n (l ++ [x])) =
  mkSheet TRACK h n (l ++ [set_tag (add_value mask ty v) x]).
Proof. unfold add_tag. cbn [s_state s_header s_file s_tracks]. by rewrite with_last_snoc. Qed.

Lemma step_index h n l x pos : (0 ≤ pos)%Z →
  step mask (mkSheet TRACK h n (l ++ [x])) (Index true pos) =
  mkSheet IGNORE_TRACK h n (with_last (end_at pos) l ++ [start_at pos x]).
Proof.
  intros Hpos. unfold step. cbn [s_state s_header s_file s_tracks]. rewrite bool_decide_eq_true_2 by done.
  rewrite (proj2 (Z.leb_le _ _)) by done. by rewrite index_tracks_snoc.
Qed.

Lemma track_step t n l st : track_ok t → st ≠ IGNORE_FILE →
  foldl (step mask) (mkSheet st header n (tracks_of l)) (track_cmds t) =
  mkSheet IGNORE_TRACK header n (tracks_of (l ++ [(n, t)])).
Proof.
  intros ((Hn & _) & (Ht & _) & (Hp & _) & Hi & Hms) Hst. unfold track_cmds. cbn [foldl].
  rewrite tracks_of_snoc, step_track by done.
  change (step mask ?s (Title ?v)) with (add_tag mask TAG_NAME TAG_TITLE v s). rewrite step_value.
  change (step mask ?s (Performer ?v)) with (add_tag mask TAG_NAME TAG_ARTIST v s). rewrite step_value.
  rewrite step_index by (apply Z.div_pos; lia). unfold set_tag. cbn [t_file t_tag t_start t_end].
  rewrite !add_value_ok by (done || apply enabled_at; set_solver). done.
Qed.

Lemma tracks_step ts : ∀ l n st, Forall track_ok ts → st ≠ IGNORE_FILE →
  ∃ st', st' ≠ IGNORE_FILE ∧ foldl (step mask) (mkSheet st header n (tracks_of l)) (concat (track_cmds <$> ts)) =
    mkSheet st' header n (tracks_of (l ++ (pair n <$> ts))).
Proof.
  induction ts as [|t ts IH]; intros l n st Hts Hst.
  - exists st. by rewrite app_nil_r.
  - apply Forall_cons in Hts as [Ht Hts]. destruct (IH (l ++ [(n, t)]) n IGNORE_TRACK Hts) as (st' & Hst' & E); [done|].
    exists st'. split; [done|]. cbn [fmap list_fmap concat]. rewrite foldl_app, track_step by done.
    by rewrite E, <-app_assoc.
Qed.

Lemma files_step fs : ∀ l st n, Forall file_ok fs →
  s_tracks (foldl (step mask) (mkSheet st header n (tracks_of l)) (concat (file_cmds <$> fs))) =
  tracks_of (l ++ concat ((λ f, pair (name f) <$> tracks f) <$> fs)).
Proof.
  induction fs as [|f fs IH]; intros l st n Hfs.
  - by rewrite app_nil_r.
  - apply Forall_cons in Hfs as [(_ & _ & Hts) Hfs]. cbn [fmap list_fmap concat]. rewrite foldl_app.
    change (foldl (step mask) (mkSheet st header n (tracks_of l)) (file_cmds f)) with
      (foldl (step mask) (mkSheet WAVE header (name f) (tracks_of l)) (concat (track_cmds <$> tracks f))).
    destruct (tracks_step (tracks f) l (name f) WAVE Hts) as (st' & _ & ->); [done|].
    rewrite IH by done. by rewrite <-app_assoc.
Qed.

End Sheet.


(** Two tracks in one file. *)
Definition example_sheet : cue_sheet :=
  mkCueSheet (str "Artist") (str "Album")
    [mkCueFile (str "cd.wav") [mkCueTrack (str "01") (str "One") (str "A") 0; mkCueTrack (str "02") (str "Two") (str "B") 13537]].


End CueSheet.

(** ** Sheets on which the parser fails *)

Module CueFindings.
Import CString Tag CueParser.

#[local] Abbreviation parse := (all_songs default_tag_mask).

(** A command without its argument: the pointer has moved behind the terminator. *)
Example rem_reads_behind_line : parse [str "REM"] = None.
Proof. reflexivity. Qed.

(** With a space behind it nothing is read too far; but the track that was open has been
    closed, and the state has not been changed: the index is for a song that is not there. *)
Example index_without_song :
  parse [str "FILE x MP3"; str "TRACK 1 AUDIO"; str "TRACK "; str "INDEX 01 0:00:00"] = None ∧
  is_Some (parse [str "FILE x MP3"; str "TRACK 1 AUDIO"; str "TRACK "]).
Proof. split; [reflexivity|by eexists]. Qed.

(** The first index of a file ends the last song of the file before it. *)
Example end_in_other_file :
  (λ s, (Song.uri s, Song.start_time s, Song.end_time s)) <$>
    default [] (parse [str "FILE a.mp3 MP3"; str "TRACK 1 AUDIO"; str "INDEX 01 0:00:00";
                       str "FILE b.mp3 MP3"; str "TRACK 2 AUDIO"; str "INDEX 01 0:02:00"]) =
  [(str "a.mp3", 0, 2000); (str "b.mp3", 2000, 0)]%Z.
Proof. reflexivity. Qed.

End CueFindings.
