(* ===== verification/Icy.v ===== *)
(** * ICY metadata

    [IcyMetaDataParser.cxx] and [input/IcyInputStream.cxx]: a radio stream carries a block
    of metadata behind every [data_size] bytes.  The parser removes these blocks from the
    buffers of a reader, in place, wherever the buffers are cut, and keeps the last tag. *)

From Stdlib Require Import ZArith Lia ZifyBool.
From stdpp Require Import base numbers sets strings list.
From S2P Require Import Prelude CString TagString Tag Tokenizer TextIO.

Set Default Goal Selector "!".

Module Icy.
Import CString Tag.

(** ** The text of a metadata block *)

Definition icy_add_item (global_tag_mask : Z) (tag : TagBuilder.TagBuilder) (type : TagType) (value : list Z)
    : option TagBuilder.TagBuilder :=
  let n := length value in
  let value := if (2 <=? n) && (first value =? 39)%Z && (default 0 (last value) =? 39)%Z
               then take (n - 2) (drop 1 value) else value in
  if 0 <? length value then TagBuilder.AddItem global_tag_mask type value tag else Some tag.

Definition icy_parse_tag_item (global_tag_mask : Z) (tag : TagBuilder.TagBuilder) (name value : list Z)
    : option TagBuilder.TagBuilder :=
  if streq name (str "StreamTitle") then icy_add_item global_tag_mask tag TAG_TITLE value else Some tag.

(** The quote at [i], when a semicolon or the end follows. *)
Definition is_end_quote (p : list Z) (i : nat) : bool :=
  (length p - 1 <=? i) || bool_decide (p !! S i = Some 59%Z).

(** The loop over the quotes from [i] on. *)
Fixpoint find_end_quote_loop (fuel : nat) (p : list Z) (i fallback : nat) : option nat :=
  match fuel with
  | O => None
  | S fuel =>
      match strchr (drop i p) 39%Z with
      | None => Some fallback
      | Some k => if is_end_quote p (i + k) then Some (i + k) else find_end_quote_loop fuel p (S (i + k)) fallback
      end
  end.

(** The offset of the quote; [None] for [end]. *)
Definition find_end_quote (p : list Z) : option nat :=
  match strchr p 39%Z with
  | None => None
  | Some fallback =>
      if is_end_quote p fallback then Some fallback
      else find_end_quote_loop (length p) p (S fallback) fallback
  end.

Section Text.
(** The enabled tags, and the byte at [end], to which nothing has been written. *)
Context (global_tag_mask : Z) (behind : Z).

(** [None] is a failure: a text in which [end] is passed. *)
Fixpoint icy_parse_tag_loop (fuel : nat) (p : list Z) (tag : TagBuilder.TagBuilder) : option TagBuilder.TagBuilder :=
  match fuel with
  | O => None
  | S fuel =>
      match strchr p 61%Z with
      | None => Some tag
      | Some eq =>
          let name := Tokenizer.until_nul (take eq p) in
          let p := drop (S eq) p in
          if negb (default behind (head p) =? 39)%Z then
            match strchr p 59%Z with
            | None => Some tag
            | Some semicolon => icy_parse_tag_loop fuel (drop (S semicolon) p) tag
            end
          else
            match p with
            | [] => None
            | _ :: p =>
                match find_end_quote p with
                | None => Some tag
                | Some quote =>
                    let value := Tokenizer.until_nul (take quote p) in
                    let p := drop (S quote) p in
                    tag ← icy_parse_tag_item global_tag_mask tag name value;
                    match strchr p 59%Z with
                    | None => Some tag
                    | Some semicolon => icy_parse_tag_loop fuel (drop (S semicolon) p) tag
                    end
                end
            end
      end
  end.

Definition icy_parse_tag (p : list Z) : option Tag :=
  tag ← icy_parse_tag_loop (S (length p)) p TagBuilder.empty;
  Some (TagBuilder.Commit tag).1.

End Text.

(** ** The parser *)

(** A pointer to a tag; [delete] leaves it dangling, and deleting twice is undefined. *)
Inductive tag_pointer := Null | Points (t : Tag) | Dangling.

Definition delete_tag (p : tag_pointer) : option unit :=
  match p with Dangling => None | _ => Some () end.

Record IcyMetaDataParser := mkIcy {
  data_size : nat;
  data_rest : nat;
  meta_size : nat;
  meta_position : nat;
  meta_data : list Z;
  tag : tag_pointer;
}.

Section Parser.
Context (global_tag_mask : Z) `{!TextIO.Heap}.

Definition Start (size : nat) (i : IcyMetaDataParser) : IcyMetaDataParser :=
  mkIcy size size 0 (meta_position i) (meta_data i) Null.

Definition IsDefined (i : IcyMetaDataParser) : bool := 0 <? data_size i.

Definition set_data_rest (n : nat) (i : IcyMetaDataParser) : IcyMetaDataParser :=
  mkIcy (data_size i) n (meta_size i) (meta_position i) (meta_data i) (tag i).

Definition Reset (i : IcyMetaDataParser) : option IcyMetaDataParser :=
  if negb (IsDefined i) then Some i
  else
    _ ← delete_tag (tag i);
    Some (mkIcy (data_size i) (data_size i) 0 (meta_position i) (meta_data i)
            (match tag i with Points _ => Dangling | p => p end)).

Definition Data (n : nat) (i : IcyMetaDataParser) : option (nat * IcyMetaDataParser) :=
  assert! 0 <? n ;;
  if negb (IsDefined i) then Some (n, i)
  else if data_rest i =? 0 then Some (0, i)
  else if data_rest i <=? n then Some (data_rest i, set_data_rest 0 i)
  else Some (n, set_data_rest (data_rest i - n) i).

(** The end of [Meta], from [assert(meta_position < meta_size)] on; [extra] is the byte of
    the size, when this call has read it. *)
Definition Meta_copy (p : list Z) (extra : nat) (i : IcyMetaDataParser) : option (nat * IcyMetaDataParser) :=
  assert! meta_position i <? meta_size i ;;
  let n := if meta_size i - meta_position i <? length p then meta_size i - meta_position i else length p in
  let pos := meta_position i in
  let data := take pos (meta_data i) ++ take n p ++ drop (pos + n) (meta_data i) in
  let i := mkIcy (data_size i) (data_rest i) (meta_size i) (pos + n) data (tag i) in
  if meta_position i =? meta_size i then
    _ ← delete_tag (tag i);
    behind ← meta_data i !! meta_size i;
    t ← icy_parse_tag global_tag_mask behind (take (meta_size i) (meta_data i));
    Some (n + extra, mkIcy (data_size i) (data_size i) 0 (meta_position i) [] (Points t))
  else Some (n + extra, i).

(** The bytes are those from the pointer on. *)
Definition Meta (p : list Z) (i : IcyMetaDataParser) : option (nat * IcyMetaDataParser) :=
  assert! IsDefined i ;;
  assert! data_rest i =? 0 ;;
  assert! 0 <? length p ;;
  if meta_size i =? 0 then
    match p with
    | [] => None
    | size :: p =>
        let size := Z.to_nat size * 16 in
        if size =? 0 then Some (1, set_data_rest (data_size i) i)
        else Meta_copy p 1 (mkIcy (data_size i) (data_rest i) size 0 (TextIO.fresh (S size)) (tag i))
    end
  else Meta_copy p 0 i.

Definition memmove (buf : list Z) (dest src n : nat) : list Z :=
  take dest buf ++ take n (drop src buf) ++ drop (dest + n) buf.

(** The loop; [dest] and [src] are offsets, and every round but the first takes a byte. *)
Fixpoint parse_loop (fuel : nat) (buf : list Z) (dest src n : nat) (i : IcyMetaDataParser)
    : option (nat * list Z * IcyMetaDataParser) :=
  match fuel with
  | O => None
  | S fuel =>
      if n =? 0 then Some (dest, buf, i)
      else
        '(chunk, i) ← Data n i;
        let '(buf, dest, src, n) :=
          if 0 <? chunk then (memmove buf dest src chunk, dest + chunk, src + chunk, n - chunk)
          else (buf, dest, src, n) in
        if n =? 0 then Some (dest, buf, i)
        else
          '(chunk, i) ← Meta (take n (drop src buf)) i;
          parse_loop fuel buf dest (src + chunk) (n - chunk) i
  end.

(** The number of data bytes, and the buffer. *)
Definition ParseInPlace (buf : list Z) (i : IcyMetaDataParser) : option (nat * list Z * IcyMetaDataParser) :=
  parse_loop (S (length buf)) buf 0 0 (length buf) i.

Definition ReadTag (i : IcyMetaDataParser) : tag_pointer * IcyMetaDataParser :=
  (tag i, mkIcy (data_size i) (data_rest i) (meta_size i) (meta_position i) (meta_data i) Null).

(** ** The input stream *)

(** The stream below answers each [Read] with a piece and each [ReadTag] as [input] says; a
    piece is not empty before the end. *)
Record IcyInputStream := mkStream {
  parser : IcyMetaDataParser;
  pieces : list (list Z);
  input_tag : option Tag;
  icy_tag : option Tag;
  override_offset : nat;
}.

(** [Read]; at the end of the stream nothing is returned. *)
Fixpoint Read_loop (l : list (list Z)) (s : IcyInputStream) : option (list Z * IcyInputStream) :=
  match l with
  | [] => Some ([], mkStream (parser s) [] (input_tag s) (icy_tag s) (override_offset s))
  | piece :: l =>
      let s := mkStream (parser s) l (input_tag s) (icy_tag s) (override_offset s) in
      if length piece =? 0 then Some ([], s)
      else if negb (IsDefined (parser s)) then Some (piece, s)
      else
        '(result, buf, i) ← ParseInPlace piece (parser s);
        let s := mkStream i l (input_tag s) (icy_tag s) (override_offset s) in
        if 0 <? result then
          Some (take result buf, mkStream i l (input_tag s) (icy_tag s) (override_offset s + result))
        else Read_loop l s
  end.

Definition Read (s : IcyInputStream) : option (list Z * IcyInputStream) := Read_loop (pieces s) s.

(** [ReadTag], given the answer of the stream below. *)
Definition Stream_ReadTag (new_input_tag : option Tag) (s : IcyInputStream)
    : option (option Tag * IcyInputStream) :=
  if negb (IsDefined (parser s)) then Some (new_input_tag, s)
  else
    let input_tag := match new_input_tag with Some t => Some t | None => input_tag s end in
    let '(p, i) := ReadTag (parser s) in
    new_icy_tag ← match p with Null => Some None | Points t => Some (Some t) | Dangling => None end;
    let icy_tag := match new_icy_tag with Some t => Some t | None => icy_tag s end in
    let s := mkStream i (pieces s) input_tag icy_tag (override_offset s) in
    if bool_decide (new_input_tag = None) && bool_decide (new_icy_tag = None) then Some (None, s)
    else
      match input_tag, icy_tag with
      | None, None => Some (None, s)
      | None, Some t => Some (Some t, s)
      | Some t, None => Some (Some t, s)
      | Some a, Some b => t ← Merge a b; Some (Some t, s)
      end.

End Parser.

End Icy.
