(* ===== verification/IcyProps.v ===== *)
(** * Properties of the ICY metadata parser

    A specification that takes the stream byte by byte, the parser on buffers against it,
    and the stream of a radio station as a whole. *)

From Stdlib Require Import ZArith Lia ZifyBool.
From stdpp Require Import base numbers sets strings list.
From S2P Require Import Prelude CString UTF8 TagString Tag Tokenizer TextIO CueProps Icy.

Set Default Goal Selector "!".

Module IcyProps.
Import CString Tag Icy.

(** ** Byte by byte *)

(** [Audio k]: [k] bytes until the next block; [Text k m]: [m] has been read of a block of
    [k] bytes. *)
Inductive place := Audio (k : nat) | Size | Text (k : nat) (m : list Z).

(** The data, the blocks that are complete, and where the stream is afterwards. *)
Record split := mkSplit { data : list Z; blocks : list (list Z); place_ : place }.

Definition add_data (b : Z) (s : split) : split := mkSplit (b :: data s) (blocks s) (place_ s).
Definition add_block (m : list Z) (s : split) : split := mkSplit (data s) (m :: blocks s) (place_ s).

Section Demux.
Context (n : nat).

Fixpoint demux (p : place) (s : list Z) : split :=
  match s with
  | [] => mkSplit [] [] p
  | b :: s =>
      match p with
      | Audio k => add_data b (demux (if k =? 1 then Size else Audio (k - 1)) s)
      | Size => if Z.to_nat b =? 0 then demux (Audio n) s else demux (Text (Z.to_nat b * 16) []) s
      | Text k m =>
          let m := m ++ [b] in
          if length m =? k then add_block m (demux (Audio n) s) else demux (Text k m) s
      end
  end.

Lemma demux_app s : ∀ p r, demux p (s ++ r) =
  let x := demux p s in let y := demux (place_ x) r in
  mkSplit (data x ++ data y) (blocks x ++ blocks y) (place_ y).
Proof.
  induction s as [|b s IH]; intros p r; simpl; [by destruct (demux p r)|].
  destruct p as [k| |k m].
  - rewrite IH. done.
  - destruct (_ =? 0); by rewrite IH.
  - destruct (_ =? k); by rewrite IH.
Qed.

Lemma demux_audio s : ∀ k, length s < k → demux (Audio k) s = mkSplit s [] (Audio (k - length s)).
Proof.
  induction s as [|b s IH]; intros k Hk; simpl in *; [by rewrite Nat.sub_0_r|].
  destruct (k =? 1) eqn:E; [apply Nat.eqb_eq in E; lia|]. rewrite IH by lia. unfold add_data. simpl.
  f_equal. f_equal. lia.
Qed.

Lemma demux_audio_end s : ∀ k, k = length s → s ≠ [] → demux (Audio k) s = mkSplit s [] Size.
Proof.
  induction s as [|b s IH]; intros k -> Hne; [done|]. cbn [demux]. destruct s as [|c s]; [done|].
  change (length (b :: c :: s) =? 1) with false. cbn iota. rewrite IH by (done || simpl; lia). done.
Qed.

Lemma demux_text s : ∀ k m, length m + length s < k → demux (Text k m) s = mkSplit [] [] (Text k (m ++ s)).
Proof.
  induction s as [|b s IH]; intros k m Hk; simpl in *; [by rewrite app_nil_r|].
  destruct (length (m ++ [b]) =? k) eqn:E; [apply Nat.eqb_eq in E; rewrite length_app in E; simpl in E; lia|].
  rewrite IH by (rewrite length_app; simpl; lia). by rewrite <-app_assoc.
Qed.

Lemma demux_text_end s : ∀ k m, length m + length s = k → s ≠ [] →
  demux (Text k m) s = mkSplit [] [m ++ s] (Audio n).
Proof.
  induction s as [|b s IH]; intros k m Hk Hne; [done|]. simpl in *.
  destruct s as [|c s].
  - rewrite (proj2 (Nat.eqb_eq _ _)) by (rewrite length_app; simpl in *; lia). done.
  - rewrite (proj2 (Nat.eqb_neq _ _)) by (rewrite length_app; simpl in *; lia).
    rewrite IH by (done || rewrite length_app; simpl in *; lia). by rewrite <-app_assoc.
Qed.

End Demux.

(** ** The text of a block *)

Section Tags.
Context (mask : Z).

Lemma last_drop (p : list Z) k : last p ≠ Some 61%Z → last (drop k p) ≠ Some 61%Z.
Proof.
  intros Hp. destruct (decide (k < length p)) as [Hk|Hk].
  - rewrite last_lookup, length_drop, lookup_drop. rewrite last_lookup in Hp. intros E. apply Hp. rewrite <-E. f_equal. lia.
  - rewrite drop_ge by lia. done.
Qed.

Lemma strchr_lt p c i : strchr p c = Some i → i < length p ∧ p !! i = Some c.
Proof. intros [Hi _]%strchr_Some. split; [by eapply lookup_lt_Some|done]. Qed.

Lemma until_nul_bytes s : Forall is_byte s → Forall is_byte (Tokenizer.until_nul s).
Proof. induction 1 as [|c s Hc Hs IH]; simpl; [done|]. destruct (c =? 0)%Z; [done|by constructor]. Qed.

Lemma add_item_ok tag ty v : Forall is_byte v → ∃ tag', icy_add_item mask tag ty v = Some tag'.
Proof.
  intros Hv. unfold icy_add_item.
  assert (Hw : ∀ w, Forall is_byte w → ∃ tag', (if 0 <? length w then TagBuilder.AddItem mask ty w tag else Some tag) = Some tag').
  { intros w Hw. destruct (0 <? length w); [|by eexists]. rewrite CueProps.AddItem_value by done. by eexists. }
  apply Hw. destruct (_ && _); [by apply Forall_take, Forall_drop|done].
Qed.

Lemma parse_loop_total fuel : ∀ behind p tag, length p < fuel → Forall is_byte p → last p ≠ Some 61%Z →
  ∃ tag', icy_parse_tag_loop mask behind fuel p tag = Some tag' ∧
    ∀ b, icy_parse_tag_loop mask b fuel p tag = Some tag'.
Proof.
  induction fuel as [|fuel IH]; intros behind p tag Hf Hb Hl; [lia|]. simpl.
  destruct (strchr p 61) as [eq|] eqn:Eeq; [|by eexists].
  pose proof (strchr_lt _ _ _ Eeq) as [Hlt Hat].
  destruct (drop (S eq) p) as [|c q] eqn:Eq.
  { exfalso. apply Hl. rewrite last_lookup. rewrite <-Hat. f_equal.
    pose proof (f_equal length Eq) as E. rewrite length_drop in E. simpl in E. lia. }
  cbn [head default id from_option]. unfold id.
  assert (Hq : length (c :: q) < fuel) by (rewrite <-Eq, length_drop; lia).
  assert (Hqb : Forall is_byte (c :: q)) by (rewrite <-Eq; by apply Forall_drop).
  assert (Hql : last (c :: q) ≠ Some 61%Z) by (rewrite <-Eq; by apply last_drop).
  assert (Hnext : ∀ k l tag', l `suffix_of` (c :: q) → ∃ tag'', icy_parse_tag_loop mask behind fuel (drop k l) tag' = Some tag'' ∧
    ∀ b, icy_parse_tag_loop mask b fuel (drop k l) tag' = Some tag'').
  { intros k l tag' [l0 El]. apply IH.
    - apply (f_equal length) in El. rewrite length_app in El. rewrite length_drop. simpl in *. lia.
    - apply Forall_drop. rewrite El in Hqb. by apply Forall_app in Hqb as [_ ?].
    - apply last_drop. intros E. apply Hql. rewrite El, last_app, E. done. }
  destruct (negb (c =? 39)%Z).
  - destruct (strchr (c :: q) 59) as [s|]; [|by eexists]. by apply (Hnext (S s) (c :: q)).
  - destruct (find_end_quote q) as [quote|]; [|by eexists].
    assert (Hv : Forall is_byte (Tokenizer.until_nul (take quote q))).
    { apply until_nul_bytes, Forall_take. by apply Forall_cons in Hqb as [_ ?]. }
    unfold icy_parse_tag_item. set (v := Tokenizer.until_nul (take quote q)) in *.
    assert (Hi : ∃ tag', (if streq (Tokenizer.until_nul (take eq p)) (str "StreamTitle")
      then icy_add_item mask tag TAG_TITLE v else Some tag) = Some tag').
    { destruct (streq _ _); [by apply add_item_ok|by eexists]. }
    destruct Hi as [tag' ->]. cbn [mbind option_bind].
    destruct (strchr (drop (S quote) q) 59) as [s|]; [|by eexists].
    apply (Hnext (S s) (drop (S quote) q)). exists (c :: take (S quote) q). simpl. by rewrite take_drop.
Qed.

(** The tag of a block that does not end with an equality sign; the byte behind it does not
    matter then. *)
Definition tag_of (m : list Z) : Tag := default Tag.empty (icy_parse_tag mask 0 m).

Definition safe_block (m : list Z) : Prop := Forall is_byte m ∧ last m ≠ Some 61%Z.

Lemma icy_parse_tag_ok behind m : safe_block m → icy_parse_tag mask behind m = Some (tag_of m).
Proof.
  intros [Hb Hl]. unfold tag_of, icy_parse_tag.
  destruct (parse_loop_total (S (length m)) 0 m TagBuilder.empty) as (tag & -> & H); [lia|done|done|].
  rewrite H. done.
Qed.

End Tags.

(** ** The parser *)

Section Parser.
Context (mask : Z) `{!TextIO.Heap} (n : nat).

(** The tag pointer after some blocks. *)
Definition tag_after (l : list (list Z)) (p : tag_pointer) : tag_pointer :=
  match last l with None => p | Some m => Points (tag_of mask m) end.

Lemma tag_after_app a b p : tag_after (a ++ b) p = tag_after b (tag_after a p).
Proof. unfold tag_after. rewrite last_app. by destruct (last b). Qed.

(** The parser at a place of the stream. *)
Record at_place (p : place) (tg : tag_pointer) (i : IcyMetaDataParser) : Prop := {
  a_size : data_size i = n;
  a_tag : tag i = tg;
  a_alive : tg ≠ Dangling;
  a_place : match p with
            | Audio k => data_rest i = k ∧ 0 < k ∧ meta_size i = 0
            | Size => data_rest i = 0 ∧ meta_size i = 0
            | Text k m => data_rest i = 0 ∧ meta_size i = k ∧ meta_position i = length m ∧ length m < k ∧
                take (length m) (meta_data i) = m ∧ length (meta_data i) = S k
            end;
}.

Definition in_meta (p : place) : Prop := match p with Audio _ => False | _ => True end.

Hypothesis Hn : 0 < n.

Lemma Data_ok p tg i s : at_place p tg i → 0 < length s →
  ∃ chunk i' p', Data (length s) i = Some (chunk, i') ∧ chunk ≤ length s ∧
    demux n p (take chunk s) = mkSplit (take chunk s) [] p' ∧ at_place p' tg i' ∧
    (chunk < length s → in_meta p').
Proof.
  intros [Hsz Ht Ha Hp] Hs. unfold Data, IsDefined. rewrite check_bind by lia.
  rewrite Hsz, (proj2 (Nat.ltb_lt _ _)) by lia. cbn [negb].
  destruct p as [k| |k m].
  - destruct Hp as (Hk & Hk0 & Hm). rewrite (proj2 (Nat.eqb_neq _ _)) by lia. rewrite Hk.
    destruct (k <=? length s) eqn:E.
    + apply Nat.leb_le in E. eexists k, _, Size. split; [done|]. split; [done|]. split; [|split; [|done]].
      * apply demux_audio_end; [rewrite length_take; lia|].
        intros E'%(f_equal length). rewrite length_take in E'. simpl in E'. lia.
      * by split.
    + apply Nat.leb_gt in E. eexists (length s), _, (Audio (k - length s)). rewrite take_ge by lia.
      split; [done|]. split; [done|]. split; [apply demux_audio; lia|]. split; [|lia]. split; try done. simpl. lia.
  - destruct Hp as (Hd & Hm). rewrite Hd. eexists 0, i, Size. split_and!; try done. lia.
  - destruct Hp as (Hd & Hp). rewrite Hd. eexists 0, i, (Text k m). split_and!; try done. lia.
Qed.

(** Copying into the buffer of the block. *)
Definition safe (p : place) (s : list Z) : Prop := ∀ l, l ∈ blocks (demux n p s) → safe_block l.

Lemma safe_take p s c : safe p s → safe p (take c s).
Proof. intros Hs l Hl. apply Hs. rewrite <-(take_drop c s), demux_app. simpl. apply elem_of_app. by left. Qed.

Lemma safe_drop p s c : safe p s → safe (place_ (demux n p (take c s))) (drop c s).
Proof. intros Hs l Hl. apply Hs. rewrite <-(take_drop c s), demux_app. simpl. apply elem_of_app. by right. Qed.

Lemma Meta_copy_ok k m tg i s extra : at_place (Text k m) tg i → safe (Text k m) s →
  let c := (k - length m) `min` length s in let x := demux n (Text k m) (take c s) in
  ∃ i', Meta_copy mask s extra i = Some (c + extra, i') ∧ data x = [] ∧
    at_place (place_ x) (tag_after (blocks x) tg) i'.
Proof.
  intros [Hsz Ht Ha (Hd & Hm & Hpos & Hlt & Hdata & Hlen)] Hsafe c x. unfold Meta_copy.
  rewrite Hm, Hpos, check_bind by lia.
  assert ((if k - length m <? length s then k - length m else length s) = c) as ->.
  { subst c. destruct (_ <? _) eqn:E; [apply Nat.ltb_lt in E|apply Nat.ltb_ge in E]; lia. }
  assert (Hc : length (take c s) = c) by (rewrite length_take; lia).
  assert (Hbuf : take (length m + c) (take (length m) (meta_data i) ++ take c s ++ drop (length m + c) (meta_data i)) = m ++ take c s).
  { rewrite Hdata, app_assoc. apply take_app_length'. rewrite length_app, Hc. done. }
  assert (Hnew : length (take (length m) (meta_data i) ++ take c s ++ drop (length m + c) (meta_data i)) = S k).
  { rewrite Hdata, !length_app, Hc, length_drop. lia. }
  cbn [meta_position meta_size meta_data tag data_size data_rest]. set (buf := _ ++ _ ++ _) in *.
  destruct (length m + c =? k) eqn:E.
  - apply Nat.eqb_eq in E. assert (Hx : x = mkSplit [] [m ++ take c s] (Audio n)).
    { apply demux_text_end; [lia|]. intros E'. rewrite E' in Hc. simpl in Hc. lia. }
    assert (delete_tag (tag i) = Some ()) as -> by (rewrite Ht; by destruct tg). cbn [mbind option_bind].
    destruct (lookup_lt_is_Some_2 buf k) as [b ->]; [lia|]. cbn [mbind option_bind].
    rewrite <-E, Hbuf. rewrite icy_parse_tag_ok.
    2: { apply (safe_take _ _ c) in Hsafe. apply Hsafe. fold x. rewrite Hx. apply list_elem_of_singleton. done. }
    cbn [mbind option_bind]. eexists. split; [done|]. rewrite Hx. split; [done|].
    by split.
  - apply Nat.eqb_neq in E. assert (Hx : x = mkSplit [] [] (Text k (m ++ take c s))) by (apply demux_text; lia).
    eexists. split; [done|]. rewrite Hx. split; [done|]. split; try done. simpl.
    rewrite length_app, Hc. split_and!; try done. lia.
Qed.

Lemma Meta_ok p tg i s : at_place p tg i → in_meta p → 0 < length s → safe p s →
  ∃ c i', Meta mask s i = Some (c, i') ∧ 0 < c ≤ length s ∧
    let x := demux n p (take c s) in data x = [] ∧ at_place (place_ x) (tag_after (blocks x) tg) i'.
Proof.
  intros Hat Hmeta Hs Hsafe. pose proof Hat as [Hsz Ht Ha Hp]. unfold Meta, IsDefined.
  rewrite Hsz, check_bind by lia. destruct p as [k| |k m]; [done|..].
  - destruct Hp as [Hd Hm]. rewrite Hd, check_bind by done. rewrite check_bind by lia. rewrite Hm. cbn [Nat.eqb].
    destruct s as [|b s]; [simpl in Hs; lia|]. destruct (Z.to_nat b * 16 =? 0) eqn:E.
    + apply Nat.eqb_eq in E. eexists 1, _. split; [done|]. split; [simpl; lia|]. simpl.
      assert (Z.to_nat b =? 0 = true) as -> by (apply Nat.eqb_eq; lia). simpl. split; [done|].
      by split.
    + apply Nat.eqb_neq in E. set (i0 := mkIcy _ _ _ _ _ _).
      assert (E0 : (Z.to_nat b =? 0) = false) by (apply Nat.eqb_neq; lia).
      assert (Hat0 : at_place (Text (Z.to_nat b * 16) []) tg i0).
      { split; try done. simpl. split_and!; try done; [lia|]. by rewrite TextIO.fresh_length. }
      assert (Hsafe0 : safe (Text (Z.to_nat b * 16) []) s) by (intros l Hl; apply Hsafe; simpl; by rewrite E0).
      destruct (Meta_copy_ok _ _ _ _ s 1 Hat0 Hsafe0) as (i' & -> & Hdata & Hi').
      eexists _, i'. split; [done|]. rewrite Nat.add_1_r. split; [simpl; lia|]. simpl. rewrite E0. done.
  - destruct Hp as (Hd & Hm & Hpos & Hlt & Hbuf & Hlen). rewrite Hd, check_bind by done. rewrite check_bind by lia.
    rewrite Hm, (proj2 (Nat.eqb_neq _ _)) by lia.
    destruct (Meta_copy_ok _ _ _ _ s 0 Hat Hsafe) as (i' & -> & Hdata & Hi').
    rewrite Nat.add_0_r. eexists _, i'. split; [done|]. split; [lia|]. done.
Qed.

(** Moving bytes to the front. *)
Lemma memmove_ok (buf : list Z) dest src c : dest ≤ src → src + c ≤ length buf →
  length (memmove buf dest src c) = length buf ∧
  take (dest + c) (memmove buf dest src c) = take dest buf ++ take c (drop src buf) ∧
  drop (src + c) (memmove buf dest src c) = drop (src + c) buf.
Proof.
  intros Hd Hs. unfold memmove.
  assert (H1 : length (take dest buf) = dest) by (rewrite length_take; lia).
  assert (H2 : length (take c (drop src buf)) = c) by (rewrite length_take, length_drop; lia).
  rewrite app_assoc. split_and!.
  - rewrite !length_app, H1, H2, length_drop. lia.
  - apply take_app_length'. rewrite length_app. lia.
  - rewrite drop_app_ge by (rewrite length_app; lia). rewrite length_app, H1, H2, drop_drop. f_equal. lia.
Qed.

(** The loop; the bytes in front of [dest] are those that were delivered before. *)
Lemma parse_loop_ok fuel : ∀ buf dest src p tg i, at_place p tg i → dest ≤ src → src ≤ length buf →
  length buf - src < fuel → safe p (drop src buf) →
  let x := demux n p (drop src buf) in
  ∃ buf' i', parse_loop mask fuel buf dest src (length buf - src) i = Some (dest + length (data x), buf', i') ∧
    take (dest + length (data x)) buf' = take dest buf ++ data x ∧ at_place (place_ x) (tag_after (blocks x) tg) i'.
Proof.
  induction fuel as [|fuel IH]; intros buf dest src p tg i Hat Hd Hs Hf Hsafe x; [lia|]. cbn [parse_loop].
  subst x. set (rem := drop src buf) in *. assert (Hrem : length rem = length buf - src) by (subst rem; by rewrite length_drop).
  destruct (length buf - src =? 0) eqn:E.
  { apply Nat.eqb_eq in E. assert (rem = []) as -> by (apply length_zero_iff_nil; lia). simpl.
    exists buf, i. by rewrite Nat.add_0_r, app_nil_r. }
  apply Nat.eqb_neq in E. destruct (Data_ok p tg i rem Hat) as (c & i1 & p1 & HD & Hc & Hx1 & Hat1 & Hin); [lia|].
  rewrite Hrem in HD. rewrite HD. cbn [mbind option_bind].
  destruct (memmove_ok buf dest src c Hd) as (Hl1 & Ht1 & Hd1); [lia|]. fold rem in Ht1.
  assert (Hr1 : drop (src + c) (memmove buf dest src c) = drop c rem) by (rewrite Hd1; subst rem; by rewrite drop_drop).
  assert ((if 0 <? c then (memmove buf dest src c, dest + c, src + c, length buf - src - c)
    else (buf, dest, src, length buf - src)) = (memmove buf dest src c, dest + c, src + c, length buf - src - c)) as ->.
  { destruct (0 <? c) eqn:Ec; [done|]. apply Nat.ltb_ge in Ec. replace c with 0 by lia. unfold memmove. simpl.
    by rewrite !Nat.add_0_r, Nat.sub_0_r, take_drop. }
  pose proof (demux_app n (take c rem) p (drop c rem)) as Hx. rewrite take_drop, Hx1 in Hx. simpl in Hx.
  pose proof (safe_drop _ _ c Hsafe) as Hsafe1. rewrite Hx1 in Hsafe1. cbn [place_] in Hsafe1.
  set (buf1 := memmove buf dest src c) in *. destruct (length buf - src - c =? 0) eqn:E1.
  { apply Nat.eqb_eq in E1. rewrite Hx. assert (drop c rem = []) as -> by (apply drop_ge; lia). simpl.
    rewrite app_nil_r. assert (length (take c rem) = c) as -> by (rewrite length_take; lia).
    by exists buf1, i1. }
  apply Nat.eqb_neq in E1. rewrite Hr1. set (rem1 := drop c rem) in *.
  assert (Hrem1 : length rem1 = length buf - src - c) by (subst rem1; rewrite length_drop; lia).
  rewrite take_ge by lia.
  destruct (Meta_ok p1 tg i1 rem1 Hat1) as (k & i2 & -> & Hk & Hx2 & Hat2); [apply Hin; lia|lia|done|].
  cbn [mbind option_bind].
  assert (Hr2 : drop (src + c + k) buf1 = drop k rem1) by (rewrite <-drop_drop, Hr1; done).
  destruct (IH buf1 (dest + c) (src + c + k) (place_ (demux n p1 (take k rem1)))
    (tag_after (blocks (demux n p1 (take k rem1))) tg) i2 Hat2) as (buf' & i' & Hloop & Ht' & Hat'); [lia|lia|lia| |].
  { rewrite Hr2. by apply safe_drop. }
  rewrite Hr2 in *. replace (length buf1 - (src + c + k)) with (length buf - src - c - k) in Hloop by lia.
  rewrite Hloop. pose proof (demux_app n (take k rem1) p1 (drop k rem1)) as Hx3. rewrite take_drop in Hx3.
  cbv zeta in Hx3, Hx2. rewrite Hx2 in Hx3. rewrite Hx, Hx3. simpl.
  rewrite length_app, length_take, Nat.min_l by lia. rewrite Nat.add_assoc in *.
  exists buf', i'. split; [done|]. split; [by rewrite Ht', Ht1, <-app_assoc|]. by rewrite tag_after_app.
Qed.

Lemma ParseInPlace_ok buf p tg i : at_place p tg i → safe p buf →
  let x := demux n p buf in
  ∃ buf' i', ParseInPlace mask buf i = Some (length (data x), buf', i') ∧ take (length (data x)) buf' = data x ∧
    at_place (place_ x) (tag_after (blocks x) tg) i'.
Proof.
  intros Hat Hsafe. unfold ParseInPlace.
  destruct (parse_loop_ok (S (length buf)) buf 0 0 p tg i Hat) as (buf' & i' & Hl & Ht & Hat'); [lia|lia|lia|done|].
  rewrite Nat.sub_0_r in Hl. by exists buf', i'.
Qed.

(** ** The input stream *)

(** Reading until nothing is returned. *)
Fixpoint read_all (fuel : nat) (s : IcyInputStream) : option (list (list Z) * IcyInputStream) :=
  match fuel with
  | O => None
  | S fuel =>
      '(out, s) ← Read mask s;
      if length out =? 0 then Some ([], s)
      else '(l, s) ← read_all fuel s; Some (out :: l, s)
  end.

(** What a reader of [s] relies on. *)
Record reads_from (p : place) (tg : tag_pointer) (s : IcyInputStream) : Prop := {
  r_place : at_place p tg (parser s);
  r_pieces : Forall (λ l, l ≠ []) (pieces s);
  r_safe : safe p (concat (pieces s));
}.

Lemma Read_loop_ok l : ∀ s p tg, pieces s = l → reads_from p tg s →
  ∃ l1 l2 s', Read_loop mask l s = Some (data (demux n p (concat l1)), s') ∧ l = l1 ++ l2 ∧ pieces s' = l2 ∧
    (let x := demux n p (concat l1) in reads_from (place_ x) (tag_after (blocks x) tg) s' ∧
     override_offset s' = override_offset s + length (data x) ∧
     (data x = [] → l2 = []) ∧ (data x ≠ [] → l1 ≠ [])).
Proof.
  induction l as [|piece l IH]; intros s p tg Hpieces [Hat Hne Hsafe]; rewrite Hpieces in *.
  { exists [], [], (mkStream (parser s) [] (input_tag s) (icy_tag s) (override_offset s)). simpl.
    by split_and!. }
  apply Forall_cons in Hne as [Hp Hne]. cbn [Read_loop]. destruct (length piece =? 0) eqn:E.
  { apply Nat.eqb_eq, length_zero_iff_nil in E. done. }
  unfold IsDefined. cbn [parser]. rewrite (a_size _ _ _ Hat), (proj2 (Nat.ltb_lt _ _)) by lia. cbn [negb].
  cbn [concat] in Hsafe. assert (Hsafe1 : safe p piece).
  { intros m Hm. apply Hsafe. rewrite demux_app. simpl. apply elem_of_app. by left. }
  destruct (ParseInPlace_ok piece p tg (parser s) Hat Hsafe1) as (buf & i & -> & Hbuf & Hat1).
  cbn [mbind option_bind parser pieces input_tag icy_tag override_offset]. set (x := demux n p piece) in *.
  assert (Hread : ∀ o, reads_from (place_ x) (tag_after (blocks x) tg) (mkStream i l (input_tag s) (icy_tag s) o)).
  { intros o. split; [done|done|]. simpl. intros m Hm. apply Hsafe. rewrite demux_app. simpl. apply elem_of_app. by right. }
  destruct (0 <? length (data x)) eqn:Ed.
  - apply Nat.ltb_lt in Ed. exists [piece], l. eexists. cbn [concat]. rewrite app_nil_r. fold x. rewrite Hbuf.
    split_and!; [done|done|done|apply Hread|done| |done]. intros E'. rewrite E' in Ed. simpl in Ed. lia.
  - apply Nat.ltb_ge in Ed. assert (Hnil : data x = []) by (apply length_zero_iff_nil; lia).
    destruct (IH (mkStream i l (input_tag s) (icy_tag s) (override_offset s)) _ _ eq_refl (Hread _))
      as (l1 & l2 & s' & -> & -> & Hps & Hr & Ho & Hend & Hl1).
    exists (piece :: l1), l2, s'. cbn [concat]. rewrite demux_app. fold x. cbn [data blocks place_].
    rewrite Hnil, tag_after_app. by split_and!.
Qed.

Lemma icy_read_all_ok fuel : ∀ s p tg, length (pieces s) < fuel → reads_from p tg s →
  let x := demux n p (concat (pieces s)) in
  ∃ outs s', read_all fuel s = Some (outs, s') ∧ concat outs = data x ∧ pieces s' = [] ∧
    at_place (place_ x) (tag_after (blocks x) tg) (parser s') ∧
    override_offset s' = override_offset s + length (data x) ∧ Forall (λ l, l ≠ []) outs.
Proof.
  induction fuel as [|fuel IH]; intros s p tg Hf Hr x; [lia|]. cbn [read_all]. unfold Read.
  destruct (Read_loop_ok (pieces s) s p tg eq_refl Hr) as (l1 & l2 & s1 & -> & Hl & Hps & Hr1 & Ho & Hend & Hl1).
  cbn [mbind option_bind]. subst x. rewrite Hl, concat_app, demux_app. cbv zeta. cbn [data blocks place_].
  set (y := demux n p (concat l1)) in *. destruct (length (data y) =? 0) eqn:E.
  - apply Nat.eqb_eq, length_zero_iff_nil in E. pose proof (Hend E) as ->. exists [], s1. rewrite E in *. simpl in *.
    destruct Hr1 as [Hat _ _]. rewrite app_nil_r. by split_and!.
  - apply Nat.eqb_neq in E. assert (Hy : data y ≠ []) by (intros E'; rewrite E' in E; done).
    destruct (IH s1 _ _ ltac:(rewrite Hl, length_app in Hf; rewrite Hps; pose proof (Hl1 Hy); destruct l1; simpl in *; [done|lia]) Hr1)
      as (outs & s' & -> & Hc & Hp' & Hat & Ho' & Hne). rewrite Hps in *.
    exists (data y :: outs), s'. simpl. rewrite Hc, tag_after_app. split_and!; try done.
    + rewrite length_app. lia.
    + by constructor.
Qed.

End Parser.

(** ** A radio station *)

(** The text that announces a title, filled up to a multiple of 16 bytes. *)
Definition pad (m : list Z) : list Z := m ++ replicate ((16 - length m mod 16) mod 16) 0%Z.

Definition meta_block (title : option (list Z)) : list Z :=
  match title with None => [] | Some t => pad (str "StreamTitle='" ++ t ++ str "';") end.

(** Data and title, alternating. *)
Definition mux (l : list (list Z * option (list Z))) : list Z :=
  concat ((λ x, x.1 ++ Z.of_nat (length (meta_block x.2) / 16) :: meta_block x.2) <$> l).

Definition title_tag (t : list Z) : Tag := mkTag Negative false [mkTagItem TAG_TITLE t].

(** A title that can be announced: sanitised, short enough, without the bytes that end it,
    and not quoted itself. *)
Definition title_ok (t : list Z) : Prop :=
  CueSheet.value_ok t ∧ 0%Z ∉ t ∧ length t ≤ 4000 ∧ (∀ i, t !! i = Some 39%Z → t !! S i ≠ Some 59%Z) ∧
  (first t ≠ 39%Z ∨ last t ≠ Some 39%Z).

Lemma pad_length m : ∃ k, length (pad m) = 16 * k ∧ length (pad m) < length m + 16.
Proof.
  unfold pad. rewrite length_app, length_replicate.
  pose proof (Nat.div_mod (length m) 16 ltac:(lia)). pose proof (Nat.mod_upper_bound (length m) 16 ltac:(lia)).
  destruct (decide (length m mod 16 = 0)) as [E|E].
  - exists (length m / 16). rewrite E. change ((16 - 0) mod 16) with 0. lia.
  - exists (S (length m / 16)). rewrite (Nat.mod_small (16 - length m mod 16) 16) by lia. lia.
Qed.

(** *** The end of a title *)

Section Quote.
Context (t z : list Z) (Ht : ∀ i, t !! i = Some 39%Z → t !! S i ≠ Some 59%Z).
Let p := t ++ 39%Z :: 59%Z :: z.

Lemma end_quote_at i : p !! i = Some 39%Z → i ≤ length t → is_end_quote p i = bool_decide (i = length t).
Proof.
  intros Hi Hle. unfold is_end_quote. assert (Hlen : length p = length t + S (S (length z))) by (unfold p; rewrite length_app; done).
  rewrite (proj2 (Nat.leb_gt _ _)) by lia. cbn [orb]. apply bool_decide_ext. unfold p in *. split.
  - intros Hs. destruct (decide (i = length t)) as [|Hne]; [done|]. exfalso.
    rewrite lookup_app_l in Hi by lia. destruct (decide (S i < length t)) as [Hlt|Hge].
    + rewrite lookup_app_l in Hs by lia. by apply (Ht i).
    + rewrite lookup_app_r in Hs by lia. by replace (S i - length t) with 0 in Hs by lia.
  - intros ->. rewrite lookup_app_r by lia. by replace (S (length t) - length t) with 1 by lia.
Qed.

(** The next quote is not behind the last one. *)
Lemma next_quote i : i ≤ length t → ∃ k, strchr (drop i p) 39%Z = Some k ∧ i + k ≤ length t ∧ p !! (i + k) = Some 39%Z.
Proof.
  intros Hi. destruct (strchr (drop i p) 39) as [k|] eqn:E.
  - exists k. split; [done|]. apply strchr_Some in E as [Hk Hn]. rewrite lookup_drop in Hk. split; [|done].
    destruct (decide (i + k ≤ length t)); [done|]. exfalso. apply Hn. apply list_elem_of_lookup. exists (length t - i).
    rewrite lookup_take_lt by lia. rewrite lookup_drop. replace (i + (length t - i)) with (length t) by lia.
    unfold p. rewrite lookup_app_r by lia. by rewrite Nat.sub_diag.
  - exfalso. apply strchr_None in E. apply E. apply list_elem_of_lookup. exists (length t - i). rewrite lookup_drop.
    replace (i + (length t - i)) with (length t) by lia. unfold p. rewrite lookup_app_r by lia. by rewrite Nat.sub_diag.
Qed.

Lemma end_quote_loop fuel : ∀ i f, i ≤ length t → length t - i < fuel → find_end_quote_loop fuel p i f = Some (length t).
Proof.
  induction fuel as [|fuel IH]; intros i f Hi Hf; [lia|]. simpl. destruct (next_quote i Hi) as (k & -> & Hle & Hat).
  rewrite end_quote_at by done. case_bool_decide as E; [by rewrite E|]. apply IH; lia.
Qed.

Lemma find_end_quote_ok : find_end_quote p = Some (length t).
Proof.
  unfold find_end_quote. destruct (next_quote 0) as (k & Hk & Hle & Hat); [lia|]. rewrite drop_0 in Hk. rewrite Hk.
  simpl in *. rewrite end_quote_at by done. case_bool_decide as E; [by rewrite E|].
  apply end_quote_loop; [lia|]. unfold p. rewrite length_app. lia.
Qed.

End Quote.

Section Radio.
Context (mask : Z) (n : nat).

Lemma icy_until_nul_id (s : list Z) : 0%Z ∉ s → Tokenizer.until_nul s = s.
Proof.
  induction s as [|c s IH]; intros H0; [done|]. simpl. apply not_elem_of_cons in H0 as [H1 H2].
  rewrite (proj2 (Z.eqb_neq _ _)) by done. by rewrite IH.
Qed.

Lemma meta_block_tag t : IsTagEnabled mask TAG_TITLE = true → title_ok t → tag_of mask (meta_block (Some t)) = title_tag t.
Proof.
  intros Hen (Hv & H0 & _ & Hq & Hquoted). unfold meta_block, pad. set (z := replicate _ 0%Z).
  assert (Hz : 61%Z ∉ z ∧ 59%Z ∉ z) by (subst z; split; intros Hin%elem_of_replicate; by destruct Hin).
  rewrite <-!app_assoc. change (str "';" ++ z) with (39%Z :: 59%Z :: z).
  unfold tag_of, icy_parse_tag. set (text := str "StreamTitle='" ++ _).
  assert (E : ∀ fuel b, icy_parse_tag_loop mask b (S (S fuel)) text TagBuilder.empty =
    Some (TagBuilder.push (mkTagItem TAG_TITLE t) TagBuilder.empty)).
  { intros fuel b. cbn [icy_parse_tag_loop].
    assert (strchr text 61 = Some 11) as -> by (apply (strchr_app (str "StreamTitle")), (bool_decide_unpack _); vm_compute; exact I).
    change (Tokenizer.until_nul (take 11 text)) with (str "StreamTitle").
    change (drop 12 text) with (39%Z :: t ++ 39%Z :: 59%Z :: z). cbn [head default id from_option]. unfold id.
    change (negb (39 =? 39)%Z) with false. cbn iota. rewrite find_end_quote_ok by done.
    rewrite take_app_length, icy_until_nul_id by done. rewrite <-Nat.add_1_r, <-drop_drop, drop_app_length. cbn [drop].
    unfold icy_parse_tag_item. change (streq (str "StreamTitle") (str "StreamTitle")) with true. cbn iota.
    unfold icy_add_item.
    assert ((2 <=? length t) && (first t =? 39)%Z && (default 0%Z (last t) =? 39)%Z = false) as ->.
    { destruct Hquoted as [Hf|Hl]; [rewrite (proj2 (Z.eqb_neq _ _) Hf), andb_false_r; done|].
      apply andb_false_iff. right. destruct (last t) as [c|]; [|done]. simpl. apply Z.eqb_neq. congruence. }
    pose proof Hv as (Hb & _ & Hne). assert (0 <? length t = true) as -> by (apply Nat.ltb_lt; destruct t; simpl; [done|lia]).
    rewrite CueProps.AddItem_value, CueSheet.add_value_ok by done. cbn [mbind option_bind].
    change (strchr (59%Z :: z) 59) with (Some 0). cbn iota. rewrite drop_0.
    destruct Hz as [Hz _]. by rewrite (proj2 (strchr_None _ _) Hz). }
  assert (Hl : ∃ k, length text = S k) by (exists (length (drop 1 text)); done). destruct Hl as [k ->].
  rewrite E. done.
Qed.

Lemma meta_block_ok t : title_ok t → safe_block (meta_block (Some t)) ∧
  ∃ k, length (meta_block (Some t)) = 16 * k ∧ 0 < k ≤ 255.
Proof.
  intros ((Hb & _) & _ & Hlen & _).
  change (meta_block (Some t)) with (pad (str "StreamTitle='" ++ t ++ str "';")).
  set (m := str "StreamTitle='" ++ t ++ str "';").
  assert (Hm : length m = length t + 15) by (unfold m; rewrite !length_app; simpl; lia). split; [split|].
  - unfold pad. apply Forall_app_2; [|apply Forall_replicate; done]. unfold m.
    apply (CueSheet.literal_bytes "StreamTitle='"); [done|]. apply Forall_app_2; [done|].
    rewrite <-(app_nil_r (str "';")). by apply CueSheet.literal_bytes.
  - unfold pad. destruct (_ mod 16) as [|k].
    + cbn [replicate]. rewrite app_nil_r. unfold m. rewrite app_assoc, last_app. done.
    + rewrite replicate_S_end, app_assoc, last_snoc. done.
  - destruct (pad_length m) as (k & Hk & Hlt). exists k. split; [done|].
    assert (length m ≤ length (pad m)) by (unfold pad; rewrite length_app; lia). lia.
Qed.

Definition block_ok (x : list Z * option (list Z)) : Prop :=
  length x.1 = n ∧ match x.2 with None => True | Some t => title_ok t end.

Lemma demux_empty_block rest : demux n Size (0%Z :: rest) = demux n (Audio n) rest.
Proof. done. Qed.

Lemma demux_block m k rest : length m = 16 * k → 0 < k ≤ 255 →
  demux n Size (Z.of_nat (length m / 16) :: m ++ rest) =
  let y := demux n (Audio n) rest in mkSplit (data y) (m :: blocks y) (place_ y).
Proof.
  intros Hk Hk'. cbn [demux]. rewrite Hk, Nat.mul_comm, Nat.div_mul, Nat2Z.id by lia.
  rewrite (proj2 (Nat.eqb_neq _ _)) by lia. rewrite demux_app.
  rewrite (demux_text_end n m) by first [simpl; lia|intros ->; simpl in *; lia]. done.
Qed.

Lemma mux_cons d t l : mux ((d, t) :: l) = d ++ (Z.of_nat (length (meta_block t) / 16) :: meta_block t) ++ mux l.
Proof. unfold mux. cbn [fmap list_fmap concat fst snd]. by rewrite <-app_assoc. Qed.

Lemma demux_mux l tail : 0 < n → Forall block_ok l → length tail < n →
  demux n (Audio n) (mux l ++ tail) =
  mkSplit (concat (fst <$> l) ++ tail) (meta_block ∘ Some <$> omap snd l) (Audio (n - length tail)).
Proof.
  intros Hn Hl Htail. induction Hl as [|[d t] l [Hd Ht] Hl IH].
  { by apply demux_audio. }
  cbn [fst snd] in *. rewrite mux_cons, <-!app_assoc, demux_app.
  rewrite (demux_audio_end n d n) by first [done|intros ->; simpl in *; lia]. cbn [data blocks place_].
  rewrite <-app_comm_cons. destruct t as [t|].
  - destruct (meta_block_ok t Ht) as [_ (k & Hk & Hk')]. rewrite (demux_block _ k) by done. rewrite IH.
    cbn [data blocks place_ fmap list_fmap concat fst omap list_omap snd app compose]. by rewrite <-app_assoc.
  - change (meta_block None) with (@nil Z). change (Z.of_nat (length (@nil Z) / 16)) with 0%Z. cbn [app].
    rewrite demux_empty_block, IH. cbn [data blocks place_ fmap list_fmap concat fst omap list_omap snd app].
    by rewrite <-app_assoc.
Qed.

End Radio.


#[local] Instance zeros : TextIO.Heap := { fresh n := replicate n 0%Z; fresh_length n := length_replicate n 0%Z }.

(** Two blocks of three bytes, with a title between them, in two pieces. *)
Definition example_blocks : list (list Z * option (list Z)) := [([1; 2; 3]%Z, Some (str "It's")); ([4; 5; 6]%Z, None)].


(** A block that ends with an equality sign: the byte behind it, which nothing has been
    written to, is read, and when it is a quote the search goes on behind the buffer. *)
Example byte_behind_block_read :
  icy_parse_tag default_tag_mask 39 (str "StreamTitle=") = None ∧
  is_Some (icy_parse_tag default_tag_mask 0 (str "StreamTitle=")).
Proof. split; [reflexivity|by eexists]. Qed.

End IcyProps.
