(* ===== verification/StoredPlaylists.v ===== *)
(** * Stored playlists

    [PlaylistFile.cxx], [PlaylistSave.cxx], the path functions of [Mapper.cxx] and of
    [fs/Charset.cxx], and the modes of [fs/io/FileOutputStream.cxx]: playlists kept as text
    files, one path or URI in a line.  A file system is a map from paths to bytes; the only
    error it reports is a file that does not exist.  What a song loader finds for a URI, the
    converter of the file system's character set and the music directory are arguments. *)

From Stdlib Require Import ZArith Lia ZifyBool.
From stdpp Require Import base numbers sets gmap strings list.
From S2P Require Import Prelude CString UriUtil Tag Song Prog TextIO Directory RandomEngine Queue SongSave.

Set Default Goal Selector "!".

Module StoredPlaylists.
Import CString UriUtil TextIO SongSave.

#[local] Abbreviation DetachedSong := Song.DetachedSong.
#[local] Abbreviation path := (list Z).

(** ** Character sets *)

(** [class IcuConverter]; [None] when it throws. *)
Record IcuConverter := mkConverter { FromUTF8 : list Z → option (list Z); ToUTF8 : list Z → option (list Z) }.

Section Playlists.
(** [nullptr] when the file system uses UTF-8. *)
Context (fs_converter : option IcuConverter).

Definition PathFromUTF8 (path_utf8 : list Z) : option path :=
  match fs_converter with None => Some path_utf8 | Some c => FromUTF8 c path_utf8 end.

(** [PathToUTF8] in [Path::ToUTF8]: an error gives the empty string. *)
Definition PathToUTF8 (path_fs : path) : list Z :=
  match fs_converter with None => path_fs | Some c => default [] (ToUTF8 c path_fs) end.

(** [class AllocatedPath]: the empty path is the null one. *)
Definition IsNull (p : path) : bool := length p =? 0.

Definition FromUTF8Throw (path_utf8 : list Z) : option path := PathFromUTF8 path_utf8.

Definition AllocatedPath_FromUTF8 (path_utf8 : list Z) : path := default [] (PathFromUTF8 path_utf8).

(** ** Mapping paths *)

(** [instance->storage->MapFS("")], null also without a storage, and the directory of the
    playlists. *)
Context (music_dir_fs playlist_dir_fs : path).

Definition PLAYLIST_FILE_SUFFIX : list Z := str ".m3u".

Definition map_uri_fs (uri : list Z) : option path :=
  assert! negb (first uri =? slash)%Z ;;
  Some (if IsNull music_dir_fs then []
        else
          let uri_fs := AllocatedPath_FromUTF8 uri in
          if IsNull uri_fs then [] else PathTraits.Build music_dir_fs uri_fs).

(** The empty string means that the path is not below the music directory. *)
Definition map_fs_to_utf8 (path_fs : path) : list Z :=
  if UriUtil.IsAbsolute path_fs then
    if IsNull music_dir_fs then []
    else
      match PathTraits.Relative music_dir_fs path_fs with
      | None | Some [] => []
      | Some relative => PathToUTF8 relative
      end
  else PathToUTF8 path_fs.

Definition map_spl_path : path := playlist_dir_fs.

Definition map_spl_utf8_to_fs (name : list Z) : path :=
  if IsNull playlist_dir_fs then []
  else
    let filename_fs := AllocatedPath_FromUTF8 (name ++ PLAYLIST_FILE_SUFFIX) in
    if IsNull filename_fs then [] else PathTraits.Build playlist_dir_fs filename_fs.

(** ** The file system *)

(** The files, and the number of [IDLE_STORED_PLAYLIST] events so far. *)
Record world := mkWorld { files : gmap path (list Z); idle_events : nat }.

Definition idle_add (w : world) : world := mkWorld (files w) (S (idle_events w)).

(** [PlaylistError], or the [std::system_error] of a missing file. *)
Inductive error := Playlist_error (code : PlaylistResult) | File_not_found.

Definition IsFileNotFound (e : error) : bool := match e with File_not_found => true | _ => false end.

(** [catch (const std::system_error &e) { if (IsFileNotFound(e)) throw NO_SUCH_LIST; }] *)
Definition no_such_list {A} (m : outcome error A) : outcome error A :=
  match m with
  | Throw e => if IsFileNotFound e then Throw (Playlist_error NO_SUCH_LIST) else Throw e
  | _ => m
  end.

Definition FileExists (p : path) (w : world) : bool := bool_decide (is_Some (files w !! p)).

Definition existing (p : path) (w : world) : outcome error (list Z) :=
  match files w !! p with Some bytes => Ret bytes | None => Throw File_not_found end.

Definition TruncateFile (p : path) (w : world) : outcome error world :=
  _ ← existing p w; Ret (mkWorld (<[p := []]> (files w)) (idle_events w)).

Definition RemoveFile (p : path) (w : world) : outcome error world :=
  _ ← existing p w; Ret (mkWorld (delete p (files w)) (idle_events w)).

Definition RenameFile (old new : path) (w : world) : outcome error world :=
  bytes ← existing old w;
  Ret (mkWorld (<[new := bytes]> (delete old (files w))) (idle_events w)).

(** [class FileOutputStream]: the bytes that were there, and the file offset of [Tell].
    [O_APPEND] moves the offset to the end at each write, not when the file is opened. *)
Inductive Mode := CREATE | CREATE_VISIBLE | APPEND_EXISTING | APPEND_OR_CREATE.

Record FileOutputStream := mkStream { fos_path : path; old_bytes : list Z; Tell : nat }.

Definition open_stream (p : path) (mode : Mode) (w : world) : outcome error FileOutputStream :=
  match mode with
  | CREATE | CREATE_VISIBLE => Ret (mkStream p [] 0)
  | APPEND_EXISTING => bytes ← existing p w; Ret (mkStream p bytes 0)
  | APPEND_OR_CREATE => Ret (mkStream p (default [] (files w !! p)) 0)
  end.

(** What was written through the buffer, once it is flushed and committed. *)
Definition commit (fos : FileOutputStream) (bytes : list Z) (w : world) : world :=
  mkWorld (<[fos_path fos := old_bytes fos ++ bytes]> (files w)) (idle_events w).

(** ** Names *)

Definition PLAYLIST_COMMENT : Z := 35.

Definition spl_valid_name (name_utf8 : list Z) : bool :=
  if length name_utf8 =? 0 then false
  else bool_decide (strchr name_utf8 slash = None) && bool_decide (strchr name_utf8 10%Z = None) &&
       bool_decide (strchr name_utf8 13%Z = None).

Definition spl_map : outcome error path :=
  if IsNull map_spl_path then Throw (Playlist_error DISABLED) else Ret map_spl_path.

Definition spl_check_name (name_utf8 : list Z) : outcome error unit :=
  if spl_valid_name name_utf8 then Ret () else Throw (Playlist_error BAD_NAME).

Definition spl_map_to_fs (name_utf8 : list Z) : outcome error path :=
  _ ← spl_map;
  _ ← spl_check_name name_utf8;
  let path_fs := map_spl_utf8_to_fs name_utf8 in
  if IsNull path_fs then Throw (Playlist_error BAD_NAME) else Ret path_fs.

(** ** Reading and writing *)

Context (playlist_max_length : nat) (playlist_saveAbsolutePaths : bool) `{!Heap}.

(** The line is left out when the path cannot be converted. *)
Definition playlist_print_song (song : DetachedSong) : list output_call :=
  let uri_utf8 := if playlist_saveAbsolutePaths then Song.GetRealURI song else Song.GetURI song in
  match FromUTF8Throw uri_utf8 with
  | Some uri_fs => [Print (uri_fs ++ newline)]
  | None => []
  end.

Definition playlist_print_uri (uri : list Z) : option (list output_call) :=
  path ← (if playlist_saveAbsolutePaths && negb (UriUtil.uri_has_scheme uri) && negb (UriUtil.IsAbsolute uri)
          then Some <$> map_uri_fs uri else Some (FromUTF8Throw uri));
  Some (match path with
        | Some path => if IsNull path then [] else [Print (path ++ newline)]
        | None => []
        end).

Definition SavePlaylistFile (contents : list (list Z)) (utf8path : list Z) (w : world) : outcome error world :=
  path_fs ← spl_map_to_fs utf8path;
  fos ← open_stream path_fs CREATE w;
  calls ← of_option (mapM playlist_print_uri contents);
  bytes ← of_option (write_file (concat calls));
  Ret (commit fos bytes w).

(** The URI of a line, if it has one. *)
Definition load_uri (s : list Z) : option (list Z) :=
  if (first s =? 0)%Z || (first s =? PLAYLIST_COMMENT)%Z then None
  else if negb (UriUtil.uri_has_scheme s) then
    let uri_utf8 := map_fs_to_utf8 s in
    if length uri_utf8 =? 0 then
      if UriUtil.IsAbsolute s then
        let uri_utf8 := PathToUTF8 s in
        if length uri_utf8 =? 0 then None else Some uri_utf8
      else None
    else Some uri_utf8
  else
    let uri_utf8 := PathToUTF8 s in
    if length uri_utf8 =? 0 then None else Some uri_utf8.

(** The loop, with the number of URIs so far. *)
Fixpoint load_uris (lines : list (list Z)) (n : nat) : list (list Z) :=
  match lines with
  | [] => []
  | s :: lines =>
      match load_uri s with
      | None => load_uris lines n
      | Some uri => uri :: (if playlist_max_length <=? S n then [] else load_uris lines (S n))
      end
  end.

(** The sizes of the pieces in which the file is read. *)
Context (sizes : list nat).

Definition LoadPlaylistFile (utf8path : list Z) (w : world) : outcome error (list (list Z)) :=
  no_such_list (
    path_fs ← spl_map_to_fs utf8path;
    bytes ← existing path_fs w;
    lines ← of_option (read_file sizes bytes);
    Ret (load_uris lines 0)).

(** ** Operations *)

Definition spl_move_index (utf8path : list Z) (src dest : nat) (w : world) : outcome error world :=
  if src =? dest then Ret w
  else
    contents ← LoadPlaylistFile utf8path w;
    if (length contents <=? src) || (length contents <=? dest) then Throw (Playlist_error BAD_RANGE)
    else
      value ← of_option (contents !! src);
      let contents := delete src contents in
      let contents := take dest contents ++ [value] ++ drop dest contents in
      w ← SavePlaylistFile contents utf8path w;
      Ret (idle_add w).

Definition spl_clear (utf8path : list Z) (w : world) : outcome error world :=
  path_fs ← spl_map_to_fs utf8path;
  w ← no_such_list (TruncateFile path_fs w);
  Ret (idle_add w).

Definition spl_delete (name_utf8 : list Z) (w : world) : outcome error world :=
  path_fs ← spl_map_to_fs name_utf8;
  w ← no_such_list (RemoveFile path_fs w);
  Ret (idle_add w).

Definition spl_remove_index (utf8path : list Z) (pos : nat) (w : world) : outcome error world :=
  contents ← LoadPlaylistFile utf8path w;
  if length contents <=? pos then Throw (Playlist_error BAD_RANGE)
  else
    w ← SavePlaylistFile (delete pos contents) utf8path w;
    Ret (idle_add w).

Definition MPD_PATH_MAX : nat := 64 * 64.

Definition spl_append_song (utf8path : list Z) (song : DetachedSong) (w : world) : outcome error world :=
  no_such_list (
    path_fs ← spl_map_to_fs utf8path;
    fos ← open_stream path_fs APPEND_EXISTING w;
    if playlist_max_length <=? Tell fos / (MPD_PATH_MAX + 1) then Throw (Playlist_error TOO_LARGE)
    else
      bytes ← of_option (write_file (playlist_print_song song));
      Ret (idle_add (commit fos bytes w))).

(** What the loader throws is not caught here; a null song is dereferenced. *)
Definition spl_append_uri (utf8file : list Z) (LoadSong : list Z → outcome error (option DetachedSong)) (url : list Z)
    (w : world) : outcome error world :=
  song ← LoadSong url;
  song ← of_option song;
  spl_append_song utf8file song w.

Definition spl_rename_internal (from_path_fs to_path_fs : path) (w : world) : outcome error world :=
  if FileExists to_path_fs w then Throw (Playlist_error LIST_EXISTS)
  else
    w ← no_such_list (RenameFile from_path_fs to_path_fs w);
    Ret (idle_add w).

Definition spl_rename (utf8from utf8to : list Z) (w : world) : outcome error world :=
  from_path_fs ← spl_map_to_fs utf8from;
  to_path_fs ← spl_map_to_fs utf8to;
  spl_rename_internal from_path_fs to_path_fs w.

(** One position of the loop. *)
Definition save_queue_song {G} `{!RandomEngine G} (queue : Queue.Queue DetachedSong G) (i : nat) (cs : list output_call)
    : option (list output_call) :=
  it ← Queue.Get queue i; Some (cs ++ playlist_print_song (Queue.song_data it)).

Definition spl_save_queue {G} `{!RandomEngine G} (name_utf8 : list Z) (queue : Queue.Queue DetachedSong G) (w : world)
    : outcome error world :=
  path_fs ← spl_map_to_fs name_utf8;
  if FileExists path_fs w then Throw (Playlist_error LIST_EXISTS)
  else
    fos ← open_stream path_fs CREATE w;
    n ← of_option (Queue.GetLength queue);
    calls ← of_option (for_range 0 n (save_queue_song queue) []);
    bytes ← of_option (write_file calls);
    Ret (idle_add (commit fos bytes w)).

End Playlists.

End StoredPlaylists.
