(* ===== verification/StoredPlaylistsProps.v ===== *)
(** * Theorems about stored playlists

    The files of [StoredPlaylists] implement a collection of lists of URIs: every history
    of edits does to the files what the same edits do to the lists, with the same errors,
    and loading a playlist gives the part of its list that the length limit lets through. *)

From Stdlib Require Import ZArith Lia ZifyBool.
From stdpp Require Import base numbers sets gmap strings list.
From S2P Require Import Prelude CString UriUtil Tag Song Prog Tokenizer TextIO Directory RandomEngine Queue QueueFacts QueueProps SongSave SongSaveProps StoredPlaylists.

Set Default Goal Selector "!".

Module StoredPlaylistsProps.
Import CString UriUtil TextIO SongSave SongSaveFacts StoredPlaylists.

#[local] Abbreviation DetachedSong := Song.DetachedSong.
#[local] Abbreviation path := (list Z).
#[local] Abbreviation uri := (list Z).

(** ** Texts whose lines are all terminated *)

(** What the reader makes of a line. *)
Definition clean (l : list Z) : list Z := Tokenizer.until_nul (strip_cr l).

Definition short_line (l : list Z) : Prop := (10%Z ∉ l) ∧ length l < MAX_SIZE.

Lemma clean_ok l : line_ok l → clean l = l.
Proof. intros (_ & H0 & Hr). unfold clean, strip_cr. rewrite bool_decide_eq_false_2 by done. by apply until_nul_id. Qed.

Lemma split_text ls : Forall short_line ls → split 10 (to_text ls) = ls ++ [[]].
Proof.
  induction 1 as [|l ls [Hn _] _ IH]; [done|]. by rewrite to_text_cons, split_sep, IH by done.
Qed.

Lemma read_text `{!Heap} sizes ls : Forall short_line ls → read_file sizes (to_text ls) = Some (clean <$> ls).
Proof.
  intros Hs. rewrite read_file_ok.
  - f_equal. unfold text_lines. rewrite split_text by done. clear Hs. induction ls as [|l ls IH]; [done|].
    transitivity (clean l :: lines_of (ls ++ [[]])); [by destruct l, ls|]. by rewrite IH.
  - unfold short_lines. rewrite split_text by done. apply Forall_app. split.
    + eapply Forall_impl; [exact Hs|]. by intros ? [].
    + apply Forall_singleton. unfold MAX_SIZE. simpl. lia.
Qed.

Section Playlists.
Context (conv : option IcuConverter) (music dir : path) (max_length : nat) (absolute : bool) `{!Heap} (sizes : list nat).
Context {G : Type} `{!RandomEngine G, !RandomEngineLaws G}.

#[local] Abbreviation from_utf8 := (PathFromUTF8 conv).
#[local] Abbreviation to_utf8 := (PathToUTF8 conv).
#[local] Abbreviation load_uri := (load_uri conv music).

(** ** URIs that survive *)

(** The path of a URI, which can be converted back. *)
Definition converts (u : uri) (f : path) : Prop := from_utf8 u = Some f ∧ to_utf8 f = u ∧ u ≠ [].

(** The line that stands for a URI: a URL, a file outside of the music directory, or a song
    of the database, whose path below the music directory may be written in full. *)
Inductive line_of (u : uri) : path → Prop :=
| line_url f : converts u f → uri_has_scheme u = true → uri_has_scheme f = true → line_of u f
| line_file f : converts u f → uri_has_scheme u = false → uri_has_scheme f = false →
    UriUtil.IsAbsolute u = true → UriUtil.IsAbsolute f = true →
    (music = [] ∨ PathTraits.Relative music f = None) → line_of u f
| line_relative f : converts u f → uri_has_scheme u = false → uri_has_scheme f = false →
    UriUtil.IsAbsolute u = false → UriUtil.IsAbsolute f = false → absolute = false → line_of u f
| line_below f : converts u f → uri_has_scheme u = false → UriUtil.IsAbsolute u = false →
    UriUtil.IsAbsolute f = false → f ≠ [] → absolute = true → music ≠ [] → UriUtil.IsAbsolute music = true →
    last music ≠ Some slash → uri_has_scheme (PathTraits.Build music f) = false → line_of u (PathTraits.Build music f).

(** Nothing in the line is lost or taken for something else. *)
Definition saved_as (u : uri) (l : path) : Prop :=
  line_of u l ∧ line_ok l ∧ length l < MAX_SIZE ∧ l ≠ [] ∧ first l ≠ PLAYLIST_COMMENT.

Definition uri_ok (u : uri) : Prop := ∃ l, saved_as u l.

(** A song whose line loads as [u]. *)
Definition song_saves (song : DetachedSong) (u : uri) : Prop :=
  ∃ l, from_utf8 (if absolute then Song.GetRealURI song else Song.GetURI song) = Some l ∧ saved_as u l.

Lemma first_not_nul (l : list Z) : l ≠ [] → (0%Z ∉ l) → (first l =? 0)%Z = false.
Proof. destruct l as [|c l]; [done|]. intros _ Hz. simpl. apply Z.eqb_neq. set_solver. Qed.

Lemma nonempty_length (u : list Z) : u ≠ [] → (length u =? 0) = false.
Proof. by destruct u. Qed.

Lemma Relative_Build m f : m ≠ [] → last m ≠ Some slash → f ≠ [] → UriUtil.IsAbsolute f = false →
  UriUtil.IsAbsolute (PathTraits.Build m f) = UriUtil.IsAbsolute m ∧
  PathTraits.Relative m (PathTraits.Build m f) = Some f.
Proof.
  intros Hm Hl Hf Ha. unfold PathTraits.Build, PathTraits.IsSeparator. rewrite !nonempty_length by done.
  destruct (last m) as [x|] eqn:E; [|by apply last_None in E]. simpl default.
  rewrite (proj2 (Z.eqb_neq x slash)) by congruence. unfold UriUtil.IsAbsolute in Ha. rewrite Ha.
  split; [by destruct m|]. rewrite <-app_assoc. unfold PathTraits.Relative. rewrite StringAfterPrefix_app. simpl.
  destruct f as [|c f]; [done|]. change (first (c :: f)) with c in Ha. simpl. unfold PathTraits.IsSeparator. by rewrite Ha.
Qed.

(** What is written is read back. *)
Lemma load_saved u l : saved_as u l → load_uri l = Some u.
Proof.
  intros (Hl & (_ & H0 & _) & _ & Hne & Hc). unfold StoredPlaylists.load_uri.
  rewrite first_not_nul by done. rewrite (proj2 (Z.eqb_neq _ _)) by done. simpl orb. cbv iota.
  destruct Hl as [f (_ & Ht & Hu) _ Hs|f (_ & Ht & Hu) _ Hs _ Ha Hm|f (_ & Ht & Hu) _ Hs _ Ha _|
                  f (_ & Ht & Hu) _ _ Ha Hf _ Hmn Hma Hml Hs]; rewrite Hs; simpl negb; cbv iota.
  - by rewrite Ht, nonempty_length.
  - assert (map_fs_to_utf8 conv music f = []) as ->.
    { unfold map_fs_to_utf8. rewrite Ha. destruct Hm as [->| ->]; [done|by destruct (IsNull music)]. }
    rewrite Ha. simpl. by rewrite Ht, nonempty_length.
  - unfold map_fs_to_utf8. by rewrite Ha, Ht, nonempty_length.
  - unfold map_fs_to_utf8. destruct (Relative_Build music f Hmn Hml Hf Ha) as [-> Hr]. unfold IsNull.
    rewrite Hma, (nonempty_length music), Hr by done.
    destruct f as [|c f]; [done|]. by rewrite Ht, nonempty_length.
Qed.

Lemma print_saved u : uri_ok u → ∃ l, saved_as u l ∧
  playlist_print_uri conv music absolute u = Some [Print (l ++ newline)].
Proof.
  intros (l & Hs). exists l. split; [done|]. destruct Hs as (Hl & _ & _ & Hn & _).
  apply nonempty_length in Hn. unfold playlist_print_uri, FromUTF8Throw.
  destruct Hl as [f (Hf & _) Hu _|f (Hf & _) Hu _ Ha _ _|f (Hf & _) Hu _ Ha _ Hb|f (Hf & _) Hu Ha Hfa Hf0 Hb Hm _ _ _].
  - rewrite Hu, andb_false_r, Hf. simpl. unfold IsNull. by rewrite Hn.
  - rewrite Hu, Ha, !andb_false_r, Hf. simpl. unfold IsNull. by rewrite Hn.
  - rewrite Hb, Hf. simpl. unfold IsNull. by rewrite Hn.
  - rewrite Hb, Hu, Ha. simpl. unfold map_uri_fs. unfold UriUtil.IsAbsolute in Ha. rewrite Ha. simpl.
    unfold AllocatedPath_FromUTF8, IsNull. rewrite Hf, (nonempty_length music) by done. simpl.
    by rewrite (nonempty_length f), Hn by done.
Qed.

(** The lines of a whole list. *)
Lemma print_all us : Forall uri_ok us → ∃ ls, mapM (playlist_print_uri conv music absolute) us =
  Some ((λ l, [Print (l ++ newline)]) <$> ls) ∧ Forall2 saved_as us ls.
Proof.
  induction 1 as [|u us Hu _ (ls & Hm & Hls)]; [by exists []|].
  destruct (print_saved u Hu) as (l & Hl & Hp). exists (l :: ls). simpl. rewrite Hp. simpl. rewrite Hm.
  by split; [|constructor].
Qed.

Lemma saved_lines us ls : Forall2 saved_as us ls → Forall short_line ls ∧ omap load_uri (clean <$> ls) = us.
Proof.
  induction 1 as [|u l us ls Hs _ [IH1 IH2]]; [done|]. pose proof Hs as (_ & Hl & Hm & _). split.
  - constructor; [|done]. destruct Hl as [? _]. by split.
  - rewrite fmap_cons, clean_ok by done. simpl. rewrite (load_saved u l Hs). f_equal. exact IH2.
Qed.

Lemma text_of_prints ls : concat (call_bytes <$> concat ((λ l, [Print (l ++ newline)]) <$> ls)) = to_text ls.
Proof.
  induction ls as [|l ls IH]; [done|]. rewrite to_text_cons, <-IH, fmap_cons. cbn [concat]. rewrite fmap_app, concat_app.
  cbn. unfold newline. by rewrite app_nil_r, <-app_assoc.
Qed.

(** ** The collection of playlists *)

Context (max_pos : 1 ≤ max_length).

(** The file of a playlist: [name.m3u] in the directory of playlists.  A name must not be
    empty, nor contain a slash or a line end. *)
Definition path_of (name : uri) : outcome error path :=
  if bool_decide (dir = []) then Throw (Playlist_error DISABLED)
  else if bool_decide (name = [] ∨ 47%Z ∈ name ∨ 10%Z ∈ name ∨ 13%Z ∈ name) then Throw (Playlist_error BAD_NAME)
  else
    match from_utf8 (name ++ str ".m3u") with
    | None | Some [] => Throw (Playlist_error BAD_NAME)
    | Some f => Ret (PathTraits.Build dir f)
    end.

Lemma Build_null a b : a ≠ [] → IsNull (PathTraits.Build a b) = false.
Proof.
  intros Ha. unfold PathTraits.Build, IsNull. rewrite !(nonempty_length a) by done.
  destruct (length b =? 0); [by apply nonempty_length|]. case_match; by destruct a.
Qed.

Lemma spl_map_to_fs_ok name : spl_map_to_fs conv dir name = path_of name.
Proof.
  unfold spl_map_to_fs, spl_map, map_spl_path, path_of. destruct (decide (dir = [])) as [Hd|Hd].
  { rewrite bool_decide_eq_true_2 by done. by rewrite Hd. }
  rewrite (bool_decide_eq_false_2 _ Hd). assert (Hn : IsNull dir = false) by by apply nonempty_length.
  rewrite Hn. simpl.   unfold spl_check_name. assert (spl_valid_name name = negb (bool_decide (name = [] ∨ 47%Z ∈ name ∨ 10%Z ∈ name ∨ 13%Z ∈ name))) as ->.
  { unfold spl_valid_name. destruct name as [|c name]; [by rewrite (bool_decide_eq_true_2 ([] = [] ∨ _)) by (by left)|]. simpl length. cbn [Nat.eqb].
    rewrite eq_iff_eq_true, negb_true_iff, bool_decide_eq_false, !andb_true_iff, !bool_decide_eq_true, !strchr_None.
    unfold slash. set_solver. }
  case_bool_decide; [done|]. simpl. unfold map_spl_utf8_to_fs, AllocatedPath_FromUTF8. rewrite Hn. unfold PLAYLIST_FILE_SUFFIX.
  destruct (from_utf8 (name ++ str ".m3u")) as [[|c f]|]; [done| |done]. simpl default.
  change (IsNull (c :: f)) with false. cbn iota. by rewrite Build_null.
Qed.

Record library := mkLibrary { lists : gmap path (list uri); events : nat }.

#[local] Abbreviation no_list := (Throw (Playlist_error NO_SUCH_LIST)).

Definition listed (L : library) (p : path) : outcome error (list uri) :=
  match lists L !! p with Some us => Ret us | None => no_list end.

Definition put (p : path) (us : list uri) (L : library) : library :=
  mkLibrary (<[p := us]> (lists L)) (S (events L)).

(** The lines of a playlist: comments, empty lines, and the URIs, each possibly with a
    carriage return at its end. *)
Inductive lists_uris : list path → list uri → Prop :=
| lists_end : lists_uris [] []
| lists_comment l ls us : lists_uris ls us → lists_uris ((PLAYLIST_COMMENT :: l) :: ls) us
| lists_empty ls us : lists_uris ls us → lists_uris ([] :: ls) us
| lists_uri u l ls us : saved_as u l → lists_uris ls us → lists_uris (l :: ls) (u :: us)
| lists_uri_cr u l ls us : saved_as u l → lists_uris ls us → lists_uris ((l ++ [13%Z]) :: ls) (u :: us).

(** The file of a playlist. *)
Definition stored (us : list uri) (bytes : list Z) : Prop :=
  ∃ ls, bytes = to_text ls ∧ Forall short_line ls ∧ lists_uris ls us.

Lemma clean_cr l : line_ok l → clean (l ++ [13%Z]) = l.
Proof.
  intros (_ & H0 & _). unfold clean, strip_cr. rewrite last_snoc, bool_decide_eq_true_2 by done.
  rewrite length_app. cbn [length]. rewrite Nat.add_sub, take_app_length. by apply until_nul_id.
Qed.

Lemma load_comment l : load_uri (clean (PLAYLIST_COMMENT :: l)) = None.
Proof.
  unfold clean, strip_cr. case_bool_decide as Hc.
  - destruct l as [|c l]; [done|]. simpl length. cbn [Nat.sub take]. unfold StoredPlaylists.load_uri. done.
  - done.
Qed.

Lemma lists_uris_load ls us : lists_uris ls us → omap load_uri (clean <$> ls) = us.
Proof.
  induction 1 as [|l ls us _ IH|ls us _ IH|u l ls us Hs _ IH|u l ls us Hs _ IH]; [done| |done| |];
    rewrite fmap_cons; cbn [omap list_omap].
  - by rewrite load_comment.
  - pose proof Hs as (_ & Hl & _). rewrite clean_ok by done. rewrite (load_saved u l Hs). f_equal. exact IH.
  - pose proof Hs as (_ & Hl & _). rewrite clean_cr by done. rewrite (load_saved u l Hs). f_equal. exact IH.
Qed.

Lemma lists_uris_saved us ls : Forall2 saved_as us ls → lists_uris ls us.
Proof. induction 1; [constructor|by apply lists_uri]. Qed.

Lemma lists_uris_app ls us ls' us' : lists_uris ls us → lists_uris ls' us' → lists_uris (ls ++ ls') (us ++ us').
Proof. intros Hl H'. induction Hl; [done|by constructor|by constructor|by apply lists_uri|by apply lists_uri_cr]. Qed.

(** [others]: the files that are no playlists. *)
Context (others : path → option (list Z)).

Definition represents (w : world) (L : library) : Prop :=
  idle_events w = events L ∧ (∀ p, (∀ name, path_of name ≠ Ret p) → files w !! p = others p) ∧ ∀ name p, path_of name = Ret p →
    match lists L !! p with
    | None => files w !! p = None
    | Some us => Forall uri_ok us ∧ ∃ bytes, files w !! p = Some bytes ∧ stored us bytes
    end.

Lemma represents_put w L name p us bytes : represents w L → path_of name = Ret p → Forall uri_ok us → stored us bytes →
  represents (mkWorld (<[p := bytes]> (files w)) (S (idle_events w))) (put p us L).
Proof.
  intros (He & Ho & Hr) Hp Hus Hb. split_and!; [simpl; by rewrite He| |].
  { intros q Hq. simpl. rewrite lookup_insert_ne by (intros ->; by eapply Hq). by apply Ho. }
  clear name Hp. intros name q Hq. simpl.
  destruct (decide (p = q)) as [->|Hne]; [rewrite !lookup_insert_eq; by eauto|].
  rewrite !lookup_insert_ne by done. by apply (Hr name q).
Qed.

Lemma represents_delete w L name p : represents w L → path_of name = Ret p →
  represents (mkWorld (delete p (files w)) (idle_events w)) (mkLibrary (delete p (lists L)) (events L)).
Proof.
  intros (He & Ho & Hr) Hp. split_and!; [done| |].
  { intros q Hq. simpl. rewrite lookup_delete_ne by (intros ->; by eapply Hq). by apply Ho. }
  clear name Hp. intros name q Hq. simpl.
  destruct (decide (p = q)) as [->|Hne]; [by rewrite !lookup_delete_eq|].
  rewrite !lookup_delete_ne by done. by apply (Hr name q).
Qed.

(** ** Loading and saving *)

(** The part of a list that the limit lets through. *)
Definition visible (us : list uri) : list uri := take max_length us.

Lemma load_uris_ok ls n : n < max_length →
  load_uris conv music max_length ls n = take (max_length - n) (omap load_uri ls).
Proof.
  revert n. induction ls as [|l ls IH]; intros n Hn; simpl; [by rewrite take_nil|].
  destruct (load_uri l) as [u|]; [|by apply IH]. destruct (max_length - n) as [|k] eqn:Ek; [lia|]. simpl. f_equal.
  destruct (max_length <=? S n) eqn:E.
  - by replace k with 0 by lia.
  - rewrite IH by lia. f_equal. lia.
Qed.

Lemma path_not_missing name e : path_of name = Throw e → IsFileNotFound e = false.
Proof. unfold path_of. repeat case_match; intros; by simplify_eq/=. Qed.

Lemma path_no_abort name : path_of name ≠ Abort.
Proof. unfold path_of. by repeat case_match. Qed.

#[local] Abbreviation Load := (LoadPlaylistFile conv music dir max_length sizes).
#[local] Abbreviation Save := (SavePlaylistFile conv music dir absolute).

(** Loading a playlist of the collection. *)
Lemma Load_ok name w L : represents w L →
  Load name w = (p ← path_of name; us ← listed L p; Ret (visible us)).
Proof.
  intros (_ & _ & Hr). unfold LoadPlaylistFile. rewrite spl_map_to_fs_ok. destruct (path_of name) as [p|e|] eqn:Ep; simpl.
  - specialize (Hr name p Ep). unfold existing, listed. destruct (lists L !! p) as [us|].
    + destruct Hr as (_ & bytes & -> & ls & -> & Hs & Hls). simpl. rewrite read_text by done. simpl.
      rewrite load_uris_ok by lia. by rewrite (lists_uris_load _ _ Hls), Nat.sub_0_r.
    + rewrite Hr. done.
  - by rewrite (path_not_missing name e Ep).
  - by destruct (path_no_abort name).
Qed.

Lemma Save_ok name p us w : path_of name = Ret p → Forall uri_ok us →
  ∃ bytes, Save us name w = Ret (mkWorld (<[p := bytes]> (files w)) (idle_events w)) ∧ stored us bytes.
Proof.
  intros Hp Hus. unfold SavePlaylistFile. rewrite spl_map_to_fs_ok, Hp. simpl.
  destruct (print_all us Hus) as (ls & -> & Hls). simpl. rewrite write_file_ok. simpl.
  rewrite text_of_prints. eexists. split; [done|]. exists ls. split; [done|]. split; [by eapply saved_lines|by apply lists_uris_saved].
Qed.

(** ** Edits

    An edit that brings songs in names the URIs under which they are found again. *)

Inductive edit :=
| Move (name : uri) (src dest : nat)
| ClearList (name : uri)
| DeleteList (name : uri)
| RemoveIndex (name : uri) (pos : nat)
| AppendSong (name : uri) (song : DetachedSong) (u : uri)
| RenameList (from to : uri)
| SaveQueue (name : uri) (queue : Queue.Queue DetachedSong G) (us : list uri).

Definition do_edit (e : edit) (w : world) : outcome error world :=
  match e with
  | Move name src dest => spl_move_index conv music dir max_length absolute sizes name src dest w
  | ClearList name => spl_clear conv dir name w
  | DeleteList name => spl_delete conv dir name w
  | RemoveIndex name pos => spl_remove_index conv music dir max_length absolute sizes name pos w
  | AppendSong name song _ => spl_append_song conv dir max_length absolute name song w
  | RenameList from to => spl_rename conv dir from to w
  | SaveQueue name queue _ => spl_save_queue conv dir absolute name queue w
  end.

Definition edit_ok (e : edit) : Prop :=
  match e with
  | AppendSong _ song u => song_saves song u
  | SaveQueue _ queue us => ∃ its, QueueFacts.repr queue its ∧ Forall2 song_saves (Queue.song_data <$> its) us
  | _ => True
  end.

(** Taking out an element, and putting it in so that it gets an index. *)
Definition moved (src dest : nat) (us : list uri) : list uri :=
  take dest (delete src us) ++ option_list (us !! src) ++ drop dest (delete src us).

(** What an edit means for the collection. *)
Definition edit_spec (e : edit) (L : library) : outcome error library :=
  match e with
  | Move name src dest =>
      if src =? dest then Ret L
      else
        p ← path_of name;
        us ← listed L p;
        let us := visible us in
        if bool_decide (src < length us ∧ dest < length us) then Ret (put p (moved src dest us) L)
        else Throw (Playlist_error BAD_RANGE)
  | ClearList name => p ← path_of name; _ ← listed L p; Ret (put p [] L)
  | DeleteList name =>
      p ← path_of name; _ ← listed L p; Ret (mkLibrary (delete p (lists L)) (S (events L)))
  | RemoveIndex name pos =>
      p ← path_of name;
      us ← listed L p;
      if bool_decide (pos < length (visible us)) then Ret (put p (delete pos (visible us)) L)
      else Throw (Playlist_error BAD_RANGE)
  | AppendSong name _ u => p ← path_of name; us ← listed L p; Ret (put p (us ++ [u]) L)
  | RenameList from to =>
      p ← path_of from;
      q ← path_of to;
      if bool_decide (is_Some (lists L !! q)) then Throw (Playlist_error LIST_EXISTS)
      else us ← listed L p; Ret (put q us (mkLibrary (delete p (lists L)) (events L)))
  | SaveQueue name _ us =>
      p ← path_of name;
      if bool_decide (is_Some (lists L !! p)) then Throw (Playlist_error LIST_EXISTS)
      else Ret (put p us L)
  end.

(** Two outcomes that agree. *)
Definition agree (r : outcome error world) (r' : outcome error library) : Prop :=
  match r, r' with
  | Ret w, Ret L => represents w L
  | Throw e, Throw e' => e = e'
  | _, _ => False
  end.

Lemma print_song song u : song_saves song u → ∃ l, saved_as u l ∧
  playlist_print_song conv absolute song = [Print (l ++ newline)].
Proof. intros (l & E & Hs). exists l. split; [done|]. unfold playlist_print_song, FromUTF8Throw. by rewrite E. Qed.

(** A playlist that is there, or is not. *)
Lemma listed_cases w L name p : represents w L → path_of name = Ret p →
  (listed L p = no_list ∧ existing p w = Throw File_not_found ∧ lists L !! p = None ∧ FileExists p w = false) ∨
  (∃ us bytes, listed L p = Ret us ∧ existing p w = Ret bytes ∧ lists L !! p = Some us ∧ FileExists p w = true ∧
    Forall uri_ok us ∧ stored us bytes).
Proof.
  intros (_ & _ & Hr) Hp. specialize (Hr name p Hp). unfold listed, existing, FileExists. destruct (lists L !! p) as [us|].
  - destruct Hr as (Hus & bytes & -> & Hb). right. exists us, bytes. rewrite bool_decide_eq_true_2 by done. by split_and!.
  - left. rewrite Hr. by rewrite bool_decide_eq_false_2 by (by intros []).
Qed.

Lemma visible_ok us : Forall uri_ok us → Forall uri_ok (visible us).
Proof. apply Forall_take. Qed.

Lemma delete_ok (us : list uri) i : Forall uri_ok us → Forall uri_ok (delete i us).
Proof. rewrite delete_take_drop. intros Hus. apply Forall_app_2; [by apply Forall_take|by apply Forall_drop]. Qed.

Lemma moved_ok us src dest : Forall uri_ok us → Forall uri_ok (moved src dest us).
Proof.
  intros Hus. pose proof (delete_ok us src Hus). unfold moved. apply Forall_app_2; [by apply Forall_take|].
  apply Forall_app_2; [|by apply Forall_drop]. destruct (us !! src) as [u|] eqn:E; simpl; [|done].
  apply Forall_singleton. rewrite Forall_lookup in Hus. by eapply Hus.
Qed.

Lemma stored_nil : stored [] [].
Proof. exists []. split_and!; [done..|constructor]. Qed.

Lemma stored_append us bytes song u : stored us bytes → song_saves song u → ∃ line,
  write_file (playlist_print_song conv absolute song) = Some line ∧
  Forall uri_ok [u] ∧ stored (us ++ [u]) (bytes ++ line).
Proof.
  intros (ls & -> & Hs & Hls) Hsong. destruct (print_song song u Hsong) as (l & Hl & ->).
  rewrite write_file_ok. eexists. split; [done|]. split; [apply Forall_singleton; by exists l|].
  assert (H1 : Forall2 saved_as [u] [l]) by (constructor; [done|constructor]). exists (ls ++ [l]).
  split; [by rewrite to_text_app|]. split; [apply Forall_app_2; [done|by eapply saved_lines]|].
  apply lists_uris_app; [done|by apply lists_uris_saved].
Qed.

(** ** One edit *)

(** The path of a name, or the same error on both sides. *)
Ltac path_case name p Hp :=
  destruct (path_of name) as [p|e|] eqn:Hp; simpl;
  [|by rewrite ?(path_not_missing name e Hp)|by destruct (path_no_abort name)].

(** The list of a path, or [NO_SUCH_LIST] on both sides. *)
Ltac listed_case Hr Hp us bytes :=
  destruct (listed_cases _ _ _ _ Hr Hp) as [(HL & Hf & Hl & Hx)|(us & bytes & HL & Hf & Hl & Hx & Hus & Hb)];
  rewrite ?HL; simpl; [try done|].

Lemma save_agree w L name p us : represents w L → path_of name = Ret p → Forall uri_ok us →
  agree (w ← Save us name w; Ret (idle_add w)) (Ret (put p us L)).
Proof.
  intros Hr Hp Hus. destruct (Save_ok name p us w Hp Hus) as (bytes & -> & Hb).
  exact (represents_put w L name p us bytes Hr Hp Hus Hb).
Qed.

Lemma move_agree w L name src dest : represents w L → agree (do_edit (Move name src dest) w) (edit_spec (Move name src dest) L).
Proof.
  intros Hr. simpl. unfold spl_move_index. destruct (src =? dest); [done|]. rewrite (Load_ok name w L Hr).
  path_case name p Hp. listed_case Hr Hp us bytes. case_bool_decide as Hd.
  - destruct Hd as [Hs Ht]. rewrite !(proj2 (Nat.leb_gt _ _)) by done. simpl.
    destruct (lookup_lt_is_Some_2 (visible us) src Hs) as [u Hu]. rewrite Hu. simpl.
    pose proof (save_agree w L name p (moved src dest (visible us)) Hr Hp) as Hsave. unfold moved in Hsave.
    rewrite Hu in Hsave. unfold moved. rewrite Hu. apply Hsave.
    pose proof (moved_ok (visible us) src dest (visible_ok us Hus)) as Hm. unfold moved in Hm. by rewrite Hu in Hm.
  - by rewrite (proj2 (orb_true_iff _ _)) by (rewrite !Nat.leb_le; lia).
Qed.

Lemma remove_agree w L name pos : represents w L → agree (do_edit (RemoveIndex name pos) w) (edit_spec (RemoveIndex name pos) L).
Proof.
  intros Hr. simpl. unfold spl_remove_index. rewrite (Load_ok name w L Hr).
  path_case name p Hp. listed_case Hr Hp us bytes. case_bool_decide as Hd.
  - rewrite (proj2 (Nat.leb_gt _ _)) by done. apply save_agree; [done..|]. by apply delete_ok, visible_ok.
  - by rewrite (proj2 (Nat.leb_le _ _)) by lia.
Qed.

Lemma clear_agree w L name : represents w L → agree (do_edit (ClearList name) w) (edit_spec (ClearList name) L).
Proof.
  intros Hr. simpl. unfold spl_clear. rewrite spl_map_to_fs_ok. path_case name p Hp. unfold TruncateFile.
  listed_case Hr Hp us bytes; rewrite Hf; simpl; [done|].
  exact (represents_put w L name p [] [] Hr Hp (Forall_nil_2 _) stored_nil).
Qed.

Lemma delete_agree w L name : represents w L → agree (do_edit (DeleteList name) w) (edit_spec (DeleteList name) L).
Proof.
  intros Hr. simpl. unfold spl_delete. rewrite spl_map_to_fs_ok. path_case name p Hp. unfold RemoveFile.
  listed_case Hr Hp us bytes; rewrite Hf; simpl; [done|].
  pose proof (represents_delete w L name p Hr Hp) as [He Hd]. split; [by simpl in *; rewrite He|exact Hd].
Qed.

Lemma append_agree w L name song u : represents w L → song_saves song u →
  agree (do_edit (AppendSong name song u) w) (edit_spec (AppendSong name song u) L).
Proof.
  intros Hr Hsong. simpl. unfold spl_append_song. rewrite spl_map_to_fs_ok. path_case name p Hp. unfold open_stream.
  listed_case Hr Hp us bytes; rewrite Hf; simpl; [done|].
  rewrite (proj2 (Nat.leb_gt max_length 0)) by done.
  destruct (stored_append us bytes song u Hb Hsong) as (line & -> & Hu & Hb'). simpl.
  exact (represents_put w L name p _ _ Hr Hp (Forall_app_2 _ _ _ Hus Hu) Hb').
Qed.

Lemma rename_agree w L from to : represents w L → agree (do_edit (RenameList from to) w) (edit_spec (RenameList from to) L).
Proof.
  intros Hr. simpl. unfold spl_rename. rewrite !spl_map_to_fs_ok. path_case from p Hp. path_case to q Hq. unfold spl_rename_internal.
  destruct (listed_cases w L to q Hr Hq) as [(_ & _ & Hl & Hx)|(us & bytes & _ & _ & Hl & Hx & _)]; rewrite Hl, Hx;
    [rewrite bool_decide_eq_false_2 by (by intros [])|by rewrite bool_decide_eq_true_2]. clear Hl Hx. unfold RenameFile.
  listed_case Hr Hp us bytes; rewrite Hf; simpl; [done|].
  exact (represents_put _ _ to q us bytes (represents_delete w L from p Hr Hp) Hq Hus Hb).
Qed.

(** The loop over the queue writes a line for each song. *)
Lemma queue_calls q its us : QueueFacts.repr q its → Forall2 song_saves (Queue.song_data <$> its) us →
  ∃ calls ls, for_range 0 (Queue.length q) (save_queue_song conv absolute q) [] = Some calls ∧
    calls = (λ l, Print (l ++ newline)) <$> ls ∧ Forall2 saved_as us ls.
Proof.
  intros Hr Hok.
  destruct (for_range_inv (λ i cs, i ≤ length its ∧ ∃ ls, cs = (λ l, Print (l ++ newline)) <$> ls ∧
      Forall2 saved_as (take i us) ls)
    (save_queue_song conv absolute q) 0 (Queue.length q) []) as (cs & -> & Hlen & ls & -> & Hls).
  - lia.
  - intros i cs Hi (_ & ls & -> & Hls). destruct (QueueFacts.repr_lookup q its i Hr) as (it & Hit & Hat); [lia|].
    destruct (Forall2_lookup_l _ _ _ i (Queue.song_data it) Hok) as (u & Hu & Hsaves); [by rewrite list_lookup_fmap, Hit|].
    destruct (print_song _ u Hsaves) as (l & Hl & Hp).
    unfold save_queue_song, Queue.Get. rewrite !check_bind by lia. rewrite Hat. cbn [mbind option_bind]. rewrite Hp. eexists. split; [done|].
    pose proof (lookup_lt_Some _ _ _ Hit). split; [lia|]. exists (ls ++ [l]). split; [by rewrite fmap_app|].
    rewrite (take_S_r _ _ _ Hu). by apply Forall2_app; [|constructor].
  - split; [lia|]. by exists [].
  - eexists _, ls. split_and!; [done|done|]. apply Forall2_length in Hok. rewrite length_fmap in Hok.
    rewrite take_ge in Hls by (rewrite <-Hok, (QueueFacts.r_len _ _ Hr); done). done.
Qed.

Lemma text_of_calls ls : concat (call_bytes <$> ((λ l, Print (l ++ newline)) <$> ls)) = to_text ls.
Proof. unfold to_text. by rewrite <-list_fmap_compose. Qed.

Lemma queue_agree w L name q us : represents w L → edit_ok (SaveQueue name q us) →
  agree (do_edit (SaveQueue name q us) w) (edit_spec (SaveQueue name q us) L).
Proof.
  intros Hr (its & Hq & Hok). simpl. unfold spl_save_queue. rewrite spl_map_to_fs_ok. path_case name p Hp.
  destruct (listed_cases w L name p Hr Hp) as [(_ & _ & Hl & Hx)|(us' & bytes & _ & _ & Hl & Hx & _)]; rewrite Hl, Hx;
    [rewrite bool_decide_eq_false_2 by (by intros [])|by rewrite bool_decide_eq_true_2].
  unfold Queue.GetLength. pose proof (QueueFacts.r_cap _ _ Hq). rewrite check_bind by lia. simpl.
  destruct (queue_calls q its us Hq Hok) as (calls & ls & -> & -> & Hls). simpl.
  rewrite write_file_ok, text_of_calls. simpl.
  refine (represents_put w L name p _ (to_text ls) Hr Hp _ _);
    [|exists ls; split; [done|]; split; [by eapply saved_lines|by apply lists_uris_saved]].
  apply Forall_lookup. intros i u Hu. destruct (Forall2_lookup_l _ _ _ _ _ Hls Hu) as (l & _ & Hl'). by exists l.
Qed.

Lemma edit_agree e w L : represents w L → edit_ok e → agree (do_edit e w) (edit_spec e L).
Proof.
  intros Hr Hok. destruct e; [by apply move_agree|by apply clear_agree|by apply delete_agree|by apply remove_agree|
    by apply append_agree|by apply rename_agree|by apply queue_agree].
Qed.

(** ** Histories *)

(** The states and errors of a sequence of edits; an edit that throws changes nothing. *)
Fixpoint history {S} (step : edit → S → outcome error S) (es : list edit) (s : S) : option (S * list (option error)) :=
  match es with
  | [] => Some (s, [])
  | e :: es =>
      match step e s with
      | Ret s => r ← history step es s; Some (r.1, None :: r.2)
      | Throw x => r ← history step es s; Some (r.1, Some x :: r.2)
      | Abort => None
      end
  end.

(** C22: stored playlists are lists of URIs.  Where the files represent a collection of
    lists, every history of edits (moving and removing entries, clearing, deleting and
    renaming playlists, appending songs, saving the queue) runs to its end without a failed
    assertion or an undefined access.  It throws the same errors as the edits of the lists
    themselves do, leaves files that represent the resulting lists, counts one idle event for
    each edit that changed something, and touches no file that is not a playlist; loading any
    playlist then gives its list up to the length limit, or reports that there is none. *)
Theorem stored_playlists_refine es w L : represents w L → Forall edit_ok es →
  ∃ w' L' errors, history do_edit es w = Some (w', errors) ∧ history edit_spec es L = Some (L', errors) ∧
    represents w' L' ∧
    ∀ name, Load name w' = (p ← path_of name; us ← listed L' p; Ret (visible us)).
Proof.
  intros Hr Hes. revert w L Hr. induction Hes as [|e es He _ IH]; intros w L Hr.
  - exists w, L, []. split_and!; [done|done|done|]. intros name. by apply Load_ok.
  - pose proof (edit_agree e w L Hr He) as Ha. unfold agree in Ha. simpl.
    destruct (do_edit e w) as [w1|x|], (edit_spec e L) as [L1|y|]; try done.
    + destruct (IH w1 L1 Ha) as (w' & L' & errors & -> & -> & H'). exists w', L', (None :: errors). by split; [|split].
    + subst y. destruct (IH w L Hr) as (w' & L' & errors & -> & -> & H'). exists w', L', (Some x :: errors). by split; [|split].
Qed.

End Playlists.

(** ** An example *)

Import RandomEngine.Lcg.

#[local] Instance no_heap : Heap := { fresh n := replicate n 0%Z; fresh_length n := length_replicate n 0%Z }.

(** Where paths are UTF-8, the conditions are decided by a computation. *)
Definition plain_check (music : path) (absolute : bool) (u : uri) (l : path) : bool :=
  negb (length u =? 0) && negb (existsb (λ c, (c =? 10)%Z || (c =? 0)%Z) l) && negb (bool_decide (last l = Some 13%Z)) &&
  (Z.of_nat (length l) <? 512 * 1024)%Z && negb (length l =? 0) && negb (first l =? PLAYLIST_COMMENT)%Z &&
  if uri_has_scheme u then bool_decide (l = u)
  else if UriUtil.IsAbsolute u then
    bool_decide (l = u) && bool_decide (PathTraits.Relative music u = None)
  else if absolute then
    bool_decide (l = PathTraits.Build music u) && UriUtil.IsAbsolute music && negb (bool_decide (last music = Some slash)) &&
    negb (uri_has_scheme l)
  else bool_decide (l = u).

Lemma plain_saved music absolute u l : plain_check music absolute u l = true → saved_as None music absolute u l.
Proof.
  unfold plain_check. rewrite !andb_true_iff, !negb_true_iff. intros ((((((Hu & Hc) & Hr) & Hm) & Hl) & Hf) & H).
  assert (Hconv : converts None u u) by (split_and!; [done|done|by intros ->]).
  unfold saved_as, line_ok. split_and!; [|intros Hin|intros Hin|by apply bool_decide_eq_false_1 in Hr|unfold MAX_SIZE; lia|by intros ->|lia].
  - destruct (uri_has_scheme u) eqn:Es; [apply bool_decide_eq_true_1 in H as ->; by apply line_url|].
    destruct (UriUtil.IsAbsolute u) eqn:Ea.
    + apply andb_true_iff in H as [->%bool_decide_eq_true_1 H%bool_decide_eq_true_1]. apply line_file; try done. by right.
    + destruct absolute; [|apply bool_decide_eq_true_1 in H as ->; by apply line_relative].
      rewrite !andb_true_iff, !negb_true_iff in H.
      destruct H as (((->%bool_decide_eq_true_1 & Hma) & Hml%bool_decide_eq_false_1) & Hs).
      apply line_below; try done; [by intros ->|by intros ->].
  - apply not_true_iff_false in Hc. apply Hc, existsb_exists. exists 10%Z. split; [by apply list_elem_of_In|done].
  - apply not_true_iff_false in Hc. apply Hc, existsb_exists. exists 0%Z. split; [by apply list_elem_of_In|done].
Qed.

Lemma short_check l : negb (existsb (λ c, c =? 10)%Z l) && (Z.of_nat (length l) <? 512 * 1024)%Z = true → short_line l.
Proof.
  rewrite andb_true_iff, negb_true_iff. intros [Hc Hl]. split; [|unfold MAX_SIZE; lia]. intros Hin.
  apply not_true_iff_false in Hc. apply Hc, existsb_exists. exists 10%Z. split; [by apply list_elem_of_In|done].
Qed.

Definition example_music : path := str "/m".
Definition example_dir : path := str "/p".
Definition example_file : path := str "/p/a.m3u".
Definition example_lines : list (list Z) := [str "#EXTM3U"; []; str "/m/x.ogg" ++ [13%Z]; str "http://h/s"].
Definition example_world : world := mkWorld {[ example_file := to_text example_lines ]} 0.
Definition example_library : library := mkLibrary {[ example_file := [str "x.ogg"; str "http://h/s"] ]} 0.

(** The database knows where its song is. *)
Definition example_queue : Queue.Queue DetachedSong Z :=
  QueueProps.build 4 [(Song.mkSong (str "x.ogg") (str "/m/x.ogg") Tag.empty 0 0 0, 0%Z); (Song.of_uri (str "http://h/q"), 0%Z)].

Lemma stored_queue_repr : QueueFacts.repr example_queue (QueueProps.contents example_queue).
Proof. apply QueueProps.built_repr, QueueProps.build_built; [lia|simpl; lia|]. repeat constructor; simpl; lia. Qed.

Definition example_edits : list (edit (G:=Z)) :=
  [AppendSong (str "a") (Song.of_uri (str "http://h/y")) (str "http://h/y"); Move (str "a") 0 2; RemoveIndex (str "a") 7;
   RenameList (str "a") (str "b"); ClearList (str "a");
   SaveQueue (str "c") example_queue [str "x.ogg"; str "http://h/q"]].

Lemma example_represents : represents None example_music example_dir true (files example_world !!.) example_world example_library.
Proof.
  split_and!; [done|done|]. intros name p _. simpl. destruct (decide (p = example_file)) as [->|Hne].
  - rewrite !lookup_singleton_eq. split.
    + repeat apply Forall_cons_2; [exists (str "/m/x.ogg")|exists (str "http://h/s")|apply Forall_nil_2];
        apply plain_saved; vm_compute; reflexivity.
    + eexists. split; [done|]. exists example_lines. split; [done|]. split.
      * repeat apply Forall_cons_2; [apply short_check; vm_compute; reflexivity..|apply Forall_nil_2].
      * apply lists_comment, lists_empty, (lists_uri_cr _ _ _ (str "x.ogg")), lists_uri, lists_end;
          apply plain_saved; vm_compute; reflexivity.
  - by rewrite !lookup_singleton_ne.
Qed.

Lemma stored_playlists_refine_witness :
  ∃ w', history (do_edit None example_music example_dir 3 true [5; 2] (G:=Z)) example_edits example_world =
      Some (w', [None; None; Some (Playlist_error BAD_RANGE); None; Some (Playlist_error NO_SUCH_LIST); None]) ∧
    LoadPlaylistFile None example_music example_dir 3 [1; 8] (str "b") w' =
      Ret [str "http://h/s"; str "http://h/y"; str "x.ogg"] ∧
    LoadPlaylistFile None example_music example_dir 3 [] (str "c") w' = Ret [str "x.ogg"; str "http://h/q"].
Proof.
  destruct (stored_playlists_refine None example_music example_dir 3 true [5; 2] ltac:(lia) (files example_world !!.)
    example_edits example_world example_library example_represents) as (w' & L' & errors & Hw & HL & Hr & Hload).
  { repeat apply Forall_cons_2; [|done..| |apply Forall_nil_2].
    - exists (str "http://h/y"). split; [done|]. apply plain_saved. vm_compute. reflexivity.
    - exists (QueueProps.contents example_queue). split; [exact stored_queue_repr|].
      repeat apply Forall2_cons_2; [exists (str "/m/x.ogg")|exists (str "http://h/q")|apply Forall2_nil_2];
        (split; [vm_compute; reflexivity|apply plain_saved; vm_compute; reflexivity]). }
  exists w'.
  assert (E : (λ r : library * list (option error), (r.2, lists r.1 !! str "/p/b.m3u", lists r.1 !! str "/p/c.m3u")) <$>
    history (edit_spec None example_dir 3 (G:=Z)) example_edits example_library =
    Some ([None; None; Some (Playlist_error BAD_RANGE); None; Some (Playlist_error NO_SUCH_LIST); None],
          Some [str "http://h/s"; str "http://h/y"; str "x.ogg"], Some [str "x.ogg"; str "http://h/q"]))
    by (vm_compute; reflexivity).
  rewrite HL in E. simpl in E. injection E as -> Eb Ec. split; [done|]. split.
  - rewrite (Load_ok None example_music example_dir 3 true [1; 8] ltac:(lia) (files example_world !!.) (str "b") w' L' Hr).
    change (path_of None example_dir (str "b")) with (Ret (str "/p/b.m3u") : outcome error path).
    unfold listed. cbn [mbind outcome_bind]. by rewrite Eb.
  - rewrite (Load_ok None example_music example_dir 3 true [] ltac:(lia) (files example_world !!.) (str "c") w' L' Hr).
    change (path_of None example_dir (str "c")) with (Ret (str "/p/c.m3u") : outcome error path).
    unfold listed. cbn [mbind outcome_bind]. by rewrite Ec.
Defined.

(** ** Outside of the conditions *)

#[local] Abbreviation example_append song max :=
  (spl_append_song None example_dir max false (str "a") song).
#[local] Abbreviation example_load max := (LoadPlaylistFile None [] example_dir max [] (str "a")).

(** A file whose name begins with the comment character is written, and taken for a comment. *)
Example comment_uri :
  (w ← example_append (Song.of_uri (str "#1.ogg")) 9 (mkWorld {[ example_file := [] ]} 0); example_load 9 w) = Ret [].
Proof. vm_compute. reflexivity. Qed.

(** The size of a playlist is never too large to append a song. *)
Example append_beyond_limit :
  files <$> (match example_append (Song.of_uri (str "x")) 1 (mkWorld {[ example_file := replicate 9000 10%Z ]} 0) with
             | Ret w => Some w | _ => None end) = Some {[ example_file := replicate 9000 10%Z ++ str "x" ++ newline ]}.
Proof. vm_compute. reflexivity. Qed.

(** A song appended to a file without a final line end is joined with its last entry. *)
Example append_unterminated :
  (w ← example_append (Song.of_uri (str "y")) 9 (mkWorld {[ example_file := str "x" ]} 0); example_load 9 w) =
  Ret [str "xy"].
Proof. vm_compute. reflexivity. Qed.

End StoredPlaylistsProps.
